(* ===== verification/_CoqProject ===== *)
-Q . S2P
Prelude.v
Fsm.v
FsmTree.v
FsmProps.v
FsmState.v
PackCompile.v
Guard.v
LoopDriver.v
LoopProps.v
Json.v
Workgraph.v
WorkgraphProps.v
ExprSyntax.v
ExprGrammar.v
ExprEval.v
ExprProps.v
Bus.v
Actors.v
RateLimit.v
RateLimitProps.v
HarnessSync.v
HarnessProps.v
JsonText.v
CanonicalJson.v
CheckpointStore.v
CheckpointProps.v
Evaluator.v
EvaluatorProps.v
EvaluatorSpec.v
MemoCache.v
MemoProps.v
Resumer.v
Skills.v
Dispatch.v
DispatchProps.v
Regex.v
Shell.v
Safety.v
Yolo.v
CapabilityGate.v
PreTool.v
GuardProps.v
Effects.v
LapOutcome.v
Ralph.v
RalphBoard.v
RalphProps.v
RalphTrace.v
RalphDemo.v
ScopeEntry.v
ScopeProps.v
ScopeQueue.v
ScopeDemo.v
LoopEvents.v
LoopLogProps.v
LoopBoard.v
LoopBoardProps.v
LoopProjection.v
Threads.v
ProcessState.v
ProcessControl.v
ProcessProps.v
ProcessRun.v
LoopDemo.v
AuditEvidence.v
AuditProps.v
ObservedActor.v
SessionFacts.v
FactsProps.v
CachedAudit.v
GuardContext.v
GuardContextProps.v
PlanGate.v
PlanGateProps.v
Reports.v
CartridgeHost.v
HostProps.v
HostDemo.v
Admission.v
AdmissionProps.v
