(* ===== verification/Prelude.v ===== *)
(** * OpenSquid core: verification development

    OpenSquid runs coding agents through packs: a pack declares a flow (a
    finite state machine with gates, decisions and executors), the runtime
    compiles it and drives it, guards stop degenerate tool loops, skills run on
    boolean conditions, work items live in an event-sourced work graph, actors
    exchange envelopes over a bus, triggers are rate limited, and a skill's rule
    is a process of primitive calls that is checkpointed, memoised and resumed
    after a crash.  This library models those parts of [src/src] as executable
    functions and proves what each promises.  Other files of the repository are named by their path.

    ** Files

    - [Prelude]: the result monad ([x <-? m ;; k], [guard_throw]), tactics,
      hint databases, string splitting and joining, insertion-ordered sets and
      objects, and a stable sort, shared by all components.
    - [Fsm], [FsmTree], [FsmProps]: [runtime/fsm.ts].  Statecharts as nested
      association lists, configurations as lists of leaf paths; validation,
      initial configuration, [step] with history memory, the eventless [settle],
      and the flat facade.  [FsmTree] relates path strings to the tree and
      defines well-formed configurations.
    - [FsmState]: [runtime/fsm_state.ts].  The state file of a session as an
      entry of a map from path to parsed contents; reads, advances, the
      compare-and-set persist.
    - [PackCompile]: [packs/compile_v2.ts] and [packs/schemas/pack_v2.ts].  The
      pack record, the schema's cross-field checks and the compiler.
    - [Guard]: [runtime/guard/progress_floor.ts] and [guard/connector.ts].
    - [LoopDriver], [LoopProps]: [runtime/loop/driver.ts] with the gate,
      decision and executor dispatch it calls, per-event transition evaluation
      and arbitration.  What an executor's inner loop does is the class
      [Environment].
    - [Json]: JSON values, [JSON.stringify] and the canonical encoding.
    - [Workgraph], [WorkgraphProps]: [workgraph/types.ts], [events.ts],
      [store.ts].  The op log and the projection as finite maps, every
      operation of the store in a state monad; SHA-256 is a parameter, and
      [Interference] is what other processes do between an operation's attempts.
    - [ExprSyntax], [ExprGrammar], [ExprEval], [ExprProps]:
      [runtime/evaluator/expression/*] and [integrations/pi/tool_aliases.ts].
      Tokenizer, parser, interpreter and the cached condition; RE2 and the LRU
      cache are the classes [Re2] and [ParseCache].
    - [Bus]: [runtime/bus/*] and [runtime/gate/kernel.ts].
    - [Actors]: [runtime/actor/*] and [runtime/topology/topology.ts].  The actor
      contract is the class [ActorPort], against which the supervisor and the
      topology are proved; [BaseActor] implements it over [Fsm.step].
    - [RateLimit], [RateLimitProps]: [runtime/rate_limit.ts].  Calls as the
      storage statements they await, interleaved and failing at will.
    - [HarnessSync], [HarnessProps]: [workgraph/harness_sync.ts] and
      [harness_map.ts], over an interface of the work graph.
    - [JsonText]: [JSON.parse] and its inverse law.  [CanonicalJson]:
      [runtime/durable/canonical_json.ts] and [run_id.ts], on the values
      JavaScript can hand to storage.
    - [CheckpointStore], [CheckpointProps]: [runtime/durable/checkpoint_store.ts],
      its four tables as finite maps and a list.
    - [Evaluator]: [runtime/evaluator.ts] and [functions/registry.ts].  An
      evaluation maps a world (store, cache, environment) to its effects, each
      with the world it left, its outcome and the last world.  The cache is the
      class [Memo].  [EvaluatorProps] states what the class promises
      ([MemoLaws]) and proves crash recovery; [EvaluatorSpec] the rest.
    - [MemoCache], [MemoProps]: [runtime/durable/memo_cache.ts], the instance of
      [Memo] and [MemoLaws], its memory tier any [LruCache].
    - [Resumer]: [runtime/durable/resumer.ts].
    - [Skills], [Dispatch], [DispatchProps]: [runtime/hooks/dispatch.ts] with the
      skill residency, matchers, preconditions, facets, drift policies and
      professions it calls.  A dispatch acts on the evaluator's world; the
      session's files are the class [HookFiles], [RegExp] and [minimatch] the
      class [Patterns].
    - [Regex]: regular expressions with a matcher proved against their meaning,
      for the patterns the guards are made of.
    - [Shell]: [functions/shell_parse.ts] and the read-only classifier.
      [Safety], [Yolo]: [runtime/guard/*], [runtime/loop/write_lane.ts] and
      [runtime/hooks/apply_patch.ts].  [CapabilityGate]:
      [runtime/capability_gate.ts] and [builtin_denylist.ts].  [PreTool]:
      [runtime/hooks/lifecycle/pre_tool_call.ts], over the class [PreToolOps] of
      its injected dependencies.  [GuardProps]: what they enforce.  Globs and
      URLs are the classes [Globs] and [Urls].
    - [Effects]: programs that act on a world and may throw, with the rules the
      loop's proofs use.  [LapOutcome]: [runtime/ralph/lap_outcome.ts].  [Ralph]:
      [runtime/ralph/orchestrator.ts] with the supervisor, escalation, commit
      gate, board and upkeep modules it calls; what the code is given (work
      graph, laps, git, stages, reports) is the record [RalphDeps].
      [RalphBoard] is the class [BoardLaws] of a store that keeps a board and
      what upkeep does to it, [RalphProps] the classes [DriveLaws] and
      [LoopLaws] of a quiet world and what a run does in it, [RalphTrace] the
      calls a run makes in any world.  [RalphDemo] is a world that keeps the
      laws, with runs that show where the code is surprising.
    - [ScopeEntry], [ScopeProps], [ScopeQueue], [ScopeDemo]:
      [packs/runtime/fullstack_scope.ts].  The stores an entry reads and writes
      are the class [ScopeDeps]; [ScopeProps] is the class [ReadLaws] of
      observations that are true of the world and [EntryLaws] of stores that
      obey; [ScopeQueue] is the per-session queue of calls as a step relation,
      [ScopeDemo] a world that keeps the laws.
    - [AuditEvidence], [AuditProps]: [runtime/loop/audit_evidence.ts] and
      [task_audit_cache.ts].  [CachedAudit]: [functions/cached_audit.ts] and
      [audit_fanout.ts], the model a parameter.  [GuardContext],
      [GuardContextProps]: [runtime/loop/guard_context.ts] and
      [scope_audit_policy.ts], what a condition sees of the stored evidence.
    - [SessionFacts], [FactsProps]: the facts a session records and the facets
      read from them ([runtime/workflow_phases.ts], [coverage/captured_ask.ts]
      and [verification.ts], [readiness.ts], [external_consult.ts],
      [acceptance.ts], [code_evidence.ts], [deploy_evidence.ts] of
      [runtime/loop]).  [PlanGate], [PlanGateProps]: [plan_audit.ts] and
      [plan_evidence.ts] with the anchors, the coverage check and the report
      checklist.  [Reports]: the texts of the stage reports.
    - [ObservedActor]: [runtime/loop/v2_observed_actor.ts],
      [guard_evaluator.ts] and [runtime/skill/state_skills.ts].
      [CartridgeHost], [HostProps]: [runtime/loop/v2_supply.ts], a program of
      the operations it asks of files, tables and packs, each of which may
      throw.  [HostDemo] applies the theorems of these files.
    - [Admission], [AdmissionProps]: [runtime/audit_admission.ts] and
      [runtime/ralph/loop_owner.ts], programs that take locks of the kernel;
      [AdmissionProps] runs any number of them on a machine where each may die.

    [PackCompile] and [FsmState] call [Fsm]; [LoopDriver] runs what
    [PackCompile] produces and asks [Guard] after every call; [Actors] steps
    machines of [Fsm] and publishes on [Bus]; [ExprEval]'s numbers serve
    [RateLimit].  [Evaluator] decides its conditions with [ExprEval], reads and
    writes [CheckpointStore], whose values go through [CanonicalJson], and asks
    [MemoCache]; [Resumer] scans the store an evaluation left; [Dispatch]
    evaluates a pack's rules with [Evaluator], uncheckpointed; [PreTool] asks
    [Safety] before it dispatches; [ScopeEntry] engages the scope that [PreTool]
    enforces; [Ralph] takes items of [Workgraph].  [ObservedActor] chains the
    dispatch of [LoopDriver] on the conditions of [ExprEval]; [CartridgeHost]
    seeds it from the state [FsmState] keeps, gives it the context of
    [GuardContext] and [SessionFacts], and applies what it returns; the
    evidence [GuardContext] reads is what [CachedAudit] wrote, under the locks
    of [Admission], which also keeps one [Ralph] to a project.  [LoopBoard] and
    [ProcessState] fold the rows of [LoopEvents], which [ProcessControl] appends.

    ** What is shown

    - Statecharts: reachable configurations of a validated chart are sets of
      atomic leaves, exclusive below compounds when joins stay in their regions,
      with every region of a parallel active when targets are entered whole; a step fires the first enabled transition; its flag is
      exactly "the configuration changed"; [settle] takes innermost eligible
      joins to a fixpoint; the flat facade is table lookup.
    - Compilation: a pack that compiles has a valid machine, exact metadata,
      routed events, resolved guards, sub-flows that resolve in its registry, and
      exactly the declared stages automated.
    - The loop: an executor advances exactly when its guard was observed to
      hold with no halt before; compiled dispatch is total along the authored
      edges; a machine ships exactly when its walk reaches a shipped terminal;
      descending sub-flows end; per-event evaluation agrees with the driver;
      arbitration stops at the first blocking region; the floor's action is a
      function of the call history.
    - Persistence: an advance reads back; the persist is a compare-and-set.
    - The work graph: rebuilding reproduces the live store; a claim is a
      compare-and-set at the moment its fold acts, whatever other processes do
      around it; readiness, updates and appends are characterised; op ids
      determine what they hash; the canonical encoding determines content.
    - Conditions: the parser decides its grammar; the capped interpreter is
      the uncapped meaning cut at the caps; a condition fails closed whatever
      the cache holds.
    - Messaging: a replay returns exactly the retained envelopes; a crash
      wedges exactly when the window is full; an actor is registered exactly
      while connected.
    - Rate limits: interleaved calls are serializable under faults, no release
      that ended is lost unless it was reported, and buckets
      stay within their limits in double arithmetic.
    - Synchronisation with a harness settles every task at once and for good.
    - Durable evaluation: a crash placed after any effect, and a new evaluation
      over what is left, runs no recorded step again; cut where a row was just
      recorded, the outcome and the world are those of the uncut evaluation.
      Results are well typed, effects come in step order, the cache is
      transparent; a value comes back from storage as it went in; bindings are
      those of the latest completed steps; a cached value is served until its
      deadline whatever is evicted.
    - Resumption: the scan reports exactly the interrupted runs, and a startup
      accounts for each of them.
    - Hooks: the nested walk over packs, skills and rules is one loop over the
      eligible rules, and the first blocking verdict decides it; a skill's tick
      counts since its activation.
    - Guards: the tokenizer reads back what was typed; the first matching rule of
      the safety floor decides and the mode relaxes one tier; the shipped policy
      halts what it names; the floor comes before everything else; an engaged
      scope confines edits and patches to its lane; the capability gate allows exactly what
      no denylist refuses and something grants.
    - The autonomous loop: it runs the board to exhaustion; with the git seam
      wired, a pass closes what it claimed and drove, backed by commits on the
      integration target, and only ancestors of it besides; a stage that does not advance is
      driven a bounded number of times; roll-ups close exactly the parents that
      are due; the exit a lap prints is the one the loop reads.
    - Entering a scope: whatever store fails, an entry reports what the records
      say, names a recovery exactly where one can help, and on honest stores is
      indeterminate only where records contradict each other; on stores that obey, selecting an item engages it; the calls of a
      session take turns.
    - The loop's log: a receipt once accepted is permanent under plain statements
      of any client; an event appended is
      read back; the board is a function of each item's own events, also when
      it is folded incrementally by refreshes that overlap; the watch announces
      the drain of an orderly log; the status line fits its width.
    - Process control: a process is its last start and what followed; every
      signal but the transport's own shutdown of its tree answers one request,
      once, a direct one goes to the group or Job Object registered for the
      process whose identity was just read, an owner's to its child; a request no owner takes ends applied or
      failed with the reason.
    - The cartridge host: whatever it is answered, it persists only for loaded
      packs and never when it only enforces, logs a transition only after the
      move was accepted, and reacts only to logged transitions; a watched
      cartridge moves along its authored flow.
    - Audits: a pass needs the pass line of every lens; the tables give back
      what was written; what a gate reads of an approved artifact certifies its
      current bytes; an answer of the primitive is about the current
      declaration, each output a review of this subject under this policy.
    - Evidence: the facets of the code and deploy gates are functions of the
      recorded history; the plan audit finds exactly the cycles and the
      uncovered elements.
    - Admission: two fan-outs at most, one audit of a task and key, one loop on
      a project, whatever dies when; an observer is never told that a session
      with a running fan-out is idle.
    - What the code does not do: lemmas beside the theorems exhibit runs in
      which a documented promise fails (misrouted gates, self-nesting flows,
      loops the floor blocks forever, cross-region transitions, colliding state
      keys, interleaved claims, wedges undone by a sleeping restart, overlapping
      checks, restarts with hydrated bindings, primitives that throw or return [undefined], plain objects revived as
      bytes, one unreadable run that stops a startup, a pinned skill gated by
      its namesake, calls that pass the guards under another name or role, a
      staged project whose items never ship, stages that pass an item back and
      forth forever, a watch that misses the drain, a request abandoned by its
      claimant, an audit channel whose evidence is never accepted, a scope
      element grounded in nothing, a lock kept by an acquisition that threw, a
      join that leaves a sibling region behind, a receipt replaced by another).

    ** Conventions, bounds and fuel

    JavaScript objects and sets are association lists and duplicate-free lists
    in insertion order; strings are byte strings, so lengths count bytes;
    a thrown error is a value of [result].  Doubles are rationals with
    correct rounding ([nearest_double]), an infinity or NaN; zero has no sign.
    A value handed to storage is a [JsValue]; [storable] ones (no [undefined],
    keys in canonical order, no object shaped like the byte envelope) come back
    unchanged.  SHA-256, primitives, resolvers and clocks are parameters.
    Recursion over trees is structural.  Fuel appears where the code loops:
    path walks use the number of segments, the parser the number of tokens
    (each turn consumes one; [parse_iff_grammar] shows it suffices), the
    tokenizer, [JSON.parse] and template replacement the length of their input
    ([parse_stringify] shows that it suffices for what [JSON.stringify] writes); [settle] keeps the code's own cap;
    [runToTerminal] keeps the code's step cap and counts sub-flow nesting in
    its fuel, with [descending_flows_terminate] giving a depth that suffices
    and [self_nesting_flow_never_ends] a pack for which none does.  The loop's
    passes and the turns of a drive take fuel; [loop_runs_to_exhaustion] says
    how much is enough, and [ping_pong_never_ends] shows a drive no fuel ends.
    The actor's chain keeps the code's cap; binding a loop's endpoint takes a
    number of turns, and what is shown holds for every number; Kahn's queue takes one turn per node.
    A requester's wait for a receipt takes a number of polls; what is shown of
    it holds for every number.  Renewals of a claim, which a timer fires during a lap, are placed at its
    end; narration and reports are operations like any other.

    ** Not modelled

    Process and network I/O (hook processes, daemons, channels, MCP and CLI front ends,
    model and retrieval backends), secrets, the primitives except the cached
    audit (whose telemetry and raw arguments are left out), the facets
    of [packs/runtime/fullstack_flow.ts] as one operation of the host, the
    tooling around the loop (worktrees, harness processes, release),
    how a process is inspected and a Job Object controlled, pack discovery, and schema
    parsing: the records of [PackCompile] are parsed packs.  Table creation and
    the reading of environment variables are left out of the modelled parts. *)

From Stdlib Require Import Ascii String Sorted Permutation.
From stdpp Require Import base option list list_numbers strings pretty gmap sorting.

#[global] Open Scope string_scope.
#[global] Open Scope list_scope.
(** [s1 +:+ s2] computes as soon as [s1] is a constructor. *)
#[global] Arguments String.append !_ _ / : simpl nomatch.

(** ** Errors

    A [throw new Error(msg)] is a value of [result string A]; other error
    types are used where the code distinguishes the errors it catches. *)
Inductive result (E A : Type) : Type :=
| Ok (a : A)
| Err (e : E).
Arguments Ok {E A} a.
Arguments Err {E A} e.

#[export] Instance result_ret {E} : MRet (result E) := fun A a => Ok a.
#[export] Instance result_bind {E} : MBind (result E) :=
  fun A B f m => match m with Ok a => f a | Err e => Err e end.
#[export] Instance result_fmap {E} : FMap (result E) :=
  fun A B f m => match m with Ok a => Ok (f a) | Err e => Err e end.

Definition is_ok {E A} (r : result E A) : bool :=
  match r with Ok _ => true | Err _ => false end.

(** [x <-? m ;; k] sequences fallible code, [guard_throw] is the code's
    [if (!cond) throw new Error(msg)]. *)
Declare Scope os_scope.
Delimit Scope os_scope with os.
Notation "x '<-?' m ';;' k" := (mbind (M := result _) (fun x => k) m)
  (at level 100, m at next level, right associativity) : os_scope.
Notation "'guard_throw' b 'msg' e ';;' k" := (if (b : bool) then k else Err e)
  (at level 100, b at next level, e at next level, right associativity) : os_scope.

Lemma bind_ok {E A B} (m : result E A) (f : A -> result E B) b :
  mbind f m = Ok b <-> exists a, m = Ok a /\ f a = Ok b.
Proof. destruct m as [a|e]; cbn; split; naive_solver. Qed.

(** ** Tactics *)

(** Split a boolean conjunction/disjunction/negation and turn the decidable
    tests the definitions use into propositions. *)
Ltac reflect_bools :=
  repeat match goal with
  | H : andb _ _ = true |- _ => apply andb_true_iff in H; destruct H
  | H : orb _ _ = false |- _ => apply orb_false_iff in H; destruct H
  | H : negb _ = true |- _ => apply negb_true_iff in H
  | H : negb _ = false |- _ => apply negb_false_iff in H
  | H : bool_decide _ = true |- _ => apply bool_decide_eq_true in H
  | H : bool_decide _ = false |- _ => apply bool_decide_eq_false in H
  | H : (_ =? _)%string = true |- _ => apply String.eqb_eq in H
  | H : (_ =? _)%string = false |- _ => apply String.eqb_neq in H
  end.

(** Destruct the innermost scrutinee of a [match]/[if] in the goal. *)
Ltac case_goal :=
  match goal with
  | |- context [match ?x with _ => _ end] =>
      lazymatch x with context [match _ with _ => _ end] => fail | _ => destruct x eqn:? end
  end.
Ltac case_hyp H :=
  match type of H with
  | context [match ?x with _ => _ end] =>
      lazymatch x with context [match _ with _ => _ end] => fail | _ => destruct x eqn:? end
  end.

(** ** Strings: [s.split(c)], [parts.join(c)], [s.startsWith(p)] *)
Fixpoint split_char (c : ascii) (s : string) : list string :=
  match s with
  | EmptyString => [""]
  | String a s' =>
      if Ascii.eqb a c then "" :: split_char c s'
      else match split_char c s' with
           | h :: t => String a h :: t
           | [] => [String a ""]
           end
  end.

Fixpoint join_with (sep : string) (l : list string) : string :=
  match l with
  | [] => ""
  | [x] => x
  | x :: rest => x +:+ sep +:+ join_with sep rest
  end.

Fixpoint has_char (c : ascii) (s : string) : bool :=
  match s with
  | EmptyString => false
  | String a s' => Ascii.eqb a c || has_char c s'
  end.

Definition starts_with (s p : string) : bool := String.prefix p s.

Lemma string_app_assoc (s1 s2 s3 : string) : (s1 +:+ s2) +:+ s3 = s1 +:+ (s2 +:+ s3).
Proof. induction s1; cbn; congruence. Qed.

Lemma string_app_nil_r (s : string) : s +:+ "" = s.
Proof. induction s; cbn; congruence. Qed.

Lemma string_app_length (s1 s2 : string) :
  String.length (s1 +:+ s2) = String.length s1 + String.length s2.
Proof. induction s1; cbn; congruence. Qed.

Lemma string_app_inj_l (p s1 s2 : string) : p +:+ s1 = p +:+ s2 -> s1 = s2.
Proof. induction p; cbn; intros H; [done|]. apply IHp. congruence. Qed.

Lemma string_app_inj_length (a b s t : string) :
  String.length a = String.length b -> a +:+ s = b +:+ t -> a = b /\ s = t.
Proof.
  revert b. induction a as [|x a IH]; intros [|y b] Hl He; try done.
  cbn in *. injection He as -> He. destruct (IH b) as [-> ->]; [lia|done|done].
Qed.

Lemma starts_with_spec s p : starts_with s p = true <-> exists r, s = p +:+ r.
Proof.
  unfold starts_with. revert s. induction p as [|a p IH]; intros s; cbn.
  - destruct s; split; eauto.
  - destruct s as [|b s]; cbn; [split; [done|intros [r Hr]; done]|].
    destruct (ascii_dec a b) as [->|Hne]; cbn.
    + rewrite IH. split; intros [r Hr]; exists r; cbn in *; congruence.
    + split; [done|intros [r Hr]; cbn in Hr; congruence].
Qed.

Lemma has_char_app c s1 s2 : has_char c (s1 +:+ s2) = has_char c s1 || has_char c s2.
Proof. induction s1; cbn; [done|]. rewrite IHs1. by rewrite orb_assoc. Qed.

Lemma split_char_nonnil c s : split_char c s <> [].
Proof. destruct s as [|a s]; cbn; [done|]. repeat case_match; done. Qed.

Lemma split_char_atom c s : has_char c s = false -> split_char c s = [s].
Proof.
  induction s as [|a s IH]; cbn; [done|]. intros [-> Hs]%orb_false_iff. by rewrite IH.
Qed.

Lemma split_char_app c s1 s2 :
  has_char c s1 = false ->
  split_char c (s1 +:+ String c s2) = s1 :: split_char c s2.
Proof.
  induction s1 as [|a s1 IH]; cbn; [intros _; by rewrite Ascii.eqb_refl|].
  intros [-> Hs]%orb_false_iff. by rewrite IH.
Qed.

Lemma split_char_app_any c s1 s2 :
  split_char c (s1 +:+ String c s2) = split_char c s1 ++ split_char c s2.
Proof.
  induction s1 as [|a s1 IH]; cbn; [by rewrite Ascii.eqb_refl|].
  case_match; rewrite IH; [done|].
  pose proof (split_char_nonnil c s1). by destruct (split_char c s1).
Qed.

Lemma join_with_cons sep x l :
  l <> [] -> join_with sep (x :: l) = x +:+ sep +:+ join_with sep l.
Proof. by destruct l. Qed.

Lemma join_with_app sep l1 l2 :
  l1 <> [] -> l2 <> [] ->
  join_with sep (l1 ++ l2) = join_with sep l1 +:+ sep +:+ join_with sep l2.
Proof.
  intros H1 H2. induction l1 as [|x l1 IH]; [done|].
  destruct l1 as [|y l1]; [cbn; by destruct l2|].
  rewrite <- app_comm_cons. rewrite !join_with_cons by done.
  rewrite IH by done. by rewrite !string_app_assoc.
Qed.

Lemma split_join (c : ascii) (l : list string) :
  l <> [] -> Forall (fun x => has_char c x = false) l ->
  split_char c (join_with (String c "") l) = l.
Proof.
  intros Hne Hl. induction Hl as [|x l Hx Hl IH]; [done|].
  destruct l as [|y l]; [by apply split_char_atom|].
  rewrite join_with_cons by done. cbn [String.append]. rewrite split_char_app by done.
  by rewrite IH.
Qed.

Lemma join_split (c : ascii) (s : string) :
  join_with (String c "") (split_char c s) = s.
Proof.
  induction s as [|a s IH]; [done|]. cbn [split_char]. case_match eqn:E.
  - apply Ascii.eqb_eq in E as ->. rewrite join_with_cons by apply split_char_nonnil.
    cbn. by rewrite IH.
  - pose proof (split_char_nonnil c s) as Hne.
    destruct (split_char c s) as [|h [|h' t]]; [done| |]; cbn in *; by rewrite IH.
Qed.

Lemma split_char_inj c s1 s2 : split_char c s1 = split_char c s2 -> s1 = s2.
Proof. intros H. rewrite <- (join_split c s1), <- (join_split c s2). by rewrite H. Qed.

Lemma split_char_no_sep c s : Forall (fun x => has_char c x = false) (split_char c s).
Proof.
  induction s as [|a s IH]; [by repeat constructor|]. cbn [split_char].
  case_match eqn:E; [by constructor|].
  destruct (split_char c s) as [|h t]; [constructor; [cbn; by rewrite E|constructor]|].
  apply Forall_cons in IH as [Hh Ht]. constructor; [cbn; by rewrite E, Hh|done].
Qed.

(** ** JavaScript [Set<string>] in insertion order: a duplicate-free list *)
Section JsSet.
Context {A : Type} `{EqDecision A}.

Definition set_has (x : A) (s : list A) : bool := bool_decide (x ∈ s).
Definition set_add (s : list A) (x : A) : list A :=
  if set_has x s then s else s ++ [x].
Definition set_of (l : list A) : list A := fold_left set_add l [].

Lemma set_has_spec x s : set_has x s = true <-> x ∈ s.
Proof. unfold set_has. by rewrite bool_decide_eq_true. Qed.

Lemma elem_of_set_add x y s : x ∈ set_add s y <-> x ∈ s \/ x = y.
Proof.
  unfold set_add. destruct (set_has y s) eqn:E.
  - apply set_has_spec in E. naive_solver.
  - rewrite elem_of_app, list_elem_of_singleton. done.
Qed.

Lemma NoDup_set_add s y : NoDup s -> NoDup (set_add s y).
Proof.
  unfold set_add, set_has. case_bool_decide as Hy; [done|]. intros Hs.
  apply NoDup_app. split_and!; [done| |by apply NoDup_singleton].
  intros x Hx ->%list_elem_of_singleton. done.
Qed.

Lemma elem_of_set_adds x l s : x ∈ fold_left set_add l s <-> x ∈ s \/ x ∈ l.
Proof.
  revert s. induction l as [|y l IH]; intros s; cbn; [set_solver|].
  rewrite IH, elem_of_set_add. set_solver.
Qed.

Lemma NoDup_set_adds l s : NoDup s -> NoDup (fold_left set_add l s).
Proof. revert s. induction l; intros s Hs; cbn; [done|]. auto using NoDup_set_add. Qed.

Lemma elem_of_set_of x l : x ∈ set_of l <-> x ∈ l.
Proof. unfold set_of. rewrite elem_of_set_adds. set_solver. Qed.

Lemma NoDup_set_of l : NoDup (set_of l).
Proof. apply NoDup_set_adds, NoDup_nil_2. Qed.

(** The code compares two sets by size and one inclusion. *)
Lemma NoDup_same_size_incl (l k : list A) :
  NoDup l -> NoDup k -> length l = length k -> (forall x, x ∈ l -> x ∈ k) ->
  forall x, x ∈ l <-> x ∈ k.
Proof.
  intros Hl Hk Hlen Hin x. split; [auto|].
  assert (l ⊆+ k) as Hsub by (apply NoDup_submseteq; auto).
  apply submseteq_length_Permutation in Hsub; [|lia]. by rewrite Hsub.
Qed.
End JsSet.

(** ** Stable sorting ([Array.prototype.sort] with a comparator)

    [le x y] is the code's [cmp(x, y) <= 0]. *)
Section StableSort.
Context {A : Type} (le : A -> A -> bool).

Fixpoint sort_insert (x : A) (l : list A) : list A :=
  match l with
  | [] => [x]
  | y :: l' => if le x y then x :: l else y :: sort_insert x l'
  end.
Definition stable_sort (l : list A) : list A := foldr sort_insert [] l.

Lemma sort_insert_perm x l : sort_insert x l ≡ₚ x :: l.
Proof.
  induction l as [|y l IH]; cbn; [done|]. case_match; [done|].
  rewrite IH. by rewrite Permutation_swap.
Qed.

Lemma stable_sort_perm l : stable_sort l ≡ₚ l.
Proof. induction l as [|x l IH]; cbn; [done|]. by rewrite sort_insert_perm, IH. Qed.

Lemma elem_of_stable_sort x l : x ∈ stable_sort l <-> x ∈ l.
Proof. by rewrite stable_sort_perm. Qed.

Context (le_total : forall x y, le x y = false -> le y x = true).
Context (le_trans : forall x y z, le x y = true -> le y z = true -> le x z = true).

Lemma sort_insert_sorted x l :
  StronglySorted (fun a b => le a b = true) l ->
  StronglySorted (fun a b => le a b = true) (sort_insert x l).
Proof.
  induction 1 as [|y l Hs IH Hy]; cbn; [by repeat constructor|].
  destruct (le x y) eqn:E.
  - constructor; [by constructor|]. constructor; [done|].
    eapply Forall_impl; [exact Hy|]. cbn. eauto.
  - constructor; [done|]. rewrite sort_insert_perm. constructor; auto.
Qed.

Lemma stable_sort_sorted l : StronglySorted (fun a b => le a b = true) (stable_sort l).
Proof. induction l; cbn; [constructor|]. auto using sort_insert_sorted. Qed.

(** Stability: elements of one equivalence class keep their order. *)
Lemma sort_insert_filter (P : A -> Prop) `{!forall x, Decision (P x)} x l :
  (forall a b, P a -> P b -> le a b = true) ->
  filter P (sort_insert x l) = filter P (x :: l).
Proof.
  intros HP. induction l as [|y l IH]; [done|]. cbn [sort_insert].
  destruct (le x y) eqn:E; [done|].
  rewrite filter_cons, IH, !filter_cons. repeat case_decide; try done.
  exfalso. rewrite HP in E; done.
Qed.

Lemma stable_sort_filter (P : A -> Prop) `{!forall x, Decision (P x)} l :
  (forall a b, P a -> P b -> le a b = true) ->
  filter P (stable_sort l) = filter P l.
Proof.
  intros HP. induction l as [|x l IH]; [done|].
  cbn [stable_sort foldr]. rewrite sort_insert_filter by done.
  rewrite !filter_cons. fold (stable_sort l). by rewrite IH.
Qed.

(** Sorting by an antisymmetric order forgets the input order. *)
Lemma sorted_perm_unique l1 l2 :
  (forall x y, x ∈ l1 -> y ∈ l1 -> le x y = true -> le y x = true -> x = y) ->
  StronglySorted (fun a b => le a b = true) l1 ->
  StronglySorted (fun a b => le a b = true) l2 ->
  l1 ≡ₚ l2 -> l1 = l2.
Proof.
  intros Has H1. revert l2. induction H1 as [|x l1 H1 IH Hx]; intros l2 H2 Hp.
  - by apply Permutation_nil_l in Hp.
  - destruct H2 as [|y l2 H2 Hy]; [by apply Permutation_nil_r in Hp|].
    assert (x = y) as ->.
    { assert (x ∈ y :: l2) as [->|Hx2]%elem_of_cons by (rewrite <- Hp; set_solver); [done|].
      assert (y ∈ x :: l1) as [->|Hy1]%elem_of_cons by (rewrite Hp; set_solver); [done|].
      rewrite Forall_forall in Hx, Hy. apply Has; [set_solver..|auto|auto]. }
    f_equal. apply IH; [set_solver|done|]. by apply Permutation_cons_inv in Hp.
Qed.

Lemma stable_sort_perm_eq l1 l2 :
  (forall x y, x ∈ l1 -> y ∈ l1 -> le x y = true -> le y x = true -> x = y) ->
  l1 ≡ₚ l2 -> stable_sort l1 = stable_sort l2.
Proof.
  intros Has Hp. apply sorted_perm_unique; try apply stable_sort_sorted.
  - intros x y. rewrite !elem_of_stable_sort. auto.
  - by rewrite !stable_sort_perm.
Qed.
End StableSort.

(** ** Association lists: JavaScript objects in key-insertion order *)
Section Assoc.
Context {V : Type}.

Fixpoint obj_get (k : string) (o : list (string * V)) : option V :=
  match o with
  | [] => None
  | (k', v) :: o' => if (k =? k')%string then Some v else obj_get k o'
  end.
Definition obj_has (k : string) (o : list (string * V)) : bool :=
  bool_decide (is_Some (obj_get k o)).
(** [o[k] = v]: an existing key keeps its place, a new one goes last. *)
Fixpoint obj_set (k : string) (v : V) (o : list (string * V)) : list (string * V) :=
  match o with
  | [] => [(k, v)]
  | (k', v') :: o' =>
      if (k =? k')%string then (k', v) :: o' else (k', v') :: obj_set k v o'
  end.
Definition obj_keys (o : list (string * V)) : list string := o.*1.

Lemma obj_get_elem k v o : obj_get k o = Some v -> (k, v) ∈ o.
Proof.
  induction o as [|[k' v'] o IH]; cbn; [done|]. case_match eqn:E.
  - apply String.eqb_eq in E. intros [= ->]. set_solver.
  - set_solver.
Qed.

Lemma obj_get_is_Some k o : is_Some (obj_get k o) <-> k ∈ obj_keys o.
Proof.
  unfold obj_keys. induction o as [|[k' v'] o IH]; cbn.
  - rewrite elem_of_nil. split; [intros [? ?]; done|done].
  - rewrite elem_of_cons. case_match eqn:E; reflect_bools; [subst; naive_solver|].
    rewrite IH. naive_solver.
Qed.

Lemma obj_has_spec k o : obj_has k o = true <-> k ∈ obj_keys o.
Proof. unfold obj_has. by rewrite bool_decide_eq_true, obj_get_is_Some. Qed.

Lemma elem_obj_get k v o : NoDup (obj_keys o) -> (k, v) ∈ o -> obj_get k o = Some v.
Proof.
  unfold obj_keys. induction o as [|[k' v'] o IH]; cbn; [set_solver|].
  intros [Hn Hd]%NoDup_cons [[= <- <-]|Hin]%elem_of_cons.
  - by rewrite String.eqb_refl.
  - destruct (String.eqb_spec k k') as [->|]; [|auto].
    exfalso. apply Hn. apply list_elem_of_fmap. by exists (k', v).
Qed.

Lemma obj_get_set_eq k v o : obj_get k (obj_set k v o) = Some v.
Proof.
  induction o as [|[k' v'] o IH]; cbn; [by rewrite String.eqb_refl|].
  case_match eqn:E; cbn; by rewrite E.
Qed.

Lemma obj_get_set_ne k k' v o : k <> k' -> obj_get k' (obj_set k v o) = obj_get k' o.
Proof.
  intros Hne. induction o as [|[k2 v2] o IH]; cbn.
  - by apply not_eq_sym, String.eqb_neq in Hne as ->.
  - case_match eqn:E; cbn; reflect_bools; subst; [|by rewrite IH].
    by apply not_eq_sym, String.eqb_neq in Hne as ->.
Qed.

(** [delete o[k]] *)
Definition obj_delete (k : string) (o : list (string * V)) : list (string * V) :=
  List.filter (fun kv => negb (k =? kv.1)%string) o.
Lemma obj_get_delete k k' o :
  obj_get k' (obj_delete k o) = if (k =? k')%string then None else obj_get k' o.
Proof.
  unfold obj_delete. induction o as [|[k2 v2] o IH]; cbn; [by destruct (k =? k')%string|].
  destruct (String.eqb_spec k k2) as [->|Hne]; cbn; rewrite IH.
  - rewrite (String.eqb_sym k' k2). by destruct (k2 =? k')%string.
  - destruct (String.eqb_spec k' k2) as [->|]; [|done].
    by apply String.eqb_neq in Hne as ->.
Qed.
End Assoc.

Create HintDb os discriminated.
#[export] Hint Resolve NoDup_set_add NoDup_set_adds NoDup_set_of split_char_nonnil
  split_char_no_sep : os.
#[export] Hint Rewrite @elem_of_set_add @elem_of_set_adds @elem_of_set_of
  @elem_of_stable_sort @obj_get_set_eq : os_rw.
