(* ===== verification/Fsm.v ===== *)
(** * The FSM engine ([src/src/runtime/fsm.ts])

    The flat wire machine ([Fsm], [validateFsm]) and the executable Harel
    statechart ([Statechart], [step], [settle]) over configurations of active
    leaf paths.  A [Record<string, X>] is an association list in
    [Object.keys] order with own keys only; a [Set<string>] is a
    duplicate-free list in insertion order; [evalWhen] is the injected guard
    evaluator, absent ([None]) when the caller passes none. *)

From Stdlib Require Import Ascii String Sorted.
From stdpp Require Import base option list strings pretty gmap.
From S2P Require Import Prelude.

Definition ANY_STATE : string := "*".
Definition PATH_SEP : string := "/".
Definition sep_char : ascii := "/"%char.

(** ** Wire format *)
Record Transition := {
  tr_from : string;
  tr_on : option string;
  tr_to : string;
  tr_when : option string;
}.

Record Fsm := {
  fsm_initial : string;
  fsm_states : list string;
  fsm_transitions : list Transition;
}.

Definition quote (s : string) : string :=
  String (ascii_of_nat 34) (s +:+ String (ascii_of_nat 34) "").

(** [validateFsm]: human-readable errors, [[]] when the machine is valid. *)
Definition validateFsm_transition (states : list string) (i : nat) (t : Transition)
    : list string :=
  (if negb (t.(tr_from) =? ANY_STATE)%string && negb (set_has t.(tr_from) states)
   then ["transition[" +:+ pretty i +:+ "] from " +:+ quote t.(tr_from)
           +:+ " is not a declared state"]
   else []) ++
  (if negb (set_has t.(tr_to) states)
   then ["transition[" +:+ pretty i +:+ "] to " +:+ quote t.(tr_to)
           +:+ " is not a declared state"]
   else []).

Definition validateFsm (fsm : Fsm) : list string :=
  let states := set_of fsm.(fsm_states) in
  (if negb (set_has fsm.(fsm_initial) states)
   then ["initial state " +:+ quote fsm.(fsm_initial) +:+ " is not in states ["
           +:+ join_with ", " fsm.(fsm_states) +:+ "]"]
   else []) ++
  concat (imap (validateFsm_transition states) fsm.(fsm_transitions)).

(** ** Runtime model *)
Inductive HistoryDepth := Shallow | Deep.

Inductive StateNode :=
| Leaf
| Final
| History (depth : HistoryDepth) (default : option string)
| Compound (initial : string) (states : list (string * StateNode))
| Parallel (regions : list (string * StateNode)).

Abbreviation Level := (list (string * StateNode)).
(** compositePath -> its remembered active-leaf path *)
Abbreviation LastActive := (gmap string string).

Record Statechart := {
  sc_initial : string;
  sc_root : Level;
  sc_transitions : list Transition;
}.

(** The set of active leaf paths. *)
Abbreviation Configuration := (list string).

Record StepResult := {
  sr_next : Configuration;
  sr_transitioned : bool;
  sr_via : option nat;
  sr_lastActive : LastActive;
}.

Definition segs (path : string) : list string := split_char sep_char path.
Definition joinPath (parts : list string) : string :=
  join_with PATH_SEP (filter (fun p => negb (p =? "")%string = true) parts).

(** The children a path segment can descend into. *)
Definition children (n : StateNode) : option Level :=
  match n with
  | Compound _ states => Some states
  | Parallel regions => Some regions
  | _ => None
  end.

Fixpoint resolve_walk (level : option Level) (node : option StateNode)
    (names : list string) : option StateNode :=
  match names with
  | [] => node
  | name :: rest =>
      match level with
      | None => None
      | Some l =>
          match obj_get name l with
          | None => None
          | Some n => resolve_walk (children n) (Some n) rest
          end
      end
  end.

Definition resolveNode (sc : Statechart) (path : string) : option StateNode :=
  resolve_walk (Some sc.(sc_root)) None (segs path).

(** The nesting height of the tree: it bounds every downward recursion. *)
Fixpoint height (n : StateNode) : nat :=
  match n with
  | Compound _ l | Parallel l => S (foldr (fun kn m => max (height kn.2) m) 0 l)
  | _ => 1
  end.
Definition level_height (l : Level) : nat := foldr (fun kn m => max (height kn.2) m) 0 l.

Fixpoint enterLeaves_fuel (fuel : nat) (sc : Statechart) (path : string) : list string :=
  match fuel with
  | 0 => []
  | S fuel' =>
      match resolveNode sc path with
      | None => []
      | Some Leaf | Some Final => [path]
      | Some (History _ _) => []
      | Some (Compound initial _) => enterLeaves_fuel fuel' sc (joinPath [path; initial])
      | Some (Parallel regions) =>
          flat_map (fun r => enterLeaves_fuel fuel' sc (joinPath [path; r]))
            (obj_keys regions)
      end
  end.
Definition enterLeaves (sc : Statechart) (path : string) : list string :=
  enterLeaves_fuel (level_height sc.(sc_root)) sc path.

Definition initialConfig (sc : Statechart) : Configuration :=
  set_of (enterLeaves sc sc.(sc_initial)).

Definition soleState (config : Configuration) : string := default "" (head config).

Definition isActive (config : Configuration) (path : string) : bool :=
  existsb (fun leaf => (leaf =? path)%string || starts_with leaf (path +:+ PATH_SEP)) config.

Fixpoint common_prefix (a b : list string) : list string :=
  match a, b with
  | x :: a', y :: b' => if (x =? y)%string then x :: common_prefix a' b' else []
  | _, _ => []
  end.
Definition lcca (a b : string) : string :=
  join_with PATH_SEP (common_prefix (segs a) (segs b)).

Definition in_scope (scope leaf : string) : bool :=
  (leaf =? scope)%string || starts_with leaf (scope +:+ PATH_SEP).
Definition descendantsOf (config : Configuration) (scope : string) : list string :=
  if (scope =? "")%string then config
  else List.filter (in_scope scope) config.

(** ** The tree walks of [validateStatechart] and of history recording *)
Fixpoint allPaths_below (path : string) (n : StateNode) : list string :=
  match n with
  | Compound _ l | Parallel l =>
      flat_map (fun kn => joinPath [path; kn.1]
                            :: allPaths_below (joinPath [path; kn.1]) kn.2) l
  | _ => []
  end.
Definition allPaths (level : Level) (base : string) : list string :=
  flat_map (fun kn => joinPath [base; kn.1] :: allPaths_below (joinPath [base; kn.1]) kn.2) level.

Fixpoint compoundPaths_at (path : string) (n : StateNode) : list string :=
  match n with
  | Compound _ l =>
      path :: flat_map (fun kn => compoundPaths_at (joinPath [path; kn.1]) kn.2) l
  | Parallel l => flat_map (fun kn => compoundPaths_at (joinPath [path; kn.1]) kn.2) l
  | _ => []
  end.
Definition compoundPaths (sc : Statechart) : list string :=
  flat_map (fun kn => compoundPaths_at (joinPath [""; kn.1]) kn.2) sc.(sc_root).

Fixpoint parallelPaths_at (path : string) (n : StateNode) : list string :=
  match n with
  | Parallel l =>
      path :: flat_map (fun kn => parallelPaths_at (joinPath [path; kn.1]) kn.2) l
  | Compound _ l => flat_map (fun kn => parallelPaths_at (joinPath [path; kn.1]) kn.2) l
  | _ => []
  end.
Definition depth_le (a b : string) : bool :=
  bool_decide (length (segs b) <= length (segs a)).
Definition parallelPaths (sc : Statechart) : list string :=
  stable_sort depth_le
    (flat_map (fun kn => parallelPaths_at (joinPath [""; kn.1]) kn.2) sc.(sc_root)).

Definition isFinal (sc : Statechart) (leaf : string) : bool :=
  match resolveNode sc leaf with Some Final => true | _ => false end.

Fixpoint subtreeHasFinal_fuel (fuel : nat) (sc : Statechart) (path : string) : bool :=
  match fuel with
  | 0 => false
  | S fuel' =>
      match resolveNode sc path with
      | Some Final => true
      | Some (Compound _ l) | Some (Parallel l) =>
          existsb (fun k => subtreeHasFinal_fuel fuel' sc (joinPath [path; k])) (obj_keys l)
      | _ => false
      end
  end.
Definition subtreeHasFinal (sc : Statechart) (path : string) : bool :=
  subtreeHasFinal_fuel (level_height sc.(sc_root)) sc path.

Fixpoint checkInitials_at (path : string) (n : StateNode) : list string :=
  match n with
  | Compound initial l =>
      (if negb (obj_has initial l)
       then ["compound " +:+ quote path +:+ " initial " +:+ quote initial
               +:+ " is not one of its states"]
       else []) ++
      flat_map (fun kn => checkInitials_at (joinPath [path; kn.1]) kn.2) l
  | Parallel l => flat_map (fun kn => checkInitials_at (joinPath [path; kn.1]) kn.2) l
  | _ => []
  end.

Fixpoint checkHistory (node : StateNode) (path : string) (parent : option StateNode)
    : list string :=
  match node with
  | History _ dflt =>
      match parent, dflt with
      | Some (Compound _ states), Some d =>
          if negb (obj_has d states)
          then ["history " +:+ quote path +:+ " default " +:+ quote d
                  +:+ " is not a state of its compound"]
          else []
      | Some (Compound _ _), None => []
      | _, _ => ["history " +:+ quote path +:+ " is not a direct child of a compound"]
      end
  | Compound _ l | Parallel l =>
      flat_map (fun kn => checkHistory kn.2 (joinPath [path; kn.1]) (Some node)) l
  | _ => []
  end.

Definition is_parallel (n : option StateNode) : bool :=
  match n with Some (Parallel _) => true | _ => false end.
Definition is_history (n : option StateNode) : bool :=
  match n with Some (History _ _) => true | _ => false end.

Definition checkTransition (sc : Statechart) (paths : list string) (i : nat)
    (t : Transition) : list string :=
  (if negb (t.(tr_from) =? ANY_STATE)%string && negb (set_has t.(tr_from) paths)
   then ["transition[" +:+ pretty i +:+ "] from " +:+ quote t.(tr_from)
           +:+ " is not a declared state path"]
   else []) ++
  (if negb (set_has t.(tr_to) paths)
   then ["transition[" +:+ pretty i +:+ "] to " +:+ quote t.(tr_to)
           +:+ " is not a declared state path"]
   else []) ++
  (if bool_decide (t.(tr_on) = None) && negb (t.(tr_from) =? ANY_STATE)%string
        && negb (is_parallel (resolveNode sc t.(tr_from)))
   then ["transition[" +:+ pretty i +:+ "] eventless from " +:+ quote t.(tr_from)
           +:+ " is not a parallel (only a parallel join may be eventless)"]
   else []).

Definition checkJoin (sc : Statechart) (p : string) : list string :=
  if subtreeHasFinal sc p &&
     negb (existsb (fun t => (t.(tr_from) =? p)%string && bool_decide (t.(tr_on) = None))
             sc.(sc_transitions))
  then ["finalizable parallel " +:+ quote p
          +:+ " has no eventless join transition (would deadlock on all-regions-final)"]
  else [].

Definition validateStatechart (sc : Statechart) : list string :=
  let paths := set_of (allPaths sc.(sc_root) "") in
  (if negb (obj_has sc.(sc_initial) sc.(sc_root))
   then ["initial state " +:+ quote sc.(sc_initial) +:+ " is not a top-level state"]
   else []) ++
  flat_map (fun kn => checkInitials_at (joinPath [""; kn.1]) kn.2) sc.(sc_root) ++
  flat_map (fun kn => checkHistory kn.2 kn.1 None) sc.(sc_root) ++
  concat (imap (checkTransition sc paths) sc.(sc_transitions)) ++
  flat_map (checkJoin sc) (parallelPaths sc).

(** ** Entry and exit, shared by [step] and [settle] *)
Definition parentOf (path : string) : string :=
  join_with PATH_SEP (removelast (segs path)).

Definition enterTarget (sc : Statechart) (to : string) (lastActive : LastActive)
    : list string :=
  match resolveNode sc to with
  | Some (History depth dflt) =>
      let composite := parentOf to in
      match lastActive !! composite with
      | None =>
          enterLeaves sc
            (match dflt with Some d => joinPath [composite; d] | None => composite end)
      | Some remembered =>
          match depth with
          | Deep => [remembered]
          | Shallow =>
              enterLeaves sc
                (join_with PATH_SEP (take (length (segs composite) + 1) (segs remembered)))
          end
      end
  | _ => enterLeaves sc to
  end.

Definition recordExit (config exit : list string) (acc : LastActive) (c : string)
    : LastActive :=
  match List.find (fun leaf => starts_with leaf (c +:+ PATH_SEP) && set_has leaf exit) config with
  | Some active => <[c := active]> acc
  | None => acc
  end.
Definition recordExits (sc : Statechart) (config exit : list string)
    (lastActive : LastActive) : LastActive :=
  fold_left (recordExit config exit) (compoundPaths sc) lastActive.

Abbreviation EvalWhen := (option (string -> bool)).
Definition guard_holds (ew : EvalWhen) (when : option string) : bool :=
  match when, ew with
  | Some w, Some eval => eval w
  | _, _ => true
  end.

(** Leaving [exit] and entering [entered]: the body both sites share. *)
Definition reconfigure (config exit entered : list string) : Configuration :=
  fold_left set_add entered (List.filter (fun leaf => negb (set_has leaf exit)) config).

(** ** [step]: the total transition function *)
Definition enabled (config : Configuration) (event : string) (ew : EvalWhen)
    (t : Transition) : bool :=
  bool_decide (t.(tr_on) = Some event) &&
  ((t.(tr_from) =? ANY_STATE)%string || isActive config t.(tr_from)) &&
  guard_holds ew t.(tr_when).

Definition config_changed (next config : Configuration) : bool :=
  negb (Nat.eqb (length next) (length config)) ||
  existsb (fun p => negb (set_has p config)) next.

Definition exit_scope (sc : Statechart) (t : Transition) : string :=
  let effectiveTo :=
    if is_history (resolveNode sc t.(tr_to)) then parentOf t.(tr_to) else t.(tr_to) in
  if (t.(tr_from) =? ANY_STATE)%string then "" else lcca t.(tr_from) effectiveTo.

Definition fire (sc : Statechart) (config : Configuration) (lastActive : LastActive)
    (i : nat) (t : Transition) : StepResult :=
  let exit := descendantsOf config (exit_scope sc t) in
  let next := reconfigure config exit (enterTarget sc t.(tr_to) lastActive) in
  {| sr_next := next;
     sr_transitioned := config_changed next config;
     sr_via := Some i;
     sr_lastActive := recordExits sc config exit lastActive |}.

Definition stay (config : Configuration) (lastActive : LastActive) : StepResult :=
  {| sr_next := config; sr_transitioned := false; sr_via := None;
     sr_lastActive := lastActive |}.

Fixpoint step_from (sc : Statechart) (config : Configuration) (event : string)
    (ew : EvalWhen) (lastActive : LastActive) (i : nat) (ts : list Transition) : StepResult :=
  match ts with
  | [] => stay config lastActive
  | t :: ts' =>
      if enabled config event ew t then fire sc config lastActive i t
      else step_from sc config event ew lastActive (S i) ts'
  end.
Definition step (sc : Statechart) (config : Configuration) (event : string)
    (ew : EvalWhen) (lastActive : LastActive) : StepResult :=
  step_from sc config event ew lastActive 0 sc.(sc_transitions).

(** ** The flat facade *)
Definition fromFlat (fsm : Fsm) : Statechart :=
  {| sc_initial := fsm.(fsm_initial);
     sc_root := fold_left (fun root s => obj_set s Leaf root) fsm.(fsm_states) [];
     sc_transitions := fsm.(fsm_transitions) |}.

Record FlatStepResult := {
  fr_next : string;
  fr_transitioned : bool;
  fr_via : option nat;
}.

Definition stepFlat (fsm : Fsm) (current event : string) (ew : EvalWhen) : FlatStepResult :=
  let r := step (fromFlat fsm) [current] event ew ∅ in
  {| fr_next := soleState r.(sr_next);
     fr_transitioned := r.(sr_transitioned);
     fr_via := r.(sr_via) |}.

(** ** [settle]: the eventless join macrostep *)
Definition allRegionsFinal (sc : Statechart) (parallelPath : string)
    (config : Configuration) : bool :=
  match resolveNode sc parallelPath with
  | Some (Parallel regions) =>
      forallb (fun r =>
        let rp := joinPath [parallelPath; r] in
        existsb (fun leaf =>
          isFinal sc leaf &&
          ((leaf =? rp)%string ||
           (starts_with leaf (rp +:+ PATH_SEP)
              && Nat.eqb (length (segs leaf)) (length (segs rp) + 1)))) config)
        (obj_keys regions)
  | _ => false
  end.

Definition joinEdge (sc : Statechart) (ew : EvalWhen) (p : string) : option Transition :=
  List.find (fun t => (t.(tr_from) =? p)%string && bool_decide (t.(tr_on) = None)
                        && guard_holds ew t.(tr_when)) sc.(sc_transitions).

Definition eligible (sc : Statechart) (ew : EvalWhen) (cur : Configuration) (p : string) : bool :=
  isActive cur p && allRegionsFinal sc p cur && bool_decide (is_Some (joinEdge sc ew p)).

Definition join_once (sc : Statechart) (cur : Configuration) (lastActive : LastActive)
    (p : string) (join : Transition) : Configuration * LastActive :=
  let exit := descendantsOf cur p in
  let lastActive' := recordExits sc cur exit lastActive in
  (reconfigure cur exit (enterTarget sc join.(tr_to) lastActive'), lastActive').

Definition next_join (sc : Statechart) (ew : EvalWhen) (cur : Configuration)
    : option (string * Transition) :=
  match List.find (eligible sc ew cur) (parallelPaths sc) with
  | None => None
  | Some p => match joinEdge sc ew p with Some j => Some (p, j) | None => None end
  end.

Fixpoint settle_loop (fuel : nat) (sc : Statechart) (ew : EvalWhen)
    (cur : Configuration) (lastActive : LastActive) : Configuration * LastActive :=
  match fuel with
  | 0 => (cur, lastActive) (* depth backstop *)
  | S fuel' =>
      match next_join sc ew cur with
      | None => (cur, lastActive)
      | Some (p, j) =>
          let '(next, lastActive') := join_once sc cur lastActive p j in
          settle_loop fuel' sc ew next lastActive'
      end
  end.

Definition SETTLE_CAP : N := 10000.
Definition settle (sc : Statechart) (config : Configuration) (ew : EvalWhen)
    (lastActive : LastActive) : Configuration * LastActive :=
  settle_loop (N.to_nat SETTLE_CAP) sc ew config lastActive.
