(* ===== verification/FsmTree.v ===== *)
(** * Tree facts of the statechart

    Well-formed charts, what paths resolve to, the structural reference
    [leaves_of] for [enterLeaves], and that a chart [validateStatechart]
    accepts is well formed. *)

From Stdlib Require Import Ascii String Sorted.
From stdpp Require Import base option list strings pretty gmap.
From S2P Require Import Prelude Fsm.

(** ** Structural induction over the nested tree *)
Section StateNodeInd.
Context (P : StateNode -> Prop)
  (HLeaf : P Leaf) (HFinal : P Final)
  (HHist : forall d o, P (History d o))
  (HComp : forall i l, Forall (fun kn => P kn.2) l -> P (Compound i l))
  (HPar : forall l, Forall (fun kn => P kn.2) l -> P (Parallel l)).

Fixpoint StateNode_nested_ind (n : StateNode) : P n :=
  let fix go (l : Level) : Forall (fun kn => P kn.2) l :=
    match l with
    | [] => Forall_nil_2 _
    | kn :: l' => Forall_cons_2 _ kn l' (StateNode_nested_ind kn.2) (go l')
    end in
  match n with
  | Leaf => HLeaf
  | Final => HFinal
  | History d o => HHist d o
  | Compound i l => HComp i l (go l)
  | Parallel l => HPar l (go l)
  end.
End StateNodeInd.

(** ** Well-formed charts

    [name_ok]: a state name is non-empty and has no path separator, the
    assumption under which joining and splitting paths are inverse. *)
Definition name_ok (s : string) : bool := negb (s =? "")%string && negb (has_char sep_char s).

Fixpoint node_names_ok (n : StateNode) : bool :=
  match n with
  | Compound _ l | Parallel l =>
      bool_decide (NoDup (obj_keys l)) && forallb (fun kn => name_ok kn.1 && node_names_ok kn.2) l
  | _ => true
  end.
Definition names_ok (sc : Statechart) : bool :=
  bool_decide (NoDup (obj_keys sc.(sc_root))) &&
  forallb (fun kn => name_ok kn.1 && node_names_ok kn.2) sc.(sc_root).

(** A history pseudostate is legal only inside a compound, with its default
    among the compound's states. *)
Definition hist_ok_in (parent : option Level) (n : StateNode) : bool :=
  match n, parent with
  | History _ (Some d), Some l => obj_has d l
  | History _ None, Some _ => true
  | History _ _, None => false
  | _, _ => true
  end.

Fixpoint node_wf (n : StateNode) : bool :=
  match n with
  | Compound i l =>
      obj_has i l &&
      forallb (fun kn => name_ok kn.1 && hist_ok_in (Some l) kn.2 && node_wf kn.2) l
  | Parallel l => forallb (fun kn => name_ok kn.1 && hist_ok_in None kn.2 && node_wf kn.2) l
  | _ => true
  end.
Definition level_wf (parent : option Level) (l : Level) : bool :=
  forallb (fun kn => name_ok kn.1 && hist_ok_in parent kn.2 && node_wf kn.2) l.
Definition chart_wf (sc : Statechart) : bool := level_wf None sc.(sc_root).

(** ** Paths *)
Lemma name_ok_spec s : name_ok s = true <-> s <> "" /\ has_char sep_char s = false.
Proof.
  unfold name_ok. rewrite andb_true_iff, !negb_true_iff, String.eqb_neq. done.
Qed.

Lemma joinPath_pair path name :
  path <> "" -> name <> "" -> joinPath [path; name] = path +:+ PATH_SEP +:+ name.
Proof.
  intros Hp Hn. unfold joinPath.
  rewrite !filter_cons, filter_nil.
  rewrite !decide_True by (rewrite negb_true_iff; by apply String.eqb_neq). done.
Qed.

Lemma joinPath_root name : name <> "" -> joinPath [""; name] = name.
Proof.
  intros Hn. unfold joinPath. rewrite !filter_cons, filter_nil.
  rewrite decide_False by done.
  rewrite decide_True by (rewrite negb_true_iff; by apply String.eqb_neq). done.
Qed.

Lemma segs_child path name :
  path <> "" -> name_ok name = true -> segs (joinPath [path; name]) = segs path ++ [name].
Proof.
  intros Hp [Hn Hs]%name_ok_spec. rewrite joinPath_pair by done.
  unfold segs, PATH_SEP. cbn [String.append]. rewrite split_char_app_any.
  by rewrite (split_char_atom _ name).
Qed.

Lemma segs_name name : name_ok name = true -> segs name = [name].
Proof. intros [_ ?]%name_ok_spec. by apply split_char_atom. Qed.

Lemma segs_join l :
  l <> [] -> Forall (fun x => has_char sep_char x = false) l ->
  segs (join_with PATH_SEP l) = l.
Proof. apply split_join. Qed.

Lemma join_segs p : join_with PATH_SEP (segs p) = p.
Proof. apply join_split. Qed.

Lemma segs_inj p q : segs p = segs q -> p = q.
Proof. apply split_char_inj. Qed.

Lemma segs_under leaf p : starts_with leaf (p +:+ PATH_SEP) = true <->
  exists rest, rest <> [] /\ segs leaf = segs p ++ rest.
Proof.
  rewrite starts_with_spec. split.
  - intros [r ->]. exists (segs r). split; [apply split_char_nonnil|].
    rewrite string_app_assoc. unfold segs, PATH_SEP. cbn. by rewrite split_char_app_any.
  - intros (rest & Hne & Hseg). exists (join_with PATH_SEP rest).
    apply (f_equal (join_with PATH_SEP)) in Hseg. rewrite join_segs in Hseg. rewrite Hseg.
    rewrite join_with_app, join_segs, string_app_assoc; [done|apply split_char_nonnil|done].
Qed.

(** ** Resolution *)
Lemma resolve_walk_snoc n ns x :
  resolve_walk (children n) (Some n) (ns ++ [x]) =
  m ← resolve_walk (children n) (Some n) ns; l ← children m; obj_get x l.
Proof.
  revert n. induction ns as [|y ns IH]; intros n; cbn.
  - destruct (children n) as [l|]; [|done]. cbn. by destruct (obj_get x l).
  - destruct (children n) as [l|]; [|done]. destruct (obj_get y l) as [m|]; [|done]. apply IH.
Qed.

(** The root level behaves as the children of a virtual compound. *)
Lemma resolveNode_as_walk sc path :
  resolveNode sc path =
  resolve_walk (children (Parallel sc.(sc_root))) (Some (Parallel sc.(sc_root))) (segs path).
Proof.
  unfold resolveNode. pose proof (split_char_nonnil sep_char path) as Hne.
  unfold segs. by destruct (split_char sep_char path).
Qed.

Lemma children_height n l k c :
  children n = Some l -> obj_get k l = Some c -> height c < height n.
Proof.
  intros Hc Hk%obj_get_elem.
  assert (height c <= level_height l).
  { clear Hc. unfold level_height. induction l as [|kn l IH]; [set_solver|].
    apply elem_of_cons in Hk as [<-|Hk]; cbn; [lia|]. specialize (IH Hk). lia. }
  destruct n; cbn in Hc; simplify_eq; cbn; unfold level_height in *; lia.
Qed.

Lemma resolve_walk_height n ns m :
  resolve_walk (children n) (Some n) ns = Some m -> height m + length ns <= height n.
Proof.
  revert n. induction ns as [|x ns IH]; intros n; cbn; [intros [= <-]; lia|].
  destruct (children n) as [l|] eqn:El; [|done].
  destruct (obj_get x l) as [c|] eqn:Ec; [|done]. intros H%IH.
  pose proof (children_height n l x c El Ec). lia.
Qed.

Section Chart.
Context (sc : Statechart) (Hwf : chart_wf sc = true).

Lemma level_wf_lookup parent l k n :
  level_wf parent l = true -> obj_get k l = Some n ->
  name_ok k = true /\ hist_ok_in parent n = true /\ node_wf n = true.
Proof.
  intros Hl Hk%obj_get_elem. unfold level_wf in Hl. rewrite forallb_forall in Hl.
  specialize (Hl (k, n)). rewrite <- list_elem_of_In in Hl. specialize (Hl Hk). cbn in Hl.
  by reflect_bools.
Qed.

Definition child_parent (n : StateNode) : option Level :=
  match n with Compound _ l => Some l | _ => None end.

Lemma children_wf n l :
  node_wf n = true -> children n = Some l -> level_wf (child_parent n) l = true.
Proof. destruct n; cbn; intros H [= <-]; reflect_bools; done. Qed.

Lemma resolve_walk_wf n ns m :
  node_wf n = true -> resolve_walk (children n) (Some n) ns = Some m -> node_wf m = true.
Proof.
  revert n. induction ns as [|x ns IH]; intros n Hn; cbn; [by intros [= <-]|].
  destruct (children n) as [l|] eqn:El; [|done].
  destruct (obj_get x l) as [c|] eqn:Ec; [|done]. apply IH.
  eapply level_wf_lookup; [by eapply children_wf|done].
Qed.

Lemma root_node_wf : node_wf (Parallel sc.(sc_root)) = true.
Proof. exact Hwf. Qed.

Lemma resolve_wf path n : resolveNode sc path = Some n -> node_wf n = true.
Proof. rewrite resolveNode_as_walk. apply resolve_walk_wf, root_node_wf. Qed.

Lemma resolve_nonempty path n : resolveNode sc path = Some n -> path <> "".
Proof.
  intros H ->. unfold resolveNode in H. cbn in H.
  destruct (obj_get "" (sc_root sc)) as [m|] eqn:E; [|done].
  by eapply level_wf_lookup in E as [? _].
Qed.

Lemma resolve_child path n l k :
  resolveNode sc path = Some n -> children n = Some l -> name_ok k = true ->
  resolveNode sc (joinPath [path; k]) = obj_get k l.
Proof.
  intros Hp Hc Hk. rewrite resolveNode_as_walk, segs_child by eauto using resolve_nonempty.
  rewrite resolve_walk_snoc, <- resolveNode_as_walk, Hp. cbn. by rewrite Hc.
Qed.

Lemma resolve_root k : name_ok k = true -> resolveNode sc k = obj_get k sc.(sc_root).
Proof.
  intros Hk. unfold resolveNode. rewrite segs_name by done. cbn.
  by destruct (obj_get k (sc_root sc)).
Qed.

(** The longest proper prefix of a resolved path resolves to the parent. *)
Lemma resolve_prefix ns rest n :
  ns <> [] -> rest <> [] ->
  resolve_walk (children (Parallel sc.(sc_root))) (Some (Parallel sc.(sc_root)))
    (ns ++ rest) = Some n ->
  exists m l, resolve_walk (children (Parallel sc.(sc_root)))
    (Some (Parallel sc.(sc_root))) ns = Some m /\ children m = Some l.
Proof.
  intros Hns Hrest. revert n. induction rest as [|x rest IH] using rev_ind; [done|].
  intros n. rewrite app_assoc, resolve_walk_snoc.
  destruct rest as [|y rest].
  - rewrite app_nil_r. destruct (resolve_walk _ _ ns) as [m|]; [|done]. cbn.
    destruct (children m) eqn:E; [|done]. eauto.
  - destruct (resolve_walk _ _ (ns ++ _)) as [m|]; [|done]. intros _. by eapply IH.
Qed.

Lemma resolve_height path n :
  resolveNode sc path = Some n -> height n <= level_height sc.(sc_root).
Proof.
  rewrite resolveNode_as_walk. intros H%resolve_walk_height. cbn in H.
  pose proof (split_char_nonnil sep_char path) as Hne. unfold segs in H.
  fold (level_height (sc_root sc)) in H.
  destruct (split_char sep_char path); [done|]. cbn in H. lia.
Qed.
End Chart.

(** ** The structural reference of [enterLeaves] *)
Fixpoint leaves_of (path : string) (n : StateNode) : list string :=
  match n with
  | Leaf | Final => [path]
  | History _ _ => []
  | Compound i l =>
      flat_map (fun kn => if (kn.1 =? i)%string
                          then leaves_of (joinPath [path; kn.1]) kn.2 else []) l
  | Parallel l => flat_map (fun kn => leaves_of (joinPath [path; kn.1]) kn.2) l
  end.

Definition atomic (n : StateNode) : bool :=
  match n with Leaf | Final => true | _ => false end.
Definition atomic_path (sc : Statechart) (p : string) : Prop :=
  exists n, resolveNode sc p = Some n /\ atomic n = true.

(** [names_ok] alone gives distinct keys at every level. *)
Lemma names_ok_level l :
  forallb (fun kn => name_ok kn.1 && node_names_ok kn.2) l = true ->
  forall k n, (k, n) ∈ l -> name_ok k = true /\ node_names_ok n = true.
Proof.
  rewrite forallb_forall. intros H k n Hin%list_elem_of_In.
  specialize (H _ Hin). cbn in H. by reflect_bools.
Qed.

Lemma node_names_ok_children n l :
  node_names_ok n = true -> children n = Some l ->
  NoDup (obj_keys l) /\ forallb (fun kn => name_ok kn.1 && node_names_ok kn.2) l = true.
Proof. destruct n; cbn; intros H [= <-]; reflect_bools; done. Qed.

Section Names.
Context (sc : Statechart) (Hnames : names_ok sc = true).

Lemma root_names_ok : node_names_ok (Parallel sc.(sc_root)) = true.
Proof. exact Hnames. Qed.

Lemma resolve_walk_names n ns m :
  node_names_ok n = true -> resolve_walk (children n) (Some n) ns = Some m ->
  node_names_ok m = true.
Proof.
  revert n. induction ns as [|x ns IH]; intros n Hn; cbn; [by intros [= <-]|].
  destruct (children n) as [l|] eqn:El; [|done].
  destruct (obj_get x l) as [c|] eqn:Ec; [|done]. apply IH.
  destruct (node_names_ok_children n l Hn El) as [_ Hl].
  eapply names_ok_level; [done|]. by apply obj_get_elem.
Qed.

Lemma resolve_names path n : resolveNode sc path = Some n -> node_names_ok n = true.
Proof. rewrite resolveNode_as_walk. apply resolve_walk_names, root_names_ok. Qed.
End Names.

Lemma flat_map_select {A} (l : list (string * A)) (i : string) (c : A) (f : string * A -> list string) :
  NoDup (obj_keys l) -> obj_get i l = Some c ->
  flat_map (fun kn => if (kn.1 =? i)%string then f kn else []) l = f (i, c).
Proof.
  unfold obj_keys. induction l as [|[k v] l IH]; cbn; [done|].
  intros [Hk Hnd]%NoDup_cons. destruct (String.eqb_spec i k) as [->|Hne].
  - intros [= ->]. rewrite String.eqb_refl.
    enough (flat_map (fun kn => if (kn.1 =? k)%string then f kn else []) l = [])
      as -> by apply app_nil_r.
    clear IH Hnd. induction l as [|[k' v'] l IH]; cbn in *; [done|].
    apply not_elem_of_cons in Hk as [Hne Hk].
    apply not_eq_sym, String.eqb_neq in Hne as ->. by apply IH.
  - intros Hg. apply not_eq_sym, String.eqb_neq in Hne as ->. by apply IH.
Qed.

Lemma flat_map_keys {A} (l : list (string * A)) (g : string * A -> list string)
    (h : string -> list string) :
  (forall k v, (k, v) ∈ l -> h k = g (k, v)) ->
  flat_map h (obj_keys l) = flat_map g l.
Proof.
  unfold obj_keys. induction l as [|[k v] l IH]; cbn; [done|]. intros H.
  rewrite (H k v) by set_solver. f_equal. apply IH. set_solver.
Qed.

Section EnterLeaves.
Context (sc : Statechart) (Hnames : names_ok sc = true) (Hwf : chart_wf sc = true).

Lemma resolve_member path n l k c :
  resolveNode sc path = Some n -> children n = Some l -> (k, c) ∈ l ->
  resolveNode sc (joinPath [path; k]) = Some c /\ segs (joinPath [path; k]) = segs path ++ [k] /\ height c < height n.
Proof.
  intros Hp Hc Hk.
  destruct (node_names_ok_children _ l (resolve_names sc Hnames _ _ Hp) Hc) as [Hnd Hl].
  pose proof (names_ok_level l Hl k c Hk) as [Hko _].
  pose proof (elem_obj_get k c l Hnd Hk) as Hg. split_and!.
  - etransitivity; [by eapply (resolve_child sc Hwf path n l k)|done].
  - apply segs_child; [by eapply resolve_nonempty|done].
  - by eapply children_height.
Qed.

Lemma enterLeaves_fuel_leaves f path n :
  resolveNode sc path = Some n -> height n <= f ->
  enterLeaves_fuel f sc path = leaves_of path n.
Proof.
  revert path n. induction f as [|f IH]; intros path n Hp Hh; [destruct n; cbn in Hh; lia|].
  cbn [enterLeaves_fuel]. rewrite Hp.
  pose proof (resolve_wf sc Hwf path n Hp) as Hn.
  pose proof (resolve_names sc Hnames path n Hp) as Hnm.
  destruct n as [| |d o|i l|l]; try done.
  - destruct (node_names_ok_children _ l Hnm eq_refl) as [Hnd Hl].
    cbn in Hn. reflect_bools. match goal with H : obj_has i l = true |- _ => rename H into Hi end.
    unfold obj_has in Hi. reflect_bools. destruct Hi as [c Hc].
    cbn [leaves_of].
    rewrite (flat_map_select l i c (fun kn => leaves_of (joinPath [path; kn.1]) kn.2)) by done.
    destruct (resolve_member path _ l i c Hp eq_refl (obj_get_elem _ _ _ Hc)) as (? & ? & ?).
    apply IH; [done|cbn [snd]; lia].
  - cbn [leaves_of]. apply flat_map_keys. intros k v Hkv.
    destruct (resolve_member path _ l k v Hp eq_refl Hkv) as (? & ? & ?).
    apply IH; [done|cbn [snd]; lia].
Qed.

Lemma enterLeaves_eq path n :
  resolveNode sc path = Some n -> enterLeaves sc path = leaves_of path n.
Proof.
  intros Hp. unfold enterLeaves. apply enterLeaves_fuel_leaves; [done|].
  by apply resolve_height in Hp.
Qed.

Lemma enterLeaves_none path : resolveNode sc path = None -> enterLeaves sc path = [].
Proof.
  intros Hp. unfold enterLeaves. destruct (level_height _); cbn; [done|]. by rewrite Hp.
Qed.

Lemma leaves_of_descend path n l k c x :
  Forall (fun kn => forall path x, resolveNode sc path = Some kn.2 ->
    x ∈ leaves_of path kn.2 ->
    atomic_path sc x /\ exists rest, segs x = segs path ++ rest) l ->
  resolveNode sc path = Some n -> children n = Some l -> (k, c) ∈ l ->
  x ∈ leaves_of (joinPath [path; k]) c ->
  atomic_path sc x /\ exists rest, segs x = segs path ++ rest.
Proof.
  intros IH Hp Hc Hin Hx. destruct (resolve_member path n l k c Hp Hc Hin) as (Hr & Hs & _).
  rewrite Forall_forall in IH. destruct (IH _ Hin _ x Hr Hx) as [Ha [r Hxr]].
  split; [done|]. exists (k :: r). by rewrite Hxr, Hs, <- app_assoc.
Qed.

Lemma leaves_of_atomic n path x :
  resolveNode sc path = Some n -> x ∈ leaves_of path n ->
  atomic_path sc x /\ exists rest, segs x = segs path ++ rest.
Proof.
  revert path x. induction n as [| |d o|i l IH|l IH] using StateNode_nested_ind;
    intros path x Hp; cbn [leaves_of].
  1,2: intros ->%list_elem_of_singleton; split; [by eexists|];
    exists []; by rewrite app_nil_r.
  - by intros ?%elem_of_nil.
  - rewrite list_elem_of_In, in_flat_map. intros ([k c] & Hin & Hx). cbn in Hx.
    destruct (String.eqb_spec k i) as [->|]; [|done].
    apply list_elem_of_In in Hin, Hx. eapply leaves_of_descend; eauto; done.
  - rewrite list_elem_of_In, in_flat_map. intros ([k c] & Hin & Hx). cbn in Hx.
    apply list_elem_of_In in Hin, Hx. eapply leaves_of_descend; eauto; done.
Qed.

Lemma enterLeaves_atomic path x :
  x ∈ enterLeaves sc path -> atomic_path sc x /\ exists rest, segs x = segs path ++ rest.
Proof.
  destruct (resolveNode sc path) as [n|] eqn:Hp.
  - rewrite (enterLeaves_eq path n Hp). by apply leaves_of_atomic.
  - rewrite enterLeaves_none by done. by intros ?%elem_of_nil.
Qed.
End EnterLeaves.

(** ** Where active leaves part *)
Definition node_at (sc : Statechart) (ns : list string) : option StateNode :=
  match ns with [] => None | _ => resolve_walk (Some sc.(sc_root)) None ns end.
Definition parallel_at (sc : Statechart) (ns : list string) : bool := is_parallel (node_at sc ns).
(** No parallel among the prefixes of [path] from length [from] on, [path] excluded. *)
Definition serial_from (sc : Statechart) (from : nat) (path : list string) : bool :=
  forallb (fun j => negb (parallel_at sc (take j path))) (seq from (length path - from)).
Fixpoint parallel_free (n : StateNode) : bool :=
  match n with
  | Parallel _ => false
  | Compound _ l => forallb (fun kn => parallel_free kn.2) l
  | _ => true
  end.

Lemma node_at_resolve sc p : resolveNode sc p = node_at sc (segs p).
Proof. unfold resolveNode, node_at, segs. pose proof (split_char_nonnil sep_char p). by destruct (split_char sep_char p). Qed.
Lemma resolve_walk_app lvl node a b :
  a <> [] -> resolve_walk lvl node (a ++ b) = m ← resolve_walk lvl node a; resolve_walk (children m) (Some m) b.
Proof.
  revert lvl node. induction a as [|x a IH]; intros lvl node; [done|]. intros _. cbn.
  destruct lvl as [l|]; [|done]. destruct (obj_get x l) as [n|]; [|done].
  destruct a as [|y a]; [done|]. by apply IH.
Qed.
Lemma node_at_app sc a b n :
  node_at sc a = Some n -> node_at sc (a ++ b) = resolve_walk (children n) (Some n) b.
Proof.
  destruct a as [|x a]; [done|]. intros H. unfold node_at in *. cbn [app].
  change (x :: a ++ b) with ((x :: a) ++ b). rewrite resolve_walk_app by done. by rewrite H.
Qed.
Lemma parallel_free_walk n ns m :
  parallel_free n = true -> resolve_walk (children n) (Some n) ns = Some m -> is_parallel (Some m) = false.
Proof.
  revert n. induction ns as [|x ns IH]; intros n Hn; cbn [resolve_walk]; [intros [= <-]; by destruct n|].
  destruct (children n) as [l|] eqn:El; [|done]. destruct (obj_get x l) as [c|] eqn:Ec; [|done]. apply IH.
  apply obj_get_elem, list_elem_of_In in Ec. destruct n; try done. cbn in El, Hn. injection El as ->.
  rewrite forallb_forall in Hn. exact (Hn _ Ec).
Qed.

Lemma common_prefix_l a b : common_prefix a b `prefix_of` a.
Proof.
  revert b. induction a as [|x a IH]; intros [|y b]; cbn; try apply prefix_nil.
  destruct (x =? y)%string; [by apply prefix_cons|apply prefix_nil].
Qed.
Lemma common_prefix_comm a b : common_prefix a b = common_prefix b a.
Proof.
  revert b. induction a as [|x a IH]; intros [|y b]; cbn; try done. rewrite (String.eqb_sym y x).
  destruct (String.eqb_spec x y) as [->|]; [by rewrite IH|done].
Qed.
Lemma common_prefix_r a b : common_prefix a b `prefix_of` b.
Proof. rewrite common_prefix_comm. apply common_prefix_l. Qed.
Lemma common_prefix_ne k k' a b : k <> k' -> common_prefix (k :: a) (k' :: b) = [].
Proof. intros H. cbn. by apply String.eqb_neq in H as ->. Qed.
Lemma common_prefix_app p a b : common_prefix (p ++ a) (p ++ b) = p ++ common_prefix a b.
Proof. induction p as [|x p IH]; cbn; [done|]. by rewrite String.eqb_refl, IH. Qed.
(** A path outside [s] parts from all paths below [s] at the same place. *)
Lemma common_prefix_below s x e z :
  s `prefix_of` e -> s `prefix_of` z -> ~ s `prefix_of` x -> common_prefix x e = common_prefix x z.
Proof.
  revert x e z. induction s as [|a s IH]; intros x e z [e' ->] [z' ->] Hx; [destruct Hx; apply prefix_nil|].
  destruct x as [|b x]; cbn; [done|]. destruct (String.eqb_spec b a) as [->|]; [|done]. f_equal.
  apply IH; [by eexists|by eexists|]. intros H. by apply Hx, prefix_cons.
Qed.
Lemma common_prefix_short s x z : s `prefix_of` z -> ~ s `prefix_of` x -> length (common_prefix x z) < length s.
Proof.
  intros Hz Hx. destruct (prefix_weak_total s (common_prefix x z) z Hz (common_prefix_r x z)) as [H|H].
  - destruct Hx. etransitivity; [exact H|apply common_prefix_l].
  - pose proof (prefix_length _ _ H). destruct (decide (length (common_prefix x z) = length s)) as [E|]; [|lia].
    destruct Hx. assert (common_prefix x z = s) as <- by (apply prefix_length_eq; [done|lia]). apply common_prefix_l.
Qed.
Lemma serial_from_spec sc from path q :
  serial_from sc from path = true -> q `prefix_of` path -> from <= length q -> length q < length path ->
  parallel_at sc q = false.
Proof.
  intros H [r ->] H1 H2. unfold serial_from in H. rewrite forallb_forall in H.
  specialize (H (length q)). rewrite take_app_length in H. apply negb_true_iff, H, in_seq. lia.
Qed.
Lemma in_scope_prefix scope leaf : in_scope scope leaf = true <-> segs scope `prefix_of` segs leaf.
Proof.
  unfold in_scope. rewrite orb_true_iff, String.eqb_eq, segs_under. split.
  - intros [->|(r & _ & E)]; [done|by exists r].
  - intros [[|x r] E]; [left; apply segs_inj; by rewrite E, app_nil_r|right]. by exists (x :: r).
Qed.

Section Apart.
Context (sc : Statechart) (Hnames : names_ok sc = true) (Hwf : chart_wf sc = true).

(** Two leaves of an entry part at a parallel of it. *)
Lemma leaves_of_apart n path x y :
  resolveNode sc path = Some n -> x ∈ leaves_of path n -> y ∈ leaves_of path n -> x <> y ->
  parallel_at sc (common_prefix (segs x) (segs y)) = true.
Proof.
  revert path x y. induction n as [| |d o|i l IH|l IH] using StateNode_nested_ind; intros path x y Hp; cbn [leaves_of].
  1,2: rewrite !list_elem_of_singleton; congruence.
  - by intros ?%elem_of_nil.
  - pose proof (resolve_wf sc Hwf path _ Hp) as Hn. cbn in Hn. reflect_bools.
    match goal with H : obj_has i l = true |- _ => unfold obj_has in H; reflect_bools; destruct H as [c Hc] end.
    destruct (node_names_ok_children _ l (resolve_names sc Hnames _ _ Hp) eq_refl) as [Hnd _].
    rewrite (flat_map_select l i c (fun kn => leaves_of (joinPath [path; kn.1]) kn.2)) by done.
    apply obj_get_elem in Hc. destruct (resolve_member sc Hnames Hwf path _ l i c Hp eq_refl Hc) as (Hr & _ & _).
    rewrite Forall_forall in IH. exact (IH _ Hc _ _ _ Hr).
  - rewrite !list_elem_of_In, !in_flat_map. intros ([k c] & Hin & Hx) ([k' c'] & Hin' & Hy) Hne. cbn [fst snd] in Hx, Hy.
    apply list_elem_of_In in Hin, Hin', Hx, Hy.
    destruct (resolve_member sc Hnames Hwf path _ l k c Hp eq_refl Hin) as (Hr & Hs & _).
    destruct (resolve_member sc Hnames Hwf path _ l k' c' Hp eq_refl Hin') as (Hr' & Hs' & _).
    destruct (decide (k = k')) as [<-|Hk].
    + rewrite Forall_forall in IH. assert (c' = c) as -> by congruence. exact (IH _ Hin _ _ _ Hr Hx Hy Hne).
    + destruct (leaves_of_atomic sc Hnames Hwf c _ x Hr Hx) as [_ [rx Ex]].
      destruct (leaves_of_atomic sc Hnames Hwf c' _ y Hr' Hy) as [_ [ry Ey]].
      rewrite Ex, Ey, Hs, Hs', <- !app_assoc, common_prefix_app. cbn [app].
      rewrite common_prefix_ne, app_nil_r by done. unfold parallel_at. by rewrite <- node_at_resolve, Hp.
Qed.
(** An entry enters every region of its parallels, when each child can be entered. *)
Lemma descend_child path n l k c x r0 r :
  resolveNode sc path = Some n -> children n = Some l -> (k, c) ∈ l -> x ∈ leaves_of (joinPath [path; k]) c ->
  (segs path ++ r0 :: r) `prefix_of` segs x ->
  segs path ++ r0 :: r = segs (joinPath [path; k]) ++ r.
Proof.
  intros Hp Hc Hin Hx Hpre. destruct (resolve_member sc Hnames Hwf path n l k c Hp Hc Hin) as (Hr & Hs & _).
  destruct (leaves_of_atomic sc Hnames Hwf c _ x Hr Hx) as [_ [rx Ex]].
  rewrite Ex, Hs, <- app_assoc in Hpre. apply prefix_app_inv, prefix_cons_inv_1 in Hpre as ->.
  by rewrite Hs, <- app_assoc.
Qed.
Lemma leaves_of_regions n path x r l k :
  (forall p m, resolveNode sc p = Some m -> is_history (Some m) = false -> leaves_of p m <> []) ->
  resolveNode sc path = Some n -> x ∈ leaves_of path n -> (segs path ++ r) `prefix_of` segs x ->
  node_at sc (segs path ++ r) = Some (Parallel l) -> k ∈ obj_keys l ->
  exists y, y ∈ leaves_of path n /\ ((segs path ++ r) ++ [k]) `prefix_of` segs y.
Proof.
  intros Hne. revert path r. induction n as [| |d o|i l' IH|l' IH] using StateNode_nested_ind; intros path r Hp Hx Hpre Hl Hk;
    pose proof (resolve_wf sc Hwf path _ Hp) as Hn; try rewrite Forall_forall in IH.
  1,2: apply list_elem_of_singleton in Hx as ->; apply prefix_length in Hpre; rewrite length_app in Hpre;
    destruct r; cbn in Hpre; [|lia]; rewrite app_nil_r, <- node_at_resolve, Hp in Hl; done.
  1: by apply elem_of_nil in Hx.
  - cbn in Hn. reflect_bools.
    match goal with H : obj_has i l' = true |- _ => unfold obj_has in H; reflect_bools; destruct H as [c Hc] end.
    destruct (node_names_ok_children _ l' (resolve_names sc Hnames _ _ Hp) eq_refl) as [Hnd _].
    cbn [leaves_of] in *.
    rewrite (flat_map_select l' i c (fun kn => leaves_of (joinPath [path; kn.1]) kn.2)) in * by done. cbn [fst snd] in *.
    apply obj_get_elem in Hc. destruct (resolve_member sc Hnames Hwf path _ l' i c Hp eq_refl Hc) as (Hr & _).
    destruct r as [|r0 r]; [rewrite app_nil_r, <- node_at_resolve, Hp in Hl; done|].
    pose proof (descend_child path _ l' i c x r0 r Hp eq_refl Hc Hx Hpre) as E. rewrite E in Hpre, Hl |- *. exact (IH _ Hc _ r Hr Hx Hpre Hl Hk).
  - cbn [leaves_of] in *. apply list_elem_of_In, in_flat_map in Hx as ([k0 c] & Hin%list_elem_of_In & Hx%list_elem_of_In).
    cbn [fst snd] in Hx. destruct (resolve_member sc Hnames Hwf path _ l' k0 c Hp eq_refl Hin) as (Hr & _).
    assert (forall k1 c1 y, (k1, c1) ∈ l' -> y ∈ leaves_of (joinPath [path; k1]) c1 ->
      y ∈ flat_map (fun kn => leaves_of (joinPath [path; kn.1]) kn.2) l') as Hmem.
    { intros k1 c1 y H1 H2. apply list_elem_of_In, in_flat_map. exists (k1, c1). by rewrite <- !list_elem_of_In. }
    destruct r as [|r0 r].
    + rewrite app_nil_r in *. rewrite <- node_at_resolve, Hp in Hl. injection Hl as <-.
      unfold obj_keys in Hk. apply list_elem_of_fmap in Hk as ([k1 c1] & -> & Hin1). cbn [fst].
      destruct (resolve_member sc Hnames Hwf path _ l' k1 c1 Hp eq_refl Hin1) as (Hr1 & Hs1 & _).
      assert (is_history (Some c1) = false) as Hh.
      { cbn in Hn. rewrite forallb_forall in Hn. apply list_elem_of_In in Hin1. specialize (Hn _ Hin1). cbn in Hn.
        reflect_bools. by destruct c1 as [| |d []| |]. }
      destruct (leaves_of (joinPath [path; k1]) c1) as [|y ys] eqn:Ey; [by destruct (Hne _ _ Hr1 Hh)|].
      assert (y ∈ leaves_of (joinPath [path; k1]) c1) as Hy by (rewrite Ey; left).
      exists y. split; [by eapply Hmem|]. rewrite <- Hs1.
      destruct (leaves_of_atomic sc Hnames Hwf c1 _ y Hr1 Hy) as [_ [ry Eq]]. by exists ry.
    + pose proof (descend_child path _ l' k0 c x r0 r Hp eq_refl Hin Hx Hpre) as E. rewrite E in Hpre, Hl |- *.
      destruct (IH _ Hin _ r Hr Hx Hpre Hl Hk) as (y & Hy & Hpy). exists y. split; [by eapply Hmem|done].
Qed.
End Apart.
