(* ===== verification/FsmProps.v ===== *)
(** * Properties of the FSM engine

    What [validateStatechart] establishes, the configuration invariant of
    [step] and [settle] over every reachable configuration, first-match
    transition selection, innermost-first joins, and the flat facade against
    its reference. *)

From Stdlib Require Import Ascii String Sorted.
From stdpp Require Import base option list strings pretty gmap.
From S2P Require Import Prelude Fsm FsmTree.

(** ** What a node may be entered as *)
Fixpoint enterable (n : StateNode) : bool :=
  match n with
  | Leaf | Final => true
  | History _ _ => false
  | Compound i l => existsb (fun kn => (kn.1 =? i)%string && enterable kn.2) l
  | Parallel l => existsb (fun kn => enterable kn.2) l
  end.

(** No entry of the chart is a dead end: every node but a history pseudostate
    can be entered, and a history default names an enterable state.
    [validateStatechart] does not check this. *)
Fixpoint entries_ok (n : StateNode) : bool :=
  match n with
  | Leaf | Final | History _ _ => true
  | Compound _ l =>
      enterable n &&
      forallb (fun kn =>
        match kn.2 with
        | History _ (Some d) => match obj_get d l with Some c => enterable c | None => false end
        | c => true
        end && entries_ok kn.2) l
  | Parallel l => enterable n && forallb (fun kn => entries_ok kn.2) l
  end.
Definition chart_entries_ok (sc : Statechart) : bool :=
  forallb (fun kn => entries_ok kn.2) sc.(sc_root).

(** ** The invariants *)
Record config_ok (sc : Statechart) (config : Configuration) : Prop := {
  co_nodup : NoDup config;
  co_atomic : Forall (atomic_path sc) config;
  co_nonempty : config <> [];
}.

(** Every remembered path is an active-leaf path below its composite. *)
Definition memory_ok (sc : Statechart) (la : LastActive) : Prop :=
  forall k v, la !! k = Some v -> atomic_path sc v /\ starts_with v (k +:+ PATH_SEP) = true.

(** No compound, nor the root, has two active children: distinct active leaves
    part at a parallel. *)
Definition exclusive (sc : Statechart) (config : Configuration) : Prop :=
  forall x y, x ∈ config -> y ∈ config -> x <> y -> is_parallel (resolveNode sc (lcca x y)) = true.
(** Every region of an active parallel is active. *)
Definition regions_active (sc : Statechart) (config : Configuration) : Prop :=
  forall q l k, isActive config q = true -> resolveNode sc q = Some (Parallel l) -> k ∈ obj_keys l ->
    isActive config (joinPath [q; k]) = true.

(** The state a transition enters at or below, and the state its move stays in. *)
Definition effective_to (sc : Statechart) (t : Transition) : string :=
  if is_history (resolveNode sc t.(tr_to)) then parentOf t.(tr_to) else t.(tr_to).
Definition edge_scope (sc : Statechart) (t : Transition) : list string :=
  if bool_decide (is_Some t.(tr_on)) && (t.(tr_from) =? ANY_STATE)%string then []
  else common_prefix (segs t.(tr_from)) (segs (effective_to sc t)).
(** A join does not leave a region of an enclosing parallel. *)
Definition joins_local (sc : Statechart) : bool :=
  forallb (fun t => negb (bool_decide (t.(tr_on) = None)) ||
    serial_from sc (length (edge_scope sc t)) (segs t.(tr_from))) sc.(sc_transitions).
(** No move goes into one region of a parallel from outside the region, and no deep
    history remembers a state with parallels. *)
Definition enters_whole (sc : Statechart) (t : Transition) : bool :=
  serial_from sc (length (edge_scope sc t)) (segs (effective_to sc t)) &&
  match resolveNode sc t.(tr_to) with
  | Some (History Deep _) =>
      match resolveNode sc (effective_to sc t) with Some n => parallel_free n | None => false end
  | _ => true
  end.
Definition moves_whole (sc : Statechart) : bool := forallb (enters_whole sc) sc.(sc_transitions).

(** A run: start, then one event microstep followed by the join macrostep. *)
Inductive reachable (sc : Statechart) (ew : EvalWhen) : Configuration -> LastActive -> Prop :=
| reach_init : reachable sc ew (initialConfig sc) ∅
| reach_event config la event config' la' :
    reachable sc ew config la ->
    settle sc (step sc config event ew la).(sr_next) ew
      (step sc config event ew la).(sr_lastActive) = (config', la') ->
    reachable sc ew config' la'.

(** [k] join microsteps, the loop body of [settle]. *)
Inductive joins (sc : Statechart) (ew : EvalWhen) :
    nat -> Configuration * LastActive -> Configuration * LastActive -> Prop :=
| joins_0 s : joins sc ew 0 s s
| joins_S k c la p j s :
    next_join sc ew c = Some (p, j) -> joins sc ew k (join_once sc c la p j) s ->
    joins sc ew (S k) (c, la) s.

(** The flat reference: the first transition whose source is the current
    state (or the wildcard), whose event matches and whose guard holds. *)
Definition flat_enabled (current event : string) (ew : EvalWhen) (t : Transition) : bool :=
  bool_decide (t.(tr_on) = Some event) &&
  ((t.(tr_from) =? ANY_STATE)%string || (t.(tr_from) =? current)%string) &&
  guard_holds ew t.(tr_when).
Definition flat_reference (fsm : Fsm) (current event : string) (ew : EvalWhen) : FlatStepResult :=
  match list_find (fun t => flat_enabled current event ew t = true) fsm.(fsm_transitions) with
  | Some (i, t) => {| fr_next := t.(tr_to); fr_transitioned := negb (t.(tr_to) =? current)%string;
                      fr_via := Some i |}
  | None => {| fr_next := current; fr_transitioned := false; fr_via := None |}
  end.

(** ** What validation establishes *)
Lemma flat_map_nil {A B} (f : A -> list B) (l : list A) :
  flat_map f l = [] <-> forall x, x ∈ l -> f x = [].
Proof.
  induction l as [|a l IH]; cbn; [set_solver|]. split.
  - intros [Ha Hl]%app_eq_nil x [->|Hx]%elem_of_cons; [done|]. by apply IH.
  - intros H. rewrite (H a), (proj2 IH); set_solver.
Qed.

Lemma if_nil {A} (b : bool) (x : A) : (if b then [x] else []) = [] <-> b = false.
Proof. destruct b; naive_solver. Qed.

Lemma checks_wf n path path' parent :
  node_names_ok n = true ->
  checkInitials_at path n = [] -> checkHistory n path' parent = [] ->
  node_wf n = true /\ hist_ok_in (parent ≫= child_parent) n = true.
Proof.
  revert path path' parent.
  assert (forall m l path path',
    Forall (fun kn => forall path path' parent, node_names_ok kn.2 = true ->
      checkInitials_at path kn.2 = [] -> checkHistory kn.2 path' parent = [] ->
      node_wf kn.2 = true /\ hist_ok_in (parent ≫= child_parent) kn.2 = true) l ->
    node_names_ok m = true -> children m = Some l ->
    flat_map (fun kn => checkInitials_at (joinPath [path; kn.1]) kn.2) l = [] ->
    flat_map (fun kn => checkHistory kn.2 (joinPath [path'; kn.1]) (Some m)) l = [] ->
    level_wf (child_parent m) l = true) as Hlevel.
  { intros m l path path' IH Hn Hc Hi Hh.
    destruct (node_names_ok_children m l Hn Hc) as [_ Hl].
    rewrite flat_map_nil in Hi, Hh. unfold level_wf. rewrite forallb_forall.
    intros [k c] Hin%list_elem_of_In. destruct (names_ok_level l Hl k c Hin) as [Hk Hcn].
    rewrite Forall_forall in IH.
    destruct (IH _ Hin _ _ (Some m) Hcn (Hi _ Hin) (Hh _ Hin)) as [Hw Hhi]. cbn in *.
    by rewrite Hk, Hw, Hhi. }
  induction n as [| |d o|i l IH|l IH] using StateNode_nested_ind;
    intros path path' parent Hn Hi Hh; try done.
  - split; [done|]. destruct parent as [[]|]; cbn in *; try done; destruct o; try done.
    apply if_nil in Hh. by reflect_bools.
  - split; [|done]. cbn [checkInitials_at] in Hi. apply app_eq_nil in Hi as [Hi1 Hi2].
    apply if_nil in Hi1. reflect_bools. cbn [node_wf]. rewrite Hi1.
    exact (Hlevel (Compound i l) l path path' IH Hn eq_refl Hi2 Hh).
  - split; [|done]. exact (Hlevel (Parallel l) l path path' IH Hn eq_refl Hi Hh).
Qed.

Lemma validate_split sc :
  validateStatechart sc = [] ->
  obj_has sc.(sc_initial) sc.(sc_root) = true /\
  (forall kn, kn ∈ sc.(sc_root) -> checkInitials_at (joinPath [""; kn.1]) kn.2 = []) /\
  (forall kn, kn ∈ sc.(sc_root) -> checkHistory kn.2 kn.1 None = []) /\
  (forall i t, sc.(sc_transitions) !! i = Some t ->
     checkTransition sc (set_of (allPaths sc.(sc_root) "")) i t = []) /\
  (forall p, p ∈ parallelPaths sc -> checkJoin sc p = []).
Proof.
  unfold validateStatechart. intros (H1 & (H2 & (H3 & (H4 & H5)%app_eq_nil)%app_eq_nil)%app_eq_nil)%app_eq_nil.
  apply if_nil in H1. reflect_bools. rewrite flat_map_nil in H2, H3; rewrite flat_map_nil in H5.
  split_and!; try done.
  intros i t Ht.
  assert (Forall (.= []) (imap (checkTransition sc (set_of (allPaths (sc_root sc) ""))) (sc_transitions sc)))
    as Hall.
  { apply Forall_forall. intros x Hx%list_elem_of_In. by apply (concat_nil_Forall _) in H4;
      rewrite List.Forall_forall in H4; apply H4. }
  rewrite Forall_lookup in Hall. eapply Hall. by rewrite list_lookup_imap, Ht.
Qed.

Lemma validate_wf sc :
  names_ok sc = true -> validateStatechart sc = [] -> chart_wf sc = true.
Proof.
  intros Hn (_ & Hi & Hh & _)%validate_split. unfold chart_wf, level_wf.
  destruct (node_names_ok_children (Parallel sc.(sc_root)) _ Hn eq_refl) as [_ Hl].
  rewrite forallb_forall. intros [k c] Hin%list_elem_of_In.
  destruct (names_ok_level _ Hl k c Hin) as [Hk Hcn].
  destruct (checks_wf c _ _ None Hcn (Hi _ Hin) (Hh _ Hin)) as [Hw Hhi]. cbn in *.
  by rewrite Hk, Hw, Hhi.
Qed.

Section Sound.
Context (sc : Statechart) (Hnames : names_ok sc = true) (Hwf : chart_wf sc = true).

Lemma allPaths_below_sound n path p :
  resolveNode sc path = Some n -> p ∈ allPaths_below path n -> is_Some (resolveNode sc p).
Proof.
  revert path p. induction n as [| |d o|i l IH|l IH] using StateNode_nested_ind;
    intros path p Hp; cbn [allPaths_below]; try by intros ?%elem_of_nil.
  all: rewrite list_elem_of_In, in_flat_map; intros ([k c] & Hin%list_elem_of_In & Hx);
    destruct (resolve_member sc Hnames Hwf path _ l k c Hp eq_refl Hin) as (Hr & _ & _);
    destruct Hx as [<-|Hx%list_elem_of_In]; [by eexists|];
    rewrite Forall_forall in IH; exact (IH _ Hin _ _ Hr Hx).
Qed.

Lemma root_member k c :
  (k, c) ∈ sc.(sc_root) -> resolveNode sc k = Some c /\ joinPath [""; k] = k.
Proof.
  intros Hin. destruct (node_names_ok_children (Parallel sc.(sc_root)) _ Hnames eq_refl) as [Hnd Hl].
  destruct (names_ok_level _ Hl k c Hin) as [Hk _]. split.
  - rewrite resolve_root by done. by apply elem_obj_get.
  - apply joinPath_root. by apply name_ok_spec in Hk as [? _].
Qed.

Lemma allPaths_sound p : p ∈ allPaths sc.(sc_root) "" -> is_Some (resolveNode sc p).
Proof.
  unfold allPaths. rewrite list_elem_of_In, in_flat_map.
  intros ([k c] & Hin%list_elem_of_In & Hx). destruct (root_member k c Hin) as [Hr Hj].
  cbn [fst snd] in Hx. rewrite Hj in Hx. destruct Hx as [<-|Hx%list_elem_of_In]; [by eexists|].
  by eapply allPaths_below_sound.
Qed.

(** A resolved path is a top-level name or the child of a resolved node. *)
Lemma resolve_cases p n :
  resolveNode sc p = Some n ->
  (obj_get p sc.(sc_root) = Some n /\ hist_ok_in None n = true) \/
  exists q m l k, resolveNode sc q = Some m /\ children m = Some l /\
    obj_get k l = Some n /\ segs p = segs q ++ [k] /\ parentOf p = q /\
    hist_ok_in (child_parent m) n = true.
Proof.
  intros Hp. rewrite resolveNode_as_walk in Hp.
  destruct (exists_last (split_char_nonnil sep_char p)) as (ns & k & Hs).
  fold (segs p) in Hs. rewrite Hs, resolve_walk_snoc in Hp.
  assert (Forall (fun x => has_char sep_char x = false) (ns ++ [k])) as Hf
    by (rewrite <- Hs; apply split_char_no_sep).
  destruct ns as [|x ns].
  - left. cbn in Hp, Hs. pose proof (join_segs p) as Hj. rewrite Hs in Hj. cbn in Hj. subst k.
    split; [done|]. by eapply (level_wf_lookup None).
  - right. apply Forall_app in Hf as [Hf _].
    set (q := join_with PATH_SEP (x :: ns)) in *.
    assert (segs q = x :: ns) as Hq by (by apply segs_join).
    destruct (resolve_walk _ _ (x :: ns)) as [m|] eqn:Hm; [|done]. cbn in Hp.
    destruct (children m) as [l|] eqn:Hl; [|done]. cbn in Hp.
    assert (resolveNode sc q = Some m) as Hqm by (by rewrite resolveNode_as_walk, Hq).
    exists q, m, l, k. split_and!; try done.
    + by rewrite Hq, Hs.
    + unfold parentOf. by rewrite Hs, removelast_last.
    + eapply level_wf_lookup; [|done]. eapply children_wf; [|done]. by eapply resolve_wf.
Qed.

Lemma resolve_entries p n :
  chart_entries_ok sc = true -> resolveNode sc p = Some n -> entries_ok n = true.
Proof.
  intros He. remember (length (segs p)) as len eqn:Hlen. revert p n Hlen.
  induction len as [|len IH]; intros p n Hlen Hp.
  - by destruct (segs p) eqn:E; [apply split_char_nonnil in E|].
  - destruct (resolve_cases p n Hp) as [[Hr _]|(q & m & l & k & Hq & Hc & Hk & Hs & _)].
    + unfold chart_entries_ok in He. rewrite forallb_forall in He.
      apply obj_get_elem, list_elem_of_In in Hr. exact (He _ Hr).
    + assert (entries_ok m = true) as Hm.
      { apply (IH q); [|done]. rewrite Hs, length_app in Hlen. cbn in Hlen. lia. }
      apply obj_get_elem, list_elem_of_In in Hk.
      destruct m; cbn in Hc; simplify_eq; cbn in Hm; reflect_bools;
        match goal with H : forallb _ _ = true |- _ =>
          rewrite forallb_forall in H; specialize (H _ Hk); cbn in H end;
        by reflect_bools.
Qed.

Lemma enterable_leaves n path : enterable n = true -> leaves_of path n <> [].
Proof.
  revert path. induction n as [| |d o|i l IH|l IH] using StateNode_nested_ind;
    intros path; cbn [enterable leaves_of]; try done.
  all: rewrite existsb_exists; intros ([k c] & Hin%list_elem_of_In & Hk); cbn in Hk;
    rewrite flat_map_nil; intros Hall; specialize (Hall _ Hin); cbn in Hall;
    rewrite Forall_forall in IH.
  - apply andb_true_iff in Hk as [Hk He]. rewrite Hk in Hall. by eapply IH.
  - by eapply IH.
Qed.

Lemma entries_enterable n : entries_ok n = true -> is_history (Some n) = false -> enterable n = true.
Proof. destruct n; cbn; intros; reflect_bools; done. Qed.
End Sound.

(** ** Entry is into atomic, existing paths *)
Section Entry.
Context (sc : Statechart) (Hnames : names_ok sc = true) (Hwf : chart_wf sc = true).

Lemma enterTarget_atomic to la x :
  memory_ok sc la -> x ∈ enterTarget sc to la -> atomic_path sc x.
Proof.
  intros Hm. unfold enterTarget. repeat case_match; intros Hx;
    try (by eapply enterLeaves_atomic in Hx as [? _]).
  apply list_elem_of_singleton in Hx as ->. by eapply Hm.
Qed.

Lemma enterLeaves_nonempty p n :
  chart_entries_ok sc = true -> resolveNode sc p = Some n -> is_history (Some n) = false ->
  enterLeaves sc p <> [].
Proof.
  intros He Hp Hh. rewrite (enterLeaves_eq sc Hnames Hwf p n Hp).
  apply enterable_leaves, entries_enterable; [|done]. by eapply resolve_entries.
Qed.

(** The direct child through which a remembered leaf was reached. *)
Lemma remembered_child composite m v :
  resolveNode sc composite = Some m -> atomic_path sc v ->
  starts_with v (composite +:+ PATH_SEP) = true ->
  exists c, resolveNode sc
    (join_with PATH_SEP (take (length (segs composite) + 1) (segs v))) = Some c /\
    is_history (Some c) = false.
Proof.
  intros Hc (n & Hv & Ha) (rest & Hne & Hs)%segs_under.
  destruct rest as [|k rest]; [done|].
  assert (take (length (segs composite) + 1) (segs v) = segs composite ++ [k]) as Ht.
  { by rewrite Hs, take_app_add. }
  pose proof (split_char_no_sep sep_char v) as Hf. fold (segs v) in Hf. rewrite Hs in Hf.
  rewrite Ht. rewrite resolveNode_as_walk in Hv.
  rewrite resolveNode_as_walk, segs_join; [| |].
  - destruct rest as [|k' rest].
    + exists n. rewrite <- Hs. split; [done|]. by destruct n.
    + rewrite Hs in Hv. change (k :: k' :: rest) with ([k] ++ k' :: rest) in Hv.
      rewrite app_assoc in Hv.
      destruct (resolve_prefix sc (segs composite ++ [k]) (k' :: rest) n) as (c & l & Hr & Hl);
        [by destruct (segs composite)|done|done|].
      exists c. split; [done|]. by destruct c.
  - by destruct (segs composite).
  - apply Forall_app in Hf as [? [? _]%Forall_cons]. apply Forall_app. by repeat constructor.
Qed.

Lemma enterTarget_nonempty to n la :
  chart_entries_ok sc = true -> memory_ok sc la -> resolveNode sc to = Some n ->
  enterTarget sc to la <> [].
Proof.
  intros He Hm Hto. unfold enterTarget. rewrite Hto.
  destruct n as [| |d o|i l|l]; try (by eapply enterLeaves_nonempty).
  destruct (resolve_cases sc Hwf to _ Hto)
    as [[_ Hh]|(q & m & l & k & Hq & Hc & Hk & _ & -> & Hh)]; [by destruct o|].
  destruct m as [| | |i l'|]; cbn in Hc, Hh; try done; [|by destruct o]. injection Hc as ->.
  destruct (la !! q) as [v|] eqn:Hv.
  - destruct (Hm _ _ Hv) as [Ha Hs]. destruct d; [|done].
    destruct (remembered_child q _ v Hq Ha Hs) as (c & Hr & Hnh).
    by eapply enterLeaves_nonempty.
  - pose proof (resolve_entries sc Hwf q _ He Hq) as Heq. cbn [entries_ok] in Heq.
    apply andb_true_iff in Heq as [Hen Hall].
    destruct o as [d'|]; [|by eapply enterLeaves_nonempty].
    rewrite forallb_forall in Hall. pose proof (obj_get_elem _ _ _ Hk) as Hkin.
    apply list_elem_of_In in Hkin. specialize (Hall _ Hkin). cbn in Hall.
    destruct (obj_get d' l) as [c|] eqn:Hd; [|done]. reflect_bools.
    destruct (resolve_member sc Hnames Hwf q _ l d' c Hq eq_refl (obj_get_elem _ _ _ Hd))
      as (Hr & _ & _).
    rewrite (enterLeaves_eq sc Hnames Hwf _ _ Hr). by apply enterable_leaves.
Qed.

End Entry.

(** *** Exit recording keeps the memory well formed. *)
Section Exit.
Context (sc : Statechart).

Lemma recordExits_ok config exit la :
  Forall (atomic_path sc) config -> memory_ok sc la ->
  memory_ok sc (recordExits sc config exit la).
Proof.
  intros Hc. unfold recordExits. revert la.
  induction (compoundPaths sc) as [|c cs IH]; intros la Hla; cbn [fold_left]; [done|].
  apply IH. unfold recordExit. destruct (List.find _ config) as [a|] eqn:Ef; [|done].
  apply List.find_some in Ef as [Hin Ha]. reflect_bools.
  intros k v. rewrite lookup_insert. case_decide; [|by apply Hla].
  intros [= <-]. subst k. rewrite Forall_forall in Hc. split; [|done].
  apply Hc. by apply list_elem_of_In.
Qed.

Lemma reconfigure_ok config exit entered :
  config_ok sc config -> Forall (atomic_path sc) entered -> entered <> [] ->
  config_ok sc (reconfigure config exit entered).
Proof.
  intros [Hnd Ha _] He Hne. unfold reconfigure.
  assert (NoDup (List.filter (fun leaf => negb (set_has leaf exit)) config)) as Hf.
  { apply NoDup_ListNoDup, List.NoDup_filter. by apply NoDup_ListNoDup. }
  constructor.
  - by apply NoDup_set_adds.
  - rewrite Forall_forall in *. intros x [Hx|Hx]%elem_of_set_adds; [|by apply He].
    apply list_elem_of_In, filter_In in Hx as [Hx _]. by apply Ha, list_elem_of_In.
  - destruct entered as [|e es]; [done|]. intros Hnil.
    assert (e ∈ fold_left set_add (e :: es)
              (List.filter (fun leaf => negb (set_has leaf exit)) config)) as Hin
      by (apply elem_of_set_adds; set_solver).
    rewrite Hnil in Hin. set_solver.
Qed.
End Exit.

Lemma prefix_snoc_cases {A} (s q : list A) k : s `prefix_of` q ++ [k] -> s `prefix_of` q \/ s = q ++ [k].
Proof.
  intros [r Hr]. destruct r as [|x r] using rev_ind; [right; by rewrite app_nil_r in Hr|left].
  rewrite app_assoc in Hr. apply app_inj_tail in Hr as [-> _]. by exists r.
Qed.

(** ** Moves: leaving the leaves below [s] and entering leaves below [s] *)
Section Move.
Context (sc : Statechart).
Definition apart (config : list string) : Prop :=
  forall x y, x ∈ config -> y ∈ config -> x <> y -> parallel_at sc (common_prefix (segs x) (segs y)) = true.
(** Below [T], every region of every parallel on the way to a leaf has a leaf. *)
Definition spread (T : list string) (config : list string) : Prop :=
  forall x q l k, x ∈ config -> T `prefix_of` q -> q `prefix_of` segs x -> node_at sc q = Some (Parallel l) ->
    k ∈ obj_keys l -> exists y, y ∈ config /\ (q ++ [k]) `prefix_of` segs y.
Definition active_at (config : list string) (s : list string) : Prop :=
  s = [] \/ exists z, z ∈ config /\ s `prefix_of` segs z.

Context (config entered next : list string) (s : list string).
Context (Hactive : active_at config s) (Hin : forall e, e ∈ entered -> s `prefix_of` segs e)
  (Hnext : forall x, x ∈ next <-> (x ∈ config /\ ~ s `prefix_of` segs x) \/ x ∈ entered).

Lemma move_apart : apart config -> apart entered -> apart next.
Proof.
  intros Hc He. assert (forall x e, x ∈ config -> ~ s `prefix_of` segs x -> e ∈ entered ->
    parallel_at sc (common_prefix (segs x) (segs e)) = true) as Hmix.
  { intros x e Hx Hns Hent. destruct Hactive as [->|(z & Hz & Hsz)]; [destruct Hns; apply prefix_nil|].
    rewrite (common_prefix_below s (segs x) (segs e) (segs z)) by auto. apply Hc; [done..|]. by intros ->. }
  intros x y [[Hx Hxs]|Hx]%Hnext [[Hy Hys]|Hy]%Hnext Hne; [by apply Hc|by apply Hmix| |by apply He].
  rewrite common_prefix_comm. by apply Hmix.
Qed.

Lemma move_spread T :
  entered <> [] -> s `prefix_of` T -> serial_from sc (length s) T = true ->
  (forall e, e ∈ entered -> T `prefix_of` segs e) -> spread [] config -> spread T entered -> spread [] next.
Proof.
  intros Hne HsT Hserial HT Hc He.
  assert (forall q k, (q ++ [k]) `prefix_of` s -> exists y, y ∈ next /\ (q ++ [k]) `prefix_of` segs y) as Habove.
  { intros q k Hq. destruct entered as [|e es]; [done|]. exists e. split; [apply Hnext; right; left|].
    etransitivity; [exact Hq|]. apply Hin. left. }
  assert (forall z q l k, z ∈ config -> q `prefix_of` segs z -> ~ s `prefix_of` q ->
    node_at sc q = Some (Parallel l) -> k ∈ obj_keys l -> exists y, y ∈ next /\ (q ++ [k]) `prefix_of` segs y) as Hold.
  { intros z q l k Hz Hq Hns Hl Hk. destruct (Hc z q l k Hz (prefix_nil _) Hq Hl Hk) as (y & Hy & Hpy).
    destruct (decide (s `prefix_of` segs y)) as [Hsy|Hsy]; [|exists y; split; [apply Hnext; by left|done]].
    apply Habove. destruct (prefix_weak_total s (q ++ [k]) (segs y) Hsy Hpy) as [H|]; [|done].
    apply prefix_snoc_cases in H as [H|H]; [done|by rewrite H]. }
  intros x q l k Hx _ Hq Hl Hk. apply Hnext in Hx as [[Hx Hns]|Hx].
  - apply (Hold x q l k); try done. intros H. destruct Hns. by etransitivity.
  - destruct (prefix_weak_total T q (segs x) (HT x Hx) Hq) as [HTq|HqT].
    { destruct (He x q l k Hx HTq Hq Hl Hk) as (y & Hy & Hpy). exists y. split; [apply Hnext; by right|done]. }
    destruct (decide (length q < length T)) as [Hlt|Hge].
    2: { assert (q = T) as -> by (apply prefix_length_eq; [done|lia]).
         destruct (He x T l k Hx (reflexivity _) Hq Hl Hk) as (y & Hy & Hpy). exists y. split; [apply Hnext; by right|done]. }
    destruct (decide (length s <= length q)) as [Hle|Hgt].
    { pose proof (serial_from_spec sc _ T q Hserial HqT Hle Hlt) as H. unfold parallel_at in H. by rewrite Hl in H. }
    destruct Hactive as [->|(z & Hz & Hsz)]; [cbn in Hgt; lia|].
    destruct (prefix_weak_total q s T HqT HsT) as [Hqs|Hsq]; [|apply prefix_length in Hsq; lia].
    apply (Hold z q l k); try done; [by etransitivity|]. intros H%prefix_length. lia.
Qed.
End Move.

(** ** What an entry enters *)
Section Entered.
Context (sc : Statechart) (Hnames : names_ok sc = true) (Hwf : chart_wf sc = true).

Lemma enterTarget_shape t n la :
  memory_ok sc la -> resolveNode sc t.(tr_to) = Some n ->
  let T := segs (effective_to sc t) in
  (exists p m, enterTarget sc t.(tr_to) la = leaves_of p m /\ resolveNode sc p = Some m /\
     (segs p = T \/ (exists k, segs p = T ++ [k]) /\ parallel_at sc T = false)) \/
  (exists v o, n = History Deep o /\ enterTarget sc t.(tr_to) la = [v] /\ T `prefix_of` segs v /\ atomic_path sc v).
Proof.
  intros Hm Hto T. unfold enterTarget, T, effective_to. rewrite Hto.
  destruct n as [| |d o|i l|l]; cbn [is_history].
  1,2,4,5: left; eexists _, _; split; [by eapply enterLeaves_eq|]; split; [done|by left].
  destruct (resolve_cases sc Hwf _ _ Hto) as [[_ Hh]|(q & m & l & k & Hq & Hc & Hk & Hs & -> & Hh)]; [by destruct o|].
  destruct m as [| | |i l'|]; cbn in Hc, Hh; try done; [|by destruct o]. injection Hc as ->.
  assert (parallel_at sc (segs q) = false) as Hpar by (unfold parallel_at; by rewrite <- node_at_resolve, Hq).
  assert (forall p m, resolveNode sc p = Some m -> enterLeaves sc p = leaves_of p m) as Heq by (intros; by eapply enterLeaves_eq).
  destruct (la !! q) as [v|] eqn:Ev.
  - destruct (Hm _ _ Ev) as [Ha Hsv]. destruct d.
    + left. destruct (remembered_child sc q _ v Hq Ha Hsv) as (c & Hr & _). eexists _, c. split; [by apply Heq|]. split; [done|].
      right. split; [|done]. apply segs_under in Hsv as (rest & Hne & Es). destruct rest as [|k' rest]; [done|]. exists k'.
      pose proof (split_char_no_sep sep_char v) as Hf. fold (segs v) in Hf. rewrite Es in Hf |- *. rewrite take_app_add. cbn [take].
      apply Forall_app in Hf as [Hf1 [Hf2 _]%Forall_cons]. apply segs_join; [by destruct (segs q)|].
      apply Forall_app. split; [done|by constructor].
    + right. exists v, o. split_and!; [done|done| |done]. apply segs_under in Hsv as (rest & _ & Es). by exists rest.
  - left. destruct o as [d'|]; [|eexists q, _; split; [by apply Heq|]; split; [done|by left]].
    cbn in Hh. unfold obj_has in Hh. reflect_bools. destruct Hh as [c Hc].
    destruct (resolve_member sc Hnames Hwf q _ l d' c Hq eq_refl (obj_get_elem _ _ _ Hc)) as (Hr & Hs' & _).
    eexists _, c. split; [by apply Heq|]. split; [done|]. right. split; [by exists d'|done].
Qed.

Lemma entered_under t n la x :
  memory_ok sc la -> resolveNode sc t.(tr_to) = Some n -> x ∈ enterTarget sc t.(tr_to) la ->
  segs (effective_to sc t) `prefix_of` segs x.
Proof.
  intros Hm Hto Hx. destruct (enterTarget_shape t n la Hm Hto) as [(p & m & E & Hp & Hs)|(v & o & _ & E & Hv & _)]; rewrite E in Hx.
  - destruct (leaves_of_atomic sc Hnames Hwf m p x Hp Hx) as [_ [r Er]]. rewrite Er.
    destruct Hs as [->|[[k ->] _]]; [by eexists|]. rewrite <- app_assoc. by eexists.
  - by apply list_elem_of_singleton in Hx as ->.
Qed.
Lemma entered_apart t n la :
  memory_ok sc la -> resolveNode sc t.(tr_to) = Some n -> apart sc (enterTarget sc t.(tr_to) la).
Proof.
  intros Hm Hto x y Hx Hy Hne.
  destruct (enterTarget_shape t n la Hm Hto) as [(p & m & E & Hp & _)|(v & o & _ & E & _)]; rewrite E in Hx, Hy.
  - by eapply leaves_of_apart.
  - apply list_elem_of_singleton in Hx as ->, Hy as ->. done.
Qed.
Lemma entered_spread t n la :
  chart_entries_ok sc = true -> memory_ok sc la -> resolveNode sc t.(tr_to) = Some n -> enters_whole sc t = true ->
  spread sc (segs (effective_to sc t)) (enterTarget sc t.(tr_to) la).
Proof.
  intros He Hm Hto Hw x q l k Hx HT Hq Hl Hk. unfold enters_whole in Hw. rewrite Hto in Hw. apply andb_true_iff in Hw as [_ Hw].
  assert (forall p m, resolveNode sc p = Some m -> is_history (Some m) = false -> leaves_of p m <> []) as Hne.
  { intros p m Hp Hh. rewrite <- (enterLeaves_eq sc Hnames Hwf p m Hp). by eapply enterLeaves_nonempty. }
  destruct (enterTarget_shape t n la Hm Hto) as [(p & m & E & Hp & Hs)|(v & o & -> & E & Hv & _)]; rewrite E in *.
  - assert (segs p `prefix_of` q) as [r ->].
    { destruct Hs as [->|[[k' Es] Hpar]]; [done|].
      destruct (leaves_of_atomic sc Hnames Hwf m p x Hp Hx) as [_ [rx Er]].
      destruct (prefix_weak_total (segs p) q (segs x) (ex_intro _ rx Er) Hq) as [|H]; [done|].
      rewrite Es in H |- *. apply prefix_snoc_cases in H as [H|H]; [|by rewrite H].
      assert (q = segs (effective_to sc t)) as ->; [|unfold parallel_at in Hpar; by rewrite Hl in Hpar].
      apply (anti_symm prefix); done. }
    by eapply leaves_of_regions.
  - destruct (resolveNode sc (effective_to sc t)) as [c|] eqn:Ec; [|done]. destruct HT as [r ->]. rewrite node_at_resolve in Ec.
    rewrite (node_at_app _ _ r _ Ec) in Hl. by apply parallel_free_walk in Hl.
Qed.
End Entered.

(** ** The invariant, for one step, one join, a macrostep and a run *)
Section Invariant.
Context (sc : Statechart) (ew : EvalWhen).
Context (Hnames : names_ok sc = true) (Hvalid : validateStatechart sc = [])
  (Hentries : chart_entries_ok sc = true).

Lemma chart_wf_valid : chart_wf sc = true.
Proof. by apply validate_wf. Qed.

Lemma transition_target i t :
  sc.(sc_transitions) !! i = Some t -> is_Some (resolveNode sc t.(tr_to)).
Proof.
  intros Ht. destruct (validate_split sc Hvalid) as (_ & _ & _ & Htr & _).
  specialize (Htr i t Ht). unfold checkTransition in Htr.
  apply app_eq_nil in Htr as [_ [Hto _]%app_eq_nil]. apply if_nil in Hto. reflect_bools.
  apply set_has_spec in Hto. rewrite elem_of_set_of in Hto. eapply allPaths_sound; eauto using chart_wf_valid.
Qed.

Lemma enter_ok i t la :
  sc.(sc_transitions) !! i = Some t -> memory_ok sc la ->
  Forall (atomic_path sc) (enterTarget sc t.(tr_to) la) /\ enterTarget sc t.(tr_to) la <> [].
Proof.
  intros Ht Hm. destruct (transition_target i t Ht) as [n Hn]. split.
  - apply Forall_forall. intros x. intros Hx. eapply enterTarget_atomic; eauto using chart_wf_valid.
  - eapply enterTarget_nonempty; eauto using chart_wf_valid.
Qed.

Lemma step_ok config event la :
  config_ok sc config -> memory_ok sc la ->
  config_ok sc (step sc config event ew la).(sr_next) /\
  memory_ok sc (step sc config event ew la).(sr_lastActive).
Proof.
  intros Hc Hm. unfold step.
  enough (forall ts i, (forall j t, ts !! j = Some t -> sc.(sc_transitions) !! (i + j) = Some t) ->
    config_ok sc (step_from sc config event ew la i ts).(sr_next) /\
    memory_ok sc (step_from sc config event ew la i ts).(sr_lastActive)) as H by (by apply H).
  induction ts as [|t ts IH]; intros i Hts; cbn [step_from]; [done|].
  destruct (enabled config event ew t).
  - assert (sc.(sc_transitions) !! i = Some t) as Ht
      by (rewrite <- (Nat.add_0_r i); by apply Hts).
    destruct (enter_ok i t la Ht Hm) as [Ha Hne]. split; cbn.
    + by apply reconfigure_ok.
    + apply recordExits_ok; [|done]. apply Hc.
  - apply IH. intros j t' Hj. rewrite <- (Hts (S j) t' Hj). f_equal. lia.
Qed.

Lemma next_join_edge c p j :
  next_join sc ew c = Some (p, j) ->
  p ∈ parallelPaths sc /\ eligible sc ew c p = true /\ joinEdge sc ew p = Some j /\
  exists i, sc.(sc_transitions) !! i = Some j.
Proof.
  unfold next_join. destruct (List.find _ _) as [q|] eqn:Eq; [|done].
  destruct (joinEdge sc ew q) as [j'|] eqn:Ej; [|done]. intros [= -> ->].
  apply List.find_some in Eq as [Hin He]. split_and!; try done; [by apply list_elem_of_In|].
  apply List.find_some in Ej as [Hj _]. by apply list_elem_of_In, list_elem_of_lookup_1 in Hj.
Qed.

Lemma join_ok c la p j :
  next_join sc ew c = Some (p, j) -> config_ok sc c -> memory_ok sc la ->
  config_ok sc (join_once sc c la p j).1 /\ memory_ok sc (join_once sc c la p j).2.
Proof.
  intros (_ & _ & _ & i & Hi)%next_join_edge Hc Hm.
  assert (memory_ok sc (recordExits sc c (descendantsOf c p) la)) as Hm'
    by (apply recordExits_ok; [apply Hc|done]).
  destruct (enter_ok i j _ Hi Hm') as [Ha Hne]. split; cbn; [by apply reconfigure_ok|done].
Qed.

Lemma settle_loop_ok fuel c la :
  config_ok sc c -> memory_ok sc la ->
  config_ok sc (settle_loop fuel sc ew c la).1 /\ memory_ok sc (settle_loop fuel sc ew c la).2.
Proof.
  revert c la. induction fuel as [|fuel IH]; intros c la Hc Hm; cbn [settle_loop]; [done|].
  destruct (next_join sc ew c) as [[p j]|] eqn:Ej; [|done].
  destruct (join_ok c la p j Ej Hc Hm) as [Hc' Hm'].
  destruct (join_once sc c la p j) as [c' la']. by apply IH.
Qed.

Lemma initial_ok : config_ok sc (initialConfig sc).
Proof.
  pose proof chart_wf_valid as Hw.
  destruct (validate_split sc Hvalid) as (Hi & _). unfold obj_has in Hi. reflect_bools.
  destruct Hi as [n Hn]. pose proof (obj_get_elem _ _ _ Hn) as Hin.
  destruct (root_member sc Hnames _ n Hin) as [Hr _].
  constructor; [apply NoDup_set_of|..].
  - apply Forall_forall. intros x. unfold initialConfig. rewrite elem_of_set_of. intros Hx.
    by eapply enterLeaves_atomic in Hx as [? _].
  - assert (is_history (Some n) = false) as Hh.
    { destruct (level_wf_lookup None _ _ n Hw Hn) as (_ & Hhi & _).
      by destruct n as [| |d []| |]. }
    pose proof (enterLeaves_nonempty sc Hnames Hw _ n Hentries Hr Hh) as Hne.
    unfold initialConfig. destruct (enterLeaves sc (sc_initial sc)) as [|x l]; [done|].
    intros Hnil. assert (x ∈ set_of (x :: l)) as Hx by (apply elem_of_set_of; set_solver).
    rewrite Hnil in Hx. set_solver.
Qed.
End Invariant.

(** ** Configurations as sets *)
Lemma config_changed_spec next config :
  NoDup next -> NoDup config ->
  config_changed next config = false <-> (forall p, p ∈ next <-> p ∈ config).
Proof.
  intros Hn Hc. unfold config_changed. rewrite orb_false_iff, negb_false_iff, Nat.eqb_eq. split.
  - intros [Hlen Hex]. apply NoDup_same_size_incl; try done. intros x Hx.
    destruct (set_has x config) eqn:E; [by apply set_has_spec|].
    enough (existsb (fun p => negb (set_has p config)) next = true) by congruence.
    apply existsb_exists. exists x. by rewrite E, <- list_elem_of_In.
  - intros H. split.
    + apply Permutation_length, NoDup_Permutation; done.
    + destruct (existsb _ next) eqn:E; [|done]. apply existsb_exists in E as (x & Hx & Hnot).
      apply list_elem_of_In, H, set_has_spec in Hx. by rewrite Hx in Hnot.
Qed.

Lemma step_from_spec sc config event ew la i ts :
  match list_find (fun t => enabled config event ew t = true) ts with
  | Some (j, t) => step_from sc config event ew la i ts = fire sc config la (i + j) t
  | None => step_from sc config event ew la i ts = stay config la
  end.
Proof.
  revert i. induction ts as [|t ts IH]; intros i; cbn; [done|].
  destruct (enabled config event ew t) eqn:E.
  - rewrite decide_True by done. by rewrite Nat.add_0_r.
  - rewrite decide_False by congruence. specialize (IH (S i)).
    destruct (list_find _ ts) as [[j t']|]; cbn; [|done]. rewrite IH. f_equal. lia.
Qed.

Lemma step_spec sc config event ew la :
  match list_find (fun t => enabled config event ew t = true) sc.(sc_transitions) with
  | Some (i, t) => step sc config event ew la = fire sc config la i t
  | None => step sc config event ew la = stay config la
  end.
Proof. exact (step_from_spec sc config event ew la 0 sc.(sc_transitions)). Qed.

(** ** Steps and joins are moves *)
Section Legal.
Context (sc : Statechart) (ew : EvalWhen).
Context (Hnames : names_ok sc = true) (Hvalid : validateStatechart sc = [])
  (Hentries : chart_entries_ok sc = true).
Let Hwf : chart_wf sc = true := validate_wf sc Hnames Hvalid.

Lemma transition_source i t :
  sc.(sc_transitions) !! i = Some t -> t.(tr_from) = ANY_STATE \/ is_Some (resolveNode sc t.(tr_from)).
Proof.
  intros Ht. destruct (validate_split sc Hvalid) as (_ & _ & _ & Htr & _).
  specialize (Htr i t Ht). unfold checkTransition in Htr. apply app_eq_nil in Htr as [Hf%if_nil _].
  apply andb_false_iff in Hf as [Hf|Hf]; reflect_bools; [by left|right].
  apply set_has_spec in Hf. rewrite elem_of_set_of in Hf. by apply (allPaths_sound sc Hnames Hwf).
Qed.
Lemma segs_prefix p s n :
  resolveNode sc p = Some n -> s `prefix_of` segs p -> s <> [] ->
  segs (join_with PATH_SEP s) = s /\ join_with PATH_SEP s <> "".
Proof.
  intros Hp [r Hs] Hne. pose proof (split_char_no_sep sep_char p) as Hf. fold (segs p) in Hf. rewrite Hs in Hf.
  apply Forall_app in Hf as [Hf _]. pose proof (segs_join s Hne Hf) as E. split; [done|]. intros H. rewrite H in E.
  change (segs "") with [""] in E. subst s. rewrite node_at_resolve, Hs in Hp. cbn in Hp.
  destruct (obj_get "" (sc_root sc)) as [c|] eqn:Ec; [|done]. by apply (level_wf_lookup None _ _ c Hwf) in Ec as [? _].
Qed.
Lemma elem_of_reconfigure x config exit entered :
  x ∈ reconfigure config exit entered <-> (x ∈ config /\ x ∉ exit) \/ x ∈ entered.
Proof.
  unfold reconfigure. rewrite elem_of_set_adds. f_equiv. rewrite list_elem_of_In, filter_In, <- list_elem_of_In.
  rewrite negb_true_iff, <- not_true_iff_false, set_has_spec. done.
Qed.
Lemma elem_of_descendants x config p n s :
  resolveNode sc p = Some n -> s `prefix_of` segs p ->
  x ∈ descendantsOf config (join_with PATH_SEP s) <-> x ∈ config /\ s `prefix_of` segs x.
Proof.
  intros Hp Hs. destruct s as [|a s]; [split; [intros; split; [done|apply prefix_nil]|by intros []]|].
  destruct (segs_prefix p (a :: s) n Hp Hs) as [E Hne]; [done|]. unfold descendantsOf.
  apply String.eqb_neq in Hne as ->. rewrite list_elem_of_In, filter_In, <- list_elem_of_In, in_scope_prefix, E. done.
Qed.
Lemma isActive_prefix config p : isActive config p = true <-> exists z, z ∈ config /\ segs p `prefix_of` segs z.
Proof.
  unfold isActive. rewrite existsb_exists. setoid_rewrite <- list_elem_of_In.
  setoid_rewrite <- in_scope_prefix. done.
Qed.

(** [next] is [config] with the leaves below the scope of [t] replaced by its entry. *)
Definition moved (t : Transition) (la : LastActive) (config next : Configuration) : Prop :=
  active_at config (edge_scope sc t) /\
  forall x, x ∈ next <-> (x ∈ config /\ ~ edge_scope sc t `prefix_of` segs x) \/ x ∈ enterTarget sc t.(tr_to) la.

Lemma scope_below t : edge_scope sc t `prefix_of` segs (effective_to sc t).
Proof. unfold edge_scope. destruct (_ && _); [apply prefix_nil|apply common_prefix_r]. Qed.

Lemma fire_moved config event la i t :
  sc.(sc_transitions) !! i = Some t -> enabled config event ew t = true ->
  moved t la config (fire sc config la i t).(sr_next).
Proof.
  intros Ht He. unfold enabled in He. reflect_bools. rename select (tr_on t = Some event) into Hon. cbn [fire sr_next].
  unfold moved. setoid_rewrite elem_of_reconfigure. unfold exit_scope, edge_scope. fold (effective_to sc t). rewrite Hon, bool_decide_true by (by eexists).
  cbn [andb]. destruct (String.eqb_spec (tr_from t) ANY_STATE) as [E|Hne].
  - split; [by left|]. intros x. unfold descendantsOf. cbn. split; [intros [[? ?]|?]; [done|by right]|intros [[_ H]|?]; [destruct H; apply prefix_nil|by right]].
  - rename select (_ || _ = true) into Ha. cbn [orb] in Ha. apply isActive_prefix in Ha as (z & Hz & Hpz).
    destruct (transition_source i t Ht) as [|[n Hn]]; [done|]. split.
    + right. exists z. split; [done|]. etransitivity; [apply common_prefix_l|done].
    + intros x. unfold lcca. rewrite (elem_of_descendants x config _ n _ Hn (common_prefix_l _ _)). naive_solver.
Qed.

Lemma join_moved c la p j :
  next_join sc ew c = Some (p, j) -> joins_local sc = true -> apart sc c ->
  moved j (recordExits sc c (descendantsOf c p) la) c (join_once sc c la p j).1.
Proof.
  intros (Hp & He & Hj & i & Hi)%next_join_edge Hlocal Hap. unfold eligible in He. reflect_bools.
  rename select (isActive c p = true) into Ha. apply isActive_prefix in Ha as (z & Hz & Hpz).
  apply List.find_some in Hj as [_ Hj]. reflect_bools. rename select (tr_from j = p) into Hfrom. rename select (tr_on j = None) into Hon.
  assert (edge_scope sc j = common_prefix (segs p) (segs (effective_to sc j))) as Es.
  { unfold edge_scope. rewrite Hon, bool_decide_false by (by intros []). cbn [andb]. by rewrite Hfrom. }
  assert (exists n, resolveNode sc p = Some n) as [n Hn].
  { rename select (allRegionsFinal sc p c = true) into Hr. unfold allRegionsFinal in Hr. destruct (resolveNode sc p); [by eexists|done]. }
  assert (serial_from sc (length (edge_scope sc j)) (segs p) = true) as Hs.
  { unfold joins_local in Hlocal. rewrite forallb_forall in Hlocal.
    specialize (Hlocal j (proj1 (list_elem_of_In _ _) (list_elem_of_lookup_2 _ _ _ Hi))).
    rewrite Hon, bool_decide_true in Hlocal by done. cbn in Hlocal. by rewrite Hfrom in Hlocal. }
  split; [right; exists z; split; [done|]; rewrite Es; etransitivity; [apply common_prefix_l|done]|].
  intros x. cbn [join_once fst]. rewrite elem_of_reconfigure.
  pose proof (elem_of_descendants x c p n (segs p) Hn (reflexivity _)) as Hd. rewrite join_segs in Hd. rewrite Hd.
  enough (x ∈ c -> edge_scope sc j `prefix_of` segs x -> segs p `prefix_of` segs x) as H.
  { assert (segs p `prefix_of` segs x -> edge_scope sc j `prefix_of` segs x) as H'.
    { intros. rewrite Es. etransitivity; [apply common_prefix_l|done]. } naive_solver. }
  intros Hx Hsx. destruct (decide (segs p `prefix_of` segs x)) as [|Hnp]; [done|exfalso].
  pose proof (common_prefix_below (segs p) (segs x) (segs p) (segs z) (reflexivity _) Hpz Hnp) as Ecp.
  assert (parallel_at sc (common_prefix (segs x) (segs z)) = true) as Hpar by (apply Hap; [done..|]; by intros ->).
  rewrite <- Ecp, (serial_from_spec sc _ (segs p) _ Hs) in Hpar; [done|apply common_prefix_r| |by apply common_prefix_short].
  apply Nat.nlt_ge. intros Hlt. pose proof (common_prefix_short (edge_scope sc j) (segs x) (segs p)) as _.
  assert (edge_scope sc j `prefix_of` segs p) as Hsp by (rewrite Es; apply common_prefix_l).
  destruct Hsx as [rx Ex], Hsp as [rp Ep]. rewrite Ex, Ep, common_prefix_app, length_app in Hlt. lia.
Qed.

(** What a move keeps. *)
Lemma moved_keeps i t la config next :
  sc.(sc_transitions) !! i = Some t -> memory_ok sc la -> moved t la config next -> apart sc config ->
  apart sc next /\ (moves_whole sc = true -> spread sc [] config -> spread sc [] next).
Proof.
  intros Ht Hm [Ha Hn] Hc. destruct (transition_target sc Hnames Hvalid i t Ht) as [n Hto].
  assert (forall e, e ∈ enterTarget sc t.(tr_to) la -> segs (effective_to sc t) `prefix_of` segs e) as Hu.
  { intros e He. by eapply entered_under. }
  assert (forall e, e ∈ enterTarget sc t.(tr_to) la -> edge_scope sc t `prefix_of` segs e) as Hs.
  { intros e He. etransitivity; [apply scope_below|by apply Hu]. }
  split; [by eapply move_apart, entered_apart|]. intros Hw Hsp.
  unfold moves_whole in Hw. rewrite forallb_forall in Hw.
  specialize (Hw t (proj1 (list_elem_of_In _ _) (list_elem_of_lookup_2 _ _ _ Ht))).
  eapply (move_spread sc config _ next (edge_scope sc t) Ha Hs Hn (segs (effective_to sc t))); try done.
  - by eapply enterTarget_nonempty.
  - apply scope_below.
  - unfold enters_whole in Hw. by apply andb_true_iff in Hw as [? _].
  - by eapply entered_spread.
Qed.

(** The invariant of a run, over name paths. *)
Record legal (config : Configuration) (la : LastActive) : Prop := {
  le_config : config_ok sc config;
  le_memory : memory_ok sc la;
  le_apart : joins_local sc = true -> apart sc config;
  le_spread : joins_local sc = true -> moves_whole sc = true -> spread sc [] config;
}.
Lemma step_legal config event la :
  legal config la -> legal (step sc config event ew la).(sr_next) (step sc config event ew la).(sr_lastActive).
Proof.
  intros [Hc Hm Ha Hs]. destruct (step_ok sc ew Hnames Hvalid Hentries config event la Hc Hm) as [Hc' Hm']. split; [done|done|..];
    pose proof (step_spec sc config event ew la) as H; destruct (list_find _ _) as [[i t]|] eqn:Ef; rewrite H; try done.
  all: apply list_find_Some in Ef as (Hi & He & _); intros Hl; pose proof (fire_moved config event la i t Hi He) as Hmv;
    destruct (moved_keeps i t la config _ Hi Hm Hmv (Ha Hl)) as [H1 H2]; auto.
Qed.
Lemma settle_legal fuel c la :
  legal c la -> legal (settle_loop fuel sc ew c la).1 (settle_loop fuel sc ew c la).2.
Proof.
  revert c la. induction fuel as [|fuel IH]; intros c la H; cbn [settle_loop]; [done|].
  destruct (next_join sc ew c) as [[p j]|] eqn:Ej; [|done].
  enough (legal (join_once sc c la p j).1 (join_once sc c la p j).2) as H'
    by (destruct (join_once sc c la p j) as [c' la']; by apply IH).
  destruct H as [Hc Hm Ha Hs]. destruct (join_ok sc ew Hnames Hvalid Hentries c la p j Ej Hc Hm) as [Hc' Hm'].
  destruct (next_join_edge sc ew c p j Ej) as (_ & _ & _ & i & Hi). split; [done|done|..]; intros Hl;
    pose proof (join_moved c la p j Ej Hl (Ha Hl)) as Hmv; destruct (moved_keeps i j _ c _ Hi Hm' Hmv (Ha Hl)); auto.
Qed.
Lemma initial_legal : legal (initialConfig sc) ∅.
Proof.
  destruct (validate_split sc Hvalid) as (Hi & _). unfold obj_has in Hi. reflect_bools. destruct Hi as [n Hn].
  destruct (root_member sc Hnames _ n (obj_get_elem _ _ _ Hn)) as [Hr _].
  destruct (level_wf_lookup None _ _ n Hwf Hn) as (Hk & _).
  assert (forall x, x ∈ initialConfig sc <-> x ∈ leaves_of (sc_initial sc) n) as Hmem.
  { intros x. unfold initialConfig. by rewrite elem_of_set_of, (enterLeaves_eq sc Hnames Hwf _ n Hr). }
  split; [by apply initial_ok|by intros k v; rewrite lookup_empty|..].
  - intros _ x y Hx%Hmem Hy%Hmem. by eapply leaves_of_apart.
  - intros _ _ x q l k Hx%Hmem _ Hq Hl Hkin.
    destruct (leaves_of_atomic sc Hnames Hwf n _ x Hr Hx) as [_ [rx Ex]]. rewrite (segs_name _ Hk) in Ex.
    destruct q as [|q0 r]; [done|]. pose proof Hq as Hq'. rewrite Ex in Hq'. apply prefix_cons_inv_1 in Hq' as ->.
    change (sc_initial sc :: r) with ([sc_initial sc] ++ r) in *. rewrite <- (segs_name _ Hk) in *.
    destruct (leaves_of_regions sc Hnames Hwf n (sc_initial sc) x r l k) as (y & Hy & Hpy); try done.
    + intros p m Hp Hh. rewrite <- (enterLeaves_eq sc Hnames Hwf p m Hp). by eapply enterLeaves_nonempty.
    + exists y. by rewrite Hmem.
Qed.
Lemma reachable_legal config la : reachable sc ew config la -> legal config la.
Proof.
  induction 1 as [|config la event config' la' _ IH Hs]; [apply initial_legal|].
  pose proof (settle_legal (N.to_nat SETTLE_CAP) _ _ (step_legal config event la IH)) as H. unfold settle in Hs. by rewrite Hs in H.
Qed.

Lemma apart_exclusive config : config_ok sc config -> apart sc config -> exclusive sc config.
Proof.
  intros [_ Hat _] Ha x y Hx Hy Hne. specialize (Ha x y Hx Hy Hne). unfold lcca.
  rewrite Forall_forall in Hat. destruct (Hat x Hx) as (n & Hn & _).
  destruct (decide (common_prefix (segs x) (segs y) = [])) as [E|E]; [by rewrite E in Ha|].
  rewrite node_at_resolve. by destruct (segs_prefix x _ n Hn (common_prefix_l _ _) E) as [-> _].
Qed.
Lemma spread_regions config : spread sc [] config -> regions_active sc config.
Proof.
  intros H q l k (x & Hx & Hq)%isActive_prefix Hl Hk.
  unfold obj_keys in Hk. apply list_elem_of_fmap in Hk as ([k' c] & -> & Hin). cbn [fst].
  destruct (resolve_member sc Hnames Hwf q _ l k' c Hl eq_refl Hin) as (_ & Hs & _).
  apply isActive_prefix. rewrite Hs. apply (H x _ l); [done|apply prefix_nil|done|by rewrite <- node_at_resolve|].
  unfold obj_keys. apply list_elem_of_fmap. by exists (k', c).
Qed.
End Legal.

(** ** Joins run innermost first *)
Lemma depth_le_total x y : depth_le x y = false -> depth_le y x = true.
Proof. unfold depth_le. rewrite bool_decide_eq_false, bool_decide_eq_true. lia. Qed.
Lemma depth_le_trans x y z : depth_le x y = true -> depth_le y z = true -> depth_le x z = true.
Proof. unfold depth_le. rewrite !bool_decide_eq_true. lia. Qed.

Lemma find_first_sorted (P : string -> bool) l p q :
  StronglySorted (fun a b => depth_le a b = true) l ->
  List.find P l = Some p -> q ∈ l -> P q = true -> length (segs q) <= length (segs p).
Proof.
  induction 1 as [|x l Hs IH Hx]; cbn; [done|].
  destruct (P x) eqn:E.
  - intros [= ->] [->|Hq]%elem_of_cons _; [done|]. rewrite Forall_forall in Hx.
    specialize (Hx q Hq). unfold depth_le in Hx. by rewrite bool_decide_eq_true in Hx.
  - intros Hf [->|Hq]%elem_of_cons HPq; [congruence|]. by apply IH.
Qed.

Lemma joins_settle_loop sc ew fuel c la :
  exists k, joins sc ew k (c, la) (settle_loop fuel sc ew c la) /\ k <= fuel /\
    (k < fuel -> next_join sc ew (settle_loop fuel sc ew c la).1 = None).
Proof.
  revert c la. induction fuel as [|fuel IH]; intros c la; cbn [settle_loop].
  - exists 0. split_and!; [constructor|lia|lia].
  - destruct (next_join sc ew c) as [[p j]|] eqn:Ej.
    + destruct (join_once sc c la p j) as [c' la'] eqn:Eo.
      destruct (IH c' la') as (k & Hj & Hk & Hf). exists (S k).
      split_and!; [|lia|intros; apply Hf; lia]. econstructor; [done|]. by rewrite Eo.
    + exists 0. split_and!; [constructor|lia|done].
Qed.

(** ** The flat facade *)
Definition flat_names_ok (fsm : Fsm) : bool := forallb name_ok fsm.(fsm_states).

Lemma fromFlat_get (states : list string) (root : Level) s :
  obj_get s (fold_left (fun root s => obj_set s Leaf root) states root) =
  if set_has s states then Some Leaf else obj_get s root.
Proof.
  revert root. induction states as [|x l IH]; intros root; cbn [fold_left]; [done|].
  rewrite IH. unfold set_has. destruct (decide (s = x)) as [->|Hne].
  - rewrite obj_get_set_eq. repeat case_bool_decide; set_solver.
  - rewrite obj_get_set_ne by done. repeat case_bool_decide; set_solver.
Qed.

Lemma fromFlat_leaf fsm s :
  s ∈ fsm.(fsm_states) -> name_ok s = true -> resolveNode (fromFlat fsm) s = Some Leaf.
Proof.
  intros Hs Hn. unfold resolveNode. rewrite segs_name by done. cbn.
  rewrite fromFlat_get. apply set_has_spec in Hs as ->. done.
Qed.

Lemma fromFlat_enter fsm s :
  s ∈ fsm.(fsm_states) -> name_ok s = true -> enterLeaves (fromFlat fsm) s = [s].
Proof.
  intros Hs Hn. pose proof (fromFlat_leaf fsm s Hs Hn) as Hr. unfold enterLeaves.
  pose proof (resolve_height _ _ _ Hr) as Hh. cbn [height] in Hh.
  destruct (level_height _); [lia|]. cbn [enterLeaves_fuel]. by rewrite Hr.
Qed.

Lemma flat_isActive current from :
  name_ok current = true -> isActive [current] from = (from =? current)%string.
Proof.
  intros Hn. unfold isActive. cbn. rewrite orb_false_r.
  assert (starts_with current (from +:+ PATH_SEP) = false) as ->.
  { apply not_true_iff_false. rewrite segs_under. intros (rest & Hne & Hs).
    rewrite segs_name in Hs by done. pose proof (split_char_nonnil sep_char from) as Hf.
    unfold segs in Hs. destruct (split_char sep_char from) as [|? [|]], rest; done. }
  rewrite orb_false_r. apply String.eqb_sym.
Qed.

Lemma flat_lcca a b :
  name_ok a = true -> name_ok b = true -> lcca a b = if (a =? b)%string then a else "".
Proof. intros Ha Hb. unfold lcca. rewrite !segs_name by done. cbn. by case_match. Qed.

Lemma validateFsm_targets fsm i t :
  validateFsm fsm = [] -> fsm.(fsm_transitions) !! i = Some t ->
  t.(tr_to) ∈ fsm.(fsm_states) /\ (t.(tr_from) = ANY_STATE \/ t.(tr_from) ∈ fsm.(fsm_states)).
Proof.
  unfold validateFsm. intros [_ H]%app_eq_nil Ht.
  assert (validateFsm_transition (set_of (fsm_states fsm)) i t = []) as Hv.
  { apply concat_nil_Forall in H. rewrite List.Forall_forall in H. apply H, list_elem_of_In.
    apply list_elem_of_lookup. exists i. by rewrite list_lookup_imap, Ht. }
  unfold validateFsm_transition in Hv. apply app_eq_nil in Hv as [H1%if_nil H2%if_nil].
  reflect_bools. rewrite set_has_spec, elem_of_set_of in H2. split; [done|].
  apply andb_false_iff in H1 as [H1|H1]; reflect_bools; [by left|right].
  by rewrite set_has_spec, elem_of_set_of in H1.
Qed.

Lemma fire_flat fsm current event ew i t :
  flat_names_ok fsm = true -> validateFsm fsm = [] -> current ∈ fsm.(fsm_states) ->
  fsm.(fsm_transitions) !! i = Some t -> enabled [current] event ew t = true ->
  sr_next (fire (fromFlat fsm) [current] ∅ i t) = [t.(tr_to)].
Proof.
  unfold flat_names_ok. rewrite forallb_forall. intros Hn Hv Hc Ht He.
  destruct (validateFsm_targets fsm i t Hv Ht) as [Hto _].
  pose proof (Hn _ (proj1 (list_elem_of_In _ _) Hto)) as Hton.
  pose proof (Hn _ (proj1 (list_elem_of_In _ _) Hc)) as Hcn.
  unfold enabled in He. reflect_bools. cbn [fire sr_next]. unfold enterTarget, exit_scope.
  rewrite (fromFlat_leaf fsm _ Hto Hton), (fromFlat_enter fsm _ Hto Hton). cbn [is_history].
  enough (descendantsOf [current]
    (if (tr_from t =? ANY_STATE)%string then "" else lcca (tr_from t) (tr_to t)) = [current])
    as ->.
  { unfold reconfigure. cbn. rewrite (proj2 (set_has_spec current [current])) by set_solver. done. }
  destruct (tr_from t =? ANY_STATE)%string; [done|]. cbn [orb] in *.
  match goal with H : isActive _ _ = true |- _ => rewrite flat_isActive in H by done end.
  reflect_bools.
  match goal with H : tr_from t = current |- _ => rewrite H end.
  rewrite flat_lcca by done. unfold descendantsOf.
  destruct (String.eqb_spec current (tr_to t)) as [->|]; [|done].
  case_match; [done|]. cbn. unfold in_scope. by rewrite String.eqb_refl.
Qed.

Lemma stepFlat_table_eq fsm current event ew :
  flat_names_ok fsm = true -> validateFsm fsm = [] -> current ∈ fsm.(fsm_states) ->
  stepFlat fsm current event ew = flat_reference fsm current event ew.
Proof.
  intros Hn Hv Hc. unfold stepFlat, flat_reference.
  assert (name_ok current = true) as Hcn.
  { unfold flat_names_ok in Hn. rewrite forallb_forall in Hn. by apply Hn, list_elem_of_In. }
  assert (forall t, enabled [current] event ew t = flat_enabled current event ew t) as Hen.
  { intros t. unfold enabled, flat_enabled. by rewrite flat_isActive. }
  rewrite (list_find_ext (fun t => flat_enabled current event ew t = true)
    (fun t => enabled [current] event ew t = true)) by (intros t; by rewrite Hen).
  pose proof (step_spec (fromFlat fsm) [current] event ew ∅) as H.
  cbn [sc_transitions fromFlat] in H.
  destruct (list_find _ (fsm_transitions fsm)) as [[i t]|] eqn:Ef; rewrite H; [|done].
  apply list_find_Some in Ef as (Hi & He & _).
  pose proof (fire_flat fsm current event ew i t Hn Hv Hc Hi He) as Hf.
  change (sr_transitioned (fire (fromFlat fsm) [current] ∅ i t)) with
    (config_changed (sr_next (fire (fromFlat fsm) [current] ∅ i t)) [current]).
  rewrite Hf. cbn. unfold set_has.
  destruct (String.eqb_spec (tr_to t) current) as [->|]; case_bool_decide; set_solver.
Qed.

(** ** The properties *)

(** C28: every configuration a run of a chart can reach is a non-empty,
    duplicate-free set of existing atomic leaves, and its history memory only
    holds active-leaf paths below their composites, for a chart that
    validates, whose state names have no path separator and whose composites
    can all be entered.  When no join leaves a region of an enclosing
    parallel, a step exits what it must: two active leaves always part at a
    parallel, so no compound has two active children.  When moreover every
    transition enters its target whole (none goes into a single region of a
    parallel, and no deep history remembers a state with parallels), a step
    exits no more than its least common ancestor: every region of an active
    parallel is active. *)
Theorem reachable_config_ok (sc : Statechart) (ew : EvalWhen) (config : Configuration)
    (la : LastActive) :
  names_ok sc = true -> validateStatechart sc = [] -> chart_entries_ok sc = true ->
  reachable sc ew config la ->
  config_ok sc config /\ memory_ok sc la /\
  (joins_local sc = true -> exclusive sc config /\ (moves_whole sc = true -> regions_active sc config)).
Proof.
  intros Hn Hv He Hr. destruct (reachable_legal sc ew Hn Hv He config la Hr) as [Hc Hm Ha Hs].
  split_and!; [done|done|]. intros Hl. split; [by apply apart_exclusive; auto|]. intros Hw. by apply spread_regions; auto.
Qed.

(** [step] is total and takes the first enabled transition in document
    order; with none enabled it is the explicit stay, and [via] is null
    exactly on a stay. *)
Lemma step_takes_first_enabled (sc : Statechart) (config : Configuration) (event : string)
    (ew : EvalWhen) (la : LastActive) :
  (exists i t, sc.(sc_transitions) !! i = Some t /\ enabled config event ew t = true /\
     (forall j u, j < i -> sc.(sc_transitions) !! j = Some u -> enabled config event ew u = false) /\
     step sc config event ew la = fire sc config la i t) \/
  (Forall (fun t => enabled config event ew t = false) sc.(sc_transitions) /\
     step sc config event ew la =
       {| sr_next := config; sr_transitioned := false; sr_via := None; sr_lastActive := la |}).
Proof.
  pose proof (step_spec sc config event ew la) as H.
  destruct (list_find _ sc.(sc_transitions)) as [[i t]|] eqn:Ef.
  - left. apply list_find_Some in Ef as (Hi & He & Hmin). exists i, t. split_and!; try done.
    intros j u Hj Hu. apply not_true_iff_false. by eapply Hmin.
  - right. apply list_find_None in Ef. split; [|done].
    eapply Forall_impl; [exact Ef|]. intros t Ht. by apply not_true_iff_false.
Qed.

(** The [transitioned] flag is exact: it is false precisely when the next
    configuration is the same set of leaves. *)
Lemma step_transitioned_exact (sc : Statechart) (config : Configuration) (event : string)
    (ew : EvalWhen) (la : LastActive) :
  NoDup config ->
  (step sc config event ew la).(sr_transitioned) = false <->
  (forall p, p ∈ (step sc config event ew la).(sr_next) <-> p ∈ config).
Proof.
  intros Hc. pose proof (step_from_spec sc config event ew la 0 sc.(sc_transitions)) as H.
  fold (step sc config event ew la) in H.
  destruct (list_find _ sc.(sc_transitions)) as [[i t]|]; rewrite H; cbn; [|done].
  apply config_changed_spec; [|done]. apply NoDup_set_adds.
  apply NoDup_ListNoDup, List.NoDup_filter. by apply NoDup_ListNoDup.
Qed.

(** [settle] runs join microsteps, each the deepest eligible parallel, and
    stops at a configuration with no eligible join unless it has used all
    10000 microsteps of its backstop. *)
Lemma settle_fixpoint_innermost (sc : Statechart) (ew : EvalWhen) (config : Configuration)
    (la : LastActive) :
  (exists k, joins sc ew k (config, la) (settle sc config ew la) /\ k <= N.to_nat SETTLE_CAP /\
     (k < N.to_nat SETTLE_CAP -> next_join sc ew (settle sc config ew la).1 = None)) /\
  (forall c p j q, next_join sc ew c = Some (p, j) -> q ∈ parallelPaths sc ->
     eligible sc ew c q = true -> length (segs q) <= length (segs p)).
Proof.
  split; [apply joins_settle_loop|]. intros c p j q Hn Hq He. unfold next_join in Hn.
  destruct (List.find _ _) as [p'|] eqn:Ef; [|done].
  destruct (joinEdge sc ew p') as [j'|]; [|done]. injection Hn as -> ->.
  eapply find_first_sorted; [|exact Ef|done|done].
  apply stable_sort_sorted; [exact depth_le_total|exact depth_le_trans].
Qed.

(** C29: on a valid flat machine whose state names hold no separator,
    [stepFlat] is the plain transition-table lookup: same next state, flag and
    transition index. *)
Theorem stepFlat_refines_table (fsm : Fsm) (current event : string) (ew : EvalWhen) :
  flat_names_ok fsm = true -> validateFsm fsm = [] -> current ∈ fsm.(fsm_states) ->
  stepFlat fsm current event ew = flat_reference fsm current event ew.
Proof.
  apply stepFlat_table_eq.
Qed.

(** [settle] exits only the joined parallel, not the least common ancestor of
    the join.  On a chart validation accepts, a join whose target lies outside
    the region of an enclosing parallel leaves the other region active beside
    it: the root has two active children. *)
Lemma join_leaves_sibling_region :
  exists (sc : Statechart) (event : string),
    validateStatechart sc = [] /\ names_ok sc = true /\ chart_entries_ok sc = true /\ joins_local sc = false /\
    let s := step sc (initialConfig sc) event None ∅ in
    initialConfig sc = ["o/r1/q/x"; "o/r2"] /\ (settle sc s.(sr_next) None ∅).1 = ["o/r2"; "out"].
Proof.
  exists {| sc_initial := "o";
            sc_root := [("o", Parallel [("r1", Compound "q" [("q", Parallel [("x", Final)])]); ("r2", Leaf)]); ("out", Leaf)];
            sc_transitions := [ {| tr_from := "o/r1/q"; tr_on := None; tr_to := "out"; tr_when := None |};
                                {| tr_from := "o"; tr_on := None; tr_to := "out"; tr_when := None |} ] |}, "e".
  by vm_compute.
Qed.

(** The least-common-ancestor scope does not keep parallel regions
    independent.  On a chart validation accepts, a transition from one region
    into a sibling region leaves a configuration in which the parallel is
    active and its first region has no active leaf, although a configuration
    is documented to hold one leaf of every region. *)
Lemma cross_region_step_drops_region :
  exists (sc : Statechart) (event : string),
    validateStatechart sc = [] /\ names_ok sc = true /\ chart_entries_ok sc = true /\
    isActive (initialConfig sc) "p/r1" = true /\ isActive (initialConfig sc) "p/r2" = true /\
    isActive (step sc (initialConfig sc) event None ∅).(sr_next) "p/r1" = false /\
    (step sc (initialConfig sc) event None ∅).(sr_next) = ["p/r2/d"].
Proof.
  exists {| sc_initial := "p";
            sc_root := [("p", Parallel [("r1", Compound "a" [("a", Leaf); ("b", Leaf)]);
                                        ("r2", Compound "c" [("c", Leaf); ("d", Leaf)])])];
            sc_transitions := [ {| tr_from := "p/r1/a"; tr_on := Some "e"; tr_to := "p/r2/d";
                                   tr_when := None |} ] |}, "e".
  by vm_compute.
Qed.

(** [validateFsm] accepts a state name with the path separator in it, and
    the flat machine then steps to the empty string, which is no state. *)
Lemma separator_in_name_loses_state :
  exists fsm : Fsm,
    validateFsm fsm = [] /\ fsm.(fsm_initial) ∈ fsm.(fsm_states) /\
    (stepFlat fsm fsm.(fsm_initial) "go" None).(fr_next) = "" /\
    "" ∉ fsm.(fsm_states) /\
    (stepFlat fsm fsm.(fsm_initial) "go" None).(fr_transitioned) = true.
Proof.
  exists {| fsm_initial := "idle"; fsm_states := ["idle"; "in/review"];
            fsm_transitions := [ {| tr_from := "idle"; tr_on := Some "go";
                                    tr_to := "in/review"; tr_when := None |} ] |}.
  split_and!; [by vm_compute|cbn; set_solver|by vm_compute|cbn; set_solver|by vm_compute].
Qed.

(** ** Witnesses *)
Definition demo_chart : Statechart :=
  {| sc_initial := "plan";
     sc_root := [("plan", Leaf);
                 ("build", Parallel
                    [("back", Compound "todo" [("todo", Leaf); ("done", Final)]);
                     ("front", Compound "todo"
                        [("todo", Leaf); ("done", Final); ("h", History Deep (Some "todo"))])]);
                 ("ship", Leaf)];
     sc_transitions :=
       [ {| tr_from := "plan"; tr_on := Some "go"; tr_to := "build"; tr_when := None |};
         {| tr_from := "build/back/todo"; tr_on := Some "b"; tr_to := "build/back/done";
            tr_when := None |};
         {| tr_from := "build/front/todo"; tr_on := Some "f"; tr_to := "build/front/done";
            tr_when := None |};
         {| tr_from := "build"; tr_on := None; tr_to := "ship"; tr_when := None |} ] |}.

Example demo_chart_runs :
  let s1 := (step demo_chart (initialConfig demo_chart) "go" None ∅).(sr_next) in
  let s2 := (step demo_chart s1 "b" None ∅).(sr_next) in
  let s3 := (step demo_chart s2 "f" None ∅).(sr_next) in
  s1 = ["build/back/todo"; "build/front/todo"] /\
  (settle demo_chart s3 None ∅).1 = ["ship"].
Proof. by vm_compute. Qed.

Lemma reachable_config_ok_witness :
  config_ok demo_chart ["build/back/todo"; "build/front/todo"] /\ memory_ok demo_chart ∅ /\
  is_parallel (resolveNode demo_chart (lcca "build/back/todo" "build/front/todo")) = true /\
  isActive ["build/back/todo"; "build/front/todo"] "build/front" = true.
Proof.
  destruct (reachable_config_ok demo_chart None ["build/back/todo"; "build/front/todo"] ∅) as (Hc & Hm & Hl); [by vm_compute..| |].
  - eapply (reach_event _ _ _ _ "go"); [apply reach_init|]. by vm_compute.
  - destruct (Hl ltac:(by vm_compute)) as [He Hr]. specialize (Hr ltac:(by vm_compute)). split_and!; [done|done| |].
    + apply He; [left|right; left|done].
    + eapply (Hr "build" _ "front"); [by vm_compute|by vm_compute|right; left].
Defined.

Lemma step_transitioned_exact_witness :
  (step demo_chart ["plan"] "noop" None ∅).(sr_transitioned) = false <->
  (forall p, p ∈ (step demo_chart ["plan"] "noop" None ∅).(sr_next) <-> p ∈ ["plan"]).
Proof. apply step_transitioned_exact. apply NoDup_singleton. Defined.

Definition demo_fsm : Fsm :=
  {| fsm_initial := "scoping"; fsm_states := ["scoping"; "planned"; "shipped"];
     fsm_transitions :=
       [ {| tr_from := "scoping"; tr_on := Some "scoped"; tr_to := "planned";
            tr_when := Some "ok" |};
         {| tr_from := "*"; tr_on := Some "reset"; tr_to := "scoping"; tr_when := None |} ] |}.

Lemma stepFlat_refines_table_witness :
  stepFlat demo_fsm "scoping" "scoped" (Some (fun e => (e =? "ok")%string)) =
  flat_reference demo_fsm "scoping" "scoped" (Some (fun e => (e =? "ok")%string)).
Proof. apply stepFlat_refines_table; [by vm_compute..|cbn; set_solver]. Defined.
