(* ===== verification/FsmState.v ===== *)
(** * Persisted FSM state ([src/src/runtime/fsm_state.ts])

    The per-(session, pack[, task]) state file: self-healing reads, the
    validated advance, the locked compare-and-set write of an already stepped
    actor.  The file store maps (session, key) to a file body; a body is
    [Parsed] when [JSON.parse] succeeds and [isFsmStateFile] accepts the value,
    [Unusable] otherwise (empty, malformed, wrong shape). *)

From Stdlib Require Import Ascii String.
From stdpp Require Import base option list strings gmap.
From S2P Require Import Prelude Fsm FsmTree FsmProps.

Record FsmHistoryEntry := { he_state : string; he_at : string }.

Record FsmStateFile := {
  sf_state : string;
  sf_started_at : string;
  sf_history : list FsmHistoryEntry;
}.

Inductive FileBody := Parsed (f : FsmStateFile) | Unusable.
Abbreviation FileStore := (gmap (string * string) FileBody).

Definition fsmStateKey (pack : string) (taskId : option string) : string :=
  match taskId with
  | None => "fsm-" +:+ pack
  | Some t => "fsm-" +:+ pack +:+ "-" +:+ t
  end.
Definition fsmKey (packName : string) : string := fsmStateKey packName None.

Definition readFsmStateFile (fs : FileStore) (sessionId packName : string)
    (taskId : option string) : option FsmStateFile :=
  match fs !! (sessionId, fsmStateKey packName taskId) with
  | Some (Parsed f) => Some f
  | _ => None
  end.

Definition readFsmStateRaw (fs : FileStore) (sessionId packName : string) : option string :=
  match fs !! (sessionId, fsmKey packName) with
  | Some (Parsed f) => Some f.(sf_state)
  | _ => None
  end.

Definition readFsmState (fs : FileStore) (sessionId packName : string) (fsm : Fsm)
    (taskId : option string) : string :=
  match fs !! (sessionId, fsmStateKey packName taskId) with
  | Some (Parsed f) =>
      if bool_decide (f.(sf_state) ∈ fsm.(fsm_states)) then f.(sf_state) else fsm.(fsm_initial)
  | _ => fsm.(fsm_initial)
  end.

(** The record handed to the two wrapped observers. *)
Record TransitionRecord := {
  rec_session : string; rec_pack : string; rec_from : string; rec_to : string;
  rec_on : string; rec_at : string; rec_via : option nat;
}.

Section Advance.
(** The observers act on a world of their own and may fail ([false]); the
    code wraps each in try/catch, so only their effect is kept. *)
Context {World : Type}
  (appendTransition : TransitionRecord -> World -> World * bool)
  (observeGoalTransition : string -> string -> string -> World -> World * bool).

Definition advanceFsmState (fs : FileStore) (w : World) (sessionId packName : string)
    (fsm : Fsm) (event now : string) (ew : EvalWhen) : FlatStepResult * FileStore * World :=
  let current := readFsmState fs sessionId packName fsm None in
  let result := stepFlat fsm current event ew in
  let toState := result.(fr_next) in
  if result.(fr_transitioned) then
    let history :=
      match fs !! (sessionId, fsmKey packName) with
      | Some (Parsed f) => f.(sf_history)
      | _ => []
      end in
    let next := {| sf_state := toState; sf_started_at := now;
                   sf_history := history ++ [{| he_state := toState; he_at := now |}] |} in
    let fs' := <[(sessionId, fsmKey packName) := Parsed next]> fs in
    let w1 := (appendTransition
      {| rec_session := sessionId; rec_pack := packName; rec_from := current;
         rec_to := toState; rec_on := event; rec_at := now; rec_via := result.(fr_via) |} w).1 in
    let w2 := (observeGoalTransition sessionId toState now w1).1 in
    (result, fs', w2)
  else (result, fs, w).
End Advance.

(** The body of [persistActorState] under the file lock; opening with flag
    ['a'] first creates an empty file when there is none. *)
Definition persistActorState (fs : FileStore) (sessionId packName current now : string)
    (taskId expectedCurrent : option string) : bool * FileStore :=
  let path := (sessionId, fsmStateKey packName taskId) in
  let fs := match fs !! path with None => <[path := Unusable]> fs | Some _ => fs end in
  let prior := readFsmStateFile fs sessionId packName taskId in
  let stale :=
    match expectedCurrent, prior with
    | Some e, Some f => negb (f.(sf_state) =? e)%string
    | _, _ => false
    end in
  if stale then (false, fs)
  else if match prior with Some f => (f.(sf_state) =? current)%string | None => false end
  then (true, fs)
  else
    let history := match prior with Some f => f.(sf_history) | None => [] end in
    let next := {| sf_state := current; sf_started_at := now;
                   sf_history := history ++ [{| he_state := current; he_at := now |}] |} in
    (true, <[path := Parsed next]> fs).

Definition clearFsmState (fs : FileStore) (sessionId packName : string) : FileStore :=
  delete (sessionId, fsmKey packName) fs.

(** ** Invariants *)

(** The audit trail ends with the state the file records, entered at
    [started_at]. *)
Definition file_ok (f : FsmStateFile) : Prop :=
  last f.(sf_history) = Some {| he_state := f.(sf_state); he_at := f.(sf_started_at) |}.
Definition store_ok (fs : FileStore) : Prop :=
  map_Forall (fun _ b => match b with Parsed f => file_ok f | Unusable => True end) fs.

Lemma appended_file_ok state at_ h :
  file_ok {| sf_state := state; sf_started_at := at_;
             sf_history := h ++ [{| he_state := state; he_at := at_ |}] |}.
Proof. unfold file_ok. cbn. by rewrite last_snoc. Qed.

Lemma store_ok_insert fs k f : store_ok fs -> file_ok f -> store_ok (<[k := Parsed f]> fs).
Proof. intros Hs Hf. by apply map_Forall_insert_2. Qed.
#[export] Hint Resolve appended_file_ok store_ok_insert : os.

Lemma readFsmState_declared fs sid pack fsm task :
  fsm.(fsm_initial) ∈ fsm.(fsm_states) -> readFsmState fs sid pack fsm task ∈ fsm.(fsm_states).
Proof. intros Hi. unfold readFsmState. repeat case_match; try done. by reflect_bools. Qed.

Lemma validateFsm_initial fsm : validateFsm fsm = [] -> fsm.(fsm_initial) ∈ fsm.(fsm_states).
Proof.
  unfold validateFsm. intros [H%if_nil _]%app_eq_nil. reflect_bools.
  rewrite set_has_spec, elem_of_set_of in H. done.
Qed.

Lemma flat_reference_declared fsm current event ew :
  validateFsm fsm = [] -> current ∈ fsm.(fsm_states) ->
  (flat_reference fsm current event ew).(fr_next) ∈ fsm.(fsm_states) /\
  ((flat_reference fsm current event ew).(fr_transitioned) = false ->
   (flat_reference fsm current event ew).(fr_next) = current).
Proof.
  intros Hv Hc. unfold flat_reference.
  destruct (list_find _ _) as [[i t]|] eqn:Ef; [|done]. cbn.
  apply list_find_Some in Ef as (Hi & _). split.
  - by eapply validateFsm_targets.
  - intros Hn. by reflect_bools.
Qed.

(** Writing the state a usable file already records is a no-op. *)
Lemma persist_same fs sid pack now task f :
  readFsmStateFile fs sid pack task = Some f ->
  persistActorState fs sid pack f.(sf_state) now task (Some f.(sf_state)) = (true, fs).
Proof.
  intros Hf. unfold persistActorState.
  destruct (fs !! (sid, fsmStateKey pack task)) as [b|] eqn:E.
  - cbn. rewrite Hf, !String.eqb_refl. done.
  - unfold readFsmStateFile in Hf. by rewrite E in Hf.
Qed.

Lemma read_written fs sid pack task f :
  readFsmStateFile (<[(sid, fsmStateKey pack task) := Parsed f]> fs) sid pack task = Some f.
Proof. unfold readFsmStateFile. by rewrite lookup_insert_eq. Qed.

(** ** Properties *)

(** An advance moves only along declared transitions and is readable
    back.  On a valid machine the returned state is declared; a following read
    returns exactly it, whatever was in the file before; a stay leaves the
    store untouched; the audit trail keeps ending in the recorded state; and
    no failure of the observers changes the result or the stored file. *)
Lemma advance_readback {W : Type}
    (obs1 : TransitionRecord -> W -> W * bool) (obs2 : string -> string -> string -> W -> W * bool)
    (fs : FileStore) (w : W)
    (sid pack : string) (fsm : Fsm) (event now : string) (ew : EvalWhen)
    (r : FlatStepResult) (fs' : FileStore) (w' : W) :
  flat_names_ok fsm = true -> validateFsm fsm = [] -> store_ok fs ->
  advanceFsmState obs1 obs2 fs w sid pack fsm event now ew = (r, fs', w') ->
  r = flat_reference fsm (readFsmState fs sid pack fsm None) event ew /\
  r.(fr_next) ∈ fsm.(fsm_states) /\
  readFsmState fs' sid pack fsm None = r.(fr_next) /\
  (r.(fr_transitioned) = false -> fs' = fs) /\
  store_ok fs' /\
  (forall k, k <> (sid, fsmKey pack) -> fs' !! k = fs !! k).
Proof.
  intros Hn Hv Hs. unfold advanceFsmState.
  pose proof (readFsmState_declared fs sid pack fsm None (validateFsm_initial fsm Hv)) as Hcur.
  rewrite (stepFlat_table_eq fsm _ event ew Hn Hv Hcur).
  destruct (flat_reference_declared fsm (readFsmState fs sid pack fsm None) event ew Hv Hcur)
    as [Hd Hstay].
  destruct (fr_transitioned _) eqn:Et; intros [= <- <- <-]; split_and!; try done.
  - unfold readFsmState, fsmKey. rewrite lookup_insert_eq. cbn. by rewrite bool_decide_true.
  - by rewrite Et.
  - auto with os.
  - intros k Hk. by rewrite lookup_insert_ne.
  - by rewrite Hstay.
Qed.

(** The compare-and-set write.  It refuses exactly when a usable prior
    file records another state than the expected one, and then no file body
    changes; when it accepts, the recorded state is the requested one, a
    repeated write adds no history entry, and the audit invariant holds. *)
Lemma persistActorState_cas (fs : FileStore) (sid pack current now : string)
    (task expected : option string) (ok : bool) (fs' : FileStore) :
  store_ok fs ->
  persistActorState fs sid pack current now task expected = (ok, fs') ->
  (ok = false <-> exists e f, expected = Some e /\ readFsmStateFile fs sid pack task = Some f /\
     f.(sf_state) <> e) /\
  (ok = false -> fs' = fs) /\
  (ok = true -> exists f, readFsmStateFile fs' sid pack task = Some f /\ f.(sf_state) = current /\
     store_ok fs' /\
     forall now', persistActorState fs' sid pack current now' task (Some current) = (true, fs')).
Proof.
  intros Hs Hp. unfold persistActorState in Hp. set (path := (sid, fsmStateKey pack task)) in *.
  set (fs1 := match fs !! path with None => <[path := Unusable]> fs | Some _ => fs end) in *.
  assert (readFsmStateFile fs1 sid pack task = readFsmStateFile fs sid pack task) as Hrd.
  { unfold readFsmStateFile, fs1. fold path.
    destruct (fs !! path) eqn:E; [by rewrite E|]. by rewrite lookup_insert_eq. }
  assert (store_ok fs1) as Hs1.
  { unfold fs1. destruct (fs !! path); [exact Hs|].
    unfold store_ok. apply map_Forall_insert_2; [exact I|exact Hs]. }
  rewrite Hrd in Hp. revert Hp. destruct (readFsmStateFile fs sid pack task) as [f|] eqn:Ef.
  - assert (fs1 = fs) as Heq.
    { unfold fs1. unfold readFsmStateFile in Ef. fold path in Ef. by destruct (fs !! path). }
    rewrite Heq in *. clear fs1 Heq Hrd.
    destruct expected as [e|]; [destruct (String.eqb_spec (sf_state f) e) as [Heq|Hne]|]; cbn [negb].
    2: intros [= <- <-]; split_and!; naive_solver.
    all: destruct (String.eqb_spec (sf_state f) current) as [<-|Hc]; intros [= <- <-];
      (split; [naive_solver|]); (split; [done|]); intros _; eexists.
    1,3: split_and!; [exact Ef|done|done|]; intros now'; by apply persist_same.
    all: split_and!; [apply read_written|done|auto with os|];
      intros now'; match goal with |- context [Parsed ?g] =>
        exact (persist_same _ sid pack now' task g (read_written _ _ _ _ g)) end.
  - destruct expected as [e|]; intros [= <- <-]; (split; [naive_solver|]); (split; [done|]);
      intros _; eexists; (split_and!; [apply read_written|done|
        apply store_ok_insert; [done|exact (appended_file_ok _ _ [])]|]);
      intros now'; match goal with |- context [Parsed ?g] =>
        exact (persist_same _ sid pack now' task g (read_written _ _ _ _ g)) end.
Qed.

(** The tasks of one pack never share a state key, and no task shares the
    pack's session-level key... *)
Lemma fsmStateKey_task_isolation (pack : string) (t1 t2 : option string) :
  fsmStateKey pack t1 = fsmStateKey pack t2 <-> t1 = t2.
Proof.
  split; [|by intros ->]. unfold fsmStateKey.
  destruct t1 as [t1|], t2 as [t2|]; intros H; cbn in H; simplify_eq; try done.
  all: apply (f_equal String.length) in H; rewrite string_app_length in H; cbn in H; lia.
Qed.

(** ...but keys of different packs collide: a task of one pack can own
    the very file another pack uses at session level. *)
Lemma fsmStateKey_cross_pack_collision :
  exists (pack1 pack2 task : string) (fs : FileStore) (now : string),
    pack1 <> pack2 /\
    fsmStateKey pack1 (Some task) = fsmStateKey pack2 None /\
    readFsmStateRaw (persistActorState fs "s" pack1 "authoring" now (Some task) None).2 "s" pack2
      = Some "authoring" /\
    readFsmStateRaw fs "s" pack2 = None.
Proof. exists "coding", "coding-flow", "flow", ∅, "t". split_and!; by vm_compute. Qed.

(** ** Witnesses *)
Lemma advance_readback_witness :
  let '(r, fs', _) := advanceFsmState (World := unit) (fun _ w => (w, false)) (fun _ _ _ w => (w, false))
    ∅ tt "sid" "pack" demo_fsm "scoped" "2026" (Some (fun _ => true)) in
  r.(fr_next) = "planned" /\ readFsmState fs' "sid" "pack" demo_fsm None = "planned".
Proof.
  destruct (advanceFsmState (World := unit) (fun _ w => (w, false)) (fun _ _ _ w => (w, false))
    ∅ tt "sid" "pack" demo_fsm "scoped" "2026" (Some (fun _ => true))) as [[r fs'] w] eqn:E.
  assert (fr_next r = "planned") as Hr by (vm_compute in E; by simplify_eq).
  split; [exact Hr|]. rewrite <- Hr.
  refine (proj1 (proj2 (proj2 (advance_readback _ _ ∅ tt "sid" "pack" demo_fsm "scoped" "2026"
    (Some (fun _ => true)) r fs' w _ _ _ E)))); [by vm_compute|by vm_compute|].
  apply map_Forall_empty.
Defined.

Lemma persistActorState_cas_witness :
  fst (persistActorState {[("s", "fsm-p") := Parsed {| sf_state := "code"; sf_started_at := "t";
        sf_history := [{| he_state := "code"; he_at := "t" |}] |}]} "s" "p" "plan" "t2" None
        (Some "author")) = false.
Proof.
  destruct (persistActorState _ _ _ _ _ _ _) as [ok fs'] eqn:E.
  apply (persistActorState_cas _ _ _ _ _ _ _ ok fs') in E as [H _].
  - apply H. eexists _, _. split_and!; [done|by vm_compute|done].
  - by apply map_Forall_singleton.
Defined.
