(* ===== verification/PackCompile.v ===== *)
(** * Pack compilation ([src/src/packs/compile_v2.ts], [src/src/packs/schemas/pack_v2.ts])

    The FSM-primary pack, its state kinds, the schema's cross-field checks and
    the lowering of a pack to the engine machine plus per-state metadata. *)

From Stdlib Require Import Ascii String.
From stdpp Require Import base option list strings pretty gmap.
From S2P Require Import Prelude Fsm FsmTree FsmProps.
#[local] Open Scope os_scope.

(** ** The pack *)
Inductive FailAction := FWarn | FBlock | FHalt.
#[export] Instance FailAction_eq_dec : EqDecision FailAction.
Proof. solve_decision. Defined.
Record OnFail := { of_action : FailAction; of_message : string }.

Inductive EvidenceRef :=
| EvKey (key : string)
| EvObj (key : string) (label : option string) (expect : option bool).

Inductive DecisionBranch :=
| BGuard (guard emits : string)
| BElse (emits : string).
Definition branch_emits (b : DecisionBranch) : string :=
  match b with BGuard _ e | BElse e => e end.

Inductive Outcome := Shipped | Wedge.

Record GateState := {
  g_guard : string;
  g_trigger : option (list string);
  g_on_pass_emits : string;
  g_on_fail : OnFail;
  g_writes : option (list string);
  g_report : option string;
  g_summary : option bool;
  g_report_phases : option bool;
  g_goal_alignment : option bool;
  g_reads : option (list EvidenceRef);
  g_does : option string;
  g_phases : option (list string);
}.

Inductive StateV2 :=
| ExecutorS (executor : option string) (skills : list string)
    (directive completion emits : string)
| GateS (g : GateState)
| DecisionS (branches : list DecisionBranch)
| SubFlowS (flow emits : string)
| TerminalS (outcome : Outcome).

Inductive StateKind := KExecutor | KGate | KDecision | KSubFlow | KTerminal.
Definition kind_of (s : StateV2) : StateKind :=
  match s with
  | ExecutorS _ _ _ _ _ => KExecutor | GateS _ => KGate | DecisionS _ => KDecision
  | SubFlowS _ _ => KSubFlow | TerminalS _ => KTerminal
  end.
#[export] Instance StateKind_eq_dec : EqDecision StateKind.
Proof. solve_decision. Defined.

Record FsmV2 := {
  f2_initial : string;
  f2_states : list (string * StateV2);
  f2_transitions : list Transition;
}.

Record Automation := { au_entry : string; au_stages : list string }.
Inductive TransitionReaction :=
| FreezeCapturedAsk | ResetCapturedAsk | ReconcileDecomposition | EnsureAcceptance
| ResetVerificationLoop.
Record Reactions := {
  re_on_enter : option (list (string * list TransitionReaction));
  re_on_leave : option (list (string * list TransitionReaction));
}.

(** The fields of [PackV2] that compilation and its schema checks read;
    [pk_serves] is whether the pack declares a [serves] block. *)
Record PackV2 := {
  pk_name : string;
  pk_serves : bool;
  pk_fsm : option FsmV2;
  pk_automation : option Automation;
  pk_reactions : option Reactions;
  pk_flows : option (list (string * FsmV2));
  pk_guards : list (string * string);
}.

(** ** Schema checks *)
Definition is_else (b : DecisionBranch) : bool :=
  match b with BElse _ => true | BGuard _ _ => false end.

(** [StateV2.refine]: a decision ends with exactly one [else]. *)
Definition stateTotal (s : StateV2) : bool :=
  match s with
  | DecisionS branches =>
      Nat.eqb (length (List.filter is_else branches)) 1 &&
      match last branches with Some b => is_else b | None => false end
  | _ => true
  end.

Definition stageIssue (states : list (string * StateV2)) (stageId : string) : list string :=
  match obj_get stageId states with
  | None => ["automation stage '" +:+ stageId +:+ "' is not an fsm state"]
  | Some s =>
      if bool_decide (kind_of s = KTerminal)
      then ["automation stage '" +:+ stageId +:+ "' cannot be terminal"] else []
  end.

Definition reactionIssues (p : PackV2) : list string :=
  match p.(pk_reactions) with
  | None => []
  | Some r =>
      match p.(pk_fsm) with
      | None => ["transition reactions require an fsm"]
      | Some f =>
          flat_map (fun bindings =>
            flat_map (fun stageId =>
              if obj_has stageId f.(f2_states) then []
              else ["reaction state '" +:+ stageId +:+ "' is not an fsm state"])
              (obj_keys (default [] bindings)))
            [r.(re_on_enter); r.(re_on_leave)]
      end
  end.

Definition automationIssues (p : PackV2) : list string :=
  match p.(pk_automation) with
  | None => []
  | Some a =>
      match p.(pk_fsm) with
      | None => ["automation requires an fsm"]
      | Some f =>
          let declared := set_of a.(au_stages) in
          (if negb (Nat.eqb (length declared) (length a.(au_stages)))
           then ["automation stages must be unique"] else []) ++
          (if negb (set_has a.(au_entry) declared)
           then ["automation entry must be included in automation stages"] else []) ++
          flat_map (stageIssue f.(f2_states)) a.(au_stages)
      end
  end.

(** [PackV2.superRefine]: the schema issues beyond the field types. *)
Definition packIssues (p : PackV2) : list string :=
  match p.(pk_fsm) with
  | Some f =>
      if p.(pk_serves) &&
         negb (match obj_get f.(f2_initial) f.(f2_states) with
               | Some s => bool_decide (kind_of s = KGate) | None => false end)
      then ["ORCH.8: a serves-bearing pack's fsm must start at a `gate` state (the entry fit-guard)"]
      else []
  | None => []
  end ++ reactionIssues p ++ automationIssues p.

(** ** The compiled form *)
Record StateMeta := {
  m_kind : StateKind;
  m_automated : bool;
  m_executor : option string;
  m_skills : list string;
  m_directive : option string;
  m_completion : option string;
  m_emits : option string;
  m_guard : option string;
  m_trigger : option (list string);
  m_onFail : option OnFail;
  m_writes : option (list string);
  m_report : option string;
  m_summary : option bool;
  m_reportPhases : option bool;
  m_goalAlignment : option bool;
  m_reads : option (list EvidenceRef);
  m_does : option string;
  m_phases : option (list string);
  m_branches : option (list DecisionBranch);
  m_flow : option string;
  m_outcome : option Outcome;
}.

(** One compiled machine; the flat [flows] registry that every machine of a
    pack shares is kept once, in [CompiledPack]. *)
Record CompiledMachine := {
  cm_fsm : option Fsm;
  cm_meta : list (string * StateMeta);
  cm_automation : option Automation;
  cm_reactions : option Reactions;
  cm_guardExprs : option (list (string * string));
}.
Record CompiledPack := {
  cp_machine : CompiledMachine;
  cp_flows : option (list (string * CompiledMachine));
}.

Definition blankMeta (k : StateKind) (automated : bool) : StateMeta :=
  {| m_kind := k; m_automated := automated; m_executor := None; m_skills := [];
     m_directive := None; m_completion := None; m_emits := None; m_guard := None;
     m_trigger := None; m_onFail := None; m_writes := None; m_report := None;
     m_summary := None; m_reportPhases := None; m_goalAlignment := None; m_reads := None;
     m_does := None; m_phases := None; m_branches := None; m_flow := None; m_outcome := None |}.

Definition stateMeta (automated : bool) (s : StateV2) : StateMeta :=
  match s with
  | ExecutorS executor skills directive completion emits =>
      {| m_kind := KExecutor; m_automated := automated; m_executor := executor;
         m_skills := skills; m_directive := Some directive; m_completion := Some completion;
         m_emits := Some emits; m_guard := None; m_trigger := None; m_onFail := None;
         m_writes := None; m_report := None; m_summary := None; m_reportPhases := None;
         m_goalAlignment := None; m_reads := None; m_does := None; m_phases := None;
         m_branches := None; m_flow := None; m_outcome := None |}
  | GateS g =>
      {| m_kind := KGate; m_automated := automated; m_executor := None; m_skills := [];
         m_directive := None; m_completion := None; m_emits := Some g.(g_on_pass_emits);
         m_guard := Some g.(g_guard); m_trigger := g.(g_trigger); m_onFail := Some g.(g_on_fail);
         m_writes := g.(g_writes); m_report := g.(g_report); m_summary := g.(g_summary);
         m_reportPhases := g.(g_report_phases); m_goalAlignment := g.(g_goal_alignment);
         m_reads := g.(g_reads); m_does := g.(g_does); m_phases := g.(g_phases);
         m_branches := None; m_flow := None; m_outcome := None |}
  | DecisionS branches =>
      {| m_kind := KDecision; m_automated := automated; m_executor := None; m_skills := [];
         m_directive := None; m_completion := None; m_emits := None; m_guard := None;
         m_trigger := None; m_onFail := None; m_writes := None; m_report := None;
         m_summary := None; m_reportPhases := None; m_goalAlignment := None; m_reads := None;
         m_does := None; m_phases := None; m_branches := Some branches; m_flow := None;
         m_outcome := None |}
  | SubFlowS flow emits =>
      {| m_kind := KSubFlow; m_automated := automated; m_executor := None; m_skills := [];
         m_directive := None; m_completion := None; m_emits := Some emits; m_guard := None;
         m_trigger := None; m_onFail := None; m_writes := None; m_report := None;
         m_summary := None; m_reportPhases := None; m_goalAlignment := None; m_reads := None;
         m_does := None; m_phases := None; m_branches := None; m_flow := Some flow;
         m_outcome := None |}
  | TerminalS outcome =>
      {| m_kind := KTerminal; m_automated := automated; m_executor := None; m_skills := [];
         m_directive := None; m_completion := None; m_emits := None; m_guard := None;
         m_trigger := None; m_onFail := None; m_writes := None; m_report := None;
         m_summary := None; m_reportPhases := None; m_goalAlignment := None; m_reads := None;
         m_does := None; m_phases := None; m_branches := None; m_flow := None;
         m_outcome := Some outcome |}
  end.

(** The events the driver emits from a state. *)
Definition stateEmits (s : StateV2) : list string :=
  match s with
  | ExecutorS _ _ _ _ e | SubFlowS _ e => [e]
  | GateS g => [g.(g_on_pass_emits)]
  | DecisionS branches => branch_emits <$> branches
  | TerminalS _ => []
  end.

Fixpoint assertDistinctBranchEmits (pack state : string) (seen : list string)
    (branches : list DecisionBranch) : result string unit :=
  match branches with
  | [] => Ok tt
  | b :: rest =>
      if set_has (branch_emits b) seen
      then Err ("pack " +:+ pack +:+ ": decision '" +:+ state
                  +:+ "' has duplicate branch emit '" +:+ branch_emits b +:+ "'")
      else assertDistinctBranchEmits pack state (set_add seen (branch_emits b)) rest
  end.

(** One turn of the loop over [Object.entries(fsmDef.states)]. *)
Definition compileState (pack : string) (automated : list string)
    (acc : list (string * StateMeta) * list string) (kn : string * StateV2)
    : result string (list (string * StateMeta) * list string) :=
  let '(meta, emitted) := acc in
  let '(name, s) := kn in
  _ <-? (match s with
         | DecisionS branches => assertDistinctBranchEmits pack name [] branches
         | _ => Ok tt
         end) ;;
  Ok (obj_set name (stateMeta (set_has name automated) s) meta,
      fold_left set_add (stateEmits s) emitted).

Fixpoint compileStates (pack : string) (automated : list string)
    (acc : list (string * StateMeta) * list string) (states : list (string * StateV2))
    : result string (list (string * StateMeta) * list string) :=
  match states with
  | [] => Ok acc
  | kn :: rest => acc' <-? compileState pack automated acc kn ;; compileStates pack automated acc' rest
  end.

Definition guardRefs (states : list (string * StateV2)) : list string :=
  flat_map (fun kn =>
    match kn.2 with
    | GateS g => [g.(g_guard)]
    | DecisionS branches =>
        flat_map (fun b => match b with BGuard g _ => [g] | BElse _ => [] end) branches
    | _ => []
    end) states.

Definition engineFsm (f : FsmV2) : Fsm :=
  {| fsm_initial := f.(f2_initial); fsm_states := obj_keys f.(f2_states);
     fsm_transitions := f.(f2_transitions) |}.

(** [compileMachine] on the machine [fsmDef] with the pack's registries. *)
Definition compileMachine (name : string) (guards : list (string * string))
    (fsmDef : option FsmV2) (automation : option Automation) (reactions : option Reactions)
    : result string CompiledMachine :=
  match fsmDef with
  | None =>
      Ok {| cm_fsm := None; cm_meta := []; cm_automation := automation;
            cm_reactions := reactions; cm_guardExprs := None |}
  | Some f =>
      let fsm := engineFsm f in
      let errors := validateFsm fsm in
      guard_throw bool_decide (errors = [])
        msg ("pack " +:+ name +:+ ": invalid FSM — " +:+ join_with "; " errors) ;;
      let automated := set_of (match automation with Some a => a.(au_stages) | None => [] end) in
      acc <-? compileStates name automated ([], []) f.(f2_states) ;;
      let '(meta, emitted) := acc in
      let routed := tr_on <$> f.(f2_transitions) in
      let unrouted := List.filter (fun e => negb (bool_decide (Some e ∈ routed))) emitted in
      guard_throw bool_decide (unrouted = [])
        msg ("pack " +:+ name +:+ ": emitted but unrouted events — " +:+ join_with ", " unrouted) ;;
      match List.find (fun ref => negb (obj_has ref guards)) (guardRefs f.(f2_states)) with
      | Some ref =>
          Err ("pack " +:+ name +:+ ": guard ref '" +:+ ref +:+ "' not in the guards registry")
      | None =>
          Ok {| cm_fsm := Some fsm; cm_meta := meta; cm_automation := automation;
                cm_reactions := reactions; cm_guardExprs := Some guards |}
      end
  end.

Fixpoint compileFlows (name : string) (guards : list (string * string))
    (flows : list (string * FsmV2)) : result string (list (string * CompiledMachine)) :=
  match flows with
  | [] => Ok []
  | (k, f) :: rest =>
      m <-? compileMachine name guards (Some f) None None ;;
      ms <-? compileFlows name guards rest ;;
      Ok ((k, m) :: ms)
  end.

(** The first [sub_flow] state, over the parent and every flow, that names no
    registered flow. *)
Definition unresolvedSubFlow (registered : list string) (machine : FsmV2)
    : option (string * string) :=
  match List.find (fun kn => match kn.2 with
                             | SubFlowS flow _ => negb (set_has flow registered)
                             | _ => false end) machine.(f2_states) with
  | Some (st, SubFlowS flow _) => Some (st, flow)
  | _ => None
  end.
Fixpoint sweepSubFlows (name : string) (registered : list string) (machines : list FsmV2)
    : result string unit :=
  match machines with
  | [] => Ok tt
  | m :: rest =>
      match unresolvedSubFlow registered m with
      | Some (st, flow) =>
          Err ("pack " +:+ name +:+ ": sub_flow '" +:+ st +:+ "' -> flow '" +:+ flow
                 +:+ "' resolves to no registered nested machine")
      | None => sweepSubFlows name registered rest
      end
  end.

Definition compilePackV2 (pack : PackV2) : result string CompiledPack :=
  compiled <-? compileMachine pack.(pk_name) pack.(pk_guards) pack.(pk_fsm)
                 pack.(pk_automation) pack.(pk_reactions) ;;
  match pack.(pk_flows) with
  | None => Ok {| cp_machine := compiled; cp_flows := None |}
  | Some flows =>
      ms <-? compileFlows pack.(pk_name) pack.(pk_guards) flows ;;
      _ <-? sweepSubFlows pack.(pk_name) (obj_keys flows)
              (match pack.(pk_fsm) with Some f => [f] | None => [] end ++ (snd <$> flows)) ;;
      Ok {| cp_machine := compiled; cp_flows := Some ms |}
  end.

(** ** Lemmas *)
Definition branches_distinct (s : StateV2) : Prop :=
  match s with DecisionS bs => NoDup (branch_emits <$> bs) | _ => True end.

Lemma assertDistinct_ok pack state seen bs :
  assertDistinctBranchEmits pack state seen bs = Ok tt <->
  NoDup (branch_emits <$> bs) /\ (forall e, e ∈ branch_emits <$> bs -> e ∉ seen).
Proof.
  revert seen. induction bs as [|b bs IH]; intros seen; cbn.
  - split; [intros _; split; [apply NoDup_nil_2|set_solver]|done].
  - destruct (set_has (branch_emits b) seen) eqn:E.
    + apply set_has_spec in E. split; [done|]. intros [_ H]. exfalso. apply (H (branch_emits b)); set_solver.
    + assert (branch_emits b ∉ seen) as Hb by (rewrite <- set_has_spec; congruence).
      rewrite IH, NoDup_cons. setoid_rewrite elem_of_set_add. set_solver.
Qed.

Lemma compileStates_spec pack auto meta emitted states r :
  NoDup (obj_keys states) -> (forall k, k ∈ obj_keys states -> obj_get k meta = None) ->
  compileStates pack auto (meta, emitted) states = Ok r ->
  (forall k, obj_get k r.1 = match obj_get k states with
                             | Some s => Some (stateMeta (set_has k auto) s)
                             | None => obj_get k meta end) /\
  (forall e, e ∈ r.2 <-> e ∈ emitted \/ exists k s, (k, s) ∈ states /\ e ∈ stateEmits s) /\
  Forall (fun kn => branches_distinct kn.2) states.
Proof.
  revert meta emitted. induction states as [|[k s] states IH]; intros meta emitted Hnd Hfree; cbn [compileStates].
  - intros [= <-]. cbn. split_and!; [done|set_solver|constructor].
  - unfold compileState. intros H. apply bind_ok in H as ([meta' em'] & Hst & H).
    apply bind_ok in Hst as ([] & Hdist & [= <- <-]).
    unfold obj_keys in Hnd. cbn in Hnd. apply NoDup_cons in Hnd as [Hk Hnd].
    assert (forall k', k' ∈ obj_keys states ->
      obj_get k' (obj_set k (stateMeta (set_has k auto) s) meta) = None) as Hfree'.
    { intros k' Hk'. rewrite obj_get_set_ne by (intros ->; done).
      apply Hfree. unfold obj_keys in *. cbn. set_solver. }
    destruct (IH _ _ Hnd Hfree' H) as (H1 & H2 & H3).
    split_and!.
    + intros k'. rewrite H1. cbn. destruct (String.eqb_spec k' k) as [->|Hne].
      * destruct (obj_get k states) eqn:Eg; [|by rewrite obj_get_set_eq].
        exfalso. apply Hk. apply (obj_get_is_Some k states). by eexists.
      * destruct (obj_get k' states); [done|]. by rewrite obj_get_set_ne.
    + intros e. rewrite H2, elem_of_set_adds. split.
      * intros [[?|?]|(k' & s' & ? & ?)]; [by left|right; exists k, s; set_solver|].
        right. exists k', s'. set_solver.
      * intros [?|(k' & s' & [[= -> ->]|?]%elem_of_cons & ?)]; eauto.
    + constructor; [|done]. cbn. destruct s; try exact I. apply assertDistinct_ok in Hdist. apply Hdist.
Qed.

(** What compilation establishes of one machine. *)
Record machine_sound (guards : list (string * string)) (automation : option Automation)
    (f : FsmV2) (m : CompiledMachine) : Prop := {
  ms_fsm : m.(cm_fsm) = Some (engineFsm f);
  ms_valid : validateFsm (engineFsm f) = [];
  ms_meta : forall k, obj_get k m.(cm_meta) =
    (fun s => stateMeta (set_has k (set_of (match automation with
                                            | Some a => a.(au_stages) | None => [] end))) s)
      <$> obj_get k f.(f2_states);
  ms_routed : forall k s e, (k, s) ∈ f.(f2_states) -> e ∈ stateEmits s ->
    exists t, t ∈ f.(f2_transitions) /\ t.(tr_on) = Some e;
  ms_guards : forall ref, ref ∈ guardRefs f.(f2_states) -> is_Some (obj_get ref guards);
  ms_distinct : Forall (fun kn => branches_distinct kn.2) f.(f2_states);
}.

Lemma compileMachine_sound name guards f automation reactions m :
  NoDup (obj_keys f.(f2_states)) ->
  compileMachine name guards (Some f) automation reactions = Ok m ->
  machine_sound guards automation f m.
Proof.
  intros Hnd. unfold compileMachine. case_bool_decide as Hv; [|done]. intros H.
  apply bind_ok in H as ([meta emitted] & Hst & H).
  case_bool_decide as Hu; [|done].
  destruct (List.find _ (guardRefs _)) as [ref|] eqn:Ef; [done|]. injection H as <-.
  apply compileStates_spec in Hst as (H1 & H2 & H3); [|done|done].
  constructor; cbn; try done.
  - intros k s e Hin He. assert (e ∈ emitted) as Hem by (apply H2; right; eauto).
    destruct (decide (Some e ∈ tr_on <$> f2_transitions f)) as [Hr|Hr].
    + apply list_elem_of_fmap in Hr as (t & ? & ?). eauto.
    + exfalso. assert (In e (List.filter (fun e => negb (bool_decide (Some e ∈ tr_on <$> f2_transitions f))) emitted)) as Hin'.
      { apply filter_In. split; [by apply list_elem_of_In|]. by rewrite bool_decide_false. }
      rewrite Hu in Hin'. done.
  - intros ref Href%list_elem_of_In. eapply List.find_none in Ef; [|exact Href].
    reflect_bools. unfold obj_has in Ef. by reflect_bools.
Qed.

Lemma compileFlows_sound name guards flows ms :
  Forall (fun kf => NoDup (obj_keys kf.2.(f2_states))) flows ->
  compileFlows name guards flows = Ok ms ->
  obj_keys ms = obj_keys flows /\
  Forall2 (fun kf km => kf.1 = km.1 /\ machine_sound guards None kf.2 km.2) flows ms.
Proof.
  intros Hnd. revert ms. induction Hnd as [|[k f] flows Hf Hnd IH]; intros ms; cbn [compileFlows].
  - intros [= <-]. by repeat constructor.
  - intros H. apply bind_ok in H as (m & Hm & H). apply bind_ok in H as (ms' & Hms & [= <-]).
    destruct (IH _ Hms) as [Hk Hall]. split; [unfold obj_keys in *; rewrite !fmap_cons; cbn [fst]; by rewrite Hk|].
    constructor; [|done]. split; [done|]. by eapply compileMachine_sound.
Qed.

Lemma sweep_ok name registered machines :
  sweepSubFlows name registered machines = Ok tt ->
  forall m k flow emits, m ∈ machines -> (k, SubFlowS flow emits) ∈ m.(f2_states) -> flow ∈ registered.
Proof.
  induction machines as [|m machines IH]; cbn; [set_solver|].
  destruct (unresolvedSubFlow registered m) as [[]|] eqn:Eu; [done|].
  intros H m' k flow emits [->|Hm]%elem_of_cons Hin; [|by eapply IH].
  unfold unresolvedSubFlow in Eu. destruct (List.find _ _) as [[st s]|] eqn:Ef.
  - apply List.find_some in Ef as [_ Hs]. by destruct s.
  - apply list_elem_of_In in Hin. eapply List.find_none in Ef; [|exact Hin]. cbn in Ef.
    reflect_bools. by apply set_has_spec.
Qed.

(** The Record types of a pack have distinct keys. *)
Definition pack_keys_ok (p : PackV2) : Prop :=
  Forall (fun f => NoDup (obj_keys f.(f2_states)))
    (match p.(pk_fsm) with Some f => [f] | None => [] end ++
     (snd <$> default [] p.(pk_flows))).

(** ** Properties *)
Lemma stateMeta_automated b s : (stateMeta b s).(m_automated) = b.
Proof. by destruct s. Qed.
Lemma stateMeta_kind b s : (stateMeta b s).(m_kind) = kind_of s.
Proof. by destruct s. Qed.

(** What an empty issue list says of a declared automation. *)
Lemma automation_clean pack f a :
  pack.(pk_fsm) = Some f -> pack.(pk_automation) = Some a -> packIssues pack = [] ->
  a.(au_entry) ∈ a.(au_stages) /\ NoDup a.(au_stages) /\
  forall k, k ∈ a.(au_stages) ->
    exists s, obj_get k f.(f2_states) = Some s /\ kind_of s <> KTerminal.
Proof.
  intros Hf Ha Hi. unfold packIssues in Hi. apply app_eq_nil in Hi as [_ Hi].
  apply app_eq_nil in Hi as [_ Hi]. unfold automationIssues in Hi. rewrite Ha, Hf in Hi.
  apply app_eq_nil in Hi as [Hu Hi]. apply app_eq_nil in Hi as [He Hs].
  split_and!.
  - destruct (set_has (au_entry a) (set_of (au_stages a))) eqn:E; [|done].
    apply set_has_spec in E. by rewrite elem_of_set_of in E.
  - destruct (Nat.eqb_spec (length (set_of (au_stages a))) (length (au_stages a))) as [E|]; [|done].
    apply NoDup_ListNoDup. eapply NoDup_incl_NoDup; [apply NoDup_ListNoDup, NoDup_set_of|by rewrite E|].
    intros x. rewrite <- !list_elem_of_In. by rewrite elem_of_set_of.
  - intros k Hk. pose proof (proj1 (flat_map_nil _ _) Hs k Hk) as H. unfold stageIssue in H.
    destruct (obj_get k (f2_states f)) as [s|]; [|done]. exists s. split; [done|].
    by case_bool_decide.
Qed.

(** ** Properties *)

Lemma compilePackV2_machine pack f c :
  pack_keys_ok pack -> pack.(pk_fsm) = Some f -> compilePackV2 pack = Ok c ->
  machine_sound pack.(pk_guards) pack.(pk_automation) f c.(cp_machine) /\
  (forall flows, pack.(pk_flows) = Some flows ->
     exists ms, c.(cp_flows) = Some ms /\ obj_keys ms = obj_keys flows /\
       Forall2 (fun kf km => kf.1 = km.1 /\ machine_sound pack.(pk_guards) None kf.2 km.2) flows ms /\
       forall g k flow emits, g = f \/ g ∈ flows.*2 ->
         (k, SubFlowS flow emits) ∈ g.(f2_states) -> is_Some (obj_get flow ms)).
Proof.
  unfold pack_keys_ok, compilePackV2. intros Hk Hf H. rewrite Hf in *.
  apply Forall_cons in Hk as [Hkf Hkfl]. apply bind_ok in H as (m & Hm & H).
  pose proof (compileMachine_sound _ _ _ _ _ _ Hkf Hm) as Hsound.
  destruct (pk_flows pack) as [flows|]; [|injection H as <-; naive_solver].
  apply bind_ok in H as (ms & Hms & H). apply bind_ok in H as ([] & Hsw & [= <-]).
  split; [done|]. intros flows' [= <-]. exists ms. cbn in Hkfl.
  destruct (compileFlows_sound _ _ _ _ (proj1 (Forall_fmap _ _ _) Hkfl) Hms) as [Hkeys Hall].
  split_and!; try done. intros g k flow emits Hg Hin. apply obj_get_is_Some. rewrite Hkeys.
  eapply sweep_ok; [exact Hsw| |exact Hin]. cbn. set_solver.
Qed.

(** C30: a pack with an fsm and distinct state keys that compiles has a total
    machine: the engine machine is valid, the metadata table covers exactly the declared states, every event
    a state emits is the event of some transition, every guard reference
    resolves, no decision has an unreachable branch, and, when the pack has a
    flows registry, every sub-flow of the parent or of a flow names a compiled
    nested machine.  Without a registry the compiler leaves sub-flows to the
    driver, as its comment says. *)
Theorem compile_establishes_totality (pack : PackV2) (f : FsmV2) (c : CompiledPack) :
  pack_keys_ok pack -> pack.(pk_fsm) = Some f -> compilePackV2 pack = Ok c ->
  machine_sound pack.(pk_guards) pack.(pk_automation) f c.(cp_machine) /\
  (forall flows, pack.(pk_flows) = Some flows ->
     exists ms, c.(cp_flows) = Some ms /\ obj_keys ms = obj_keys flows /\
       Forall2 (fun kf km => kf.1 = km.1 /\ machine_sound pack.(pk_guards) None kf.2 km.2) flows ms /\
       forall g k flow emits, g = f \/ g ∈ flows.*2 ->
         (k, SubFlowS flow emits) ∈ g.(f2_states) -> is_Some (obj_get flow ms)).
Proof. exact (compilePackV2_machine pack f c).
Qed.

(** A pack without schema issues that compiles drives exactly its declared
    automation stages: the entry is one of them, they are distinct, each is a
    declared state that is not terminal, and the metadata of a state is marked
    automated iff the pack lists the state. *)
Lemma automation_marks_declared_stages (pack : PackV2) (f : FsmV2) (a : Automation)
    (c : CompiledPack) :
  pack_keys_ok pack -> pack.(pk_fsm) = Some f -> pack.(pk_automation) = Some a ->
  packIssues pack = [] -> compilePackV2 pack = Ok c ->
  a.(au_entry) ∈ a.(au_stages) /\ NoDup a.(au_stages) /\
  (forall k, k ∈ a.(au_stages) -> exists s, obj_get k f.(f2_states) = Some s /\
     kind_of s <> KTerminal /\ obj_get k c.(cp_machine).(cm_meta) = Some (stateMeta true s)) /\
  (forall k m, obj_get k c.(cp_machine).(cm_meta) = Some m ->
     m.(m_automated) = true <-> k ∈ a.(au_stages)).
Proof.
  intros Hk Hf Ha Hi Hc.
  destruct (compilePackV2_machine _ _ _ Hk Hf Hc) as [Hm _].
  pose proof (ms_meta _ _ _ _ Hm) as Hmeta. rewrite Ha in Hmeta. cbn in Hmeta.
  destruct (automation_clean _ _ _ Hf Ha Hi) as (He & Hnd & Hst).
  split_and!; try done.
  - intros k Hin. destruct (Hst k Hin) as (s & Hs & Hkd). exists s. split_and!; try done.
    rewrite Hmeta, Hs. cbn. do 2 f_equal. by apply set_has_spec, elem_of_set_of.
  - intros k m. rewrite Hmeta. destruct (obj_get k (f2_states f)) as [s|]; [|done].
    intros [= <-]. rewrite stateMeta_automated, set_has_spec. apply elem_of_set_of.
Qed.

(** ** A concrete pack *)
Definition demo_gate : GateState :=
  {| g_guard := "fits"; g_trigger := None; g_on_pass_emits := "fit";
     g_on_fail := {| of_action := FBlock; of_message := "does not fit" |};
     g_writes := None; g_report := None; g_summary := None; g_report_phases := None;
     g_goal_alignment := None; g_reads := None; g_does := None; g_phases := None |}.
Definition edge (from on to : string) : Transition :=
  {| tr_from := from; tr_on := Some on; tr_to := to; tr_when := None |}.
Definition demo_child : FsmV2 :=
  {| f2_initial := "check";
     f2_states := [("check", GateS demo_gate); ("ok", TerminalS Shipped)];
     f2_transitions := [edge "check" "fit" "ok"] |}.
Definition demo_parent : FsmV2 :=
  {| f2_initial := "entry";
     f2_states :=
       [("entry", GateS demo_gate);
        ("code", ExecutorS (Some "coder") ["ts"] "write it" "tests" "coded");
        ("review", SubFlowS "child" "reviewed");
        ("route", DecisionS [BGuard "tests" "ship"; BElse "redo"]);
        ("done", TerminalS Shipped)];
     f2_transitions :=
       [edge "entry" "fit" "code"; edge "code" "coded" "review";
        edge "review" "reviewed" "route"; edge "route" "ship" "done";
        edge "route" "redo" "code"] |}.
Definition demo_automation : Automation := {| au_entry := "code"; au_stages := ["code"; "route"] |}.
Definition demo_pack : PackV2 :=
  {| pk_name := "demo"; pk_serves := true; pk_fsm := Some demo_parent;
     pk_automation := Some demo_automation; pk_reactions := None;
     pk_flows := Some [("child", demo_child)];
     pk_guards := [("fits", "true"); ("tests", "passed == true")] |}.
Definition demo_compiled : CompiledPack :=
  match compilePackV2 demo_pack with
  | Ok c => c
  | Err _ => {| cp_machine := {| cm_fsm := None; cm_meta := []; cm_automation := None;
                                 cm_reactions := None; cm_guardExprs := None |};
                cp_flows := None |}
  end.

Lemma demo_keys_ok : pack_keys_ok demo_pack.
Proof. by repeat (constructor; [apply (bool_decide_unpack _); vm_compute; exact I|]). Qed.

Lemma compile_establishes_totality_witness :
  compilePackV2 demo_pack = Ok demo_compiled /\
  machine_sound demo_pack.(pk_guards) demo_pack.(pk_automation) demo_parent
    demo_compiled.(cp_machine).
Proof.
  assert (compilePackV2 demo_pack = Ok demo_compiled) as H by (vm_compute; reflexivity).
  split; [exact H|].
  exact (proj1 (compile_establishes_totality demo_pack demo_parent demo_compiled
                  demo_keys_ok eq_refl H)).
Defined.

Lemma automation_marks_declared_stages_witness :
  packIssues demo_pack = [] /\ NoDup demo_automation.(au_stages).
Proof.
  assert (packIssues demo_pack = []) as Hi by (vm_compute; reflexivity).
  assert (compilePackV2 demo_pack = Ok demo_compiled) as H by (vm_compute; reflexivity).
  split; [exact Hi|].
  exact (proj1 (proj2 (automation_marks_declared_stages demo_pack demo_parent demo_automation
                         demo_compiled demo_keys_ok eq_refl eq_refl Hi H))).
Defined.
