(* ===== verification/Guard.v ===== *)
(** * Loop guards ([src/src/runtime/guard/progress_floor.ts], [guard/connector.ts])

    The progress floor is a counter automaton over the tool calls of one inner
    loop; the completion connector turns its action and the completion guard
    into the loop's verdict. *)

From Stdlib Require Import Ascii String.
From stdpp Require Import base option list strings gmap.
From S2P Require Import Prelude.

Inductive Action := APass | AWarn | ABlock | AHalt.
#[export] Instance Action_eq_dec : EqDecision Action.
Proof. solve_decision. Defined.

(** ** The progress floor *)
Record ToolObservation := {
  o_tool : string;
  o_argsHash : string;
  o_failed : bool;
  o_idempotentSameResult : bool;
}.

Definition EXACT_WARN := 2.
Definition EXACT_BLOCK := 5.
Definition SAME_TOOL_WARN := 3.
Definition SAME_TOOL_HALT := 8.
Definition NO_PROGRESS_WARN := 2.
Definition NO_PROGRESS_BLOCK := 5.

Abbreviation Counters := (gmap string nat).
Definition count_of (m : Counters) (k : string) : nat := default 0 (m !! k).
(** [inc]: the updated map and the new count. *)
Definition inc (m : Counters) (k : string) : Counters * nat :=
  let n := count_of m k + 1 in (<[k := n]> m, n).

Record ProgressFloor := {
  pf_exact : Counters;
  pf_sameTool : Counters;
  pf_noProgress : Counters;
}.
Definition newFloor : ProgressFloor := {| pf_exact := ∅; pf_sameTool := ∅; pf_noProgress := ∅ |}.

(** The persisted snapshot: the counters as plain objects. *)
Record FloorCounters := {
  fc_exact : list (string * nat);
  fc_sameTool : list (string * nat);
  fc_noProgress : list (string * nat);
}.
Definition snapshot (f : ProgressFloor) : FloorCounters :=
  {| fc_exact := map_to_list f.(pf_exact);
     fc_sameTool := map_to_list f.(pf_sameTool);
     fc_noProgress := map_to_list f.(pf_noProgress) |}.
Definition seedFloor (seed : FloorCounters) : ProgressFloor :=
  {| pf_exact := list_to_map seed.(fc_exact);
     pf_sameTool := list_to_map seed.(fc_sameTool);
     pf_noProgress := list_to_map seed.(fc_noProgress) |}.

Definition observe (f : ProgressFloor) (call : ToolObservation) : ProgressFloor * Action :=
  if call.(o_failed) then
    let '(exact, exactN) := inc f.(pf_exact) call.(o_argsHash) in
    let noProgress := delete call.(o_argsHash) f.(pf_noProgress) in
    let '(sameTool, sameN) := inc f.(pf_sameTool) call.(o_tool) in
    ({| pf_exact := exact; pf_sameTool := sameTool; pf_noProgress := noProgress |},
     if SAME_TOOL_HALT <=? sameN then AHalt
     else if EXACT_BLOCK <=? exactN then ABlock
     else if (EXACT_WARN <=? exactN) || (SAME_TOOL_WARN <=? sameN) then AWarn
     else APass)%nat
  else if call.(o_idempotentSameResult) then
    let '(noProgress, k) := inc f.(pf_noProgress) call.(o_argsHash) in
    ({| pf_exact := f.(pf_exact); pf_sameTool := f.(pf_sameTool); pf_noProgress := noProgress |},
     if NO_PROGRESS_BLOCK <=? k then ABlock
     else if NO_PROGRESS_WARN <=? k then AWarn
     else APass)%nat
  else (f, APass).

Definition max_count (m : Counters) : nat := foldr max 0 (snd <$> map_to_list m).
Definition counts (f : ProgressFloor) : nat * nat * nat :=
  (max_count f.(pf_exact), max_count f.(pf_sameTool), max_count f.(pf_noProgress)).

(** The floor after a sequence of calls. *)
Definition observe_all (f : ProgressFloor) (calls : list ToolObservation) : ProgressFloor :=
  fold_left (fun f c => (observe f c).1) calls f.

(** ** The completion connector *)
Inductive LoopVerdict := VContinue | VRelease | VBreak (reason : string).
Record CompletionInput := { ci_completionGuardHeld : bool; ci_floorAction : Action }.
Definition evaluateCompletion (input : CompletionInput) : LoopVerdict :=
  if bool_decide (input.(ci_floorAction) = AHalt) then VBreak "progress-floor-degenerate"
  else if input.(ci_completionGuardHeld) then VRelease
  else VContinue.

(** ** The counters as functions of the history *)
Definition same_args (h : string) (c : ToolObservation) : bool := (c.(o_argsHash) =? h)%string.
Definition fails_args (h : string) (c : ToolObservation) : bool := c.(o_failed) && same_args h c.
Definition fails_tool (t : string) (c : ToolObservation) : bool :=
  c.(o_failed) && (c.(o_tool) =? t)%string.
Definition repeats (h : string) (c : ToolObservation) : bool :=
  negb c.(o_failed) && c.(o_idempotentSameResult) && same_args h c.
Definition number (p : ToolObservation -> bool) (calls : list ToolObservation) : nat :=
  length (List.filter p calls).
(** The calls after the last failure with arguments [h]. *)
Fixpoint since_failure (h : string) (calls : list ToolObservation) : list ToolObservation :=
  match calls with
  | [] => []
  | c :: rest => if existsb (fails_args h) rest then since_failure h rest
                 else if fails_args h c then rest else c :: rest
  end.

Lemma count_of_inc m k k' :
  count_of (inc m k).1 k' = count_of m k' + (if (k =? k')%string then 1 else 0).
Proof.
  unfold inc, count_of; cbn. destruct (String.eqb_spec k k') as [->|Hne].
  - by rewrite lookup_insert_eq.
  - rewrite lookup_insert_ne by done. lia.
Qed.
Lemma inc_eq m k : inc m k = ((inc m k).1, count_of m k + 1).
Proof. done. Qed.
Lemma count_of_inc_self m k : (inc m k).2 = count_of (inc m k).1 k.
Proof. rewrite count_of_inc, String.eqb_refl. done. Qed.
Lemma count_of_delete m k k' :
  count_of (delete k m) k' = if (k =? k')%string then 0 else count_of m k'.
Proof.
  unfold count_of. destruct (String.eqb_spec k k') as [->|Hne].
  - by rewrite lookup_delete_eq.
  - by rewrite lookup_delete_ne.
Qed.
Lemma number_app p l1 l2 : number p (l1 ++ l2) = number p l1 + number p l2.
Proof. unfold number. by rewrite List.filter_app, length_app. Qed.
Lemma number_singleton p c : number p [c] = if p c then 1 else 0.
Proof. unfold number; cbn. by destruct (p c). Qed.

Lemma since_failure_snoc h calls c :
  since_failure h (calls ++ [c]) = if fails_args h c then [] else since_failure h calls ++ [c].
Proof.
  induction calls as [|d calls IH]; cbn.
  - by destruct (fails_args h c).
  - rewrite existsb_app. cbn. rewrite orb_false_r. rewrite IH.
    destruct (fails_args h c) eqn:Ec; [by rewrite orb_true_r|]. rewrite orb_false_r.
    by repeat case_match.
Qed.

Lemma since_failure_none h calls :
  existsb (fails_args h) calls = false -> since_failure h calls = calls.
Proof. destruct calls as [|c calls]; cbn; [done|]. intros H. reflect_bools. by repeat case_match. Qed.

(** The floor of a history, per counter. *)
Lemma observe_counts f c h :
  count_of (observe f c).1.(pf_exact) h
    = count_of f.(pf_exact) h + (if fails_args h c then 1 else 0) /\
  count_of (observe f c).1.(pf_sameTool) h
    = count_of f.(pf_sameTool) h + (if fails_tool h c then 1 else 0) /\
  count_of (observe f c).1.(pf_noProgress) h
    = (if fails_args h c then 0
       else count_of f.(pf_noProgress) h + (if repeats h c then 1 else 0)).
Proof.
  unfold observe, fails_args, fails_tool, repeats, same_args.
  rewrite (inc_eq (pf_exact f)), (inc_eq (pf_sameTool f)), (inc_eq (pf_noProgress f)).
  destruct (o_failed c), (o_idempotentSameResult c); cbn -[inc Nat.leb count_of];
    rewrite ?count_of_inc, ?count_of_delete; split_and!;
    destruct (o_argsHash c =? h)%string, (o_tool c =? h)%string; lia.
Qed.

Lemma observe_all_snoc f calls c :
  observe_all f (calls ++ [c]) = (observe (observe_all f calls) c).1.
Proof. unfold observe_all. by rewrite fold_left_app. Qed.

Lemma observe_all_counts calls h :
  let f := observe_all newFloor calls in
  count_of f.(pf_exact) h = number (fails_args h) calls /\
  count_of f.(pf_sameTool) h = number (fails_tool h) calls /\
  count_of f.(pf_noProgress) h = number (repeats h) (since_failure h calls).
Proof.
  cbn. induction calls as [|c calls (IH1 & IH2 & IH3)] using rev_ind; [done|].
  rewrite observe_all_snoc.
  destruct (observe_counts (observe_all newFloor calls) c h) as (H1 & H2 & H3).
  rewrite H1, H2, H3, IH1, IH2, IH3, since_failure_snoc, !number_app, !number_singleton.
  split_and!; try done. destruct (fails_args h c) eqn:E; [done|].
  by rewrite number_app, number_singleton.
Qed.

(** The action of the next call, from the history alone. *)
Definition action_spec (calls : list ToolObservation) (c : ToolObservation) : Action :=
  let failed_exact := number (fails_args c.(o_argsHash)) calls + 1 in
  let failed_tool := number (fails_tool c.(o_tool)) calls + 1 in
  let repeated := number (repeats c.(o_argsHash)) (since_failure c.(o_argsHash) calls) + 1 in
  if c.(o_failed) then
    if decide (8 <= failed_tool) then AHalt
    else if decide (5 <= failed_exact) then ABlock
    else if decide (2 <= failed_exact \/ 3 <= failed_tool) then AWarn else APass
  else if c.(o_idempotentSameResult) then
    if decide (5 <= repeated) then ABlock
    else if decide (2 <= repeated) then AWarn else APass
  else APass.

Lemma observe_action calls c :
  (observe (observe_all newFloor calls) c).2 = action_spec calls c.
Proof.
  pose proof (observe_all_counts calls c.(o_argsHash)) as (H1 & _ & H3).
  pose proof (observe_all_counts calls c.(o_tool)) as (_ & H2 & _).
  unfold observe, action_spec. rewrite <- H1, <- H2, <- H3.
  destruct (o_failed c); cbn -[Nat.leb count_of decide].
  - unfold SAME_TOOL_HALT, EXACT_BLOCK, EXACT_WARN, SAME_TOOL_WARN.
    repeat destruct (decide _); repeat (case_match; reflect_bools); try done;
      rewrite ?Nat.leb_le, ?Nat.leb_gt, ?orb_true_iff in *; rewrite ?Nat.leb_le in *; lia.
  - destruct (o_idempotentSameResult c); cbn -[Nat.leb count_of decide]; [|done].
    unfold NO_PROGRESS_BLOCK, NO_PROGRESS_WARN.
    repeat destruct (decide _); repeat (case_match; reflect_bools); try done;
      rewrite ?Nat.leb_le, ?Nat.leb_gt in *; lia.
Qed.

Lemma observe_halt calls c :
  (observe (observe_all newFloor calls) c).2 = AHalt <->
  c.(o_failed) = true /\ 7 <= number (fails_tool c.(o_tool)) calls.
Proof.
  rewrite observe_action. unfold action_spec.
  destruct (o_failed c), (o_idempotentSameResult c); repeat destruct (decide _);
    split; intros; try done; try lia; naive_solver lia.
Qed.

Lemma snapshot_seed f : seedFloor (snapshot f) = f.
Proof. destruct f. unfold seedFloor, snapshot; cbn. by rewrite !list_to_map_to_list. Qed.

(** ** Properties *)

(** The floor is a function of the call history: its action for a call
    is determined by how often these arguments and this tool have failed and
    how often this read repeated since its last failure, with the thresholds
    warn 2/3/2, block 5/5 and halt 8, the most severe one winning; and a floor
    rehydrated from a persisted snapshot at any point of the history answers as
    the uninterrupted one. *)
Lemma floor_action_from_history (before after : list ToolObservation) (c : ToolObservation) :
  (observe (observe_all (seedFloor (snapshot (observe_all newFloor before))) after) c).2
    = action_spec (before ++ after) c.
Proof.
  rewrite snapshot_seed. rewrite <- observe_action. unfold observe_all. by rewrite fold_left_app.
Qed.

(** No tool fails an eighth time without the floor halting, and a halt is
    only ever the eighth or a later failure of one tool. *)
Lemma floor_halts_at_eighth_failure (calls : list ToolObservation) (t : string) :
  (exists before c after, calls = before ++ c :: after /\ c.(o_tool) = t /\
     (observe (observe_all newFloor before) c).2 = AHalt) <->
  8 <= number (fails_tool t) calls.
Proof.
  split.
  - intros (before & c & after & -> & <- & [Hf Hn]%observe_halt).
    rewrite number_app. unfold number in *; cbn. unfold fails_tool at 2.
    rewrite Hf, String.eqb_refl. cbn. lia.
  - induction calls as [|c calls IH] using rev_ind; [cbn; lia|].
    rewrite number_app, number_singleton. intros H.
    destruct (decide (8 <= number (fails_tool t) calls)) as [Hd|Hd].
    + destruct (IH Hd) as (b & d & a & -> & Ht & Ha). exists b, d, (a ++ [c]).
      by rewrite <- app_assoc.
    + destruct (fails_tool t c) eqn:Ec; [|lia]. unfold fails_tool in Ec. reflect_bools. subst t.
      exists calls, c, []. split_and!; try done. apply observe_halt. split; [done|lia].
Qed.

(** The exact-failure counter is keyed by the argument hash alone: five
    failures of five different tools on the same hash block the fifth, though
    no tool was called twice. *)
Lemma exact_counter_ignores_tool :
  exists calls c,
    NoDup (o_tool <$> calls ++ [c]) /\
    (observe (observe_all newFloor calls) c).2 = ABlock.
Proof.
  pose (call t := {| o_tool := t; o_argsHash := "h"; o_failed := true; o_idempotentSameResult := false |}).
  exists (call <$> ["a"; "b"; "c"; "d"]), (call "e").
  split; [apply (bool_decide_unpack _); vm_compute; exact I|by vm_compute].
Qed.
