(* ===== verification/LoopDriver.v ===== *)
(** * The loop driver ([src/src/runtime/loop/gate_dispatch.ts], [loop/driver.ts],
      [exe/transitions.ts])

    Dispatch of a compiled pack's states: gates and decisions on the injected
    guard evaluator, executors under the progress floor, sub-flows on their own
    driver; and the per-event transition evaluation with its arbitration over
    several packs. *)

From Stdlib Require Import Ascii String.
From stdpp Require Import base option list strings gmap.
From S2P Require Import Prelude Fsm FsmTree FsmProps PackCompile Guard.
#[local] Open Scope os_scope.

(** [DriverStep]; the action of [ActionStep] is [FBlock] or [FHalt]. *)
Inductive DriverStep :=
| Advance (next : string) (notice : option string)
| ActionStep (action : FailAction) (message : string)
| OutcomeStep (outcome : Outcome) (reason : option string).

(** A driver run ends with an exception of the code or, in the model only,
    when the fuel of an inner loop or the nesting depth is used up. *)
Inductive DriverError := Thrown (message : string) | OutOfFuel.

Definition transitionOn (fsm : Fsm) (state event : string) : result string string :=
  let r := step (fromFlat fsm) [state] event None ∅ in
  guard_throw r.(sr_transitioned)
    msg ("gate_dispatch: no '" +:+ event +:+ "' transition from '" +:+ state
           +:+ "' (compiler invariant violated)") ;;
  Ok (soleState r.(sr_next)).

Definition emitOf (state : string) (m : StateMeta) : result string string :=
  match m.(m_emits) with
  | Some e => Ok e
  | None => Err ("gate_dispatch: state '" +:+ state +:+ "' has no emit event (compiler invariant)")
  end.

(** [transitionOn(fsm, state, emitOf(state, m))] *)
Definition advanceFrom (fsm : Fsm) (state : string) (m : StateMeta) : result string string :=
  e <-? emitOf state m ;; transitionOn fsm state e.

(** One observable step of an executor's inner loop. *)
Record InnerStep := {
  is_observation : ToolObservation;
  is_completionGuardHeld : bool;
}.

Definition STEP_CAP : nat := N.to_nat 10000.

(** The code outside the driver: a world that executors change and guards
    read, the agent registry ([ensureExecutor] connects or throws), an
    executor's [next] ([None] = it gave up) and the guard evaluator. *)
Class Environment (World Executor : Type) := {
  ensureExecutor : string -> World -> result string (Executor * World);
  exec_next : Executor -> World -> option InnerStep * World;
  guard_eval : string -> World -> bool;
}.

Section Driver.
Context {World Executor : Type} `{Env : Environment World Executor}.

(** ** Gate and decision dispatch *)
Definition evalGate (fsm : Fsm) (state : string) (m : StateMeta) (w : World)
    : result string DriverStep :=
  if guard_eval (default "" m.(m_guard)) w then
    next <-? advanceFrom fsm state m ;; Ok (Advance next None)
  else
    let onFail := default {| of_action := FBlock;
                             of_message := "gate '" +:+ state +:+ "' failed" |} m.(m_onFail) in
    match onFail.(of_action) with
    | FWarn => next <-? advanceFrom fsm state m ;; Ok (Advance next (Some onFail.(of_message)))
    | a => Ok (ActionStep a onFail.(of_message))
    end.

Fixpoint evalBranches (fsm : Fsm) (state : string) (branches : list DecisionBranch) (w : World)
    : result string DriverStep :=
  match branches with
  | [] => Err "gate_dispatch: decision state had no matching branch and no else (totality violated)"
  | BElse emits :: _ => next <-? transitionOn fsm state emits ;; Ok (Advance next None)
  | BGuard guard emits :: rest =>
      if guard_eval guard w
      then next <-? transitionOn fsm state emits ;; Ok (Advance next None)
      else evalBranches fsm state rest w
  end.
Definition evalDecision (fsm : Fsm) (state : string) (m : StateMeta) (w : World)
    : result string DriverStep :=
  evalBranches fsm state (default [] m.(m_branches)) w.

(** ** The driver *)
Definition throws {A} (r : result string A) : result DriverError A :=
  match r with Ok a => Ok a | Err e => Err (Thrown e) end.
Definition reading {A} (r : result string A) (w : World) : result DriverError (A * World) :=
  a <-? throws r ;; Ok (a, w).

(** The driver's [fsm] getter. *)
Definition driverFsm (compiled : CompiledMachine) : result string Fsm :=
  match compiled.(cm_fsm) with
  | Some fsm => Ok fsm
  | None => Err "LOOP.1: driver requires a behavior pack (compiled pack has no fsm)"
  end.
(** [transitionOn(this.fsm, state, emitOf(state, m))] *)
Definition driverAdvance (compiled : CompiledMachine) (state : string) (m : StateMeta)
    : result string string :=
  fsm <-? driverFsm compiled ;; advanceFrom fsm state m.

(** The [for (;;)] of [runExecutor]. *)
Fixpoint executorLoop (fuel : nat) (exec : Executor) (floor : ProgressFloor)
    (compiled : CompiledMachine) (state : string) (m : StateMeta) (w : World) : result DriverError (DriverStep * World) :=
  match fuel with
  | 0 => Err OutOfFuel
  | S fuel' =>
      match exec_next exec w with
      | (None, w') =>
          Ok (OutcomeStep Wedge
                (Some ("executor '" +:+ default state m.(m_executor) +:+ "' exhausted")), w')
      | (Some inner, w') =>
          let '(floor', floorAction) := observe floor inner.(is_observation) in
          match evaluateCompletion {| ci_completionGuardHeld := inner.(is_completionGuardHeld);
                                      ci_floorAction := floorAction |} with
          | VRelease => next <-? throws (driverAdvance compiled state m) ;; Ok (Advance next None, w')
          | VBreak reason => Ok (OutcomeStep Wedge (Some reason), w')
          | VContinue => executorLoop fuel' exec floor' compiled state m w'
          end
      end
  end.

Definition runExecutor (fuel : nat) (compiled : CompiledMachine) (state : string) (m : StateMeta)
    (w : World)
    : result DriverError (DriverStep * World) :=
  ew <-? throws (ensureExecutor (default state m.(m_executor)) w) ;;
  executorLoop fuel ew.1 newFloor compiled state m ew.2.

Abbreviation Runner := (CompiledMachine -> World -> result DriverError (Outcome * World)).

Definition runSubFlow (run : Runner) (flows : option (list (string * CompiledMachine)))
    (compiled : CompiledMachine) (state : string) (m : StateMeta) (w : World)
    : result DriverError (DriverStep * World) :=
  match obj_get (default "" m.(m_flow)) (default [] flows) with
  | None =>
      Err (Thrown ("LOOP.1: sub_flow '" +:+ state +:+ "' -> flow '" +:+ default "" m.(m_flow)
                     +:+ "' has no compiled nested machine"))
  | Some child =>
      ow <-? run child w ;;
      match ow.1 with
      | Shipped => next <-? throws (driverAdvance compiled state m) ;; Ok (Advance next None, ow.2)
      | Wedge =>
          Ok (OutcomeStep Wedge
                (Some ("sub_flow '" +:+ default state m.(m_flow) +:+ "' wedged")), ow.2)
      end
  end.

(** [LoopDriver.step] of the driver of machine [compiled]; [run] runs a child
    driver to its terminal. *)
Definition driverStep (fuel : nat) (run : Runner)
    (flows : option (list (string * CompiledMachine))) (compiled : CompiledMachine)
    (state : string) (w : World) : result DriverError (DriverStep * World) :=
  match obj_get state compiled.(cm_meta) with
  | None => Err (Thrown ("LOOP.1: no meta for state '" +:+ state +:+ "'"))
  | Some m =>
      match m.(m_kind) with
      | KExecutor => runExecutor fuel compiled state m w
      | KGate => reading (fsm <-? driverFsm compiled ;; evalGate fsm state m w) w
      | KDecision => reading (fsm <-? driverFsm compiled ;; evalDecision fsm state m w) w
      | KSubFlow => runSubFlow run flows compiled state m w
      | KTerminal => Ok (OutcomeStep (default Wedge m.(m_outcome)) None, w)
      end
  end.

(** The bounded walk of [runToTerminal] from state [cur]. *)
Fixpoint walk (stepf : string -> World -> result DriverError (DriverStep * World))
    (n : nat) (cur : string) (w : World) : result DriverError (Outcome * World) :=
  match n with
  | 0 => Ok (Wedge, w)
  | S n' =>
      rw <-? stepf cur w ;;
      match rw.1 with
      | OutcomeStep o _ => Ok (o, rw.2)
      | ActionStep _ _ => Ok (Wedge, rw.2)
      | Advance next _ => walk stepf n' next rw.2
      end
  end.

(** [runToTerminal] with sub-flow nesting up to [depth]. *)
Fixpoint runToTerminal (depth fuel : nat) (flows : option (list (string * CompiledMachine)))
    (compiled : CompiledMachine) (w : World) : result DriverError (Outcome * World) :=
  match depth with
  | 0 => Err OutOfFuel
  | S depth' =>
      fsm <-? throws (driverFsm compiled) ;;
      walk (driverStep fuel (runToTerminal depth' fuel flows) flows compiled) STEP_CAP
        fsm.(fsm_initial) w
  end.

(** ** Transition evaluation and arbitration *)
Record TransitionResult := {
  tres_next : option string;
  tres_action : option (FailAction * string);
  tres_notice : option string;
}.
Definition advancing (next : string) (notice : option string) : TransitionResult :=
  {| tres_next := Some next; tres_action := None; tres_notice := notice |}.

Definition exe_stepTo (compiled : CompiledMachine) (state event : string) : result string string :=
  match compiled.(cm_fsm) with
  | None => Err ("EXE.1: cannot step a non-behavior pack (no fsm) from '" +:+ state +:+ "'")
  | Some fsm =>
      let r := step (fromFlat fsm) [state] event None ∅ in
      guard_throw r.(sr_transitioned)
        msg ("EXE.1: no '" +:+ event +:+ "' transition from '" +:+ state
               +:+ "' (compiler invariant violated)") ;;
      Ok (soleState r.(sr_next))
  end.
Definition exe_emitOf (state : string) (emits : option string) : result string string :=
  match emits with
  | Some e => Ok e
  | None => Err ("EXE.1: state '" +:+ state +:+ "' has no emit event (compiler invariant)")
  end.

Fixpoint exe_branches (compiled : CompiledMachine) (state : string)
    (branches : list DecisionBranch) (w : World) : result string TransitionResult :=
  match branches with
  | [] => Err ("EXE.1: decision '" +:+ state
                 +:+ "' had no matching branch and no else (totality violated)")
  | BElse emits :: _ => next <-? exe_stepTo compiled state emits ;; Ok (advancing next None)
  | BGuard guard emits :: rest =>
      if guard_eval guard w
      then next <-? exe_stepTo compiled state emits ;; Ok (advancing next None)
      else exe_branches compiled state rest w
  end.

Definition evaluateTransition (compiled : CompiledMachine) (state event : string) (w : World)
    : result string TransitionResult :=
  match obj_get state compiled.(cm_meta) with
  | None => Err ("EXE.1: no meta for state '" +:+ state +:+ "'")
  | Some m =>
      match m.(m_kind) with
      | KGate =>
          if guard_eval (default "" m.(m_guard)) w then
            e <-? exe_emitOf state m.(m_emits) ;;
            next <-? exe_stepTo compiled state e ;; Ok (advancing next None)
          else
            let onFail := default {| of_action := FBlock;
                                     of_message := "gate '" +:+ state +:+ "' failed" |}
                            m.(m_onFail) in
            match onFail.(of_action) with
            | FWarn =>
                e <-? exe_emitOf state m.(m_emits) ;;
                next <-? exe_stepTo compiled state e ;;
                Ok (advancing next (Some onFail.(of_message)))
            | a => Ok {| tres_next := None; tres_action := Some (a, onFail.(of_message));
                         tres_notice := None |}
            end
      | KDecision => exe_branches compiled state (default [] m.(m_branches)) w
      | KTerminal => Ok {| tres_next := None; tres_action := None; tres_notice := None |}
      | KExecutor | KSubFlow =>
          next <-? exe_stepTo compiled state event ;; Ok (advancing next None)
      end
  end.

Record Region := { rg_compiled : CompiledMachine; rg_state : string }.
Record RegionAdvance := { ra_region : Region; ra_next : string; ra_notice : option string }.
Record Arbitration := {
  arb_blocked : option (FailAction * string);
  arb_advances : list RegionAdvance;
}.

Definition regionAdvance (region : Region) (res : TransitionResult) : list RegionAdvance :=
  match res.(tres_next) with
  | Some next => [{| ra_region := region; ra_next := next; ra_notice := res.(tres_notice) |}]
  | None => []
  end.
Fixpoint arbitrate_from (advances : list RegionAdvance) (regions : list Region) (event : string)
    (w : World) : result string Arbitration :=
  match regions with
  | [] => Ok {| arb_blocked := None; arb_advances := advances |}
  | region :: rest =>
      res <-? evaluateTransition region.(rg_compiled) region.(rg_state) event w ;;
      match res.(tres_action) with
      | Some action => Ok {| arb_blocked := Some action; arb_advances := advances |}
      | None => arbitrate_from (advances ++ regionAdvance region res) rest event w
      end
  end.
Definition arbitrate (regions : list Region) (event : string) (w : World)
    : result string Arbitration :=
  arbitrate_from [] regions event w.
End Driver.
