(* ===== verification/LoopProps.v ===== *)
(** * Properties of the loop driver

    The executor loop against its pull history, dispatch of compiled packs,
    sub-flow nesting, and the agreement of transition evaluation with the
    driver. *)

From Stdlib Require Import Ascii String.
From stdpp Require Import base option list strings gmap.
From S2P Require Import Prelude Fsm FsmTree FsmProps PackCompile Guard LoopDriver.
#[local] Open Scope os_scope.

Section Properties.
Context {World Executor : Type} `{Env : Environment World Executor}.

(** ** The executor loop *)
Inductive pulls (exec : Executor) : World -> list InnerStep -> World -> Prop :=
| pulls_nil w : pulls exec w [] w
| pulls_cons w s w1 l w2 :
    exec_next exec w = (Some s, w1) -> pulls exec w1 l w2 -> pulls exec w (s :: l) w2.

(** The step [s] taken after the observations [hist] neither completes the
    state nor trips the floor. *)
Definition uneventful (hist : list ToolObservation) (s : InnerStep) : Prop :=
  s.(is_completionGuardHeld) = false /\ action_spec hist s.(is_observation) <> AHalt.
Fixpoint all_uneventful (hist : list ToolObservation) (l : list InnerStep) : Prop :=
  match l with
  | [] => True
  | s :: rest => uneventful hist s /\ all_uneventful (hist ++ [s.(is_observation)]) rest
  end.

(** What the step after an uneventful prefix does to the loop. *)
Lemma executorLoop_turn fuel exec hist compiled state m w s w1 :
  exec_next exec w = (Some s, w1) ->
  executorLoop (S fuel) exec (observe_all newFloor hist) compiled state m w =
    if decide (action_spec hist s.(is_observation) = AHalt)
    then Ok (OutcomeStep Wedge (Some "progress-floor-degenerate"), w1)
    else if s.(is_completionGuardHeld)
    then next <-? throws (driverAdvance compiled state m) ;; Ok (Advance next None, w1)
    else executorLoop fuel exec (observe_all newFloor (hist ++ [s.(is_observation)]))
           compiled state m w1.
Proof.
  intros He. cbn [executorLoop]. rewrite He, observe_all_snoc, <- observe_action.
  destruct (observe _ _) as [floor' a]. cbn [fst snd]. unfold evaluateCompletion; cbn.
  destruct (decide (a = AHalt)) as [->|Ha]; [done|]. rewrite bool_decide_false by done.
  by destruct (is_completionGuardHeld s).
Qed.

Lemma executorLoop_advance fuel exec hist compiled state m w next notice w' :
  executorLoop fuel exec (observe_all newFloor hist) compiled state m w
    = Ok (Advance next notice, w') <->
  notice = None /\ driverAdvance compiled state m = Ok next /\
  exists steps last, length steps < fuel /\ pulls exec w (steps ++ [last]) w' /\
    all_uneventful hist steps /\ last.(is_completionGuardHeld) = true /\
    action_spec (hist ++ (is_observation <$> steps)) last.(is_observation) <> AHalt.
Proof.
  revert hist w. induction fuel as [|fuel IH]; intros hist w.
  - cbn. split; [done|]. intros (_ & _ & steps & last & ? & _). lia.
  - destruct (exec_next exec w) as [[s|] w1] eqn:He.
    + rewrite (executorLoop_turn _ _ _ _ _ _ _ _ _ He).
      destruct (decide (action_spec hist (is_observation s) = AHalt)) as [Hh|Hh];
        [|destruct (is_completionGuardHeld s) eqn:Hc].
      * split; [done|]. intros (_ & _ & steps & last & _ & Hp & Hu & _ & Hl). exfalso.
        destruct steps as [|s' steps]; inversion Hp; subst; rewrite He in *; simplify_eq.
        -- cbn in Hl. rewrite app_nil_r in Hl. done.
        -- cbn in Hu. unfold uneventful in Hu. naive_solver.
      * split.
        -- intros H. apply bind_ok in H as (nx & Hn & [= -> <- ->]).
           destruct (driverAdvance compiled state m) eqn:Ed; [|done]. injection Hn as <-.
           split_and!; try done. exists [], s. cbn. rewrite app_nil_r. split_and!; try done; [lia|].
           econstructor; [done|constructor].
        -- intros (-> & -> & steps & last & _ & Hp & Hu & _ & Hl). cbn.
           destruct steps as [|s' steps]; inversion Hp; subst; rewrite He in *; simplify_eq.
           ++ match goal with H : pulls _ _ [] _ |- _ => inversion H; subst end. done.
           ++ cbn in Hu. unfold uneventful in Hu. naive_solver congruence.
      * rewrite IH. split; intros (-> & -> & steps & last & Hf & Hp & Hu & Hc' & Hl).
        -- split_and!; try done. exists (s :: steps), last. cbn.
           rewrite <- app_assoc in Hl. split_and!; try done; [lia|by econstructor].
        -- split_and!; try done. destruct steps as [|s' steps]; inversion Hp; subst;
             rewrite He in *; simplify_eq; [congruence|].
           exists steps, last. cbn in *. rewrite <- app_assoc. split_and!; try done; [lia|naive_solver].
    + cbn. rewrite He. split; [done|]. intros (_ & _ & steps & last & _ & Hp & _).
      destruct steps; inversion Hp; subst; congruence.
Qed.

(** An executor loop never ships: it advances, wedges, or fails. *)
Lemma executorLoop_not_shipped fuel exec floor compiled state m w o r w' :
  executorLoop fuel exec floor compiled state m w = Ok (OutcomeStep o r, w') -> o = Wedge.
Proof.
  revert floor w. induction fuel as [|fuel IH]; intros floor w; cbn; [done|].
  destruct (exec_next exec w) as [[s|] w1]; [|by intros [= <-]].
  destruct (observe floor (is_observation s)) as [fl a]. unfold evaluateCompletion; cbn.
  case_bool_decide; [by intros [= <-]|]. destruct (is_completionGuardHeld s); [|apply IH].
  intros Hx. by apply bind_ok in Hx as (nx & _ & [=]).
Qed.

(** ** Dispatch on the transition table *)
Lemma transitionOn_table fsm state event :
  flat_names_ok fsm = true -> validateFsm fsm = [] -> state ∈ fsm.(fsm_states) ->
  transitionOn fsm state event =
    let r := flat_reference fsm state event None in
    guard_throw r.(fr_transitioned)
      msg ("gate_dispatch: no '" +:+ event +:+ "' transition from '" +:+ state
             +:+ "' (compiler invariant violated)") ;;
    Ok r.(fr_next).
Proof.
  intros Hn Hv Hs. rewrite <- (stepFlat_table_eq fsm state event None Hn Hv Hs). done.
Qed.

(** The edges leaving [state] on [event]. *)
Definition leaves_on (state event : string) (t : Transition) : Prop :=
  (t.(tr_from) = ANY_STATE \/ t.(tr_from) = state) /\ t.(tr_on) = Some event.

(** Every event a state emits leaves that very state: some edge on it starts
    there, and no such edge is a self-loop. *)
Definition locally_routed (f : FsmV2) : Prop :=
  forall k s e, (k, s) ∈ f.(f2_states) -> e ∈ stateEmits s ->
    (exists t, t ∈ f.(f2_transitions) /\ leaves_on k e t) /\
    (forall t, t ∈ f.(f2_transitions) -> leaves_on k e t -> t.(tr_to) <> k).

Lemma flat_enabled_leaves state event t :
  flat_enabled state event None t = true <-> leaves_on state event t.
Proof.
  unfold flat_enabled, leaves_on, guard_holds.
  rewrite !andb_true_iff, orb_true_iff, bool_decide_eq_true, !String.eqb_eq.
  destruct (tr_when t); naive_solver.
Qed.

Lemma transitionOn_routed f k s e :
  flat_names_ok (engineFsm f) = true -> validateFsm (engineFsm f) = [] -> locally_routed f ->
  (k, s) ∈ f.(f2_states) -> e ∈ stateEmits s ->
  exists t, t ∈ f.(f2_transitions) /\ leaves_on k e t /\
    transitionOn (engineFsm f) k e = Ok t.(tr_to).
Proof.
  intros Hn Hv Hr Hk He. destruct (Hr k s e Hk He) as [(t & Ht & Hl) Hself].
  rewrite transitionOn_table; [|done|done|].
  - unfold flat_reference.
    destruct (list_find _ (fsm_transitions (engineFsm f))) as [[i t']|] eqn:Ef.
    + apply list_find_Some in Ef as (Hi & Hen & _). apply list_elem_of_lookup_2 in Hi.
      apply flat_enabled_leaves in Hen. exists t'. cbn.
      destruct (String.eqb_spec (tr_to t') k) as [E|E]; [|done].
      exfalso. by apply (Hself t').
    + rewrite list_find_None, Forall_forall in Ef. exfalso. apply (Ef t Ht).
      by apply flat_enabled_leaves.
  - cbn. unfold obj_keys. apply list_elem_of_fmap. by exists (k, s).
Qed.

Lemma throws_ok {A} (r : result string A) a : throws r = Ok a <-> r = Ok a.
Proof. destruct r; cbn; split; congruence. Qed.
Lemma throws_fuel {A} (r : result string A) : throws r <> Err OutOfFuel.
Proof. by destruct r. Qed.
Lemma bind_fuel {A B} (x : result DriverError A) (f : A -> result DriverError B) :
  x <> Err OutOfFuel -> (forall a, x = Ok a -> f a <> Err OutOfFuel) -> mbind f x <> Err OutOfFuel.
Proof. destruct x as [a|e]; cbn; [auto|congruence]. Qed.
Lemma reading_fuel {A} (r : result string A) (w : World) : reading r w <> Err OutOfFuel.
Proof. apply bind_fuel; [apply throws_fuel|done]. Qed.

(** ** Walks to a terminal *)
Inductive walks (stepf : string -> World -> result DriverError (DriverStep * World))
  : nat -> string -> World -> string -> World -> Prop :=
| walks_here cur w : walks stepf 0 cur w cur w
| walks_advance n cur w next notice w1 last w2 :
    stepf cur w = Ok (Advance next notice, w1) -> walks stepf n next w1 last w2 ->
    walks stepf (S n) cur w last w2.

Lemma walk_shipped (stepf : string -> World -> result DriverError (DriverStep * World)) n cur w w' :
  walk stepf n cur w = Ok (Shipped, w') <->
  exists k last w1 reason, k < n /\ walks stepf k cur w last w1 /\
    stepf last w1 = Ok (OutcomeStep Shipped reason, w').
Proof.
  revert cur w. induction n as [|n IH]; intros cur w; cbn [walk].
  - split; [done|]. intros (? & ? & ? & ? & ? & _). lia.
  - split.
    + intros H. apply bind_ok in H as ([d w1] & Hs & H). cbn in H. destruct d as [next nt| |o r].
      * apply IH in H as (k & last & w2 & r & Hk & Hw & Hl). exists (S k), last, w2, r.
        split_and!; [lia|by econstructor|done].
      * done.
      * injection H as -> ->. exists 0, cur, w, r. split_and!; [lia|constructor|done].
    + intros (k & last & w1 & r & Hk & Hw & Hl). destruct Hw as [|k ? ? next nt w2 ? ? Hs Hw].
      * by rewrite Hl.
      * rewrite Hs. cbn. apply IH. eexists k, _, _, r. split_and!; [lia|done..].
Qed.

Lemma walk_fuel (stepf : string -> World -> result DriverError (DriverStep * World)) n cur w :
  (forall s w, stepf s w <> Err OutOfFuel) -> walk stepf n cur w <> Err OutOfFuel.
Proof.
  intros Hs. revert cur w. induction n as [|n IH]; intros cur w; cbn [walk]; [done|].
  apply bind_fuel; [apply Hs|]. intros [[] ?] _; cbn; [apply IH|done..].
Qed.

Lemma evalBranches_advances fsm state bs w r :
  evalBranches fsm state bs w = Ok r -> exists next, r = Advance next None.
Proof.
  induction bs as [|[g e|e] bs IH]; cbn; [done| |].
  - destruct (guard_eval g w); [|done]. intros H. apply bind_ok in H as (n & _ & [= <-]). eauto.
  - intros H. apply bind_ok in H as (n & _ & [= <-]). eauto.
Qed.
Lemma evalGate_not_outcome fsm state m w o r : evalGate fsm state m w <> Ok (OutcomeStep o r).
Proof.
  unfold evalGate. intros H. destruct (guard_eval _ w).
  - by apply bind_ok in H as (n & _ & [=]).
  - destruct (of_action _); try done. by apply bind_ok in H as (n & _ & [=]).
Qed.

(** A step ships only at a terminal whose declared outcome is [shipped]. *)
Lemma driverStep_shipped fuel run flows compiled state w w' reason :
  driverStep fuel run flows compiled state w = Ok (OutcomeStep Shipped reason, w') <->
  reason = None /\ w = w' /\ exists m, obj_get state compiled.(cm_meta) = Some m /\
    m.(m_kind) = KTerminal /\ m.(m_outcome) = Some Shipped.
Proof.
  unfold driverStep. destruct (obj_get state (cm_meta compiled)) as [m|]; [|naive_solver].
  split.
  - destruct (m_kind m) eqn:Ek; intros H.
    + unfold runExecutor in H. apply bind_ok in H as ([ex w0] & _ & H).
      by apply executorLoop_not_shipped in H.
    + apply bind_ok in H as (d & Hd & [= -> ->]). apply throws_ok, bind_ok in Hd as (f & _ & Hd).
      by apply evalGate_not_outcome in Hd.
    + apply bind_ok in H as (d & Hd & [= -> ->]). apply throws_ok, bind_ok in Hd as (f & _ & Hd).
      by apply evalBranches_advances in Hd as [? ?].
    + unfold runSubFlow in H. destruct (obj_get _ _) as [child|]; [|done].
      apply bind_ok in H as ([[] w1] & _ & H); cbn in H; [|done].
      by apply bind_ok in H as (n & _ & [=]).
    + injection H as Ho <- <-. split_and!; try done. exists m. split_and!; try done.
      by destruct (m_outcome m) as [[]|].
  - intros (-> & -> & m' & [= <-] & -> & ->). done.
Qed.

(** ** Termination under nesting *)
Lemma executorLoop_fuel fuel exec floor compiled state m w :
  (forall l w', pulls exec w l w' -> length l < fuel) ->
  executorLoop fuel exec floor compiled state m w <> Err OutOfFuel.
Proof.
  revert floor w. induction fuel as [|fuel IH]; intros floor w Hb.
  - specialize (Hb [] w (pulls_nil exec w)). cbn in Hb. lia.
  - cbn [executorLoop]. destruct (exec_next exec w) as [[s|] w1] eqn:He; [|done].
    destruct (observe floor (is_observation s)) as [fl a]. unfold evaluateCompletion; cbn.
    case_bool_decide; [done|]. destruct (is_completionGuardHeld s).
    + apply bind_fuel; [apply throws_fuel|done].
    + apply IH. intros l w' Hp. apply (pulls_cons _ _ _ _ _ _ He) in Hp. apply Hb in Hp.
      cbn in Hp. lia.
Qed.

(** Every executor gives up after fewer than [fuel] steps. *)
Definition executors_bounded (fuel : nat) : Prop :=
  forall exec w l w', pulls exec w l w' -> length l < fuel.
(** [rank] decreases along every sub-flow reference of a registered machine. *)
Definition subflows_below (rank : string -> nat) (bound : nat) (c : CompiledMachine) : Prop :=
  forall k m, obj_get k c.(cm_meta) = Some m -> m.(m_kind) = KSubFlow ->
    rank (default "" m.(m_flow)) < bound.
Definition acyclic_flows (rank : string -> nat) (flows : list (string * CompiledMachine)) : Prop :=
  forall name child, obj_get name flows = Some child -> subflows_below rank (rank name) child.

Lemma runToTerminal_fuel depth fuel flows rank compiled w :
  executors_bounded fuel -> acyclic_flows rank flows -> subflows_below rank depth compiled ->
  runToTerminal (S depth) fuel (Some flows) compiled w <> Err OutOfFuel.
Proof.
  intros Hex Hac. revert compiled w. induction depth as [depth IH] using lt_wf_ind.
  intros compiled w Hsub. cbn [runToTerminal]. apply bind_fuel; [apply throws_fuel|].
  intros fsm _. apply walk_fuel. clear w. intros st w. unfold driverStep.
  destruct (obj_get st (cm_meta compiled)) as [m|] eqn:Em; [|done].
  destruct (m_kind m) eqn:Ek; try apply reading_fuel; [| |done].
  - apply bind_fuel; [apply throws_fuel|]. intros [ex w0] _. apply executorLoop_fuel.
    intros l w'. apply Hex.
  - unfold runSubFlow. change (default [] (Some flows)) with flows.
    destruct (obj_get (default "" (m_flow m)) flows) as [child|] eqn:Ec; [|done].
    pose proof (Hsub st m Em Ek) as Hr. apply bind_fuel.
    + destruct depth as [|depth]; [lia|]. apply IH; [lia|].
      intros k m' Hm' Hk'. pose proof (Hac _ _ Ec) as Hb. specialize (Hb k m' Hm' Hk'). cbn in *. lia.
    + intros [[] w1] _; cbn; [|done]. apply bind_fuel; [apply throws_fuel|done].
Qed.
End Properties.

Definition ok_value {E A} (r : result E A) : option A :=
  match r with Ok a => Some a | Err _ => None end.
(** A driver step as the transition evaluation reports it. *)
Definition transition_of (d : DriverStep) : TransitionResult :=
  match d with
  | Advance next notice => advancing next notice
  | ActionStep a message => {| tres_next := None; tres_action := Some (a, message); tres_notice := None |}
  | OutcomeStep _ _ => {| tres_next := None; tres_action := None; tres_notice := None |}
  end.

Section Dispatch.
Context {World Executor : Type} `{Env : Environment World Executor}.

Lemma exe_stepTo_agrees compiled state event :
  ok_value (exe_stepTo compiled state event) =
  ok_value (fsm <-? driverFsm compiled ;; transitionOn fsm state event).
Proof. unfold exe_stepTo, driverFsm, transitionOn. destruct (cm_fsm compiled); [|done]. cbn. by case_match. Qed.

Lemma exe_branches_agrees fsm compiled state bs w :
  compiled.(cm_fsm) = Some fsm ->
  ok_value (exe_branches compiled state bs w) = transition_of <$> ok_value (evalBranches fsm state bs w).
Proof.
  intros Hf. pose proof (exe_stepTo_agrees compiled state) as Hs. unfold driverFsm in Hs. rewrite Hf in Hs.
  induction bs as [|[g e|e] bs IH]; cbn; [done| |].
  - destruct (guard_eval g w); [|done]. specialize (Hs e). cbn in Hs.
    destruct (exe_stepTo _ _ _), (transitionOn _ _ _); cbn in *; congruence.
  - specialize (Hs e). cbn in Hs. destruct (exe_stepTo _ _ _), (transitionOn _ _ _); cbn in *; congruence.
Qed.

Lemma exe_gate_agrees fsm compiled state m e w :
  compiled.(cm_fsm) = Some fsm -> obj_get state compiled.(cm_meta) = Some m -> m.(m_kind) = KGate ->
  ok_value (evaluateTransition compiled state e w) = transition_of <$> ok_value (evalGate fsm state m w).
Proof.
  intros Hf Hm Hk. unfold evaluateTransition, evalGate, advanceFrom, emitOf. rewrite Hm, Hk.
  pose proof (exe_stepTo_agrees compiled state) as Hs. unfold driverFsm in Hs. rewrite Hf in Hs.
  destruct (guard_eval _ w), (m_emits m) as [ev|]; try specialize (Hs ev); cbn in *; try done.
  - destruct (exe_stepTo _ _ _), (transitionOn _ _ _); cbn in *; congruence.
  - destruct (of_action _); cbn; try done.
    destruct (exe_stepTo _ _ _), (transitionOn _ _ _); cbn in *; congruence.
  - by destruct (of_action _).
Qed.

(** The branch a decision takes: the first whose guard holds, or the [else]. *)
Definition branch_taken (w : World) (b : DecisionBranch) : bool :=
  match b with BGuard g _ => guard_eval g w | BElse _ => true end.
Lemma evalBranches_first fsm state bs w :
  evalBranches fsm state bs w =
  match List.find (branch_taken w) bs with
  | Some b => next <-? transitionOn fsm state (branch_emits b) ;; Ok (Advance next None)
  | None => Err "gate_dispatch: decision state had no matching branch and no else (totality violated)"
  end.
Proof. induction bs as [|[g e|e] bs IH]; cbn; [done| |done]. by destruct (guard_eval g w). Qed.

Lemma stateTotal_taken bs w : stateTotal (DecisionS bs) = true -> is_Some (List.find (branch_taken w) bs).
Proof.
  cbn. intros [Hl%Nat.eqb_eq _]%andb_true_iff.
  destruct (List.find (branch_taken w) bs) as [b|] eqn:Ef; [by eexists|]. exfalso.
  assert (List.filter is_else bs = []) as H0; [|by rewrite H0 in Hl].
  destruct (List.filter is_else bs) as [|b l] eqn:El; [done|]. exfalso.
  assert (In b (List.filter is_else bs)) as [Hin He]%filter_In by (rewrite El; by left).
  eapply List.find_none in Ef; [|exact Hin]. by destruct b.
Qed.

(** Dispatch of a pack state: what each kind does on the world [w]. *)
Definition dispatch_spec (f : FsmV2) (k : string) (s : StateV2) (w : World) (d : DriverStep) : Prop :=
  match s with
  | GateS g =>
      if guard_eval g.(g_guard) w || bool_decide (g.(g_on_fail).(of_action) = FWarn)
      then exists t, t ∈ f.(f2_transitions) /\ leaves_on k g.(g_on_pass_emits) t /\
             d = Advance t.(tr_to) (if guard_eval g.(g_guard) w then None
                                    else Some g.(g_on_fail).(of_message))
      else d = ActionStep g.(g_on_fail).(of_action) g.(g_on_fail).(of_message)
  | DecisionS bs =>
      exists b t, List.find (branch_taken w) bs = Some b /\ t ∈ f.(f2_transitions) /\
        leaves_on k (branch_emits b) t /\ d = Advance t.(tr_to) None
  | TerminalS o => d = OutcomeStep o None
  | _ => True
  end.
End Dispatch.

(** ** Properties *)
Section Claims.
Context {World Executor : Type} `{Env : Environment World Executor}.

(** An executor state advances exactly when its completion guard was
    observed to hold: after a pull history in which no step held the guard and
    no call tripped the progress floor, one last step holds it without
    tripping the floor, and the state's named event is routed.  Exhaustion, a
    tripped floor and a claim without the guard never advance it. *)
Lemma executor_advances_iff_guard_held (fuel : nat) (compiled : CompiledMachine)
    (state : string) (m : StateMeta) (w : World) (next : string) (notice : option string) (w' : World) :
  runExecutor fuel compiled state m w = Ok (Advance next notice, w') <->
  notice = None /\ driverAdvance compiled state m = Ok next /\
  exists exec w0 steps last,
    ensureExecutor (default state m.(m_executor)) w = Ok (exec, w0) /\
    length steps < fuel /\ pulls exec w0 (steps ++ [last]) w' /\ all_uneventful [] steps /\
    last.(is_completionGuardHeld) = true /\
    action_spec (is_observation <$> steps) last.(is_observation) <> AHalt.
Proof.
  unfold runExecutor. split.
  - intros H. apply bind_ok in H as ([exec w0] & He%throws_ok & H).
    change newFloor with (observe_all newFloor []) in H. apply executorLoop_advance in H. naive_solver.
  - intros (-> & Hd & exec & w0 & steps & last & -> & Hrest). cbn.
    change newFloor with (observe_all newFloor []). apply executorLoop_advance. naive_solver.
Qed.

(** A machine ships exactly when its walk of advances reaches, in fewer
    than the cap of 10,000 steps, a terminal state that declares [shipped];
    every other end of a run (a blocking gate, a wedged sub-flow, an exhausted
    executor, the cap) is a wedge. *)
Lemma ships_iff_walk_reaches_shipped (depth fuel : nat)
    (flows : option (list (string * CompiledMachine))) (compiled : CompiledMachine) (w w' : World) :
  runToTerminal (S depth) fuel flows compiled w = Ok (Shipped, w') <->
  exists fsm k last m,
    compiled.(cm_fsm) = Some fsm /\ k < STEP_CAP /\
    walks (driverStep fuel (runToTerminal depth fuel flows) flows compiled) k
      fsm.(fsm_initial) w last w' /\
    obj_get last compiled.(cm_meta) = Some m /\ m.(m_kind) = KTerminal /\
    m.(m_outcome) = Some Shipped.
Proof.
  cbn [runToTerminal]. split.
  - intros H. apply bind_ok in H as (fsm & Hf%throws_ok & H).
    apply walk_shipped in H as (k & last & w1 & r & Hk & Hw & Hl).
    apply driverStep_shipped in Hl as (-> & -> & m & Hm & Hkd & Ho).
    unfold driverFsm in Hf. destruct (cm_fsm compiled); [|done]. injection Hf as ->. eauto 10.
  - intros (fsm & k & last & m & Hf & Hk & Hw & Hm & Hkd & Ho).
    unfold driverFsm. rewrite Hf. cbn. apply walk_shipped.
    exists k, last, w', None. split_and!; [done..|]. apply driverStep_shipped. eauto 10.
Qed.

(** C31: with executors that give up after boundedly many steps and sub-flow
    references that descend (no flow nests itself, directly or through
    others), a run ends: nesting deeper than the descent is never needed. *)
Theorem descending_flows_terminate (depth fuel : nat) (flows : list (string * CompiledMachine))
    (rank : string -> nat) (compiled : CompiledMachine) (w : World) :
  executors_bounded fuel -> acyclic_flows rank flows -> subflows_below rank depth compiled ->
  runToTerminal (S depth) fuel (Some flows) compiled w <> Err OutOfFuel.
Proof. apply runToTerminal_fuel. Qed.

(** Dispatch of a compiled pack is total where its emitted events leave
    the emitting state: a gate whose guard holds, or whose failure only warns,
    advances along an authored edge on its pass event and otherwise yields its
    own block or halt; a decision advances along an edge on the event of its
    first matching branch; a terminal yields its outcome; nothing throws. *)
Lemma compiled_dispatch_total (pack : PackV2) (f : FsmV2) (c : CompiledPack) (k : string)
    (s : StateV2) (fuel : nat) (run : CompiledMachine -> World -> result DriverError (Outcome * World))
    (w : World) :
  pack_keys_ok pack -> pack.(pk_fsm) = Some f -> compilePackV2 pack = Ok c ->
  flat_names_ok (engineFsm f) = true -> locally_routed f ->
  (k, s) ∈ f.(f2_states) -> stateTotal s = true ->
  kind_of s = KGate \/ kind_of s = KDecision \/ kind_of s = KTerminal ->
  exists d, driverStep fuel run c.(cp_flows) c.(cp_machine) k w = Ok (d, w) /\
            dispatch_spec f k s w d.
Proof.
  intros Hk Hf Hc Hn Hr Hin Ht Hkind.
  destruct (compilePackV2_machine _ _ _ Hk Hf Hc) as [Hm _].
  pose proof (transitionOn_routed f k s) as Hto. pose proof (ms_valid _ _ _ _ Hm) as Hv.
  assert (NoDup (obj_keys f.(f2_states))) as Hnd.
  { unfold pack_keys_ok in Hk. rewrite Hf in Hk. by apply Forall_cons in Hk as [? _]. }
  unfold driverStep. rewrite (ms_meta _ _ _ _ Hm), (elem_obj_get _ _ _ Hnd Hin). cbn [fmap option_fmap option_map].
  rewrite stateMeta_kind. unfold driverFsm. rewrite (ms_fsm _ _ _ _ Hm).
  destruct s as [| g | bs | |o]; cbn in Hkind |- *; try (by destruct_or? Hkind).
  - unfold evalGate, advanceFrom, emitOf. cbn.
    destruct (Hto (g_on_pass_emits g) Hn Hv Hr Hin ltac:(by left)) as (t & Ht1 & Ht2 & Ht3).
    rewrite Ht3. destruct (guard_eval (g_guard g) w); cbn; [eauto 10|].
    destruct (of_action (g_on_fail g)); cbn; eexists; (split; [reflexivity|]);
      case_bool_decide; try done; eauto 10.
  - unfold evalDecision. cbn. rewrite evalBranches_first.
    destruct (stateTotal_taken bs w Ht) as [b Hb]. rewrite Hb.
    destruct (Hto (branch_emits b) Hn Hv Hr Hin) as (t & Ht1 & Ht2 & Ht3).
    { cbn. apply List.find_some in Hb as [Hb _]. apply list_elem_of_fmap. exists b.
      by rewrite list_elem_of_In. }
    rewrite Ht3. cbn. eauto 10.
  - eauto.
Qed.

(** The per-event evaluation of a gate or a decision decides as the driver
    does: both advance to the same state with the same notice, yield the same
    block or halt, or both throw. *)
Lemma evaluateTransition_agrees_with_driver (fuel : nat)
    (run : CompiledMachine -> World -> result DriverError (Outcome * World))
    (flows : option (list (string * CompiledMachine))) (compiled : CompiledMachine)
    (state event : string) (m : StateMeta) (w : World) :
  obj_get state compiled.(cm_meta) = Some m -> m.(m_kind) = KGate \/ m.(m_kind) = KDecision ->
  is_Some compiled.(cm_fsm) ->
  ok_value (evaluateTransition compiled state event w) =
  (fun dw => transition_of dw.1) <$> ok_value (driverStep fuel run flows compiled state w).
Proof.
  intros Hm Hk [fsm Hf]. unfold driverStep, driverFsm. rewrite Hm, Hf. destruct Hk as [Hk|Hk]; rewrite Hk.
  - rewrite (exe_gate_agrees fsm compiled state m event w Hf Hm Hk). cbn. by destruct (evalGate _ _ _ _).
  - unfold evaluateTransition, evalDecision. rewrite Hm, Hk, (exe_branches_agrees fsm) by done.
    cbn. by destruct (evalBranches _ _ _ _).
Qed.

(** A region's evaluation that does not block. *)
Definition passes (event : string) (w : World) (r : Region) (res : TransitionResult) : Prop :=
  evaluateTransition r.(rg_compiled) r.(rg_state) event w = Ok res /\ res.(tres_action) = None.
Definition accumulated (regions : list Region) (results : list TransitionResult) : list RegionAdvance :=
  concat (zip_with regionAdvance regions results).

Lemma arbitrate_from_spec acc regions event w a :
  arbitrate_from acc regions event w = Ok a <->
  (exists results, Forall2 (passes event w) regions results /\
     a = {| arb_blocked := None; arb_advances := acc ++ accumulated regions results |}) \/
  (exists before r after results res action,
     regions = before ++ r :: after /\ Forall2 (passes event w) before results /\
     evaluateTransition r.(rg_compiled) r.(rg_state) event w = Ok res /\
     res.(tres_action) = Some action /\
     a = {| arb_blocked := Some action; arb_advances := acc ++ accumulated before results |}).
Proof.
  revert acc. induction regions as [|r regions IH]; intros acc; cbn [arbitrate_from].
  - split.
    + intros [= <-]. left. exists []. unfold accumulated. cbn. by rewrite app_nil_r.
    + intros [(res & Hf & ->)|(b & r & l & ? & ? & ? & He & _)]; [|by destruct b].
      inversion Hf; subst. unfold accumulated. cbn. by rewrite app_nil_r.
  - split.
    + intros H. apply bind_ok in H as (res & Hr & H). destruct (tres_action res) as [act|] eqn:Ea.
      * injection H as <-. right. exists [], r, regions, [], res, act. unfold accumulated. cbn.
        by rewrite app_nil_r.
      * apply IH in H as [(results & Hf & ->)|(b & r' & l & results & res' & act & -> & Hf & Hr' & Ha & ->)].
        -- left. exists (res :: results). unfold accumulated. cbn. rewrite <- app_assoc.
           split; [by constructor|done].
        -- right. exists (r :: b), r', l, (res :: results), res', act. unfold accumulated. cbn.
           rewrite <- app_assoc. split_and!; try done. by constructor.
    + intros [(results & Hf & ->)|(b & r' & l & results & res' & act & He & Hf & Hr' & Ha & ->)].
      * inversion Hf as [|? res ? results' [Hr Hn] Hf' ]; subst. rewrite Hr. cbn. rewrite Hn.
        apply IH. left. exists results'. unfold accumulated. cbn. by rewrite <- app_assoc.
      * destruct b as [|r0 b]; cbn in He; injection He as -> ->.
        -- inversion Hf; subst. rewrite Hr'. cbn. rewrite Ha. unfold accumulated. cbn. by rewrite app_nil_r.
        -- inversion Hf as [|? res ? results' [Hr Hn] Hf' ]; subst. rewrite Hr. cbn. rewrite Hn.
           apply IH. right. exists b, r', l, results', res', act. unfold accumulated. cbn.
           by rewrite <- app_assoc.
Qed.

(** Arbitration is first-blocking-wins in declared order: either no
    region blocks and every advance is kept in order, or the outcome is the
    first blocking region's action with the advances of the regions before it,
    and the regions after it are not evaluated. *)
Lemma arbitrate_first_blocking_wins (regions : list Region) (event : string) (w : World)
    (a : Arbitration) :
  arbitrate regions event w = Ok a <->
  (exists results, Forall2 (passes event w) regions results /\
     a = {| arb_blocked := None; arb_advances := accumulated regions results |}) \/
  (exists before r after results res action,
     regions = before ++ r :: after /\ Forall2 (passes event w) before results /\
     evaluateTransition r.(rg_compiled) r.(rg_state) event w = Ok res /\
     res.(tres_action) = Some action /\
     a = {| arb_blocked := Some action; arb_advances := accumulated before results |}).
Proof. exact (arbitrate_from_spec [] regions event w a). Qed.
End Claims.

(** A failing step fails the walk, a failing child its sub-flow state. *)
Lemma walk_err {World} (stepf : string -> World -> result DriverError (DriverStep * World)) n cur w e :
  0 < n -> stepf cur w = Err e -> walk stepf n cur w = Err e.
Proof. intros Hn He. destruct n; [lia|]. cbn. by rewrite He. Qed.
Lemma driverStep_subflow_err `{Environment World Executor} fuel
    (run : CompiledMachine -> World -> result DriverError (Outcome * World)) flows compiled state w
    m child e :
  obj_get state compiled.(cm_meta) = Some m -> m.(m_kind) = KSubFlow ->
  obj_get (default "" m.(m_flow)) (default [] flows) = Some child -> run child w = Err e ->
  driverStep fuel run flows compiled state w = Err e.
Proof. intros Hm Hk Hc He. unfold driverStep, runSubFlow. by rewrite Hm, Hk, Hc, He. Qed.

(** ** Concrete environments *)

(** Every executor connects and completes on its first step; every guard
    holds. *)
Definition done_step : InnerStep :=
  {| is_observation := {| o_tool := "edit"; o_argsHash := "h"; o_failed := false;
                          o_idempotentSameResult := false |};
     is_completionGuardHeld := true |}.
#[export] Instance done_env : Environment bool unit := {|
  ensureExecutor _ w := Ok (tt, w);
  exec_next _ (w : bool) := (if w then Some done_step else None, false);
  guard_eval _ _ := true;
|}.
(** One executor repeats the same read forever. *)
Definition same_read : InnerStep :=
  {| is_observation := {| o_tool := "read"; o_argsHash := "h"; o_failed := false;
                          o_idempotentSameResult := true |};
     is_completionGuardHeld := false |}.
Definition reading_env : Environment unit unit := {|
  ensureExecutor _ w := Ok (tt, w);
  exec_next _ w := (Some same_read, w);
  guard_eval _ _ := true;
|}.

Lemma same_read_no_failure k :
  existsb (fails_args "h") (List.repeat same_read.(is_observation) k) = false.
Proof. by induction k. Qed.
Lemma same_read_repeats k : number (repeats "h") (List.repeat same_read.(is_observation) k) = k.
Proof. unfold number. induction k as [|k IH]; [done|]. cbn in *. by rewrite IH. Qed.

Lemma done_env_bounded : executors_bounded (Env := done_env) 2.
Proof.
  intros exec w l w' H. destruct H as [|w s w1 l w2 He H]; [cbn; lia|].
  cbn in He. destruct w; [|done]. injection He as <- <-.
  inversion H as [|? ? ? ? ? He' H']; subst; [cbn; lia|done].
Qed.

(** A gate whose pass event is routed, but from another state only. *)
Definition misrouted : FsmV2 :=
  {| f2_initial := "a";
     f2_states := [("a", GateS demo_gate); ("b", GateS demo_gate); ("ok", TerminalS Shipped)];
     f2_transitions := [edge "a" "fit" "b"] |}.
(** A flow that nests itself. *)
Definition looping : FsmV2 :=
  {| f2_initial := "again"; f2_states := [("again", SubFlowS "loop" "back"); ("ok", TerminalS Shipped)];
     f2_transitions := [edge "again" "back" "ok"] |}.
Definition pack_of (f : FsmV2) (flows : option (list (string * FsmV2))) : PackV2 :=
  {| pk_name := "p"; pk_serves := false; pk_fsm := Some f; pk_automation := None;
     pk_reactions := None; pk_flows := flows; pk_guards := [("fits", "true")] |}.
Definition compiled_of (f : FsmV2) : CompiledMachine :=
  match compileMachine "p" [("fits", "true")] (Some f) None None with
  | Ok c => c
  | Err _ => {| cm_fsm := None; cm_meta := []; cm_automation := None;
                cm_reactions := None; cm_guardExprs := None |}
  end.

(** Compilation checks that an emitted event is routed from some state,
    not from the state that emits it: a schema-clean pack compiles whose gate,
    passing, throws the error the code calls impossible. *)
Lemma compile_accepts_misrouted_gate :
  packIssues (pack_of misrouted None) = [] /\
  compilePackV2 (pack_of misrouted None)
    = Ok {| cp_machine := compiled_of misrouted; cp_flows := None |} /\
  driverStep 1 (fun _ w => Ok (Wedge, w)) None (compiled_of misrouted) "b" true =
    Err (Thrown "gate_dispatch: no 'fit' transition from 'b' (compiler invariant violated)").
Proof. by vm_compute. Qed.

(** The sub-flow sweep checks that a reference resolves, not that nesting
    is finite: a pack whose flow nests itself compiles, and its run exhausts
    every nesting depth; the cap on steps does not bound it. *)
Lemma self_nesting_flow_never_ends :
  compilePackV2 (pack_of looping (Some [("loop", looping)]))
    = Ok {| cp_machine := compiled_of looping; cp_flows := Some [("loop", compiled_of looping)] |} /\
  forall depth fuel w,
    runToTerminal depth fuel (Some [("loop", compiled_of looping)]) (compiled_of looping) w
      = Err OutOfFuel.
Proof.
  split; [by vm_compute|]. intros depth fuel. induction depth as [|depth IH]; intros w; [done|].
  cbn [runToTerminal].
  change (driverFsm (compiled_of looping)) with (@Ok string _ (engineFsm looping)).
  change (fsm <-? throws (Ok (engineFsm looping)) ;;
          walk (driverStep fuel (runToTerminal depth fuel (Some [("loop", compiled_of looping)]))
                  (Some [("loop", compiled_of looping)]) (compiled_of looping)) STEP_CAP fsm.(fsm_initial) w)
    with (walk (driverStep fuel (runToTerminal depth fuel (Some [("loop", compiled_of looping)]))
                  (Some [("loop", compiled_of looping)]) (compiled_of looping)) STEP_CAP "again" w).
  apply walk_err; [unfold STEP_CAP; lia|].
  eapply (driverStep_subflow_err _ _ _ _ _ _ (stateMeta false (SubFlowS "loop" "back")));
    [reflexivity|reflexivity|reflexivity|apply IH].
Qed.

(** The floor's [block] does not stop the executor loop: an executor that
    repeats one read forever is blocked by the floor from the fifth call on,
    yet the loop takes every number of steps without ending. *)
Lemma blocked_read_loop_never_ends (n : nat) :
  (observe (observe_all newFloor (List.repeat same_read.(is_observation) (4 + n)))
     same_read.(is_observation)).2 = ABlock /\
  runExecutor (Env := reading_env) n (compiled_of misrouted) "a" (blankMeta KExecutor false) tt
    = Err OutOfFuel.
Proof.
  split.
  - rewrite observe_action. unfold action_spec. cbn [o_failed o_idempotentSameResult o_argsHash same_read is_observation].
    rewrite since_failure_none by apply same_read_no_failure. rewrite same_read_repeats.
    by rewrite decide_True by lia.
  - unfold runExecutor. cbn. generalize newFloor. induction n as [|n IH]; intros floor; [done|].
    cbn [executorLoop]. cbn [exec_next reading_env].
    destruct (observe floor (is_observation same_read)) as [fl a] eqn:Eo.
    assert (a <> AHalt) as Ha.
    { unfold observe in Eo. cbn in Eo. injection Eo as _ <-. by repeat case_match. }
    unfold evaluateCompletion; cbn. rewrite bool_decide_false by done. apply IH.
Qed.

(** ** Witnesses *)
Lemma leaf_flows_acyclic rank flows :
  Forall (fun nc => Forall (fun km => km.2.(m_kind) <> KSubFlow) nc.2.(cm_meta)) flows ->
  acyclic_flows rank flows.
Proof.
  rewrite Forall_forall. intros H name child Hc%obj_get_elem k m Hm%obj_get_elem Hk. exfalso.
  specialize (H _ Hc). cbn in H. rewrite Forall_forall in H. by apply (H _ Hm).
Qed.

Lemma descending_flows_terminate_witness :
  runToTerminal 2 2 demo_compiled.(cp_flows) demo_compiled.(cp_machine) true <> Err OutOfFuel.
Proof.
  destruct demo_compiled.(cp_flows) as [flows|] eqn:Ef; [|by vm_compute in Ef].
  apply (descending_flows_terminate 1 2 flows (fun _ => 0)).
  - apply done_env_bounded.
  - apply leaf_flows_acyclic. vm_compute in Ef. injection Ef as <-.
    apply (bool_decide_unpack _). vm_compute. exact I.
  - intros k m _ _. lia.
Defined.

Definition locally_routedb (f : FsmV2) : bool :=
  forallb (fun ks => forallb (fun e =>
    existsb (flat_enabled ks.1 e None) f.(f2_transitions) &&
    forallb (fun t => negb (flat_enabled ks.1 e None t) || negb (t.(tr_to) =? ks.1)%string)
      f.(f2_transitions)) (stateEmits ks.2)) f.(f2_states).
Lemma locally_routedb_ok f : locally_routedb f = true -> locally_routed f.
Proof.
  unfold locally_routedb. rewrite forallb_forall. intros H k s e Hin%list_elem_of_In He%list_elem_of_In.
  specialize (H _ Hin). rewrite forallb_forall in H. specialize (H _ He). reflect_bools. split.
  - match goal with H : existsb _ _ = true |- _ => apply existsb_exists in H as (t & Ht & Hen) end.
    exists t. by rewrite <- flat_enabled_leaves, list_elem_of_In.
  - intros t Ht%list_elem_of_In Hl%flat_enabled_leaves.
    match goal with H : forallb _ _ = true |- _ => rewrite forallb_forall in H; specialize (H _ Ht) end.
    cbn in *. rewrite Hl in *. cbn in *. by reflect_bools.
Qed.
Lemma demo_locally_routed : locally_routed demo_parent.
Proof. by apply locally_routedb_ok. Qed.

Lemma compiled_dispatch_total_witness :
  exists d, driverStep 1 (fun _ w => Ok (Wedge, w)) demo_compiled.(cp_flows)
    demo_compiled.(cp_machine) "route" true = Ok (d, true).
Proof.
  destruct (compiled_dispatch_total demo_pack demo_parent demo_compiled "route"
    (DecisionS [BGuard "tests" "ship"; BElse "redo"]) 1 (fun _ w => Ok (Wedge, w)) true
    demo_keys_ok eq_refl ltac:(vm_compute; reflexivity) ltac:(vm_compute; reflexivity)
    demo_locally_routed ltac:(cbn; set_solver) eq_refl ltac:(right; left; reflexivity)) as (d & Hd & _).
  by exists d.
Defined.

Lemma evaluateTransition_agrees_with_driver_witness :
  exists m, obj_get "entry" demo_compiled.(cp_machine).(cm_meta) = Some m /\
  ok_value (evaluateTransition demo_compiled.(cp_machine) "entry" "x" true) =
  (fun dw => transition_of dw.1) <$>
    ok_value (driverStep 1 (fun _ w => Ok (Wedge, w)) None demo_compiled.(cp_machine) "entry" true).
Proof.
  destruct (obj_get "entry" demo_compiled.(cp_machine).(cm_meta)) as [m|] eqn:Em; [|by vm_compute in Em].
  exists m. split; [done|].
  apply (evaluateTransition_agrees_with_driver 1 (fun _ w => Ok (Wedge, w)) None _ "entry" "x" m true Em).
  - left. vm_compute in Em. by injection Em as <-.
  - eexists; vm_compute; reflexivity.
Defined.
