(* ===== verification/Json.v ===== *)
(** * JSON values and the canonical encoding ([src/src/workgraph/events.ts], [canonicalJson])

    Strings are byte strings; numbers are the integral ones, for which
    [JSON.stringify] prints the decimal digits.  [stringify] is
    [JSON.stringify] without indentation, [canonicalJson] the key-sorted
    encoding that operation ids hash.  Both are uniquely readable. *)

From Stdlib Require Import Ascii String Sorted Permutation.
From stdpp Require Import base option list strings pretty.
From S2P Require Import Prelude.

Inductive Json :=
| JNull
| JBool (b : bool)
| JNum (n : Z)
| JStr (s : string)
| JArr (l : list Json)
| JObj (o : list (string * Json)).

Section JsonInd.
Context (P : Json -> Prop)
  (Hnull : P JNull) (Hbool : forall b, P (JBool b)) (Hnum : forall n, P (JNum n))
  (Hstr : forall s, P (JStr s)) (Harr : forall l, Forall P l -> P (JArr l))
  (Hobj : forall o, Forall (fun kv => P kv.2) o -> P (JObj o)).
Fixpoint Json_nested_ind (v : Json) : P v :=
  match v with
  | JNull => Hnull | JBool b => Hbool b | JNum n => Hnum n | JStr s => Hstr s
  | JArr l => Harr l ((fix go l : Forall P l :=
      match l with [] => @List.Forall_nil _ P | x :: l' => @List.Forall_cons _ P x l' (Json_nested_ind x) (go l') end) l)
  | JObj o => Hobj o ((fix go o : Forall (fun kv : string * Json => P kv.2) o :=
      match o with
      | [] => @List.Forall_nil _ (fun kv : string * Json => P kv.2)
      | kv :: o' => @List.Forall_cons _ (fun kv : string * Json => P kv.2) kv o' (Json_nested_ind kv.2) (go o')
      end) o)
  end.
End JsonInd.

(** ** [JSON.stringify] *)
Definition QUOTE : ascii := "034"%char.
(** The name between double quotes, without escapes. *)
Definition quoted (name : string) : string := String QUOTE (name +:+ String QUOTE "").
Definition hex_digit (n : nat) : ascii :=
  match String.get n "0123456789abcdef" with Some c => c | None => "0"%char end.
Definition escape (c : ascii) : string :=
  let n := nat_of_ascii c in
  if (n =? 34)%nat then String "\" (String QUOTE "")
  else if (n =? 92)%nat then "\\"
  else if (n =? 8)%nat then "\b"
  else if (n =? 12)%nat then "\f"
  else if (n =? 10)%nat then "\n"
  else if (n =? 13)%nat then "\r"
  else if (n =? 9)%nat then "\t"
  else if (n <? 32)%nat then "\u00" +:+ String (hex_digit (n / 16)) (String (hex_digit (n mod 16)) "")
  else String c "".
Fixpoint escapes (s : string) : string :=
  match s with EmptyString => "" | String c s' => escape c +:+ escapes s' end.
Definition quoteJson (s : string) : string := String QUOTE (escapes s +:+ String QUOTE "").

Definition field (kv : string * string) : string := quoteJson kv.1 +:+ ":" +:+ kv.2.
Definition printArr (l : list string) : string := "[" +:+ join_with "," l +:+ "]".
Definition printObj (o : list (string * string)) : string :=
  "{" +:+ join_with "," (List.map field o) +:+ "}".

Fixpoint stringify (v : Json) : string :=
  match v with
  | JNull => "null"
  | JBool b => if b then "true" else "false"
  | JNum n => pretty n
  | JStr s => quoteJson s
  | JArr l => printArr (List.map stringify l)
  | JObj o => printObj (List.map (fun kv => (kv.1, stringify kv.2)) o)
  end.

(** ** [canonicalJson]: keys sorted at every level *)
Definition key_le {A} (x y : string * A) : bool := String.leb x.1 y.1.

Fixpoint canonicalJson (v : Json) : string :=
  match v with
  | JArr l => printArr (List.map canonicalJson l)
  | JObj o => printObj (stable_sort key_le (List.map (fun kv => (kv.1, canonicalJson kv.2)) o))
  | _ => stringify v
  end.

(** The value with the keys of every object sorted. *)
Fixpoint norm (v : Json) : Json :=
  match v with
  | JArr l => JArr (List.map norm l)
  | JObj o => JObj (stable_sort key_le (List.map (fun kv => (kv.1, norm kv.2)) o))
  | _ => v
  end.

(** ** Key order *)
Lemma string_compare_trans a b c :
  String.compare a b <> Gt -> String.compare b c <> Gt -> String.compare a c <> Gt.
Proof.
  revert b c. induction a as [|x a IH]; intros [|y b] [|z c]; cbn; try done.
  unfold Ascii.compare.
  destruct (N.compare_spec (N_of_ascii x) (N_of_ascii y)) as [E|E|E];
    destruct (N.compare_spec (N_of_ascii y) (N_of_ascii z)) as [F|F|F];
    destruct (N.compare_spec (N_of_ascii x) (N_of_ascii z)) as [G|G|G];
    try done; try lia; try apply IH.
Qed.
Lemma leb_gt a b : String.leb a b = true <-> String.compare a b <> Gt.
Proof. unfold String.leb. by destruct (String.compare a b). Qed.
Lemma leb_trans a b c :
  String.leb a b = true -> String.leb b c = true -> String.leb a c = true.
Proof. rewrite !leb_gt. apply string_compare_trans. Qed.
Lemma leb_total a b : String.leb a b = false -> String.leb b a = true.
Proof. destruct (String.leb_total a b); congruence. Qed.

Lemma sort_insert_map {A B} (f : A -> B) x (l : list (string * A)) :
  sort_insert key_le (x.1, f x.2) (List.map (fun kv => (kv.1, f kv.2)) l) =
  List.map (fun kv => (kv.1, f kv.2)) (sort_insert key_le x l).
Proof. induction l as [|y l IH]; cbn; [done|]. unfold key_le at 1 3; cbn. case_match; cbn; congruence. Qed.
Lemma stable_sort_map {A B} (f : A -> B) (l : list (string * A)) :
  stable_sort key_le (List.map (fun kv => (kv.1, f kv.2)) l) =
  List.map (fun kv => (kv.1, f kv.2)) (stable_sort key_le l).
Proof.
  induction l as [|x l IH]; [done|]. cbn [List.map stable_sort foldr].
  fold (stable_sort (A := string * A) key_le l). rewrite <- sort_insert_map. f_equal. exact IH.
Qed.

Lemma canonicalJson_norm v : canonicalJson v = stringify (norm v).
Proof.
  induction v as [| | | |l IH|o IH] using Json_nested_ind; try done; cbn [canonicalJson norm stringify].
  - f_equal. rewrite List.map_map. by apply List.map_ext_Forall.
  - f_equal. rewrite !stable_sort_map, List.map_map. apply List.map_ext_Forall. cbn.
    rewrite (stable_sort_perm key_le). induction IH; constructor; [congruence|done].
Qed.

(** Permuting the fields of an object does not change its encoding. *)
Lemma norm_obj_perm o1 o2 :
  NoDup o1.*1 -> o1 ≡ₚ o2 -> norm (JObj o1) = norm (JObj o2).
Proof.
  intros Hnd Hp. cbn. f_equal. apply stable_sort_perm_eq.
  - intros x y H. by apply leb_total.
  - intros x y z. by apply leb_trans.
  - intros x y Hx Hy H1 H2. apply list_elem_of_In, in_map_iff in Hx as ([k1 v1] & <- & Hx).
    apply list_elem_of_In, in_map_iff in Hy as ([k2 v2] & <- & Hy). unfold key_le in H1, H2. cbn in *.
    assert (k1 = k2) as -> by by apply String.leb_antisym.
    assert (obj_get k2 o1 = Some v1 /\ obj_get k2 o1 = Some v2) as [E1 E2]; [|congruence].
    split; apply elem_obj_get; by try apply list_elem_of_In.
  - by rewrite Hp.
Qed.

(** ** Unique readability *)
Definition all_ascii : list ascii := List.map ascii_of_nat (seq 0 256).
Lemma all_ascii_complete c : In c all_ascii.
Proof.
  apply in_map_iff. exists (nat_of_ascii c). split; [apply ascii_nat_embedding|].
  apply in_seq. pose proof (nat_ascii_bounded c). lia.
Qed.

Lemma prefix_app (x y u v : string) :
  x +:+ u = y +:+ v -> starts_with x y = true \/ starts_with y x = true.
Proof.
  revert y. induction x as [|a x IH]; intros y H; [right; by destruct y|].
  destruct y as [|b y]; [by left|]. cbn in H. injection H as -> H.
  unfold starts_with. cbn. destruct (ascii_dec b b) as [_|]; [|done]. by apply IH.
Qed.

(** No escape is a prefix of another, and none starts with a quote. *)
Lemma escape_code :
  forallb (fun a => forallb (fun b => Ascii.eqb a b || negb (starts_with (escape a) (escape b))) all_ascii
                    && match escape a with String c _ => negb (Ascii.eqb c QUOTE) | "" => false end)
    all_ascii = true.
Proof. vm_compute. reflexivity. Qed.
Lemma escape_prefix a b : starts_with (escape a) (escape b) = true -> a = b.
Proof.
  pose proof escape_code as H. rewrite forallb_forall in H. specialize (H a (all_ascii_complete a)).
  apply andb_true_iff in H as [H _]. rewrite forallb_forall in H. specialize (H b (all_ascii_complete b)).
  intros Hp. rewrite Hp in H. apply orb_true_iff in H as [H|H]; [by apply Ascii.eqb_eq|done].
Qed.
Lemma escape_head a r1 r2 : escape a +:+ r1 <> String QUOTE r2.
Proof.
  pose proof escape_code as H. rewrite forallb_forall in H. specialize (H a (all_ascii_complete a)).
  apply andb_true_iff in H as [_ H]. destruct (escape a) as [|c e]; [done|]. cbn.
  intros [= -> _]. by rewrite Ascii.eqb_refl in H.
Qed.

Lemma escapes_readable s1 s2 r1 r2 :
  escapes s1 +:+ String QUOTE r1 = escapes s2 +:+ String QUOTE r2 -> s1 = s2 /\ r1 = r2.
Proof.
  revert s2. induction s1 as [|a s1 IH]; intros [|b s2]; cbn [escapes]; rewrite ?string_app_assoc.
  - intros [= ->]. done.
  - intros H. symmetry in H. by apply escape_head in H.
  - intros H. by apply escape_head in H.
  - intros H. assert (a = b) as ->.
    { by destruct (prefix_app _ _ _ _ H) as [?%escape_prefix|?%escape_prefix]. }
    apply string_app_inj_l in H. destruct (IH _ H) as [-> ->]. done.
Qed.
Lemma quoteJson_readable s1 s2 r1 r2 :
  quoteJson s1 +:+ r1 = quoteJson s2 +:+ r2 -> s1 = s2 /\ r1 = r2.
Proof.
  unfold quoteJson. cbn. intros [= H]. rewrite !string_app_assoc in H. by apply escapes_readable in H.
Qed.

(** Numbers *)
Definition num_char (c : ascii) : bool :=
  Ascii.eqb c "-" || ((48 <=? nat_of_ascii c) && (nat_of_ascii c <=? 57))%nat.
Fixpoint num_chars (s : string) : bool :=
  match s with EmptyString => true | String c s' => num_char c && num_chars s' end.
Lemma num_chars_N n s : num_chars s = true -> num_chars (pretty_N_go n s) = true.
Proof.
  revert s. induction (N.lt_wf_0 n) as [n _ IH]; intros s Hs.
  destruct (decide (0 < n)%N) as [Hn|Hn].
  - rewrite pretty_N_go_step by done. apply IH; [by apply N.div_lt|]. cbn. rewrite Hs, andb_true_r.
    unfold pretty_N_char. by repeat case_match.
  - assert (n = 0%N) as -> by lia. by rewrite pretty_N_go_0.
Qed.
Lemma pretty_N_chars (n : N) : num_chars (pretty n) = true.
Proof. unfold pretty, pretty_N. case_decide; [done|]. by apply num_chars_N. Qed.
Lemma pretty_Z_chars (n : Z) : num_chars (pretty n) = true.
Proof. destruct n as [|p|p]; [done|apply (pretty_N_chars (Npos p))|]. cbn. apply (pretty_N_chars (Npos p)). Qed.
Lemma pretty_Z_nonempty (n : Z) : pretty n <> "".
Proof.
  assert (forall m s, s <> "" -> pretty_N_go m s <> "") as Hgo.
  { intros m. induction (N.lt_wf_0 m) as [m _ IH]; intros s Hs. destruct (decide (0 < m)%N) as [Hm|Hm].
    - rewrite pretty_N_go_step by done. by apply IH; [apply N.div_lt|].
    - assert (m = 0%N) as -> by lia. by rewrite pretty_N_go_0. }
  assert (forall m : N, pretty m <> "") as HN.
  { intros m. unfold pretty, pretty_N. case_decide; [done|]. rewrite pretty_N_go_step by lia. by apply Hgo. }
  destruct n as [|p|p]; [done|apply (HN (Npos p))|done].
Qed.

Definition starts_num (r : string) : bool :=
  match r with String c _ => num_char c | EmptyString => false end.
Lemma num_chars_readable x y u v :
  num_chars x = true -> num_chars y = true -> starts_num u = false -> starts_num v = false ->
  x +:+ u = y +:+ v -> x = y /\ u = v.
Proof.
  revert y. induction x as [|a x IH]; intros [|b y] Hx Hy Hu Hv; cbn in *.
  - intros ->. done.
  - intros ->. cbn in Hu. by rewrite Hu in Hy.
  - intros <-. cbn in Hv. by rewrite Hv in Hx.
  - intros [= -> H]. reflect_bools. destruct (IH y) as [-> ->]; done.
Qed.

(** What may follow a value inside a document. *)
Definition stops (r : string) : Prop :=
  match r with EmptyString => True | String c _ => c = "," \/ c = "]" \/ c = "}" end%char.
Lemma stops_num r : stops r -> starts_num r = false.
Proof. destruct r; cbn; [done|]. by intros [->|[->| ->]]. Qed.

(** The first character of a value tells its constructor. *)
Inductive tag := TNull | TTrue | TFalse | TNum | TStr | TArr | TObj.
Definition tag_of_char (c : ascii) : option tag :=
  if Ascii.eqb c "n" then Some TNull else if Ascii.eqb c "t" then Some TTrue
  else if Ascii.eqb c "f" then Some TFalse else if Ascii.eqb c QUOTE then Some TStr
  else if Ascii.eqb c "[" then Some TArr else if Ascii.eqb c "{" then Some TObj
  else if num_char c then Some TNum else None.
Definition tag_of (v : Json) : tag :=
  match v with
  | JNull => TNull | JBool true => TTrue | JBool false => TFalse | JNum _ => TNum
  | JStr _ => TStr | JArr _ => TArr | JObj _ => TObj
  end.
Lemma stringify_tag v : exists c t, stringify v = String c t /\ tag_of_char c = Some (tag_of v).
Proof.
  destruct v as [|[]|n|s|l|o]; cbn; try (do 2 eexists; split; reflexivity).
  pose proof (pretty_Z_chars n) as Hc. destruct (pretty n) as [|c t] eqn:E; [by apply pretty_Z_nonempty in E|].
  exists c, t. split; [done|]. cbn in Hc. apply andb_true_iff in Hc as [Hc _]. unfold tag_of_char. rewrite Hc.
  repeat case_match; try done;
    match goal with H : Ascii.eqb _ _ = true |- _ => apply Ascii.eqb_eq in H; subst c end; done.
Qed.

(** A comma-separated list closed by [close] is readable when its items are. *)
Lemma items_readable {A} (pr : A -> string) (close : ascii) (l1 l2 : list A) r1 r2 :
  close = "]"%char \/ close = "}"%char ->
  (forall x, exists c t, pr x = String c t /\ tag_of_char c <> None) ->
  Forall (fun x => forall y u v, stops u -> stops v -> pr x +:+ u = pr y +:+ v -> x = y /\ u = v) l1 ->
  join_with "," (List.map pr l1) +:+ String close r1 = join_with "," (List.map pr l2) +:+ String close r2 ->
  l1 = l2 /\ r1 = r2.
Proof.
  intros Hclose Hhead Hl. assert (forall r, stops (String close r)) as Hstop by (intros; cbn; naive_solver).
  assert (tag_of_char close = None) as Hct by (destruct Hclose as [-> | ->]; done).
  revert l2. induction Hl as [|x l1 Hx _ IH]; intros [|y l2].
  - cbn. intros [= ->]. done.
  - cbn [List.map join_with append]. intros H. exfalso. destruct (Hhead y) as (c & t & Ey & Hc).
    rewrite Ey in H. destruct l2; cbn in H; injection H as <- _; congruence.
  - cbn [List.map join_with append]. intros H. exfalso. destruct (Hhead x) as (c & t & Ex & Hc).
    rewrite Ex in H. destruct l1; cbn in H; injection H as -> _; congruence.
  - assert (forall z a b r, join_with "," (pr z :: pr a :: List.map pr b) +:+ r
        = pr z +:+ String "," (join_with "," (List.map pr (a :: b)) +:+ r)) as Hc.
    { intros. by rewrite join_with_cons, !string_app_assoc. }
    destruct l1 as [|x' l1], l2 as [|y' l2]; cbn [List.map]; rewrite ?Hc;
      change (join_with "," [pr x]) with (pr x); change (join_with "," [pr y]) with (pr y); intros H.
    + apply Hx in H as [-> H]; [|apply Hstop..]. by injection H as ->.
    + apply Hx in H as [_ H]; [|apply Hstop|by left]. injection H as H _.
      destruct Hclose as [-> | ->]; discriminate.
    + apply Hx in H as [_ H]; [|by left|apply Hstop]. injection H as H _.
      destruct Hclose as [-> | ->]; discriminate.
    + apply Hx in H as [-> H]; [|by left..]. injection H as H.
      apply (IH (y' :: l2)) in H as [-> ->]. done.
Qed.

Lemma field_readable k1 v1 k2 v2 u v :
  field (k1, v1) +:+ u = field (k2, v2) +:+ v -> k1 = k2 /\ v1 +:+ u = v2 +:+ v.
Proof.
  unfold field; cbn [fst snd]. rewrite !string_app_assoc. intros H.
  apply quoteJson_readable in H as [-> H]. by injection H as H.
Qed.

Lemma stringify_tag_eq v1 v2 r1 r2 : stringify v1 +:+ r1 = stringify v2 +:+ r2 -> tag_of v1 = tag_of v2.
Proof.
  destruct (stringify_tag v1) as (c1 & t1 & -> & H1), (stringify_tag v2) as (c2 & t2 & -> & H2).
  cbn. intros [= -> _]. congruence.
Qed.

Lemma stringify_readable v1 : forall v2 r1 r2, stops r1 -> stops r2 ->
  stringify v1 +:+ r1 = stringify v2 +:+ r2 -> v1 = v2 /\ r1 = r2.
Proof.
  induction v1 as [| [] |n|s|l IH|o IH] using Json_nested_ind; intros v2 r1 r2 H1 H2 H;
    pose proof (stringify_tag_eq _ _ _ _ H) as Ht; destruct v2 as [| [] |n2|s2|l2|o2]; try done.
  1-3: cbn in H; by repeat injection H as H.
  - apply num_chars_readable in H as [->%pretty_Z_inj ->];
      [done|apply pretty_Z_chars..|by apply stops_num|by apply stops_num].
  - apply quoteJson_readable in H as [-> ->]. done.
  - cbn [stringify] in H. unfold printArr in H. rewrite !string_app_assoc in H. cbn [append] in H.
    injection H as H. apply items_readable in H as [-> ->]; [done|by left| |done].
    intros x. destruct (stringify_tag x) as (c & t & -> & Hc). exists c, t. split; [done|congruence].
  - cbn [stringify] in H. unfold printObj in H. rewrite !string_app_assoc, !List.map_map in H.
    cbn [append] in H. injection H as H.
    apply items_readable in H as [-> ->]; [done|by right| |].
    + intros [k x]. unfold field, quoteJson. cbn. do 2 eexists. split; [reflexivity|done].
    + eapply Forall_impl; [exact IH|]. intros [k x] Hx [k' y] u v Hu Hv E. cbn in Hx.
      cbn [fst snd] in E. apply field_readable in E as [-> E]. apply Hx in E as [-> ->]; done.
Qed.

Lemma stringify_inj v1 v2 : stringify v1 = stringify v2 -> v1 = v2.
Proof.
  intros H. apply (stringify_readable v1 v2 "" ""); [exact I|exact I|]. by rewrite !string_app_nil_r.
Qed.

(** ** Properties *)

(** The canonical encoding of a value depends exactly on its content:
    two values are encoded alike iff they are equal once the keys of every
    object are sorted, and reordering the fields of an object never changes
    its encoding. *)
Lemma canonicalJson_content (v1 v2 : Json) :
  (canonicalJson v1 = canonicalJson v2 <-> norm v1 = norm v2) /\
  (forall o1 o2, NoDup o1.*1 -> o1 ≡ₚ o2 -> canonicalJson (JObj o1) = canonicalJson (JObj o2)).
Proof.
  split.
  - rewrite !canonicalJson_norm. split; [apply stringify_inj|congruence].
  - intros o1 o2 Hnd Hp. rewrite !canonicalJson_norm. f_equal. by apply norm_obj_perm.
Qed.

Lemma canonicalJson_content_witness :
  canonicalJson (JObj [("b", JNum 1); ("a", JStr "x")]) =
  canonicalJson (JObj [("a", JStr "x"); ("b", JNum 1)]).
Proof.
  apply (proj2 (canonicalJson_content JNull JNull)); [|by apply Permutation_swap].
  apply (bool_decide_unpack _). vm_compute. exact I.
Defined.
