(* ===== verification/Workgraph.v ===== *)
(** * The event-sourced work graph ([src/src/workgraph/types.ts], [events.ts], [store.ts])

    Operations are the source of truth; issues and edges are a projection
    folded from them by [applyOp].  The database tables are finite maps keyed
    by their primary key, the op files a map from op id to op.  Statements of
    other processes may run between the statements of one operation: they are
    the [Interference] an append takes. *)

From Stdlib Require Import Ascii String.
From stdpp Require Import base option list strings pretty gmap.
From S2P Require Import Prelude Json.
#[local] Open Scope os_scope.

(** ** Data *)
Inductive WgOpType :=
| issue_created | issue_set | dep_added | dep_removed | issue_archived | issue_unarchived
| claim_acquired | claim_renewed | wedge_marked | wedge_cleared | claim_released.
#[export] Instance WgOpType_eq_dec : EqDecision WgOpType.
Proof. solve_decision. Defined.
Definition op_type_name (t : WgOpType) : string :=
  match t with
  | issue_created => "issue_created" | issue_set => "issue_set" | dep_added => "dep_added"
  | dep_removed => "dep_removed" | issue_archived => "issue_archived"
  | issue_unarchived => "issue_unarchived" | claim_acquired => "claim_acquired"
  | claim_renewed => "claim_renewed" | wedge_marked => "wedge_marked"
  | wedge_cleared => "wedge_cleared" | claim_released => "claim_released"
  end.

Abbreviation Payload := (list (string * Json)).
Record WgOp := {
  op_id : string;
  op_issueId : string;
  op_lamport : Z;
  op_type : WgOpType;
  op_payload : Payload;
  op_project : string;
  op_actorId : option string;
}.

(** A row of [wg_issues]. *)
Record IssueRow := {
  ir_id : string;
  ir_title : string;
  ir_body : string;
  ir_status : string;
  ir_created_at : string;
  ir_updated_at : string;
  ir_lww : Z;
  ir_claim_token : option string;
  ir_claim_audience : option string;
  ir_claim_expires_at : option string;
  ir_wedge_reason : option string;
  ir_archive_reason : option string;
  ir_project : string;
  ir_created_lamport : Z;
  ir_actor_id : option string;
}.
(** A row of [wg_edges]. *)
Record EdgeRow := {
  er_from : string;
  er_to : string;
  er_type : string;
  er_project : string;
}.
Record Projection := {
  pj_issues : gmap string IssueRow;
  pj_edges : gmap string EdgeRow;
}.
Definition emptyProjection : Projection := {| pj_issues := ∅; pj_edges := ∅ |}.

(** The database and the op files of one project. *)
Record Store := {
  st_ops : gmap string WgOp;
  st_projection : Projection;
  st_cursor : gmap string Z;
  st_files : gmap string WgOp;
}.
Definition emptyStore : Store :=
  {| st_ops := ∅; st_projection := emptyProjection; st_cursor := ∅; st_files := ∅ |}.
Definition with_projection (st : Store) (p : Projection) : Store :=
  {| st_ops := st.(st_ops); st_projection := p; st_cursor := st.(st_cursor); st_files := st.(st_files) |}.

(** ** Identities *)
Definition NEWLINE : string := String "010"%char "".
Definition UNIT_SEP : string := String "031"%char "".
Definition LOCAL_PROJECT : string := "legacy-global".

(** [s(v)]: a string payload field, or the empty string. *)
Definition s (v : option Json) : string := match v with Some (JStr x) => x | _ => "" end.
Definition opt_s (v : option Json) : option string := match v with None => None | Some _ => Some (s v) end.

(** What [makeOpId] hashes. *)
Definition opIdPreimage (type : WgOpType) (payload : Payload) (lamport : Z) (actorId : string) : string :=
  op_type_name type +:+ NEWLINE +:+ pretty lamport +:+ NEWLINE +:+ actorId +:+ NEWLINE
    +:+ canonicalJson (JObj payload).

(** ** Stateful, fallible operations *)

(** A call's effect on the store is kept when it throws. *)
Definition M (A : Type) : Type := Store -> result string A * Store.
Definition ret {A} (a : A) : M A := fun st => (Ok a, st).
Definition throw {A} (e : string) : M A := fun st => (Err e, st).
Definition bindM {A B} (m : M A) (f : A -> M B) : M B :=
  fun st => match m st with (Ok a, st') => f a st' | (Err e, st') => (Err e, st') end.
Notation "'do' x <- m ;; k" := (bindM m (fun x => k))
  (at level 100, x pattern, m at next level, right associativity) : os_scope.
Definition reads {A} (f : Store -> A) : M A := fun st => (Ok (f st), st).

Section Store.
(** [createHash('sha256')...digest('hex')] of node:crypto. *)
Context (sha256 : string -> string).

Definition hashed (n : nat) (preimage : string) : string := String.substring 0 n (sha256 preimage).
Definition edgeKey (fromId toId : string) : string := hashed 16 (fromId +:+ UNIT_SEP +:+ toId).
Definition makeOpId (type : WgOpType) (payload : Payload) (lamport : Z) (actorId : string) : string :=
  "op-" +:+ hashed 16 (opIdPreimage type payload lamport actorId).
Definition newIssueId (payload : Payload) (lamport : Z) (actorId : string) : string :=
  "wg-" +:+ hashed 12 (canonicalJson (JObj payload) +:+ NEWLINE +:+ pretty lamport +:+ NEWLINE +:+ actorId).

(** ** [applyOp]: the deterministic reducer *)

(** [UPDATE wg_issues SET f WHERE id = ? AND cond] *)
Definition updateIssues (id : string) (cond : IssueRow -> bool) (f : IssueRow -> IssueRow)
    (p : Projection) : Projection :=
  match p.(pj_issues) !! id with
  | Some r => if cond r then {| pj_issues := <[id := f r]> p.(pj_issues); pj_edges := p.(pj_edges) |} else p
  | None => p
  end.

Definition row_set (title body status : option string) (ts : string) (lww : Z) (r : IssueRow) : IssueRow :=
  {| ir_id := r.(ir_id); ir_title := default r.(ir_title) title; ir_body := default r.(ir_body) body;
     ir_status := default r.(ir_status) status; ir_created_at := r.(ir_created_at);
     ir_updated_at := ts; ir_lww := lww; ir_claim_token := r.(ir_claim_token);
     ir_claim_audience := r.(ir_claim_audience); ir_claim_expires_at := r.(ir_claim_expires_at);
     ir_wedge_reason := r.(ir_wedge_reason); ir_archive_reason := r.(ir_archive_reason);
     ir_project := r.(ir_project); ir_created_lamport := r.(ir_created_lamport);
     ir_actor_id := r.(ir_actor_id) |}.
Definition row_archive (reason : option string) (r : IssueRow) : IssueRow :=
  {| ir_id := r.(ir_id); ir_title := r.(ir_title); ir_body := r.(ir_body);
     ir_status := r.(ir_status); ir_created_at := r.(ir_created_at);
     ir_updated_at := r.(ir_updated_at); ir_lww := r.(ir_lww); ir_claim_token := r.(ir_claim_token);
     ir_claim_audience := r.(ir_claim_audience); ir_claim_expires_at := r.(ir_claim_expires_at);
     ir_wedge_reason := r.(ir_wedge_reason); ir_archive_reason := reason;
     ir_project := r.(ir_project); ir_created_lamport := r.(ir_created_lamport);
     ir_actor_id := r.(ir_actor_id) |}.
Definition row_claim (token audience expires : option string) (ts : string) (r : IssueRow) : IssueRow :=
  {| ir_id := r.(ir_id); ir_title := r.(ir_title); ir_body := r.(ir_body);
     ir_status := r.(ir_status); ir_created_at := r.(ir_created_at);
     ir_updated_at := ts; ir_lww := r.(ir_lww); ir_claim_token := token;
     ir_claim_audience := audience; ir_claim_expires_at := expires;
     ir_wedge_reason := r.(ir_wedge_reason); ir_archive_reason := r.(ir_archive_reason);
     ir_project := r.(ir_project); ir_created_lamport := r.(ir_created_lamport);
     ir_actor_id := r.(ir_actor_id) |}.
Definition row_wedge (reason : option string) (ts : string) (r : IssueRow) : IssueRow :=
  {| ir_id := r.(ir_id); ir_title := r.(ir_title); ir_body := r.(ir_body);
     ir_status := r.(ir_status); ir_created_at := r.(ir_created_at);
     ir_updated_at := ts; ir_lww := r.(ir_lww); ir_claim_token := r.(ir_claim_token);
     ir_claim_audience := r.(ir_claim_audience); ir_claim_expires_at := r.(ir_claim_expires_at);
     ir_wedge_reason := reason; ir_archive_reason := r.(ir_archive_reason);
     ir_project := r.(ir_project); ir_created_lamport := r.(ir_created_lamport);
     ir_actor_id := r.(ir_actor_id) |}.

(** [claim_expires_at <= ts]: false on NULL; ISO text compares as text. *)
Definition expired_at (ts : string) (r : IssueRow) : bool :=
  match r.(ir_claim_expires_at) with Some e => String.leb e ts | None => false end.
(** [claim_token IS NULL OR claim_expires_at <= ts] *)
Definition unclaimed_at (ts : string) (r : IssueRow) : bool :=
  bool_decide (r.(ir_claim_token) = None) || expired_at ts r.
Definition not_newer (lamport : Z) (r : IssueRow) : bool := Z.leb r.(ir_lww) lamport.
Definition is_open (r : IssueRow) : bool := (r.(ir_status) =? "open")%string.

Definition newRow (op : WgOp) (title body ts : string) : IssueRow :=
  {| ir_id := op.(op_issueId); ir_title := title; ir_body := body; ir_status := "open";
     ir_created_at := ts; ir_updated_at := ts; ir_lww := op.(op_lamport); ir_claim_token := None;
     ir_claim_audience := None; ir_claim_expires_at := None; ir_wedge_reason := None;
     ir_archive_reason := None; ir_project := op.(op_project);
     ir_created_lamport := op.(op_lamport); ir_actor_id := Some (default "legacy" op.(op_actorId)) |}.

Definition applyOp (op : WgOp) (p : Projection) : Projection :=
  let f k := obj_get k op.(op_payload) in
  let ts := s (f "ts") in
  let id := op.(op_issueId) in
  let key := edgeKey (s (f "from")) (s (f "to")) in
  match op.(op_type) with
  | issue_created =>
      match p.(pj_issues) !! id with
      | Some _ => p
      | None => {| pj_issues := <[id := newRow op (s (f "title")) (s (f "body")) ts]> p.(pj_issues);
                   pj_edges := p.(pj_edges) |}
      end
  | issue_set =>
      updateIssues id (not_newer op.(op_lamport))
        (row_set (opt_s (f "title")) (opt_s (f "body")) (opt_s (f "status")) ts op.(op_lamport)) p
  | dep_added =>
      let row := match p.(pj_edges) !! key with
                 | Some e => {| er_from := e.(er_from); er_to := e.(er_to); er_type := s (f "type");
                                er_project := e.(er_project) |}
                 | None => {| er_from := s (f "from"); er_to := s (f "to"); er_type := s (f "type");
                              er_project := op.(op_project) |}
                 end in
      {| pj_issues := p.(pj_issues); pj_edges := <[key := row]> p.(pj_edges) |}
  | dep_removed => {| pj_issues := p.(pj_issues); pj_edges := delete key p.(pj_edges) |}
  | issue_archived =>
      updateIssues id (not_newer op.(op_lamport))
        (fun r => row_archive (Some (s (f "reason")))
                    (row_set None None (Some "archived") ts op.(op_lamport) r)) p
  | issue_unarchived =>
      updateIssues id (not_newer op.(op_lamport))
        (fun r => row_archive None (row_set None None (Some "open") ts op.(op_lamport) r)) p
  | claim_acquired =>
      updateIssues id (fun r => is_open r && unclaimed_at ts r)
        (row_claim (Some (s (f "claimToken")))
           (Some (match f "audience" with Some a => stringify a | None => "" end))
           (Some (s (f "expiresAt"))) ts) p
  | claim_renewed =>
      updateIssues id (fun r => is_open r && bool_decide (r.(ir_claim_token) = Some (s (f "expectedToken"))))
        (fun r => row_claim r.(ir_claim_token) r.(ir_claim_audience) (Some (s (f "expiresAt"))) ts r) p
  | wedge_marked => updateIssues id (fun _ => true) (row_wedge (Some (s (f "reason"))) ts) p
  | wedge_cleared => updateIssues id (fun _ => true) (row_wedge None ts) p
  | claim_released =>
      let expectedToken := s (f "expectedToken") in
      updateIssues id
        (fun r => (expectedToken =? "")%string || bool_decide (r.(ir_claim_token) = Some expectedToken))
        (row_claim None None None ts) p
  end.

(** ** Reading *)
Definition toStatus (st : string) : string :=
  if ((st =? "in_progress") || (st =? "closed") || (st =? "archived"))%string then st else "open".
(** [optStr]: an absent or empty column reads as [undefined]. *)
Definition optStr (v : option string) : option string :=
  match v with Some x => if (x =? "")%string then None else Some x | None => None end.

(** [Issue]; the audience is kept as the stored JSON text. *)
Record Issue := {
  i_id : string; i_title : string; i_body : string; i_status : string;
  i_createdAt : string; i_updatedAt : string;
  i_claimToken : option string; i_claimAudience : option string; i_claimExpiresAt : option string;
  i_wedgeReason : option string; i_archiveReason : option string;
}.
Definition rowToIssue (r : IssueRow) : Issue :=
  {| i_id := r.(ir_id); i_title := r.(ir_title); i_body := r.(ir_body);
     i_status := toStatus r.(ir_status); i_createdAt := r.(ir_created_at);
     i_updatedAt := r.(ir_updated_at); i_claimToken := optStr r.(ir_claim_token);
     i_claimAudience := optStr r.(ir_claim_audience);
     i_claimExpiresAt := optStr r.(ir_claim_expires_at);
     i_wedgeReason := optStr r.(ir_wedge_reason); i_archiveReason := optStr r.(ir_archive_reason) |}.

Definition getIssue (id : string) (st : Store) : option Issue :=
  rowToIssue <$> st.(st_projection).(pj_issues) !! id.

(** [ORDER BY created_lamport, actor_id] (NULL first). *)
Definition actor_le (a b : option string) : bool :=
  match a, b with
  | None, _ => true
  | Some _, None => false
  | Some x, Some y => String.leb x y
  end.
Definition row_le (a b : IssueRow) : bool :=
  Z.ltb a.(ir_created_lamport) b.(ir_created_lamport) ||
  (Z.eqb a.(ir_created_lamport) b.(ir_created_lamport) && actor_le a.(ir_actor_id) b.(ir_actor_id)).
Definition issueRows (p : Projection) : list IssueRow :=
  stable_sort row_le (snd <$> map_to_list p.(pj_issues)).

Definition listIssues (status : option string) (st : Store) : list Issue :=
  rowToIssue <$> List.filter (fun r => match status with
                                       | Some x => (r.(ir_status) =? x)%string
                                       | None => true end) (issueRows st.(st_projection)).

Definition key_row_le (a b : string * EdgeRow) : bool := String.leb a.1 b.1.
Definition listEdges (st : Store) : list (string * string * string) :=
  (fun ke => (ke.2.(er_from), ke.2.(er_to), ke.2.(er_type)))
    <$> stable_sort key_row_le (map_to_list st.(st_projection).(pj_edges)).

(** The subquery of [listReady]: [id] is the target of a [blocks] edge from an
    issue that is neither closed nor archived. *)
Definition blocked (p : Projection) (id : string) : bool :=
  existsb (fun e =>
    (e.(er_to) =? id)%string && (e.(er_type) =? "blocks")%string &&
    match p.(pj_issues) !! e.(er_from) with
    | Some x => negb ((x.(ir_status) =? "closed") || (x.(ir_status) =? "archived"))%string
    | None => false
    end) (snd <$> map_to_list p.(pj_edges)).
Definition ready (p : Projection) (now : string) (r : IssueRow) : bool :=
  is_open r && unclaimed_at now r && bool_decide (r.(ir_wedge_reason) = None)
    && negb (blocked p r.(ir_id)).
Definition listReady (now : string) (st : Store) : list Issue :=
  rowToIssue <$> List.filter (ready st.(st_projection) now) (issueRows st.(st_projection)).

Definition op_le (a b : WgOp) : bool :=
  Z.ltb a.(op_lamport) b.(op_lamport) ||
  (Z.eqb a.(op_lamport) b.(op_lamport) && String.leb a.(op_id) b.(op_id)).
Definition sortedOps (ops : gmap string WgOp) : list WgOp :=
  stable_sort op_le (snd <$> map_to_list ops).
Definition listEvents (issueId : string) (st : Store) : list WgOp :=
  List.filter (fun op => (op.(op_issueId) =? issueId)%string) (sortedOps st.(st_ops)).
Definition listOpsSince (cursorLamport : Z) (st : Store) : list WgOp :=
  List.filter (fun op => Z.ltb cursorLamport op.(op_lamport)) (sortedOps st.(st_ops)).

Definition readHighWater (st : Store) : Z := default 0%Z (st.(st_cursor) !! "harness").
Definition advanceHighWater (lamport : Z) (st : Store) : Store :=
  let next := match st.(st_cursor) !! "harness" with
              | Some cur => Z.max cur lamport
              | None => lamport
              end in
  {| st_ops := st.(st_ops); st_projection := st.(st_projection);
     st_cursor := <["harness" := next]> st.(st_cursor); st_files := st.(st_files) |}.

(** ** Appending *)

Definition maxLamport (ops : gmap string WgOp) : Z :=
  match op_lamport <$> (snd <$> map_to_list ops) with
  | [] => 0%Z
  | x :: l => foldr Z.max x l
  end.

(** What other processes do around the statements of one append: [if_select n]
    and [if_insert n] before the n-th attempt's SELECT and INSERT, [if_busy n]
    whether that attempt fails with SQLITE_BUSY, [if_apply] before the fold,
    [if_applyBusy] how many of its attempts are busy, and [if_after] between
    the fold and what the operation does next. *)
Record Interference := {
  if_select : nat -> Store -> Store;
  if_insert : nat -> Store -> Store;
  if_busy : nat -> bool;
  if_apply : Store -> Store;
  if_applyBusy : nat;
  if_after : Store -> Store;
}.
Definition quiet : Interference :=
  {| if_select := fun _ st => st; if_insert := fun _ st => st; if_busy := fun _ => false;
     if_apply := fun st => st; if_applyBusy := 0; if_after := fun st => st |}.

Definition MAX_APPEND_RETRIES : nat := 8.

Definition candidateOp (actorId ts : string) (issueIdArg : Z -> string) (type : WgOpType)
    (payload : Payload) (lamport : Z) : WgOp :=
  {| op_id := makeOpId type payload lamport actorId;
     op_issueId := issueIdArg lamport;
     op_lamport := lamport;
     op_type := type;
     op_payload := obj_set "ts" (JStr ts) payload;
     op_project := LOCAL_PROJECT;
     op_actorId := Some actorId |}.

(** Phase 1: allocate [MAX(lamport)+1] and INSERT, retrying on BUSY and on the
    primary-key race. *)
Fixpoint insertOp (fuel attempt : nat) (env : Interference) (actorId ts : string)
    (issueIdArg : Z -> string) (type : WgOpType) (payload : Payload) : M WgOp :=
  fun st =>
  let st1 := env.(if_select) attempt st in
  let lamport := (maxLamport st1.(st_ops) + 1)%Z in
  let op := candidateOp actorId ts issueIdArg type payload lamport in
  let st2 := env.(if_insert) attempt st1 in
  let retry e := match fuel with
                 | 0 => (Err e, st2)
                 | S fuel' => insertOp fuel' (S attempt) env actorId ts issueIdArg type payload st2
                 end in
  if env.(if_busy) attempt then retry "SQLITE_BUSY"
  else match st2.(st_ops) !! op.(op_id) with
       | Some _ => retry "UNIQUE constraint failed: wg_ops.id"
       | None => (Ok op, {| st_ops := <[op.(op_id) := op]> st2.(st_ops);
                            st_projection := st2.(st_projection); st_cursor := st2.(st_cursor);
                            st_files := st2.(st_files) |})
       end.

(** The op file is written once the row is durable, when [sourceDir] is set. *)
Definition writeOpFile (sourceDir : bool) (op : WgOp) : M unit :=
  fun st => (Ok tt,
    if sourceDir then {| st_ops := st.(st_ops); st_projection := st.(st_projection);
                         st_cursor := st.(st_cursor); st_files := <[op.(op_id) := op]> st.(st_files) |}
    else st).

(** Phase 2: fold the op into the projection, retrying on BUSY. *)
Definition projectOp (env : Interference) (op : WgOp) : M unit :=
  fun st =>
  let st1 := env.(if_apply) st in
  if (MAX_APPEND_RETRIES <? env.(if_applyBusy))%nat then (Err "SQLITE_BUSY", st1)
  else (Ok tt, env.(if_after) (with_projection st1 (applyOp op st1.(st_projection)))).

(** The store's configuration: its replica id and whether op files are kept. *)
Record Config := { cf_actorId : string; cf_sourceDir : bool }.

Definition appendOp (cf : Config) (env : Interference) (ts : string) (issueIdArg : Z -> string)
    (type : WgOpType) (payload : Payload) : M WgOp :=
  do op <- insertOp MAX_APPEND_RETRIES 0 env cf.(cf_actorId) ts issueIdArg type payload ;;
  do _ <- writeOpFile cf.(cf_sourceDir) op ;;
  do _ <- projectOp env op ;;
  ret op.

(** ** The store's operations *)
Definition requireIssue (id : string) : M Issue :=
  fun st => match getIssue id st with
            | Some i => (Ok i, st)
            | None => (Err ("workgraph: no issue " +:+ id), st)
            end.

Definition createIssue (cf : Config) (env : Interference) (ts title body : string) : M Issue :=
  let payload := [("title", JStr title); ("body", JStr body)] in
  do op <- appendOp cf env ts (fun lamport => newIssueId payload lamport cf.(cf_actorId))
             issue_created payload ;;
  do i <- reads (getIssue op.(op_issueId)) ;;
  match i with
  | Some issue => ret issue
  | None => throw "workgraph: createIssue failed to project"
  end.

Definition patch_field (k : string) (v : option string) : Payload :=
  match v with Some x => [(k, JStr x)] | None => [] end.

(** [updateIssue] returns the issue and the ids handed to [onIssueTerminal]. *)
Definition updateIssue (cf : Config) (env : Interference) (ts id : string)
    (title body status : option string) : M (Issue * list string) :=
  do cur <- requireIssue id ;;
  do _ <- appendOp cf env ts (fun _ => id) issue_set
            (patch_field "title" title ++ patch_field "body" body ++ patch_field "status" status) ;;
  do next <- reads (getIssue id) ;;
  match next with
  | None => throw "workgraph: updateIssue lost the issue"
  | Some issue =>
      let fires := match status with
                   | Some x => ((x =? "closed") || (x =? "archived"))%string
                                 && negb (cur.(i_status) =? x)%string
                   | None => false
                   end in
      ret (issue, if fires then [id] else [])
  end.

Definition EDGE_TYPES : list string := ["blocks"; "parent-child"; "discovered-from"; "related"].
Definition addEdge (cf : Config) (env : Interference) (ts fromId toId type : string) : M unit :=
  if negb (set_has type EDGE_TYPES) then throw ("workgraph: bad edge type " +:+ type)
  else if (fromId =? toId)%string then throw "workgraph: self-edge rejected"
  else
    do ends <- reads (fun st => (getIssue fromId st, getIssue toId st)) ;;
    match ends with
    | (Some _, Some _) =>
        do _ <- appendOp cf env ts (fun _ => fromId) dep_added
                  [("from", JStr fromId); ("to", JStr toId); ("type", JStr type)] ;;
        ret tt
    | _ => throw "workgraph: edge endpoint missing"
    end.

Definition appendOn (cf : Config) (env : Interference) (ts id : string) (type : WgOpType)
    (payload : Payload) : M unit :=
  do _ <- requireIssue id ;;
  do _ <- appendOp cf env ts (fun _ => id) type payload ;;
  ret tt.
Definition wedgeMark cf env ts id reason : M unit :=
  appendOn cf env ts id wedge_marked [("reason", JStr reason)].
Definition clearWedge cf env ts id : M unit := appendOn cf env ts id wedge_cleared [].
Definition archiveIssue cf env ts id (reason : option string) : M unit :=
  appendOn cf env ts id issue_archived (patch_field "reason" reason).
Definition unarchiveIssue cf env ts id : M unit := appendOn cf env ts id issue_unarchived [].
Definition releaseClaim cf env ts id (expectedToken : option string) : M unit :=
  appendOn cf env ts id claim_released (patch_field "expectedToken" expectedToken).

Definition MAX_SAFE_INTEGER : Z := 9007199254740991.
(** [expiresAt] is the ISO text of [Date.now() + ttlSec * 1000]. *)
Definition renewClaim (cf : Config) (env : Interference) (ts id expectedToken : string) (ttlSec : Z)
    (expiresAt : string) : M (bool * string) :=
  do _ <- requireIssue id ;;
  if (expectedToken =? "")%string then throw "workgraph: expected claim token is required"
  else if negb (Z.leb 1 ttlSec && Z.leb ttlSec MAX_SAFE_INTEGER)
  then throw "workgraph: claim ttlSec must be a positive safe integer"
  else
    do _ <- appendOp cf env ts (fun _ => id) claim_renewed
              [("expectedToken", JStr expectedToken); ("expiresAt", JStr expiresAt)] ;;
    do current <- reads (getIssue id) ;;
    ret (match current with
         | Some i => bool_decide (i.(i_claimToken) = Some expectedToken)
                       && bool_decide (i.(i_claimExpiresAt) = Some expiresAt)
         | None => false
         end, expiresAt).

Definition claimTokenOf (entropy : string) : string := "clm-" +:+ hashed 16 entropy.
(** [claimIssue]; [entropy] is the hashed [id\nDate.now()\nMath.random()], the
    two authorizations are the answers of [isAuthorized] before the append and
    after the read-back. *)
Definition claimIssue (cf : Config) (env env' : Interference) (ts ts' id : string) (audience : Json)
    (expiresAt entropy : string) (authorized authorized' : bool) : M (bool * string) :=
  do _ <- requireIssue id ;;
  if negb authorized then ret (false, expiresAt)
  else
    let claimToken := claimTokenOf entropy in
    do _ <- appendOp cf env ts (fun _ => id) claim_acquired
              [("claimToken", JStr claimToken); ("audience", audience); ("expiresAt", JStr expiresAt)] ;;
    do cur <- reads (getIssue id) ;;
    let ours := match cur with
                | Some i => bool_decide (i.(i_claimToken) = Some claimToken)
                | None => false
                end in
    if ours && negb authorized' then
      do _ <- appendOp cf env' ts' (fun _ => id) claim_released [("expectedToken", JStr claimToken)] ;;
      ret (false, expiresAt)
    else ret (ours, expiresAt).

(** ** [init]'s backfill and [rebuildWorkGraph] *)
Definition createdLamport (ops : gmap string WgOp) (id : string) : Z :=
  match op_lamport <$> List.filter (fun op => (op.(op_issueId) =? id)%string
                                     && bool_decide (op.(op_type) = issue_created))
                         (snd <$> map_to_list ops) with
  | [] => 0%Z
  | x :: l => foldr Z.min x l
  end.
Definition backfillRow (ops : gmap string WgOp) (r : IssueRow) : IssueRow :=
  {| ir_id := r.(ir_id); ir_title := r.(ir_title); ir_body := r.(ir_body);
     ir_status := r.(ir_status); ir_created_at := r.(ir_created_at);
     ir_updated_at := r.(ir_updated_at); ir_lww := r.(ir_lww); ir_claim_token := r.(ir_claim_token);
     ir_claim_audience := r.(ir_claim_audience); ir_claim_expires_at := r.(ir_claim_expires_at);
     ir_wedge_reason := r.(ir_wedge_reason); ir_archive_reason := r.(ir_archive_reason);
     ir_project := r.(ir_project);
     ir_created_lamport := if Z.eqb r.(ir_created_lamport) 0 then createdLamport ops r.(ir_id)
                           else r.(ir_created_lamport);
     ir_actor_id := Some (default "legacy" r.(ir_actor_id)) |}.
Definition backfillOp (op : WgOp) : WgOp :=
  {| op_id := op.(op_id); op_issueId := op.(op_issueId); op_lamport := op.(op_lamport);
     op_type := op.(op_type); op_payload := op.(op_payload); op_project := op.(op_project);
     op_actorId := Some (default "legacy" op.(op_actorId)) |}.
Definition backfillTuple (st : Store) : Store :=
  {| st_ops := backfillOp <$> st.(st_ops);
     st_projection := {| pj_issues := backfillRow st.(st_ops) <$> st.(st_projection).(pj_issues);
                         pj_edges := st.(st_projection).(pj_edges) |};
     st_cursor := st.(st_cursor); st_files := st.(st_files) |}.

Definition defaultedOp (op : WgOp) : WgOp :=
  {| op_id := op.(op_id); op_issueId := op.(op_issueId); op_lamport := op.(op_lamport);
     op_type := op.(op_type); op_payload := op.(op_payload);
     op_project := if (op.(op_project) =? "")%string then "legacy-global" else op.(op_project);
     op_actorId := match op.(op_actorId) with
                   | Some a => if (a =? "")%string then Some "legacy" else Some a
                   | None => Some "legacy"
                   end |}.

Definition replay (ops : list WgOp) (p : Projection) : Projection :=
  fold_left (fun p op => applyOp op p) ops p.
Definition insertOrIgnore (ops : gmap string WgOp) (op : WgOp) : gmap string WgOp :=
  match ops !! op.(op_id) with Some _ => ops | None => <[op.(op_id) := op]> ops end.

(** [rebuildWorkGraph] from the op files in the order [readdir] lists them;
    the cursor table is not dropped. *)
Definition rebuildWorkGraph (files : list WgOp) (st : Store) : Store * nat :=
  let ops := stable_sort op_le (defaultedOp <$> files) in
  ({| st_ops := fold_left insertOrIgnore ops ∅;
      st_projection := replay ops emptyProjection;
      st_cursor := st.(st_cursor); st_files := st.(st_files) |},
   length ops).
End Store.
