(* ===== verification/WorkgraphProps.v ===== *)
(** * Properties of the work graph

    The live projection against the replay of the op log, the claim
    compare-and-set, readiness, and the log under interference. *)

From Stdlib Require Import Ascii String Sorted Permutation.
From stdpp Require Import base option list strings pretty gmap.
From S2P Require Import Prelude Json Workgraph.
#[local] Open Scope os_scope.

(** ** Orders *)
Lemma op_le_total a b : op_le a b = false -> op_le b a = true.
Proof.
  unfold op_le. rewrite orb_false_iff, orb_true_iff, !andb_true_iff, andb_false_iff.
  rewrite !Z.ltb_lt, !Z.ltb_ge, !Z.eqb_eq, Z.eqb_neq. intros [H [?|?%leb_total]]; [lia|].
  destruct (decide (op_lamport a = op_lamport b)); [right; by split|left; lia].
Qed.
Lemma op_le_spec a b :
  op_le a b = true <-> (a.(op_lamport) < b.(op_lamport))%Z \/
    a.(op_lamport) = b.(op_lamport) /\ String.leb a.(op_id) b.(op_id) = true.
Proof. unfold op_le. by rewrite orb_true_iff, andb_true_iff, Z.ltb_lt, Z.eqb_eq. Qed.
Lemma op_le_trans a b c : op_le a b = true -> op_le b c = true -> op_le a c = true.
Proof.
  rewrite !op_le_spec. intros [?|[? H1]] [?|[? H2]]; try (left; lia).
  right. split; [lia|]. by eapply leb_trans.
Qed.
Lemma actor_le_total a b : actor_le a b = false -> actor_le b a = true.
Proof. destruct a, b; cbn; try done. apply leb_total. Qed.
Lemma actor_le_trans a b c : actor_le a b = true -> actor_le b c = true -> actor_le a c = true.
Proof. destruct a, b, c; cbn; try done. apply leb_trans. Qed.
Lemma row_le_spec a b :
  row_le a b = true <-> (a.(ir_created_lamport) < b.(ir_created_lamport))%Z \/
    a.(ir_created_lamport) = b.(ir_created_lamport) /\ actor_le a.(ir_actor_id) b.(ir_actor_id) = true.
Proof. unfold row_le. by rewrite orb_true_iff, andb_true_iff, Z.ltb_lt, Z.eqb_eq. Qed.
Lemma row_le_total a b : row_le a b = false -> row_le b a = true.
Proof.
  intros H. apply row_le_spec. unfold row_le in H. apply orb_false_iff in H as [H1 H2].
  rewrite Z.ltb_ge in H1. destruct (decide (ir_created_lamport a = ir_created_lamport b)) as [E|E]; [|left; lia].
  right. split; [done|]. apply actor_le_total. apply andb_false_iff in H2 as [H2|H2]; [|done].
  by rewrite Z.eqb_neq in H2.
Qed.
Lemma row_le_trans a b c : row_le a b = true -> row_le b c = true -> row_le a c = true.
Proof.
  rewrite !row_le_spec. intros [?|[? H1]] [?|[? H2]]; try (left; lia).
  right. split; [lia|]. by eapply actor_le_trans.
Qed.

Lemma issueRows_sorted p : StronglySorted (fun a b => row_le a b = true) (issueRows p).
Proof. apply stable_sort_sorted; [apply row_le_total|apply row_le_trans]. Qed.
Lemma elem_issueRows p r : r ∈ issueRows p <-> exists id, p.(pj_issues) !! id = Some r.
Proof.
  unfold issueRows. rewrite elem_of_stable_sort, list_elem_of_fmap. split.
  - intros ([id r'] & -> & H). apply elem_of_map_to_list in H. by exists id.
  - intros [id H]. exists (id, r). by rewrite elem_of_map_to_list.
Qed.

(** ** Sorted logs *)
(** A table is keyed by its op ids. *)
Definition keyed (ops : gmap string WgOp) : Prop := map_Forall (fun k op => op.(op_id) = k) ops.

Lemma elem_ops_values (ops : gmap string WgOp) op :
  op ∈ (snd <$> map_to_list ops) <-> exists k, ops !! k = Some op.
Proof.
  rewrite list_elem_of_fmap. split.
  - intros ([k op'] & -> & H). apply elem_of_map_to_list in H. by exists k.
  - intros [k H]. exists (k, op). by rewrite elem_of_map_to_list.
Qed.
Lemma keyed_antisym ops x y :
  keyed ops -> x ∈ (snd <$> map_to_list ops) -> y ∈ (snd <$> map_to_list ops) ->
  op_le x y = true -> op_le y x = true -> x = y.
Proof.
  intros Hk [k Hx]%elem_ops_values [k' Hy]%elem_ops_values H1 H2.
  assert (op_id x = op_id y) as He.
  { apply op_le_spec in H1, H2. destruct H1 as [?|[? ?]], H2 as [?|[? ?]]; try lia.
    by apply String.leb_antisym. }
  rewrite <- (Hk _ _ Hx) in Hx. rewrite <- (Hk _ _ Hy) in Hy. congruence.
Qed.
Lemma sortedOps_perm_eq ops l :
  keyed ops -> l ≡ₚ (snd <$> map_to_list ops) -> stable_sort op_le l = sortedOps ops.
Proof.
  intros Hk Hp. apply stable_sort_perm_eq; [apply op_le_total|apply op_le_trans| |done].
  intros x y. rewrite Hp. by apply keyed_antisym.
Qed.

Lemma foldr_max_ge x l y : y ∈ x :: l -> (y <= foldr Z.max x l)%Z.
Proof.
  intros [->|H]%elem_of_cons.
  - induction l; cbn; lia.
  - induction l as [|z l IH]; cbn; [by apply elem_of_nil in H|].
    apply elem_of_cons in H as [->|H]; [|specialize (IH H)]; lia.
Qed.
Lemma maxLamport_ge ops k op : ops !! k = Some op -> (op.(op_lamport) <= maxLamport ops)%Z.
Proof.
  intros H. unfold maxLamport.
  assert (op_lamport op ∈ op_lamport <$> (snd <$> map_to_list ops)) as Hin.
  { apply list_elem_of_fmap. exists op. split; [done|]. apply elem_ops_values. by exists k. }
  destruct (op_lamport <$> _) as [|x l]; [set_solver|]. by apply foldr_max_ge.
Qed.

Lemma sortedOps_append ops op :
  keyed ops -> ops !! op.(op_id) = None -> (maxLamport ops < op.(op_lamport))%Z ->
  sortedOps (<[op.(op_id) := op]> ops) = sortedOps ops ++ [op].
Proof.
  intros Hk Hf Hm. assert (keyed (<[op_id op:=op]> ops)) as Hk' by by apply map_Forall_insert_2.
  assert (sortedOps ops ++ [op] ≡ₚ snd <$> map_to_list (<[op_id op:=op]> ops)) as Hp.
  { rewrite map_to_list_insert by done. cbn. unfold sortedOps. rewrite stable_sort_perm.
    by rewrite Permutation_app_comm. }
  eapply (sorted_perm_unique op_le op_le_total op_le_trans).
  - intros x y. unfold sortedOps. rewrite !elem_of_stable_sort. by apply keyed_antisym.
  - apply stable_sort_sorted; [apply op_le_total|apply op_le_trans].
  - assert (forall l, StronglySorted (fun a b => op_le a b = true) l ->
      (forall x, x ∈ l -> op_le x op = true) -> StronglySorted (fun a b => op_le a b = true) (l ++ [op])) as Happ.
    { induction 1 as [|x l Hl IH Hx]; intros Hall; cbn; [by repeat constructor|].
      constructor; [apply IH; set_solver|]. apply Forall_app. split; [done|].
      constructor; [apply Hall; set_solver|constructor]. }
    apply Happ; [apply stable_sort_sorted; [apply op_le_total|apply op_le_trans]|].
    intros x Hx. unfold sortedOps in Hx. rewrite elem_of_stable_sort in Hx.
    apply elem_ops_values in Hx as [k Hx]. apply op_le_spec. left.
    pose proof (maxLamport_ge _ _ _ Hx). lia.
  - rewrite Hp. unfold sortedOps. by rewrite stable_sort_perm.
Qed.

Section Projection.
Context (sha256 : string -> string).

(** ** The reducer *)
Lemma updateIssues_twice id cond f p :
  (forall r, cond r = true -> cond (f r) = true -> f (f r) = f r) ->
  updateIssues id cond f (updateIssues id cond f p) = updateIssues id cond f p.
Proof.
  intros Hf. unfold updateIssues at 2 3. destruct (pj_issues p !! id) as [r|] eqn:E.
  - destruct (cond r) eqn:Ec; unfold updateIssues.
    + cbn. rewrite lookup_insert_eq. destruct (cond (f r)) eqn:Ec'; [|done].
      by rewrite Hf, insert_insert_eq.
    + by rewrite E, Ec.
  - unfold updateIssues. by rewrite E.
Qed.

Lemma applyOp_twice op p : applyOp sha256 op (applyOp sha256 op p) = applyOp sha256 op p.
Proof.
  unfold applyOp. destruct (op_type op); try (apply updateIssues_twice; intros r; try done).
  - destruct (pj_issues p !! op_issueId op) as [r|] eqn:E; [by rewrite E|].
    cbn. by rewrite lookup_insert_eq.
  - intros _ _. unfold row_set. destruct (opt_s _), (opt_s _), (opt_s _); done.
  - cbn. rewrite lookup_insert_eq, insert_insert_eq.
    destruct (pj_edges p !! _) eqn:E; cbn; done.
  - cbn. by rewrite delete_delete_eq.
Qed.

Lemma replay_app l1 l2 p : replay sha256 (l1 ++ l2) p = replay sha256 l2 (replay sha256 l1 p).
Proof. apply fold_left_app. Qed.

(** ** A single writer *)
Definition appended (cf : Config) (st : Store) (op : WgOp) : Store :=
  {| st_ops := <[op.(op_id) := op]> st.(st_ops);
     st_projection := applyOp sha256 op st.(st_projection);
     st_cursor := st.(st_cursor);
     st_files := if cf.(cf_sourceDir) then <[op.(op_id) := op]> st.(st_files) else st.(st_files) |}.
Definition nextOp (cf : Config) (ts : string) (arg : Z -> string) type payload (st : Store) : WgOp :=
  candidateOp sha256 cf.(cf_actorId) ts arg type payload (maxLamport st.(st_ops) + 1).

Lemma insertOp_quiet_clash fuel n actorId ts arg type payload st :
  is_Some (st.(st_ops) !!
    (candidateOp sha256 actorId ts arg type payload (maxLamport st.(st_ops) + 1)).(op_id)) ->
  exists e, insertOp sha256 fuel n quiet actorId ts arg type payload st = (Err e, st).
Proof.
  intros [op0 H]. revert n. induction fuel as [|fuel IH]; intros n; cbn [insertOp quiet if_select if_insert if_busy];
    rewrite H; eauto.
Qed.

Lemma appendOp_quiet cf ts arg type payload st :
  let op := nextOp cf ts arg type payload st in
  match st.(st_ops) !! op.(op_id) with
  | None => appendOp sha256 cf quiet ts arg type payload st = (Ok op, appended cf st op)
  | Some _ => exists e, appendOp sha256 cf quiet ts arg type payload st = (Err e, st)
  end.
Proof.
  cbn zeta. destruct (st_ops st !! op_id (nextOp cf ts arg type payload st)) eqn:E.
  - destruct (insertOp_quiet_clash MAX_APPEND_RETRIES 0 cf.(cf_actorId) ts arg type payload st) as [e He].
    { by eexists. }
    exists e. unfold appendOp, bindM. by rewrite He.
  - unfold appendOp, bindM. cbn [insertOp MAX_APPEND_RETRIES quiet if_select if_insert if_busy].
    fold (nextOp cf ts arg type payload st). rewrite E. cbn. unfold appended, with_projection.
    by destruct (cf_sourceDir cf).
Qed.

(** ** Coherence of log, files and projection *)
Record coherent (st : Store) : Prop := {
  co_keyed : keyed st.(st_ops);
  co_files : st.(st_files) = st.(st_ops);
  co_replay : st.(st_projection) = replay sha256 (sortedOps st.(st_ops)) emptyProjection;
  co_defaulted : map_Forall (fun _ op => defaultedOp op = op) st.(st_ops);
}.
Lemma emptyStore_coherent : coherent emptyStore.
Proof. constructor; try done; apply map_Forall_empty. Qed.

Definition preserves {A} (P : Store -> Prop) (m : M A) : Prop := forall st, P st -> P (m st).2.
Lemma preserves_bind {A B} P (m : M A) (f : A -> M B) :
  preserves P m -> (forall a, preserves P (f a)) -> preserves P (bindM m f).
Proof.
  intros Hm Hf st H. unfold bindM. specialize (Hm st H). destruct (m st) as [[a|e] st']; [|done].
  by apply Hf.
Qed.
Lemma preserves_ret {A} P (a : A) : preserves P (ret a).
Proof. by intros st. Qed.
Lemma preserves_throw {A} P e : preserves P (throw (A := A) e).
Proof. by intros st. Qed.
Lemma preserves_reads {A} P (f : Store -> A) : preserves P (reads f).
Proof. by intros st. Qed.
Lemma preserves_require P id : preserves P (requireIssue id).
Proof. intros st H. unfold requireIssue. by destruct (getIssue id st). Qed.

(** The configuration under which op files are kept and name their writer. *)
Definition keeps_files (cf : Config) : Prop := cf.(cf_sourceDir) = true /\ cf.(cf_actorId) <> "".

Lemma appendOp_coherent cf ts arg type payload :
  keeps_files cf -> preserves coherent (appendOp sha256 cf quiet ts arg type payload).
Proof.
  intros [Hd Ha] st [Hk Hf Hr Hn]. pose proof (appendOp_quiet cf ts arg type payload st) as H. cbn zeta in H.
  assert (op_lamport (nextOp cf ts arg type payload st) = maxLamport (st_ops st) + 1)%Z as Hl by done.
  assert (defaultedOp (nextOp cf ts arg type payload st) = nextOp cf ts arg type payload st) as Hdef.
  { unfold defaultedOp; cbn. by rewrite (proj2 (String.eqb_neq _ _) Ha). }
  revert H Hl Hdef. generalize (nextOp cf ts arg type payload st) as op. intros op H Hl Hdef.
  destruct (st_ops st !! op_id op) eqn:E; [destruct H as [e ->]; by constructor|].
  rewrite H. constructor; cbn.
  - by apply map_Forall_insert_2.
  - by rewrite Hd, Hf.
  - rewrite sortedOps_append, replay_app, <- Hr; [done..|lia].
  - by apply map_Forall_insert_2.
Qed.
End Projection.

#[export] Hint Resolve preserves_bind preserves_ret preserves_throw preserves_reads
  preserves_require appendOp_coherent : os.
(** Walk an operation's steps, using the database for the leaves. *)
Ltac preserve :=
  repeat lazymatch goal with
  | |- forall _, _ => intro
  | |- preserves _ (bindM _ _) => apply preserves_bind
  | |- preserves _ (match ?x with _ => _ end) => destruct x
  | |- _ => solve [eauto with os]
  end.

(** ** Programs of store operations *)
Inductive Command :=
| CCreate (ts title body : string)
| CUpdate (ts id : string) (title body status : option string)
| CAddEdge (ts fromId toId type : string)
| CWedge (ts id reason : string)
| CClearWedge (ts id : string)
| CArchive (ts id : string) (reason : option string)
| CUnarchive (ts id : string)
| CRelease (ts id : string) (expectedToken : option string)
| CRenew (ts id expectedToken : string) (ttlSec : Z) (expiresAt : string)
| CClaim (ts ts' id : string) (audience : Json) (expiresAt entropy : string) (authorized authorized' : bool).

Definition forget {A} (m : M A) : M unit := do _ <- m ;; ret tt.
Definition command (sha256 : string -> string) (cf : Config) (c : Command) : M unit :=
  match c with
  | CCreate ts title body => forget (createIssue sha256 cf quiet ts title body)
  | CUpdate ts id title body status => forget (updateIssue sha256 cf quiet ts id title body status)
  | CAddEdge ts a b type => addEdge sha256 cf quiet ts a b type
  | CWedge ts id reason => wedgeMark sha256 cf quiet ts id reason
  | CClearWedge ts id => clearWedge sha256 cf quiet ts id
  | CArchive ts id reason => archiveIssue sha256 cf quiet ts id reason
  | CUnarchive ts id => unarchiveIssue sha256 cf quiet ts id
  | CRelease ts id tok => releaseClaim sha256 cf quiet ts id tok
  | CRenew ts id tok ttl e => forget (renewClaim sha256 cf quiet ts id tok ttl e)
  | CClaim ts ts' id a e entropy au au' =>
      forget (claimIssue sha256 cf quiet quiet ts ts' id a e entropy au au')
  end.
(** The store after a program; a command that throws is abandoned. *)
Definition run (sha256 : string -> string) (cf : Config) (cs : list Command) (st : Store) : Store :=
  fold_left (fun st c => (command sha256 cf c st).2) cs st.

Lemma command_coherent sha256 cf c : keeps_files cf -> preserves (coherent sha256) (command sha256 cf c).
Proof.
  intros Hc. destruct c; cbn [command];
    unfold forget, createIssue, updateIssue, addEdge, wedgeMark, clearWedge, archiveIssue,
      unarchiveIssue, releaseClaim, renewClaim, claimIssue, appendOn; preserve.
Qed.

(** ** Rebuilding *)
Lemma fold_insertOrIgnore l m k :
  fold_left insertOrIgnore l m !! k =
  match m !! k with
  | Some x => Some x
  | None => List.find (fun op => (op.(op_id) =? k)%string) l
  end.
Proof.
  revert m. induction l as [|op l IH]; intros m; cbn; [by destruct (m !! k)|].
  rewrite IH. unfold insertOrIgnore. destruct (String.eqb_spec (op_id op) k) as [<-|Hne].
  - destruct (m !! op_id op) eqn:E; [by rewrite E|]. by rewrite lookup_insert_eq.
  - destruct (m !! op_id op); [done|]. by rewrite lookup_insert_ne.
Qed.

Lemma rebuilt_ops (ops : gmap string WgOp) l :
  keyed ops -> l ≡ₚ (snd <$> map_to_list ops) -> fold_left insertOrIgnore l ∅ = ops.
Proof.
  intros Hk Hp. apply map_eq. intros k. rewrite fold_insertOrIgnore, lookup_empty.
  destruct (List.find _ l) as [op|] eqn:Ef.
  - apply List.find_some in Ef as [Hin Hid]. apply String.eqb_eq in Hid.
    apply list_elem_of_In in Hin. rewrite Hp in Hin. apply elem_ops_values in Hin as [k' Hk'].
    pose proof (Hk _ _ Hk') as E. cbn in E. congruence.
  - destruct (ops !! k) as [op|] eqn:E; [|done]. exfalso.
    eapply List.find_none in Ef; [|apply list_elem_of_In; rewrite Hp; apply elem_ops_values; by exists k].
    rewrite (Hk _ _ E), String.eqb_refl in Ef. done.
Qed.

Lemma defaulted_files (ops : gmap string WgOp) l :
  map_Forall (fun _ op => defaultedOp op = op) ops -> l ≡ₚ (snd <$> map_to_list ops) ->
  defaultedOp <$> l = l.
Proof.
  intros Hd Hp. rewrite <- (list_fmap_id l) at 2. apply list_fmap_ext. intros i op Hop.
  apply list_elem_of_lookup_2 in Hop. rewrite Hp in Hop. apply elem_ops_values in Hop as [k Hk].
  by apply (Hd _ _ Hk).
Qed.

Lemma rebuild_coherent sha256 files st :
  coherent sha256 st -> files ≡ₚ (snd <$> map_to_list st.(st_files)) ->
  rebuildWorkGraph sha256 files st = (st, length files).
Proof.
  intros [Hk Hf Hr Hd] Hp. rewrite Hf in Hp. unfold rebuildWorkGraph.
  rewrite (defaulted_files _ _ Hd Hp), (sortedOps_perm_eq _ _ Hk Hp).
  assert (sortedOps (st_ops st) ≡ₚ (snd <$> map_to_list (st_ops st))) as Hs.
  { unfold sortedOps. by rewrite stable_sort_perm. }
  rewrite (rebuilt_ops _ _ Hk Hs), <- Hr. f_equal; [by destruct st|].
  apply Permutation_length. by rewrite Hs, Hp.
Qed.

(** ** Readiness *)
Lemma unclaimed_spec now r :
  unclaimed_at now r = true <-> r.(ir_claim_token) = None \/
    exists e, r.(ir_claim_expires_at) = Some e /\ String.leb e now = true.
Proof.
  unfold unclaimed_at, expired_at. rewrite orb_true_iff, bool_decide_eq_true.
  destruct (ir_claim_expires_at r); naive_solver.
Qed.
Lemma blocked_spec p id :
  blocked p id = false <-> forall key e x, p.(pj_edges) !! key = Some e ->
    e.(er_to) = id -> e.(er_type) = "blocks" -> p.(pj_issues) !! e.(er_from) = Some x ->
    x.(ir_status) = "closed" \/ x.(ir_status) = "archived".
Proof.
  unfold blocked. rewrite <- not_true_iff_false, existsb_exists. split.
  - intros H key e x He <- Ht Hx.
    destruct (String.eqb_spec (ir_status x) "closed") as [|Hc]; [by left|].
    destruct (String.eqb_spec (ir_status x) "archived") as [|Ha]; [by right|]. exfalso. apply H.
    exists e. split.
    + apply list_elem_of_In, list_elem_of_fmap. exists (key, e). by rewrite elem_of_map_to_list.
    + rewrite Hx, Ht, !String.eqb_refl. cbn.
      by rewrite (proj2 (String.eqb_neq _ _) Hc), (proj2 (String.eqb_neq _ _) Ha).
  - intros H (e & He & Hb). apply list_elem_of_In, list_elem_of_fmap in He as ([key e'] & -> & He).
    apply elem_of_map_to_list in He. cbn in Hb. reflect_bools.
    destruct (pj_issues p !! er_from e') as [x|] eqn:Ex; [|done]. reflect_bools.
    by destruct (H key e' x) as [?|?].
Qed.
Lemma ready_spec p now r :
  ready p now r = true <-> r.(ir_status) = "open" /\
    (r.(ir_claim_token) = None \/
     exists e, r.(ir_claim_expires_at) = Some e /\ String.leb e now = true) /\
    r.(ir_wedge_reason) = None /\
    forall key e x, p.(pj_edges) !! key = Some e ->
      e.(er_to) = r.(ir_id) -> e.(er_type) = "blocks" -> p.(pj_issues) !! e.(er_from) = Some x ->
      x.(ir_status) = "closed" \/ x.(ir_status) = "archived".
Proof.
  unfold ready, is_open. rewrite !andb_true_iff, negb_true_iff, String.eqb_eq, unclaimed_spec,
    bool_decide_eq_true, blocked_spec. naive_solver.
Qed.
Lemma sorted_filter {A} (R : A -> A -> Prop) f l :
  StronglySorted R l -> StronglySorted R (List.filter f l).
Proof.
  induction 1 as [|x l Hl IH Hx]; cbn; [constructor|]. destruct (f x); [|done].
  constructor; [done|]. rewrite Forall_forall in Hx |- *. intros y Hy. apply Hx.
  apply list_elem_of_In, filter_In in Hy as [Hy _]. by apply list_elem_of_In.
Qed.

(** ** Claims *)
Lemma bindM_ok {A B} (m : M A) (f : A -> M B) st b st' :
  bindM m f st = (Ok b, st') <-> exists a st1, m st = (Ok a, st1) /\ f a st1 = (Ok b, st').
Proof. unfold bindM. destruct (m st) as [[a|e] st1]; naive_solver. Qed.
Lemma requireIssue_ok id st i st' :
  requireIssue id st = (Ok i, st') <-> getIssue id st = Some i /\ st' = st.
Proof. unfold requireIssue. destruct (getIssue id st); naive_solver. Qed.

Section ClaimSteps.
Context (sha256 : string -> string).

Lemma appendOp_ok cf ts arg type payload st op st' :
  appendOp sha256 cf quiet ts arg type payload st = (Ok op, st') ->
  op = nextOp sha256 cf ts arg type payload st /\ st' = appended sha256 cf st op.
Proof.
  intros H. pose proof (appendOp_quiet sha256 cf ts arg type payload st) as Hq. cbn zeta in Hq.
  destruct (st_ops st !! _); [destruct Hq as [e Hq]; congruence|]. rewrite Hq in H. by injection H as <- <-.
Qed.
Definition claimed_row (ts expiresAt entropy : string) (audience : Json) (r : IssueRow) : IssueRow :=
  row_claim (Some (claimTokenOf sha256 entropy)) (Some (stringify audience)) (Some expiresAt) ts r.
Definition claimable (ts : string) (r : IssueRow) : bool := is_open r && unclaimed_at ts r.
Definition with_issue (id : string) (r : IssueRow) (p : Projection) : Projection :=
  {| pj_issues := <[id := r]> p.(pj_issues); pj_edges := p.(pj_edges) |}.
(** The claim on an item. *)
Definition token_on (id : string) (st : Store) : option string := st.(st_projection).(pj_issues) !! id ≫= ir_claim_token.

(** The store an append's fold finds: its op is inserted, its file written, and
    other processes have done what they did before the fold. *)
Definition fold_point (cf : Config) (env : Interference) (ts : string) (arg : Z -> string) (type : WgOpType)
    (payload : Payload) (st : Store) : Store :=
  let ins := insertOp sha256 MAX_APPEND_RETRIES 0 env cf.(cf_actorId) ts arg type payload st in
  env.(if_apply) (match ins.1 with Ok op => (writeOpFile cf.(cf_sourceDir) op ins.2).2 | Err _ => ins.2 end).
Definition claim_fold (cf : Config) (env : Interference) (ts id : string) (audience : Json) (expiresAt entropy : string) : Store -> Store :=
  fold_point cf env ts (fun _ => id) claim_acquired
    [("claimToken", JStr (claimTokenOf sha256 entropy)); ("audience", audience); ("expiresAt", JStr expiresAt)].
Definition release_fold (cf : Config) (env : Interference) (ts id entropy : string) : Store -> Store :=
  fold_point cf env ts (fun _ => id) claim_released [("expectedToken", JStr (claimTokenOf sha256 entropy))].

Lemma insertOp_candidate fuel n env actorId ts arg type payload st op :
  (insertOp sha256 fuel n env actorId ts arg type payload st).1 = Ok op -> exists l, op = candidateOp sha256 actorId ts arg type payload l.
Proof.
  revert n st. induction fuel as [|fuel IH]; intros n st; cbn [insertOp];
    (destruct (if_busy env n); [try done; apply IH|]); (destruct (st_ops _ !! _); [try done; apply IH|]);
    intros [= <-]; by eexists.
Qed.
(** An append folds its own op into what the fold finds. *)
Lemma appendOp_folds cf env ts arg type payload st op st' :
  appendOp sha256 cf env ts arg type payload st = (Ok op, st') ->
  (exists l, op = candidateOp sha256 cf.(cf_actorId) ts arg type payload l) /\
  let st1 := fold_point cf env ts arg type payload st in
  st' = env.(if_after) (with_projection st1 (applyOp sha256 op st1.(st_projection))).
Proof.
  unfold appendOp, fold_point, bindM. pose proof (insertOp_candidate MAX_APPEND_RETRIES 0 env cf.(cf_actorId) ts arg type payload st) as Hc.
  destruct (insertOp _ _ _ _ _ _ _ _ _ st) as [[op'|e] st1]; [|done]. cbn [fst snd] in *. unfold projectOp.
  cbn -[Nat.ltb MAX_APPEND_RETRIES]. destruct (MAX_APPEND_RETRIES <? if_applyBusy env)%nat; [done|]. intros [= <- <-].
  split; [by apply Hc|done].
Qed.
(** Alone, the fold finds the projection the append started from. *)
Lemma fold_point_quiet cf ts arg type payload st : st_projection (fold_point cf quiet ts arg type payload st) = st_projection st.
Proof.
  unfold fold_point. cbn [quiet if_apply].
  assert (H : st_projection (insertOp sha256 MAX_APPEND_RETRIES 0 quiet (cf_actorId cf) ts arg type payload st).2 = st_projection st).
  { destruct (st_ops st !! op_id (nextOp sha256 cf ts arg type payload st)) eqn:E.
    - destruct (insertOp_quiet_clash sha256 MAX_APPEND_RETRIES 0 cf.(cf_actorId) ts arg type payload st) as [e He]; [by eexists|]. by rewrite He.
    - cbn [insertOp MAX_APPEND_RETRIES quiet if_select if_insert if_busy]. fold (nextOp sha256 cf ts arg type payload st). by rewrite E. }
  destruct (insertOp _ _ _ _ _ _ _ _ _ st) as [[op|e] st1]; [|exact H]. cbn in *. by destruct (cf_sourceDir cf).
Qed.

(** What the claim op does to the issues, and the release of that token. *)
Lemma claim_applied actor ts id audience expiresAt entropy l p r : p.(pj_issues) !! id = Some r ->
  applyOp sha256 (candidateOp sha256 actor ts (fun _ => id) claim_acquired
    [("claimToken", JStr (claimTokenOf sha256 entropy)); ("audience", audience); ("expiresAt", JStr expiresAt)] l) p =
  if claimable ts r then with_issue id (claimed_row ts expiresAt entropy audience r) p else p.
Proof. intros Hr. unfold applyOp, updateIssues, claimable. cbn. by rewrite Hr. Qed.
Definition released (ts id entropy : string) (p : Projection) : Projection :=
  match p.(pj_issues) !! id with
  | Some r => if bool_decide (r.(ir_claim_token) = Some (claimTokenOf sha256 entropy)) then with_issue id (row_claim None None None ts r) p else p
  | None => p
  end.
Lemma release_applied actor ts id entropy l p :
  applyOp sha256 (candidateOp sha256 actor ts (fun _ => id) claim_released [("expectedToken", JStr (claimTokenOf sha256 entropy))] l) p =
  released ts id entropy p.
Proof. unfold applyOp, updateIssues, released. cbn. by destruct (pj_issues p !! id). Qed.
Lemma released_token ts id entropy st : token_on id (with_projection st (released ts id entropy st.(st_projection))) <> Some (claimTokenOf sha256 entropy).
Proof.
  unfold token_on, released. cbn [with_projection st_projection]. destruct (pj_issues (st_projection st) !! id) as [r|] eqn:Er; [|by rewrite Er].
  case_bool_decide as Ht; [|by rewrite Er]. cbn [with_issue pj_issues]. by rewrite lookup_insert_eq.
Qed.
(** The read-back finds the token that is on the item. *)
Lemma reads_token id st entropy :
  match getIssue id st with Some i => bool_decide (i.(i_claimToken) = Some (claimTokenOf sha256 entropy)) | None => false end =
  bool_decide (token_on id st = Some (claimTokenOf sha256 entropy)).
Proof.
  unfold getIssue, token_on. destruct (pj_issues (st_projection st) !! id) as [r|]; [|done]. cbn. unfold optStr.
  destruct (ir_claim_token r) as [t|]; [|done]. destruct (String.eqb_spec t "") as [->|]; [|done].
  by rewrite bool_decide_false, bool_decide_false.
Qed.
End ClaimSteps.

(** ** Interference *)
Lemma insertOp_adds sha256 fuel n env actorId ts arg type payload st :
  (forall n st, st.(st_ops) ⊆ (env.(if_select) n st).(st_ops)) ->
  (forall n st, st.(st_ops) ⊆ (env.(if_insert) n st).(st_ops)) ->
  let '(res, st') := insertOp sha256 fuel n env actorId ts arg type payload st in
  st.(st_ops) ⊆ st'.(st_ops) /\
  forall op, res = Ok op ->
    op = candidateOp sha256 actorId ts arg type payload op.(op_lamport) /\
    st.(st_ops) !! op.(op_id) = None /\ st'.(st_ops) !! op.(op_id) = Some op /\
    forall k o, st.(st_ops) !! k = Some o -> (o.(op_lamport) < op.(op_lamport))%Z.
Proof.
  intros Hs Hi. revert n st. induction fuel as [|fuel IH]; intros n st; cbn [insertOp];
    set (st1 := if_select env n st); set (op0 := candidateOp _ _ _ _ _ _ _);
    set (st2 := if_insert env n st1);
    assert (st_ops st ⊆ st_ops st1) as H01 by apply Hs;
    assert (st_ops st1 ⊆ st_ops st2) as H12 by apply Hi;
    assert (st_ops st ⊆ st_ops st2) as H02 by (by etrans);
    (assert (st_ops st2 !! op_id op0 = None ->
      st_ops st ⊆ <[op_id op0 := op0]> (st_ops st2) /\
      forall op, Ok (E := string) op0 = Ok op ->
        op = candidateOp sha256 actorId ts arg type payload op.(op_lamport) /\
        st_ops st !! op_id op = None /\ <[op_id op0 := op0]> (st_ops st2) !! op_id op = Some op /\
        forall k o, st_ops st !! k = Some o -> (op_lamport o < op_lamport op)%Z) as Hdone;
     [ intros E2; split;
       [by apply insert_subseteq_r; [by eapply lookup_weaken_None|]
       |intros op [= <-]; split_and!;
        [done|by eapply lookup_weaken_None|by rewrite lookup_insert_eq
        |intros k o Ho; eapply lookup_weaken in Ho; [|exact H01];
         pose proof (maxLamport_ge _ _ _ Ho); cbn; lia]] |]).
  - destruct (if_busy env n); [split; [done|congruence]|].
    destruct (st_ops st2 !! op_id op0) eqn:E2; [split; [done|congruence]|]. by apply Hdone.
  - assert (let '(res, st') := insertOp sha256 fuel (S n) env actorId ts arg type payload st2 in
      st_ops st ⊆ st_ops st' /\ forall op, res = Ok op ->
        op = candidateOp sha256 actorId ts arg type payload op.(op_lamport) /\
        st_ops st !! op_id op = None /\ st_ops st' !! op_id op = Some op /\
        forall k o, st_ops st !! k = Some o -> (op_lamport o < op_lamport op)%Z) as Hretry.
    { specialize (IH (S n) st2). destruct (insertOp _ _ _ _ _ _ _ _ _ st2) as [res st'].
      destruct IH as [H23 Hop]. split; [by etrans|]. intros op Hres.
      destruct (Hop op Hres) as (H1 & H2 & H3 & H4). split_and!; try done.
      - by eapply lookup_weaken_None.
      - intros k o Ho. eapply H4, lookup_weaken; done. }
    destruct (if_busy env n); [done|].
    destruct (st_ops st2 !! op_id op0) eqn:E2; [done|]. by apply Hdone.
Qed.

(** ** Properties *)
Section Claims.
Context (sha256 : string -> string).

(** C1: the live projection is the replay of the log: after any program of
    store operations of one writer, rebuilding from the op files, in whatever
    order the directory lists them, restores exactly the store: the same ops,
    the same issues, the same edges. *)
Theorem rebuild_reproduces_live (cf : Config) (cs : list Command) (files : list WgOp) :
  keeps_files cf ->
  files ≡ₚ (snd <$> map_to_list (st_files (run sha256 cf cs emptyStore))) ->
  rebuildWorkGraph sha256 files (run sha256 cf cs emptyStore)
    = (run sha256 cf cs emptyStore, length files).
Proof.
  intros Hc. apply rebuild_coherent. unfold run.
  assert (forall st, coherent sha256 st ->
    coherent sha256 (fold_left (fun st c => (command sha256 cf c st).2) cs st)) as H.
  { induction cs as [|c cs' IH]; intros st Hst; cbn; [done|]. apply IH. by apply command_coherent. }
  apply H, emptyStore_coherent.
Qed.

(** Re-running the fold of one op is a no-op, for every kind of op: the
    BUSY retries of the append path cannot change the projection twice. *)
Lemma applyOp_idempotent (op : WgOp) (p : Projection) :
  applyOp sha256 op (applyOp sha256 op p) = applyOp sha256 op p.
Proof. apply applyOp_twice. Qed.

(** An issue is ready exactly when it is open, neither live-claimed nor
    wedged, and every issue that blocks it is closed or archived; the ready
    issues come in creation order. *)
Lemma listReady_exact (now : string) (st : Store) :
  (forall i, i ∈ listReady now st <->
    exists id r, st.(st_projection).(pj_issues) !! id = Some r /\ i = rowToIssue r /\
      r.(ir_status) = "open" /\
      (r.(ir_claim_token) = None \/
       exists e, r.(ir_claim_expires_at) = Some e /\ String.leb e now = true) /\
      r.(ir_wedge_reason) = None /\
      forall key e x, st.(st_projection).(pj_edges) !! key = Some e ->
        e.(er_to) = r.(ir_id) -> e.(er_type) = "blocks" ->
        st.(st_projection).(pj_issues) !! e.(er_from) = Some x ->
        x.(ir_status) = "closed" \/ x.(ir_status) = "archived") /\
  exists rows, listReady now st = rowToIssue <$> rows /\
    StronglySorted (fun a b => row_le a b = true) rows.
Proof.
  split.
  - intros i. unfold listReady. rewrite list_elem_of_fmap. split.
    + intros (r & -> & Hr). apply list_elem_of_In, filter_In in Hr as [Hr Hready].
      apply list_elem_of_In, elem_issueRows in Hr as [id Hid].
      apply ready_spec in Hready. exists id, r. naive_solver.
    + intros (id & r & Hid & -> & Hready). exists r. split; [done|].
      apply list_elem_of_In, filter_In. split.
      * apply list_elem_of_In, elem_issueRows. by exists id.
      * by apply ready_spec.
  - eexists. split; [reflexivity|]. apply sorted_filter, issueRows_sorted.
Qed.

(** C2: a claim is a compare-and-set, whatever other processes do before its
    INSERT, between INSERT and fold ([st1] is what the fold finds), and before
    the read-back ([st2] is what that finds), as long as they never write this
    claim's token.  The fold takes the item exactly when it is open and
    unclaimed, or its claim has expired, at the claim's time; then the row
    carries this claim and nothing else has changed, and otherwise nothing has:
    a claim in force when another folds is not lost to it.  The claim is won
    exactly when authority held before the append and at the read-back, and the
    token was still on the item; authority lost in between releases this
    token and no other.  A claim that is not won leaves no token of its own.
    Which claim an interleaving keeps is said of the live projection: a rebuild
    may replay the ops in another order than they were folded in
    ([interleaved_claims_diverge_from_rebuild]). *)
Theorem claimIssue_cas (cf : Config) (env env' : Interference) (ts ts' id : string) (audience : Json)
    (expiresAt entropy : string) (au au' : bool) (st st' : Store) (won : bool) (e : string) (r : IssueRow) :
  let token := claimTokenOf sha256 entropy in
  let st1 := claim_fold sha256 cf env ts id audience expiresAt entropy st in
  let p := if claimable ts r then with_issue id (claimed_row sha256 ts expiresAt entropy audience r) st1.(st_projection)
           else st1.(st_projection) in
  let st2 := env.(if_after) (with_projection st1 p) in
  claimIssue sha256 cf env env' ts ts' id audience expiresAt entropy au au' st = (Ok (won, e), st') ->
  token_on id st <> Some token ->
  st1.(st_projection).(pj_issues) !! id = Some r -> r.(ir_claim_token) <> Some token ->
  (forall s, token_on id (env.(if_after) s) = Some token -> token_on id s = Some token) ->
  (forall s, token_on id (env'.(if_after) s) = Some token -> token_on id s = Some token) ->
  (claimable ts r = true <-> r.(ir_status) = "open" /\
     (r.(ir_claim_token) = None \/ exists x, r.(ir_claim_expires_at) = Some x /\ String.leb x ts = true)) /\
  (won = true <-> au = true /\ au' = true /\ token_on id st2 = Some token) /\
  (won = true -> claimable ts r = true) /\
  (won = false -> token_on id st' <> Some token) /\
  st' = (if au then
           if bool_decide (token_on id st2 = Some token) && negb au'
           then let st3 := release_fold sha256 cf env' ts' id entropy st2 in
                env'.(if_after) (with_projection st3 (released sha256 ts' id entropy st3.(st_projection)))
           else st2
         else st).
Proof.
  intros token st1 p st2 H Hst Hr Hf Hafter Hafter'.
  split. { unfold claimable, is_open. by rewrite andb_true_iff, String.eqb_eq, unclaimed_spec. }
  unfold claimIssue in H. apply bindM_ok in H as (i & st0 & [_ ->]%requireIssue_ok & H).
  destruct au; cbn [negb] in H; [|injection H as <- <- <-; naive_solver].
  apply bindM_ok in H as (op & st2' & [[l ->] Hst2]%appendOp_folds & H). cbn zeta in Hst2.
  fold (claim_fold sha256 cf env ts id audience expiresAt entropy st) in Hst2. fold st1 in Hst2.
  rewrite (claim_applied sha256 _ _ _ _ _ _ _ _ r) in Hst2 by done. fold p in Hst2. fold st2 in Hst2. subst st2'.
  assert (Hclaim : token_on id st2 = Some token -> claimable ts r = true).
  { intros Ht%Hafter. destruct (claimable ts r) eqn:Ec; [done|]. unfold token_on, p in Ht.
    cbn [with_projection st_projection] in Ht. rewrite Hr in Ht. done. }
  apply bindM_ok in H as (cur & st2' & [= <- <-] & H). rewrite reads_token in H. fold token in H.
  case_bool_decide as Ht; cbn [andb] in *; [|injection H as <- <- <-; naive_solver].
  destruct au'; cbn [negb] in *; [injection H as <- <- <-; naive_solver|].
  apply bindM_ok in H as (op & st4 & [[l' ->] Hst4]%appendOp_folds & [= <- <- <-]). cbn zeta in Hst4. unfold token in Hst4.
  rewrite release_applied in Hst4. fold (release_fold sha256 cf env' ts' id entropy st2) in Hst4.
  split; [naive_solver|]. split; [done|]. split; [|done]. intros _ Hh. rewrite Hst4 in Hh. by apply Hafter', released_token in Hh.
Qed.

(** An update writes exactly the patched fields and reports a close to
    the terminal callback exactly on a transition: the patch sets [closed] or
    [archived] and the issue's status was a different one before. *)
Lemma updateIssue_reports_transitions (cf : Config) (ts id : string)
    (title body status : option string) (st st' : Store) (i : Issue) (fired : list string) (r : IssueRow) :
  updateIssue sha256 cf quiet ts id title body status st = (Ok (i, fired), st') ->
  st.(st_projection).(pj_issues) !! id = Some r -> (r.(ir_lww) <= maxLamport st.(st_ops))%Z ->
  st'.(st_projection).(pj_issues) = <[id := row_set title body status ts (maxLamport st.(st_ops) + 1) r]>
                                      st.(st_projection).(pj_issues) /\
  (fired = [id] <-> (status = Some "closed" \/ status = Some "archived") /\
                    status <> Some (toStatus r.(ir_status))) /\
  (fired <> [id] -> fired = []).
Proof.
  intros H Hr Hl. unfold updateIssue in H.
  apply bindM_ok in H as (cur & st0 & [Hcur ->]%requireIssue_ok & H).
  unfold getIssue in Hcur. rewrite Hr in Hcur. injection Hcur as <-.
  apply bindM_ok in H as (op & st1 & [-> Hst1]%appendOp_ok & H).
  assert (st1.(st_projection).(pj_issues) =
    <[id := row_set title body status ts (maxLamport st.(st_ops) + 1) r]> st.(st_projection).(pj_issues)) as Hp.
  { rewrite Hst1. cbn [appended st_projection]. unfold applyOp, updateIssues, not_newer. cbn [op_type op_issueId nextOp candidateOp op_lamport].
    rewrite Hr, (proj2 (Z.leb_le _ _)) by lia. by destruct title, body, status. }
  clear Hst1. apply bindM_ok in H as (next & st2 & [= <- <-] & H).
  destruct (getIssue id st1) as [i'|]; [|done]. injection H as _ <- <-. split; [done|].
  cbn [rowToIssue i_status]. destruct status as [x|]; [|naive_solver].
  match goal with |- ((if ?b then _ else _) = _ <-> _) /\ _ =>
    assert (b = true <-> (x = "closed" \/ x = "archived") /\ x <> toStatus (ir_status r)) as Hb
      by (rewrite andb_true_iff, orb_true_iff, negb_true_iff, !String.eqb_eq, String.eqb_neq; naive_solver);
    destruct b
  end.
  - split; [|by intros []]. split; [|done]. intros _. destruct (proj1 Hb eq_refl) as [Hx Hne].
    split; [destruct Hx as [-> | ->]; auto|congruence].
  - split; [|done]. split; [done|]. intros [Hx Hne].
    enough (false = true) by done. apply Hb. split; [destruct Hx; [left|right]; congruence|].
    intros E. apply Hne. by rewrite E.
Qed.

(** Other processes only add ops. *)
Definition only_adds (env : Interference) : Prop :=
  (forall n st, st.(st_ops) ⊆ (env.(if_select) n st).(st_ops)) /\
  (forall n st, st.(st_ops) ⊆ (env.(if_insert) n st).(st_ops)) /\
  (forall st, st.(st_ops) ⊆ (env.(if_apply) st).(st_ops)) /\
  (forall st, st.(st_ops) ⊆ (env.(if_after) st).(st_ops)).

(** The log is append-only under interference: when other processes only
    add ops around and between its statements, an append that succeeds adds
    one op of its own whose Lamport stamp exceeds every op the store held when
    it started, and an append that fails after its retries, like one that
    succeeds, keeps every op that was there. *)
Lemma appendOp_append_only (cf : Config) (env : Interference) (ts : string) (arg : Z -> string)
    (type : WgOpType) (payload : Payload) (st : Store) :
  only_adds env ->
  let '(res, st') := appendOp sha256 cf env ts arg type payload st in
  st.(st_ops) ⊆ st'.(st_ops) /\
  forall op, res = Ok op ->
    op = candidateOp sha256 cf.(cf_actorId) ts arg type payload op.(op_lamport) /\
    st.(st_ops) !! op.(op_id) = None /\ st'.(st_ops) !! op.(op_id) = Some op /\
    forall k o, st.(st_ops) !! k = Some o -> (o.(op_lamport) < op.(op_lamport))%Z.
Proof.
  intros Hadd. unfold appendOp, bindM.
  pose proof (insertOp_adds sha256 MAX_APPEND_RETRIES 0 env cf.(cf_actorId) ts arg type payload st (proj1 Hadd)
                (proj1 (proj2 Hadd))) as H.
  destruct (insertOp _ _ _ _ _ _ _ _ _ st) as [[op|e] st1]; [|naive_solver].
  destruct H as [Hsub Hop]. unfold writeOpFile, projectOp. cbn -[Nat.ltb MAX_APPEND_RETRIES].
  set (st2 := if cf_sourceDir cf then _ else st1).
  assert (st_ops st2 = st_ops st1) as E2 by (unfold st2; by destruct (cf_sourceDir cf)).
  destruct Hadd as (_ & _ & Hap & Haf). pose proof (Hap st2) as Ha. rewrite E2 in Ha.
  destruct (Hop op eq_refl) as (H1 & H2 & H3 & H4).
  assert (st_ops st ⊆ st_ops (if_apply env st2)) as Hall by (by etrans).
  destruct (MAX_APPEND_RETRIES <? if_applyBusy env)%nat; [done|]. pose proof (Haf (with_projection (if_apply env st2) (applyOp sha256 op (st_projection (if_apply env st2))))) as Hl.
  cbn [with_projection st_ops] in Hl. split; [by etrans|]. intros op' [= <-]. split_and!; try done. eapply lookup_weaken; [|exact Hl]. by eapply lookup_weaken.
Qed.

(** The reconcile watermark never rewinds: after any sequence of
    advances it is the greatest value handed in, or the initial one. *)
Lemma highWater_monotone (st : Store) (ls : list Z) :
  readHighWater (fold_left (fun st l => advanceHighWater l st) ls st) =
  match st.(st_cursor) !! "harness", ls with
  | Some cur, _ => foldr Z.max cur ls
  | None, [] => 0%Z
  | None, l :: rest => foldr Z.max l rest
  end.
Proof.
  assert (forall ls st cur, st.(st_cursor) !! "harness" = Some cur ->
    readHighWater (fold_left (fun st l => advanceHighWater l st) ls st) = foldr Z.max cur ls) as Hsome.
  { clear. intros ls. induction ls as [|l ls IH]; intros st cur Hc; cbn.
    - unfold readHighWater. by rewrite Hc.
    - rewrite (IH _ (Z.max cur l)).
      + clear. induction ls as [|l' ls IH]; cbn; lia.
      + unfold advanceHighWater. cbn. by rewrite Hc, lookup_insert_eq. }
  destruct (st_cursor st !! "harness") as [cur|] eqn:E; [by apply Hsome|].
  destruct ls as [|l rest]; cbn; [unfold readHighWater; by rewrite E|].
  apply Hsome. unfold advanceHighWater. cbn. by rewrite E, lookup_insert_eq.
Qed.
End Claims.

(** ** Identity of operations *)
Lemma split_at_char c x y u v :
  has_char c x = false -> has_char c y = false -> x +:+ String c u = y +:+ String c v -> x = y /\ u = v.
Proof.
  revert y. induction x as [|a x IH]; intros [|b y] Hx Hy H; cbn in *; reflect_bools.
  - by injection H.
  - injection H as -> _. by rewrite Ascii.eqb_refl in *.
  - injection H as <- _. by rewrite Ascii.eqb_refl in *.
  - injection H as -> H. destruct (IH y) as [-> ->]; done.
Qed.
Lemma num_chars_no_newline x : num_chars x = true -> has_char "010"%char x = false.
Proof.
  induction x as [|a x IH]; cbn; [done|]. intros [Ha Hx]%andb_true_iff. rewrite IH by done.
  rewrite orb_false_r. apply Ascii.eqb_neq. by intros ->.
Qed.
Lemma op_type_name_inj t1 t2 : op_type_name t1 = op_type_name t2 -> t1 = t2.
Proof. by destruct t1, t2. Qed.

(** What an op id hashes determines the op's content: two hashed texts
    agree exactly when type, Lamport stamp, replica and payload (up to the
    order of its keys) agree, for replica ids without a newline. *)
Lemma opIdPreimage_content (t1 t2 : WgOpType) (p1 p2 : Payload) (l1 l2 : Z) (a1 a2 : string) :
  has_char "010"%char a1 = false -> has_char "010"%char a2 = false ->
  opIdPreimage t1 p1 l1 a1 = opIdPreimage t2 p2 l2 a2 <->
  t1 = t2 /\ l1 = l2 /\ a1 = a2 /\ norm (JObj p1) = norm (JObj p2).
Proof.
  intros H1 H2. unfold opIdPreimage. split.
  - intros H. apply split_at_char in H as [->%op_type_name_inj H]; [|by destruct t1|by destruct t2].
    apply split_at_char in H as [->%pretty_Z_inj H];
      [|apply num_chars_no_newline, pretty_Z_chars|apply num_chars_no_newline, pretty_Z_chars].
    apply split_at_char in H as [-> H]; [|done|done].
    rewrite !canonicalJson_norm in H. by apply stringify_inj in H.
  - intros (-> & -> & -> & Hn). by rewrite !canonicalJson_norm, Hn.
Qed.

(** ** Two writers *)

(** A small executable hash for concrete runs. *)
Definition toy_hash (x : string) : string :=
  let h := fold_left (fun (a : N) (c : ascii) => ((a * 31 + N_of_ascii c) mod 100000000000000003)%N)
             (String.list_ascii_of_string x) 7%N in
  "0000000000000000" +:+ pretty h.
Definition toy16 (x : string) : string := String.substring 8 16 (toy_hash x) +:+ "0000000000000000".

Definition writer : Config := {| cf_actorId := "home"; cf_sourceDir := true |}.
Definition one_issue : Store := run toy16 writer [CCreate "t0" "build" ""] emptyStore.
Definition the_id : string :=
  match listReady "t1" one_issue with i :: _ => i.(i_id) | [] => "" end.
(** The second process runs its whole claim between the first one's INSERT and
    its fold. *)
Definition between : Interference :=
  {| if_select := fun _ st => st; if_insert := fun _ st => st; if_busy := fun _ => false;
     if_apply := fun st => (claimIssue toy16 writer quiet quiet "t2" "t2" the_id JNull "t8" "second" true true st).2;
     if_applyBusy := 0; if_after := fun st => st |}.
Definition raced : result string (bool * string) * Store :=
  claimIssue toy16 writer between quiet "t1" "t1" the_id JNull "t9" "first" true true one_issue.
Definition token_of (st : Store) : option string :=
  match st.(st_projection).(pj_issues) !! the_id with Some r => r.(ir_claim_token) | None => None end.

(** Insert-then-fold is not atomic across processes: when a second
    process appends and folds its claim between the first one's INSERT and its
    fold, the live store gives the item to the second claimant while a rebuild
    from the op files gives it to the first, which was told it had lost. *)
Lemma interleaved_claims_diverge_from_rebuild :
  raced.1 = Ok (false, "t9") /\
  token_of raced.2 = Some (claimTokenOf toy16 "second") /\
  token_of (rebuildWorkGraph toy16 (snd <$> map_to_list raced.2.(st_files)) raced.2).1
    = Some (claimTokenOf toy16 "first") /\
  claimTokenOf toy16 "first" <> claimTokenOf toy16 "second".
Proof.
  split; [vm_compute; reflexivity|]. split; [vm_compute; reflexivity|].
  split; [vm_compute; reflexivity|]. vm_compute. discriminate.
Qed.

(** ** Witnesses *)
Definition demo_program : list Command :=
  [CCreate "t0" "a" ""; CCreate "t1" "b" ""; CUpdate "t2" the_id None None (Some "closed")].

Lemma rebuild_reproduces_live_witness :
  let st := run toy16 writer demo_program emptyStore in
  rebuildWorkGraph toy16 (snd <$> map_to_list (st_files st)) st
    = (st, length (snd <$> map_to_list (st_files st))).
Proof. apply rebuild_reproduces_live; [split; [done|discriminate]|reflexivity]. Defined.

(** Alone a claim wins; when another claim is folded before its own fold it
    loses and leaves the other in force. *)
Lemma claimIssue_cas_witness :
  (exists st' r, claimIssue toy16 writer quiet quiet "t1" "t1" the_id JNull "t9" "first" true true one_issue = (Ok (true, "t9"), st') /\
     claimable "t1" r = true) /\
  raced.1 = Ok (false, "t9") /\ token_on the_id raced.2 = Some (claimTokenOf toy16 "second") /\
  token_on the_id raced.2 <> Some (claimTokenOf toy16 "first").
Proof.
  split.
  - destruct (claimIssue toy16 writer quiet quiet "t1" "t1" the_id JNull "t9" "first" true true one_issue) as [res st'] eqn:Ec.
    assert (res = Ok (true, "t9")) as -> by (vm_compute in Ec; by injection Ec as <- <-).
    destruct (pj_issues (st_projection (claim_fold toy16 writer quiet "t1" the_id JNull "t9" "first" one_issue)) !! the_id) as [r|] eqn:Er;
      [|by vm_compute in Er].
    exists st', r. split; [done|].
    destruct (claimIssue_cas toy16 writer quiet quiet "t1" "t1" the_id JNull "t9" "first" true true one_issue st' true "t9" r Ec)
      as (_ & _ & H & _); [vm_compute; discriminate|exact Er| |auto|auto|exact (H eq_refl)].
    vm_compute in Er. injection Er as <-. discriminate.
  - destruct raced as [res st'] eqn:Ec. assert (res = Ok (false, "t9")) as -> by (vm_compute in Ec; by injection Ec as <- <-).
    split; [done|]. split; [vm_compute in Ec; injection Ec as <-; vm_compute; reflexivity|].
    destruct (pj_issues (st_projection (claim_fold toy16 writer between "t1" the_id JNull "t9" "first" one_issue)) !! the_id) as [r|] eqn:Er;
      [|by vm_compute in Er].
    destruct (claimIssue_cas toy16 writer between quiet "t1" "t1" the_id JNull "t9" "first" true true one_issue st' false "t9" r Ec)
      as (_ & _ & _ & H & _); [vm_compute; discriminate|exact Er| |auto|auto|exact (H eq_refl)].
    vm_compute in Er. injection Er as <-. vm_compute. discriminate.
Defined.

Lemma updateIssue_reports_transitions_witness :
  exists i st', updateIssue toy16 writer quiet "t1" the_id None None (Some "closed") one_issue
    = (Ok (i, [the_id]), st').
Proof.
  destruct (updateIssue toy16 writer quiet "t1" the_id None None (Some "closed") one_issue)
    as [res st'] eqn:Eu.
  destruct res as [[i fired]|e]; [|by vm_compute in Eu].
  destruct (one_issue.(st_projection).(pj_issues) !! the_id) as [r|] eqn:Er; [|by vm_compute in Er].
  exists i, st'. do 3 f_equal.
  refine (proj2 (proj1 (proj2 (updateIssue_reports_transitions toy16 writer _ _ _ _ _ _ _ i fired r Eu Er _))) _).
  - vm_compute in Er. injection Er as <-. by vm_compute.
  - vm_compute in Er. injection Er as <-. split; [by left|by vm_compute].
Defined.

Lemma appendOp_append_only_witness :
  one_issue.(st_ops) ⊆
    (appendOp toy16 writer quiet "t1" (fun _ => the_id) wedge_cleared [] one_issue).2.(st_ops).
Proof.
  pose proof (appendOp_append_only toy16 writer quiet "t1" (fun _ => the_id) wedge_cleared [] one_issue) as H.
  destruct (appendOp toy16 writer quiet "t1" (fun _ => the_id) wedge_cleared [] one_issue) as [res st'].
  apply H. by split_and!.
Defined.

Lemma opIdPreimage_content_witness :
  opIdPreimage issue_set [("a", JNull); ("b", JNull)] 3 "x" = opIdPreimage issue_set [("b", JNull); ("a", JNull)] 3 "x".
Proof. apply opIdPreimage_content; [reflexivity|reflexivity|]. split_and!; [done..|by vm_compute]. Defined.
