(* ===== verification/ExprSyntax.v ===== *)
(** * The [if:] expression language: lexer, parser, AST
      ([src/src/runtime/evaluator/expression/lexer.ts], [parser.ts], [ast.ts])

    The lexer tries the token patterns at the front of the input in the
    declared order; the parser is the grammar's recursive descent, producing
    the AST the CST visitor builds.  Token offsets, which no evaluation reads,
    are left out.  Strings are sequences of code units below 256. *)

From Stdlib Require Import Ascii String QArith.
From stdpp Require Import base option list strings.
From S2P Require Import Prelude.

(** ** Numbers: IEEE doubles as the rationals they denote *)
Inductive Num := NaN | Infinite (negative : bool) | Fin (q : Q).

(** The double nearest to [n/d] ([d > 0], [n >= 0]), ties to even. *)
Definition nearest_double (n d : Z) : Num :=
  if Z.eqb n 0 then Fin 0 else
  let l := (Z.log2 n - Z.log2 d)%Z in
  let l := if Z.ltb (n * 2 ^ (Z.max 0 (- l))) (d * 2 ^ (Z.max 0 l)) then (l - 1)%Z else l in
  let e := Z.max (l - 52) (-1074) in
  let nn := (n * 2 ^ (Z.max 0 (- e)))%Z in
  let dd := (d * 2 ^ (Z.max 0 e))%Z in
  let q := (nn / dd)%Z in
  let r := (nn mod dd)%Z in
  let m := if Z.ltb (2 * r) dd then q else if Z.ltb dd (2 * r) then (q + 1)%Z
           else if Z.even q then q else (q + 1)%Z in
  if Z.leb (2 ^ 1024) (m * 2 ^ (Z.max 0 e) / 2 ^ (Z.max 0 (- e))) then Infinite false
  else Fin (Qmake (m * 2 ^ (Z.max 0 e)) (Z.to_pos (2 ^ (Z.max 0 (- e))))).

(** ** Characters *)
Definition between (lo hi : nat) (c : ascii) : bool :=
  (lo <=? nat_of_ascii c)%nat && (nat_of_ascii c <=? hi)%nat.
Definition is_digit : ascii -> bool := between 48 57.
Definition is_alpha (c : ascii) : bool := between 65 90 c || between 97 122 c || Ascii.eqb c "_".
Definition is_word (c : ascii) : bool := is_alpha c || is_digit c.
(** [\s] below 128: tab, line feed, vertical tab, form feed, return, space;
    and the no-break space. *)
Definition is_space (c : ascii) : bool :=
  between 9 13 c || Ascii.eqb c " " || Nat.eqb (nat_of_ascii c) 160.
Definition is_newline (c : ascii) : bool :=
  Nat.eqb (nat_of_ascii c) 10 || Nat.eqb (nat_of_ascii c) 13.
Definition DQUOTE : ascii := "034"%char.
Definition BACKSLASH : ascii := "\"%char.

(** The longest prefix of characters satisfying [p], and the rest. *)
Fixpoint span (p : ascii -> bool) (s : string) : string * string :=
  match s with
  | EmptyString => ("", "")
  | String c s' => if p c then let '(a, b) := span p s' in (String c a, b) else ("", s)
  end.

(** ** Tokens *)
Inductive CompareOp := OpEq | OpNe | OpLt | OpLe | OpGt | OpGe.
Inductive Token :=
| StringLit (image : string) | NumberLit (image : string) | TrueT | FalseT | NullT
| Compare (op : CompareOp) | AndAnd | OrOr | Bang
| LParen | RParen | LBracket | RBracket | Comma | Dot
| Identifier (image : string).

(** The rest of a string literal after its opening quote: body and remainder. *)
Fixpoint string_body (s : string) : option (string * string) :=
  match s with
  | EmptyString => None
  | String c s' =>
      if Ascii.eqb c DQUOTE then Some ("", s')
      else if Ascii.eqb c BACKSLASH then
        match s' with
        | String d s'' =>
            if is_newline d then None
            else match string_body s'' with
                 | Some (b, r) => Some (String c (String d b), r)
                 | None => None
                 end
        | EmptyString => None
        end
      else match string_body s' with
           | Some (b, r) => Some (String c b, r)
           | None => None
           end
  end.

(** [\d+(?:\.\d+)?] *)
Definition lex_number (s : string) : string * string :=
  let '(whole, r) := span is_digit s in
  match r with
  | String "." r' =>
      match span is_digit r' with
      | ("", _) => (whole, r)
      | (frac, r'') => (whole +:+ "." +:+ frac, r'')
      end
  | _ => (whole, r)
  end.

Definition keyword (w : string) : Token :=
  if (w =? "true")%string then TrueT
  else if (w =? "false")%string then FalseT
  else if (w =? "null")%string then NullT
  else Identifier w.

(** The token at the front of the input; [None] is a lexing error. *)
Definition lex_one (s : string) : option (option Token * string) :=
  match s with
  | EmptyString => None
  | String c r =>
      if is_space c then Some (None, (span is_space s).2)
      else if Ascii.eqb c DQUOTE then
        match string_body r with
        | Some (b, r') => Some (Some (StringLit (String DQUOTE (b +:+ String DQUOTE ""))), r')
        | None => None
        end
      else if is_digit c then let '(n, r') := lex_number s in Some (Some (NumberLit n), r')
      else if is_alpha c then let '(w, r') := span is_word s in Some (Some (keyword w), r')
      else match s with
           | String "=" (String "=" (String "=" r')) => Some (Some (Compare OpEq), r')
           | String "=" (String "=" r') => Some (Some (Compare OpEq), r')
           | String "!" (String "=" (String "=" r')) => Some (Some (Compare OpNe), r')
           | String "!" (String "=" r') => Some (Some (Compare OpNe), r')
           | String "<" (String "=" r') => Some (Some (Compare OpLe), r')
           | String ">" (String "=" r') => Some (Some (Compare OpGe), r')
           | String "<" r' => Some (Some (Compare OpLt), r')
           | String ">" r' => Some (Some (Compare OpGt), r')
           | String "&" (String "&" r') => Some (Some AndAnd, r')
           | String "|" (String "|" r') => Some (Some OrOr, r')
           | String "!" r' => Some (Some Bang, r')
           | String "(" r' => Some (Some LParen, r')
           | String ")" r' => Some (Some RParen, r')
           | String "[" r' => Some (Some LBracket, r')
           | String "]" r' => Some (Some RBracket, r')
           | String "," r' => Some (Some Comma, r')
           | String "." r' => Some (Some Dot, r')
           | _ => None
           end
  end.

Fixpoint lex_fuel (fuel : nat) (s : string) : option (list Token) :=
  match s with
  | EmptyString => Some []
  | _ =>
      match fuel with
      | 0%nat => None
      | S fuel' =>
          match lex_one s with
          | Some (t, r) =>
              match lex_fuel fuel' r with
              | Some ts => Some (match t with Some t => t :: ts | None => ts end)
              | None => None
              end
          | None => None
          end
      end
  end.
Definition tokenize (s : string) : option (list Token) := lex_fuel (String.length s) s.

(** ** The AST *)
Inductive BinaryOp := OpCompare (op : CompareOp) | OpAnd | OpOr.
Inductive PathIndex := IdxNum (n : Num) | IdxStr (s : string).
Inductive PathSegment := SegProp (name : string) | SegIndex (value : PathIndex).
Inductive Literal := LitStr (s : string) | LitNum (n : Num) | LitBool (b : bool) | LitNull.
Inductive ASTNode :=
| ELiteral (value : Literal)
| EName (id : string)
| EPath (target : ASTNode) (segments : list PathSegment)
| ECall (name : string) (args : list ASTNode)
| ENot (operand : ASTNode)
| EBinary (op : BinaryOp) (lhs rhs : ASTNode).

(** [Number(image)] of a number token. *)
Fixpoint digits (acc : Z) (s : string) : Z :=
  match s with
  | EmptyString => acc
  | String c s' => digits (acc * 10 + (Z.of_nat (nat_of_ascii c) - 48)) s'
  end.
Definition number_of (image : string) : Num :=
  match split_char "."%char image with
  | [whole; frac] => nearest_double (digits 0 (whole +:+ frac)) (10 ^ Z.of_nat (String.length frac))
  | _ => nearest_double (digits 0 image) 1
  end.

(** [parseStringLit]: strip the quotes and process the escapes. *)
Definition escaped (c : ascii) : ascii :=
  if Ascii.eqb c "n" then "010"%char
  else if Ascii.eqb c "t" then "009"%char
  else if Ascii.eqb c "r" then "013"%char
  else c.
Fixpoint unescape (s : string) : string :=
  match s with
  | EmptyString => ""
  | String c s' =>
      if Ascii.eqb c BACKSLASH then
        match s' with
        | String d s'' => String (escaped d) (unescape s'')
        | EmptyString => String c ""
        end
      else String c (unescape s')
  end.
Definition parseStringLit (raw : string) : string :=
  unescape (String.substring 1 (String.length raw - 2) raw).

(** ** The parser *)
Abbreviation Parse A := (list Token -> option (A * list Token)).

Section Descent.
(** The recursive rule [expression], and the number of turns a [MANY] may take. *)
Context (expression : Parse ASTNode) (turns : nat).

Definition pathSegment : Parse PathSegment := fun ts =>
  match ts with
  | Dot :: Identifier name :: r => Some (SegProp name, r)
  | LBracket :: NumberLit n :: RBracket :: r => Some (SegIndex (IdxNum (number_of n)), r)
  | LBracket :: StringLit x :: RBracket :: r => Some (SegIndex (IdxStr (parseStringLit x)), r)
  | _ => None
  end.
Fixpoint pathSegments (fuel : nat) : Parse (list PathSegment) := fun ts =>
  match ts with
  | (Dot | LBracket) :: _ =>
      match fuel with
      | 0%nat => None
      | S fuel' =>
          match pathSegment ts with
          | Some (seg, r) =>
              match pathSegments fuel' r with
              | Some (segs, r') => Some (seg :: segs, r')
              | None => None
              end
          | None => None
          end
      end
  | _ => Some ([], ts)
  end.

(** [( ',' expression )*] after the first argument *)
Fixpoint moreArgs (fuel : nat) : Parse (list ASTNode) := fun ts =>
  match ts with
  | Comma :: r =>
      match fuel with
      | 0%nat => None
      | S fuel' =>
          match expression r with
          | Some (a, r') =>
              match moreArgs fuel' r' with
              | Some (l, r'') => Some (a :: l, r'')
              | None => None
              end
          | None => None
          end
      end
  | _ => Some ([], ts)
  end.
Definition callArgs : Parse (list ASTNode) := fun ts =>
  match ts with
  | RParen :: r => Some ([], r)
  | _ =>
      match expression ts with
      | Some (a, r) =>
          match moreArgs turns r with
          | Some (l, RParen :: r') => Some (a :: l, r')
          | _ => None
          end
      | None => None
      end
  end.

Definition callOrPath (name : string) : Parse ASTNode := fun ts =>
  match ts with
  | LParen :: r =>
      match callArgs r with
      | Some (args, r') => Some (ECall name args, r')
      | None => None
      end
  | (Dot | LBracket) :: _ =>
      match pathSegments turns ts with
      | Some (segs, r) => Some (EPath (EName name) segs, r)
      | None => None
      end
  | _ => Some (EName name, ts)
  end.

Definition primary : Parse ASTNode := fun ts =>
  match ts with
  | LParen :: r =>
      match expression r with
      | Some (e, RParen :: r') => Some (e, r')
      | _ => None
      end
  | StringLit x :: r => Some (ELiteral (LitStr (parseStringLit x)), r)
  | NumberLit n :: r => Some (ELiteral (LitNum (number_of n)), r)
  | TrueT :: r => Some (ELiteral (LitBool true), r)
  | FalseT :: r => Some (ELiteral (LitBool false), r)
  | NullT :: r => Some (ELiteral LitNull, r)
  | Identifier name :: r => callOrPath name r
  | _ => None
  end.

Definition compareExpr : Parse ASTNode := fun ts =>
  match primary ts with
  | Some (lhs, Compare op :: r) =>
      match primary r with
      | Some (rhs, r') => Some (EBinary (OpCompare op) lhs rhs, r')
      | None => None
      end
  | res => res
  end.

Definition notExpr : Parse ASTNode := fun ts =>
  match ts with
  | Bang :: r =>
      match compareExpr r with
      | Some (e, r') => Some (ENot e, r')
      | None => None
      end
  | _ => compareExpr ts
  end.

Fixpoint andLoop (fuel : nat) (acc : ASTNode) : Parse ASTNode := fun ts =>
  match ts with
  | AndAnd :: r =>
      match fuel with
      | 0%nat => None
      | S fuel' =>
          match notExpr r with
          | Some (e, r') => andLoop fuel' (EBinary OpAnd acc e) r'
          | None => None
          end
      end
  | _ => Some (acc, ts)
  end.
Definition andExpr : Parse ASTNode := fun ts =>
  match notExpr ts with
  | Some (e, r) => andLoop turns e r
  | None => None
  end.

Fixpoint orLoop (fuel : nat) (acc : ASTNode) : Parse ASTNode := fun ts =>
  match ts with
  | OrOr :: r =>
      match fuel with
      | 0%nat => None
      | S fuel' =>
          match andExpr r with
          | Some (e, r') => orLoop fuel' (EBinary OpOr acc e) r'
          | None => None
          end
      end
  | _ => Some (acc, ts)
  end.
Definition orExpr : Parse ASTNode := fun ts =>
  match andExpr ts with
  | Some (e, r) => orLoop turns e r
  | None => None
  end.
End Descent.

Fixpoint expression (fuel : nat) : Parse ASTNode :=
  match fuel with
  | 0%nat => fun _ => None
  | S fuel' => orExpr (expression fuel') fuel
  end.

(** [parseToCst] then [cstToAst]: the whole input must be consumed. *)
Definition parse (ts : list Token) : option ASTNode :=
  match expression (S (length ts)) ts with
  | Some (e, []) => Some e
  | _ => None
  end.

(** ** [parseExpression] *)
Definition trim_start (s : string) : string := (span is_space s).2.
Fixpoint rev_string (s acc : string) : string :=
  match s with EmptyString => acc | String c s' => rev_string s' (String c acc) end.
Definition trim (s : string) : string :=
  rev_string (trim_start (rev_string (trim_start s) "")) "".
Definition parseExpression (expr : string) : option ASTNode :=
  let trimmed := trim expr in
  if (trimmed =? "")%string then None
  else match tokenize trimmed with Some ts => parse ts | None => None end.
