(* ===== verification/ExprGrammar.v ===== *)
(** * The expression grammar, and the parser as its decision procedure

    The nine rules of the grammar as relations between token lists and ASTs:
    [||] and [&&] associate to the left, [!] applies to a whole comparison, a
    comparison does not chain.  The recursive descent accepts exactly the
    sentences of the grammar, with the AST the grammar gives. *)

From Stdlib Require Import Ascii String.
From stdpp Require Import base option list strings.
From S2P Require Import Prelude ExprSyntax.

Inductive g_segs : list Token -> list PathSegment -> Prop :=
| g_segs_nil : g_segs [] []
| g_segs_prop x ts segs : g_segs ts segs -> g_segs (Dot :: Identifier x :: ts) (SegProp x :: segs)
| g_segs_num n ts segs : g_segs ts segs ->
    g_segs (LBracket :: NumberLit n :: RBracket :: ts) (SegIndex (IdxNum (number_of n)) :: segs)
| g_segs_str x ts segs : g_segs ts segs ->
    g_segs (LBracket :: StringLit x :: RBracket :: ts) (SegIndex (IdxStr (parseStringLit x)) :: segs).

Inductive g_expr : list Token -> ASTNode -> Prop :=
| g_expr_and ts e : g_and ts e -> g_expr ts e
| g_expr_or ts1 ts2 e1 e2 : g_expr ts1 e1 -> g_and ts2 e2 ->
    g_expr (ts1 ++ OrOr :: ts2) (EBinary OpOr e1 e2)
with g_and : list Token -> ASTNode -> Prop :=
| g_and_not ts e : g_not ts e -> g_and ts e
| g_and_and ts1 ts2 e1 e2 : g_and ts1 e1 -> g_not ts2 e2 ->
    g_and (ts1 ++ AndAnd :: ts2) (EBinary OpAnd e1 e2)
with g_not : list Token -> ASTNode -> Prop :=
| g_not_cmp ts e : g_cmp ts e -> g_not ts e
| g_not_bang ts e : g_cmp ts e -> g_not (Bang :: ts) (ENot e)
with g_cmp : list Token -> ASTNode -> Prop :=
| g_cmp_prim ts e : g_prim ts e -> g_cmp ts e
| g_cmp_op op ts1 ts2 e1 e2 : g_prim ts1 e1 -> g_prim ts2 e2 ->
    g_cmp (ts1 ++ Compare op :: ts2) (EBinary (OpCompare op) e1 e2)
with g_prim : list Token -> ASTNode -> Prop :=
| g_prim_paren ts e : g_expr ts e -> g_prim (LParen :: ts ++ [RParen]) e
| g_prim_str x : g_prim [StringLit x] (ELiteral (LitStr (parseStringLit x)))
| g_prim_num n : g_prim [NumberLit n] (ELiteral (LitNum (number_of n)))
| g_prim_true : g_prim [TrueT] (ELiteral (LitBool true))
| g_prim_false : g_prim [FalseT] (ELiteral (LitBool false))
| g_prim_null : g_prim [NullT] (ELiteral LitNull)
| g_prim_name x : g_prim [Identifier x] (EName x)
| g_prim_path x ts segs : g_segs ts segs -> segs <> [] ->
    g_prim (Identifier x :: ts) (EPath (EName x) segs)
| g_prim_call0 x : g_prim [Identifier x; LParen; RParen] (ECall x [])
| g_prim_call x ts args : g_args ts args ->
    g_prim (Identifier x :: LParen :: ts ++ [RParen]) (ECall x args)
with g_args : list Token -> list ASTNode -> Prop :=
| g_args_one ts a : g_expr ts a -> g_args ts [a]
| g_args_more ts ts' a l : g_expr ts a -> g_args ts' l -> g_args (ts ++ Comma :: ts') (a :: l).

(** A parser that, when it succeeds, consumed a sentence of [g]. *)
Definition sound {A} (p : Parse A) (g : list Token -> A -> Prop) : Prop :=
  forall ts a r, p ts = Some (a, r) -> exists u, ts = u ++ r /\ g u a.

(** ** Soundness *)
Section Soundness.
Context (expr : Parse ASTNode) (turns : nat) (Hexpr : sound expr g_expr).

Lemma pathSegments_sound fuel : sound (pathSegments fuel) g_segs.
Proof.
  induction fuel as [|fuel IH]; intros ts segs r; cbn.
  - destruct ts as [|[] ts]; try done; intros [= <- <-]; eexists []; by split; [|constructor].
  - destruct ts as [|[] ts]; try (intros [= <- <-]; eexists []; by split; [|constructor]).
    + destruct ts as [|[] ts]; cbn; try done; destruct ts as [|[] ts]; cbn; try done.
      all: destruct (pathSegments fuel ts) as [[l r']|] eqn:E; try done; intros [= <- <-];
        apply IH in E as (u & -> & Hu); eexists (_ :: _ :: _ :: u); split; [reflexivity|by constructor].
    + destruct ts as [|[] ts]; cbn; try done.
      destruct (pathSegments fuel ts) as [[l r']|] eqn:E; try done; intros [= <- <-].
      apply IH in E as (u & -> & Hu). eexists (_ :: _ :: u). split; [reflexivity|by constructor].
Qed.

Lemma moreArgs_sound fuel ts l r : moreArgs expr fuel ts = Some (l, r) ->
  exists u, ts = u ++ r /\ forall u0 a, g_expr u0 a -> g_args (u0 ++ u) (a :: l).
Proof.
  revert ts l r. induction fuel as [|fuel IH]; intros ts l r; cbn.
  - destruct ts as [|[] ts]; try done; intros [= <- <-]; exists []; (split; [done|]);
      intros u0 a; rewrite app_nil_r; by constructor.
  - destruct ts as [|[] ts]; try (intros [= <- <-]; exists []; (split; [done|]);
      intros u0 a; rewrite app_nil_r; by constructor).
    destruct (expr ts) as [[b r1]|] eqn:Eb; [|done].
    destruct (moreArgs expr fuel r1) as [[l' r2]|] eqn:El; [|done]. intros [= <- <-].
    apply Hexpr in Eb as (u1 & -> & Hb). apply IH in El as (u2 & -> & Hl).
    exists (Comma :: u1 ++ u2). split; [by rewrite <- app_comm_cons, <- app_assoc|].
    intros u0 a Ha. apply g_args_more; auto.
Qed.

Lemma callArgs_sound ts args r : callArgs expr turns ts = Some (args, r) ->
  (ts = RParen :: r /\ args = []) \/ exists u, ts = u ++ RParen :: r /\ g_args u args.
Proof.
  unfold callArgs. assert (match expr ts with
    | Some (a, r) => match moreArgs expr turns r with
                     | Some (l, RParen :: r') => Some (a :: l, r') | _ => None end
    | None => None end = Some (args, r) -> exists u, ts = u ++ RParen :: r /\ g_args u args) as Hargs.
  { destruct (expr ts) as [[a r1]|] eqn:Ea; [|done].
    destruct (moreArgs expr turns r1) as [[l r2]|] eqn:El; [|done].
    apply Hexpr in Ea as (u1 & -> & Ha). apply moreArgs_sound in El as (u2 & -> & Hl).
    destruct r2 as [|[] r2]; try done. intros [= <- <-].
    exists (u1 ++ u2). split; [by rewrite <- app_assoc|auto]. }
  destruct ts as [|[] ts]; try (intros H; right; exact (Hargs H)). intros [= <- <-]. by left.
Qed.

Lemma callOrPath_sound x ts e r : callOrPath expr turns x ts = Some (e, r) ->
  exists u, ts = u ++ r /\ g_prim (Identifier x :: u) e.
Proof.
  unfold callOrPath. destruct ts as [|t ts].
  { intros [= <- <-]. exists []. split; [done|constructor]. }
  assert (Some (EName x, t :: ts) = Some (e, r) -> exists u, t :: ts = u ++ r /\ g_prim (Identifier x :: u) e) as Hname.
  { intros [= <- <-]. exists []. split; [done|constructor]. }
  assert (match pathSegments turns (t :: ts) with
          | Some (segs, r) => Some (EPath (EName x) segs, r) | None => None end = Some (e, r) ->
          t = Dot \/ t = LBracket -> exists u, t :: ts = u ++ r /\ g_prim (Identifier x :: u) e) as Hpath.
  { destruct (pathSegments turns (t :: ts)) as [[segs r']|] eqn:E; [|done]. intros [= <- <-] Ht.
    pose proof E as E'. apply pathSegments_sound in E as (u & Hu & Hsegs). exists u. split; [done|].
    constructor; [done|]. intros ->.
    destruct Ht as [-> | ->]; destruct turns; cbn in E'; try done; repeat case_match; done. }
  destruct t; try exact Hname; try (intros H; apply Hpath; [exact H|by auto]).
  destruct (callArgs expr turns ts) as [[args r']|] eqn:E; [|done]. intros [= <- <-].
  apply callArgs_sound in E as [[-> ->]|(u & -> & Hu)].
  - exists [LParen; RParen]. split; [done|constructor].
  - exists (LParen :: u ++ [RParen]). split; [by rewrite <- app_comm_cons, <- app_assoc|by constructor].
Qed.

Lemma primary_sound : sound (primary expr turns) g_prim.
Proof.
  intros ts e r. destruct ts as [|t ts]; [done|]. cbn.
  destruct t; try done; try (intros [= <- <-]; eexists [_]; split; [reflexivity|constructor]).
  - destruct (expr ts) as [[e' r']|] eqn:E; [|done]. destruct r' as [|[] r']; try done.
    intros [= <- <-]. apply Hexpr in E as (u & -> & Hu). exists (LParen :: u ++ [RParen]).
    split; [by rewrite <- app_comm_cons, <- app_assoc|by constructor].
  - intros H. apply callOrPath_sound in H as (u & -> & Hu). by exists (Identifier image :: u).
Qed.

Lemma compareExpr_sound : sound (compareExpr expr turns) g_cmp.
Proof.
  intros ts e r. unfold compareExpr. destruct (primary expr turns ts) as [[lhs r1]|] eqn:E; [|done].
  apply primary_sound in E as (u & -> & Hu).
  assert (Some (lhs, r1) = Some (e, r) -> exists u0, u ++ r1 = u0 ++ r /\ g_cmp u0 e) as H0.
  { intros [= <- <-]. exists u. by split; [|constructor]. }
  destruct r1 as [|[] r1]; try exact H0.
  destruct (primary expr turns r1) as [[rhs r2]|] eqn:E2; [|done]. intros [= <- <-].
  apply primary_sound in E2 as (u2 & -> & Hu2). exists (u ++ Compare op :: u2).
  split; [by rewrite <- app_assoc|by constructor].
Qed.

Lemma notExpr_sound : sound (notExpr expr turns) g_not.
Proof.
  intros ts e r. unfold notExpr. assert (compareExpr expr turns ts = Some (e, r) ->
    exists u, ts = u ++ r /\ g_not u e) as H0.
  { intros (u & -> & Hu)%compareExpr_sound. exists u. by split; [|constructor]. }
  destruct ts as [|[] ts]; try exact H0.
  destruct (compareExpr expr turns ts) as [[e' r']|] eqn:E; [|done]. intros [= <- <-].
  apply compareExpr_sound in E as (u & -> & Hu). exists (Bang :: u). by split; [|constructor].
Qed.

Lemma andLoop_sound fuel u0 acc ts e r :
  g_and u0 acc -> andLoop expr turns fuel acc ts = Some (e, r) -> exists u, ts = u ++ r /\ g_and (u0 ++ u) e.
Proof.
  revert u0 acc ts. induction fuel as [|fuel IH]; intros u0 acc ts Hacc; cbn;
    assert (Some (acc, ts) = Some (e, r) -> exists u, ts = u ++ r /\ g_and (u0 ++ u) e) as H0
      by (intros [= <- <-]; exists []; by rewrite app_nil_r);
    destruct ts as [|[] ts]; try exact H0; [done|].
  destruct (notExpr expr turns ts) as [[e1 r1]|] eqn:E; [|done]. intros H.
  apply notExpr_sound in E as (u1 & -> & Hu1). apply (IH (u0 ++ AndAnd :: u1)) in H as (u & -> & Hu); [|by constructor].
  exists (AndAnd :: u1 ++ u). split; [by rewrite <- app_comm_cons, <- app_assoc|].
  by rewrite <- app_assoc in Hu.
Qed.
Lemma andExpr_sound : sound (andExpr expr turns) g_and.
Proof.
  intros ts e r. unfold andExpr. destruct (notExpr expr turns ts) as [[e1 r1]|] eqn:E; [|done].
  intros H. apply notExpr_sound in E as (u1 & -> & Hu1).
  apply (andLoop_sound _ u1) in H as (u & -> & Hu); [|by constructor].
  exists (u1 ++ u). by rewrite <- app_assoc.
Qed.
Lemma orLoop_sound fuel u0 acc ts e r :
  g_expr u0 acc -> orLoop expr turns fuel acc ts = Some (e, r) -> exists u, ts = u ++ r /\ g_expr (u0 ++ u) e.
Proof.
  revert u0 acc ts. induction fuel as [|fuel IH]; intros u0 acc ts Hacc; cbn;
    assert (Some (acc, ts) = Some (e, r) -> exists u, ts = u ++ r /\ g_expr (u0 ++ u) e) as H0
      by (intros [= <- <-]; exists []; by rewrite app_nil_r);
    destruct ts as [|[] ts]; try exact H0; [done|].
  destruct (andExpr expr turns ts) as [[e1 r1]|] eqn:E; [|done]. intros H.
  apply andExpr_sound in E as (u1 & -> & Hu1). apply (IH (u0 ++ OrOr :: u1)) in H as (u & -> & Hu); [|by constructor].
  exists (OrOr :: u1 ++ u). split; [by rewrite <- app_comm_cons, <- app_assoc|].
  by rewrite <- app_assoc in Hu.
Qed.
Lemma orExpr_sound : sound (orExpr expr turns) g_expr.
Proof.
  intros ts e r. unfold orExpr. destruct (andExpr expr turns ts) as [[e1 r1]|] eqn:E; [|done].
  intros H. apply andExpr_sound in E as (u1 & -> & Hu1).
  apply (orLoop_sound _ u1) in H as (u & -> & Hu); [|by constructor].
  exists (u1 ++ u). by rewrite <- app_assoc.
Qed.
End Soundness.

Lemma expression_sound fuel : sound (expression fuel) g_expr.
Proof. induction fuel as [|fuel IH]; [done|]. cbn [expression]. by apply orExpr_sound. Qed.

(** ** Completeness *)

(** What may follow a primary, a comparison, an [&&]-chain and an expression. *)
Definition stop_prim (rest : list Token) : Prop :=
  match rest with (LParen | Dot | LBracket) :: _ => False | _ => True end.
Definition stop_cmp (rest : list Token) : Prop :=
  stop_prim rest /\ match rest with Compare _ :: _ => False | _ => True end.
Definition stop_and (rest : list Token) : Prop :=
  stop_cmp rest /\ match rest with AndAnd :: _ => False | _ => True end.
Definition stop_or (rest : list Token) : Prop :=
  stop_and rest /\ match rest with OrOr :: _ => False | _ => True end.

(** First tokens. *)
Definition starts_prim (t : Token) : Prop :=
  match t with
  | LParen | StringLit _ | NumberLit _ | TrueT | FalseT | NullT | Identifier _ => True
  | _ => False
  end.
Lemma g_prim_head u e : g_prim u e -> exists t u', u = t :: u' /\ starts_prim t.
Proof. destruct 1; do 2 eexists; split; try reflexivity; done. Qed.
Lemma g_cmp_head u e : g_cmp u e -> exists t u', u = t :: u' /\ starts_prim t.
Proof.
  destruct 1 as [ts e H|op ts1 ts2 e1 e2 H _]; apply g_prim_head in H as (t & u' & -> & Ht).
  - by exists t, u'.
  - exists t, (u' ++ Compare op :: ts2). done.
Qed.
Lemma g_not_head u e : g_not u e -> exists t u', u = t :: u' /\ (starts_prim t \/ t = Bang).
Proof.
  destruct 1 as [ts e H|ts e H].
  - apply g_cmp_head in H as (t & u' & -> & Ht). exists t, u'. auto.
  - exists Bang, ts. auto.
Qed.
Lemma g_and_head u e : g_and u e -> exists t u', u = t :: u' /\ (starts_prim t \/ t = Bang).
Proof.
  induction 1 as [ts e H|ts1 ts2 e1 e2 _ (t & u' & -> & Ht) _]; [by eapply g_not_head|].
  by exists t, (u' ++ AndAnd :: ts2).
Qed.
Lemma g_expr_head u e : g_expr u e -> exists t u', u = t :: u' /\ (starts_prim t \/ t = Bang).
Proof.
  induction 1 as [ts e H|ts1 ts2 e1 e2 _ (t & u' & -> & Ht) _]; [by eapply g_and_head|].
  by exists t, (u' ++ OrOr :: ts2).
Qed.

Section Completeness.
Context (n : nat) (expr : Parse ASTNode).
(** The recursive rule handles every sentence of at most [n] tokens. *)
Context (Hexpr : forall u e rest, g_expr u e -> length u <= n -> stop_or rest ->
           expr (u ++ rest) = Some (e, rest)).
Abbreviation T := (S n).

Lemma pathSegments_complete fuel u segs rest :
  g_segs u segs -> length u <= fuel -> stop_prim rest -> pathSegments fuel (u ++ rest) = Some (segs, rest).
Proof.
  intros H. revert fuel. induction H as [|x ts segs H IH|m ts segs H IH|x ts segs H IH];
    intros fuel Hl Hr; cbn [app length] in *.
  - destruct rest as [|[] rest]; cbn in Hr; try done; by destruct fuel.
  - destruct fuel; [lia|]. cbn. by rewrite IH by (try done; lia).
  - destruct fuel; [lia|]. cbn. by rewrite IH by (try done; lia).
  - destruct fuel; [lia|]. cbn. by rewrite IH by (try done; lia).
Qed.

Lemma args_complete u args rest :
  g_args u args -> length u <= n ->
  exists a l u1 u2, args = a :: l /\ u = u1 ++ u2 /\ g_expr u1 a /\
    forall fuel, length u2 <= fuel -> moreArgs expr fuel (u2 ++ RParen :: rest) = Some (l, RParen :: rest).
Proof.
  induction 1 as [ts a H|ts ts' a l H Hl IH]; intros Hn.
  - exists a, [], ts, []. rewrite app_nil_r. split_and!; try done. intros fuel _. by destruct fuel.
  - rewrite length_app in Hn. cbn in Hn.
    destruct IH as (b & l' & u1 & u2 & -> & -> & Hb & Hmore); [lia|].
    exists a, (b :: l'), ts, (Comma :: u1 ++ u2). split_and!; try done.
    intros fuel Hf. cbn in Hf. rewrite length_app in Hf, Hn. destruct fuel as [|fuel]; [lia|].
    cbn. rewrite <- app_assoc. rewrite (Hexpr u1 b); [|done|lia|].
    + by rewrite Hmore by lia.
    + destruct u2 as [|t u2]; [by repeat split|].
      specialize (Hmore (length (t :: u2)) ltac:(lia)). cbn in Hmore.
      destruct t; by repeat split.
Qed.

Lemma primary_complete u e rest :
  g_prim u e -> length u <= T -> stop_prim rest -> primary expr T (u ++ rest) = Some (e, rest).
Proof.
  intros H Hl Hr. destruct H as [ts e H|x|m| | | |x|x ts segs Hs Hne|x|x ts args Ha];
    cbn [app primary]; try done.
  - cbn in Hl. rewrite length_app in Hl. cbn in Hl. rewrite <- app_assoc. cbn.
    rewrite (Hexpr ts e); [done|done|lia|by repeat split].
  - unfold callOrPath. destruct rest as [|[] rest]; done.
  - assert (pathSegments T (ts ++ rest) = Some (segs, rest)) as Hp
      by (apply pathSegments_complete; [done|cbn in Hl; lia|done]).
    unfold callOrPath. destruct Hs; [done|cbn [app] in *; by rewrite Hp..].
  - cbn in Hl. rewrite length_app in Hl. cbn in Hl. unfold callOrPath. rewrite <- app_assoc. cbn [app].
    destruct (args_complete ts args rest Ha) as (a & l & u1 & u2 & -> & -> & Hg & Hmore); [lia|].
    rewrite length_app in Hl. unfold callArgs. rewrite <- app_assoc.
    assert (expr (u1 ++ u2 ++ RParen :: rest) = Some (a, u2 ++ RParen :: rest)) as He.
    { apply Hexpr; [done|lia|]. destruct u2 as [|t u2]; [by repeat split|].
      specialize (Hmore (length (t :: u2)) ltac:(lia)). cbn in Hmore. destruct t; by repeat split. }
    rewrite He, Hmore by lia. apply g_expr_head in Hg as (t & u1' & -> & Ht). cbn [app].
    destruct t; try done; by destruct Ht.
Qed.

Lemma compareExpr_complete u e rest :
  g_cmp u e -> length u <= T -> stop_cmp rest -> compareExpr expr T (u ++ rest) = Some (e, rest).
Proof.
  intros H Hl [Hr Hc]. unfold compareExpr. destruct H as [ts e H|op ts1 ts2 e1 e2 H1 H2].
  - rewrite (primary_complete ts e) by done. by destruct rest as [|[] rest].
  - rewrite length_app in Hl. cbn in Hl. rewrite <- app_assoc. cbn [app].
    rewrite (primary_complete ts1 e1) by (try done; lia).
    by rewrite (primary_complete ts2 e2) by (try done; lia).
Qed.

Lemma notExpr_complete u e rest :
  g_not u e -> length u <= T -> stop_cmp rest -> notExpr expr T (u ++ rest) = Some (e, rest).
Proof.
  intros H Hl Hr. unfold notExpr. destruct H as [ts e H|ts e H].
  - pose proof (compareExpr_complete ts e rest H Hl Hr) as Hc.
    apply g_cmp_head in H as (t & u' & -> & Ht). cbn [app] in *. by destruct t.
  - cbn in Hl. cbn [app]. by rewrite (compareExpr_complete ts e) by (try done; lia).
Qed.

Lemma andExpr_loop u e :
  g_and u e -> length u <= T ->
  exists k, T <= k + length u /\ forall rest, stop_cmp rest ->
    andExpr expr T (u ++ rest) = andLoop expr T k e rest.
Proof.
  induction 1 as [ts e H|ts1 ts2 e1 e2 H1 IH H2]; intros Hl.
  - exists T. split; [lia|]. intros rest Hr. unfold andExpr. by rewrite (notExpr_complete ts e).
  - rewrite length_app in Hl. cbn in Hl. destruct IH as (k & Hk & IH); [lia|].
    apply g_not_head in H2 as Hh. destruct Hh as (t & u' & E & _). rewrite E in Hl. cbn in Hl.
    destruct k as [|k]; [lia|]. exists k. rewrite length_app, E. cbn. split; [lia|].
    intros rest Hr. rewrite <- E, <- app_assoc. cbn [app]. rewrite IH by (by repeat split). cbn.
    by rewrite (notExpr_complete ts2 e2) by (try done; rewrite E; cbn; lia).
Qed.
Lemma andExpr_complete u e rest :
  g_and u e -> length u <= T -> stop_and rest -> andExpr expr T (u ++ rest) = Some (e, rest).
Proof.
  intros H Hl [Hr Ha]. destruct (andExpr_loop u e H Hl) as (k & _ & Hk). rewrite Hk by done.
  destruct rest as [|[] rest]; by destruct k.
Qed.

Lemma orExpr_loop u e :
  g_expr u e -> length u <= T ->
  exists k, T <= k + length u /\ forall rest, stop_and rest ->
    orExpr expr T (u ++ rest) = orLoop expr T k e rest.
Proof.
  induction 1 as [ts e H|ts1 ts2 e1 e2 H1 IH H2]; intros Hl.
  - exists T. split; [lia|]. intros rest Hr. unfold orExpr. by rewrite (andExpr_complete ts e).
  - rewrite length_app in Hl. cbn in Hl. destruct IH as (k & Hk & IH); [lia|].
    apply g_and_head in H2 as Hh. destruct Hh as (t & u' & E & _). rewrite E in Hl. cbn in Hl.
    destruct k as [|k]; [lia|]. exists k. rewrite length_app, E. cbn. split; [lia|].
    intros rest Hr. rewrite <- E, <- app_assoc. cbn [app]. rewrite IH by (by repeat split). cbn.
    by rewrite (andExpr_complete ts2 e2) by (try done; rewrite E; cbn; lia).
Qed.
Lemma orExpr_complete u e rest :
  g_expr u e -> length u <= T -> stop_or rest -> orExpr expr T (u ++ rest) = Some (e, rest).
Proof.
  intros H Hl [Hr Ha]. destruct (orExpr_loop u e H Hl) as (k & _ & Hk). rewrite Hk by done.
  destruct rest as [|[] rest]; by destruct k.
Qed.
End Completeness.

Lemma expression_complete n u e rest :
  g_expr u e -> length u <= n -> stop_or rest -> expression n (u ++ rest) = Some (e, rest).
Proof.
  revert u e rest. induction n as [|n IH]; intros u e rest H Hl Hr.
  - apply g_expr_head in H as (t & u' & -> & _). cbn in Hl. lia.
  - cbn [expression]. by apply (orExpr_complete n).
Qed.

(** ** Properties *)

(** C39: the parser decides the grammar: a token list parses to an AST exactly
    when the grammar derives that AST for it; in particular [||] and [&&]
    chain to the left, [!] negates a whole comparison, comparisons do not
    chain, and the grammar is unambiguous. *)
Theorem parse_iff_grammar (ts : list Token) (e : ASTNode) : parse ts = Some e <-> g_expr ts e.
Proof.
  unfold parse. split.
  - destruct (expression _ ts) as [[e' [|t r]]|] eqn:E; try done. intros [= <-].
    apply expression_sound in E as (u & -> & Hu). by rewrite app_nil_r.
  - intros H. rewrite <- (app_nil_r ts) at 2.
    by rewrite (expression_complete (S (length ts)) ts e []) by (try done; try lia; by repeat split).
Qed.
