(* ===== verification/ExprEval.v ===== *)
(** * Expression evaluation ([src/src/runtime/evaluator/expression/interpreter.ts],
      [functions.ts], [index.ts], [cache.ts], [src/src/integrations/pi/tool_aliases.ts])

    The sandboxed interpreter with its depth and step caps, the function
    allow-list, policy tool values, and the fail-closed [evalCondition] over a
    parse cache.  RE2 and the LRU cache are interfaces. *)

From Stdlib Require Import Ascii String QArith.
From stdpp Require Import base option list strings pretty gmap.
From S2P Require Import Prelude ExprSyntax ExprGrammar.
#[local] Open Scope os_scope.

(** ** Values; arrays and objects carry their identity *)
Inductive Value :=
| VUndef | VNull | VBool (b : bool) | VNum (n : Num) | VStr (s : string)
| VArr (id : positive) (l : list Value)
| VObj (id : positive) (o : list (string * Value)).

Definition num_eq (a b : Num) : bool :=
  match a, b with
  | Fin p, Fin q => Qeq_bool p q
  | Infinite s, Infinite t => Bool.eqb s t
  | _, _ => false
  end.
Definition num_lt (a b : Num) : bool :=
  match a, b with
  | Fin p, Fin q => negb (Qle_bool q p)
  | Infinite s, Infinite t => s && negb t
  | Infinite s, Fin _ => s
  | Fin _, Infinite t => negb t
  | _, _ => false
  end.
Definition num_le (a b : Num) : bool := num_lt a b || num_eq a b.

(** [===] *)
Definition strict_eq (a b : Value) : bool :=
  match a, b with
  | VUndef, VUndef | VNull, VNull => true
  | VBool x, VBool y => Bool.eqb x y
  | VNum x, VNum y => num_eq x y
  | VStr x, VStr y => (x =? y)%string
  | VArr i _, VArr j _ | VObj i _, VObj j _ => Pos.eqb i j
  | _, _ => false
  end.
Definition truthy (v : Value) : bool :=
  match v with
  | VUndef | VNull => false
  | VBool b => b
  | VNum NaN => false
  | VNum (Infinite _) => true
  | VNum (Fin q) => negb (Qeq_bool q 0)
  | VStr s => negb (s =? "")%string
  | VArr _ _ | VObj _ _ => true
  end.
Definition of_count (n : nat) : Value := VNum (Fin (inject_Z (Z.of_nat n))).

Inductive EvalError :=
| InterpreterLimitError (message : string)
| InterpreterRuntimeError (message : string)
| TypeError (message : string).

(** ** Policy tool values *)
Definition TOOL_ALIASES : list (string * list string) := [("MultiEdit", ["MultiEdit"; "Edit"])].
Definition asPolicyToolValue (v : Value) : option (string * list Value) :=
  match v with
  | VObj _ o =>
      match obj_get "__opensquidPolicyToolValue" o, obj_get "actual" o, obj_get "aliases" o with
      | Some (VBool true), Some (VStr actual), Some (VArr _ aliases) => Some (actual, aliases)
      | _, _, _ => None
      end
  | _ => None
  end.
Definition uniqueAliases (tool : string) : list string :=
  match obj_get tool TOOL_ALIASES with
  | None => [tool]
  | Some configured => set_of (tool :: configured)
  end.
(** The object of a tool with aliases; [ids] are the fresh identities. *)
Definition toPolicyToolValue (id id' : positive) (tool : string) : Value :=
  let aliases := uniqueAliases tool in
  if Nat.eqb (length aliases) 1 then VStr tool
  else VObj id [("__opensquidPolicyToolValue", VBool true); ("actual", VStr tool);
                ("aliases", VArr id' (VStr <$> aliases))].
Definition policyToolActualName (v : Value) : option string :=
  match v with VStr s => Some s | _ => fst <$> asPolicyToolValue v end.
Definition toolValueString : Value -> option string := policyToolActualName.
Definition toolMatches (actual expected : string) : bool := set_has expected (uniqueAliases actual).
Definition toolValueEquals (lhs rhs : Value) : option bool :=
  match asPolicyToolValue lhs with
  | Some (actual, _) =>
      Some (match policyToolActualName rhs with Some t => toolMatches actual t | None => false end)
  | None =>
      match asPolicyToolValue rhs with
      | Some (actual, _) =>
          Some (match policyToolActualName lhs with Some t => toolMatches actual t | None => false end)
      | None => None
      end
  end.
Fixpoint some_alias (f : Value -> result EvalError bool) (l : list Value) : result EvalError bool :=
  match l with
  | [] => Ok false
  | x :: rest => b <-? f x ;; if b : bool then Ok true else some_alias f rest
  end.
Definition withToolAliases (subject : Value) (f : Value -> result EvalError bool)
    : option (result EvalError bool) :=
  match asPolicyToolValue subject with
  | Some (_, aliases) => Some (some_alias f aliases)
  | None => None
  end.

(** ** Strings *)
Fixpoint suffixes (s : string) : list string :=
  s :: match s with EmptyString => [] | String _ s' => suffixes s' end.
Definition str_includes (s sub : string) : bool := existsb (fun x => starts_with x sub) (suffixes s).
Definition str_ends_with (s p : string) : bool := existsb (fun x => (x =? p)%string) (suffixes s).

(** The string methods on an alias; a non-string alias has no such method
    (an array has [includes]). *)
Definition method_includes (needle : string) (v : Value) : result EvalError bool :=
  match v with
  | VStr name => Ok (str_includes name needle)
  | VArr _ l => Ok (existsb (strict_eq (VStr needle)) l)
  | _ => Err (TypeError "name.includes is not a function")
  end.
Definition method_startsWith (prefix : string) (v : Value) : result EvalError bool :=
  match v with
  | VStr name => Ok (starts_with name prefix)
  | _ => Err (TypeError "name.startsWith is not a function")
  end.
Definition method_endsWith (suffix : string) (v : Value) : result EvalError bool :=
  match v with
  | VStr name => Ok (str_ends_with name suffix)
  | _ => Err (TypeError "name.endsWith is not a function")
  end.

(** [RE2JS.compile(pattern)] and the compiled pattern's [test]; either may throw. *)
Class Re2 := {
  Pattern : Type;
  re2_compile : string -> option Pattern;
  re2_test : Pattern -> Value -> option bool;
}.

Section Interpreter.
Context `{Re : Re2}.

(** ** The function allow-list *)
Definition fn_len (x : Value) : Value :=
  match toolValueString x with
  | Some s => of_count (String.length s)
  | None =>
      match x with
      | VStr s => of_count (String.length s)
      | VArr _ l => of_count (length l)
      | VObj _ o => of_count (length o)
      | _ => of_count 0
      end
  end.
(** The shared shape of [contains], [startsWith] and [endsWith]. *)
Definition fn_string (method : string -> Value -> result EvalError bool)
    (test : string -> string -> bool) (s sub : Value) : result EvalError Value :=
  match sub with
  | VStr needle =>
      match withToolAliases s (method needle) with
      | Some r => VBool <$> r
      | None =>
          Ok (VBool (match toolValueString s with Some text => test text needle | None => false end))
      end
  | _ => Ok (VBool false)
  end.
Definition fn_contains := fn_string method_includes str_includes.
Definition fn_startsWith := fn_string method_startsWith starts_with.
Definition fn_endsWith := fn_string method_endsWith str_ends_with.
Definition fn_match (s pattern : Value) : Value :=
  match toolValueString s, pattern with
  | Some text, VStr p =>
      match re2_compile p with
      | None => VBool false
      | Some compiled =>
          let test v := match re2_test compiled v with
                        | Some b => Ok b | None => Err (TypeError "test") end in
          match withToolAliases s test with
          | Some (Ok b) => VBool b
          | Some (Err _) => VBool false
          | None => VBool (default false (re2_test compiled (VStr text)))
          end
      end
  | _, _ => VBool false
  end.

(** [FUNCTIONS[name]] applied to the arguments; missing ones are [undefined]. *)
Definition callFunction (name : string) (args : list Value) : result EvalError Value :=
  let arg i := default VUndef (args !! i) in
  if (name =? "len")%string then Ok (fn_len (arg 0%nat))
  else if (name =? "contains")%string then fn_contains (arg 0%nat) (arg 1%nat)
  else if (name =? "startsWith")%string then fn_startsWith (arg 0%nat) (arg 1%nat)
  else if (name =? "endsWith")%string then fn_endsWith (arg 0%nat) (arg 1%nat)
  else if (name =? "match")%string then Ok (fn_match (arg 0%nat) (arg 1%nat))
  else Err (InterpreterRuntimeError ("unknown function: " +:+ name)).
Definition FUNCTION_NAMES : list string := ["len"; "contains"; "startsWith"; "endsWith"; "match"].

(** ** Comparison and paths *)
Definition applyCompare (op : CompareOp) (lhs rhs : Value) : bool :=
  let numeric f := match lhs, rhs with VNum a, VNum b => f a b | _, _ => false end in
  match op with
  | OpEq => match toolValueEquals lhs rhs with Some b => b | None => strict_eq lhs rhs end
  | OpNe => match toolValueEquals lhs rhs with Some b => negb b | None => negb (strict_eq lhs rhs) end
  | OpLt => numeric num_lt
  | OpLe => numeric num_le
  | OpGt => numeric (fun a b => num_lt b a)
  | OpGe => numeric (fun a b => num_le b a)
  end.

(** [Object.hasOwn(cur, key)] and the property read, on an object. *)
Definition ownProperty (cur : Value) (key : string) : option Value :=
  match cur with
  | VObj _ o => obj_get key o
  | VArr _ l =>
      if (key =? "length")%string then Some (of_count (length l))
      else match List.find (fun i => (pretty i =? key)%string) (seq 0 (length l)) with
           | Some i => l !! i
           | None => None
           end
  | _ => None
  end.
(** [cur[n]] on an array. *)
Definition element (l : list Value) (n : Num) : Value :=
  match n with
  | Fin q =>
      let q' := Qred q in
      if Pos.eqb (Qden q') 1 && Z.leb 0 (Qnum q')
      then default VUndef (l !! Z.to_nat (Qnum q')) else VUndef
  | _ => VUndef
  end.
Definition segment (cur : Value) (seg : PathSegment) : Value :=
  match seg with
  | SegProp name =>
      match cur with
      | VArr _ l => if (name =? "length")%string then of_count (length l)
                    else default VUndef (ownProperty cur name)
      | VStr s => if (name =? "length")%string then of_count (String.length s) else VUndef
      | _ => default VUndef (ownProperty cur name)
      end
  | SegIndex (IdxNum n) => match cur with VArr _ l => element l n | _ => VUndef end
  | SegIndex (IdxStr key) => default VUndef (ownProperty cur key)
  end.
Fixpoint resolvePath (cur : Value) (segments : list PathSegment) : Value :=
  match segments with
  | [] => cur
  | seg :: rest =>
      match cur with
      | VUndef | VNull => VUndef
      | _ => resolvePath (segment cur seg) rest
      end
  end.

(** ** [evaluate] *)
Definition MAX_DEPTH : Z := 64.
Definition MAX_STEPS : Z := 10000.

Definition literal_value (l : Literal) : Value :=
  match l with LitStr s => VStr s | LitNum n => VNum n | LitBool b => VBool b | LitNull => VNull end.

Section Eval.
Context (bindings : gmap string Value).

(** The value of [node] and the step count after it, from depth [depth] and
    step count [steps]. *)
Fixpoint evaluate (node : ASTNode) (depth steps : Z) : result EvalError (Value * Z) :=
  if Z.ltb MAX_DEPTH depth then Err (InterpreterLimitError "depth>64")
  else if Z.ltb MAX_STEPS (steps + 1) then Err (InterpreterLimitError "steps>10000")
  else
    let steps := (steps + 1)%Z in
    let depth := (depth + 1)%Z in
    match node with
    | ELiteral l => Ok (literal_value l, steps)
    | EName id => Ok (default VUndef (bindings !! id), steps)
    | EPath target segments =>
        rs <-? evaluate target depth steps ;; Ok (resolvePath rs.1 segments, rs.2)
    | ECall name args =>
        if set_has name FUNCTION_NAMES then
          rs <-? (fix go (args : list ASTNode) (steps : Z) : result EvalError (list Value * Z) :=
                    match args with
                    | [] => Ok ([], steps)
                    | a :: rest =>
                        r <-? evaluate a depth steps ;;
                        rs <-? go rest r.2 ;;
                        Ok (r.1 :: rs.1, rs.2)
                    end) args steps ;;
          v <-? callFunction name rs.1 ;;
          Ok (v, rs.2)
        else Err (InterpreterRuntimeError ("unknown function: " +:+ name))
    | ENot operand =>
        r <-? evaluate operand depth steps ;; Ok (VBool (negb (truthy r.1)), r.2)
    | EBinary OpAnd lhs rhs =>
        l <-? evaluate lhs depth steps ;;
        if truthy l.1 then evaluate rhs depth l.2 else Ok l
    | EBinary OpOr lhs rhs =>
        l <-? evaluate lhs depth steps ;;
        if truthy l.1 then Ok l else evaluate rhs depth l.2
    | EBinary (OpCompare op) lhs rhs =>
        l <-? evaluate lhs depth steps ;;
        r <-? evaluate rhs depth l.2 ;;
        Ok (VBool (applyCompare op l.1 r.1), r.2)
    end.
End Eval.
End Interpreter.

(** ** [evalCondition] *)

(** lru-cache: a lookup finds what was last stored under the key, or nothing,
    and evicts at will. *)
Class ParseCache (C : Type) := {
  getCached : string -> C -> option ASTNode * C;
  setCached : string -> ASTNode -> C -> C;
  cached : C -> string -> ASTNode -> Prop;
  getCached_some : forall k c a c', getCached k c = (Some a, c') -> cached c k a;
  getCached_keeps : forall k c r c' k' a, getCached k c = (r, c') -> cached c' k' a -> cached c k' a;
  setCached_adds : forall k a c k' a', cached (setCached k a c) k' a' ->
                     (k' = k /\ a' = a) \/ cached c k' a';
}.

Section Condition.
Context `{Re : Re2} {C : Type} `{Cache : ParseCache C}.

Definition evalAst (bindings : gmap string Value) (ast : ASTNode) : bool :=
  match evaluate bindings ast 0 0 with
  | Ok (v, _) => truthy v
  | Err _ => false
  end.

Definition evalCondition (expr : string) (bindings : gmap string Value) (cache : C) : bool * C :=
  let trimmed := trim expr in
  if (trimmed =? "")%string then (true, cache)
  else
    match getCached trimmed cache with
    | (Some ast, cache') => (evalAst bindings ast, cache')
    | (None, cache') =>
        match tokenize trimmed with
        | None => (false, cache')
        | Some ts =>
            match parse ts with
            | None => (false, cache')
            | Some ast => (evalAst bindings ast, setCached trimmed ast cache')
            end
        end
    end.
End Condition.
