(* ===== verification/ExprProps.v ===== *)
(** * Properties of expression evaluation

    The capped interpreter against an uncapped denotation, and the
    fail-closed, cache-transparent condition. *)

From Stdlib Require Import Ascii String QArith.
From stdpp Require Import base option list strings gmap.
From S2P Require Import Prelude ExprSyntax ExprGrammar ExprEval.
#[local] Open Scope os_scope.
#[local] Open Scope Z_scope.

Section AstInd.
Context (P : ASTNode -> Prop)
  (Hlit : forall l, P (ELiteral l)) (Hname : forall x, P (EName x))
  (Hpath : forall t segs, P t -> P (EPath t segs))
  (Hcall : forall f args, Forall P args -> P (ECall f args))
  (Hnot : forall e, P e -> P (ENot e))
  (Hbin : forall op l r, P l -> P r -> P (EBinary op l r)).
Fixpoint ast_nested_ind (e : ASTNode) : P e :=
  match e with
  | ELiteral l => Hlit l
  | EName x => Hname x
  | EPath t segs => Hpath t segs (ast_nested_ind t)
  | ECall f args => Hcall f args ((fix go l : Forall P l :=
      match l with [] => @List.Forall_nil _ P
                 | a :: l' => @List.Forall_cons _ P a l' (ast_nested_ind a) (go l') end) args)
  | ENot e => Hnot e (ast_nested_ind e)
  | EBinary op l r => Hbin op l r (ast_nested_ind l) (ast_nested_ind r)
  end.
End AstInd.

(** ** The uncapped denotation

    Value, number of nodes visited, and nesting of the visited nodes below
    this one. *)
Abbreviation Denotation A := (result EvalError (A * Z * Z)).
Definition yields {A} (v : A) : Denotation A := Ok (v, 0, 0).
Definition visited {A} (r : Denotation A) : Denotation A :=
  match r with Ok (v, c, h) => Ok (v, 1 + c, h) | Err e => Err e end.
Definition deeper {A} (r : Denotation A) : Denotation A :=
  match r with Ok (v, c, h) => Ok (v, c, 1 + h) | Err e => Err e end.
Definition andThen {A B} (x : Denotation A) (f : A -> Denotation B) : Denotation B :=
  match x with
  | Ok (v, c, h) =>
      match f v with Ok (w, c', h') => Ok (w, c + c', Z.max h h') | Err e => Err e end
  | Err e => Err e
  end.

Section Denote.
Context `{Re : Re2} (bindings : gmap string Value).
Fixpoint denote (node : ASTNode) : Denotation Value :=
  visited (
    match node with
    | ELiteral l => yields (literal_value l)
    | EName id => yields (default VUndef (bindings !! id))
    | EPath target segments =>
        andThen (deeper (denote target)) (fun v => yields (resolvePath v segments))
    | ECall name args =>
        if set_has name FUNCTION_NAMES then
          andThen ((fix go (args : list ASTNode) : Denotation (list Value) :=
                      match args with
                      | [] => yields []
                      | a :: rest =>
                          andThen (deeper (denote a)) (fun v =>
                            andThen (go rest) (fun vs => yields (v :: vs)))
                      end) args)
            (fun vs => match callFunction name vs with Ok v => yields v | Err e => Err e end)
        else Err (InterpreterRuntimeError ("unknown function: " +:+ name))
    | ENot operand => andThen (deeper (denote operand)) (fun v => yields (VBool (negb (truthy v))))
    | EBinary OpAnd lhs rhs =>
        andThen (deeper (denote lhs)) (fun v => if truthy v then deeper (denote rhs) else yields v)
    | EBinary OpOr lhs rhs =>
        andThen (deeper (denote lhs)) (fun v => if truthy v then yields v else deeper (denote rhs))
    | EBinary (OpCompare op) lhs rhs =>
        andThen (deeper (denote lhs)) (fun v =>
          andThen (deeper (denote rhs)) (fun v' => yields (VBool (applyCompare op v v'))))
    end).
End Denote.

(** ** Capped against uncapped runs *)
Definition limited {A} (r : result EvalError A) : Prop :=
  exists m, r = Err (InterpreterLimitError m).
Definition counts_ok {A} (u : Denotation A) : Prop :=
  match u with Ok (_, c, h) => 0 <= c /\ 0 <= h | Err _ => True end.
(** From depth [d] and count [s]: the same value with the visits added when
    both caps are respected, a limit error when one is not, and the uncapped
    error unless a limit came first. *)
Definition agrees {A} (d s : Z) (capped : result EvalError (A * Z)) (u : Denotation A) : Prop :=
  match u with
  | Ok (v, c, h) =>
      (d + h <= MAX_DEPTH -> s + c <= MAX_STEPS -> capped = Ok (v, s + c)) /\
      (MAX_DEPTH < d + h \/ MAX_STEPS < s + c -> limited capped)
  | Err e => capped = Err e \/ limited capped
  end.
(** The same for the body of a node, which runs only below the caps. *)
Definition agrees_body {A} (d s : Z) (capped : result EvalError (A * Z)) (u : Denotation A) : Prop :=
  counts_ok u /\ (d <= MAX_DEPTH -> s <= MAX_STEPS -> agrees d s capped u).
Definition agrees_node {A} (d s : Z) (capped : result EvalError (A * Z)) (u : Denotation A) : Prop :=
  counts_ok u /\ agrees d s capped u.

Definition checked {A} (d s : Z) (body : result EvalError (A * Z)) : result EvalError (A * Z) :=
  if Z.ltb MAX_DEPTH d then Err (InterpreterLimitError "depth>64")
  else if Z.ltb MAX_STEPS (s + 1) then Err (InterpreterLimitError "steps>10000")
  else body.

Lemma agrees_checked {A} d s (body : result EvalError (A * Z)) u :
  agrees_body d (s + 1) body u -> agrees_node d s (checked d s body) (visited u).
Proof.
  unfold agrees_body, agrees_node, agrees, checked. intros [Hu Hb].
  destruct (Z.ltb_spec MAX_DEPTH d) as [Hd|Hd];
    [|destruct (Z.ltb_spec MAX_STEPS (s + 1)) as [Hs|Hs]]; destruct u as [[[v c] h]|e]; cbn in *.
  - split; [lia|]. split; [lia|]. intros _. by eexists.
  - split; [done|]. right. by eexists.
  - split; [lia|]. split; [lia|]. intros _. by eexists.
  - split; [done|]. right. by eexists.
  - destruct (Hb Hd Hs) as [Hok Hlim]. split; [lia|]. split; [|intros; apply Hlim; lia].
    intros H1 H2. rewrite Hok by lia. do 2 f_equal. lia.
  - split; [done|]. by apply Hb.
Qed.

Lemma agrees_yields {A} d s (v : A) : agrees_body d s (Ok (v, s)) (yields v).
Proof.
  unfold agrees_body, agrees. cbn. split; [lia|]. intros Hd Hs. split; [|lia].
  intros _ _. by rewrite Z.add_0_r.
Qed.
Lemma agrees_err {A} d s e : agrees_body (A := A) d s (Err e) (Err e).
Proof. split; [done|]. intros _ _. by left. Qed.
Lemma agrees_deeper {A} d s (x : result EvalError (A * Z)) u :
  agrees_node (d + 1) s x u -> agrees_body d s x (deeper u).
Proof.
  unfold agrees_node, agrees_body, agrees. destruct u as [[[v c] h]|e]; cbn; [|tauto].
  intros [Hu [Hok Hlim]]. split; [lia|]. intros _ _. split; intros; [apply Hok|apply Hlim]; lia.
Qed.
Lemma agrees_andThen {A B} d s (x : result EvalError (A * Z)) u
    (f : A * Z -> result EvalError (B * Z)) (g : A -> Denotation B) :
  agrees_body d s x u -> (forall v s', agrees_body d s' (f (v, s')) (g v)) ->
  agrees_body d s (mbind f x) (andThen u g).
Proof.
  unfold agrees_body, agrees. intros [Hu Hx] Hf. destruct u as [[[v c] h]|e]; cbn in *.
  2:{ split; [done|]. intros Hd Hs. destruct (Hx Hd Hs) as [->|[m ->]]; [by left|right; by exists m]. }
  specialize (Hf v (s + c)) as [Hw Hf]. split; [destruct (g v) as [[[w c'] h']|e]; cbn in *; lia|].
  intros Hd Hs. destruct (Hx Hd Hs) as [Hok Hlim].
  destruct (decide (MAX_DEPTH < d + h \/ MAX_STEPS < s + c)) as [Hl|Hl].
  - destruct (Hlim Hl) as [m ->]. destruct (g v) as [[[w c'] h']|e]; cbn in *.
    + split; [lia|]. intros _. by exists m.
    + right. by exists m.
  - rewrite Hok by lia. cbn. specialize (Hf Hd ltac:(lia)). destruct (g v) as [[[w c'] h']|e]; cbn in *; [|done].
    destruct Hf as [Hok' Hlim']. split; intros; [rewrite Hok' by lia; do 2 f_equal; lia|apply Hlim'; lia].
Qed.

Lemma evaluate_agrees `{Re : Re2} bindings node d s :
  agrees_node d s (evaluate bindings node d s) (denote bindings node).
Proof.
  revert d s. induction node as [l|x|t segs IH|f args IH|e IH|op l r IHl IHr] using ast_nested_ind;
    intros d s; cbn [evaluate denote]; apply agrees_checked.
  - apply agrees_yields.
  - apply agrees_yields.
  - apply agrees_andThen; [by apply agrees_deeper|]. intros v s'. apply agrees_yields.
  - destruct (set_has f FUNCTION_NAMES); [|apply agrees_err].
    apply agrees_andThen; [|intros vs s'; cbn; destruct (callFunction f vs); [apply agrees_yields|apply agrees_err]].
    generalize (s + 1). clear s. induction IH as [|a args Ha _ IHargs]; intros s; [apply agrees_yields|].
    apply agrees_andThen; [by apply agrees_deeper|]. intros v s'. apply agrees_andThen; [apply IHargs|].
    intros vs s''. apply agrees_yields.
  - apply agrees_andThen; [by apply agrees_deeper|]. intros v s'. apply agrees_yields.
  - destruct op as [op| |]; (apply agrees_andThen; [by apply agrees_deeper|]); intros v s'; cbn.
    + apply agrees_andThen; [by apply agrees_deeper|]. intros v' s''. apply agrees_yields.
    + destruct (truthy v); [by apply agrees_deeper|apply agrees_yields].
    + destruct (truthy v); [apply agrees_yields|by apply agrees_deeper].
Qed.

(** ** Conditions over a parse cache *)

(** A cache is coherent when it holds only parses of its keys, which is what
    [setCached] is called with. *)
Definition parsed (key : string) : option ASTNode :=
  match tokenize key with Some ts => parse ts | None => None end.
Definition coherent {C} `{Cache : ParseCache C} (c : C) : Prop :=
  forall k a, cached c k a -> parsed k = Some a.

Lemma evalCondition_miss `{Re : Re2} {C} `{Cache : ParseCache C} expr b (c c' : C) :
  trim expr <> "" -> getCached (trim expr) c = (None, c') ->
  evalCondition expr b c = match parsed (trim expr) with
                           | Some a => (evalAst b a, setCached (trim expr) a c')
                           | None => (false, c')
                           end.
Proof.
  intros Hne Hget. unfold evalCondition, parsed.
  rewrite (proj2 (String.eqb_neq _ _) Hne), Hget.
  by destruct (tokenize (trim expr)) as [ts|]; [destruct (parse ts)|].
Qed.
Lemma evalCondition_hit `{Re : Re2} {C} `{Cache : ParseCache C} expr b (c c' : C) a :
  trim expr <> "" -> getCached (trim expr) c = (Some a, c') ->
  evalCondition expr b c = (evalAst b a, c').
Proof.
  intros Hne Hget. unfold evalCondition. by rewrite (proj2 (String.eqb_neq _ _) Hne), Hget.
Qed.
Lemma parseExpression_parsed expr :
  trim expr <> "" -> parseExpression expr = parsed (trim expr).
Proof. intros Hne. unfold parseExpression. by rewrite (proj2 (String.eqb_neq _ _) Hne). Qed.
Lemma evalAst_true `{Re : Re2} b a :
  evalAst b a = true <-> exists v n, evaluate b a 0 0 = Ok (v, n) /\ truthy v = true.
Proof.
  unfold evalAst. destruct (evaluate b a 0 0) as [[v n]|e]; [|naive_solver].
  split; [intros H; by exists v, n|]. by intros (? & ? & [= <- <-] & ?).
Qed.

(** ** Properties *)

(** The interpreter returns a value exactly when the uncapped meaning of
    the expression is that value, reached with at most 10000 visited nodes in
    all and no visited node deeper than 64; its step count is then the number
    of nodes visited (short-circuited operands are not counted), and any
    error it throws is a limit error or the error of the uncapped meaning. *)
Lemma evaluate_exact `{Re : Re2} (b : gmap string Value) (node : ASTNode) (d s : Z) :
  (forall v s', evaluate b node d s = Ok (v, s') <->
     exists c h, denote b node = Ok (v, c, h) /\ d + h <= MAX_DEPTH /\ s' = s + c /\ s' <= MAX_STEPS) /\
  (forall e, evaluate b node d s = Err e ->
     (exists m, e = InterpreterLimitError m) \/ denote b node = Err e).
Proof.
  destruct (evaluate_agrees b node d s) as [Hc H].
  destruct (denote b node) as [[[w c] h]|e0] eqn:Ed; cbn in H.
  - destruct H as [Hok Hlim].
    destruct (decide (MAX_DEPTH < d + h \/ MAX_STEPS < s + c)) as [Hl|Hl].
    + destruct (Hlim Hl) as [m ->]. split; [|intros e [= <-]; left; by exists m].
      intros v s'. split; [done|]. intros (c' & h' & [= <- <- <-] & ?). lia.
    + rewrite Hok by lia. split; [|done]. intros v s'. split.
      * intros [= <- <-]. exists c, h. split; [done|lia].
      * by intros (c' & h' & [= <- <- <-] & _ & -> & _).
  - split.
    + intros v s'. split; [|naive_solver]. by destruct H as [->|[m ->]].
    + intros e He. destruct H as [E|[m E]]; rewrite E in He; injection He as <-; [by right|].
      left. by exists m.
Qed.

(** C38: a condition holds exactly when it is blank, or parses and evaluates
    within the caps to a truthy value; every lexing, parsing, runtime and
    limit failure gives false.  The answer does not depend on what the parse
    cache holds or evicts, and the cache stays coherent. *)
Theorem evalCondition_fail_closed `{Re : Re2} {C} `{Cache : ParseCache C}
    (expr : string) (b : gmap string Value) (c : C) :
  coherent c ->
  ((evalCondition expr b c).1 = true <->
     trim expr = "" \/
     exists a v n, parseExpression expr = Some a /\ evaluate b a 0 0 = Ok (v, n) /\ truthy v = true) /\
  coherent (evalCondition expr b c).2.
Proof.
  intros Hc. destruct (decide (trim expr = "")) as [Ht|Ht].
  { unfold evalCondition. rewrite (proj2 (String.eqb_eq _ _) Ht). by split; [split; [left|]|]. }
  rewrite (parseExpression_parsed _ Ht).
  assert (Hiff : forall a (p : option ASTNode), p = Some a ->
    (evalAst b a = true <-> trim expr = "" \/
     exists a v n, p = Some a /\ evaluate b a 0 0 = Ok (v, n) /\ truthy v = true)).
  { intros a p ->. rewrite evalAst_true. naive_solver. }
  destruct (getCached (trim expr) c) as [[a|] c'] eqn:Hget.
  - rewrite (evalCondition_hit _ _ _ _ a Ht Hget). split.
    + apply Hiff, Hc. by eapply getCached_some.
    + intros k a' Hk. eapply Hc, getCached_keeps; done.
  - rewrite (evalCondition_miss _ _ _ _ Ht Hget).
    assert (Hc' : coherent c') by (intros k a' Hk; eapply Hc, getCached_keeps; done).
    destruct (parsed (trim expr)) as [a|] eqn:Hp; cbn.
    + split; [by apply Hiff|]. intros k a' Hk. apply setCached_adds in Hk as [[-> ->]|Hk]; [done|by apply Hc'].
    + split; [naive_solver|done].
Qed.

(** ** Witness: an association-list cache and a pattern language of literals *)
#[local] Instance literal_re2 : Re2 := {|
  Pattern := string;
  re2_compile p := Some p;
  re2_test p v := match v with VStr s => Some (str_includes s p) | _ => None end;
|}.
#[local] Program Instance list_cache : ParseCache (list (string * ASTNode)) := {|
  getCached k c := (obj_get k c, c);
  setCached k a c := (k, a) :: c;
  cached c k a := In (k, a) c;
|}.
Next Obligation.
  intros k c a c' [= H <-]. revert H. induction c as [|[k' a'] c IH]; cbn; [done|].
  destruct (k =? k')%string eqn:E.
  - apply String.eqb_eq in E as ->. intros [= ->]. by left.
  - right. by apply IH.
Qed.
Next Obligation. by intros k c r c' k' a [= <- <-]. Qed.
Next Obligation. intros k a c k' a' [[= <- <-]|H]; [by left|by right]. Qed.
Definition demo_condition : string :=
  let q := String DQUOTE "" in "contains(tool, " +:+ q +:+ "as" +:+ q +:+ ") && n > 2".
Lemma evalCondition_fail_closed_witness :
  let b := <["tool" := VStr "Bash"]> (<["n" := VNum (Fin 3)]> (empty : gmap string Value)) in
  let c := (evalCondition demo_condition b []).2 in
  ((evalCondition demo_condition b c).1 = true <->
     trim demo_condition = "" \/
     exists a v n, parseExpression demo_condition = Some a /\
       evaluate b a 0 0 = Ok (v, n) /\ truthy v = true) /\
  coherent (evalCondition demo_condition b c).2 /\
  length c = 1%nat /\
  (evalCondition demo_condition b c).1 = true /\
  (evalCondition "tool.x.y && n" b c).1 = false /\
  (evalCondition "n > > 2" b c).1 = false.
Proof.
  intros b c.
  assert (H0 : coherent (C := list (string * ASTNode)) []) by (intros k a []).
  assert (Hc : coherent c)
    by exact (proj2 (evalCondition_fail_closed demo_condition b [] H0)).
  destruct (evalCondition_fail_closed demo_condition b c Hc) as [H1 H2].
  split; [exact H1|]. split; [exact H2|].
  split; [vm_compute; reflexivity|]. split; [vm_compute; reflexivity|].
  split; vm_compute; reflexivity.
Defined.
