(* ===== verification/Bus.v ===== *)
(** * The event bus ([src/src/runtime/bus/ring.ts], [bus.ts], [types.ts]) and the
      gate kernel ([src/src/runtime/gate/kernel.ts])

    The replay ring against the full log of what was pushed, the bus with its
    subscribers and its queue of notifications, and the four gate actions.
    A filter is a pure function that may throw ([None]); a handler runs later,
    as a microtask, and what it does to the bus are later operations. *)

From Stdlib Require Import Ascii String.
From stdpp Require Import base option list strings gmap.
From S2P Require Import Prelude Json Guard.
#[local] Open Scope nat_scope.

(** ** The ring buffer *)
Section Ring.
Context {T : Type}.

Record CircularBuffer := {
  cap : nat;
  buf : list (option T);
  rhead : nat;
  size : nat;
  totalAdded : nat;
}.
Definition newBuffer (capacity : nat) : CircularBuffer :=
  {| cap := Nat.max 1 capacity; buf := List.repeat None (Nat.max 1 capacity);
     rhead := 0; size := 0; totalAdded := 0 |}.

Definition push (entry : T) (r : CircularBuffer) : CircularBuffer :=
  let index := (rhead r + size r) mod cap r in
  let room := size r <? cap r in
  {| cap := cap r; buf := <[index := Some entry]> (buf r);
     rhead := if room then rhead r else (rhead r + 1) mod cap r;
     size := if room then size r + 1 else size r;
     totalAdded := totalAdded r + 1 |}.

(** [this.buf[i]]: a slot never written, or no slot, reads [undefined]. *)
Definition slot (r : CircularBuffer) (i : nat) : option T := mjoin (buf r !! i).
Definition since (cursor : Z) (r : CircularBuffer) : list (option T) * bool :=
  if size r =? 0 then ([], false)
  else
    let oldest := totalAdded r - size r + 1 in
    let gap := Z.ltb cursor (Z.of_nat oldest - 1) in
    let start := Z.to_nat (Z.max (cursor + 1) (Z.of_nat oldest)) in
    ((fun k => slot r ((rhead r + (k - oldest)) mod cap r)) <$>
       seq start (totalAdded r + 1 - start), gap).
End Ring.
Arguments CircularBuffer : clear implicits.

(** ** Envelopes *)
Abbreviation ActorAddr := string (only parsing).
Inductive MessageKind :=
| K_tool_call | K_post_tool_call | K_prompt_submit | K_session_start | K_session_end
| K_stop | K_schedule | K_webhook | K_inbound_channel | K_file_changed
| K_transition | K_gate_action | K_memory_tick | K_topology | K_lap.
#[export] Instance MessageKind_eq_dec : EqDecision MessageKind.
Proof. solve_decision. Defined.

Record Envelope := {
  env_seq : nat;
  env_from : ActorAddr;
  env_to : string;
  env_kind : MessageKind;
  env_corr : option string;
  env_payload : Json;
  env_ts : Z;
}.
Record PublishInput := {
  in_from : ActorAddr;
  in_to : string;
  in_kind : MessageKind;
  in_corr : option string;
  in_payload : Json;
}.

(** ** The bus *)
Record Sub := { sub_id : nat; sub_filter : Envelope -> option bool }.
Record Bus := {
  hwm : nat;
  subs : list Sub;
  next_sub : nat;
  ring : CircularBuffer Envelope;
  microtasks : list (nat * Envelope);
}.
Definition newBus (capacity : nat) : Bus :=
  {| hwm := 0; subs := []; next_sub := 0; ring := newBuffer capacity; microtasks := [] |}.

Definition envelope_of (now : Z) (seq : nat) (i : PublishInput) : Envelope :=
  {| env_seq := seq; env_from := in_from i; env_to := in_to i; env_kind := in_kind i;
     env_corr := in_corr i; env_payload := in_payload i; env_ts := now |}.
(** A throwing filter does not match. *)
Definition matches (e : Envelope) (s : Sub) : bool := default false (sub_filter s e).
Definition publish (now : Z) (input : PublishInput) (b : Bus) : Envelope * Bus :=
  let full := envelope_of now (hwm b + 1) input in
  (full,
   {| hwm := hwm b + 1; subs := subs b; next_sub := next_sub b; ring := push full (ring b);
      microtasks := microtasks b ++
        ((fun s => (sub_id s, full)) <$> List.filter (matches full) (subs b)) |}).
(** [subscribe] returns the identity its unsubscribe closure captures. *)
Definition subscribe (filter : Envelope -> option bool) (b : Bus) : nat * Bus :=
  (next_sub b,
   {| hwm := hwm b; subs := subs b ++ [{| sub_id := next_sub b; sub_filter := filter |}];
      next_sub := next_sub b + 1; ring := ring b; microtasks := microtasks b |}).
Definition unsubscribe (id : nat) (b : Bus) : Bus :=
  {| hwm := hwm b; subs := List.filter (fun s => negb (sub_id s =? id)) (subs b);
     next_sub := next_sub b; ring := ring b; microtasks := microtasks b |}.
(** The event loop runs the oldest queued notification. *)
Definition runMicrotask (b : Bus) : option (nat * Envelope) * Bus :=
  (head (microtasks b),
   {| hwm := hwm b; subs := subs b; next_sub := next_sub b; ring := ring b;
      microtasks := tail (microtasks b) |}).
Definition bus_since (seq : Z) (b : Bus) : list (option Envelope) * bool := since seq (ring b).

(** ** The gate kernel *)
Inductive Verdict := WEDGE | HUMAN_REQUIRED.
Record GateEffect := { exitCode : nat; g_message : option string; verdict : option Verdict }.
Record GateCtx := { ctx_from : ActorAddr; humanRequired : bool }.
Definition ACTIONS (action : Action) (message : string) (ctx : GateCtx) : GateEffect :=
  match action with
  | APass => {| exitCode := 0; g_message := None; verdict := None |}
  | AWarn => {| exitCode := 0; g_message := Some message; verdict := None |}
  | ABlock => {| exitCode := 2; g_message := Some message; verdict := None |}
  | AHalt => {| exitCode := 2; g_message := Some message;
                verdict := Some (if humanRequired ctx then HUMAN_REQUIRED else WEDGE) |}
  end.
Definition action_name (a : Action) : string :=
  match a with APass => "pass" | AWarn => "warn" | ABlock => "block" | AHalt => "halt" end.
(** [messages] is the message store's own entries. *)
Definition applyAction (now : Z) (action : Action) (failureType : string)
    (messages : list (string * string)) (ctx : GateCtx) (b : Bus) : GateEffect * Bus :=
  let message := default ("gate:" +:+ action_name action) (obj_get failureType messages) in
  let effect := ACTIONS action message ctx in
  match action with
  | APass => (effect, b)
  | _ => (effect, (publish now {| in_from := ctx_from ctx; in_to := "topic:transition";
            in_kind := K_gate_action; in_corr := None;
            in_payload := JObj [("action", JStr (action_name action));
                                ("failureType", JStr failureType)] |} b).2)
  end.

(** ** The ring refines the log *)
Section RingLog.
Context {T : Type}.
Implicit Types (r : CircularBuffer T) (log : list T).

Record ring_log r log : Prop := {
  rl_cap : 0 < cap r;
  rl_len : length (buf r) = cap r;
  rl_head : rhead r < cap r;
  rl_size : size r = Nat.min (length log) (cap r);
  rl_total : totalAdded r = length log;
  rl_slots : forall i, i < size r ->
    slot r ((rhead r + i) mod cap r) = log !! (length log - size r + i);
}.

Lemma mod_add_inj h i j c : i < c -> j < c -> (h + i) mod c = (h + j) mod c -> i = j.
Proof.
  intros Hi Hj E. pose proof (Nat.div_mod_eq (h + i) c) as D1.
  pose proof (Nat.div_mod_eq (h + j) c) as D2. rewrite E in D1.
  revert D1 D2. generalize ((h + i) / c) ((h + j) / c) ((h + j) mod c). intros q q' m D1 D2.
  destruct (Nat.lt_trichotomy q q') as [Hq|[->|Hq]]; [|lia|];
    [replace q' with (q + 1 + (q' - q - 1)) in D2 by lia|replace q with (q' + 1 + (q - q' - 1)) in D1 by lia];
    nia.
Qed.

Lemma newBuffer_log capacity : ring_log (newBuffer capacity) [].
Proof. split; cbn; try lia. apply repeat_length. Qed.

Lemma slot_push_eq e r :
  length (buf r) = cap r -> 0 < cap r -> slot (push e r) ((rhead r + size r) mod cap r) = Some e.
Proof.
  intros Hl Hc. unfold slot, push. cbn. rewrite list_lookup_insert_eq; [done|].
  rewrite Hl. by apply Nat.mod_upper_bound, Nat.neq_0_lt_0.
Qed.
Lemma slot_push_ne e r i :
  (rhead r + size r) mod cap r <> i -> slot (push e r) i = slot r i.
Proof. intros Hne. unfold slot, push. cbn. by rewrite list_lookup_insert_ne. Qed.

Lemma push_log e r log : ring_log r log -> ring_log (push e r) (log ++ [e]).
Proof.
  intros [Hc Hl Hh Hs Ht Hsl]. pose proof (Nat.mod_upper_bound (rhead r + 1) (cap r)).
  assert (E1 : size (push e r) = if size r <? cap r then size r + 1 else size r) by done.
  assert (E2 : rhead (push e r) = if size r <? cap r then rhead r else (rhead r + 1) mod cap r) by done.
  assert (E3 : cap (push e r) = cap r) by done.
  assert (E4 : totalAdded (push e r) = totalAdded r + 1) by done.
  assert (E5 : length (buf (push e r)) = length (buf r)) by apply length_insert.
  split; rewrite ?E1, ?E2, ?E3, ?E4, ?E5, ?length_app; cbn [length]; try lia.
  - destruct (Nat.ltb_spec (size r) (cap r)); lia.
  - destruct (Nat.ltb_spec (size r) (cap r)); lia.
  - intros i.
    destruct (Nat.ltb_spec (size r) (cap r)) as [Hlt|Hge]; intros Hi.
    + destruct (decide (i = size r)) as [->|Hne].
      * rewrite slot_push_eq by done. rewrite lookup_app_r by lia.
        by replace (_ - _) with 0 by lia.
      * rewrite slot_push_ne by (intros E; apply mod_add_inj in E; lia).
        rewrite Hsl by lia. rewrite lookup_app_l by lia. f_equal. lia.
    + rewrite Nat.Div0.add_mod_idemp_l. replace (rhead r + 1 + i) with (rhead r + (i + 1)) by lia.
      destruct (decide (i + 1 = cap r)) as [E|Hne].
      * rewrite E. replace (cap r) with (size r) at 1 by lia. rewrite slot_push_eq by done.
        rewrite lookup_app_r by lia. by replace (_ - _) with 0 by lia.
      * rewrite slot_push_ne.
        2:{ replace (size r) with (cap r) by lia. intros E.
            replace (rhead r + cap r) with (rhead r + 0 + 1 * cap r) in E by lia.
            rewrite Nat.Div0.mod_add in E. apply mod_add_inj in E; lia. }
        rewrite Hsl by lia. rewrite lookup_app_l by lia. f_equal. lia.
Qed.

Lemma since_log r log cursor :
  ring_log r log ->
  since cursor r =
    (Some <$> drop (Z.to_nat (Z.max cursor (Z.of_nat (length log - cap r)))) log,
     bool_decide (log <> [] /\ (cursor < Z.of_nat (length log - cap r))%Z)).
Proof.
  intros [Hc Hl Hh Hs Ht Hsl]. unfold since. destruct log as [|e0 log0] eqn:Elog.
  { cbn in Hs. rewrite Hs. cbn. by rewrite drop_nil. }
  rewrite <- Elog in *. assert (Hn : 0 < length log) by (rewrite Elog; cbn; lia).
  destruct (Nat.eqb_spec (size r) 0) as [|_]; [lia|]. f_equal.
  - set (start := Z.to_nat (Z.max (cursor + 1) _)). set (k := Z.to_nat (Z.max cursor _)).
    assert (Hsk : start = k + 1) by lia.
    apply list_eq. intros i. rewrite !list_lookup_fmap, lookup_drop.
    destruct (decide (i < totalAdded r + 1 - start)) as [Hi|Hi].
    + rewrite lookup_seq_lt by done. cbn.
      replace (start + i - (totalAdded r - size r + 1)) with (k + i - (length log - size r)) by lia.
      rewrite Hsl by lia. replace (length log - size r + (k + i - (length log - size r))) with (k + i) by lia.
      destruct (lookup_lt_is_Some_2 log (k + i)) as [x ->]; [lia|done].
    + rewrite lookup_seq_ge by lia. by rewrite lookup_ge_None_2 by lia.
  - assert (log <> []) as Hne by (by rewrite Elog).
    destruct (Z.ltb_spec cursor (Z.of_nat (totalAdded r - size r + 1) - 1)) as [Hlt|Hge]; symmetry.
    + apply bool_decide_eq_true. split; [done|]. lia.
    + apply bool_decide_eq_false. intros [_ ?]. lia.
Qed.
End RingLog.

(** ** Runs of the bus *)
Inductive BusOp :=
| BPublish (now : Z) (input : PublishInput)
| BSubscribe (filter : Envelope -> option bool)
| BUnsubscribe (id : nat)
| BMicrotask.
Definition bus_op (op : BusOp) (b : Bus) : Bus :=
  match op with
  | BPublish now input => (publish now input b).2
  | BSubscribe f => (subscribe f b).2
  | BUnsubscribe id => unsubscribe id b
  | BMicrotask => (runMicrotask b).2
  end.
(** The bus after [ops], with every envelope [publish] returned. *)
Fixpoint bus_run (ops : list BusOp) (b : Bus) : Bus * list Envelope :=
  match ops with
  | [] => (b, [])
  | op :: ops' =>
      let returned := match op with BPublish now input => [(publish now input b).1] | _ => [] end in
      let '(b', log) := bus_run ops' (bus_op op b) in (b', returned ++ log)
  end.

Record bus_log (capacity : nat) (b : Bus) (log : list Envelope) : Prop := {
  bl_ring : ring_log (ring b) log;
  bl_cap : cap (ring b) = Nat.max 1 capacity;
  bl_hwm : hwm b = length log;
  bl_seq : forall i e, log !! i = Some e -> env_seq e = i + 1;
}.
Lemma newBus_log capacity : bus_log capacity (newBus capacity) [].
Proof. split; try done. apply newBuffer_log. Qed.
Lemma publish_log capacity now input b log :
  bus_log capacity b log ->
  bus_log capacity (publish now input b).2 (log ++ [(publish now input b).1]).
Proof.
  intros [Hr Hc Hh Hs]. split; cbn -[push]; [by apply push_log|done|rewrite length_app; cbn; lia|].
  intros i e. rewrite lookup_app_Some. intros [H|[Hi H]]; [by apply Hs|].
  apply list_lookup_singleton_Some in H as [Hi' <-]. cbn. lia.
Qed.
Lemma bus_run_log capacity ops b log :
  bus_log capacity b log -> bus_log capacity (bus_run ops b).1 (log ++ (bus_run ops b).2).
Proof.
  revert b log. induction ops as [|op ops IH]; intros b log Hb; cbn; [by rewrite app_nil_r|].
  destruct (bus_run ops (bus_op op b)) as [b' log'] eqn:E. cbn.
  specialize (IH (bus_op op b)). rewrite E in IH. cbn in IH. destruct op; cbn [app];
    try (apply IH; destruct Hb; by split).
  rewrite cons_middle, app_assoc. by apply IH, publish_log.
Qed.

Lemma drop_by_seq (log : list Envelope) o k :
  (forall i e, log !! i = Some e -> env_seq e = o + i + 1) ->
  drop (k - o) log = List.filter (fun e => k <? env_seq e) log.
Proof.
  revert o. induction log as [|e log IH]; intros o Hs; [by rewrite drop_nil|]. cbn [List.filter].
  assert (He : env_seq e = o + 1) by (rewrite (Hs 0 e eq_refl); lia).
  rewrite <- (IH (o + 1)) by (intros i e' H; rewrite (Hs (S i) e' H); lia).
  rewrite He. destruct (Nat.ltb_spec k (o + 1)).
  - replace (k - o) with 0 by lia. by replace (k - (o + 1)) with 0 by lia.
  - by replace (k - o) with (S (k - (o + 1))) by lia.
Qed.

(** ** Properties *)

(** After any sequence of publishes, subscriptions, cancellations and
    deliveries on a new bus, the envelopes carry the sequence numbers 1, 2, ...
    in publishing order, and a replay from [cursor] returns, oldest first, the
    published envelopes above the cursor that are among the last
    [max 1 capacity]; it reports a gap exactly when an envelope above the
    cursor is no longer there. *)
Lemma bus_since_replays (capacity : nat) (ops : list BusOp) (cursor : Z) :
  (0 <= cursor)%Z ->
  let '(b, log) := bus_run ops (newBus capacity) in
  let lost := length log - Nat.max 1 capacity in
  (forall i e, log !! i = Some e -> env_seq e = i + 1) /\
  (bus_since cursor b).1 =
    Some <$> List.filter (fun e => Nat.max (Z.to_nat cursor) lost <? env_seq e) log /\
  ((bus_since cursor b).2 = true <->
    exists e, e ∈ log /\ (cursor < Z.of_nat (env_seq e))%Z /\ env_seq e <= lost).
Proof.
  intros Hcur. pose proof (bus_run_log capacity ops _ _ (newBus_log capacity)) as H.
  destruct (bus_run ops (newBus capacity)) as [b log]. cbn in H. destruct H as [Hr Hc Hh Hs].
  split; [done|]. unfold bus_since. rewrite (since_log _ _ cursor Hr), Hc. cbn [fst snd]. split.
  - f_equal. replace (Z.to_nat _) with (Nat.max (Z.to_nat cursor) (length log - Nat.max 1 capacity) - 0) by lia.
    apply drop_by_seq. intros i e He. by rewrite (Hs i e He).
  - rewrite bool_decide_eq_true. split.
    + intros [Hne Hlt]. destruct (lookup_lt_is_Some_2 log (Z.to_nat cursor)) as [e He]; [lia|].
      exists e. split; [by eapply list_elem_of_lookup_2|]. rewrite (Hs _ _ He). lia.
    + intros (e & He & H1 & H2). split; [by intros ->; apply elem_of_nil in He|]. lia.
Qed.

(** ** Witness: a bus of capacity 2 after three publishes *)
Definition demo_input (k : MessageKind) : PublishInput :=
  {| in_from := "a"; in_to := "topic:t"; in_kind := k; in_corr := None; in_payload := JNull |}.
Lemma bus_since_replays_witness :
  let ops := [BSubscribe (fun e => Some (bool_decide (env_kind e = K_lap)));
              BPublish 5 (demo_input K_stop); BSubscribe (fun _ => None);
              BPublish 6 (demo_input K_lap); BMicrotask; BPublish 6 (demo_input K_lap)] in
  let b := (bus_run ops (newBus 2)).1 in
  (bus_since 0 b).2 = true /\ (bus_since 1 b).2 = false /\
  (bus_since 0 b).1 = [Some (envelope_of 6 2 (demo_input K_lap)); Some (envelope_of 6 3 (demo_input K_lap))] /\
  microtasks b = [(0, envelope_of 6 3 (demo_input K_lap))].
Proof.
  intros ops b. subst b.
  pose proof (bus_since_replays 2 ops 0 ltac:(lia)) as H0.
  pose proof (bus_since_replays 2 ops 1 ltac:(lia)) as H1.
  destruct (bus_run ops (newBus 2)) as [b log] eqn:E.
  injection E as Eb El.
  destruct H0 as (_ & E0 & G0). destruct H1 as (_ & _ & G1). subst b log. cbn [fst].
  split; [apply G0; exists (envelope_of 5 1 (demo_input K_stop)); split_and!; [left|cbn; lia|cbn; lia]|].
  split; [|split; [rewrite E0; reflexivity|reflexivity]].
  apply not_true_is_false. intros (e & He & Hlt & Hle)%G1. cbn in Hle. lia.
Defined.
