(* ===== verification/Actors.v ===== *)
(** * Actors ([src/src/runtime/actor/port.ts], [actor/supervisor.ts]) and the
      topology ([src/src/runtime/topology/topology.ts])

    The actor contract as a class, the flat-machine base actor, the one-for-one
    supervisor with its pending restarts, and the registry of connected
    actors.  A subclass's [eventFor] and hooks may throw. *)

From Stdlib Require Import Ascii String.
From stdpp Require Import base functions option list strings gmap.
From S2P Require Import Prelude Fsm Json Guard Bus.

(** ** The actor contract *)
Inductive Effect :=
| Emit (to : string) (messageKind : MessageKind) (payload : Json)
| WriteState (state : string)
| SideEffect (run : nat).

Class ActorPort (A : Type) := {
  addr : A -> ActorAddr;
  receive : Envelope -> A -> A * result string (list Effect);
  restart : A -> A;
  toWedge : string -> A -> A;
  onConnect : A -> A * result string unit;
  onDisconnect : A -> A * result string unit;
  (** [addr] is readonly *)
  addr_receive : forall e a, addr (receive e a).1 = addr a;
  addr_restart : forall a, addr (restart a) = addr a;
  addr_toWedge : forall r a, addr (toWedge r a) = addr a;
  addr_onConnect : forall a, addr (onConnect a).1 = addr a;
  addr_onDisconnect : forall a, addr (onDisconnect a).1 = addr a;
}.

(** ** [BaseActor] *)
Record ActorState := { as_current : string; as_history : list string; as_wedged : option string }.
Definition freshState (fsm : Fsm) : ActorState :=
  {| as_current := fsm_initial fsm; as_history := []; as_wedged := None |}.

Section BaseActor.
(** The subclass: its address, machine and event mapping, which may throw. *)
Context (self : ActorAddr) (fsm : Fsm) (eventFor : Envelope -> result string (option string)).

Definition base_receive (env : Envelope) (st : ActorState) : ActorState * result string (list Effect) :=
  match eventFor env with
  | Err e => (st, Err e)
  | Ok None => (st, Ok [])
  | Ok (Some event) =>
      let from := as_current st in
      let r := step (fromFlat fsm) [from] event None empty in
      if negb (sr_transitioned r) then (st, Ok [])
      else
        let to := soleState (sr_next r) in
        ({| as_current := to; as_history := as_history st ++ [from]; as_wedged := as_wedged st |},
         Ok [WriteState to;
             Emit "topic:transition" K_transition
               (JObj [("from", JStr from); ("to", JStr to); ("on", JStr event)])])
  end.
Definition base_restart (st : ActorState) : ActorState := freshState fsm.
Definition base_toWedge (reason : string) (st : ActorState) : ActorState :=
  {| as_current := as_current st; as_history := as_history st; as_wedged := Some reason |}.
(** A subclass without lifecycle hooks. *)
Definition BaseActor : ActorPort ActorState.
Proof.
  refine {| addr _ := self; receive := base_receive; restart := base_restart;
            toWedge := base_toWedge; onConnect st := (st, Ok tt); onDisconnect st := (st, Ok tt) |};
    reflexivity.
Defined.
End BaseActor.

(** ** The supervisor *)
Record RestartPolicy := { maxRestarts : nat; windowMs : Z; backoffMs : nat -> Z }.
Definition defaultPolicy : RestartPolicy :=
  {| maxRestarts := 3; windowMs := 60000;
     backoffMs n := Z.min (2000 * 2 ^ (Z.of_nat n - 1)) 30000 |}.

Section Supervisor.
Context {A : Type} `{Actor : ActorPort A} (policy : RestartPolicy).

(** One guarded actor; [sv_sleeping] holds the backoff of every restart that
    is still waiting for its timer. *)
Record Supervised := {
  sv_actor : A;
  sv_restarts : list Z;
  sv_sleeping : list Z;
  sv_bus : Bus;
}.

Definition in_window (now t : Z) : bool := Z.ltb (now - t) (windowMs policy).
Definition wedge_input (a : A) (reason : string) : PublishInput :=
  {| in_from := "supervisor"; in_to := "topic:transition"; in_kind := K_transition;
     in_corr := None;
     in_payload := JObj [("actor", JStr (addr a)); ("to", JStr "wedge"); ("reason", JStr reason)] |}.
(** A guarded [receive] at clock [now] up to its return or its sleep; [wall] is
    [Date.now()] when it publishes. *)
Definition guard (now wall : Z) (env : Envelope) (sv : Supervised) : Supervised * list Effect :=
  match receive env (sv_actor sv) with
  | (a, Ok effects) =>
      ({| sv_actor := a; sv_restarts := sv_restarts sv; sv_sleeping := sv_sleeping sv;
          sv_bus := sv_bus sv |}, effects)
  | (a, Err reason) =>
      let restarts := List.filter (in_window now) (sv_restarts sv) ++ [now] in
      if Nat.ltb (maxRestarts policy) (length restarts) then
        ({| sv_actor := toWedge reason a; sv_restarts := restarts; sv_sleeping := sv_sleeping sv;
            sv_bus := (publish wall (wedge_input a reason) (sv_bus sv)).2 |}, [])
      else
        ({| sv_actor := a; sv_restarts := restarts;
            sv_sleeping := sv_sleeping sv ++ [backoffMs policy (length restarts)];
            sv_bus := sv_bus sv |}, [])
  end.
(** The timer of the [i]-th sleeping restart fires. *)
Definition wake (i : nat) (sv : Supervised) : Supervised :=
  match sv_sleeping sv !! i with
  | None => sv
  | Some _ =>
      {| sv_actor := restart (sv_actor sv); sv_restarts := sv_restarts sv;
         sv_sleeping := delete i (sv_sleeping sv); sv_bus := sv_bus sv |}
  end.

Inductive SupervisorStep := Deliver (now wall : Z) (env : Envelope) | Wake (i : nat).
Definition crashes (sv : Supervised) (env : Envelope) : bool := negb (is_ok (receive env (sv_actor sv)).2).
(** A run from [sv], with the times of its crashes. *)
Fixpoint supervise (steps : list SupervisorStep) (sv : Supervised) : Supervised * list Z :=
  match steps with
  | [] => (sv, [])
  | Deliver now wall env :: steps' =>
      let '(sv', log) := supervise steps' (guard now wall env sv).1 in
      (sv', if crashes sv env then now :: log else log)
  | Wake i :: steps' => supervise steps' (wake i sv)
  end.
Definition supervised (a : A) (b : Bus) : Supervised :=
  {| sv_actor := a; sv_restarts := []; sv_sleeping := []; sv_bus := b |}.
End Supervisor.
Arguments Supervised : clear implicits.

(** ** The topology *)
Section Topology.
Context {A : Type} `{Actor : ActorPort A}.

(** [registry] maps addresses to actor objects, named by number; [actors] is
    the state of every object. *)
Record Topology := {
  registry : list (string * nat);
  t_bus : Bus;
  actors : nat -> A;
}.
Definition connected (t : Topology) : list string := obj_keys (registry t).
Definition isConnected (a : ActorAddr) (t : Topology) : bool := obj_has a (registry t).
Definition topology_input (payload : list (string * Json)) : PublishInput :=
  {| in_from := "topology"; in_to := "topic:topology"; in_kind := K_topology;
     in_corr := None; in_payload := JObj payload |}.

(** [guard] is total. *)
Definition connect (now : Z) (ref : nat) (guard : option bool) (t : Topology) : Topology * bool :=
  if negb (default true guard) then (t, false)
  else
    let address := addr (actors t ref) in
    if isConnected address t then (t, true)
    else
      let tentative := obj_set address ref (registry t) in
      match onConnect (actors t ref) with
      | (a, Err reason) =>
          ({| registry := obj_delete address tentative;
              t_bus := (publish now (topology_input
                 [("connect", JStr address); ("wedged", JBool true)]) (t_bus t)).2;
              actors := <[ref := toWedge reason a]> (actors t) |}, false)
      | (a, Ok _) =>
          ({| registry := tentative;
              t_bus := (publish now (topology_input [("connect", JStr address)]) (t_bus t)).2;
              actors := <[ref := a]> (actors t) |}, true)
      end.

(** An error of [onDisconnect] propagates. *)
Definition disconnect (now : Z) (address : ActorAddr) (t : Topology) : Topology * result string unit :=
  match obj_get address (registry t) with
  | None => (t, Ok tt)
  | Some ref =>
      match onDisconnect (actors t ref) with
      | (a, Err e) =>
          ({| registry := registry t; t_bus := t_bus t; actors := <[ref := a]> (actors t) |}, Err e)
      | (a, Ok _) =>
          ({| registry := obj_delete address (registry t);
              t_bus := (publish now (topology_input [("disconnect", JStr address)]) (t_bus t)).2;
              actors := <[ref := a]> (actors t) |}, Ok tt)
      end
  end.
End Topology.
Arguments Topology : clear implicits.

(** ** The supervisor's crash window *)
Section SupervisorFacts.
Context {A : Type} `{Actor : ActorPort A} (policy : RestartPolicy).

Definition delivery_times (steps : list SupervisorStep) : list Z :=
  flat_map (fun s => match s with Deliver now _ _ => [now] | Wake _ => [] end) steps.

(** From [t] on, the kept crash times are those of the whole log. *)
Definition windowed (t : Z) (sv : Supervised A) (log : list Z) : Prop :=
  forall t', (t <= t')%Z ->
    List.filter (in_window policy t') (sv_restarts sv) = List.filter (in_window policy t') log.

Lemma in_window_later t t' l :
  (t <= t')%Z ->
  List.filter (in_window policy t') (List.filter (in_window policy t) l) =
  List.filter (in_window policy t') l.
Proof.
  intros Ht. unfold in_window. induction l as [|x l IH]; cbn; [done|].
  destruct (Z.ltb_spec (t - x) (windowMs policy)); cbn;
    destruct (Z.ltb_spec (t' - x) (windowMs policy)); rewrite ?IH; try done; lia.
Qed.

Lemma guard_windowed t now wall env sv log :
  (t <= now)%Z -> windowed t sv log ->
  windowed now (guard policy now wall env sv).1 (log ++ if crashes sv env then [now] else []).
Proof.
  intros Ht Hw t' Ht'. unfold guard, crashes. destruct (receive env (sv_actor sv)) as [a [eff|reason]]; cbn.
  - rewrite app_nil_r. apply Hw. lia.
  - case_match; cbn; rewrite !List.filter_app, in_window_later, Hw by lia; done.
Qed.
Lemma wake_windowed t i sv log : windowed t sv log -> windowed t (wake i sv) log.
Proof. intros Hw. unfold wake. by destruct (sv_sleeping sv !! i). Qed.

Lemma supervise_windowed steps t now sv log :
  windowed t sv log -> Sorted.StronglySorted Z.le (t :: delivery_times steps ++ [now]) ->
  windowed now (supervise policy steps sv).1 (log ++ (supervise policy steps sv).2).
Proof.
  revert t sv log. induction steps as [|[now' wall env|i] steps IH]; intros t sv log Hw Hs; cbn in Hs |- *.
  - rewrite app_nil_r. apply Sorted.StronglySorted_inv in Hs as [_ Hf]. apply Forall_cons_1 in Hf as [Hf _].
    intros t' Ht'. apply Hw. lia.
  - apply Sorted.StronglySorted_inv in Hs as [Hs Hf]. apply Forall_cons_1 in Hf as [Hle _].
    pose proof (guard_windowed t now' wall env sv log Hle Hw) as Hg.
    specialize (IH now' _ _ Hg Hs). destruct (supervise policy steps _) as [sv' log']. cbn in *.
    by destruct (crashes sv env); rewrite <- app_assoc in IH.
  - by apply (IH t); [apply wake_windowed|].
Qed.
End SupervisorFacts.

(** ** Runs of the topology *)
Section TopologyFacts.
Context {A : Type} `{Actor : ActorPort A}.

Inductive TopologyOp := OpConnect (now : Z) (ref : nat) (guard : option bool)
                      | OpDisconnect (now : Z) (address : ActorAddr).
(** A hook that ran to its end: the actor is up at, or down from, its address. *)
Inductive HookRun := Up (address : ActorAddr) (ref : nat) | Down (address : ActorAddr).
Definition about (address : ActorAddr) (h : HookRun) : bool :=
  match h with Up a _ | Down a => (a =? address)%string end.
Definition topology_op (op : TopologyOp) (t : Topology A) : Topology A :=
  match op with
  | OpConnect now ref guard => (connect now ref guard t).1
  | OpDisconnect now address => (disconnect now address t).1
  end.
Definition hooks_of (op : TopologyOp) (t : Topology A) : list HookRun :=
  match op with
  | OpConnect _ ref guard =>
      let address := addr (actors t ref) in
      if default true guard && negb (isConnected address t) && is_ok (onConnect (actors t ref)).2
      then [Up address ref] else []
  | OpDisconnect _ address =>
      match obj_get address (registry t) with
      | Some ref => if is_ok (onDisconnect (actors t ref)).2 then [Down address] else []
      | None => []
      end
  end.
Fixpoint topology_run (ops : list TopologyOp) (t : Topology A) : Topology A * list HookRun :=
  match ops with
  | [] => (t, [])
  | op :: ops' =>
      let '(t', log) := topology_run ops' (topology_op op t) in (t', hooks_of op t ++ log)
  end.
Definition emptyTopology (b : Bus) (objects : nat -> A) : Topology A :=
  {| registry := []; t_bus := b; actors := objects |}.

(** The actor at an address according to the hooks that completed. *)
Definition up_at (address : ActorAddr) (log : list HookRun) : option nat :=
  match last (List.filter (about address) log) with Some (Up _ ref) => Some ref | _ => None end.
Definition registry_log (t : Topology A) (log : list HookRun) : Prop :=
  forall address, obj_get address (registry t) = up_at address log.

Lemma up_at_app address log h :
  up_at address (log ++ [h]) =
  if about address h then match h with Up _ ref => Some ref | Down _ => None end
  else up_at address log.
Proof.
  unfold up_at. rewrite List.filter_app. cbn. destruct (about address h); [|by rewrite app_nil_r].
  rewrite last_snoc. by destruct h.
Qed.

Lemma obj_get_tentative {V} k k' (v : V) o :
  obj_get k' (obj_set k v o) = if (k =? k')%string then Some v else obj_get k' o.
Proof.
  destruct (String.eqb_spec k k') as [->|Hne]; [apply obj_get_set_eq|by apply obj_get_set_ne].
Qed.

Lemma topology_op_log op t log :
  registry_log t log -> registry_log (topology_op op t) (log ++ hooks_of op t).
Proof.
  intros Ht address. destruct op as [now ref guard|now a]; cbn [topology_op hooks_of].
  - unfold connect. destruct (default true guard); cbn; [|by rewrite app_nil_r].
    destruct (isConnected _ t) eqn:Hc; cbn; [by rewrite app_nil_r|].
    destruct (onConnect (actors t ref)) as [st [[]|e]]; cbn.
    + by rewrite obj_get_tentative, up_at_app, Ht.
    + rewrite app_nil_r, obj_get_delete, obj_get_tentative, <- Ht.
      destruct (String.eqb_spec (addr (actors t ref)) address) as [<-|]; [|done].
      unfold isConnected, obj_has in Hc. apply bool_decide_eq_false in Hc.
      destruct (obj_get _ (registry t)) eqn:E; [|done]. by destruct Hc.
  - unfold disconnect. destruct (obj_get a (registry t)) as [ref|] eqn:E; [|by rewrite app_nil_r].
    destruct (onDisconnect (actors t ref)) as [st [[]|e]]; cbn; [|by rewrite app_nil_r].
    rewrite obj_get_delete, up_at_app, Ht. cbn. done.
Qed.
Lemma topology_run_log ops t log :
  registry_log t log -> registry_log (topology_run ops t).1 (log ++ (topology_run ops t).2).
Proof.
  revert t log. induction ops as [|op ops IH]; intros t log Ht; cbn; [by rewrite app_nil_r|].
  specialize (IH _ _ (topology_op_log op t log Ht)).
  destruct (topology_run ops (topology_op op t)) as [t' log']. cbn in *. by rewrite <- app_assoc in IH.
Qed.
End TopologyFacts.

(** ** Properties *)

(** Whatever the topology is asked to do, an actor is registered at an
    address exactly when the last lifecycle hook that ran to its end for that
    address was its [onConnect]: a connect whose hook throws, a refused guard,
    a repeated connect and a disconnect of an unknown address leave the
    registry as it was, and a disconnect that throws keeps the actor
    registered. *)
Lemma registered_iff_connected {A} `{Actor : ActorPort A}
    (b : Bus) (objects : nat -> A) (ops : list TopologyOp) (address : ActorAddr) :
  let '(t, log) := topology_run ops (emptyTopology b objects) in
  obj_get address (registry t) = up_at address log.
Proof.
  pose proof (topology_run_log ops (emptyTopology b objects) []) as H.
  destruct (topology_run ops _) as [t log]. by apply H.
Qed.

(** When the clock never runs backwards, a crash of a guarded actor parks
    it and publishes the wedge exactly when it and the crashes in the window
    before it exceed [maxRestarts]; otherwise it waits out the backoff of its
    rank in the window and then restarts.  The crash never reaches the caller. *)
Lemma guard_wedges_exactly {A} `{Actor : ActorPort A} (policy : RestartPolicy)
    (a a' : A) (b : Bus) (steps : list SupervisorStep) (now wall : Z) (env : Envelope) (reason : string) :
  Sorted.StronglySorted Z.le (delivery_times steps ++ [now]) ->
  let '(sv, log) := supervise policy steps (supervised a b) in
  receive env (sv_actor sv) = (a', Err reason) ->
  let n := S (length (List.filter (in_window policy now) log)) in
  let '(sv', effects) := guard policy now wall env sv in
  effects = [] /\
  (maxRestarts policy < n ->
     sv_actor sv' = toWedge reason a' /\ sv_sleeping sv' = sv_sleeping sv /\
     sv_bus sv' = (publish wall (wedge_input a' reason) (sv_bus sv)).2) /\
  (n <= maxRestarts policy ->
     sv_actor sv' = a' /\ sv_bus sv' = sv_bus sv /\
     sv_sleeping sv' = sv_sleeping sv ++ [backoffMs policy n] /\
     sv_actor (wake (length (sv_sleeping sv)) sv') = restart a').
Proof.
  intros Hs. set (t0 := hd now (delivery_times steps ++ [now])).
  assert (Hw : windowed policy now (supervise policy steps (supervised a b)).1
                 (supervise policy steps (supervised a b)).2).
  { apply (supervise_windowed policy steps t0 now (supervised a b) []); [done|].
    constructor; [done|]. unfold t0. inversion Hs as [E|x l Hl Hf E]; cbn; [constructor|].
    constructor; [lia|done]. }
  destruct (supervise policy steps (supervised a b)) as [sv log]. cbn in Hw. intros Hr.
  unfold guard. rewrite Hr, (Hw now) by lia. rewrite length_app, Nat.add_1_r.
  set (n := S _). destruct (Nat.ltb_spec (maxRestarts policy) n); cbn; split_and!; try done; intros; try lia.
  split_and!; try done. unfold wake. cbn. by rewrite list_lookup_middle.
Qed.

(** A wedge does not hold.  Four crashes of a base actor in one instant
    park it and publish its wedge, with the restarts of the first three still
    asleep; the first of their timers then resets the actor to its initial
    state, wedge mark included, while the published history says it is wedged.
    The header promises that exhaustion parks the actor. *)
Lemma wedge_undone_by_sleeping_restart (self : ActorAddr) (fsm : Fsm)
    (eventFor : Envelope -> result string (option string)) (env : Envelope) (reason : string)
    (now wall : Z) :
  eventFor env = Err reason ->
  let Actor := BaseActor self fsm eventFor in
  let sv := (supervise defaultPolicy (List.repeat (Deliver now wall env) 4)
               (supervised (freshState fsm) (newBus 16))).1 in
  as_wedged (sv_actor sv) = Some reason /\
  (bus_since 0 (sv_bus sv)).1 = [Some (envelope_of wall 1 (wedge_input (freshState fsm) reason))] /\
  sv_sleeping sv = [2000; 4000; 8000]%Z /\
  sv_actor (wake 0 sv) = freshState fsm /\ as_wedged (sv_actor (wake 0 sv)) = None /\
  sv_bus (wake 0 sv) = sv_bus sv.
Proof.
  intros He Actor sv.
  assert (Hr : forall st, receive (ActorPort := Actor) env st = (st, Err reason)).
  { intros st. cbn. unfold base_receive. by rewrite He. }
  assert (Hg : forall st rs sl b, guard defaultPolicy now wall env
    {| sv_actor := st; sv_restarts := List.repeat now rs; sv_sleeping := sl; sv_bus := b |} =
    if Nat.ltb 3 (S rs) then
      ({| sv_actor := base_toWedge reason st; sv_restarts := List.repeat now (S rs); sv_sleeping := sl;
          sv_bus := (publish wall (wedge_input st reason) b).2 |}, [])
    else ({| sv_actor := st; sv_restarts := List.repeat now (S rs);
             sv_sleeping := sl ++ [backoffMs defaultPolicy (S rs)]; sv_bus := b |}, [])).
  { intros st rs sl b. unfold guard. cbn [sv_actor sv_restarts sv_sleeping sv_bus]. rewrite Hr.
    assert (Hf : List.filter (in_window defaultPolicy now) (List.repeat now rs) = List.repeat now rs).
    { unfold in_window. induction rs as [|rs IH]; cbn [List.repeat List.filter]; [done|].
      rewrite Z.sub_diag. replace (0 <? windowMs defaultPolicy)%Z with true by done. by rewrite IH. }
    rewrite Hf, length_app, repeat_length, Nat.add_1_r, <- repeat_cons. done. }
  set (b0 := newBus 16) in sv.
  set (st := fun k sl => {| sv_actor := freshState fsm; sv_restarts := List.repeat now k;
                             sv_sleeping := sl; sv_bus := b0 |}).
  pose proof (f_equal fst (Hg (freshState fsm) 0 [] b0)
    : (guard defaultPolicy now wall env (st 0 [])).1 = st 1 [2000%Z]) as E0.
  pose proof (f_equal fst (Hg (freshState fsm) 1 [2000%Z] b0)
    : (guard defaultPolicy now wall env (st 1 [2000%Z])).1 = st 2 [2000; 4000]%Z) as E1.
  pose proof (f_equal fst (Hg (freshState fsm) 2 [2000; 4000]%Z b0)
    : (guard defaultPolicy now wall env (st 2 [2000; 4000]%Z)).1 = st 3 [2000; 4000; 8000]%Z) as E2.
  pose proof (Hg (freshState fsm) 3 [2000; 4000; 8000]%Z b0) as E3.
  assert (E : sv = {| sv_actor := base_toWedge reason (freshState fsm); sv_restarts := List.repeat now 4;
      sv_sleeping := [2000; 4000; 8000]%Z;
      sv_bus := (publish wall (wedge_input (freshState fsm) reason) b0).2 |}).
  { subst sv. cbn [List.repeat supervise fst]. change (supervised _ _) with (st 0 []).
    rewrite E0, E1, E2. exact (f_equal fst E3). }
  rewrite E. split_and!; reflexivity.
Qed.

(** ** Witnesses *)
Definition demo_machine : Fsm :=
  {| fsm_initial := "idle"; fsm_states := ["idle"; "busy"];
     fsm_transitions := [ {| tr_from := "idle"; tr_on := Some "go"; tr_to := "busy"; tr_when := None |} ] |}.
Definition demo_eventFor (e : Envelope) : result string (option string) :=
  match env_kind e with
  | K_schedule => Ok (Some "go") | K_stop => Err "boom" | _ => Ok None
  end.
Definition demo_env (k : MessageKind) : Envelope :=
  {| env_seq := 1; env_from := "daemon"; env_to := "worker"; env_kind := k; env_corr := None;
     env_payload := JNull; env_ts := 0 |}.
Definition demo_deliver (now : Z) (k : MessageKind) : SupervisorStep := Deliver now now (demo_env k).

(** The crash at 0 is out of the window at 60000; three are in it at 60003. *)
Lemma guard_wedges_exactly_witness :
  let Actor := BaseActor "worker" demo_machine demo_eventFor in
  let steps := [demo_deliver 0 K_stop; Wake 0; demo_deliver 10 K_schedule; demo_deliver 60000 K_stop;
                demo_deliver 60001 K_stop; demo_deliver 60002 K_stop] in
  let sv := (supervise defaultPolicy steps (supervised (freshState demo_machine) (newBus 16))).1 in
  length (sv_sleeping sv) = 3 /\ as_current (sv_actor sv) = "busy" /\
  as_wedged (sv_actor (guard defaultPolicy 60003 60003 (demo_env K_stop) sv).1) = Some "boom".
Proof.
  intros Actor steps sv.
  assert (Hs : Sorted.StronglySorted Z.le (delivery_times steps ++ [60003%Z]))
    by (cbn; repeat constructor; lia).
  pose proof (guard_wedges_exactly (Actor := Actor) defaultPolicy (freshState demo_machine)
    (sv_actor sv) (newBus 16) steps 60003 60003 (demo_env K_stop) "boom" Hs) as H.
  split; [vm_compute; reflexivity|]. split; [vm_compute; reflexivity|].
  subst sv. destruct (supervise defaultPolicy steps _) as [sv log] eqn:E.
  assert (El : log = [0; 60000; 60001; 60002]%Z) by (injection E as _ <-; vm_compute; reflexivity).
  cbn [fst] in H |- *. specialize (H eq_refl). cbv zeta in H.
  destruct (guard defaultPolicy 60003 60003 (demo_env K_stop) sv) as [sv' effects].
  destruct H as (_ & H & _). rewrite El in H. cbn [fst]. destruct H as (-> & _); [vm_compute; lia|reflexivity].
Defined.

Lemma wedge_undone_by_sleeping_restart_witness :
  let Actor := BaseActor "worker" demo_machine demo_eventFor in
  let sv := (supervise defaultPolicy (List.repeat (Deliver 5 7 (demo_env K_stop)) 4)
               (supervised (freshState demo_machine) (newBus 16))).1 in
  as_wedged (sv_actor sv) = Some "boom" /\ as_wedged (sv_actor (wake 0 sv)) = None.
Proof.
  pose proof (wedge_undone_by_sleeping_restart "worker" demo_machine demo_eventFor (demo_env K_stop)
    "boom" 5 7 eq_refl) as H.
  cbv zeta in H |- *. split; [apply H|apply H].
Defined.
