(* ===== verification/RateLimit.v ===== *)
(** * Rate limits ([src/src/runtime/rate_limit.ts])

    The token bucket in double arithmetic, and [check] and [release] as the
    storage statements they await, so that calls on the one client interleave
    and every statement may fail.  SQLite is modelled by a table and the
    snapshot an open transaction rolls back to; a [BEGIN] inside a transaction
    fails.  Times are integral milliseconds below 2^53. *)

From Stdlib Require Import Ascii String QArith Qround.
From stdpp Require Import base option list strings gmap.
From S2P Require Import Prelude ExprSyntax ExprEval.
#[local] Open Scope os_scope.
#[local] Open Scope Z_scope.

(** ** Double arithmetic (zero is unsigned) *)
Definition num_neg (a : Num) : Num :=
  match a with NaN => NaN | Infinite s => Infinite (negb s) | Fin q => Fin (- q) end.
Definition round_double (q : Q) : Num :=
  if Z.leb 0 (Qnum q) then nearest_double (Qnum q) (Zpos (Qden q))
  else num_neg (nearest_double (- Qnum q) (Zpos (Qden q))).
Definition num_add (a b : Num) : Num :=
  match a, b with
  | Fin p, Fin q => round_double (p + q)
  | Infinite s, Infinite t => if Bool.eqb s t then Infinite s else NaN
  | Infinite s, Fin _ | Fin _, Infinite s => Infinite s
  | _, _ => NaN
  end.
Definition num_sub (a b : Num) : Num := num_add a (num_neg b).
Definition q_negative (q : Q) : bool := Z.ltb (Qnum q) 0.
Definition num_mul (a b : Num) : Num :=
  match a, b with
  | Fin p, Fin q => round_double (p * q)
  | Infinite s, Infinite t => Infinite (xorb s t)
  | Infinite s, Fin q | Fin q, Infinite s =>
      if Qeq_bool q 0 then NaN else Infinite (xorb s (q_negative q))
  | _, _ => NaN
  end.
Definition num_div (a b : Num) : Num :=
  match a, b with
  | Fin p, Fin q =>
      if Qeq_bool q 0 then if Qeq_bool p 0 then NaN else Infinite (q_negative p)
      else round_double (p / q)
  | Infinite s, Fin q => Infinite (xorb s (q_negative q))
  | Fin _, Infinite _ => Fin 0
  | _, _ => NaN
  end.
Definition num_ceil (a : Num) : Num :=
  match a with Fin q => Fin (inject_Z (Qceiling q)) | _ => a end.
Definition of_Z (z : Z) : Num := Fin (inject_Z z).

Definition clamp (value lo hi : Num) : Num :=
  match value with
  | NaN => lo
  | _ => if num_lt value lo then lo else if num_lt hi value then hi else value
  end.

(** ** Configuration and decisions *)
Inductive Period := Minute | Hour | Day.
Definition PER_TO_MS (p : Period) : Z :=
  match p with Minute => 60000 | Hour => 3600000 | Day => 86400000 end.
Record RateLimitConfig := { rl_max : Num; rl_per : Period; rl_concurrent : option Z }.
Inductive Reason := Rate_exceeded | Concurrent_exceeded | Rate_limit_storage_error.
Record RateLimitDecision := {
  allowed : bool;
  retryAfterMs : option Num;
  reason : option Reason;
}.
Definition allow : RateLimitDecision := {| allowed := true; retryAfterMs := None; reason := None |}.
Definition deny (r : Reason) (retry : option Num) : RateLimitDecision :=
  {| allowed := false; retryAfterMs := retry; reason := Some r |}.

Record BucketRow := { tokens : Num; last_refill_ms : Z; concurrent_count : Z }.

(** The decision of a [check] on the row it read, and the row it writes. *)
Definition refillPerMs (c : RateLimitConfig) : Num := num_div (rl_max c) (of_Z (PER_TO_MS (rl_per c))).
Definition refill (c : RateLimitConfig) (now : Z) (row : option BucketRow) : Num :=
  let baseTokens := match row with Some r => tokens r | None => rl_max c end in
  let baseLastRefillMs := match row with Some r => last_refill_ms r | None => now end in
  let elapsed := Z.max 0 (now - baseLastRefillMs) in
  clamp (num_add baseTokens (num_mul (of_Z elapsed) (refillPerMs c))) (Fin 0) (rl_max c).
Definition at_cap (c : RateLimitConfig) (concurrent : Z) : bool :=
  match rl_concurrent c with Some cap => Z.leb cap concurrent | None => false end.
Definition decide_check (c : RateLimitConfig) (now : Z) (row : option BucketRow)
    : BucketRow * RateLimitDecision :=
  let refilled := refill c now row in
  let concurrent := match row with Some r => concurrent_count r | None => 0 end in
  if at_cap c concurrent then
    ({| tokens := refilled; last_refill_ms := now; concurrent_count := concurrent |},
     deny Concurrent_exceeded (Some (Fin 0)))
  else if num_lt refilled (Fin 1) then
    let tokensShort := num_sub (Fin 1) refilled in
    ({| tokens := refilled; last_refill_ms := now; concurrent_count := concurrent |},
     deny Rate_exceeded (Some (num_ceil (num_div tokensShort (refillPerMs c)))))
  else
    ({| tokens := num_sub refilled (Fin 1); last_refill_ms := now; concurrent_count := concurrent + 1 |},
     allow).
(** The row a [release] writes. *)
Definition released (row : BucketRow) : BucketRow :=
  {| tokens := tokens row; last_refill_ms := last_refill_ms row;
     concurrent_count := Z.max 0 (concurrent_count row - 1) |}.

(** ** The storage *)
Abbreviation BucketKey := (string * string * string)%type.
Abbreviation Table := (gmap BucketKey BucketRow).
Record Conn := { table : Table; snapshot : option Table }.
Inductive Statement :=
| CreateTable | BeginImmediate | Commit | Rollback
| SelectBucket (k : BucketKey) | UpsertBucket (k : BucketKey) (row : BucketRow).
(** [db.execute]; [fault] is an error of the storage itself. *)
Definition execute (fault : bool) (s : Statement) (c : Conn) : result string (Conn * option BucketRow) :=
  if fault then Err "storage"
  else
    match s with
    | CreateTable => Ok (c, None)
    | BeginImmediate =>
        match snapshot c with
        | Some _ => Err "cannot start a transaction within a transaction"
        | None => Ok ({| table := table c; snapshot := Some (table c) |}, None)
        end
    | Commit =>
        match snapshot c with
        | Some _ => Ok ({| table := table c; snapshot := None |}, None)
        | None => Err "cannot commit - no transaction is active"
        end
    | Rollback =>
        match snapshot c with
        | Some t => Ok ({| table := t; snapshot := None |}, None)
        | None => Err "cannot rollback - no transaction is active"
        end
    | SelectBucket k => Ok (c, table c !! k)
    | UpsertBucket k row => Ok ({| table := <[k := row]> (table c); snapshot := snapshot c |}, None)
    end.

(** ** The limiter *)
Abbreviation PackRateLimits := (list (string * RateLimitConfig)).
Record RateLimiter := {
  limits : gmap string PackRateLimits;
  initialized : bool;
  conn : Conn;
  onErrors : list BucketKey;
}.
Definition config_of (l : RateLimiter) (k : BucketKey) : option RateLimitConfig :=
  match limits l !! k.1.1 with Some p => obj_get k.1.2 p | None => None end.
Definition with_conn (c : Conn) (l : RateLimiter) : RateLimiter :=
  {| limits := limits l; initialized := initialized l; conn := c; onErrors := onErrors l |}.
Definition set_initialized (l : RateLimiter) : RateLimiter :=
  {| limits := limits l; initialized := true; conn := conn l; onErrors := onErrors l |}.
Definition report (k : BucketKey) (l : RateLimiter) : RateLimiter :=
  {| limits := limits l; initialized := initialized l; conn := conn l; onErrors := onErrors l ++ [k] |}.

(** Where a call waits: before the statement named, with what it has computed. *)
Inductive Call :=
| CheckInit (c : RateLimitConfig)
| CheckBegin (c : RateLimitConfig) (now : Z)
| CheckRead (c : RateLimitConfig) (now : Z)
| CheckWrite (row : BucketRow) (d : RateLimitDecision)
| CheckCommit (d : RateLimitDecision)
| CheckRollback
| CheckDone (d : RateLimitDecision)
| ReleaseInit | ReleaseBegin | ReleaseRead
| ReleaseWrite (row : BucketRow)
| ReleaseCommit | ReleaseRollback | ReleaseDone
| Rejected (message : string).

Definition storage_error : RateLimitDecision := deny Rate_limit_storage_error None.
Definition startCheck (k : BucketKey) (l : RateLimiter) : Call :=
  match config_of l k with None => CheckDone allow | Some c => CheckInit c end.
Definition startRelease (k : BucketKey) (l : RateLimiter) : Call :=
  match config_of l k with None => ReleaseDone | Some _ => ReleaseInit end.

Section Step.
(** One turn of a call on bucket [k]: its statement, with the storage failing
    when [fault], and the clock at [clock]. *)
Context (k : BucketKey) (fault : bool) (clock : Z).

(** A statement in the [try]: on an error the [catch] starts. *)
Definition attempt (s : Statement) (ok : option BucketRow -> Call) (failed : Call) (tx : bool)
    (l : RateLimiter) : RateLimiter * Call :=
  match execute fault s (conn l) with
  | Ok (c, r) => (with_conn c l, ok r)
  | Err _ => if tx then (l, failed) else (report k l, failed)
  end.
(** [init]; its error is outside the [try]. *)
Definition init (next : Call) (l : RateLimiter) : RateLimiter * Call :=
  if initialized l then (l, next)
  else match execute fault CreateTable (conn l) with
       | Ok (c, _) => (set_initialized (with_conn c l), next)
       | Err e => (l, Rejected e)
       end.
(** [ROLLBACK], its own error ignored, then the error sink. *)
Definition rollback (next : Call) (l : RateLimiter) : RateLimiter * Call :=
  match execute fault Rollback (conn l) with
  | Ok (c, _) => (report k (with_conn c l), next)
  | Err _ => (report k l, next)
  end.

Definition call_step (call : Call) (l : RateLimiter) : RateLimiter * Call :=
  match call with
  | CheckInit c => init (CheckBegin c clock) l
  | CheckBegin c now => attempt BeginImmediate (fun _ => CheckRead c now) (CheckDone storage_error) false l
  | CheckRead c now =>
      attempt (SelectBucket k)
        (fun row => let '(row', d) := decide_check c now row in CheckWrite row' d) CheckRollback true l
  | CheckWrite row d => attempt (UpsertBucket k row) (fun _ => CheckCommit d) CheckRollback true l
  | CheckCommit d => attempt Commit (fun _ => CheckDone d) CheckRollback true l
  | CheckRollback => rollback (CheckDone storage_error) l
  | ReleaseInit => init ReleaseBegin l
  | ReleaseBegin => attempt BeginImmediate (fun _ => ReleaseRead) ReleaseDone false l
  | ReleaseRead =>
      attempt (SelectBucket k)
        (fun row => match row with None => ReleaseCommit | Some r => ReleaseWrite (released r) end)
        ReleaseRollback true l
  | ReleaseWrite row => attempt (UpsertBucket k row) (fun _ => ReleaseCommit) ReleaseRollback true l
  | ReleaseCommit => attempt Commit (fun _ => ReleaseDone) ReleaseRollback true l
  | ReleaseRollback => rollback ReleaseDone l
  | CheckDone _ | ReleaseDone | Rejected _ => (l, call)
  end.
End Step.

(** ** Calls in flight *)
Record System := { limiter : RateLimiter; calls : list (BucketKey * Call) }.
Inductive SystemEvent :=
| StartCheck (k : BucketKey)
| StartRelease (k : BucketKey)
| Resume (i : nat) (fault : bool) (clock : Z).
Definition system_step (e : SystemEvent) (s : System) : System :=
  match e with
  | StartCheck k => {| limiter := limiter s; calls := calls s ++ [(k, startCheck k (limiter s))] |}
  | StartRelease k => {| limiter := limiter s; calls := calls s ++ [(k, startRelease k (limiter s))] |}
  | Resume i fault clock =>
      match calls s !! i with
      | None => s
      | Some (k, call) =>
          let '(l, call') := call_step k fault clock call (limiter s) in
          {| limiter := l; calls := <[i := (k, call')]> (calls s) |}
      end
  end.
Definition system_run (es : list SystemEvent) (s : System) : System :=
  fold_left (fun s e => system_step e s) es s.
Definition freshSystem (ls : gmap string PackRateLimits) : System :=
  {| limiter := {| limits := ls; initialized := false;
                   conn := {| table := empty; snapshot := None |}; onErrors := [] |};
     calls := [] |}.

(** ** Rounding *)
Lemma log2_quotient n d k :
  0 < n -> 0 < d -> 0 <= k -> n < d * 2 ^ k -> Z.log2 n - Z.log2 d <= k.
Proof.
  intros Hn Hd Hk Hlt. pose proof (Z.log2_spec n Hn) as [Hn1 _]. pose proof (Z.log2_spec d Hd) as [_ Hd2].
  destruct (Z.le_gt_cases (Z.log2 n - Z.log2 d) k) as [|Hgt]; [done|].
  assert (2 ^ (Z.succ (Z.log2 d) + k) <= 2 ^ Z.log2 n) by (apply Z.pow_le_mono_r; lia).
  rewrite Z.pow_add_r in H by (pose proof (Z.log2_nonneg d); lia). nia.
Qed.

Lemma nearest_double_bounds n d :
  0 <= n -> 0 < d -> n < d * 2 ^ 53 ->
  exists m k, nearest_double n d = Fin (Qmake m (Z.to_pos (2 ^ k))) /\
    0 <= k /\ 0 <= m /\ m * d <= n * 2 ^ k + d.
Proof.
  intros Hn Hd Hlt. unfold nearest_double.
  destruct (Z.eqb_spec n 0) as [->|Hne]; [exists 0, 0; split_and!; [done|lia..]|].
  set (L := Z.log2 n - Z.log2 d). set (l := if Z.ltb _ _ then L - 1 else L).
  assert (Hl : l <= 52).
  { pose proof (log2_quotient n d 53 ltac:(lia) Hd ltac:(lia) Hlt) as HL. fold L in HL.
    subst l. destruct (Z.ltb_spec (n * 2 ^ Z.max 0 (- L)) (d * 2 ^ Z.max 0 L)) as [|Hge]; [lia|].
    destruct (Z.le_gt_cases L 52) as [|H53]; [done|]. replace L with 53 in Hge by lia.
    change (Z.max 0 (- (53))) with 0 in Hge. change (Z.max 0 53) with 53 in Hge. lia. }
  set (e := Z.max (l - 52) (-1074)). assert (He : e <= 0) by lia.
  replace (Z.max 0 e) with 0 by lia. replace (Z.max 0 (- e)) with (- e) by lia. rewrite Z.pow_0_r.
  set (k := - e). assert (Hk : 0 <= k) by lia. assert (HP : 0 < 2 ^ k) by (apply Z.pow_pos_nonneg; lia).
  rewrite (Z.mul_1_r d). set (q := n * 2 ^ k / d).
  set (m := if Z.ltb (2 * (n * 2 ^ k mod d)) d then q else _).
  assert (Hq : 0 <= q) by (apply Z.div_pos; nia).
  assert (Hqd : q * d <= n * 2 ^ k) by (rewrite Z.mul_comm; by apply Z.mul_div_le).
  assert (Hm : q <= m <= q + 1) by (subst m; repeat case_match; lia).
  rewrite Z.mul_1_r.
  destruct (Z.leb_spec (2 ^ 1024) (m / 2 ^ k)) as [Hinf|_].
  { exfalso. assert (q <= 2 ^ 53 * 2 ^ k) by nia.
    assert (m / 2 ^ k <= 2 ^ 53 + 1) by (apply Z.div_le_upper_bound; nia).
    assert (2 ^ 53 + 1 < 2 ^ 1024) by (vm_compute; reflexivity). lia. }
  exists m, k. split_and!; [done|lia|lia|nia].
Qed.

(** Taking one from a token count of at least one stays within [0] and the count. *)
Lemma num_sub_one (q : Q) :
  (1 <= q)%Q -> (q <= inject_Z (2 ^ 53))%Q ->
  exists r, num_sub (Fin q) (Fin 1) = Fin r /\ (0 <= r)%Q /\ (r <= q)%Q.
Proof.
  destruct q as [n d]. unfold Qle. cbn [Qnum Qden inject_Z]. rewrite Z.mul_1_l, !Z.mul_1_r. intros H1 H2.
  unfold num_sub, num_neg, num_add, round_double, Qplus, Qopp. cbn [Qnum Qden]. rewrite Pos.mul_1_r, Z.mul_1_r.
  change (- (1)) with (-1). destruct (Z.leb_spec 0 (n + -1 * Z.pos d)) as [H0|]; [|lia].
  destruct (nearest_double_bounds (n + -1 * Z.pos d) (Z.pos d)) as (m & k & -> & Hk & Hm & Hle); [lia..|].
  exists (Qmake m (Z.to_pos (2 ^ k))). assert (HP : 0 < 2 ^ k) by (apply Z.pow_pos_nonneg; lia).
  split_and!; [done|cbn; lia|]. cbn [Qnum Qden]. rewrite Z2Pos.id by done. nia.
Qed.

Lemma num_lt_fin p q : num_lt (Fin p) (Fin q) = true <-> (p < q)%Q.
Proof.
  cbn. rewrite negb_true_iff, <- not_true_iff_false, Qle_bool_iff. split; [apply Qnot_le_lt|apply Qlt_not_le].
Qed.
Lemma clamp_range v m :
  (0 <= m)%Q -> exists q, clamp v (Fin 0) (Fin m) = Fin q /\ (0 <= q)%Q /\ (q <= m)%Q.
Proof.
  intros Hm. destruct v as [| [] |q]; cbn [clamp].
  - exists 0%Q. split_and!; [done|apply Qle_refl|done].
  - exists 0%Q. split_and!; [done|apply Qle_refl|done].
  - exists m. split_and!; [done|done|apply Qle_refl].
  - destruct (num_lt (Fin q) (Fin 0)) eqn:E0; [exists 0%Q; split_and!; [done|apply Qle_refl|done]|].
    destruct (num_lt (Fin m) (Fin q)) eqn:E1; [exists m; split_and!; [done|done|apply Qle_refl]|].
    exists q. rewrite <- not_true_iff_false, num_lt_fin in E0, E1. split_and!; [done|by apply Qnot_lt_le..].
Qed.
