(* ===== verification/RateLimitProps.v ===== *)
(** * Properties of the rate limiter

    Interleaved calls with storage faults are serializable, and in every
    serial run the buckets stay within their limits. *)

From Stdlib Require Import Ascii String QArith.
From stdpp Require Import base option list strings gmap.
From S2P Require Import Prelude ExprSyntax ExprEval RateLimit.
#[local] Open Scope Z_scope.

(** ** The serial specification *)
Inductive AtomicOp := ACheck (k : BucketKey) (now : Z) | ARelease (k : BucketKey).
Definition config_in (ls : gmap string PackRateLimits) (k : BucketKey) : option RateLimitConfig :=
  match ls !! k.1.1 with Some p => obj_get k.1.2 p | None => None end.
Definition release_row (k : BucketKey) (t : Table) : Table :=
  match t !! k with Some r => <[k := released r]> t | None => t end.
Definition atomic_op (ls : gmap string PackRateLimits) (op : AtomicOp) (t : Table)
    : Table * list (BucketKey * RateLimitDecision) :=
  match op with
  | ACheck k now =>
      match config_in ls k with
      | Some c => let '(row, d) := decide_check c now (t !! k) in (<[k := row]> t, [(k, d)])
      | None => (t, [])
      end
  | ARelease k => (release_row k t, [])
  end.
(** The table and the decisions, the latest first, after [log], the latest first. *)
Fixpoint serial (ls : gmap string PackRateLimits) (log : list AtomicOp)
    : Table * list (BucketKey * RateLimitDecision) :=
  match log with
  | [] => (empty, [])
  | op :: log' => let '(t, ds) := serial ls log' in
                  let '(t', d) := atomic_op ls op t in (t', d ++ ds)
  end.

(** What the storage holds once an open transaction is rolled back. *)
Definition committed (c : Conn) : Table := default (table c) (snapshot c).
Definition decided (ls : gmap string PackRateLimits) (kc : BucketKey * Call)
    : option (BucketKey * RateLimitDecision) :=
  match kc.2 with
  | CheckDone d =>
      match config_in ls kc.1, reason d with
      | None, _ | _, Some Rate_limit_storage_error => None
      | Some _, _ => Some (kc.1, d)
      end
  | _ => None
  end.
Definition in_tx (kc : BucketKey * Call) : bool :=
  match kc.2 with
  | CheckRead _ _ | CheckWrite _ _ | CheckCommit _ | CheckRollback
  | ReleaseRead | ReleaseWrite _ | ReleaseCommit | ReleaseRollback => true
  | _ => false
  end.

(** ** List updates *)
Definition count_if {A} (f : A -> bool) (l : list A) : nat := length (List.filter f l).
Lemma count_if_insert {A} (f : A -> bool) l i x y :
  l !! i = Some x ->
  (count_if f (<[i := y]> l) + Nat.b2n (f x) = count_if f l + Nat.b2n (f y))%nat.
Proof.
  unfold count_if. revert i. induction l as [|a l IH]; intros [|i]; try done.
  - intros [= ->]. cbn. destruct (f x), (f y); cbn; lia.
  - intros H. specialize (IH i H). change (<[S i := y]> (a :: l)) with (a :: <[i := y]> l).
    cbn [List.filter]. destruct (f a); cbn [length]; lia.
Qed.
Lemma count_if_pos {A} (f : A -> bool) l i x : l !! i = Some x -> f x = true -> (1 <= count_if f l)%nat.
Proof.
  unfold count_if. revert i. induction l as [|a l IH]; intros [|i]; cbn; try done.
  - intros [= ->] ->. cbn. lia.
  - intros H1 H2. specialize (IH _ H1 H2). destruct (f a); cbn; lia.
Qed.
Lemma count_if_lookup {A} (f : A -> bool) l i j x y :
  l !! i = Some x -> l !! j = Some y -> f x = true -> f y = true -> i <> j -> (2 <= count_if f l)%nat.
Proof.
  intros Hi Hj Hx Hy Hne.
  revert i j Hi Hj Hne. induction l as [|a l IH]; intros [|i] [|j]; cbn; try done.
  - intros [= ->] Hj _. pose proof (count_if_pos _ _ _ _ Hj Hy). unfold count_if in *. cbn. rewrite Hx. cbn. lia.
  - intros Hi [= ->] _. pose proof (count_if_pos _ _ _ _ Hi Hx). unfold count_if in *. cbn. rewrite Hy. cbn. lia.
  - intros Hi Hj Hne. specialize (IH i j Hi Hj ltac:(congruence)). unfold count_if in *. cbn.
    destruct (f a); cbn; lia.
Qed.
Lemma omap_insert_perm {A B} (f : A -> option B) l i x y :
  l !! i = Some x -> f x = None -> omap f (<[i := y]> l) ≡ₚ option_list (f y) ++ omap f l.
Proof.
  revert i. induction l as [|a l IH]; intros [|i]; cbn; try done.
  - intros [= ->] ->. by destruct (f y).
  - intros H Hx. specialize (IH i H Hx). destruct (f a) as [b|]; [|done].
    rewrite IH. by rewrite Permutation_middle.
Qed.

(** ** What the log accounts for *)
Definition releases (k : BucketKey) (log : list AtomicOp) : nat :=
  count_if (fun op => match op with ARelease k' => bool_decide (k' = k) | _ => false end) log.
(** Calls on a bucket that have ended without a decision of the bucket: releases, and checks denied for a storage error. *)
Definition ended (k : BucketKey) (kc : BucketKey * Call) : bool :=
  bool_decide (kc.1 = k) &&
  match kc.2 with
  | ReleaseDone => true
  | CheckDone d => match reason d with Some Rate_limit_storage_error => true | _ => false end
  | _ => false
  end.
Definition failures (k : BucketKey) (errors : list BucketKey) : nat :=
  count_if (fun k' => bool_decide (k' = k)) errors.
Lemma releases_release k k' log :
  releases k (ARelease k' :: log) = (Nat.b2n (bool_decide (k' = k)) + releases k log)%nat.
Proof. unfold releases, count_if. cbn. by destruct (bool_decide (k' = k)). Qed.
Lemma count_if_app {A} (f : A -> bool) l1 l2 : count_if f (l1 ++ l2) = (count_if f l1 + count_if f l2)%nat.
Proof. unfold count_if. by rewrite List.filter_app, length_app. Qed.
Lemma failures_snoc k k' errors : failures k (errors ++ [k']) = (failures k errors + Nat.b2n (bool_decide (k' = k)))%nat.
Proof. unfold failures. rewrite count_if_app. unfold count_if at 2. cbn. by destruct (bool_decide (k' = k)). Qed.

(** ** The invariant of interleaved calls *)
Section Serialize.
Context (ls : gmap string PackRateLimits).

(** What a call in flight knows; [t] is the committed table, [w] the table
    its transaction works on. *)
Definition call_inv (t w : Table) (kc : BucketKey * Call) : Prop :=
  let k := kc.1 in
  match kc.2 with
  | CheckInit c | CheckBegin c _ => config_in ls k = Some c
  | CheckRead c _ => config_in ls k = Some c /\ w = t
  | CheckWrite row d => w = t /\ exists c now, config_in ls k = Some c /\ decide_check c now (t !! k) = (row, d)
  | CheckCommit d =>
      exists c now row, config_in ls k = Some c /\ decide_check c now (t !! k) = (row, d) /\ w = <[k := row]> t
  | ReleaseRead => w = t
  | ReleaseWrite row => w = t /\ exists r, t !! k = Some r /\ row = released r
  | ReleaseCommit => w = release_row k t
  | _ => True
  end.

Record system_inv (s : System) (log : list AtomicOp) : Prop := {
  si_limits : limits (limiter s) = ls;
  si_table : committed (conn (limiter s)) = (serial ls log).1;
  si_decided : omap (decided ls) (calls s) ≡ₚ (serial ls log).2;
  si_tx : (count_if in_tx (calls s) <= match snapshot (conn (limiter s)) with Some _ => 1 | None => 0 end)%nat;
  si_calls : forall i kc, calls s !! i = Some kc ->
    call_inv (committed (conn (limiter s))) (table (conn (limiter s))) kc;
  si_accounts : forall k, is_Some (config_in ls k) -> count_if (ended k) (calls s) =
    (releases k log + failures k (onErrors (limiter s)))%nat;
}.

(** Outside its transaction a call knows nothing about the tables. *)
Lemma call_inv_outside t w t' w' kc : in_tx kc = false -> call_inv t w kc -> call_inv t' w' kc.
Proof. destruct kc as [k []]; cbn; done. Qed.
Lemma decided_in_tx kc : in_tx kc = true -> decided ls kc = None.
Proof. by destruct kc as [k []]. Qed.
Lemma ended_in_tx kc k : in_tx kc = true -> ended k kc = false.
Proof. unfold ended. destruct kc as [? []]; cbn; intros; by rewrite ?andb_false_r. Qed.

(** What a turn that ends at [call'] adds to the log and to the error sink. *)
Definition accounts (k : BucketKey) (call' : Call) (errors : list BucketKey) (ops : list AtomicOp)
    (errors' : list BucketKey) : Prop :=
  forall k', (Nat.b2n (ended k' (k, call')) + failures k' errors = releases k' ops + failures k' errors')%nat.
Lemma accounts_same k call' errors : (forall k', ended k' (k, call') = false) -> accounts k call' errors [] errors.
Proof. intros H k'. by rewrite H. Qed.
Lemma accounts_report k call' errors :
  (forall k', ended k' (k, call') = bool_decide (k = k')) -> accounts k call' errors [] (errors ++ [k]).
Proof. intros H k'. rewrite H, failures_snoc. unfold releases, count_if. cbn. lia. Qed.

(** A turn of one call, from inside or outside its transaction. *)
Lemma step_inv s log i k call l call' ops :
  system_inv s log -> calls s !! i = Some (k, call) -> decided ls (k, call) = None ->
  let c := conn (limiter s) in
  let c' := conn l in
  limits l = ls ->
  (in_tx (k, call) = true \/ c' = c /\ in_tx (k, call') = false \/ snapshot c = None) ->
  (in_tx (k, call') = true -> is_Some (snapshot c')) ->
  (is_Some (snapshot c) -> in_tx (k, call') = false -> in_tx (k, call) = false -> is_Some (snapshot c')) ->
  committed c' = (serial ls (ops ++ log)).1 ->
  (serial ls (ops ++ log)).2 = option_list (decided ls (k, call')) ++ (serial ls log).2 ->
  call_inv (committed c') (table c') (k, call') ->
  (forall k', ended k' (k, call) = false) ->
  accounts k call' (onErrors (limiter s)) ops (onErrors l) ->
  system_inv {| limiter := l; calls := <[i := (k, call')]> (calls s) |} (ops ++ log).
Proof.
  intros [Hl Ht Hd Hx Hc Ha] Hi Hnone c c' Hl' Hcase Hin Hout Ht' Hd' Hk Hlive Hacc.
  pose proof (count_if_insert in_tx _ _ _ (k, call') Hi) as Hcount.
  split; cbn [limiter calls]; fold c'; [done|done| | | |].
  - by rewrite (omap_insert_perm _ _ _ _ _ Hi Hnone), Hd', Hd.
  - fold c in Hx. destruct (in_tx (k, call')) eqn:E', (in_tx (k, call)) eqn:E; cbn [Nat.b2n] in Hcount;
      try (destruct (Hin eq_refl) as [t' ->]); destruct (snapshot c) eqn:Es; try lia.
    + destruct Hcase as [?|[[_ ?]|?]]; congruence.
    + destruct (Hout (ltac:(by eexists)) eq_refl eq_refl) as [t' ->]. lia.
  - intros j kc Hj. destruct (decide (i = j)) as [<-|Hne].
    + rewrite list_lookup_insert_eq in Hj by (by eapply lookup_lt_Some). by injection Hj as <-.
    + rewrite list_lookup_insert_ne in Hj by done. pose proof (Hc j kc Hj) as Hkc. fold c in Hkc, Hx.
      destruct (in_tx kc) eqn:Ekc; [|by eapply call_inv_outside].
      destruct Hcase as [E|[[E _]|E]].
      * pose proof (count_if_lookup in_tx _ _ _ _ _ Hi Hj E Ekc Hne). destruct (snapshot c); lia.
      * fold c'. by rewrite E.
      * rewrite E in Hx. pose proof (count_if_pos in_tx _ _ _ Hj Ekc). lia.
  - intros k' Hk'. pose proof (count_if_insert (ended k') _ _ _ (k, call') Hi) as He.
    rewrite Hlive, (Ha k' Hk') in He. specialize (Hacc k'). unfold releases in *. rewrite count_if_app. cbn [Nat.b2n] in He. lia.
Qed.

Lemma decide_check_reason c now row : reason (decide_check c now row).2 <> Some Rate_limit_storage_error.
Proof. unfold decide_check. by destruct (at_cap _ _); [|destruct (num_lt _ _)]. Qed.

(** A statement in its [try] either fails without touching the storage or runs. *)
Lemma attempt_cases k fault s ok failed tx l :
  (exists l', attempt k fault s ok failed tx l = (l', failed) /\ limits l' = limits l /\ conn l' = conn l /\
              onErrors l' = if tx then onErrors l else onErrors l ++ [k]) \/
  (exists c r, attempt k fault s ok failed tx l = (with_conn c l, ok r) /\
               execute false s (conn l) = Ok (c, r)).
Proof.
  unfold attempt. destruct fault.
  - left. destruct tx; eexists; by split_and!.
  - destruct (execute false s (conn l)) as [[c r]|e] eqn:E; [right; by exists c, r|].
    left. destruct tx; eexists; by split_and!.
Qed.
Lemma init_cases fault next l :
  limits (init fault next l).1 = limits l /\ conn (init fault next l).1 = conn l /\
  onErrors (init fault next l).1 = onErrors l /\
  ((init fault next l).2 = next \/ exists e, (init fault next l).2 = Rejected e).
Proof.
  unfold init. destruct (initialized l); [split_and!; [done..|by left]|].
  destruct fault; cbn; (split_and!; [done..|]); [right; by eexists|by left].
Qed.
Lemma rollback_cases k fault next l :
  (rollback k fault next l).2 = next /\ onErrors (rollback k fault next l).1 = onErrors l ++ [k] /\ limits (rollback k fault next l).1 = limits l /\
  committed (conn (rollback k fault next l).1) = committed (conn l).
Proof.
  unfold rollback. destruct fault; cbn; [by split_and!|].
  unfold committed. by destruct (snapshot (conn l)) as [t|] eqn:E; cbn; rewrite ?E.
Qed.

Lemma in_tx_snapshot s log i kc :
  system_inv s log -> calls s !! i = Some kc -> in_tx kc = true ->
  is_Some (snapshot (conn (limiter s))).
Proof.
  intros H Hi Hx. pose proof (si_tx _ _ H). pose proof (count_if_pos in_tx _ _ _ Hi Hx).
  destruct (snapshot _); [by eexists|lia].
Qed.

(** A turn that leaves the storage alone. *)
Lemma stay_inv s log i k call l call' :
  system_inv s log -> calls s !! i = Some (k, call) -> decided ls (k, call) = None ->
  limits l = ls -> conn l = conn (limiter s) ->
  in_tx (k, call') = in_tx (k, call) -> decided ls (k, call') = None ->
  call_inv (committed (conn l)) (table (conn l)) (k, call') ->
  (forall k', ended k' (k, call) = false) -> accounts k call' (onErrors (limiter s)) [] (onErrors l) ->
  system_inv {| limiter := l; calls := <[i := (k, call')]> (calls s) |} log.
Proof.
  intros H Hi Hd Hl Hc Hx Hd' Hk He Hacc. change log with ([] ++ log). eapply (step_inv s log i k call l call' []); eauto.
  - destruct (in_tx (k, call)) eqn:E; [by left|]. right; left. by rewrite Hx.
  - rewrite Hx, Hc. intros E. by eapply in_tx_snapshot.
  - by rewrite Hc.
  - rewrite Hc. apply (si_table _ _ H).
  - by rewrite Hd'.
Qed.
(** A turn inside a transaction that commits nothing. *)
Lemma inside_inv s log i k call l call' :
  system_inv s log -> calls s !! i = Some (k, call) -> in_tx (k, call) = true ->
  limits l = ls -> committed (conn l) = committed (conn (limiter s)) ->
  (in_tx (k, call') = true -> is_Some (snapshot (conn l))) -> decided ls (k, call') = None ->
  call_inv (committed (conn l)) (table (conn l)) (k, call') ->
  accounts k call' (onErrors (limiter s)) [] (onErrors l) ->
  system_inv {| limiter := l; calls := <[i := (k, call')]> (calls s) |} log.
Proof.
  intros H Hi Hx Hl Hc Hx' Hd' Hk Hacc. change log with ([] ++ log).
  eapply (step_inv s log i k call l call' []); eauto using decided_in_tx, ended_in_tx.
  - rewrite Hc. apply (si_table _ _ H).
  - by rewrite Hd'.
Qed.
(** A commit of [op]. *)
Lemma commit_inv s log i k call call' op :
  system_inv s log -> calls s !! i = Some (k, call) -> in_tx (k, call) = true ->
  in_tx (k, call') = false -> (forall t, call_inv t t (k, call')) ->
  let w := table (conn (limiter s)) in
  atomic_op ls op (committed (conn (limiter s))) = (w, option_list (decided ls (k, call'))) ->
  accounts k call' (onErrors (limiter s)) [op] (onErrors (limiter s)) ->
  system_inv {| limiter := with_conn {| table := w; snapshot := None |} (limiter s);
                calls := <[i := (k, call')]> (calls s) |} (op :: log).
Proof.
  intros H Hi Hx Hx' Hk w Hop Hacc. change (op :: log) with ([op] ++ log).
  rewrite (si_table _ _ H) in Hop.
  eapply (step_inv s log i k call _ call' [op]); eauto using decided_in_tx, ended_in_tx, call_inv_outside.
  - apply (si_limits _ _ H).
  - by rewrite Hx'.
  - by rewrite Hx.
  - cbn. destruct (serial ls log) as [t' ds]. cbn in Hop. rewrite Hop. done.
  - cbn. destruct (serial ls log) as [t' ds]. cbn in Hop. rewrite Hop. done.
Qed.
(** A [BEGIN] that succeeds. *)
Lemma begin_inv s log i k call call' c r :
  system_inv s log -> calls s !! i = Some (k, call) -> in_tx (k, call) = false ->
  decided ls (k, call) = None -> execute false BeginImmediate (conn (limiter s)) = Ok (c, r) ->
  decided ls (k, call') = None -> call_inv (table c) (table c) (k, call') ->
  (forall k', ended k' (k, call) = false) -> (forall k', ended k' (k, call') = false) ->
  system_inv {| limiter := with_conn c (limiter s); calls := <[i := (k, call')]> (calls s) |} log.
Proof.
  intros H Hi Hx Hd Hb Hd' Hk He He'. change log with ([] ++ log). cbn in Hb.
  destruct (snapshot (conn (limiter s))) eqn:Es; [done|]. injection Hb as <- <-.
  eapply (step_inv s log i k call _ call' []); eauto.
  - apply (si_limits _ _ H).
  - cbn [app]. rewrite <- (si_table _ _ H). unfold committed. by rewrite Es.
  - by rewrite Hd'.
  - by apply accounts_same.
Qed.

(** The accounts of a turn, by computation of [ended]. *)
Ltac books :=
  try done; intros; unfold ended; cbn; rewrite ?andb_false_r, ?andb_true_r; try done;
  first [apply accounts_same|apply accounts_report|idtac]; intros; unfold ended; cbn;
  rewrite ?andb_false_r, ?andb_true_r; try done.
Lemma call_step_inv s log i k call fault clock :
  system_inv s log -> calls s !! i = Some (k, call) ->
  exists ops, system_inv {| limiter := (call_step k fault clock call (limiter s)).1;
                calls := <[i := (k, (call_step k fault clock call (limiter s)).2)]> (calls s) |} (ops ++ log).
Proof.
  intros H Hi. pose proof (si_calls _ _ H i _ Hi) as Hk. pose proof (si_limits _ _ H) as Hls.
  pose proof (in_tx_snapshot s log i (k, call) H Hi) as Hsn.
  assert (Hnil : forall s', system_inv s' log -> exists ops, system_inv s' (ops ++ log)) by (by exists []).
  assert (Hsto : decided ls (k, CheckDone storage_error) = None) by (cbn; by destruct (config_in ls k)).
  destruct call as [c|c now|c now|row d|d| |d| | | |row| | | |m]; cbn [call_step].
  - apply Hnil. destruct (init_cases fault (CheckBegin c clock) (limiter s)) as (E1 & E2 & E4 & E3).
    destruct E3 as [->|[e ->]]; eapply stay_inv; try done; try congruence; rewrite ?E4; books.
  - apply Hnil. destruct (attempt_cases k fault BeginImmediate (fun _ => CheckRead c now)
      (CheckDone storage_error) false (limiter s)) as [(l' & -> & E1 & E2 & E4)|(c' & r & -> & E)]; cbn [fst snd].
    + eapply stay_inv; try done; try congruence; rewrite ?E4; books.
    + eapply begin_inv; try done; books.
  - apply Hnil. destruct Hk as [Hc Hw]. cbn in Hc.
    destruct (attempt_cases k fault (SelectBucket k) (fun row => let '(row', d) := decide_check c now row in CheckWrite row' d)
      CheckRollback true (limiter s)) as [(l' & -> & E1 & E2 & E4)|(c' & r & -> & E)]; cbn [fst snd].
    + eapply stay_inv; try done; try congruence; rewrite ?E4; books.
    + injection E as <- <-. destruct (decide_check c now _) as [row d] eqn:Ed. cbn [fst snd].
      eapply stay_inv; try done; try (by books). split; [done|]. exists c, now. split; [done|]. cbn [with_conn conn fst].
      by rewrite <- Hw.
  - apply Hnil. destruct Hk as [Hw (c & now & Hc & Hd)]. cbn [fst] in *.
    destruct (attempt_cases k fault (UpsertBucket k row) (fun _ => CheckCommit d) CheckRollback true (limiter s))
      as [(l' & -> & E1 & E2 & E4)|(c' & r & -> & E)]; cbn [fst snd].
    + eapply stay_inv; try done; try congruence; rewrite ?E4; books.
    + injection E as <- <-. destruct (Hsn eq_refl) as [t Et].
      eapply inside_inv; try done; [unfold committed; cbn; by rewrite Et| |by books].
      exists c, now, row. cbn. unfold committed in *. cbn. rewrite Et in *. cbn in *. by rewrite Hw.
  - destruct Hk as (c & now & row & Hc & Hd & Hw). cbn [fst] in *.
    destruct (attempt_cases k fault Commit (fun _ => CheckDone d) CheckRollback true (limiter s))
      as [(l' & -> & E1 & E2 & E4)|(c' & r & -> & E)]; cbn [fst snd].
    + apply Hnil. eapply stay_inv; try done; try congruence; rewrite ?E4; books.
    + cbn in E. destruct (Hsn eq_refl) as [t Et]. rewrite Et in E. injection E as <- <-.
      exists [ACheck k now]. pose proof (decide_check_reason c now (committed (conn (limiter s)) !! k)) as Hr. rewrite Hd in Hr. cbn in Hr.
      eapply commit_inv; try done.
      * cbn [atomic_op]. rewrite Hc, Hd, <- Hw. cbn. rewrite Hc. by destruct (reason d) as [[]|].
      * intros k'. unfold ended. cbn. by destruct (reason d) as [[]|]; rewrite ?andb_false_r.
  - apply Hnil. destruct (rollback_cases k fault (CheckDone storage_error) (limiter s)) as (E1 & E4 & E2 & E3).
    rewrite E1. eapply inside_inv; try done; try congruence; rewrite ?E4; books.
  - apply Hnil. cbn [fst snd]. rewrite list_insert_id by done. by destruct s.
  - apply Hnil. destruct (init_cases fault ReleaseBegin (limiter s)) as (E1 & E2 & E4 & E3).
    destruct E3 as [->|[e ->]]; eapply stay_inv; try done; try congruence; rewrite ?E4; books.
  - apply Hnil. destruct (attempt_cases k fault BeginImmediate (fun _ => ReleaseRead)
      ReleaseDone false (limiter s)) as [(l' & -> & E1 & E2 & E4)|(c' & r & -> & E)]; cbn [fst snd].
    + eapply stay_inv; try done; try congruence; rewrite ?E4; books.
    + eapply begin_inv; try done; books.
  - apply Hnil. cbn in Hk.
    destruct (attempt_cases k fault (SelectBucket k) (fun row => match row with None => ReleaseCommit | Some r => ReleaseWrite (released r) end)
      ReleaseRollback true (limiter s)) as [(l' & -> & E1 & E2 & E4)|(c' & r & -> & E)]; cbn [fst snd].
    + eapply stay_inv; try done; try congruence; rewrite ?E4; books.
    + injection E as <- <-. cbn [fst snd]. rewrite Hk.
      destruct (committed (conn (limiter s)) !! k) as [r|] eqn:Er; eapply stay_inv; try done; try (by books).
      * split; [done|]. by exists r.
      * cbn. unfold release_row. by rewrite Er.
  - apply Hnil. destruct Hk as [Hw (r0 & Hr & ->)]. cbn [fst] in *.
    destruct (attempt_cases k fault (UpsertBucket k (released r0)) (fun _ => ReleaseCommit) ReleaseRollback true (limiter s))
      as [(l' & -> & E1 & E2 & E4)|(c' & r & -> & E)]; cbn [fst snd].
    + eapply stay_inv; try done; try congruence; rewrite ?E4; books.
    + injection E as <- <-. destruct (Hsn eq_refl) as [t Et].
      eapply inside_inv; try done; [unfold committed; cbn; by rewrite Et| |by books].
      cbn. unfold committed, release_row in *. cbn. rewrite Et in *. cbn in *. by rewrite Hr, Hw.
  - cbn in Hk. destruct (attempt_cases k fault Commit (fun _ => ReleaseDone) ReleaseRollback true (limiter s))
      as [(l' & -> & E1 & E2 & E4)|(c' & r & -> & E)]; cbn [fst snd].
    + apply Hnil. eapply stay_inv; try done; try congruence; rewrite ?E4; books.
    + cbn in E. destruct (Hsn eq_refl) as [t Et]. rewrite Et in E. injection E as <- <-.
      exists [ARelease k]. eapply commit_inv; try done; [cbn; by rewrite Hk|].
      intros k'. rewrite releases_release. unfold ended, releases, count_if. cbn. rewrite andb_true_r. lia.
  - apply Hnil. destruct (rollback_cases k fault ReleaseDone (limiter s)) as (E1 & E4 & E2 & E3).
    rewrite E1. eapply inside_inv; try done; try congruence; rewrite ?E4; books.
  - apply Hnil. cbn [fst snd]. rewrite list_insert_id by done. by destruct s.
  - apply Hnil. cbn [fst snd]. rewrite list_insert_id by done. by destruct s.
Qed.
End Serialize.

Lemma start_inv ls s log k call :
  system_inv ls s log -> in_tx (k, call) = false -> decided ls (k, call) = None ->
  (forall t w, call_inv ls t w (k, call)) -> (forall k', is_Some (config_in ls k') -> ended k' (k, call) = false) ->
  system_inv ls {| limiter := limiter s; calls := calls s ++ [(k, call)] |} log.
Proof.
  intros [Hl Ht Hd Hx Hc Ha] Hx' Hd' Hk He. split; cbn [limiter calls]; [done|done| | | |].
  - rewrite omap_app, <- Hd. cbn. by rewrite Hd', app_nil_r.
  - unfold count_if. rewrite List.filter_app. cbn. rewrite Hx', app_nil_r. done.
  - intros i kc [Hi|[_ Hi]]%lookup_app_Some; [by eapply Hc|].
    apply list_lookup_singleton_Some in Hi as [_ <-]. apply Hk.
  - intros k' Hk'. rewrite count_if_app, Ha by done. unfold count_if at 1. cbn. rewrite He by done. cbn. lia.
Qed.
Lemma system_run_inv ls es s log :
  system_inv ls s log -> exists ops, system_inv ls (system_run es s) (ops ++ log).
Proof.
  revert s log. induction es as [|e es IH]; intros s log H; [by exists []|].
  assert (exists ops, system_inv ls (system_step e s) (ops ++ log)) as [ops H'].
  2: { destruct (IH _ _ H') as [ops' H'']. exists (ops' ++ ops). by rewrite <- app_assoc. }
  pose proof (si_limits _ _ _ H) as Hl.
  destruct e as [k|k|i fault clock]; cbn [system_step].
  - exists []. unfold startCheck, config_of. rewrite Hl. fold (config_in ls k).
    destruct (config_in ls k) as [c|] eqn:E; apply start_inv; cbn; rewrite ?E; try done;
      intros; unfold ended; cbn; by rewrite andb_false_r.
  - exists []. unfold startRelease, config_of. rewrite Hl. fold (config_in ls k).
    destruct (config_in ls k) as [c|] eqn:E; apply start_inv; try done; intros k' Hk'; unfold ended; cbn;
      [by rewrite andb_false_r|]. rewrite andb_true_r. apply bool_decide_eq_false. intros ->. rewrite E in Hk'.
    by apply is_Some_None in Hk'.
  - destruct (calls s !! i) as [[k call]|] eqn:Hi; [|by exists []].
    destruct (call_step_inv ls s log i k call fault clock H Hi) as [ops Hops].
    exists ops. by destruct (call_step k fault clock call (limiter s)).
Qed.
Lemma freshSystem_inv ls : system_inv ls (freshSystem ls) [].
Proof. by split. Qed.

(** ** Runs the storage and the calls do not disturb *)
Definition begins (kc : BucketKey * Call) : bool :=
  match kc.2 with CheckBegin _ _ | ReleaseBegin => true | _ => false end.
(** No statement fails, and no call begins its transaction inside another's. *)
Fixpoint undisturbed (es : list SystemEvent) (s : System) : bool :=
  match es with
  | [] => true
  | e :: es' =>
      match e with
      | Resume i fault _ =>
          negb fault && match calls s !! i with
                        | Some kc => negb (begins kc && existsb in_tx (calls s))
                        | None => true
                        end
      | _ => true
      end && undisturbed es' (system_step e s)
  end.
Definition rolls_back (kc : BucketKey * Call) : bool :=
  match kc.2 with CheckRollback | ReleaseRollback => true | _ => false end.
Record calm (s : System) : Prop := {
  ca_errors : onErrors (limiter s) = [];
  ca_forward : forall i kc, calls s !! i = Some kc -> rolls_back kc = false;
  ca_owned : is_Some (snapshot (conn (limiter s))) <-> existsb in_tx (calls s) = true;
}.
Lemma existsb_insert {A} (f : A -> bool) l i x y :
  l !! i = Some x -> f y = true -> existsb f (<[i := y]> l) = true.
Proof.
  intros Hi Hy. apply existsb_exists. exists y. split; [|done]. apply list_elem_of_In.
  apply list_elem_of_lookup. exists i. apply list_lookup_insert_eq. by eapply lookup_lt_Some.
Qed.
Lemma existsb_count {A} (f : A -> bool) l : existsb f l = true <-> (1 <= count_if f l)%nat.
Proof.
  unfold count_if. induction l as [|a l IH]; cbn; [split; [done|lia]|]. destruct (f a); cbn; [split; [lia|done]|done].
Qed.
(** A turn of a call keeps the run calm. *)
Lemma calm_turn s log ls i k call call' l :
  system_inv ls s log -> calm s -> calls s !! i = Some (k, call) -> onErrors l = [] ->
  rolls_back (k, call') = false ->
  (in_tx (k, call') = in_tx (k, call) -> is_Some (snapshot (conn l)) <-> is_Some (snapshot (conn (limiter s)))) ->
  (in_tx (k, call') = true -> is_Some (snapshot (conn l))) ->
  (in_tx (k, call) = true -> in_tx (k, call') = false -> snapshot (conn l) = None) ->
  calm {| limiter := l; calls := <[i := (k, call')]> (calls s) |}.
Proof.
  intros Hinv [He Hf Ho] Hi Hl Hr Hsame Hin Hout. split; cbn [limiter calls]; [done| |].
  - intros j kc Hj. destruct (decide (i = j)) as [<-|Hne].
    + rewrite list_lookup_insert_eq in Hj by (by eapply lookup_lt_Some). by injection Hj as <-.
    + rewrite list_lookup_insert_ne in Hj by done. by eapply Hf.
  - pose proof (count_if_insert in_tx _ _ _ (k, call') Hi) as Hc. pose proof (si_tx _ _ _ Hinv) as Htx.
    rewrite existsb_count in *. destruct (in_tx (k, call')) eqn:E', (in_tx (k, call)) eqn:E; cbn [Nat.b2n] in Hc.
    + rewrite Hsame, Ho by done. lia.
    + split; [lia|]. intros _. by apply Hin.
    + rewrite Hout by done. split; [by intros []|]. destruct (snapshot (conn (limiter s))); lia.
    + rewrite Hsame, Ho by done. lia.
Qed.

Lemma calm_step ls s log i clock k call :
  system_inv ls s log -> calm s -> calls s !! i = Some (k, call) ->
  begins (k, call) && existsb in_tx (calls s) = false ->
  let r := call_step k false clock call (limiter s) in
  calm {| limiter := r.1; calls := <[i := (k, r.2)]> (calls s) |}.
Proof.
  intros H Hca Hi Hb r. pose proof (ca_errors _ Hca) as He. pose proof (ca_forward _ Hca i _ Hi) as Hr.
  pose proof (in_tx_snapshot ls s log i (k, call) H Hi) as Hsn.
  assert (begins (k, call) = true -> snapshot (conn (limiter s)) = None) as Hbegin.
  { intros E. rewrite E in Hb. cbn [andb] in Hb. destruct (snapshot (conn (limiter s))) eqn:Es; [|done].
    rewrite (proj1 (ca_owned _ Hca)) in Hb by (rewrite Es; by eexists). done. }
  enough (onErrors r.1 = [] /\ rolls_back (k, r.2) = false /\
    (in_tx (k, r.2) = in_tx (k, call) -> is_Some (snapshot (conn r.1)) <-> is_Some (snapshot (conn (limiter s)))) /\
    (in_tx (k, r.2) = true -> is_Some (snapshot (conn r.1))) /\
    (in_tx (k, call) = true -> in_tx (k, r.2) = false -> snapshot (conn r.1) = None)) as (H1 & H2 & H3 & H4 & H5)
    by (by eapply calm_turn).
  subst r. unfold init.
  destruct call as [c|c now|c now|row d|d| |d| | | |row| | | |m]; try done; cbn -[decide_check]; unfold init, attempt; cbn -[decide_check].
  all: try (destruct (Hsn eq_refl) as [t Et]; rewrite ?Et).
  all: try rewrite (Hbegin eq_refl).
  all: try (destruct (decide_check _ _ _) as [row' d']).
  all: try (destruct (initialized (limiter s))).
  all: try (destruct (table (conn (limiter s)) !! k)).
  all: cbn; rewrite ?Et, ?(Hbegin eq_refl); split_and!; try done; try (by eexists).
Qed.
Lemma undisturbed_calm ls es s log :
  system_inv ls s log -> calm s -> undisturbed es s = true -> onErrors (limiter (system_run es s)) = [].
Proof.
  revert s log. induction es as [|e es IH]; intros s log H Hca; [intros _; apply Hca|].
  cbn [undisturbed]. intros [He Hes]%andb_true_iff.
  destruct (system_run_inv ls [e] s log H) as [ops H']. change (system_run [e] s) with (system_step e s) in H'.
  apply (IH _ _ H'); [|done].
  assert (forall k call, in_tx (k, call) = false -> rolls_back (k, call) = false ->
    calm {| limiter := limiter s; calls := calls s ++ [(k, call)] |}) as Hstart.
  { intros k call Hx Hr. destruct Hca as [C1 C2 C3]. split; cbn [limiter calls]; [done| |].
    - intros i kc [Hi|[_ Hi]]%lookup_app_Some; [by eapply C2|]. by apply list_lookup_singleton_Some in Hi as [_ <-].
    - rewrite existsb_app. cbn. by rewrite Hx, orb_false_r, C3. }
  destruct e as [k|k|i fault clock]; cbn [system_step].
  - apply Hstart; unfold startCheck; by destruct (config_of _ k).
  - apply Hstart; unfold startRelease; by destruct (config_of _ k).
  - apply andb_true_iff in He as [Hf He]. destruct fault; [done|].
    destruct (calls s !! i) as [[k call]|] eqn:Hi; [|done]. apply negb_true_iff in He.
    pose proof (calm_step ls s log i clock k call H Hca Hi He) as Hc. cbv zeta in Hc.
    by destruct (call_step k false clock call (limiter s)).
Qed.
Lemma freshSystem_calm ls : calm (freshSystem ls).
Proof. split; [done|done|]. cbn. split; [by intros []|done]. Qed.

(** ** Buckets of a serial run *)
(** What the manifest schema admits, up to the size of [max]. *)
Definition config_ok (c : RateLimitConfig) : Prop :=
  (exists m, rl_max c = Fin m /\ (1 <= m)%Q /\ (m <= inject_Z (2 ^ 53))%Q) /\
  (forall cap, rl_concurrent c = Some cap -> 0 < cap).
Definition limits_ok (ls : gmap string PackRateLimits) : Prop :=
  forall k c, config_in ls k = Some c -> config_ok c.
Definition row_ok (c : RateLimitConfig) (row : BucketRow) : Prop :=
  (exists q m, tokens row = Fin q /\ rl_max c = Fin m /\ (0 <= q)%Q /\ (q <= m)%Q) /\
  0 <= concurrent_count row /\ (forall cap, rl_concurrent c = Some cap -> concurrent_count row <= cap).

Lemma decide_check_ok c now row :
  config_ok c -> (forall r, row = Some r -> row_ok c r) -> row_ok c (decide_check c now row).1.
Proof.
  intros [(m & Em & Hm1 & Hm2) Hcap] Hrow.
  assert (Hm0 : (0 <= m)%Q) by (eapply Qle_trans; [|exact Hm1]; done).
  destruct (clamp_range (num_add (match row with Some r => tokens r | None => rl_max c end)
    (num_mul (of_Z (Z.max 0 (now - match row with Some r => last_refill_ms r | None => now end)))
       (refillPerMs c))) m Hm0) as (q & Eq & Hq0 & Hqm).
  assert (Er : refill c now row = Fin q) by (rewrite <- Em in Eq; exact Eq).
  assert (Hc : 0 <= match row with Some r => concurrent_count r | None => 0 end /\
    forall cap, rl_concurrent c = Some cap -> match row with Some r => concurrent_count r | None => 0 end <= cap).
  { destruct row as [r|]; [by destruct (Hrow r eq_refl) as [_ ?]|]. split; [done|].
    intros cap H. specialize (Hcap cap H). lia. }
  destruct Hc as [Hc0 Hc1].
  assert (Hsame : forall row', tokens row' = Fin q ->
    concurrent_count row' = match row with Some r => concurrent_count r | None => 0 end -> row_ok c row').
  { intros row' E1 E2. split; [by exists q, m|]. by rewrite E2. }
  unfold decide_check. rewrite Er. destruct (at_cap c _) eqn:Ecap; [by apply Hsame|].
  destruct (num_lt (Fin q) (Fin 1)) eqn:El; [by apply Hsame|].
  rewrite <- not_true_iff_false, num_lt_fin in El. apply Qnot_lt_le in El.
  destruct (num_sub_one q El ltac:(by eapply Qle_trans)) as (r & Er' & Hr0 & Hr1).
  split; cbn [tokens concurrent_count fst].
  - exists r, m. split_and!; [done|done|done|by eapply Qle_trans].
  - split; [lia|]. intros cap E. unfold at_cap in Ecap. rewrite E in Ecap. apply Z.leb_gt in Ecap. lia.
Qed.
Lemma released_ok c r : row_ok c r -> row_ok c (released r).
Proof. intros (Hq & H0 & H1). split; [done|]. cbn. split; [lia|]. intros cap H. specialize (H1 cap H). lia. Qed.

Definition granted (k : BucketKey) (ds : list (BucketKey * RateLimitDecision)) : nat :=
  count_if (fun kd => bool_decide (kd.1 = k) && allowed kd.2) ds.
Lemma granted_cons k k' d ds :
  granted k ((k', d) :: ds) = (Nat.b2n (bool_decide (k' = k) && allowed d) + granted k ds)%nat.
Proof. unfold granted, count_if. cbn. by destruct (bool_decide (k' = k) && allowed d). Qed.
Lemma granted_perm k ds ds' : ds ≡ₚ ds' -> granted k ds = granted k ds'.
Proof.
  induction 1 as [|[k' d] ds ds' _ IH|[k1 d1] [k2 d2] ds|]; rewrite ?granted_cons; [done|lia|lia|congruence].
Qed.

(** The row counts at least the grants not yet released. *)
Definition bucket_inv (c : RateLimitConfig) (row : option BucketRow) (g r : nat) : Prop :=
  match row with
  | Some row => row_ok c row /\ Z.of_nat g <= concurrent_count row + Z.of_nat r
  | None => g = 0%nat
  end.
Lemma decide_check_grant c now row :
  concurrent_count (decide_check c now row).1 =
  match row with Some r => concurrent_count r | None => 0 end +
  Z.of_nat (Nat.b2n (allowed (decide_check c now row).2)).
Proof.
  unfold decide_check. destruct (at_cap _ _); cbn; [lia|]. destruct (num_lt _ _); cbn; lia.
Qed.
Lemma serial_bucket_inv ls log k c :
  limits_ok ls -> config_in ls k = Some c ->
  bucket_inv c ((serial ls log).1 !! k) (granted k (serial ls log).2) (releases k log).
Proof.
  intros Hls Hk. induction log as [|op log IH]; [done|]. cbn [serial].
  destruct (serial ls log) as [t ds]. cbn [fst snd] in *.
  destruct op as [k' now|k']; cbn [atomic_op].
  - change (releases k (ACheck k' now :: log)) with (releases k log).
    destruct (config_in ls k') as [c'|] eqn:Ek'; [|done].
    pose proof (decide_check_ok c' now (t !! k') (Hls _ _ Ek')) as Hok.
    pose proof (decide_check_grant c' now (t !! k')) as Hg.
    destruct (decide_check c' now (t !! k')) as [row d]. cbn [fst snd app] in *.
    rewrite granted_cons. destruct (decide (k' = k)) as [->|Hne].
    + rewrite lookup_insert_eq, bool_decide_true by done. assert (c' = c) as -> by congruence.
      cbn [andb]. unfold bucket_inv in *. destruct (t !! k) as [r|].
      * destruct IH as [Hr IH]. split; [apply Hok; by intros r' [= <-]|lia].
      * split; [by apply Hok|lia].
    + rewrite lookup_insert_ne by done. by rewrite bool_decide_false by done.
  - cbn [fst snd app]. rewrite releases_release. unfold release_row.
    destruct (decide (k' = k)) as [->|Hne].
    + rewrite bool_decide_true by done. unfold bucket_inv in *. destruct (t !! k) as [r|] eqn:E.
      * rewrite lookup_insert_eq. destruct IH as [Hr IH]. split; [by apply released_ok|]. cbn. lia.
      * by rewrite E.
    + rewrite bool_decide_false by done. destruct (t !! k'); [by rewrite lookup_insert_ne|done].
Qed.

(** ** Properties *)

(** What a serial run [log] explains of a system: its committed table, the
    decisions it returned, and each call that ended without a decision, which
    is a release of the log or was reported to the error sink. *)
Record explained (ls : gmap string PackRateLimits) (s : System) (log : list AtomicOp) : Prop := {
  ex_table : committed (conn (limiter s)) = (serial ls log).1;
  ex_decided : omap (decided ls) (calls s) ≡ₚ (serial ls log).2;
  ex_accounts : forall k, is_Some (config_in ls k) ->
    count_if (ended k) (calls s) = (releases k log + failures k (onErrors (limiter s)))%nat;
}.
Lemma inv_explained ls s log : system_inv ls s log -> explained ls s log.
Proof. intros H. split; apply H. Qed.

(** C40: however checks and releases on the one client interleave and whatever
    statements fail, at most one call is inside a transaction, and there is a
    serial order of checks and releases, which later turns only extend, that
    leaves exactly the committed table, gave exactly the decisions returned,
    and has on every limited bucket one release for each release that ended,
    but for the calls reported to the error sink: no update is lost and no
    half-done call is visible.  When no statement fails and no call begins
    inside another's transaction, nothing is reported, so every release that
    ended is in the order. *)
Theorem calls_serialize (ls : gmap string PackRateLimits) (es es' : list SystemEvent) :
  let s := system_run es (freshSystem ls) in
  let s' := system_run (es ++ es') (freshSystem ls) in
  (count_if in_tx (calls s) <= 1)%nat /\
  (exists log ops, explained ls s log /\ explained ls s' (ops ++ log)) /\
  (undisturbed es (freshSystem ls) = true -> onErrors (limiter s) = []).
Proof.
  intros s s'. destruct (system_run_inv ls es _ _ (freshSystem_inv ls)) as [log H]. rewrite app_nil_r in H.
  destruct (system_run_inv ls es' _ _ H) as [ops H']. split_and!.
  - pose proof (si_tx _ _ _ H) as Htx. fold s in Htx. destruct (snapshot _); lia.
  - exists log, ops. split; apply inv_explained; [done|].
    subst s s'. unfold system_run in *. by rewrite fold_left_app.
  - eapply undisturbed_calm; [apply freshSystem_inv|apply freshSystem_calm].
Qed.

(** With limits the manifest schema admits, the committed buckets always
    hold between zero and [max] tokens in double arithmetic, a concurrent count
    between zero and the cap, and at least the checks allowed and not yet
    released, whatever interleaves and fails: at most the cap is outstanding. *)
Lemma buckets_within_limits (ls : gmap string PackRateLimits) (es : list SystemEvent)
    (k : BucketKey) (c : RateLimitConfig) :
  limits_ok ls -> config_in ls k = Some c ->
  let s := system_run es (freshSystem ls) in
  exists log, committed (conn (limiter s)) = (serial ls log).1 /\
    (forall row, committed (conn (limiter s)) !! k = Some row -> row_ok c row) /\
    (forall cap, rl_concurrent c = Some cap ->
       Z.of_nat (granted k (omap (decided ls) (calls s))) <= cap + Z.of_nat (releases k log)).
Proof.
  intros Hls Hk s. destruct (system_run_inv ls es _ _ (freshSystem_inv ls)) as [log H]. rewrite app_nil_r in H. fold s in H.
  exists log. rewrite (si_table _ _ _ H). pose proof (serial_bucket_inv ls log k c Hls Hk) as Hb.
  assert (Hg : granted k (omap (decided ls) (calls s)) = granted k (serial ls log).2).
  { apply granted_perm, (si_decided _ _ _ H). }
  rewrite Hg. unfold bucket_inv in Hb. split; [done|]. split.
  - intros row E. rewrite E in Hb. apply Hb.
  - intros cap E. destruct (Hls k c Hk) as [_ Hcap]. specialize (Hcap cap E).
    destruct ((serial ls log).1 !! k) as [row|]; [|rewrite Hb; lia].
    destruct Hb as [(_ & _ & Hle) Hb]. specialize (Hle cap E). lia.
Qed.

(** Calls that overlap are not queued: while one call is inside its
    transaction, every check that begins is denied with a storage error on
    healthy storage, whatever its bucket holds.  The header says that SQLite
    serialises concurrent checks. *)
Lemma overlapping_check_denied (ls : gmap string PackRateLimits) (es : list SystemEvent)
    (i j : nat) (inside : BucketKey * Call) (k : BucketKey) (c : RateLimitConfig) (now clock : Z) :
  let s := system_run es (freshSystem ls) in
  calls s !! i = Some inside -> in_tx inside = true -> calls s !! j = Some (k, CheckBegin c now) ->
  let s' := system_step (Resume j false clock) s in
  calls s' !! j = Some (k, CheckDone storage_error) /\ conn (limiter s') = conn (limiter s).
Proof.
  intros s Hi Hx Hj s'. destruct (system_run_inv ls es _ _ (freshSystem_inv ls)) as [log H]. rewrite app_nil_r in H. fold s in H.
  destruct (in_tx_snapshot ls s log i inside H Hi Hx) as [t Et].
  subst s'. cbn [system_step]. rewrite Hj. cbn [call_step attempt execute]. unfold attempt. cbn [execute]. rewrite Et.
  cbn [calls limiter]. split; [|done]. apply list_lookup_insert_eq. by eapply lookup_lt_Some.
Qed.

(** ** A retry hint that is too short *)
Definition demo_config : RateLimitConfig :=
  {| rl_max := of_Z 5; rl_per := Minute; rl_concurrent := Some 6 |}.
Definition demo_limits : gmap string PackRateLimits := {[ "pack" := [("schedule", demo_config)] ]}.
Definition demo_key : BucketKey := ("pack", "schedule", "job").

(** Five checks empty the bucket at 0; the check denied at 2350 ms is told to
    come back in 9650 ms and is denied again then. *)
Example retry_hint_too_short :
  let log := [ACheck demo_key 2350; ACheck demo_key 0; ACheck demo_key 0; ACheck demo_key 0;
              ACheck demo_key 0; ACheck demo_key 0] in
  head (serial demo_limits log).2 = Some (demo_key, deny Rate_exceeded (Some (of_Z 9650))) /\
  head (serial demo_limits (ACheck demo_key (2350 + 9650) :: log)).2 =
    Some (demo_key, deny Rate_exceeded (Some (of_Z 1))).
Proof. vm_compute. split; reflexivity. Qed.

(** ** Witnesses *)
Lemma demo_limits_ok : limits_ok demo_limits.
Proof.
  intros [[p t] x] c. unfold config_in, demo_limits. cbn [fst snd].
  destruct (decide (p = "pack")) as [->|Hne]; [|by rewrite lookup_singleton_ne].
  rewrite lookup_singleton_eq. cbn. destruct (t =? "schedule")%string; [|done]. intros [= <-].
  split; [|by intros cap [= <-]]. exists (inject_Z 5). by vm_compute.
Qed.
(** One check, its turns, and a second check that starts in between. *)
Definition demo_run : list SystemEvent :=
  [StartCheck demo_key; StartCheck demo_key; Resume 0 false 0; Resume 1 false 0; Resume 0 false 0].

Lemma buckets_within_limits_witness :
  let s := system_run (demo_run ++ [Resume 0 false 0; Resume 0 false 0; Resume 0 false 0]) (freshSystem demo_limits) in
  (exists row, committed (conn (limiter s)) !! demo_key = Some row /\ row_ok demo_config row /\
               concurrent_count row = 1).
Proof.
  intros s.
  destruct (buckets_within_limits demo_limits
    (demo_run ++ [Resume 0 false 0; Resume 0 false 0; Resume 0 false 0]) demo_key demo_config
    demo_limits_ok eq_refl) as (log & _ & Hrow & _).
  eexists. split; [vm_compute; reflexivity|]. split; [|reflexivity].
  apply Hrow. vm_compute. reflexivity.
Defined.

Lemma overlapping_check_denied_witness :
  let s := system_run demo_run (freshSystem demo_limits) in
  calls (system_step (Resume 1 false 0) s) !! 1%nat = Some (demo_key, CheckDone storage_error).
Proof.
  apply (overlapping_check_denied demo_limits demo_run 0 1 (demo_key, CheckRead demo_config 0)
    demo_key demo_config 0 0); vm_compute; reflexivity.
Defined.

(** A check, a release of its slot, each to its end: the release is in the order. *)
Definition demo_turns : list SystemEvent :=
  StartCheck demo_key :: repeat (Resume 0 false 0) 5 ++ StartRelease demo_key :: repeat (Resume 1 false 0) 5.
Lemma calls_serialize_witness :
  let s := system_run demo_turns (freshSystem demo_limits) in
  onErrors (limiter s) = [] /\ exists log, explained demo_limits s log /\ releases demo_key log = 1%nat.
Proof.
  intros s. destruct (calls_serialize demo_limits demo_turns []) as (_ & (log & _ & H & _) & He).
  specialize (He ltac:(vm_compute; reflexivity)). fold s in He, H. split; [exact He|]. exists log. split; [exact H|].
  pose proof (ex_accounts _ _ _ H demo_key ltac:(by eexists)) as Ha. rewrite He in Ha.
  revert Ha. change (failures demo_key []) with 0%nat. rewrite Nat.add_0_r. intros <-. vm_compute. reflexivity.
Defined.
