(* ===== verification/HarnessSync.v ===== *)
(** * Harness synchronisation ([src/src/workgraph/harness_sync.ts], [harness_map.ts])

    The harness's task list materialised into the work graph, and the two-way
    reconcile.  The work graph is an interface, [WgFacade], with what the sync
    relies on; the binding overlay is the list of its rows. *)

From Stdlib Require Import Ascii String.
From stdpp Require Import base option list strings gmap.
From S2P Require Import Prelude Json Workgraph ExprSyntax.
#[local] Open Scope os_scope.

Record HarnessTaskLike := {
  t_id : string;
  t_subject : string;
  t_status : string;
  t_taskId : option string;
  t_spec : option string;
}.
Record Brief := { b_id : string; b_status : string; b_title : string; b_body : string }.
Definition with_status (s : string) (i : Brief) : Brief :=
  {| b_id := b_id i; b_status := s; b_title := b_title i; b_body := b_body i |}.

(** The work-graph surface the sync is given.  [wg_known] are the ids ever
    issued, present or not. *)
Class WgFacade (W : Type) := {
  wg_get : string -> W -> option Brief;
  wg_create : string -> string -> W -> result string (string * W);
  wg_update : string -> string -> W -> result string W;
  wg_known : W -> string -> Prop;
  wg_get_known : forall id w i, wg_get id w = Some i -> wg_known w id;
  wg_create_law : forall title body w id w', wg_create title body w = Ok (id, w') ->
    ~ wg_known w id /\ wg_known w' id /\
    wg_get id w' = Some {| b_id := id; b_status := "open"; b_title := title; b_body := body |} /\
    (forall id', id' <> id -> wg_get id' w' = wg_get id' w) /\
    (forall id', wg_known w id' -> wg_known w' id');
  wg_update_law : forall id s w w', wg_update id s w = Ok w' ->
    wg_get id w' = with_status s <$> wg_get id w /\
    (forall id', id' <> id -> wg_get id' w' = wg_get id' w) /\
    (forall id', wg_known w id' -> wg_known w' id');
}.

(** ** The binding overlay *)
Record Binding := { bd_project : string; bd_harness : string; bd_wg : string }.
(** The rows in the order they were inserted. *)
Abbreviation Bindings := (list Binding).
Definition map_get (project harnessId : string) (m : Bindings) : option string :=
  bd_wg <$> List.find (fun b => (bd_project b =? project)%string && (bd_harness b =? harnessId)%string) m.
(** [ON CONFLICT(project, harness_task_id) DO NOTHING] *)
Definition bind (project harnessId wgId : string) (m : Bindings) : Bindings :=
  match map_get project harnessId m with
  | Some _ => m
  | None => m ++ [{| bd_project := project; bd_harness := harnessId; bd_wg := wgId |}]
  end.
(** The first row: the index lists equal keys by row id. *)
Definition getByWgId (project wgId : string) (m : Bindings) : option string :=
  bd_harness <$> List.find (fun b => (bd_project b =? project)%string && (bd_wg b =? wgId)%string) m.

(** ** Inbound *)
Definition HARNESS_OPEN : list string := ["pending"; "in_progress"].
Definition HARNESS_CLOSED : list string := ["completed"; "deleted"].
Definition mapStatus (s : string) : option string :=
  if set_has s HARNESS_OPEN then Some "open"
  else if set_has s HARNESS_CLOSED then Some "closed" else None.

Definition HARNESS_TASK_STAMP : string := "harness-task:".
Definition NEWLINE : ascii := "010"%char.
Definition isHarnessOwnedBody (body : string) : bool :=
  existsb (fun line => starts_with line HARNESS_TASK_STAMP) (split_char NEWLINE body).
Definition part (label : string) (v : option string) : list string :=
  match v with Some s => if (s =? "")%string then [] else [label +:+ s] | None => [] end.
Definition provenanceBody (t : HarnessTaskLike) : string :=
  join_with (String NEWLINE "")
    ([HARNESS_TASK_STAMP +:+ t_id t] ++ part "task-spec:" (t_taskId t) ++ part "spec:" (t_spec t)).

Record SyncResult := {
  created : list string;
  updated : list string;
  skippedClosed : list string;
  staleOpenHarnessIds : list string;
}.
Definition emptyResult : SyncResult :=
  {| created := []; updated := []; skippedClosed := []; staleOpenHarnessIds := [] |}.

Section Sync.
Context {W : Type} `{Wg : WgFacade W} (project : string).

Record SyncState := { ss_wg : W; ss_map : Bindings; ss_result : SyncResult }.

(** The body of the loop for one task. *)
Definition syncTask (t : HarnessTaskLike) (s : SyncState) : result string SyncState :=
  let r := ss_result s in
  match mapStatus (t_status t) with
  | None => Ok s
  | Some target =>
      match map_get project (t_id t) (ss_map s) with
      | None =>
          if (target =? "open")%string then
            let title := if negb (trim (t_subject t) =? "")%string then t_subject t
                         else "harness task " +:+ t_id t in
            iw <-? wg_create title (provenanceBody t) (ss_wg s) ;;
            Ok {| ss_wg := iw.2; ss_map := bind project (t_id t) iw.1 (ss_map s);
                  ss_result := {| created := created r ++ [t_id t]; updated := updated r;
                                  skippedClosed := skippedClosed r;
                                  staleOpenHarnessIds := staleOpenHarnessIds r |} |}
          else Ok s
      | Some existing =>
          match wg_get existing (ss_wg s) with
          | None => Ok s
          | Some issue =>
              if (b_status issue =? "closed")%string then
                Ok {| ss_wg := ss_wg s; ss_map := ss_map s;
                      ss_result := {| created := created r; updated := updated r;
                        skippedClosed := skippedClosed r ++ [existing];
                        staleOpenHarnessIds := staleOpenHarnessIds r ++
                          (if (target =? "open")%string then [t_id t] else []) |} |}
              else if negb (b_status issue =? target)%string then
                w <-? wg_update existing target (ss_wg s) ;;
                Ok {| ss_wg := w; ss_map := ss_map s;
                      ss_result := {| created := created r; updated := updated r ++ [existing];
                        skippedClosed := skippedClosed r;
                        staleOpenHarnessIds := staleOpenHarnessIds r |} |}
              else Ok s
          end
      end
  end.
Fixpoint syncTasks (tasks : list HarnessTaskLike) (s : SyncState) : result string SyncState :=
  match tasks with
  | [] => Ok s
  | t :: rest => s' <-? syncTask t s ;; syncTasks rest s'
  end.
Definition syncHarnessToWorkgraph (tasks : list HarnessTaskLike) (w : W) (m : Bindings)
    : result string SyncState :=
  syncTasks tasks {| ss_wg := w; ss_map := m; ss_result := emptyResult |}.

(** ** Outbound *)
Inductive OutboundDelta :=
| OutCreate (wgId title : string)
| OutStatus (harnessId : string)
| OutClose (harnessId : string).
Definition isWgTerminal (s : string) : bool := (s =? "closed")%string || (s =? "archived")%string.
Definition EXISTENCE_OPS : list WgOpType :=
  [issue_created; issue_set; issue_archived; issue_unarchived].
Definition existenceIssueIds (wgOps : list WgOp) : list string :=
  fold_left (fun out op =>
    if bool_decide (op_type op ∈ EXISTENCE_OPS) then set_add out (op_issueId op) else out) wgOps [].

(** The deltas of the stale tasks, each harness id once, with the ids emitted. *)
Definition closeDeltas (stale : list string) : list string := set_of stale.
Definition issueDelta (w : W) (m : Bindings) (emitted : list string) (issueId : string)
    : list OutboundDelta * list string :=
  match wg_get issueId w with
  | None => ([], emitted)
  | Some issue =>
      if isHarnessOwnedBody (b_body issue) then ([], emitted)
      else match getByWgId project issueId m with
           | None => (if negb (isWgTerminal (b_status issue)) then [OutCreate issueId (b_title issue)] else [],
                      emitted)
           | Some harnessId =>
               if isWgTerminal (b_status issue) && negb (set_has harnessId emitted)
               then ([OutStatus harnessId], emitted ++ [harnessId]) else ([], emitted)
           end
  end.
Fixpoint issueDeltas (w : W) (m : Bindings) (emitted : list string) (ids : list string)
    : list OutboundDelta :=
  match ids with
  | [] => []
  | id :: rest => let '(d, emitted') := issueDelta w m emitted id in d ++ issueDeltas w m emitted' rest
  end.
Definition reconcileHarnessWorkgraph (tasks : list HarnessTaskLike) (wgOps : list WgOp)
    (w : W) (m : Bindings) : result string (SyncState * list OutboundDelta) :=
  inbound <-? syncHarnessToWorkgraph tasks w m ;;
  let closed := closeDeltas (staleOpenHarnessIds (ss_result inbound)) in
  Ok (inbound, (OutClose <$> closed) ++
                 issueDeltas (ss_wg inbound) (ss_map inbound) closed (existenceIssueIds wgOps)).
End Sync.
Arguments SyncState : clear implicits.
