(* ===== verification/HarnessProps.v ===== *)
(** * Properties of the harness synchronisation

    The inbound half settles every task, never touches a closed issue and is
    idempotent; the outbound half is not. *)

From Stdlib Require Import Ascii String.
From stdpp Require Import base option list strings pretty gmap.
From S2P Require Import Prelude Json Workgraph ExprSyntax HarnessSync.
#[local] Open Scope os_scope.

Lemma map_get_bind p h h' id m :
  map_get p h' (bind p h id m) =
  if (h =? h')%string then Some (default id (map_get p h m)) else map_get p h' m.
Proof.
  unfold bind. destruct (map_get p h m) as [x|] eqn:E.
  - destruct (String.eqb_spec h h') as [<-|]; [by rewrite E|done].
  - unfold map_get in *. destruct (String.eqb_spec h h') as [<-|Hne].
    + induction m as [|b m IH]; cbn in *; [by rewrite !String.eqb_refl|].
      destruct (_ && _); [done|]. by apply IH.
    + clear E. induction m as [|b m IH]; cbn in *.
      * apply String.eqb_neq in Hne. by rewrite Hne, andb_false_r.
      * destruct (_ && _); [done|]. exact IH.
Qed.

Lemma mapStatus_cases s target : mapStatus s = Some target -> target = "open" \/ target = "closed".
Proof.
  unfold mapStatus. destruct (set_has s HARNESS_OPEN); [intros [= <-]; by left|].
  destruct (set_has s HARNESS_CLOSED); [|done]. intros [= <-]. by right.
Qed.

Section SyncFacts.
Context {W : Type} `{Wg : WgFacade W} (project : string).

(** The view agrees with the task: an open task is bound, and a bound issue
    that is still there has the task's status or is closed. *)
Definition settled (t : HarnessTaskLike) (w : W) (m : Bindings) : Prop :=
  forall target, mapStatus (t_status t) = Some target ->
    match map_get project (t_id t) m with
    | None => target <> "open"
    | Some id => forall i, wg_get id w = Some i -> b_status i = "closed" \/ b_status i = target
    end.
(** Bound ids were issued by the work graph. *)
Definition bound_known (w : W) (m : Bindings) : Prop :=
  forall h id, map_get project h m = Some id -> wg_known w id.
Definition closed_kept (w w' : W) : Prop :=
  forall id i, wg_get id w = Some i -> b_status i = "closed" -> wg_get id w' = Some i.

Record step_ok (t : HarnessTaskLike) (s s' : SyncState W) : Prop := {
  so_known : bound_known (ss_wg s') (ss_map s');
  so_settled : settled t (ss_wg s') (ss_map s');
  so_others : forall t', t_id t' <> t_id t ->
    settled t' (ss_wg s) (ss_map s) -> settled t' (ss_wg s') (ss_map s');
  so_closed : closed_kept (ss_wg s) (ss_wg s');
}.

(** A turn that writes nothing. *)
Lemma unchanged_ok t s s' :
  bound_known (ss_wg s) (ss_map s) -> ss_wg s' = ss_wg s -> ss_map s' = ss_map s ->
  settled t (ss_wg s) (ss_map s) -> step_ok t s s'.
Proof. intros Hk Ew Em Hs. split; rewrite ?Ew, ?Em; auto. by intros id i H _. Qed.

Lemma create_ok t s s' id w title body :
  bound_known (ss_wg s) (ss_map s) -> mapStatus (t_status t) = Some "open" ->
  map_get project (t_id t) (ss_map s) = None ->
  wg_create title body (ss_wg s) = Ok (id, w) -> ss_wg s' = w ->
  ss_map s' = bind project (t_id t) id (ss_map s) -> step_ok t s s'.
Proof.
  intros Hk Ht Hm Hc <- Em. destruct (wg_create_law _ _ _ _ _ Hc) as (Hf & Hid & Hg & Ho & Hmono).
  assert (Hne : forall id' h, map_get project h (ss_map s) = Some id' -> id' <> id)
    by (intros id' h H ->; by apply Hf, (Hk h)).
  split; rewrite ?Em.
  - intros h id'. rewrite map_get_bind, Hm. cbn. destruct (String.eqb_spec (t_id t) h) as [<-|].
    + by intros [= <-].
    + intros H. by apply Hmono, (Hk h).
  - intros target Ht'. rewrite map_get_bind, String.eqb_refl, Hm. cbn. rewrite Hg.
    intros i [= <-]. right. cbn. congruence.
  - intros t' Hid' Hs target Ht'. specialize (Hs target Ht'). rewrite map_get_bind.
    apply not_eq_sym, String.eqb_neq in Hid' as ->.
    destruct (map_get project (t_id t') (ss_map s)) as [id'|] eqn:E; [|done].
    by rewrite Ho by (by eapply Hne).
  - intros id' i Hi _. destruct (decide (id' = id)) as [->|]; [|by rewrite Ho].
    by apply wg_get_known in Hi.
Qed.

Lemma update_ok t s s' target id i w :
  bound_known (ss_wg s) (ss_map s) -> mapStatus (t_status t) = Some target ->
  map_get project (t_id t) (ss_map s) = Some id -> wg_get id (ss_wg s) = Some i ->
  b_status i <> "closed" -> b_status i <> target ->
  wg_update id target (ss_wg s) = Ok w -> ss_wg s' = w -> ss_map s' = ss_map s -> step_ok t s s'.
Proof.
  intros Hk Ht Hm Hi Hnc Hnt Hu <- Em. destruct (wg_update_law _ _ _ _ Hu) as (Hg & Ho & Hmono).
  rewrite Hi in Hg. cbn in Hg. split; rewrite ?Em.
  - intros h id' H. by apply Hmono, (Hk h).
  - intros target' Ht'. rewrite Hm, Hg. intros i' [= <-]. right. cbn. congruence.
  - intros t' Hid' Hs target' Ht'. specialize (Hs target' Ht').
    destruct (map_get project (t_id t') (ss_map s)) as [id'|]; [|done].
    destruct (decide (id' = id)) as [->|]; [|by rewrite Ho]. rewrite Hg. intros i' [= <-]. cbn.
    destruct (Hs i Hi) as [ | <-]; [done|].
    destruct (mapStatus_cases _ _ Ht) as [-> | ->]; [|by left].
    destruct (mapStatus_cases _ _ Ht') as [|]; congruence.
  - intros id' i' Hi' Hc. destruct (decide (id' = id)) as [->|]; [congruence|by rewrite Ho].
Qed.

Lemma syncTask_ok t s s' :
  bound_known (ss_wg s) (ss_map s) -> syncTask project t s = Ok s' -> step_ok t s s'.
Proof.
  intros Hk. unfold syncTask. destruct (mapStatus (t_status t)) as [target|] eqn:Ht.
  2:{ intros [= <-]. apply unchanged_ok; try done. intros target'. congruence. }
  destruct (map_get project (t_id t) (ss_map s)) as [id|] eqn:Hm.
  - destruct (wg_get id (ss_wg s)) as [i|] eqn:Hi.
    2:{ intros [= <-]. apply unchanged_ok; try done. intros target' _. rewrite Hm, Hi. done. }
    destruct (String.eqb_spec (b_status i) "closed") as [Hc|Hc].
    { intros [= <-]. apply unchanged_ok; try done. intros target' _. rewrite Hm, Hi.
      intros i' [= <-]. by left. }
    destruct (String.eqb_spec (b_status i) target) as [He|He]; cbn [negb].
    { intros [= <-]. apply unchanged_ok; try done. intros target' Ht'. rewrite Hm, Hi.
      intros i' [= <-]. right. congruence. }
    intros (w & Hu & [= <-])%bind_ok. by eapply update_ok.
  - destruct (String.eqb_spec target "open") as [->|Hne].
    + intros ([id w] & Hc & [= <-])%bind_ok. by eapply create_ok.
    + intros [= <-]. apply unchanged_ok; try done. intros target' Ht'. rewrite Hm. congruence.
Qed.

Lemma syncTasks_ok tasks s s' :
  NoDup (t_id <$> tasks) -> bound_known (ss_wg s) (ss_map s) -> syncTasks project tasks s = Ok s' ->
  bound_known (ss_wg s') (ss_map s') /\ closed_kept (ss_wg s) (ss_wg s') /\
  (forall t, t ∈ tasks -> settled t (ss_wg s') (ss_map s')) /\
  (forall t, t_id t ∉ t_id <$> tasks -> settled t (ss_wg s) (ss_map s) -> settled t (ss_wg s') (ss_map s')).
Proof.
  revert s. induction tasks as [|t tasks IH]; intros s Hn Hk; cbn [syncTasks].
  { intros [= <-]. split_and!; [done|by intros id i H _|set_solver|auto]. }
  intros (s1 & H1 & H2)%bind_ok. cbn in Hn. apply NoDup_cons in Hn as [Hnt Hn].
  destruct (syncTask_ok _ _ _ Hk H1) as [Hk1 Hs1 Ho1 Hc1].
  destruct (IH s1 Hn Hk1 H2) as (Hk2 & Hc2 & Hs2 & Ho2). split_and!; [done| | |].
  - intros id i Hi Hc. by apply Hc2; [apply Hc1|].
  - intros t' [->|Ht']%elem_of_cons; [by apply Ho2|by apply Hs2].
  - cbn. intros t' [Hne Hni]%not_elem_of_cons Hs. apply Ho2; [done|]. by apply Ho1.
Qed.

(** A settled task writes nothing. *)
Definition same_store (s s' : SyncState W) : Prop :=
  ss_wg s' = ss_wg s /\ ss_map s' = ss_map s /\
  created (ss_result s') = created (ss_result s) /\ updated (ss_result s') = updated (ss_result s).
Lemma settled_quiet t s :
  settled t (ss_wg s) (ss_map s) -> exists s', syncTask project t s = Ok s' /\ same_store s s'.
Proof.
  intros Hs. unfold syncTask, same_store. destruct (mapStatus (t_status t)) as [target|] eqn:Ht; [|by eexists].
  specialize (Hs target Ht). destruct (map_get project (t_id t) (ss_map s)) as [id|].
  - destruct (wg_get id (ss_wg s)) as [i|]; [|by eexists]. destruct (Hs i eq_refl) as [->| ->]; [by eexists|].
    destruct (target =? "closed")%string; [by eexists|]. rewrite String.eqb_refl. by eexists.
  - apply String.eqb_neq in Hs as ->. by eexists.
Qed.
Lemma settled_quiet_all tasks s :
  (forall t, t ∈ tasks -> settled t (ss_wg s) (ss_map s)) ->
  exists s', syncTasks project tasks s = Ok s' /\ same_store s s'.
Proof.
  revert s. induction tasks as [|t tasks IH]; intros s Hs; cbn [syncTasks]; [by eexists|].
  destruct (settled_quiet t s) as (s1 & E1 & H1); [apply Hs; set_solver|]. rewrite E1. cbn [mbind result_bind].
  destruct H1 as (Ew & Em & Ec & Eu).
  destruct (IH s1) as (s2 & -> & Ew2 & Em2 & Ec2 & Eu2); [intros t' Ht'; rewrite Ew, Em; set_solver|].
  exists s2. split; [done|]. unfold same_store. split_and!; congruence.
Qed.
End SyncFacts.

(** ** Properties *)

(** For tasks with distinct ids and a work graph that never reissues an
    id, a sync that ends leaves every task settled (an open task is bound, and
    a bound issue still present has the task's status or is closed), leaves
    every closed issue exactly as it was, and is idempotent: run again on the
    same tasks it succeeds, creates nothing, updates nothing and changes
    neither store. *)
Lemma sync_settles_once {W} `{Wg : WgFacade W} (project : string)
    (tasks : list HarnessTaskLike) (w : W) (m : Bindings) (s : SyncState W) :
  NoDup (t_id <$> tasks) -> bound_known project w m ->
  syncHarnessToWorkgraph project tasks w m = Ok s ->
  (forall t, t ∈ tasks -> settled project t (ss_wg s) (ss_map s)) /\
  closed_kept w (ss_wg s) /\
  exists s', syncHarnessToWorkgraph project tasks (ss_wg s) (ss_map s) = Ok s' /\
    ss_wg s' = ss_wg s /\ ss_map s' = ss_map s /\
    created (ss_result s') = [] /\ updated (ss_result s') = [].
Proof.
  intros Hn Hk Hs. destruct (syncTasks_ok project tasks {| ss_wg := w; ss_map := m; ss_result := emptyResult |} _ Hn Hk Hs) as (_ & Hc & Hset & _).
  split_and!; [done|done|].
  destruct (settled_quiet_all project tasks {| ss_wg := ss_wg s; ss_map := ss_map s; ss_result := emptyResult |} Hset)
    as (s' & E & Ew & Em & Ec & Eu). by exists s'.
Qed.

Lemma issueDeltas_create {W} `{Wg : WgFacade W} project w m emitted emitted' ids id title :
  OutCreate id title ∈ issueDeltas project w m emitted ids ->
  OutCreate id title ∈ issueDeltas project w m emitted' ids.
Proof.
  revert emitted emitted'. induction ids as [|x ids IH]; intros em em'; cbn [issueDeltas]; [done|].
  unfold issueDelta. destruct (wg_get x w) as [i|]; [|apply IH].
  destruct (isHarnessOwnedBody (b_body i)); [apply IH|].
  destruct (getByWgId project x m) as [h|].
  - intros H. assert (H' : OutCreate id title ∈ issueDeltas project w m em ids \/
      OutCreate id title ∈ issueDeltas project w m (em ++ [h]) ids).
    { destruct (isWgTerminal (b_status i) && negb (set_has h em)); [right; set_solver|by left]. }
    clear H. destruct (isWgTerminal (b_status i) && negb (set_has h em')); cbn; [apply elem_of_cons; right|];
      destruct H'; by eapply IH.
  - cbn. destruct (isWgTerminal (b_status i)); cbn; [apply IH|].
    intros [->|H]%elem_of_cons; apply elem_of_cons; [by left|right; by eapply IH].
Qed.

(** The two-way reconcile is not idempotent.  Whenever a reconcile asks
    the harness to create a task for an issue, reconciling again over the same
    tasks and ops, on the stores it left, asks for the same creation again,
    since nothing binds the issue.  The header says that a rerun over unchanged
    input yields an empty outbound set. *)
Lemma reconcile_repeats_creations {W} `{Wg : WgFacade W} (project : string)
    (tasks : list HarnessTaskLike) (wgOps : list WgOp) (w : W) (m : Bindings) (s : SyncState W)
    (out : list OutboundDelta) (id title : string) :
  NoDup (t_id <$> tasks) -> bound_known project w m ->
  reconcileHarnessWorkgraph project tasks wgOps w m = Ok (s, out) -> OutCreate id title ∈ out ->
  exists s' out', reconcileHarnessWorkgraph project tasks wgOps (ss_wg s) (ss_map s) = Ok (s', out') /\
    OutCreate id title ∈ out'.
Proof.
  intros Hn Hk (s0 & Hs & [= <- <-])%bind_ok Hin.
  destruct (syncTasks_ok project tasks {| ss_wg := w; ss_map := m; ss_result := emptyResult |} _ Hn Hk Hs) as (_ & _ & Hset & _).
  destruct (settled_quiet_all project tasks {| ss_wg := ss_wg s0; ss_map := ss_map s0; ss_result := emptyResult |} Hset)
    as (s' & E & Ew & Em & _ & _).
  unfold reconcileHarnessWorkgraph, syncHarnessToWorkgraph. rewrite E. cbn [mbind result_bind].
  cbn [ss_wg ss_map] in Ew, Em. rewrite Ew, Em. eexists _, _. split; [done|].
  apply elem_of_app in Hin as [Hin|Hin]; [apply list_elem_of_fmap in Hin as (? & ? & _); done|].
  apply elem_of_app. right. by eapply issueDeltas_create.
Qed.


(** ** Witness: a work graph held in a list *)
Record DemoGraph := { dg_issues : list (string * Brief); dg_next : nat }.
Definition demo_id (n : nat) : string := "wg-" +:+ pretty n.
Definition demo_known (g : DemoGraph) (id : string) : Prop := exists n, n < dg_next g /\ id = demo_id n.
Lemma demo_id_inj n n' : demo_id n = demo_id n' -> n = n'.
Proof.
  cbn. intros [= E]. by apply (inj pretty).
Qed.
(** Issues of unknown ids are invisible. *)
Definition demo_get (id : string) (g : DemoGraph) : option Brief :=
  if existsb (fun n => (id =? demo_id n)%string) (seq 0 (dg_next g)) then obj_get id (dg_issues g) else None.
#[local] Program Instance demo_facade : WgFacade DemoGraph := {|
  wg_get := demo_get;
  wg_create title body g :=
    let id := demo_id (dg_next g) in
    Ok (id, {| dg_issues := obj_set id {| b_id := id; b_status := "open"; b_title := title; b_body := body |}
                                    (dg_issues g);
               dg_next := S (dg_next g) |});
  wg_update id s g :=
    Ok {| dg_issues := match demo_get id g with
                       | Some i => obj_set id (with_status s i) (dg_issues g) | None => dg_issues g end;
          dg_next := dg_next g |};
  wg_known := demo_known;
|}.
Next Obligation.
  intros id g i. unfold demo_get, demo_known. destruct (existsb _ _) eqn:E; [|done]. intros _.
  apply existsb_exists in E as (n & Hn%in_seq & ->%String.eqb_eq). exists n. split; [lia|done].
Qed.
Lemma demo_seen id n : existsb (fun m => (id =? demo_id m)%string) (seq 0 n) = true <-> exists m, m < n /\ id = demo_id m.
Proof.
  rewrite existsb_exists. split.
  - intros (m & Hm%in_seq & E%String.eqb_eq). exists m. split; [lia|done].
  - intros (m & Hm & ->). exists m. rewrite in_seq, String.eqb_refl. split; [lia|done].
Qed.
Next Obligation.
  intros title body g id g' [= <- <-]. unfold demo_known, demo_get. cbn [dg_next dg_issues]. split_and!.
  - intros (n & Hn & E%demo_id_inj). lia.
  - exists (dg_next g). split; [lia|done].
  - rewrite (proj2 (demo_seen _ _)); [apply obj_get_set_eq|]. exists (dg_next g). split; [lia|done].
  - intros id' Hne. rewrite obj_get_set_ne by done.
    destruct (existsb _ (seq 0 (dg_next g))) eqn:E.
    + rewrite (proj2 (demo_seen id' (S (dg_next g)))); [done|].
      apply demo_seen in E as (n & Hn & ->). exists n. split; [lia|done].
    + destruct (existsb _ (seq 0 (S (dg_next g)))) eqn:E'; [|done].
      apply demo_seen in E' as (n & Hn & ->). apply not_true_iff_false in E. destruct E.
      apply demo_seen. exists n. split; [|done]. destruct (decide (n = dg_next g)) as [->|]; [done|lia].
  - intros id' (n & Hn & ->). exists n. split; [lia|done].
Qed.
Next Obligation.
  intros id s g g' [= <-]. unfold demo_get. cbn [dg_next dg_issues]. split_and!; [| |done].
  - destruct (existsb _ _) eqn:E; [|done]. destruct (obj_get id (dg_issues g)) eqn:E'; cbn.
    + by rewrite obj_get_set_eq.
    + by rewrite E'.
  - intros id' Hne. destruct (existsb _ (seq 0 (dg_next g))); [|done].
    case_match; [|done]. by rewrite obj_get_set_ne.
Qed.

Definition demo_task (id subject status : string) : HarnessTaskLike :=
  {| t_id := id; t_subject := subject; t_status := status; t_taskId := None; t_spec := None |}.
Definition demo_tasks : list HarnessTaskLike :=
  [demo_task "1" "write" "pending"; demo_task "2" "" "in_progress"; demo_task "3" "old" "completed"].
Definition emptyGraph : DemoGraph := {| dg_issues := []; dg_next := 0 |}.
Definition demo_issue : DemoGraph :=
  {| dg_issues := [("wg-0", {| b_id := "wg-0"; b_status := "open"; b_title := "by hand"; b_body := "" |})];
     dg_next := 1 |}.
Definition demo_created : WgOp :=
  {| op_id := "op"; op_issueId := "wg-0"; op_lamport := 1; op_type := issue_created; op_payload := [];
     op_project := "p"; op_actorId := None |}.

Lemma sync_settles_once_witness :
  exists s s', syncHarnessToWorkgraph "p" demo_tasks emptyGraph [] = Ok s /\
    created (ss_result s) = ["1"; "2"] /\ settled "p" (demo_task "1" "write" "pending") (ss_wg s) (ss_map s) /\
    syncHarnessToWorkgraph "p" demo_tasks (ss_wg s) (ss_map s) = Ok s' /\ created (ss_result s') = [].
Proof.
  destruct (syncHarnessToWorkgraph "p" demo_tasks emptyGraph []) as [s|e] eqn:E; [|discriminate E].
  assert (Hn : NoDup (t_id <$> demo_tasks)) by (apply (bool_decide_eq_true_1 (NoDup (t_id <$> demo_tasks))); vm_compute; reflexivity).
  assert (Hk : bound_known "p" emptyGraph []) by (intros h id [=]).
  destruct (sync_settles_once "p" demo_tasks emptyGraph [] s Hn Hk E) as (Hs & _ & s' & E' & _ & _ & Hc & _).
  exists s, s'. split; [reflexivity|]. split; [injection E as <-; vm_compute; reflexivity|].
  split; [apply Hs; left|]. split; [exact E'|exact Hc].
Defined.

Lemma reconcile_repeats_creations_witness :
  exists s s' out', reconcileHarnessWorkgraph "p" [] [demo_created] demo_issue [] = Ok (s, [OutCreate "wg-0" "by hand"]) /\
    reconcileHarnessWorkgraph "p" [] [demo_created] (ss_wg s) (ss_map s) = Ok (s', out') /\
    OutCreate "wg-0" "by hand" ∈ out'.
Proof.
  destruct (reconcile_repeats_creations "p" [] [demo_created] demo_issue []
    {| ss_wg := demo_issue; ss_map := []; ss_result := emptyResult |} [OutCreate "wg-0" "by hand"]
    "wg-0" "by hand") as (s' & out' & E & H).
  - apply NoDup_nil_2.
  - intros h id [=].
  - vm_compute. reflexivity.
  - left.
  - exists {| ss_wg := demo_issue; ss_map := []; ss_result := emptyResult |}, s', out'.
    split; [vm_compute; reflexivity|]. split; [exact E|exact H].
Defined.
