(* ===== verification/JsonText.v ===== *)
(** * JSON text and Node's byte encodings

    What the durable modules use of the language and of Node: the order of an
    object's own properties, [JSON.parse] (inverse to [Json.stringify]), and
    the base64 encoding of a [Buffer].  Numbers are integers and characters
    code units below 256, as in [Json]; a text denoting anything else is
    outside the model and refused. *)

From Stdlib Require Import Ascii String.
From stdpp Require Import base option list sets strings pretty.
From S2P Require Import Prelude Json.

(** ** Own properties: array indices first and ascending, then insertion order *)
Definition digit_value (c : ascii) : option N :=
  let n := nat_of_ascii c in
  if ((48 <=? n) && (n <=? 57))%nat then Some (N.of_nat (n - 48)) else None.
Fixpoint digits_value (acc : N) (s : string) : option N :=
  match s with
  | EmptyString => Some acc
  | String c s' => match digit_value c with Some d => digits_value (acc * 10 + d) s' | None => None end
  end.
Definition array_index (k : string) : option N :=
  match digits_value 0 k with
  | Some n => if (k =? pretty n)%string && (n <? 4294967295)%N then Some n else None
  | None => None
  end.
(** A new key [k] is enumerated before the existing key [k']. *)
Definition precedes (k k' : string) : bool :=
  match array_index k, array_index k' with
  | Some a, Some b => (a <? b)%N
  | Some _, None => true
  | None, _ => false
  end.

Section Own.
Context {V : Type}.
(** [o[k] = v], as a data property. *)
Fixpoint own_put (k : string) (v : V) (o : list (string * V)) : list (string * V) :=
  match o with
  | [] => [(k, v)]
  | kv :: o' =>
      if (k =? kv.1)%string then (k, v) :: o'
      else if precedes k kv.1 then (k, v) :: kv :: o'
      else kv :: own_put k v o'
  end.
Definition own_puts (l o : list (string * V)) : list (string * V) :=
  fold_left (fun o kv => own_put kv.1 kv.2 o) l o.
End Own.
(** Keys in the order an object enumerates them. *)
Fixpoint own_order (ks : list string) : bool :=
  match ks with
  | [] => true
  | k :: ks' => forallb (fun k' => negb (k' =? k)%string && negb (precedes k' k)) ks' && own_order ks'
  end.

Lemma own_put_fresh {V} k (v : V) o :
  forallb (fun k' => negb (k =? k')%string && negb (precedes k k')) o.*1 = true ->
  own_put k v o = o ++ [(k, v)].
Proof.
  induction o as [|[k' v'] o IH]; cbn; [done|]. intros H. reflect_bools.
  apply String.eqb_neq in H. rewrite H, H1. by rewrite IH.
Qed.
Lemma own_order_app ks k ks' :
  own_order (ks ++ k :: ks') = true -> forallb (fun k' => negb (k =? k')%string && negb (precedes k k')) ks = true.
Proof.
  induction ks as [|k0 ks IH]; cbn; [done|]. intros H. reflect_bools.
  rewrite forallb_app in H. cbn in H. reflect_bools. apply String.eqb_neq in H1.
  rewrite H1, H3, IH by done. done.
Qed.
Lemma own_puts_fresh {V} (l o : list (string * V)) :
  own_order (o.*1 ++ l.*1) = true -> own_puts l o = o ++ l.
Proof.
  revert o. induction l as [|[k v] l IH]; intros o Ho; [by rewrite app_nil_r|].
  cbn [own_puts fold_left fst snd]. fold (own_puts l (own_put k v o)).
  rewrite own_put_fresh by (eapply own_order_app; exact Ho).
  rewrite IH; [by rewrite <- app_assoc|]. rewrite fmap_app, <- app_assoc. exact Ho.
Qed.

(** ** [JSON.parse] *)
Definition is_ws (c : ascii) : bool :=
  let n := nat_of_ascii c in ((n =? 32) || (n =? 9) || (n =? 10) || (n =? 13))%nat.
Fixpoint skip_ws (s : string) : string :=
  match s with String c s' => if is_ws c then skip_ws s' else s | EmptyString => s end.
(** The rest after white space and the character [c]. *)
Definition next_is (c : ascii) (s : string) : option string :=
  match skip_ws s with String c' r => if Ascii.eqb c' c then Some r else None | EmptyString => None end.
Definition expect (p s : string) : option string :=
  (fix go p s := match p, s with
                 | EmptyString, _ => Some s
                 | String a p', String b s' => if Ascii.eqb a b then go p' s' else None
                 | _, EmptyString => None
                 end) p s.

Definition hex_value (c : ascii) : option nat :=
  let n := nat_of_ascii c in
  if ((48 <=? n) && (n <=? 57))%nat then Some (n - 48)%nat
  else if ((97 <=? n) && (n <=? 102))%nat then Some (n - 87)%nat
  else if ((65 <=? n) && (n <=? 70))%nat then Some (n - 55)%nat else None.
(** The character after a backslash, and the rest. *)
Definition unescape_char (s : string) : option (ascii * string) :=
  match s with
  | String c r =>
      if Ascii.eqb c QUOTE then Some (QUOTE, r)
      else if Ascii.eqb c "\" then Some ("\"%char, r)
      else if Ascii.eqb c "/" then Some ("/"%char, r)
      else if Ascii.eqb c "b" then Some ("008"%char, r)
      else if Ascii.eqb c "f" then Some ("012"%char, r)
      else if Ascii.eqb c "n" then Some ("010"%char, r)
      else if Ascii.eqb c "r" then Some ("013"%char, r)
      else if Ascii.eqb c "t" then Some ("009"%char, r)
      else if Ascii.eqb c "u" then
        match r with
        | String h1 (String h2 (String h3 (String h4 r'))) =>
            match hex_value h1, hex_value h2, hex_value h3, hex_value h4 with
            | Some O, Some O, Some a, Some b => Some (ascii_of_nat (16 * a + b), r')
            | _, _, _, _ => None
            end
        | _ => None
        end
      else None
  | EmptyString => None
  end.
(** The body of a string after its opening quote; [fuel] bounds its length. *)
Fixpoint parse_string (fuel : nat) (s : string) : option (string * string) :=
  match fuel with
  | O => None
  | S fuel' =>
      match s with
      | EmptyString => None
      | String c r =>
          if Ascii.eqb c QUOTE then Some ("", r)
          else if Ascii.eqb c "\" then
            match unescape_char r with
            | Some (a, r') => match parse_string fuel' r' with
                              | Some (b, r'') => Some (String a b, r'') | None => None end
            | None => None
            end
          else if (nat_of_ascii c <? 32)%nat then None
          else match parse_string fuel' r with
               | Some (b, r') => Some (String c b, r') | None => None end
      end
  end.

(** The longest run of digits, and the rest. *)
Fixpoint span_digits (s : string) : string * string :=
  match s with
  | String c s' => match digit_value c with
                   | Some _ => let '(a, b) := span_digits s' in (String c a, b)
                   | None => ("", s)
                   end
  | EmptyString => ("", "")
  end.
Definition fractional (r : string) : bool :=
  match r with String c _ => Ascii.eqb c "." || Ascii.eqb c "e" || Ascii.eqb c "E" | _ => false end.
Definition parse_nat (s : string) : option (N * string) :=
  let '(ds, r) := span_digits s in
  match ds, digits_value 0 ds with
  | EmptyString, _ => None
  | String c (String _ _), Some n =>
      if Ascii.eqb c "0" || fractional r then None else Some (n, r)
  | _, Some n => if fractional r then None else Some (n, r)
  | _, None => None
  end.
Definition parse_number (s : string) : option (Z * string) :=
  match expect "-" s with
  | Some r => (fun nr => (Z.opp (Z.of_N nr.1), nr.2)) <$> parse_nat r
  | None => (fun nr => (Z.of_N nr.1, nr.2)) <$> parse_nat s
  end.

Fixpoint parse_value (fuel : nat) (s : string) : option (Json * string) :=
  match fuel with
  | O => None
  | S f =>
      let s := skip_ws s in
      match s with
      | EmptyString => None
      | String c r =>
          if Ascii.eqb c "n" then (fun r => (JNull, r)) <$> expect "ull" r
          else if Ascii.eqb c "t" then (fun r => (JBool true, r)) <$> expect "rue" r
          else if Ascii.eqb c "f" then (fun r => (JBool false, r)) <$> expect "alse" r
          else if Ascii.eqb c QUOTE then
            (fun br => (JStr br.1, br.2)) <$> parse_string (S (String.length r)) r
          else if Ascii.eqb c "[" then
            match next_is "]" r with
            | Some r' => Some (JArr [], r')
            | None => (fun lr => (JArr lr.1, lr.2)) <$> parse_elements f r
            end
          else if Ascii.eqb c "{" then
            match next_is "}" r with
            | Some r' => Some (JObj [], r')
            | None => (fun lr => (JObj (own_puts lr.1 []), lr.2)) <$> parse_members f r
            end
          else (fun nr => (JNum nr.1, nr.2)) <$> parse_number s
      end
  end
with parse_elements (fuel : nat) (s : string) : option (list Json * string) :=
  match fuel with
  | O => None
  | S f =>
      match parse_value f s with
      | None => None
      | Some (v, r) =>
          match next_is "]" r with
          | Some r' => Some ([v], r')
          | None => match next_is "," r with
                    | Some r' => (fun lr => (v :: lr.1, lr.2)) <$> parse_elements f r'
                    | None => None
                    end
          end
      end
  end
with parse_members (fuel : nat) (s : string) : option (list (string * Json) * string) :=
  match fuel with
  | O => None
  | S f =>
      match next_is QUOTE s with
      | None => None
      | Some r =>
          match parse_string (S (String.length r)) r with
          | None => None
          | Some (k, r') =>
              match next_is ":" r' with
              | None => None
              | Some r'' =>
                  match parse_value f r'' with
                  | None => None
                  | Some (v, q) =>
                      match next_is "}" q with
                      | Some q' => Some ([(k, v)], q')
                      | None => match next_is "," q with
                                | Some q' => (fun lr => ((k, v) :: lr.1, lr.2)) <$> parse_members f q'
                                | None => None
                                end
                      end
                  end
              end
          end
      end
  end.
(** [None] is a [SyntaxError].  Each level of nesting takes two units of fuel
    and at least one character. *)
Definition parseJson (s : string) : option Json :=
  match parse_value (2 * S (String.length s)) s with
  | Some (v, r) => match skip_ws r with EmptyString => Some v | _ => None end
  | None => None
  end.

(** ** [parse] inverts [stringify] *)

(** Every object enumerates its keys in the order objects have. *)
Fixpoint json_ok (v : Json) : bool :=
  match v with
  | JArr l => forallb json_ok l
  | JObj o => own_order o.*1 && forallb (fun kv => json_ok kv.2) o
  | _ => true
  end.

Lemma parse_string_escape c f t :
  parse_string (S f) (escape c +:+ t) =
  match parse_string f t with Some (b, r) => Some (String c b, r) | None => None end.
Proof. destruct c as [[] [] [] [] [] [] [] []]; reflexivity. Qed.
Lemma parse_string_escapes s r f :
  String.length s < f -> parse_string f (escapes s +:+ String QUOTE r) = Some (s, r).
Proof.
  revert f. induction s as [|c s IH]; intros [|f] Hf; cbn [String.length] in Hf; [lia|done|lia|].
  cbn [escapes]. rewrite string_app_assoc, parse_string_escape, IH by lia. done.
Qed.
Lemma escape_length c : 1 <= String.length (escape c).
Proof. apply Nat.leb_le. destruct c as [[] [] [] [] [] [] [] []]; reflexivity. Qed.
Lemma escapes_length s : String.length s <= String.length (escapes s).
Proof.
  induction s as [|c s IH]; cbn [escapes String.length]; [lia|].
  rewrite string_app_length. pose proof (escape_length c). lia.
Qed.
Lemma parse_quoted s r :
  parse_string (S (String.length (escapes s +:+ String QUOTE r))) (escapes s +:+ String QUOTE r) = Some (s, r).
Proof.
  apply parse_string_escapes. rewrite string_app_length. pose proof (escapes_length s). lia.
Qed.

(** Numbers *)
Fixpoint all_digits (s : string) : bool :=
  match s with
  | String c s' => match digit_value c with Some _ => all_digits s' | None => false end
  | EmptyString => true
  end.
Lemma digit_value_pretty d : (d < 10)%N -> digit_value (pretty_N_char d) = Some d.
Proof.
  intros H. assert (d = 0 \/ d = 1 \/ d = 2 \/ d = 3 \/ d = 4 \/ d = 5 \/ d = 6 \/ d = 7 \/ d = 8 \/ d = 9)%N
    as Hd by lia. by repeat destruct Hd as [-> |Hd]; [..|subst d].
Qed.
Lemma digits_value_pretty_go n s : digits_value 0 (pretty_N_go n s) = digits_value n s.
Proof.
  revert s. induction (N.lt_wf_0 n) as [n _ IH]; intros s. destruct (decide (0 < n)%N) as [Hn|Hn].
  - rewrite pretty_N_go_step by done. rewrite IH by (by apply N.div_lt). cbn [digits_value].
    rewrite digit_value_pretty by (by apply N.mod_lt). f_equal. rewrite N.mul_comm. symmetry. by apply N.div_mod.
  - assert (n = 0%N) as -> by lia. by rewrite pretty_N_go_0.
Qed.
Lemma pretty_go_digits n s : all_digits s = true -> all_digits (pretty_N_go n s) = true.
Proof.
  revert s. induction (N.lt_wf_0 n) as [n _ IH]; intros s Hs. destruct (decide (0 < n)%N) as [Hn|Hn].
  - rewrite pretty_N_go_step by done. apply IH; [by apply N.div_lt|]. cbn [all_digits].
    by rewrite digit_value_pretty by (by apply N.mod_lt).
  - assert (n = 0%N) as -> by lia. by rewrite pretty_N_go_0.
Qed.
Lemma pretty_go_head n s : (0 < n)%N -> exists c t, pretty_N_go n s = String c t /\ c <> "0"%char.
Proof.
  revert s. induction (N.lt_wf_0 n) as [n _ IH]; intros s Hn. rewrite pretty_N_go_step by done.
  destruct (decide (0 < n / 10)%N) as [Hd|Hd]; [apply IH; [by apply N.div_lt|done]|].
  assert (n / 10 = 0)%N as Ez by (by apply N.le_0_r, N.nlt_ge). rewrite Ez, pretty_N_go_0. eexists _, _. split; [reflexivity|].
  apply N.div_small_iff in Ez; [|done]. rewrite N.mod_small by done. intros E.
  pose proof (digit_value_pretty n Ez) as H. rewrite E in H. injection H as H. lia.
Qed.
Lemma span_digits_app s r :
  all_digits s = true -> starts_num r = false -> span_digits (s +:+ r) = (s, r).
Proof.
  induction s as [|c s IH]; cbn.
  - intros _ Hr. destruct r as [|c r]; [done|]. cbn in Hr |- *. unfold num_char in Hr. unfold digit_value.
    apply orb_false_iff in Hr as [_ ->]. done.
  - destruct (digit_value c); [|done]. intros Hs Hr. by rewrite IH.
Qed.
Lemma stops_fractional r : stops r -> fractional r = false.
Proof. destruct r; cbn; [done|]. by intros [-> |[-> | ->]]. Qed.
Lemma parse_nat_pretty (n : N) r : stops r -> parse_nat (pretty n +:+ r) = Some (n, r).
Proof.
  intros Hr. unfold parse_nat. destruct (decide (n = 0%N)) as [-> |Hn].
  - change (pretty 0%N) with "0". rewrite span_digits_app; [|done|by apply stops_num].
    cbn. by rewrite stops_fractional.
  - assert (pretty n = pretty_N_go n "") as -> by (unfold pretty, pretty_N; by case_decide).
    rewrite span_digits_app; [|by apply pretty_go_digits|by apply stops_num].
    pose proof (digits_value_pretty_go n "") as Hv. cbn [digits_value] in Hv.
    destruct (pretty_go_head n "") as (c & t & E & Hc); [lia|]. rewrite E in *.
    apply Ascii.eqb_neq in Hc. destruct t; by rewrite Hv, stops_fractional, ?Hc.
Qed.
Lemma expect_char a c t : expect (String a "") (String c t) = if Ascii.eqb a c then Some t else None.
Proof. done. Qed.
Lemma parse_nat_minus r : parse_nat (String "-" r) = None.
Proof. done. Qed.
Lemma parse_number_pretty (n : Z) r : stops r -> parse_number (pretty n +:+ r) = Some (n, r).
Proof.
  intros Hr. unfold parse_number. destruct n as [|p|p].
  - change (pretty 0%Z) with (pretty 0%N). rewrite parse_nat_pretty by done. done.
  - change (pretty (Zpos p)) with (pretty (Npos p)). rewrite parse_nat_pretty by done.
    destruct (expect "-" (pretty (Npos p) +:+ r)) as [r'|] eqn:E; [|done]. exfalso.
    pose proof (parse_nat_pretty (Npos p) r Hr) as H.
    destruct (pretty (Npos p) +:+ r) as [|c t]; [done|]. rewrite expect_char in E.
    destruct ("-" =? c)%char eqn:Ec; [|done]. apply Ascii.eqb_eq in Ec as <-. by rewrite parse_nat_minus in H.
  - change (pretty (Zneg p)) with (String "-" (pretty (Npos p))). cbn [String.append].
    cbn [expect Ascii.eqb Bool.eqb]. by rewrite parse_nat_pretty.
Qed.

(** Values *)
Lemma skip_ws_tag c t : tag_of_char c <> None -> skip_ws (String c t) = String c t.
Proof.
  cbn [skip_ws]. destruct (is_ws c) eqn:E; [|done]. intros H. destruct H.
  unfold is_ws in E. rewrite !orb_true_iff, !Nat.eqb_eq in E.
  destruct E as [[[E|E]|E]|E]; rewrite <- (ascii_nat_embedding c), E; done.
Qed.
Lemma skip_ws_stringify v r : skip_ws (stringify v +:+ r) = stringify v +:+ r.
Proof.
  destruct (stringify_tag v) as (c & t & -> & Hc). cbn [String.append]. apply skip_ws_tag. by rewrite Hc.
Qed.
Lemma next_is_eq c r : is_ws c = false -> next_is c (String c r) = Some r.
Proof. intros H. unfold next_is. cbn. by rewrite H, Ascii.eqb_refl. Qed.
Lemma next_is_ne c c' r : is_ws c' = false -> c' <> c -> next_is c (String c' r) = None.
Proof. intros H Hne. unfold next_is. cbn. apply Ascii.eqb_neq in Hne. by rewrite H, Hne. Qed.
Lemma next_is_stringify c v r : tag_of_char c = None -> next_is c (stringify v +:+ r) = None.
Proof.
  intros Hc. unfold next_is. rewrite skip_ws_stringify. destruct (stringify_tag v) as (c' & t & -> & Ht).
  cbn. destruct (Ascii.eqb_spec c' c) as [<-|]; [congruence|done].
Qed.

Fixpoint fuel_of (v : Json) : nat :=
  match v with
  | JArr l => S (foldr (fun x n => S (fuel_of x `max` n)) 0 l)
  | JObj o => S (foldr (fun kv n => S (fuel_of kv.2 `max` n)) 0 o)
  | _ => 1
  end.

Definition parses (v : Json) : Prop :=
  forall f r, json_ok v = true -> fuel_of v <= f -> stops r -> parse_value f (stringify v +:+ r) = Some (v, r).

Lemma parse_elements_items l : forall x f r,
  parses x -> Forall parses l -> forallb json_ok (x :: l) = true ->
  foldr (fun x n => S (fuel_of x `max` n)) 0 (x :: l) <= f ->
  parse_elements f (join_with "," (List.map stringify (x :: l)) +:+ String "]" r) = Some (x :: l, r).
Proof.
  induction l as [|y l IH]; intros x [|f] r Hx Hl Hok Hf; cbn [foldr] in Hf; try lia;
    cbn [forallb] in Hok; apply andb_true_iff in Hok as [Hox Hok]; cbn [parse_elements].
  - cbn [List.map join_with]. rewrite Hx; [|done|lia|cbn; auto]. by rewrite next_is_eq.
  - cbn [List.map]. rewrite join_with_cons by done. rewrite !string_app_assoc.
    change ("," +:+ ?a) with (String "," a).
    rewrite Hx; [|done|lia|cbn; auto]. rewrite next_is_ne, next_is_eq by done.
    apply Forall_cons in Hl as [Hy Hl].
    change (stringify y :: List.map stringify l) with (List.map stringify (y :: l)).
    rewrite IH; [done|done..|]. cbn [foldr]. lia.
Qed.
Lemma parse_member (k : string) (v : Json) f r :
  parses v -> json_ok v = true -> fuel_of v <= f -> stops r ->
  parse_members (S f) (field (k, stringify v) +:+ r) =
  match next_is "}" r with
  | Some q => Some ([(k, v)], q)
  | None => match next_is "," r with
            | Some q => (fun lr => ((k, v) :: lr.1, lr.2)) <$> parse_members f q
            | None => None
            end
  end.
Proof.
  intros Hv Hok Hf Hr. unfold field, quoteJson. cbn [fst snd]. cbn [String.append]. rewrite !string_app_assoc.
  cbn [String.append]. cbn [parse_members]. rewrite next_is_eq by done.
  rewrite parse_quoted. rewrite next_is_eq by done. by rewrite Hv.
Qed.
Lemma parse_members_items o : forall k x f r,
  parses x -> Forall (fun kv => parses kv.2) o -> forallb (fun kv => json_ok kv.2) ((k, x) :: o) = true ->
  foldr (fun kv n => S (fuel_of kv.2 `max` n)) 0 ((k, x) :: o) <= f ->
  parse_members f (join_with "," (List.map (fun kv => field (kv.1, stringify kv.2)) ((k, x) :: o)) +:+ String "}" r)
  = Some ((k, x) :: o, r).
Proof.
  induction o as [|[k' y] o IH]; intros k x [|f] r Hx Hl Hok Hf; cbn [foldr snd] in Hf; try lia;
    cbn [forallb snd] in Hok; apply andb_true_iff in Hok as [Hox Hok].
  - cbn [List.map join_with fst snd]. rewrite parse_member; [|done|done|lia|cbn; auto]. by rewrite next_is_eq.
  - cbn [List.map]. rewrite join_with_cons by done. rewrite !string_app_assoc.
    change ("," +:+ ?a) with (String "," a). cbn [fst snd].
    rewrite parse_member; [|done|done|lia|cbn; auto]. rewrite next_is_ne, next_is_eq by done.
    apply Forall_cons in Hl as [Hy Hl]. cbn [snd] in Hy.
    change (field (k', stringify y) :: List.map (fun kv => field (kv.1, stringify kv.2)) o)
      with (List.map (fun kv => field (kv.1, stringify kv.2)) ((k', y) :: o)).
    rewrite IH; [done|done..|]. cbn [foldr snd]. lia.
Qed.

(** One level of [parse_value], by the tag of the text. *)
Lemma parse_value_num f (n : Z) r : stops r -> parse_value (S f) (pretty n +:+ r) = Some (JNum n, r).
Proof.
  intros Hr. pose proof (parse_number_pretty n r Hr) as Hp.
  destruct (stringify_tag (JNum n)) as (c & t & E & Hc). cbn in E. rewrite E in *. cbn [String.append] in *.
  cbn [parse_value]. rewrite skip_ws_tag by congruence. unfold tag_of_char in Hc.
  destruct (Ascii.eqb c "n"), (Ascii.eqb c "t"), (Ascii.eqb c "f"), (Ascii.eqb c QUOTE), (Ascii.eqb c "["),
    (Ascii.eqb c "{"); try done. by rewrite Hp.
Qed.

Lemma stringify_parses v : parses v.
Proof.
  induction v as [| [] |n|s|l IH|o IH] using Json_nested_ind; intros [|f] r Hok Hf Hr;
    try (cbn in Hf; lia); [done..| | | |].
  - by apply parse_value_num.
  - cbn [stringify]. unfold quoteJson. cbn [String.append]. rewrite string_app_assoc. cbn [String.append].
    cbn [parse_value]. cbn [skip_ws is_ws]. change (is_ws QUOTE) with false. cbn [Ascii.eqb Bool.eqb].
    change (Ascii.eqb QUOTE QUOTE) with true. cbn match. by rewrite parse_quoted.
  - cbn [stringify]. unfold printArr. rewrite !string_app_assoc. cbn [String.append].
    cbn [parse_value]. cbn [json_ok] in Hok. cbn [fuel_of] in Hf.
    change (skip_ws (String "[" ?x)) with (String "[" x). cbn match.
    destruct l as [|x l]; [done|].
    assert (next_is "]" (join_with "," (List.map stringify (x :: l)) +:+ String "]" r) = None) as ->.
    { destruct l; cbn [List.map]; [|rewrite join_with_cons, string_app_assoc by done];
        by apply next_is_stringify. }
    apply Forall_cons in IH as [Hx IH]. rewrite (parse_elements_items l); [done|done..|lia].
  - cbn [stringify]. unfold printObj. rewrite !string_app_assoc, !List.map_map. cbn [String.append fst snd].
    cbn [parse_value]. cbn [json_ok] in Hok. cbn [fuel_of] in Hf. apply andb_true_iff in Hok as [Ho Hok].
    change (skip_ws (String "{" ?x)) with (String "{" x). cbn match.
    destruct o as [|[k x] o]; [done|].
    assert (forall u, next_is "}" (join_with "," (List.map (fun kv => field (kv.1, stringify kv.2)) ((k, x) :: o)) +:+ u) = None) as ->.
    { intros u. destruct o; cbn [List.map]; [|rewrite join_with_cons, string_app_assoc by done]; done. }
    apply Forall_cons in IH as [Hx IH]. rewrite (parse_members_items o); [|done..|lia].
    cbn [fmap option_fmap option_map fst snd]. by rewrite own_puts_fresh.
Qed.

(** The fuel of [parseJson] covers any text. *)
Lemma fuel_length v : S (fuel_of v) <= 2 * String.length (stringify v).
Proof.
  assert (forall (A : Type) (pr : A -> string) (g : A -> nat) (l : list A),
    Forall (fun x => S (g x) <= 2 * String.length (pr x)) l ->
    foldr (fun x n => S (g x `max` n)) 0 l <= 2 * String.length (join_with "," (List.map pr l))) as Hl.
  { intros A pr g l. induction 1 as [|x l Hx _ IH]; cbn [foldr List.map]; [lia|].
    destruct l as [|y l]; [cbn in *; lia|].
    rewrite join_with_cons, !string_app_length by done. change (String.length ",") with 1. lia. }
  induction v as [| [] |n|s|l IH|o IH] using Json_nested_ind; cbn [fuel_of stringify]; try (cbn; lia).
  - pose proof (pretty_Z_nonempty n). destruct (pretty n); [done|cbn; lia].
  - unfold printArr. rewrite !string_app_length. specialize (Hl _ _ _ _ IH).
    change (String.length "[") with 1. change (String.length "]") with 1. lia.
  - unfold printObj. rewrite !string_app_length, List.map_map.
    specialize (Hl _ (fun kv => field (kv.1, stringify kv.2)) (fun kv => fuel_of kv.2) o). cbn [fst snd].
    assert (foldr (fun kv n => S (fuel_of kv.2 `max` n)) 0 o
      <= 2 * String.length (join_with "," (List.map (fun kv => field (kv.1, stringify kv.2)) o)));
      [|change (String.length "{") with 1; change (String.length "}") with 1; lia].
    apply Hl. eapply Forall_impl; [exact IH|]. intros [k x] Hx. unfold field. cbn [fst snd] in *.
    rewrite !string_app_length. lia.
Qed.

Lemma parse_stringify v : json_ok v = true -> parseJson (stringify v) = Some v.
Proof.
  intros Hok. unfold parseJson. rewrite <- (string_app_nil_r (stringify v)) at 2.
  rewrite stringify_parses; [done|done| |exact I]. pose proof (fuel_length v). lia.
Qed.

(** ** Objects with their keys sorted, then enumerated *)
Lemma precedes_trans a b c : precedes a b = true -> precedes b c = true -> precedes a c = true.
Proof.
  unfold precedes. destruct (array_index a), (array_index b), (array_index c); try done.
  rewrite !N.ltb_lt. lia.
Qed.
Section OwnFacts.
Context {V : Type}.
Implicit Type o l : list (string * V).

Lemma own_put_keys k v o x : x ∈ (own_put k v o).*1 <-> x = k \/ x ∈ o.*1.
Proof.
  induction o as [|[k' v'] o IH]; cbn; [set_solver|].
  destruct (String.eqb_spec k k') as [->|]; [cbn; set_solver|].
  destruct (precedes k k'); cbn; [set_solver|]. rewrite !elem_of_cons, IH. naive_solver.
Qed.
Lemma own_put_order k v o : own_order o.*1 = true -> own_order (own_put k v o).*1 = true.
Proof.
  induction o as [|[k' v'] o IH]; [done|]. cbn [fmap list_fmap own_order own_put fst].
  intros (Hf & Ho)%andb_true_iff. rewrite forallb_forall in Hf.
  destruct (String.eqb_spec k k') as [->|Hne].
  - cbn. rewrite Ho, andb_true_r. by apply forallb_forall.
  - destruct (precedes k k') eqn:Hp; cbn [fmap list_fmap own_order fst].
    + rewrite Ho, andb_true_r. apply andb_true_iff. split; [|by apply forallb_forall].
      apply forallb_forall. intros x [<-|Hx].
      * apply String.eqb_neq in Hne. rewrite String.eqb_sym, Hne. cbn. apply negb_true_iff, not_true_iff_false.
        unfold precedes in *. destruct (array_index k), (array_index k'); try done. rewrite N.ltb_lt in *. lia.
      * specialize (Hf x Hx). reflect_bools. apply andb_true_iff. split; apply negb_true_iff.
        -- apply String.eqb_neq. intros ->. congruence.
        -- apply not_true_iff_false. intros Hxk. by rewrite (precedes_trans _ _ _ Hxk Hp) in H0.
    + rewrite IH, andb_true_r by done. apply forallb_forall. intros x Hx%list_elem_of_In.
      apply own_put_keys in Hx as [->|Hx%list_elem_of_In]; [|by apply Hf].
      apply String.eqb_neq in Hne. by rewrite Hne, Hp.
Qed.
Lemma own_puts_order l o : own_order o.*1 = true -> own_order (own_puts l o).*1 = true.
Proof.
  revert o. induction l as [|kv l IH]; intros o Ho; [done|]. cbn. by apply IH, own_put_order.
Qed.
Lemma own_put_perm k v o : k ∉ o.*1 -> own_put k v o ≡ₚ (k, v) :: o.
Proof.
  induction o as [|[k' v'] o IH]; cbn; [done|]. rewrite not_elem_of_cons. intros [Hne Hk].
  apply String.eqb_neq in Hne. rewrite Hne. destruct (precedes k k'); [done|].
  rewrite IH by done. by rewrite Permutation_swap.
Qed.
Lemma own_puts_perm l o : NoDup (o.*1 ++ l.*1) -> own_puts l o ≡ₚ o ++ l.
Proof.
  revert o. induction l as [|[k v] l IH]; intros o Hn; [by rewrite app_nil_r|].
  cbn [own_puts fold_left fst snd]. fold (own_puts l (own_put k v o)). cbn in Hn.
  assert (k ∉ o.*1) as Hk by (apply NoDup_app in Hn as (_ & Hd & _); intros H; apply (Hd k H); left).
  rewrite IH; rewrite own_put_perm by done; [by rewrite <- Permutation_middle|].
  cbn. by rewrite Permutation_middle.
Qed.

Definition sorted_own o : list (string * V) := own_puts (stable_sort key_le o) [].
Lemma sorted_own_order o : own_order (sorted_own o).*1 = true.
Proof. by apply own_puts_order. Qed.
Lemma sorted_own_perm o : NoDup o.*1 -> sorted_own o ≡ₚ o.
Proof.
  intros Hn. unfold sorted_own. rewrite own_puts_perm; [by rewrite stable_sort_perm|].
  cbn. by rewrite stable_sort_perm.
Qed.
Lemma obj_get_perm k l o : NoDup o.*1 -> l ≡ₚ o -> obj_get k l = obj_get k o.
Proof.
  intros Hn Hp. assert (Hl : NoDup (obj_keys l)) by (unfold obj_keys; by rewrite Hp).
  apply option_eq. intros v. split; intros H%obj_get_elem; apply elem_obj_get; try done.
  - by rewrite <- Hp.
  - by rewrite Hp.
Qed.
(** Sorting forgets the order of the fields. *)
Lemma sorted_own_perm_eq l o : NoDup o.*1 -> l ≡ₚ o -> sorted_own l = sorted_own o.
Proof.
  intros Hn Hp. unfold sorted_own. f_equal. apply stable_sort_perm_eq; [by intros ? ? ?%leb_total|intros ???; apply leb_trans| |done].
  intros [k1 v1] [k2 v2] H1 H2 L1 L2. unfold key_le in *. cbn in *.
  assert (k1 = k2) as -> by by apply String.leb_antisym. rewrite Hp in H1, H2.
  apply elem_obj_get in H1, H2; [|done..]. congruence.
Qed.
End OwnFacts.

Lemma own_put_map {A B} (f : A -> B) k v (o : list (string * A)) :
  own_put k (f v) (List.map (fun kv => (kv.1, f kv.2)) o) = List.map (fun kv => (kv.1, f kv.2)) (own_put k v o).
Proof. induction o as [|[k' v'] o IH]; cbn; [done|]. repeat case_match; cbn; congruence. Qed.
Lemma own_puts_map {A B} (f : A -> B) (l o : list (string * A)) :
  own_puts (List.map (fun kv => (kv.1, f kv.2)) l) (List.map (fun kv => (kv.1, f kv.2)) o)
  = List.map (fun kv => (kv.1, f kv.2)) (own_puts l o).
Proof.
  revert o. induction l as [|[k v] l IH]; intros o; cbn; [done|]. rewrite own_put_map. apply IH.
Qed.
Lemma sorted_own_map {A B} (f : A -> B) (o : list (string * A)) :
  sorted_own (List.map (fun kv => (kv.1, f kv.2)) o) = List.map (fun kv => (kv.1, f kv.2)) (sorted_own o).
Proof. unfold sorted_own. rewrite stable_sort_map. by rewrite <- own_puts_map. Qed.
Lemma map_keys {A B} (f : A -> B) (o : list (string * A)) : (List.map (fun kv => (kv.1, f kv.2)) o).*1 = o.*1.
Proof. induction o as [|[k v] o IH]; cbn; congruence. Qed.
Lemma obj_get_map {A B} (f : A -> B) k (o : list (string * A)) :
  obj_get k (List.map (fun kv => (kv.1, f kv.2)) o) = f <$> obj_get k o.
Proof. induction o as [|[k' v'] o IH]; cbn; [done|]. by case_match. Qed.
