(* ===== verification/CanonicalJson.v ===== *)
(** * Canonical JSON and run ids ([src/src/runtime/durable/canonical_json.ts], [run_id.ts])

    Values as trees without identity (so no cycles): functions and symbols are
    one opaque constructor, a number is an integer or not finite, a date is its
    ISO string unless invalid, bytes are a string of characters below 256.
    Prototype assignment through a [__proto__] key leaves no own property;
    [toJSON] methods of plain objects are left out. *)

From Stdlib Require Import Ascii String Permutation Sorted.
From stdpp Require Import base option list sets strings pretty.
From S2P Require Import Prelude Json JsonText.
#[local] Open Scope os_scope.

(** ** Base64, as [Buffer] encodes and decodes it *)
Inductive Sextet := Sx (b5 b4 b3 b2 b1 b0 : bool).
Definition sextet_nat (x : Sextet) : nat :=
  let '(Sx a b c d e f) := x in
  (32 * Nat.b2n a + 16 * Nat.b2n b + 8 * Nat.b2n c + 4 * Nat.b2n d + 2 * Nat.b2n e + Nat.b2n f)%nat.
Definition nat_sextet (n : nat) : Sextet :=
  Sx (Nat.testbit n 5) (Nat.testbit n 4) (Nat.testbit n 3) (Nat.testbit n 2) (Nat.testbit n 1) (Nat.testbit n 0).
Definition sextet_char (x : Sextet) : ascii :=
  default "="%char
    (String.get (sextet_nat x) "ABCDEFGHIJKLMNOPQRSTUVWXYZabcdefghijklmnopqrstuvwxyz0123456789+/").
(** Both alphabets are accepted. *)
Definition char_sextet (c : ascii) : option Sextet :=
  let n := nat_of_ascii c in
  let in_range lo hi := ((lo <=? n) && (n <=? hi))%nat in
  if in_range 65 90 then Some (nat_sextet (n - 65))
  else if in_range 97 122 then Some (nat_sextet (n - 71))
  else if in_range 48 57 then Some (nat_sextet (n + 4))
  else if Ascii.eqb c "+" || Ascii.eqb c "-" then Some (nat_sextet 62)
  else if Ascii.eqb c "/" || Ascii.eqb c "_" then Some (nat_sextet 63)
  else None.

Fixpoint base64_encode (b : string) : string :=
  match b with
  | EmptyString => ""
  | String (Ascii a0 a1 a2 a3 a4 a5 a6 a7) r =>
      let x1 := sextet_char (Sx a7 a6 a5 a4 a3 a2) in
      match r with
      | EmptyString => String x1 (String (sextet_char (Sx a1 a0 false false false false)) "==")
      | String (Ascii b0 b1 b2 b3 b4 b5 b6 b7) r' =>
          let x2 := sextet_char (Sx a1 a0 b7 b6 b5 b4) in
          match r' with
          | EmptyString => String x1 (String x2 (String (sextet_char (Sx b3 b2 b1 b0 false false)) "="))
          | String (Ascii c0 c1 c2 c3 c4 c5 c6 c7) r'' =>
              String x1 (String x2 (String (sextet_char (Sx b3 b2 b1 b0 c7 c6))
                (String (sextet_char (Sx c5 c4 c3 c2 c1 c0)) (base64_encode r''))))
          end
      end
  end.
(** The sextets up to the padding; other characters are skipped. *)
Fixpoint sextets (s : string) : list Sextet :=
  match s with
  | EmptyString => []
  | String c r =>
      if Ascii.eqb c "=" then []
      else match char_sextet c with Some x => x :: sextets r | None => sextets r end
  end.
Fixpoint octets (l : list Sextet) : string :=
  match l with
  | Sx a7 a6 a5 a4 a3 a2 :: Sx a1 a0 b7 b6 b5 b4 :: l' =>
      String (Ascii a0 a1 a2 a3 a4 a5 a6 a7)
        match l' with
        | Sx b3 b2 b1 b0 c7 c6 :: l'' =>
            String (Ascii b0 b1 b2 b3 b4 b5 b6 b7)
              match l'' with
              | Sx c5 c4 c3 c2 c1 c0 :: l''' => String (Ascii c0 c1 c2 c3 c4 c5 c6 c7) (octets l''')
              | [] => ""
              end
        | [] => ""
        end
  | _ => ""
  end.
Definition base64_decode (s : string) : string := octets (sextets s).

Lemma sextets_char x r : sextets (String (sextet_char x) r) = x :: sextets r.
Proof. destruct x as [[] [] [] [] [] []]; reflexivity. Qed.
Lemma base64_decode_encode b : base64_decode (base64_encode b) = b.
Proof.
  unfold base64_decode. revert b.
  fix IH 1. intros [|[] [|[] [|[] rest]]]; [done|cbn [base64_encode]; rewrite !sextets_char; done..|].
  cbn [base64_encode]. rewrite !sextets_char. cbn [octets]. by rewrite IH.
Qed.

(** ** Values *)
Inductive JsValue :=
| JsUndef | JsNull
| JsBool (b : bool)
| JsNum (n : Z) | JsNaN | JsInfinity (negative : bool) | JsBigInt (n : Z)
| JsStr (s : string)
| JsFunction
| JsDate (iso : option string)
| JsBytes (b : string)
| JsArr (l : list JsValue)
| JsObj (o : list (string * JsValue)).

Definition is_atom (v : JsValue) : bool := match v with JsArr _ | JsObj _ => false | _ => true end.
Section JsInd.
Context (P : JsValue -> Prop) (Hatom : forall v, is_atom v = true -> P v)
  (Harr : forall l, Forall P l -> P (JsArr l))
  (Hobj : forall o, Forall (fun kv => P kv.2) o -> P (JsObj o)).
Fixpoint JsValue_nested_ind (v : JsValue) : P v :=
  match v with
  | JsArr l => Harr l ((fix go l : Forall P l :=
      match l with
      | [] => @List.Forall_nil _ P
      | x :: l' => @List.Forall_cons _ P x l' (JsValue_nested_ind x) (go l')
      end) l)
  | JsObj o => Hobj o ((fix go o : Forall (fun kv : string * JsValue => P kv.2) o :=
      match o with
      | [] => @List.Forall_nil _ (fun kv : string * JsValue => P kv.2)
      | kv :: o' =>
          @List.Forall_cons _ (fun kv : string * JsValue => P kv.2) kv o' (JsValue_nested_ind kv.2) (go o')
      end) o)
  | v => Hatom v eq_refl
  end.
End JsInd.

(** [o[k] = v]; assigning [__proto__] makes no own property. *)
Definition set_prop (k : string) (v : JsValue) (o : list (string * JsValue)) : list (string * JsValue) :=
  if (k =? "__proto__")%string then o else own_put k v o.
Definition set_props (l o : list (string * JsValue)) : list (string * JsValue) :=
  fold_left (fun o kv => set_prop kv.1 kv.2 o) l o.
Fixpoint map_ok {E A B} (f : A -> result E B) (l : list A) : result E (list B) :=
  match l with
  | [] => Ok []
  | x :: l' => y <-? f x ;; ys <-? map_ok f l' ;; Ok (y :: ys)
  end.

(** ** [JSON.stringify] and [JSON.parse] on values *)
Fixpoint json_of (v : JsValue) : result string (option Json) :=
  match v with
  | JsUndef | JsFunction => Ok None
  | JsNull | JsNaN | JsInfinity _ => Ok (Some JNull)
  | JsBool b => Ok (Some (JBool b))
  | JsNum n => Ok (Some (JNum n))
  | JsBigInt _ => Err "TypeError: Do not know how to serialize a BigInt"
  | JsStr s => Ok (Some (JStr s))
  | JsDate iso => Ok (Some match iso with Some s => JStr s | None => JNull end)
  | JsBytes b => Ok (Some (JObj [("type", JStr "Buffer");
      ("data", JArr (List.map (fun c => JNum (Z.of_nat (nat_of_ascii c))) (String.list_ascii_of_string b)))]))
  | JsArr l => l' <-? map_ok json_of l ;; Ok (Some (JArr (List.map (default JNull) l')))
  | JsObj o =>
      o' <-? map_ok (fun kv => j <-? json_of kv.2 ;; Ok (kv.1, j)) o ;;
      Ok (Some (JObj (omap (fun kv => (fun j => (kv.1, j)) <$> kv.2) o')))
  end.
Definition json_stringify (v : JsValue) : result string (option string) :=
  j <-? json_of v ;; Ok (stringify <$> j).
Fixpoint js_of (j : Json) : JsValue :=
  match j with
  | JNull => JsNull | JBool b => JsBool b | JNum n => JsNum n | JStr s => JsStr s
  | JArr l => JsArr (List.map js_of l)
  | JObj o => JsObj (List.map (fun kv => (kv.1, js_of kv.2)) o)
  end.
Definition json_parse (text : string) : result string JsValue :=
  match parseJson text with Some j => Ok (js_of j) | None => Err "SyntaxError" end.

(** ** The module *)
Definition isBase64Envelope (v : JsValue) : option string :=
  match v with
  | JsObj o =>
      match obj_get "__type" o, obj_get "data" o with
      | Some (JsStr t), Some (JsStr d) => if (t =? "base64")%string then Some d else None
      | _, _ => None
      end
  | _ => None
  end.
Definition envelope (b : string) : JsValue :=
  JsObj [("__type", JsStr "base64"); ("data", JsStr (base64_encode b))].

Definition is_undef (v : JsValue) : bool := match v with JsUndef => true | _ => false end.
(** The object's loop over its sorted keys, with each value and its canonical form. *)
Fixpoint canonical_fields (l : list (string * (JsValue * result string JsValue)))
    (out : list (string * JsValue)) : result string (list (string * JsValue)) :=
  match l with
  | [] => Ok out
  | (k, (v, c)) :: l' =>
      if is_undef v then canonical_fields l' out
      else x <-? c ;; canonical_fields l' (set_prop k x out)
  end.
Fixpoint canonicalize (value : JsValue) : result string JsValue :=
  match value with
  | JsDate iso => match iso with Some s => Ok (JsStr s) | None => Err "RangeError: Invalid time value" end
  | JsBytes b => Ok (envelope b)
  | JsArr l => l' <-? map_ok (fun v => if is_undef v then Ok JsNull else canonicalize v) l ;; Ok (JsArr l')
  | JsObj src =>
      out <-? canonical_fields
        (stable_sort key_le (List.map (fun kv => (kv.1, (kv.2, canonicalize kv.2))) src)) [] ;;
      Ok (JsObj out)
  | v => Ok v
  end.
(** [None] is the value [undefined]. *)
Definition canonicalJsonStringify (value : JsValue) : result string (option string) :=
  c <-? canonicalize value ;; json_stringify c.

Fixpoint revive (value : JsValue) : JsValue :=
  match value with
  | JsArr l => JsArr (List.map revive l)
  | JsObj src =>
      match isBase64Envelope value with
      | Some data => JsBytes (base64_decode data)
      | None => JsObj (set_props (List.map (fun kv => (kv.1, revive kv.2)) src) [])
      end
  | v => v
  end.
Definition canonicalJsonParse (text : string) : result string JsValue :=
  raw <-? json_parse text ;; Ok (revive raw).

(** ** Run ids *)
Record RunIdInput := {
  ri_pack : string; ri_skill : string; ri_ruleId : string; ri_eventKind : string;
  ri_eventPayload : JsValue;
}.
(** SHA-256 in lowercase hex; [update(undefined)] throws. *)
Definition sha_of (sha256Hex : string -> string) (text : option string) : result string string :=
  match text with Some s => Ok (sha256Hex s) | None => Err "TypeError: data must be a string" end.
Definition runIdFor (sha256Hex : string -> string) (input : RunIdInput) : result string string :=
  payload <-? canonicalJsonStringify (ri_eventPayload input) ;;
  eventHash <-? sha_of sha256Hex payload ;;
  identity <-? canonicalJsonStringify (JsObj
    [("pack", JsStr (ri_pack input)); ("skill", JsStr (ri_skill input)); ("ruleId", JsStr (ri_ruleId input));
     ("eventKind", JsStr (ri_eventKind input)); ("eventHash", JsStr eventHash)]) ;;
  sha_of sha256Hex identity.

(** ** Values that come back from storage *)

(** Plain data: no [undefined], function, date, bigint or non-finite number,
    distinct keys other than [__proto__], and no object that is itself shaped
    like the envelope. *)
Fixpoint plain (v : JsValue) : bool :=
  match v with
  | JsNull | JsBool _ | JsNum _ | JsStr _ | JsBytes _ => true
  | JsArr l => forallb plain l
  | JsObj o =>
      bool_decide (NoDup o.*1) && negb (set_has "__proto__" o.*1) &&
      bool_decide (isBase64Envelope v = None) && forallb (fun kv => plain kv.2) o
  | _ => false
  end.
(** The value with the keys of every object sorted (indices first). *)
Fixpoint canonical_order (v : JsValue) : JsValue :=
  match v with
  | JsArr l => JsArr (List.map canonical_order l)
  | JsObj o => JsObj (sorted_own (List.map (fun kv => (kv.1, canonical_order kv.2)) o))
  | v => v
  end.
(** The JSON value its text denotes. *)
Fixpoint encoding (v : JsValue) : Json :=
  match v with
  | JsBool b => JBool b | JsNum n => JNum n | JsStr s => JStr s
  | JsBytes b => JObj [("__type", JStr "base64"); ("data", JStr (base64_encode b))]
  | JsArr l => JArr (List.map encoding l)
  | JsObj o => JObj (sorted_own (List.map (fun kv => (kv.1, encoding kv.2)) o))
  | _ => JNull
  end.

Lemma map_ok_map {E A B C} (h : C -> A) (f : A -> result E B) (g : C -> B) l :
  Forall (fun x => f (h x) = Ok (g x)) l -> map_ok f (List.map h l) = Ok (List.map g l).
Proof. induction 1 as [|x l Hx _ IH]; cbn; [done|]. rewrite Hx. cbn. by rewrite IH. Qed.
Lemma forallb_Forall' {A} (f : A -> bool) l : forallb f l = true <-> Forall (fun x => f x = true) l.
Proof. rewrite forallb_forall, Forall_forall. by setoid_rewrite list_elem_of_In. Qed.
Lemma plain_obj o : plain (JsObj o) = true ->
  NoDup o.*1 /\ "__proto__" ∉ o.*1 /\ isBase64Envelope (JsObj o) = None /\ Forall (fun kv => plain kv.2 = true) o.
Proof.
  cbn [plain]. intros H. reflect_bools. split_and!; [done| |done|by apply forallb_Forall'].
  intros Hp%set_has_spec. congruence.
Qed.

Lemma json_of_js_of j : json_of (js_of j) = Ok (Some j).
Proof.
  induction j as [| | | |l IH|o IH] using Json_nested_ind; try done; cbn [js_of json_of].
  - rewrite (map_ok_map _ _ Some) by done. cbn. rewrite List.map_map. cbn. by rewrite List.map_id.
  - rewrite (map_ok_map _ _ (fun kv => (kv.1, Some kv.2))).
    + cbn. do 3 f_equal. clear IH. induction o as [|[k x] o IH]; cbn; [done|]. by rewrite IH.
    + eapply Forall_impl; [exact IH|]. cbn. intros [k x] Hx. cbn in *. by rewrite Hx.
Qed.

Lemma canonical_fields_plain {A} (val : A -> JsValue) (c : A -> JsValue) (l : list (string * A)) out :
  Forall (fun kv => is_undef (val kv.2) = false /\ canonicalize (val kv.2) = Ok (c kv.2) /\ kv.1 <> "__proto__") l ->
  canonical_fields (List.map (fun kv => (kv.1, (val kv.2, canonicalize (val kv.2)))) l) out =
  Ok (own_puts (List.map (fun kv => (kv.1, c kv.2)) l) out).
Proof.
  intros H. revert out. induction H as [|[k x] l (Hu & Hc & Hk) _ IH]; intros out; [done|]. cbn in *.
  rewrite Hu, Hc. cbn. rewrite IH. unfold set_prop. apply String.eqb_neq in Hk. by rewrite Hk.
Qed.
Lemma not_proto {A} (o : list (string * A)) : "__proto__" ∉ o.*1 -> Forall (fun kv => kv.1 <> "__proto__") o.
Proof.
  rewrite Forall_forall. intros H kv Hkv E. apply H. rewrite <- E. apply list_elem_of_fmap. by exists kv.
Qed.

Lemma canonicalize_plain v : plain v = true -> canonicalize v = Ok (js_of (encoding v)).
Proof.
  induction v as [v Hv|l IH|o IH] using JsValue_nested_ind; [by destruct v| |].
  - cbn [plain canonicalize encoding js_of]. intros Hp%forallb_Forall'.
    rewrite <- (List.map_id l) at 1. rewrite (map_ok_map _ _ (fun v => js_of (encoding v))).
    + cbn. by rewrite List.map_map.
    + rewrite Forall_forall in *. intros x Hx. destruct x; cbn [is_undef]; try (by apply IH; [|apply Hp]).
      by specialize (Hp _ Hx).
  - intros Hp. destruct (plain_obj _ Hp) as (_ & Hproto & _ & Hf). cbn [canonicalize encoding js_of].
    rewrite (stable_sort_map (fun v => (v, canonicalize v))).
    rewrite (canonical_fields_plain (fun v => v) (fun v => js_of (encoding v))).
    + cbn. do 2 f_equal. rewrite <- sorted_own_map, List.map_map. unfold sorted_own.
      cbn [fst snd]. by rewrite (stable_sort_map (fun v => js_of (encoding v))).
    + rewrite (stable_sort_perm key_le). apply not_proto in Hproto. rewrite !Forall_forall in *.
      intros [k x] Hx. specialize (Hf _ Hx). cbn in *. split_and!; [by destruct x| |by apply (Hproto _ Hx)].
      by apply (IH _ Hx).
Qed.

Lemma Forall_sorted_own {V} (P : string * V -> Prop) o : NoDup o.*1 -> Forall P o -> Forall P (sorted_own o).
Proof. intros Hn H. by rewrite sorted_own_perm. Qed.

Lemma encoding_json_ok v : plain v = true -> json_ok (encoding v) = true.
Proof.
  induction v as [v Hv|l IH|o IH] using JsValue_nested_ind; [by destruct v| |].
  - cbn [plain encoding json_ok]. rewrite !forallb_Forall'. rewrite List.Forall_map.
    intros Hp. rewrite Forall_forall in *. intros x Hx. by apply IH; [|apply Hp].
  - intros (Hn & _ & _ & Hf)%plain_obj. cbn [encoding json_ok]. rewrite sorted_own_map.
    rewrite map_keys, sorted_own_order. cbn. rewrite forallb_Forall', List.Forall_map. cbn.
    apply Forall_sorted_own; [done|]. rewrite Forall_forall in *. intros kv Hkv. by apply IH; [|apply Hf].
Qed.

Lemma js_encoding_str v s : plain v = true -> js_of (encoding v) = JsStr s -> v = JsStr s.
Proof. by destruct v; try (intros; congruence). Qed.
Lemma encoding_envelope o :
  NoDup o.*1 -> Forall (fun kv => plain kv.2 = true) o -> isBase64Envelope (JsObj o) = None ->
  isBase64Envelope (js_of (encoding (JsObj o))) = None.
Proof.
  intros Hn Hf He. cbn [encoding js_of]. rewrite sorted_own_map, List.map_map. cbn [fst snd].
  unfold isBase64Envelope. rewrite !(obj_get_map (fun v => js_of (encoding v))).
  rewrite !(obj_get_perm _ (sorted_own o) o) by (try done; by apply sorted_own_perm).
  rewrite Forall_forall in Hf. unfold isBase64Envelope in He.
  destruct (obj_get "__type" o) as [t|] eqn:Et; cbn; [|done].
  destruct (obj_get "data" o) as [d|] eqn:Ed; cbn; [|by destruct (js_of (encoding t))].
  apply obj_get_elem, Hf in Et, Ed. cbn in Et, Ed.
  destruct (js_of (encoding t)) eqn:E1; try done. destruct (js_of (encoding d)) eqn:E2; try done.
  apply js_encoding_str in E1 as ->, E2 as ->; [exact He|done..].
Qed.

Lemma set_props_plain l out : "__proto__" ∉ l.*1 -> set_props l out = own_puts l out.
Proof.
  revert out. induction l as [|[k v] l IH]; intros out; [done|]. cbn. rewrite not_elem_of_cons. intros [Hk Hl].
  rewrite IH by done. unfold set_prop. by apply not_eq_sym, String.eqb_neq in Hk as ->.
Qed.
Lemma revive_encoding v : plain v = true -> revive (js_of (encoding v)) = canonical_order v.
Proof.
  induction v as [v Hv|l IH|o IH] using JsValue_nested_ind.
  - destruct v; try done. intros _. cbn. by rewrite base64_decode_encode.
  - cbn [plain encoding js_of revive canonical_order]. rewrite forallb_Forall', !List.map_map. intros Hp.
    f_equal. apply List.map_ext_Forall. rewrite Forall_forall in *. intros x Hx. by apply IH; [|apply Hp].
  - intros Hp. destruct (plain_obj _ Hp) as (Hn & Hproto & He & Hf).
    pose proof (encoding_envelope o Hn Hf He) as Hno. cbn [encoding js_of] in *.
    cbn [revive]. rewrite Hno. cbn [canonical_order]. f_equal.
    rewrite !sorted_own_map, !List.map_map. cbn [fst snd].
    rewrite set_props_plain, own_puts_fresh; rewrite ?(map_keys (fun v => revive (js_of (encoding v)))).
    + cbn. apply List.map_ext_Forall. apply Forall_sorted_own; [done|]. rewrite Forall_forall in *.
      intros kv Hkv. f_equal. by apply IH; [|apply Hf].
    + apply sorted_own_order.
    + intros H. apply Hproto. by rewrite sorted_own_perm in H.
Qed.

(** ** Properties *)

Lemma stringify_plain v : plain v = true -> canonicalJsonStringify v = Ok (Some (stringify (encoding v))).
Proof.
  intros Hp. unfold canonicalJsonStringify, json_stringify. rewrite canonicalize_plain by done.
  cbn. by rewrite json_of_js_of.
Qed.
Lemma parse_encoding v : plain v = true -> canonicalJsonParse (stringify (encoding v)) = Ok (canonical_order v).
Proof.
  intros Hp. unfold canonicalJsonParse, json_parse. rewrite parse_stringify by (by apply encoding_json_ok).
  cbn. by rewrite revive_encoding.
Qed.

Lemma encoding_canonical v : plain v = true -> encoding (canonical_order v) = encoding v.
Proof.
  induction v as [v Hv|l IH|o IH] using JsValue_nested_ind; [by destruct v| |].
  - cbn [plain encoding canonical_order]. rewrite forallb_Forall', List.map_map. intros Hp. f_equal.
    apply List.map_ext_Forall. rewrite Forall_forall in *. intros x Hx. by apply IH; [|apply Hp].
  - intros (Hn & _ & _ & Hf)%plain_obj. cbn [encoding canonical_order]. f_equal.
    rewrite !sorted_own_map, List.map_map. cbn [fst snd].
    rewrite (sorted_own_perm_eq (sorted_own o) o) by (try done; by apply sorted_own_perm).
    apply List.map_ext_Forall, Forall_sorted_own; [done|]. rewrite Forall_forall in *.
    intros kv Hkv. f_equal. by apply IH; [|apply Hf].
Qed.

(** Storing and reading back.  A plain value (bytes included) is encoded
    as a text, and parsing that text gives the value back with its keys sorted;
    the texts of two plain values agree exactly when the values do up to the
    order of keys. *)
Lemma canonical_roundtrip (v w : JsValue) :
  plain v = true -> plain w = true ->
  (exists text, canonicalJsonStringify v = Ok (Some text) /\ canonicalJsonParse text = Ok (canonical_order v)) /\
  (canonicalJsonStringify v = canonicalJsonStringify w <-> canonical_order v = canonical_order w).
Proof.
  intros Hv Hw. split.
  - eexists. split; [by apply stringify_plain|by apply parse_encoding].
  - rewrite !stringify_plain by done. split.
    + intros [= E]. pose proof (parse_encoding v Hv) as E1. rewrite E, parse_encoding in E1 by done. congruence.
    + intros E. by rewrite <- (encoding_canonical v), E, encoding_canonical.
Qed.

Definition demo_value : JsValue :=
  JsObj [("b", JsArr [JsNum 1; JsNull]); ("10", JsBytes "hi"); ("9", JsObj [("x", JsBool true)])].
Lemma canonical_roundtrip_witness :
  exists text, canonicalJsonStringify demo_value = Ok (Some text) /\
    canonicalJsonParse text =
      Ok (JsObj [("9", JsObj [("x", JsBool true)]); ("10", JsBytes "hi"); ("b", JsArr [JsNum 1; JsNull])]).
Proof.
  destruct (canonical_roundtrip demo_value demo_value) as [(text & E & Ep) _]; [vm_compute; reflexivity..|].
  exists text. split; [exact E|]. rewrite Ep. vm_compute. reflexivity.
Defined.

(** A plain object that happens to be shaped like the envelope does not
    survive: for every text it is read back as bytes. *)
Lemma envelope_shaped_object_becomes_bytes (data : string) :
  let v := JsObj [("__type", JsStr "base64"); ("data", JsStr data)] in
  exists text, canonicalJsonStringify v = Ok (Some text) /\
    canonicalJsonParse text = Ok (JsBytes (base64_decode data)) /\ canonical_order v = v.
Proof.
  exists (stringify (JObj [("__type", JStr "base64"); ("data", JStr data)])).
  split; [reflexivity|]. split; [|reflexivity].
  unfold canonicalJsonParse, json_parse. by rewrite parse_stringify.
Qed.

(** The fields of the identity keep their places. *)
Lemma identity_text pack skill ruleId eventKind eventHash :
  exists text, canonicalJsonStringify (JsObj [("pack", JsStr pack); ("skill", JsStr skill);
    ("ruleId", JsStr ruleId); ("eventKind", JsStr eventKind); ("eventHash", JsStr eventHash)]) = Ok (Some text) /\
  canonicalJsonParse text = Ok (JsObj [("eventHash", JsStr eventHash); ("eventKind", JsStr eventKind);
    ("pack", JsStr pack); ("ruleId", JsStr ruleId); ("skill", JsStr skill)]).
Proof.
  eexists. split; [apply stringify_plain; reflexivity|]. by rewrite parse_encoding.
Qed.

(** [x] is one of the two texts hashed for the run id: the payload's and the identity's. *)
Definition hashed (sha256Hex : string -> string) (i : RunIdInput) (x : string) : Prop :=
  exists payload, canonicalJsonStringify (ri_eventPayload i) = Ok (Some payload) /\
  (x = payload \/ canonicalJsonStringify (JsObj
    [("pack", JsStr (ri_pack i)); ("skill", JsStr (ri_skill i)); ("ruleId", JsStr (ri_ruleId i));
     ("eventKind", JsStr (ri_eventKind i)); ("eventHash", JsStr (sha256Hex payload))]) = Ok (Some x)).

(** A run id depends exactly on the run's identity: it is defined for
    every plain payload, equal for equal names and payloads that agree up to
    the order of keys, and two runs with one id have the same identity unless
    the hash collides on two of the texts hashed for these runs. *)
Lemma runIdFor_identity (sha256Hex : string -> string) (i1 i2 : RunIdInput) :
  plain (ri_eventPayload i1) = true -> plain (ri_eventPayload i2) = true ->
  let same := ri_pack i1 = ri_pack i2 /\ ri_skill i1 = ri_skill i2 /\ ri_ruleId i1 = ri_ruleId i2 /\
    ri_eventKind i1 = ri_eventKind i2 /\
    canonical_order (ri_eventPayload i1) = canonical_order (ri_eventPayload i2) in
  is_ok (runIdFor sha256Hex i1) = true /\
  (same -> runIdFor sha256Hex i1 = runIdFor sha256Hex i2) /\
  (runIdFor sha256Hex i1 = runIdFor sha256Hex i2 ->
     same \/ exists x y, hashed sha256Hex i1 x /\ hashed sha256Hex i2 y /\ x <> y /\ sha256Hex x = sha256Hex y).
Proof.
  intros H1 H2 same. set (p1 := stringify (encoding (ri_eventPayload i1))).
  set (p2 := stringify (encoding (ri_eventPayload i2))).
  assert (canonicalJsonStringify (ri_eventPayload i1) = Ok (Some p1)) as Q1 by by apply stringify_plain.
  assert (canonicalJsonStringify (ri_eventPayload i2) = Ok (Some p2)) as Q2 by by apply stringify_plain.
  unfold runIdFor. rewrite Q1, Q2. cbn [mbind result_bind sha_of].
  destruct (identity_text (ri_pack i1) (ri_skill i1) (ri_ruleId i1) (ri_eventKind i1) (sha256Hex p1)) as (t1 & E1 & P1).
  destruct (identity_text (ri_pack i2) (ri_skill i2) (ri_ruleId i2) (ri_eventKind i2) (sha256Hex p2)) as (t2 & E2 & P2).
  rewrite E1, E2. cbn [mbind result_bind sha_of]. split_and!; [done| |].
  - intros (Ep & Es & Er & Ek & Ec). assert (p1 = p2) as Eh.
    { unfold p1, p2. by rewrite <- (encoding_canonical (ri_eventPayload i1)), Ec, encoding_canonical. }
    rewrite Ep, Es, Er, Ek, Eh in E1. congruence.
  - intros [= Et]. destruct (decide (t1 = t2)) as [->|Hne].
    + rewrite P1 in P2. injection P2 as Eh Ek Ep Er Es. destruct (decide (p1 = p2)) as [Ep12|Hne].
      * left. split_and!; [done..|]. pose proof (parse_encoding _ H1) as R1. pose proof (parse_encoding _ H2) as R2.
        fold p1 in R1. fold p2 in R2. congruence.
      * right. exists p1, p2. split_and!; [by exists p1; split; [|left]|by exists p2; split; [|left]|done|done].
    + right. exists t1, t2. split_and!; [by exists p1; split; [|right]|by exists p2; split; [|right]|done|done].
Qed.

Lemma runIdFor_identity_witness :
  let input := {| ri_pack := "p"; ri_skill := "s"; ri_ruleId := "r"; ri_eventKind := "stop";
                  ri_eventPayload := JsObj [("b", JsNum 1); ("a", JsNull)] |} in
  let reordered := {| ri_pack := "p"; ri_skill := "s"; ri_ruleId := "r"; ri_eventKind := "stop";
                      ri_eventPayload := JsObj [("a", JsNull); ("b", JsNum 1)] |} in
  runIdFor (fun s => s) input = runIdFor (fun s => s) reordered.
Proof.
  intros input reordered.
  apply (proj1 (proj2 (runIdFor_identity (fun s => s) input reordered eq_refl eq_refl))).
  split_and!; reflexivity.
Defined.
