(* ===== verification/CheckpointStore.v ===== *)
(** * The checkpoint store ([src/src/runtime/durable/checkpoint_store.ts])

    The four tables and every operation on them.  A table with a primary key is
    a finite map; the task table is kept in row order, which decides ties of
    its one ordered read.  [init], which only creates the tables, is left out;
    times are integers of milliseconds. *)

From Stdlib Require Import Ascii String.
From stdpp Require Import base option list sets strings gmap fin_maps.
From S2P Require Import Prelude Json JsonText CanonicalJson.
#[local] Open Scope os_scope.

Inductive Status := completed | errored.
#[export] Instance Status_eq_dec : EqDecision Status.
Proof. solve_decision. Defined.

Record CheckpointWrite := {
  cw_runId : string; cw_stepIdx : nat; cw_fn : string; cw_inputsHash : string; cw_outputs : JsValue;
  cw_asBinding : option string; cw_startedAtMs : Z; cw_completedAtMs : Z; cw_status : Status;
  cw_errorMessage : option string;
}.
Record CheckpointRow := {
  cr_runId : string; cr_stepIdx : nat; cr_fn : string; cr_inputsHash : string; cr_outputs : JsValue;
  cr_asBinding : option string; cr_startedAtMs : Z; cr_completedAtMs : Z; cr_status : Status;
  cr_errorMessage : option string;
}.
Record RunManifest := {
  rm_runId : string; rm_packId : string; rm_packVersion : string; rm_skill : string; rm_ruleId : string;
  rm_eventKind : string; rm_eventPayload : JsValue; rm_startedAtMs : Z;
}.
Record TaskCheckpoint := { tc_stage : string; tc_scopeArtifacts : list string }.
Record TaskCheckpointRow := {
  tr_taskId : string; tr_checkpoint : TaskCheckpoint; tr_createdAtMs : Z; tr_updatedAtMs : Z;
}.
Record InterruptedSummary := { is_runId : string; is_lastCompletedStep : nat; is_lastCompletedAtMs : Z }.

(** ** Tables *)
Record CheckpointRec := {
  k_fn : string; k_inputs_hash : string; k_outputs_json : string; k_as_binding : option string;
  k_started_at_ms : Z; k_completed_at_ms : Z; k_status : string; k_error_message : option string;
}.
Record ManifestRec := {
  m_pack_id : string; m_pack_version : string; m_skill : string; m_rule_id : string;
  m_event_kind : string; m_event_payload_json : string; m_started_at_ms : Z;
}.
Record TaskRec := {
  t_task_id : string; t_stage : string; t_scope_artifacts_json : string; t_created_at_ms : Z; t_updated_at_ms : Z;
}.
Record Store := {
  checkpoints : gmap (string * nat) CheckpointRec;
  run_manifests : gmap string ManifestRec;
  terminal_markers : gmap string (string * Z);
  task_checkpoints : list TaskRec;
}.
Definition emptyStore : Store :=
  {| checkpoints := ∅; run_manifests := ∅; terminal_markers := ∅; task_checkpoints := [] |}.
Definition with_checkpoints (c : gmap (string * nat) CheckpointRec) (st : Store) : Store :=
  {| checkpoints := c; run_manifests := run_manifests st; terminal_markers := terminal_markers st;
     task_checkpoints := task_checkpoints st |}.
Definition with_tasks (l : list TaskRec) (st : Store) : Store :=
  {| checkpoints := checkpoints st; run_manifests := run_manifests st;
     terminal_markers := terminal_markers st; task_checkpoints := l |}.

(** ** Task checkpoints *)
Definition artifacts_json (files : list string) : string := stringify (JArr (List.map JStr files)).
Definition createTaskCheckpoint (taskId stage : string) (nowMs : Z) (scopeArtifacts : list string)
    (st : Store) : Store :=
  if existsb (fun r => (t_task_id r =? taskId)%string) (task_checkpoints st) then st
  else with_tasks (task_checkpoints st ++
    [{| t_task_id := taskId; t_stage := stage; t_scope_artifacts_json := artifacts_json scopeArtifacts;
        t_created_at_ms := nowMs; t_updated_at_ms := nowMs |}]) st.
(** [UPDATE ... WHERE task_id = ?] *)
Definition update_task (taskId : string) (f : TaskRec -> TaskRec) (st : Store) : Store :=
  with_tasks (List.map (fun r => if (t_task_id r =? taskId)%string then f r else r) (task_checkpoints st)) st.
Definition updateTaskStage (taskId stage : string) (nowMs : Z) (scopeArtifacts : option (list string))
    (st : Store) : Store :=
  update_task taskId (fun r =>
    {| t_task_id := t_task_id r; t_stage := stage;
       t_scope_artifacts_json := match scopeArtifacts with
                                 | None => t_scope_artifacts_json r
                                 | Some files => artifacts_json files
                                 end;
       t_created_at_ms := t_created_at_ms r; t_updated_at_ms := nowMs |}) st.
Definition setTaskArtifacts (taskId : string) (files : list string) (nowMs : Z) (st : Store) : Store :=
  update_task taskId (fun r =>
    {| t_task_id := t_task_id r; t_stage := t_stage r; t_scope_artifacts_json := artifacts_json files;
       t_created_at_ms := t_created_at_ms r; t_updated_at_ms := nowMs |}) st.
(** The strings of a recorded array; anything else, malformed text included, is none. *)
Definition read_artifacts (rawJson : string) : list string :=
  match parseJson rawJson with
  | Some (JArr l) => omap (fun x => match x with JStr s => Some s | _ => None end) l
  | _ => []
  end.
Definition task_view (r : TaskRec) : TaskCheckpoint :=
  {| tc_stage := t_stage r; tc_scopeArtifacts := read_artifacts (t_scope_artifacts_json r) |}.
Definition listTaskCheckpoints (st : Store) : list TaskCheckpointRow :=
  List.map (fun r => {| tr_taskId := t_task_id r; tr_checkpoint := task_view r;
                        tr_createdAtMs := t_created_at_ms r; tr_updatedAtMs := t_updated_at_ms r |})
    (stable_sort (fun a b => Z.leb (t_updated_at_ms b) (t_updated_at_ms a)) (task_checkpoints st)).
Definition getTaskCheckpoint (taskId : string) (st : Store) : option TaskCheckpoint :=
  task_view <$> List.find (fun r => (t_task_id r =? taskId)%string) (task_checkpoints st).

(** ** Checkpoints *)
Definition status_text (s : Status) : string := match s with completed => "completed" | errored => "errored" end.
Definition rowToCheckpoint (key : string * nat) (r : CheckpointRec) : result string CheckpointRow :=
  outputs <-? canonicalJsonParse (k_outputs_json r) ;;
  Ok {| cr_runId := key.1; cr_stepIdx := key.2; cr_fn := k_fn r; cr_inputsHash := k_inputs_hash r;
        cr_outputs := outputs; cr_asBinding := k_as_binding r; cr_startedAtMs := k_started_at_ms r;
        cr_completedAtMs := k_completed_at_ms r;
        cr_status := if (k_status r =? "errored")%string then errored else completed;
        cr_errorMessage := k_error_message r |}.
(** [INSERT OR REPLACE]; the driver rejects an [undefined] argument. *)
Definition append (write : CheckpointWrite) (st : Store) : result string Store :=
  outputsJson <-? canonicalJsonStringify (cw_outputs write) ;;
  match outputsJson with
  | None => Err "TypeError: undefined cannot be passed as argument to the database"
  | Some text =>
      Ok (with_checkpoints (<[(cw_runId write, cw_stepIdx write) :=
        {| k_fn := cw_fn write; k_inputs_hash := cw_inputsHash write; k_outputs_json := text;
           k_as_binding := cw_asBinding write; k_started_at_ms := cw_startedAtMs write;
           k_completed_at_ms := cw_completedAtMs write; k_status := status_text (cw_status write);
           k_error_message := cw_errorMessage write |}]> (checkpoints st)) st)
  end.
(** [SELECT ... WHERE run_id = ? ORDER BY step_idx ASC] *)
Definition step_le (x y : (string * nat) * CheckpointRec) : bool := (x.1.2 <=? y.1.2)%nat.
Definition run_rows (runId : string) (st : Store) : list ((string * nat) * CheckpointRec) :=
  stable_sort step_le (map_to_list (filter (fun kv => kv.1.1 = runId) (checkpoints st))).
Definition is_completed (r : CheckpointRec) : bool := (k_status r =? "completed")%string.

Definition lastCompletedStep (runId : string) (st : Store) : result string (option CheckpointRow) :=
  match last (List.filter (fun kv => is_completed kv.2) (run_rows runId st)) with
  | None => Ok None
  | Some kv => row <-? rowToCheckpoint kv.1 kv.2 ;; Ok (Some row)
  end.
Fixpoint load_rows (rows : list ((string * nat) * CheckpointRec)) (out : list (string * JsValue))
    : result string (list (string * JsValue)) :=
  match rows with
  | [] => Ok out
  | (_, r) :: rest =>
      match k_as_binding r with
      | Some name => v <-? canonicalJsonParse (k_outputs_json r) ;; load_rows rest (set_prop name v out)
      | None => load_rows rest out
      end
  end.
Definition loadBindings (runId : string) (st : Store) : result string (list (string * JsValue)) :=
  load_rows (List.filter (fun kv => is_completed kv.2) (run_rows runId st)) [].
Definition fetchRun (runId : string) (st : Store) : result string (list CheckpointRow) :=
  map_ok (fun kv => rowToCheckpoint kv.1 kv.2) (run_rows runId st).
Definition pruneOlderThan (ms nowMs : Z) (st : Store) : nat * Store :=
  let cutoff := (nowMs - ms)%Z in
  let dead := filter (fun kv => (k_completed_at_ms kv.2 < cutoff)%Z) (checkpoints st) in
  (size dead, with_checkpoints (checkpoints st ∖ dead) st).

(** ** Manifests and terminal markers *)
Definition recordRunStart (manifest : RunManifest) (st : Store) : result string Store :=
  eventJson <-? canonicalJsonStringify (rm_eventPayload manifest) ;;
  match eventJson with
  | None => Err "TypeError: undefined cannot be passed as argument to the database"
  | Some text =>
      Ok {| checkpoints := checkpoints st;
            run_manifests := <[rm_runId manifest :=
              {| m_pack_id := rm_packId manifest; m_pack_version := rm_packVersion manifest;
                 m_skill := rm_skill manifest; m_rule_id := rm_ruleId manifest;
                 m_event_kind := rm_eventKind manifest; m_event_payload_json := text;
                 m_started_at_ms := rm_startedAtMs manifest |}]> (run_manifests st);
            terminal_markers := terminal_markers st; task_checkpoints := task_checkpoints st |}
  end.
Definition rowToManifest (runId : string) (r : ManifestRec) : result string RunManifest :=
  payload <-? canonicalJsonParse (m_event_payload_json r) ;;
  Ok {| rm_runId := runId; rm_packId := m_pack_id r; rm_packVersion := m_pack_version r;
        rm_skill := m_skill r; rm_ruleId := m_rule_id r; rm_eventKind := m_event_kind r;
        rm_eventPayload := payload; rm_startedAtMs := m_started_at_ms r |}.
Definition getRunManifest (runId : string) (st : Store) : result string (option RunManifest) :=
  match run_manifests st !! runId with
  | None => Ok None
  | Some r => m <-? rowToManifest runId r ;; Ok (Some m)
  end.
Definition recordRunTerminal (runId outcome : string) (nowMs : Z) (st : Store) : Store :=
  {| checkpoints := checkpoints st; run_manifests := run_manifests st;
     terminal_markers := <[runId := (outcome, nowMs)]> (terminal_markers st);
     task_checkpoints := task_checkpoints st |}.
Definition hasTerminalMarker (runId : string) (st : Store) : bool :=
  bool_decide (is_Some (terminal_markers st !! runId)).

(** A window is a number of milliseconds; [None] is one that is not finite. *)
Definition in_window (withinMs : option Z) (nowMs completedAtMs : Z) : bool :=
  match withinMs with
  | Some ms => if Z.ltb 0 ms then Z.leb (nowMs - ms) completedAtMs else true
  | None => true
  end.
(** The row's group: the maxima of step and time so far. *)
Definition group_row (kv : (string * nat) * CheckpointRec) (groups : gmap string (nat * Z))
    : gmap string (nat * Z) :=
  <[kv.1.1 := match groups !! kv.1.1 with
              | None => (kv.1.2, k_completed_at_ms kv.2)
              | Some (s, t) => (Nat.max s kv.1.2, Z.max t (k_completed_at_ms kv.2))
              end]> groups.
Definition scannable (withinMs : option Z) (nowMs : Z) (st : Store) (kv : (string * nat) * CheckpointRec) : bool :=
  negb (hasTerminalMarker kv.1.1 st) && in_window withinMs nowMs (k_completed_at_ms kv.2) && is_completed kv.2.
Definition scanInterrupted (withinMs : option Z) (nowMs : Z) (st : Store) : list InterruptedSummary :=
  let rows := List.filter (scannable withinMs nowMs st) (map_to_list (checkpoints st)) in
  let groups := foldr group_row ∅ rows in
  stable_sort (fun a b => Z.leb (is_lastCompletedAtMs b) (is_lastCompletedAtMs a))
    (List.map (fun kv => {| is_runId := kv.1; is_lastCompletedStep := kv.2.1; is_lastCompletedAtMs := kv.2.2 |})
       (map_to_list groups)).
