(* ===== verification/CheckpointProps.v ===== *)
(** * Properties of the checkpoint store

    Rows of a run, the bindings they restore, and the scan for interrupted
    runs. *)

From Stdlib Require Import Ascii String Sorted Permutation.
From stdpp Require Import base option list sets strings gmap fin_maps sorting.
From S2P Require Import Prelude Json JsonText CanonicalJson CheckpointStore.
#[local] Open Scope os_scope.

Lemma map_ok_inv {E A B} (f : A -> result E B) l ys :
  map_ok f l = Ok ys -> Forall2 (fun x y => f x = Ok y) l ys.
Proof.
  revert ys. induction l as [|x l IH]; cbn; intros ys; [intros [= <-]; constructor|].
  intros (y & Hy & (ys' & Hys & [= <-])%bind_ok)%bind_ok. constructor; auto.
Qed.
Lemma map_ok_some {E A B} (f : A -> result E B) l :
  (forall x, x ∈ l -> exists y, f x = Ok y) -> exists ys, map_ok f l = Ok ys.
Proof.
  induction l as [|x l IH]; intros H; [by exists []|]. destruct (H x) as [y Hy]; [left|].
  destruct IH as [ys Hys]; [intros; apply H; by right|]. exists (y :: ys). cbn. rewrite Hy. cbn. by rewrite Hys.
Qed.

Lemma Forall2_elem_l {A B} (P : A -> B -> Prop) l k x : Forall2 P l k -> x ∈ l -> exists y, y ∈ k /\ P x y.
Proof. induction 1; [by intros ?%elem_of_nil|]. intros [->|H']%elem_of_cons; set_solver. Qed.
Lemma Forall2_elem_r {A B} (P : A -> B -> Prop) l k y : Forall2 P l k -> y ∈ k -> exists x, x ∈ l /\ P x y.
Proof. induction 1; [by intros ?%elem_of_nil|]. intros [->|H']%elem_of_cons; set_solver. Qed.

(** ** The rows of a run *)
Lemma run_rows_elem runId st k r :
  (k, r) ∈ run_rows runId st <-> k.1 = runId /\ checkpoints st !! k = Some r.
Proof.
  unfold run_rows. rewrite elem_of_stable_sort, elem_of_map_to_list, map_lookup_filter_Some. cbn. tauto.
Qed.
Lemma run_rows_nodup runId st : NoDup (run_rows runId st).*1.
Proof. unfold run_rows. rewrite stable_sort_perm. apply NoDup_fst_map_to_list. Qed.
Lemma step_le_trans x y z : step_le x y = true -> step_le y z = true -> step_le x z = true.
Proof. unfold step_le. rewrite !Nat.leb_le. lia. Qed.
Lemma run_rows_sorted runId st : StronglySorted (fun x y => x.1.2 < y.1.2) (run_rows runId st).
Proof.
  pose proof (run_rows_nodup runId st) as Hn.
  assert (forall x, x ∈ run_rows runId st -> x.1.1 = runId) as Hr.
  { intros [k r] Hx. by apply run_rows_elem in Hx as [Hx _]. }
  assert (StronglySorted (fun x y => step_le x y = true) (run_rows runId st)) as Hs.
  { apply stable_sort_sorted; [|apply step_le_trans].
    intros x y. unfold step_le. rewrite Nat.leb_gt, Nat.leb_le. lia. }
  induction Hs as [|x l Hs IH Hx]; constructor.
  - apply IH; [by apply NoDup_cons in Hn as [_ ?]|]. intros y Hy. apply Hr. by right.
  - rewrite Forall_forall in *. intros y Hy. specialize (Hx y Hy). unfold step_le in Hx. apply Nat.leb_le in Hx.
    assert (x.1.2 <> y.1.2); [|lia]. intros E. cbn in Hn. apply NoDup_cons in Hn as [Hn _]. apply Hn.
    apply list_elem_of_fmap. exists y. split; [|done].
    assert (x.1.1 = y.1.1) by (rewrite (Hr x), (Hr y); [done|by right|by left]).
    destruct x as [[] ], y as [[] ]; cbn in *; congruence.
Qed.

(** The parsed row of a step. *)
Definition row_of (runId : string) (st : Store) (i : nat) : option CheckpointRow :=
  match checkpoints st !! (runId, i) with
  | Some r => match rowToCheckpoint (runId, i) r with Ok row => Some row | Err _ => None end
  | None => None
  end.
(** Every row of the run parses. *)
Definition loadable (runId : string) (st : Store) : Prop :=
  forall i r, checkpoints st !! (runId, i) = Some r -> exists row, rowToCheckpoint (runId, i) r = Ok row.

Lemma rowToCheckpoint_key k r row : rowToCheckpoint k r = Ok row -> cr_runId row = k.1 /\ cr_stepIdx row = k.2.
Proof. unfold rowToCheckpoint. intros (v & _ & [= <-])%bind_ok. done. Qed.
Lemma fetchRun_inv runId st rows : fetchRun runId st = Ok rows ->
  loadable runId st /\ NoDup (cr_stepIdx <$> rows) /\
  (forall row, row ∈ rows <-> row_of runId st (cr_stepIdx row) = Some row).
Proof.
  unfold fetchRun. intros H%map_ok_inv.
  assert (loadable runId st) as Hl.
  { intros i r Hr. destruct (Forall2_elem_l _ _ _ ((runId, i), r) H) as (row & _ & E); [|by exists row].
    by apply run_rows_elem. }
  split; [done|]. split.
  - assert (cr_stepIdx <$> rows = (fun kv => kv.1.2) <$> run_rows runId st) as ->.
    { induction H as [|[k r] row l rows Hrow _ IH]; cbn; [done|]. apply rowToCheckpoint_key in Hrow as [_ ->].
      by rewrite IH. }
    pose proof (run_rows_sorted runId st) as Hs. clear H. induction Hs as [|x l _ IH Hx]; cbn; [constructor|].
    constructor; [|done]. intros (y & E & Hy)%list_elem_of_fmap. rewrite Forall_forall in Hx. specialize (Hx y Hy). lia.
  - intros row. unfold row_of. split.
    + intros Hrow. destruct (Forall2_elem_r _ _ _ _ H Hrow) as ([[run i] r] & Hin & E). cbn in E.
      apply run_rows_elem in Hin as [Erun Hin]. cbn in Erun. subst run.
      destruct (rowToCheckpoint_key _ _ _ E) as [_ Ei]. cbn in Ei. rewrite Ei, Hin. by rewrite E.
    + destruct (checkpoints st !! (runId, cr_stepIdx row)) as [r|] eqn:Hr; [|done].
      destruct (rowToCheckpoint _ r) as [row'|] eqn:E; [|done]. intros [= ->].
      destruct (Forall2_elem_l _ _ _ ((runId, cr_stepIdx row), r) H) as (row' & Hin & E'); [by apply run_rows_elem|].
      cbn in E'. rewrite E in E'. by injection E' as ->.
Qed.
Lemma fetchRun_loadable runId st : loadable runId st -> exists rows, fetchRun runId st = Ok rows.
Proof.
  intros Hl. apply map_ok_some. intros [[run i] r] [Erun Hr]%run_rows_elem. cbn in Erun. subst run. by apply Hl.
Qed.

(** ** Appending *)

(** A value that storage gives back unchanged: plain, with its keys in
    canonical order. *)
Definition storable (v : JsValue) : Prop := plain v = true /\ canonical_order v = v.

Lemma append_storable write st : storable (cw_outputs write) -> exists st', append write st = Ok st'.
Proof. intros [Hp _]. unfold append. rewrite stringify_plain by done. by eexists. Qed.
Lemma append_row_of write st st' i :
  storable (cw_outputs write) -> append write st = Ok st' ->
  row_of (cw_runId write) st' i =
  if decide (i = cw_stepIdx write) then
    Some {| cr_runId := cw_runId write; cr_stepIdx := cw_stepIdx write; cr_fn := cw_fn write;
            cr_inputsHash := cw_inputsHash write; cr_outputs := cw_outputs write;
            cr_asBinding := cw_asBinding write; cr_startedAtMs := cw_startedAtMs write;
            cr_completedAtMs := cw_completedAtMs write; cr_status := cw_status write;
            cr_errorMessage := cw_errorMessage write |}
  else row_of (cw_runId write) st i.
Proof.
  intros [Hp Hc]. unfold append. rewrite stringify_plain by done. cbn. intros [= <-]. unfold row_of. cbn.
  case_decide as Hi.
  - subst i. rewrite lookup_insert_eq. unfold rowToCheckpoint. cbn. rewrite parse_encoding by done. cbn.
    rewrite Hc. by destruct (cw_status write).
  - by rewrite lookup_insert_ne by congruence.
Qed.
Lemma append_loadable write st st' :
  storable (cw_outputs write) -> append write st = Ok st' -> loadable (cw_runId write) st ->
  loadable (cw_runId write) st'.
Proof.
  intros [Hp Hc]. unfold append. rewrite stringify_plain by done. cbn. intros [= <-] Hl i r. cbn.
  destruct (decide (i = cw_stepIdx write)) as [->|Hi].
  - rewrite lookup_insert_eq. intros [= <-]. unfold rowToCheckpoint. cbn. rewrite parse_encoding by done. by eexists.
  - rewrite lookup_insert_ne by congruence. apply Hl.
Qed.

(** ** The bindings of a run *)
Lemma own_put_get {V} k k' (v : V) o : obj_get k' (own_put k v o) = if (k =? k')%string then Some v else obj_get k' o.
Proof.
  induction o as [|[k2 v2] o IH]; cbn; [by rewrite (String.eqb_sym k' k)|].
  destruct (String.eqb_spec k k2) as [->|Hk]; cbn.
  - by rewrite (String.eqb_sym k' k2); destruct (k2 =? k')%string.
  - destruct (precedes k k2); cbn; [by rewrite (String.eqb_sym k' k)|]. rewrite IH.
    destruct (String.eqb_spec k' k2) as [->|]; [|done]. by apply String.eqb_neq in Hk as ->.
Qed.

Notation row := ((string * nat) * CheckpointRec)%type.
Definition binds (name : string) (v : JsValue) (kv : row) : Prop :=
  k_as_binding kv.2 = Some name /\ canonicalJsonParse (k_outputs_json kv.2) = Ok v.
Lemma load_rows_get (rows : list row) (name : string) : forall out out',
  name <> "__proto__" -> load_rows rows out = Ok out' -> forall v,
  obj_get name out' = Some v <->
  (exists l1 kv l2, rows = l1 ++ kv :: l2 /\ binds name v kv /\ Forall (fun kv => k_as_binding kv.2 <> Some name) l2) \/
  Forall (fun kv => k_as_binding kv.2 <> Some name) rows /\ obj_get name out = Some v.
Proof.
  induction rows as [|[k r] rest IH]; intros out out' Hn; cbn [load_rows].
  { intros [= <-] v. split; [by right|]. intros [(l1 & kv & l2 & E & _)|[_ H]]; [by destruct l1|done]. }
  assert (forall out2,
    load_rows rest out2 = Ok out' ->
    (forall v, obj_get name out2 = Some v <-> binds name v (k, r) \/ k_as_binding r <> Some name /\ obj_get name out = Some v) ->
    forall v, obj_get name out' = Some v <->
      (exists l1 kv l2, (k, r) :: rest = l1 ++ kv :: l2 /\ binds name v kv /\
        Forall (fun kv => k_as_binding kv.2 <> Some name) l2) \/
      Forall (fun kv => k_as_binding kv.2 <> Some name) ((k, r) :: rest) /\ obj_get name out = Some v) as Hstep.
  { intros out2 H2 Hg v. rewrite (IH _ _ Hn H2 v), Hg, Forall_cons. cbn [snd]. split.
    - intros [(l1 & kv & l2 & -> & H)|[Hf [Hb|[Hne Ho]]]].
      + left. by exists ((k, r) :: l1), kv, l2.
      + left. by exists [], (k, r), rest.
      + by right.
    - intros [(l1 & kv & l2 & E & Hb & Hf)|[[Hne Hf] Ho]]; [|by right; split; [|right]].
      destruct l1 as [|x l1]; cbn in E; injection E as <- ->; [by right; split; [|left]|].
      left. by exists l1, kv, l2. }
  destruct (k_as_binding r) as [name'|] eqn:Eb.
  - intros (x & Hx & H2)%bind_ok. apply (Hstep _ H2). intros v. unfold set_prop, binds. cbn [snd].
    destruct (String.eqb_spec name' "__proto__") as [->|_].
    + split; [by right; split; [congruence|]|]. intros [[E _]|[_ ?]]; [congruence|done].
    + rewrite own_put_get. destruct (String.eqb_spec name' name) as [->|Hne].
      * rewrite Hx, Eb. naive_solver.
      * rewrite Eb. naive_solver.
  - intros H2. apply (Hstep _ H2). intros v. unfold binds. cbn [snd]. rewrite Eb. naive_solver.
Qed.

(** Step [i] of the run is completed and binds [name] to [v]. *)
Definition bound (runId : string) (st : Store) (name : string) (v : JsValue) (i : nat) : Prop :=
  exists r, checkpoints st !! (runId, i) = Some r /\ is_completed r = true /\ binds name v ((runId, i), r).
Lemma completed_rows_elem runId st (kv : row) :
  kv ∈ List.filter (fun kv => is_completed kv.2) (run_rows runId st) <->
  kv.1.1 = runId /\ checkpoints st !! kv.1 = Some kv.2 /\ is_completed kv.2 = true.
Proof. rewrite list_elem_of_In, filter_In, <- list_elem_of_In. destruct kv as [k r]. rewrite run_rows_elem. cbn. tauto. Qed.
Lemma StronglySorted_list_filter {A} (R : A -> A -> Prop) f l : StronglySorted R l -> StronglySorted R (List.filter f l).
Proof.
  induction 1 as [|x l Hs IH Hx]; cbn; [constructor|]. destruct (f x); [|done]. constructor; [done|].
  rewrite Forall_forall in *. intros y. rewrite list_elem_of_In, filter_In, <- list_elem_of_In. intros [Hy _]. by apply Hx.
Qed.
Lemma StronglySorted_weaken {A} (R S : A -> A -> Prop) l :
  (forall x y, R x y -> S x y) -> StronglySorted R l -> StronglySorted S l.
Proof. intros H. induction 1; constructor; [done|]. eapply Forall_impl; eauto. Qed.
Lemma load_rows_total runId st (rows : list row) : loadable runId st ->
  (forall kv, kv ∈ rows -> kv.1.1 = runId /\ checkpoints st !! kv.1 = Some kv.2) ->
  forall out, exists out', load_rows rows out = Ok out'.
Proof.
  intros Hl. induction rows as [|[[run i] r] rest IH]; intros Hr out; [by eexists|]. cbn [load_rows].
  destruct (Hr ((run, i), r)) as [E Hi]; [left|]. cbn in E, Hi. subst run. destruct (Hl i r Hi) as [row Hrow].
  unfold rowToCheckpoint in Hrow. apply bind_ok in Hrow as (v & Hv & _).
  destruct (k_as_binding r); [rewrite Hv; cbn|]; apply IH; intros kv Hkv; apply Hr; by right.
Qed.

Lemma sorted_split (l1 l2 : list row) kv :
  StronglySorted (fun x y : row => x.1.2 < y.1.2) (l1 ++ kv :: l2) ->
  (forall x, x ∈ l1 -> x.1.2 < kv.1.2) /\ forall y, y ∈ l2 -> kv.1.2 < y.1.2.
Proof.
  intros (H1 & _ & H2)%StronglySorted_app. split; [intros; apply H1; [done|left]|].
  apply StronglySorted_inv in H2 as [_ H2]. by rewrite Forall_forall in H2.
Qed.

(** A run's bindings are those its last steps made.  When the rows of a
    run can be read, so can its bindings, and a name is bound to [v] exactly
    when [v] is the output of the latest completed step that binds the name;
    errored steps and other runs contribute nothing. *)
Lemma loadBindings_latest (runId name : string) (st : Store) :
  loadable runId st -> name <> "__proto__" ->
  exists out, loadBindings runId st = Ok out /\
  forall v, obj_get name out = Some v <->
    exists i, bound runId st name v i /\ forall j v', bound runId st name v' j -> j <= i.
Proof.
  intros Hl Hn. unfold loadBindings. set (rows := List.filter _ _).
  destruct (load_rows_total runId st rows Hl) with (out := @nil (string * JsValue)) as [out Hout].
  { intros kv Hkv%completed_rows_elem. tauto. }
  exists out. split; [done|]. intros v. rewrite (load_rows_get rows name [] out Hn Hout v).
  assert (StronglySorted (fun x y : row => x.1.2 < y.1.2) rows) as Hs by apply StronglySorted_list_filter, run_rows_sorted.
  split.
  - intros [(l1 & [[run i] r] & l2 & E & Hb & Hf)|[_ ?]]; [|done]. exists i. rewrite E in Hs.
    apply sorted_split in Hs as [Hlt _].
    assert (((run, i), r) ∈ rows) as (Erun & Hr & Hc)%completed_rows_elem by (rewrite E; set_solver).
    cbn in Erun, Hr, Hc. subst run. split; [by exists r|]. intros j v' (r' & Hr' & Hc' & [Hb' _]).
    assert (((runId, j), r') ∈ rows) as Hin by by apply completed_rows_elem. rewrite E in Hin.
    apply elem_of_app in Hin as [Hin%Hlt|[[= -> _]|Hin]%elem_of_cons]; [cbn in Hin; lia|done|].
    rewrite Forall_forall in Hf. by destruct (Hf _ Hin).
  - intros (i & (r & Hr & Hc & Hb) & Hmax). left.
    assert (((runId, i), r) ∈ rows) as Hin by by apply completed_rows_elem.
    apply list_elem_of_split in Hin as (l1 & l2 & E). rewrite E in Hs. apply sorted_split in Hs as [_ Hgt].
    exists l1, ((runId, i), r), l2. split_and!; [done|done|].
    apply Forall_forall. intros [[run j] r'] Hin Hb'. cbn in Hb'. specialize (Hgt _ Hin). cbn in Hgt.
    assert (((run, j), r') ∈ rows) as (Erun & Hr' & Hc')%completed_rows_elem by (rewrite E; set_solver).
    cbn in Erun, Hr', Hc'. subst run. destruct (Hl j r' Hr') as [row Hrow].
    unfold rowToCheckpoint in Hrow. apply bind_ok in Hrow as (v' & Hv' & _).
    assert (j <= i) by by apply (Hmax j v'); exists r'. lia.
Qed.

(** ** Interrupted runs *)
Implicit Type groups : gmap string (nat * Z).
Lemma groups_none (rows : list row) runId :
  foldr group_row ∅ rows !! runId = None <-> forall kv, kv ∈ rows -> kv.1.1 <> runId.
Proof.
  induction rows as [|[[run i] r] rows IH]; cbn [foldr].
  - rewrite lookup_empty. split; [by intros _ kv ?%elem_of_nil|done].
  - unfold group_row at 1. cbn [fst snd]. split.
    + intros [Hg Hne]%lookup_insert_None kv [->|Hkv]%elem_of_cons; [done|]. by apply IH.
    + intros H. apply lookup_insert_None. split; [apply IH; set_solver|]. by apply (H ((run, i), r)); left.
Qed.
(** The group of a run: its greatest step and latest time. *)
Definition maxima (P : row -> Prop) (s : nat) (t : Z) : Prop :=
  (exists kv, P kv /\ kv.1.2 = s) /\ (exists kv, P kv /\ k_completed_at_ms kv.2 = t) /\
  forall kv, P kv -> kv.1.2 <= s /\ (k_completed_at_ms kv.2 <= t)%Z.
Lemma groups_some (rows : list row) runId s t :
  foldr group_row ∅ rows !! runId = Some (s, t) -> maxima (fun kv => kv ∈ rows /\ kv.1.1 = runId) s t.
Proof.
  revert s t. induction rows as [|[[run i] r] rows IH]; intros s t; cbn [foldr]; [by rewrite lookup_empty|].
  unfold group_row at 1. cbn [fst snd]. intros [[-> E]|[Hne Hg]]%lookup_insert_Some.
  - destruct (foldr group_row ∅ rows !! runId) as [[s0 t0]|] eqn:Hg.
    + injection E as <- <-. destruct (IH _ _ eq_refl) as ((kv1 & [H1 H1r] & <-) & (kv2 & [H2 H2r] & <-) & Hmax).
      split_and!.
      * destruct (le_lt_dec i kv1.1.2); [exists kv1|exists ((runId, i), r)]; cbn; (split; [split; [set_solver|done]|lia]).
      * destruct (Z.le_gt_cases (k_completed_at_ms r) (k_completed_at_ms kv2.2)); [exists kv2|exists ((runId, i), r)];
          cbn; (split; [split; [set_solver|done]|lia]).
      * intros kv [[->|Hkv]%elem_of_cons Hr]; cbn; [lia|]. destruct (Hmax kv); [done|lia].
    + injection E as <- <-. assert (exists kv : row, (kv ∈ ((runId, i), r) :: rows /\ kv.1.1 = runId) /\ kv = ((runId, i), r)) as (kv0 & Hkv0 & ->)
        by (eexists; split; [split; [left|]|]; done).
      split; [by eexists|split; [by eexists|]].
      intros kv [[->|Hkv]%elem_of_cons Hr]; [cbn; lia|]. by eapply groups_none in Hg.
  - destruct (IH _ _ Hg) as ((kv1 & [H1 H1r] & H1s) & (kv2 & [H2 H2r] & H2t) & Hmax). split_and!.
    + exists kv1. split; [split; [by right|done]|done].
    + exists kv2. split; [split; [by right|done]|done].
    + intros kv [[->|Hkv]%elem_of_cons Hr]; [done|]. by apply Hmax.
Qed.

(** A completed row of the run, within the window, of a run without a terminal marker. *)
Definition resumable (withinMs : option Z) (nowMs : Z) (st : Store) (runId : string) (kv : row) : Prop :=
  kv.1.1 = runId /\ checkpoints st !! kv.1 = Some kv.2 /\ terminal_markers st !! runId = None /\
  is_completed kv.2 = true /\ in_window withinMs nowMs (k_completed_at_ms kv.2) = true.
Lemma scannable_rows_elem withinMs nowMs st runId (kv : row) :
  kv ∈ List.filter (scannable withinMs nowMs st) (map_to_list (checkpoints st)) /\ kv.1.1 = runId <->
  resumable withinMs nowMs st runId kv.
Proof.
  rewrite list_elem_of_In, filter_In, <- list_elem_of_In. destruct kv as [k r]. rewrite elem_of_map_to_list.
  unfold scannable, resumable, hasTerminalMarker. cbn [fst snd]. rewrite !andb_true_iff, negb_true_iff, bool_decide_eq_false.
  rewrite <- eq_None_not_Some. split; [intros [(? & (? & ?) & ?) <-]; done|intros (<- & ? & ? & ? & ?); done].
Qed.

Lemma scanInterrupted_facts (withinMs : option Z) (nowMs : Z) (st : Store) :
  let found := scanInterrupted withinMs nowMs st in
  NoDup (is_runId <$> found) /\
  StronglySorted (fun a b => (is_lastCompletedAtMs b <= is_lastCompletedAtMs a)%Z) found /\
  (forall runId, runId ∈ is_runId <$> found <-> exists kv, resumable withinMs nowMs st runId kv) /\
  Forall (fun s => maxima (resumable withinMs nowMs st (is_runId s)) (is_lastCompletedStep s) (is_lastCompletedAtMs s)) found.
Proof.
  intros found. subst found. unfold scanInterrupted. set (rows := List.filter _ _). set (g := foldr group_row ∅ rows).
  set (view := fun kv : string * (nat * Z) => _). set (le := fun a b => _).
  assert (forall s, s ∈ stable_sort le (List.map view (map_to_list g)) <->
    g !! is_runId s = Some (is_lastCompletedStep s, is_lastCompletedAtMs s)) as Helem.
  { intros s. rewrite elem_of_stable_sort, list_elem_of_In, in_map_iff. split.
    - intros ([k [i t]] & <- & Hin). by apply list_elem_of_In, elem_of_map_to_list in Hin.
    - intros Hg. exists (is_runId s, (is_lastCompletedStep s, is_lastCompletedAtMs s)). split; [by destruct s|].
      by apply list_elem_of_In, elem_of_map_to_list. }
  split_and!.
  - rewrite stable_sort_perm. change (List.map view ?l) with (view <$> l). rewrite <- list_fmap_compose.
    apply NoDup_fst_map_to_list.
  - eapply StronglySorted_weaken; [|apply stable_sort_sorted].
    + intros a b. apply Z.leb_le.
    + intros a b. unfold le. rewrite Z.leb_gt, Z.leb_le. lia.
    + intros a b c. unfold le. rewrite !Z.leb_le. lia.
  - intros runId. split.
    + intros (s & -> & Hs%Helem)%list_elem_of_fmap. destruct (groups_some _ _ _ _ Hs) as ((kv & Hkv & _) & _).
      exists kv. by apply scannable_rows_elem.
    + intros (kv & Hkv%scannable_rows_elem). destruct (g !! runId) as [[i t]|] eqn:Hg.
      * apply list_elem_of_fmap. exists {| is_runId := runId; is_lastCompletedStep := i; is_lastCompletedAtMs := t |}.
        split; [done|]. by apply Helem.
      * destruct Hkv as [Hin Hr]. by eapply groups_none in Hg.
  - apply Forall_forall. intros s Hs%Helem. apply groups_some in Hs as ((k1 & H1 & H1') & (k2 & H2 & H2') & Hmax).
    split_and!; [exists k1; by rewrite <- scannable_rows_elem|exists k2; by rewrite <- scannable_rows_elem|].
    intros kv Hkv%scannable_rows_elem. by apply Hmax.
Qed.

(** The scan finds exactly the interrupted runs.  Each run is reported
    once, the latest first; a run is reported exactly when it has no terminal
    marker and some completed row within the window, and it is reported with
    the greatest step and the latest time of such rows. *)
Lemma scanInterrupted_exact (withinMs : option Z) (nowMs : Z) (st : Store) :
  let found := scanInterrupted withinMs nowMs st in
  NoDup (is_runId <$> found) /\
  StronglySorted (fun a b => (is_lastCompletedAtMs b <= is_lastCompletedAtMs a)%Z) found /\
  (forall runId, runId ∈ is_runId <$> found <-> exists kv, resumable withinMs nowMs st runId kv) /\
  Forall (fun s => maxima (resumable withinMs nowMs st (is_runId s)) (is_lastCompletedStep s) (is_lastCompletedAtMs s)) found.
Proof. apply scanInterrupted_facts. Qed.

(** ** Task checkpoints: a finite map *)
Inductive TaskOp :=
  | TCreate (taskId stage : string) (files : list string) (nowMs : Z)
  | TStage (taskId stage : string) (files : option (list string)) (nowMs : Z)
  | TArtifacts (taskId : string) (files : list string) (nowMs : Z).
Definition task_step (st : Store) (op : TaskOp) : Store :=
  match op with
  | TCreate id stage files now => createTaskCheckpoint id stage now files st
  | TStage id stage files now => updateTaskStage id stage now files st
  | TArtifacts id files now => setTaskArtifacts id files now st
  end.
(** What the operations promise: creation never overwrites, an update never creates. *)
Definition task_spec (m : gmap string TaskCheckpoint) (op : TaskOp) : gmap string TaskCheckpoint :=
  match op with
  | TCreate id stage files _ =>
      match m !! id with Some _ => m | None => <[id := {| tc_stage := stage; tc_scopeArtifacts := files |}]> m end
  | TStage id stage files _ =>
      alter (fun c => {| tc_stage := stage; tc_scopeArtifacts := default (tc_scopeArtifacts c) files |}) id m
  | TArtifacts id files _ => alter (fun c => {| tc_stage := tc_stage c; tc_scopeArtifacts := files |}) id m
  end.

Lemma read_artifacts_json files : read_artifacts (artifacts_json files) = files.
Proof.
  unfold read_artifacts, artifacts_json. rewrite parse_stringify.
  - induction files as [|f files IH]; [done|]. cbn. by f_equal.
  - cbn. by induction files.
Qed.
Definition find_task (taskId : string) (l : list TaskRec) : option TaskRec :=
  List.find (fun r => (t_task_id r =? taskId)%string) l.
Lemma find_task_update id f l id' : (forall r, t_task_id (f r) = t_task_id r) ->
  find_task id' (List.map (fun r => if (t_task_id r =? id)%string then f r else r) l) =
  if decide (id' = id) then f <$> find_task id l else find_task id' l.
Proof.
  intros Hf. unfold find_task. induction l as [|r l IH]; cbn; [by case_decide|].
  destruct (String.eqb_spec (t_task_id r) id) as [E|E]; rewrite ?Hf.
  - destruct (String.eqb_spec (t_task_id r) id'); case_decide; subst; done.
  - rewrite IH. destruct (String.eqb_spec (t_task_id r) id'); case_decide; subst; done.
Qed.
Lemma find_task_create id r l id' : t_task_id r = id ->
  find_task id' (l ++ [r]) = match find_task id' l with Some x => Some x | None => if decide (id' = id) then Some r else None end.
Proof.
  intros <-. unfold find_task. induction l as [|x l IH]; cbn.
  - rewrite (String.eqb_sym _ id'). destruct (String.eqb_spec id' (t_task_id r)); by case_decide.
  - by destruct (t_task_id x =? id')%string.
Qed.
Lemma find_task_exists id l : existsb (fun r => (t_task_id r =? id)%string) l = bool_decide (is_Some (find_task id l)).
Proof.
  induction l as [|x l IH]; [done|]. cbn. by destruct (t_task_id x =? id)%string.
Qed.
Lemma task_step_refines st m op :
  (forall id, getTaskCheckpoint id st = m !! id) -> forall id, getTaskCheckpoint id (task_step st op) = task_spec m op !! id.
Proof.
  unfold getTaskCheckpoint. intros H id. fold (find_task id (task_checkpoints (task_step st op))).
  assert (forall i, task_view <$> find_task i (task_checkpoints st) = m !! i) as Hm by exact H. clear H.
  destruct op as [i stage files now|i stage files now|i files now]; cbn [task_step task_spec].
  - unfold createTaskCheckpoint. rewrite find_task_exists, <- (Hm i).
    destruct (find_task i (task_checkpoints st)) as [x|] eqn:Hx; [apply Hm|].
    cbn [bool_decide task_checkpoints with_tasks fmap option_fmap option_map].
    rewrite (bool_decide_eq_false_2 (is_Some None)) by (intros [? ?]; done). cbn [task_checkpoints with_tasks].
    rewrite (find_task_create i) by done. destruct (decide (id = i)) as [->|Hne].
    + rewrite Hx, lookup_insert_eq. cbn [fmap option_fmap option_map]. unfold task_view. cbn [t_stage t_scope_artifacts_json].
      by rewrite read_artifacts_json.
    + rewrite lookup_insert_ne, <- Hm by done. by destruct (find_task id _).
  - unfold updateTaskStage, update_task. cbn [task_checkpoints with_tasks]. rewrite find_task_update by done.
    case_decide as Hid; [|by rewrite lookup_alter_ne].
    subst id. rewrite lookup_alter_eq, <- Hm. destruct (find_task i _); [|done].
    cbn [fmap option_fmap option_map]. unfold task_view. cbn [t_stage t_scope_artifacts_json tc_stage tc_scopeArtifacts].
    destruct files; by rewrite ?read_artifacts_json.
  - unfold setTaskArtifacts, update_task. cbn [task_checkpoints with_tasks]. rewrite find_task_update by done.
    case_decide as Hid; [|by rewrite lookup_alter_ne].
    subst id. rewrite lookup_alter_eq, <- Hm. destruct (find_task i _); [|done].
    cbn [fmap option_fmap option_map]. unfold task_view. cbn [t_stage t_scope_artifacts_json tc_stage tc_scopeArtifacts].
    by rewrite read_artifacts_json.
Qed.

(** The task table is a finite map.  Whatever creations, stage updates
    and artifact writes are made on an empty store, in any order and at any
    times, a task reads as the map reads where creation never overwrites, an
    update never creates, and a stage update without artifacts keeps them. *)
Lemma task_checkpoints_refine (ops : list TaskOp) (taskId : string) :
  getTaskCheckpoint taskId (fold_left task_step ops emptyStore) = fold_left task_spec ops ∅ !! taskId.
Proof.
  assert (forall id, getTaskCheckpoint id emptyStore = (∅ : gmap string TaskCheckpoint) !! id) as H by done.
  revert taskId. generalize dependent (∅ : gmap string TaskCheckpoint). generalize emptyStore.
  induction ops as [|op ops IH]; intros st m H; [done|]. cbn. apply IH. by apply task_step_refines.
Qed.

(** ** Witnesses *)
Definition demo_write (i : nat) (v : JsValue) (s : Status) (t : Z) : CheckpointWrite :=
  {| cw_runId := "r"; cw_stepIdx := i; cw_fn := "f"; cw_inputsHash := "h"; cw_outputs := v; cw_asBinding := Some "a";
     cw_startedAtMs := t; cw_completedAtMs := t; cw_status := s; cw_errorMessage := None |}.
Definition demo_rows : result string Store :=
  st <-? append (demo_write 0 (JsStr "old") completed 10) emptyStore ;;
  st <-? append (demo_write 3 (JsStr "new") completed 12) st ;;
  append (demo_write 4 JsNull errored 13) st.
Definition demo_rows_store : Store := match demo_rows with Ok st => st | Err _ => emptyStore end.
Lemma demo_rows_loadable : loadable "r" demo_rows_store.
Proof.
  assert (demo_rows = Ok demo_rows_store) as E by (vm_compute; reflexivity). unfold demo_rows in E.
  apply bind_ok in E as (st & E1 & (st2 & E2 & E3)%bind_ok).
  eapply (append_loadable (demo_write 4 _ _ _)); [|exact E3|eapply (append_loadable (demo_write 3 _ _ _));
    [|exact E2|eapply (append_loadable (demo_write 0 _ _ _)); [|exact E1|]]]; try done.
Qed.
Lemma loadBindings_latest_witness :
  exists out, loadBindings "r" demo_rows_store = Ok out /\ obj_get "a" out = Some (JsStr "new") /\
  ~ exists i, bound "r" demo_rows_store "a" (JsStr "old") i /\
      forall j v, bound "r" demo_rows_store "a" v j -> j <= i.
Proof.
  destruct (loadBindings_latest "r" "a" demo_rows_store demo_rows_loadable) as (out & Ho & H); [done|].
  assert (out = [("a", JsStr "new")]) as ->.
  { assert (loadBindings "r" demo_rows_store = Ok [("a", JsStr "new")]) as E by (vm_compute; reflexivity). congruence. }
  eexists. split_and!; [done|done|]. by intros Hold%H.
Defined.
