(* ===== verification/Evaluator.v ===== *)
(** * The process evaluator ([src/src/runtime/evaluator.ts], [src/src/functions/registry.ts])

    A rule's steps are run in order through the function registry, with
    template interpolation, conditions, failure and emptiness policies, and the
    durable and memoised wraps.  An evaluation is a computation over the world
    (checkpoint store, memo cache, and the environment primitives act on) that
    also emits what it does, so that a crash can be placed after any effect.
    The clock is a reading of the environment. *)

From Stdlib Require Import Ascii String QArith.
From stdpp Require Import base option list sets strings pretty gmap fin_maps.
From S2P Require Import Prelude Json JsonText CanonicalJson CheckpointStore ExprSyntax ExprGrammar ExprEval.
#[local] Open Scope os_scope.

Abbreviation Bindings := (gmap string JsValue).

(** ** Values *)
(** The own index properties of bytes. *)
Definition byte_entries (b : string) : list (string * JsValue) :=
  imap (fun i c => (pretty i, JsNum (Z.of_nat (nat_of_ascii c)))) (String.list_ascii_of_string b).
(** The value as conditions see it, its objects numbered from [n] (no object
    is shared).  Functions and bigints are opaque objects. *)
Fixpoint embed (v : JsValue) (n : positive) : Value * positive :=
  match v with
  | JsUndef => (VUndef, n) | JsNull => (VNull, n) | JsBool b => (VBool b, n)
  | JsNum z => (VNum (Fin (inject_Z z)), n)
  | JsNaN => (VNum NaN, n) | JsInfinity negative => (VNum (Infinite negative), n)
  | JsStr s => (VStr s, n)
  | JsFunction | JsBigInt _ | JsDate _ => (VObj n [], Pos.succ n)
  | JsBytes b =>
      (VObj n (imap (fun i c => (pretty i, of_count (nat_of_ascii c))) (String.list_ascii_of_string b)), Pos.succ n)
  | JsArr l =>
      let r := (fix go (l : list JsValue) (m : positive) : list Value * positive :=
        match l with
        | [] => ([], m)
        | x :: l' => let a := embed x m in let b := go l' a.2 in (a.1 :: b.1, b.2)
        end) l (Pos.succ n) in (VArr n r.1, r.2)
  | JsObj o =>
      let r := (fix go (o : list (string * JsValue)) (m : positive) : list (string * Value) * positive :=
        match o with
        | [] => ([], m)
        | (k, x) :: o' => let a := embed x m in let b := go o' a.2 in ((k, a.1) :: b.1, b.2)
        end) o (Pos.succ n) in (VObj n r.1, r.2)
  end.
Definition embed_bindings (b : Bindings) : gmap string Value :=
  (foldr (fun kv acc => let a := embed kv.2 acc.2 in (<[kv.1 := a.1]> acc.1, a.2)) (∅, 1%positive) (map_to_list b)).1.

(** A parse cache that keeps nothing; the cache never changes a condition. *)
#[export] Program Instance no_cache : ParseCache unit := {|
  getCached _ c := (None, c); setCached _ _ c := c; cached _ _ _ := False
|}.
Solve All Obligations with (intros; cbn in *; naive_solver).
Definition evalIf `{Re2} (expr : string) (b : Bindings) : bool := (evalCondition expr (embed_bindings b) tt).1.

(** ** Interpolation *)
(** A property read on an object; what an object inherits never reaches a text. *)
Definition js_prop (cur : JsValue) (seg : string) : JsValue :=
  match cur with
  | JsObj o => default JsUndef (obj_get seg o)
  | JsArr l =>
      if (seg =? "length")%string then JsNum (Z.of_nat (length l))
      else default JsUndef (obj_get seg (imap (fun i x => (pretty i, x)) l))
  | JsBytes b =>
      if (seg =? "length")%string || (seg =? "byteLength")%string then JsNum (Z.of_nat (String.length b))
      else default JsUndef (obj_get seg (byte_entries b))
  | _ => JsUndef
  end.
(** [typeof v === 'object' && v !== null] *)
Definition is_object (v : JsValue) : bool :=
  match v with JsObj _ | JsArr _ | JsDate _ | JsBytes _ => true | _ => false end.
Fixpoint walk_path (cur : JsValue) (segments : list string) : JsValue :=
  match segments with
  | [] => cur
  | seg :: rest => if is_object cur then walk_path (js_prop cur seg) rest else JsUndef
  end.
Definition resolveBindingPath (path : string) (b : Bindings) : JsValue :=
  match split_char "." path with
  | [] => JsUndef
  | head :: rest => walk_path (default JsUndef (b !! head)) rest
  end.
Definition stringifyBinding (v : JsValue) : string :=
  match toolValueString (embed v 1).1 with
  | Some s => s
  | None =>
      match v with
      | JsStr s => s
      | JsNum n => pretty n
      | JsBigInt n => pretty n
      | JsNaN => "NaN"
      | JsInfinity negative => if negative then "-Infinity" else "Infinity"
      | JsBool b => if b then "true" else "false"
      | _ => ""
      end
  end.

(** [\{\{\s*([\w.]+)\s*\}\}] at the front: the name and the rest. *)
Definition template_at (s : string) : option (string * string) :=
  match s with
  | String "{" (String "{" r) =>
      let '(name, r') := span (fun c => is_word c || Ascii.eqb c ".") (span is_space r).2 in
      if (name =? "")%string then None
      else match (span is_space r').2 with
           | String "}" (String "}" rest) => Some (name, rest)
           | _ => None
           end
  | _ => None
  end.
(** Every match replaced, left to right; [fuel] bounds the length. *)
Fixpoint replace_templates (fuel : nat) (f : string -> string) (s : string) : string :=
  match fuel with
  | O => s
  | S fuel' =>
      match s with
      | EmptyString => ""
      | String c r =>
          match template_at s with
          | Some (name, rest) => f name +:+ replace_templates fuel' f rest
          | None => String c (replace_templates fuel' f r)
          end
      end
  end.
Definition interpolateString (b : Bindings) (s : string) : string :=
  replace_templates (String.length s) (fun name => stringifyBinding (resolveBindingPath name b)) s.
Fixpoint interpolateValue (b : Bindings) (v : JsValue) : JsValue :=
  match v with
  | JsStr s => JsStr (interpolateString b s)
  | JsArr l => JsArr (List.map (interpolateValue b) l)
  | JsObj o => JsObj (set_props (List.map (fun kv => (kv.1, interpolateValue b kv.2)) o) [])
  | JsBytes s => JsObj (byte_entries s)
  | JsDate _ => JsObj []
  | v => v
  end.

(** ** Verdict shapes *)
Definition isEmpty (v : JsValue) : bool :=
  match v with
  | JsUndef | JsNull | JsArr [] => true
  | JsStr s => (s =? "")%string
  | _ => false
  end.
Definition isVerdict (v : JsValue) : bool :=
  match v with
  | JsObj o =>
      match obj_get "level" o with
      | Some (JsStr level) =>
          if (level =? "directive")%string then
            match obj_get "next_action" o with Some na => is_object na | None => false end
          else match obj_get "message" o with Some (JsStr _) => true | _ => false end
      | _ => false
      end
  | _ => false
  end.
Definition isInjectContext (v : JsValue) : option string :=
  match v with
  | JsObj o =>
      match obj_get "kind" o, obj_get "content" o with
      | Some (JsStr k), Some (JsStr content) => if (k =? "inject_context")%string then Some content else None
      | _, _ => None
      end
  | _ => None
  end.
Inductive RuleResult :=
| RVerdict (verdict : JsValue)
| RDirective (next_action : JsValue)
| RNoVerdict
| RError (error : string) (step : nat)
| RInjectContext (content : string).

(** ** Steps and primitives *)
Inductive OnEmpty := EmptyPass | EmptyBlock | EmptyContinue.
Inductive OnError := ErrorAbort | ErrorContinue.
Record ProcessStep := {
  ps_call : string; ps_args : option (list (string * JsValue)); ps_as : option string;
  ps_if : option string; ps_on_empty : option OnEmpty; ps_on_error : option OnError;
}.
Inductive ErrorKind := arg_invalid | runtime | timeout | not_found.
Record FunctionError := { fe_kind : ErrorKind; fe_message : string }.
(** An [Err] of [CallResult] is a failure travelling as a value. *)
Abbreviation CallResult := (result FunctionError JsValue).
Record EvalCtx := { ctx_event : JsValue; ctx_sessionId : string; ctx_packId : string; ctx_bindings : Bindings }.
Definition with_bindings (b : Bindings) (ctx : EvalCtx) : EvalCtx :=
  {| ctx_event := ctx_event ctx; ctx_sessionId := ctx_sessionId ctx; ctx_packId := ctx_packId ctx;
     ctx_bindings := b |}.
(** [argSchema] is the zod schema's [safeParse]; a rejected [execute] is an
    outer [Err]. *)
Record FunctionDef (E : Type) := {
  fd_name : string;
  fd_argSchema : JsValue -> result string JsValue;
  fd_execute : JsValue -> EvalCtx -> E -> result string CallResult * E;
  fd_durable : option bool; fd_memoizable : option bool; fd_costEstimateMs : option Z;
}.
Arguments fd_name {E}. Arguments fd_argSchema {E}. Arguments fd_execute {E}.
Arguments fd_durable {E}. Arguments fd_memoizable {E}. Arguments fd_costEstimateMs {E}.
Record PrimitiveDurability := { durable : bool; memoizable : bool; costEstimateMs : option Z }.

Section Registry.
Context {E : Type}.
(** The map in insertion order. *)
Abbreviation Registry := (list (string * FunctionDef E)).
Definition register (def : FunctionDef E) (r : Registry) : result string Registry :=
  if obj_has (fd_name def) r
  then Err ("Function " +:+ quoted (fd_name def) +:+ " already registered")
  else Ok (obj_set (fd_name def) def r).
Definition list_names (r : Registry) : list string := stable_sort String.leb (obj_keys r).
Definition durability (r : Registry) (name : string) : option PrimitiveDurability :=
  (fun def => {| durable := default false (fd_durable def); memoizable := default false (fd_memoizable def);
                 costEstimateMs := fd_costEstimateMs def |}) <$> obj_get name r.
End Registry.

(** ** The memo cache the evaluator is given *)
Class Memo (M : Type) := {
  memo_get : string -> string -> option Z -> Z -> M -> result string (option JsValue) * M;
  memo_set : string -> string -> JsValue -> option Z -> Z -> M -> result string unit * M;
}.

Section Evaluator.
Context {E M : Type} `{Re : Re2} `{MemoOps : Memo M}
  (clock : E -> Z) (sha256Hex : string -> string) (registry : list (string * FunctionDef E)).

Record World := { w_store : Store; w_memo : M; w_env : E }.
(** A primitive of step [i] has run; the row of step [i] has been written. *)
Inductive Event := Invoked (i : nat) | Wrote (i : nat) (s : Status).
Definition ev_step (e : Event) : nat := match e with Invoked i | Wrote i _ => i end.

(** What was done, each event with the world it left; the outcome ([Err] is a
    rejected promise); the final world. *)
Record Run (A : Type) := { r_trace : list (Event * World); r_out : result string A; r_world : World }.
Definition Eff (A : Type) : Type := World -> Run A.
#[global] Instance eff_ret : MRet Eff := fun A a w =>
  {| r_trace := []; r_out := Ok a; r_world := w |}.
#[global] Instance eff_bind : MBind Eff := fun A B f m w =>
  let r := m w in
  match r_out _ r with
  | Err e => {| r_trace := r_trace _ r; r_out := Err e; r_world := r_world _ r |}
  | Ok a => let r' := f a (r_world _ r) in
            {| r_trace := r_trace _ r ++ r_trace _ r'; r_out := r_out _ r'; r_world := r_world _ r' |}
  end.
Definition lift {A} (m : result string A) : Eff A := fun w =>
  {| r_trace := []; r_out := m; r_world := w |}.

(** *** Effects *)
Definition call (i : nat) (name : string) (rawArgs : JsValue) (ctx : EvalCtx) : Eff CallResult := fun w =>
  match obj_get name registry with
  | None => mret (M := Eff) (Err {| fe_kind := not_found; fe_message := "No function " +:+ quoted name |}) w
  | Some def =>
      match fd_argSchema def rawArgs with
      | Err why => mret (M := Eff) (Err {| fe_kind := arg_invalid;
                                fe_message := "Invalid args for " +:+ quoted name +:+ ": " +:+ why |}) w
      | Ok args =>
          let r := fd_execute def args ctx (w_env w) in
          let w' := {| w_store := w_store w; w_memo := w_memo w; w_env := r.2 |} in
          {| r_trace := [(Invoked i, w')]; r_out := r.1; r_world := w' |}
      end
  end.
Definition now : Eff Z := fun w => mret (M := Eff) (clock (w_env w)) w.
Definition append_row (write : CheckpointWrite) : Eff unit := fun w =>
  match append write (w_store w) with
  | Err e => lift (Err e) w
  | Ok st => let w' := {| w_store := st; w_memo := w_memo w; w_env := w_env w |} in
             {| r_trace := [(Wrote (cw_stepIdx write) (cw_status write), w')]; r_out := Ok tt; r_world := w' |}
  end.
Definition cache_get (fn hash : string) (ttl : option Z) : Eff (option JsValue) := fun w =>
  let r := memo_get fn hash ttl (clock (w_env w)) (w_memo w) in
  {| r_trace := []; r_out := r.1; r_world := {| w_store := w_store w; w_memo := r.2; w_env := w_env w |} |}.
Definition cache_set (fn hash : string) (v : JsValue) (ttl : option Z) : Eff unit := fun w =>
  let r := memo_set fn hash v ttl (clock (w_env w)) (w_memo w) in
  {| r_trace := []; r_out := r.1; r_world := {| w_store := w_store w; w_memo := r.2; w_env := w_env w |} |}.

(** *** The wraps *)
(** A run id when a checkpoint store is passed, a TTL policy when a memo is. *)
Context (checkpoint : option string) (memo : option (string -> option Z)).

Definition interpolateArgs (step : ProcessStep) (b : Bindings) : JsValue :=
  interpolateValue b (JsObj (default [] (ps_args step))).
Definition inputsHashOf (fn : string) (args : JsValue) : result string string :=
  text <-? canonicalJsonStringify (JsObj [("fn", JsStr fn); ("args", args)]) ;; sha_of sha256Hex text.

(** Singleflight adds nothing while no other evaluation is in flight. *)
Definition invokePrimitive (i : nat) (fn inputsHash : string) (args : JsValue) (ctx : EvalCtx)
    (memo : option (string -> option Z)) : Eff CallResult :=
  match memo with
  | None => call i fn args ctx
  | Some ttlForFn =>
      result ← call i fn args ctx;
      match result with
      | Ok v => cache_set fn inputsHash v (ttlForFn fn) ≫= fun _ => mret result
      | Err _ => mret result
      end
  end.
Definition checkpoint_write (runId : string) (i : nat) (step : ProcessStep) (inputsHash : string)
    (outputs : JsValue) (started ended : Z) (s : Status) (message : option string) : CheckpointWrite :=
  {| cw_runId := runId; cw_stepIdx := i; cw_fn := ps_call step; cw_inputsHash := inputsHash;
     cw_outputs := outputs; cw_asBinding := ps_as step; cw_startedAtMs := started; cw_completedAtMs := ended;
     cw_status := s; cw_errorMessage := message |}.
(** A completed row of the same inputs. *)
Definition checkpoint_hit (inputsHash : string) (prior : option CheckpointRow) : option JsValue :=
  match prior with
  | Some row => if bool_decide (cr_status row = completed) && (cr_inputsHash row =? inputsHash)%string
                then Some (cr_outputs row) else None
  | None => None
  end.
Definition invokeDurable (i : nat) (step : ProcessStep) (args : JsValue) (ctx : EvalCtx) (runId : string)
    (prior : option CheckpointRow) (memo : option (string -> option Z)) : Eff CallResult :=
  inputsHash ← lift (inputsHashOf (ps_call step) args);
  match checkpoint_hit inputsHash prior with
  | Some v => mret (Ok v)
  | None =>
      hit ← match memo with
            | None => mret None
            | Some ttlForFn => cache_get (ps_call step) inputsHash (ttlForFn (ps_call step))
            end;
      match hit with
      | Some v =>
          cachedAtMs ← now;
          append_row (checkpoint_write runId i step inputsHash v cachedAtMs cachedAtMs completed None)
          ≫= fun _ => mret (Ok v)
      | None =>
          startedAtMs ← now;
          result ← invokePrimitive i (ps_call step) inputsHash args ctx memo;
          completedAtMs ← now;
          append_row
                match result with
                | Ok v => checkpoint_write runId i step inputsHash v startedAtMs completedAtMs completed None
                | Err e => checkpoint_write runId i step inputsHash JsNull startedAtMs completedAtMs errored
                             (Some (fe_message e))
                end
          ≫= fun _ => mret result
      end
  end.
Definition invokeMemoized (i : nat) (step : ProcessStep) (args : JsValue) (ctx : EvalCtx)
    (ttlForFn : string -> option Z) : Eff CallResult :=
  inputsHash ← lift (inputsHashOf (ps_call step) args);
  hit ← cache_get (ps_call step) inputsHash (ttlForFn (ps_call step));
  match hit with
  | Some v => mret (Ok v)
  | None => invokePrimitive i (ps_call step) inputsHash args ctx (Some ttlForFn)
  end.

(** *** One step *)
Definition isDurable (step : ProcessStep) : bool :=
  match checkpoint with
  | Some _ => default false (durable <$> durability registry (ps_call step))
  | None => false
  end.
Definition isMemoizable (step : ProcessStep) : bool :=
  match memo with
  | Some _ => default false (memoizable <$> durability registry (ps_call step))
  | None => false
  end.
Definition dispatch (prior : gmap nat CheckpointRow) (i : nat) (step : ProcessStep) (ctx : EvalCtx)
    : Eff CallResult :=
  let args := interpolateArgs step (ctx_bindings ctx) in
  match checkpoint, isDurable step, memo, isMemoizable step with
  | Some runId, true, _, m => invokeDurable i step args ctx runId (prior !! i) (if m then memo else None)
  | _, _, Some ttlForFn, true => invokeMemoized i step args ctx ttlForFn
  | _, _, _, _ => call i (ps_call step) args ctx
  end.
Inductive Outcome := Continue (b : Bindings) | Return (r : RuleResult).
Definition bind_as (step : ProcessStep) (v : JsValue) (b : Bindings) : Bindings :=
  match ps_as step with Some name => <[name := v]> b | None => b end.
Definition emptyVerdict (i : nat) : JsValue :=
  JsObj [("level", JsStr "block"); ("message", JsStr ("Step " +:+ pretty i +:+ " returned empty"))].
(** What the loop does with the step's result. *)
Definition settle_step (i : nat) (step : ProcessStep) (b : Bindings) (result : CallResult) : Outcome :=
  match result with
  | Err e =>
      match ps_on_error step with
      | Some ErrorContinue => Continue (bind_as step (JsStr (fe_message e)) b)
      | _ => Return (RError (fe_message e) i)
      end
  | Ok v =>
      if (ps_call step =? "verdict")%string && isVerdict v then
        match js_prop v "level" with
        | JsStr level => if (level =? "directive")%string then Return (RDirective (js_prop v "next_action"))
                         else Return (RVerdict v)
        | _ => Return (RVerdict v)
        end
      else match isInjectContext v with
      | Some content => Return (RInjectContext content)
      | None =>
          match isEmpty v, ps_on_empty step with
          | true, Some EmptyPass => Return RNoVerdict
          | true, Some EmptyBlock => Return (RVerdict (emptyVerdict i))
          | _, _ => Continue (bind_as step v b)
          end
      end
  end.
Definition evalStep (prior : gmap nat CheckpointRow) (ctx : EvalCtx) (i : nat) (step : ProcessStep)
    (b : Bindings) : Eff Outcome :=
  if match ps_if step with Some expr => negb (evalIf expr b) | None => false end
  then mret (Continue b)
  else result ← dispatch prior i step (with_bindings b ctx); mret (settle_step i step b result).
Fixpoint evalSteps (prior : gmap nat CheckpointRow) (ctx : EvalCtx) (i : nat) (steps : list ProcessStep)
    (b : Bindings) : Eff RuleResult :=
  match steps with
  | [] => mret RNoVerdict
  | step :: rest =>
      out ← evalStep prior ctx i step b;
      match out with
      | Return r => mret r
      | Continue b' => evalSteps prior ctx (S i) rest b'
      end
  end.

Definition loadCheckpointMap (runId : string) (st : Store) : result string (gmap nat CheckpointRow) :=
  rows <-? fetchRun runId st ;;
  Ok (fold_left (fun out row => <[cr_stepIdx row := row]> out) rows ∅).
Definition evaluateProcess (steps : list ProcessStep) (ctx : EvalCtx) : Eff RuleResult := fun w =>
  match (match checkpoint with Some runId => loadCheckpointMap runId (w_store w) | None => Ok ∅ end) with
  | Err e => lift (Err e) w
  | Ok prior => evalSteps prior ctx 0 steps (ctx_bindings ctx) w
  end.
End Evaluator.
