(* ===== verification/EvaluatorProps.v ===== *)
(** * Properties of the process evaluator

    Recovery: an evaluation restarted on the store a crash left behind does
    not run a recorded step again and ends as the uninterrupted one would. *)

From Stdlib Require Import Ascii String.
From stdpp Require Import base option list sets strings pretty gmap fin_maps.
From S2P Require Import Prelude Json JsonText CanonicalJson CheckpointStore CheckpointProps.
From S2P Require Import ExprSyntax ExprGrammar ExprEval Evaluator.
#[local] Open Scope os_scope.

(** What the evaluator relies on, for the hashes the cache is made for: a cache
    that holds only values satisfying [P] answers with such values, and stores
    any storable one. *)
Class MemoLaws (M : Type) `{Memo M} := {
  memo_hash : string -> Prop;
  memo_holds : (string -> string -> JsValue -> Prop) -> M -> Prop;
  memo_get_law : forall P fn h ttl t m, memo_hash h -> memo_holds P m ->
    exists o m', memo_get fn h ttl t m = (Ok o, m') /\ memo_holds P m' /\ forall v, o = Some v -> P fn h v;
  memo_set_law : forall P fn h v ttl t m, memo_hash h -> memo_holds P m -> P fn h v -> storable v ->
    exists m', memo_set fn h v ttl t m = (Ok tt, m') /\ memo_holds P m';
}.
(** A cache of storable values. *)
Definition memo_ok {M} `{MemoLaws M} : M -> Prop := memo_holds (fun _ _ => storable).

Section Unfolding.
Context {E M : Type} `{Re : Re2} `{MemoOps : Memo M}
  (clock : E -> Z) (sha256Hex : string -> string) (registry : list (string * FunctionDef E))
  (checkpoint : option string) (memo : option (string -> option Z)).
Abbreviation Eff := (@Eff E M).
Abbreviation evalStep := (@evalStep E M Re MemoOps clock sha256Hex registry checkpoint memo).
Abbreviation evalSteps := (@evalSteps E M Re MemoOps clock sha256Hex registry checkpoint memo).
Lemma bind_run {A B} (m : Eff A) (f : A -> Eff B) w :
  (m ≫= f) w =
  match r_out _ (m w) with
  | Err e => {| r_trace := r_trace _ (m w); r_out := Err e; r_world := r_world _ (m w) |}
  | Ok a => {| r_trace := r_trace _ (m w) ++ r_trace _ (f a (r_world _ (m w)));
               r_out := r_out _ (f a (r_world _ (m w))); r_world := r_world _ (f a (r_world _ (m w))) |}
  end.
Proof. done. Qed.

(** A first half that emits nothing. *)
Lemma bind_silent {A B} (m : Eff A) (f : A -> Eff B) w w' a :
  m w = {| r_trace := []; r_out := Ok a; r_world := w' |} -> (m ≫= f) w = f a w'.
Proof. intros E0. rewrite bind_run, E0. cbn. by destruct (f a w'). Qed.

Lemma evalSteps_cons prior ctx i step rest b w :
  let r := evalStep prior ctx i step b w in
  evalSteps prior ctx i (step :: rest) b w =
  match r_out _ r with
  | Ok (Continue b') =>
      let r' := evalSteps prior ctx (S i) rest b' (r_world _ r) in
      {| r_trace := r_trace _ r ++ r_trace _ r'; r_out := r_out _ r'; r_world := r_world _ r' |}
  | Ok (Return res) => {| r_trace := r_trace _ r; r_out := Ok res; r_world := r_world _ r |}
  | Err e => {| r_trace := r_trace _ r; r_out := Err e; r_world := r_world _ r |}
  end.
Proof.
  cbn [Evaluator.evalSteps]. rewrite bind_run. destruct (r_out _ (evalStep prior ctx i step b w)) as [[b'|res]|e]; [done| |done].
  cbn. by rewrite app_nil_r.
Qed.
End Unfolding.

Section Recovery.
Context {E M : Type} `{Re : Re2} `{MemoOps : Memo M} `{!MemoLaws M}
  (clock : E -> Z) (sha256Hex : string -> string) (registry : list (string * FunctionDef E))
  (runId : string) (memo : option (string -> option Z)) (Hsha : forall s, memo_hash (sha256Hex s)).

Abbreviation World := (@World E M).
Abbreviation Eff := (@Eff E M).
Abbreviation isDurable := (@isDurable E registry (Some runId)).
Abbreviation isMemoizable := (@isMemoizable E registry memo).
Abbreviation evalStep := (@evalStep E M Re MemoOps clock sha256Hex registry (Some runId) memo).
Abbreviation evalSteps := (@evalSteps E M Re MemoOps clock sha256Hex registry (Some runId) memo).
Abbreviation evaluateProcess := (@evaluateProcess E M Re MemoOps clock sha256Hex registry (Some runId) memo).

(** What the steps promise: a durable primitive returns storable values and its
    failures are not continued over; any other primitive is not memoised and
    is a function of its arguments and context. *)
Definition pure_primitive (def : FunctionDef E) : Prop :=
  exists f, forall args ctx e, fd_execute def args ctx e = (f args ctx, e).
Definition storable_outputs (def : FunctionDef E) : Prop :=
  forall args ctx e v e', fd_execute def args ctx e = (Ok (Ok v), e') -> storable v.
Definition recoverable (step : ProcessStep) : Prop :=
  if isDurable step
  then ps_on_error step <> Some ErrorContinue /\
       forall def, obj_get (ps_call step) registry = Some def -> storable_outputs def
  else isMemoizable step = false /\
       forall def, obj_get (ps_call step) registry = Some def -> pure_primitive def.

(** The world a crash after [tr] finds, from [w]. *)
Definition last_world (tr : list (Event * World)) (w : World) : World := default w (snd <$> last tr).
Definition agrees (i : nat) (prior : gmap nat CheckpointRow) (st : Store) : Prop :=
  forall j, i <= j -> prior !! j = row_of runId st j.

(** ** A step that is not durable leaves the world alone *)
Record quiet_run {A} (i : nat) (w : World) (out : result string A) (r : Run A) : Prop := {
  q_out : r_out _ r = out;
  q_world : r_world _ r = w;
  q_trace : Forall (fun ew => ew.1 = Invoked i /\ ew.2 = w) (r_trace _ r);
}.
Lemma call_quiet i name args ctx :
  (forall def, obj_get name registry = Some def -> pure_primitive def) ->
  exists out, forall w, quiet_run i w out (call registry i name args ctx w).
Proof.
  intros Hp. unfold call. destruct (obj_get name registry) as [def|] eqn:Ed.
  - destruct (fd_argSchema def args) as [args'|why].
    + destruct (Hp def eq_refl) as [f Hf]. exists (f args' ctx). intros w. rewrite Hf.
      split; cbn; [done|by destruct w|]. repeat constructor. by destruct w.
    + eexists. intros w. split; cbn; [reflexivity|done|constructor].
  - eexists. intros w. split; cbn; [reflexivity|done|constructor].
Qed.
Lemma evalStep_quiet ctx i step b :
  recoverable step -> isDurable step = false ->
  exists out, forall prior w, quiet_run i w out (evalStep prior ctx i step b w).
Proof.
  unfold recoverable. intros Hr Hd. rewrite Hd in Hr. destruct Hr as [Hm Hp].
  unfold Evaluator.evalStep. destruct (match ps_if step with Some _ => _ | None => false end).
  - eexists. intros prior w. split; cbn; [reflexivity|done|constructor].
  - unfold dispatch. rewrite Hd, Hm.
    destruct (call_quiet i (ps_call step) (interpolateArgs step (ctx_bindings (with_bindings b ctx)))
      (with_bindings b ctx) Hp) as [out Hout].
    exists (settle_step i step b <$> out). intros prior w.
    assert (quiet_run i w (settle_step i step b <$> out)
      ((result ← call registry i (ps_call step)
           (interpolateArgs step (ctx_bindings (with_bindings b ctx))) (with_bindings b ctx);
        mret (settle_step i step b result)) w)) as H.
    { destruct (Hout w) as [Ho Hw Ht]. rewrite bind_run, Ho. destruct out as [a|e]; split; cbn; try done.
      by rewrite app_nil_r. }
    destruct memo; exact H.
Qed.

(** ** A durable step *)
Definition hit_row (h : string) (v : JsValue) (row : option CheckpointRow) : Prop :=
  checkpoint_hit h row = Some v.
(** Before its row is written a step has at most run its primitive. *)
Definition unwritten (i : nat) (w : World) (tr : list (Event * World)) : Prop :=
  Forall (fun ew => ew.1 = Invoked i /\ w_store ew.2 = w_store w) tr.
(** The store after the row of step [i] was written. *)
Definition row_written (i : nat) (w w' : World) : Prop :=
  (forall j, j <> i -> row_of runId (w_store w') j = row_of runId (w_store w) j) /\
  (loadable runId (w_store w) -> loadable runId (w_store w')).
Inductive durable_run {A} (settle : CallResult -> A) (i : nat) (h : string) (prior : option CheckpointRow) (w : World)
    : Run A -> Prop :=
| DThrow tr e w' : unwritten i w tr -> w_store w' = w_store w -> memo_ok (w_memo w') ->
    durable_run settle i h prior w {| r_trace := tr; r_out := Err e; r_world := w' |}
| DHit v : hit_row h v prior ->
    durable_run settle i h prior w {| r_trace := []; r_out := Ok (settle (Ok v)); r_world := w |}
| DCompleted tr v w' : unwritten i w tr -> row_written i w w' -> memo_ok (w_memo w') ->
    hit_row h v (row_of runId (w_store w') i) ->
    durable_run settle i h prior w
      {| r_trace := tr ++ [(Wrote i completed, w')]; r_out := Ok (settle (Ok v)); r_world := w' |}
| DErrored tr e w' : unwritten i w tr -> row_written i w w' -> memo_ok (w_memo w') ->
    durable_run settle i h prior w
      {| r_trace := tr ++ [(Wrote i errored, w')]; r_out := Ok (settle (Err e)); r_world := w' |}.

Lemma append_row_run write w : storable (cw_outputs write) -> cw_runId write = runId ->
  exists w', append_row write w =
    {| r_trace := [(Wrote (cw_stepIdx write) (cw_status write), w')]; r_out := Ok tt; r_world := w' |} /\
  w_memo w' = w_memo w /\ row_written (cw_stepIdx write) w w' /\
  forall h, cw_status write = completed -> cw_inputsHash write = h ->
    hit_row h (cw_outputs write) (row_of runId (w_store w') (cw_stepIdx write)).
Proof.
  intros Hs Hid. destruct (append_storable write (w_store w) Hs) as [st Hst].
  unfold append_row. rewrite Hst. eexists. split; [reflexivity|]. split; [done|]. cbn [w_store].
  pose proof (fun j => append_row_of write (w_store w) st j Hs Hst) as Hrow. rewrite Hid in Hrow.
  split; [split|].
  - intros j Hj. rewrite Hrow. by rewrite decide_False.
  - intros Hl. rewrite <- Hid in *. by eapply append_loadable.
  - intros h Hc <-. unfold hit_row, checkpoint_hit. rewrite Hrow, decide_True by done. cbn [cr_status cr_inputsHash].
    by rewrite Hc, bool_decide_eq_true_2, String.eqb_refl.
Qed.

(** A call that starts in [w] leaves the store, and keeps the memo sound. *)
Definition called (i : nat) (w : World) (r : Run CallResult) : Prop :=
  unwritten i w (r_trace _ r) /\ w_store (r_world _ r) = w_store w /\ memo_ok (w_memo (r_world _ r)) /\
  forall v, r_out _ r = Ok (Ok v) -> storable v.
Lemma call_called i name args ctx w :
  (forall def, obj_get name registry = Some def -> storable_outputs def) -> memo_ok (w_memo w) ->
  called i w (call registry i name args ctx w).
Proof.
  intros Hs Hm. unfold called, call. destruct (obj_get name registry) as [def|]; [|by split_and!; [constructor| | |]].
  destruct (fd_argSchema def args) as [args'|]; [|by split_and!; [constructor| | |]]. cbn.
  split_and!; [by repeat constructor|done|done|]. intros v Hv.
  apply (Hs def eq_refl args' ctx (w_env w) v (fd_execute def args' ctx (w_env w)).2).
  rewrite <- Hv. apply surjective_pairing.
Qed.
Lemma inputsHashOf_hash fn args h : inputsHashOf sha256Hex fn args = Ok h -> memo_hash h.
Proof. unfold inputsHashOf. intros ([t|] & _ & Ht)%bind_ok; [|done]. injection Ht as <-. apply Hsha. Qed.
Lemma invokePrimitive_called i name h args ctx memo' w :
  memo_hash h -> (forall def, obj_get name registry = Some def -> storable_outputs def) -> memo_ok (w_memo w) ->
  called i w (invokePrimitive clock registry i name h args ctx memo' w).
Proof.
  intros Hhash Hs Hm. pose proof (call_called i name args ctx w Hs Hm) as Hc.
  unfold invokePrimitive. destruct memo' as [ttl|]; [|done].
  destruct Hc as (Ht & Hst & Hmo & Hv). rewrite bind_run.
  destruct (r_out _ (call registry i name args ctx w)) as [[v|e]|e] eqn:Eo.
  - rewrite bind_run. unfold cache_set. cbn [r_out r_world r_trace].
    edestruct memo_set_law as (m' & -> & Hm'); [exact Hhash|exact Hmo|apply (Hv v eq_refl)..|].
    cbn [fst snd]. split_and!; cbn; [by rewrite ?app_nil_r|done|exact Hm'|].
    intros ? [= <-]. by apply Hv.
  - split_and!; cbn; [by rewrite app_nil_r|done|done|done].
  - split_and!; cbn; done.
Qed.
Lemma JsNull_storable : storable JsNull.
Proof. done. Qed.

Lemma invokeDurable_run i step args ctx prior memo' h w :
  (forall def, obj_get (ps_call step) registry = Some def -> storable_outputs def) ->
  inputsHashOf sha256Hex (ps_call step) args = Ok h -> memo_ok (w_memo w) ->
  durable_run (fun r => r) i h prior w
    (invokeDurable clock sha256Hex registry i step args ctx runId prior memo' w).
Proof.
  intros Hs Hh Hm. pose proof (inputsHashOf_hash _ _ _ Hh) as Hhash. unfold invokeDurable.
  rewrite (bind_silent _ _ w w h) by (unfold lift; by rewrite Hh).
  destruct (checkpoint_hit h prior) as [v|] eqn:Hhit; [by apply (DHit (fun r => r))|].
  set (look := match memo' with Some ttlForFn => _ | None => mret None end).
  assert (exists o m', look w = {| r_trace := []; r_out := o;
            r_world := {| w_store := w_store w; w_memo := m'; w_env := w_env w |} |} /\ memo_ok m' /\
            forall v, o = Ok (Some v) -> storable v) as (o & m' & Elook & Hm' & Ho).
  { unfold look, cache_get. destruct memo' as [ttl|].
    - edestruct memo_get_law as (o & m' & -> & Hok & Hv); [exact Hhash|exact Hm|]. exists (Ok o), m'.
      split_and!; [done|done|]. intros v [= ->]. by apply Hv.
    - exists (Ok None), (w_memo w). destruct w. by split_and!. }
  set (w1 := {| w_store := w_store w; w_memo := m'; w_env := w_env w |}) in *.
  destruct o as [[v|]|e]; [| |rewrite bind_run, Elook; by apply (DThrow (fun r => r) i h prior w []); [constructor|..]];
    rewrite (bind_silent _ _ w w1 _ Elook), (bind_silent _ _ w1 w1 (clock (w_env w1))) by done.
  - specialize (Ho v eq_refl).
    set (write := checkpoint_write _ _ _ _ _ _ _ _ _).
    destruct (append_row_run write w1 Ho eq_refl) as (w' & Ea & Emem & Hrow & Hhit').
    rewrite bind_run, Ea. cbn [r_out r_world r_trace mret eff_ret app].
    apply (DCompleted (fun r => r) i h prior w [] v w'); [constructor|exact Hrow| |by apply Hhit'].
    by rewrite Emem.
  - pose proof (invokePrimitive_called i (ps_call step) h args ctx memo' w1 Hhash Hs Hm') as Hc. rewrite bind_run.
    destruct (invokePrimitive _ _ _ _ _ _ _ _ w1) as [tr out w2].
    destruct Hc as (Ht & Hst & Hm2 & Hv). cbn [r_out r_world r_trace] in *.
    destruct out as [res|e]; [|by apply (DThrow (fun r => r))].
    rewrite (bind_silent _ _ w2 w2 (clock (w_env w2))) by done.
    set (write := match res with Ok _ => _ | Err _ => _ end).
    assert (storable (cw_outputs write) /\ cw_runId write = runId /\ cw_stepIdx write = i /\
      cw_inputsHash write = h) as (Hsw & Hid & Hidx & Hwh).
    { destruct res; cbn; split_and!; auto using JsNull_storable. }
    destruct (append_row_run write w2 Hsw Hid) as (w' & Ea & Emem & Hrow & Hhit').
    rewrite bind_run, Ea. cbn [r_out r_world r_trace mret eff_ret app]. rewrite Hidx. rewrite Hidx in Hrow, Hhit'.
    assert (row_written i w w') as Hrow'.
    { destruct Hrow as [Hj Hl]. rewrite Hst in Hj, Hl. by split. }
    rewrite <- Emem in Hm2.
    destruct res as [v|e]; [apply (DCompleted (fun r => r))|apply (DErrored (fun r => r))]; try done.
    by apply Hhit'.
Qed.

Lemma durable_run_settle {A B} (f : CallResult -> A) (g : A -> B) i h prior w (m : Eff A) :
  durable_run f i h prior w (m w) -> durable_run (fun r => g (f r)) i h prior w ((r ← m; mret (g r)) w).
Proof.
  intros H. rewrite bind_run. set (s := fun r => g (f r)).
  destruct H; cbn; rewrite ?app_nil_r;
    [by apply (DThrow s)|by apply (DHit s)|by apply (DCompleted s)|by apply (DErrored s)].
Qed.

(** A step either leaves the world alone and depends on its bindings only, or
    is durable with inputs of some hash. *)
Lemma evalStep_cases ctx i step b : recoverable step ->
  (exists out, forall prior w, quiet_run i w out (evalStep prior ctx i step b w) /\
     (isDurable step = true -> r_trace _ (evalStep prior ctx i step b w) = [])) \/
  exists h, isDurable step = true /\
    (forall prior w v, hit_row h v (prior !! i) ->
       evalStep prior ctx i step b w =
       {| r_trace := []; r_out := Ok (settle_step i step b (Ok v)); r_world := w |}) /\
    forall prior w, memo_ok (w_memo w) ->
      durable_run (settle_step i step b) i h (prior !! i) w (evalStep prior ctx i step b w).
Proof.
  intros Hr. destruct (isDurable step) eqn:Hd.
  2: { destruct (evalStep_quiet ctx i step b Hr Hd) as [out Hq]. left. exists out. intros prior w. by split. }
  unfold recoverable in Hr. rewrite Hd in Hr. destruct Hr as [_ Hs].
  unfold Evaluator.evalStep. destruct (match ps_if step with Some _ => _ | None => false end).
  { left. eexists. intros prior w. split; [split; cbn; [reflexivity|done|constructor]|done]. }
  unfold dispatch. rewrite Hd. set (args := interpolateArgs _ _). set (ctx' := with_bindings b ctx).
  destruct (inputsHashOf sha256Hex (ps_call step) args) as [h|e] eqn:Hh.
  - right. exists h. split; [done|]. split.
    + intros prior w v Hv. unfold invokeDurable. rewrite !bind_run, Hh. cbn. unfold hit_row in Hv. by rewrite Hv.
    + intros prior w Hm. apply (durable_run_settle (fun r => r) (settle_step i step b)).
      by apply invokeDurable_run.
  - left. exists (Err e). intros prior w. unfold invokeDurable. rewrite !bind_run, Hh. cbn.
    split; [split; cbn; [done|done|constructor]|done].
Qed.

(** What a step of the interrupted run establishes. *)
Record step_facts (ctx : EvalCtx) (i : nat) (step : ProcessStep) (b : Bindings) (w : World) (r : Run Outcome) : Prop := {
  sf_memo : memo_ok (w_memo (r_world _ r));
  sf_rows : row_written i w (r_world _ r);
  sf_trace : Forall (fun ew => row_written i w ew.2 /\ ev_step ew.1 = i) (r_trace _ r);
  sf_last : w_store (r_world _ r) = w_store (last_world (r_trace _ r) w);
  sf_replay : forall b', r_out _ r = Ok (Continue b') -> ps_on_error step <> Some ErrorContinue \/ isDurable step = false ->
    forall prior' w', prior' !! i = row_of runId (w_store (r_world _ r)) i ->
    exists tr, evalStep prior' ctx i step b w' = {| r_trace := tr; r_out := Ok (Continue b'); r_world := w' |} /\
      Forall (fun ew => ew.1 = Invoked i) tr /\ (isDurable step = true -> tr = []);
  sf_recorded : forall n, Wrote n completed ∈ (r_trace _ r).*1 -> n = i /\ isDurable step = true /\
    exists tr v, r_trace _ r = tr ++ [(Wrote i completed, r_world _ r)] /\
      Forall (fun ew => ew.1 = Invoked i) tr /\ r_out _ r = Ok (settle_step i step b (Ok v)) /\
      forall prior' w', prior' !! i = row_of runId (w_store (r_world _ r)) i ->
        evalStep prior' ctx i step b w' =
        {| r_trace := []; r_out := Ok (settle_step i step b (Ok v)); r_world := w' |};
}.
Lemma row_written_refl i w w' : w_store w' = w_store w -> row_written i w w'.
Proof. intros E0. unfold row_written. by rewrite E0. Qed.
Lemma last_world_app tr e w' w : last_world (tr ++ [(e, w')]) w = w'.
Proof. unfold last_world. by rewrite last_snoc. Qed.
Lemma invoked_no_wrote i n s tr : Forall (fun ew : Event * World => ew.1 = Invoked i) tr -> Wrote n s ∉ tr.*1.
Proof. rewrite Forall_forall. intros H ([e w] & Ee & He)%list_elem_of_fmap. specialize (H _ He). cbn in *. congruence. Qed.
Lemma unwritten_last i w tr : unwritten i w tr -> w_store (last_world tr w) = w_store w.
Proof.
  intros H. unfold last_world. destruct (last tr) as [ew|] eqn:El; [|done].
  apply last_Some_elem_of in El. unfold unwritten in H. rewrite Forall_forall in H. by apply H.
Qed.
Lemma unwritten_invoked i w tr : unwritten i w tr -> Forall (fun ew => ew.1 = Invoked i) tr.
Proof. intros H. eapply Forall_impl; [exact H|]. by intros ? []. Qed.
Lemma unwritten_facts i w tr : unwritten i w tr -> Forall (fun ew => row_written i w ew.2 /\ ev_step ew.1 = i) tr.
Proof. intros H. eapply Forall_impl; [exact H|]. intros [e w'] [Ee Hs]. cbn in *. subst e. split; [by apply row_written_refl|done]. Qed.

Lemma quiet_facts ctx i step b w out r :
  (forall prior w, quiet_run i w out (evalStep prior ctx i step b w) /\
     (isDurable step = true -> r_trace _ (evalStep prior ctx i step b w) = [])) ->
  quiet_run i w out r -> memo_ok (w_memo w) -> step_facts ctx i step b w r.
Proof.
  intros Hq [Ho Hw Ht] Hm. rewrite Forall_forall in Ht. split.
  - by rewrite Hw.
  - rewrite Hw. by apply row_written_refl.
  - apply Forall_forall. intros [e w'] He. destruct (Ht _ He) as [Ee Ew]. cbn in *. subst.
    split; [by apply row_written_refl|done].
  - rewrite Hw. unfold last_world. destruct (last (r_trace _ r)) as [ew|] eqn:El; [|done].
    apply last_Some_elem_of in El. cbn. by destruct (Ht _ El) as [_ ->].
  - intros b' Eb _ prior' w' _. destruct (Hq prior' w') as [[Ho' Hw' Ht'] Hd].
    exists (r_trace _ (evalStep prior' ctx i step b w')). split_and!.
    + destruct (evalStep prior' ctx i step b w') as [t o wd]. cbn in *. congruence.
    + eapply Forall_impl; [exact Ht'|]. by intros ? [].
    + exact Hd.
  - intros n ([e w'] & En & He)%list_elem_of_fmap. destruct (Ht _ He) as [Ee _]. cbn in *. congruence.
Qed.
Lemma durable_facts ctx i step b w h (prior : gmap nat CheckpointRow) r :
  (forall prior w v, hit_row h v (prior !! i) ->
     evalStep prior ctx i step b w =
     {| r_trace := []; r_out := Ok (settle_step i step b (Ok v)); r_world := w |}) ->
  durable_run (settle_step i step b) i h (prior !! i) w r -> isDurable step = true ->
  memo_ok (w_memo w) -> prior !! i = row_of runId (w_store w) i -> step_facts ctx i step b w r.
Proof.
  intros Hhit Hrun Hd Hm Hp. destruct Hrun as [tr e w' Hu Hst Hm'|v Hv|tr v w' Hu Hrow Hm' Hv|tr e w' Hu Hrow Hm'];
    split; cbn [r_trace r_out r_world].
  - exact Hm'.
  - by apply row_written_refl.
  - by apply unwritten_facts.
  - by rewrite (unwritten_last i).
  - done.
  - intros n Hn. by destruct (invoked_no_wrote i n completed tr (unwritten_invoked _ _ _ Hu)).
  - exact Hm.
  - by apply row_written_refl.
  - constructor.
  - done.
  - intros b' Eb _ prior' w' Hp'. exists []. split_and!; [|constructor|done].
    rewrite (Hhit prior' w' v); [by rewrite Eb|]. by rewrite Hp', <- Hp.
  - intros n Hn. by apply elem_of_nil in Hn.
  - exact Hm'.
  - exact Hrow.
  - apply Forall_app_2; [by apply unwritten_facts|]. by apply Forall_singleton.
  - by rewrite last_world_app.
  - intros b' Eb _ prior' w'' Hp'. exists []. split_and!; [|constructor|done].
    rewrite (Hhit prior' w'' v); [by rewrite Eb|]. by rewrite Hp'.
  - intros n. rewrite fmap_app, elem_of_app. intros [Hn|Hn].
    + by destruct (invoked_no_wrote i n completed tr (unwritten_invoked _ _ _ Hu)).
    + cbn in Hn. apply list_elem_of_singleton in Hn as [= ->]. do 2 (split; [done|]). exists tr, v.
      split_and!; [done|by eapply unwritten_invoked|done|]. intros prior' w'' Hp'.
      apply Hhit. by rewrite Hp'.
  - exact Hm'.
  - exact Hrow.
  - apply Forall_app_2; [by apply unwritten_facts|]. by apply Forall_singleton.
  - by rewrite last_world_app.
  - intros b' [= Eb] Herr. destruct Herr as [Herr|Herr]; [|congruence].
    cbn in Eb. destruct (ps_on_error step) as [[]|]; congruence.
  - intros n. rewrite fmap_app, elem_of_app. intros [Hn|Hn].
    + by destruct (invoked_no_wrote i n completed tr (unwritten_invoked _ _ _ Hu)).
    + cbn in Hn. by apply list_elem_of_singleton in Hn.
Qed.
Lemma evalStep_facts prior ctx i step b w :
  recoverable step -> memo_ok (w_memo w) -> prior !! i = row_of runId (w_store w) i ->
  step_facts ctx i step b w (evalStep prior ctx i step b w).
Proof.
  intros Hr Hm Hp. destruct (evalStep_cases ctx i step b Hr) as [[out Hq]|(h & Hd & Hhit & Hrun)].
  - eapply quiet_facts; [done|apply Hq|done].
  - by eapply durable_facts; [|apply Hrun|..].
Qed.
Lemma recoverable_policy step : recoverable step -> ps_on_error step <> Some ErrorContinue \/ isDurable step = false.
Proof. unfold recoverable. destruct (isDurable step); [intros []; by left|by right]. Qed.

(** ** Runs of several steps *)
Lemma evalSteps_prior prior prior' ctx i steps b w :
  (forall j, i <= j -> prior !! j = prior' !! j) ->
  evalSteps prior ctx i steps b w = evalSteps prior' ctx i steps b w.
Proof.
  revert i b w. induction steps as [|step rest IH]; intros i b w Hp; [done|]. rewrite !evalSteps_cons.
  assert (evalStep prior ctx i step b w = evalStep prior' ctx i step b w) as ->.
  { unfold Evaluator.evalStep, dispatch. by rewrite Hp. }
  destruct (r_out _ _) as [[b'|res]|e]; [|done..]. cbn. by rewrite IH by (intros; apply Hp; lia).
Qed.

(** The events of a step carry its index, whatever the world. *)
Definition indexed {A} (i : nat) (m : Eff A) : Prop := forall w, Forall (fun ew => ev_step ew.1 = i) (r_trace _ (m w)).
Lemma indexed_bind {A B} i (m : Eff A) (f : A -> Eff B) : indexed i m -> (forall a, indexed i (f a)) -> indexed i (m ≫= f).
Proof.
  intros Hm Hf w. rewrite bind_run. specialize (Hm w). destruct (r_out _ (m w)); cbn; [|done].
  apply Forall_app_2; [done|apply Hf].
Qed.
Lemma indexed_silent {A} i (m : Eff A) : (forall w, r_trace _ (m w) = []) -> indexed i m.
Proof. intros H w. rewrite H. constructor. Qed.
Lemma indexed_call i name args ctx : indexed i (call registry i name args ctx).
Proof.
  intros w. unfold call. destruct (obj_get name registry) as [def|]; [|constructor].
  destruct (fd_argSchema def args); [|constructor]. by apply Forall_singleton.
Qed.
Lemma indexed_append i write : cw_stepIdx write = i -> indexed i (append_row (E := E) (M := M) write).
Proof. intros <- w. unfold append_row. destruct (append write (w_store w)); [by apply Forall_singleton|constructor]. Qed.
Lemma indexed_primitive i name h args ctx memo' :
  indexed i (invokePrimitive clock registry i name h args ctx memo').
Proof.
  unfold invokePrimitive. destruct memo'; [|apply indexed_call]. apply indexed_bind; [apply indexed_call|].
  intros [v|e]; [apply indexed_bind; intros|]; by apply indexed_silent.
Qed.
Lemma evalStep_indexed prior ctx i step b : indexed i (evalStep prior ctx i step b).
Proof.
  unfold Evaluator.evalStep. case_match; [by apply indexed_silent|].
  apply indexed_bind; [|intros; by apply indexed_silent]. unfold dispatch.
  assert (forall args memo', indexed i (invokeDurable clock sha256Hex registry i step args (with_bindings b ctx) runId (prior !! i) memo')) as Hd.
  { intros args memo'. apply indexed_bind; [by apply indexed_silent|]. intros h.
    destruct (checkpoint_hit h (prior !! i)); [by apply indexed_silent|].
    apply indexed_bind; [destruct memo'; by apply indexed_silent|]. intros [v|].
    - apply indexed_bind; [by apply indexed_silent|]. intros t. apply indexed_bind; [by apply indexed_append|].
      intros; by apply indexed_silent.
    - apply indexed_bind; [by apply indexed_silent|]. intros t. apply indexed_bind; [apply indexed_primitive|].
      intros res. apply indexed_bind; [by apply indexed_silent|]. intros t'.
      apply indexed_bind; [by destruct res; apply indexed_append|]. intros; by apply indexed_silent. }
  assert (forall args ttl, indexed i (invokeMemoized clock sha256Hex registry i step args (with_bindings b ctx) ttl)) as Hm.
  { intros args ttl. apply indexed_bind; [by apply indexed_silent|]. intros h.
    apply indexed_bind; [by apply indexed_silent|]. intros [v|]; [by apply indexed_silent|apply indexed_primitive]. }
  repeat case_match; auto using indexed_call.
Qed.
Lemma evalSteps_indexed prior ctx i steps b w :
  Forall (fun ew => i <= ev_step ew.1) (r_trace _ (evalSteps prior ctx i steps b w)).
Proof.
  revert i b w. induction steps as [|step rest IH]; intros i b w; [constructor|]. rewrite evalSteps_cons.
  assert (Forall (fun ew => i <= ev_step ew.1) (r_trace _ (evalStep prior ctx i step b w))) as Hs.
  { eapply Forall_impl; [apply evalStep_indexed|]. cbn. intros ? ->. lia. }
  destruct (r_out _ _) as [[b'|res]|e]; [|done..]. cbn. apply Forall_app_2; [done|].
  eapply Forall_impl; [apply IH|]. cbn. lia.
Qed.

(** Running from step [i] leaves the rows of the steps before it. *)
Lemma evalSteps_rows prior ctx i steps b w :
  Forall recoverable steps -> memo_ok (w_memo w) -> agrees i prior (w_store w) ->
  Forall (fun ew => (forall j, j < i -> row_of runId (w_store ew.2) j = row_of runId (w_store w) j) /\
                    (loadable runId (w_store w) -> loadable runId (w_store ew.2)))
    (r_trace _ (evalSteps prior ctx i steps b w)).
Proof.
  revert i b w. induction steps as [|step rest IH]; intros i b w Hr Hm Hp; [constructor|].
  apply Forall_cons in Hr as [Hstep Hr]. rewrite evalSteps_cons.
  pose proof (evalStep_facts prior ctx i step b w Hstep Hm (Hp i (le_n i))) as Hf.
  set (r := evalStep prior ctx i step b w) in *.
  assert (Forall (fun ew => (forall j, j < i -> row_of runId (w_store ew.2) j = row_of runId (w_store w) j) /\
                    (loadable runId (w_store w) -> loadable runId (w_store ew.2))) (r_trace _ r)) as Hs.
  { eapply Forall_impl; [apply (sf_trace _ _ _ _ _ _ Hf)|]. intros ew [[Hj Hl] _]. split; [|done].
    intros j Hji. apply Hj. lia. }
  destruct (r_out _ r) as [[b'|res]|e]; [|done..]. cbn. apply Forall_app_2; [done|].
  destruct (sf_rows _ _ _ _ _ _ Hf) as [Hj Hl].
  eapply Forall_impl; [apply IH; [done|apply (sf_memo _ _ _ _ _ _ Hf)|]|].
  - intros j Hij. rewrite Hj by lia. apply Hp. lia.
  - cbn. intros ew [Hj' Hl']. split; [|tauto]. intros j Hji. rewrite Hj' by lia. apply Hj. lia.
Qed.

(** ** Crashes *)

(** A crash falls in the first step or after it. *)
Lemma crash_split prior ctx i step rest b w pre post :
  let r := evalStep prior ctx i step b w in
  r_trace _ (evalSteps prior ctx i (step :: rest) b w) = pre ++ post ->
  (exists x, r_trace _ r = pre ++ x /\
     (forall res, r_out _ r = Ok (Return res) -> post = x) /\
     (forall b', r_out _ r = Ok (Continue b') -> post = x ++ r_trace _ (evalSteps prior ctx (S i) rest b' (r_world _ r)))) \/
  (exists b' k, r_out _ r = Ok (Continue b') /\ k <> [] /\ pre = r_trace _ r ++ k /\
     r_trace _ (evalSteps prior ctx (S i) rest b' (r_world _ r)) = k ++ post).
Proof.
  intros r. rewrite evalSteps_cons. fold r. destruct (r_out _ r) as [[b'|res]|e] eqn:Eo; cbn [r_trace].
  - intros [(k & E1 & E2)|(k & E1 & E2)]%app_eq_inv.
    + left. exists k. split; [done|]. split; [done|]. by intros ? [= <-].
    + destruct k as [|e k].
      * left. exists []. rewrite app_nil_r in *. cbn in E2. split; [done|]. split; [done|]. by intros ? [= <-].
      * right. by exists b', (e :: k).
  - intros Et. left. exists post. split; [done|]. by split.
  - intros Et. left. exists post. split; [done|]. by split.
Qed.
(** A recorded step has nothing left to emit. *)
Lemma recorded_end ctx i step b w (r : Run Outcome) pre x n :
  step_facts ctx i step b w r -> r_trace _ r = pre ++ x -> Wrote n completed ∈ pre.*1 ->
  n = i /\ x = [] /\ last_world pre w = r_world _ r /\
  exists v, r_out _ r = Ok (settle_step i step b (Ok v)) /\
    forall prior' w', prior' !! i = row_of runId (w_store (r_world _ r)) i ->
      evalStep prior' ctx i step b w' =
      {| r_trace := []; r_out := Ok (settle_step i step b (Ok v)); r_world := w' |}.
Proof.
  intros Hf Et Hn. destruct (sf_recorded _ _ _ _ _ _ Hf n) as (-> & _ & tr & v & Etr & Hinv & Ho & Hre).
  { rewrite Et, fmap_app, elem_of_app. by left. }
  rewrite Etr in Et. split; [done|]. destruct x as [|e x _] using rev_ind.
  - rewrite app_nil_r in Et. subst pre. split; [done|]. split; [by rewrite last_world_app|]. by exists v.
  - rewrite app_assoc in Et. apply app_inj_tail in Et as [Et _]. exfalso. subst tr.
    apply Forall_app in Hinv as [Hinv _]. by apply (invoked_no_wrote i i completed pre Hinv).
Qed.
Lemma last_world_cons tr k w w1 : k <> [] -> last_world (tr ++ k) w = last_world k w1.
Proof.
  intros Hk. unfold last_world. destruct k as [|e k _] using rev_ind; [done|].
  by rewrite app_assoc, !last_snoc.
Qed.
(** The store a later crash leaves keeps the row of step [i]. *)
Lemma crash_rows prior ctx i steps b w pre post :
  Forall recoverable steps -> memo_ok (w_memo w) -> agrees i prior (w_store w) ->
  r_trace _ (evalSteps prior ctx i steps b w) = pre ++ post ->
  (forall j, j < i -> row_of runId (w_store (last_world pre w)) j = row_of runId (w_store w) j) /\
  (loadable runId (w_store w) -> loadable runId (w_store (last_world pre w))).
Proof.
  intros Hr Hm Hp Et. pose proof (evalSteps_rows prior ctx i steps b w Hr Hm Hp) as H. rewrite Et in H.
  apply Forall_app in H as [H _]. unfold last_world. destruct (last pre) as [ew|] eqn:El; [|by split].
  apply last_Some_elem_of in El. rewrite Forall_forall in H. by apply H.
Qed.
Lemma agrees_next i prior w w' : agrees i prior (w_store w) -> row_written i w w' -> agrees (S i) prior (w_store w').
Proof. intros Hp [Hj _] j Hij. rewrite Hj by lia. apply Hp. lia. Qed.

Lemma recorded_not_rerun ctx steps : forall i b w prior pre post prior' w' n,
  Forall recoverable steps -> memo_ok (w_memo w) -> agrees i prior (w_store w) ->
  r_trace _ (evalSteps prior ctx i steps b w) = pre ++ post ->
  agrees i prior' (w_store (last_world pre w)) ->
  Wrote n completed ∈ pre.*1 ->
  Forall (fun ew => ev_step ew.1 <> n) (r_trace _ (evalSteps prior' ctx i steps b w')).
Proof.
  induction steps as [|step rest IH]; intros i b w prior pre post prior' w' n Hr Hm Hp Et Hp' Hn; [constructor|].
  apply Forall_cons in Hr as [Hstep Hr].
  pose proof (evalStep_facts prior ctx i step b w Hstep Hm (Hp i (le_n i))) as Hf.
  assert (forall b2 w2, Forall (fun ew => ev_step ew.1 <> i) (r_trace _ (evalSteps prior' ctx (S i) rest b2 w2))) as Hlater.
  { intros b2 w2. eapply Forall_impl; [apply evalSteps_indexed|]. cbn. lia. }
  destruct (crash_split _ _ _ _ _ _ _ _ _ Et) as [(x & Ex & _ & _)|(b' & k & Eo & Hk & -> & Ek)].
  - destruct (recorded_end _ _ _ _ _ _ _ _ _ Hf Ex Hn) as (-> & -> & Ew & v & Ho & Hre).
    rewrite evalSteps_cons, Hre by (rewrite <- Ew; by apply Hp'). cbn [r_out].
    destruct (settle_step i step b (Ok v)); cbn; [apply Hlater|constructor].
  - pose proof (sf_memo _ _ _ _ _ _ Hf) as Hm1. pose proof (agrees_next _ _ _ _ Hp (sf_rows _ _ _ _ _ _ Hf)) as Hp1.
    rewrite (last_world_cons _ _ _ (r_world _ (evalStep prior ctx i step b w))) in Hp' by done.
    destruct (crash_rows _ _ _ _ _ _ _ _ Hr Hm1 Hp1 Ek) as [Hrows _].
    destruct (sf_replay _ _ _ _ _ _ Hf b' Eo (recoverable_policy step Hstep) prior' w') as (tr & Ere & Hinv & Hdur).
    { rewrite Hp' by lia. apply Hrows. lia. }
    rewrite evalSteps_cons, Ere. cbn [r_out r_trace r_world].
    rewrite fmap_app, elem_of_app in Hn. destruct Hn as [Hn|Hn].
    + destruct (sf_recorded _ _ _ _ _ _ Hf n Hn) as (-> & Hd & _). rewrite Hdur by done. apply Hlater.
    + apply Forall_app_2.
      * apply list_elem_of_fmap in Hn as ([e we] & Ee & He). cbn in Ee. subst e.
        pose proof (evalSteps_indexed prior ctx (S i) rest b' (r_world _ (evalStep prior ctx i step b w))) as H.
        rewrite Ek, Forall_app, Forall_forall in H. destruct H as [H _]. specialize (H _ He). cbn in H.
        eapply Forall_impl; [exact Hinv|]. cbn. intros ? ->. cbn. lia.
      * eapply (IH (S i)); [done|exact Hm1|exact Hp1|exact Ek| |exact Hn].
        intros j Hj. apply Hp'. lia.
Qed.

(** *** At a boundary: nothing emitted yet, or a row just written *)
Definition boundary (pre : list (Event * World)) : Prop :=
  pre = [] \/ exists tr n w, pre = tr ++ [(Wrote n completed, w)].
(** The effects that outlive the process: rows, and runs of durable primitives. *)
Definition effects (dur : nat -> bool) (tr : list (Event * World)) : list (Event * World) :=
  List.filter (fun ew => match ew.1 with Wrote _ _ => true | Invoked n => dur n end) tr.
Definition marks (dur : nat -> bool) (i : nat) (steps : list ProcessStep) : Prop :=
  forall k step, steps !! k = Some step -> dur (i + k) = isDurable step.

Lemma effects_app dur tr tr' : effects dur (tr ++ tr') = effects dur tr ++ effects dur tr'.
Proof. apply List.filter_app. Qed.
Lemma effects_replay dur i step tr :
  dur i = isDurable step -> Forall (fun ew => ew.1 = Invoked i) tr -> (isDurable step = true -> tr = []) ->
  effects dur tr = [].
Proof.
  intros Hd Ht He. destruct (isDurable step) eqn:Es; [by rewrite He|]. clear He.
  induction Ht as [|[e w] tr Hx _ IH]; [done|]. cbn in *. subst e. by rewrite Hd.
Qed.

Lemma restart_same ctx dur steps : forall i b w prior pre post prior',
  Forall recoverable steps -> memo_ok (w_memo w) -> agrees i prior (w_store w) -> marks dur i steps ->
  r_trace _ (evalSteps prior ctx i steps b w) = pre ++ post -> boundary pre ->
  agrees i prior' (w_store (last_world pre w)) ->
  let r := evalSteps prior ctx i steps b w in
  let r' := evalSteps prior' ctx i steps b (last_world pre w) in
  r_out _ r' = r_out _ r /\ r_world _ r' = r_world _ r /\ effects dur (r_trace _ r') = effects dur post.
Proof.
  induction steps as [|step rest IH]; intros i b w prior pre post prior' Hr Hm Hp Hmk Et Hb Hp' r r'.
  { cbn in Et. symmetry in Et. apply app_nil in Et as [-> ->]. done. }
  assert (pre = [] -> r_out _ r' = r_out _ r /\ r_world _ r' = r_world _ r /\
    effects dur (r_trace _ r') = effects dur post) as Hnil.
  { intros ->. cbn [app] in Et. subst r r'. change (last_world [] w) with w in *.
    rewrite (evalSteps_prior prior' prior) by (intros; by rewrite Hp', Hp). by rewrite Et. }
  destruct Hb as [Hb|(tr0 & n & wn & Epre)]; [by apply Hnil|]. clear Hnil.
  assert (Hn : Wrote n completed ∈ pre.*1) by (rewrite Epre, fmap_app, elem_of_app; right; left).
  apply Forall_cons in Hr as [Hstep Hr].
  assert (Hmk' : marks dur (S i) rest) by (intros k s Hs; rewrite <- (Hmk (S k) s Hs); f_equal; lia).
  pose proof (evalStep_facts prior ctx i step b w Hstep Hm (Hp i (le_n i))) as Hf.
  pose proof (agrees_next _ _ _ _ Hp (sf_rows _ _ _ _ _ _ Hf)) as Hp1.
  subst r r'. destruct (crash_split _ _ _ _ _ _ _ _ _ Et) as [(x & Ex & Hret & Hcont)|(b' & k & Eo & Hk & Ek0 & Ek)].
  - destruct (recorded_end _ _ _ _ _ _ _ _ _ Hf Ex Hn) as (-> & -> & Ew & v & Ho & Hre).
    rewrite !evalSteps_cons. rewrite Hre by (rewrite <- Ew; by apply Hp'). rewrite Ho, Ew.
    destruct (settle_step i step b (Ok v)) as [b'|res]; cbn [r_out r_world r_trace app].
    + rewrite (Hcont b') by done. rewrite (evalSteps_prior prior' prior); [done|].
      intros j Hj. rewrite Hp1 by done. rewrite <- Ew. apply Hp'. lia.
    + by rewrite (Hret res).
  - rewrite Ek0 in Hp', Epre |- *. pose proof (sf_memo _ _ _ _ _ _ Hf) as Hm1.
    rewrite (last_world_cons _ _ _ (r_world _ (evalStep prior ctx i step b w))) in Hp' |- * by done.
    destruct (crash_rows _ _ _ _ _ _ _ _ Hr Hm1 Hp1 Ek) as [Hrows _].
    destruct (sf_replay _ _ _ _ _ _ Hf b' Eo (recoverable_policy step Hstep) prior'
      (last_world k (r_world _ (evalStep prior ctx i step b w)))) as (tr & Ere & Hinv & Hdur).
    { rewrite Hp' by lia. apply Hrows. lia. }
    rewrite !evalSteps_cons, Ere, Eo. cbn [r_out r_trace r_world]. rewrite effects_app.
    rewrite (effects_replay dur i step tr) by (done || by rewrite <- (Hmk 0 step eq_refl); f_equal; lia). cbn [app].
    eapply (IH (S i)); [done|exact Hm1|exact Hp1|done|exact Ek| |].
    + right. destruct k as [|e k _] using rev_ind; [done|]. rewrite app_assoc in Epre.
      apply app_inj_tail in Epre as [_ ->]. by exists k, n, wn.
    + intros j Hj. apply Hp'. lia.
Qed.

(** ** The prefetch *)
Lemma fold_rows_lookup (rows : list CheckpointRow) (m : gmap nat CheckpointRow) j :
  NoDup (cr_stepIdx <$> rows) ->
  fold_left (fun out row => <[cr_stepIdx row := row]> out) rows m !! j =
  match List.find (fun row => bool_decide (cr_stepIdx row = j)) rows with Some row => Some row | None => m !! j end.
Proof.
  revert m. induction rows as [|row rows IH]; intros m Hn; [done|]. cbn. apply NoDup_cons in Hn as [Hni Hn].
  rewrite IH by done. case_bool_decide as Hj.
  - destruct (List.find _ rows) as [row'|] eqn:Hf; [|by subst; rewrite lookup_insert_eq].
    apply find_some in Hf as [Hin Hj']. apply bool_decide_eq_true in Hj'. destruct Hni.
    apply list_elem_of_fmap. exists row'. split; [congruence|by apply list_elem_of_In].
  - case_match; [done|]. by rewrite lookup_insert_ne.
Qed.
Lemma loadCheckpointMap_agrees st m :
  loadCheckpointMap runId st = Ok m -> loadable runId st /\ agrees 0 m st.
Proof.
  unfold loadCheckpointMap. intros (rows & Hrows & [= <-])%bind_ok.
  apply fetchRun_inv in Hrows as (Hl & Hn & Hrow). split; [done|]. intros j _.
  rewrite fold_rows_lookup by done. rewrite lookup_empty. destruct (List.find _ rows) as [row|] eqn:Hf.
  - apply find_some in Hf as [Hin Hj]. apply bool_decide_eq_true in Hj. subst j. symmetry. apply Hrow.
    by apply list_elem_of_In.
  - destruct (row_of runId st j) as [row|] eqn:Er; [|done].
    assert (cr_stepIdx row = j) as Ej.
    { unfold row_of in Er. destruct (checkpoints st !! (runId, j)); [|done].
      destruct (rowToCheckpoint _ _) as [row'|] eqn:E2; [|done]. injection Er as ->.
      by apply rowToCheckpoint_key in E2 as [_ ->]. }
    assert (row ∈ rows) as Hin by (apply Hrow; by rewrite Ej).
    apply list_elem_of_In in Hin. apply (find_none _ _ Hf) in Hin. by rewrite bool_decide_eq_true_2 in Hin.
Qed.
Lemma loadCheckpointMap_loadable st : loadable runId st -> exists m, loadCheckpointMap runId st = Ok m.
Proof.
  intros Hl. unfold loadCheckpointMap. destruct (fetchRun_loadable runId st Hl) as [rows ->]. by eexists.
Qed.

(** A crashed evaluation, taken apart. *)
Lemma evaluate_crash steps ctx w pre post :
  Forall recoverable steps -> memo_ok (w_memo w) -> r_trace _ (evaluateProcess steps ctx w) = pre ++ post ->
  (exists e, loadCheckpointMap runId (w_store w) = Err e /\ pre = [] /\ post = []) \/
  exists prior prior', agrees 0 prior (w_store w) /\ agrees 0 prior' (w_store (last_world pre w)) /\
    evaluateProcess steps ctx w = evalSteps prior ctx 0 steps (ctx_bindings ctx) w /\
    forall w', w_store w' = w_store (last_world pre w) ->
      evaluateProcess steps ctx w' = evalSteps prior' ctx 0 steps (ctx_bindings ctx) w'.
Proof.
  intros Hr Hm. unfold Evaluator.evaluateProcess. destruct (loadCheckpointMap runId (w_store w)) as [prior|e] eqn:El.
  - intros Et. right. apply loadCheckpointMap_agrees in El as [Hl Hp].
    destruct (crash_rows _ _ _ _ _ _ _ _ Hr Hm Hp Et) as [_ Hl'].
    destruct (loadCheckpointMap_loadable _ (Hl' Hl)) as [prior' El'].
    exists prior, prior'. split_and!; [done|by apply loadCheckpointMap_agrees in El' as [_ ?]|done|].
    intros w' ->. by rewrite El'.
  - cbn. intros Et. symmetry in Et. apply app_nil in Et as [-> ->]. left. by exists e.
Qed.

(** ** Properties: recovery *)

(** Exactly once.  However an evaluation is cut short (after any prefix of
    what it does), an evaluation of the same steps from the same context on the
    checkpoint store the crash left, whatever has become of the environment and
    the memo cache, does nothing at all for a step whose completed row had been
    written: neither runs its primitive nor writes its row. *)
Lemma recorded_steps_not_rerun (steps : list ProcessStep) (ctx : EvalCtx) (w w' : World)
    (pre post : list (Event * World)) (n : nat) :
  Forall recoverable steps -> memo_ok (w_memo w) ->
  r_trace _ (evaluateProcess steps ctx w) = pre ++ post ->
  Wrote n completed ∈ pre.*1 -> w_store w' = w_store (last_world pre w) ->
  Forall (fun ew => ev_step ew.1 <> n) (r_trace _ (evaluateProcess steps ctx w')).
Proof.
  intros Hr Hm Et Hn Hw. destruct (evaluate_crash steps ctx w pre post Hr Hm Et)
    as [(e & _ & -> & _)|(prior & prior' & Hp & Hp' & Ev & Ev')]; [by apply elem_of_nil in Hn|].
  rewrite Ev' by done. rewrite Ev in Et. by eapply recorded_not_rerun.
Qed.

(** C3: a restart is invisible, for recoverable steps over a coherent cache.
    Cut an evaluation before its first effect or just after it recorded a
    completed step, and evaluate the same steps again, with the same context, in
    the world left behind: the outcome and the final world are those of the
    evaluation that was not cut, and the effects (rows written, durable
    primitives run) are exactly the ones that were still to come.  A step is
    [recoverable] when it is durable, returns values storage keeps and does not
    continue over errors, or is not memoised and a function of its arguments
    and context; [memo_ok] says the cache holds storable values.  Hydrating the
    bindings before the restart is another context, and then it does not hold
    ([hydrated_restart_diverges]). *)
Theorem restart_equals_uninterrupted (steps : list ProcessStep) (ctx : EvalCtx) (w : World)
    (pre post : list (Event * World)) :
  Forall recoverable steps -> memo_ok (w_memo w) ->
  r_trace _ (evaluateProcess steps ctx w) = pre ++ post -> boundary pre ->
  let r := evaluateProcess steps ctx w in
  let r' := evaluateProcess steps ctx (last_world pre w) in
  let dur n := match steps !! n with Some step => isDurable step | None => false end in
  r_out _ r' = r_out _ r /\ r_world _ r' = r_world _ r /\ effects dur (r_trace _ r') = effects dur post.
Proof.
  intros Hr Hm Et Hb r r' dur. subst r r'. destruct (evaluate_crash steps ctx w pre post Hr Hm Et)
    as [(e & El & -> & ->)|(prior & prior' & Hp & Hp' & Ev & Ev')].
  - change (last_world [] w) with w. split_and!; [done..|]. by rewrite Et.
  - rewrite Ev' by done. rewrite Ev in *. apply restart_same; try done. intros k step Hk. unfold dur. cbn. by rewrite Hk.
Qed.
End Recovery.

(** ** Witness: a registry with one durable and one pure primitive *)
#[local] Instance demo_re2 : Re2 := {| Pattern := string; re2_compile p := Some p; re2_test _ _ := None |}.
#[local] Instance demo_memo : Memo unit := {|
  memo_get _ _ _ _ m := (Ok None, m); memo_set _ _ _ _ _ m := (Ok tt, m) |}.
#[local] Program Instance demo_memo_laws : MemoLaws unit := {| memo_hash _ := True; memo_holds _ _ := True |}.
Next Obligation. intros P fn h ttl t m _ _. by exists None, m. Qed.
Next Obligation. intros P fn h v ttl t m _ _ _ _. by exists m. Qed.
Lemma demo_hash (s : string) : memo_hash (M := unit) s.
Proof. exact I. Qed.
Definition demo_fetch : FunctionDef nat :=
  {| fd_name := "fetch"; fd_argSchema := Ok; fd_execute _ _ e := (Ok (Ok (JsStr (pretty e))), S e);
     fd_durable := Some true; fd_memoizable := Some false; fd_costEstimateMs := None |}.
Definition demo_note : FunctionDef nat :=
  {| fd_name := "note"; fd_argSchema := Ok; fd_execute args _ e := (Ok (Ok args), e);
     fd_durable := Some false; fd_memoizable := Some false; fd_costEstimateMs := None |}.
Definition demo_registry : list (string * FunctionDef nat) := [("fetch", demo_fetch); ("note", demo_note)].
Definition demo_step (name : string) (args : list (string * JsValue)) (as_ : string) : ProcessStep :=
  {| ps_call := name; ps_args := Some args; ps_as := Some as_; ps_if := None; ps_on_empty := None;
     ps_on_error := None |}.
Definition demo_steps : list ProcessStep :=
  [demo_step "fetch" [] "a"; demo_step "note" [("x", JsStr "got {{ a }}")] "b";
   demo_step "fetch" [("y", JsStr "{{b.x}}")] "c"].
Definition demo_ctx : EvalCtx :=
  {| ctx_event := JsNull; ctx_sessionId := "s"; ctx_packId := "p"; ctx_bindings := ∅ |}.
Definition demo_world (st : Store) (e : nat) : World := {| w_store := st; w_memo := tt; w_env := e |}.
Definition demo_eval := evaluateProcess Z.of_nat (fun s => s) demo_registry (Some "run") None demo_steps demo_ctx.
Definition demo_run := demo_eval (demo_world emptyStore 5).
Definition demo_crash := demo_eval (demo_world (w_store (last_world (take 2 (r_trace _ demo_run)) (demo_world emptyStore 5))) 9).
Lemma demo_recoverable : Forall (recoverable demo_registry "run" None) demo_steps.
Proof.
  assert (storable_outputs demo_fetch) as Hs by (by intros args c k v k' [= <- <-]).
  assert (pure_primitive demo_note) as Hp by (by exists (fun args _ => Ok (Ok args))).
  assert (forall args as_, recoverable demo_registry "run" None (demo_step "fetch" args as_)) as Hf.
  { intros args as_. split; [done|]. by intros def [= <-]. }
  repeat apply Forall_cons_2; [apply Hf| |apply Hf|apply Forall_nil_2].
  split; [done|]. by intros def [= <-].
Qed.

Lemma recorded_steps_not_rerun_witness :
  (r_trace _ demo_run).*1 = [Invoked 0; Wrote 0 completed; Invoked 1; Invoked 2; Wrote 2 completed] /\
  (r_trace _ demo_crash).*1 = [Invoked 1; Invoked 2; Wrote 2 completed] /\
  Forall (fun ew => ev_step ew.1 <> 0) (r_trace _ demo_crash).
Proof.
  split; [vm_compute; reflexivity|]. split; [vm_compute; reflexivity|].
  apply (recorded_steps_not_rerun Z.of_nat (fun s => s) demo_registry "run" None demo_hash demo_steps demo_ctx
    (demo_world emptyStore 5) _ (take 2 (r_trace _ demo_run)) (drop 2 (r_trace _ demo_run)) 0).
  - exact demo_recoverable.
  - exact I.
  - symmetry. apply take_drop.
  - assert ((take 2 (r_trace _ demo_run)).*1 = [Invoked 0; Wrote 0 completed]) as -> by (vm_compute; reflexivity).
    right. left.
  - reflexivity.
Defined.

Lemma restart_equals_uninterrupted_witness :
  let w := last_world (take 2 (r_trace _ demo_run)) (demo_world emptyStore 5) in
  r_world _ (demo_eval w) = r_world _ demo_run /\ w_env (r_world _ demo_run) = 7 /\
  r_out _ (demo_eval w) = Ok RNoVerdict.
Proof.
  intros w.
  destruct (restart_equals_uninterrupted Z.of_nat (fun s => s) demo_registry "run" None demo_hash demo_steps demo_ctx
    (demo_world emptyStore 5) (take 2 (r_trace _ demo_run)) (drop 2 (r_trace _ demo_run))) as (Ho & Hw & _).
  - exact demo_recoverable.
  - exact I.
  - symmetry. apply take_drop.
  - right. exists (take 1 (r_trace _ demo_run)), 0, w. vm_compute. reflexivity.
  - split; [exact Hw|]. split; [vm_compute; reflexivity|]. etransitivity; [exact Ho|]. vm_compute. reflexivity.
Defined.
