(* ===== verification/EvaluatorSpec.v ===== *)
(** * What an evaluation guarantees in any configuration

    The shape of results, the order of effects, the transparency of the memo
    cache, and the ways an evaluation can fail that its comments rule out. *)

From Stdlib Require Import Ascii String Sorted.
From stdpp Require Import base option list sets strings pretty gmap fin_maps.
From S2P Require Import Prelude Json JsonText CanonicalJson CheckpointStore CheckpointProps.
From S2P Require Import ExprSyntax ExprGrammar ExprEval Evaluator EvaluatorProps.
#[local] Open Scope os_scope.

(** ** Results and order *)
Section Shape.
Context {E M : Type} `{Re : Re2} `{MemoOps : Memo M}
  (clock : E -> Z) (sha256Hex : string -> string) (registry : list (string * FunctionDef E))
  (checkpoint : option string) (memo : option (string -> option Z)).
Abbreviation World := (@World E M).
Abbreviation Eff := (@Eff E M).
Abbreviation evalStep := (@evalStep E M Re MemoOps clock sha256Hex registry checkpoint memo).
Abbreviation evalSteps := (@evalSteps E M Re MemoOps clock sha256Hex registry checkpoint memo).
Abbreviation evaluateProcess := (@evaluateProcess E M Re MemoOps clock sha256Hex registry checkpoint memo).

(** The result a rule may end with, for its steps numbered from [i]. *)
Definition result_typed (i : nat) (steps : list ProcessStep) (res : RuleResult) : Prop :=
  match res with
  | RVerdict v => exists level message, js_prop v "level" = JsStr level /\ level <> "directive" /\
                    js_prop v "message" = JsStr message
  | RDirective na => is_object na = true
  | RError _ k => exists j step, k = (i + j)%nat /\ steps !! j = Some step /\ ps_on_error step <> Some ErrorContinue
  | RNoVerdict | RInjectContext _ => True
  end.
Lemma settle_typed i step rest b result res :
  settle_step i step b result = Return res -> result_typed i (step :: rest) res.
Proof.
  unfold settle_step. destruct result as [v|e].
  - destruct (_ && isVerdict v) eqn:Hv.
    + apply andb_true_iff in Hv as [_ Hv]. unfold isVerdict in Hv. destruct v as [| | | | | | | | | | | |o]; try done.
      cbn [js_prop]. destruct (obj_get "level" o) as [[| | | | | | |level| | | | |]|] eqn:Elv; try done. cbn [from_option id].
      destruct (level =? "directive")%string eqn:El; intros [= <-]; cbn [result_typed js_prop].
      * by destruct (obj_get "next_action" o).
      * destruct (obj_get "message" o) as [[| | | | | | |m| | | | |]|] eqn:Em; try done.
        exists level, m. rewrite Elv. cbn. split_and!; [done|by apply String.eqb_neq|done].
    + destruct (isInjectContext v); [by intros [= <-]|].
      destruct (isEmpty v), (ps_on_empty step) as [[]|]; intros [= <-]; try done.
      exists "block", ("Step " +:+ pretty i +:+ " returned empty"). by split_and!.
  - destruct (ps_on_error step) as [[]|] eqn:Eo; intros [= <-]; exists 0, step; (split; [lia|]); (split; [done|congruence]).
Qed.
Lemma bind_ok_run {A B} (m : Eff A) (f : A -> Eff B) w b :
  r_out _ ((m ≫= f) w) = Ok b -> exists a, r_out _ (m w) = Ok a /\ r_out _ (f a (r_world _ (m w))) = Ok b.
Proof. rewrite bind_run. destruct (r_out _ (m w)) as [a|]; [|done]. by exists a. Qed.
Lemma evalStep_settles prior ctx i step b w o :
  r_out _ (evalStep prior ctx i step b w) = Ok o -> o = Continue b \/ exists result, o = settle_step i step b result.
Proof.
  unfold Evaluator.evalStep. destruct (match ps_if step with Some _ => _ | None => false end); [intros [= <-]; by left|].
  intros (result & _ & [= <-])%bind_ok_run. right. by exists result.
Qed.
Lemma evalSteps_typed prior ctx steps : forall i b w res,
  r_out _ (evalSteps prior ctx i steps b w) = Ok res -> result_typed i steps res.
Proof.
  induction steps as [|step rest IH]; intros i b w res; [by intros [= <-]|]. cbn [Evaluator.evalSteps].
  intros (o & Ho & Hres)%bind_ok_run. destruct o as [b'|r].
  - apply IH in Hres. destruct res as [| | |m k|]; try done. destruct Hres as (j & s & -> & Hj & Hs).
    exists (S j), s. split_and!; [lia|done|done].
  - injection Hres as <-. apply evalStep_settles in Ho as [Ho|(result & Ho)]; [done|]. by eapply settle_typed.
Qed.

(** C37: results are well typed.  Whatever the primitives return, a verdict
    carries a level that is not directive and a text, a directive carries an
    object, and an error carries the index of a step that does not continue on
    errors. *)
Theorem evaluate_result_typed (steps : list ProcessStep) (ctx : EvalCtx) (w : World) (res : RuleResult) :
  r_out _ (evaluateProcess steps ctx w) = Ok res -> result_typed 0 steps res.
Proof.
  unfold Evaluator.evaluateProcess. destruct (match checkpoint with Some _ => _ | None => _ end); [|done].
  apply evalSteps_typed.
Qed.

(** The place of an event: a step's call comes before its row. *)
Definition rank (e : Event) : nat := match e with Invoked i => 2 * i | Wrote i _ => 2 * i + 1 end.
Definition one_step (i : nat) (tr : list (Event * World)) : Prop :=
  tr.*1 = [] \/ tr.*1 = [Invoked i] \/ exists s, tr.*1 = [Wrote i s] \/ tr.*1 = [Invoked i; Wrote i s].
Definition short (i : nat) (tr : list (Event * World)) : Prop := tr.*1 = [] \/ tr.*1 = [Invoked i].
Definition silent {A} (m : Eff A) : Prop := forall w, r_trace _ (m w) = [].
Lemma short_one_step i tr : short i tr -> one_step i tr.
Proof. intros [H|H]; [by left|by right; left]. Qed.
Lemma call_short i name args ctx w : short i (r_trace _ (call registry i name args ctx w)).
Proof.
  unfold call. destruct (obj_get name registry) as [def|]; [|by left].
  destruct (fd_argSchema def args); [by right|by left].
Qed.
Lemma silent_then {A B} (P : list (Event * World) -> Prop) (m : Eff A) (f : A -> Eff B) w :
  silent m -> P [] -> (forall a w', P (r_trace _ (f a w'))) -> P (r_trace _ ((m ≫= f) w)).
Proof. intros Hm Hn Hf. rewrite bind_run. destruct (r_out _ (m w)); cbn; rewrite Hm; [apply Hf|done]. Qed.
Lemma primitive_short i name h args ctx memo' w :
  short i (r_trace _ (invokePrimitive clock registry i name h args ctx memo' w)).
Proof.
  unfold invokePrimitive. destruct memo'; [|apply call_short]. rewrite bind_run.
  pose proof (call_short i name args ctx w) as H. destruct (r_out _ (call registry i name args ctx w)) as [[v|e]|e]; [| |done].
  - rewrite bind_run. destruct (r_out _ (cache_set _ _ _ _ _ _)); cbn; by rewrite app_nil_r.
  - cbn. by rewrite app_nil_r.
Qed.
Lemma write_one_step {B} i tr write (b : B) w :
  short i tr -> cw_stepIdx write = i ->
  one_step i (tr ++ r_trace _ ((append_row write ≫= fun _ => mret (M := Eff) b) w)).
Proof.
  intros Hs Hw. rewrite bind_run. unfold append_row. destruct (append write (w_store w)); cbn.
  - unfold one_step. rewrite fmap_app. cbn. rewrite Hw. right. right. exists (cw_status write).
    destruct Hs as [->| ->]; [by left|by right].
  - rewrite app_nil_r. by apply short_one_step.
Qed.

Lemma invokeDurable_one_step i step args ctx runId prior memo' w :
  one_step i (r_trace _ (invokeDurable clock sha256Hex registry i step args ctx runId prior memo' w)).
Proof.
  unfold invokeDurable. apply silent_then; [done|by left|]. intros h w1.
  destruct (checkpoint_hit h prior); [by left|].
  apply silent_then; [by destruct memo'|by left|]. intros [v|] w2.
  - apply silent_then; [done|by left|]. intros t w3.
    apply (write_one_step i [] (checkpoint_write runId i step h v t t completed None) _ w3); [by left|done].
  - apply silent_then; [done|by left|]. intros t w3. rewrite bind_run.
    pose proof (primitive_short i (ps_call step) h args ctx memo' w3) as Hs.
    destruct (r_out _ (invokePrimitive _ _ _ _ _ _ _ _ w3)) as [result|e]; cbn [r_trace].
    + set (w4 := r_world _ (invokePrimitive _ _ _ _ _ _ _ _ w3)).
      rewrite (bind_silent _ _ w4 w4 (clock (w_env w4))) by done.
      apply write_one_step; [done|by destruct result].
    + by apply short_one_step.
Qed.
Lemma evalStep_one_step prior ctx i step b w : one_step i (r_trace _ (evalStep prior ctx i step b w)).
Proof.
  unfold Evaluator.evalStep. destruct (match ps_if step with Some _ => _ | None => false end); [by left|].
  rewrite bind_run. set (d := dispatch _ _ _ _ _ _ _ _ _ w).
  assert (one_step i (r_trace _ d)); [|destruct (r_out _ d); cbn; by rewrite ?app_nil_r].
  subst d. unfold dispatch.
  assert (forall args ttl, one_step i (r_trace _ (invokeMemoized clock sha256Hex registry i step args (with_bindings b ctx) ttl w))) as Hm.
  { intros args ttl. unfold invokeMemoized. apply silent_then; [done|by left|]. intros h w1.
    apply silent_then; [done|by left|]. intros [v|] w2; [by left|]. apply short_one_step, primitive_short. }
  repeat case_match; auto using short_one_step, call_short, invokeDurable_one_step.
Qed.

Lemma one_step_ranks i tr : one_step i tr ->
  StronglySorted lt (rank <$> tr.*1) /\ Forall (fun e => ev_step e = i) tr.*1.
Proof. intros [->|[->|[s [->| ->]]]]; cbn; split; repeat constructor; lia. Qed.
Lemma StronglySorted_app_lt (l k : list nat) n :
  StronglySorted lt l -> StronglySorted lt k -> Forall (fun x => x < n) l -> Forall (fun x => n <= x) k ->
  StronglySorted lt (l ++ k).
Proof.
  intros Hl Hk Hln Hkn. induction Hl as [|x l Hl IH Hx]; [done|]. apply Forall_cons in Hln as [Hxn Hln].
  cbn. constructor; [by apply IH|]. apply Forall_app_2; [done|]. eapply Forall_impl; [exact Hkn|]. cbn. lia.
Qed.
Lemma evalSteps_ranks prior ctx steps : forall i b w,
  StronglySorted lt (rank <$> (r_trace _ (evalSteps prior ctx i steps b w)).*1) /\
  Forall (fun e => i <= ev_step e < i + length steps) (r_trace _ (evalSteps prior ctx i steps b w)).*1.
Proof.
  induction steps as [|step rest IH]; intros i b w; [split; constructor|]. rewrite evalSteps_cons.
  destruct (one_step_ranks _ _ (evalStep_one_step prior ctx i step b w)) as [Hs Hi].
  assert (Forall (fun e => i <= ev_step e < i + length (step :: rest))
    (r_trace _ (evalStep prior ctx i step b w)).*1) as Hi'.
  { eapply Forall_impl; [exact Hi|]. cbn. intros e ->. lia. }
  destruct (r_out _ _) as [[b'|res]|e]; [|by split..]. cbn [r_trace]. rewrite !fmap_app.
  destruct (IH (S i) b' (r_world _ (evalStep prior ctx i step b w))) as [Hs2 Hi2]. split.
  - apply (StronglySorted_app_lt _ _ (2 * S i)); [done..| |]; apply Forall_fmap.
    + eapply Forall_impl; [exact Hi|]. intros []; cbn; lia.
    + eapply Forall_impl; [exact Hi2|]. intros []; cbn; lia.
  - apply Forall_app_2; [done|]. eapply Forall_impl; [exact Hi2|]. cbn. lia.
Qed.

(** Steps run strictly in order, each at most once, and a step's row is
    written at most once and only after the step has run; no step is run that
    the process does not have. *)
Lemma effects_in_step_order (steps : list ProcessStep) (ctx : EvalCtx) (w : World) :
  let tr := (r_trace _ (evaluateProcess steps ctx w)).*1 in
  StronglySorted lt (rank <$> tr) /\ Forall (fun e => ev_step e < length steps) tr.
Proof.
  cbn. unfold Evaluator.evaluateProcess.
  destruct (match checkpoint with Some _ => _ | None => _ end) as [prior|e]; [|split; constructor].
  destruct (evalSteps_ranks prior ctx steps 0 (ctx_bindings ctx) w) as [Hs Hi]. split; [done|].
  eapply Forall_impl; [exact Hi|]. cbn. lia.
Qed.
End Shape.

#[local] Existing Instances demo_re2 demo_memo.
Definition demo_verdict : FunctionDef nat :=
  {| fd_name := "verdict"; fd_argSchema := Ok; fd_execute args _ e := (Ok (Ok args), e);
     fd_durable := None; fd_memoizable := None; fd_costEstimateMs := None |}.
Definition demo_block : ProcessStep :=
  demo_step "verdict" [("level", JsStr "block"); ("message", JsStr "no {{a}}")] "v".
Lemma evaluate_result_typed_witness :
  result_typed 0 [demo_block] (RVerdict (JsObj [("level", JsStr "block"); ("message", JsStr "no ")])).
Proof.
  apply (evaluate_result_typed Z.of_nat (fun s => s) [("verdict", demo_verdict)] None None [demo_block] demo_ctx
    (demo_world emptyStore 0)).
  vm_compute. reflexivity.
Defined.

(** ** The memo cache is transparent *)
Section Transparent.
Context {E M : Type} `{Re : Re2} `{MemoOps : Memo M} `{!MemoLaws M}
  (clock : E -> Z) (sha256Hex : string -> string) (registry : list (string * FunctionDef E))
  (checkpoint : option string) (ttlForFn : string -> option Z) (Hsha : forall s, memo_hash (sha256Hex s)).
Abbreviation World := (@World E M).
Abbreviation Eff := (@Eff E M).

(** [G fn h]: what the memoizable primitive [fn] returns for arguments of hash
    [h].  It neither depends on nor changes anything else, and what it returns
    is storable. *)
Context (G : string -> string -> CallResult).
Definition hash_determined (fn : string) : Prop :=
  (forall i args ctx (w : World) h, inputsHashOf sha256Hex fn args = Ok h ->
     r_out _ (call registry i fn args ctx w) = Ok (G fn h) /\
     w_env (r_world _ (call registry i fn args ctx w)) = w_env w) /\
  forall h v, G fn h = Ok v -> storable v.
Definition memoizable_sound : Prop :=
  forall fn meta, durability registry fn = Some meta -> memoizable meta = true -> hash_determined fn.
Definition memo_coherent : M -> Prop := memo_holds (fun fn h v => G fn h = Ok v).

(** Worlds that differ in the memo cache only. *)
Definition alike (w1 w2 : World) : Prop :=
  memo_coherent (w_memo w1) /\ w_store w1 = w_store w2 /\ w_env w1 = w_env w2.
Definition simulates {A} (r1 r2 : Run A) : Prop :=
  r_out _ r1 = r_out _ r2 /\ alike (r_world _ r1) (r_world _ r2).
Lemma sim_bind {A B} (m1 m2 : Eff A) (f1 f2 : A -> Eff B) w1 w2 :
  simulates (m1 w1) (m2 w2) -> (forall a w1 w2, alike w1 w2 -> simulates (f1 a w1) (f2 a w2)) ->
  simulates ((m1 ≫= f1) w1) ((m2 ≫= f2) w2).
Proof.
  intros [Ho Hw] Hf. rewrite !bind_run, <- Ho. destruct (r_out _ (m1 w1)) as [a|e]; [|by split].
  destruct (Hf a _ _ Hw) as [Ho' Hw']. by split.
Qed.
Lemma sim_ret {A} (a : A) w1 w2 : alike w1 w2 -> simulates (mret (M := Eff) a w1) (mret (M := Eff) a w2).
Proof. by split. Qed.
Lemma sim_lift {A} (m : result string A) w1 w2 : alike w1 w2 -> simulates (lift (E := E) (M := M) m w1) (lift m w2).
Proof. by split. Qed.
Lemma sim_now w1 w2 : alike w1 w2 -> simulates (now clock w1) (now clock w2).
Proof. intros (Hm & Hs & He). split; cbn; [by rewrite He|done]. Qed.
Lemma sim_append write w1 w2 : alike w1 w2 -> simulates (append_row write w1) (append_row write w2).
Proof.
  intros (Hm & Hs & He). unfold append_row. rewrite Hs. destruct (append write (w_store w2)); by split.
Qed.
Lemma sim_call i fn args ctx w1 w2 : alike w1 w2 ->
  simulates (call registry i fn args ctx w1) (call registry i fn args ctx w2).
Proof.
  intros (Hm & Hs & He). unfold call. destruct (obj_get fn registry) as [def|]; [|by split].
  destruct (fd_argSchema def args); [|by split]. rewrite He. by split.
Qed.
(** The memoised invocation does what the bare call does. *)
Lemma sim_primitive i fn h args ctx w1 w2 :
  hash_determined fn -> inputsHashOf sha256Hex fn args = Ok h -> alike w1 w2 ->
  simulates (invokePrimitive clock registry i fn h args ctx (Some ttlForFn) w1) (call registry i fn args ctx w2).
Proof.
  intros [Hd Hst] Hh Hw. pose proof (sim_call i fn args ctx w1 w2 Hw) as [Ho Ha].
  destruct (Hd i args ctx w1 h Hh) as [Hg _]. unfold invokePrimitive. rewrite bind_run, Hg. rewrite Hg in Ho.
  destruct (G fn h) as [v|e] eqn:Eg.
  - rewrite bind_run. unfold cache_set. destruct Ha as (Hm & Hs & He).
    edestruct memo_set_law as (m' & -> & Hm'); [by eapply inputsHashOf_hash|exact Hm|exact Eg|by eapply Hst|]. cbn. by split.
  - by split.
Qed.
Lemma sim_get fn h w1 w2 : memo_hash h -> alike w1 w2 ->
  exists o w1', cache_get clock fn h (ttlForFn fn) w1 = {| r_trace := []; r_out := Ok o; r_world := w1' |} /\
    alike w1' w2 /\ forall v, o = Some v -> G fn h = Ok v.
Proof.
  intros Hhash (Hm & Hs & He). unfold cache_get.
  edestruct memo_get_law as (o & m' & -> & Hm' & Hv); [exact Hhash|exact Hm|]. cbn. eexists _, _. split; [reflexivity|].
  by split.
Qed.
(** A hit answers what the call would. *)
Lemma sim_hit {A} i fn h args ctx v (f : CallResult -> Eff A) w1 w2 :
  hash_determined fn -> inputsHashOf sha256Hex fn args = Ok h -> alike w1 w2 -> G fn h = Ok v ->
  (forall r w1 w2, alike w1 w2 -> simulates (f r w1) (f r w2)) ->
  w_store (r_world _ (call registry i fn args ctx w2)) = w_store w2 ->
  simulates (f (Ok v) w1) ((call registry i fn args ctx ≫= f) w2).
Proof.
  intros [Hd _] Hh (Hm & Hs & He) Hg Hf Hst. rewrite bind_run. destruct (Hd i args ctx w2 h Hh) as [-> Henv]. rewrite Hg.
  assert (alike w1 (r_world _ (call registry i fn args ctx w2))) as Hw by (split_and!; [done|congruence|congruence]).
  destruct (Hf (Ok v) _ _ Hw) as [Ho Ha]. by split.
Qed.
Lemma call_store i fn args ctx (w : World) : w_store (r_world _ (call registry i fn args ctx w)) = w_store w.
Proof.
  unfold call. destruct (obj_get fn registry) as [def|]; [|done]. by destruct (fd_argSchema def args).
Qed.
Lemma sim_durable i step args ctx runId prior w1 w2 :
  hash_determined (ps_call step) -> alike w1 w2 ->
  simulates (invokeDurable clock sha256Hex registry i step args ctx runId prior (Some ttlForFn) w1)
            (invokeDurable clock sha256Hex registry i step args ctx runId prior None w2).
Proof.
  intros Hd Hw. unfold invokeDurable. destruct (inputsHashOf sha256Hex (ps_call step) args) as [h|e] eqn:Hh; [|by split].
  rewrite !(bind_silent (lift (Ok h)) _ _ _ h) by done. destruct (checkpoint_hit h prior); [by apply sim_ret|].
  destruct (sim_get (ps_call step) h w1 w2 (inputsHashOf_hash sha256Hex Hsha _ _ _ Hh) Hw) as (o & w1' & Eg & Hw' & Hv).
  rewrite (bind_silent _ _ _ _ _ Eg), (bind_silent (mret None) _ w2 w2 None) by done.
  pose proof Hw' as (_ & _ & He).
  set (f := fun started result => completedAtMs ← now clock;
       append_row match result with
         | Ok v => checkpoint_write runId i step h v started completedAtMs completed None
         | Err e => checkpoint_write runId i step h JsNull started completedAtMs errored (Some (fe_message e)) end
       ≫= fun _ => mret (M := Eff) result).
  assert (forall t r u1 u2, alike u1 u2 -> simulates (f t r u1) (f t r u2)) as Hf.
  { intros t r u1 u2 Hu. unfold f. apply sim_bind; [by apply sim_now|]. intros t' v1 v2 Hv'.
    apply sim_bind; [by apply sim_append|]. intros _ x1 x2. apply sim_ret. }
  rewrite !(bind_silent (now clock) _ w2 w2 (clock (w_env w2))) by done.
  destruct o as [v|]; rewrite (bind_silent (now clock) _ w1' w1' (clock (w_env w1'))) by done; rewrite He.
  - assert ((append_row (checkpoint_write runId i step h v (clock (w_env w2)) (clock (w_env w2)) completed None)
      ≫= fun _ => mret (M := Eff) (Ok v)) w1' = f (clock (w_env w2)) (Ok v) w1') as ->.
    { unfold f. rewrite (bind_silent (now clock) _ w1' w1' (clock (w_env w1'))) by done. by rewrite He. }
    apply (sim_hit i (ps_call step) h args ctx v (f (clock (w_env w2)))); auto using call_store.
  - apply sim_bind; [by apply sim_primitive|]. intros r u1 u2. apply (Hf (clock (w_env w2)) r).
Qed.
Lemma sim_memoized i step args ctx w1 w2 :
  hash_determined (ps_call step) -> alike w1 w2 -> is_ok (inputsHashOf sha256Hex (ps_call step) args) = true ->
  simulates (invokeMemoized clock sha256Hex registry i step args ctx ttlForFn w1)
            (call registry i (ps_call step) args ctx w2).
Proof.
  intros Hd Hw Hok. unfold invokeMemoized.
  destruct (inputsHashOf sha256Hex (ps_call step) args) as [h|e] eqn:Hh; [|done].
  rewrite (bind_silent (lift (Ok h)) _ _ _ h) by done.
  destruct (sim_get (ps_call step) h w1 w2 (inputsHashOf_hash sha256Hex Hsha _ _ _ Hh) Hw) as (o & w1' & Eg & Hw' & Hv). rewrite (bind_silent _ _ _ _ _ Eg).
  destruct o as [v|]; [|by apply sim_primitive].
  pose proof (sim_hit i (ps_call step) h args ctx v (fun r => mret (M := Eff) r) w1' w2 Hd Hh Hw' (Hv v eq_refl)) as [Ho Ha].
  { intros r u1 u2. apply sim_ret. }
  { apply call_store. }
  rewrite bind_run in Ho, Ha. split; [|].
  - rewrite Ho. by destruct (r_out _ (call registry i (ps_call step) args ctx w2)).
  - by destruct (r_out _ (call registry i (ps_call step) args ctx w2)).
Qed.
(** The steps' arguments have a hash whatever they are interpolated with. *)
Definition hashable (step : ProcessStep) : Prop :=
  forall b, is_ok (inputsHashOf sha256Hex (ps_call step) (interpolateArgs step b)) = true.
Lemma sim_step prior ctx i step b w1 w2 :
  memoizable_sound -> hashable step -> alike w1 w2 ->
  simulates (evalStep clock sha256Hex registry checkpoint (Some ttlForFn) prior ctx i step b w1)
            (evalStep clock sha256Hex registry checkpoint None prior ctx i step b w2).
Proof.
  intros Hsound Hh Hw. unfold evalStep.
  destruct (match ps_if step with Some _ => _ | None => false end); [by apply sim_ret|].
  apply sim_bind; [|intros r u1 u2; apply sim_ret]. unfold dispatch.
  set (args := interpolateArgs _ _). set (ctx' := with_bindings b ctx).
  assert (isMemoizable registry (Some ttlForFn) step = true -> hash_determined (ps_call step)) as Hd.
  { unfold isMemoizable. destruct (durability registry (ps_call step)) as [meta|] eqn:Em; [|done]. by apply Hsound. }
  assert (simulates (if isMemoizable registry (Some ttlForFn) step
                     then invokeMemoized clock sha256Hex registry i step args ctx' ttlForFn w1
                     else call registry i (ps_call step) args ctx' w1)
                    (call registry i (ps_call step) args ctx' w2)) as Hplain.
  { destruct (isMemoizable _ _ _); [|by apply sim_call].
    apply sim_memoized; [by apply Hd|done|apply Hh]. }
  change (isMemoizable registry None step) with false. cbv iota.
  destruct checkpoint as [runId|]; [destruct (isDurable registry (Some runId) step)|].
  - destruct (isMemoizable registry (Some ttlForFn) step); [by apply sim_durable; [apply Hd|]|].
    unfold invokeDurable. destruct (inputsHashOf sha256Hex (ps_call step) args) as [h|e]; [|by split].
    rewrite !(bind_silent (lift (Ok h)) _ _ _ h) by done. destruct (checkpoint_hit h (prior !! i)); [by apply sim_ret|].
    rewrite (bind_silent (mret None) _ w1 w1 None), (bind_silent (mret None) _ w2 w2 None) by done.
    apply sim_bind; [by apply sim_now|]. intros t u1 u2 Hu. apply sim_bind; [by apply sim_call|].
    intros r v1 v2 Hv. apply sim_bind; [by apply sim_now|]. intros t' x1 x2 Hx.
    apply sim_bind; [by apply sim_append|]. intros _ y1 y2. apply sim_ret.
  - destruct (isMemoizable registry (Some ttlForFn) step); exact Hplain.
  - destruct (isDurable registry None step), (isMemoizable registry (Some ttlForFn) step); exact Hplain.
Qed.

Lemma sim_steps prior ctx steps : forall i b w1 w2,
  memoizable_sound -> Forall hashable steps -> alike w1 w2 ->
  simulates (evalSteps clock sha256Hex registry checkpoint (Some ttlForFn) prior ctx i steps b w1)
            (evalSteps clock sha256Hex registry checkpoint None prior ctx i steps b w2).
Proof.
  induction steps as [|step rest IH]; intros i b w1 w2 Hs Hh Hw; [by apply sim_ret|].
  apply Forall_cons in Hh as [Hstep Hh]. cbn [evalSteps]. apply sim_bind; [by apply sim_step|].
  intros [b'|res] u1 u2 Hu; [by apply IH|by apply sim_ret].
Qed.

(** C26: memoisation is transparent.  When every memoizable primitive is a
    function of the hash of its inputs and the cache holds only what these
    functions return, an evaluation with the cache ends with the outcome, the
    checkpoint store and the environment of the evaluation without it, and
    leaves a cache of the same kind. *)
Theorem memo_transparent (steps : list ProcessStep) (ctx : EvalCtx) (w : World) :
  memoizable_sound -> Forall hashable steps -> memo_coherent (w_memo w) ->
  let r1 := evaluateProcess clock sha256Hex registry checkpoint (Some ttlForFn) steps ctx w in
  let r2 := evaluateProcess clock sha256Hex registry checkpoint None steps ctx w in
  r_out _ r1 = r_out _ r2 /\ w_store (r_world _ r1) = w_store (r_world _ r2) /\
  w_env (r_world _ r1) = w_env (r_world _ r2) /\ memo_coherent (w_memo (r_world _ r1)).
Proof.
  intros Hsound Hsteps Hm r1 r2.
  enough (simulates r1 r2) as (Ho & Hm' & Hs & He) by done. subst r1 r2. unfold evaluateProcess.
  destruct (match checkpoint with Some _ => _ | None => _ end) as [prior|e]; [by apply sim_steps|by split].
Qed.
End Transparent.

(** ** What the comments rule out *)
Section Failures.
Context {E M : Type} `{Re : Re2} `{MemoOps : Memo M}
  (clock : E -> Z) (sha256Hex : string -> string) (registry : list (string * FunctionDef E)).
Abbreviation World := (@World E M).

(** Nothing catches a primitive that throws.  The rejection of [execute]
    rejects the whole evaluation, whatever the step's failure policy and
    whatever steps follow, where the registry's header says that the evaluator
    wraps stray throws as runtime errors. *)
Lemma stray_throw_rejects (memo : option (string -> option Z)) (step : ProcessStep) (rest : list ProcessStep)
    (ctx : EvalCtx) (w : World) (def : FunctionDef E) (args : JsValue) (why : string) (env' : E) :
  ps_if step = None -> obj_get (ps_call step) registry = Some def -> default false (fd_memoizable def) = false ->
  fd_argSchema def (interpolateArgs step (ctx_bindings ctx)) = Ok args ->
  fd_execute def args ctx (w_env w) = (Err why, env') ->
  r_out _ (evaluateProcess clock sha256Hex registry None memo (step :: rest) ctx w) = Err why.
Proof.
  intros Hif Hdef Hmemo Hargs Hex. unfold evaluateProcess. cbn [evalSteps]. rewrite bind_run.
  assert (with_bindings (ctx_bindings ctx) ctx = ctx) as Ectx by by destruct ctx.
  assert (r_out _ (evalStep clock sha256Hex registry None memo ∅ ctx 0 step (ctx_bindings ctx) w) = Err why) as ->; [|done].
  unfold evalStep. rewrite Hif, Ectx. rewrite bind_run. unfold dispatch, isDurable.
  assert (isMemoizable registry memo step = false) as ->.
  { unfold isMemoizable, durability. destruct memo; [|done]. rewrite Hdef. exact Hmemo. }
  assert (r_out _ (call registry 0 (ps_call step) (interpolateArgs step (ctx_bindings ctx)) ctx w) = Err why) as Hc.
  { unfold call. rewrite Hdef, Hargs, Hex. done. }
  destruct memo; by rewrite Hc.
Qed.

(** A durable primitive that returns [undefined], the result type's own
    convention for no value, cannot be recorded: the primitive runs, the write
    of its row throws, the evaluation rejects and the store is as it was, so
    that every restart runs the primitive once more. *)
Lemma undefined_output_never_recorded (runId : string) (step : ProcessStep) (rest : list ProcessStep)
    (ctx : EvalCtx) (w : World) (def : FunctionDef E) (args : JsValue) (h : string) (env' : E) :
  ps_if step = None -> obj_get (ps_call step) registry = Some def -> fd_durable def = Some true ->
  inputsHashOf sha256Hex (ps_call step) (interpolateArgs step (ctx_bindings ctx)) = Ok h ->
  fd_argSchema def (interpolateArgs step (ctx_bindings ctx)) = Ok args ->
  fd_execute def args ctx (w_env w) = (Ok (Ok JsUndef), env') ->
  loadable runId (w_store w) -> row_of runId (w_store w) 0 = None ->
  let r := evaluateProcess clock sha256Hex registry (Some runId) None (step :: rest) ctx w in
  (r_trace _ r).*1 = [Invoked 0] /\ is_ok (r_out _ r) = false /\
  w_store (r_world _ r) = w_store w /\ w_env (r_world _ r) = env'.
Proof.
  intros Hif Hdef Hdur Hh Hargs Hex Hl Hrow. unfold evaluateProcess.
  destruct (loadCheckpointMap_loadable runId (w_store w) Hl) as [prior Hprior]. rewrite Hprior.
  apply loadCheckpointMap_agrees in Hprior as [_ Hprior]. specialize (Hprior 0 (le_n 0)). rewrite Hrow in Hprior.
  assert (with_bindings (ctx_bindings ctx) ctx = ctx) as Ectx by by destruct ctx.
  cbn [evalSteps]. rewrite bind_run. unfold evalStep. rewrite Hif, Ectx. rewrite bind_run. unfold dispatch.
  assert (isDurable registry (Some runId) step = true) as ->.
  { unfold isDurable, durability. rewrite Hdef. cbn. by rewrite Hdur. }
  rewrite Hprior. unfold invokeDurable.
  rewrite (bind_silent _ _ w w h) by (unfold lift; by rewrite Hh). cbn [checkpoint_hit].
  change (isMemoizable registry None step) with false. cbv iota.
  rewrite (bind_silent (mret None) _ w w None), (bind_silent (now clock) _ w w (clock (w_env w))) by done.
  cbn [invokePrimitive]. rewrite bind_run. unfold call. rewrite Hdef, Hargs, Hex. cbn. done.
Qed.
End Failures.

(** [ctx.bindings] hydrated as the evaluator's header tells its caller. *)
Definition hydrate (restored : list (string * JsValue)) (ctx : EvalCtx) : EvalCtx :=
  with_bindings (fold_right (fun kv b => <[kv.1 := kv.2]> b) (ctx_bindings ctx) restored) ctx.
Definition hydration_registry : list (string * FunctionDef nat) :=
  [("fetch", demo_fetch); ("note", demo_note); ("verdict", demo_verdict)].
(** Note once, while [c] is not yet fetched; fetch; report the note. *)
Definition hydration_steps : list ProcessStep :=
  [{| ps_call := "note"; ps_args := Some [("x", JsStr "noted")]; ps_as := Some "a"; ps_if := Some "!c";
      ps_on_empty := None; ps_on_error := None |};
   demo_step "fetch" [] "c";
   demo_step "verdict" [("level", JsStr "warn"); ("message", JsStr "{{a.x}}")] "v"].
Definition hydration_eval := evaluateProcess Z.of_nat (fun s => s) hydration_registry (Some "run") None hydration_steps.
Definition warns (message : string) : result string RuleResult :=
  Ok (RVerdict (JsObj [("level", JsStr "warn"); ("message", JsStr message)])).

(** Hydrating the bindings before a restart, as the evaluator's header
    asks of its caller, makes the restart diverge: the condition of an earlier
    step sees the binding of a later one.  Cut after the fetch was recorded, a
    restart with hydrated bindings skips the first step and reports nothing; a
    restart without them reports what the uninterrupted evaluation does. *)
Lemma hydrated_restart_diverges :
  let run := hydration_eval demo_ctx (demo_world emptyStore 5) in
  let crashed := last_world (take 3 (r_trace _ run)) (demo_world emptyStore 5) in
  r_out _ run = warns "noted" /\ r_out _ (hydration_eval demo_ctx crashed) = warns "noted" /\
  exists restored, loadBindings "run" (w_store crashed) = Ok restored /\
    r_out _ (hydration_eval (hydrate restored demo_ctx) crashed) = warns "".
Proof.
  cbv zeta. split; [vm_compute; reflexivity|]. split; [vm_compute; reflexivity|].
  exists [("c", JsStr "5")]. split; vm_compute; reflexivity.
Qed.

Definition demo_throw : FunctionDef nat :=
  {| fd_name := "boom"; fd_argSchema := Ok; fd_execute _ _ e := (Err "boom", e);
     fd_durable := Some false; fd_memoizable := Some false; fd_costEstimateMs := None |}.
Lemma stray_throw_rejects_witness :
  r_out _ (evaluateProcess Z.of_nat (fun s => s) [("boom", demo_throw)] None None
    [{| ps_call := "boom"; ps_args := None; ps_as := Some "e"; ps_if := None; ps_on_empty := None;
        ps_on_error := Some ErrorContinue |}] demo_ctx (demo_world emptyStore 0)) = Err "boom".
Proof. by eapply (stray_throw_rejects Z.of_nat (fun s => s) _ None). Defined.

Definition demo_store_lesson : FunctionDef nat :=
  {| fd_name := "store_lesson"; fd_argSchema := Ok; fd_execute _ _ e := (Ok (Ok JsUndef), S e);
     fd_durable := Some true; fd_memoizable := Some false; fd_costEstimateMs := None |}.
Lemma undefined_output_never_recorded_witness :
  let w := r_world _ (evaluateProcess Z.of_nat (fun s => s) [("store_lesson", demo_store_lesson)] (Some "run") None
      [demo_step "store_lesson" [("id", JsStr "l1")] "x"] demo_ctx (demo_world emptyStore 0)) in
  w_store w = emptyStore /\ w_env w = 1.
Proof.
  destruct (undefined_output_never_recorded Z.of_nat (fun s => s) [("store_lesson", demo_store_lesson)] "run"
    (demo_step "store_lesson" [("id", JsStr "l1")] "x") [] demo_ctx (demo_world emptyStore 0) demo_store_lesson
    (JsObj [("id", JsStr "l1")])
    (stringify (encoding (JsObj [("fn", JsStr "store_lesson"); ("args", JsObj [("id", JsStr "l1")])]))) 1)
    as (_ & _ & Hs & He); try reflexivity.
  - intros i r. done.
  - split; [exact Hs|exact He].
Defined.
