(* ===== verification/MemoCache.v ===== *)
(** * The memo cache ([src/src/runtime/durable/memo_cache.ts])

    The two tiers and every operation.  The memory tier is an LRU cache, an
    interface with what the package documents; the persistent tier is a finite
    map.  [init], which creates the table, is left out.  The injected clock is
    the argument [now]. *)

From Stdlib Require Import Ascii String Sorted Permutation.
From stdpp Require Import base option list sets strings gmap fin_maps.
From S2P Require Import Prelude Json JsonText CanonicalJson CheckpointStore CheckpointProps Evaluator EvaluatorProps.
From S2P Require Import EvaluatorSpec.
#[local] Open Scope os_scope.

Record MemoryEntry := { me_value : JsValue; me_expiresAtMs : option Z }.

(** lru-cache: a lookup finds what was last stored, unless evicted or deleted,
    and changes only the order of use. *)
Class LruCache (C : Type) := {
  lru_find : C -> string -> option MemoryEntry;
  lru_touch : string -> C -> C;
  lru_set : string -> MemoryEntry -> C -> C;
  lru_delete : string -> C -> C;
  lru_clear : C -> C;
  lru_entries : C -> list (string * MemoryEntry);
  lru_touch_find : forall k c k', lru_find (lru_touch k c) k' = lru_find c k';
  lru_set_eq : forall k e c, lru_find (lru_set k e c) k = Some e;
  lru_set_ne : forall k e c k' e', k' <> k -> lru_find (lru_set k e c) k' = Some e' -> lru_find c k' = Some e';
  lru_delete_find : forall k c k', lru_find (lru_delete k c) k' = if decide (k' = k) then None else lru_find c k';
  lru_clear_find : forall c k, lru_find (lru_clear c) k = None;
  lru_entries_find : forall c k e, (k, e) ∈ lru_entries c <-> lru_find c k = Some e;
}.

Record MemoRow := { mr_outputs_json : string; mr_cached_at_ms : Z; mr_ttl_ms : option Z; mr_hit_count : nat }.
Record MemoStats := { st_fn : string; st_hits : nat; st_size : nat }.

Definition SEP : string := "::".
Definition cacheKey (fn inputsHash : string) : string := fn +:+ SEP +:+ inputsHash.
(** [key.indexOf('::')], as the text before it and the text after it. *)
Fixpoint parseCacheKey (key : string) : option (string * string) :=
  match key with
  | EmptyString => None
  | String c rest =>
      if starts_with key SEP then Some ("", String.substring 2 (String.length key - 2) key)
      else (fun p => (String c p.1, p.2)) <$> parseCacheKey rest
  end.

Section MemoCache.
Context {C : Type} `{Lru : LruCache C}.

Record Cache := { memory : C; memo_rows : gmap (string * string) MemoRow }.
Definition with_memory (c : C) (m : Cache) : Cache := {| memory := c; memo_rows := memo_rows m |}.
Definition with_rows (r : gmap (string * string) MemoRow) (m : Cache) : Cache :=
  {| memory := memory m; memo_rows := r |}.

Definition live (expiresAtMs : option Z) (now : Z) : bool :=
  match expiresAtMs with Some t => Z.ltb now t | None => true end.
(** The deadline of a row: its own TTL, or else the caller's. *)
Definition row_deadline (r : MemoRow) (ttlMs : option Z) : option Z :=
  match mr_ttl_ms r with
  | Some t => Some (mr_cached_at_ms r + t)%Z
  | None => (fun t => mr_cached_at_ms r + t)%Z <$> ttlMs
  end.
(** The lookup in the persistent tier. *)
Definition get_row (fn inputsHash : string) (ttlMs : option Z) (now : Z) (m : Cache)
    : result string (option JsValue) * Cache :=
  match memo_rows m !! (fn, inputsHash) with
  | None => (Ok None, m)
  | Some row =>
      let expiresAtMs := row_deadline row ttlMs in
      if negb (live expiresAtMs now) then (Ok None, with_rows (delete (fn, inputsHash) (memo_rows m)) m)
      else match canonicalJsonParse (mr_outputs_json row) with
           | Err e => (Err e, m)
           | Ok value =>
               (Ok (Some value),
                {| memory := lru_set (cacheKey fn inputsHash)
                     {| me_value := value; me_expiresAtMs := expiresAtMs |} (memory m);
                   memo_rows := <[(fn, inputsHash) :=
                     {| mr_outputs_json := mr_outputs_json row; mr_cached_at_ms := mr_cached_at_ms row;
                        mr_ttl_ms := mr_ttl_ms row; mr_hit_count := S (mr_hit_count row) |}]> (memo_rows m) |})
           end
  end.
Definition get (fn inputsHash : string) (ttlMs : option Z) (now : Z) (m : Cache)
    : result string (option JsValue) * Cache :=
  let key := cacheKey fn inputsHash in
  let m := with_memory (lru_touch key (memory m)) m in
  match lru_find (memory m) key with
  | Some mem =>
      if live (me_expiresAtMs mem) now then (Ok (Some (me_value mem)), m)
      else get_row fn inputsHash ttlMs now (with_memory (lru_delete key (memory m)) m)
  | None => get_row fn inputsHash ttlMs now m
  end.
Definition set (fn inputsHash : string) (outputs : JsValue) (ttlMs : option Z) (now : Z) (m : Cache)
    : result string unit * Cache :=
  let m := with_memory (lru_set (cacheKey fn inputsHash)
             {| me_value := outputs; me_expiresAtMs := (fun t => now + t)%Z <$> ttlMs |} (memory m)) m in
  match canonicalJsonStringify outputs with
  | Err e => (Err e, m)
  | Ok None => (Err "TypeError: undefined cannot be passed as argument to the database", m)
  | Ok (Some text) =>
      (Ok tt, with_rows (<[(fn, inputsHash) :=
        {| mr_outputs_json := text; mr_cached_at_ms := now; mr_ttl_ms := ttlMs; mr_hit_count := 0 |}]> (memo_rows m)) m)
  end.

(** [opts.fn] absent or equal. *)
Definition fn_matches (fn : option string) (actual : option string) : bool :=
  match fn with Some f => bool_decide (actual = Some f) | None => true end.
Definition clear_memory (fn : option string) (olderThanMs : option Z) (c : C) : C :=
  match fn, olderThanMs with
  | None, None => lru_clear c
  | _, _ => fold_left (fun c k => lru_delete k c)
              (List.filter (fun k => fn_matches fn (fst <$> parseCacheKey k)) (lru_entries c).*1) c
  end.
(** The row is named by the [WHERE] clause of the [DELETE]. *)
Definition is_dead (fn : option string) (olderThanMs : option Z) (now : Z) (kv : (string * string) * MemoRow) : bool :=
  fn_matches fn (Some kv.1.1) &&
  match olderThanMs with Some ms => Z.ltb (mr_cached_at_ms kv.2) (now - ms) | None => true end.
Definition clear (fn : option string) (olderThanMs : option Z) (now : Z) (m : Cache) : nat * Cache :=
  let dead := filter (fun kv => is_dead fn olderThanMs now kv = true) (memo_rows m) in
  (size dead, {| memory := clear_memory fn olderThanMs (memory m); memo_rows := memo_rows m ∖ dead |}).

(** [GROUP BY fn ORDER BY fn ASC] *)
Definition fn_rows (fn : string) (m : Cache) : list MemoRow :=
  (map_to_list (filter (fun kv => kv.1.1 = fn) (memo_rows m))).*2.
Definition stats (now : Z) (m : Cache) : list MemoStats :=
  List.map (fun fn => {| st_fn := fn; st_hits := sum_list (mr_hit_count <$> fn_rows fn m);
                         st_size := length (List.filter (fun r => live (row_deadline r None) now) (fn_rows fn m)) |})
    (stable_sort String.leb (set_of ((map_to_list (memo_rows m)).*1).*1)).
End MemoCache.
Arguments Cache : clear implicits.

#[export] Instance MemoCache_memo {C} `{LruCache C} : Memo (Cache C) := {| memo_get := get; memo_set := set |}.

(** ** Singleflight

    Callers of one key, interleaved: [Join] finds a computation in flight and
    shares it, or starts one; [Settle] is a computation ending, which removes
    its record and hands its result to every caller that shares it. *)
Inductive Flight := Join (caller : nat) (key : string) | Settle (key : string) (outcome : result string JsValue).
Record Flights := {
  inflight : list (string * list nat);
  started : list string;
  received : list (nat * result string JsValue);
}.
Definition flight (e : Flight) (s : Flights) : Flights :=
  match e with
  | Join caller key =>
      match obj_get key (inflight s) with
      | Some callers =>
          {| inflight := obj_set key (callers ++ [caller]) (inflight s); started := started s; received := received s |}
      | None =>
          {| inflight := obj_set key [caller] (inflight s); started := started s ++ [key]; received := received s |}
      end
  | Settle key outcome =>
      match obj_get key (inflight s) with
      | Some callers =>
          {| inflight := obj_delete key (inflight s); started := started s;
             received := received s ++ List.map (fun c => (c, outcome)) callers |}
      | None => s
      end
  end.
Definition noFlights : Flights := {| inflight := []; started := []; received := [] |}.
