(* ===== verification/MemoProps.v ===== *)
(** * Properties of the memo cache

    The two tiers serve what was last set until its deadline, whatever the
    memory tier has evicted; the cache implements the evaluator's interface;
    clearing by name; callers of one key share one computation. *)

From Stdlib Require Import Ascii String Sorted Permutation.
From stdpp Require Import base option list sets strings gmap fin_maps.
From S2P Require Import Prelude Json JsonText CanonicalJson CheckpointStore CheckpointProps Evaluator EvaluatorProps.
From S2P Require Import EvaluatorSpec MemoCache.
#[local] Open Scope os_scope.

(** ** Keys *)
Definition is_hash (h : string) : Prop := has_char ":" h = false.
Lemma split_last_colon a b h h' :
  is_hash h -> is_hash h' -> a +:+ String ":" h = b +:+ String ":" h' -> a = b /\ h = h'.
Proof.
  intros Hh Hh'. revert b. induction a as [|x a IH]; intros [|y b]; cbn.
  - by intros [= ->].
  - intros [= <- E]. subst h. unfold is_hash in Hh. rewrite has_char_app in Hh. cbn in Hh.
    by rewrite orb_true_r in Hh.
  - intros [= -> E]. subst h'. unfold is_hash in Hh'. rewrite has_char_app in Hh'. cbn in Hh'.
    by rewrite orb_true_r in Hh'.
  - intros [= -> E]. by apply IH in E as [-> ->].
Qed.
Lemma cacheKey_inj fn fn' h h' : is_hash h -> is_hash h' -> cacheKey fn h = cacheKey fn' h' -> fn = fn' /\ h = h'.
Proof.
  intros Hh Hh' E. unfold cacheKey, SEP in E.
  assert (forall f g : string, f +:+ "::" +:+ g = (f +:+ ":") +:+ String ":" g) as Hs.
  { intros f g. by rewrite string_app_assoc. }
  rewrite !Hs in E. apply split_last_colon in E as [E ->]; [|done..].
  split; [|done]. by apply (split_last_colon fn fn' "" "") in E as [-> _].
Qed.

Section Memo.
Context {C : Type} `{Lru : LruCache C}.
Implicit Type m : Cache C.

(** ** The tiers agree *)
Record coherent (m : Cache C) : Prop := {
  co_rows : forall k r, memo_rows m !! k = Some r -> exists v, canonicalJsonParse (mr_outputs_json r) = Ok v;
  co_memory : forall fn h e, is_hash h -> lru_find (memory m) (cacheKey fn h) = Some e ->
    exists r, memo_rows m !! (fn, h) = Some r /\ canonicalJsonParse (mr_outputs_json r) = Ok (me_value e) /\
      me_expiresAtMs e = row_deadline r None;
}.
(** What the persistent tier answers at [now], to a caller without a TTL. *)
Definition served (m : Cache C) (fn h : string) (now : Z) : option JsValue :=
  match memo_rows m !! (fn, h) with
  | Some r => if live (row_deadline r None) now
              then match canonicalJsonParse (mr_outputs_json r) with Ok v => Some v | Err _ => None end else None
  | None => None
  end.
(** The caller's TTL does not bind: the row has its own, or the caller has none. *)
Definition own_ttl (m : Cache C) (fn h : string) (ttl : option Z) : Prop :=
  ttl = None \/ forall r, memo_rows m !! (fn, h) = Some r -> mr_ttl_ms r <> None.
Lemma own_deadline m fn h ttl r : own_ttl m fn h ttl -> memo_rows m !! (fn, h) = Some r ->
  row_deadline r ttl = row_deadline r None.
Proof.
  intros [->|H] Hr; [done|]. specialize (H r Hr). unfold row_deadline. by destruct (mr_ttl_ms r).
Qed.

Lemma coherent_shrink m c :
  coherent m -> (forall k e, lru_find c k = Some e -> lru_find (memory m) k = Some e) -> coherent (with_memory c m).
Proof. intros [Hr Hm] Hc. split; cbn; [done|]. intros fn h e Hh He. by apply Hm, Hc. Qed.
Lemma get_row_exact m fn h ttl now :
  coherent m -> is_hash h -> own_ttl m fn h ttl ->
  (lru_find (memory m) (cacheKey fn h) = None \/ served m fn h now <> None) ->
  (get_row fn h ttl now m).1 = Ok (served m fn h now) /\ coherent (get_row fn h ttl now m).2.
Proof.
  intros Hco Hh Hown Hmem. unfold get_row, served in *. destruct (memo_rows m !! (fn, h)) as [r|] eqn:Er; [|done].
  rewrite (own_deadline m fn h ttl r) by done. destruct Hco as [Hrows Hm].
  destruct (live (row_deadline r None) now) eqn:El; cbn [negb].
  - destruct (Hrows _ _ Er) as [v Hv]. rewrite Hv. split; [done|]. split; cbn [fst snd memo_rows memory].
    + intros k r'. rewrite lookup_insert_Some. intros [[<- <-]|[_ Hr']]; [by exists v|by eapply Hrows].
    + intros fn' h' e Hh' He. destruct (decide (cacheKey fn' h' = cacheKey fn h)) as [E|E].
      * rewrite E, lru_set_eq in He. apply cacheKey_inj in E as [-> ->]; [|done..]. injection He as <-. cbn.
        rewrite lookup_insert_eq. by eexists.
      * apply lru_set_ne in He; [|done]. rewrite lookup_insert_ne by congruence. by apply Hm.
  - destruct Hmem as [Hmem|Hmem]; [|done]. split; [done|]. split; cbn [fst snd memo_rows memory with_rows].
    + intros k r'. rewrite lookup_delete_Some. intros [_ Hr']. by eapply Hrows.
    + intros fn' h' e Hh' He. rewrite lookup_delete_ne; [by apply Hm|]. intros [= -> ->]. congruence.
Qed.
Lemma get_exact m fn h ttl now :
  coherent m -> is_hash h -> own_ttl m fn h ttl ->
  (get fn h ttl now m).1 = Ok (served m fn h now) /\ coherent (get fn h ttl now m).2.
Proof.
  intros Hco Hh Hown. unfold get. set (m1 := with_memory (lru_touch (cacheKey fn h) (memory m)) m).
  assert (coherent m1) as Hco1.
  { apply coherent_shrink; [done|]. intros k e. by rewrite lru_touch_find. }
  destruct (lru_find (memory m1) (cacheKey fn h)) as [e|] eqn:Ee.
  - destruct (co_memory m1 Hco1 fn h e Hh Ee) as (r & Hr & Hv & Hd). destruct (live (me_expiresAtMs e) now) eqn:El.
    + split; [|done]. cbn. unfold served. change (memo_rows m !! (fn, h) = Some r) in Hr. by rewrite Hr, <- Hd, El, Hv.
    + set (m2 := with_memory (lru_delete (cacheKey fn h) (memory m1)) m1).
      assert (coherent m2) as Hco2.
      { apply coherent_shrink; [done|]. intros k e'. rewrite lru_delete_find. by case_decide. }
      apply (get_row_exact m2 fn h ttl now Hco2 Hh Hown). left. cbn. rewrite lru_delete_find. by case_decide.
  - apply (get_row_exact m1 fn h ttl now Hco1 Hh Hown). by left.
Qed.
Lemma set_exact m fn h v ttl now :
  coherent m -> is_hash h -> storable v ->
  (set fn h v ttl now m).1 = Ok tt /\ coherent (set fn h v ttl now m).2 /\
  (forall t, served (set fn h v ttl now m).2 fn h t =
     if live ((fun d => now + d)%Z <$> ttl) t then Some v else None) /\
  forall fn' h' t, (fn', h') <> (fn, h) -> served (set fn h v ttl now m).2 fn' h' t = served m fn' h' t.
Proof.
  intros [Hrows Hm] Hh [Hp Hc]. unfold set. rewrite stringify_plain by done. cbn [fst snd].
  pose proof (parse_encoding v Hp) as Hv. rewrite Hc in Hv.
  split; [done|]. split; [split|split]; cbn [memo_rows memory with_rows with_memory].
  - intros k r. rewrite lookup_insert_Some. intros [[<- <-]|[_ Hr]]; [by exists v|by eapply Hrows].
  - intros fn' h' e Hh' He. destruct (decide (cacheKey fn' h' = cacheKey fn h)) as [E|E].
    + rewrite E, lru_set_eq in He. apply cacheKey_inj in E as [-> ->]; [|done..]. injection He as <-. cbn.
      rewrite lookup_insert_eq. eexists. split; [reflexivity|]. split; [done|]. by destruct ttl.
    + apply lru_set_ne in He; [|done]. rewrite lookup_insert_ne by congruence. by apply Hm.
  - intros t. unfold served. cbn [memo_rows with_rows]. rewrite lookup_insert_eq. cbn [mr_outputs_json].
    rewrite Hv. unfold row_deadline. cbn. by destruct ttl.
  - intros fn' h' t Hne. unfold served. cbn [memo_rows with_rows with_memory]. by rewrite lookup_insert_ne by congruence.
Qed.

(** A lookup at an earlier time changes nothing a later one sees. *)
Lemma live_mono d t now : (t <= now)%Z -> live d t = false -> live d now = false.
Proof. destruct d as [d|]; cbn; [|done]. rewrite !Z.ltb_ge. lia. Qed.
Lemma served_get_row m fn h fn' h' t now :
  (t <= now)%Z -> served (get_row fn' h' None t m).2 fn h now = served m fn h now.
Proof.
  intros Ht. unfold get_row. destruct (memo_rows m !! (fn', h')) as [r|] eqn:Er; [|done].
  destruct (live (row_deadline r None) t) eqn:El; cbn [negb].
  - destruct (canonicalJsonParse (mr_outputs_json r)) eqn:Ev; [|done]. unfold served. cbn.
    destruct (decide ((fn', h') = (fn, h))) as [E|E].
    + rewrite E in *. by rewrite lookup_insert_eq, Er.
    + by rewrite lookup_insert_ne.
  - unfold served. cbn. destruct (decide ((fn', h') = (fn, h))) as [E|E].
    + rewrite E in *. rewrite lookup_delete_eq, Er. by rewrite (live_mono _ t now).
    + by rewrite lookup_delete_ne.
Qed.
Lemma served_get m fn h fn' h' t now :
  (t <= now)%Z -> served (get fn' h' None t m).2 fn h now = served m fn h now.
Proof.
  intros Ht. unfold get. destruct (lru_find _ _) as [e|]; [destruct (live _ _)|]; [done| |];
    by rewrite served_get_row.
Qed.

(** Lookups and stores by other callers, each with its time. *)
Inductive MemoOp := MGet (fn h : string) (t : Z) | MSet (fn h : string) (v : JsValue) (ttl : option Z) (t : Z).
Definition memo_step (m : Cache C) (op : MemoOp) : Cache C :=
  match op with MGet fn h t => (get fn h None t m).2 | MSet fn h v ttl t => (set fn h v ttl t m).2 end.
(** No later than [now], and not a store under [fn, h]. *)
Definition elsewhere (fn h : string) (now : Z) (op : MemoOp) : Prop :=
  match op with
  | MGet fn' h' t => is_hash h' /\ (t <= now)%Z
  | MSet fn' h' v _ t => is_hash h' /\ (t <= now)%Z /\ storable v /\ (fn, h) <> (fn', h')
  end.
Lemma elsewhere_keeps fn h now ops m :
  Forall (elsewhere fn h now) ops -> coherent m ->
  coherent (fold_left memo_step ops m) /\ served (fold_left memo_step ops m) fn h now = served m fn h now.
Proof.
  intros Hops. revert m. induction Hops as [|op ops Hop _ IH]; intros m Hco; [done|]. cbn [fold_left].
  destruct op as [fn' h' t|fn' h' v ttl t]; cbn [memo_step].
  - destruct Hop as [Hh Ht]. destruct (get_exact m fn' h' None t Hco Hh) as [_ Hco']; [by left|].
    destruct (IH _ Hco') as [Hc Hs]. split; [done|]. by rewrite Hs, served_get.
  - destruct Hop as (Hh & Ht & Hv & Hne). destruct (set_exact m fn' h' v ttl t Hco Hh Hv) as (_ & Hco' & _ & Hother).
    destruct (IH _ Hco') as [Hc Hs]. split; [done|]. by rewrite Hs, Hother.
Qed.

(** A stored value is served exactly until its deadline.  After a store
    of a storable value, whatever lookups and stores under other keys follow,
    and whatever the memory tier evicts meanwhile, a lookup at [now] answers
    the value if the TTL has not run out and a miss otherwise. *)
Lemma memo_serves_until_deadline (m : Cache C) (fn h : string) (v : JsValue) (ttl : option Z) (t0 now : Z)
    (ops : list MemoOp) :
  coherent m -> is_hash h -> storable v -> Forall (elsewhere fn h now) ops ->
  (get fn h None now (fold_left memo_step ops (set fn h v ttl t0 m).2)).1 =
  Ok (if live ((fun d => t0 + d)%Z <$> ttl) now then Some v else None).
Proof.
  intros Hco Hh Hv Hops. destruct (set_exact m fn h v ttl t0 Hco Hh Hv) as (_ & Hco' & Hserved & _).
  destruct (elsewhere_keeps fn h now ops _ Hops Hco') as [Hc Hs].
  destruct (get_exact _ fn h None now Hc Hh) as [-> _]; [by left|]. by rewrite Hs, Hserved.
Qed.

(** ** The evaluator's interface *)
Definition holds (P : string -> string -> JsValue -> Prop) (m : Cache C) : Prop :=
  (forall fn h e, is_hash h -> lru_find (memory m) (cacheKey fn h) = Some e -> P fn h (me_value e)) /\
  (forall fn h r, memo_rows m !! (fn, h) = Some r ->
     exists v, canonicalJsonParse (mr_outputs_json r) = Ok v /\ (is_hash h -> P fn h v)).
Lemma holds_memory P m c :
  holds P m -> (forall k e, lru_find c k = Some e -> lru_find (memory m) k = Some e) -> holds P (with_memory c m).
Proof. intros [Hm Hr] Hc. split; cbn; [|done]. intros fn h e Hh He. by apply Hm, Hc. Qed.
Lemma holds_get_row P m fn h ttl now : is_hash h -> holds P m ->
  exists o m', get_row fn h ttl now m = (Ok o, m') /\ holds P m' /\ forall v, o = Some v -> P fn h v.
Proof.
  intros Hh [Hm Hr]. unfold get_row. destruct (memo_rows m !! (fn, h)) as [r|] eqn:Er; [|by eexists _, _].
  destruct (negb _).
  - eexists _, _. split; [reflexivity|]. split; [|done]. split; [done|]. cbn. intros fn' h' r'.
    rewrite lookup_delete_Some. intros [_ Hr']. by eapply Hr.
  - destruct (Hr fn h r Er) as (v & Hv & HP). rewrite Hv. eexists _, _. split; [reflexivity|].
    split; [|intros ? [= <-]; by apply HP]. split; cbn.
    + intros fn' h' e Hh' He. destruct (decide (cacheKey fn' h' = cacheKey fn h)) as [E|E].
      * rewrite E, lru_set_eq in He. apply cacheKey_inj in E as [-> ->]; [|done..]. injection He as <-. by apply HP.
      * apply lru_set_ne in He; [|done]. by apply Hm.
    + intros fn' h' r'. rewrite lookup_insert_Some. intros [[[= <- <-] <-]|[_ Hr']]; [by exists v|by eapply Hr].
Qed.
Lemma holds_get P fn h ttl now m : is_hash h -> holds P m ->
  exists o m', get fn h ttl now m = (Ok o, m') /\ holds P m' /\ forall v, o = Some v -> P fn h v.
Proof.
  intros Hh Hm. unfold get. set (m1 := with_memory (lru_touch (cacheKey fn h) (memory m)) m).
  assert (holds P m1) as Hm1 by (apply holds_memory; [done|]; intros k e; by rewrite lru_touch_find).
  destruct (lru_find (memory m1) (cacheKey fn h)) as [e|] eqn:Ee; [|by apply holds_get_row].
  destruct (live _ _).
  - eexists _, _. split; [reflexivity|]. split; [done|]. intros v [= <-]. by apply (proj1 Hm1).
  - apply holds_get_row; [done|]. apply holds_memory; [done|]. intros k e'. rewrite lru_delete_find. by case_decide.
Qed.
Lemma holds_set P fn h v ttl now m : is_hash h -> holds P m -> P fn h v -> storable v ->
  exists m', set fn h v ttl now m = (Ok tt, m') /\ holds P m'.
Proof.
  intros Hh [Hm Hr] HP [Hp Hc]. unfold set. rewrite stringify_plain by done. eexists. split; [reflexivity|].
  pose proof (parse_encoding v Hp) as Hv. rewrite Hc in Hv. split; cbn.
  - intros fn' h' e Hh' He. destruct (decide (cacheKey fn' h' = cacheKey fn h)) as [E|E].
    + rewrite E, lru_set_eq in He. apply cacheKey_inj in E as [-> ->]; [|done..]. by injection He as <-.
    + apply lru_set_ne in He; [|done]. by apply Hm.
  - intros fn' h' r'. rewrite lookup_insert_Some. intros [[[= <- <-] <-]|[_ Hr']]; [by exists v|by eapply Hr].
Qed.
End Memo.

#[export] Instance MemoCache_laws {C} `{LruCache C} : MemoLaws (Cache C) := {|
  memo_hash := is_hash; memo_holds := holds; memo_get_law := holds_get; memo_set_law := holds_set |}.

(** ** Clearing by name *)
Lemma parse_cacheKey fn h : has_char ":" fn = false -> parseCacheKey (cacheKey fn h) = Some (fn, h).
Proof.
  unfold cacheKey. induction fn as [|c fn IH]; cbn [String.append has_char].
  - intros _. change (SEP +:+ h) with (String ":" (String ":" h)).
    assert (forall s, starts_with (String ":" (String ":" s)) SEP = true) as E by (intros; apply starts_with_spec; by eexists).
    cbn [parseCacheKey]. rewrite E. do 2 f_equal. cbn [String.length Nat.sub]. rewrite Nat.sub_0_r. cbn.
    induction h as [|a h IH]; cbn; congruence.
  - intros [Hc Hfn]%orb_false_iff. cbn [parseCacheKey].
    destruct (starts_with (String c (fn +:+ SEP +:+ h)) SEP) eqn:E; [|by rewrite IH].
    apply starts_with_spec in E as [r E]. injection E as -> _. done.
Qed.
Section Clear.
Context {C : Type} `{Lru : LruCache C}.
Lemma fold_delete_find (ks : list string) (c : C) k :
  lru_find (fold_left (fun c k => lru_delete k c) ks c) k = if set_has k ks then None else lru_find c k.
Proof.
  revert c. induction ks as [|k' ks IH]; intros c; [done|]. cbn. rewrite IH, lru_delete_find.
  unfold set_has. repeat case_bool_decide; repeat case_decide; set_solver.
Qed.

(** Clearing a name forgets it.  For a name without a colon, after
    [clear({ fn })] every lookup under the name misses in both tiers, the
    persistent rows of every other name stay, and the count returned is the
    number of rows removed. *)
Lemma clear_forgets_name (fn : string) (now : Z) (m : Cache C) :
  has_char ":" fn = false ->
  let r := clear (Some fn) None now m in
  (forall h ttl t, (get fn h ttl t r.2).1 = Ok None) /\
  (forall fn' h', memo_rows r.2 !! (fn', h') = if decide (fn' = fn) then None else memo_rows m !! (fn', h')) /\
  r.1 = (size (memo_rows m) - size (memo_rows r.2))%nat.
Proof.
  intros Hfn r. assert (forall fn' h', memo_rows r.2 !! (fn', h') =
    if decide (fn' = fn) then None else memo_rows m !! (fn', h')) as Hrows.
  { intros fn' h'. cbn. rewrite lookup_difference. unfold is_dead.
    destruct (filter _ (memo_rows m) !! (fn', h')) as [row|] eqn:Ef.
    - apply map_lookup_filter_Some in Ef as [Er Ed]. cbn in Ed. rewrite andb_true_r in Ed.
      apply bool_decide_eq_true in Ed. injection Ed as ->. by rewrite decide_True.
    - case_decide as Hd; [|done]. subst fn'. destruct (memo_rows m !! (fn, h')) as [row|] eqn:Er; [|done].
      apply map_lookup_filter_None in Ef as [Ef|Ef]; [congruence|]. destruct (Ef row Er). cbn.
      by rewrite bool_decide_eq_true_2. }
  split_and!; [|done|].
  - intros h ttl t. unfold get. cbn [memory with_memory].
    assert (lru_find (lru_touch (cacheKey fn h) (memory r.2)) (cacheKey fn h) = None) as ->.
    { rewrite lru_touch_find. cbn. rewrite fold_delete_find. unfold set_has. case_bool_decide as Hin; [done|].
      destruct (lru_find (memory m) (cacheKey fn h)) as [e|] eqn:Ee; [|done]. destruct Hin.
      apply list_elem_of_In, filter_In. split; [|by rewrite parse_cacheKey; cbn; rewrite ?bool_decide_eq_true_2].
      apply list_elem_of_In, list_elem_of_fmap. exists (cacheKey fn h, e). split; [done|]. by apply lru_entries_find. }
    unfold get_row. cbn [memo_rows with_memory]. rewrite Hrows. by rewrite decide_True.
  - cbn. set (d := filter _ (memo_rows m)). assert (d ⊆ memo_rows m) as Hd by apply map_filter_subseteq.
    assert (size (memo_rows m) = size d + size (memo_rows m ∖ d))%nat as ->; [|lia].
    rewrite <- map_size_disj_union; [by rewrite map_difference_union|]. by apply map_disjoint_difference_r1.
Qed.
End Clear.

(** ** Callers of one key share one computation *)
Definition settles (k : string) (e : Flight) : bool :=
  match e with Settle k' _ => (k' =? k)%string | Join _ _ => false end.
Definition joiners (k : string) (es : list Flight) : list nat :=
  omap (fun e => match e with Join c k' => if (k' =? k)%string then Some c else None | Settle _ _ => None end) es.
Definition starts (k : string) (s : Flights) : nat := length (List.filter (String.eqb k) (started s)).
Lemma starts_app k l s i r :
  starts k {| inflight := i; started := started s ++ l; received := r |} =
  (starts k s + length (List.filter (String.eqb k) l))%nat.
Proof. unfold starts. cbn. by rewrite List.filter_app, length_app. Qed.
Lemma flight_shared k es : forall s cs,
  obj_get k (inflight s) = Some cs -> Forall (fun e => settles k e = false) es ->
  let s' := fold_left (fun s e => flight e s) es s in
  obj_get k (inflight s') = Some (cs ++ joiners k es) /\ starts k s' = starts k s /\
  exists mid, received s' = received s ++ mid.
Proof.
  induction es as [|e es IH]; intros s cs Hk Hes.
  { cbn. rewrite app_nil_r. split_and!; [done..|]. exists []. by rewrite app_nil_r. }
  apply Forall_cons in Hes as [He Hes]. cbn [fold_left].
  destruct e as [c k'|k' o]; cbn [settles] in He.
  - destruct (String.eqb_spec k' k) as [->|Hne].
    + cbn [flight joiners omap list_omap]. rewrite Hk, String.eqb_refl.
      edestruct (IH {| inflight := obj_set k (cs ++ [c]) (inflight s); started := started s; received := received s |})
        as (H1 & H2 & H3); [apply obj_get_set_eq|done|]. cbn in H1, H2, H3. rewrite H1, H2. split_and!; [|done..].
      by rewrite <- app_assoc.
    + assert (joiners k (Join c k' :: es) = joiners k es) as ->.
      { cbn. apply String.eqb_neq in Hne. by rewrite Hne. }
      assert (obj_get k (inflight (flight (Join c k') s)) = Some cs /\ starts k (flight (Join c k') s) = starts k s /\
        received (flight (Join c k') s) = received s) as (Hi & Hst & <-).
      { cbn [flight]. destruct (obj_get k' (inflight s)); cbn [inflight received]; rewrite obj_get_set_ne by done;
          (split_and!; [done| |done]); [done|]. rewrite starts_app. cbn.
        apply not_eq_sym, String.eqb_neq in Hne. rewrite Hne. cbn. lia. }
      rewrite <- Hst. by apply IH.
  - cbn [flight]. assert (joiners k (Settle k' o :: es) = joiners k es) as -> by done.
    destruct (obj_get k' (inflight s)) as [cs'|]; [|by apply IH].
    edestruct IH as (H1 & H2 & mid & H3); [|done|split_and!; [exact H1|exact H2|]].
    + cbn [inflight]. rewrite obj_get_delete, He. exact Hk.
    + rewrite H3. cbn. eexists. by rewrite <- app_assoc.
Qed.

(** Concurrent callers of one key share one computation.  From the caller
    that finds none in flight up to the computation's end, however the calls
    and endings of other keys interleave, the key's computation is started
    exactly once, every caller of the key receives its outcome, a failure
    included, and the key is free again. *)
Lemma singleflight_shares (k : string) (c0 : nat) (es : list Flight) (o : result string JsValue) (s : Flights) :
  obj_get k (inflight s) = None -> Forall (fun e => settles k e = false) es ->
  let s' := fold_left (fun s e => flight e s) (Join c0 k :: es ++ [Settle k o]) s in
  starts k s' = S (starts k s) /\ obj_get k (inflight s') = None /\
  exists mid, received s' = received s ++ mid ++ List.map (fun c => (c, o)) (c0 :: joiners k es).
Proof.
  intros Hk Hes. cbv zeta. cbn [fold_left]. rewrite fold_left_app. cbn [fold_left flight]. rewrite Hk.
  set (s1 := {| inflight := _; started := _; received := _ |}).
  destruct (flight_shared k es s1 [c0]) as (H1 & H2 & mid & H3); [apply obj_get_set_eq|done|].
  rewrite H1. cbn [starts inflight received started]. split_and!.
  - change (starts k (fold_left (fun s e => flight e s) es s1) = S (starts k s)). rewrite H2.
    unfold s1. rewrite starts_app. cbn. rewrite String.eqb_refl. cbn. lia.
  - by rewrite obj_get_delete, String.eqb_refl.
  - exists mid. by rewrite H3, <- app_assoc.
Qed.
Lemma singleflight_shares_witness :
  starts "f::h" (fold_left (fun s e => flight e s)
    [Join 0 "f::h"; Join 1 "g::h"; Join 2 "f::h"; Settle "g::h" (Err "late"); Settle "f::h" (Ok JsNull)] noFlights) = 1 /\
  received (fold_left (fun s e => flight e s)
    [Join 0 "f::h"; Join 1 "g::h"; Join 2 "f::h"; Settle "g::h" (Err "late"); Settle "f::h" (Ok JsNull)] noFlights) =
  [(1, Err "late"); (0, Ok JsNull); (2, Ok JsNull)].
Proof.
  split; [|vm_compute; reflexivity].
  apply (singleflight_shares "f::h" 0 [Join 1 "g::h"; Join 2 "f::h"; Settle "g::h" (Err "late")] (Ok JsNull) noFlights).
  - reflexivity.
  - repeat constructor.
Defined.

(** ** Concrete caches *)

(** A memory tier of one entry: every store evicts. *)
#[local] Program Instance demo_lru : LruCache (gmap string MemoryEntry) := {|
  lru_find c k := c !! k; lru_touch _ c := c; lru_set k e _ := {[k := e]}; lru_delete k c := delete k c;
  lru_clear _ := ∅; lru_entries c := map_to_list c |}.
Next Obligation. done. Qed.
Next Obligation. intros. apply lookup_singleton_eq. Qed.
Next Obligation. intros * Hne. cbn. by rewrite lookup_singleton_ne. Qed.
Next Obligation. intros. cbn. case_decide; subst; [apply lookup_delete_eq|by rewrite lookup_delete_ne]. Qed.
Next Obligation. done. Qed.
Next Obligation. intros. apply elem_of_map_to_list. Qed.
Definition demo_cache : Cache (gmap string MemoryEntry) := {| memory := ∅; memo_rows := ∅ |}.
Lemma demo_coherent : coherent demo_cache.
Proof. by split. Qed.
Definition demo_ops : list MemoOp := [MSet "embed" "h2" (JsStr "w") None 11; MGet "embed" "h" 12; MGet "embed" "h3" 13].

Lemma memo_serves_until_deadline_witness :
  let m := fold_left memo_step demo_ops (set "embed" "h" (JsStr "v") (Some 10%Z) 5 demo_cache).2 in
  lru_find (memory (set "embed" "h2" (JsStr "w") None 11 (set "embed" "h" (JsStr "v") (Some 10%Z) 5 demo_cache).2).2)
    (cacheKey "embed" "h") = None /\
  (get "embed" "h" None 14 m).1 = Ok (Some (JsStr "v")) /\ (get "embed" "h" None 15 m).1 = Ok None.
Proof.
  assert (storable (JsStr "v")) as Hv by done. assert (storable (JsStr "w")) as Hw by done.
  split_and!; [vm_compute; reflexivity| |];
    (apply (memo_serves_until_deadline demo_cache "embed" "h" (JsStr "v") (Some 10%Z) 5); [exact demo_coherent|done|done|]);
    (repeat constructor; try done; lia).
Defined.
Lemma clear_forgets_name_witness :
  let m := (set "embed" "h" (JsStr "v") None 5 (set "search" "h" (JsStr "w") None 4 demo_cache).2).2 in
  (clear (Some "embed") None 6 m).1 = 1 /\ (get "embed" "h" None 7 (clear (Some "embed") None 6 m).2).1 = Ok None.
Proof.
  split; [vm_compute; reflexivity|]. edestruct (clear_forgets_name "embed" 6) as [H _]; [reflexivity|]. apply H.
Defined.

(** A digest of letters: a colon becomes an underscore. *)
Fixpoint demo_sha (s : string) : string :=
  match s with
  | EmptyString => EmptyString
  | String a s => String (if (a =? ":")%char then "_" else a)%char (demo_sha s)
  end.
Lemma demo_sha_hash s : memo_hash (M := Cache (gmap string MemoryEntry)) (demo_sha s).
Proof.
  cbn. unfold is_hash. induction s as [|a s IH]; [done|]. cbn [demo_sha has_char]. rewrite IH, orb_false_r.
  destruct (a =? ":")%char eqn:Ha; [done|]. exact Ha.
Qed.
#[local] Existing Instance demo_re2.
Definition demo_greet : FunctionDef nat :=
  {| fd_name := "greet"; fd_argSchema := Ok; fd_execute _ _ e := (Ok (Ok (JsStr "hi")), e);
     fd_durable := Some true; fd_memoizable := Some true; fd_costEstimateMs := None |}.
Definition memo_registry : list (string * FunctionDef nat) := [("greet", demo_greet); ("fetch", demo_fetch)].
Definition memo_steps : list ProcessStep :=
  [demo_step "greet" [("to", JsStr "a")] "g"; demo_step "fetch" [] "a"; demo_step "greet" [("to", JsStr "a")] "h"].
Definition memo_world : @World nat (Cache (gmap string MemoryEntry)) :=
  {| w_store := emptyStore; w_memo := demo_cache; w_env := 5 |}.
Definition memo_eval (memo : option (string -> option Z)) :=
  evaluateProcess Z.of_nat demo_sha memo_registry (Some "run") memo memo_steps demo_ctx memo_world.

Lemma memo_transparent_witness :
  r_out _ (memo_eval (Some (fun _ => None))) = r_out _ (memo_eval None) /\
  w_store (r_world _ (memo_eval (Some (fun _ => None)))) = w_store (r_world _ (memo_eval None)) /\
  (r_trace _ (memo_eval (Some (fun _ => None)))).*1 =
    [Invoked 0; Wrote 0 completed; Invoked 1; Wrote 1 completed; Wrote 2 completed].
Proof.
  destruct (memo_transparent Z.of_nat demo_sha memo_registry (Some "run") (fun _ => None) demo_sha_hash
    (fun fn h => Ok (JsStr "hi")) memo_steps demo_ctx memo_world) as (Ho & Hs & _).
  - intros fn meta Hmeta Hm.
    assert (fn = "greet") as ->.
    { unfold durability in Hmeta. cbn in Hmeta.
      destruct (String.eqb_spec fn "greet"); [done|]. destruct (String.eqb_spec fn "fetch"); [|done].
      injection Hmeta as <-. done. }
    split; [|by intros h v [= <-]]. intros i args c w h _. done.
  - repeat constructor; intros b; vm_compute; reflexivity.
  - by split.
  - split_and!; [exact Ho|exact Hs|vm_compute; reflexivity].
Defined.
