(* ===== verification/Resumer.v ===== *)
(** * The resumer ([src/src/runtime/durable/resumer.ts])

    Finding the interrupted runs, joining them with their manifests, resuming
    each from its next step, and the audit.  The resolver and the evaluator are
    supplied by the caller: functions that act on the environment, and for the
    evaluator on the checkpoint store too.  An [Err] is a rejected promise. *)

From Stdlib Require Import Ascii String Sorted.
From stdpp Require Import base option list sets strings pretty gmap fin_maps sorting.
From S2P Require Import Prelude Json JsonText CanonicalJson CheckpointStore CheckpointProps.
#[local] Open Scope os_scope.

Definition DEFAULT_RESUME_WINDOW_MS : Z := 60000.

(** [process] is opaque to the resumer. *)
Record ResolvedRule (P : Type) := { rr_process : P; rr_packVersion : string }.
Arguments rr_process {P}. Arguments rr_packVersion {P}.
Record RunEvaluatorInput := { ri_manifest : RunManifest; ri_bindings : list (string * JsValue); ri_entryStepIdx : nat }.
Record InterruptedRun := {
  ir_runId : string; ir_lastCompletedStep : nat; ir_lastCompletedAtMs : Z; ir_packId : string; ir_packVersion : string;
  ir_skill : string; ir_ruleId : string; ir_eventKind : string; ir_eventPayload : JsValue;
}.
Inductive SkipReason := manifest_missing | pack_missing | rule_missing | pack_version_mismatch | evaluator_error.
Inductive AuditEntry :=
  | resume_summary (scanned resumed skippedOther : nat)
  | resume_run (runId packId : string) (fromStepIdx : nat)
  | resume_skipped (runId : string) (reason : SkipReason) (detail : option string).
Inductive ResumeResult := Resumed | NotResumed (reason : SkipReason).
Record ResumeStartupResult := { rs_resumed : nat; rs_skipped : nat }.

(** What a resumer does: an entry to the primary audit sink, or a call of the evaluator. *)
Inductive ResumeEvent := Audited (entry : AuditEntry) | Evaluated (input : RunEvaluatorInput).

Section Resumer.
Context {E P : Type}.
Context (resolver : RunManifest -> E -> result string (option (ResolvedRule P)) * E).
Context (evaluator : RunEvaluatorInput -> Store -> E -> result string unit * Store * E).
(** Sinks attached later; they may throw. *)
Context (additionalSinks : list (AuditEntry -> E -> result string unit * E)).

Record RState := { s_store : Store; s_env : E; s_done : list ResumeEvent }.
Definition Res (A : Type) : Type := RState -> result string A * RState.
#[export] Instance Res_ret : MRet Res := fun A a s => (Ok a, s).
#[export] Instance Res_bind : MBind Res := fun A B f m s =>
  match (m s).1 with Ok a => f a (m s).2 | Err e => (Err e, (m s).2) end.
Definition reads {A} (f : Store -> result string A) : Res A := fun s => (f (s_store s), s).

(** The primary sink first; what an attached sink throws is swallowed. *)
Definition emit (entry : AuditEntry) : Res unit := fun s =>
  (Ok tt, {| s_store := s_store s; s_env := fold_left (fun e sink => (sink entry e).2) additionalSinks (s_env s);
             s_done := s_done s ++ [Audited entry] |}).
Definition resolve (manifest : RunManifest) : Res (option (ResolvedRule P)) := fun s =>
  ((resolver manifest (s_env s)).1,
   {| s_store := s_store s; s_env := (resolver manifest (s_env s)).2; s_done := s_done s |}).
(** [try { await evaluator(...) } catch]: the outcome, never a rejection. *)
Definition try_evaluate (input : RunEvaluatorInput) : Res (result string unit) := fun s =>
  let r := evaluator input (s_store s) (s_env s) in
  (Ok r.1.1, {| s_store := r.1.2; s_env := r.2; s_done := s_done s ++ [Evaluated input] |}).

Definition join_run (s : InterruptedSummary) (m : RunManifest) : InterruptedRun :=
  {| ir_runId := rm_runId m; ir_lastCompletedStep := is_lastCompletedStep s;
     ir_lastCompletedAtMs := is_lastCompletedAtMs s; ir_packId := rm_packId m; ir_packVersion := rm_packVersion m;
     ir_skill := rm_skill m; ir_ruleId := rm_ruleId m; ir_eventKind := rm_eventKind m;
     ir_eventPayload := rm_eventPayload m |}.
Fixpoint joinManifests (summaries : list InterruptedSummary) : Res (list InterruptedRun) :=
  match summaries with
  | [] => mret []
  | s :: rest =>
      m ← reads (getRunManifest (is_runId s));
      match m with
      | None => emit (resume_skipped (is_runId s) manifest_missing None) ≫= fun _ => joinManifests rest
      | Some m => out ← joinManifests rest; mret (join_run s m :: out)
      end
  end.
(** [Resumer.scanInterrupted] *)
Definition scan (resumeWindowMs : option Z) (nowMs : Z) : Res (list InterruptedRun) :=
  summaries ← reads (fun st => Ok (scanInterrupted resumeWindowMs nowMs st));
  joinManifests summaries.

(** The manifest as the joined view gives it: it started when its last step completed. *)
Definition run_manifest (run : InterruptedRun) : RunManifest :=
  {| rm_runId := ir_runId run; rm_packId := ir_packId run; rm_packVersion := ir_packVersion run;
     rm_skill := ir_skill run; rm_ruleId := ir_ruleId run; rm_eventKind := ir_eventKind run;
     rm_eventPayload := ir_eventPayload run; rm_startedAtMs := ir_lastCompletedAtMs run |}.
Definition skip (run : InterruptedRun) (reason : SkipReason) (detail : option string) : Res ResumeResult :=
  emit (resume_skipped (ir_runId run) reason detail) ≫= fun _ => mret (NotResumed reason).
Definition resume (run : InterruptedRun) : Res ResumeResult :=
  let manifest := run_manifest run in
  resolved ← resolve manifest;
  match resolved with
  | None => skip run pack_missing None
  | Some resolved =>
      if negb (rr_packVersion resolved =? ir_packVersion run)%string
      then skip run pack_version_mismatch (Some ("was=" +:+ ir_packVersion run +:+ " now=" +:+ rr_packVersion resolved))
      else
        bindings ← reads (loadBindings (ir_runId run));
        let entryStepIdx := S (ir_lastCompletedStep run) in
        outcome ← try_evaluate {| ri_manifest := manifest; ri_bindings := bindings; ri_entryStepIdx := entryStepIdx |};
        match outcome with
        | Err why => skip run evaluator_error (Some why)
        | Ok _ => emit (resume_run (ir_runId run) (ir_packId run) entryStepIdx) ≫= fun _ => mret Resumed
        end
  end.

Fixpoint resume_all (runs : list InterruptedRun) (resumed skippedOther : nat) : Res (nat * nat) :=
  match runs with
  | [] => mret (resumed, skippedOther)
  | run :: rest =>
      r ← resume run;
      match r with
      | Resumed => resume_all rest (S resumed) skippedOther
      | NotResumed _ => resume_all rest resumed (S skippedOther)
      end
  end.
Definition resumeOnStartup (resumeWindowMs : option Z) (nowMs : Z) : Res ResumeStartupResult :=
  interrupted ← scan resumeWindowMs nowMs;
  counts ← resume_all interrupted 0 0;
  emit (resume_summary (length interrupted) counts.1 counts.2) ≫= fun _ =>
  mret {| rs_resumed := counts.1; rs_skipped := counts.2 |}.
End Resumer.

(** ** Properties: a startup accounts for every run *)
(** ** Joining *)
(** The run a summary joins to, if it has a manifest. *)
Definition joined (st : Store) (s : InterruptedSummary) : option InterruptedRun :=
  match getRunManifest (is_runId s) st with Ok (Some m) => Some (join_run s m) | _ => None end.
Definition orphan (st : Store) (s : InterruptedSummary) : option ResumeEvent :=
  match getRunManifest (is_runId s) st with
  | Ok None => Some (Audited (resume_skipped (is_runId s) manifest_missing None)) | _ => None end.
Lemma getRunManifest_id runId st m : getRunManifest runId st = Ok (Some m) -> rm_runId m = runId.
Proof.
  unfold getRunManifest. destruct (run_manifests st !! runId); [|done].
  intros (m' & (v & _ & [= <-])%bind_ok & [= <-])%bind_ok. done.
Qed.
Lemma joined_id st s run : joined st s = Some run -> ir_runId run = is_runId s.
Proof.
  unfold joined. destruct (getRunManifest _ st) as [[m|]|] eqn:Em; [|done..]. intros [= <-]. by apply getRunManifest_id in Em.
Qed.
Lemma joined_ids st (found : list InterruptedSummary) (id : string) : id ∈ ir_runId <$> omap (joined st) found -> id ∈ is_runId <$> found.
Proof.
  intros (run & -> & (s & Hs & Hj)%list_elem_of_omap)%list_elem_of_fmap. apply list_elem_of_fmap. exists s.
  split; [by apply joined_id in Hj|done].
Qed.
Lemma joined_nodup st (found : list InterruptedSummary) : NoDup (is_runId <$> found) -> NoDup (ir_runId <$> omap (joined st) found).
Proof.
  induction found as [|s found IH]; cbn; [done|]. intros [Hn Hnd]%NoDup_cons.
  destruct (joined st s) as [run|] eqn:Ej; [|by apply IH]. cbn. apply NoDup_cons. split; [|by apply IH].
  intros Hin%joined_ids. apply joined_id in Ej. congruence.
Qed.

Section Startup.
Context {E P : Type}.
Context (resolver : RunManifest -> E -> result string (option (ResolvedRule P)) * E).
Context (evaluator : RunEvaluatorInput -> Store -> E -> result string unit * Store * E).
Context (additionalSinks : list (AuditEntry -> E -> result string unit * E)).
Abbreviation RState := (@RState E).
Abbreviation Res := (@Res E).
Abbreviation joinManifests := (@joinManifests E additionalSinks).
Abbreviation resume := (@resume E P resolver evaluator additionalSinks).
Abbreviation resume_all := (@resume_all E P resolver evaluator additionalSinks).
Abbreviation resumeOnStartup := (@resumeOnStartup E P resolver evaluator additionalSinks).

Lemma res_bind_ok {A B} (m : Res A) (f : A -> Res B) s a s' : m s = (Ok a, s') -> (m ≫= f) s = f a s'.
Proof. intros H. unfold mbind, Res_bind. by rewrite H. Qed.
Lemma res_bind_err {A B} (m : Res A) (f : A -> Res B) s e s' : m s = (Err e, s') -> (m ≫= f) s = (Err e, s').
Proof. intros H. unfold mbind, Res_bind. by rewrite H. Qed.

Lemma joinManifests_run found : forall s,
  Forall (fun x => is_ok (getRunManifest (is_runId x) (s_store s)) = true) found ->
  exists s', joinManifests found s = (Ok (omap (joined (s_store s)) found), s') /\ s_store s' = s_store s /\
    s_done s' = s_done s ++ omap (orphan (s_store s)) found.
Proof.
  induction found as [|x found IH]; intros s Hok.
  { exists s. by rewrite app_nil_r. }
  apply Forall_cons in Hok as [Hx Hok]. cbn [Resumer.joinManifests omap list_omap]. unfold joined at 1, orphan at 1.
  destruct (getRunManifest (is_runId x) (s_store s)) as [[m|]|e] eqn:Em; [| |done].
  - erewrite res_bind_ok by (unfold reads; by rewrite Em). cbv beta iota. destruct (IH s Hok) as (s' & Hj & Hs & Hd).
    exists s'. by erewrite res_bind_ok by exact Hj.
  - erewrite res_bind_ok by (unfold reads; by rewrite Em). cbv beta iota. erewrite res_bind_ok by reflexivity.
    destruct (IH (emit additionalSinks (resume_skipped (is_runId x) manifest_missing None) s).2 Hok) as (s' & Hj & Hs & Hd).
    exists s'. split_and!; [done|done|]. rewrite Hd. cbn [s_done emit snd]. by rewrite <- app_assoc.
Qed.

(** What the evaluator is called with for a run. *)
Definition run_input (run : InterruptedRun) (bindings : list (string * JsValue)) : RunEvaluatorInput :=
  {| ri_manifest := run_manifest run; ri_bindings := bindings; ri_entryStepIdx := S (ir_lastCompletedStep run) |}.
(** The resolver's answer for the run, in some environment. *)
Definition resolves (run : InterruptedRun) (o : option (ResolvedRule P)) : Prop :=
  exists e, (resolver (run_manifest run) e).1 = Ok o.
(** What a resumption does and answers, the bindings those of the store [st]. *)
Inductive report (st : Store) (run : InterruptedRun) : ResumeResult * list ResumeEvent -> Prop :=
  | report_missing : resolves run None ->
      report st run (NotResumed pack_missing, [Audited (resume_skipped (ir_runId run) pack_missing None)])
  | report_mismatch rr detail : resolves run (Some rr) -> rr_packVersion rr <> ir_packVersion run ->
      report st run (NotResumed pack_version_mismatch,
        [Audited (resume_skipped (ir_runId run) pack_version_mismatch (Some detail))])
  | report_failed rr b why : resolves run (Some rr) -> rr_packVersion rr = ir_packVersion run ->
      loadBindings (ir_runId run) st = Ok b ->
      report st run (NotResumed evaluator_error,
        [Evaluated (run_input run b); Audited (resume_skipped (ir_runId run) evaluator_error (Some why))])
  | report_resumed rr b : resolves run (Some rr) -> rr_packVersion rr = ir_packVersion run ->
      loadBindings (ir_runId run) st = Ok b ->
      report st run (Resumed,
        [Evaluated (run_input run b); Audited (resume_run (ir_runId run) (ir_packId run) (S (ir_lastCompletedStep run)))]).

(** The resolver rejects no manifest; the evaluator writes rows of the run it is given only. *)
Context (Hresolver : forall m e, is_ok (resolver m e).1 = true).
Context (Hevaluator : forall input st e run i, run <> rm_runId (ri_manifest input) ->
  checkpoints (evaluator input st e).1.2 !! (run, i) = checkpoints st !! (run, i)).

Definition same_rows (run : string) (st st' : Store) : Prop :=
  forall i, checkpoints st' !! (run, i) = checkpoints st !! (run, i).
Lemma same_rows_bindings run st st' : same_rows run st st' -> loadBindings run st' = loadBindings run st.
Proof.
  intros H. unfold loadBindings, run_rows.
  assert (filter (fun kv => kv.1.1 = run) (checkpoints st') = filter (fun kv => kv.1.1 = run) (checkpoints st)) as ->; [|done].
  apply map_eq. intros [r i]. apply option_eq. intros x. rewrite !map_lookup_filter_Some. cbn.
  split; intros [Hx ->]; (split; [|done]); [rewrite <- H|rewrite H]; done.
Qed.

Lemma resume_report run st0 s :
  loadable (ir_runId run) st0 -> same_rows (ir_runId run) st0 (s_store s) ->
  exists r tr s', resume run s = (Ok r, s') /\ s_done s' = s_done s ++ tr /\ report st0 run (r, tr) /\
    forall run', run' <> ir_runId run -> same_rows run' (s_store s) (s_store s').
Proof.
  intros Hl Hsame. unfold Resumer.resume. set (m := run_manifest run).
  destruct (resolver m (s_env s)).1 as [o|] eqn:Eo; [|specialize (Hresolver m (s_env s)); by rewrite Eo in Hresolver].
  assert (resolves run o) as Ho by by exists (s_env s).
  erewrite res_bind_ok by (unfold resolve; by rewrite Eo). cbv beta. destruct o as [rr|].
  - destruct (String.eqb_spec (rr_packVersion rr) (ir_packVersion run)) as [Ev|Ev]; cbn [negb].
    + destruct (load_rows_total (ir_runId run) st0 (List.filter (fun kv => is_completed kv.2) (run_rows (ir_runId run) st0)) Hl)
        with (out := @nil (string * JsValue)) as [b Hb].
      { intros kv Hkv%completed_rows_elem. tauto. }
      change (loadBindings (ir_runId run) st0 = Ok b) in Hb.
      erewrite res_bind_ok by (unfold reads; cbn [s_store]; rewrite (same_rows_bindings _ _ _ Hsame); by rewrite Hb).
      cbv beta. erewrite res_bind_ok by reflexivity. cbv beta. cbn [s_store s_env].
      change (Build_RunEvaluatorInput m b _) with (run_input run b). set (r := evaluator (run_input run b) (s_store s) (resolver m (s_env s)).2).
      assert (forall run', run' <> ir_runId run -> same_rows run' (s_store s) r.1.2) as Hrows.
      { intros run' Hne i. by apply Hevaluator. }
      destruct r.1.1 as [[]|why]; eexists _, _, _; (split; [reflexivity|]); cbn [s_done s_store emit snd];
        rewrite <- ?app_assoc; (split; [reflexivity|]); (split; [by econstructor|done]).
    + eexists _, _, _. split; [reflexivity|]. split; [reflexivity|]. split; [by eapply report_mismatch|done].
  - eexists _, _, _. split; [reflexivity|]. split; [reflexivity|]. split; [by apply report_missing|done].
Qed.

Definition is_resumed (r : ResumeResult) : bool := match r with Resumed => true | NotResumed _ => false end.
Definition count (f : ResumeResult -> bool) (reports : list (ResumeResult * list ResumeEvent)) : nat :=
  length (List.filter f reports.*1).
Abbreviation resumed_of := (count is_resumed).
Abbreviation skipped_of := (count (fun r => negb (is_resumed r))).
Lemma resume_all_reports st0 (runs : list InterruptedRun) : NoDup (ir_runId <$> runs) ->
  forall n k s, Forall (fun run => loadable (ir_runId run) st0 /\ same_rows (ir_runId run) st0 (s_store s)) runs ->
  exists reports s', resume_all runs n k s = (Ok (n + resumed_of reports, k + skipped_of reports)%nat, s') /\
    Forall2 (report st0) runs reports /\ s_done s' = s_done s ++ concat reports.*2.
Proof.
  induction runs as [|run runs IH]; intros Hn n k s Hruns.
  { exists [], s. cbn. by rewrite !Nat.add_0_r, app_nil_r. }
  apply Forall_cons in Hruns as [[Hl Hsame] Hruns]. apply NoDup_cons in Hn as [Hrun Hn].
  destruct (resume_report run st0 s Hl Hsame) as (r & tr & s1 & Hr & Hd & Hrep & Hframe).
  assert (Forall (fun run => loadable (ir_runId run) st0 /\ same_rows (ir_runId run) st0 (s_store s1)) runs) as Hruns1.
  { rewrite Forall_forall in *. intros x Hx. destruct (Hruns x Hx) as [Hlx Hsx]. split; [done|]. intros i.
    rewrite Hframe; [apply Hsx|]. intros Ex. apply Hrun. rewrite <- Ex. apply list_elem_of_fmap. by exists x. }
  cbn [Resumer.resume_all]. erewrite res_bind_ok by exact Hr. cbv beta.
  assert (exists n' k', (match r with Resumed => resume_all runs (S n) k | NotResumed _ => resume_all runs n (S k) end) s1
    = resume_all runs n' k' s1 /\ n' = (n + (if is_resumed r then 1 else 0))%nat /\
      k' = (k + (if is_resumed r then 0 else 1))%nat) as (n' & k' & -> & -> & ->).
  { destruct r; eexists _, _; (split; [reflexivity|]); cbn; lia. }
  destruct (IH Hn (n + (if is_resumed r then 1 else 0))%nat (k + (if is_resumed r then 0 else 1))%nat s1 Hruns1)
    as (reports & s' & Er & Hreps & Hd'). exists ((r, tr) :: reports), s'. rewrite Er. split_and!.
  - unfold count. cbn. destruct r; cbn; do 3 f_equal; lia.
  - by constructor.
  - rewrite Hd', Hd. cbn. by rewrite <- app_assoc.
Qed.

(** C27: a startup accounts for every interrupted run, given a resolver that
    answers for every manifest and an evaluator that leaves the rows of other
    runs as they are (the section's hypotheses).  When the rows and the
    manifests of the runs the scan finds can be read, the startup completes,
    whatever the evaluator throws and the attached sinks do; a resolver that
    throws, or one row that cannot be read, stops it instead
    ([unreadable_run_stops_startup]).  Each run without a
    manifest is audited as an orphan; each other run, in the order of the scan,
    is either skipped with its reason or evaluated exactly once, from the step
    after its last completed one and with the bindings its completed steps
    made, and audited as resumed or failed; one summary with these counts comes
    last. *)
Theorem startup_accounts_for_every_run (resumeWindowMs : option Z) (nowMs : Z) (s : RState) :
  let found := scanInterrupted resumeWindowMs nowMs (s_store s) in
  Forall (fun x => loadable (is_runId x) (s_store s) /\ is_ok (getRunManifest (is_runId x) (s_store s)) = true) found ->
  let runs := omap (joined (s_store s)) found in
  exists reports s',
    resumeOnStartup resumeWindowMs nowMs s =
      (Ok {| rs_resumed := resumed_of reports; rs_skipped := skipped_of reports |}, s') /\
    Forall2 (report (s_store s)) runs reports /\
    s_done s' = s_done s ++ omap (orphan (s_store s)) found ++ concat reports.*2 ++
      [Audited (resume_summary (length runs) (resumed_of reports) (skipped_of reports))].
Proof.
  intros found Hfound runs. destruct (joinManifests_run found s) as (s1 & Hj & Hs & Hd).
  { eapply Forall_impl; [exact Hfound|]. by intros x [_ ?]. }
  destruct (scanInterrupted_facts resumeWindowMs nowMs (s_store s)) as (Hnd & _).
  destruct (resume_all_reports (s_store s) runs (joined_nodup _ _ Hnd) 0 0 s1) as (reports & s2 & Hr & Hreps & Hd2).
  { apply Forall_forall. intros run (x & Hx & Hjx)%list_elem_of_omap. rewrite (joined_id _ _ _ Hjx).
    rewrite Forall_forall in Hfound. split; [by apply Hfound|]. intros i. by rewrite Hs. }
  exists reports, (emit additionalSinks (resume_summary (length runs) (resumed_of reports) (skipped_of reports)) s2).2.
  split_and!; [|done|cbn; by rewrite Hd2, Hd, <- !app_assoc].
  unfold Resumer.resumeOnStartup, scan. erewrite res_bind_ok; [|erewrite res_bind_ok by reflexivity; exact Hj].
  cbv beta. erewrite res_bind_ok by exact Hr. reflexivity.
Qed.
End Startup.

(** One run that cannot be read stops all the others.  When the bindings
    of the first run to resume cannot be read back, the startup rejects there:
    no later run is evaluated, nothing more is audited, and the summary that
    the module's header promises for every startup is never written. *)
Lemma unreadable_run_stops_startup {E P : Type}
    (resolver : RunManifest -> E -> result string (option (ResolvedRule P)) * E)
    (evaluator : RunEvaluatorInput -> Store -> E -> result string unit * Store * E)
    (additionalSinks : list (AuditEntry -> E -> result string unit * E))
    (resumeWindowMs : option Z) (nowMs : Z) (s s1 : RState) (run : InterruptedRun) (rest : list InterruptedRun)
    (rr : ResolvedRule P) (e : E) (why : string) :
  scan additionalSinks resumeWindowMs nowMs s = (Ok (run :: rest), s1) ->
  resolver (run_manifest run) (s_env s1) = (Ok (Some rr), e) -> rr_packVersion rr = ir_packVersion run ->
  loadBindings (ir_runId run) (s_store s1) = Err why ->
  let r := resumeOnStartup resolver evaluator additionalSinks resumeWindowMs nowMs s in
  r.1 = Err why /\ s_done r.2 = s_done s1 /\ s_store r.2 = s_store s1.
Proof.
  intros Hs Hr Hv Hb. cbv zeta. unfold resumeOnStartup. erewrite res_bind_ok by exact Hs. cbv beta.
  set (s2 := {| s_store := s_store s1; s_env := e; s_done := s_done s1 |}).
  assert (resume resolver evaluator additionalSinks run s1 = (Err why, s2)) as Hres.
  { unfold resume. erewrite res_bind_ok by (unfold resolve; rewrite Hr; reflexivity). cbv beta iota.
    rewrite Hv, String.eqb_refl. cbn [negb]. apply res_bind_err. unfold reads. cbn [s_store]. by rewrite Hb. }
  rewrite (res_bind_err _ _ _ why s2); [done|]. cbn [resume_all]. by apply res_bind_err.
Qed.

(** ** Witnesses *)
Definition demo_manifest (run : string) : RunManifest :=
  {| rm_runId := run; rm_packId := "p"; rm_packVersion := "1"; rm_skill := "k"; rm_ruleId := "u";
     rm_eventKind := "tool_call"; rm_eventPayload := JsNull; rm_startedAtMs := 1 |}.
Definition demo_resolver (m : RunManifest) (e : nat) : result string (option (ResolvedRule unit)) * nat :=
  (Ok (Some {| rr_process := tt; rr_packVersion := "1" |}), e).
(** Counts its calls and throws on the first. *)
Definition demo_evaluator (input : RunEvaluatorInput) (st : Store) (e : nat) : result string unit * Store * nat :=
  (if (e =? 0)%nat then Err "boom" else Ok tt, st, S e).
Definition demo_sink (entry : AuditEntry) (e : nat) : result string unit * nat := (Err "sink down", e).
Definition demo_run_write (run : string) (t : Z) : CheckpointWrite :=
  {| cw_runId := run; cw_stepIdx := 2; cw_fn := "f"; cw_inputsHash := "h"; cw_outputs := JsStr run;
     cw_asBinding := Some "a"; cw_startedAtMs := t; cw_completedAtMs := t; cw_status := completed;
     cw_errorMessage := None |}.
Definition startup_store : Store :=
  match (st <-? append (demo_run_write "r1" 10) emptyStore ;; st <-? append (demo_run_write "r2" 12) st ;;
         st <-? append (demo_run_write "lost" 11) st ;;
         st <-? recordRunStart (demo_manifest "r1") st ;; recordRunStart (demo_manifest "r2") st) with
  | Ok st => st | Err _ => emptyStore end.
Definition startup_state (st : Store) : RState := {| s_store := st; s_env := 0; s_done := [] |}.
Definition startup_trace (st : Store) : list ResumeEvent :=
  s_done (resumeOnStartup demo_resolver demo_evaluator [demo_sink] (Some 60000%Z) 20 (startup_state st)).2.

Lemma startup_accounts_for_every_run_witness :
  exists reports s', resumeOnStartup demo_resolver demo_evaluator [demo_sink] (Some 60000%Z) 20 (startup_state startup_store) =
    (Ok {| rs_resumed := count is_resumed reports; rs_skipped := count (fun r => negb (is_resumed r)) reports |}, s') /\
  startup_trace startup_store =
    [Audited (resume_skipped "lost" manifest_missing None);
     Evaluated {| ri_manifest := run_manifest {| ir_runId := "r2"; ir_lastCompletedStep := 2; ir_lastCompletedAtMs := 12;
       ir_packId := "p"; ir_packVersion := "1"; ir_skill := "k"; ir_ruleId := "u"; ir_eventKind := "tool_call";
       ir_eventPayload := JsNull |}; ri_bindings := [("a", JsStr "r2")]; ri_entryStepIdx := 3 |};
     Audited (resume_skipped "r2" evaluator_error (Some "boom"));
     Evaluated {| ri_manifest := run_manifest {| ir_runId := "r1"; ir_lastCompletedStep := 2; ir_lastCompletedAtMs := 10;
       ir_packId := "p"; ir_packVersion := "1"; ir_skill := "k"; ir_ruleId := "u"; ir_eventKind := "tool_call";
       ir_eventPayload := JsNull |}; ri_bindings := [("a", JsStr "r1")]; ri_entryStepIdx := 3 |};
     Audited (resume_run "r1" "p" 3); Audited (resume_summary 2 1 1)].
Proof.
  destruct (startup_accounts_for_every_run demo_resolver demo_evaluator [demo_sink]) with (resumeWindowMs := Some 60000%Z)
    (nowMs := 20%Z) (s := startup_state startup_store) as (reports & s' & H & _).
  - done.
  - done.
  - assert (forall st run, match fetchRun run st with Ok _ => true | Err _ => false end = true -> loadable run st) as Hl.
    { intros st run. destruct (fetchRun run st) as [rows|] eqn:Er; [|done]. intros _. by apply fetchRun_inv in Er as [? _]. }
    match goal with |- Forall _ ?l => let l' := eval vm_compute in l in change l with l' end.
    do 3 (apply Forall_cons; split; [split; [apply Hl|]; vm_compute; reflexivity|]). by apply Forall_nil.
  - exists reports, s'. split; [exact H|vm_compute; reflexivity].
Defined.

(** A row whose text was cut short, in the most recent run. *)
Definition corrupt_store : Store :=
  with_checkpoints (<[("r2", 1) := {| k_fn := "f"; k_inputs_hash := "h"; k_outputs_json := "{"; k_as_binding := Some "b";
    k_started_at_ms := 11; k_completed_at_ms := 11; k_status := "completed"; k_error_message := None |}]>
    (checkpoints startup_store)) startup_store.
Lemma unreadable_run_stops_startup_witness :
  startup_trace corrupt_store = [Audited (resume_skipped "lost" manifest_missing None)].
Proof.
  unfold startup_trace.
  edestruct (unreadable_run_stops_startup demo_resolver demo_evaluator [demo_sink] (Some 60000%Z) 20
    (startup_state corrupt_store)) as (_ & -> & _).
  - vm_compute. reflexivity.
  - reflexivity.
  - reflexivity.
  - vm_compute. reflexivity.
  - reflexivity.
Defined.
