(* ===== verification/Skills.v ===== *)
(** * Skills: events, matchers, residency

    [src/src/runtime/event.ts], [load_matchers.ts], [unload_conditions.ts],
    [tick.ts], [pinned_skills.ts], [skill_requires.ts], the tick map of
    [session_state.ts], [packs/skill_serves.ts] and the activation scope of
    [runtime/hooks/dispatch.ts]: which skills of the loaded packs an event
    reaches.  Packs and skills are parsed values, with the fields dispatching
    reads. *)

From Stdlib Require Import Ascii String.
From stdpp Require Import base option list sets strings pretty gmap fin_maps.
From S2P Require Import Prelude Json CanonicalJson ExprSyntax ExprEval CheckpointStore Evaluator.
#[local] Open Scope os_scope.

(** ** Events *)
Inductive EventKind :=
| EvToolCall | EvPostToolCall | EvPromptSubmit | EvSessionEnd | EvStop | EvSessionStart
| EvSchedule | EvWebhook | EvInboundChannel | EvFileChanged.
#[export] Instance EventKind_eq_dec : EqDecision EventKind.
Proof. solve_decision. Defined.
Definition kind_text (k : EventKind) : string :=
  match k with
  | EvToolCall => "tool_call" | EvPostToolCall => "post_tool_call" | EvPromptSubmit => "prompt_submit"
  | EvSessionEnd => "session_end" | EvStop => "stop" | EvSessionStart => "session_start"
  | EvSchedule => "schedule" | EvWebhook => "webhook" | EvInboundChannel => "inbound_channel"
  | EvFileChanged => "file_changed"
  end.
Definition all_kinds : list EventKind :=
  [EvToolCall; EvPostToolCall; EvPromptSubmit; EvSessionEnd; EvStop; EvSessionStart; EvSchedule; EvWebhook;
   EvInboundChannel; EvFileChanged].
Definition parse_kind (s : string) : option EventKind := List.find (fun k => (kind_text k =? s)%string) all_kinds.
(** An event: its kind and its other fields. *)
Record Event := { ev_kind : EventKind; ev_fields : list (string * JsValue) }.
Definition event_value (e : Event) : JsValue := JsObj (("kind", JsStr (kind_text (ev_kind e))) :: ev_fields e).
(** A string field; the schema makes [tool], [channelUri], [sender] strings. *)
Definition event_text (e : Event) (field : string) : option string :=
  match obj_get field (ev_fields e) with Some (JsStr s) => Some s | _ => None end.
Definition event_args (e : Event) : list (string * JsValue) :=
  match obj_get "args" (ev_fields e) with Some (JsObj o) => o | _ => [] end.

(** ** [when_to_load] *)
Inductive Matcher :=
| tool_match (tool : string) | command_pattern (pattern : string) | file_glob (glob : string)
| event_type (type : EventKind).
Definition SHORTHAND_KEYS : list (string * string) :=
  [("tool_match", "tool"); ("command_pattern", "pattern"); ("file_glob", "glob"); ("event_type", "type")].
(** One shorthand key with a string becomes the canonical form. *)
Definition normalizeMatcher (raw : JsValue) : JsValue :=
  match raw with
  | JsObj [(k, JsStr v)] =>
      match obj_get k SHORTHAND_KEYS with
      | Some field => JsObj [("kind", JsStr k); (field, JsStr v)]
      | None => raw
      end
  | _ => raw
  end.
(** A non-empty string field. *)
Definition text_field (field : string) (o : list (string * JsValue)) : option string :=
  match obj_get field o with Some (JsStr s) => if (s =? "")%string then None else Some s | _ => None end.
Definition parseMatcher (raw : JsValue) : option Matcher :=
  match normalizeMatcher raw with
  | JsObj o =>
      match obj_get "kind" o with
      | Some (JsStr "tool_match") => tool_match <$> text_field "tool" o
      | Some (JsStr "command_pattern") => command_pattern <$> text_field "pattern" o
      | Some (JsStr "file_glob") => file_glob <$> text_field "glob" o
      | Some (JsStr "event_type") => text_field "type" o ≫= fun t => event_type <$> parse_kind t
      | _ => None
      end
  | _ => None
  end.
Definition parseWhenToLoad (raw : list JsValue) : list Matcher := omap parseMatcher raw.

(** [new RegExp(pattern)], which may throw, with its [test]; [minimatch]. *)
Class Patterns := {
  regexp : string -> option (string -> bool);
  minimatch : string -> string -> bool;
}.
(** The first non-empty one of the three path fields. *)
Definition extractFilePath (args : list (string * JsValue)) : string :=
  default "" (head (omap (fun key => text_field key args) ["file_path"; "path"; "notebook_path"])).
Section Matching.
Context `{Patterns}.
Definition matcher_hits (m : Matcher) (event : Event) : bool :=
  match m with
  | event_type type => bool_decide (type = ev_kind event)
  | tool_match tool =>
      bool_decide (ev_kind event = EvToolCall) && toolMatches (default "" (event_text event "tool")) tool
  | command_pattern pattern =>
      bool_decide (ev_kind event = EvToolCall) &&
      match obj_get "command" (event_args event), regexp pattern with
      | Some (JsStr cmd), Some test => test cmd
      | _, _ => false
      end
  | file_glob glob =>
      bool_decide (ev_kind event = EvToolCall) &&
      let path := extractFilePath (event_args event) in negb (path =? "")%string && minimatch path glob
  end.
Definition matchesEvent (matchers : list Matcher) (event : Event) : bool :=
  existsb (fun m => matcher_hits m event) matchers.
End Matching.

(** ** [unloads_when] *)
Inductive UnloadCondition := active_task_completes | session_ends | idle_n_turns (n : Z).
Definition normalizeUnloadCondition (raw : JsValue) : JsValue :=
  match raw with
  | JsStr s => if (s =? "active_task_completes")%string || (s =? "session_ends")%string
               then JsObj [("kind", JsStr s)] else raw
  | JsObj [(k, JsNum n)] => if (k =? "idle_n_turns")%string
                            then JsObj [("kind", JsStr k); ("n", JsNum n)] else raw
  | _ => raw
  end.
Definition parseUnloadCondition (raw : JsValue) : option UnloadCondition :=
  match normalizeUnloadCondition raw with
  | JsObj o =>
      match obj_get "kind" o with
      | Some (JsStr "active_task_completes") => Some active_task_completes
      | Some (JsStr "session_ends") => Some session_ends
      | Some (JsStr "idle_n_turns") =>
          match obj_get "n" o with Some (JsNum n) => if Z.ltb 0 n then Some (idle_n_turns n) else None | _ => None end
      | _ => None
      end
  | _ => None
  end.
Definition parseUnloadsWhen (raw : list JsValue) : list UnloadCondition := omap parseUnloadCondition raw.

Record TickState := { turnsSinceActivation : Z; taskCompleted : bool; sessionEnded : bool }.
Definition condition_fires (tick : TickState) (c : UnloadCondition) : bool :=
  match c with
  | session_ends => sessionEnded tick
  | active_task_completes => taskCompleted tick
  | idle_n_turns n => Z.leb n (turnsSinceActivation tick)
  end.
Definition shouldUnload (conditions : list UnloadCondition) (tick : TickState) : bool :=
  existsb (condition_fires tick) conditions.

(** ** Ticks *)
Definition createTick : TickState := {| turnsSinceActivation := 0; taskCompleted := false; sessionEnded := false |}.
Definition advanceTick (state : TickState) (event : Event) : TickState :=
  match ev_kind event with
  | EvPromptSubmit => {| turnsSinceActivation := (turnsSinceActivation state + 1)%Z;
                         taskCompleted := taskCompleted state; sessionEnded := sessionEnded state |}
  | EvStop => {| turnsSinceActivation := turnsSinceActivation state; taskCompleted := true;
                 sessionEnded := sessionEnded state |}
  | EvSessionEnd => {| turnsSinceActivation := turnsSinceActivation state; taskCompleted := taskCompleted state;
                       sessionEnded := true |}
  | _ => state
  end.
(** The tick file: its parsed value, [None] when absent, unreadable or
    malformed.  Skill names are not those of inherited properties. *)
Abbreviation TickFile := (option Json).
Abbreviation SkillTicks := (list (string * TickState)).
Definition tick_of (v : Json) : option TickState :=
  match v with
  | JObj o =>
      match obj_get "turnsSinceActivation" o, obj_get "taskCompleted" o, obj_get "sessionEnded" o with
      | Some (JNum n), Some (JBool t), Some (JBool s) =>
          Some {| turnsSinceActivation := n; taskCompleted := t; sessionEnded := s |}
      | _, _, _ => None
      end
  | _ => None
  end.
Definition tick_json (t : TickState) : Json :=
  JObj [("turnsSinceActivation", JNum (turnsSinceActivation t)); ("taskCompleted", JBool (taskCompleted t));
        ("sessionEnded", JBool (sessionEnded t))].
Definition readSkillTicks (file : TickFile) : SkillTicks :=
  match file with
  | Some (JObj o) => omap (fun kv => (fun t => (kv.1, t)) <$> tick_of kv.2) o
  | _ => []
  end.
Definition advanceSkillTicks (event : Event) (loadedSkillIds reactivated : list string) (file : TickFile)
    : SkillTicks * TickFile :=
  let prev := readSkillTicks file in
  let step next id :=
    let base := match obj_get id prev with
                | Some tick => if set_has id reactivated then createTick else tick
                | None => createTick
                end in
    obj_set id (advanceTick base event) next in
  let next := fold_left step loadedSkillIds [] in
  (next, Some (JObj (List.map (fun kv => (kv.1, tick_json kv.2)) next))).

(** ** Packs and skills *)
Inductive SkillRequires := automation_mode_on | active_task_present.
#[export] Instance SkillRequires_eq_dec : EqDecision SkillRequires.
Proof. solve_decision. Defined.
(** A trigger: its kind, and for inbound channels its two filters. *)
Record Trigger := { tg_kind : EventKind; tg_channel : option string; tg_sender_pattern : option string }.
Abbreviation SkillServesBlock := (list (string * string)).
Inductive Rule :=
| TrackCheck (id : string) (requires : list SkillRequires) (process : list ProcessStep)
| DestinationCheck (id : string).
Inductive LoadMode := preload | lazy.
Record Skill := {
  sk_name : string; sk_load : LoadMode; sk_when_to_load : list JsValue; sk_requires : list SkillRequires;
  sk_unloads_when : list JsValue; sk_triggers : list Trigger; sk_serves : option (list SkillServesBlock);
  sk_rules : list Rule;
}.
Inductive Scope := ScUniversal | ScDomain | ScSpecialty | ScWorkflow | ScProject.
#[export] Instance Scope_eq_dec : EqDecision Scope.
Proof. solve_decision. Defined.
Inductive ActivationScope := as_project | as_user | as_hybrid | as_team | as_global.
(** The three fields of [drift_response.yaml]. *)
Record DriftResponseConfig := {
  dr_default : string; dr_per_rule : list (string * string); dr_corrective_skills : list (string * string);
}.
Inductive PackUsage := UsageActive | UsageProfession | UsageBoth.
Record Pack := {
  pk_name : string; pk_scope : Scope; pk_skills : list Skill; pk_activationScope : option ActivationScope;
  pk_driftResponse : option DriftResponseConfig; pk_usage : option PackUsage;
  pk_team : option (list string);  (* the names of the team's roles *)
}.

(** ** Residency *)
Definition isPinned (pack : Pack) (skill : Skill) : bool :=
  bool_decide (pk_scope pack = ScUniversal) && match sk_load skill with preload => true | lazy => false end.
(** The pinned and the dynamic skills, each in pack order. *)
Definition partitionSkills (packs : list Pack) : list (Pack * Skill) * list (Pack * Skill) :=
  let all := List.flat_map (fun p => List.map (fun s => (p, s)) (pk_skills p)) packs in
  List.partition (fun ps => isPinned ps.1 ps.2) all.
Definition shouldSkillUnload (skill : Skill) (tick : option TickState) : bool :=
  match tick with
  | None => false
  | Some tick =>
      let conditions := parseUnloadsWhen (sk_unloads_when skill) in
      match conditions with [] => false | _ => shouldUnload conditions tick end
  end.
Definition computeUnloadSkips `{Patterns} (event : Event) (dynamic : list Skill) (file : TickFile)
    : list string * TickFile :=
  let dynamicIds := List.map sk_name dynamic in
  let reactivated := set_of (List.map sk_name
    (List.filter (fun s => matchesEvent (parseWhenToLoad (sk_when_to_load s)) event) dynamic)) in
  let '(ticks, file') := advanceSkillTicks event dynamicIds reactivated file in
  (set_of (List.map sk_name (List.filter (fun s => shouldSkillUnload s (obj_get (sk_name s) ticks)) dynamic)), file').

(** ** Scope, triggers, facets *)
Record DispatchScopeCtx := { inProject : bool; isUserSession : bool }.
Definition activationScopeApplies (scope : ActivationScope) (ctx : DispatchScopeCtx) : bool :=
  match scope with
  | as_project => inProject ctx
  | as_user | as_global => isUserSession ctx
  | as_hybrid => inProject ctx && isUserSession ctx
  | as_team => false
  end.
(** The platform of a channel URI: [^(telegram|slack|discord)://]. *)
Definition channel_platform (uri : string) : option string :=
  List.find (fun p => starts_with uri (p +:+ "://")) ["telegram"; "slack"; "discord"].
Definition given (s : option string) : option string :=
  match s with Some x => if (x =? "")%string then None else Some x | None => None end.
Definition inboundChannelTriggerMatches `{Patterns} (trigger : Trigger) (event : Event) : bool :=
  match given (tg_channel trigger) with
  | Some channel =>
      bool_decide (channel_platform (default "" (event_text event "channelUri")) = Some channel)
  | None => true
  end &&
  match given (tg_sender_pattern trigger) with
  | Some pattern =>
      match regexp pattern with Some test => test (default "" (event_text event "sender")) | None => false end
  | None => true
  end.
(** The trigger filters of the walk. *)
Definition triggered `{Patterns} (skill : Skill) (event : Event) : bool :=
  let matching := List.filter (fun t => bool_decide (tg_kind t = ev_kind event)) (sk_triggers skill) in
  match matching with
  | [] => false
  | _ => if bool_decide (ev_kind event = EvInboundChannel)
         then existsb (fun t => inboundChannelTriggerMatches t event) matching else true
  end.

Definition segments (path : string) : list string :=
  if (path =? "")%string then [] else split_char "." path.
Definition contains (at_ path : string) : bool := bool_decide (segments at_ `prefix_of` segments path).
Record Facets := { fc_intent : string; fc_domain : option string; fc_stakes : option string }.
Definition facetMap (f : Facets) : list (string * string) :=
  ("intent", fc_intent f) ::
  (match fc_domain f with Some d => [("domain", d)] | None => [] end) ++
  match fc_stakes f with Some s => [("stakes", s)] | None => [] end.
Definition HIERARCHICAL : list string := ["domain"; "lang"; "framework"].
Definition axis_matches (fm : list (string * string)) (kv : string * string) : bool :=
  match obj_get kv.1 fm with
  | None => true
  | Some turnVal => if set_has kv.1 HIERARCHICAL then contains kv.2 turnVal else (turnVal =? kv.2)%string
  end.
Definition blockMatches (block : SkillServesBlock) (fm : list (string * string)) : bool :=
  forallb (axis_matches fm) block.
Definition skillServesMatches (serves : list SkillServesBlock) (facets : Facets) : bool :=
  existsb (fun b => blockMatches b (facetMap facets)) serves.
Definition skillServesDomainMatches (serves : list SkillServesBlock) (projectDomain : string) : bool :=
  existsb (fun b => match obj_get "domain" b with None => true | Some dom => contains dom projectDomain end) serves.
(** The lens gate: the classified facets, or else the project's domain, or else open. *)
Definition served (skill : Skill) (classified : option Facets) (fallbackDomain : option string) : bool :=
  match sk_serves skill, classified, fallbackDomain with
  | None, _, _ => true
  | Some serves, Some facets, _ => skillServesMatches serves facets
  | Some serves, None, Some domain => skillServesDomainMatches serves domain
  | Some _, None, None => true
  end.

(** ** Preconditions *)
Inductive StatResult := present | enoent | stat_error.
Definition probePresent (r : StatResult) : bool := match r with enoent => false | _ => true end.
(** What has been probed so far in one dispatch, for its one session. *)
Record RequiresCache := { rc_automation : option bool; rc_activeTask : option bool }.
Definition emptyCache : RequiresCache := {| rc_automation := None; rc_activeTask := None |}.
Definition cached_probe (p : SkillRequires) (c : RequiresCache) : option bool :=
  match p with automation_mode_on => rc_automation c | active_task_present => rc_activeTask c end.
Definition remember (p : SkillRequires) (b : bool) (c : RequiresCache) : RequiresCache :=
  match p with
  | automation_mode_on => {| rc_automation := Some b; rc_activeTask := rc_activeTask c |}
  | active_task_present => {| rc_automation := rc_automation c; rc_activeTask := Some b |}
  end.
Definition probe (stat : SkillRequires -> StatResult) (p : SkillRequires) (c : RequiresCache) : bool * RequiresCache :=
  match cached_probe p c with
  | Some b => (b, c)
  | None => let b := probePresent (stat p) in (b, remember p b c)
  end.
Fixpoint skillRequiresHold (stat : SkillRequires -> StatResult) (preconds : list SkillRequires) (c : RequiresCache)
    : bool * RequiresCache :=
  match preconds with
  | [] => (true, c)
  | p :: rest => let r := probe stat p c in if r.1 then skillRequiresHold stat rest r.2 else (false, r.2)
  end.
