(* ===== verification/Dispatch.v ===== *)
(** * The hook dispatcher

    [src/src/runtime/hooks/dispatch.ts], [hooks/profession_resolver.ts] and
    [runtime/drift_response.ts]: an event walks the packs, their skills and
    their rules; each rule's process is evaluated and its result aggregated,
    until one blocks.  A drift policy is a string, as it comes from the pack. *)

From Stdlib Require Import Ascii String.
From stdpp Require Import base option list sets strings pretty gmap fin_maps.
From S2P Require Import Prelude Json CanonicalJson CheckpointStore ExprSyntax ExprGrammar ExprEval Evaluator Skills.
#[local] Open Scope os_scope.

(** ** Drift response *)
Inductive Severity := SevCritical | SevError.
Inductive RuntimeAction :=
| ActBlockTool (message : string) | ActWarn (message : string) | ActHalt (reason : string)
| ActNotifyPause (reason : string) (severity : Severity)
| ActAutoCorrect (correctiveSkill : string) (verdict : JsValue) | ActEscalate (verdict : JsValue).
(** A text field of a verdict; [isVerdict] makes level and message texts. *)
Definition verdict_text (field : string) (v : JsValue) : option string :=
  match js_prop v field with JsStr s => Some s | _ => None end.
Definition message_of (v : JsValue) : string := default "" (verdict_text "message" v).
Definition defaultPolicyForLevel (level : option string) : string :=
  if bool_decide (level = Some "block") then "block_tool" else "warn".
Definition auto_correct (v : JsValue) (correctiveSkills : option (list (string * string))) : RuntimeAction :=
  let ruleId := verdict_text "ruleId" v in
  match ruleId ≫= fun id => correctiveSkills ≫= obj_get id with
  | Some correctiveSkill =>
      if (correctiveSkill =? "")%string
      then ActNotifyPause ("auto_correct policy for rule " +:+ quoted (default "" ruleId) +:+
                           " missing entry in corrective_skills") SevCritical
      else ActAutoCorrect correctiveSkill v
  | None =>
      ActNotifyPause match ruleId with
                     | None => "auto_correct policy requires a verdict with `ruleId`; none provided"
                     | Some id => "auto_correct policy for rule " +:+ quoted id +:+
                                  " missing entry in corrective_skills"
                     end SevCritical
  end.
Definition DISPATCH : list (string * (JsValue -> option (list (string * string)) -> RuntimeAction)) :=
  [("block_tool", fun v _ => ActBlockTool (message_of v));
   ("warn", fun v _ => ActWarn (message_of v));
   ("full_stop_and_redo", fun v _ => ActHalt (message_of v));
   ("notify_and_pause", fun v _ => ActNotifyPause (message_of v) SevError);
   ("auto_correct", auto_correct);
   ("escalate", fun v _ => ActEscalate v)].
Definition applyDriftResponse (verdict : JsValue) (policy : string) (correctiveSkills : option (list (string * string)))
    : RuntimeAction :=
  match obj_get policy DISPATCH with
  | Some fn => fn verdict correctiveSkills
  | None => ActNotifyPause ("Unknown policy " +:+ quoted policy) SevCritical
  end.

(** ** Professions *)
Inductive ProfessionResolutionError :=
| unknown_pack (packName : string) | wrong_usage (packName : string) (actualUsage : PackUsage)
| missing_team (packName : string) | no_roles (packName : string) | role_not_found (packName requestedRole : string).
(** The role resolved to. *)
Definition resolveProfessionDirective (packName : string) (requestedRole : option string) (packs : list Pack)
    (teamsByPack : list (string * list string)) : result ProfessionResolutionError string :=
  match List.find (fun p => (pk_name p =? packName)%string) packs with
  | None => Err (unknown_pack packName)
  | Some pack =>
      let team := match obj_get packName teamsByPack with
                  | None => Err (missing_team packName)
                  | Some [] => Err (no_roles packName)
                  | Some (first :: _ as roles) =>
                      match requestedRole with
                      | None => Ok first
                      | Some r => if set_has r roles then Ok r else Err (role_not_found packName r)
                      end
                  end in
      match default UsageActive (pk_usage pack) with
      | UsageActive => Err (wrong_usage packName UsageActive)
      | _ => team
      end
  end.
Definition usage_text (u : PackUsage) : string :=
  match u with UsageActive => "active" | UsageProfession => "profession" | UsageBoth => "both" end.
Definition formatProfessionError (e : ProfessionResolutionError) : string :=
  match e with
  | unknown_pack p => "directive references profession " +:+ quoted p +:+ " but no pack with that name is loaded"
  | wrong_usage p u => "directive references profession " +:+ quoted p +:+ " but its usage is " +:+
      quoted (usage_text u) +:+ " — must be " +:+ quoted "profession" +:+ " or " +:+ quoted "both"
  | missing_team p => "directive references profession " +:+ quoted p +:+ " but the pack has no loadable team.yaml"
  | no_roles p => "directive references profession " +:+ quoted p +:+ " but its team.yaml declares zero roles"
  | role_not_found p r => "directive references profession " +:+ quoted p +:+ " + role " +:+ quoted r +:+
      " — role not found in team.yaml"
  end.

(** ** One result *)
Definition NL : string := String "010" "".
(** A directive's next action and the rule it came from. *)
Abbreviation Directive := (JsValue * string)%type.
Record DispatchResult := {
  exitCode : nat; stderr : string; contextInjections : list string; directives : list Directive;
}.
(** What the walk has gathered. *)
Record Acc := {
  a_injections : list string; a_directives : list Directive; a_warnBuf : string; a_rulesWalked : nat;
  a_cache : RequiresCache;
}.
Definition warned (line : string) (a : Acc) : Acc :=
  {| a_injections := a_injections a; a_directives := a_directives a; a_warnBuf := a_warnBuf a +:+ line +:+ NL;
     a_rulesWalked := a_rulesWalked a; a_cache := a_cache a |}.
Definition injected (content : string) (a : Acc) : Acc :=
  {| a_injections := a_injections a ++ [content]; a_directives := a_directives a; a_warnBuf := a_warnBuf a;
     a_rulesWalked := a_rulesWalked a; a_cache := a_cache a |}.
Definition directed (d : Directive) (a : Acc) : Acc :=
  {| a_injections := a_injections a; a_directives := a_directives a ++ [d]; a_warnBuf := a_warnBuf a;
     a_rulesWalked := a_rulesWalked a; a_cache := a_cache a |}.
Definition with_cache (c : RequiresCache) (a : Acc) : Acc :=
  {| a_injections := a_injections a; a_directives := a_directives a; a_warnBuf := a_warnBuf a;
     a_rulesWalked := a_rulesWalked a; a_cache := c |}.
Definition walked_one (a : Acc) : Acc :=
  {| a_injections := a_injections a; a_directives := a_directives a; a_warnBuf := a_warnBuf a;
     a_rulesWalked := S (a_rulesWalked a); a_cache := a_cache a |}.
(** Walk on, or stop the tool with a message. *)
Inductive Step := Go (a : Acc) | Stop (message : string) (a : Acc).

(** rule "r" in skill "s" (pack "p") *)
Definition where_ (pack : Pack) (skill : Skill) (ruleId : string) : string :=
  "rule " +:+ quoted ruleId +:+ " in skill " +:+ quoted (sk_name skill) +:+ " (pack " +:+ quoted (pk_name pack) +:+ ")".
Definition on_inject (event : Event) (pack : Pack) (skill : Skill) (ruleId content : string) (a : Acc) : Acc :=
  if set_has (ev_kind event) [EvPromptSubmit; EvSessionStart; EvToolCall] then injected content a
  else warned ("[opensquid] WARN: " +:+ where_ pack skill ruleId +:+ " emitted inject_context on event kind " +:+
    quoted (kind_text (ev_kind event)) +:+ "; only " +:+ quoted "prompt_submit" +:+ " / " +:+ quoted "session_start" +:+
    " / " +:+ quoted "tool_call" +:+ " surface injections (drop). Update the skill's triggers: block.") a.
(** The teams of the loaded packs; the last of a name wins. *)
Definition teams_by_pack (packs : list Pack) : list (string * list string) :=
  fold_left (fun m p => match pk_team p with Some roles => obj_set (pk_name p) roles m | None => m end) packs [].
Definition on_directive (event : Event) (packs : list Pack) (pack : Pack) (skill : Skill) (ruleId : string)
    (na : JsValue) (a : Acc) : Acc :=
  if bool_decide (ev_kind event = EvPromptSubmit) then
    match verdict_text "profession" na with
    | None => directed (na, ruleId) a
    | Some profession =>
        match resolveProfessionDirective profession (verdict_text "role" (js_prop na "args")) packs
                (teams_by_pack packs) with
        | Ok _ => directed (na, ruleId) a
        | Err reason => warned ("[opensquid] WARN: dropping invalid profession directive — " +:+
            formatProfessionError reason +:+ " (rule " +:+ quoted ruleId +:+ " in skill " +:+
            quoted (sk_name skill) +:+ " pack " +:+ quoted (pk_name pack) +:+ ")") a
        end
    end
  else warned ("[opensquid] WARN: " +:+ where_ pack skill ruleId +:+ " emitted a directive on event kind " +:+
    quoted (kind_text (ev_kind event)) +:+ "; only " +:+ quoted "prompt_submit" +:+
    " surfaces directives (drop). Update the skill's triggers: block.") a.
(** The rule's policy: its own, the pack's default, or the level's.  Rule ids
    and policies are not the names of inherited properties. *)
Definition resolvedPolicy (pack : Pack) (ruleId : string) (verdict : JsValue) : string :=
  match pk_driftResponse pack with
  | Some config => default (dr_default config) (obj_get ruleId (dr_per_rule config))
  | None => defaultPolicyForLevel (verdict_text "level" verdict)
  end.
Definition on_action (action : RuntimeAction) (a : Acc) : Step :=
  match action with
  | ActBlockTool message => Stop message a
  | ActWarn message => Go (warned message a)
  | ActHalt reason => Stop reason a
  | ActNotifyPause reason _ => Go (warned reason a)
  | ActAutoCorrect _ _ | ActEscalate _ => Go a
  end.
Definition on_result (event : Event) (packs : list Pack) (pack : Pack) (skill : Skill) (ruleId : string)
    (result : RuleResult) (a : Acc) : Step :=
  match result with
  | RInjectContext content => Go (on_inject event pack skill ruleId content a)
  | RDirective na => Go (on_directive event packs pack skill ruleId na a)
  | RError error step => Go (warned ("[opensquid] " +:+ pk_name pack +:+ "/" +:+ sk_name skill +:+ " rule " +:+
      quoted ruleId +:+ " step " +:+ pretty step +:+ " errored: " +:+ error +:+
      " — rule SKIPPED (gate did not enforce)") a)
  | RNoVerdict => Go a
  | RVerdict verdict =>
      on_action (applyDriftResponse verdict (resolvedPolicy pack ruleId verdict)
                   (dr_corrective_skills <$> pk_driftResponse pack)) a
  end.

Fixpoint trimEnd (s : string) : string :=
  match s with
  | EmptyString => ""
  | String c r => let r' := trimEnd r in if is_space c && (r' =? "")%string then "" else String c r'
  end.
Definition appendWarn (stderr warnBuf : string) : string :=
  if (warnBuf =? "")%string then stderr
  else if (stderr =? "")%string then trimEnd warnBuf
  else stderr +:+ NL +:+ trimEnd warnBuf.

(** ** The walk *)

(** The session's files as the dispatcher reads and writes them: the stat of
    a precondition's file, the tick file, the turn's facets, the project's
    domain (none when unreadable), the drift catalog (a failed append is
    swallowed).  Writing the tick file succeeds. *)
Class HookFiles (E : Type) := {
  hf_stat : SkillRequires -> E -> StatResult;
  hf_ticks : E -> TickFile;
  hf_write_ticks : TickFile -> E -> E;
  hf_facets : E -> option Facets;
  hf_domain : option string -> E -> option string;
  hf_record_drift : option string -> string -> string -> string -> string -> E -> E;
}.

Section Dispatch.
Context {E M : Type} `{Re : Re2} `{MemoOps : Memo M} `{Patterns} `{Files : HookFiles E}
  (clock : E -> Z) (sha256Hex : string -> string) (registry : list (string * FunctionDef E))
  (sessionId : string) (event : Event) (packs : list Pack).
Abbreviation World := (@World E M).
Definition with_env (e : E) (w : World) : World := {| w_store := w_store w; w_memo := w_memo w; w_env := e |}.
(** A computation on the world that may reject. *)
Definition Act (A : Type) : Type := World -> result string A * World.

Definition event_cwd : option string := event_text event "cwd".
(** Without the pack's models, machine and procedure. *)
Definition ctx_of (pack : Pack) : EvalCtx :=
  {| ctx_event := event_value event; ctx_sessionId := sessionId; ctx_packId := pk_name pack; ctx_bindings := ∅ |}.
(** The rule's evaluation: neither checkpointed nor memoised. *)
Definition evaluate_rule (pack : Pack) (process : list ProcessStep) : Act RuleResult := fun w =>
  let run := evaluateProcess clock sha256Hex registry None None process (ctx_of pack) w in
  (r_out _ run, r_world _ run).
Definition record_drift (pack : Pack) (ruleId : string) (result : RuleResult) (w : World) : World :=
  match result with
  | RVerdict v =>
      match verdict_text "level" v with
      | Some level =>
          if set_has level ["block"; "warn"; "surface"]
          then with_env (hf_record_drift event_cwd (pk_name pack) ruleId level (message_of v) (w_env w)) w
          else w
      | None => w
      end
  | _ => w
  end.
Definition requires_hold (preconds : list SkillRequires) (a : Acc) (w : World) : bool * Acc :=
  let r := skillRequiresHold (fun p => hf_stat p (w_env w)) preconds (a_cache a) in (r.1, with_cache r.2 a).
Definition walk_rule (pack : Pack) (skill : Skill) (rule : Rule) (a : Acc) : Act Step := fun w =>
  match rule with
  | DestinationCheck _ => (Ok (Go a), w)
  | TrackCheck ruleId requires process =>
      let '(hold, a) := requires_hold requires a w in
      if negb hold then (Ok (Go a), w)
      else
        let a := walked_one a in
        match evaluate_rule pack process w with
        | (Err e, w) => (Err e, w)
        | (Ok result, w) =>
            (Ok (on_result event packs pack skill ruleId result a), record_drift pack ruleId result w)
        end
  end.
(** Walk the items in order until one stops or rejects. *)
Fixpoint walk_list {X} (f : X -> Acc -> Act Step) (items : list X) (a : Acc) : Act Step := fun w =>
  match items with
  | [] => (Ok (Go a), w)
  | x :: rest =>
      match f x a w with
      | (Ok (Go a), w) => walk_list f rest a w
      | r => r
      end
  end.

Context (scopeCtx : DispatchScopeCtx).
(** What is computed once, before the walk. *)
Record Gate := { g_dynamic : list string; g_skip : list string; g_facets : option Facets; g_domain : option string }.
(** The filters that do not depend on the walk. *)
Definition passes (g : Gate) (skill : Skill) : bool :=
  negb (set_has (sk_name skill) (g_dynamic g) && set_has (sk_name skill) (g_skip g)) &&
  triggered skill event.
Definition walk_skill (g : Gate) (pack : Pack) (skill : Skill) (a : Acc) : Act Step := fun w =>
  if negb (passes g skill) then (Ok (Go a), w)
  else
    let '(hold, a) := requires_hold (sk_requires skill) a w in
    if negb hold then (Ok (Go a), w)
    else if negb (served skill (g_facets g) (g_domain g)) then (Ok (Go a), w)
    else walk_list (walk_rule pack skill) (sk_rules skill) a w.
Definition walk_pack (g : Gate) (pack : Pack) (a : Acc) : Act Step := fun w =>
  if negb (activationScopeApplies (default as_project (pk_activationScope pack)) scopeCtx) then (Ok (Go a), w)
  else walk_list (walk_skill g pack) (pk_skills pack) a w.

Definition prepare (w : World) : Gate * World :=
  let dynamic := List.map snd (partitionSkills packs).2 in
  let '(skip, file) := computeUnloadSkips event dynamic (hf_ticks (w_env w)) in
  let w := with_env (hf_write_ticks file (w_env w)) w in
  let facets := hf_facets (w_env w) in
  ({| g_dynamic := List.map sk_name dynamic; g_skip := skip; g_facets := facets;
      g_domain := match facets with Some _ => None | None => hf_domain event_cwd (w_env w) end |}, w).
Definition emptyAcc : Acc :=
  {| a_injections := []; a_directives := []; a_warnBuf := ""; a_rulesWalked := 0; a_cache := emptyCache |}.
(** The result, and the count of rules the trace marker reports. *)
Definition finish (s : Step) : DispatchResult * nat :=
  match s with
  | Stop message a => ({| exitCode := 2; stderr := appendWarn message (a_warnBuf a);
                          contextInjections := a_injections a; directives := a_directives a |}, a_rulesWalked a)
  | Go a => ({| exitCode := 0; stderr := appendWarn "" (a_warnBuf a);
                contextInjections := a_injections a; directives := a_directives a |}, a_rulesWalked a)
  end.
Definition dispatchEvent : Act (DispatchResult * nat) := fun w =>
  let '(g, w) := prepare w in
  match walk_list (walk_pack g) packs emptyAcc w with
  | (Ok s, w) => (Ok (finish s), w)
  | (Err e, w) => (Err e, w)
  end.
End Dispatch.
