(* ===== verification/DispatchProps.v ===== *)
(** * Properties of the hook dispatcher

    The nested walk is one loop over the eligible rules; the first blocking
    verdict decides; idle counts are counts of prompts since activation. *)

From Stdlib Require Import Ascii String.
From stdpp Require Import base option list sets strings pretty gmap fin_maps.
From S2P Require Import Prelude Json CanonicalJson CheckpointStore ExprSyntax ExprGrammar ExprEval Evaluator EvaluatorProps.
From S2P Require Import EvaluatorSpec Skills Dispatch.
#[local] Open Scope os_scope.

(** ** Ticks *)
Lemma tick_of_json t : tick_of (tick_json t) = Some t.
Proof. by destruct t. Qed.
Lemma readSkillTicks_written (next : list (string * TickState)) :
  readSkillTicks (Some (JObj (List.map (fun kv => (kv.1, tick_json kv.2)) next))) = next.
Proof.
  unfold readSkillTicks. induction next as [|[k t] next IH]; [done|]. cbn [List.map omap list_omap fst snd].
  rewrite tick_of_json. cbn [fmap option_fmap option_map]. by f_equal.
Qed.
Section Advance.
Context (event : Event) (reactivated : list string) (prev : list (string * TickState)).
Definition base_tick (id : string) : TickState :=
  match obj_get id prev with
  | Some tick => if set_has id reactivated then createTick else tick
  | None => createTick
  end.
Definition advance_ids (ids : list string) (next : list (string * TickState)) : list (string * TickState) :=
  fold_left (fun next id => obj_set id (advanceTick (base_tick id) event) next) ids next.
Lemma advance_ids_get ids next id :
  obj_get id (advance_ids ids next) =
  if decide (id ∈ ids) then Some (advanceTick (base_tick id) event) else obj_get id next.
Proof.
  unfold advance_ids. revert next. induction ids as [|k ids IH]; intros next; cbn; [by rewrite decide_False by set_solver|].
  rewrite IH. destruct (decide (id ∈ ids)) as [Hin|Hin]; [by rewrite decide_True by set_solver|].
  destruct (decide (id = k)) as [->|Hne].
  - by rewrite obj_get_set_eq, decide_True by set_solver.
  - by rewrite obj_get_set_ne, decide_False by set_solver.
Qed.
End Advance.
Lemma advanceSkillTicks_get event ids reactivated file id : id ∈ ids ->
  obj_get id (advanceSkillTicks event ids reactivated file).1 =
    Some (advanceTick (base_tick reactivated (readSkillTicks file) id) event) /\
  readSkillTicks (advanceSkillTicks event ids reactivated file).2 = (advanceSkillTicks event ids reactivated file).1.
Proof.
  intros Hid. split.
  - transitivity (obj_get id (advance_ids event reactivated (readSkillTicks file) ids [])); [done|].
    by rewrite advance_ids_get, decide_True.
  - unfold advanceSkillTicks. apply readSkillTicks_written.
Qed.

(** One event of a session: the dynamic skills loaded then, and those among
    them whose [when_to_load] matched. *)
Record Turn := { tn_event : Event; tn_loaded : list string; tn_reactivated : list string }.
Definition play (turns : list Turn) (file : TickFile) : TickFile :=
  fold_left (fun f t => (advanceSkillTicks (tn_event t) (tn_loaded t) (tn_reactivated t) f).2) turns file.
Definition count_kind (k : EventKind) (turns : list Turn) : nat :=
  length (List.filter (fun t => bool_decide (ev_kind (tn_event t) = k)) turns).
Definition counted (turns : list Turn) : TickState :=
  {| turnsSinceActivation := Z.of_nat (count_kind EvPromptSubmit turns);
     taskCompleted := (0 <? count_kind EvStop turns)%nat; sessionEnded := (0 <? count_kind EvSessionEnd turns)%nat |}.
Lemma count_kind_snoc k turns t :
  count_kind k (turns ++ [t]) = (count_kind k turns + if decide (ev_kind (tn_event t) = k) then 1 else 0)%nat.
Proof.
  unfold count_kind. rewrite List.filter_app, length_app. cbn [List.filter]. case_bool_decide; case_decide; done.
Qed.
Lemma counted_snoc turns t : counted (turns ++ [t]) = advanceTick (counted turns) (tn_event t).
Proof.
  unfold counted, advanceTick. rewrite !count_kind_snoc.
  assert (forall m, (0 <? m + 1)%nat = true) as Hpos by (intros; apply Nat.ltb_lt; lia).
  destruct (ev_kind (tn_event t)); repeat case_decide; try congruence; rewrite ?Nat.add_0_r, ?Hpos; try done.
  cbn [turnsSinceActivation taskCompleted sessionEnded]. f_equal. lia.
Qed.
Definition stays (id : string) (t : Turn) : Prop := id ∈ tn_loaded t /\ id ∉ tn_reactivated t.
Lemma play_counts id turns : forall since file,
  Forall (stays id) turns -> obj_get id (readSkillTicks file) = Some (counted since) ->
  obj_get id (readSkillTicks (play turns file)) = Some (counted (since ++ turns)).
Proof.
  induction turns as [|t turns IH]; intros since file Hs Hf; [by rewrite app_nil_r|].
  apply Forall_cons in Hs as [[Hl Hr] Hs]. cbn [play fold_left]. fold (play turns).
  assert (since ++ t :: turns = (since ++ [t]) ++ turns) as -> by by rewrite <- app_assoc.
  destruct (advanceSkillTicks_get (tn_event t) (tn_loaded t) (tn_reactivated t) file id Hl) as [Hg Hw].
  apply IH; [done|]. rewrite Hw, Hg. unfold base_tick. rewrite Hf.
  assert (set_has id (tn_reactivated t) = false) as ->.
  { apply not_true_is_false. by rewrite set_has_spec. }
  by rewrite counted_snoc.
Qed.

(** A skill's tick counts since its activation.  After an event that
    activates a loaded skill, and any further events through which it stays
    loaded without its [when_to_load] matching again, its tick holds the number
    of prompts, whether a task has completed and whether the session has ended,
    all since that event; so an [idle_n_turns] condition fires exactly from the
    [n]-th prompt on, whatever the tick file held before. *)
Lemma tick_counts_since_activation (id : string) (file : TickFile) (before : list Turn) (t : Turn) (after : list Turn)
    (n : Z) :
  id ∈ tn_loaded t -> id ∈ tn_reactivated t -> Forall (stays id) after ->
  exists tick, obj_get id (readSkillTicks (play (before ++ t :: after) file)) = Some tick /\
    tick = counted (t :: after) /\
    condition_fires tick (idle_n_turns n) = Z.leb n (Z.of_nat (count_kind EvPromptSubmit (t :: after))).
Proof.
  intros Hl Hr Ha. exists (counted (t :: after)). split_and!; [|done|done].
  unfold play. rewrite fold_left_app. fold (play before file). cbn [fold_left]. fold (play after).
  destruct (advanceSkillTicks_get (tn_event t) (tn_loaded t) (tn_reactivated t) (play before file) id Hl) as [Hg Hw].
  apply (play_counts id after [t]); [done|]. rewrite Hw, Hg. unfold base_tick.
  assert (set_has id (tn_reactivated t) = true) as -> by by apply set_has_spec.
  transitivity (Some (advanceTick (counted []) (tn_event t))); [destruct (obj_get id (readSkillTicks (play before file))); reflexivity|].
  f_equal. symmetry. apply (counted_snoc []).
Qed.

(** ** Which policies block *)
Definition blocking : list string := ["block_tool"; "full_stop_and_redo"].
Lemma applyDriftResponse_blocks v policy cs a :
  match on_action (applyDriftResponse v policy cs) a with
  | Stop message a' => policy ∈ blocking /\ message = message_of v /\ a' = a
  | Go a' => policy ∉ blocking /\ a_injections a' = a_injections a /\ a_directives a' = a_directives a /\
             a_rulesWalked a' = a_rulesWalked a
  end.
Proof.
  unfold applyDriftResponse, DISPATCH, blocking. cbn [obj_get].
  repeat (match goal with |- context [(policy =? ?s)%string] => destruct (String.eqb_spec policy s) as [->|] end;
    [cbn; unfold auto_correct; repeat case_match; cbn; set_solver|]).
  cbn. set_solver.
Qed.

(** ** Preconditions *)
Definition holds (st : SkillRequires -> StatResult) (preconds : list SkillRequires) : bool :=
  forallb (fun p => probePresent (st p)) preconds.
Definition cache_ok (st : SkillRequires -> StatResult) (c : RequiresCache) : Prop :=
  forall p b, cached_probe p c = Some b -> b = probePresent (st p).
Lemma probe_exact st p c : cache_ok st c -> (probe st p c).1 = probePresent (st p) /\ cache_ok st (probe st p c).2.
Proof.
  intros Hc. unfold probe. destruct (cached_probe p c) as [b|] eqn:Ep; [by rewrite <- (Hc p b)|].
  split; [done|]. intros q b. specialize (Hc q b). destruct p, q; cbn in *; naive_solver.
Qed.
Lemma skillRequiresHold_exact st preconds c : cache_ok st c ->
  (skillRequiresHold st preconds c).1 = holds st preconds /\ cache_ok st (skillRequiresHold st preconds c).2.
Proof.
  revert c. induction preconds as [|p rest IH]; intros c Hc; [done|]. cbn.
  destruct (probe_exact st p c Hc) as [Hp Hc']. rewrite Hp. destruct (probePresent (st p)); [by apply IH|done].
Qed.

(** ** The walk, flattened *)
Section Walk.
Context {E M : Type} `{Re : Re2} `{MemoOps : Memo M} `{Patterns} `{Files : HookFiles E}
  (clock : E -> Z) (sha256Hex : string -> string) (registry : list (string * FunctionDef E))
  (sessionId : string) (event : Event) (packs : list Pack) (scopeCtx : DispatchScopeCtx).
Abbreviation World := (@World E M).
Abbreviation Act := (@Act E M).
Abbreviation evaluate_rule := (@evaluate_rule E M Re MemoOps clock sha256Hex registry sessionId event).
Abbreviation record_drift := (@record_drift E M Files event).
Abbreviation walk_rule := (@walk_rule E M Re MemoOps Files clock sha256Hex registry sessionId event packs).
Abbreviation walk_skill := (@walk_skill E M Re MemoOps _ Files clock sha256Hex registry sessionId event packs).
Abbreviation walk_pack := (@walk_pack E M Re MemoOps _ Files clock sha256Hex registry sessionId event packs scopeCtx).

(** A rule with its pack and skill. *)
Record Item := { it_pack : Pack; it_skill : Skill; it_rule : string; it_process : list ProcessStep }.
Definition rule_items (st : SkillRequires -> StatResult) (pack : Pack) (skill : Skill) (rule : Rule) : list Item :=
  match rule with
  | TrackCheck id requires process =>
      if holds st requires
      then [{| it_pack := pack; it_skill := skill; it_rule := id; it_process := process |}] else []
  | DestinationCheck _ => []
  end.
Definition skill_items (g : Gate) (st : SkillRequires -> StatResult) (pack : Pack) (skill : Skill) : list Item :=
  if passes event g skill && holds st (sk_requires skill) && served skill (g_facets g) (g_domain g)
  then List.flat_map (rule_items st pack skill) (sk_rules skill) else [].
Definition pack_items (g : Gate) (st : SkillRequires -> StatResult) (pack : Pack) : list Item :=
  if activationScopeApplies (default as_project (pk_activationScope pack)) scopeCtx
  then List.flat_map (skill_items g st pack) (pk_skills pack) else [].
(** The rules the event reaches, in the order of packs, skills and rules. *)
Definition eligible (g : Gate) (st : SkillRequires -> StatResult) : list Item := List.flat_map (pack_items g st) packs.

Definition item_result (x : Item) (res : RuleResult) (a : Acc) : Step :=
  on_result event packs (it_pack x) (it_skill x) (it_rule x) res (walked_one a).
Definition after_item (x : Item) (res : RuleResult) (w : World) : World := record_drift (it_pack x) (it_rule x) res w.
Fixpoint run_items (items : list Item) (a : Acc) : Act Step := fun w =>
  match items with
  | [] => (Ok (Go a), w)
  | x :: rest =>
      match evaluate_rule (it_pack x) (it_process x) w with
      | (Err e, w) => (Err e, w)
      | (Ok res, w) =>
          let w := after_item x res w in
          match item_result x res a with Go a => run_items rest a w | Stop m a => (Ok (Stop m a), w) end
      end
  end.
Lemma run_items_app l1 l2 : forall a w,
  run_items (l1 ++ l2) a w =
  match run_items l1 a w with (Ok (Go a'), w') => run_items l2 a' w' | r => r end.
Proof.
  induction l1 as [|x l1 IH]; intros a w; [done|]. cbn [app run_items].
  destruct (evaluate_rule _ _ w) as [[res|e] w1]; [|done]. destruct (item_result x res a); [apply IH|done].
Qed.

(** The gathered state without the precondition cache. *)
Definition forget (a : Acc) : Acc := with_cache emptyCache a.
Definition forget_step (s : Step) : Step := match s with Go a => Go (forget a) | Stop m a => Stop m (forget a) end.
Lemma on_action_forget action a : forget_step (on_action action a) = on_action action (forget a).
Proof. by destruct action. Qed.
Lemma item_result_forget x res a : forget_step (item_result x res a) = item_result x res (forget a).
Proof.
  unfold item_result, on_result. destruct res; try done; try apply on_action_forget.
  - unfold on_directive. repeat case_match; done.
  - unfold on_inject. by destruct (set_has _ _).
Qed.
Lemma item_result_cache x res a : match item_result x res a with Go a' | Stop _ a' => a_cache a' = a_cache a end.
Proof.
  unfold item_result, on_result. destruct res; try done.
  - pose proof (applyDriftResponse_blocks verdict (resolvedPolicy (it_pack x) (it_rule x) verdict)
      (dr_corrective_skills <$> pk_driftResponse (it_pack x)) (walked_one a)) as Hb.
    unfold on_action in *. by destruct (applyDriftResponse _ _ _).
  - unfold on_directive. repeat case_match; done.
  - unfold on_inject. by destruct (set_has _ _).
Qed.

(** No primitive, nor the drift catalog, touches the two precondition files. *)
Context (st : SkillRequires -> StatResult).
Definition stats_are (w : World) : Prop := forall p, hf_stat p (w_env w) = st p.
Context (Heval : forall pack process w, stats_are w -> stats_are (evaluate_rule pack process w).2)
  (Hdrift : forall pack rule res w, stats_are w -> stats_are (record_drift pack rule res w)).

(** [o] is the outcome [o'] of the flat loop, up to the cache. *)
Definition agrees (o o' : result string Step * World) : Prop :=
  o.2 = o'.2 /\ stats_are o.2 /\
  match o.1, o'.1 with
  | Ok s, Ok s' => forget_step s = s' /\ forall a, s = Go a -> cache_ok st (a_cache a)
  | Err e, Err e' => e = e'
  | _, _ => False
  end.
Definition simulates {X} (f : X -> Acc -> Act Step) (items : X -> list Item) : Prop :=
  forall x a w, stats_are w -> cache_ok st (a_cache a) -> agrees (f x a w) (run_items (items x) (forget a) w).
Lemma agrees_skip a a' w : stats_are w -> cache_ok st (a_cache a) -> forget a = forget a' ->
  agrees (Ok (Go a), w) (run_items [] (forget a') w).
Proof. intros Hw Hc Hf. split_and!; [done|done|]. cbn. rewrite Hf. split; [done|]. by intros ? [= <-]. Qed.
Lemma walk_list_simulates {X} (f : X -> Acc -> Act Step) (items : X -> list Item) (xs : list X) :
  simulates f items -> forall a w, stats_are w -> cache_ok st (a_cache a) ->
  agrees (walk_list f xs a w) (run_items (List.flat_map items xs) (forget a) w).
Proof.
  intros Hf. induction xs as [|x xs IH]; intros a w Hw Hc; [by apply agrees_skip|].
  cbn [walk_list List.flat_map]. rewrite run_items_app. destruct (Hf x a w Hw Hc) as (H1 & H2 & H3).
  destruct (f x a w) as [r w1], (run_items (items x) (forget a) w) as [r' w1']. cbn [fst snd] in *. subst w1'.
  destruct r as [s|e], r' as [s'|e']; try done. destruct H3 as [<- Hcache]. destruct s as [a1|m a1]; cbn [forget_step].
  - apply IH; [done|by apply Hcache].
  - by split_and!.
Qed.

Lemma requires_hold_exact preconds a w : stats_are w -> cache_ok st (a_cache a) ->
  exists a', requires_hold preconds a w = (holds st preconds, a') /\ cache_ok st (a_cache a') /\ forget a' = forget a.
Proof.
  intros Hw Hc. unfold requires_hold. set (f := fun p => hf_stat p (w_env w)).
  assert (cache_ok f (a_cache a)) as Hc' by (intros p b Hp; unfold f; rewrite Hw; by apply Hc).
  destruct (skillRequiresHold_exact f preconds _ Hc') as [H1 H2]. rewrite H1.
  assert (holds f preconds = holds st preconds) as ->.
  { clear - Hw. induction preconds as [|p l IHl]; [done|]. unfold holds in *. cbn [forallb]. rewrite IHl. unfold f.
    by rewrite Hw. }
  eexists. split; [reflexivity|]. split; [|done]. intros p b Hp. rewrite <- Hw. by apply H2.
Qed.
Lemma walk_rule_simulates pack skill : simulates (walk_rule pack skill) (rule_items st pack skill).
Proof.
  intros rule a w Hw Hc. unfold Dispatch.walk_rule, rule_items. destruct rule as [id requires process|id]; [|by apply agrees_skip].
  destruct (requires_hold_exact requires a w Hw Hc) as (a' & -> & Hc' & Hf).
  destruct (holds st requires); cbn [negb]; [|rewrite <- Hf; by apply agrees_skip]. rewrite <- Hf.
  cbn [run_items it_pack it_process]. specialize (Heval pack process w Hw).
  destruct (evaluate_rule pack process w) as [[res|e] w1]; cbn [snd] in Heval; [|by split_and!].
  set (x := {| it_pack := pack; it_skill := skill; it_rule := id; it_process := process |}).
  change (on_result _ _ _ _ _ _ _) with (item_result x res a').
  rewrite <- item_result_forget. pose proof (item_result_cache x res a') as Hcache.
  specialize (Hdrift pack id res w1 Heval).
  destruct (item_result x res a') as [a1|m a1]; cbn [forget_step]; (split_and!; [done|done|]; cbn; split; [done|]).
  - intros a2 [= <-]. by rewrite Hcache.
  - done.
Qed.
Lemma walk_skill_simulates g pack : simulates (walk_skill g pack) (skill_items g st pack).
Proof.
  intros skill a w Hw Hc. unfold Dispatch.walk_skill, skill_items.
  destruct (passes event g skill); cbn [negb andb]; [|by apply agrees_skip].
  destruct (requires_hold_exact (sk_requires skill) a w Hw Hc) as (a' & -> & Hc' & Hf).
  destruct (holds st (sk_requires skill)); cbn [negb andb]; [|by apply agrees_skip].
  destruct (served _ _ _); cbn [negb]; [|by apply agrees_skip]. rewrite <- Hf.
  by apply walk_list_simulates; [apply walk_rule_simulates| |].
Qed.
Lemma walk_pack_simulates g : simulates (walk_pack g) (pack_items g st).
Proof.
  intros pack a w Hw Hc. unfold Dispatch.walk_pack, pack_items. destruct (activationScopeApplies _ _); cbn [negb].
  - by apply walk_list_simulates; [apply walk_skill_simulates| |].
  - by apply agrees_skip.
Qed.

(** ** The first blocking verdict decides *)
Abbreviation dispatchEvent :=
  (@dispatchEvent E M Re MemoOps _ Files clock sha256Hex registry sessionId event packs scopeCtx).
Lemma finish_forget s : finish (forget_step s) = finish s.
Proof. by destruct s. Qed.
Lemma dispatch_flat w :
  let g := (prepare event packs w).1 in
  let w0 := (prepare event packs w).2 in
  stats_are w0 ->
  dispatchEvent w = match run_items (eligible g st) emptyAcc w0 with
                    | (Ok s, w') => (Ok (finish s), w')
                    | (Err e, w') => (Err e, w')
                    end.
Proof.
  intros g w0 Hw. unfold Dispatch.dispatchEvent. fold g w0.
  destruct (prepare event packs w) as [g' w0'] eqn:Ep. subst g w0. cbn [fst snd] in *.
  destruct (walk_list_simulates (walk_pack g') (pack_items g' st) packs (walk_pack_simulates g') emptyAcc w0' Hw)
    as (H1 & _ & H3); [by intros []|]. change (forget emptyAcc) with emptyAcc in *. fold (eligible g' st) in *.
  destruct (walk_list _ _ _ _) as [r w1], (run_items _ _ _) as [r' w1']. cbn [fst snd] in *. subst w1'.
  destruct r as [s|e], r' as [s'|e']; try done; [|congruence]. destruct H3 as [<- _]. by rewrite finish_forget.
Qed.

(** The evaluations of the items in order, up to the first that rejects. *)
Fixpoint evaluations (items : list Item) (w : World) : list (Item * RuleResult) :=
  match items with
  | [] => []
  | x :: rest =>
      match evaluate_rule (it_pack x) (it_process x) w with
      | (Ok res, w) => (x, res) :: evaluations rest (after_item x res w)
      | (Err _, _) => []
      end
  end.
(** The rule's verdict, if its pack's policy makes it block. *)
Definition block_of (xr : Item * RuleResult) : option string :=
  match xr.2 with
  | RVerdict v => if set_has (resolvedPolicy (it_pack xr.1) (it_rule xr.1) v) blocking then Some (message_of v) else None
  | _ => None
  end.
Definition injection_of (xr : Item * RuleResult) : option string :=
  match xr.2 with
  | RInjectContext content =>
      if set_has (ev_kind event) [EvPromptSubmit; EvSessionStart; EvToolCall] then Some content else None
  | _ => None
  end.
Lemma item_result_spec x res a :
  match item_result x res a with
  | Stop m a' => block_of (x, res) = Some m /\ a_injections a' = a_injections a /\ a_rulesWalked a' = S (a_rulesWalked a)
  | Go a' => block_of (x, res) = None /\ a_rulesWalked a' = S (a_rulesWalked a) /\
             a_injections a' = a_injections a ++ omap injection_of [(x, res)]
  end.
Proof.
  unfold item_result, on_result, block_of, injection_of. destruct res as [v|na| |e i|content]; cbn [snd fst].
  - pose proof (applyDriftResponse_blocks v (resolvedPolicy (it_pack x) (it_rule x) v)
      (dr_corrective_skills <$> pk_driftResponse (it_pack x)) (walked_one a)) as Hb.
    destruct (on_action _ _) as [a'|m a'].
    + destruct Hb as (Hn & Hi & _ & Hk). assert (set_has (resolvedPolicy (it_pack x) (it_rule x) v) blocking = false) as ->.
      { apply not_true_is_false. by rewrite set_has_spec. }
      cbn. by rewrite app_nil_r.
    + destruct Hb as (Hin & -> & ->). by apply set_has_spec in Hin as ->.
  - unfold on_directive. repeat case_match; cbn; by rewrite app_nil_r.
  - cbn. by rewrite app_nil_r.
  - cbn. by rewrite app_nil_r.
  - unfold on_inject. cbn [omap list_omap snd].
    destruct (set_has (ev_kind event) [EvPromptSubmit; EvSessionStart; EvToolCall]); cbn; by rewrite ?app_nil_r.
Qed.
Lemma run_items_spec items : forall a w s w', run_items items a w = (Ok s, w') ->
  match s with
  | Go a' => Forall (fun xr => block_of xr = None) (evaluations items w) /\
             length (evaluations items w) = length items /\
             a_rulesWalked a' = (a_rulesWalked a + length items)%nat /\
             a_injections a' = a_injections a ++ omap injection_of (evaluations items w)
  | Stop m a' => exists before xr rest, evaluations items w = before ++ xr :: rest /\
             Forall (fun xr => block_of xr = None) before /\ block_of xr = Some m /\
             a_rulesWalked a' = (a_rulesWalked a + S (length before))%nat /\
             a_injections a' = a_injections a ++ omap injection_of before
  end.
Proof.
  induction items as [|x rest IH]; intros a w s w'; cbn [run_items evaluations].
  { intros [= <- _]. cbn. by rewrite Nat.add_0_r, app_nil_r. }
  destruct (evaluate_rule _ _ w) as [[res|e] w1]; [|done]. pose proof (item_result_spec x res a) as Hi.
  destruct (item_result x res a) as [a1|m a1].
  - destruct Hi as (Hb & Hk & Hinj). intros Hrun%IH. destruct s as [a'|m a'].
    + destruct Hrun as (Hf & Hl & Hk' & Hinj'). split_and!; [by constructor|cbn; by rewrite Hl| |].
      * rewrite Hk', Hk. cbn. lia.
      * rewrite Hinj', Hinj, <- app_assoc. f_equal. by rewrite <- omap_app.
    + destruct Hrun as (before & xr & rest' & -> & Hf & Hm & Hk' & Hinj').
      exists ((x, res) :: before), xr, rest'. split_and!; [done|by constructor|done| |].
      * rewrite Hk', Hk. cbn. lia.
      * rewrite Hinj', Hinj, <- app_assoc. f_equal. by rewrite <- omap_app.
  - destruct Hi as (Hb & Hinj & Hk). intros [= <- _]. exists [], (x, res), (evaluations rest (after_item x res w1)).
    split_and!; [done|by constructor|done|rewrite Hk; cbn; lia|]. by rewrite Hinj, app_nil_r.
Qed.

(** C36: the first blocking verdict decides, while neither primitives nor the
    drift catalog change what the precondition files look like (the section's
    hypotheses).  A dispatch that completes has evaluated the eligible rules in
    order: it exits with 2 and the message of the first whose verdict's policy
    blocks, or with 0 when none does; it reports how many it evaluated, and it
    surfaces the injections of exactly the rules before, whether it blocks or
    not.  The policy is the pack's for the rule, its default, or without a
    drift response the one of the verdict's level.  This is what the code does:
    verdicts whose policy does not block do not end the walk, where the header
    of dispatch.ts and docs/pack-runtime.md say that the first verdict does; a
    pinned skill is not eligible while an unloaded dynamic skill has its name
    ([pinned_skill_gated_by_namesake]). *)
Theorem first_blocking_verdict_decides (w w' : World) (res : DispatchResult) (walked : nat) :
  let g := (prepare event packs w).1 in
  let w0 := (prepare event packs w).2 in
  stats_are w0 -> dispatchEvent w = (Ok (res, walked), w') ->
  exists before after, evaluations (eligible g st) w0 = before ++ after /\
    Forall (fun xr => block_of xr = None) before /\ contextInjections res = omap injection_of before /\
    ((exitCode res = 0 /\ after = [] /\ walked = length (eligible g st) /\ length before = walked) \/
     (exists xr rest m warnings, after = xr :: rest /\ block_of xr = Some m /\ exitCode res = 2 /\
        stderr res = appendWarn m warnings /\ walked = S (length before))).
Proof.
  intros g w0 Hw. rewrite dispatch_flat by done. fold g w0.
  destruct (run_items (eligible g st) emptyAcc w0) as [[s|e] w1] eqn:Er; [|done]. apply run_items_spec in Er.
  destruct s as [a|m a]; intros [= <- <- _].
  - destruct Er as (Hf & Hl & Hk & Hinj). exists (evaluations (eligible g st) w0), []. rewrite app_nil_r.
    split_and!; [done|done|exact Hinj|]. left. cbn in *. split_and!; [done|done|done|congruence].
  - destruct Er as (before & xr & rest & Hev & Hf & Hm & Hk & Hinj). exists before, (xr :: rest).
    split_and!; [done|done|exact Hinj|]. right. exists xr, rest, m, (a_warnBuf a). by split_and!.
Qed.
End Walk.

(** ** Examples *)

(** A session's files: its tick file and its drift catalog. *)
Record DemoFiles := { df_ticks : TickFile; df_drift : list string }.
#[local] Instance demo_files : HookFiles DemoFiles := {|
  hf_stat _ _ := present; hf_ticks := df_ticks;
  hf_write_ticks f e := {| df_ticks := f; df_drift := df_drift e |};
  hf_facets _ := None; hf_domain _ _ := None;
  hf_record_drift _ p r l m e := {| df_ticks := df_ticks e; df_drift := df_drift e ++ [p +:+ ":" +:+ r +:+ ":" +:+ l] |}
|}.
#[local] Instance demo_patterns : Patterns := {|
  regexp p := Some (starts_with p); minimatch p g := (p =? g)%string |}.
#[local] Existing Instances demo_re2 demo_memo.
Definition demo_verdict_def : FunctionDef DemoFiles :=
  {| fd_name := "verdict"; fd_argSchema := Ok; fd_execute args _ e := (Ok (Ok args), e);
     fd_durable := None; fd_memoizable := None; fd_costEstimateMs := None |}.
Definition verdict_rule (id level message : string) : Rule :=
  TrackCheck id [] [demo_step "verdict" [("level", JsStr level); ("message", JsStr message)] "v"].
Definition inject_rule (id content : string) : Rule :=
  TrackCheck id [automation_mode_on]
    [demo_step "inject_context" [("kind", JsStr "inject_context"); ("content", JsStr content)] "v"].
Definition demo_inject_def : FunctionDef DemoFiles :=
  {| fd_name := "inject_context"; fd_argSchema := Ok; fd_execute args _ e := (Ok (Ok args), e);
     fd_durable := None; fd_memoizable := None; fd_costEstimateMs := None |}.
Definition hook_registry : list (string * FunctionDef DemoFiles) :=
  [("verdict", demo_verdict_def); ("inject_context", demo_inject_def)].
Definition demo_skill (name : string) (load : LoadMode) (unloads : list JsValue) (rules : list Rule) : Skill :=
  {| sk_name := name; sk_load := load; sk_when_to_load := []; sk_requires := []; sk_unloads_when := unloads;
     sk_triggers := [{| tg_kind := EvPromptSubmit; tg_channel := None; tg_sender_pattern := None |}];
     sk_serves := None; sk_rules := rules |}.
Definition demo_pack (name : string) (scope : Scope) (skills : list Skill) : Pack :=
  {| pk_name := name; pk_scope := scope; pk_skills := skills; pk_activationScope := None;
     pk_driftResponse := None; pk_usage := None; pk_team := None |}.
Definition prompt : Event := {| ev_kind := EvPromptSubmit; ev_fields := [("text", JsStr "hello")] |}.
Definition in_project : DispatchScopeCtx := {| inProject := true; isUserSession := true |}.
Definition hook_world : @World DemoFiles unit :=
  {| w_store := emptyStore; w_memo := tt; w_env := {| df_ticks := None; df_drift := [] |} |}.
Definition demo_dispatch (packs : list Pack) :=
  dispatchEvent (fun _ => 0%Z) (fun s => s) hook_registry "s" prompt packs in_project hook_world.
Definition blocking_packs : list Pack :=
  [demo_pack "p" ScProject [demo_skill "k" lazy [] [verdict_rule "r1" "warn" "careful"; inject_rule "r2" "context";
     verdict_rule "r3" "block" "no"; inject_rule "r4" "never"]]].
Definition all_present (p : SkillRequires) : StatResult := present.
Lemma demo_stats (w : @World DemoFiles unit) : stats_are all_present w.
Proof. by intros p. Qed.
Definition demo_left : World := (demo_dispatch blocking_packs).2.
Lemma demo_dispatched :
  dispatchEvent (fun _ => 0%Z) (fun s => s) hook_registry "s" prompt blocking_packs in_project hook_world =
  (Ok ({| exitCode := 2; stderr := "no" +:+ NL +:+ "careful"; contextInjections := ["context"]; directives := [] |}, 3),
   demo_left).
Proof. vm_compute. reflexivity. Qed.
Definition demo_items : list Item :=
  eligible prompt blocking_packs in_project (prepare prompt blocking_packs hook_world).1 all_present.
Definition demo_evaluations : list (Item * RuleResult) :=
  evaluations (fun _ => 0%Z) (fun s => s) hook_registry "s" prompt demo_items (prepare prompt blocking_packs hook_world).2.
Lemma demo_items_blocks :
  length demo_items = 4 /\ nth_error (List.map block_of demo_evaluations) 2 = Some (Some "no").
Proof. split; vm_compute; reflexivity. Qed.
Lemma first_blocking_verdict_decides_witness :
  length demo_items = 4 /\
  exists before xr rest, demo_evaluations = before ++ xr :: rest /\
    block_of xr = Some "no" /\ omap (injection_of prompt) before = ["context"] /\ length before = 2.
Proof.
  unfold demo_evaluations. destruct demo_items_blocks as [Hi Hb]. unfold demo_evaluations, demo_items in *.
  split; [exact Hi|].
  destruct (first_blocking_verdict_decides (fun _ => 0%Z) (fun s => s) hook_registry "s" prompt blocking_packs in_project
    all_present (fun _ _ _ _ => demo_stats _) (fun _ _ _ _ _ => demo_stats _) _ _ _ _ (demo_stats _) demo_dispatched)
    as (before & after & Hev & _ & Hinj & [(Hx & _)|(xr & rest & m & warnings & -> & _ & _ & _ & Hn)]); [done|].
  injection Hn as Hn. exists before, xr, rest. split_and!; [exact Hev| |by symmetry|by symmetry].
  rewrite Hev, List.map_app, nth_error_app2, length_map, <- Hn in Hb by (rewrite length_map; lia). by injection Hb.
Defined.

Definition turn (e : EventKind) (loaded reactivated : list string) : Turn :=
  {| tn_event := {| ev_kind := e; ev_fields := [] |}; tn_loaded := loaded; tn_reactivated := reactivated |}.
Definition demo_turns : list Turn :=
  [turn EvPromptSubmit ["k"; "l"] []; turn EvToolCall ["k"; "l"] ["k"]; turn EvPromptSubmit ["l"; "k"] ["l"];
   turn EvStop ["k"] []; turn EvPromptSubmit ["k"] []].
Lemma tick_counts_since_activation_witness :
  exists tick, obj_get "k" (readSkillTicks (play demo_turns None)) = Some tick /\
    turnsSinceActivation tick = 2%Z /\ taskCompleted tick = true /\ sessionEnded tick = false /\
    condition_fires tick (idle_n_turns 2) = true /\ condition_fires tick (idle_n_turns 3) = false.
Proof.
  destruct (tick_counts_since_activation "k" None [turn EvPromptSubmit ["k"; "l"] []] (turn EvToolCall ["k"; "l"] ["k"])
    [turn EvPromptSubmit ["l"; "k"] ["l"]; turn EvStop ["k"] []; turn EvPromptSubmit ["k"] []] 2) as (tick & Hg & -> & Hc).
  - cbn. set_solver.
  - cbn. set_solver.
  - repeat (apply Forall_cons_2; [split; cbn; set_solver|]). apply Forall_nil_2.
  - eexists. split; [exact Hg|]. split_and!; vm_compute; reflexivity.
Defined.

(** A pinned skill is skipped once a dynamic skill of another pack that has
    its name unloads: the walk looks skills up by name. *)
Definition ends : Event := {| ev_kind := EvSessionEnd; ev_fields := [] |}.
Definition guard_skill (load : LoadMode) (unloads : list JsValue) (rules : list Rule) : Skill :=
  {| sk_name := "guard"; sk_load := load; sk_when_to_load := []; sk_requires := []; sk_unloads_when := unloads;
     sk_triggers := [{| tg_kind := EvSessionEnd; tg_channel := None; tg_sender_pattern := None |}];
     sk_serves := None; sk_rules := rules |}.
Definition pinned_guard : Skill := guard_skill preload [] [verdict_rule "r" "block" "not yet"].
Definition core_pack : Pack := demo_pack "core" ScUniversal [pinned_guard].
Definition local_pack : Pack := demo_pack "local" ScProject [guard_skill lazy [JsStr "session_ends"] []].
Definition end_dispatch (packs : list Pack) : result string (DispatchResult * nat) :=
  (dispatchEvent (fun _ => 0%Z) (fun s => s) hook_registry "s" ends packs in_project hook_world).1.
Lemma pinned_skill_gated_by_namesake :
  isPinned core_pack pinned_guard = true /\
  end_dispatch [core_pack] =
    Ok ({| exitCode := 2; stderr := "not yet"; contextInjections := []; directives := [] |}, 1) /\
  end_dispatch [core_pack; local_pack] =
    Ok ({| exitCode := 0; stderr := ""; contextInjections := []; directives := [] |}, 0).
Proof. split_and!; vm_compute; reflexivity. Qed.
