(* ===== verification/Regex.v ===== *)
(** * Regular expressions

    [RegExp.prototype.test] on the patterns the guards use: classes, sequences,
    alternatives, repetition, the assertions [\b] and [$], a one-character
    look-behind and a negative look-ahead.  [test] asks only whether some match
    exists, so the order of backtracking does not matter: [ends] computes every
    way a match can end, and [lang] is the relation it computes. *)

From Stdlib Require Import Ascii String.
From stdpp Require Import base option list strings relations.
From S2P Require Import Prelude ExprSyntax ExprEval.

Inductive re :=
| Eps
| Cls (f : ascii -> bool)
| Seq (a b : re)
| Alt (a b : re)
| Star (a : re)
| Boundary                      (* \b *)
| Eol                           (* $ *)
| NotAfter (f : ascii -> bool)  (* (?<![...]) *)
| NotAhead (a : re).            (* (?!...) *)

(** A position: the character before it, and the rest of the input. *)
Abbreviation Pos := (option ascii * string)%type.
Definition next_char (p : Pos) : option ascii := match p.2 with String c _ => Some c | EmptyString => None end.
Definition is_word_char (o : option ascii) : bool := match o with Some c => is_word c | None => false end.
Definition at_boundary (p : Pos) : bool := xorb (is_word_char p.1) (is_word_char (next_char p)).
Definition not_after (f : ascii -> bool) (p : Pos) : bool := match p.1 with Some c => negb (f c) | None => true end.
Definition at_end (p : Pos) : bool := (p.2 =? "")%string.
Definition keep (b : bool) (p : Pos) : list Pos := if b then [p] else [].

(** Repetition; an iteration that consumes nothing leads nowhere new. *)
Fixpoint star_ends (f : Pos -> list Pos) (n : nat) (p : Pos) : list Pos :=
  p :: match n with
       | O => []
       | S n => List.flat_map
                  (fun q => if (String.length q.2 <? String.length p.2)%nat then star_ends f n q else []) (f p)
       end.
Fixpoint ends (r : re) (p : Pos) : list Pos :=
  match r with
  | Eps => [p]
  | Cls f => match p.2 with String c s => if f c then [(Some c, s)] else [] | EmptyString => [] end
  | Seq a b => List.flat_map (ends b) (ends a p)
  | Alt a b => ends a p ++ ends b p
  | Star a => star_ends (ends a) (String.length p.2) p
  | Boundary => keep (at_boundary p) p
  | Eol => keep (at_end p) p
  | NotAfter f => keep (not_after f p) p
  | NotAhead a => match ends a p with [] => [p] | _ :: _ => [] end
  end.
Fixpoint positions (prev : option ascii) (s : string) : list Pos :=
  (prev, s) :: match s with String c s' => positions (Some c) s' | EmptyString => [] end.
Definition re_test (r : re) (s : string) : bool :=
  existsb (fun p => match ends r p with [] => false | _ :: _ => true end) (positions None s).

(** ** Spelling patterns *)
Definition cat : list re -> re := foldr Seq Eps.
Definition any_of (l : list re) : re := foldr Alt (Cls (fun _ => false)) l.
Definition opt (r : re) : re := Alt r Eps.
Definition plus (r : re) : re := Seq r (Star r).
Definition lit_char (c : ascii) : re := Cls (Ascii.eqb c).
Fixpoint lit (w : string) : re :=
  match w with EmptyString => Eps | String c w' => Seq (lit_char c) (lit w') end.
Definition one_of (s : string) : re := Cls (fun c => has_char c s).
Definition none_of (s : string) : re := Cls (fun c => negb (has_char c s)).
Definition space : re := Cls is_space.
Definition spaces : re := Star space.
Definition spaces1 : re := plus space.

(** ** What a pattern means *)
Fixpoint lang (r : re) (p q : Pos) : Prop :=
  match r with
  | Eps => q = p
  | Cls f => exists c s, p.2 = String c s /\ f c = true /\ q = (Some c, s)
  | Seq a b => exists m, lang a p m /\ lang b m q
  | Alt a b => lang a p q \/ lang b p q
  | Star a => rtc (lang a) p q
  | Boundary => q = p /\ at_boundary p = true
  | Eol => q = p /\ p.2 = ""
  | NotAfter f => q = p /\ not_after f p = true
  | NotAhead a => q = p /\ ~ exists m, lang a p m
  end.
Lemma lang_progress r p q : lang r p q -> q = p \/ (String.length q.2 < String.length p.2)%nat.
Proof.
  revert p q. induction r as [|f|a IHa b IHb|a IHa b IHb|a IHa| | |f|a IHa]; intros p q; cbn [lang]; try by intros [-> _]; left.
  - by left.
  - intros (c & s & Hp & _ & ->). right. rewrite Hp. cbn. lia.
  - intros (m & [->|Hm]%IHa & [->|Hq]%IHb); [by left|by right|by right|right; lia].
  - intros [H|H]; auto.
  - induction 1 as [|x y z Hxy _ IH]; [by left|].
    apply IHa in Hxy as [->|Hxy]; [done|]. destruct IH as [->|IH]; right; [done|lia].
Qed.
Lemma elem_of_keep q b p : q ∈ keep b p <-> q = p /\ b = true.
Proof. unfold keep. destruct b; set_solver. Qed.
Lemma elem_of_flat_map {A B} (f : A -> list B) l y : y ∈ List.flat_map f l <-> exists x, x ∈ l /\ y ∈ f x.
Proof. rewrite list_elem_of_In, in_flat_map. split; intros (x & ? & ?); exists x; by rewrite ?list_elem_of_In in *. Qed.
Lemma star_ends_rtc (a : re) : (forall p q, q ∈ ends a p <-> lang a p q) -> forall p q,
  q ∈ star_ends (ends a) (String.length p.2) p <-> rtc (lang a) p q.
Proof.
  intros Ha p q. split.
  - generalize (String.length p.2) as n. intros n. revert p. induction n as [|n IH]; intros p; cbn [star_ends].
    { intros ->%list_elem_of_singleton. apply rtc_refl. }
    intros [->|(m & Hm & Hq)%elem_of_flat_map]%elem_of_cons; [apply rtc_refl|]. destruct (_ <? _)%nat; [|set_solver].
    eapply rtc_l; [by apply Ha|by apply IH].
  - intros H. remember (String.length p.2) as n eqn:Hn. assert (String.length p.2 <= n)%nat as Hle by lia. clear Hn.
    revert n Hle. induction H as [x|x y z Hxy _ IH]; intros n Hle; [destruct n; cbn; by left|].
    pose proof Hxy as [->|Hlt]%lang_progress; [by apply IH|]. destruct n as [|n]; [lia|]. cbn [star_ends].
    right. apply elem_of_flat_map. exists y. split; [by apply Ha|].
    rewrite (proj2 (Nat.ltb_lt _ _) Hlt). apply IH. lia.
Qed.
Lemma ends_lang r p q : q ∈ ends r p <-> lang r p q.
Proof.
  revert p q. induction r as [|f|a IHa b IHb|a IHa b IHb|a IHa| | |f|a IHa]; intros p q; cbn [ends lang];
    rewrite ?elem_of_keep; try done.
  - by rewrite list_elem_of_singleton.
  - destruct p as [prev [|c s]]; cbn; [split; [by intros ?%elem_of_nil|naive_solver]|].
    destruct (f c) eqn:Ef; [rewrite list_elem_of_singleton|rewrite elem_of_nil; split; [done|intros (? & ? & [= <- <-] & ? & _); congruence]].
    split; [intros ->; by exists c, s|]. by intros (? & ? & [= <- <-] & _ & ->).
  - rewrite elem_of_flat_map. split; intros (m & Hm & Hq); exists m; by rewrite ?IHa, ?IHb in *.
  - by rewrite elem_of_app, IHa, IHb.
  - by apply star_ends_rtc.
  - unfold at_end. by rewrite String.eqb_eq.
  - destruct (ends a p) as [|m l] eqn:Ee.
    + rewrite list_elem_of_singleton. split; [|by intros [? _]]. intros ->. split; [done|]. intros [m Hm%IHa].
      rewrite Ee in Hm. by apply elem_of_nil in Hm.
    + split; [by intros ?%elem_of_nil|]. intros [_ Hn]. exfalso. apply Hn. exists m. apply IHa. rewrite Ee. by left.
Qed.

(** ** Positions of an input *)
Fixpoint past (prev : option ascii) (w : string) : option ascii :=
  match w with EmptyString => prev | String c w' => past (Some c) w' end.
Lemma past_app prev w w' : past prev (w +:+ w') = past (past prev w) w'.
Proof. revert prev. by induction w as [|c w IH]; intros prev; [|apply IH]. Qed.
Lemma elem_of_positions prev s p : p ∈ positions prev s <-> exists pre, s = pre +:+ p.2 /\ p.1 = past prev pre.
Proof.
  revert prev. induction s as [|c s IH]; intros prev; cbn [positions].
  - rewrite list_elem_of_singleton. split; [intros ->; by exists ""|]. intros ([|] & H & Hp); [|done].
    destruct p as [x y]. cbn in *. by subst.
  - rewrite elem_of_cons, IH. split.
    + intros [->|(pre & -> & ->)]; [by exists ""|]. by exists (String c pre).
    + intros ([|d pre] & H & Hp); [left|right]; destruct p as [x y]; cbn in *; [by subst|].
      injection H as <- ->. by exists pre.
Qed.
Lemma re_test_spec r s :
  re_test r s = true <-> exists pre rest q, s = pre +:+ rest /\ lang r (past None pre, rest) q.
Proof.
  unfold re_test. rewrite existsb_exists. split.
  - intros (p & Hp & He). destruct (ends r p) as [|q l] eqn:Ee; [done|].
    apply list_elem_of_In, elem_of_positions in Hp as (pre & -> & Hp). exists pre, p.2, q. split; [done|].
    rewrite <- Hp, <- surjective_pairing. apply ends_lang. rewrite Ee. by left.
  - intros (pre & rest & q & -> & Hq%ends_lang). exists (past None pre, rest). split.
    + apply list_elem_of_In, elem_of_positions. by exists pre.
    + destruct (ends r _); [by apply elem_of_nil in Hq|done].
Qed.
Lemma lang_lit w prev s : lang (lit w) (prev, w +:+ s) (past prev w, s).
Proof.
  revert prev. induction w as [|c w IH]; intros prev; [done|]. exists (Some c, w +:+ s). split; [|apply IH].
  exists c, (w +:+ s). by rewrite Ascii.eqb_refl.
Qed.
Fixpoint all_chars (f : ascii -> bool) (s : string) : bool :=
  match s with EmptyString => true | String c s' => f c && all_chars f s' end.
Lemma lang_star_cls f w prev s : all_chars f w = true -> lang (Star (Cls f)) (prev, w +:+ s) (past prev w, s).
Proof.
  revert prev. induction w as [|c w IH]; intros prev; cbn [all_chars]; [intros _; apply rtc_refl|].
  intros [Hc Hw]%andb_true_iff. eapply rtc_l; [|apply IH, Hw]. by exists c, (w +:+ s).
Qed.
