(* ===== verification/Shell.v ===== *)
(** * Shell commands

    [src/src/functions/shell_parse.ts], the quote-aware tokenizer and the
    invocation predicate, and the read-only classifier of
    [runtime/session_state.ts].  [source] writes a command as a shell user
    does; [tokenize_source] is the tokenizer's law. *)

From Stdlib Require Import Ascii String.
From stdpp Require Import base option list strings.
From S2P Require Import Prelude ExprSyntax ExprEval Regex.

Definition MAX_LEN : nat := 10000.
Definition GIT_VALUE_GLOBALS : list string := ["-C"; "-c"].
Definition SQUOTE : ascii := "'"%char.
Definition NEWLINE : ascii := "010"%char.

(** ** The tokenizer *)
Inductive Quote := Unquoted | Single | Double.
(** The segments, the current one, and the current word, if one has begun. *)
Record Lex := { lx_segments : list (list string); lx_argv : list string; lx_word : option string }.
Definition emptyLex : Lex := {| lx_segments := []; lx_argv := []; lx_word := None |}.
Definition in_word (st : Lex) (text : string) : Lex :=
  {| lx_segments := lx_segments st; lx_argv := lx_argv st; lx_word := Some (default "" (lx_word st) +:+ text) |}.
Definition endWord (st : Lex) : Lex :=
  match lx_word st with
  | Some w => {| lx_segments := lx_segments st; lx_argv := lx_argv st ++ [w]; lx_word := None |}
  | None => st
  end.
Definition endSeg (st : Lex) : Lex :=
  let st := endWord st in
  match lx_argv st with
  | [] => st
  | argv => {| lx_segments := lx_segments st ++ [argv]; lx_argv := []; lx_word := None |}
  end.
Definition char_text (c : ascii) : string := String c "".
(** The characters a backslash escapes in double quotes. *)
Definition dq_escapable (c : ascii) : bool :=
  Ascii.eqb c DQUOTE || Ascii.eqb c BACKSLASH || Ascii.eqb c "$" || Ascii.eqb c "`".
Definition is_operator_char (c : ascii) : bool :=
  Ascii.eqb c ";" || Ascii.eqb c "|" || Ascii.eqb c "&" || Ascii.eqb c NEWLINE.
Definition is_blank (c : ascii) : bool :=
  Ascii.eqb c " " || Nat.eqb (nat_of_ascii c) 9 || Nat.eqb (nat_of_ascii c) 13.
Fixpoint lex (s : string) (quote : Quote) (st : Lex) : Lex :=
  match s with
  | EmptyString => st
  | String ch r =>
      match quote with
      | Single =>
          if Ascii.eqb ch SQUOTE then lex r Unquoted st else lex r Single (in_word st (char_text ch))
      | Double =>
          if Ascii.eqb ch DQUOTE then lex r Unquoted st
          else match r with
               | String c2 r2 =>
                   if Ascii.eqb ch BACKSLASH && dq_escapable c2
                   then lex r2 Double (in_word st (char_text c2))
                   else lex r Double (in_word st (char_text ch))
               | EmptyString => lex r Double (in_word st (char_text ch))
               end
      | Unquoted =>
          if Ascii.eqb ch SQUOTE then lex r Single (in_word st "")
          else if Ascii.eqb ch DQUOTE then lex r Double (in_word st "")
          else
            let single (_ : unit) :=
              if is_operator_char ch then lex r Unquoted (endSeg st)
              else if is_blank ch then lex r Unquoted (endWord st)
              else lex r Unquoted (in_word st (char_text ch)) in
            match r with
            | String c2 r2 =>
                if Ascii.eqb ch BACKSLASH then lex r2 Unquoted (in_word st (char_text c2))
                else if (Ascii.eqb ch "&" && Ascii.eqb c2 "&") || (Ascii.eqb ch "|" && Ascii.eqb c2 "|")
                then lex r2 Unquoted (endSeg st)
                else single tt
            | EmptyString => single tt
            end
      end
  end.
Definition tokenizeShell (command : string) : list (list string) :=
  if (command =? "")%string || (MAX_LEN <? String.length command)%nat then []
  else lx_segments (endSeg (lex command Unquoted emptyLex)).

(** ** Invocations *)
(** What follows the last [c], or all of it. *)
Definition after_last (c : ascii) (s : string) : string := List.last (split_char c s) "".
Definition basename (p : string) : string := after_last "/" p.
Definition is_letter (c : ascii) : bool := between 65 90 c || between 97 122 c.
Definition flagPresent (args : list string) (flag : string) : bool :=
  existsb (fun a =>
    if starts_with flag "--" then (a =? flag)%string || starts_with a (flag +:+ "=")
    else match flag with
         | String "-" (String x EmptyString) =>
             if is_letter x
             then (a =? flag)%string ||
                  match a with
                  | String "-" (String _ _ as cluster) => all_chars is_letter cluster && has_char x cluster
                  | _ => false
                  end
             else (a =? flag)%string
         | _ => (a =? flag)%string
         end) args.
Record InvokeQuery := {
  iq_program : string; iq_subcommand : option string; iq_flagAny : option (list string); iq_argAny : option (list string);
}.
Definition refTarget (a : string) : string :=
  let dst := after_last ":" a in
  let noPlus := match dst with String "+" r => r | _ => dst end in
  after_last "/" noPlus.
(** The arguments left once git's global options are skipped. *)
Fixpoint skip_globals (args : list string) : list string :=
  match args with
  | a :: rest =>
      if starts_with a "-"
      then if set_has a GIT_VALUE_GLOBALS
           then match rest with _ :: rest' => skip_globals rest' | [] => [] end
           else skip_globals rest
      else args
  | [] => []
  end.
Definition invokes (q : InvokeQuery) (argv : list string) : bool :=
  match argv with
  | [] => false
  | program :: args =>
      (basename program =? iq_program q)%string &&
      match iq_subcommand q with
      | None => true
      | Some subcommand =>
          match skip_globals args with
          | [] => false
          | sub :: rest =>
              (sub =? subcommand)%string &&
              match iq_flagAny q with Some flags => existsb (flagPresent rest) flags | None => true end &&
              match iq_argAny q with
              | Some wanted =>
                  let targets := List.map refTarget (List.filter (fun a => negb (starts_with a "-")) rest) in
                  existsb (fun v => set_has v targets) wanted
              | None => true
              end
          end
      end
  end.
Definition commandInvokes (command : string) (q : InvokeQuery) : bool := existsb (invokes q) (tokenizeShell command).

(** ** Read-only commands *)
Definition READ_ONLY_VERBS : list string :=
  ["grep"; "rg"; "cat"; "sed"; "awk"; "find"; "head"; "tail"; "ls"; "wc"; "sort"; "uniq"; "cut"; "tr"; "jq"; "stat";
   "file"; "echo"; "pwd"].
Definition segmentMutates (argv : list string) : bool :=
  match argv with
  | verb :: _ =>
      (verb =? "sed")%string && existsb (fun a => starts_with a "-i") argv ||
      (verb =? "find")%string &&
      existsb (fun a => set_has a ["-delete"; "-exec"; "-execdir"] || starts_with a "-fprint") argv
  | [] => false
  end.
(** [s.split(/\|\||&&|;|\|/)] *)
Fixpoint split_ops (s : string) : list string :=
  let more (c : ascii) (rest : list string) :=
    match rest with h :: t => String c h :: t | [] => [String c ""] end in
  match s with
  | EmptyString => [""]
  | String c r =>
      match r with
      | String d r2 =>
          if (Ascii.eqb c "|" && Ascii.eqb d "|") || (Ascii.eqb c "&" && Ascii.eqb d "&") then "" :: split_ops r2
          else if Ascii.eqb c ";" || Ascii.eqb c "|" then "" :: split_ops r
          else more c (split_ops r)
      | EmptyString => if Ascii.eqb c ";" || Ascii.eqb c "|" then ["";  ""] else [String c ""]
      end
  end.
(** [s.split(/\s+/)]; [inside] is set after a space. *)
Fixpoint split_spaces_from (inside : bool) (s : string) : list string :=
  match s with
  | EmptyString => [""]
  | String c r =>
      if is_space c then (if inside then split_spaces_from true r else "" :: split_spaces_from true r)
      else match split_spaces_from false r with h :: t => String c h :: t | [] => [String c ""] end
  end.
Definition split_spaces (s : string) : list string := split_spaces_from false s.
Definition isReadOnlyBash (command : string) : bool :=
  let trimmed := trim command in
  if (trimmed =? "")%string || has_char ">" trimmed then false
  else
    let segments := List.filter (fun s => negb (s =? "")%string) (List.map trim (split_ops trimmed)) in
    match segments with
    | [] => false
    | _ => forallb (fun seg =>
             let argv := split_spaces seg in
             match argv with
             | verb :: _ => set_has verb READ_ONLY_VERBS && negb (segmentMutates argv)
             | [] => false
             end) segments
    end.

(** ** Commands as they are typed

    A word is a sequence of bare characters, escaped characters and quoted
    texts; a command is a sequence of words after blanks; a line is a sequence
    of commands between operators. *)
Definition plain (c : ascii) : bool :=
  negb (Ascii.eqb c SQUOTE || Ascii.eqb c DQUOTE || Ascii.eqb c BACKSLASH || is_operator_char c || is_blank c).
Inductive Piece := Bare (c : ascii) | Escaped (c : ascii) | Squoted (t : string) | Dquoted (t : string).
Definition piece_text (p : Piece) : string :=
  match p with Bare c | Escaped c => char_text c | Squoted t | Dquoted t => t end.
Fixpoint dq_escape (t : string) : string :=
  match t with
  | EmptyString => ""
  | String c r => if dq_escapable c then String BACKSLASH (String c (dq_escape r)) else String c (dq_escape r)
  end.
Definition piece_source (p : Piece) : string :=
  match p with
  | Bare c => char_text c
  | Escaped c => String BACKSLASH (char_text c)
  | Squoted t => String SQUOTE (t +:+ char_text SQUOTE)
  | Dquoted t => String DQUOTE (dq_escape t +:+ char_text DQUOTE)
  end.
Definition piece_ok (p : Piece) : bool :=
  match p with Bare c => plain c | Squoted t => negb (has_char SQUOTE t) | _ => true end.
Definition concat (l : list string) : string := foldr String.append "" l.
Abbreviation Word := (list Piece).
Definition word_text (w : Word) : string := concat (List.map piece_text w).
Definition word_source (w : Word) : string := concat (List.map piece_source w).
(** Each word with the blanks before it. *)
Abbreviation Command := (list (string * Word)).
Definition command_words (c : Command) : list string := List.map (fun gw => word_text gw.2) c.
Definition command_source (c : Command) : string := concat (List.map (fun gw => gw.1 +:+ word_source gw.2) c).
Inductive Operator := AndIf | OrIf | Semi | Pipe | Background | Newline.
Definition operator_text (o : Operator) : string :=
  match o with
  | AndIf => "&&" | OrIf => "||" | Semi => ";" | Pipe => "|" | Background => "&" | Newline => char_text NEWLINE
  end.
(** The first command, and the others after blanks and an operator. *)
Abbreviation Line := (Command * list (string * Operator * Command))%type.
Definition line_words (l : Line) : list (list string) := command_words l.1 :: List.map (fun x => command_words x.2) l.2.
Definition link_source (x : string * Operator * Command) : string :=
  x.1.1 +:+ operator_text x.1.2 +:+ command_source x.2.
Definition line_source (l : Line) : string := command_source l.1 +:+ concat (List.map link_source l.2).
Definition word_ok (w : Word) : bool := match w with [] => false | _ => forallb piece_ok w end.
Definition command_ok (c : Command) : bool :=
  match c with
  | [] => false
  | (gap, w) :: rest =>
      all_chars is_blank gap && word_ok w &&
      forallb (fun gw => negb (gw.1 =? "")%string && all_chars is_blank gw.1 && word_ok gw.2) rest
  end.
Definition line_ok (l : Line) : bool :=
  command_ok l.1 && forallb (fun x => all_chars is_blank x.1.1 && command_ok x.2) l.2.

(** ** The tokenizer's law *)
Lemma in_word_in_word st a b : in_word (in_word st a) b = in_word st (a +:+ b).
Proof. unfold in_word. cbn. by rewrite string_app_assoc. Qed.
Lemma endWord_idem st : endWord (endWord st) = endWord st.
Proof. unfold endWord. by destruct (lx_word st) eqn:E; cbn; rewrite ?E. Qed.
Lemma endSeg_endWord st : endSeg (endWord st) = endSeg st.
Proof. unfold endSeg. by rewrite endWord_idem. Qed.
Lemma blank_not_special c : is_blank c = true ->
  Ascii.eqb c SQUOTE = false /\ Ascii.eqb c DQUOTE = false /\ Ascii.eqb c BACKSLASH = false /\
  is_operator_char c = false.
Proof. destruct c as [[] [] [] [] [] [] [] []]; try discriminate; by (intros _; split_and!). Qed.
Lemma operator_parts c : is_operator_char c = false -> Ascii.eqb c "&" = false /\ Ascii.eqb c "|" = false.
Proof. unfold is_operator_char. intros H. reflect_bools. by split. Qed.
Lemma lex_plain c r st : plain c = true -> lex (String c r) Unquoted st = lex r Unquoted (in_word st (char_text c)).
Proof.
  unfold plain. intros H%negb_true_iff. repeat (apply orb_false_iff in H; destruct H as [H ?]).
  cbn [lex]. rewrite H, H0, H1, H2, H3. destruct (operator_parts c H1) as [-> ->]. by destruct r.
Qed.
Lemma lex_blank c r st : is_blank c = true -> lex (String c r) Unquoted st = lex r Unquoted (endWord st).
Proof.
  intros H. destruct (blank_not_special c H) as (H1 & H2 & H3 & H4). cbn [lex]. rewrite H, H1, H2, H3, H4.
  destruct (operator_parts c H4) as [-> ->]. by destruct r.
Qed.
Lemma lex_squoted t r st x : has_char SQUOTE t = false ->
  lex (t +:+ String SQUOTE r) Single (in_word st x) = lex r Unquoted (in_word st (x +:+ t)).
Proof.
  revert x. induction t as [|c t IH]; intros x; cbn [has_char].
  - intros _. cbn. by rewrite string_app_nil_r.
  - intros [Hc Ht]%orb_false_iff. cbn [String.append lex]. rewrite Hc, in_word_in_word, IH by done.
    by rewrite string_app_assoc.
Qed.
Lemma lex_dquoted t r st x :
  lex (dq_escape t +:+ String DQUOTE r) Double (in_word st x) = lex r Unquoted (in_word st (x +:+ t)).
Proof.
  revert x. induction t as [|c t IH]; intros x; [cbn; by rewrite string_app_nil_r|].
  assert (forall s, in_word (in_word st x) (char_text c) = s -> lex (dq_escape t +:+ String DQUOTE r) Double s =
    lex r Unquoted (in_word st (x +:+ String c t))) as Hstep.
  { intros s <-. rewrite in_word_in_word, IH. by rewrite string_app_assoc. }
  cbn [dq_escape]. destruct (dq_escapable c) eqn:Ec.
  - cbn [String.append lex]. rewrite Ec. cbn. by apply Hstep.
  - assert (Ascii.eqb c DQUOTE = false /\ Ascii.eqb c BACKSLASH = false) as [H1 H2].
    { unfold dq_escapable in Ec. reflect_bools. by split. }
    cbn [String.append lex]. rewrite H1, H2. cbn [andb]. destruct (dq_escape t +:+ String DQUOTE r); by apply Hstep.
Qed.
Lemma lex_piece p r st : piece_ok p = true ->
  lex (piece_source p +:+ r) Unquoted st = lex r Unquoted (in_word st (piece_text p)).
Proof.
  destruct p as [c|c|t|t]; cbn [piece_ok piece_source piece_text].
  - apply lex_plain.
  - done.
  - intros Ht%negb_true_iff. cbn [String.append]. rewrite string_app_assoc. by apply lex_squoted.
  - intros _. cbn [String.append]. rewrite string_app_assoc. by apply lex_dquoted.
Qed.
Lemma concat_app_r {A} (f : A -> string) x l r :
  concat (List.map f (x :: l)) +:+ r = f x +:+ (concat (List.map f l) +:+ r).
Proof. cbn. by rewrite string_app_assoc. Qed.
Lemma lex_pieces w r st x : forallb piece_ok w = true ->
  lex (word_source w +:+ r) Unquoted (in_word st x) = lex r Unquoted (in_word st (x +:+ word_text w)).
Proof.
  unfold word_source, word_text. revert x. induction w as [|p w IH]; intros x; cbn [forallb].
  - intros _. cbn. by rewrite string_app_nil_r.
  - intros [Hp Hw]%andb_true_iff. rewrite concat_app_r, lex_piece, in_word_in_word, IH by done.
    cbn. by rewrite string_app_assoc.
Qed.
Lemma lex_word w r st : word_ok w = true -> lex (word_source w +:+ r) Unquoted st = lex r Unquoted (in_word st (word_text w)).
Proof.
  destruct w as [|p w]; [done|]. unfold word_ok. cbn [forallb]. intros [Hp Hw]%andb_true_iff.
  unfold word_source at 1. rewrite concat_app_r, lex_piece by done. fold (word_source w). by rewrite lex_pieces.
Qed.
Lemma lex_gap gap r st : all_chars is_blank gap = true -> gap <> "" ->
  lex (gap +:+ r) Unquoted st = lex r Unquoted (endWord st).
Proof.
  revert st. induction gap as [|c gap IH]; intros st; [done|]. cbn [all_chars]. intros [Hc Hg]%andb_true_iff _.
  cbn [String.append]. rewrite lex_blank by done. destruct gap as [|d gap]; [done|]. by rewrite IH, endWord_idem.
Qed.
(** The state once the words have been typed, the last one still open. *)
Definition typed (st : Lex) (words : list string) : Lex := fold_left (fun st w => in_word (endWord st) w) words st.
Lemma typed_end words : forall st, endWord (typed st words) =
  {| lx_segments := lx_segments st; lx_argv := lx_argv (endWord st) ++ words; lx_word := None |}.
Proof.
  unfold typed. induction words as [|w words IH]; intros st; cbn [fold_left].
  - rewrite app_nil_r. unfold endWord. destruct st as [? ? [?|]]; done.
  - rewrite IH. unfold endWord. destruct st as [? ? [?|]]; cbn; by rewrite <- ?app_assoc.
Qed.
Lemma lex_command_from (c : Command) : forall r st,
  forallb (fun gw => negb (gw.1 =? "")%string && all_chars is_blank gw.1 && word_ok gw.2) c = true ->
  lex (command_source c +:+ r) Unquoted st = lex r Unquoted (typed st (command_words c)).
Proof.
  induction c as [|[gap w] c IH]; intros r st; [done|]. cbn [forallb]. intros [H Hc]%andb_true_iff.
  cbn [fst snd] in H. reflect_bools. unfold command_source. rewrite concat_app_r. cbn [fst snd]. rewrite string_app_assoc.
  rewrite lex_gap, lex_word by done. by rewrite (IH r).
Qed.
Lemma lex_command (c : Command) r st : command_ok c = true -> lx_word st = None ->
  lex (command_source c +:+ r) Unquoted st = lex r Unquoted (typed st (command_words c)).
Proof.
  destruct c as [|[gap w] c]; [done|]. cbn [command_ok]. intros H Hst. reflect_bools.
  unfold command_source. rewrite concat_app_r. cbn [fst snd]. rewrite string_app_assoc.
  assert (endWord st = st) as He by (unfold endWord; by rewrite Hst).
  assert (lex (gap +:+ (word_source w +:+ (concat (List.map (fun gw => gw.1 +:+ word_source gw.2) c) +:+ r))) Unquoted st =
          lex (word_source w +:+ (concat (List.map (fun gw => gw.1 +:+ word_source gw.2) c) +:+ r)) Unquoted st) as ->.
  { destruct gap as [|d gap]; [done|]. rewrite lex_gap by done. by rewrite He. }
  rewrite lex_word by done. fold (command_source c). rewrite lex_command_from by done.
  cbn [command_words List.map typed fold_left]. by rewrite He.
Qed.
Lemma endSeg_typed st words : lx_word st = None -> lx_argv st = [] -> words <> [] ->
  endSeg (typed st words) = {| lx_segments := lx_segments st ++ [words]; lx_argv := []; lx_word := None |}.
Proof.
  intros Hw Ha Hn. unfold endSeg. rewrite typed_end. unfold endWord. rewrite Hw, Ha. cbn. by destruct words.
Qed.
Definition calm (s : string) : bool := match s with String c _ => negb (is_operator_char c) | EmptyString => true end.
Lemma lex_operator o r st : calm r = true -> lex (operator_text o +:+ r) Unquoted st = lex r Unquoted (endSeg st).
Proof.
  destruct o; try done; destruct r as [|c r]; try done; cbn [calm]; intros H%negb_true_iff;
    destruct (operator_parts c H) as [Ha Hp]; cbn -[nat_of_ascii]; rewrite ?Ha, ?Hp; done.
Qed.
Lemma plain_calm c : plain c = true -> is_operator_char c = false.
Proof. unfold plain. intros H. reflect_bools. done. Qed.
Lemma calm_command c r : command_ok c = true -> calm (command_source c +:+ r) = true.
Proof.
  destruct c as [|[gap w] c]; [done|]. cbn [command_ok]. intros H. reflect_bools.
  unfold command_source. rewrite concat_app_r. cbn [fst snd]. destruct gap as [|d gap].
  - destruct w as [|p w]; [done|]. unfold word_ok in *. cbn [forallb] in *. reflect_bools.
    destruct p; cbn in *; try done. apply negb_true_iff. by apply plain_calm.
  - cbn [all_chars] in *. reflect_bools. cbn. apply negb_true_iff. by eapply blank_not_special.
Qed.
Lemma command_words_nonempty c : command_ok c = true -> command_words c <> [].
Proof. by destruct c as [|[]]. Qed.
Lemma lex_links links : forall words st,
  forallb (fun x : string * Operator * Command => all_chars is_blank x.1.1 && command_ok x.2) links = true ->
  lx_word st = None -> lx_argv st = [] -> words <> [] ->
  endSeg (lex (concat (List.map link_source links)) Unquoted (typed st words)) =
  {| lx_segments := lx_segments st ++ words :: List.map (fun x => command_words x.2) links; lx_argv := []; lx_word := None |}.
Proof.
  induction links as [|[[gap o] c] links IH]; intros words st; cbn [forallb].
  - intros _ Hw Ha Hn. cbn. by apply endSeg_typed.
  - intros [[Hg Hc]%andb_true_iff Hl]%andb_true_iff Hw Ha Hn. cbn [fst snd] in *. cbn [List.map concat foldr].
    unfold link_source at 1. cbn [fst snd]. rewrite !string_app_assoc.
    assert (forall r, calm r = true -> lex (gap +:+ (operator_text o +:+ r)) Unquoted (typed st words) =
      lex r Unquoted {| lx_segments := lx_segments st ++ [words]; lx_argv := []; lx_word := None |}) as Hop.
    { intros r Hr. destruct gap as [|d gap].
      - cbn [String.append]. by rewrite lex_operator, endSeg_typed.
      - by rewrite lex_gap, lex_operator, endSeg_endWord, endSeg_typed. }
    rewrite Hop by by apply calm_command. rewrite lex_command by done.
    fold (concat (List.map link_source links)). rewrite IH; [|done|done|done|by apply command_words_nonempty].
    cbn [lx_segments]. by rewrite <- app_assoc.
Qed.
Lemma command_source_nonempty c r : command_ok c = true -> command_source c +:+ r <> "".
Proof.
  destruct c as [|[gap w] c]; [done|]. cbn [command_ok]. intros H. reflect_bools.
  unfold command_source. rewrite concat_app_r. cbn [fst snd]. destruct gap; [|done].
  destruct w as [|p w]; [done|]. by destruct p.
Qed.

(** C32: the tokenizer reads back what was typed.  A line of commands, each
    word written with bare, escaped and quoted parts and no part a quote or an
    operator by accident, is split into exactly its commands and words, as long
    as it is within the length bound; so an invocation is seen exactly when one
    of its commands is that invocation, never inside a quoted argument. *)
Theorem tokenize_source (l : Line) (q : InvokeQuery) :
  line_ok l = true -> String.length (line_source l) <= MAX_LEN ->
  tokenizeShell (line_source l) = line_words l /\
  commandInvokes (line_source l) q = existsb (invokes q) (line_words l).
Proof.
  destruct l as [c links]. unfold line_ok. cbn [fst snd]. intros [Hc Hl]%andb_true_iff Hlen.
  assert (tokenizeShell (line_source (c, links)) = line_words (c, links)) as H.
  { unfold tokenizeShell, line_source in *. cbn [fst snd] in *. rewrite (proj2 (Nat.ltb_ge _ _) Hlen).
    rewrite (proj2 (String.eqb_neq _ _) (command_source_nonempty c (concat (List.map link_source links)) Hc)).
    cbn [orb]. rewrite lex_command by done.
    rewrite lex_links by (done || by apply command_words_nonempty). done. }
  split; [exact H|]. unfold commandInvokes. by rewrite H.
Qed.

(** git commit -am "it's done" && echo 'git push; rm x' *)
Definition bare (s : string) : Word := List.map Bare (list_ascii_of_string s).
Definition demo_line : Line :=
  ([("", bare "git"); (" ", bare "commit"); (" ", bare "-am"); (" ", [Dquoted "it's done"])],
   [(" ", AndIf, [(" ", bare "echo"); (" ", [Squoted "git push; rm x"])])]).
Definition git (subcommand : string) (flags : option (list string)) : InvokeQuery :=
  {| iq_program := "git"; iq_subcommand := Some subcommand; iq_flagAny := flags; iq_argAny := None |}.
Lemma tokenize_source_witness :
  tokenizeShell (line_source demo_line) = [["git"; "commit"; "-am"; "it's done"]; ["echo"; "git push; rm x"]] /\
  commandInvokes (line_source demo_line) (git "commit" (Some ["-m"])) = true /\
  commandInvokes (line_source demo_line) (git "push" None) = false.
Proof.
  split; [|split].
  - destruct (tokenize_source demo_line (git "push" None)) as [-> _]; [reflexivity|vm_compute; lia|reflexivity].
  - destruct (tokenize_source demo_line (git "commit" (Some ["-m"]))) as [_ ->]; [reflexivity|vm_compute; lia|reflexivity].
  - destruct (tokenize_source demo_line (git "push" None)) as [_ ->]; [reflexivity|vm_compute; lia|reflexivity].
Defined.

(** The read-only classifier splits neither at a single ampersand nor at a line
    feed, and sees neither substitutions nor verbs that write: these pass. *)
Lemma read_only_holes :
  Forall (fun c => isReadOnlyBash c = true)
    ["ls & rm -rf src"; "ls" +:+ char_text NEWLINE +:+ "rm -rf src"; "cat $(rm -rf src)"; "sed --in-place s/a/b/ f";
     "sort -o f g"].
Proof. repeat constructor. Qed.
