(* ===== verification/Safety.v ===== *)
(** * Guards on tool calls

    [src/src/runtime/guard/safety_policy.ts], [safety_floor.ts], [yolo.ts],
    [orchestrator_guard.ts] and [resource_floor.ts], [runtime/loop/write_lane.ts],
    [runtime/hooks/apply_patch.ts], [runtime/scope_audit_cache_key.ts] and
    [runtime/protected_paths.ts]: what a tool call may do before it runs.  A
    call's arguments are the fields of the JSON object the host sent. *)

From Stdlib Require Import Ascii String.
From stdpp Require Import base option list strings gmap.
From S2P Require Import Prelude Json ExprSyntax ExprEval Guard Regex Shell.
#[local] Open Scope os_scope.

Abbreviation Args := (list (string * Json)).
Definition arg_text (key : string) (args : Args) : option string :=
  match obj_get key args with Some (JStr s) => Some s | _ => None end.

(** ** The safety policy *)
Inductive Tier := hardline | dangerous.
Inductive Refinement := pipe_to_shell | delete_verb.
Record SafetyRule := {
  sr_id : option string; sr_tool : option string; sr_argPattern : string; sr_tier : Tier; sr_message : string;
  sr_match : option Refinement;
}.
Record AllowRule := { al_tool : option string; al_argPattern : string }.
Record SafetyPolicy := { sp_forbid : list SafetyRule; sp_allow : list AllowRule }.
Definition seed (id tool argPattern : string) (tier : Tier) (refinement : option Refinement) (message : string)
    : SafetyRule :=
  {| sr_id := Some id; sr_tool := Some tool; sr_argPattern := argPattern; sr_tier := tier; sr_message := message;
     sr_match := refinement |}.
Definition DEFAULT_SAFETY_POLICY : SafetyPolicy := {|
  sp_allow := [{| al_tool := Some "Write"; al_argPattern := "/.opensquid/context.md" |};
               {| al_tool := Some "Edit"; al_argPattern := "/.opensquid/context.md" |}];
  sp_forbid := [
    seed "rm-rf-root" "Bash" "rm -rf /" hardline None "recursive root delete is forbidden";
    seed "rm-rf-home" "Bash" "rm -rf ~" hardline None "recursive home delete is forbidden";
    seed "substrate-env-write" "Write" ".opensquid/.env" hardline None
      "writing the opensquid secret store (.env) is forbidden";
    seed "substrate-env-edit" "Edit" ".opensquid/.env" hardline None
      "editing the opensquid secret store (.env) is forbidden";
    seed "substrate-env-exfil" "Bash" ".opensquid/.env" hardline None
      "exfiltrating the opensquid secret store via a shell is forbidden";
    seed "substrate-delete" "Bash" ".opensquid/" hardline (Some delete_verb)
      "deleting opensquid substrate state is forbidden";
    seed "substrate-write" "Write" "/.opensquid/" dangerous None "writing opensquid substrate state";
    seed "substrate-edit" "Edit" "/.opensquid/" dangerous None "editing opensquid substrate state";
    seed "chmod-777" "Bash" "chmod 777" dangerous None "world-writable chmod is dangerous";
    seed "pipe-to-shell" "Bash" "curl" dangerous (Some pipe_to_shell)
      "piping a remote script to a shell is dangerous"] |}.
(** The policy file: absent, unreadable or not a policy is [None]. *)
Definition loadSafetyPolicy (file : option SafetyPolicy) : SafetyPolicy := default DEFAULT_SAFETY_POLICY file.

(** ** The safety floor *)
Record SafetyCall := { sc_tool : string; sc_args : Args }.
Record SafetyResult := { sf_action : Action; sf_message : option string; sf_ruleId : option string }.
Definition passed : SafetyResult := {| sf_action := APass; sf_message := None; sf_ruleId := None |}.
(** [toolMatches(tool, /^(A|B|...)$/)] *)
Definition toolMatchesAny (tool : string) (names : list string) : bool := existsb (toolMatches tool) names.
Definition or_else (s fallback : string) : string := if (s =? "")%string then fallback else s.
Definition actionText (call : SafetyCall) : string :=
  let str key := default "" (arg_text key (sc_args call)) in
  let all := stringify (JObj (sc_args call)) in
  sc_tool call +:+ " " +:+
  (if (sc_tool call =? "Bash")%string then or_else (str "command") all
   else if toolMatchesAny (sc_tool call) ["Write"; "Edit"; "NotebookEdit"] then str "file_path"
   else if (sc_tool call =? "Read")%string then or_else (str "file_path") all
   else all).
(** [/\|\s*(sh|bash)\b/] *)
Definition PIPE_TO_SHELL : re := cat [lit "|"; spaces; any_of [lit "sh"; lit "bash"]; Boundary].
(** [/\b(rm|unlink|shred|truncate)\b/] *)
Definition DELETE_VERB : re :=
  cat [Boundary; any_of [lit "rm"; lit "unlink"; lit "shred"; lit "truncate"]; Boundary].
(** [/>>?\s*[^\s|;&<>]*\.opensquid/] *)
Definition redirect_path_char (c : ascii) : bool := negb (is_space c || has_char c "|;&<>").
Definition SUBSTRATE_REDIRECT : re :=
  cat [lit ">"; opt (lit ">"); spaces; Star (Cls redirect_path_char); lit ".opensquid"].
Definition refined (refinement : option Refinement) (hay : string) : bool :=
  match refinement with
  | None => true
  | Some pipe_to_shell => re_test PIPE_TO_SHELL hay
  | Some delete_verb => re_test DELETE_VERB hay || re_test SUBSTRATE_REDIRECT hay
  end.
Definition scoped (tool : string) (rule_tool : option string) : bool :=
  match rule_tool with Some t => toolMatches tool t | None => true end.
Definition allow_hits (tool hay : string) (a : AllowRule) : bool :=
  scoped tool (al_tool a) && str_includes hay (al_argPattern a).
Definition forbid_hits (tool hay : string) (r : SafetyRule) : bool :=
  scoped tool (sr_tool r) && str_includes hay (sr_argPattern r) && refined (sr_match r) hay.
Definition denial (dangerousToWarn : bool) (r : SafetyRule) : SafetyResult :=
  {| sf_action := match sr_tier r with hardline => AHalt | dangerous => if dangerousToWarn then AWarn else ABlock end;
     sf_message := Some (sr_message r); sf_ruleId := Some (default (sr_argPattern r) (sr_id r)) |}.
Definition checkSafety (call : SafetyCall) (policy : SafetyPolicy) (dangerousToWarn : bool) : SafetyResult :=
  let hay := actionText call in
  if existsb (allow_hits (sc_tool call) hay) (sp_allow policy) then passed
  else match List.find (forbid_hits (sc_tool call) hay) (sp_forbid policy) with
       | Some r => denial dangerousToWarn r
       | None => passed
       end.

(** ** The coordinator and reviewer guards *)
(** [/\bsed\s[^|;&]*-i\b/] *)
Definition SED_IN_PLACE : re := cat [Boundary; lit "sed"; space; Star (none_of "|;&"); lit "-i"; Boundary].
(** [/(?<![0-9&])>>?(?!\s*&)/] *)
Definition FILE_REDIRECT : re :=
  cat [NotAfter (fun c => is_digit c || Ascii.eqb c "&"); lit ">"; opt (lit ">"); NotAhead (cat [spaces; lit "&"])].
Definition word_re (words : list string) : re := cat [Boundary; any_of (List.map lit words); Boundary].
Definition isAlwaysMutatingTool (tool : string) : bool := toolMatchesAny tool ["Write"; "Edit"; "NotebookEdit"].
Definition isMutatingBash (command : string) : bool :=
  re_test SED_IN_PLACE command || re_test FILE_REDIRECT command || re_test (word_re ["tee"]) command ||
  re_test (word_re ["cp"; "mv"]) command.
Definition isMutatingCall (tool : string) (args : Args) : bool :=
  isAlwaysMutatingTool tool ||
  (tool =? "Bash")%string && match arg_text "command" args with Some cmd => isMutatingBash cmd | None => false end.
(** [s.toLowerCase()], on the letters below 128. *)
Definition lower_char (c : ascii) : ascii :=
  if between 65 90 c then ascii_of_nat (nat_of_ascii c + 32) else c.
Fixpoint toLowerCase (s : string) : string :=
  match s with EmptyString => "" | String c s' => String (lower_char c) (toLowerCase s') end.
Definition isDocumentPath (path : string) : bool :=
  let p := toLowerCase path in
  str_ends_with p ".md" || str_ends_with p ".mdx" || starts_with p "docs/" || str_includes p "/docs/".
(** The path a file editor is given. *)
Definition editor_path (args : Args) : option string :=
  match arg_text "file_path" args with Some p => Some p | None => arg_text "notebook_path" args end.
Definition isCodeFileMutation (tool : string) (args : Args) : bool :=
  isMutatingCall tool args &&
  negb (isAlwaysMutatingTool tool && match editor_path args with Some p => isDocumentPath p | None => false end).
Inductive GuardActor := coordinator | stage_process | reviewer.
(** A denial carries its message. *)
Abbreviation GuardResult := (option string).
Definition DENY_MESSAGE : string :=
  "🦑 [coordinator guard] In this project the interactive coordinator may write DOCUMENTS only (docs/, *.md). " +:+
  "Writing a coding file requires explicit permission — run `/code-write` to flip `allow_code_write` in this " +:+
  "project’s orchestrator.json. Automated implementation belongs to the pack-authorized StageProcess.".
Definition REVIEWER_DENY_MESSAGE : string :=
  "🦑 [reviewer guard] Reviewers are bounded read-only processes and cannot invoke mutating or unknown tools.".
Definition REVIEWER_READ_TOOLS : list string :=
  ["read"; "grep"; "glob"; "webfetch"; "web_fetch"; "recall"; "read_state"; "workgraph_get"; "read_procedure";
   "read_rubric"; "stage_inject"].
Definition checkReviewerReadOnly (tool : string) (args : Args) : GuardResult :=
  let normalized := toLowerCase tool in
  let allowed :=
    if (normalized =? "bash")%string
    then match arg_text "command" args with Some cmd => isReadOnlyBash cmd | None => false end
    else set_has normalized REVIEWER_READ_TOOLS in
  if allowed then None else Some REVIEWER_DENY_MESSAGE.
Definition checkOrchestratorGuard (tool : string) (args : Args) (actor : GuardActor) (codeWritePermitted : bool)
    : GuardResult :=
  match actor with
  | stage_process => None
  | reviewer => checkReviewerReadOnly tool args
  | coordinator => if isCodeFileMutation tool args && negb codeWritePermitted then Some DENY_MESSAGE else None
  end.
Definition isDesignDoc (path : string) : bool :=
  str_includes path "docs/design/" && (str_ends_with path ".md" || str_ends_with path ".mdx").
Definition DESIGN_DENY_MESSAGE : string :=
  "🦑 [orchestrator guard] Design-doc rewrite blocked: the scope-audit verdict for this design doc is not " +:+
  "GUESS_FREE. Resolve the flagged architecture/guess issues (modularity, scalability, single-source-of-truth, " +:+
  "push-vs-pull), then rewrite.".
(** [readScopeVerdict] acts on an environment and may throw. *)
Definition checkDesignDocRewrite {E} (tool : string) (args : Args) (actor : GuardActor)
    (readScopeVerdict : E -> result string (option string) * E) (e : E) : GuardResult * E :=
  match actor with
  | stage_process => (None, e)
  | _ =>
      if negb (toolMatchesAny tool ["Write"; "Edit"]) then (None, e)
      else match arg_text "file_path" args with
           | Some fp =>
               if negb (isDesignDoc fp) then (None, e)
               else match readScopeVerdict e with
                    | (Ok (Some verdict), e) =>
                        (if str_includes verdict "VERDICT: GUESS_FREE" then None else Some DESIGN_DENY_MESSAGE, e)
                    | (_, e) => (None, e)
                    end
           | None => (None, e)
           end
  end.
(** Each character outside [[a-zA-Z0-9_-]] becomes an underscore. *)
Fixpoint safe_key (s : string) : string :=
  match s with
  | EmptyString => ""
  | String c s' => String (if is_word c || Ascii.eqb c "-" then c else "_") (safe_key s')
  end.
(** The suffix from the last occurrence of [marker], if there is one. *)
Fixpoint from_last (marker s : string) : option string :=
  match s with
  | EmptyString => if (marker =? "")%string then Some "" else None
  | String _ s' =>
      match from_last marker s' with
      | Some r => Some r
      | None => if starts_with s marker then Some s else None
      end
  end.
Definition scopeAuditCacheKey (filePath baseKey : string) : string :=
  if negb (isDesignDoc filePath) then baseKey
  else baseKey +:+ "-doc-" +:+ safe_key (default filePath (from_last "docs/design/" filePath)).

(** ** Write lanes *)
(** [minimatch(target, pattern, {dot})] *)
Class Globs := { glob : bool -> string -> string -> bool }.
Definition extractWritePath (tool : string) (args : Args) : option string :=
  if negb (isAlwaysMutatingTool tool) then None
  else match editor_path args with Some p => if (p =? "")%string then None else Some p | None => None end.
Definition matchesLane `{Globs} (path : string) (globs : list string) : bool :=
  existsb (fun g => glob true path g || glob true path ("**/" +:+ g)) globs.
Record LaneVerdict := { lv_checked : bool; lv_path : option string; lv_outOfLane : bool }.
Definition INERT : LaneVerdict := {| lv_checked := false; lv_path := None; lv_outOfLane := false |}.
Definition evaluateLane `{Globs} (writes : option (list string)) (tool : string) (args : Args) : LaneVerdict :=
  match writes with
  | None | Some [] => INERT
  | Some globs =>
      if negb (isMutatingCall tool args) then INERT
      else match extractWritePath tool args with
           | None => INERT
           | Some path => {| lv_checked := true; lv_path := Some path; lv_outOfLane := negb (matchesLane path globs) |}
           end
  end.
Definition laneBlockMessage (stage path : string) (writes : list string) : string :=
  "🦑 [write-lane] the " +:+ stage +:+ " stage may write only: " +:+ join_with ", " writes +:+ " — " +:+
  quoted path +:+ " is out of lane. Stay in this stage's lane, or advance the flow to the stage that owns this path.".

(** What is known of the session's engagement in the scope stage. *)
Inductive ScopeEngagement :=
| engaged (itemId stage : string) (writes : list string) | unengaged | indeterminate (itemId : option string) (reason : string).
Inductive EngagedWriteDecision := not_applicable | allow | deny (message : string).
Definition decideFullstackScopeWrite `{Globs} (engagement : ScopeEngagement) (tool : string) (args : Args)
    : EngagedWriteDecision :=
  match engagement with
  | unengaged => not_applicable
  | indeterminate itemId reason =>
      if isMutatingCall tool args
      then deny ("scope engagement is indeterminate" +:+
                 match itemId with None => "" | Some i => " for " +:+ i end +:+ ": " +:+ reason)
      else allow
  | engaged _ stage writes =>
      match evaluateLane (Some writes) tool args with
      | {| lv_checked := true; lv_path := Some path; lv_outOfLane := true |} =>
          deny (laneBlockMessage stage path writes)
      | _ => allow
      end
  end.

(** ** [apply_patch] *)
Inductive PatchKind := PatchAdd | PatchUpdate | PatchDelete.
Record PatchedFile := { pt_path : string; pt_kind : PatchKind; pt_content : string }.
Definition kind_word (k : PatchKind) : string :=
  match k with PatchAdd => "Add" | PatchUpdate => "Update" | PatchDelete => "Delete" end.
(** What follows the prefix [p]. *)
Fixpoint from_prefix (p s : string) : option string :=
  match p, s with
  | EmptyString, _ => Some s
  | String a p', String b s' => if Ascii.eqb a b then from_prefix p' s' else None
  | String _ _, EmptyString => None
  end.
(** [/^\*\*\* (Add|Update|Delete) File: (.+)$/]: [.] matches no line end. *)
Definition marker (line : string) : option (PatchKind * string) :=
  head (omap (fun k =>
    match from_prefix ("*** " +:+ kind_word k +:+ " File: ") line with
    | Some path => if negb (path =? "")%string && all_chars (fun c => negb (is_newline c)) path
                   then Some (k, path) else None
    | None => None
    end) [PatchAdd; PatchUpdate; PatchDelete]).
Definition patch_content (k : PatchKind) (lines : list string) : string :=
  let nl := String NEWLINE "" in
  match k with
  | PatchAdd => join_with nl (omap (fun l => match l with String "+" r => Some r | _ => None end) lines)
  | PatchUpdate => "<apply_patch update — content below is the hunk diff, not the final artifact>" +:+ nl +:+
                   join_with nl lines
  | PatchDelete => "<apply_patch delete — content below is the hunk diff, not the final artifact>" +:+ nl +:+
                   join_with nl lines
  end.
(** [cur]: the open section's kind and path, and its lines. *)
Definition flush (cur : option (PatchKind * string * list string)) : list PatchedFile :=
  match cur with
  | Some (k, path, lines) => [{| pt_path := path; pt_kind := k; pt_content := patch_content k lines |}]
  | None => []
  end.
Fixpoint patch_sections (lines : list string) (cur : option (PatchKind * string * list string)) : list PatchedFile :=
  match lines with
  | [] => flush cur
  | line :: rest =>
      match marker line with
      | Some (k, path) => flush cur ++ patch_sections rest (Some (k, path, []))
      | None =>
          match cur with
          | Some (k, path, body) =>
              if starts_with line "*** End Patch" then patch_sections rest cur
              else patch_sections rest (Some (k, path, body ++ [line]))
          | None => patch_sections rest None
          end
      end
  end.
Definition parseApplyPatch (command : string) : list PatchedFile :=
  List.filter (fun f => negb (pt_path f =? "")%string) (patch_sections (split_char NEWLINE command) None).

(** ** Documents *)
Definition PROTECTED_PREFIXES : list string := ["src/"; "packs/"; "test/"].
Definition isDocsOnly (files : list string) : bool :=
  match files with
  | [] => false
  | _ => forallb (fun f => negb (existsb (starts_with f) PROTECTED_PREFIXES)) files
  end.

(** ** The resource floor *)
Record ResourceConfig := { rc_cap : Z; rc_warnOffset : Z }.
(** One iteration: the new count and the action. *)
Definition observe_iteration (cfg : ResourceConfig) (count : Z) : Z * Action :=
  let count := (count + 1)%Z in
  (count, if Z.leb (rc_cap cfg) count then AHalt
          else if Z.leb (rc_cap cfg - rc_warnOffset cfg) count then AWarn else APass).
