(* ===== verification/Yolo.v ===== *)
(** * The mode for dangerous calls

    [src/src/runtime/guard/yolo.ts]: where the mode is read from, and how it is
    set.  A configuration file is its parsed contents; [join]ed paths are
    already normal; writes succeed. *)

From Stdlib Require Import Ascii String.
From stdpp Require Import base option list strings gmap fin_maps.
From S2P Require Import Prelude Json ExprSyntax Safety.

Definition TRUTHY : list string := ["1"; "true"; "on"; "yes"].
Definition FALSY : list string := ["0"; "false"; "off"; "no"].
Inductive YoloScope := scope_global | scope_project.
(** A file's contents; [None] when they are not JSON. *)
Abbreviation Files := (gmap string (option Json)).
Record YoloStatus := { ys_on : bool; ys_env : option bool; ys_project : option bool; ys_global : option bool }.

Section Yolo.
(** The home, the project scope of a directory, [OPENSQUID_YOLO]. *)
Context (home : string) (resolveProjectScopeRoot : string -> option string) (env : option string).
Definition globalConfigPath : string := home +:+ "/config.json".
Definition projectConfigPath (cwd : string) : option string :=
  (fun root => root +:+ "/config.json") <$> resolveProjectScopeRoot cwd.
Definition readYoloField (path : option string) (fs : Files) : option bool :=
  match path ≫= fun p => fs !! p with
  | Some (Some (JObj o)) => match obj_get "yolo" o with Some (JBool b) => Some b | _ => None end
  | _ => None
  end.
Definition envYolo : option bool :=
  match env with
  | Some raw =>
      let v := toLowerCase (trim raw) in
      if set_has v TRUTHY then Some true else if set_has v FALSY then Some false else None
  | None => None
  end.
Definition yoloMarkerPath : string := home +:+ "/yolo".
Definition legacyMarkerOn (fs : Files) : bool := bool_decide (is_Some (fs !! yoloMarkerPath)).
Definition isYoloMode (cwd : string) (fs : Files) : bool :=
  match envYolo with
  | Some b => b
  | None =>
      match readYoloField (projectConfigPath cwd) fs with
      | Some b => b
      | None =>
          match readYoloField (Some globalConfigPath) fs with
          | Some b => b
          | None => legacyMarkerOn fs
          end
      end
  end.
(** The fields of an array are not printed by [JSON.stringify]. *)
Definition writeYoloField (path : string) (on : bool) (fs : Files) : Files :=
  let written o :=
    let o := match obj_get "version" o with None => obj_set "version" (JNum 1) o | Some _ => o end in
    JObj (obj_set "yolo" (JBool on) o) in
  <[path := Some match fs !! path with
                 | Some (Some (JObj o)) => written o
                 | Some (Some (JArr l)) => JArr l
                 | _ => written []
                 end]> fs.
(** The path written, and the files. *)
Definition setYolo (on : bool) (scope : YoloScope) (cwd : string) (fs : Files) : string * Files :=
  match scope with
  | scope_project =>
      let path := default (cwd +:+ "/.opensquid") (resolveProjectScopeRoot cwd) +:+ "/config.json" in
      (path, writeYoloField path on fs)
  | scope_global => (globalConfigPath, delete yoloMarkerPath (writeYoloField globalConfigPath on fs))
  end.
Definition yoloStatus (cwd : string) (fs : Files) : YoloStatus :=
  let project := readYoloField (projectConfigPath cwd) fs in
  let global := readYoloField (Some globalConfigPath) fs in
  {| ys_on := match envYolo, project, global with
              | Some b, _, _ | None, Some b, _ | None, None, Some b => b
              | None, None, None => legacyMarkerOn fs
              end;
     ys_env := envYolo; ys_project := project; ys_global := global |}.

Lemma yoloStatus_on cwd fs : ys_on (yoloStatus cwd fs) = isYoloMode cwd fs.
Proof. unfold yoloStatus, isYoloMode. cbn. by repeat case_match. Qed.

Definition not_array (path : string) (fs : Files) : Prop := forall l, fs !! path <> Some (Some (JArr l)).
Lemma writeYoloField_read path on fs : not_array path fs -> readYoloField (Some path) (writeYoloField path on fs) = Some on.
Proof.
  intros Hn. unfold readYoloField, writeYoloField. cbn [mbind option_bind]. rewrite lookup_insert_eq.
  destruct (fs !! path) as [[[| | | |l|o]|]|] eqn:Ef; try (cbn; done); [by destruct (Hn l)|].
  by rewrite obj_get_set_eq.
Qed.
Lemma writeYoloField_keeps path on fs o k : fs !! path = Some (Some (JObj o)) -> k <> "yolo" -> is_Some (obj_get k o) ->
  exists o', writeYoloField path on fs !! path = Some (Some (JObj o')) /\ obj_get k o' = obj_get k o.
Proof.
  intros Hf Hk Hs. unfold writeYoloField. rewrite Hf, lookup_insert_eq. eexists. split; [done|].
  rewrite obj_get_set_ne by done. destruct (obj_get "version" o) eqn:Ev; [done|].
  destruct (decide (k = "version")) as [->|]; [by rewrite Ev in Hs; destruct Hs|by rewrite obj_get_set_ne].
Qed.
Lemma home_paths_differ : globalConfigPath <> yoloMarkerPath.
Proof. intros H. by apply string_app_inj_l in H. Qed.

(** Setting the mode sets it: with no override in the environment, a project's
    setting is what its directories see, the global one what every project
    without a setting of its own sees; other fields and files stay. *)
Lemma setYolo_effective (on : bool) (scope : YoloScope) (cwd : string) (fs : Files) :
  let path := (setYolo on scope cwd fs).1 in
  let fs' := (setYolo on scope cwd fs).2 in
  envYolo = None -> not_array path fs -> (scope = scope_project -> is_Some (resolveProjectScopeRoot cwd)) ->
  match scope with
  | scope_project => isYoloMode cwd fs' = on
  | scope_global => readYoloField (projectConfigPath cwd) fs' = None -> isYoloMode cwd fs' = on
  end /\
  (forall p, p <> path -> p <> yoloMarkerPath -> fs' !! p = fs !! p) /\
  (forall o k, fs !! path = Some (Some (JObj o)) -> k <> "yolo" -> is_Some (obj_get k o) ->
     exists o', fs' !! path = Some (Some (JObj o')) /\ obj_get k o' = obj_get k o).
Proof.
  cbv zeta. intros He Hn Hroot. destruct scope; cbn [setYolo fst snd] in *; split_and!.
  - intros Hp. unfold isYoloMode. rewrite He, Hp. unfold readYoloField at 1. cbn [mbind option_bind].
    rewrite lookup_delete_ne by (symmetry; apply home_paths_differ).
    pose proof (writeYoloField_read globalConfigPath on fs Hn) as Hr. unfold readYoloField in Hr. cbn in Hr. by rewrite Hr.
  - intros p H1 H2. rewrite lookup_delete_ne by done. unfold writeYoloField. by rewrite lookup_insert_ne.
  - intros o k Hf Hk Hs. destruct (writeYoloField_keeps _ on _ _ _ Hf Hk Hs) as (o' & H1 & H2). exists o'. split; [|done].
    by rewrite lookup_delete_ne by (symmetry; apply home_paths_differ).
  - unfold isYoloMode. rewrite He. unfold projectConfigPath. destruct (Hroot eq_refl) as [root Hr]. rewrite Hr in *.
    cbn [fmap option_fmap option_map default] in *. by rewrite writeYoloField_read.
  - intros p H1 _. unfold writeYoloField. by rewrite lookup_insert_ne.
  - intros o k Hf Hk Hs. by apply writeYoloField_keeps.
Qed.
(** A configuration that is a JSON array swallows the setting. *)
Lemma array_config_ignores_setting (l : list Json) (on : bool) (fs : Files) :
  fs !! globalConfigPath = Some (Some (JArr l)) ->
  readYoloField (Some globalConfigPath) (setYolo on scope_global "" fs).2 = None.
Proof.
  intros Hf. unfold readYoloField. cbn [setYolo snd mbind option_bind].
  rewrite lookup_delete_ne by (symmetry; apply home_paths_differ). unfold writeYoloField. by rewrite lookup_insert_eq, Hf.
Qed.
End Yolo.
