(* ===== verification/CapabilityGate.v ===== *)
(** * The capability gate

    [src/src/runtime/capability_gate.ts], [runtime/builtin_denylist.ts] and the
    grant guard of [setup/cli/permissions_state.ts]: which requests of a pack
    the gate allows, and that nothing but the environment flag opens the sealed
    denylist.  Globs and URL parsing are interfaces; the prompt and the audit
    sink act on an environment and may throw. *)

From Stdlib Require Import Ascii String.
From stdpp Require Import base option list strings.
From S2P Require Import Prelude Json ExprSyntax ExprEval Regex Safety.
#[local] Open Scope os_scope.

(** ** The sealed denylist *)
Definition blanks_then (r : re) : re := cat [spaces; r].
(** Each pattern with its [source]. *)
Definition BUILTIN_SHELL_DENY : list (string * re) := [
  ("\brm\s+-rf\s+\/(?:\s|$|\*)",
   cat [Boundary; lit "rm"; spaces1; lit "-rf"; spaces1; lit "/"; any_of [space; Eol; lit "*"]]);
  ("\brm\s+-rf\s+--no-preserve-root\b",
   cat [Boundary; lit "rm"; spaces1; lit "-rf"; spaces1; lit "--no-preserve-root"; Boundary]);
  (":\s*\(\s*\)\s*\{\s*:\s*\|\s*:\s*&\s*\}\s*;\s*:",
   cat (lit ":" :: List.map (fun c => blanks_then (lit c)) ["("; ")"; "{"; ":"; "|"; ":"; "&"; "}"; ";"; ":"]));
  ("\bdd\s+(?:[^|;&]*\s+)?if=\/dev\/(?:zero|random|urandom)\s+(?:[^|;&]*\s+)?of=\/dev\/sd",
   cat [Boundary; lit "dd"; spaces1; opt (cat [Star (none_of "|;&"); spaces1]); lit "if=/dev/";
        any_of [lit "zero"; lit "random"; lit "urandom"]; spaces1; opt (cat [Star (none_of "|;&"); spaces1]);
        lit "of=/dev/sd"]);
  (">\s*\/dev\/sd[a-z]", cat [lit ">"; spaces; lit "/dev/sd"; Cls (between 97 122)]);
  ("\bchmod\s+(?:-R\s+)?(?:[ugoa]*[=+]\s*)?(?:[ugoa]*7+\s|7{3,4}\s|7{3,4}$)",
   cat [Boundary; lit "chmod"; spaces1; opt (cat [lit "-R"; spaces1]);
        opt (cat [Star (one_of "ugoa"); one_of "=+"; spaces]);
        any_of [cat [Star (one_of "ugoa"); plus (lit "7"); space];
                cat [lit "777"; opt (lit "7"); space]; cat [lit "777"; opt (lit "7"); Eol]]]);
  ("\bchmod\s+(?:-R\s+)?[0-7]?777\b",
   cat [Boundary; lit "chmod"; spaces1; opt (cat [lit "-R"; spaces1]); opt (Cls (between 48 55)); lit "777"; Boundary]);
  ("\bcurl\s+[^|;&]+\|\s*(?:sh|bash|zsh)\b",
   cat [Boundary; lit "curl"; spaces1; plus (none_of "|;&"); lit "|"; spaces;
        any_of [lit "sh"; lit "bash"; lit "zsh"]; Boundary]);
  ("\bwget\s+[^|;&]+\|\s*(?:sh|bash|zsh)\b",
   cat [Boundary; lit "wget"; spaces1; plus (none_of "|;&"); lit "|"; spaces;
        any_of [lit "sh"; lit "bash"; lit "zsh"]; Boundary]);
  ("\beval\s+[" +:+ String DQUOTE "']?\$\(",
   cat [Boundary; lit "eval"; spaces1; opt (one_of (String DQUOTE "'")); lit "$("]);
  ("\bmkfs(?:\.[a-z0-9]+)?\s+\/dev\/sd",
   cat [Boundary; lit "mkfs"; opt (cat [lit "."; plus (Cls (fun c => between 97 122 c || is_digit c))]); spaces1;
        lit "/dev/sd"]);
  ("\b(?:shutdown|halt|poweroff|reboot)\s+(?:-[a-z]+\s+)*(?:now|0|-h\s+now)\b",
   cat [Boundary; any_of [lit "shutdown"; lit "halt"; lit "poweroff"; lit "reboot"]; spaces1;
        Star (cat [lit "-"; plus (Cls (between 97 122)); spaces1]);
        any_of [lit "now"; lit "0"; cat [lit "-h"; spaces1; lit "now"]]; Boundary])].
Definition SHELL_METACHARACTERS : list string := [";"; "&&"; "||"; "`"; "$("; "|"; ">"; ">>"; "<("].
Definition BUILTIN_PATH_DENY : list string :=
  ["/etc/**"; "/usr/**"; "/bin/**"; "/sbin/**"; "/boot/**"; "/System/**"; "/Library/**"; "/dev/**"; "/proc/**";
   "/sys/**"; "~/.ssh/**"; "~/.aws/credentials"; "~/.aws/config"; "~/.config/op/**"; "~/.kube/config"; "~/.gnupg/**";
   "~/.docker/config.json"].
Definition BUILTIN_CHANNEL_DENY : list string := [].
Definition BUILTIN_BINARY_DENY : list string := [].
Definition BUILTIN_SUBAGENT_DENY : list string := [].
Definition trustBuiltinDeny (env : option string) : bool := negb (bool_decide (env = Some "0")).

(** ** Paths: [path.resolve] *)
Fixpoint normal_segments (todo done : list string) : list string :=
  match todo with
  | [] => rev done
  | s :: rest =>
      if (s =? "")%string || (s =? ".")%string then normal_segments rest done
      else if (s =? "..")%string then normal_segments rest (tail done)
      else normal_segments rest (s :: done)
  end.
(** [resolve(base, path)] for an absolute [base]. *)
Definition resolve_from (base path : string) : string :=
  let full := if starts_with path "/" then path else base +:+ "/" +:+ path in
  "/" +:+ join_with "/" (normal_segments (split_char "/" full) []).
Definition expandHome (path home : string) : string :=
  if (path =? "~")%string then home
  else match from_prefix "~/" path with Some rest => resolve_from home rest | None => path end.

(** ** Requests and permissions *)
Inductive Capability := shell_exec | http_request | file_write | send_message | subprocess_call | subagent_call.
#[export] Instance Capability_eq_dec : EqDecision Capability.
Proof. solve_decision. Defined.
Definition capability_text (c : Capability) : string :=
  match c with
  | shell_exec => "shell_exec" | http_request => "http_request" | file_write => "file_write"
  | send_message => "send_message" | subprocess_call => "subprocess_call" | subagent_call => "subagent_call"
  end.
Record CapabilityRequest := {
  cr_pack : string; cr_capability : Capability; cr_target : string; cr_method : option string;
}.
Inductive VerdictSource := declared | user_approved | user_override | denied_ | denylist.
Record CapabilityVerdict := { cv_allowed : bool; cv_source : VerdictSource; cv_message : string }.
(** One capability's block: its allowlist ([commands], [domains], [paths],
    [channels], [binaries] or [targets]), the methods of [http_request], and
    the pack's own denials.  The schema fills every list. *)
Record PermBlock := { pb_allow : list string; pb_methods : list string; pb_deny : list string }.
Abbreviation PermissionsType := (Capability -> option PermBlock).
Record UserOverride := { uo_pack : string; uo_capability : Capability; uo_target : string }.
(** [new URL(target).hostname]; [None] when it does not parse. *)
Class Urls := { url_hostname : string -> option string }.
Definition matchHostname (hostname pattern : string) : bool :=
  (pattern =? hostname)%string ||
  match from_prefix "*." pattern with Some suffix => str_ends_with hostname ("." +:+ suffix) | None => false end.
Definition hasMeta (target : string) : bool := existsb (str_includes target) SHELL_METACHARACTERS.
Definition matches_text (label pattern : string) : string := label +:+ ": matches " +:+ quoted pattern.

Section Gate.
Context {E : Type} `{Globs} `{Urls}.
Context (packs : string -> option PermissionsType) (trustDeny : bool) (homeDir cwd : string)
  (overrides : list UserOverride)
  (prompt : option (CapabilityRequest -> E -> result string bool * E))
  (auditLog : CapabilityVerdict -> CapabilityRequest -> E -> E).

Definition resolve_path (path : string) : string := resolve_from cwd (expandHome path homeDir).
Definition path_matches (target pattern : string) : bool := glob true (resolve_path target) (resolve_path pattern).
(** The first pattern that matches. *)
Definition matchPathList (target : string) (patterns : list string) (label : string) : option string :=
  matches_text label <$> List.find (path_matches target) patterns.
Definition matchGlobList (target : string) (patterns : list string) (label : string) : option string :=
  matches_text label <$> List.find (glob false target) patterns.
Definition matchBuiltinDeny (req : CapabilityRequest) : option string :=
  let target := cr_target req in
  match cr_capability req with
  | shell_exec =>
      (fun p => "built-in shell deny: matches " +:+ p.1) <$> List.find (fun p => re_test p.2 target) BUILTIN_SHELL_DENY
  | file_write => matchPathList target BUILTIN_PATH_DENY "built-in path deny"
  | send_message => matchGlobList target BUILTIN_CHANNEL_DENY "built-in channel deny"
  | subprocess_call => matchGlobList target BUILTIN_BINARY_DENY "built-in binary deny"
  | subagent_call => matchGlobList target BUILTIN_SUBAGENT_DENY "built-in subagent deny"
  | http_request =>
      match url_hostname target with Some _ => None | None => Some ("invalid URL " +:+ quoted target) end
  end.
Definition matchPackDeny (req : CapabilityRequest) (block : PermBlock) : option string :=
  match cr_capability req with
  | shell_exec => matchGlobList (cr_target req) (pb_deny block) "pack-local shell deny"
  | file_write => matchPathList (cr_target req) (pb_deny block) "pack-local path deny"
  | _ => matchGlobList (cr_target req) (pb_deny block) "pack-local deny"
  end.
Definition override_hit (req : CapabilityRequest) (o : UserOverride) : option string :=
  let target := cr_target req in
  if negb (uo_pack o =? cr_pack req)%string || negb (bool_decide (uo_capability o = cr_capability req)) then None
  else match cr_capability req with
       | http_request =>
           match url_hostname target with
           | Some h => if matchHostname h (uo_target o)
                       then Some ("user override: " +:+ h +:+ " matches " +:+ quoted (uo_target o)) else None
           | None => None
           end
       | file_write =>
           if path_matches target (uo_target o) then Some (matches_text "user override" (uo_target o)) else None
       | shell_exec =>
           if (uo_target o =? target)%string then Some ("user override exact: " +:+ quoted (uo_target o))
           else if negb (hasMeta target) && glob false target (uo_target o)
           then Some ("user override glob: " +:+ quoted (uo_target o)) else None
       | _ => if glob false target (uo_target o) then Some (matches_text "user override" (uo_target o)) else None
       end.
Definition matchOverride (req : CapabilityRequest) : option string := head (omap (override_hit req) overrides).
(** [s.toUpperCase()], on the letters below 128. *)
Fixpoint toUpperCase (s : string) : string :=
  match s with
  | EmptyString => ""
  | String c s' => String (if between 97 122 c then ascii_of_nat (nat_of_ascii c - 32) else c) (toUpperCase s')
  end.
Definition matchAllowlist (req : CapabilityRequest) (block : PermBlock) : option string :=
  let target := cr_target req in
  match cr_capability req with
  | shell_exec =>
      match List.find (fun c => (c =? target)%string) (pb_allow block) with
      | Some exact => Some ("shell allowlist exact: " +:+ quoted exact)
      | None =>
          if hasMeta target then None
          else (fun p => "shell allowlist glob: " +:+ quoted p) <$> List.find (glob false target) (pb_allow block)
      end
  | http_request =>
      match url_hostname target with
      | None => None
      | Some h =>
          let method := toUpperCase (default "GET" (cr_method req)) in
          if negb (set_has method (pb_methods block)) then None
          else (fun p => "http allowlist: " +:+ h +:+ " matches " +:+ quoted p +:+ " (" +:+ method +:+ ")") <$>
               List.find (matchHostname h) (pb_allow block)
      end
  | file_write => matchPathList target (pb_allow block) "file allowlist"
  | send_message => matchGlobList target (pb_allow block) "channel allowlist"
  | subprocess_call => matchGlobList target (pb_allow block) "binary allowlist"
  | subagent_call => matchGlobList target (pb_allow block) "subagent allowlist"
  end.
Definition verdict (allowed : bool) (source : VerdictSource) (message : string) : CapabilityVerdict :=
  {| cv_allowed := allowed; cv_source := source; cv_message := message |}.
(** What the sink throws is swallowed. *)
Definition audit (v : CapabilityVerdict) (req : CapabilityRequest) (e : E) : CapabilityVerdict * E :=
  (v, auditLog v req e).
Definition handleUndeclared (req : CapabilityRequest) (e : E) : CapabilityVerdict * E :=
  let cap := quoted (capability_text (cr_capability req)) in
  match prompt with
  | None => audit (verdict false denied_ ("undeclared " +:+ cap +:+ " for pack " +:+ quoted (cr_pack req) +:+
                                          " (non-interactive)")) req e
  | Some ask =>
      match ask req e with
      | (Ok true, e) => audit (verdict true user_approved ("user approved " +:+ cap +:+ " → " +:+ quoted (cr_target req))) req e
      | (Ok false, e) => audit (verdict false denied_ ("user denied " +:+ cap +:+ " → " +:+ quoted (cr_target req))) req e
      | (Err x, e) => audit (verdict false denied_ ("prompt threw — deny (C10): " +:+ x)) req e
      end
  end.
Definition block_for (req : CapabilityRequest) : option PermBlock :=
  packs (cr_pack req) ≫= fun permissions => permissions (cr_capability req).
Definition check (req : CapabilityRequest) (e : E) : CapabilityVerdict * E :=
  let block := block_for req in
  match (if trustDeny then matchBuiltinDeny req else None) with
  | Some m => audit (verdict false denylist m) req e
  | None =>
      match block ≫= matchPackDeny req with
      | Some m => audit (verdict false denylist m) req e
      | None =>
          match matchOverride req with
          | Some m => audit (verdict true user_override m) req e
          | None =>
              match block ≫= matchAllowlist req with
              | Some m => audit (verdict true declared m) req e
              | None => handleUndeclared req e
              end
          end
      end
  end.

(** ** Granting an override *)
Definition resolveHome (path : string) : string :=
  if (path =? "~")%string then resolve_from cwd homeDir
  else match from_prefix "~/" path with Some rest => resolve_from homeDir rest | None => resolve_from cwd path end.
(** Whether a grant is refused; the message is left out. *)
Definition denylistRejectionFor (capability : Capability) (target : string) : bool :=
  trustDeny &&
  match capability with
  | shell_exec => existsb (fun p => re_test p.2 target) BUILTIN_SHELL_DENY
  | file_write => existsb (fun pattern => glob true (resolveHome target) (resolveHome pattern)) BUILTIN_PATH_DENY
  | send_message => existsb (glob false target) BUILTIN_CHANNEL_DENY
  | subprocess_call => existsb (glob false target) BUILTIN_BINARY_DENY
  | subagent_call => existsb (glob false target) BUILTIN_SUBAGENT_DENY
  | http_request => false
  end.
End Gate.
