(* ===== verification/PreTool.v ===== *)
(** * Before a tool call

    [src/src/runtime/hooks/lifecycle/pre_tool_call.ts]: the guards a tool call
    passes before it runs, in their order, and which failures open and which
    close them.  The injected dependencies are the class [PreToolOps]. *)

From Stdlib Require Import Ascii String.
From stdpp Require Import base option list strings.
From S2P Require Import Prelude Json ExprSyntax ExprEval Guard Shell Safety Skills Dispatch.
#[local] Open Scope os_scope.

Record ToolCall := { tc_tool : string; tc_args : Args; tc_cwd : option string }.
(** An audit a loaded cartridge declares. *)
Record AuditBinding := { ab_subject : string; ab_cache_key : string }.
Record SkillHostResult := { sh_exitCode : nat; sh_stderr : string; sh_injections : list string }.
Record V2Decision := { v2_exitCode : nat; v2_messages : list string }.
(** The session, the clock and the transcript are fixed for one call.  A
    dependency may throw. *)
Class PreToolOps (E : Type) := {
  po_appendTool : string -> option string -> E -> result string unit * E;
  po_recordSessionCwd : string -> E -> result string unit * E;
  po_mirrorActiveTask : string -> Args -> E -> result string unit * E;
  po_runHarnessGraphSync : string -> Args -> E -> result string (option string) * E;
  po_loadSafetyPolicy : E -> result string SafetyPolicy * E;
  po_isYoloMode : string -> E -> result string bool * E;
  po_appendDrift : string -> string -> string -> E -> result string unit * E;
  po_scopeEngagement : string -> E -> result string ScopeEngagement * E;
  po_declaresDocsOnly : string -> E -> result string bool * E;
  po_scopeRoot : string -> E -> result string (option string) * E;
  po_allowCodeWrite : string -> E -> result string bool * E;
  po_legacyFlag : string -> E -> bool;
  po_auditBindings : E -> result string (list AuditBinding) * E;
  po_scopeVerdict : string -> E -> result string (option string) * E;
  po_loadDispatch : E -> result string unit * E;
  po_dispatchEvent : ToolCall -> E -> result string DispatchResult * E;
  po_runV2SkillHost : ToolCall -> E -> result string SkillHostResult * E;
  po_runV2Cartridges : ToolCall -> E -> result string V2Decision * E;
}.
Inductive Role := interactive | role_stage_process | role_reviewer.
Record PreToolDecision := {
  pd_block : bool; pd_reason : option string; pd_injections : list string; pd_diagnostics : list string;
}.
Definition blocked (reason : string) (diagnostics : list string) : PreToolDecision :=
  {| pd_block := true; pd_reason := Some reason; pd_injections := []; pd_diagnostics := diagnostics |}.
Definition proceed (injections diagnostics : list string) : PreToolDecision :=
  {| pd_block := false; pd_reason := None; pd_injections := injections; pd_diagnostics := diagnostics |}.

Section PreTool.
Context {E : Type} `{Ops : PreToolOps E} `{Globs} (role : Role) (actor : GuardActor) (ctx_cwd : string)
  (isAutomation : bool).
Abbreviation Act A := (E -> result string A * E).
(** [x ← m; k] where a throw ends the computation. *)
Definition and_then {A B} (m : Act A) (k : A -> Act B) : Act B := fun e =>
  match m e with (Ok a, e) => k a e | (Err x, e) => (Err x, e) end.
Definition returns {A} (a : A) : Act A := fun e => (Ok a, e).
(** [try { await op } catch (error) { diagnostics.push(what + error) }] *)
Definition noted {A} (what : string) (op : Act A) (e : E) : option A * list string * E :=
  match op e with (Ok a, e) => (Some a, [], e) | (Err x, e) => (None, [what +:+ x], e) end.

(** Ledger, session cwd, task mirror, graph sync: the sync's instruction, and
    what failed. *)
Definition bookkeeping (call : ToolCall) (e : E) : option string * list string * E :=
  let '(_, d1, e) := noted "opensquid: tool-ledger append failed — "
    (po_appendTool (tc_tool call) (arg_text "command" (tc_args call))) e in
  let '(d2, e) := match tc_cwd call with
                  | Some cwd =>
                      if (cwd =? "")%string then ([], e)
                      else let '(_, d, e) := noted "opensquid: session-cwd record failed — " (po_recordSessionCwd cwd) e in
                           (d, e)
                  | None => ([], e)
                  end in
  let '(_, d3, e) := noted "opensquid: active-task mirror failed — "
    (po_mirrorActiveTask (tc_tool call) (tc_args call)) e in
  let '(instruction, d4, e) := noted "opensquid: harness→work-graph sync failed — "
    (po_runHarnessGraphSync (tc_tool call) (tc_args call)) e in
  (instruction ≫= id, d1 ++ d2 ++ d3 ++ d4, e).

Definition cwd_of (call : ToolCall) : string := default ctx_cwd (tc_cwd call).
(** The text of a patch, and its files. *)
Definition patch_command (call : ToolCall) : option string :=
  if (tc_tool call =? "apply_patch")%string then arg_text "command" (tc_args call) else None.
Definition parsed_patch (call : ToolCall) : option (list PatchedFile) := parseApplyPatch <$> patch_command call.

(** The safety floor; a reason to block, or what to report.  A policy or mode
    that cannot be read opens it. *)
Definition safety_stage (call : ToolCall) (e : E) : option string * list string * E :=
  let attempt := and_then po_loadSafetyPolicy (fun policy =>
                 and_then (po_isYoloMode (cwd_of call)) (fun yolo =>
                 returns (checkSafety {| sc_tool := tc_tool call; sc_args := tc_args call |} policy yolo))) in
  match attempt e with
  | (Err _, e) => (None, [], e)
  | (Ok v, e) =>
      match sf_action v with
      | ABlock | AHalt => (Some ("🦑 [safety floor] " +:+ default "forbidden action" (sf_message v)), [], e)
      | AWarn =>
          (None, ["🦑 [safety floor · YOLO] " +:+ default "dangerous action" (sf_message v) +:+
                  " — allowed (block→warn). hardline rules (rm -rf, substrate delete, .env) still enforced."],
           (po_appendDrift (cwd_of call) ("safety:" +:+ default "dangerous" (sf_ruleId v))
              (default "" (sf_message v)) e).2)
      | APass => (None, [], e)
      end
  end.

(** The writes a call makes, as calls of an editor. *)
Definition patched_call (f : PatchedFile) : string * Args :=
  ("Write", [("file_path", JStr (pt_path f)); ("content", JStr (pt_content f))]).
Definition normalizedWrites (call : ToolCall) : list (string * Args) :=
  match parsed_patch call with
  | None => [(tc_tool call, tc_args call)]
  | Some files => List.map patched_call files
  end.
Definition scope_denials (engagement : ScopeEngagement) (writes : list (string * Args)) : list string :=
  omap (fun w => match decideFullstackScopeWrite engagement w.1 w.2 with deny m => Some m | _ => None end) writes.
(** While a scope is engaged, or cannot be told, its lane and the coordinator's. *)
Definition scope_stage (call : ToolCall) (e : E) : option string * E :=
  let '(engagement, e) := match po_scopeEngagement (cwd_of call) e with
                          | (Ok s, e) => (s, e)
                          | (Err x, e) => (indeterminate None x, e)
                          end in
  match engagement with
  | unengaged => (None, e)
  | _ =>
      if (tc_tool call =? "apply_patch")%string && match parsed_patch call with None | Some [] => true | _ => false end
      then (Some "scope engagement cannot verify an apply_patch with no extractable target", e)
      else match scope_denials engagement (normalizedWrites call) with
           | m :: _ => (Some m, e)
           | [] => (checkOrchestratorGuard (tc_tool call) (tc_args call) actor false, e)
           end
  end.

Definition readScopeVerdict (call : ToolCall) : Act (option string) :=
  and_then po_auditBindings (fun bindings =>
  match List.filter (fun b => (ab_subject b =? "approved_artifact")%string) bindings with
  | [b] => po_scopeVerdict (scopeAuditCacheKey (default "" (arg_text "file_path" (tc_args call))) (ab_cache_key b))
  | _ => returns None
  end).
(** The coordinator of a project that asks for documents only. *)
Definition docs_attempt (call : ToolCall) : Act GuardResult :=
  and_then (po_declaresDocsOnly (cwd_of call)) (fun docs_only =>
  if negb docs_only then returns None
  else
    and_then (po_scopeRoot (cwd_of call)) (fun root =>
    and_then match root with Some r => po_allowCodeWrite r | None => returns false end (fun by_config e =>
    let by_flag := match root with Some r => po_legacyFlag r e | None => false end in
    match checkOrchestratorGuard (tc_tool call) (tc_args call) actor (by_config || by_flag) with
    | Some m => (Ok (Some m), e)
    | None =>
        let '(design, e) := checkDesignDocRewrite (tc_tool call) (tc_args call) actor (readScopeVerdict call) e in
        (Ok design, e)
    end))).
Definition docs_stage (call : ToolCall) (e : E) : option string * E :=
  match docs_attempt call e with (Ok r, e) => (r, e) | (Err _, e) => (None, e) end.

Definition nonempty (s : string) : bool := negb (s =? "")%string.
(** A patch is dispatched as one write per file. *)
Fixpoint dispatch_patch (call : ToolCall) (command : string) (files : list PatchedFile) (diagnostics : list string)
    : Act PreToolDecision :=
  match files with
  | [] => returns (proceed [] diagnostics)
  | f :: rest =>
      let synth := {| tc_tool := "Write"; tc_cwd := tc_cwd call;
                      tc_args := (patched_call f).2 ++ [("apply_patch_command", JStr command)] |} in
      and_then (po_dispatchEvent synth) (fun result =>
      if Nat.eqb (exitCode result) 2 then returns (blocked (stderr result) diagnostics)
      else dispatch_patch call command rest
             (diagnostics ++ if nonempty (stderr result) then [stderr result] else []))
  end.
Definition dispatch_call (call : ToolCall) (instruction : option string) (diagnostics : list string)
    : Act PreToolDecision :=
  and_then (po_dispatchEvent call) (fun v1 =>
  and_then (po_runV2SkillHost call) (fun skillHost =>
  and_then (if isAutomation then po_runV2Cartridges call else returns {| v2_exitCode := 0; v2_messages := [] |})
  (fun v2Gate =>
    let is_blocked := Nat.eqb (exitCode v1) 2 || Nat.eqb (sh_exitCode skillHost) 2 || Nat.eqb (v2_exitCode v2Gate) 2 in
    let text := join_with (String NEWLINE "")
      (List.filter nonempty (stderr v1 :: sh_stderr skillHost ::
         if Nat.eqb (v2_exitCode v2Gate) 2 then v2_messages v2Gate else [])) in
    returns {| pd_block := is_blocked; pd_reason := if is_blocked then Some text else None;
               pd_injections := contextInjections v1 ++ sh_injections skillHost ++ option_list instruction;
               pd_diagnostics := diagnostics ++ (if is_blocked then [] else if nonempty text then [text] else []) |}))).
Definition dispatch_stage (call : ToolCall) (instruction : option string) (diagnostics : list string)
    : Act PreToolDecision :=
  and_then po_loadDispatch (fun _ =>
  match patch_command call, parsed_patch call with
  | Some command, Some ((_ :: _) as files) => dispatch_patch call command files diagnostics
  | _, _ => dispatch_call call instruction diagnostics
  end).

Definition runPreToolCall (call : ToolCall) : Act PreToolDecision := fun e =>
  match role with
  | role_reviewer =>
      match checkReviewerReadOnly (tc_tool call) (tc_args call) with
      | Some m => (Ok (blocked m []), e)
      | None => (Ok (proceed [] []), e)
      end
  | _ =>
      let '(instruction, d1, e) := bookkeeping call e in
      match safety_stage call e with
      | (Some reason, _, e) => (Ok (blocked reason d1), e)
      | (None, d2, e) =>
          match scope_stage call e with
          | (Some reason, e) => (Ok (blocked reason (d1 ++ d2)), e)
          | (None, e) =>
              match docs_stage call e with
              | (Some reason, e) => (Ok (blocked reason (d1 ++ d2)), e)
              | (None, e) => dispatch_stage call instruction (d1 ++ d2) e
              end
          end
      end
  end.
End PreTool.
