(* ===== verification/GuardProps.v ===== *)
(** * Properties of the guards on tool calls

    The safety floor, the capability gate, and their place in front of a tool
    call. *)

From Stdlib Require Import Ascii String.
From stdpp Require Import base option list sets strings.
From S2P Require Import Prelude Json ExprSyntax ExprEval Guard Regex Shell Safety CapabilityGate Skills Dispatch.
From S2P Require Import PreTool.
#[local] Open Scope os_scope.

(** ** Substrings *)
Lemma str_includes_spec s sub : str_includes s sub = true <-> exists pre post, s = pre +:+ sub +:+ post.
Proof.
  unfold str_includes. rewrite existsb_exists. split.
  - intros (x & Hx & [r ->]%starts_with_spec). revert Hx. induction s as [|c s IH]; cbn [suffixes].
    + intros [H|[]]. exists "", r. by rewrite <- H.
    + intros [H|H]; [exists "", r; by rewrite <- H|]. destruct (IH H) as (pre & post & ->). by exists (String c pre), post.
  - intros (pre & post & ->). exists (sub +:+ post). split; [|apply starts_with_spec; by exists post].
    induction pre as [|c pre IH]; [|by right]. cbn. destruct (sub +:+ post); by left.
Qed.
Lemma str_includes_app s1 s2 sub : str_includes s2 sub = true -> str_includes (s1 +:+ s2) sub = true.
Proof.
  rewrite !str_includes_spec. intros (pre & post & ->). exists (s1 +:+ pre), post. by rewrite string_app_assoc.
Qed.
Lemma re_test_app r s1 s2 pre rest q :
  s2 = pre +:+ rest -> lang r (past None (s1 +:+ pre), rest) q -> re_test r (s1 +:+ s2) = true.
Proof. intros -> H. apply re_test_spec. exists (s1 +:+ pre), rest, q. by rewrite string_app_assoc. Qed.

(** ** The safety floor *)
Lemma find_app {A} (f : A -> bool) l1 l2 :
  List.find f (l1 ++ l2) = match List.find f l1 with Some x => Some x | None => List.find f l2 end.
Proof. induction l1 as [|x l1 IH]; [done|]. cbn. by destruct (f x). Qed.
Lemma find_first {A} (f : A -> bool) l :
  match List.find f l with
  | Some x => exists before after, l = before ++ x :: after /\ f x = true /\ Forall (fun y => f y = false) before
  | None => Forall (fun y => f y = false) l
  end.
Proof.
  induction l as [|y l IH]; cbn; [done|]. destruct (f y) eqn:Ey; [by exists [], l|].
  destruct (List.find f l) as [x|]; [|by constructor]. destruct IH as (before & after & -> & Hx & Hb).
  exists (y :: before), after. by split_and!; [| |constructor].
Qed.
(** What the mode for dangerous calls may change. *)
Definition relaxed (r : SafetyResult) : SafetyResult :=
  match sf_action r with
  | ABlock => {| sf_action := AWarn; sf_message := sf_message r; sf_ruleId := sf_ruleId r |}
  | _ => r
  end.

(** The first matching rule decides, and the mode relaxes one tier.  A
    call that an allow rule matches, or no forbid rule, passes; any other gets
    the message and id of the first forbid rule that matches and halts when
    that rule is hardline, whatever the mode, and otherwise blocks; the mode
    turns exactly the blocks into warnings. *)
Lemma floor_first_match (call : SafetyCall) (policy : SafetyPolicy) :
  let hay := actionText call in
  let hits := forbid_hits (sc_tool call) hay in
  checkSafety call policy true = relaxed (checkSafety call policy false) /\
  (checkSafety call policy false = passed <->
     existsb (allow_hits (sc_tool call) hay) (sp_allow policy) = true \/
     Forall (fun r => hits r = false) (sp_forbid policy)) /\
  (checkSafety call policy false <> passed -> exists before rule after,
     sp_forbid policy = before ++ rule :: after /\ Forall (fun r => hits r = false) before /\ hits rule = true /\
     forall yolo, checkSafety call policy yolo = denial yolo rule /\
                  (sr_tier rule = hardline <-> sf_action (checkSafety call policy yolo) = AHalt)).
Proof.
  intros hay hits. unfold checkSafety. fold hay. destruct (existsb _ (sp_allow policy)) eqn:Ea.
  { split_and!; [done| |done]. split; [by left|done]. }
  pose proof (find_first (forbid_hits (sc_tool call) hay) (sp_forbid policy)) as Hf. fold hits in Hf |- *.
  destruct (List.find hits (sp_forbid policy)) as [rule|].
  - destruct Hf as (before & after & Hl & Hh & Hb). split_and!.
    + unfold denial, relaxed. by destruct (sr_tier rule).
    + split; [unfold denial; by destruct (sr_tier rule)|]. intros [?|Hn]; [done|]. rewrite Hl in Hn.
      apply Forall_app in Hn as [_ Hn]. apply Forall_cons in Hn as [Hn _]. congruence.
    + intros _. exists before, rule, after. split_and!; [done|done|done|]. intros yolo. split; [done|].
      unfold denial. cbn. by destruct (sr_tier rule), yolo.
  - split_and!; [done| |done]. split; [by right|done].
Qed.
Lemma floor_first_match_witness :
  let call := {| sc_tool := "Bash"; sc_args := [("command", JStr "chmod 777 / && rm -rf /")] |} in
  exists before rule after, sp_forbid DEFAULT_SAFETY_POLICY = before ++ rule :: after /\ sr_tier rule = hardline.
Proof.
  destruct (floor_first_match {| sc_tool := "Bash"; sc_args := [("command", JStr "chmod 777 / && rm -rf /")] |}
    DEFAULT_SAFETY_POLICY) as (_ & _ & H).
  destruct H as (before & rule & after & Hl & _ & _ & Hd); [discriminate|].
  exists before, rule, after. split; [exact Hl|]. destruct (Hd true) as [_ Ht]. apply Ht. vm_compute. reflexivity.
Defined.

(** ** The shipped policy *)
(** Shell commands the shipped policy never lets through. *)
Inductive lethal : string -> Prop :=
| lethal_root pre post : lethal (pre +:+ "rm -rf /" +:+ post)
| lethal_home pre post : lethal (pre +:+ "rm -rf ~" +:+ post)
| lethal_secret pre post : lethal (pre +:+ ".opensquid/.env" +:+ post)
| lethal_redirect pre blanks path post :
    all_chars is_space blanks = true -> all_chars redirect_path_char path = true ->
    lethal (pre +:+ ">" +:+ blanks +:+ path +:+ ".opensquid/" +:+ post)
| lethal_delete pre verb mid post :
    verb ∈ ["rm"; "unlink"; "shred"; "truncate"] -> is_word_char (past None pre) = false ->
    lethal (pre +:+ verb +:+ " " +:+ mid +:+ ".opensquid/" +:+ post).
Inductive lethal_call : SafetyCall -> Prop :=
| lethal_shell args cmd :
    arg_text "command" args = Some cmd -> lethal cmd -> lethal_call {| sc_tool := "Bash"; sc_args := args |}
| lethal_edit tool args path :
    tool ∈ ["Write"; "Edit"; "MultiEdit"] -> arg_text "file_path" args = Some path ->
    str_includes path ".opensquid/.env" = true -> str_includes path "/.opensquid/context.md" = false ->
    lethal_call {| sc_tool := tool; sc_args := args |}.
Lemma redirect_found pre blanks path post s :
  all_chars is_space blanks = true -> all_chars redirect_path_char path = true ->
  re_test SUBSTRATE_REDIRECT (s +:+ (pre +:+ ">" +:+ blanks +:+ path +:+ ".opensquid/" +:+ post)) = true.
Proof.
  intros Hb Hp. eapply re_test_app; [reflexivity|]. unfold SUBSTRATE_REDIRECT, cat. cbn [foldr lang].
  eexists. split; [apply (lang_lit ">")|]. eexists. split; [by right|].
  eexists. split; [by apply lang_star_cls|]. eexists. split; [by apply lang_star_cls|].
  eexists. split; [|reflexivity]. apply (lang_lit ".opensquid" _ ("/" +:+ post)).
Qed.
Lemma delete_found pre verb rest s :
  verb ∈ ["rm"; "unlink"; "shred"; "truncate"] -> is_word_char (past None (s +:+ pre)) = false ->
  re_test DELETE_VERB (s +:+ (pre +:+ verb +:+ " " +:+ rest)) = true.
Proof.
  intros Hv Hb. eapply re_test_app; [reflexivity|]. unfold DELETE_VERB, cat. cbn [foldr].
  assert (forall prev, is_word_char prev = false ->
    lang (Seq Boundary (Seq (any_of [lit "rm"; lit "unlink"; lit "shred"; lit "truncate"]) (Seq Boundary Eps)))
      (prev, verb +:+ " " +:+ rest) (past prev verb, " " +:+ rest)) as H; [|by apply H].
  intros prev Hprev. eexists. split.
  { split; [reflexivity|]. unfold at_boundary, next_char. cbn [fst snd]. rewrite Hprev.
    repeat (apply elem_of_cons in Hv as [->|Hv]; [reflexivity|]). by apply elem_of_nil in Hv. }
  exists (past prev verb, " " +:+ rest). split.
  - cbn [any_of foldr lang].
    repeat (apply elem_of_cons in Hv as [->|Hv]; [by repeat first [left; apply lang_lit|right]|]). by apply elem_of_nil in Hv.
  - exists (past prev verb, " " +:+ rest). split; [|done]. split; [done|].
    repeat (apply elem_of_cons in Hv as [->|Hv]; [reflexivity|]). by apply elem_of_nil in Hv.
Qed.
(** A list whose first rules are hardline halts when one of them matches. *)
Lemma hardline_prefix (tool hay : string) (l1 l2 : list SafetyRule) (yolo : bool) :
  Forall (fun r => sr_tier r = hardline) l1 -> existsb (forbid_hits tool hay) l1 = true ->
  exists r, List.find (forbid_hits tool hay) (l1 ++ l2) = Some r /\ sr_tier r = hardline.
Proof.
  intros Hh He. rewrite find_app. destruct (List.find _ l1) as [r|] eqn:Ef.
  - exists r. split; [done|]. apply find_some in Ef as [Hin _]. rewrite Forall_forall in Hh. by apply Hh, list_elem_of_In.
  - apply existsb_exists in He as (r & Hin & Hr). eapply find_none in Ef; [|done]. congruence.
Qed.
Lemma floor_halts tool args l1 l2 yolo :
  let call := {| sc_tool := tool; sc_args := args |} in
  sp_forbid DEFAULT_SAFETY_POLICY = l1 ++ l2 -> Forall (fun r => sr_tier r = hardline) l1 ->
  existsb (forbid_hits tool (actionText call)) l1 = true ->
  existsb (allow_hits tool (actionText call)) (sp_allow DEFAULT_SAFETY_POLICY) = false ->
  sf_action (checkSafety call DEFAULT_SAFETY_POLICY yolo) = AHalt.
Proof.
  intros call Hl Hh He Ha. unfold checkSafety. cbn [sc_tool call]. fold call. rewrite Ha, Hl.
  destruct (hardline_prefix tool (actionText call) l1 l2 yolo Hh He) as (r & -> & Hr). unfold denial. by rewrite Hr.
Qed.
Lemma rule_hit tool hay l r : r ∈ l -> scoped tool (sr_tool r) = true -> str_includes hay (sr_argPattern r) = true ->
  refined (sr_match r) hay = true -> existsb (forbid_hits tool hay) l = true.
Proof.
  intros Hin Hs Hi Hr. apply existsb_exists. exists r. split; [by apply list_elem_of_In|].
  unfold forbid_hits. by rewrite Hs, Hi, Hr.
Qed.
Definition hardline_rules : list SafetyRule := take 6 (sp_forbid DEFAULT_SAFETY_POLICY).
Lemma hardline_rules_hardline : Forall (fun r => sr_tier r = hardline) hardline_rules.
Proof. by repeat constructor. Qed.
Lemma includes_at pre sub post s : str_includes (s +:+ (pre +:+ sub +:+ post)) sub = true.
Proof. apply str_includes_app, str_includes_spec. by exists pre, post. Qed.
Lemma includes_later pre a b sub post s :
  str_includes (s +:+ (pre +:+ a +:+ b +:+ sub +:+ post)) sub = true.
Proof.
  replace (pre +:+ a +:+ b +:+ sub +:+ post) with ((pre +:+ a +:+ b) +:+ sub +:+ post) by (by rewrite !string_app_assoc).
  apply includes_at.
Qed.
Lemma lethal_nonempty cmd : lethal cmd -> (cmd =? "")%string = false.
Proof.
  intros H. apply String.eqb_neq. destruct H as [pre|pre|pre|pre blanks path post _ _|pre verb mid post Hv _];
    destruct pre; try done. by repeat (apply elem_of_cons in Hv as [->|Hv]; [done|]); apply elem_of_nil in Hv.
Qed.
Lemma lethal_hits cmd : lethal cmd -> existsb (forbid_hits "Bash" ("Bash " +:+ cmd)) hardline_rules = true.
Proof.
  destruct 1 as [pre post|pre post|pre post|pre blanks path post Hb Hp|pre verb mid post Hv Hw].
  - eapply (rule_hit _ _ _ _ (list_elem_of_here _ _)); [done|apply includes_at|done].
  - apply (rule_hit _ _ _ (seed "rm-rf-home" "Bash" "rm -rf ~" hardline None "recursive home delete is forbidden"));
      [set_solver|done|apply includes_at|done].
  - apply (rule_hit _ _ _ (seed "substrate-env-exfil" "Bash" ".opensquid/.env" hardline None
      "exfiltrating the opensquid secret store via a shell is forbidden")); [set_solver|done|apply includes_at|done].
  - apply (rule_hit _ _ _ (seed "substrate-delete" "Bash" ".opensquid/" hardline (Some delete_verb)
      "deleting opensquid substrate state is forbidden")); [set_solver|done| |].
    + replace (pre +:+ ">" +:+ blanks +:+ path +:+ ".opensquid/" +:+ post)
        with (pre +:+ (">" +:+ blanks) +:+ path +:+ ".opensquid/" +:+ post) by (by rewrite !string_app_assoc).
      apply includes_later.
    + cbn [sr_match seed refined]. by rewrite redirect_found, orb_true_r.
  - apply (rule_hit _ _ _ (seed "substrate-delete" "Bash" ".opensquid/" hardline (Some delete_verb)
      "deleting opensquid substrate state is forbidden")); [set_solver|done| |].
    + replace (pre +:+ verb +:+ " " +:+ mid +:+ ".opensquid/" +:+ post)
        with (pre +:+ verb +:+ (" " +:+ mid) +:+ ".opensquid/" +:+ post) by (by rewrite !string_app_assoc).
      apply includes_later.
    + cbn [sr_match seed refined]. rewrite delete_found; [done|done|]. by destruct pre.
Qed.

Lemma actionText_bash args cmd : arg_text "command" args = Some cmd -> (cmd =? "")%string = false ->
  actionText {| sc_tool := "Bash"; sc_args := args |} = "Bash " +:+ cmd.
Proof. intros Hcmd Hn. unfold actionText. cbn [sc_tool sc_args]. rewrite Hcmd. unfold or_else. cbn. by rewrite Hn. Qed.
Lemma actionText_edit tool args path : tool ∈ ["Write"; "Edit"; "MultiEdit"] -> arg_text "file_path" args = Some path ->
  actionText {| sc_tool := tool; sc_args := args |} = tool +:+ " " +:+ path.
Proof.
  intros Ht Hp. unfold actionText. cbn [sc_tool sc_args]. rewrite Hp.
  repeat (apply elem_of_cons in Ht as [->|Ht]; [reflexivity|]). by apply elem_of_nil in Ht.
Qed.
Lemma edit_hits tool path : tool ∈ ["Write"; "Edit"; "MultiEdit"] -> str_includes path ".opensquid/.env" = true ->
  existsb (forbid_hits tool (tool +:+ " " +:+ path)) hardline_rules = true.
Proof.
  intros Ht Hs.
  assert (exists r, r ∈ hardline_rules /\ scoped tool (sr_tool r) = true /\ sr_argPattern r = ".opensquid/.env" /\
    sr_match r = None) as (r & Hin & Hsc & Hp & Hm).
  { rewrite !elem_of_cons, elem_of_nil in Ht. destruct Ht as [->|[->|[->|[]]]].
    - eexists. split; [do 2 right; left|done].
    - eexists. split; [do 3 right; left|done].
    - eexists. split; [do 3 right; left|done]. }
  apply (rule_hit _ _ _ r); [done|done| |by rewrite Hm]. rewrite Hp, <- string_app_assoc. by apply str_includes_app.
Qed.
Lemma edit_not_allowed tool path : tool ∈ ["Write"; "Edit"; "MultiEdit"] ->
  str_includes path "/.opensquid/context.md" = false ->
  existsb (allow_hits tool (tool +:+ " " +:+ path)) (sp_allow DEFAULT_SAFETY_POLICY) = false.
Proof.
  intros Ht Hc. assert (str_includes (tool +:+ " " +:+ path) "/.opensquid/context.md" = false) as Hn.
  { etransitivity; [|exact Hc]. rewrite !elem_of_cons, elem_of_nil in Ht. by destruct Ht as [->|[->|[->|[]]]]. }
  unfold allow_hits. cbn [existsb sp_allow DEFAULT_SAFETY_POLICY al_argPattern]. by rewrite !Hn, !andb_false_r.
Qed.

(** The shipped policy's floor has no switch.  A shell command that
    deletes from the root or the home, names the secret store, deletes in the
    state directory or redirects into it, and an edit of the secret store, is
    halted, also in the mode that downgrades dangerous calls; an edit is exempt
    only when its path also names the always writable [context.md]. *)
Lemma shipped_policy_halts (call : SafetyCall) (yolo : bool) :
  lethal_call call -> sf_action (checkSafety call DEFAULT_SAFETY_POLICY yolo) = AHalt.
Proof.
  destruct 1 as [args cmd Hcmd Hl|tool args path Ht Hpath Hs Hc];
    eapply (floor_halts _ _ hardline_rules (drop 6 (sp_forbid DEFAULT_SAFETY_POLICY)));
    try done; try apply hardline_rules_hardline.
  - rewrite (actionText_bash _ cmd Hcmd (lethal_nonempty cmd Hl)). by apply lethal_hits.
  - rewrite (actionText_edit _ _ path) by done. by apply edit_hits.
  - rewrite (actionText_edit _ _ path) by done. by apply edit_not_allowed.
Qed.
Lemma shipped_policy_halts_witness :
  sf_action (checkSafety {| sc_tool := "Bash"; sc_args := [("command", JStr "echo x >> ~/.opensquid/log")] |}
    DEFAULT_SAFETY_POLICY true) = AHalt.
Proof.
  apply shipped_policy_halts. eapply lethal_shell; [reflexivity|].
  exact (lethal_redirect "echo x >" " " "~/" "log" eq_refl eq_refl).
Defined.

(** Where the floor's substrings miss: a path that names [context.md] on the way
    to the secret store passes, another spelling of the store is only
    dangerous, and a patch passes whatever it writes. *)
Definition write_to (path : string) : SafetyCall := {| sc_tool := "Write"; sc_args := [("file_path", JStr path)] |}.
Lemma floor_holes :
  checkSafety (write_to "/h/.opensquid/context.md/../.env") DEFAULT_SAFETY_POLICY false = passed /\
  sf_action (checkSafety (write_to "/h/.opensquid/./.env") DEFAULT_SAFETY_POLICY true) = AWarn /\
  forall args yolo, checkSafety {| sc_tool := "apply_patch"; sc_args := args |} DEFAULT_SAFETY_POLICY yolo = passed.
Proof. split_and!; [vm_compute; reflexivity|vm_compute; reflexivity|]. reflexivity. Qed.
(** Every recursive delete of an absolute path is called a root delete. *)
Lemma floor_overmatches :
  sf_message (checkSafety {| sc_tool := "Bash"; sc_args := [("command", JStr "rm -rf /tmp/build")] |}
    DEFAULT_SAFETY_POLICY true) = Some "recursive root delete is forbidden".
Proof. vm_compute. reflexivity. Qed.

(** ** The capability gate *)
Section Gate.
Context {E : Type} `{Globs} `{Urls}.
Context (packs : string -> option PermissionsType) (trustDeny : bool) (homeDir cwd : string)
  (overrides : list UserOverride)
  (prompt : option (CapabilityRequest -> E -> result string bool * E))
  (auditLog : CapabilityVerdict -> CapabilityRequest -> E -> E).
Abbreviation check := (check packs trustDeny homeDir cwd overrides prompt auditLog).
Abbreviation matchBuiltinDeny := (matchBuiltinDeny homeDir cwd).
Abbreviation matchOverride := (matchOverride homeDir cwd overrides).
Abbreviation matchAllowlist := (matchAllowlist homeDir cwd).
Abbreviation block_for := (block_for packs).
(** No denylist refuses the request. *)
Definition undenied (req : CapabilityRequest) : Prop :=
  (trustDeny = true -> matchBuiltinDeny req = None) /\ block_for req ≫= matchPackDeny homeDir cwd req = None.
(** The user is asked, and answers. *)
Definition answers (req : CapabilityRequest) (e : E) (r : result string bool) : Prop :=
  exists ask e', prompt = Some ask /\ ask req e = (r, e').
Definition granted (req : CapabilityRequest) : Prop :=
  is_Some (matchOverride req) \/ is_Some (block_for req ≫= matchAllowlist req).

Lemma check_sealed (req : CapabilityRequest) (e : E) :
  trustDeny = true -> is_Some (matchBuiltinDeny req) -> cv_source (check req e).1 = denylist.
Proof. intros Ht [m Hm]. unfold CapabilityGate.check, audit. by rewrite Ht, Hm. Qed.
Lemma check_audited (req : CapabilityRequest) (e : E) :
  exists e', (check req e).2 = auditLog (check req e).1 req e' /\
    (e' = e \/ exists ask, prompt = Some ask /\ e' = (ask req e).2).
Proof.
  unfold CapabilityGate.check, audit.
  destruct (if trustDeny then matchBuiltinDeny req else None); [exists e; split; [done|by left]|].
  destruct (block_for req ≫= matchPackDeny homeDir cwd req); [exists e; split; [done|by left]|].
  unfold handleUndeclared, audit. destruct (matchOverride req), (block_for req ≫= matchAllowlist req);
    try (exists e; split; [done|by left]). destruct prompt as [ask|]; [|exists e; split; [done|by left]].
  destruct (ask req e) as [[[]|x] e1] eqn:Ea; exists e1; (split; [done|]); right; exists ask; by rewrite Ea.
Qed.
Lemma check_allows (req : CapabilityRequest) (e : E) :
  cv_allowed (check req e).1 = true <-> undenied req /\ (granted req \/ answers req e (Ok true)).
Proof.
  unfold CapabilityGate.check, undenied, granted, answers, audit.
  destruct (if trustDeny then matchBuiltinDeny req else None) as [m|] eqn:Es.
  { destruct trustDeny; [|done]. rewrite Es. split; [done|]. intros [[Hn _] _]. by specialize (Hn eq_refl). }
  assert (trustDeny = true -> matchBuiltinDeny req = None) as Hs by by destruct trustDeny.
  destruct (block_for req ≫= matchPackDeny homeDir cwd req) as [m|] eqn:Ep; [split; [done|by intros [[_ ?] _]]|].
  destruct (matchOverride req) as [m|] eqn:Eo; [split; [|done]; intros _; split; [done|]; left; left; by exists m|].
  destruct (block_for req ≫= matchAllowlist req) as [m|] eqn:El; [split; [|done]; intros _; split; [done|]; left; right; by exists m|].
  unfold handleUndeclared, audit. destruct prompt as [ask|].
  - destruct (ask req e) as [r e1] eqn:Ea. split.
    + destruct r as [[]|]; [|done..]. intros _. split; [done|]. right. by exists ask, e1.
    + intros [_ [[[? ?]|[? ?]]|(ask' & e' & [= <-] & Ha)]]; [done..|]. rewrite Ea in Ha. by injection Ha as -> ->.
  - split; [done|]. by intros [_ [[[? ?]|[? ?]]|(ask' & e' & ? & _)]].
Qed.
(** C35: the gate allows exactly what no denylist refuses and something
    grants: a user's override, the pack's allowlist, or else the user when
    asked.  The sealed denylist, while trusted, refuses whatever the pack, the
    override file and the user say; a prompt that throws denies; and each check
    hands its verdict to the audit sink exactly once, as the last thing it
    does, whatever the sink does with it. *)
Theorem gate_allows_exactly (req : CapabilityRequest) (e : E) :
  (cv_allowed (check req e).1 = true <-> undenied req /\ (granted req \/ answers req e (Ok true))) /\
  (trustDeny = true -> is_Some (matchBuiltinDeny req) -> cv_source (check req e).1 = denylist) /\
  exists e', (check req e).2 = auditLog (check req e).1 req e' /\
    (e' = e \/ exists ask, prompt = Some ask /\ e' = (ask req e).2).
Proof. split; [apply check_allows|]. split; [apply check_sealed|apply check_audited]. Qed.

Lemma find_none_forall {A} (f : A -> bool) l : Forall (fun x => f x = false) l -> List.find f l = None.
Proof. induction 1 as [|x l Hx _ IH]; [done|]. cbn. by rewrite Hx. Qed.
(** A shell command with a metacharacter is allowed only where it is written
    out in full, by the pack or by the user, or when the user is asked. *)
Lemma metacharacters_need_exact (req : CapabilityRequest) (e : E) :
  cr_capability req = shell_exec -> hasMeta (cr_target req) = true -> cv_allowed (check req e).1 = true ->
  (exists o, o ∈ overrides /\ uo_pack o = cr_pack req /\ uo_target o = cr_target req) \/
  (exists block, block_for req = Some block /\ cr_target req ∈ pb_allow block) \/ answers req e (Ok true).
Proof.
  intros Hcap Hm Ha. apply (check_allows req e) in Ha as [_ [[[m Ho]|[m Hb]]|?]]; [| |by right; right].
  - left. unfold CapabilityGate.matchOverride in Ho.
    destruct (omap (override_hit homeDir cwd req) overrides) as [|m' l] eqn:Eo; [done|].
    assert (m' ∈ omap (override_hit homeDir cwd req) overrides) as Hin by (rewrite Eo; left).
    apply list_elem_of_omap in Hin as (o & Hin & Hh). unfold override_hit in Hh. rewrite Hcap, Hm in Hh. cbn in Hh.
    destruct (uo_pack o =? cr_pack req)%string eqn:E1; [|done]. apply String.eqb_eq in E1.
    cbn in Hh. destruct (negb _); [done|]. destruct (uo_target o =? cr_target req)%string eqn:E2; [|done].
    apply String.eqb_eq in E2. by exists o.
  - right; left. apply bind_Some in Hb as (block & Hbl & Hal). exists block. split; [done|].
    unfold CapabilityGate.matchAllowlist in Hal. rewrite Hcap, Hm in Hal.
    destruct (List.find _ _) as [x|] eqn:Ef; [|done]. apply find_some in Ef as [Hin Hx]. apply String.eqb_eq in Hx as <-.
    by apply list_elem_of_In.
Qed.
End Gate.

(** The grant command refuses exactly what the gate's sealed denylist would
    refuse, invalid URLs apart. *)
Lemma find_is_Some {A B} (f : A -> bool) (g : A -> B) l : is_Some (g <$> List.find f l) <-> existsb f l = true.
Proof.
  induction l as [|x l IH]; cbn; [split; [by intros []|done]|]. destruct (f x); [split; [done|by eexists]|apply IH].
Qed.
Definition clean (s : string) : Prop := s <> "" /\ s <> "." /\ s <> ".." /\ has_char "/" s = false.
Lemma normal_segments_clean todo : forall done, Forall (fun s => has_char "/" s = false) todo -> Forall clean done ->
  Forall clean (normal_segments todo done).
Proof.
  induction todo as [|s todo IH]; intros done Ht Hd; cbn [normal_segments]; [by apply Forall_rev|].
  apply Forall_cons in Ht as [Hs Ht]. destruct (_ || _) eqn:E1; [by apply IH|]. reflect_bools.
  destruct (s =? "..")%string eqn:E2; reflect_bools; apply IH; try done; [|by constructor].
  destruct done; [done|]. by apply Forall_cons in Hd as [_ ?].
Qed.
Lemma normal_segments_id l : forall done, Forall clean l -> normal_segments l done = rev done ++ l.
Proof.
  induction l as [|s l IH]; intros done Hl; cbn [normal_segments]; [by rewrite app_nil_r|].
  apply Forall_cons in Hl as [(H1 & H2 & H3 & _) Hl].
  rewrite (proj2 (String.eqb_neq _ _) H1), (proj2 (String.eqb_neq _ _) H2), (proj2 (String.eqb_neq _ _) H3). cbn [orb].
  rewrite IH by done. cbn. by rewrite <- app_assoc.
Qed.
(** An absolute path that [path.resolve] returned is left as it is. *)
Lemma resolve_from_idem cwd base path : resolve_from cwd (resolve_from base path) = resolve_from base path.
Proof.
  unfold resolve_from at 2 3. set (full := if starts_with path "/" then path else base +:+ "/" +:+ path).
  pose proof (normal_segments_clean (split_char "/" full) [] (split_char_no_sep "/" full) (Forall_nil_2 _)) as Hc.
  set (l := normal_segments (split_char "/" full) []) in *. unfold resolve_from.
  assert (starts_with ("/" +:+ join_with "/" l) "/" = true) as -> by (apply starts_with_spec; by eexists).
  f_equal. f_equal. change (split_char "/" ("/" +:+ join_with "/" l)) with ("" :: split_char "/" (join_with "/" l)).
  cbn [normal_segments String.eqb orb]. destruct l as [|s l']; [done|].
  rewrite split_join; [by apply normal_segments_id|..]; try done.
  eapply Forall_impl; [exact Hc|]. by intros x (_ & _ & _ & ?).
Qed.
Lemma resolve_home homeDir cwd path : resolve_path homeDir cwd path = resolveHome homeDir cwd path.
Proof.
  unfold resolve_path, resolveHome, expandHome. destruct (path =? "~")%string; [done|].
  destruct (from_prefix "~/" path); [apply resolve_from_idem|done].
Qed.
Lemma existsb_ext' {A} (f g : A -> bool) l : (forall x, f x = g x) -> existsb f l = existsb g l.
Proof. intros H. induction l as [|x l IH]; [done|]. cbn. by rewrite H, IH. Qed.
Lemma grant_agrees_with_gate `{Globs} `{Urls} (homeDir cwd : string) (req : CapabilityRequest) :
  cr_capability req <> http_request ->
  denylistRejectionFor true homeDir cwd (cr_capability req) (cr_target req) = true <->
  is_Some (matchBuiltinDeny homeDir cwd req).
Proof.
  intros Hc. unfold denylistRejectionFor, matchBuiltinDeny, matchPathList, matchGlobList.
  destruct (cr_capability req); try done; rewrite find_is_Some; cbn [andb]; [done| |done..].
  unfold path_matches. rewrite resolve_home. by rewrite (existsb_ext' _ _ _ (fun x => f_equal _ (resolve_home homeDir cwd x))).
Qed.
(** The first shell pattern's comment promises /<anything>; it stops at the root. *)
Lemma denylist_stops_at_root :
  Forall (fun p : string * re => re_test p.2 "rm -rf /home/user" = false) BUILTIN_SHELL_DENY /\
  exists p, p ∈ BUILTIN_SHELL_DENY /\ re_test p.2 "cd /tmp && rm  -rf / " = true.
Proof. split; [by repeat (apply Forall_cons_2; [vm_compute; reflexivity|])|]. eexists. split; [left|vm_compute; reflexivity]. Qed.

(** ** In front of a tool call *)
Section PreTool.
Context {E : Type} `{Ops : PreToolOps E} `{Globs} (role : Role) (actor : GuardActor) (ctx_cwd : string)
  (isAutomation : bool).
Abbreviation run := (runPreToolCall role actor ctx_cwd isAutomation).
Definition safety_call (call : ToolCall) : SafetyCall := {| sc_tool := tc_tool call; sc_args := tc_args call |}.
(** The environment in which the floor, and then the scope, is consulted. *)
Definition floor_env (call : ToolCall) (e : E) : E := (bookkeeping call e).2.
Definition scope_env (call : ToolCall) (e : E) : E := (safety_stage ctx_cwd call (floor_env call e)).2.
Lemma run_stages call e : role <> role_reviewer ->
  run call e =
    match (safety_stage ctx_cwd call (floor_env call e)).1.1 with
    | Some reason => (Ok (blocked reason (bookkeeping call e).1.2), scope_env call e)
    | None =>
        let d := (bookkeeping call e).1.2 ++ (safety_stage ctx_cwd call (floor_env call e)).1.2 in
        match scope_stage actor ctx_cwd call (scope_env call e) with
        | (Some reason, e) => (Ok (blocked reason d), e)
        | (None, e') =>
            match docs_stage actor ctx_cwd call e' with
            | (Some reason, e) => (Ok (blocked reason d), e)
            | (None, e') => dispatch_stage isAutomation call (bookkeeping call e).1.1 d e'
            end
        end
    end.
Proof.
  intros Hr. unfold runPreToolCall, scope_env, floor_env. destruct role; [..|done];
    destruct (bookkeeping call e) as [[i d1] e1]; cbn [fst snd];
    destruct (safety_stage ctx_cwd call e1) as [[[reason|] d2] e2]; done.
Qed.

(** C33: the floor comes first.  When the policy and the mode can be read, a
    call the floor blocks or halts, of a coordinator or a stage process, is
    answered with the floor's message; no lane, guard, pack rule or cartridge
    is consulted, and nothing is done after the mode was read. *)
Theorem floor_precedes_everything (call : ToolCall) (e e2 e3 : E) (policy : SafetyPolicy) (yolo : bool) :
  role <> role_reviewer ->
  po_loadSafetyPolicy (floor_env call e) = (Ok policy, e2) ->
  po_isYoloMode (cwd_of ctx_cwd call) e2 = (Ok yolo, e3) ->
  sf_action (checkSafety (safety_call call) policy yolo) = ABlock \/
  sf_action (checkSafety (safety_call call) policy yolo) = AHalt ->
  exists message diagnostics,
    run call e = (Ok (blocked ("🦑 [safety floor] " +:+ message) diagnostics), e3) /\
    sf_message (checkSafety (safety_call call) policy yolo) = Some message.
Proof.
  intros Hr Hp Hy Ha. rewrite run_stages by done. unfold scope_env.
  assert (exists message, sf_message (checkSafety (safety_call call) policy yolo) = Some message) as [m Hm].
  { unfold checkSafety in *. destruct (existsb _ _); [by destruct Ha|]. destruct (List.find _ _) as [r|]; [by eexists|].
    by destruct Ha. }
  assert (safety_stage ctx_cwd call (floor_env call e) = (Some ("🦑 [safety floor] " +:+ m), [], e3)) as ->.
  { unfold safety_stage, and_then, returns. rewrite Hp, Hy. fold (safety_call call). rewrite Hm.
    by destruct Ha as [-> | ->]. }
  cbn [fst snd]. by exists m, (bookkeeping call e).1.2.
Qed.

Lemma parsed_patch_path call files f : parsed_patch call = Some files -> f ∈ files -> pt_path f <> "".
Proof.
  unfold parsed_patch. destruct (patch_command call) as [command|]; [|done]. intros [= <-] Hin.
  apply list_elem_of_In, filter_In in Hin as [_ Hn]. by reflect_bools.
Qed.
Lemma patched_path f : pt_path f <> "" -> extractWritePath "Write" (patched_call f).2 = Some (pt_path f).
Proof. intros Hn. unfold extractWritePath. cbn. by rewrite (proj2 (String.eqb_neq _ _) Hn). Qed.
Lemma lane_respected itemId stage g globs tool args :
  (forall m, decideFullstackScopeWrite (engaged itemId stage (g :: globs)) tool args <> deny m) ->
  forall path, extractWritePath tool args = Some path -> matchesLane path (g :: globs) = true.
Proof.
  unfold decideFullstackScopeWrite, evaluateLane. intros Hd path Hp. rewrite Hp in Hd.
  assert (isMutatingCall tool args = true) as Hm.
  { unfold extractWritePath in Hp. unfold isMutatingCall. by destruct (isAlwaysMutatingTool tool). }
  rewrite Hm in Hd. cbn [negb] in Hd. destruct (matchesLane path (g :: globs)) eqn:E0; [done|].
  exfalso. by eapply Hd.
Qed.
(** What the coordinator's guard lets through. *)
Lemma not_code_mutation tool args : isCodeFileMutation tool args = false ->
  (isAlwaysMutatingTool tool = true -> exists p, editor_path args = Some p /\ isDocumentPath p = true) /\
  (forall command, tool = "Bash" -> arg_text "command" args = Some command -> isMutatingBash command = false).
Proof.
  unfold isCodeFileMutation, isMutatingCall. intros Hm. split.
  - intros Ha. rewrite Ha in Hm. cbn in Hm. apply negb_false_iff in Hm. destruct (editor_path args) as [p|]; [by exists p|done].
  - intros command -> Hc. rewrite Hc in Hm. cbn in Hm. by destruct (isMutatingBash command).
Qed.
(** C34: an engaged scope confines what is written.  When a call of the
    coordinator or a stage process goes ahead while a scope with a lane is
    engaged, every file it edits, and every file of its patch, lies in the
    lane; a patch of which no file can be read off does not go ahead.  The
    coordinator's own guard then lets an editor call through only on a document,
    and a shell command only when none of the write patterns ([sed -i], a
    redirect, [tee], [cp], [mv]) is in it; that guard does not look into
    patches, so a coordinator's patch may write code in the lane, and any code
    when no scope is engaged ([guards_bypassed]). *)
Theorem engaged_scope_confines (call : ToolCall) (e e' e5 : E) (d : PreToolDecision)
    (itemId stage g : string) (globs : list string) :
  role <> role_reviewer ->
  po_scopeEngagement (cwd_of ctx_cwd call) (scope_env call e) = (Ok (engaged itemId stage (g :: globs)), e5) ->
  run call e = (Ok d, e') -> pd_block d = false ->
  (parsed_patch call = None -> forall path, extractWritePath (tc_tool call) (tc_args call) = Some path ->
     matchesLane path (g :: globs) = true) /\
  (forall files f, parsed_patch call = Some files -> f ∈ files -> matchesLane (pt_path f) (g :: globs) = true) /\
  (tc_tool call = "apply_patch" -> exists f files, parsed_patch call = Some (f :: files)) /\
  (actor = coordinator ->
    (isAlwaysMutatingTool (tc_tool call) = true -> exists p, editor_path (tc_args call) = Some p /\ isDocumentPath p = true) /\
    (forall command, tc_tool call = "Bash" -> arg_text "command" (tc_args call) = Some command -> isMutatingBash command = false)).
Proof.
  intros Hr Hs. rewrite run_stages by done.
  destruct (safety_stage ctx_cwd call (floor_env call e)).1.1; [by intros [= <- _]|]. cbv zeta.
  destruct (scope_stage actor ctx_cwd call (scope_env call e)) as [[m|] e6] eqn:Esc; [by intros [= <- _]|]. intros _ _.
  unfold scope_stage in Esc. rewrite Hs in Esc.
  destruct ((tc_tool call =? "apply_patch")%string && _) eqn:Ep; [done|].
  destruct (scope_denials (engaged itemId stage (g :: globs)) (normalizedWrites call)) as [|m l] eqn:Ed; [|done].
  injection Esc as Hg _.
  assert (forall tool args path, (tool, args) ∈ normalizedWrites call -> extractWritePath tool args = Some path ->
    matchesLane path (g :: globs) = true) as Hw.
  { intros tool args path Hin Hp. eapply lane_respected; [|exact Hp]. intros m Hm.
    assert (m ∈ scope_denials (engaged itemId stage (g :: globs)) (normalizedWrites call)) as Hd.
    { unfold scope_denials. apply list_elem_of_omap. exists (tool, args). split; [done|]. cbn [fst snd]. by rewrite Hm. }
    rewrite Ed in Hd. by apply elem_of_nil in Hd. }
  unfold normalizedWrites in Hw. split_and!.
  - intros Hn path. rewrite Hn in Hw. apply Hw. left.
  - intros files f Hf Hin. rewrite Hf in Hw. apply (Hw "Write" (patched_call f).2); [|by eapply patched_path, parsed_patch_path].
    change ("Write", (patched_call f).2) with (patched_call f). by apply list_elem_of_In, in_map, list_elem_of_In.
  - intros Ht. rewrite Ht in Ep. cbn [andb String.eqb] in Ep.
    destruct (parsed_patch call) as [[|f files]|]; [done|by exists f, files|done].
  - intros ->. unfold checkOrchestratorGuard in Hg. rewrite andb_true_r in Hg.
    destruct (isCodeFileMutation (tc_tool call) (tc_args call)) eqn:Ec; [done|]. by apply not_code_mutation.
Qed.
End PreTool.

(** Dependencies that answer: the shipped policy, the relaxed mode, [scope]. *)
Definition nothing_to_say : DispatchResult :=
  {| exitCode := 0; stderr := ""; contextInjections := []; directives := [] |}.
Definition demo_ops (scope : ScopeEngagement) (docs_only : bool) : PreToolOps nat := {|
  po_appendTool _ _ e := (Ok tt, S e); po_recordSessionCwd _ e := (Err "EACCES", e);
  po_mirrorActiveTask _ _ e := (Ok tt, e); po_runHarnessGraphSync _ _ e := (Ok None, e);
  po_loadSafetyPolicy e := (Ok DEFAULT_SAFETY_POLICY, e); po_isYoloMode _ e := (Ok true, e);
  po_appendDrift _ _ _ e := (Ok tt, S e); po_scopeEngagement _ e := (Ok scope, e);
  po_declaresDocsOnly _ e := (Ok docs_only, e); po_scopeRoot _ e := (Ok None, e);
  po_allowCodeWrite _ e := (Ok false, e); po_legacyFlag _ _ := false; po_auditBindings e := (Ok [], e);
  po_scopeVerdict _ e := (Ok None, e); po_loadDispatch e := (Ok tt, e);
  po_dispatchEvent _ e := (Ok nothing_to_say, e);
  po_runV2SkillHost _ e := (Ok {| sh_exitCode := 0; sh_stderr := ""; sh_injections := [] |}, e);
  po_runV2Cartridges _ e := (Ok {| v2_exitCode := 0; v2_messages := [] |}, e) |}.
(** A lane is a prefix here. *)
#[local] Instance demo_globs : Globs := {| glob _ path g := starts_with path g |}.
Definition bash (command : string) : ToolCall :=
  {| tc_tool := "Bash"; tc_args := [("command", JStr command)]; tc_cwd := Some "/repo" |}.
Definition patch (lines : list string) : ToolCall :=
  {| tc_tool := "apply_patch"; tc_args := [("command", JStr (join_with (String NEWLINE "") lines))]; tc_cwd := None |}.
Definition demo_patch (path : string) : ToolCall :=
  patch ["*** Begin Patch"; "*** Add File: " +:+ path; "+hello"; "*** End Patch"].
Definition demo_pre (scope : ScopeEngagement) (docs_only : bool) (call : ToolCall) : result string PreToolDecision * nat :=
  runPreToolCall (Ops := demo_ops scope docs_only) interactive coordinator "/repo" false call 0.
Lemma floor_precedes_everything_witness :
  demo_pre unengaged true (bash "rm -rf /") =
  (Ok (blocked ("🦑 [safety floor] " +:+ "recursive root delete is forbidden")
         ["opensquid: session-cwd record failed — EACCES"]), 1).
Proof.
  destruct (floor_precedes_everything (Ops := demo_ops unengaged true) interactive coordinator "/repo" false
    (bash "rm -rf /") 0 1 1 DEFAULT_SAFETY_POLICY true) as (m & d & H & Hm).
  - discriminate.
  - reflexivity.
  - reflexivity.
  - right. vm_compute. reflexivity.
  - vm_compute. reflexivity.
Defined.
Definition demo_scope : ScopeEngagement := engaged "wg-1" "scope" ["docs/"].
Lemma engaged_scope_confines_witness :
  matchesLane "docs/a.md" ["docs/"] = true /\
  match (demo_pre demo_scope false (demo_patch "src/a.ts")).1 with Ok d => pd_block d = true | Err _ => False end.
Proof.
  split; [|vm_compute; reflexivity].
  destruct (engaged_scope_confines (Ops := demo_ops demo_scope false) interactive coordinator "/repo" false
    (demo_patch "docs/a.md") 0 1 1 (proceed [] []) "wg-1" "scope" "docs/" []) as (_ & H & _).
  - discriminate.
  - vm_compute. reflexivity.
  - vm_compute. reflexivity.
  - reflexivity.
  - apply (H [{| pt_path := "docs/a.md"; pt_kind := PatchAdd; pt_content := "hello" |}]
      {| pt_path := "docs/a.md"; pt_kind := PatchAdd; pt_content := "hello" |}).
    + vm_compute. reflexivity.
    + left.
Defined.

(** What goes ahead: a reviewer reads the secret store, which the floor would
    halt; a patch writes it, and writes code for a coordinator of documents. *)
Lemma guards_bypassed :
  runPreToolCall (Ops := demo_ops unengaged true) role_reviewer reviewer "/repo" false (bash "cat ~/.opensquid/.env") 0 =
    (Ok (proceed [] []), 0) /\
  demo_pre unengaged true (bash "cat ~/.opensquid/.env") =
    (Ok (blocked "🦑 [safety floor] exfiltrating the opensquid secret store via a shell is forbidden"
           ["opensquid: session-cwd record failed — EACCES"]), 1) /\
  Forall (fun path => demo_pre unengaged true (demo_patch path) = (Ok (proceed [] []), 1)) ["/h/.opensquid/.env"; "src/a.ts"].
Proof. split_and!; [vm_compute; reflexivity..|]. by repeat (apply Forall_cons_2; [vm_compute; reflexivity|]). Qed.
(** A redirect of a numbered descriptor with two arrows counts as a file write. *)
Lemma stderr_append_counts : isMutatingBash "make 2>>/dev/null" = true /\ isMutatingBash "make 2>/dev/null" = false.
Proof. split; vm_compute; reflexivity. Qed.
