(* ===== verification/Effects.v ===== *)
(** * Effects: programs that act on a world and may throw

    [Act E X A] is a program over worlds [E] that returns an [A] or throws an
    [X]; what it did to the world before a throw stays done.  [twp m Q e] says
    that [m], run from [e], returns and that [Q] holds of what it returns. *)

From stdpp Require Import base option list.
From S2P Require Import Prelude.

Definition Act (E X A : Type) : Type := E -> result X A * E.
#[export] Instance act_ret {E X} : MRet (Act E X) := fun A a e => (Ok a, e).
#[export] Instance act_bind {E X} : MBind (Act E X) := fun A B f m e =>
  match m e with (Ok a, e) => f a e | (Err x, e) => (Err x, e) end.
Definition raise {E X A} (x : X) : Act E X A := fun e => (Err x, e).
(** [try { m } catch (x) { h(x) }] *)
Definition try_catch {E X A} (m : Act E X A) (h : X -> Act E X A) : Act E X A := fun e =>
  match m e with (Ok a, e) => (Ok a, e) | (Err x, e) => h x e end.
(** [try { m } catch { }] *)
Definition ignored {E X} (m : Act E X unit) : Act E X unit := try_catch m (fun _ => mret tt).
(** What became of [m]: its value or what it threw. *)
Definition caught {E X A} (m : Act E X A) : Act E X (A + X) := fun e =>
  match m e with (Ok a, e) => (Ok (inl a), e) | (Err x, e) => (Ok (inr x), e) end.
Definition asks {E X A} (f : E -> A) : Act E X A := fun e => (Ok (f e), e).
Definition does {E X} (f : E -> E) : Act E X unit := fun e => (Ok tt, f e).
Definition when {E X} (b : bool) (m : Act E X unit) : Act E X unit := if b then m else mret tt.
Fixpoint for_each {E X A} (f : A -> Act E X unit) (l : list A) : Act E X unit :=
  match l with
  | [] => mret tt
  | a :: l => f a ≫= fun _ => for_each f l
  end.
Fixpoint for_fold {E X A S} (f : S -> A -> Act E X S) (s : S) (l : list A) : Act E X S :=
  match l with
  | [] => mret s
  | a :: l => f s a ≫= fun s => for_fold f s l
  end.
#[global] Arguments for_each : simpl nomatch.
#[global] Arguments for_fold : simpl nomatch.

(** Undo a run that ended well: [H : (m ≫= f) e = (Ok b, e')]. *)
Lemma bind_inv {E X A B} (m : Act E X A) (f : A -> Act E X B) e r e' :
  (m ≫= f) e = (r, e') ->
  (exists a e1, m e = (Ok a, e1) /\ f a e1 = (r, e')) \/ (exists x, m e = (Err x, e') /\ r = Err x).
Proof.
  unfold mbind, act_bind. destruct (m e) as [[a|x] e1]; intros H; [left; eauto|right].
  injection H as <- <-. eauto.
Qed.
Lemma bind_ok_inv {E X A B} (m : Act E X A) (f : A -> Act E X B) e b e' :
  (m ≫= f) e = (Ok b, e') -> exists a e1, m e = (Ok a, e1) /\ f a e1 = (Ok b, e').
Proof. intros [H|(x & _ & ?)]%bind_inv; [done|done]. Qed.
Lemma bind_step {E X A B} (m : Act E X A) (f : A -> Act E X B) e a e1 : m e = (Ok a, e1) -> (m ≫= f) e = f a e1.
Proof. intros H. unfold mbind, act_bind. by rewrite H. Qed.
Lemma bind_fail {E X A B} (m : Act E X A) (f : A -> Act E X B) e x e1 : m e = (Err x, e1) -> (m ≫= f) e = (Err x, e1).
Proof. intros H. unfold mbind, act_bind. by rewrite H. Qed.
Lemma bind_assoc {E X A B C} (m : Act E X A) (f : A -> Act E X B) (g : B -> Act E X C) e :
  ((m ≫= f) ≫= g) e = (m ≫= fun a => f a ≫= g) e.
Proof. unfold mbind, act_bind. by destruct (m e) as [[a|x] e1]. Qed.
Lemma bind_ret_l {E X A B} (a : A) (f : A -> Act E X B) e : (mret a ≫= f) e = f a e.
Proof. done. Qed.

(** ** Total correctness: [m] returns, and [Q] holds of what it returns *)
Section Twp.
Context {E X : Type}.
Definition twp {A} (m : Act E X A) (Q : A -> E -> Prop) (e : E) : Prop :=
  exists a e', m e = (Ok a, e') /\ Q a e'.
Lemma twp_ret {A} (a : A) (Q : A -> E -> Prop) e : Q a e -> twp (mret a) Q e.
Proof. intros H. by exists a, e. Qed.
Lemma twp_bind {A B} (m : Act E X A) (f : A -> Act E X B) Q e :
  twp m (fun a e' => twp (f a) Q e') e -> twp (m ≫= f) Q e.
Proof. intros (a & e' & Hm & b & e2 & Hf & HQ). exists b, e2. by rewrite (bind_step _ _ _ _ _ Hm). Qed.
Lemma twp_mono {A} (m : Act E X A) (P Q : A -> E -> Prop) e :
  twp m P e -> (forall a e', P a e' -> Q a e') -> twp m Q e.
Proof. intros (a & e' & Hm & HP) H. exists a, e'. auto. Qed.
Lemma twp_asks {A} (f : E -> A) (Q : A -> E -> Prop) e : Q (f e) e -> twp (asks f) Q e.
Proof. intros H. by eexists _, _. Qed.
Lemma twp_does f (Q : unit -> E -> Prop) e : Q tt (f e) -> twp (does f) Q e.
Proof. intros H. by eexists _, _. Qed.
Lemma twp_try {A} (m : Act E X A) h (Q : A -> E -> Prop) e :
  (forall a e', m e = (Ok a, e') -> Q a e') -> (forall x e', m e = (Err x, e') -> twp (h x) Q e') -> twp (try_catch m h) Q e.
Proof.
  intros Ha Hx. unfold twp, try_catch. destruct (m e) as [[a|x] e'] eqn:Em; [|by apply Hx].
  exists a, e'. auto.
Qed.
Lemma twp_try_ok {A} (m : Act E X A) h (Q : A -> E -> Prop) e : twp m Q e -> twp (try_catch m h) Q e.
Proof. intros (a & e' & Hm & HQ). exists a, e'. unfold try_catch. by rewrite Hm. Qed.
Lemma twp_run {A} (m : Act E X A) (Q : A -> E -> Prop) e r e' : twp m Q e -> m e = (r, e') -> exists a, r = Ok a /\ Q a e'.
Proof. intros (a & e1 & Hm & HQ) H. rewrite Hm in H. injection H as <- <-. eauto. Qed.
End Twp.

(** Programs that leave what [view] shows alone, and those that also return. *)
Section Keeps.
Context {E X V : Type} (view : E -> V).
Definition keeps {A} (m : Act E X A) : Prop := forall e, view (m e).2 = view e.
Definition safe {A} (m : Act E X A) : Prop := forall e, exists a e', m e = (Ok a, e') /\ view e' = view e.
Lemma safe_keeps {A} (m : Act E X A) : safe m -> keeps m.
Proof. intros H e. destruct (H e) as (a & e' & -> & Hv). done. Qed.
Lemma twp_safe {A} (m : Act E X A) (Q : A -> E -> Prop) e :
  safe m -> (forall a e', view e' = view e -> Q a e') -> twp m Q e.
Proof. intros H HQ. destruct (H e) as (a & e' & Hm & Hv). exists a, e'. auto. Qed.
Lemma safe_ret {A} (a : A) : safe (mret a : Act E X A).
Proof. intros e. by exists a, e. Qed.
Lemma safe_asks {A} (f : E -> A) : safe (asks f : Act E X A).
Proof. intros e. by eexists _, _. Qed.
Lemma safe_bind {A B} (m : Act E X A) (f : A -> Act E X B) : safe m -> (forall a, safe (f a)) -> safe (m ≫= f).
Proof.
  intros Hm Hf e. destruct (Hm e) as (a & e1 & Ha & Hv1). destruct (Hf a e1) as (b & e2 & Hb & Hv2).
  exists b, e2. rewrite (bind_step _ _ _ _ _ Ha). split; [done|congruence].
Qed.
Lemma safe_when b (m : Act E X unit) : safe m -> safe (when b m).
Proof. intros H. destruct b; [done|apply safe_ret]. Qed.
Lemma keeps_bind {A B} (m : Act E X A) (f : A -> Act E X B) : keeps m -> (forall a, keeps (f a)) -> keeps (m ≫= f).
Proof.
  intros Hm Hf e. unfold mbind, act_bind. specialize (Hm e). destruct (m e) as [[a|x] e1]; [|done].
  rewrite (Hf a e1). done.
Qed.
Lemma keeps_safe_try {A} (m : Act E X A) h : keeps m -> (forall x, safe (h x)) -> safe (try_catch m h).
Proof.
  intros Hm Hh e. unfold try_catch. specialize (Hm e). destruct (m e) as [[a|x] e1]; cbn in Hm; [by exists a, e1|].
  destruct (Hh x e1) as (a & e2 & Ha & Hv). exists a, e2. split; [done|congruence].
Qed.
Lemma safe_ignored (m : Act E X unit) : keeps m -> safe (ignored m).
Proof. intros H. apply keeps_safe_try; [done|]. intros x. apply safe_ret. Qed.
End Keeps.
Create HintDb effects.
#[export] Hint Resolve safe_ret safe_asks safe_bind safe_when safe_ignored safe_keeps keeps_bind keeps_safe_try : effects.
