(* ===== verification/LapOutcome.v ===== *)
(** * The typed exit of a lap ([src/src/runtime/ralph/lap_outcome.ts])

    A lap ends by printing one line [RALPH-EXIT: {json}]; the harness folds its
    output into an envelope and [outcomeFromEnvelope] reads the outcome off it.
    The payload's numbers are integers, as in [Json]. *)

From Stdlib Require Import Ascii String QArith.
From stdpp Require Import base option list strings pretty.
From S2P Require Import Prelude Json JsonText ExprSyntax.

Inductive HumanRequiredReason :=
| IRREVERSIBLE_BOUNDARY | SCOPE_FORK | UNRECOVERABLE_WEDGE | NO_DURABLE_COMMIT
| BUDGET | RATE_BUDGET | PROCESS_PAUSED | CANCELLED_BY_HUMAN | BOARD_WAITING | BOARD_EMPTY.
#[export] Instance HumanRequiredReason_eq_dec : EqDecision HumanRequiredReason.
Proof. solve_decision. Defined.
Definition reason_text (r : HumanRequiredReason) : string :=
  match r with
  | IRREVERSIBLE_BOUNDARY => "IRREVERSIBLE_BOUNDARY" | SCOPE_FORK => "SCOPE_FORK"
  | UNRECOVERABLE_WEDGE => "UNRECOVERABLE_WEDGE" | NO_DURABLE_COMMIT => "NO_DURABLE_COMMIT"
  | BUDGET => "BUDGET" | RATE_BUDGET => "RATE_BUDGET" | PROCESS_PAUSED => "PROCESS_PAUSED"
  | CANCELLED_BY_HUMAN => "CANCELLED_BY_HUMAN" | BOARD_WAITING => "BOARD_WAITING" | BOARD_EMPTY => "BOARD_EMPTY"
  end.
Inductive LapOutcome :=
| SHIPPED
| AWAITING_INPUT (stage : string)
| HUMAN_REQUIRED (reason : HumanRequiredReason) (item : option string) (payload : option Json)
| WEDGE
| TIMEOUT
| CRASH.

Definition HUMAN_REQUIRED_REASONS : list HumanRequiredReason :=
  [IRREVERSIBLE_BOUNDARY; SCOPE_FORK; UNRECOVERABLE_WEDGE; BUDGET; RATE_BUDGET; BOARD_EMPTY].
(** [isReason], with the reason a text names. *)
Definition isReason (v : option Json) : option HumanRequiredReason :=
  match v with
  | Some (JStr s) => List.find (fun r => (reason_text r =? s)%string) HUMAN_REQUIRED_REASONS
  | _ => None
  end.
Definition TAG : string := "RALPH-EXIT:".

(** ** [indexOf], [lastIndexOf], [slice] *)
Fixpoint indexOf (p s : string) : option nat :=
  if starts_with s p then Some 0
  else match s with EmptyString => None | String _ r => S <$> indexOf p r end.
Fixpoint lastIndexOf (p s : string) : option nat :=
  match s with
  | EmptyString => if starts_with s p then Some 0 else None
  | String _ r => match lastIndexOf p r with
                  | Some n => Some (S n)
                  | None => if starts_with s p then Some 0 else None
                  end
  end.
Fixpoint slice_from (n : nat) (s : string) : string :=
  match n, s with S n, String _ r => slice_from n r | _, _ => s end.

(** The loop of [sliceFirstJsonObject]: the text up to the brace that closes
    the object. *)
Fixpoint balanced (depth : nat) (inStr esc : bool) (s : string) : option string :=
  match s with
  | EmptyString => None
  | String c r =>
      String c <$>
        (if inStr then
           if esc then balanced depth true false r
           else if Ascii.eqb c BACKSLASH then balanced depth true true r
           else if Ascii.eqb c DQUOTE then balanced depth false false r
           else balanced depth true false r
         else if Ascii.eqb c DQUOTE then balanced depth true esc r
         else if Ascii.eqb c "{" then balanced (S depth) false esc r
         else if Ascii.eqb c "}" then
           match depth with S (S d) => balanced (S d) false esc r | _ => Some "" end
         else balanced depth false esc r)
  end.
Definition sliceFirstJsonObject (s : string) : option string :=
  if starts_with s "{" then balanced 0 false false s else None.

(** What a parsed object says. *)
Definition typed_exit (rec : list (string * Json)) : option LapOutcome :=
  match obj_get "kind" rec with
  | Some (JStr kind) =>
      if (kind =? "SHIPPED")%string then if Nat.eqb (List.length (obj_keys rec)) 1 then Some SHIPPED else None
      else if (kind =? "WEDGE")%string then Some WEDGE
      else if (kind =? "TIMEOUT")%string then Some TIMEOUT
      else if (kind =? "CRASH")%string then Some CRASH
      else if (kind =? "HUMAN_REQUIRED")%string then
        match isReason (obj_get "reason" rec) with
        | None => None
        | Some reason =>
            Some (HUMAN_REQUIRED reason
              (match obj_get "item" rec with Some (JStr i) => Some i | _ => None end) (obj_get "payload" rec))
        end
      else None
  | _ => None
  end.
Definition extractTypedExit (resultText : string) : option LapOutcome :=
  match indexOf TAG resultText with
  | None => None
  | Some idx =>
      if bool_decide (lastIndexOf TAG resultText <> Some idx) then None
      else
        json ← sliceFirstJsonObject (trim_start (slice_from (idx + String.length TAG) resultText));
        match parseJson json with
        | Some (JObj rec) => typed_exit rec
        | _ => None
        end
  end.
Definition tagIsPresent (resultText : string) : bool := bool_decide (is_Some (lastIndexOf TAG resultText)).

(** ** Envelopes *)
Inductive ControlKind := ck_PROCESS_PAUSED | ck_CANCELLED_BY_HUMAN.
Record CoreControlOutcome := {
  cc_kind : ControlKind; cc_processId : string; cc_action : string; cc_actionId : string;
}.
Record LapEnvelope := {
  le_resultText : string; le_costUsd : Num; le_inputTokens : Num; le_outputTokens : Num;
  le_controlOutcome : option CoreControlOutcome; le_isError : bool;
}.
Definition control_reason (k : ControlKind) : HumanRequiredReason :=
  match k with ck_PROCESS_PAUSED => PROCESS_PAUSED | ck_CANCELLED_BY_HUMAN => CANCELLED_BY_HUMAN end.
Definition control_payload (c : CoreControlOutcome) : Json :=
  JObj [("kind", JStr (reason_text (control_reason (cc_kind c)))); ("processId", JStr (cc_processId c));
        ("action", JStr (cc_action c)); ("actionId", JStr (cc_actionId c))].
Record LapUsage := { lu_costUsd : Num; lu_inputTokens : Num; lu_outputTokens : Num }.
Definition outcomeFromEnvelope (env : LapEnvelope) : LapOutcome * LapUsage :=
  let usage := {| lu_costUsd := le_costUsd env; lu_inputTokens := le_inputTokens env;
                  lu_outputTokens := le_outputTokens env |} in
  match le_controlOutcome env with
  | Some c => (HUMAN_REQUIRED (control_reason (cc_kind c)) None (Some (control_payload c)), usage)
  | None =>
      if le_isError env then (CRASH, usage)
      else (match extractTypedExit (le_resultText env) with
            | Some o => o
            | None => if tagIsPresent (le_resultText env) then WEDGE else CRASH
            end, usage)
  end.

(** ** What a lap prints *)
Definition opt_field (k : string) (v : option Json) : list (string * Json) :=
  match v with Some x => [(k, x)] | None => [] end.
(** The object of an exit a model may author. *)
Definition exit_object (o : LapOutcome) : option (list (string * Json)) :=
  match o with
  | SHIPPED => Some [("kind", JStr "SHIPPED")]
  | WEDGE => Some [("kind", JStr "WEDGE")]
  | TIMEOUT => Some [("kind", JStr "TIMEOUT")]
  | CRASH => Some [("kind", JStr "CRASH")]
  | HUMAN_REQUIRED reason item payload =>
      if bool_decide (reason ∈ HUMAN_REQUIRED_REASONS)
      then Some (("kind", JStr "HUMAN_REQUIRED") :: ("reason", JStr (reason_text reason))
                 :: opt_field "item" (JStr <$> item) ++ opt_field "payload" payload)
      else None
  | AWAITING_INPUT _ => None
  end.

(** ** Reading back what a lap printed *)

(** Text the brace scan walks over outside strings without changing depth. *)
Definition neutral (t : string) : Prop := forall d r,
  balanced (S d) false false (t +:+ r) = (fun x => t +:+ x) <$> balanced (S d) false false r.
Lemma option_map_map {A B C} (f : A -> B) (g : B -> C) (o : option A) : g <$> (f <$> o) = (fun x => g (f x)) <$> o.
Proof. by destruct o. Qed.
Lemma neutral_nil : neutral "".
Proof. intros d r. cbn. by destruct (balanced _ _ _ r). Qed.
Lemma neutral_app s t : neutral s -> neutral t -> neutral (s +:+ t).
Proof.
  intros Hs Ht d r. rewrite string_app_assoc, Hs, Ht, option_map_map. destruct (balanced _ _ _ r); cbn; [|done].
  by rewrite string_app_assoc.
Qed.
Lemma neutral_char c :
  Ascii.eqb c DQUOTE = false -> Ascii.eqb c "{" = false -> Ascii.eqb c "}" = false -> neutral (String c "").
Proof. intros H1 H2 H3 d r. cbn [String.append balanced]. by rewrite H1, H2, H3. Qed.
Lemma neutral_chars s :
  Forall (fun c => Ascii.eqb c DQUOTE = false /\ Ascii.eqb c "{" = false /\ Ascii.eqb c "}" = false)
    (String.list_ascii_of_string s) -> neutral s.
Proof.
  induction s as [|c s IH]; cbn [String.list_ascii_of_string]; intros H; [apply neutral_nil|].
  apply Forall_cons in H as [(H1 & H2 & H3) H]. change (String c s) with (String c "" +:+ s).
  apply neutral_app; [by apply neutral_char|by apply IH].
Qed.
Lemma neutral_join l : Forall neutral l -> neutral (join_with "," l).
Proof.
  induction l as [|x [|y l] IH]; intros H; [apply neutral_nil| |]; apply Forall_cons in H as [Hx H]; [done|].
  rewrite join_with_cons by done. repeat apply neutral_app; [done|by apply neutral_char|by apply IH].
Qed.
Lemma neutral_braces t : neutral t -> neutral ("{" +:+ t +:+ "}").
Proof.
  intros Ht d r. cbn [String.append balanced Ascii.eqb Bool.eqb DQUOTE]. rewrite string_app_assoc, Ht.
  cbn [String.append balanced Ascii.eqb Bool.eqb DQUOTE]. rewrite !option_map_map.
  destruct (balanced _ _ _ r); cbn; [|done]. by rewrite string_app_assoc.
Qed.
Lemma balanced_object t r : neutral t -> balanced 0 false false ("{" +:+ (t +:+ "}") +:+ r) = Some ("{" +:+ t +:+ "}").
Proof.
  intros Ht. cbn [String.append balanced Ascii.eqb Bool.eqb DQUOTE]. rewrite string_app_assoc, Ht. by cbn.
Qed.

(** Strings *)
Lemma balanced_escape c d r :
  balanced d true false (escape c +:+ r) = (fun x => escape c +:+ x) <$> balanced d true false r.
Proof.
  destruct c as [[] [] [] [] [] [] [] []];
    match goal with |- context [escape ?c] => let v := eval vm_compute in (escape c) in change (escape c) with v end;
    cbn; by destruct (balanced d true false r).
Qed.
Lemma balanced_escapes s d r :
  balanced d true false (escapes s +:+ r) = (fun x => escapes s +:+ x) <$> balanced d true false r.
Proof.
  induction s as [|c s IH]; cbn [escapes]; [cbn; by destruct (balanced _ _ _ r)|].
  rewrite string_app_assoc, balanced_escape, IH, option_map_map. destruct (balanced _ _ _ r); cbn; [|done].
  by rewrite string_app_assoc.
Qed.
Lemma neutral_quoteJson s : neutral (quoteJson s).
Proof.
  intros d r. unfold quoteJson. change (QUOTE) with DQUOTE. cbn [String.append balanced].
  rewrite Ascii.eqb_refl, string_app_assoc, balanced_escapes. cbn [String.append balanced]. rewrite Ascii.eqb_refl.
  change (Ascii.eqb DQUOTE BACKSLASH) with false. cbn match. rewrite !option_map_map.
  destruct (balanced _ _ _ r); cbn; [|done]. by rewrite string_app_assoc.
Qed.

Lemma neutral_digits s : all_digits s = true -> neutral s.
Proof.
  induction s as [|c s IH]; cbn [all_digits]; [intros; apply neutral_nil|].
  destruct (digit_value c) eqn:Ec; [|done]. intros Hs. change (String c s) with (String c "" +:+ s).
  apply neutral_app; [|by apply IH].
  apply neutral_char; (apply Ascii.eqb_neq; intros ->; by vm_compute in Ec).
Qed.
Lemma neutral_pretty (n : Z) : neutral (pretty n).
Proof.
  assert (forall m : N, neutral (pretty m)) as HN.
  { intros m. apply neutral_digits. unfold pretty, pretty_N. case_decide; [done|]. by apply pretty_go_digits. }
  destruct n as [|p|p]; [apply (HN 0%N)|apply (HN (Npos p))|].
  change (pretty (Zneg p)) with ("-" +:+ pretty (Npos p)). apply neutral_app; [by apply neutral_char|apply HN].
Qed.
(** Every JSON text is neutral, so the scan stops where an object ends. *)
Lemma neutral_stringify v : neutral (stringify v).
Proof.
  induction v as [|b|n|s|l IH|o IH] using Json_nested_ind; cbn [stringify].
  - by apply neutral_chars; repeat constructor.
  - by destruct b; apply neutral_chars; repeat constructor.
  - apply neutral_pretty.
  - apply neutral_quoteJson.
  - apply (neutral_app "["); [by apply neutral_char|]. apply neutral_app; [|by apply neutral_char].
    apply neutral_join. by rewrite Forall_map.
  - apply neutral_braces, neutral_join. rewrite !Forall_map. eapply Forall_impl; [exact IH|].
    intros [k v] H. unfold field. cbn [fst snd] in *.
    apply neutral_app; [apply neutral_quoteJson|]. apply (neutral_app ":"); [by apply neutral_char|done].
Qed.
Lemma slice_stringify o after : sliceFirstJsonObject (stringify (JObj o) +:+ after) = Some (stringify (JObj o)).
Proof.
  unfold sliceFirstJsonObject. cbn [stringify]. unfold printObj. rewrite string_app_assoc.
  assert (forall t, starts_with ("{" +:+ t) "{" = true) as -> by by intros []. apply balanced_object.
  apply neutral_join. rewrite Forall_map, Forall_map. apply Forall_forall. intros [k v] _. unfold field. cbn [fst snd].
  apply neutral_app; [apply neutral_quoteJson|]. apply (neutral_app ":"); [by apply neutral_char|apply neutral_stringify].
Qed.

(** Where the tag is. *)
Lemma lastIndexOf_none p s : indexOf p s = None -> lastIndexOf p s = None.
Proof.
  induction s as [|c s IH]; cbn [indexOf lastIndexOf]; case_match; try done.
  intros H'. rewrite IH; [done|]. by destruct (indexOf p s).
Qed.
Lemma lastIndexOf_app p b s n : lastIndexOf p s = Some n -> lastIndexOf p (b +:+ s) = Some (String.length b + n).
Proof. intros H. induction b as [|c b IH]; [done|]. cbn [String.append lastIndexOf String.length]. by rewrite IH. Qed.
Lemma last_tag rest : indexOf TAG rest = None -> lastIndexOf TAG (TAG +:+ rest) = Some 0.
Proof. intros H%lastIndexOf_none. unfold TAG in *. cbn. rewrite H. by destruct rest. Qed.
(** The tag has no proper prefix that is also a suffix, so no occurrence
    straddles its start. *)
Lemma prefix_cons a p c s : String.prefix (String a p) (String c s) = Ascii.eqb a c && String.prefix p s.
Proof. cbn. destruct (ascii_dec a c) as [-> |H]; [by rewrite Ascii.eqb_refl|by apply Ascii.eqb_neq in H as ->]. Qed.
Lemma no_straddle b s : starts_with (b +:+ TAG +:+ s) TAG = true -> b = "" \/ starts_with b TAG = true.
Proof.
  unfold starts_with, TAG. destruct b as [|c b]; [by left|]. intros H. right. revert H.
  cbn [String.append]. rewrite !prefix_cons. destruct (Ascii.eqb _ c); [|done]. cbn [andb]. clear c.
  do 10 (destruct b as [|c b]; cbn [String.append]; rewrite !prefix_cons;
         [discriminate|destruct (Ascii.eqb _ c); [cbn [andb]; clear c|discriminate]]).
  by destruct b.
Qed.
Lemma first_tag b rest : indexOf TAG b = None -> indexOf TAG (b +:+ TAG +:+ rest) = Some (String.length b).
Proof.
  induction b as [|c b IH]; intros H.
  { assert (starts_with (TAG +:+ rest) TAG = true) as E by (apply starts_with_spec; eauto).
    change ("" +:+ TAG +:+ rest) with (TAG +:+ rest). revert E. by destruct (TAG +:+ rest); cbn [indexOf]; intros ->. }
  cbn [String.append indexOf String.length] in H |- *.
  destruct (starts_with (String c b) TAG) eqn:Es; [done|].
  destruct (starts_with (String c (b +:+ TAG +:+ rest)) TAG) eqn:E.
  - destruct (no_straddle (String c b) rest) as [|E']; [done|done|congruence].
  - rewrite IH; [done|]. by destruct (indexOf TAG b).
Qed.
Lemma slice_after b p rest : slice_from (String.length b + String.length p) (b +:+ p +:+ rest) = rest.
Proof.
  assert (forall a r, slice_from (String.length a) (a +:+ r) = r) as H by (by induction a; intros [|]; cbn).
  by rewrite <- string_app_length, <- string_app_assoc.
Qed.
Lemma trim_start_blanks b c r : Forall (fun c => is_space c = true) (String.list_ascii_of_string b) -> is_space c = false ->
  trim_start (b +:+ String c r) = String c r.
Proof.
  intros Hb Hc. unfold trim_start. induction b as [|d b IH]; cbn [String.append span].
  - cbn. by rewrite Hc.
  - cbn in Hb. apply Forall_cons in Hb as [Hd Hb]. cbn. rewrite Hd. specialize (IH Hb).
    destruct (span is_space (b +:+ String c r)). done.
Qed.
Definition blank (s : string) : Prop := Forall (fun c => is_space c = true) (String.list_ascii_of_string s).
Lemma extract_printed before blanks rec after :
  indexOf TAG before = None -> indexOf TAG (blanks +:+ stringify (JObj rec) +:+ after) = None -> blank blanks ->
  json_ok (JObj rec) = true ->
  extractTypedExit (before +:+ TAG +:+ blanks +:+ stringify (JObj rec) +:+ after) = typed_exit rec.
Proof.
  intros Hb Ha Hbl Hok. unfold extractTypedExit. rewrite first_tag by done.
  rewrite (lastIndexOf_app _ _ _ 0) by (by apply last_tag). rewrite Nat.add_0_r.
  rewrite bool_decide_false by (by intros []). rewrite slice_after.
  assert (exists t, stringify (JObj rec) +:+ after = String "{" t) as [t Et] by (eexists; reflexivity).
  rewrite Et, trim_start_blanks by done. rewrite <- Et, slice_stringify. cbn [mbind option_bind].
  by rewrite parse_stringify.
Qed.
Lemma typed_exit_object o rec : exit_object o = Some rec -> typed_exit rec = Some o.
Proof.
  destruct o as [|stage|r item payload| | |]; cbn [exit_object]; try discriminate; [by intros [= <-]|..]; try by intros [= <-].
  case_bool_decide as Hr; [|done]. intros [= <-]. unfold typed_exit.
  assert (isReason (Some (JStr (reason_text r))) = Some r) as Hi.
  { unfold HUMAN_REQUIRED_REASONS in Hr. rewrite !elem_of_cons, elem_of_nil in Hr.
    by destruct Hr as [-> |[-> |[-> |[-> |[-> |[-> |[]]]]]]]. }
  destruct item, payload; cbn -[isReason]; by rewrite Hi.
Qed.
Lemma exit_object_ok o rec :
  exit_object o = Some rec -> match o with HUMAN_REQUIRED _ _ (Some p) => json_ok p = true | _ => True end ->
  json_ok (JObj rec) = true.
Proof.
  destruct o as [|stage|r item payload| | |]; cbn [exit_object]; try discriminate; try by intros [= <-].
  case_bool_decide; [|done]. intros [= <-] Hp. destruct item, payload; cbn [opt_field fmap option_fmap option_map app json_ok forallb snd] in *; rewrite ?Hp; reflexivity.
Qed.

(** C18: the exit a lap prints is the outcome the loop reads.  Whatever the
    lap wrote around it, as long as it printed the tag once, an exit a model
    may author comes back exactly as it was put in, at the price of nothing
    lost: the object is cut out by the brace scan though text follows it, and
    strings in it may hold braces and quotes. *)
Theorem typed_exit_roundtrip (o : LapOutcome) (rec : list (string * Json)) (before blanks after : string) (env : LapEnvelope) :
  exit_object o = Some rec ->
  match o with HUMAN_REQUIRED _ _ (Some p) => json_ok p = true | _ => True end ->
  indexOf TAG before = None -> indexOf TAG (blanks +:+ stringify (JObj rec) +:+ after) = None -> blank blanks ->
  le_resultText env = before +:+ TAG +:+ blanks +:+ stringify (JObj rec) +:+ after ->
  le_isError env = false -> le_controlOutcome env = None ->
  (outcomeFromEnvelope env).1 = o.
Proof.
  intros Ho Hp Hb Ha Hbl Ht He Hc. unfold outcomeFromEnvelope. rewrite Hc, He, Ht. cbn [fst].
  rewrite extract_printed by eauto using exit_object_ok. by rewrite (typed_exit_object o).
Qed.

(** Only the core says [AWAITING_INPUT] or one of its own reasons. *)
Lemma isReason_elem v r : isReason v = Some r -> r ∈ HUMAN_REQUIRED_REASONS.
Proof.
  unfold isReason. intros H. repeat case_match; try discriminate.
  apply List.find_some in H as [H _]. by apply list_elem_of_In.
Qed.
Lemma typed_exit_author rec o : typed_exit rec = Some o ->
  match o with AWAITING_INPUT _ => False | HUMAN_REQUIRED r _ _ => r ∈ HUMAN_REQUIRED_REASONS | _ => True end.
Proof.
  unfold typed_exit. intros H. repeat case_hyp H; try discriminate; injection H as <-; eauto using isReason_elem.
Qed.
Lemma core_outcomes_unspoofable env :
  match (outcomeFromEnvelope env).1 with
  | AWAITING_INPUT _ => False
  | HUMAN_REQUIRED r _ _ => r ∈ HUMAN_REQUIRED_REASONS \/
      exists c, le_controlOutcome env = Some c /\ r = control_reason (cc_kind c)
  | _ => True
  end.
Proof.
  unfold outcomeFromEnvelope. destruct (le_controlOutcome env) as [c|]; [right; eauto|].
  destruct (le_isError env); [done|]. cbn [fst].
  destruct (extractTypedExit (le_resultText env)) as [o|] eqn:E; [|by destruct (tagIsPresent _)].
  unfold extractTypedExit in E. repeat case_hyp E; try discriminate.
  destruct (sliceFirstJsonObject _) as [json|]; [|done]. cbn in E. repeat case_hyp E; try discriminate.
  apply typed_exit_author in E. destruct o; auto.
Qed.
(** The tag twice is garbage, whatever follows it. *)
Lemma two_tags_wedge :
  (outcomeFromEnvelope {| le_resultText := "I will print RALPH-EXIT: when done. RALPH-EXIT: {" +:+ quoted "kind" +:+ ":" +:+ quoted "SHIPPED" +:+ "}";
     le_costUsd := Fin 0; le_inputTokens := Fin 0; le_outputTokens := Fin 0; le_controlOutcome := None; le_isError := false |}).1 = WEDGE.
Proof. vm_compute. reflexivity. Qed.

Definition demo_exit : LapOutcome := HUMAN_REQUIRED SCOPE_FORK (Some "wg-1") (Some (JObj [("options", JStr "a } or b {")])).
Definition demo_object : list (string * Json) :=
  [("kind", JStr "HUMAN_REQUIRED"); ("reason", JStr "SCOPE_FORK"); ("item", JStr "wg-1"); ("payload", JObj [("options", JStr "a } or b {")])].
Definition demo_envelope : LapEnvelope :=
  {| le_resultText := "done." +:+ TAG +:+ " " +:+ stringify (JObj demo_object) +:+ " } bye";
     le_costUsd := Fin 1; le_inputTokens := Fin 2; le_outputTokens := Fin 3; le_controlOutcome := None; le_isError := false |}.
Lemma typed_exit_roundtrip_witness : (outcomeFromEnvelope demo_envelope).1 = demo_exit.
Proof.
  apply (typed_exit_roundtrip demo_exit demo_object "done." " " " } bye"); try reflexivity.
  repeat constructor.
Defined.
