(* ===== verification/Ralph.v ===== *)
(** * The autonomous loop ([src/src/runtime/ralph/orchestrator.ts])

    The coordinator takes the oldest ready item of the work graph, claims it,
    drives it stage by stage with supervised laps, checks that its work was
    committed, closes it or parks it, and goes on until the board has nothing
    for it: with [supervisor.ts], [escalate_lap.ts], [consistency_gate.ts],
    [board_availability.ts], [loop/reaper.ts], [loop/parent_rollup.ts],
    [loop/loop_boot_sweep.ts] and [auto_pull.ts].

    Injected dependencies are the record [RalphDeps], operations on a world
    [E] that may throw; one that is omitted is the operation that does nothing,
    and an [option] where the code asks whether it is there.  The claim's renewal
    timer fires during a lap; its firings are placed at the lap's end.  Unbounded
    loops take fuel and throw [OutOfFuel] when it runs out. *)

From Stdlib Require Import Ascii String.
From stdpp Require Import base option list strings pretty gmap.
From S2P Require Import Prelude Effects Json ExprSyntax ExprEval RateLimit Workgraph LapOutcome.
#[local] Open Scope os_scope.

Inductive RalphError :=
| EscalationUndeliverable (reason : HumanRequiredReason) (fallthrough : option string)
| Thrown (what : string)
| OutOfFuel.
Abbreviation Io E := (Act E RalphError).
Abbreviation Edge := (string * string * string)%type.

Record LapResult := {
  lr_outcome : LapOutcome; lr_costUsd : Num; lr_inputTokens : option Num; lr_outputTokens : option Num;
  lr_attemptId : option string;
}.
Definition lap_result (o : LapOutcome) (cost : Num) : LapResult :=
  {| lr_outcome := o; lr_costUsd := cost; lr_inputTokens := None; lr_outputTokens := None; lr_attemptId := None |}.
Record LoopMetricRow := {
  mr_runId : string; mr_itemId : string; mr_stage : string; mr_harness : string; mr_authMode : string;
  mr_startedAtMs : Z; mr_endedAtMs : Z; mr_durationMs : Z; mr_costUsd : Num; mr_inputTokens : Num; mr_outputTokens : Num;
}.
Inductive AuthMode := api | subscription.
Definition auth_text (m : AuthMode) : string := match m with api => "api" | subscription => "subscription" end.
Record RalphConfig := {
  cf_authMode : AuthMode; cf_maxBudgetUsd : Num; cf_claimTtlSec : Z; cf_maxRetries : nat;
  cf_harness : string; cf_runId : string;
}.
Inductive ReconcileOutcome := up_to_date | fast_forwarded | kept_local | merged | conflict.
Record ResolvedEnvironments := { env_production : string; env_staging : option string; env_local : string }.
Inductive MonitorKind := item_closed | item_wedged.

Record RalphGitSeam (E : Type) := {
  git_tip : option string -> Io E string;
  git_committedSince : string -> option string -> Io E (list string);
  git_uncommittedPaths : Io E (list string);
}.
Arguments git_tip {E}. Arguments git_committedSince {E}. Arguments git_uncommittedPaths {E}.
Record StageLoop (E : Type) := {
  sl_initialStage : string;
  sl_isAutomated : string -> bool;
  sl_isTerminal : string -> bool;
  sl_stagePrompt : Issue -> string -> Io E string;
  sl_completedStage : option (Issue -> string -> Io E (option string));
  sl_readStage : string -> Io E (option string);
  sl_readAttemptStage : string -> string -> Io E string;
  sl_clearStage : string -> Io E unit;
  sl_admissionGate : Issue -> Io E bool;
  sl_reconcileStage : string -> string -> Io E unit;
}.
Arguments sl_initialStage {E}. Arguments sl_isAutomated {E}. Arguments sl_isTerminal {E}.
Arguments sl_stagePrompt {E}. Arguments sl_completedStage {E}. Arguments sl_readStage {E}.
Arguments sl_readAttemptStage {E}. Arguments sl_clearStage {E}. Arguments sl_admissionGate {E}.
Arguments sl_reconcileStage {E}.
(** [rd_firings] is how often the renewal timer fires during the lap that just
    ended; [rd_liveItems] the items that fold live on the monitor's feed. *)
Record RalphDeps (E : Type) := {
  rd_listReady : Io E (list Issue);
  rd_listIssues : option string -> Io E (list Issue);
  rd_listEdges : Io E (list Edge);
  rd_getIssue : string -> Io E (option Issue);
  rd_updateIssue : string -> string -> Io E unit;
  rd_archiveIssue : string -> string -> Io E unit;
  rd_claimIssue : string -> string -> Z -> Io E bool;
  rd_renewClaim : option (string -> string -> Z -> Io E bool);
  rd_wedgeMark : string -> string -> Io E unit;
  rd_clearWedge : string -> Io E unit;
  rd_releaseClaim : string -> option string -> Io E unit;
  rd_claimAudience : Io E string;
  rd_runLap : Issue -> option string -> option string -> Io E LapResult;
  rd_firings : E -> nat;
  rd_escalate : HumanRequiredReason -> option string -> string -> Io E (bool * option string);
  rd_stdout : string -> E -> E;
  rd_stderr : string -> E -> E;
  rd_narrate : string -> Io E unit;
  rd_display : string -> Io E unit;
  rd_onShipped : string -> Io E unit;
  rd_loopPassReconcile : Io E (option string);
  rd_recordMetric : LoopMetricRow -> Io E unit;
  rd_stageLoop : option (StageLoop E);
  rd_git : option (RalphGitSeam E);
  rd_environments : option ResolvedEnvironments;
  rd_baseRefresh : option (Io E ReconcileOutcome);
  rd_heartbeat : Io E unit;
  rd_sleep : nat -> Io E unit;
  rd_liveItems : Io E (list string);
  rd_emitMonitorEvent : string -> MonitorKind -> E -> E;
  rd_nowMs : E -> Z;
  rd_nowIso : E -> string;
}.
Arguments rd_listReady {E}. Arguments rd_listIssues {E}. Arguments rd_listEdges {E}. Arguments rd_getIssue {E}.
Arguments rd_updateIssue {E}. Arguments rd_archiveIssue {E}. Arguments rd_claimIssue {E}. Arguments rd_renewClaim {E}.
Arguments rd_wedgeMark {E}. Arguments rd_clearWedge {E}. Arguments rd_releaseClaim {E}. Arguments rd_claimAudience {E}.
Arguments rd_runLap {E}. Arguments rd_firings {E}. Arguments rd_escalate {E}. Arguments rd_stdout {E}. Arguments rd_stderr {E}.
Arguments rd_narrate {E}. Arguments rd_display {E}. Arguments rd_onShipped {E}. Arguments rd_loopPassReconcile {E}.
Arguments rd_recordMetric {E}. Arguments rd_stageLoop {E}. Arguments rd_git {E}. Arguments rd_environments {E}.
Arguments rd_baseRefresh {E}. Arguments rd_heartbeat {E}. Arguments rd_sleep {E}. Arguments rd_liveItems {E}.
Arguments rd_emitMonitorEvent {E}. Arguments rd_nowMs {E}. Arguments rd_nowIso {E}.

(** ** Reports *)
Definition date_of (iso : string) : string := String.substring 0 10 iso.
Record ScopeChecklistItem := { si_item : string; si_done : bool; si_note : option string }.
Definition renderScopeBefore (scope subject : string) (will : list string) (iso : string) : string :=
  join_with NEWLINE (["Before-" +:+ scope +:+ " · " +:+ subject +:+ " · " +:+ date_of iso; ""; "Will:"]
                     ++ List.map (fun w => "  - " +:+ w) will) +:+ NEWLINE.
Definition renderScopeAfter (scope subject : string) (resolved : list ScopeChecklistItem) (produced next : option string)
    (iso : string) : string :=
  join_with NEWLINE (["After-" +:+ scope +:+ " · " +:+ subject +:+ " · " +:+ date_of iso; ""]
    ++ List.map (fun r => "  " +:+ (if si_done r then "✓" else "✗") +:+ " " +:+ si_item r +:+
                          match si_note r with Some n => " — " +:+ n | None => "" end) resolved
    ++ match produced with Some p => [""; "Produced: " +:+ p] | None => [] end
    ++ match next with Some n => ["Next: " +:+ n] | None => [] end) +:+ NEWLINE.

(** ** Reasons that end the run *)
Definition RESOURCE_PAUSES : list HumanRequiredReason :=
  [BUDGET; RATE_BUDGET; PROCESS_PAUSED; CANCELLED_BY_HUMAN; BOARD_WAITING; BOARD_EMPTY].
Definition isResourcePause (r : HumanRequiredReason) : bool := bool_decide (r ∈ RESOURCE_PAUSES).
Abbreviation RalphStop := HumanRequiredReason.

(** ** Issues *)
Definition is_terminal_issue (i : Issue) : bool := (i_status i =? "closed")%string || (i_status i =? "archived")%string.
Definition with_issue_status (s : string) (i : Issue) : Issue :=
  {| i_id := i_id i; i_title := i_title i; i_body := i_body i; i_status := s; i_createdAt := i_createdAt i;
     i_updatedAt := i_updatedAt i; i_claimToken := i_claimToken i; i_claimAudience := i_claimAudience i;
     i_claimExpiresAt := i_claimExpiresAt i; i_wedgeReason := i_wedgeReason i; i_archiveReason := i_archiveReason i |}.
(** [new Map(issues.map((i) => [i.id, i]))] *)
Definition byId (issues : list Issue) : gmap string Issue := fold_left (fun m i => <[i_id i := i]> m) issues ∅.
Definition edge_from (e : Edge) : string := e.1.1.
Definition edge_to (e : Edge) : string := e.1.2.
Definition edge_type (e : Edge) : string := e.2.

(** ** The board when nothing is eligible *)
Inductive BoardWaitReason := w_admission | w_wedged | w_claimed | w_blocked | w_in_progress | w_unavailable.
#[export] Instance BoardWaitReason_eq_dec : EqDecision BoardWaitReason.
Proof. solve_decision. Defined.
Definition wait_text (r : BoardWaitReason) : string :=
  match r with
  | w_admission => "admission" | w_wedged => "wedged" | w_claimed => "claimed" | w_blocked => "blocked"
  | w_in_progress => "in_progress" | w_unavailable => "unavailable"
  end.
Record BoardWaitingItem := { bw_id : string; bw_reason : BoardWaitReason; bw_detail : option string }.
(** [None] is the empty board. *)
Abbreviation BoardAvailability := (option (list BoardWaitingItem)).
Definition hasLiveClaim (i : Issue) (nowIso : string) : bool :=
  bool_decide (i_claimToken i <> None) &&
  match i_claimExpiresAt i with None => true | Some e => String.ltb nowIso e end.
(** The live issues that block [id], in edge order. *)
Definition blockersOf (issues : list Issue) (edges : list Edge) (id : string) : list string :=
  omap (fun e => if ((edge_type e =? "blocks") && (edge_to e =? id))%string then
                   match byId issues !! edge_from e with
                   | Some b => if is_terminal_issue b then None else Some (edge_from e)
                   | None => None
                   end
                 else None) edges.
Definition classify_waiting (issues : list Issue) (edges : list Edge) (held : list string) (nowIso : string) (i : Issue)
    : BoardWaitingItem :=
  let item r d := {| bw_id := i_id i; bw_reason := r; bw_detail := d |} in
  if (i_status i =? "in_progress")%string then item w_in_progress None
  else match i_wedgeReason i with
  | Some w => item w_wedged (Some w)
  | None =>
      if hasLiveClaim i nowIso then item w_claimed (i_claimExpiresAt i)
      else if set_has (i_id i) held then item w_admission None
      else match blockersOf issues edges (i_id i) with
           | [] => item w_unavailable None
           | by_ => item w_blocked (Some (join_with "," (stable_sort String.leb by_)))
           end
  end.
Definition board_availability (issues : list Issue) (edges : list Edge) (held : list string) (nowIso : string)
    : BoardAvailability :=
  match List.filter (fun i => negb (is_terminal_issue i)) issues with
  | [] => None
  | live => Some (List.map (classify_waiting issues edges held nowIso) live)
  end.
Definition summarizeBoardWaiting (waiting : list BoardWaitingItem) : string :=
  let count r := List.length (List.filter (fun w => bool_decide (bw_reason w = r)) waiting) in
  join_with ", " (List.map (fun r => wait_text r +:+ " " +:+ pretty (count r))
    (List.filter (fun r => negb (Nat.eqb (count r) 0))
      [w_admission; w_blocked; w_claimed; w_in_progress; w_unavailable; w_wedged])).

(** ** Orphans *)
(** [/^p/m.test(s)]: after the start, after each line terminator. *)
Fixpoint later_line_starts (p s : string) : bool :=
  match s with
  | EmptyString => false
  | String c r => (is_newline c && starts_with r p) || later_line_starts p r
  end.
Definition some_line_starts (p s : string) : bool := starts_with s p || later_line_starts p s.
Definition isOrphan (i : Issue) (ownedIds : list string) : bool :=
  (i_status i =? "open")%string && some_line_starts "sourceElementId:" (i_body i) && negb (set_has (i_id i) ownedIds).
Definition ownedIds (edges : list Edge) : list string :=
  set_of (List.map edge_to (List.filter (fun e => (edge_type e =? "parent-child")%string) edges)).

(** ** Parents *)
Definition isDrivable (i : Issue) : bool := (i_status i =? "open")%string && bool_decide (i_wedgeReason i = None).
Definition childrenOf (snapshot : gmap string Issue) (edges : list Edge) (pid : string) : list Issue :=
  omap (fun e => snapshot !! edge_to e)
    (List.filter (fun e => (edge_type e =? "parent-child") && (edge_from e =? pid))%string edges).
Definition parentsOf (edges : list Edge) (cid : string) : list string :=
  List.map edge_from (List.filter (fun e => (edge_type e =? "parent-child") && (edge_to e =? cid))%string edges).

Section Ralph.
Context {E : Type} (cfg : RalphConfig) (deps : RalphDeps E).
Abbreviation IO := (Act E RalphError).

(** ** Supervised laps ([supervisor.ts]) *)
Definition retryable (o : LapOutcome) : bool := match o with CRASH | TIMEOUT => true | _ => false end.
Definition tokens (t : option Num) : Num := default (of_Z 0) t.
(** The attempts that are left, what they cost so far. *)
Fixpoint supervise_from (run : IO LapResult) (attempts attempt : nat) (cost tin tout : Num) : IO LapResult :=
  match attempts with
  | O => mret {| lr_outcome := HUMAN_REQUIRED UNRECOVERABLE_WEDGE None None; lr_costUsd := cost;
                 lr_inputTokens := Some tin; lr_outputTokens := Some tout; lr_attemptId := None |}
  | S attempts =>
      let again cost tin tout :=
        when (Nat.ltb attempt (cf_maxRetries cfg)) (rd_sleep deps attempt) ≫= fun _ =>
        supervise_from run attempts (S attempt) cost tin tout in
      rd_heartbeat deps ≫= fun _ =>
      out ← try_catch (r ← run; mret (Some r)) (fun _ => mret None);
      match out with
      | None => again cost tin tout
      | Some r =>
          let cost := num_add cost (lr_costUsd r) in
          let tin := num_add tin (tokens (lr_inputTokens r)) in
          let tout := num_add tout (tokens (lr_outputTokens r)) in
          if retryable (lr_outcome r) then again cost tin tout
          else mret {| lr_outcome := lr_outcome r; lr_costUsd := cost; lr_inputTokens := Some tin;
                       lr_outputTokens := Some tout; lr_attemptId := lr_attemptId r |}
      end
  end.
Definition superviseLap (run : IO LapResult) : IO LapResult :=
  supervise_from run (S (cf_maxRetries cfg)) 0 (of_Z 0) (of_Z 0) (of_Z 0).

(** ** Escalation ([escalate_lap.ts]) *)
Definition item_suffix (l r : string) (item : option string) : string :=
  match item with Some i => l +:+ i +:+ r | None => "" end.
Definition escalateLap (reason : HumanRequiredReason) (item : option string) : IO unit :=
  does (rd_stdout deps ("🦑 ESCALATION [" +:+ reason_text reason +:+ "]" +:+ item_suffix " (item " ")" item +:+ NEWLINE)) ≫= fun _ =>
  res ← rd_escalate deps reason item ("🦑 HUMAN_REQUIRED(" +:+ reason_text reason +:+ ")" +:+ item_suffix " [" "]" item);
  match res with
  | (true, _) => mret tt
  | (false, why) => raise (EscalationUndeliverable reason why)
  end.

(** ** The consistency gate ([consistency_gate.ts]) *)
Definition MAX_COMMIT_REDRIVES : nat := 2.
Definition NO_DURABLE_COMMIT_LABEL : string := "no-durable-commit".
Definition durableItemCommitExists (git : RalphGitSeam E) (baseSha : string) (targetRef : option string) : IO bool :=
  tip ← git_tip git targetRef;
  committed ← git_committedSince git baseSha targetRef;
  if bool_decide (tip <> baseSha) && bool_decide (committed <> []) then
    dirty ← git_uncommittedPaths git;
    mret (forallb (fun p => negb (set_has p dirty)) committed)
  else mret false.

(** ** Board reads and upkeep *)
Definition inspectBoardAvailability (admissionHeldIds : list string) : IO BoardAvailability :=
  nowIso ← asks (rd_nowIso deps);
  issues ← rd_listIssues deps None;
  edges ← rd_listEdges deps;
  mret (board_availability issues edges admissionHeldIds nowIso).
Definition reapOrphans : IO (list string) :=
  issues ← rd_listIssues deps None;
  edges ← rd_listEdges deps;
  let orphans := List.filter (fun i => isOrphan i (ownedIds edges)) issues in
  for_each (fun o => rd_archiveIssue deps (i_id o) "orphaned decomposition stub (no live owner) — reaped") orphans ≫= fun _ =>
  mret (List.map i_id orphans).

(** [walk]: the local snapshot and the parents closed so far. *)
Fixpoint walk (fuel : nat) (edges : list Edge) (childId : string) (acc : gmap string Issue * list string)
    : IO (gmap string Issue * list string) :=
  match fuel with
  | O => raise OutOfFuel
  | S fuel =>
      for_fold (fun acc pid =>
        match acc.1 !! pid with
        | None => mret acc
        | Some parent =>
            if is_terminal_issue parent then mret acc
            else
              let kids := childrenOf acc.1 edges pid in
              if bool_decide (kids <> []) && forallb (fun k => negb (isDrivable k)) kids then
                rd_updateIssue deps pid "closed" ≫= fun _ =>
                walk fuel edges pid (<[pid := with_issue_status "closed" parent]> acc.1, acc.2 ++ [pid])
              else mret acc
        end) acc (parentsOf edges childId)
  end.
(** Each nested call has closed one more live issue of the snapshot. *)
Definition rollUpParents (closedChildId : string) : IO (list string) :=
  issues ← rd_listIssues deps None;
  edges ← rd_listEdges deps;
  acc ← walk (S (List.length issues)) edges closedChildId (byId issues, []);
  mret acc.2.

Definition TERMINAL_STATUSES : list string := ["closed"; "archived"].
Definition sweepTerminalBacklog : IO nat :=
  now ← asks (rd_nowMs deps);
  live ← rd_liveItems deps;
  if bool_decide (live = []) then mret 0
  else
    terminal ← for_fold (fun terminal status =>
      issues ← rd_listIssues deps (Some status);
      mret (terminal ++ List.map i_id (List.filter (fun i => set_has (i_status i) TERMINAL_STATUSES) issues)))
      [] TERMINAL_STATUSES;
    for_fold (fun emitted id =>
      if set_has id terminal then does (rd_emitMonitorEvent deps id item_closed) ≫= fun _ => mret (S emitted)
      else mret emitted) 0 live.

(** ** Driving one item *)
Definition MAX_STAGE_RETRIES : nat := 10.
(** What the laps of the current stage cost, and when it was entered. *)
Record StageAcc := { sa_startMs : Z; sa_cost : Num; sa_in : Num; sa_out : Num }.
Definition fresh_acc (now : Z) : StageAcc :=
  {| sa_startMs := now; sa_cost := of_Z 0; sa_in := of_Z 0; sa_out := of_Z 0 |}.
Definition flushStage (item : Issue) (stage : string) (acc : StageAcc) : IO unit :=
  ended ← asks (rd_nowMs deps);
  ignored (rd_recordMetric deps
    {| mr_runId := cf_runId cfg; mr_itemId := i_id item; mr_stage := stage; mr_harness := cf_harness cfg;
       mr_authMode := auth_text (cf_authMode cfg); mr_startedAtMs := sa_startMs acc; mr_endedAtMs := ended;
       mr_durationMs := ended - sa_startMs acc; mr_costUsd := sa_cost acc; mr_inputTokens := sa_in acc;
       mr_outputTokens := sa_out acc |}).
Definition with_cost (cost : Num) (r : LapResult) : LapResult :=
  {| lr_outcome := lr_outcome r; lr_costUsd := cost; lr_inputTokens := lr_inputTokens r;
     lr_outputTokens := lr_outputTokens r; lr_attemptId := lr_attemptId r |}.
(** The loop of [runItemLaps]; [runLap] is the lap with the claim's renewals. *)
Fixpoint stage_loop (fuel : nat) (sl : StageLoop E) (runLap : Issue -> option string -> option string -> IO LapResult)
    (item : Issue) (stage : string) (cost : Num) (sameStage : nat) (acc : StageAcc) : IO LapResult :=
  match fuel with
  | O => raise OutOfFuel
  | S fuel =>
      if sl_isTerminal sl stage then mret (lap_result SHIPPED cost)
      else if negb (sl_isAutomated sl stage) then mret (lap_result (AWAITING_INPUT stage) cost)
      else
        let attempt : IO LapResult :=
          sp ← sl_stagePrompt sl item stage;
          rd_narrate deps ("  ▷ " +:+ i_id item +:+ " · " +:+ stage +:+ " lap…") ≫= fun _ =>
          res ← superviseLap (runLap item (Some sp) (Some stage));
          let cost := num_add cost (lr_costUsd res) in
          let acc := {| sa_startMs := sa_startMs acc; sa_cost := num_add (sa_cost acc) (lr_costUsd res);
                        sa_in := num_add (sa_in acc) (tokens (lr_inputTokens res));
                        sa_out := num_add (sa_out acc) (tokens (lr_outputTokens res)) |} in
          match lr_outcome res with
          | SHIPPED =>
              next ← match lr_attemptId res with
                     | None => mret stage
                     | Some attempt => sl_readAttemptStage sl attempt (i_id item)
                     end;
              if (next =? stage)%string then
                if Nat.leb MAX_STAGE_RETRIES (S sameStage) then
                  flushStage item stage acc ≫= fun _ =>
                  mret (lap_result (HUMAN_REQUIRED UNRECOVERABLE_WEDGE None None) cost)
                else stage_loop fuel sl runLap item stage cost (S sameStage) acc
              else
                flushStage item stage acc ≫= fun _ =>
                rd_narrate deps ("  ✓ " +:+ i_id item +:+ " · " +:+ stage +:+ " → " +:+ next) ≫= fun _ =>
                sl_reconcileStage sl (i_id item) next ≫= fun _ =>
                now ← asks (rd_nowMs deps);
                stage_loop fuel sl runLap item next cost 0 (fresh_acc now)
          | _ => flushStage item stage acc ≫= fun _ => mret (with_cost cost res)
          end in
        completed ← match sl_completedStage sl with Some f => f item stage | None => mret None end;
        match completed with
        | Some c =>
            if (c =? stage)%string then attempt
            else
              flushStage item stage acc ≫= fun _ =>
              sl_reconcileStage sl (i_id item) c ≫= fun _ =>
              rd_narrate deps ("  ✓ " +:+ i_id item +:+ " · " +:+ stage +:+ " → " +:+ c +:+ " (durable evidence)") ≫= fun _ =>
              now ← asks (rd_nowMs deps);
              stage_loop fuel sl runLap item c cost 0 (fresh_acc now)
        | None => attempt
        end
  end.
Definition runItemLaps (fuel : nat) (runLap : Issue -> option string -> option string -> IO LapResult) (item : Issue) : IO LapResult :=
  match rd_stageLoop deps with
  | None => superviseLap (runLap item None None)
  | Some sl =>
      durable ← sl_readStage sl (i_id item);
      now ← asks (rd_nowMs deps);
      stage_loop fuel sl runLap item (default (sl_initialStage sl) durable) (of_Z 0) 0 (fresh_acc now)
  end.

(** One firing of the renewal timer; a failed renewal is only narrated. *)
Definition renew_once (renewClaim : string -> string -> Z -> IO bool) (itemId token : string) : IO unit :=
  try_catch
    (renewed ← renewClaim itemId token (cf_claimTtlSec cfg);
     when (negb renewed) (rd_narrate deps ("⚠ claim renewal lost for " +:+ itemId)))
    (fun x => match x with
              | Thrown what => rd_narrate deps ("⚠ claim renewal failed for " +:+ itemId +:+ ": " +:+ what)
              | _ => mret tt
              end).
(** [runLap] with the firings of the timer, whose own failures nothing awaits. *)
Definition with_renewals (token : option string) (item : Issue) (stagePrompt checkpointStage : option string) : IO LapResult := fun e =>
  let '(r, e) := rd_runLap deps item stagePrompt checkpointStage e in
  match token, rd_renewClaim deps with
  | Some token, Some renewClaim =>
      (r, Nat.iter (rd_firings deps e) (fun e => (renew_once renewClaim (i_id item) token e).2) e)
  | _, _ => (r, e)
  end.
Definition driveClaimedItem (fuel : nat) (item : Issue) : IO LapResult :=
  current ← rd_getIssue deps (i_id item);
  runItemLaps fuel (with_renewals (current ≫= i_claimToken)) item.

(** ** The loop *)
Record LoopState := {
  ls_closed : list string; ls_parked : list (string * HumanRequiredReason); ls_spent : Num;
  ls_baseConflictSurfaced : bool; ls_awaitingInputIds : list string;
}.
Record RalphResult := {
  rr_stopped : RalphStop; rr_spent : Num; rr_closed : list string; rr_parked : list (string * HumanRequiredReason);
  rr_waiting : option (list BoardWaitingItem);
}.
Definition start_state : LoopState :=
  {| ls_closed := []; ls_parked := []; ls_spent := of_Z 0; ls_baseConflictSurfaced := false; ls_awaitingInputIds := [] |}.
Definition stop_with (reason : RalphStop) (waiting : option (list BoardWaitingItem)) (st : LoopState) : RalphResult :=
  {| rr_stopped := reason; rr_spent := ls_spent st; rr_closed := ls_closed st; rr_parked := ls_parked st;
     rr_waiting := waiting |}.
Definition set_parked (p : list (string * HumanRequiredReason)) (st : LoopState) : LoopState :=
  {| ls_closed := ls_closed st; ls_parked := p; ls_spent := ls_spent st;
     ls_baseConflictSurfaced := ls_baseConflictSurfaced st; ls_awaitingInputIds := ls_awaitingInputIds st |}.
Definition add_spent (cost : Num) (st : LoopState) : LoopState :=
  {| ls_closed := ls_closed st; ls_parked := ls_parked st; ls_spent := num_add (ls_spent st) cost;
     ls_baseConflictSurfaced := ls_baseConflictSurfaced st; ls_awaitingInputIds := ls_awaitingInputIds st |}.
Definition add_closed (ids : list string) (st : LoopState) : LoopState :=
  {| ls_closed := ls_closed st ++ ids; ls_parked := ls_parked st; ls_spent := ls_spent st;
     ls_baseConflictSurfaced := ls_baseConflictSurfaced st; ls_awaitingInputIds := ls_awaitingInputIds st |}.
Definition add_awaiting (id : string) (st : LoopState) : LoopState :=
  {| ls_closed := ls_closed st; ls_parked := ls_parked st; ls_spent := ls_spent st;
     ls_baseConflictSurfaced := ls_baseConflictSurfaced st; ls_awaitingInputIds := set_add (ls_awaitingInputIds st) id |}.
Definition surface_conflict (st : LoopState) : LoopState :=
  {| ls_closed := ls_closed st; ls_parked := ls_parked st; ls_spent := ls_spent st;
     ls_baseConflictSurfaced := true; ls_awaitingInputIds := ls_awaitingInputIds st |}.

(** [parkAndEscalate]. *)
Definition parkAndEscalate (reason : HumanRequiredReason) (item : option Issue) (st : LoopState) : IO LoopState :=
  st ← match item with
       | Some i =>
           if isResourcePause reason then mret st
           else rd_wedgeMark deps (i_id i) (reason_text reason) ≫= fun _ =>
                does (rd_emitMonitorEvent deps (i_id i) item_wedged) ≫= fun _ =>
                mret (set_parked (ls_parked st ++ [(i_id i, reason)]) st)
       | None => mret st
       end;
  try_catch (escalateLap reason (i_id <$> item))
    (fun x => match x with
              | EscalationUndeliverable r why =>
                  if isResourcePause reason then
                    does (rd_stderr deps ("⚠️ gated-ralph escalation UNDELIVERABLE for " +:+ reason_text r +:+ ": " +:+
                      default "no channel" why +:+ " — non-fatal (resource pause); loop stops cleanly" +:+ NEWLINE))
                  else raise x
              | _ => raise x
              end) ≫= fun _ =>
  mret st.

Definition count_text {A} (l : list A) : string := pretty (List.length l).
Definition nonempty_line (prefix : string) (l : list string) : option string :=
  match l with [] => None | _ => Some (prefix +:+ join_with ", " l) end.
Definition displayAfterSession (stopped : RalphStop) (waiting : list BoardWaitingItem) (st : LoopState) : IO unit :=
  now ← asks (rd_nowIso deps);
  let parkedIds := (ls_parked st).*1 in
  let waitingOnly := List.filter (fun w => negb (set_has (bw_id w) parkedIds)) waiting in
  ignored (rd_display deps (renderScopeAfter "session"
    (reason_text stopped +:+ " · closed " +:+ count_text (ls_closed st) +:+ " / parked " +:+ count_text (ls_parked st) +:+
     " / waiting " +:+ count_text waiting)
    (List.map (fun id => {| si_item := id; si_done := true; si_note := None |}) (ls_closed st) ++
     List.map (fun p => {| si_item := p.1; si_done := false; si_note := Some (reason_text p.2) |}) (ls_parked st) ++
     List.map (fun w => {| si_item := bw_id w; si_done := false; si_note := Some ("waiting:" +:+ wait_text (bw_reason w)) |})
       waitingOnly)
    (nonempty_line "closed " (ls_closed st)) (nonempty_line "resume " (parkedIds ++ List.map bw_id waitingOnly)) now)).

(** The first eligible ready item, and the ids held back before it. *)
Fixpoint pick (awaiting held : list string) (ready : list Issue) : IO (option Issue * list string) :=
  match ready with
  | [] => mret (None, held)
  | cand :: ready =>
      hold ← (if set_has (i_id cand) awaiting then mret true
              else match rd_stageLoop deps with
                   | Some sl => drive ← sl_admissionGate sl cand; mret (negb drive)
                   | None => mret false
                   end);
      if (hold : bool) then pick awaiting (set_add held (i_id cand)) ready else mret (Some cand, held)
  end.
(** The base is refreshed until a conflict was surfaced. *)
Definition refresh_base (st : LoopState) : IO LoopState :=
  match rd_baseRefresh deps with
  | Some refresh =>
      if ls_baseConflictSurfaced st then mret st
      else fun e =>
        match refresh e with
        | (Ok conflict, e) =>
            (* the flag is set before the calls that may throw *)
            match (rd_narrate deps "⚠ base reconcile conflict — surfacing to a human (base left unchanged; drive continues on the un-refreshed base)" ≫= fun _ =>
                   parkAndEscalate SCOPE_FORK None (surface_conflict st)) e with
            | (Ok st, e) => (Ok st, e)
            | (Err _, e) => (Ok (surface_conflict st), e)
            end
        | (_, e) => (Ok st, e)
        end
  | None => mret st
  end.
(** Nothing is eligible: [inl] is another pass. *)
Definition drained (held : list string) (st : LoopState) : IO (LoopState + RalphResult) :=
  ignored (nudge ← rd_loopPassReconcile deps; match nudge with Some n => rd_narrate deps n | None => mret tt end) ≫= fun _ =>
  reaped ← try_catch reapOrphans (fun _ => mret []);
  if bool_decide (reaped <> []) then
    rd_narrate deps ("■ reaped " +:+ count_text reaped +:+ " orphan(s) before BOARD_EMPTY — re-draining") ≫= fun _ =>
    mret (inl st)
  else
    availability ← try_catch (inspectBoardAvailability held) (fun _ => mret (Some []));
    let tally := "closed " +:+ count_text (ls_closed st) +:+ ", parked " +:+ count_text (ls_parked st) +:+ ")" in
    match availability with
    | Some waiting =>
        let summary := match summarizeBoardWaiting waiting with EmptyString => "classification unavailable" | s => s end in
        rd_narrate deps ("■ board waiting — BOARD_WAITING (" +:+ summary +:+ "; " +:+ tally) ≫= fun _ =>
        st ← parkAndEscalate BOARD_WAITING None st;
        displayAfterSession BOARD_WAITING waiting st ≫= fun _ =>
        mret (inr (stop_with BOARD_WAITING (Some waiting) st))
    | None =>
        rd_narrate deps ("■ board drained — BOARD_EMPTY (" +:+ tally) ≫= fun _ =>
        st ← parkAndEscalate BOARD_EMPTY None st;
        displayAfterSession BOARD_EMPTY [] st ≫= fun _ =>
        mret (inr (stop_with BOARD_EMPTY None st))
    end.

(** The re-drives of an item that shipped without a commit: its outcome, or
    [None] once it was parked. *)
Fixpoint commit_gate (redrives_left fuel : nat) (git : RalphGitSeam E) (baseSha : string) (target : option string) (item : Issue)
    (outcome : LapOutcome) (st : LoopState) : IO (option LapOutcome * LoopState) :=
  committed ← durableItemCommitExists git baseSha target;
  if (committed : bool) then mret (Some outcome, st)
  else match redrives_left with
  | O =>
      rd_narrate deps ("⚠ " +:+ i_id item +:+ " SHIPPED without a durable commit — parking (" +:+ NO_DURABLE_COMMIT_LABEL +:+ ")") ≫= fun _ =>
      rd_display deps ("⚠ " +:+ i_id item +:+ ": " +:+ NO_DURABLE_COMMIT_LABEL +:+ " — work not committed after " +:+
        pretty MAX_COMMIT_REDRIVES +:+ " re-drives; NOT closed") ≫= fun _ =>
      st ← parkAndEscalate NO_DURABLE_COMMIT (Some item) st;
      mret (None, st)
  | S more =>
      rd_narrate deps ("  ↻ " +:+ i_id item +:+ " re-drive " +:+ pretty (MAX_COMMIT_REDRIVES - more) +:+ "/" +:+
        pretty MAX_COMMIT_REDRIVES +:+ " to land the commit") ≫= fun _ =>
      re ← driveClaimedItem fuel item;
      let st := add_spent (lr_costUsd re) st in
      match lr_outcome re with
      | SHIPPED => commit_gate more fuel git baseSha target item outcome st
      | o => mret (Some o, st)
      end
  end.
(** The rolled up parents are counted up to the one whose narration throws. *)
Fixpoint count_rolled (rolled : list string) (st : LoopState) (e : E) : LoopState * E :=
  match rolled with
  | [] => (st, e)
  | p :: rolled =>
      let st := add_closed [p] st in
      match rd_narrate deps ("✓ rolled up parent " +:+ p +:+ " (all children terminal)") e with
      | (Ok _, e) => count_rolled rolled st e
      | (Err _, e) => (st, e)
      end
  end.
Definition close_shipped (item : Issue) (st : LoopState) : IO LoopState :=
  rd_updateIssue deps (i_id item) "closed" ≫= fun _ =>
  match rd_stageLoop deps with Some sl => sl_clearStage sl (i_id item) | None => mret tt end ≫= fun _ =>
  let st := add_closed [i_id item] st in
  rd_narrate deps ("✓ SHIPPED " +:+ i_id item +:+ " (closed " +:+ count_text (ls_closed st) +:+ ")") ≫= fun _ =>
  now ← asks (rd_nowIso deps);
  rd_display deps (renderScopeAfter "task" (i_id item) [{| si_item := i_title item; si_done := true; si_note := None |}]
    (Some ("closed " +:+ count_text (ls_closed st))) None now) ≫= fun _ =>
  st ← (fun e => match rollUpParents (i_id item) e with
                 | (Err _, e) => (Ok st, e)
                 | (Ok rolled, e) => let '(st, e) := count_rolled rolled st e in (Ok st, e)
                 end);
  ignored (rd_onShipped deps (i_id item)) ≫= fun _ =>
  mret st.
Definition integration_target : option string :=
  (fun env => default (env_local env) (env_staging env)) <$> rd_environments deps.

(** What follows a drive that was not parked by the gate. *)
Definition settle_outcome (item : Issue) (outcome : LapOutcome) (st : LoopState) : IO (LoopState + RalphResult) :=
  let budget (st : LoopState) : IO (LoopState + RalphResult) :=
    match cf_authMode cfg with
    | api =>
        if num_lt (cf_maxBudgetUsd cfg) (ls_spent st) then
          st ← parkAndEscalate BUDGET None st;
          displayAfterSession BUDGET [] st ≫= fun _ => mret (inr (stop_with BUDGET None st))
        else mret (inl st)
    | subscription => mret (inl st)
    end in
  match outcome with
  | AWAITING_INPUT stage =>
      let st := add_awaiting (i_id item) st in
      claimed ← rd_getIssue deps (i_id item);
      rd_releaseClaim deps (i_id item) (claimed ≫= i_claimToken) ≫= fun _ =>
      rd_narrate deps ("⏸ " +:+ i_id item +:+ " awaiting pack input at " +:+ stage) ≫= fun _ =>
      mret (inl st)
  | SHIPPED => st ← close_shipped item st; budget st
  | _ =>
      let reason := match outcome with HUMAN_REQUIRED r _ _ => r | _ => UNRECOVERABLE_WEDGE end in
      rd_narrate deps ("⚠ parked " +:+ i_id item +:+ ": " +:+ reason_text reason) ≫= fun _ =>
      st ← parkAndEscalate reason (Some item) st;
      if isResourcePause reason then
        displayAfterSession reason [] st ≫= fun _ => mret (inr (stop_with reason None st))
      else budget st
  end.
Definition drive (fuel : nat) (item : Issue) (st : LoopState) : IO (LoopState + RalphResult) :=
  rd_narrate deps ("▶ claim " +:+ i_id item +:+ " — " +:+ String.substring 0 60 (i_title item)) ≫= fun _ =>
  now ← asks (rd_nowIso deps);
  rd_display deps (renderScopeBefore "task" (i_id item) [i_title item] now) ≫= fun _ =>
  baseSha ← match rd_git deps with Some g => tip ← git_tip g integration_target; mret (Some tip) | None => mret None end;
  outcome ← driveClaimedItem fuel item;
  let st := add_spent (lr_costUsd outcome) st in
  gated ← match lr_outcome outcome, rd_git deps, baseSha with
          | SHIPPED, Some g, Some base =>
              commit_gate MAX_COMMIT_REDRIVES fuel g base integration_target item SHIPPED st
          | o, _, _ => mret (Some o, st)
          end;
  match gated with
  | (None, st) => mret (inl st)
  | (Some o, st) => settle_outcome item o st
  end.
(** One turn of the loop. *)
Definition pass (fuel : nat) (st : LoopState) : IO (LoopState + RalphResult) :=
  st ← refresh_base st;
  ready ← rd_listReady deps;
  picked ← pick (ls_awaitingInputIds st) [] ready;
  match picked with
  | (None, held) => drained held st
  | (Some item, _) =>
      audience ← rd_claimAudience deps;
      won ← rd_claimIssue deps (i_id item) audience (cf_claimTtlSec cfg);
      if (won : bool) then drive fuel item st else mret (inl st)
  end.
Fixpoint passes (n fuel : nat) (st : LoopState) : IO RalphResult :=
  match n with
  | O => raise OutOfFuel
  | S n =>
      next ← pass fuel st;
      match next with inl st => passes n fuel st | inr r => mret r end
  end.
Definition session_before : IO unit :=
  ignored (
    ready ← rd_listReady deps;
    now ← asks (rd_nowIso deps);
    rd_display deps (renderScopeBefore "session" (count_text ready +:+ " ready item(s)")
      (match ready with
       | [] => ["(board empty at start)"]
       | _ => List.map (fun i => i_id i +:+ " — " +:+ String.substring 0 60 (i_title i)) ready
       end) now)).
Definition boot_sweep : IO unit :=
  ignored (drainedStale ← sweepTerminalBacklog;
           when (Nat.ltb 0 drainedStale)
             (rd_narrate deps ("■ boot sweep drained " +:+ pretty drainedStale +:+ " stale terminal item(s)"))).
(** [n] bounds the passes, [fuel] the stage turns of one drive. *)
Definition runRalphLoop (n fuel : nat) : IO RalphResult :=
  boot_sweep ≫= fun _ =>
  session_before ≫= fun _ =>
  passes n fuel start_state.

(** [resolveParked]: the override of a human. *)
Definition resolveParked (recordMisclassification : string -> IO unit) (itemId : string) : IO unit :=
  item ← rd_getIssue deps itemId;
  match item with
  | Some i =>
      match i_wedgeReason i with
      | Some _ =>
          recordMisclassification (i_title i) ≫= fun _ =>
          rd_clearWedge deps itemId ≫= fun _ =>
          rd_releaseClaim deps itemId None
      | None => raise (Thrown ("resolveParked: not a parked item: " +:+ itemId))
      end
  | None => raise (Thrown ("resolveParked: not a parked item: " +:+ itemId))
  end.
End Ralph.

(** ** Refreshing the base ([auto_pull.ts]) *)
Record ReconcileIo (E : Type) := {
  io_fetch : string -> string -> Io E unit;
  io_checkout : string -> Io E unit;
  io_counts : string -> string -> Io E (Z * Z);
  io_ffMerge : string -> Io E unit;
  io_mergeNoEdit : string -> Io E bool;
  io_abortMerge : Io E unit;
}.
Arguments io_fetch {E}. Arguments io_checkout {E}. Arguments io_counts {E}. Arguments io_ffMerge {E}.
Arguments io_mergeNoEdit {E}. Arguments io_abortMerge {E}.
(** [io_counts] answers how far the base is behind and ahead. *)
Definition reconcileBase {E} (io : ReconcileIo E) (production remote : string) : Io E ReconcileOutcome :=
  let upstream := remote +:+ "/" +:+ production in
  io_fetch io remote production ≫= fun _ =>
  io_checkout io production ≫= fun _ =>
  counts ← io_counts io production upstream;
  let '(behind, ahead) := counts in
  if Z.eqb behind 0 && Z.eqb ahead 0 then mret up_to_date
  else if Z.ltb 0 behind && Z.eqb ahead 0 then io_ffMerge io upstream ≫= fun _ => mret fast_forwarded
  else if Z.ltb 0 ahead && Z.eqb behind 0 then mret kept_local
  else
    ok ← io_mergeNoEdit io upstream;
    if (ok : bool) then mret merged else ignored (io_abortMerge io) ≫= fun _ => mret conflict.

(** ** Git, read through its command line *)
Definition output_lines (out : string) : list string := split_char "010"%char out.
Definition nonempty_lines (l : list string) : list string := List.filter (fun s => negb (s =? "")%string) l.
(** [execGit] runs git in the repository and answers its standard output. *)
Definition makeRalphGitSeam {E} (execGit : list string -> Io E string) : RalphGitSeam E := {|
  git_tip ref := out ← execGit ["rev-parse"; default "HEAD" ref]; mret (trim out);
  git_committedSince baseSha ref :=
    out ← execGit ["diff"; "--name-only"; baseSha +:+ ".." +:+ default "HEAD" ref];
    mret (nonempty_lines (List.map trim (output_lines out)));
  git_uncommittedPaths :=
    out ← execGit ["status"; "--porcelain"];
    mret (nonempty_lines (List.map (fun l => trim (slice_from 3 l)) (output_lines out)));
|}.

(** ** Integrating a shipped item ([route_on_shipped.ts]) *)
Inductive Routed := staged | direct.
Record RouteResult := { rt_routed : Routed; rt_integrated : bool; rt_prUrl : option string; rt_reason : option string }.
Definition routeOnShipped {E} (integrateToStaging : ResolvedEnvironments -> Io E (bool * option string))
    (ensureProductionPr : ResolvedEnvironments -> Io E string) (env : ResolvedEnvironments) : Io E RouteResult :=
  match env_staging env with
  | Some _ =>
      r ← integrateToStaging env;
      let '(integrated, prUrl) := r in
      mret (if (integrated : bool)
            then {| rt_routed := staged; rt_integrated := true; rt_prUrl := prUrl; rt_reason := None |}
            else {| rt_routed := staged; rt_integrated := false; rt_prUrl := None; rt_reason := Some "stage-integration-failed" |})
  | None =>
      url ← ensureProductionPr env;
      mret {| rt_routed := direct; rt_integrated := true; rt_prUrl := Some url; rt_reason := None |}
  end.
