(* ===== verification/RalphBoard.v ===== *)
(** * The board under the loop: roll-ups, orphans, waiting items

    What the coordinator's upkeep of the work graph comes to, over any facade
    that keeps a board: issues by id and a list of edges ([BoardLaws]). *)

From Stdlib Require Import Ascii String Permutation.
From stdpp Require Import base option list strings sets gmap.
From S2P Require Import Prelude Effects Json ExprSyntax ExprEval RateLimit Workgraph LapOutcome Ralph.

Record Board := { bd_issues : gmap string Issue; bd_edges : list Edge }.
Definition set_status (id s : string) (b : Board) : Board :=
  {| bd_issues := alter (with_issue_status s) id (bd_issues b); bd_edges := bd_edges b |}.
(** What the facade promises to its only client: reads answer from the board
    and an update of a known issue sets its status. *)
Class BoardLaws {E} (deps : RalphDeps E) (view : E -> Board) := {
  bl_ids : forall e id i, bd_issues (view e) !! id = Some i -> i_id i = id;
  bl_listIssues : forall e, exists l e', rd_listIssues deps None e = (Ok l, e') /\ view e' = view e /\
    l ≡ₚ (map_to_list (bd_issues (view e))).*2;
  bl_listEdges : forall e, exists e', rd_listEdges deps e = (Ok (bd_edges (view e)), e') /\ view e' = view e;
  bl_updateIssue : forall e id s, is_Some (bd_issues (view e) !! id) ->
    exists e', rd_updateIssue deps id s e = (Ok tt, e') /\ view e' = set_status id s (view e);
  bl_archiveIssue : forall e id why, is_Some (bd_issues (view e) !! id) ->
    exists e', rd_archiveIssue deps id why e = (Ok tt, e') /\ view e' = set_status id "archived" (view e);
}.

(** ** Snapshots *)
Abbreviation Snapshot := (gmap string Issue).
Definition set_all (s : string) (ids : list string) (S : Snapshot) : Snapshot :=
  foldl (fun S id => alter (with_issue_status s) id S) S ids.
Abbreviation close_all := (set_all "closed").
Lemma set_all_app s ids ids' S : set_all s (ids ++ ids') S = set_all s ids' (set_all s ids S).
Proof. unfold set_all. by rewrite foldl_app. Qed.
Lemma lookup_set_all s ids S y :
  set_all s ids S !! y = (if decide (y ∈ ids) then with_issue_status s else id) <$> S !! y.
Proof.
  revert S. induction ids as [|x ids IH]; intros S; cbn [set_all foldl].
  { rewrite decide_False by (by intros ?%elem_of_nil). by rewrite option_fmap_id. }
  fold (set_all s ids (alter (with_issue_status s) x S)). rewrite IH.
  destruct (decide (x = y)) as [->|Hne].
  - rewrite lookup_alter_eq, (decide_True (P := y ∈ y :: ids)) by left.
    destruct (S !! y) as [i|]; [|done]. cbn. by case_decide.
  - rewrite lookup_alter_ne by done. f_equal. apply decide_ext. rewrite elem_of_cons. naive_solver.
Qed.
Lemma byId_lookup l id i : NoDup (List.map i_id l) -> (byId l !! id = Some i <-> i ∈ l /\ i_id i = id).
Proof.
  unfold byId. intros Hnd.
  assert (forall m : gmap string Issue, fold_left (fun m i => <[i_id i := i]> m) l m !! id = Some i <->
    (i ∈ l /\ i_id i = id) \/ (id ∉ List.map i_id l /\ m !! id = Some i)) as H.
  { induction l as [|x l IH]; intros m; cbn [fold_left List.map].
    - split; [intros H; right; split; [apply not_elem_of_nil|done]|]. by intros [[[]%elem_of_nil _]|[_ H]].
    - cbn in Hnd. apply NoDup_cons in Hnd as [Hx Hnd]. rewrite IH by done. rewrite !elem_of_cons.
      destruct (decide (i_id x = id)) as [Hd|Hd].
      + rewrite <- Hd, lookup_insert_eq. split.
        * intros [[Hi He]|[_ [= <-]]]; [|by left; split; [left|]]. left. split; [by right|done].
        * intros [[[->|Hi] He]|[Hn _]]; [by right| |naive_solver]. by left.
      + rewrite lookup_insert_ne by done. split.
        * intros [[Hi He]|[Hn Hm]]; [by left; split; [right|]|]. right. split; [|done]. naive_solver.
        * intros [[[->|Hi] He]|[Hn Hm]]; [done|by left|]. right. naive_solver. }
  rewrite H, lookup_empty. split; [by intros [?|[_ ?]]|by left].
Qed.
Lemma elem_childrenOf S edges p k :
  k ∈ childrenOf S edges p <->
  exists e, e ∈ edges /\ edge_type e = "parent-child" /\ edge_from e = p /\ S !! edge_to e = Some k.
Proof.
  unfold childrenOf. rewrite list_elem_of_omap. split.
  - intros (e & He & Hk). apply list_elem_of_In, filter_In in He as [He Hc]. apply list_elem_of_In in He.
    reflect_bools. eauto 6.
  - intros (e & He & Ht & Hf & Hk). exists e. split; [|done].
    apply list_elem_of_In, filter_In. split; [by apply list_elem_of_In|]. by rewrite Ht, Hf, !String.eqb_refl.
Qed.
Lemma elem_parentsOf edges c p :
  p ∈ parentsOf edges c <-> exists e, e ∈ edges /\ edge_type e = "parent-child" /\ edge_to e = c /\ edge_from e = p.
Proof.
  unfold parentsOf. rewrite list_elem_of_In, in_map_iff. split.
  - intros (e & <- & He). apply filter_In in He as [He Hc]. apply list_elem_of_In in He. reflect_bools. eauto 6.
  - intros (e & He & Ht & Hc & Hf). exists e. split; [done|].
    apply filter_In. split; [by apply list_elem_of_In|]. by rewrite Ht, Hc, !String.eqb_refl.
Qed.

(** ** Roll-ups *)
Section RollUp.
Context (edges : list Edge).
Definition all_done (S : Snapshot) (p : string) : Prop :=
  (exists k, k ∈ childrenOf S edges p) /\ forall k, k ∈ childrenOf S edges p -> isDrivable k = false.
Definition live_in (S : Snapshot) (p : string) : Prop := exists i, S !! p = Some i /\ is_terminal_issue i = false.
(** No roll-up is due at [p]. *)
Definition settled (S : Snapshot) (p : string) : Prop := ~ (live_in S p /\ all_done S p).
Definition parent_of (p c : string) : Prop := p ∈ parentsOf edges c.

Lemma closed_not_drivable i : isDrivable (with_issue_status "closed" i) = false.
Proof. done. Qed.
Lemma closed_terminal i : is_terminal_issue (with_issue_status "closed" i) = true.
Proof. done. Qed.
Lemma all_done_mono S ids p : all_done S p -> all_done (close_all ids S) p.
Proof.
  intros [[k Hk] H]. split.
  - apply elem_childrenOf in Hk as (e & He & Ht & Hf & Hs).
    eexists. apply elem_childrenOf. exists e. split_and!; [done..|]. by rewrite lookup_set_all, Hs.
  - intros k' (e & He & Ht & Hf & Hs)%elem_childrenOf. rewrite lookup_set_all in Hs.
    destruct (S !! edge_to e) as [k0|] eqn:E0; [|done]. cbn in Hs. injection Hs as <-.
    destruct (decide _); [done|]. apply H, elem_childrenOf. eauto 6.
Qed.
Lemma live_in_close S ids p : live_in (close_all ids S) p <-> live_in S p /\ p ∉ ids.
Proof.
  unfold live_in. rewrite lookup_set_all. destruct (decide (p ∈ ids)) as [Hp|Hp].
  - split; [|by intros [_ ?]]. intros (i & Hi & Ht). destruct (S !! p); [|done]. cbn in Hi. injection Hi as <-. done.
  - rewrite option_fmap_id. naive_solver.
Qed.
(** What a further walk does to a settled parent: unsettle it only through a
    child it closed. *)
Lemma settled_close S ids p :
  settled S p -> (forall c, c ∈ ids -> live_in S c -> parent_of p c -> settled (close_all ids S) p) -> settled (close_all ids S) p.
Proof.
  intros Hs Hc [Hl Hd]. apply Hs. apply live_in_close in Hl as [Hl Hp]. split; [done|]. destruct Hd as [[k Hk] Hd].
  split.
  - apply elem_childrenOf in Hk as (e & He & Ht & Hf & Hk). rewrite lookup_set_all in Hk.
    destruct (S !! edge_to e) as [k0|] eqn:E0; [|done]. exists k0. apply elem_childrenOf. eauto 6.
  - intros k0 Hk0. apply elem_childrenOf in Hk0 as (e & He & Ht & Hf & E0).
    destruct (decide (edge_to e ∈ ids)) as [Hi|Hi].
    + destruct (isDrivable k0) eqn:Ed; [|done]. exfalso. apply (Hc (edge_to e)).
      * done.
      * exists k0. split; [done|]. unfold isDrivable in Ed. apply andb_true_iff in Ed as [Eo _].
        apply String.eqb_eq in Eo. unfold is_terminal_issue. by rewrite Eo.
      * apply elem_parentsOf. eauto 6.
      * split; [by apply live_in_close|]. split; [by exists k|done].
    + apply Hd, elem_childrenOf. exists e. split_and!; [done..|]. rewrite lookup_set_all, E0.
      by rewrite decide_False.
Qed.

(** The outcome of a walk over the parents [ps] of a closed child [c]. *)
Record Rolled (S : Snapshot) (c : string) (ps ids : list string) : Prop := {
  ro_nodup : NoDup ids;
  ro_due : forall p, p ∈ ids -> live_in S p /\ all_done (close_all ids S) p /\ tc (flip parent_of) c p;
  ro_step : forall i p, ids !! i = Some p -> live_in (close_all (take i ids) S) p /\ all_done (close_all (take i ids) S) p /\
    exists x, (x = c \/ x ∈ take i ids) /\ parent_of p x;
  ro_complete : forall p, p ∈ ps \/ (exists x, x ∈ ids /\ parent_of p x) -> settled (close_all ids S) p;
}.
Lemma rolled_nil S c ps : Forall (settled S) ps -> Rolled S c ps [].
Proof.
  intros H. split; [constructor|by intros p ?%elem_of_nil|done|].
  intros p [Hp|(x & []%elem_of_nil & _)]. by eapply Forall_forall in H.
Qed.
Lemma rolled_app S c ps ps' ids ids' :
  Rolled S c ps ids -> Rolled (close_all ids S) c ps' ids' -> Rolled S c (ps ++ ps') (ids ++ ids').
Proof.
  intros [N1 D1 T1 C1] [N2 D2 T2 C2]. rewrite <- set_all_app in *. split.
  - apply NoDup_app. split_and!; [done| |done]. intros x H1 H2. apply D2 in H2 as [Hl _].
    by apply live_in_close in Hl as [_ ?].
  - intros p [Hp|Hp]%elem_of_app.
    + destruct (D1 p Hp) as (Hl & Hd & Ht). split_and!; [done| |done]. rewrite set_all_app. by apply all_done_mono.
    + destruct (D2 p Hp) as (Hl & Hd & Ht). apply live_in_close in Hl as [Hl _]. by split_and!.
  - intros i p [Hi|[Hle Hi]]%lookup_app_Some.
    + rewrite take_app_le by (apply lookup_lt_Some in Hi; lia). by apply T1.
    + destruct (T2 _ _ Hi) as (Hl & Hd & x & Hx & Hp). rewrite take_app_ge, set_all_app by done.
      split_and!; [done..|]. exists x. split; [|done]. rewrite elem_of_app. naive_solver.
  - intros p H. assert (p ∈ ps \/ (exists x, x ∈ ids /\ parent_of p x) \/ (p ∈ ps' \/ exists x, x ∈ ids' /\ parent_of p x)) as [H'|[H'|H']].
    { destruct H as [[H|H]%elem_of_app|(x & [H|H]%elem_of_app & Hx)]; eauto 6. }
    1, 2: rewrite set_all_app; apply settled_close; [apply C1; auto|];
      intros c' Hc' _ Hp'; rewrite <- set_all_app; apply C2; eauto.
    by apply C2.
Qed.
Lemma rolled_step S c p ids :
  parent_of p c -> live_in S p -> all_done S p ->
  Rolled (close_all [p] S) p (parentsOf edges p) ids -> Rolled S c [p] (p :: ids).
Proof.
  intros Hc Hl Hd [N D T C]. change (p :: ids) with ([p] ++ ids). rewrite <- set_all_app in *.
  assert (tc (flip parent_of) c p) as Hcp by by apply tc_once.
  split.
  - apply NoDup_cons. split; [|done]. intros Hp. apply D in Hp as [Hl' _]. apply live_in_close in Hl' as [_ []]. left.
  - intros q [->%list_elem_of_singleton|Hq]%elem_of_app.
    + split_and!; [done|by apply all_done_mono|done].
    + destruct (D q Hq) as (Hl' & Hd' & Ht). apply live_in_close in Hl' as [Hl' _]. split_and!; [done..|].
      eapply tc_transitive; [exact Hcp|done].
  - intros [|i] q; cbn [app lookup list_lookup take].
    + intros [= <-]. split_and!; [done..|]. exists c. split; [by left|done].
    + intros Hi. destruct (T _ _ Hi) as (Hl' & Hd' & x & Hx & Hp). split_and!; [done..|]. exists x. split; [|done].
      right. rewrite elem_of_cons. naive_solver.
  - intros q [->%list_elem_of_singleton|(x & [->%list_elem_of_singleton|Hx]%elem_of_app & Hq)].
    + intros [Hl' _]. apply live_in_close in Hl' as [_ []]. left.
    + apply C. by left.
    + apply C. right. eauto.
Qed.
Definition live_count (S : Snapshot) : nat := size (filter (fun kv => is_terminal_issue kv.2 = false) S).
Lemma live_count_close S p : live_in S p -> live_count (close_all [p] S) < live_count S.
Proof.
  intros (i & Hi & Ht). unfold live_count.
  set (P := fun kv : string * Issue => is_terminal_issue kv.2 = false).
  assert (filter P S !! p = Some i) as Hp by by apply map_lookup_filter_Some.
  replace (filter P (close_all [p] S)) with (delete p (filter P S)).
  { rewrite map_size_delete, Hp. cbn. assert (size (filter P S) <> 0); [|lia].
    intros H0%map_size_empty_inv. by rewrite H0 in Hp. }
  apply map_eq. intros q. destruct (decide (p = q)) as [<-|Hq].
  - rewrite lookup_delete_eq. symmetry. apply map_lookup_filter_None. right. intros j Hj.
    rewrite lookup_set_all, decide_True, Hi in Hj by left. injection Hj as <-. by unfold P.
  - rewrite lookup_delete_ne by done. apply option_eq. intros j. rewrite !map_lookup_filter_Some, lookup_set_all.
    rewrite decide_False by (intros ?%list_elem_of_singleton; done). by rewrite option_fmap_id.
Qed.
Lemma live_count_le S ids : live_count (close_all ids S) <= live_count S.
Proof.
  apply map_subseteq_size, map_subseteq_spec. intros q i. rewrite !map_lookup_filter_Some, lookup_set_all.
  case_decide; [|by rewrite option_fmap_id]. destruct (S !! q); [|by intros [? _]]. by intros [[= <-] ?].
Qed.
Lemma due_decide S p :
  (match S !! p with
   | None => false
   | Some i => negb (is_terminal_issue i) &&
       (bool_decide (childrenOf S edges p <> []) && forallb (fun k => negb (isDrivable k)) (childrenOf S edges p))
   end) = true <-> live_in S p /\ all_done S p.
Proof.
  unfold live_in, all_done. destruct (S !! p) as [i|]; [|split; [done|by intros [(? & ? & _) _]]].
  rewrite !andb_true_iff, negb_true_iff, bool_decide_eq_true, forallb_forall. split.
  - intros (Ht & Hk & Hd). split; [eauto|]. split.
    + destruct (childrenOf S edges p) as [|k l]; [done|]. exists k. left.
    + intros k Hin. apply list_elem_of_In, Hd, negb_true_iff in Hin. done.
  - intros [(j & [= <-] & Ht) [[k Hk] Hd]]. split_and!; [done| |].
    + intros E. by rewrite E, elem_of_nil in Hk.
    + intros k' Hk'. apply negb_true_iff, Hd, list_elem_of_In, Hk'.
Qed.
End RollUp.

Section Upkeep.
Context {E : Type} (deps : RalphDeps E) (view : E -> Board) `{!BoardLaws deps view}.

Lemma set_status_closed e edges S p :
  view e = {| bd_issues := S; bd_edges := edges |} ->
  set_status p "closed" (view e) = {| bd_issues := close_all [p] S; bd_edges := edges |}.
Proof. intros ->. done. Qed.

(** What the walk does at one parent. *)
Definition visit (fuel : nat) (edges : list Edge) (acc : Snapshot * list string) (pid : string)
    : Act E RalphError (Snapshot * list string) :=
  match acc.1 !! pid with
  | None => mret acc
  | Some parent =>
      if is_terminal_issue parent then mret acc
      else
        let kids := childrenOf acc.1 edges pid in
        if bool_decide (kids <> []) && forallb (fun k => negb (isDrivable k)) kids then
          rd_updateIssue deps pid "closed" ≫= fun _ =>
          walk deps fuel edges pid (<[pid := with_issue_status "closed" parent]> acc.1, acc.2 ++ [pid])
        else mret acc
  end.
Lemma walk_visits fuel edges c acc : walk deps (S fuel) edges c acc = for_fold (visit fuel edges) acc (parentsOf edges c).
Proof. done. Qed.
(** A visit leaves the parent settled. *)
Definition walks (fuel : nat) : Prop := forall edges c S acc e,
  view e = {| bd_issues := S; bd_edges := edges |} -> live_count S < fuel ->
  exists ids e', walk deps fuel edges c (S, acc) e = (Ok (close_all ids S, acc ++ ids), e') /\
    view e' = {| bd_issues := close_all ids S; bd_edges := edges |} /\ Rolled edges S c (parentsOf edges c) ids.
Lemma visit_rolls fuel edges c p S acc e :
  walks fuel -> view e = {| bd_issues := S; bd_edges := edges |} -> live_count S < Datatypes.S fuel -> parent_of edges p c ->
  exists ids e', visit fuel edges (S, acc) p e = (Ok (close_all ids S, acc ++ ids), e') /\
    view e' = {| bd_issues := close_all ids S; bd_edges := edges |} /\ Rolled edges S c [p] ids.
Proof.
  intros IH He Hf Hp. unfold visit. cbn [fst snd]. pose proof (due_decide edges S p) as Hdue. revert Hdue.
  assert (forall b : bool, b = false -> (b = true <-> live_in S p /\ all_done edges S p) ->
    exists ids e', (Ok (S, acc), e) = (Ok (close_all ids S, acc ++ ids) : result RalphError _, e') /\
      view e' = {| bd_issues := close_all ids S; bd_edges := edges |} /\ Rolled edges S c [p] ids) as Hskip.
  { intros b -> H. exists [], e. rewrite app_nil_r. split_and!; [done..|]. apply rolled_nil, Forall_singleton. by intros ?%H. }
  destruct (S !! p) as [i|] eqn:Ei; [|by apply Hskip].
  destruct (is_terminal_issue i) eqn:Et; [by apply Hskip|].
  destruct (bool_decide (childrenOf S edges p <> []) && _) eqn:Ed; [|by apply Hskip].
  intros [Hdue _]. destruct (Hdue eq_refl) as [Hl Hd]. clear Hdue Hskip.
  destruct (bl_updateIssue e p "closed") as (e1 & Hu & Hv1); [by rewrite He; eexists|].
  rewrite (set_status_closed e edges S p He) in Hv1. rewrite (bind_step _ _ _ _ _ Hu).
  assert (<[p := with_issue_status "closed" i]> S = close_all [p] S) as ->.
  { apply map_eq. intros q. rewrite lookup_set_all. destruct (decide (p = q)) as [<-|Hq].
    - rewrite lookup_insert_eq, decide_True by left. by rewrite Ei.
    - rewrite lookup_insert_ne, decide_False by (done || intros ?%list_elem_of_singleton; done). by rewrite option_fmap_id. }
  pose proof (live_count_close S p Hl) as Hlt.
  destruct (IH edges p (close_all [p] S) (acc ++ [p]) e1) as (ids & e2 & Hw & Hv2 & Hr); [done|lia|].
  exists (p :: ids), e2. change (p :: ids) with ([p] ++ ids). rewrite set_all_app, app_assoc. split_and!; [done..|].
  by apply rolled_step.
Qed.
Lemma visits_roll fuel edges c : walks fuel -> forall ps S acc e,
  view e = {| bd_issues := S; bd_edges := edges |} -> live_count S < Datatypes.S fuel ->
  Forall (fun p => parent_of edges p c) ps ->
  exists ids e', for_fold (visit fuel edges) (S, acc) ps e = (Ok (close_all ids S, acc ++ ids), e') /\
    view e' = {| bd_issues := close_all ids S; bd_edges := edges |} /\ Rolled edges S c ps ids.
Proof.
  intros IH. induction ps as [|p ps IHps]; intros S acc e He Hf Hps; cbn [for_fold].
  { exists [], e. rewrite app_nil_r. split_and!; [done..|]. by apply rolled_nil. }
  apply Forall_cons in Hps as [Hp Hps].
  destruct (visit_rolls fuel edges c p S acc e) as (ids & e1 & Hv & Hview & Hr); [done..|].
  rewrite (bind_step _ _ _ _ _ Hv). pose proof (live_count_le S ids).
  destruct (IHps (close_all ids S) (acc ++ ids) e1) as (ids' & e' & Hw & Hv' & Hr'); [done|lia|done|].
  exists (ids ++ ids'), e'. rewrite set_all_app, app_assoc. split_and!; [done..|].
  change (p :: ps) with ([p] ++ ps). by apply rolled_app.
Qed.
Lemma walk_rolls fuel : walks fuel.
Proof.
  induction fuel as [|fuel IH]; intros edges c S acc e He Hf; [lia|]. rewrite walk_visits.
  apply visits_roll; [done..|]. by apply Forall_forall.
Qed.

(** The snapshot is the board. *)
Lemma byId_listed l e : l ≡ₚ (map_to_list (bd_issues (view e))).*2 -> byId l = bd_issues (view e).
Proof.
  intros Hl. assert (forall id i, i ∈ l /\ i_id i = id <-> bd_issues (view e) !! id = Some i) as Hin.
  { intros id i. rewrite Hl, list_elem_of_fmap. split.
    - intros [([k j] & -> & Hk%elem_of_map_to_list) <-]. cbn in *. by rewrite (bl_ids e k j Hk).
    - intros Hi. split; [|by apply (bl_ids e)]. exists (id, i). split; [done|]. by apply elem_of_map_to_list. }
  assert (NoDup (List.map i_id l)) as Hnd.
  { change (List.map i_id l) with (i_id <$> l). rewrite Hl, <- list_fmap_compose.
    rewrite (list_fmap_ext _ fst).
    - apply NoDup_fst_map_to_list.
    - intros n [k i] Hk%list_elem_of_lookup_2. apply elem_of_map_to_list in Hk. cbn. by apply (bl_ids e). }
  apply map_eq. intros id. apply option_eq. intros i. rewrite byId_lookup by done. apply Hin.
Qed.
Lemma rollUpParents_rolls (c : string) (e : E) :
  exists rolled e', rollUpParents deps c e = (Ok rolled, e') /\
    view e' = {| bd_issues := close_all rolled (bd_issues (view e)); bd_edges := bd_edges (view e) |} /\
    Rolled (bd_edges (view e)) (bd_issues (view e)) c (parentsOf (bd_edges (view e)) c) rolled.
Proof.
  unfold rollUpParents. destruct (bl_listIssues e) as (l & e1 & Hl & Hv1 & Hp). rewrite (bind_step _ _ _ _ _ Hl).
  destruct (bl_listEdges e1) as (e2 & Hed & Hv2). rewrite (bind_step _ _ _ _ _ Hed). rewrite (byId_listed l e Hp).
  assert (view e2 = view e) as Hv by congruence. rewrite Hv1.
  destruct (walk_rolls (S (List.length l)) (bd_edges (view e)) c (bd_issues (view e)) [] e2) as (ids & e3 & Hw & Hv3 & Hr).
  { rewrite Hv. by destruct (view e). }
  { rewrite Hp, length_fmap, length_map_to_list. unfold live_count. pose proof (map_subseteq_size _ _ (map_filter_subseteq
      (fun kv => is_terminal_issue kv.2 = false) (bd_issues (view e)))). lia. }
  rewrite (bind_step _ _ _ _ _ Hw). by exists ids, e3.
Qed.
(** C7: over a board whose reads answer and whose updates set the status,
    closing a child closes exactly the ancestors that are due, each once.  Each
    parent closed was, when its turn came, live, the parent of the child or of
    one closed before it, and had children, none of which the loop can drive;
    and no parent of the child or of a closed one is left live with children
    of which none can be driven.  The loop can drive an issue that is open and
    not wedged: a child in progress counts as done here, where the header of
    the source asks for closed, archived or wedged. *)
Theorem rollUpParents_exact (c : string) (e : E) :
  exists rolled e', rollUpParents deps c e = (Ok rolled, e') /\
    let S := bd_issues (view e) in let edges := bd_edges (view e) in
    view e' = {| bd_issues := close_all rolled S; bd_edges := edges |} /\ NoDup rolled /\
    (forall i p, rolled !! i = Some p -> live_in (close_all (take i rolled) S) p /\ all_done edges (close_all (take i rolled) S) p /\
       exists x, (x = c \/ x ∈ take i rolled) /\ parent_of edges p x) /\
    (forall x p, x = c \/ x ∈ rolled -> parent_of edges p x -> live_in (close_all rolled S) p ->
       (exists k, k ∈ childrenOf (close_all rolled S) edges p) ->
       exists k, k ∈ childrenOf (close_all rolled S) edges p /\ isDrivable k = true).
Proof.
  destruct (rollUpParents_rolls c e) as (ids & e' & Hr & Hv & [N _ T C]). exists ids, e'. cbv zeta. split_and!; [done..|].
  intros x p Hx Hpar Hlive Hk.
  destruct (decide (Exists (fun k => isDrivable k = true) (childrenOf (close_all ids (bd_issues (view e))) (bd_edges (view e)) p))) as [H|H].
  { by apply Exists_exists in H. }
  exfalso. apply (C p); [destruct Hx as [->|Hx]; [by left|right; eauto]|].
  split; [done|]. split; [done|]. intros k Hin. destruct (isDrivable k) eqn:Ek; [|done]. destruct H. apply Exists_exists. eauto.
Qed.

(** The reaper archives the orphans, and a second reap finds none. *)
Definition orphan_at (b : Board) (id : string) : Prop :=
  exists i, bd_issues b !! id = Some i /\ isOrphan i (ownedIds (bd_edges b)) = true.
Lemma archive_each ids : forall e, (forall id, id ∈ ids -> is_Some (bd_issues (view e) !! id)) ->
  exists e', for_each (fun id => rd_archiveIssue deps id "orphaned decomposition stub (no live owner) — reaped") ids e = (Ok tt, e') /\
    view e' = {| bd_issues := set_all "archived" ids (bd_issues (view e)); bd_edges := bd_edges (view e) |}.
Proof.
  induction ids as [|id ids IH]; intros e H; cbn [for_each]; [exists e; by destruct (view e)|].
  destruct (bl_archiveIssue e id "orphaned decomposition stub (no live owner) — reaped") as (e1 & Ha & Hv1); [apply H; left|].
  rewrite (bind_step _ _ _ _ _ Ha). destruct (IH e1) as (e2 & Hr & Hv2).
  { intros id' Hin. rewrite Hv1. cbn. rewrite lookup_alter. destruct (decide _); subst; [|apply H; by right].
    apply fmap_is_Some, H. left. }
  exists e2. split; [done|]. by rewrite Hv2, Hv1.
Qed.
Lemma for_each_map {A B} (f : B -> Act E RalphError unit) (g : A -> B) l e : for_each (fun a => f (g a)) l e = for_each f (List.map g l) e.
Proof. revert e. induction l as [|a l IH]; intros e; cbn [for_each List.map]; [done|]. unfold mbind, act_bind. by destruct (f (g a) e) as [[]]. Qed.
Lemma elem_orphans l e id :
  l ≡ₚ (map_to_list (bd_issues (view e))).*2 ->
  id ∈ List.map i_id (List.filter (fun i => isOrphan i (ownedIds (bd_edges (view e)))) l) <-> orphan_at (view e) id.
Proof.
  intros Hl. rewrite list_elem_of_In, in_map_iff. split.
  - intros (i & <- & [Hi Ho]%filter_In). exists i. split; [|done].
    apply list_elem_of_In in Hi. rewrite Hl in Hi. apply list_elem_of_fmap in Hi as ([k j] & -> & Hk%elem_of_map_to_list).
    cbn. by rewrite (bl_ids e k j Hk).
  - intros (i & Hi & Ho). exists i. split; [by apply (bl_ids e)|]. apply filter_In. split; [|done].
    apply list_elem_of_In. rewrite Hl. apply list_elem_of_fmap. exists (id, i). split; [done|]. by apply elem_of_map_to_list.
Qed.
Lemma reapOrphans_exact (e : E) :
  exists reaped e', reapOrphans deps e = (Ok reaped, e') /\ (forall id, id ∈ reaped <-> orphan_at (view e) id) /\
    view e' = {| bd_issues := set_all "archived" reaped (bd_issues (view e)); bd_edges := bd_edges (view e) |} /\
    (forall id, ~ orphan_at (view e') id).
Proof.
  unfold reapOrphans. destruct (bl_listIssues e) as (l & e1 & Hl & Hv1 & Hp). rewrite (bind_step _ _ _ _ _ Hl).
  destruct (bl_listEdges e1) as (e2 & Hed & Hv2). rewrite (bind_step _ _ _ _ _ Hed). rewrite Hv1.
  assert (view e2 = view e) as Hv by congruence.
  pose proof (fun id => elem_orphans l e id Hp) as Hin. cbv zeta.
  set (orphans := List.filter _ l) in *.
  destruct (archive_each (List.map i_id orphans) e2) as (e3 & Ha & Hv3).
  { intros id (i & Hi & _)%Hin. rewrite Hv. by eexists. }
  unfold mbind, act_bind. rewrite (for_each_map (fun id => rd_archiveIssue deps id "orphaned decomposition stub (no live owner) — reaped") i_id), Ha. exists (List.map i_id orphans), e3.
  rewrite Hv in Hv3. split_and!; [done|apply Hin|done|].
  intros id (i & Hi & Ho). rewrite Hv3 in Hi, Ho. cbn [bd_issues bd_edges] in Hi, Ho. rewrite lookup_set_all in Hi.
  destruct (decide (id ∈ List.map i_id orphans)) as [Hd|Hd].
  - destruct (bd_issues (view e) !! id); [|done]. cbn in Hi. injection Hi as <-. done.
  - rewrite option_fmap_id in Hi. apply Hd, Hin. by exists i.
Qed.
End Upkeep.
