(* ===== verification/RalphProps.v ===== *)
(** * What the loop promises

    [LoopLaws] is a quiet world: the board changes only by the coordinator's
    calls and the laps end without touching it.  In such a world the loop runs
    to exhaustion. *)

From Stdlib Require Import Ascii String Permutation.
From stdpp Require Import base option list strings sets gmap.
From S2P Require Import Prelude Effects Json ExprSyntax ExprEval RateLimit Workgraph LapOutcome Ralph RalphBoard.

(** ** Laws *)
Definition with_claim (t : option string) (i : Issue) : Issue :=
  {| i_id := i_id i; i_title := i_title i; i_body := i_body i; i_status := i_status i; i_createdAt := i_createdAt i;
     i_updatedAt := i_updatedAt i; i_claimToken := t; i_claimAudience := i_claimAudience i;
     i_claimExpiresAt := i_claimExpiresAt i; i_wedgeReason := i_wedgeReason i; i_archiveReason := i_archiveReason i |}.
Definition with_wedge (r : string) (i : Issue) : Issue :=
  {| i_id := i_id i; i_title := i_title i; i_body := i_body i; i_status := i_status i; i_createdAt := i_createdAt i;
     i_updatedAt := i_updatedAt i; i_claimToken := i_claimToken i; i_claimAudience := i_claimAudience i;
     i_claimExpiresAt := i_claimExpiresAt i; i_wedgeReason := Some r; i_archiveReason := i_archiveReason i |}.
Definition on_issue (f : Issue -> Issue) (id : string) (b : Board) : Board :=
  {| bd_issues := alter f id (bd_issues b); bd_edges := bd_edges b |}.
(** Listed by [listReady]: open, not wedged, not claimed, not blocked. *)
Definition ready_on (b : Board) (i : Issue) : Prop :=
  bd_issues b !! i_id i = Some i /\ i_status i = "open" /\ i_wedgeReason i = None /\ i_claimToken i = None /\
  ~ exists e blocker, e ∈ bd_edges b /\ edge_type e = "blocks" /\ edge_to e = i_id i /\
      bd_issues b !! edge_from e = Some blocker /\ is_terminal_issue blocker = false.

(** What only the coordinator may say of the board. *)
Definition not_board (o : LapOutcome) : Prop :=
  match o with HUMAN_REQUIRED BOARD_EMPTY _ _ | HUMAN_REQUIRED BOARD_WAITING _ _ => False | _ => True end.
(** The calls of one drive.  [rank] decreases along the stages a lap or
    evidence advances to. *)
Class DriveLaws {E} (deps : RalphDeps E) (view : E -> Board) (rank : string -> nat) := {
  dl_getIssue : forall id, safe view (rd_getIssue deps id);
  dl_narrate : forall s, safe view (rd_narrate deps s);
  dl_heartbeat : safe view (rd_heartbeat deps);
  dl_sleep : forall n, safe view (rd_sleep deps n);
  dl_runLap : forall i p s, keeps view (rd_runLap deps i p s);
  dl_reason : forall i p s e r e', rd_runLap deps i p s e = (Ok r, e') -> not_board (lr_outcome r);
  dl_renewClaim : forall f id tok ttl, rd_renewClaim deps = Some f -> keeps view (f id tok ttl);
  dl_recordMetric : forall r, keeps view (rd_recordMetric deps r);
  dl_stagePrompt : forall sl i s, rd_stageLoop deps = Some sl -> safe view (sl_stagePrompt sl i s);
  dl_completedStage : forall sl f i s, rd_stageLoop deps = Some sl -> sl_completedStage sl = Some f -> safe view (f i s);
  dl_readStage : forall sl id, rd_stageLoop deps = Some sl -> safe view (sl_readStage sl id);
  dl_readAttemptStage : forall sl a id, rd_stageLoop deps = Some sl -> safe view (sl_readAttemptStage sl a id);
  dl_reconcileStage : forall sl id s, rd_stageLoop deps = Some sl -> safe view (sl_reconcileStage sl id s);
  dl_evidence_advances : forall sl f i s c e e', rd_stageLoop deps = Some sl -> sl_completedStage sl = Some f ->
    f i s e = (Ok (Some c), e') -> c <> s -> rank c < rank s;
  dl_lap_advances : forall sl i p s r e e' a next e1 e2, rd_stageLoop deps = Some sl ->
    rd_runLap deps i p (Some s) e = (Ok r, e') -> lr_attemptId r = Some a ->
    sl_readAttemptStage sl a (i_id i) e1 = (Ok next, e2) -> next <> s -> rank next < rank s;
}.
(** The calls around drives. *)
Class LoopLaws {E} (deps : RalphDeps E) (view : E -> Board) (admits : Board -> string -> bool) (rank : string -> nat) := {
  ll_board :: BoardLaws deps view;
  ll_drive :: DriveLaws deps view rank;
  ll_listReady : forall e, exists l e', rd_listReady deps e = (Ok l, e') /\ view e' = view e /\
    forall i, i ∈ l <-> ready_on (view e) i;
  ll_listTerminal : forall s, keeps view (rd_listIssues deps (Some s));
  ll_claimAudience : safe view (rd_claimAudience deps);
  ll_claimIssue : forall e i audience ttl, ready_on (view e) i -> exists t e',
    rd_claimIssue deps (i_id i) audience ttl e = (Ok true, e') /\ view e' = on_issue (with_claim (Some t)) (i_id i) (view e);
  ll_releaseClaim : forall e id t, is_Some (bd_issues (view e) !! id) ->
    exists e', rd_releaseClaim deps id t e = (Ok tt, e') /\ view e' = on_issue (with_claim None) id (view e);
  ll_wedgeMark : forall e id r, is_Some (bd_issues (view e) !! id) ->
    exists e', rd_wedgeMark deps id r e = (Ok tt, e') /\ view e' = on_issue (with_wedge r) id (view e);
  ll_display : forall s, safe view (rd_display deps s);
  ll_onShipped : forall id, keeps view (rd_onShipped deps id);
  ll_loopPassReconcile : keeps view (rd_loopPassReconcile deps);
  ll_baseRefresh : forall m, rd_baseRefresh deps = Some m -> keeps view m;
  ll_liveItems : keeps view (rd_liveItems deps);
  ll_escalate : forall e r i t, exists why e', rd_escalate deps r i t e = (Ok (true, why), e') /\ view e' = view e;
  ll_stdout : forall s e, view (rd_stdout deps s e) = view e;
  ll_stderr : forall s e, view (rd_stderr deps s e) = view e;
  ll_emit : forall id k e, view (rd_emitMonitorEvent deps id k e) = view e;
  ll_tip : forall g r, rd_git deps = Some g -> safe view (git_tip g r);
  ll_committedSince : forall g b r, rd_git deps = Some g -> safe view (git_committedSince g b r);
  ll_uncommittedPaths : forall g, rd_git deps = Some g -> safe view (git_uncommittedPaths g);
  ll_clearStage : forall sl id, rd_stageLoop deps = Some sl -> safe view (sl_clearStage sl id);
  ll_admissionGate : forall sl i e, rd_stageLoop deps = Some sl -> exists e',
    sl_admissionGate sl i e = (Ok (admits (view e) (i_id i)), e') /\ view e' = view e;
}.

(** ** One drive ends *)
Section Drive.
Context {E : Type} (cfg : RalphConfig) (deps : RalphDeps E) (view : E -> Board) (rank : string -> nat)
  `{!DriveLaws deps view rank}.
Abbreviation safe := (safe view).
Abbreviation keeps := (keeps view).
#[local] Hint Resolve dl_getIssue dl_narrate dl_heartbeat dl_sleep dl_runLap dl_renewClaim dl_recordMetric
  dl_stagePrompt dl_completedStage dl_readStage dl_readAttemptStage dl_reconcileStage : effects.

Lemma supervise_result run (P : option string -> Prop) attempts : forall attempt cost tin tout,
  keeps run -> P None -> (forall e r e', run e = (Ok r, e') -> P (lr_attemptId r)) -> forall e,
  twp (supervise_from cfg deps run attempts attempt cost tin tout) (fun r e' => view e' = view e /\ P (lr_attemptId r)) e.
Proof.
  induction attempts as [|n IH]; intros attempt cost tin tout Hk Hn Hp e; cbn [supervise_from]; [by apply twp_ret|].
  assert (forall cost tin tout e1, view e1 = view e ->
    twp (when (Nat.ltb attempt (cf_maxRetries cfg)) (rd_sleep deps attempt) ≫= fun _ =>
         supervise_from cfg deps run n (S attempt) cost tin tout) (fun r e' => view e' = view e /\ P (lr_attemptId r)) e1) as Hagain.
  { intros c i o e1 Hv1. apply twp_bind. eapply twp_safe; [eauto with effects|]. intros _ e2 Hv2.
    eapply twp_mono; [by apply IH|]. intros r e3 [Hv3 Hr]. split; [congruence|done]. }
  apply twp_bind. eapply twp_safe; [apply dl_heartbeat|]. intros _ e1 Hv1. apply twp_bind.
  apply twp_try.
  - intros [r|] e2 Hr; [|apply bind_ok_inv in Hr as (? & ? & _ & ?); done].
    apply bind_ok_inv in Hr as (r' & e3 & Hr & [= <- <-]).
    assert (view e3 = view e) as Hv3. { rewrite <- Hv1. specialize (Hk e1). by rewrite Hr in Hk. }
    destruct (retryable (lr_outcome r')); [by apply Hagain|]. apply twp_ret. split; [done|]. cbn. by eapply Hp.
  - intros x e2 Hr. apply twp_ret. apply Hagain. rewrite <- Hv1. specialize (Hk e1). unfold mbind, act_bind in Hr.
    destruct (run e1) as [[r|y] e3]; [done|]. injection Hr as <- <-. done.
Qed.
Lemma renew_once_safe f id tok : rd_renewClaim deps = Some f -> safe (renew_once cfg deps f id tok).
Proof.
  intros Hf. unfold renew_once. apply keeps_safe_try; [eauto 8 with effects|]. intros []; eauto with effects.
Qed.
Lemma with_renewals_keeps token i p s : keeps (with_renewals cfg deps token i p s).
Proof.
  intros e. unfold with_renewals. pose proof (dl_runLap i p s e) as Hl. destruct (rd_runLap deps i p s e) as [r e1].
  cbn in Hl. destruct token as [t|]; [|done]. destruct (rd_renewClaim deps) as [f|] eqn:Ef; [|done]. cbn [snd].
  rewrite <- Hl. induction (rd_firings deps e1) as [|n IH]; [done|]. cbn [Nat.iter]. rewrite <- IH.
  apply (safe_keeps view _ (renew_once_safe f (i_id i) t Ef)).
Qed.
Lemma with_renewals_run token i p s e r e' :
  with_renewals cfg deps token i p s e = (Ok r, e') -> exists e1, rd_runLap deps i p s e = (Ok r, e1).
Proof.
  unfold with_renewals. destruct (rd_runLap deps i p s e) as [r0 e1].
  destruct token, (rd_renewClaim deps); intros [= -> _]; eauto.
Qed.
Lemma flushStage_safe i s acc : safe (flushStage cfg deps i s acc).
Proof. unfold flushStage. eauto with effects. Qed.
#[local] Hint Resolve flushStage_safe : effects.
Lemma stage_loop_safe sl item token : rd_stageLoop deps = Some sl -> forall fuel stage cost same acc,
  MAX_STAGE_RETRIES * rank stage + (MAX_STAGE_RETRIES - same) < fuel -> same < MAX_STAGE_RETRIES ->
  safe (stage_loop cfg deps fuel sl (with_renewals cfg deps token) item stage cost same acc).
Proof.
  intros Hsl. induction fuel as [|fuel IH]; intros stage cost same acc Hf Hs; [lia|]. cbn [stage_loop].
  destruct (sl_isTerminal sl stage); [apply safe_ret|]. destruct (sl_isAutomated sl stage); cbn [negb]; [|apply safe_ret].
  assert (forall next cost acc, rank next < rank stage ->
    safe (stage_loop cfg deps fuel sl (with_renewals cfg deps token) item next cost 0 acc)) as Hnext.
  { intros next c a Hr. apply IH; unfold MAX_STAGE_RETRIES in *; lia. }
  match goal with |- safe (_ ≫= fun completed => match completed with Some c => if _ then ?m else _ | None => _ end) =>
    assert (safe m) as Hatt end.
  { apply safe_bind; [eauto with effects|]. intros sp. apply safe_bind; [eauto with effects|]. intros _ e.
    set (P := fun a => forall id e1 next e2, a = Some id -> sl_readAttemptStage sl id (i_id item) e1 = (Ok next, e2) ->
                next <> stage -> rank next < rank stage).
    edestruct (supervise_result (with_renewals cfg deps token item (Some sp) (Some stage)) P (S (cf_maxRetries cfg)) 0
      (of_Z 0) (of_Z 0) (of_Z 0)) as (res & e1 & Hres & Hv1 & HP).
    { apply with_renewals_keeps. }
    { by intros id e1 next e2 [=]. }
    { intros e0 r e' [e'' Hr]%with_renewals_run id e1 next e2 Ha. by eapply dl_lap_advances. }
    rewrite (bind_step _ _ _ _ _ Hres). cbv zeta. rewrite <- Hv1.
    match goal with |- exists a e', ?m e1 = _ /\ _ => enough (safe m) as Hm by apply Hm end.
    destruct (lr_outcome res); try (by apply safe_bind; eauto with effects).
    intros e2.
    assert (exists next e3, match lr_attemptId res with
                            | None => mret stage
                            | Some attempt => sl_readAttemptStage sl attempt (i_id item)
                            end e2 = (Ok next, e3) /\ view e3 = view e2 /\ (next <> stage -> rank next < rank stage)) as (next & e3 & Hn & Hv3 & Hr).
    { destruct (lr_attemptId res) as [a|] eqn:Ea; [|by exists stage, e2].
      destruct (dl_readAttemptStage sl a (i_id item) Hsl e2) as (next & e3 & Hn & Hv). exists next, e3. split_and!; [done..|].
      by eapply HP. }
    rewrite (bind_step _ _ _ _ _ Hn). rewrite <- Hv3.
    match goal with |- exists a e', ?m e3 = _ /\ _ => enough (safe m) as Hm by apply Hm end.
    destruct (next =? stage)%string eqn:Es.
    - destruct (Nat.leb MAX_STAGE_RETRIES (S same)) eqn:El; [apply safe_bind; eauto with effects|].
      apply IH; apply Nat.leb_gt in El; lia.
    - apply String.eqb_neq in Es. eauto 10 with effects. }
  intros e.
  assert (exists c e1, match sl_completedStage sl with Some f => f item stage | None => mret None end e = (Ok c, e1) /\
    view e1 = view e /\ (forall x, c = Some x -> x <> stage -> rank x < rank stage)) as (c & e1 & Hc & Hv1 & Hr).
  { destruct (sl_completedStage sl) as [f|] eqn:Ef; [|by exists None, e].
    destruct (dl_completedStage sl f item stage Hsl Ef e) as (c & e1 & Hc & Hv). exists c, e1. split_and!; [done..|].
    intros x -> Hx. by eapply dl_evidence_advances. }
  rewrite (bind_step _ _ _ _ _ Hc). rewrite <- Hv1.
  match goal with |- exists a e', ?m e1 = _ /\ _ => enough (safe m) as Hm by apply Hm end.
  destruct c as [c|]; [|done]. destruct (c =? stage)%string eqn:Es; [done|]. apply String.eqb_neq in Es.
  eauto 10 with effects.
Qed.
Lemma driveClaimedItem_safe fuel item :
  (forall s, MAX_STAGE_RETRIES * S (rank s) < fuel) -> safe (driveClaimedItem cfg deps fuel item).
Proof.
  intros Hf. apply safe_bind; [eauto with effects|]. intros current. unfold runItemLaps.
  destruct (rd_stageLoop deps) as [sl|] eqn:Hsl.
  - apply safe_bind; [eauto with effects|]. intros s. apply safe_bind; [eauto with effects|]. intros now.
    apply stage_loop_safe; [done| |unfold MAX_STAGE_RETRIES; lia]. specialize (Hf (default (sl_initialStage sl) s)). lia.
  - intros e. edestruct (supervise_result (with_renewals cfg deps (current ≫= i_claimToken) item None None) (fun _ => True)) as (r & e' & Hr & Hv & _);
      [apply with_renewals_keeps|done|done|]. exists r, e'. split; [exact Hr|done].
Qed.
Lemma supervise_outcome run attempts : (forall e r e', run e = (Ok r, e') -> not_board (lr_outcome r)) ->
  forall attempt cost tin tout e r e',
  supervise_from cfg deps run attempts attempt cost tin tout e = (Ok r, e') -> not_board (lr_outcome r).
Proof.
  intros Hrun. induction attempts as [|n IH]; intros attempt cost tin tout e r e'; cbn [supervise_from]; [by intros [= <- _]|].
  intros (_ & e1 & _ & H)%bind_ok_inv. apply bind_ok_inv in H as (out & e2 & Ho & H).
  destruct out as [r0|]; [|by apply bind_ok_inv in H as (_ & ? & _ & H); eapply IH].
  cbv zeta in H. destruct (retryable (lr_outcome r0)); [by apply bind_ok_inv in H as (_ & ? & _ & H); eapply IH|].
  injection H as <- _. unfold try_catch in Ho. case_match; simplify_eq. case_match; simplify_eq.
  match goal with H : (run ≫= _) _ = _ |- _ => apply bind_ok_inv in H as (r1 & e4 & Hr & Hq) end.
  injection Hq as -> _. cbn. by eapply Hrun.
Qed.
Lemma stage_loop_outcome sl item token : forall fuel stage cost same acc e r e',
  stage_loop cfg deps fuel sl (with_renewals cfg deps token) item stage cost same acc e = (Ok r, e') -> not_board (lr_outcome r).
Proof.
  induction fuel as [|fuel IH]; intros stage cost same acc e r e'; [done|]. cbn [stage_loop].
  destruct (sl_isTerminal sl stage); [by intros [= <- _]|]. destruct (sl_isAutomated sl stage); [|by intros [= <- _]]. cbn [negb].
  intros (c & e1 & _ & H)%bind_ok_inv.
  match type of H with context [match c with Some c => if _ then ?m else _ | None => _ end] =>
    assert (forall e r e', m e = (Ok r, e') -> not_board (lr_outcome r)) as Hatt end.
  { clear H. intros e0 r0 e0' (sp & e2 & _ & H)%bind_ok_inv. apply bind_ok_inv in H as (_ & e3 & _ & H).
    apply bind_ok_inv in H as (res & e4 & Hs & H).
    assert (not_board (lr_outcome res)) as Hn.
    { eapply supervise_outcome; [|exact Hs]. intros e5 r5 e5' [e6 Hr]%with_renewals_run. by eapply dl_reason. }
    destruct (lr_outcome res) eqn:Eo; cbv zeta in H.
    2-6: apply bind_ok_inv in H as (_ & e5 & _ & [= <- _]); cbn; by rewrite Eo.
    apply bind_ok_inv in H as (next & e5 & _ & H). destruct (next =? stage)%string.
    - destruct (Nat.leb _ _); [by apply bind_ok_inv in H as (_ & e6 & _ & [= <- _])|by eapply IH].
    - apply bind_ok_inv in H as (_ & e6 & _ & H). apply bind_ok_inv in H as (_ & e7 & _ & H).
      apply bind_ok_inv in H as (_ & e8 & _ & H). apply bind_ok_inv in H as (now & e9 & _ & H). by eapply IH. }
  destruct c as [c|]; [|by eapply Hatt]. destruct (c =? stage)%string; [by eapply Hatt|].
  apply bind_ok_inv in H as (_ & e6 & _ & H). apply bind_ok_inv in H as (_ & e7 & _ & H).
  apply bind_ok_inv in H as (_ & e8 & _ & H). apply bind_ok_inv in H as (now & e9 & _ & H). by eapply IH.
Qed.
Lemma driveClaimedItem_outcome fuel item e r e' : driveClaimedItem cfg deps fuel item e = (Ok r, e') -> not_board (lr_outcome r).
Proof.
  intros (cur & e1 & _ & H)%bind_ok_inv. unfold runItemLaps in H. destruct (rd_stageLoop deps) as [sl|].
  - apply bind_ok_inv in H as (s & e2 & _ & H). apply bind_ok_inv in H as (now & e3 & _ & H). by eapply stage_loop_outcome.
  - eapply supervise_outcome; [|exact H]. intros e5 r5 e5' [e6 Hr]%with_renewals_run. by eapply dl_reason.
Qed.
End Drive.

(** ** Counting what is left *)
Definition count (P : string -> Issue -> bool) (S : Snapshot) : nat := size (filter (fun kv => P kv.1 kv.2 = true) S).
Lemma elem_count_dom P (S : Snapshot) id : id ∈ (dom (filter (fun kv => P kv.1 kv.2 = true) S) : gset string) <-> exists i, S !! id = Some i /\ P id i = true.
Proof.
  rewrite elem_of_dom. unfold is_Some. split; intros (i & H); exists i.
  - by apply map_lookup_filter_Some in H.
  - by apply map_lookup_filter_Some.
Qed.
Lemma count_le P' (S' : Snapshot) P (S : Snapshot) :
  (forall id i', S' !! id = Some i' -> P' id i' = true -> exists i, S !! id = Some i /\ P id i = true) ->
  count P' S' <= count P S.
Proof.
  intros H. unfold count. rewrite <- !(size_dom (D := gset string)). apply subseteq_size.
  intros id (i & Hi & Hp)%elem_count_dom. apply elem_count_dom. eauto.
Qed.
Lemma count_lt P' (S' : Snapshot) P (S : Snapshot) id :
  (forall id i', S' !! id = Some i' -> P' id i' = true -> exists i, S !! id = Some i /\ P id i = true) ->
  (exists i, S !! id = Some i /\ P id i = true) -> (forall i, S' !! id = Some i -> P' id i = false) ->
  count P' S' < count P S.
Proof.
  intros H Hin Hout. unfold count. rewrite <- !(size_dom (D := gset string)). apply subset_size. split.
  - intros id' (i & Hi & Hp)%elem_count_dom. apply elem_count_dom. eauto.
  - intros Hsub. apply elem_count_dom, Hsub, elem_count_dom in Hin as (i & Hi & Hp). by rewrite (Hout i) in Hp.
Qed.
Definition live (_ : string) (i : Issue) : bool := negb (is_terminal_issue i).
Definition todo (awaiting : list string) (id : string) (i : Issue) : bool := isDrivable i && negb (set_has id awaiting).
Definition measure (st : LoopState) (b : Board) : nat :=
  count live (bd_issues b) + count (todo (ls_awaitingInputIds st)) (bd_issues b).

(** Boards only move on: a closed item stays closed, a wedge stays. *)
Definition moved (i i' : Issue) : Prop :=
  (is_terminal_issue i = true -> is_terminal_issue i' = true) /\ (isDrivable i' = true -> isDrivable i = true) /\
  (forall w, i_wedgeReason i = Some w -> i_wedgeReason i' = Some w).
Definition moves (b b' : Board) : Prop := forall id,
  match bd_issues b !! id, bd_issues b' !! id with
  | Some i, Some i' => moved i i'
  | None, None => True
  | _, _ => False
  end.
Lemma moves_refl b : moves b b.
Proof. intros id. by destruct (bd_issues b !! id). Qed.
Lemma moves_trans b1 b2 b3 : moves b1 b2 -> moves b2 b3 -> moves b1 b3.
Proof.
  intros H1 H2 id. specialize (H1 id). specialize (H2 id). destruct (bd_issues b1 !! id), (bd_issues b2 !! id), (bd_issues b3 !! id); try done.
  destruct H1 as (A1 & B1 & C1), H2 as (A2 & B2 & C2). split_and!; auto.
Qed.
Lemma moves_on_issue f id b : (forall i, bd_issues b !! id = Some i -> moved i (f i)) -> moves b (on_issue f id b).
Proof.
  intros Hf id'. cbn. destruct (decide (id = id')) as [<-|Hne].
  - rewrite lookup_alter_eq. destruct (bd_issues b !! id) eqn:Ei; [|done]. by apply Hf.
  - rewrite lookup_alter_ne by done. by destruct (bd_issues b !! id').
Qed.
Lemma moves_claim t id b : moves b (on_issue (with_claim t) id b).
Proof. by apply moves_on_issue. Qed.
Lemma moves_wedge r id b : (forall i, bd_issues b !! id = Some i -> i_wedgeReason i = None) -> moves b (on_issue (with_wedge r) id b).
Proof.
  intros H. apply moves_on_issue. intros i Hi. split_and!; [done| |].
  - unfold isDrivable. cbn. by rewrite andb_false_r.
  - by rewrite (H i Hi).
Qed.
Lemma moved_status s i : (s = "closed" \/ s = "archived") -> moved i (with_issue_status s i).
Proof. by intros [-> | ->]; split_and!. Qed.
Lemma moves_set_all s ids b :
  (s = "closed" \/ s = "archived") -> moves b {| bd_issues := set_all s ids (bd_issues b); bd_edges := bd_edges b |}.
Proof.
  intros Hs id. cbn. rewrite lookup_set_all. destruct (bd_issues b !! id); [|done]. cbn.
  case_decide; [by apply moved_status|done].
Qed.
Lemma moves_lookup b b' id i' : moves b b' -> bd_issues b' !! id = Some i' -> exists i, bd_issues b !! id = Some i /\ moved i i'.
Proof. intros H Hi. specialize (H id). rewrite Hi in H. destruct (bd_issues b !! id); [eauto|done]. Qed.
Lemma moves_lookup' b b' id i : moves b b' -> bd_issues b !! id = Some i -> exists i', bd_issues b' !! id = Some i' /\ moved i i'.
Proof. intros H Hi. specialize (H id). rewrite Hi in H. destruct (bd_issues b' !! id); [eauto|done]. Qed.
Lemma live_moves b b' id i' : moves b b' -> bd_issues b' !! id = Some i' -> live id i' = true -> exists i, bd_issues b !! id = Some i /\ live id i = true.
Proof.
  intros H Hi Hl. destruct (moves_lookup b b' id i' H Hi) as (i & Ei & Ht & _). exists i. split; [done|].
  unfold live in *. destruct (is_terminal_issue i); [by rewrite Ht in Hl|done].
Qed.
Lemma todo_moves b b' aw aw' id i' : moves b b' -> (forall x, x ∈ aw -> x ∈ aw') -> bd_issues b' !! id = Some i' ->
  todo aw' id i' = true -> exists i, bd_issues b !! id = Some i /\ todo aw id i = true.
Proof.
  intros H Haw Hi [Hd Hn]%andb_true_iff. destruct (moves_lookup b b' id i' H Hi) as (i & Ei & _ & Hdr & _). exists i. split; [done|].
  unfold todo. rewrite Hdr by done. cbn. apply negb_true_iff, not_true_iff_false. apply negb_true_iff, not_true_iff_false in Hn.
  rewrite set_has_spec in *. auto.
Qed.
(** Boards that move on lower the measure, strictly where an item leaves. *)
Lemma measure_drop st st' b b' id :
  moves b b' -> (forall x, x ∈ ls_awaitingInputIds st -> x ∈ ls_awaitingInputIds st') ->
  (exists i, bd_issues b !! id = Some i /\ (live id i = true /\ (forall i', bd_issues b' !! id = Some i' -> live id i' = false) \/
     todo (ls_awaitingInputIds st) id i = true /\ (forall i', bd_issues b' !! id = Some i' -> todo (ls_awaitingInputIds st') id i' = false))) ->
  measure st' b' < measure st b.
Proof.
  intros Hm Haw (i & Hi & Hcase). unfold measure.
  assert (forall id i', bd_issues b' !! id = Some i' -> live id i' = true -> exists i, bd_issues b !! id = Some i /\ live id i = true) as HL
    by (intros; by eapply live_moves).
  assert (forall id i', bd_issues b' !! id = Some i' -> todo (ls_awaitingInputIds st') id i' = true ->
    exists i, bd_issues b !! id = Some i /\ todo (ls_awaitingInputIds st) id i = true) as HT by (intros; by eapply todo_moves).
  pose proof (count_le _ _ _ _ HL). pose proof (count_le _ _ _ _ HT).
  destruct Hcase as [[Hl Hn]|[Hl Hn]].
  - assert (count live (bd_issues b') < count live (bd_issues b)) by (eapply count_lt; eauto). lia.
  - assert (count (todo (ls_awaitingInputIds st')) (bd_issues b') < count (todo (ls_awaitingInputIds st)) (bd_issues b)) by (eapply count_lt; eauto). lia.
Qed.

(** What the state says is on the board. *)
Record Inv (st : LoopState) (b : Board) : Prop := {
  inv_closed : forall id, id ∈ ls_closed st -> exists i, bd_issues b !! id = Some i /\ is_terminal_issue i = true;
  inv_parked : forall id r, (id, r) ∈ ls_parked st -> isResourcePause r = false /\
    exists i, bd_issues b !! id = Some i /\ i_wedgeReason i = Some (reason_text r);
}.
Lemma inv_moves st st' b b' : Inv st b -> moves b b' -> ls_closed st' = ls_closed st -> ls_parked st' = ls_parked st -> Inv st' b'.
Proof.
  intros [Hc Hp] Hm Ec Ep. split.
  - intros id Hid. rewrite Ec in Hid. destruct (Hc id Hid) as (i & Hi & Ht).
    destruct (moves_lookup' b b' id i Hm Hi) as (i' & Hi' & Ht' & _). eauto.
  - intros id r Hid. rewrite Ep in Hid. destruct (Hp id r Hid) as (Hr & i & Hi & Hw). split; [done|].
    destruct (moves_lookup' b b' id i Hm Hi) as (i' & Hi' & _ & _ & Hw'). eauto.
Qed.

(** ** The run *)
Section Run.
Context {E : Type} (cfg : RalphConfig) (deps : RalphDeps E) (view : E -> Board) (admits : Board -> string -> bool)
  (rank : string -> nat) `{!LoopLaws deps view admits rank} (fuel : nat)
  (Hfuel : forall s, MAX_STAGE_RETRIES * S (rank s) < fuel).
Abbreviation safe := (safe view).
Abbreviation keeps := (keeps view).
Lemma drive_safe item : safe (driveClaimedItem cfg deps fuel item).
Proof. by apply (driveClaimedItem_safe cfg deps view rank). Qed.
Lemma drive_twp item e : twp (driveClaimedItem cfg deps fuel item) (fun r e' => view e' = view e /\ not_board (lr_outcome r)) e.
Proof.
  destruct (drive_safe item e) as (r & e' & Hd & Hv). exists r, e'. split; [done|]. split; [done|].
  by eapply (driveClaimedItem_outcome cfg deps view rank).
Qed.
Lemma narrate_safe s : safe (rd_narrate deps s).
Proof. apply dl_narrate. Qed.
Lemma does_safe f : (forall e, view (f e) = view e) -> safe (does f : Act E RalphError unit).
Proof. intros H e. exists tt, (f e). by split. Qed.
Lemma getIssue_safe id : safe (rd_getIssue deps id).
Proof. apply dl_getIssue. Qed.
#[local] Hint Resolve drive_safe narrate_safe does_safe getIssue_safe ll_claimAudience ll_display ll_onShipped ll_loopPassReconcile
  ll_stdout ll_stderr ll_emit ll_tip ll_committedSince ll_uncommittedPaths ll_clearStage ll_liveItems ll_listTerminal : effects.

Lemma escalateLap_safe r i : safe (escalateLap deps r i).
Proof.
  apply safe_bind; [eauto with effects|]. intros _ e.
  destruct (ll_escalate e r i ("🦑 HUMAN_REQUIRED(" +:+ reason_text r +:+ ")" +:+ item_suffix " [" "]" i)) as (why & e1 & He & Hv).
  rewrite (bind_step _ _ _ _ _ He). by exists tt, e1.
Qed.
(** Without an item, or for a resource pause, nothing is parked. *)
Lemma park_nothing r i st e :
  i = None \/ isResourcePause r = true ->
  twp (parkAndEscalate deps r i st) (fun st' e' => st' = st /\ view e' = view e) e.
Proof.
  intros Hi. unfold parkAndEscalate. apply twp_bind.
  assert (forall Q : LoopState -> E -> Prop, Q st e -> twp match i with
       | Some i => if isResourcePause r then mret st
           else rd_wedgeMark deps (i_id i) (reason_text r) ≫= fun _ =>
                does (rd_emitMonitorEvent deps (i_id i) item_wedged) ≫= fun _ =>
                mret (set_parked (ls_parked st ++ [(i_id i, r)]) st)
       | None => mret st
       end Q e) as H.
  { intros Q HQ. destruct i as [i|]; [|by apply twp_ret]. destruct Hi as [Hn | ->]; [done|]. by apply twp_ret. }
  apply H. clear H. apply twp_bind, twp_try_ok. eapply twp_safe; [apply escalateLap_safe|].
  intros _ e1 Hv1. apply twp_ret. done.
Qed.
Lemma park_item r i st e :
  isResourcePause r = false -> is_Some (bd_issues (view e) !! i_id i) ->
  twp (parkAndEscalate deps r (Some i) st) (fun st' e' => st' = set_parked (ls_parked st ++ [(i_id i, r)]) st /\
    view e' = on_issue (with_wedge (reason_text r)) (i_id i) (view e)) e.
Proof.
  intros Hr Hi. unfold parkAndEscalate. rewrite Hr. apply twp_bind, twp_bind.
  destruct (ll_wedgeMark e (i_id i) (reason_text r) Hi) as (e1 & Hw & Hv1). exists tt, e1. split; [exact Hw|].
  apply twp_bind. eapply twp_safe; [apply does_safe, ll_emit|]. intros _ e2 Hv2. apply twp_ret.
  apply twp_bind, twp_try_ok. eapply twp_safe; [apply escalateLap_safe|]. intros _ e3 Hv3. apply twp_ret.
  split; [done|congruence].
Qed.
Lemma displayAfterSession_safe r w st : safe (displayAfterSession deps r w st).
Proof. unfold displayAfterSession. eauto 6 with effects. Qed.
#[local] Hint Resolve displayAfterSession_safe : effects.

(** The base refresh only sets its flag. *)
Definition same_but_flag (st st' : LoopState) : Prop :=
  ls_closed st' = ls_closed st /\ ls_parked st' = ls_parked st /\ ls_awaitingInputIds st' = ls_awaitingInputIds st /\ ls_spent st' = ls_spent st.
Lemma refresh_base_twp st e : twp (refresh_base deps st) (fun st' e' => same_but_flag st st' /\ view e' = view e) e.
Proof.
  unfold refresh_base. destruct (rd_baseRefresh deps) as [refresh|] eqn:Er; [|by apply twp_ret].
  destruct (ls_baseConflictSurfaced st); [by apply twp_ret|].
  pose proof (ll_baseRefresh refresh Er e) as Hk. unfold twp.
  destruct (refresh e) as [r e1]. cbn in Hk. destruct r as [[]|]; try by eexists _, _.
  destruct (park_nothing SCOPE_FORK None (surface_conflict st) e1) as (st2 & e2 & Hp & -> & Hv2); [by left|].
  destruct (dl_narrate "⚠ base reconcile conflict — surfacing to a human (base left unchanged; drive continues on the un-refreshed base)" e1)
    as ([] & e3 & Hn & Hv3). rewrite (bind_step _ _ _ _ _ Hn).
  destruct (park_nothing SCOPE_FORK None (surface_conflict st) e3) as (st4 & e4 & -> & -> & Hv4); [by left|].
  eexists _, _. split; [done|]. split; [done|congruence].
Qed.

Lemma pick_twp aw : forall l held e,
  (forall i, i ∈ l -> ready_on (view e) i) ->
  twp (pick deps aw held l) (fun p e' => view e' = view e /\ (forall id, id ∈ held -> id ∈ p.2) /\
    match p.1 with
    | Some i => i ∈ l /\ i_id i ∉ aw
    | None => forall i, i ∈ l -> i_id i ∈ p.2
    end) e.
Proof.
  induction l as [|i l IH]; intros held e Hl; cbn [pick].
  { apply twp_ret. split_and!; [done..|]. by intros i ?%elem_of_nil. }
  apply twp_bind.
  assert (forall Q : bool -> E -> Prop, (forall b e1, view e1 = view e -> (b = false -> i_id i ∉ aw) -> Q b e1) ->
    twp (if set_has (i_id i) aw then mret true
         else match rd_stageLoop deps with
              | Some sl => drive ← sl_admissionGate sl i; mret (negb drive)
              | None => mret false
              end) Q e) as Hgate.
  { intros Q HQ. destruct (set_has (i_id i) aw) eqn:Ea; [by apply twp_ret, HQ|].
    assert (i_id i ∉ aw) as Hn by (intros H%set_has_spec; congruence).
    destruct (rd_stageLoop deps) as [sl|] eqn:Es; [|by apply twp_ret, HQ].
    destruct (ll_admissionGate sl i e Es) as (e1 & Hg & Hv). eexists _, e1. rewrite (bind_step _ _ _ _ _ Hg). split; [done|].
    by apply HQ. }
  apply Hgate. intros b e1 Hv1 Hb. destruct b.
  - eapply twp_mono; [apply IH; rewrite Hv1; intros j Hj; apply Hl; by right|].
    intros [o held'] e2 (Hv2 & Hh & Hp). cbn [fst snd] in *. split_and!; [congruence| |].
    + intros id Hid. apply Hh, elem_of_set_add. by left.
    + destruct o as [j|]; [destruct Hp; split; [by right|done]|].
      intros j [->|Hj]%elem_of_cons; [apply Hh, elem_of_set_add; by right|by apply Hp].
  - apply twp_ret. cbn. split_and!; [congruence|done|left|by apply Hb].
Qed.

(** What a finished run says of the board it left. *)
Definition Final (r : RalphResult) (b : Board) : Prop :=
  (exists st, Inv st b /\ rr_closed r = ls_closed st /\ rr_parked r = ls_parked st) /\ isResourcePause (rr_stopped r) = true /\
  (rr_stopped r = BOARD_EMPTY -> forall id, ~ live_in (bd_issues b) id) /\
  (rr_stopped r = BOARD_WAITING -> exists w, rr_waiting r = Some w /\
     (forall id, live_in (bd_issues b) id <-> id ∈ List.map bw_id w) /\
     (forall i, ready_on b i -> exists x, x ∈ w /\ bw_id x = i_id i /\ bw_reason x = w_admission)).
Definition Step (st : LoopState) (b : Board) (next : LoopState + RalphResult) (b' : Board) : Prop :=
  match next with
  | inl st' => Inv st' b' /\ measure st' b' < measure st b
  | inr r => Final r b'
  end.
Lemma live_issues l e id :
  l ≡ₚ (map_to_list (bd_issues (view e))).*2 ->
  live_in (bd_issues (view e)) id <-> exists i, i ∈ List.filter (fun i => negb (is_terminal_issue i)) l /\ i_id i = id.
Proof.
  intros Hl. unfold live_in. split.
  - intros (i & Hi & Ht). exists i. split; [|by apply (bl_ids e)]. apply list_elem_of_In, filter_In. rewrite Ht. split; [|done].
    apply list_elem_of_In. rewrite Hl. apply list_elem_of_fmap. exists (id, i). split; [done|]. by apply elem_of_map_to_list.
  - intros (i & Hi & <-). apply list_elem_of_In, filter_In in Hi as [Hi Ht]. apply negb_true_iff in Ht.
    apply list_elem_of_In in Hi. rewrite Hl in Hi. apply list_elem_of_fmap in Hi as ([k j] & -> & Hk%elem_of_map_to_list).
    exists j. cbn. by rewrite (bl_ids e k j Hk).
Qed.
Lemma classify_id issues edges held now i : bw_id (classify_waiting issues edges held now i) = i_id i.
Proof. unfold classify_waiting. repeat case_match; done. Qed.
Lemma ready_waits_on_admission issues edges held now b i :
  ready_on b i -> i_id i ∈ held -> bw_reason (classify_waiting issues edges held now i) = w_admission.
Proof.
  intros (_ & Ho & Hw & Hc & _) Hh. unfold classify_waiting, hasLiveClaim. rewrite Ho, Hw, Hc. cbn.
  by apply set_has_spec in Hh as ->.
Qed.
(** The reads at the end of a run. *)
Lemma inspect_twp held e :
  (forall i, ready_on (view e) i -> i_id i ∈ held) ->
  twp (inspectBoardAvailability deps held) (fun a e' => view e' = view e /\
    match a with
    | None => forall id, ~ live_in (bd_issues (view e)) id
    | Some w => (forall id, live_in (bd_issues (view e)) id <-> id ∈ List.map bw_id w) /\
        (forall i, ready_on (view e) i -> exists x, x ∈ w /\ bw_id x = i_id i /\ bw_reason x = w_admission)
    end) e.
Proof.
  intros Hh. unfold inspectBoardAvailability. apply twp_bind, twp_asks, twp_bind.
  destruct (bl_listIssues e) as (l & e1 & Hl & Hv1 & Hp). exists l, e1. split; [exact Hl|]. apply twp_bind.
  destruct (bl_listEdges e1) as (e2 & Hed & Hv2). eexists _, e2. split; [exact Hed|]. apply twp_ret. split; [congruence|].
  pose proof (fun id => live_issues l e id Hp) as Hlive. unfold board_availability.
  destruct (List.filter (fun i => negb (is_terminal_issue i)) l) as [|i0 lv] eqn:Ef.
  - intros id (i & []%elem_of_nil & _)%Hlive.
  - rewrite <- Ef in *. clear Ef. split.
    + intros id. rewrite Hlive, List.map_map, list_elem_of_In, in_map_iff. split.
      * intros (i & Hi & <-). exists i. rewrite classify_id. split; [done|by apply list_elem_of_In].
      * intros (i & <- & Hi). rewrite classify_id. exists i. split; [by apply list_elem_of_In|done].
    + intros i Hr. exists (classify_waiting l (bd_edges (view e1)) held (rd_nowIso deps e) i). rewrite classify_id. split_and!; [|done|].
      * apply list_elem_of_In, in_map, filter_In. destruct Hr as (Hi & Ho & _). split.
        -- apply list_elem_of_In. rewrite Hp. apply list_elem_of_fmap. exists (i_id i, i). split; [done|]. by apply elem_of_map_to_list.
        -- unfold is_terminal_issue. by rewrite Ho.
      * eapply ready_waits_on_admission; eauto.
Qed.
Lemma final_stop st b r w :
  Inv st b -> isResourcePause r = true -> r <> BOARD_EMPTY -> r <> BOARD_WAITING -> Final (stop_with r w st) b.
Proof. intros Hi Hr He Hw. split; [by exists st|]. by split_and!. Qed.
(** An empty hand: reap and go on, or stop. *)
Lemma drained_twp held st e :
  Inv st (view e) -> (forall i, ready_on (view e) i -> i_id i ∈ held) ->
  twp (drained deps held st) (fun next e' => Step st (view e) next (view e')) e.
Proof.
  intros Hi Hh. unfold drained. apply twp_bind. eapply twp_safe.
  { apply safe_ignored, keeps_bind; [apply ll_loopPassReconcile|]. intros [n|]; eauto with effects. }
  intros _ e1 Hv1. apply twp_bind, twp_try_ok. rewrite <- Hv1 in *. clear e Hv1.
  destruct (reapOrphans_exact deps view e1) as (reaped & e2 & Hre & Hin & Hv2 & _). exists reaped, e2. split; [exact Hre|].
  case_bool_decide as Hne.
  - apply twp_bind. eapply twp_safe; [eauto with effects|]. intros _ e3 Hv3. apply twp_ret. cbn.
    assert (moves (view e1) (view e3)) as Hm by (rewrite Hv3, Hv2; apply moves_set_all; by right).
    split; [by eapply inv_moves|]. destruct reaped as [|id reaped]; [done|].
    assert (orphan_at (view e1) id) as (i & Hid & Ho) by (apply Hin; left).
    apply (measure_drop _ _ _ _ id Hm); [done|]. exists i. split; [done|]. left. split.
    + unfold isOrphan in Ho. apply andb_true_iff in Ho as [[Ho _]%andb_true_iff _]. apply String.eqb_eq in Ho.
      unfold live, is_terminal_issue. by rewrite Ho.
    + intros i' Hi'. rewrite Hv3, Hv2 in Hi'. cbn in Hi'. fold (set_all "archived" (id :: reaped) (bd_issues (view e1))) in Hi'.
      pose proof (lookup_set_all "archived" (id :: reaped) (bd_issues (view e1)) id) as Hl. cbn [set_all foldl] in Hl. cbn in Hl.
      rewrite Hi', decide_True, Hid in Hl by left. injection Hl as ->. done.
  - subst reaped. cbn [set_all foldl] in Hv2. assert (view e2 = view e1) as Hv by by destruct (view e1).
    apply twp_bind, twp_try_ok. rewrite <- Hv in *.
    eapply twp_mono; [by apply inspect_twp|]. intros a e3 [Hv3 Ha]. rewrite <- Hv3 in *. destruct a as [w|].
    all: cbv zeta; apply twp_bind; (eapply twp_safe; [eauto with effects|]); intros _ e4 Hv4; apply twp_bind;
      (eapply twp_mono; [by apply park_nothing; left|]); intros st' e5 [-> Hv5]; apply twp_bind;
      (eapply twp_safe; [eauto with effects|]); intros _ e6 Hv6; apply twp_ret; cbn;
      assert (view e6 = view e3) as -> by congruence.
    + split; [by exists st|]. split; [done|]. split; [done|]. intros _. by exists w.
    + split; [by exists st|]. by split_and!.
Qed.

(** Progress at the item in hand. *)
Definition in_hand (st : LoopState) (b : Board) (id : string) : Prop :=
  (exists j, bd_issues b !! id = Some j /\ isDrivable j = true) /\ id ∉ ls_awaitingInputIds st.
Definition but_spent (st st' : LoopState) : Prop :=
  ls_closed st' = ls_closed st /\ ls_parked st' = ls_parked st /\ ls_awaitingInputIds st' = ls_awaitingInputIds st.
Lemma but_spent_add c st : but_spent st (add_spent c st).
Proof. done. Qed.
Lemma but_spent_trans a b c : but_spent a b -> but_spent b c -> but_spent a c.
Proof. intros (A & B & C) (A' & B' & C'). split_and!; congruence. Qed.
Lemma drivable_facts j : isDrivable j = true -> is_terminal_issue j = false /\ i_wedgeReason j = None.
Proof.
  unfold isDrivable, is_terminal_issue. intros [Ho Hw]%andb_true_iff. apply String.eqb_eq in Ho as ->.
  by apply bool_decide_eq_true in Hw.
Qed.
Lemma park_progress st st' b id r :
  Inv st b -> in_hand st b id -> isResourcePause r = false -> ls_closed st' = ls_closed st ->
  ls_parked st' = ls_parked st ++ [(id, r)] -> ls_awaitingInputIds st' = ls_awaitingInputIds st ->
  Inv st' (on_issue (with_wedge (reason_text r)) id b) /\ measure st' (on_issue (with_wedge (reason_text r)) id b) < measure st b.
Proof.
  intros Hi [(j & Hj & Hd) Ha] Hr Ec Ep Ea. pose proof (drivable_facts j Hd) as [_ Hw].
  assert (moves b (on_issue (with_wedge (reason_text r)) id b)) as Hm by (apply moves_wedge; congruence).
  pose proof (inv_moves st st b _ Hi Hm eq_refl eq_refl) as [Hc Hp]. split.
  - split; [by rewrite Ec|]. intros id' r'. rewrite Ep. intros [H|[= -> ->]%list_elem_of_singleton]%elem_of_app; [by apply Hp|].
    split; [done|]. eexists. cbn. rewrite lookup_alter_eq, Hj. split; [reflexivity|done].
  - apply (measure_drop _ _ _ _ id Hm); [by rewrite Ea|]. exists j. split; [done|]. right. split.
    + unfold todo. rewrite Hd. cbn. apply negb_true_iff, not_true_iff_false. by rewrite set_has_spec.
    + intros i'. cbn. rewrite lookup_alter_eq, Hj. intros [= <-]. unfold todo, isDrivable. cbn. by rewrite andb_false_r.
Qed.
Lemma durable_safe g base tgt : rd_git deps = Some g -> safe (durableItemCommitExists g base tgt).
Proof.
  intros Hg. unfold durableItemCommitExists. apply safe_bind; [eauto with effects|]. intros t.
  apply safe_bind; [eauto with effects|]. intros c. destruct (_ && _); eauto with effects.
Qed.
Lemma commit_gate_twp g base tgt item o : rd_git deps = Some g -> not_board o -> forall n st e,
  is_Some (bd_issues (view e) !! i_id item) ->
  twp (commit_gate cfg deps n fuel g base tgt item o st) (fun p e' =>
    match p.1 with
    | Some o' => but_spent st p.2 /\ view e' = view e /\ not_board o'
    | None => ls_closed p.2 = ls_closed st /\ ls_parked p.2 = ls_parked st ++ [(i_id item, NO_DURABLE_COMMIT)] /\
        ls_awaitingInputIds p.2 = ls_awaitingInputIds st /\
        view e' = on_issue (with_wedge (reason_text NO_DURABLE_COMMIT)) (i_id item) (view e)
    end) e.
Proof.
  intros Hg Ho. induction n as [|n IH]; intros st e Hs; cbn [commit_gate];
    (apply twp_bind; eapply twp_safe; [by apply durable_safe|]); intros [] e1 Hv1.
  1, 3: by apply twp_ret; split.
  all: apply twp_bind; (eapply twp_safe; [eauto with effects|]); intros _ e2 Hv2.
  - apply twp_bind. eapply twp_safe; [eauto with effects|]. intros _ e3 Hv3. apply twp_bind.
    eapply twp_mono; [apply park_item; [done|]|].
    { by rewrite Hv3, Hv2, Hv1. }
    intros st' e4 [-> Hv4]. apply twp_ret. cbn [fst snd]. split_and!; [done..|]. congruence.
  - apply twp_bind. eapply twp_mono; [apply drive_twp|]. intros re e3 [Hv3 Hre].
    assert (view e3 = view e) as Hv by congruence.
    destruct (lr_outcome re) eqn:Eo; try (apply twp_ret; cbn [fst snd]; split_and!; [apply but_spent_add|done..]).
    eapply twp_mono; [apply IH; by rewrite Hv|]. intros [[o'|] st'] e4; cbn [fst snd]; rewrite Hv.
    + intros (Hb & Hv4 & Hn). split_and!; [|done..]. eapply but_spent_trans; [apply but_spent_add|exact Hb].
    + done.
Qed.
Lemma moves_update s id b : (s = "closed" \/ s = "archived") -> moves b (set_status id s b).
Proof. intros Hs. apply (moves_on_issue (with_issue_status s)). intros i _. by apply moved_status. Qed.
Lemma count_rolled_spec l : forall st e, exists st' e', count_rolled deps l st e = (st', e') /\ view e' = view e /\
  ls_parked st' = ls_parked st /\ ls_awaitingInputIds st' = ls_awaitingInputIds st /\
  (forall id, id ∈ ls_closed st' -> id ∈ ls_closed st \/ id ∈ l).
Proof.
  induction l as [|p l IH]; intros st e; cbn [count_rolled]; [eexists _, _; split_and!; eauto|].
  destruct (narrate_safe ("✓ rolled up parent " +:+ p +:+ " (all children terminal)") e) as ([] & e1 & Hn & Hv). rewrite Hn.
  destruct (IH (add_closed [p] st) e1) as (st' & e' & Hg & Hv' & Hp' & Ha' & Hc'). eexists _, _. split; [exact Hg|].
  split_and!; [congruence|done|done|]. intros id Hid. apply Hc' in Hid as [Hid|Hid]; [|right; by right].
  cbn in Hid. apply elem_of_app in Hid as [Hid| ->%list_elem_of_singleton]; [by left|right; left].
Qed.
(** The close of a shipped item and its parents. *)
Lemma close_shipped_twp item st e :
  Inv st (view e) -> in_hand st (view e) (i_id item) ->
  twp (close_shipped deps item st) (fun st' e' => Inv st' (view e') /\ measure st' (view e') < measure st (view e)) e.
Proof.
  intros Hi Hin. unfold close_shipped. apply twp_bind.
  destruct Hin as [(j & Hj & Hd) Ha]. pose proof (drivable_facts j Hd) as [Ht _].
  destruct (bl_updateIssue e (i_id item) "closed") as (e1 & Hu & Hv1); [by eexists|]. exists tt, e1. split; [exact Hu|].
  apply twp_bind. eapply twp_safe. { destruct (rd_stageLoop deps) as [sl|] eqn:Es; eauto with effects. }
  intros _ e2 Hv2. cbv zeta. apply twp_bind. eapply twp_safe; [eauto with effects|]. intros _ e3 Hv3.
  apply twp_bind, twp_asks, twp_bind. eapply twp_safe; [eauto with effects|]. intros _ e4 Hv4. apply twp_bind.
  set (st1 := add_closed [i_id item] st).
  assert (view e4 = set_status (i_id item) "closed" (view e)) as Hv by congruence.
  destruct (rollUpParents_rolls deps view (i_id item) e4) as (rolled & e5 & Hr & Hv5 & [_ Hdue _ _]).
  assert (moves (view e) (view e4)) as Hm4 by (rewrite Hv; apply moves_update; by left).
  assert (moves (view e4) (view e5)) as Hm5 by (rewrite Hv5; apply moves_set_all; by left).
  pose proof (moves_trans _ _ _ Hm4 Hm5) as Hm.
  assert (forall st' e', view e' = view e5 -> ls_parked st' = ls_parked st -> ls_awaitingInputIds st' = ls_awaitingInputIds st ->
    (forall id, id ∈ ls_closed st' -> id ∈ ls_closed st \/ id = i_id item \/ id ∈ rolled) ->
    Inv st' (view e') /\ measure st' (view e') < measure st (view e)) as Hdone.
  { intros st' e' -> Ep Eaw Hc. pose proof (inv_moves st st _ _ Hi Hm eq_refl eq_refl) as [Hc5 Hp5]. split.
    - split; [|by rewrite Ep]. intros id Hid. apply Hc in Hid as [Hid|[->|Hid]]; [by apply Hc5| |].
      + assert (exists i4, bd_issues (view e4) !! i_id item = Some i4 /\ is_terminal_issue i4 = true) as (i4 & Hi4 & Ht4).
        { rewrite Hv. cbn. rewrite lookup_alter_eq, Hj. by eexists. }
        destruct (moves_lookup' _ _ _ _ Hm5 Hi4) as (i5 & Hi5 & Ht5 & _). eauto.
      + destruct (Hdue id Hid) as ((k & Hk & _) & _). rewrite Hv5. cbn. rewrite lookup_set_all, decide_True, Hk by done.
        by eexists.
    - apply (measure_drop _ _ _ _ (i_id item) Hm); [by rewrite Eaw|]. exists j. split; [done|]. left. split; [by unfold live; rewrite Ht|].
      intros i' Hi'. assert (exists i4, bd_issues (view e4) !! i_id item = Some i4 /\ is_terminal_issue i4 = true) as (i4 & Hi4 & Ht4).
      { rewrite Hv. cbn. rewrite lookup_alter_eq, Hj. by eexists. }
      destruct (moves_lookup' _ _ _ _ Hm5 Hi4) as (i5 & Hi5 & Ht5 & _). unfold live. rewrite Hi' in Hi5. injection Hi5 as ->.
      by rewrite Ht5. }
  unfold twp at 1. rewrite Hr.
  destruct (count_rolled_spec rolled st1 e5) as (st' & e6 & -> & Hv6 & Hp6 & Ha6 & Hc6). exists st', e6. split; [done|].
  apply twp_bind. eapply twp_safe; [apply safe_ignored, ll_onShipped|]. intros _ e7 Hv7. apply twp_ret.
  apply Hdone; [congruence|done|done|]. intros id Hid. apply Hc6 in Hid as [Hid|Hid]; [|by right; right].
  cbn in Hid. apply elem_of_app in Hid as [Hid| ->%list_elem_of_singleton]; [by left|by right; left].
Qed.
Lemma budget_twp st e (b : Board) (m : nat) :
  Inv st (view e) -> measure st (view e) < m ->
  twp (match cf_authMode cfg with
       | api =>
           if num_lt (cf_maxBudgetUsd cfg) (ls_spent st) then
             st ← parkAndEscalate deps BUDGET None st;
             displayAfterSession deps BUDGET [] st ≫= fun _ => mret (inr (stop_with BUDGET None st))
           else mret (inl st)
       | subscription => mret (inl st)
       end) (fun next e' => match next with
                            | inl st' => Inv st' (view e') /\ measure st' (view e') < m
                            | inr r => Final r (view e')
                            end) e.
Proof.
  intros Hi Hm. destruct (cf_authMode cfg); [|by apply twp_ret]. destruct (num_lt _ _); [|by apply twp_ret].
  apply twp_bind. eapply twp_mono; [by apply park_nothing; left|]. intros st' e1 [-> Hv1]. apply twp_bind.
  eapply twp_safe; [eauto with effects|]. intros _ e2 Hv2. apply twp_ret. apply final_stop; [|done..]. by rewrite Hv2, Hv1.
Qed.
Lemma settle_outcome_twp item o st e :
  not_board o -> Inv st (view e) -> in_hand st (view e) (i_id item) ->
  twp (settle_outcome cfg deps item o st) (fun next e' => Step st (view e) next (view e')) e.
Proof.
  intros Hn Hi Hin.
  assert (forall r, r <> BOARD_EMPTY -> r <> BOARD_WAITING -> twp (rd_narrate deps ("⚠ parked " +:+ i_id item +:+ ": " +:+ reason_text r) ≫= fun _ =>
      st ← parkAndEscalate deps r (Some item) st;
      if isResourcePause r then
        displayAfterSession deps r [] st ≫= fun _ => mret (inr (stop_with r None st))
      else match cfg.(cf_authMode) with
       | api =>
           if num_lt (cf_maxBudgetUsd cfg) (ls_spent st) then
             st ← parkAndEscalate deps BUDGET None st;
             displayAfterSession deps BUDGET [] st ≫= fun _ => mret (inr (stop_with BUDGET None st))
           else mret (inl st)
       | subscription => mret (inl st)
       end) (fun next e' => Step st (view e) next (view e')) e) as Hpark.
  { intros r Hne Hnw. apply twp_bind. eapply twp_safe; [eauto with effects|]. intros _ e1 Hv1. apply twp_bind.
    destruct (isResourcePause r) eqn:Er.
    - eapply twp_mono; [by apply park_nothing; right|]. intros st' e2 [-> Hv2]. apply twp_bind.
      eapply twp_safe; [eauto with effects|]. intros _ e3 Hv3. apply twp_ret. cbn.
      apply final_stop; [by rewrite Hv3, Hv2, Hv1|done..].
    - destruct Hin as [(j & Hj & Hd) Ha]. eapply twp_mono; [apply park_item; [done|]; rewrite Hv1; by eexists|].
      intros st' e2 [-> Hv2]. rewrite Hv1 in Hv2.
      destruct (park_progress st (set_parked (ls_parked st ++ [(i_id item, r)]) st) (view e) (i_id item) r) as [Hi' Hm'];
        [done|split; [eauto|done]|done..|].
      apply (budget_twp _ _ (view e)); by rewrite Hv2. }
  unfold settle_outcome. destruct o as [|stage|r it p| | |]; [| |by apply Hpark; intros ->|by apply Hpark..].
  - apply twp_bind. eapply twp_mono; [by apply close_shipped_twp|]. intros st' e1 [Hi1 Hm1]. by apply (budget_twp _ _ (view e)).
  - destruct Hin as [(j & Hj & Hd) Ha]. cbv zeta. apply twp_bind. eapply twp_safe; [eauto with effects|]. intros cl e1 Hv1. apply twp_bind.
    destruct (ll_releaseClaim e1 (i_id item) (cl ≫= i_claimToken)) as (e2 & Hr & Hv2); [rewrite Hv1; by eexists|].
    exists tt, e2. split; [exact Hr|]. apply twp_bind. eapply twp_safe; [eauto with effects|]. intros _ e3 Hv3. apply twp_ret. cbn.
    rewrite Hv3, Hv2, Hv1. assert (moves (view e) (on_issue (with_claim None) (i_id item) (view e))) as Hm by apply moves_claim.
    split; [by eapply inv_moves|]. apply (measure_drop _ _ _ _ (i_id item) Hm).
    + intros x Hx. apply elem_of_set_add. by left.
    + exists j. split; [done|]. right. split.
      * unfold todo. rewrite Hd. cbn. apply negb_true_iff, not_true_iff_false. by rewrite set_has_spec.
      * intros i' _. unfold todo. cbn. assert (set_has (i_id item) (set_add (ls_awaitingInputIds st) (i_id item)) = true) as ->.
        { apply set_has_spec, elem_of_set_add. by right. } cbn. apply andb_false_r.
Qed.
Lemma inv_spent c st b : Inv st b -> Inv (add_spent c st) b.
Proof. by intros [? ?]. Qed.
Lemma step_spent c st b next b' : Step (add_spent c st) b next b' -> Step st b next b'.
Proof. done. Qed.
Lemma drive_pass item st e :
  Inv st (view e) -> in_hand st (view e) (i_id item) ->
  twp (drive cfg deps fuel item st) (fun next e' => Step st (view e) next (view e')) e.
Proof.
  intros Hi Hin. unfold drive. apply twp_bind. eapply twp_safe; [eauto with effects|]. intros _ e1 Hv1.
  apply twp_bind, twp_asks, twp_bind. eapply twp_safe; [eauto with effects|]. intros _ e2 Hv2. apply twp_bind.
  eapply (twp_safe view). { destruct (rd_git deps) as [g|] eqn:Eg; eauto with effects. } intros base e3 Hv3.
  assert (view e3 = view e) as Hv by congruence. apply twp_bind.
  eapply twp_mono; [apply drive_twp|]. intros out e4 [Hv4 Hno]. cbv zeta. set (st1 := add_spent (lr_costUsd out) st).
  assert (view e4 = view e) as Hve by congruence. rewrite <- Hve in *. clear e Hv Hve Hv1 Hv2 Hv3 Hv4.
  apply twp_bind.
  assert (forall o, not_board o -> twp (settle_outcome cfg deps item o st1) (fun next e' => Step st (view e4) next (view e')) e4) as Hsettle.
  { intros o Ho. apply (settle_outcome_twp item o st1); [done|by apply inv_spent|done]. }
  destruct (lr_outcome out) eqn:Eo; try (apply twp_ret; by apply Hsettle).
  destruct (rd_git deps) as [g|] eqn:Eg; [|apply twp_ret; by apply Hsettle].
  destruct base as [base|]; [|apply twp_ret; by apply Hsettle].
  eapply twp_mono; [apply commit_gate_twp; [done..|]|].
  { destruct Hin as [(j & Hj & _) _]. by eexists. }
  intros [[o|] st2] e5; cbn [fst snd].
  - intros ((Ec & Ep & Ea) & Hv5 & Ho). eapply twp_mono; [apply settle_outcome_twp; [done| |]|].
    + rewrite Hv5. eapply inv_moves; [exact Hi|apply moves_refl|done..].
    + rewrite Hv5. destruct Hin as [H1 H2]. split; [done|]. by rewrite Ea.
    + intros next e6. unfold Step. assert (measure st2 (view e5) = measure st (view e4)) as -> by (unfold measure; by rewrite Ea, Hv5). done.
  - intros (Ec & Ep & Ea & Hv5). apply twp_ret. cbn. rewrite Hv5. by eapply park_progress.
Qed.
Lemma measure_moves st b b' : moves b b' -> measure st b' <= measure st b.
Proof. intros Hm. apply Nat.add_le_mono; apply count_le; intros; [by eapply live_moves|by eapply todo_moves]. Qed.
Lemma pass_twp st e : Inv st (view e) -> twp (pass cfg deps fuel st) (fun next e' => Step st (view e) next (view e')) e.
Proof.
  intros Hi. unfold pass. apply twp_bind. eapply twp_mono; [apply refresh_base_twp|]. intros st1 e1 [(Ec & Ep & Ea & Es) Hv1].
  apply twp_bind. destruct (ll_listReady e1) as (l & e2 & Hl & Hv2 & Hready). exists l, e2. split; [exact Hl|].
  assert (view e2 = view e) as Hv by congruence. rewrite <- Hv1, <- Hv2 in Hi. rewrite <- Hv2 in Hready.
  assert (Inv st1 (view e2)) as Hi1 by (eapply inv_moves; [exact Hi|apply moves_refl|done..]).
  assert (forall next b', Step st1 (view e2) next b' -> Step st (view e) next b') as Hstep.
  { intros [st'|r] b'; cbn; [|done]. unfold measure. by rewrite Ea, Hv. }
  apply twp_bind. eapply twp_mono; [apply pick_twp; intros i; apply Hready|].
  intros [[item|] held] e3 (Hv3 & _ & Hp); cbn [fst snd] in Hp.
  - apply twp_bind. eapply (twp_safe view); [eauto with effects|]. intros aud e4 Hv4. destruct Hp as [Hin Hn]. apply Hready in Hin.
    apply twp_bind. destruct (ll_claimIssue e4 item aud (cf_claimTtlSec cfg)) as (t & e5 & Hc & Hv5); [by rewrite Hv4, Hv3|].
    exists true, e5. split; [exact Hc|]. rewrite Hv4, Hv3 in Hv5.
    assert (moves (view e2) (view e5)) as Hm by (rewrite Hv5; apply moves_claim).
    eapply twp_mono; [apply drive_pass|].
    + by eapply inv_moves.
    + split; [|done]. destruct Hin as (Hj & Ho & Hw & _). eexists. rewrite Hv5. cbn. rewrite lookup_alter_eq, Hj. split; [reflexivity|].
      unfold isDrivable. cbn. by rewrite Ho, Hw.
    + intros next e6 Hs. apply Hstep. destruct next as [st'|r]; [|done]. destruct Hs as [HI HM]. split; [done|].
      pose proof (measure_moves st1 _ _ Hm). lia.
  - eapply twp_mono; [apply drained_twp|].
    + by rewrite Hv3.
    + intros i Hr. apply Hp. apply Hready. by rewrite Hv3 in Hr.
    + intros next e4 Hs. apply Hstep. by rewrite <- Hv3.
Qed.
Lemma passes_twp n : forall st e, Inv st (view e) -> measure st (view e) < n ->
  twp (passes cfg deps n fuel st) (fun r e' => Final r (view e')) e.
Proof.
  induction n as [|n IH]; intros st e Hi Hm; [lia|]. cbn [passes]. apply twp_bind.
  eapply twp_mono; [by apply pass_twp|]. intros [st'|r] e1; cbn.
  - intros [Hi' Hm']. apply IH; [done|lia].
  - intros Hf. by apply twp_ret.
Qed.
Lemma sweep_keeps : keeps (sweepTerminalBacklog deps).
Proof.
  apply keeps_bind; [eauto with effects|]. intros now. apply keeps_bind; [eauto with effects|]. intros live.
  case_bool_decide; [eauto with effects|]. apply keeps_bind.
  - cbn [for_fold TERMINAL_STATUSES]. eauto 20 with effects.
  - intros terminal. assert (forall l k, safe (for_fold (fun emitted id =>
      if set_has id terminal then does (rd_emitMonitorEvent deps id item_closed) ≫= fun _ => mret (S emitted)
      else mret emitted) k l : Act E RalphError nat)) as Hsafe; [|apply safe_keeps, Hsafe].
    induction l as [|id l IH]; intros k; cbn [for_fold]; [eauto with effects|]. apply safe_bind; [|done].
    destruct (set_has id terminal); eauto with effects.
Qed.
Lemma count_bound P (S : Snapshot) : count P S <= size S.
Proof. apply map_subseteq_size, map_filter_subseteq. Qed.

(** C4: the loop runs to exhaustion.  In a quiet world in which stages only
    advance and no lap claims to see the board, twice as many passes as the
    board has issues, and one, end the run, and it ends well: with a resource
    pause as its reason, with every issue it counts closed being terminal and
    every issue it counts parked bearing the wedge and the residual reason it
    was parked for.  [BOARD_EMPTY] means that no issue is live.  [BOARD_WAITING]
    comes with exactly the live issues, and an issue that is still ready among
    them waits for admission or for its pack's input: nothing the loop may
    drive is left. *)
Theorem loop_runs_to_exhaustion (n : nat) (e : E) :
  2 * size (bd_issues (view e)) < n ->
  exists r e', runRalphLoop cfg deps n fuel e = (Ok r, e') /\
    isResourcePause (rr_stopped r) = true /\
    (forall id, id ∈ rr_closed r -> exists i, bd_issues (view e') !! id = Some i /\ is_terminal_issue i = true) /\
    (forall id reason, (id, reason) ∈ rr_parked r -> isResourcePause reason = false /\
       exists i, bd_issues (view e') !! id = Some i /\ i_wedgeReason i = Some (reason_text reason)) /\
    (rr_stopped r = BOARD_EMPTY -> forall id, ~ live_in (bd_issues (view e')) id) /\
    (rr_stopped r = BOARD_WAITING -> exists w, rr_waiting r = Some w /\
       (forall id, live_in (bd_issues (view e')) id <-> id ∈ List.map bw_id w) /\
       (forall i, ready_on (view e') i -> exists x, x ∈ w /\ bw_id x = i_id i /\ bw_reason x = w_admission)).
Proof.
  intros Hn. enough (twp (runRalphLoop cfg deps n fuel) (fun r e' => Final r (view e')) e) as (r & e' & Hr & ((st & [Hc Hp] & Ec & Ep) & Hf)).
  { exists r, e'. split; [exact Hr|]. rewrite Ec, Ep. destruct Hf as (? & ? & ?). by split_and!. }
  unfold runRalphLoop. apply twp_bind. eapply (twp_safe view).
  { apply safe_ignored, keeps_bind; [apply sweep_keeps|]. intros d. destruct (Nat.ltb 0 d); cbn; eauto with effects. }
  intros _ e1 Hv1. apply twp_bind. eapply (twp_safe view).
  { apply safe_ignored, keeps_bind; [|eauto with effects]. intros e2. by destruct (ll_listReady e2) as (l & e3 & -> & Hv & _). }
  intros _ e2 Hv2. assert (view e2 = view e) as Hv by congruence. apply passes_twp.
  - split; [by intros id ?%elem_of_nil|by intros id r ?%elem_of_nil].
  - rewrite Hv. unfold measure. pose proof (count_bound live (bd_issues (view e))).
    pose proof (count_bound (todo []) (bd_issues (view e))). cbn. lia.
Qed.
End Run.
