(* ===== verification/RalphTrace.v ===== *)
(** * The calls a run makes

    [traced deps] is [deps] with a log: every lap, claim, close, wedge, stage
    write, git read and reading of the edges is recorded, claims and reads with
    their answers, everything else acts as
    before.  What the log of a run looks like, whatever the dependencies do. *)

From Stdlib Require Import Ascii String.
From stdpp Require Import base option list strings gmap.
From S2P Require Import Prelude Effects Json ExprSyntax ExprEval RateLimit Workgraph LapOutcome Ralph.

Inductive Call :=
| CClaim (item : string) (answer : result RalphError bool)
| CLap (item : string) (stage : option string)
| CTip (ref : option string) (answer : result RalphError string)
| CCommitted (base : string) (ref : option string) (answer : result RalphError (list string))
| CDirty (answer : result RalphError (list string))
| CUpdate (item status : string)
| CEdges (answer : result RalphError (list Edge))
| CWedge (item reason : string)
| CReconcile (item stage : string).

Section Traced.
Context {E : Type}.
Abbreviation W := (E * list Call)%type.
Definition lift {A} (m : Io E A) : Io W A := fun w => let '(r, e) := m w.1 in (r, (e, w.2)).
Definition lift_env (f : E -> E) : W -> W := fun w => (f w.1, w.2).
Definition logs {A} (c : result RalphError A -> Call) (m : Io E A) : Io W A := fun w =>
  let '(r, e) := m w.1 in (r, (e, w.2 ++ [c r])).
Definition traced_git (g : RalphGitSeam E) : RalphGitSeam W := {|
  git_tip ref := logs (CTip ref) (git_tip g ref);
  git_committedSince base ref := logs (CCommitted base ref) (git_committedSince g base ref);
  git_uncommittedPaths := logs CDirty (git_uncommittedPaths g);
|}.
Definition traced_stages (sl : StageLoop E) : StageLoop W := {|
  sl_initialStage := sl_initialStage sl;
  sl_isAutomated := sl_isAutomated sl;
  sl_isTerminal := sl_isTerminal sl;
  sl_stagePrompt i s := lift (sl_stagePrompt sl i s);
  sl_completedStage := (fun f i s => lift (f i s)) <$> sl_completedStage sl;
  sl_readStage id := lift (sl_readStage sl id);
  sl_readAttemptStage a id := lift (sl_readAttemptStage sl a id);
  sl_clearStage id := lift (sl_clearStage sl id);
  sl_admissionGate i := lift (sl_admissionGate sl i);
  sl_reconcileStage id s := logs (fun _ => CReconcile id s) (sl_reconcileStage sl id s);
|}.
Definition traced (deps : RalphDeps E) : RalphDeps W := {|
  rd_listReady := lift (rd_listReady deps);
  rd_listIssues s := lift (rd_listIssues deps s);
  rd_listEdges := logs CEdges (rd_listEdges deps);
  rd_getIssue id := lift (rd_getIssue deps id);
  rd_updateIssue id s := logs (fun _ => CUpdate id s) (rd_updateIssue deps id s);
  rd_archiveIssue id why := lift (rd_archiveIssue deps id why);
  rd_claimIssue id a ttl := logs (CClaim id) (rd_claimIssue deps id a ttl);
  rd_renewClaim := (fun f id tok ttl => lift (f id tok ttl)) <$> rd_renewClaim deps;
  rd_wedgeMark id r := logs (fun _ => CWedge id r) (rd_wedgeMark deps id r);
  rd_clearWedge id := lift (rd_clearWedge deps id);
  rd_releaseClaim id t := lift (rd_releaseClaim deps id t);
  rd_claimAudience := lift (rd_claimAudience deps);
  rd_runLap i p s := logs (fun _ => CLap (i_id i) s) (rd_runLap deps i p s);
  rd_firings w := rd_firings deps w.1;
  rd_escalate r i t := lift (rd_escalate deps r i t);
  rd_stdout s := lift_env (rd_stdout deps s);
  rd_stderr s := lift_env (rd_stderr deps s);
  rd_narrate s := lift (rd_narrate deps s);
  rd_display s := lift (rd_display deps s);
  rd_onShipped id := lift (rd_onShipped deps id);
  rd_loopPassReconcile := lift (rd_loopPassReconcile deps);
  rd_recordMetric r := lift (rd_recordMetric deps r);
  rd_stageLoop := traced_stages <$> rd_stageLoop deps;
  rd_git := traced_git <$> rd_git deps;
  rd_environments := rd_environments deps;
  rd_baseRefresh := lift <$> rd_baseRefresh deps;
  rd_heartbeat := lift (rd_heartbeat deps);
  rd_sleep n := lift (rd_sleep deps n);
  rd_liveItems := lift (rd_liveItems deps);
  rd_emitMonitorEvent id k := lift_env (rd_emitMonitorEvent deps id k);
  rd_nowMs w := rd_nowMs deps w.1;
  rd_nowIso w := rd_nowIso deps w.1;
|}.

(** ** What a program adds to the log *)
Definition emits {A} (m : Io W A) (P : result RalphError A -> list Call -> Prop) : Prop :=
  forall w, exists l, (m w).2.2 = w.2 ++ l /\ P (m w).1 l.
(** Only calls of a kind. *)
Definition only {A} (C : Call -> Prop) (m : Io W A) : Prop := emits m (fun _ l => Forall C l).
Definition silent {A} (m : Io W A) : Prop := forall C, only C m.

Lemma emits_mono {A} (m : Io W A) (P Q : result RalphError A -> list Call -> Prop) :
  emits m P -> (forall r l, P r l -> Q r l) -> emits m Q.
Proof. intros H HQ w. destruct (H w) as (l & Hl & HP). eauto. Qed.
Lemma emits_bind {A B} (m : Io W A) (f : A -> Io W B) P Q (R : result RalphError B -> list Call -> Prop) :
  emits m P -> (forall a, emits (f a) (Q a)) -> (forall x l, P (Err x) l -> R (Err x) l) ->
  (forall a r l1 l2, P (Ok a) l1 -> Q a r l2 -> R r (l1 ++ l2)) -> emits (m ≫= f) R.
Proof.
  intros Hm Hf He Ho w. unfold mbind, act_bind. destruct (Hm w) as (l1 & Hl1 & HP). destruct (m w) as [[a|x] w1]; cbn in *.
  - destruct (Hf a w1) as (l2 & Hl2 & HQ). exists (l1 ++ l2). rewrite Hl2, Hl1, app_assoc. eauto.
  - exists l1. eauto.
Qed.
Lemma emits_ret {A} (a : A) (P : result RalphError A -> list Call -> Prop) : P (Ok a) [] -> emits (mret a) P.
Proof. intros H w. exists []. by rewrite app_nil_r. Qed.
Lemma emits_logs {A} c (m : Io E A) (P : result RalphError A -> list Call -> Prop) : (forall r, P r [c r]) -> emits (logs c m) P.
Proof. intros H w. unfold logs. destruct (m w.1) as [r e]. exists [c r]. split; [done|apply H]. Qed.
Section Only.
Context (C : Call -> Prop).
Lemma only_ret {A} (a : A) : only C (mret a).
Proof. by apply emits_ret. Qed.
Lemma only_raise {A} (x : RalphError) : only C (raise x : Io W A).
Proof. intros w. exists []. by rewrite app_nil_r. Qed.
Lemma only_bind {A B} (m : Io W A) (f : A -> Io W B) : only C m -> (forall a, only C (f a)) -> only C (m ≫= f).
Proof. intros Hm Hf. apply (emits_bind _ _ (fun _ l => Forall C l) (fun _ _ l => Forall C l)); [done..|].
  intros a r l1 l2. by apply Forall_app_2. Qed.
Lemma only_try {A} (m : Io W A) h : only C m -> (forall x, only C (h x)) -> only C (try_catch m h).
Proof.
  intros Hm Hh w. unfold try_catch. destruct (Hm w) as (l1 & Hl1 & HP). destruct (m w) as [[a|x] w1]; cbn in *; [by exists l1|].
  destruct (Hh x w1) as (l2 & Hl2 & HQ). exists (l1 ++ l2). rewrite Hl2, Hl1, app_assoc. split; [done|by apply Forall_app_2].
Qed.
Lemma only_ignored m : only C m -> only C (ignored m).
Proof. intros H. apply only_try; [done|]. intros. apply only_ret. Qed.
Lemma only_lift {A} (m : Io E A) : only C (lift m).
Proof. intros w. unfold lift. destruct (m w.1). exists []. by rewrite app_nil_r. Qed.
Lemma only_env f : only C (does (lift_env f)).
Proof. intros w. exists []. by rewrite app_nil_r. Qed.
Lemma only_asks {A} (f : W -> A) : only C (asks f).
Proof. intros w. exists []. by rewrite app_nil_r. Qed.
Lemma only_when b m : only C m -> only C (when b m).
Proof. intros H. destruct b; [done|apply only_ret]. Qed.
Lemma only_logs {A} c (m : Io E A) : (forall r, C (c r)) -> only C (logs c m).
Proof. intros H. apply emits_logs. intros r. by constructor. Qed.
Lemma only_for_fold {A S} (f : S -> A -> Io W S) l s : (forall s a, a ∈ l -> only C (f s a)) -> only C (for_fold f s l).
Proof.
  revert s. induction l as [|a l IH]; intros s H; cbn [for_fold]; [apply only_ret|].
  apply only_bind; [apply H; left|]. intros s'. apply IH. intros. apply H. by right.
Qed.
Lemma only_for_each {A} (f : A -> Io W unit) l : (forall a, only C (f a)) -> only C (for_each f l).
Proof. intros H. induction l; cbn [for_each]; [apply only_ret|]. by apply only_bind. Qed.
End Only.
Lemma only_mono {A} (C D : Call -> Prop) (m : Io W A) : only C m -> (forall c, C c -> D c) -> only D m.
Proof. intros H HC. eapply emits_mono; [exact H|]. intros r l Hl. eapply Forall_impl; [exact Hl|exact HC]. Qed.
Lemma emits_only_bind {A B} C (m : Io W A) (f : A -> Io W B) (R : result RalphError B -> list Call -> Prop) :
  only C m -> (forall x l, Forall C l -> R (Err x) l) -> (forall a, emits (f a) (fun r l2 => forall l1, Forall C l1 -> R r (l1 ++ l2))) ->
  emits (m ≫= f) R.
Proof.
  intros Hm He Hf. apply (emits_bind _ _ (fun _ l => Forall C l) (fun _ r l2 => forall l1, Forall C l1 -> R r (l1 ++ l2))); auto.
Qed.
(** A silent start adds nothing. *)
Lemma emits_silent_bind {A B} (m : Io W A) (f : A -> Io W B) (R : result RalphError B -> list Call -> Prop) :
  silent m -> (forall x, R (Err x) []) -> (forall a, emits (f a) R) -> emits (m ≫= f) R.
Proof.
  intros Hm He Hf. apply (emits_bind _ _ (fun _ l => Forall (fun _ => False) l) (fun _ r l => R r l)); [apply Hm|done| |].
  - intros x [|c l] Hl; [done|]. by apply Forall_cons in Hl as [[] _].
  - intros a r [|c l] l2 Hl; [done|]. by apply Forall_cons in Hl as [[] _].
Qed.
End Traced.

(** ** Tracing changes nothing *)
Section Sim.
Context {E : Type} (cfg : RalphConfig) (deps : RalphDeps E).
Abbreviation tdeps := (traced deps).
Abbreviation W := (E * list Call)%type.
Definition sim {A} (m' : Io W A) (m : Io E A) : Prop := forall w, (m' w).1 = (m w.1).1 /\ (m' w).2.1 = (m w.1).2.
Lemma tsim_bind {A B} m' m (f' : A -> Io W B) f : sim m' m -> (forall a, sim (f' a) (f a)) -> sim (m' ≫= f') (m ≫= f).
Proof.
  intros Hm Hf w. unfold mbind, act_bind. destruct (Hm w) as [H1 H2]. destruct (m' w) as [r w1], (m w.1) as [r1 e1]. cbn in *. subst.
  destruct r1 as [a|x]; [apply Hf|done].
Qed.
Lemma tsim_ret {A} (a : A) : sim (mret a) (mret a).
Proof. done. Qed.
Lemma tsim_raise {A} (x : RalphError) : sim (A := A) (raise x) (raise x).
Proof. done. Qed.
Lemma tsim_lift {A} (m : Io E A) : sim (lift m) m.
Proof. intros w. unfold lift. by destruct (m w.1). Qed.
Lemma tsim_logs {A} c (m : Io E A) : sim (logs c m) m.
Proof. intros w. unfold logs. by destruct (m w.1). Qed.
Lemma tsim_env f : sim (does (lift_env f)) (does f).
Proof. done. Qed.
Lemma tsim_asks {A} (f : E -> A) : sim (asks (fun w => f w.1)) (asks f).
Proof. done. Qed.
Lemma tsim_try {A} (m' : Io W A) m h' h : sim m' m -> (forall x, sim (h' x) (h x)) -> sim (try_catch m' h') (try_catch m h).
Proof.
  intros Hm Hh w. unfold try_catch. destruct (Hm w) as [H1 H2]. destruct (m' w) as [r w1], (m w.1) as [r1 e1]. cbn in *. subst.
  destruct r1 as [a|x]; [done|apply Hh].
Qed.
Lemma tsim_ignored m' m : sim m' m -> sim (ignored m') (ignored m).
Proof. intros H. by apply tsim_try. Qed.
Lemma tsim_when b m' m : sim m' m -> sim (when b m') (when b m).
Proof. by destruct b. Qed.
Lemma tsim_for_fold {A S} (f' : S -> A -> Io W S) f l : (forall s a, sim (f' s a) (f s a)) -> forall s, sim (for_fold f' s l) (for_fold f s l).
Proof. intros H. induction l as [|a l IH]; intros s; cbn [for_fold]; [apply tsim_ret|]. by apply tsim_bind. Qed.
Lemma tsim_for_each {A} (f' : A -> Io W unit) f l : (forall a, sim (f' a) (f a)) -> sim (for_each f' l) (for_each f l).
Proof. intros H. induction l as [|a l IH]; cbn [for_each]; [apply tsim_ret|]. by apply tsim_bind. Qed.
Ltac sim := repeat lazymatch goal with
  | |- sim (superviseLap _ _ _) _ => fail
  | |- sim (driveClaimedItem _ _ _ _) _ => fail
  | |- sim (close_shipped _ _ _) _ => fail
  | |- sim (settle_outcome _ _ _ _ _) _ => fail
  | |- sim (drive _ _ _ _ _) _ => fail
  | |- sim (passes _ _ _ _ _) _ => fail
  | |- sim (commit_gate _ _ _ _ _ _ _ _ _ _) _ => fail
  | |- _ => first
  [ progress intros | apply tsim_ret | apply tsim_raise | apply tsim_lift | apply tsim_logs | apply tsim_env | apply tsim_asks
  | apply tsim_bind | apply tsim_try | apply tsim_ignored | apply tsim_when | apply tsim_for_each | apply tsim_for_fold
  | progress cbv zeta | match goal with |- sim (match ?x with _ => _ end) (match ?y with _ => _ end) => constr_eq x y; destruct x end ] end.

Lemma supervise_sim run' run : sim run' run -> forall n attempt cost tin tout,
  sim (supervise_from cfg tdeps run' n attempt cost tin tout) (supervise_from cfg deps run n attempt cost tin tout).
Proof. intros Hr. induction n as [|n IH]; intros; cbn [supervise_from]; sim; try apply Hr; apply IH. Qed.
Lemma escalate_sim r i : sim (escalateLap tdeps r i) (escalateLap deps r i).
Proof. unfold escalateLap. sim. Qed.
Lemma park_sim r i st : sim (parkAndEscalate tdeps r i st) (parkAndEscalate deps r i st).
Proof. unfold parkAndEscalate. sim; apply escalate_sim. Qed.
Lemma flush_sim item s acc : sim (flushStage cfg tdeps item s acc) (flushStage cfg deps item s acc).
Proof. unfold flushStage. sim. Qed.
Lemma renewals_sim token item p s : sim (with_renewals cfg tdeps token item p s) (with_renewals cfg deps token item p s).
Proof.
  intros w. unfold with_renewals. cbn [rd_runLap traced]. unfold logs. destruct (rd_runLap deps item p s w.1) as [r e].
  destruct token as [tok|]; [|done]. cbn [rd_renewClaim traced]. destruct (rd_renewClaim deps) as [f|]; [|done]. cbn [fmap option_fmap option_map fst snd].
  split; [done|]. set (l := w.2 ++ _). clearbody l. change (rd_firings tdeps (e, l)) with (rd_firings deps e).
  induction (rd_firings deps e) as [|n IH]; [done|]. rewrite !Nat.iter_succ, <- IH.
  assert (sim (renew_once cfg tdeps (fun id tok ttl => lift (f id tok ttl)) (i_id item) tok) (renew_once cfg deps f (i_id item) tok)) as Hs
    by (unfold renew_once; sim). apply Hs.
Qed.
Lemma stage_loop_sim sl token item : forall fuel stage cost same acc,
  sim (stage_loop cfg tdeps fuel (traced_stages sl) (with_renewals cfg tdeps token) item stage cost same acc)
      (stage_loop cfg deps fuel sl (with_renewals cfg deps token) item stage cost same acc).
Proof.
  induction fuel as [|fuel IH]; intros stage cost same acc; cbn [stage_loop]; [apply tsim_raise|].
  cbn [sl_isTerminal sl_isAutomated sl_completedStage traced_stages].
  destruct (sl_isTerminal sl stage); [apply tsim_ret|]. destruct (sl_isAutomated sl stage); cbn [negb]; [|apply tsim_ret].
  match goal with |- sim (_ ≫= fun c => match c with Some c => if _ then ?m' else _ | None => _ end)
                       (_ ≫= fun c => match c with Some c => if _ then ?m else _ | None => _ end) =>
    assert (sim m' m) as Hatt end.
  { sim; first [apply flush_sim|apply IH|apply supervise_sim, renewals_sim]. }
  apply tsim_bind; [destruct (sl_completedStage sl); sim|]. intros [c|]; [|done]. destruct (c =? stage)%string; [done|].
  sim; try apply flush_sim; apply IH.
Qed.
Lemma drive_sim fuel item : sim (driveClaimedItem cfg tdeps fuel item) (driveClaimedItem cfg deps fuel item).
Proof.
  unfold driveClaimedItem, runItemLaps. apply tsim_bind; [apply tsim_lift|]. intros cur. cbn [rd_stageLoop traced].
  destruct (rd_stageLoop deps) as [sl|]; cbn [fmap option_fmap option_map]; [|apply supervise_sim, renewals_sim].
  sim. apply stage_loop_sim.
Qed.
Lemma durable_sim g base ref : sim (durableItemCommitExists (traced_git (E := E) g) base ref) (durableItemCommitExists g base ref).
Proof. unfold durableItemCommitExists. sim. Qed.
Lemma commit_gate_sim g base target item fuel : forall n o st,
  sim (commit_gate cfg tdeps n fuel (traced_git g) base target item o st) (commit_gate cfg deps n fuel g base target item o st).
Proof.
  induction n as [|n IH]; intros o st; cbn [commit_gate]; (apply tsim_bind; [apply durable_sim|]; intros []; [apply tsim_ret|]).
  - sim.
  - sim; first [apply drive_sim|apply IH].
Qed.
Lemma walk_sim fuel : forall edges c acc, sim (walk tdeps fuel edges c acc) (walk deps fuel edges c acc).
Proof. induction fuel as [|fuel IH]; intros edges c acc; cbn [walk]; sim. apply IH. Qed.
Lemma rollUp_sim c : sim (rollUpParents tdeps c) (rollUpParents deps c).
Proof. unfold rollUpParents. sim. apply walk_sim. Qed.
Lemma count_rolled_sim l : forall st w,
  (count_rolled tdeps l st w).1 = (count_rolled deps l st w.1).1 /\ (count_rolled tdeps l st w).2.1 = (count_rolled deps l st w.1).2.
Proof.
  induction l as [|p l IH]; intros st w; cbn [count_rolled]; [done|]. cbn [rd_narrate traced]. unfold lift.
  destruct (rd_narrate deps _ w.1) as [[u|x] e]; [apply IH|done].
Qed.
Lemma close_sim item st : sim (close_shipped tdeps item st) (close_shipped deps item st).
Proof.
  unfold close_shipped. sim.
  - cbn [rd_stageLoop traced]. destruct (rd_stageLoop deps); cbn; sim.
  - intros w. destruct (rollUp_sim (i_id item) w) as [H1 H2]. destruct (rollUpParents tdeps (i_id item) w) as [r w1],
      (rollUpParents deps (i_id item) w.1) as [r1 e1]. cbn in H1, H2. subst. destruct r1 as [rolled|]; [|done].
    match goal with |- context [count_rolled tdeps rolled ?s w1] => destruct (count_rolled_sim rolled s w1) as [H1 H2];
      destruct (count_rolled tdeps rolled s w1), (count_rolled deps rolled s w1.1) end. cbn in *. by subst.
Qed.
Lemma settle_sim item o st : sim (settle_outcome cfg tdeps item o st) (settle_outcome cfg deps item o st).
Proof. unfold settle_outcome. sim; first [apply park_sim|apply close_sim|idtac]. Qed.
Lemma drive_pass_sim fuel item st : sim (drive cfg tdeps fuel item st) (drive cfg deps fuel item st).
Proof.
  unfold drive. cbn [rd_git traced]. change (integration_target tdeps) with (integration_target deps).
  destruct (rd_git deps) as [g|]; cbn [fmap option_fmap option_map];
    sim; first [apply drive_sim|apply commit_gate_sim|apply settle_sim|idtac].
Qed.
Lemma refresh_sim st : sim (refresh_base tdeps st) (refresh_base deps st).
Proof.
  unfold refresh_base. cbn [rd_baseRefresh traced]. destruct (rd_baseRefresh deps) as [m|]; cbn [fmap option_fmap option_map]; [|apply tsim_ret].
  destruct (ls_baseConflictSurfaced st); [apply tsim_ret|]. intros w.
  destruct (tsim_lift m w) as [H1 H2]. destruct (lift m w) as [r w1], (m w.1) as [r1 e1]. cbn in H1, H2. subst.
  destruct r1 as [[]|]; try done.
  match goal with |- (match ?m' w1 with _ => _ end).1 = (match ?m w1.1 with _ => _ end).1 /\ _ =>
    assert (sim m' m) as Hs by (sim; apply park_sim); destruct (Hs w1) as [H1 H2]; destruct (m' w1) as [r2 w2], (m w1.1) as [r3 e3] end.
  cbn in H1, H2. subst. by destruct r3.
Qed.
Lemma pick_sim aw ready : forall held, sim (pick tdeps aw held ready) (pick deps aw held ready).
Proof.
  induction ready as [|c ready IH]; intros held; cbn [pick]; [apply tsim_ret|]. cbn [rd_stageLoop traced].
  destruct (rd_stageLoop deps); cbn [fmap option_fmap option_map]; sim; apply IH.
Qed.
Lemma drained_sim held st : sim (drained tdeps held st) (drained deps held st).
Proof. unfold drained, reapOrphans, inspectBoardAvailability. sim; apply park_sim. Qed.
Lemma pass_sim fuel st : sim (pass cfg tdeps fuel st) (pass cfg deps fuel st).
Proof.
  unfold pass. apply tsim_bind; [apply refresh_sim|]. intros st'. apply tsim_bind; [apply tsim_lift|]. intros ready.
  apply tsim_bind; [apply pick_sim|]. intros [[item|] held]; [|apply drained_sim].
  sim. apply drive_pass_sim.
Qed.
Lemma passes_sim n fuel : forall st, sim (passes cfg tdeps n fuel st) (passes cfg deps n fuel st).
Proof. induction n as [|n IH]; intros st; cbn [passes]; [apply tsim_raise|]. apply tsim_bind; [apply pass_sim|]. sim. apply IH. Qed.
Lemma run_sim n fuel : sim (runRalphLoop cfg tdeps n fuel) (runRalphLoop cfg deps n fuel).
Proof. unfold runRalphLoop, boot_sweep, sweepTerminalBacklog, session_before. sim. apply passes_sim. Qed.
End Sim.
#[export] Hint Resolve only_ret only_raise only_bind only_try only_ignored only_lift only_env only_asks only_when only_for_each : effects.

(** ** Kinds of calls *)
Definition is_lap (c : Call) : bool := match c with CLap _ _ => true | _ => false end.
Definition is_update (c : Call) : bool := match c with CUpdate _ _ => true | _ => false end.
Definition is_close (c : Call) : Prop := exists id, c = CUpdate id "closed".
(** The drive of one item: its laps and stage writes, and reads of git. *)
Definition drives (id : string) (c : Call) : Prop :=
  match c with
  | CLap i _ | CReconcile i _ => i = id
  | CTip _ _ | CCommitted _ _ _ | CDirty _ => True
  | _ => False
  end.
(** What a pass that drives [id] may do without closing anything. *)
Definition harmless (id : string) (c : Call) : Prop :=
  match c with
  | CUpdate _ _ | CClaim _ _ => False
  | CLap i _ | CReconcile i _ | CWedge i _ => i = id
  | _ => True
  end.
(** What a pass that drives nothing does: it reads, and claims in vain. *)
Definition idle (c : Call) : Prop :=
  match c with CEdges _ => True | CClaim _ r => r <> Ok true | _ => False end.

Section Emitted.
Context {E : Type} (cfg : RalphConfig) (deps : RalphDeps E).
Abbreviation tdeps := (traced deps).
Abbreviation W := (E * list Call)%type.
Ltac calls := repeat first
  [ progress intros | apply only_ret | apply only_raise | apply only_lift | apply only_env | apply only_asks
  | apply only_bind | apply only_try | apply only_ignored | apply only_when | apply only_for_each
  | progress cbn [rd_narrate rd_display rd_listReady rd_listIssues rd_listEdges rd_getIssue rd_archiveIssue rd_claimAudience
      rd_heartbeat rd_sleep rd_recordMetric rd_stdout rd_stderr rd_emitMonitorEvent rd_escalate rd_loopPassReconcile rd_liveItems
      rd_onShipped rd_releaseClaim rd_clearWedge traced] ].

Lemma supervise_laps (run : Io W LapResult) (C : Call -> Prop) : forall n attempt cost tin tout,
  emits run (fun _ l => exists c, l = [c] /\ C c) ->
  emits (supervise_from cfg tdeps run n attempt cost tin tout) (fun _ l => Forall C l /\ List.length l <= n).
Proof.
  induction n as [|n IH]; intros attempt cost tin tout Hr; cbn [supervise_from].
  { apply emits_ret. split; [constructor|done]. }
  apply emits_silent_bind; [intros C'; calls|intros x; split; [constructor|cbn; lia]|]. intros _.
  assert (forall cost tin tout, emits (when (Nat.ltb attempt (cf_maxRetries cfg)) (rd_sleep tdeps attempt) ≫= fun _ =>
      supervise_from cfg tdeps run n (S attempt) cost tin tout) (fun _ l => Forall C l /\ List.length l <= n)) as Hagain.
  { intros. apply emits_silent_bind; [intros C'; calls|intros x; split; [constructor|cbn; lia]|]. intros _. by apply IH. }
  apply (emits_bind _ _ (fun _ l => exists c, l = [c] /\ C c) (fun _ _ l => Forall C l /\ List.length l <= n)).
  - intros w. unfold try_catch. destruct (Hr w) as (l & Hl & c & -> & Hc). unfold mbind, act_bind.
    destruct (run w) as [[r|x] w1]; cbn in *; exists [c]; rewrite Hl; split; eauto.
  - intros [r|]; [|apply Hagain]. cbv zeta. destruct (retryable _); [apply Hagain|]. apply emits_ret. split; [constructor|cbn; lia].
  - intros x l (c & -> & Hc). split; [by repeat constructor|cbn; lia].
  - intros a r l1 l2 (c & -> & Hc) [H2 Hn]. split; [by constructor|cbn; lia].
Qed.
Lemma with_renewals_emits token item p s :
  emits (with_renewals cfg tdeps token item p s) (fun _ l => l = [CLap (i_id item) s]).
Proof.
  intros [e l]. unfold with_renewals. cbn [rd_runLap traced]. unfold logs. cbn [fst snd].
  destruct (rd_runLap deps item p s e) as [r e1]. exists [CLap (i_id item) s]. split; [|by destruct token, (rd_renewClaim tdeps)].
  destruct token as [tok|]; [|done]. destruct (rd_renewClaim tdeps) as [f|] eqn:Ef; [|done]. cbn [snd].
  cbn [traced rd_renewClaim] in Ef. destruct (rd_renewClaim deps) as [f0|]; [|done]. injection Ef as <-.
  assert (silent (renew_once cfg tdeps (fun id tok ttl => lift (f0 id tok ttl)) (i_id item) tok)) as Hs.
  { intros C. unfold renew_once. calls. destruct x; calls. }
  induction (rd_firings tdeps _) as [|n IH]; [done|]. rewrite Nat.iter_succ. set (w := Nat.iter n _ _) in *. clearbody w.
  destruct (Hs (fun _ => False) w) as (l' & -> & Hl'). destruct l' as [|c l']; [by rewrite app_nil_r|by apply Forall_cons in Hl' as [[] _]].
Qed.
Lemma superviseLap_emits token item p s :
  emits (superviseLap cfg tdeps (with_renewals cfg tdeps token item p s)) (fun _ l =>
    Forall (eq (CLap (i_id item) s)) l /\ List.length l <= S (cf_maxRetries cfg)).
Proof.
  apply supervise_laps. eapply emits_mono; [apply with_renewals_emits|]. intros r l ->. eauto.
Qed.
Lemma flushStage_silent item s acc : silent (flushStage cfg tdeps item s acc).
Proof. intros C. unfold flushStage. calls. Qed.

(** The longest run of laps that no stage write separates; [cur] laps precede. *)
Fixpoint max_run (cur : nat) (l : list Call) : nat :=
  match l with
  | [] => cur
  | c :: l => if is_lap c then max_run (S cur) l else Nat.max cur (max_run 0 l)
  end.
Lemma max_run_laps a b cur : Forall (fun c => is_lap c = true) a -> max_run cur (a ++ b) = max_run (cur + List.length a) b.
Proof.
  revert cur. induction a as [|c a IH]; intros cur H; cbn [app max_run List.length]; [by rewrite Nat.add_0_r|].
  apply Forall_cons in H as [-> H]. rewrite IH by done. f_equal. lia.
Qed.
Abbreviation PER_STAGE := (MAX_STAGE_RETRIES * S (cf_maxRetries cfg)).
Definition stage_calls (id : string) (same : nat) (l : list Call) : Prop :=
  Forall (drives id) l /\ forall cur, cur <= same * S (cf_maxRetries cfg) -> max_run cur l <= PER_STAGE.
Lemma stage_calls_nil id same : same <= MAX_STAGE_RETRIES -> stage_calls id same [].
Proof. intros H. split; [constructor|]. intros cur Hc. cbn. unfold MAX_STAGE_RETRIES in *. nia. Qed.
Lemma stage_calls_laps id s same a b :
  Forall (eq (CLap id s)) a -> List.length a <= S (cf_maxRetries cfg) -> stage_calls id (S same) b -> stage_calls id same (a ++ b).
Proof.
  intros Ha Hl [Hb Hr]. split.
  - apply Forall_app_2; [|done]. eapply Forall_impl; [exact Ha|]. by intros c <-.
  - intros cur Hc. rewrite max_run_laps; [apply Hr; lia|]. eapply Forall_impl; [exact Ha|]. by intros c <-.
Qed.
Lemma stage_calls_reconcile id s same l :
  same <= MAX_STAGE_RETRIES -> stage_calls id 0 l -> stage_calls id same (CReconcile id s :: l).
Proof.
  intros Hs [Hl Hr]. split; [by constructor|]. intros cur Hc. cbn [max_run is_lap]. specialize (Hr 0).
  unfold MAX_STAGE_RETRIES in *. nia.
Qed.
Lemma reconcile_then {B} sl id s same (k : Io W B) :
  same <= MAX_STAGE_RETRIES -> emits k (fun _ l => stage_calls id 0 l) ->
  emits (sl_reconcileStage (traced_stages (E := E) sl) id s ≫= fun _ => k) (fun _ l => stage_calls id same l).
Proof.
  intros Hs Hk. apply (emits_bind _ _ (fun _ l => l = [CReconcile id s]) (fun _ _ l => stage_calls id 0 l)).
  - by apply emits_logs.
  - done.
  - intros x l ->. apply stage_calls_reconcile; [done|by apply stage_calls_nil; unfold MAX_STAGE_RETRIES; lia].
  - intros a r l1 l2 -> H. by apply stage_calls_reconcile.
Qed.
Lemma silent_asks {A} (f : W -> A) : silent (asks f : Io W A).
Proof. intros C. apply only_asks. Qed.
Lemma silent_lift {A} (m : Io E A) : silent (lift m).
Proof. intros C. apply only_lift. Qed.
Lemma stage_loop_emits sl item token : forall fuel stage cost same acc, same < MAX_STAGE_RETRIES ->
  emits (stage_loop cfg tdeps fuel (traced_stages sl) (with_renewals cfg tdeps token) item stage cost same acc)
    (fun _ l => stage_calls (i_id item) same l).
Proof.
  induction fuel as [|fuel IH]; intros stage cost same acc Hs; cbn [stage_loop].
  { intros w. exists []. rewrite app_nil_r. split; [done|]. apply stage_calls_nil. lia. }
  assert (stage_calls (i_id item) same []) as Hnil by (apply stage_calls_nil; lia).
  destruct (sl_isTerminal _ stage); [by apply emits_ret|]. destruct (sl_isAutomated _ stage); cbn [negb]; [|by apply emits_ret].
  assert (forall next cost acc, emits (stage_loop cfg tdeps fuel (traced_stages sl) (with_renewals cfg tdeps token) item next cost 0 acc)
    (fun _ l => stage_calls (i_id item) 0 l)) as Hnext by (intros; apply IH; unfold MAX_STAGE_RETRIES; lia).
  match goal with |- emits (_ ≫= fun completed => match completed with Some c => if _ then ?m else _ | None => _ end) _ =>
    assert (emits m (fun _ l => stage_calls (i_id item) same l)) as Hatt end.
  { apply emits_silent_bind; [apply silent_lift|done|]. intros sp. apply emits_silent_bind; [apply silent_lift|done|]. intros _.
    apply (emits_bind _ _ (fun _ l => Forall (eq (CLap (i_id item) (Some stage))) l /\ List.length l <= S (cf_maxRetries cfg))
      (fun _ _ l => stage_calls (i_id item) (S same) l)).
    - apply superviseLap_emits.
    - intros res. cbv zeta. destruct (lr_outcome res).
      2-6: apply emits_silent_bind; [apply flushStage_silent|intros _; apply stage_calls_nil; lia|];
        intros _; apply emits_ret, stage_calls_nil; lia.
      apply emits_silent_bind; [|intros _; apply stage_calls_nil; lia|].
      { intros C. destruct (lr_attemptId res); [apply only_lift|apply only_ret]. }
      intros next. destruct (next =? stage)%string.
      + destruct (Nat.leb MAX_STAGE_RETRIES (S same)) eqn:El.
        * apply emits_silent_bind; [apply flushStage_silent|intros _; apply stage_calls_nil; lia|].
          intros _. apply emits_ret, stage_calls_nil. lia.
        * apply IH. by apply Nat.leb_gt in El.
      + apply emits_silent_bind; [apply flushStage_silent|intros _; apply stage_calls_nil; lia|]. intros _.
        apply emits_silent_bind; [apply silent_lift|intros _; apply stage_calls_nil; lia|]. intros _.
        apply reconcile_then; [lia|]. apply emits_silent_bind; [apply silent_asks|intros _; apply stage_calls_nil; lia|]. intros now. apply Hnext.
    - intros x l [Hl Hn]. rewrite <- (app_nil_r l). eapply stage_calls_laps; [exact Hl|done|apply stage_calls_nil; lia].
    - intros res r l1 l2 [Hl Hn] H2. by eapply stage_calls_laps. }
  apply emits_silent_bind; [|done|].
  { intros C. cbn [sl_completedStage traced_stages]. destruct (sl_completedStage sl); [apply only_lift|apply only_ret]. }
  intros [c|]; [|done]. destruct (c =? stage)%string; [done|].
  apply emits_silent_bind; [apply flushStage_silent|done|]. intros _. apply reconcile_then; [lia|].
  apply emits_silent_bind; [apply silent_lift|intros _; apply stage_calls_nil; lia|]. intros _.
  apply emits_silent_bind; [apply silent_asks|intros _; apply stage_calls_nil; lia|]. intros now. apply Hnext.
Qed.
Lemma drive_emits fuel item : emits (driveClaimedItem cfg tdeps fuel item) (fun _ l => stage_calls (i_id item) 0 l).
Proof.
  assert (forall same, same <= MAX_STAGE_RETRIES -> stage_calls (i_id item) same []) as Hnil by apply stage_calls_nil.
  apply emits_silent_bind; [apply silent_lift|intros _; apply Hnil; lia|]. intros cur. unfold runItemLaps.
  cbn [rd_stageLoop traced]. destruct (rd_stageLoop deps) as [sl|]; cbn [fmap option_fmap option_map].
  - apply emits_silent_bind; [apply silent_lift|intros _; apply Hnil; lia|]. intros s.
    apply emits_silent_bind; [apply silent_asks|intros _; apply Hnil; lia|]. intros now. apply stage_loop_emits. unfold MAX_STAGE_RETRIES. lia.
  - eapply emits_mono; [apply superviseLap_emits|]. intros r l [Hl Hn]. rewrite <- (app_nil_r l).
    eapply stage_calls_laps; [exact Hl|done|]. apply Hnil. unfold MAX_STAGE_RETRIES. lia.
Qed.
(** C6: a stage that does not advance is driven a bounded number of times.
    Whatever the laps, the harness and the stores do, and however long the
    drive goes on, at most MAX_STAGE_RETRIES supervised laps, each of at most
    [maxRetries + 1] attempts, follow one another without a stage being
    written in between; and all of them, like the stage writes, are of the item
    in hand.  The log is of the drive itself: it ends the same without one. *)
Theorem stuck_stage_bounded (fuel : nat) (item : Issue) (e : E) :
  let log := (driveClaimedItem cfg tdeps fuel item (e, [])).2.2 in
  (driveClaimedItem cfg tdeps fuel item (e, [])).1 = (driveClaimedItem cfg deps fuel item e).1 /\
  max_run 0 log <= MAX_STAGE_RETRIES * S (cf_maxRetries cfg) /\ Forall (drives (i_id item)) log.
Proof.
  destruct (drive_emits fuel item (e, [])) as (l & Hl & Hd & Hr). cbn [fst snd] in Hl. cbv zeta. rewrite Hl.
  split_and!; [apply drive_sim|by apply Hr|done].
Qed.

(** ** Closes are backed by commits *)
Definition backing (ref : option string) (base : string) (l : list Call) : Prop := exists tip files dirty,
  l = [CTip ref (Ok tip); CCommitted base ref (Ok files); CDirty (Ok dirty)] /\
  tip <> base /\ files <> [] /\ forall f, f ∈ files -> f ∉ dirty.
Lemma durable_emits g base ref id :
  emits (durableItemCommitExists (traced_git (E := E) g) base ref) (fun r l => Forall (drives id) l /\ (r = Ok true -> backing ref base l)).
Proof.
  unfold durableItemCommitExists.
  apply (emits_bind _ _ (fun r l => l = [CTip ref r]) (fun tip r l => Forall (drives id) l /\ (r = Ok true -> backing ref base (CTip ref (Ok tip) :: l)))).
  - by apply emits_logs.
  - intros tip. apply (emits_bind _ _ (fun r l => l = [CCommitted base ref r])
      (fun files r l => Forall (drives id) l /\ (r = Ok true -> backing ref base (CTip ref (Ok tip) :: CCommitted base ref (Ok files) :: l)))).
    + by apply emits_logs.
    + intros files. destruct (bool_decide (tip <> base) && bool_decide (files <> [])) eqn:Ea; [|by apply emits_ret].
      apply (emits_bind _ _ (fun r l => l = [CDirty r]) (fun dirty r l => l = [] /\ r = Ok (forallb (fun p => negb (set_has p dirty)) files))).
      * by apply emits_logs.
      * intros dirty. by apply emits_ret.
      * intros x l ->. by split; [repeat constructor|].
      * intros dirty r l1 l2 -> [-> ->]. split; [by repeat constructor|]. intros [= Hc].
        apply andb_true_iff in Ea as [Et%bool_decide_eq_true Ef%bool_decide_eq_true].
        exists tip, files, dirty. split_and!; [done..|]. intros f Hf Hd. rewrite forallb_forall in Hc.
        apply list_elem_of_In, Hc, negb_true_iff in Hf. apply set_has_spec in Hd. congruence.
    + intros x l ->. by split; [repeat constructor|].
    + intros files r l1 l2 -> [H1 H2]. split; [by constructor|done].
  - intros x l ->. by split; [repeat constructor|].
  - intros tip r l1 l2 -> [H1 H2]. split; [by constructor|done].
Qed.
Lemma drives_harmless id c : drives id c -> harmless id c.
Proof. by destruct c. Qed.
Lemma park_silent r st : silent (parkAndEscalate tdeps r None st).
Proof.
  intros C. apply only_bind; [apply only_ret|]. intros st'. apply only_bind; [|intros _; apply only_ret]. apply only_try.
  - apply only_bind; [apply only_env|]. intros _. apply only_bind; [apply only_lift|]. intros [[] why]; calls.
  - intros [r' why|what|]; [destruct (isResourcePause r)|..]; calls.
Qed.
Lemma display_silent r w st : silent (displayAfterSession tdeps r w st).
Proof. intros C. unfold displayAfterSession. calls. Qed.
Lemma park_harmless r i st : only (harmless (i_id i)) (parkAndEscalate tdeps r (Some i) st).
Proof.
  unfold parkAndEscalate, escalateLap. apply only_bind.
  - destruct (isResourcePause r); [apply only_ret|].
    apply only_bind; [by apply only_logs|]. intros _. calls.
  - intros st'. apply only_bind; [|intros _; apply only_ret]. apply only_try.
    + apply only_bind; [apply only_env|]. intros _. apply only_bind; [apply only_lift|]. intros [[] why]; calls.
    + intros [r' why|what|]; [destruct (isResourcePause r)|..]; calls.
Qed.
Definition gate_ok (id : string) (ref : option string) (base : string) (r : result RalphError (option LapOutcome * LoopState)) (l : list Call) : Prop :=
  match r with
  | Ok (Some SHIPPED, _) => exists mid reads, l = mid ++ reads /\ Forall (drives id) mid /\ backing ref base reads
  | _ => Forall (harmless id) l
  end.
Lemma gate_ok_app id ref base r l1 l2 : Forall (drives id) l1 -> gate_ok id ref base r l2 -> gate_ok id ref base r (l1 ++ l2).
Proof.
  intros H1 H2. assert (Forall (harmless id) l1) as H1' by (eapply Forall_impl; [exact H1|apply drives_harmless]).
  destruct r as [[[[]|] st]|x]; cbn in *; try by apply Forall_app_2.
  destruct H2 as (mid & reads & -> & Hm & Hb). exists (l1 ++ mid), reads. rewrite app_assoc. split_and!; [done|by apply Forall_app_2|done].
Qed.
Lemma commit_gate_emits g ref base item fuel : forall n st,
  emits (commit_gate cfg tdeps n fuel (traced_git g) base ref item SHIPPED st) (gate_ok (i_id item) ref base).
Proof.
  assert (forall id, gate_ok id ref base (Err OutOfFuel) [] /\ forall x, gate_ok id ref base (Err x) []) as Hnil by (by split; intros; constructor).
  induction n as [|n IH]; intros st; cbn [commit_gate].
  all: apply (emits_bind _ _ (fun r l => Forall (drives (i_id item)) l /\ (r = Ok true -> backing ref base l))
    (fun b r l => if b then l = [] /\ r = Ok (Some SHIPPED, st) else gate_ok (i_id item) ref base r l)); [apply durable_emits| | |].
  2, 5: by intros x l [Hl _]; cbn; eapply Forall_impl; [exact Hl|apply drives_harmless].
  2, 4: intros [] r l1 l2 [H1 Hb] H2; [destruct H2 as [-> ->]; rewrite app_nil_r; exists [], l1; by split_and!; auto|by apply gate_ok_app].
  all: intros []; [by apply emits_ret|].
  - apply emits_silent_bind; [apply silent_lift|intros; apply Hnil|]. intros _.
    apply emits_silent_bind; [apply silent_lift|intros; apply Hnil|]. intros _.
    apply (emits_only_bind (harmless (i_id item))); [apply park_harmless|done|]. intros st'. apply emits_ret. intros l1 Hl. by rewrite app_nil_r.
  - apply emits_silent_bind; [apply silent_lift|intros; apply Hnil|]. intros _.
    apply (emits_only_bind (drives (i_id item))).
    + eapply emits_mono; [apply drive_emits|]. by intros r l [H _].
    + intros x l Hl. eapply Forall_impl; [exact Hl|apply drives_harmless].
    + intros re. cbv zeta. destruct (lr_outcome re) eqn:Eo.
      2-6: apply emits_ret; intros l1 Hl; rewrite app_nil_r; eapply Forall_impl; [exact Hl|apply drives_harmless].
      eapply emits_mono; [apply IH|]. intros r l2 H2 l1 H1. by apply gate_ok_app.
Qed.

(** A parent is above its child. *)
Definition above (edges : list Edge) (c p : string) : Prop := p ∈ parentsOf edges c.
Definition closes_above (edges : list Edge) (id : string) (c : Call) : Prop := exists p, c = CUpdate p "closed" /\ tc (above edges) id p.
Lemma walk_closes fuel : forall edges root c acc, c = root \/ tc (above edges) root c -> only (closes_above edges root) (walk tdeps fuel edges c acc).
Proof.
  induction fuel as [|fuel IH]; intros edges root c acc Hc; cbn [walk]; [apply only_raise|]. apply only_for_fold. intros s p Hp.
  assert (tc (above edges) root p) as Ht by (destruct Hc as [->|Hc]; [by apply tc_once|by eapply tc_r]).
  destruct (s.1 !! p) as [i|]; [|apply only_ret]. destruct (is_terminal_issue i); [apply only_ret|]. cbv zeta.
  destruct (_ && _); [|apply only_ret]. apply only_bind; [apply only_logs; intros; by exists p|]. intros _. apply IH. by right.
Qed.
Lemma count_rolled_log l : forall st w, (count_rolled tdeps l st w).2.2 = w.2.
Proof.
  induction l as [|p l IH]; intros st w; cbn [count_rolled]; [done|]. cbn [rd_narrate traced]. unfold lift.
  destruct (rd_narrate deps _ w.1) as [[[]|x] e]; [|done]. by rewrite IH.
Qed.
(** The closes that follow the close of [id]: of its ancestors along edges read in between. *)
Definition rolls_up (id : string) (l : list Call) : Prop :=
  l = [] \/ (exists x, l = [CEdges (Err x)]) \/ exists edges closes, l = CEdges (Ok edges) :: closes /\ Forall (closes_above edges id) closes.
Definition closing (id : string) (l : list Call) : Prop := exists rest, l = CUpdate id "closed" :: rest /\ rolls_up id rest.
Lemma rollUp_emits id : emits (rollUpParents tdeps id) (fun _ l => rolls_up id l).
Proof.
  unfold rollUpParents. apply emits_silent_bind; [apply silent_lift|intros; by left|]. intros issues.
  apply (emits_bind _ _ (fun r l => l = [CEdges r]) (fun edges _ l => Forall (closes_above edges id) l)).
  - by apply emits_logs.
  - intros edges. apply only_bind; [apply walk_closes; by left|]. intros acc. apply only_ret.
  - intros x l ->. right; left. by exists x.
  - intros edges r l1 l2 -> H. right; right. by exists edges, l2.
Qed.
Lemma quiet_prefix {A B} (m : Io W A) (f : A -> Io W B) (P : list Call -> Prop) :
  emits m (fun _ l => P l) -> (forall a, silent (f a)) -> emits (m ≫= f) (fun _ l => P l).
Proof.
  intros Hm Hf. apply (emits_bind _ _ (fun _ l => P l) (fun _ _ l => Forall (fun _ => False) l)); [done|intros a; apply Hf|done|].
  intros a r l1 [|c l2] H1 H2; [by rewrite app_nil_r|by apply Forall_cons in H2 as [[] _]].
Qed.
Lemma close_shipped_emits item st : emits (close_shipped tdeps item st) (fun _ l => closing (i_id item) l).
Proof.
  unfold close_shipped. apply (emits_bind _ _ (fun _ l => l = [CUpdate (i_id item) "closed"]) (fun _ _ l => rolls_up (i_id item) l)).
  - by apply emits_logs.
  - assert (rolls_up (i_id item) []) as Hnil by by left. intros _. apply emits_silent_bind; [|done|].
    { intros C. cbn [rd_stageLoop traced]. destruct (rd_stageLoop deps); [apply only_lift|apply only_ret]. }
    intros _. cbv zeta. apply emits_silent_bind; [apply silent_lift|done|]. intros _. apply emits_silent_bind; [apply silent_asks|done|]. intros now.
    apply emits_silent_bind; [apply silent_lift|done|]. intros _. apply quiet_prefix; [|intros st' C; calls].
    intros w. destruct (rollUp_emits (i_id item) w) as (l & Hl & Hc). destruct (rollUpParents tdeps (i_id item) w) as [[rolled|x] w1]; cbn in *; [|by exists l].
    pose proof (count_rolled_log rolled (add_closed [i_id item] st) w1) as Hcr.
    destruct (count_rolled _ _ _ _) as [st' w2]. cbn in *. exists l. by rewrite Hcr.
  - intros x l ->. exists []. split; [done|by left].
  - intros a r l1 l2 -> H. by exists l2.
Qed.
Lemma settle_outcome_emits item o st :
  emits (settle_outcome cfg tdeps item o st) (fun _ l => match o with SHIPPED => closing (i_id item) l | _ => Forall (harmless (i_id item)) l end).
Proof.
  assert (forall st, silent (match cfg.(cf_authMode) with
       | api =>
           if num_lt (cf_maxBudgetUsd cfg) (ls_spent st) then
             st ← parkAndEscalate tdeps BUDGET None st;
             displayAfterSession tdeps BUDGET [] st ≫= fun _ => mret (inr (stop_with BUDGET None st))
           else mret (inl st)
       | subscription => mret (inl st)
       end : Io W (LoopState + RalphResult))) as Hbudget.
  { intros st' C. destruct (cf_authMode cfg); [|apply only_ret]. destruct (num_lt _ _); [|apply only_ret].
    apply only_bind; [apply park_silent|]. intros st2. apply only_bind; [apply display_silent|]. intros. apply only_ret. }
  unfold settle_outcome. destruct o as [|stage|reason it payload| | |].
  - apply quiet_prefix; [apply close_shipped_emits|apply Hbudget].
  - cbv zeta. apply only_bind; [apply only_lift|]. intros cl. calls.
  - apply only_bind; [apply only_lift|]. intros _. apply only_bind; [apply park_harmless|]. intros st'.
    destruct (isResourcePause reason); [|apply Hbudget]. apply only_bind; [apply display_silent|]. intros. apply only_ret.
  - apply only_bind; [apply only_lift|]. intros _. apply only_bind; [apply park_harmless|]. intros st'. apply Hbudget.
  - apply only_bind; [apply only_lift|]. intros _. apply only_bind; [apply park_harmless|]. intros st'. apply Hbudget.
  - apply only_bind; [apply only_lift|]. intros _. apply only_bind; [apply park_harmless|]. intros st'. apply Hbudget.
Qed.
(** A pass drives nothing, or it won a claim and drives that issue and no
    other; if it closes, it had read the target's tip before the drive, read
    after it that the tip moved past the first with committed and clean files,
    closes the issue, and then only ancestors of it. *)
Definition pass_ok (l : list Call) : Prop :=
  Forall idle l \/
  exists id rest, l = CClaim id (Ok true) :: rest /\
    (Forall (harmless id) rest \/
     exists base mid reads closes,
       rest = CTip (integration_target deps) (Ok base) :: mid ++ reads ++ CUpdate id "closed" :: closes /\
       Forall (drives id) mid /\ backing (integration_target deps) base reads /\ rolls_up id closes).
Context (g : RalphGitSeam E) (Hgit : rd_git deps = Some g).
Lemma harmless_drives id l : Forall (drives id) l -> Forall (harmless id) l.
Proof. intros H. eapply Forall_impl; [exact H|apply drives_harmless]. Qed.
Lemma drive_pass_emits fuel item st :
  emits (drive cfg tdeps fuel item st) (fun _ l => pass_ok (CClaim (i_id item) (Ok true) :: l)).
Proof.
  assert (forall l, Forall (harmless (i_id item)) l -> pass_ok (CClaim (i_id item) (Ok true) :: l)) as Hq by (intros l Hl; right; eauto).
  unfold drive. apply emits_silent_bind; [apply silent_lift|intros; by apply Hq|]. intros _.
  apply emits_silent_bind; [apply silent_asks|intros; by apply Hq|]. intros now.
  apply emits_silent_bind; [apply silent_lift|intros; by apply Hq|]. intros _.
  cbn [rd_git traced]. rewrite Hgit. cbn [fmap option_fmap option_map].
  change (integration_target tdeps) with (integration_target deps). set (ref := integration_target deps).
  apply (emits_bind _ _ (fun r l => exists a, l = [CTip ref a] /\ match r with Ok b => exists base, b = Some base /\ a = Ok base | Err _ => True end)
    (fun b _ l => forall base, b = Some base -> pass_ok (CClaim (i_id item) (Ok true) :: CTip ref (Ok base) :: l))).
  - apply (emits_bind _ _ (fun r l => l = [CTip ref r]) (fun tip r l => l = [] /\ r = Ok (Some tip))).
    + by apply emits_logs.
    + intros tip. by apply emits_ret.
    + intros x l ->. by exists (Err x).
    + intros tip r l1 l2 -> [-> ->]. exists (Ok tip). split; [done|]. by exists tip.
  - intros b. apply (emits_only_bind (drives (i_id item))).
    + eapply emits_mono; [apply drive_emits|]. by intros r l [H _].
    + intros x l Hl base ->. apply Hq. constructor; [done|]. by eapply harmless_drives.
    + intros out. cbv zeta.
      match goal with |- emits (?m ≫= ?k) ?R => set (gated := m); set (settle := k) end.
      assert (forall st o, o <> SHIPPED -> emits (settle (Some o, st)) (fun _ l => Forall (harmless (i_id item)) l)) as Hother.
      { intros st' o Ho. eapply emits_mono; [apply settle_outcome_emits|]. by destruct o. }
      assert (forall o, o <> SHIPPED -> lr_outcome out = o -> emits (gated ≫= settle) (fun r l2 => forall l1, Forall (drives (i_id item)) l1 ->
        forall base, b = Some base -> pass_ok (CClaim (i_id item) (Ok true) :: CTip ref (Ok base) :: l1 ++ l2))) as Hskip.
      { intros o Ho Eo. unfold gated. rewrite Eo. assert (forall st, emits (mret (Some o, st) ≫= settle) (fun r l2 => forall l1, Forall (drives (i_id item)) l1 ->
          forall base, b = Some base -> pass_ok (CClaim (i_id item) (Ok true) :: CTip ref (Ok base) :: l1 ++ l2))) as H.
        { intros st'. eapply emits_mono; [apply Hother; exact Ho|]. intros r l2 H2 l1 H1 base ->. apply Hq. constructor; [done|].
          apply Forall_app_2; [by eapply harmless_drives|done]. }
        destruct o; [done|apply H..]. }
      destruct (lr_outcome out) eqn:Eo; [|by eapply Hskip; [|reflexivity]..].
      unfold gated. clear Hskip gated. destruct b as [base|].
      2: { intros w. destruct (settle_outcome_emits item SHIPPED (add_spent (lr_costUsd out) st) w) as (l & Hl & _). exists l. split; [exact Hl|].
        intros l1 _ base [=]. }
      apply (emits_bind _ _ (gate_ok (i_id item) ref base) (fun p _ l => match p with
          | (Some SHIPPED, _) => closing (i_id item) l | (Some _, _) => Forall (harmless (i_id item)) l | (None, _) => l = [] end)).
      * apply commit_gate_emits.
      * intros [[o|] st']; [|by apply emits_ret]. apply settle_outcome_emits.
      * intros x l Hl l1 H1 base' [= <-]. apply Hq. constructor; [done|]. apply Forall_app_2; [by eapply harmless_drives|done].
      * intros [[o|] st'] r l1 l2 HP HQ l0 H0 base' [= <-].
        2: { rewrite HQ, app_nil_r. apply Hq. constructor; [done|]. apply Forall_app_2; [by eapply harmless_drives|done]. }
        destruct o; try (apply Hq; constructor; [done|]; apply Forall_app_2; [by eapply harmless_drives|by apply Forall_app_2]).
        destruct HP as (mid & reads & -> & Hm & Hb). destruct HQ as (closes & -> & Hc).
        right. eexists (i_id item), _. split; [done|]. right. exists base, (l0 ++ mid), reads, closes.
        split_and!; [|by apply Forall_app_2|done|done]. by rewrite <- !app_assoc.
  - intros x l (a & -> & _). apply Hq. by repeat constructor.
  - intros b r l1 l2 (a & -> & base & -> & ->) HQ. by apply HQ.
Qed.
Lemma refresh_silent st : silent (refresh_base tdeps st).
Proof.
  intros C. unfold refresh_base. cbn [rd_baseRefresh traced]. destruct (rd_baseRefresh deps) as [m|]; [|apply only_ret].
  cbn [fmap option_fmap option_map]. destruct (ls_baseConflictSurfaced st); [apply only_ret|].
  assert (forall s, only C (rd_narrate tdeps s ≫= fun _ => parkAndEscalate tdeps SCOPE_FORK None (surface_conflict st))) as Hp.
  { intros s. apply only_bind; [apply only_lift|]. intros _. apply park_silent. }
  intros w. destruct (only_lift C m w) as (l & Hl & Hc). destruct (lift m w) as [[[]|x] w1]; cbn in Hl; try by exists l.
  destruct (Hp "⚠ base reconcile conflict — surfacing to a human (base left unchanged; drive continues on the un-refreshed base)" w1) as (l2 & Hl2 & Hc2).
  destruct ((rd_narrate _ _ ≫= _) w1) as [[st2|x] w2]; cbn in *; exists (l ++ l2); rewrite Hl2, Hl, app_assoc;
    (split; [done|by apply Forall_app_2]).
Qed.
Lemma pick_silent aw l : forall held, silent (pick tdeps aw held l).
Proof.
  induction l as [|i l IH]; intros held C; cbn [pick]; [apply only_ret|]. apply only_bind.
  - destruct (set_has _ _); [apply only_ret|]. cbn [rd_stageLoop traced]. destruct (rd_stageLoop deps); cbn; [|apply only_ret].
    apply only_bind; [apply only_lift|]. intros. apply only_ret.
  - intros []; [apply IH|apply only_ret].
Qed.
Lemma drained_idle held st : only idle (drained tdeps held st).
Proof.
  assert (only idle (rd_listEdges tdeps)) as Hedges by by apply only_logs.
  unfold drained. apply only_bind.
  { apply only_ignored, only_bind; [apply only_lift|]. intros [n|]; [apply only_lift|apply only_ret]. }
  intros _. apply only_bind.
  { apply only_try; [|intros; apply only_ret]. apply only_bind; [apply only_lift|]. intros issues. apply only_bind; [done|].
    intros edges. apply only_bind; [|intros; apply only_ret]. apply only_for_each. intros. apply only_lift. }
  intros reaped. destruct (bool_decide _); [calls|]. apply only_bind.
  { unfold inspectBoardAvailability. apply only_try; [|intros; apply only_ret]. apply only_bind; [apply only_asks|]. intros now.
    apply only_bind; [apply only_lift|]. intros issues. apply only_bind; [done|]. intros edges. calls. }
  intros [w|]; cbv zeta.
  all: apply only_bind; [apply only_lift|]; intros _; apply only_bind; [apply park_silent|]; intros st'.
  all: apply only_bind; [apply display_silent|]; intros; apply only_ret.
Qed.
Lemma pass_emits fuel st : emits (pass cfg tdeps fuel st) (fun _ l => pass_ok l).
Proof.
  assert (pass_ok []) as Hnil by by left. unfold pass.
  apply emits_silent_bind; [apply refresh_silent|done|]. intros st'. apply emits_silent_bind; [apply silent_lift|done|]. intros ready.
  apply emits_silent_bind; [apply pick_silent|done|]. intros [[item|] held].
  - apply emits_silent_bind; [apply silent_lift|done|]. intros aud.
    apply (emits_bind _ _ (fun r l => l = [CClaim (i_id item) r]) (fun won _ l => pass_ok (CClaim (i_id item) (Ok won) :: l))).
    + by apply emits_logs.
    + intros []; [apply drive_pass_emits|]. apply emits_ret. left. by repeat constructor.
    + intros x l ->. left. by repeat constructor.
    + by intros won r l1 l2 -> H.
  - eapply emits_mono; [apply drained_idle|]. intros r l H. by left.
Qed.
(** C5: nothing is closed on a lap's word.  With the consistency gate wired (a
    git seam is given), whatever the laps, git, the store and the harness do,
    the log of a run is a sequence of passes.  A pass drives nothing, or it won
    a claim and drives that issue and no other.  A pass that closes an issue
    won its claim, read the tip of the integration target, drove it, found just
    before the close that the tip had moved past the one read before the drive,
    with files committed since and none of them dirty, and closed after it only
    ancestors of it along the parent edges it then read.  Recording the log
    changes nothing of the run. *)
Theorem closes_backed_by_commits (n fuel : nat) (e : E) :
  ((runRalphLoop cfg tdeps n fuel (e, [])).1 = (runRalphLoop cfg deps n fuel e).1 /\
   (runRalphLoop cfg tdeps n fuel (e, [])).2.1 = (runRalphLoop cfg deps n fuel e).2) /\
  exists segs, (runRalphLoop cfg tdeps n fuel (e, [])).2.2 = concat segs /\ Forall pass_ok segs.
Proof.
  split; [apply run_sim|].
  assert (forall n st, emits (passes cfg tdeps n fuel st) (fun _ l => exists segs, l = concat segs /\ Forall pass_ok segs)) as Hpasses.
  { induction n0 as [|m IH]; intros st; cbn [passes]; [intros w; exists []; rewrite app_nil_r; split; [done|]; by exists []|].
    apply (emits_bind _ _ (fun _ l => pass_ok l) (fun _ _ l => exists segs, l = concat segs /\ Forall pass_ok segs)).
    - apply pass_emits.
    - intros [st'|r]; [apply IH|]. apply emits_ret. by exists [].
    - intros x l Hl. exists [l]. cbn. rewrite app_nil_r. by split; [|constructor].
    - intros a r l1 l2 H1 (segs & -> & H2). exists (l1 :: segs). by split; [|constructor]. }
  assert (exists segs, ([] : list Call) = concat segs /\ Forall pass_ok segs) as Hnil by by exists [].
  enough (emits (runRalphLoop cfg tdeps n fuel) (fun _ l => exists segs, l = concat segs /\ Forall pass_ok segs)) as H.
  { destruct (H (e, [])) as (l & Hl & Hs). cbn [fst snd app] in Hl. by rewrite Hl. }
  unfold runRalphLoop. apply emits_silent_bind; [|done|].
  { intros C. apply only_ignored, only_bind; [|intros d; apply only_when, only_lift]. unfold sweepTerminalBacklog.
    apply only_bind; [apply only_asks|]. intros now. apply only_bind; [apply only_lift|]. intros live.
    destruct (bool_decide _); [apply only_ret|]. apply only_bind.
    - apply only_for_fold. intros s a _. apply only_bind; [apply only_lift|]. intros. apply only_ret.
    - intros terminal. apply only_for_fold. intros k a _. destruct (set_has _ _); [|apply only_ret].
      apply only_bind; [apply only_env|]. intros. apply only_ret. }
  intros _. apply emits_silent_bind; [|done|intros; apply Hpasses].
  intros C. apply only_ignored. calls.
Qed.
End Emitted.
