(* ===== verification/RalphDemo.v ===== *)
(** * The loop on a small board

    A world with a board, durable stages and a count of commits, which keeps
    the laws of [RalphBoard] and [RalphProps]; the witnesses of the loop's
    theorems run in it, and a few runs show where the code is surprising. *)

From Stdlib Require Import Ascii String Permutation.
From stdpp Require Import base option list strings pretty sets gmap.
From S2P Require Import Prelude Effects Json ExprSyntax ExprEval RateLimit Workgraph LapOutcome Ralph RalphBoard RalphProps RalphTrace.
#[local] Open Scope os_scope.

Record World := { w_issues : gmap string Issue; w_edges : list Edge; w_stages : gmap string string; w_commits : nat }.
Definition on_issues (f : gmap string Issue -> gmap string Issue) (w : World) : World :=
  {| w_issues := f (w_issues w); w_edges := w_edges w; w_stages := w_stages w; w_commits := w_commits w |}.
Definition on_stages (f : gmap string string -> gmap string string) (w : World) : World :=
  {| w_issues := w_issues w; w_edges := w_edges w; w_stages := f (w_stages w); w_commits := w_commits w |}.
Definition commit (w : World) : World :=
  {| w_issues := w_issues w; w_edges := w_edges w; w_stages := w_stages w; w_commits := S (w_commits w) |}.
Definition with_id (id : string) (i : Issue) : Issue :=
  {| i_id := id; i_title := i_title i; i_body := i_body i; i_status := i_status i; i_createdAt := i_createdAt i;
     i_updatedAt := i_updatedAt i; i_claimToken := i_claimToken i; i_claimAudience := i_claimAudience i;
     i_claimExpiresAt := i_claimExpiresAt i; i_wedgeReason := i_wedgeReason i; i_archiveReason := i_archiveReason i |}.
(** An issue's id is its key. *)
Definition keyed (m : gmap string Issue) : gmap string Issue := map_imap (fun id i => Some (with_id id i)) m.
Definition view (w : World) : Board := {| bd_issues := keyed (w_issues w); bd_edges := w_edges w |}.
Definition readyb (b : Board) (i : Issue) : bool :=
  (i_status i =? "open")%string && bool_decide (i_wedgeReason i = None) && bool_decide (i_claimToken i = None) &&
  negb (existsb (fun e => (edge_type e =? "blocks")%string && (edge_to e =? i_id i)%string &&
    match bd_issues b !! edge_from e with Some x => negb (is_terminal_issue x) | None => false end) (bd_edges b)).
Definition issues_of (b : Board) : list Issue := (map_to_list (bd_issues b)).*2.

(** ** Stages *)
Definition next_stage (s : string) : string :=
  if (s =? "plan")%string then "code" else if (s =? "code")%string then "deploy" else s.
Definition rank (s : string) : nat := if (s =? "plan")%string then 2 else if (s =? "code")%string then 1 else 0.
Definition stages : StageLoop World := {|
  sl_initialStage := "plan";
  sl_isAutomated s := (s =? "plan")%string || (s =? "code")%string;
  sl_isTerminal s := (s =? "deploy")%string;
  sl_stagePrompt _ s := mret s;
  sl_completedStage := None;
  sl_readStage id := asks (fun w => w_stages w !! id);
  sl_readAttemptStage attempt _ := mret (next_stage attempt);
  sl_clearStage id := does (on_stages (delete id));
  sl_admissionGate i := mret (negb (i_id i =? "wg-hold")%string);
  sl_reconcileStage id s := does (on_stages <[id := s]>);
|}.
Definition shipped_at (s : string) (cost : Num) : LapResult :=
  {| lr_outcome := SHIPPED; lr_costUsd := cost; lr_inputTokens := None; lr_outputTokens := None; lr_attemptId := Some s |}.
(** A lap of the code stage commits; the lap of [wg-fork] asks a human. *)
Definition lap (commits : World -> World) (i : Issue) (s : option string) : Act World RalphError LapResult :=
  if (i_id i =? "wg-fork")%string then mret (lap_result (HUMAN_REQUIRED SCOPE_FORK None None) (of_Z 1))
  else match s with
       | Some s => does (if (s =? "code")%string then commits else id) ≫= fun _ => mret (shipped_at s (of_Z 1))
       | None => does commits ≫= fun _ => mret (lap_result SHIPPED (of_Z 1))
       end.
Definition git : RalphGitSeam World := {|
  git_tip _ := asks (fun w => pretty (w_commits w));
  git_committedSince base _ := asks (fun w => if (pretty (w_commits w) =? base)%string then [] else ["src/a.ts"]);
  git_uncommittedPaths := mret [];
|}.
(** The loop's dependencies around a lap and a stage loop. *)
Definition demo (run : Issue -> option string -> Act World RalphError LapResult) (sl : option (StageLoop World))
    (env : option ResolvedEnvironments) (g : option (RalphGitSeam World)) : RalphDeps World := {|
  rd_listReady := asks (fun w => List.filter (readyb (view w)) (issues_of (view w)));
  rd_listIssues s := asks (fun w => issues_of (view w));
  rd_listEdges := asks w_edges;
  rd_getIssue id := asks (fun w => keyed (w_issues w) !! id);
  rd_updateIssue id s := does (on_issues (alter (with_issue_status s) id));
  rd_archiveIssue id _ := does (on_issues (alter (with_issue_status "archived") id));
  rd_claimIssue id _ _ := does (on_issues (alter (with_claim (Some "t")) id)) ≫= fun _ => mret true;
  rd_renewClaim := Some (fun _ _ _ => mret true);
  rd_wedgeMark id r := does (on_issues (alter (with_wedge r) id));
  rd_clearWedge _ := mret tt;
  rd_releaseClaim id _ := does (on_issues (alter (with_claim None) id));
  rd_claimAudience := mret "core";
  rd_runLap i _ s := run i s;
  rd_firings _ := 1;
  rd_escalate _ _ _ := mret (true, None);
  rd_stdout _ w := w;
  rd_stderr _ w := w;
  rd_narrate _ := mret tt;
  rd_display _ := mret tt;
  rd_onShipped _ := mret tt;
  rd_loopPassReconcile := mret None;
  rd_recordMetric _ := mret tt;
  rd_stageLoop := sl;
  rd_git := g;
  rd_environments := env;
  rd_baseRefresh := Some (mret up_to_date);
  rd_heartbeat := mret tt;
  rd_sleep _ := mret tt;
  rd_liveItems := mret [];
  rd_emitMonitorEvent _ _ w := w;
  rd_nowMs _ := 0%Z;
  rd_nowIso _ := "2026-01-01T00:00:00.000Z";
|}.
Definition deps : RalphDeps World := demo (lap commit) (Some stages) None (Some git).

(** ** The laws hold *)
Lemma lookup_keyed m id : keyed m !! id = with_id id <$> m !! id.
Proof. unfold keyed. rewrite map_lookup_imap. by destruct (m !! id). Qed.
Lemma keyed_alter f id m : (forall i, f (with_id id i) = with_id id (f i)) -> keyed (alter f id m) = alter f id (keyed m).
Proof.
  intros Hf. apply map_eq. intros k. rewrite lookup_keyed. destruct (decide (id = k)) as [<-|Hne].
  - rewrite !lookup_alter_eq, lookup_keyed. destruct (m !! id); cbn; [by rewrite Hf|done].
  - by rewrite !lookup_alter_ne, lookup_keyed.
Qed.
Lemma view_alter f id w : (forall i, f (with_id id i) = with_id id (f i)) ->
  view (on_issues (alter f id) w) = on_issue f id (view w).
Proof. intros Hf. unfold view, on_issue. cbn. by rewrite keyed_alter. Qed.
Lemma keyed_ids w id i : bd_issues (view w) !! id = Some i -> i_id i = id.
Proof. cbn. rewrite lookup_keyed. destruct (w_issues w !! id); [|done]. by intros [= <-]. Qed.
Lemma elem_issues_of w i : i ∈ issues_of (view w) <-> bd_issues (view w) !! i_id i = Some i.
Proof.
  unfold issues_of. rewrite list_elem_of_fmap. split.
  - intros ([k j] & -> & Hk%elem_of_map_to_list). cbn [snd]. by rewrite (keyed_ids w k j Hk).
  - intros Hi. exists (i_id i, i). split; [done|]. by apply elem_of_map_to_list.
Qed.
Lemma readyb_spec b i : bd_issues b !! i_id i = Some i -> readyb b i = true <-> ready_on b i.
Proof.
  intros Hi. unfold readyb, ready_on. rewrite !andb_true_iff, !bool_decide_eq_true, negb_true_iff, String.eqb_eq. split.
  - intros (((Ho & Hw) & Hc) & Hb). split_and!; [done..|]. intros (e & x & He & Ht & Hto & Hx & Hl).
    apply not_true_iff_false in Hb. apply Hb, existsb_exists. exists e. split; [by apply list_elem_of_In|].
    by rewrite Ht, Hto, !String.eqb_refl, Hx, Hl.
  - intros (_ & Ho & Hw & Hc & Hb). split_and!; [done..|]. apply not_true_iff_false. intros (e & He & Hp)%existsb_exists.
    apply Hb. destruct (bd_issues b !! edge_from e) as [x|] eqn:Ex; [|by rewrite andb_false_r in Hp].
    rewrite !andb_true_iff, !String.eqb_eq, negb_true_iff in Hp. destruct Hp as [[Ht Hto] Hl]. exists e, x.
    by split_and!; [apply list_elem_of_In|..].
Qed.

#[local] Hint Extern 1 (safe view (asks _)) => apply safe_asks : effects.
#[export] Instance demo_board run sl env g : BoardLaws (demo run sl env g) view.
Proof.
  split.
  - intros w id i. apply keyed_ids.
  - intros w. by eexists _, _.
  - intros w. by eexists.
  - intros w id s _. eexists. split; [reflexivity|]. by apply view_alter.
  - intros w id why _. eexists. split; [reflexivity|]. by apply view_alter.
Qed.
Lemma lap_keeps i s : keeps view (lap commit i s).
Proof. intros w. unfold lap. destruct (_ =? _)%string; [done|]. destruct s as [s|]; [|done]. cbn. by destruct (s =? "code")%string. Qed.
Lemma next_rank s : next_stage s <> s -> rank (next_stage s) < rank s.
Proof.
  unfold next_stage, rank. destruct (s =? "plan")%string eqn:E1; [intros _; cbn; lia|].
  destruct (s =? "code")%string eqn:E2; [intros _; cbn; lia|done].
Qed.
#[export] Instance demo_drive : DriveLaws deps view rank.
Proof.
  split; cbn [rd_getIssue rd_narrate rd_heartbeat rd_sleep rd_runLap rd_renewClaim rd_recordMetric rd_stageLoop deps demo].
  - intros id. apply safe_asks.
  - intros s. apply safe_ret.
  - apply safe_ret.
  - intros n. apply safe_ret.
  - intros i p s. apply lap_keeps.
  - intros i p s e r e'. unfold lap. destruct (_ =? _)%string; [by intros [= <- _]|]. destruct s; by intros [= <- _].
  - intros f id tok ttl [= <-]. done.
  - done.
  - intros sl i s [= <-]. apply safe_ret.
  - intros sl f i s [= <-] [=].
  - intros sl id [= <-]. apply safe_asks.
  - intros sl a id [= <-]. apply safe_ret.
  - intros sl id s [= <-] w. by eexists _, _.
  - intros sl f i s c e e' [= <-] [=].
  - intros sl i p s r e e' a next e1 e2 [= <-]. unfold lap. destruct (_ =? _)%string; [by intros [= <- _]|].
    intros [= <- _] [= <-] [= <- _]. apply next_rank.
Qed.
Definition admits (_ : Board) (id : string) : bool := negb (id =? "wg-hold")%string.
#[export] Instance demo_loop : LoopLaws deps view admits rank.
Proof.
  split; try exact _.
  - intros w. eexists _, _. split; [reflexivity|]. split; [done|]. intros i.
    rewrite list_elem_of_In, filter_In, <- list_elem_of_In, elem_issues_of. split.
    + intros [Hi Hr]. by apply readyb_spec.
    + intros Hr. pose proof Hr as (Hi & _). split; [done|]. by apply readyb_spec.
  - done.
  - apply safe_ret.
  - intros w i aud ttl Hr. eexists _, _. split; [reflexivity|]. by apply view_alter.
  - intros w id t _. eexists. split; [reflexivity|]. by apply view_alter.
  - intros w id r _. eexists. split; [reflexivity|]. by apply view_alter.
  - intros s. apply safe_ret.
  - done.
  - done.
  - intros m [= <-]. done.
  - done.
  - intros w r i t. by eexists _, _.
  - done.
  - done.
  - done.
  - intros g r [= <-]. apply safe_asks.
  - intros g b r [= <-]. apply safe_asks.
  - intros g [= <-]. apply safe_ret.
  - intros sl id [= <-] w. by eexists _, _.
  - intros sl i w [= <-]. by eexists.
Qed.

(** ** Runs *)
Definition issue (id body : string) : Issue :=
  {| i_id := id; i_title := id; i_body := body; i_status := "open"; i_createdAt := ""; i_updatedAt := "";
     i_claimToken := None; i_claimAudience := None; i_claimExpiresAt := None; i_wedgeReason := None; i_archiveReason := None |}.
Definition board (ids : list string) (edges : list Edge) : World :=
  {| w_issues := list_to_map (List.map (fun id => (id, issue id "")) ids); w_edges := edges; w_stages := ∅; w_commits := 0 |}.
Definition cfg : RalphConfig :=
  {| cf_authMode := subscription; cf_maxBudgetUsd := of_Z 10; cf_claimTtlSec := 600; cf_maxRetries := 1; cf_harness := "claude"; cf_runId := "r" |}.
(** [wg-b] waits for [wg-a], [wg-parent] has both as children; [wg-fork] needs
    a human and [wg-hold] is not admitted. *)
Definition world : World :=
  board ["wg-a"; "wg-b"; "wg-parent"; "wg-fork"; "wg-hold"]
    [("wg-a", "wg-b", "blocks"); ("wg-a", "wg-parent", "blocks"); ("wg-b", "wg-parent", "blocks");
     ("wg-parent", "wg-a", "parent-child"); ("wg-parent", "wg-b", "parent-child")].
Lemma world_run :
  match runRalphLoop cfg deps 11 40 world with
  | (Ok r, _) => (rr_stopped r, rr_closed r, rr_parked r) = (BOARD_WAITING, ["wg-a"; "wg-b"; "wg-parent"], [("wg-fork", SCOPE_FORK)])
      /\ rr_waiting r = Some [{| bw_id := "wg-fork"; bw_reason := w_wedged; bw_detail := Some "SCOPE_FORK" |};
                              {| bw_id := "wg-hold"; bw_reason := w_admission; bw_detail := None |}]
  | _ => False
  end.
Proof. vm_compute. done. Qed.

Lemma loop_runs_to_exhaustion_witness : exists r e', runRalphLoop cfg deps 11 40 world = (Ok r, e') /\ isResourcePause (rr_stopped r) = true.
Proof.
  destruct (loop_runs_to_exhaustion cfg deps view admits rank 40
    ltac:(intros s; unfold rank; destruct (s =? "plan")%string; [|destruct (s =? "code")%string]; unfold MAX_STAGE_RETRIES; lia) 11 world
    ltac:(apply Nat.ltb_lt; vm_compute; reflexivity)) as (r & e' & Hr & Hp & _).
  exists r, e'. split; [exact Hr|exact Hp].
Defined.
(** Closing [wg-b], the last open child, rolls its parent up. *)
Definition nearly : World := on_issues (alter (with_issue_status "closed") "wg-a") (on_issues (alter (with_issue_status "closed") "wg-b") world).
Lemma rollUpParents_exact_witness : exists rolled e', rollUpParents deps "wg-b" nearly = (Ok rolled, e') /\
  view e' = {| bd_issues := set_all "closed" rolled (bd_issues (view nearly)); bd_edges := bd_edges (view nearly) |}.
Proof.
  destruct (rollUpParents_exact deps view "wg-b" nearly) as (rolled & e' & Hr & Hv & _). exists rolled, e'. split; [exact Hr|exact Hv].
Defined.
(** The run closes issues, and each of its passes is backed. *)
Lemma closes_backed_by_commits_witness : exists segs, (runRalphLoop cfg (traced deps) 11 40 (world, [])).2.2 = concat segs /\
  Forall (pass_ok deps) segs /\
  existsb (fun c => match c with CUpdate _ s => (s =? "closed")%string | _ => false end) (concat segs) = true.
Proof.
  destruct (closes_backed_by_commits cfg deps git eq_refl 11 40 world) as (_ & segs & Hs & Hok). exists segs.
  split; [exact Hs|]. split; [exact Hok|]. rewrite <- Hs. vm_compute. reflexivity.
Defined.

(** ** What the code does though it means something else *)
Definition whole (n : Num) : Z := match n with Fin q => QArith_base.Qnum q / Zpos (QArith_base.Qden q) | _ => 0 end.
Definition outcome_of (r : result RalphError RalphResult) : option (RalphStop * list string * list (string * HumanRequiredReason) * Z) :=
  match r with Ok r => Some (rr_stopped r, rr_closed r, rr_parked r, whole (rr_spent r)) | Err _ => None end.
(** A re-drive of a shipped item reads the terminal stage back and runs no lap:
    a stage drive that forgot to commit is parked after the laps of the first
    drive alone. *)
Lemma redrives_run_no_lap :
  let run := runRalphLoop cfg (traced (demo (lap id) (Some stages) None (Some git))) 3 40 (board ["wg-a"] [], []) in
  outcome_of run.1 = Some (BOARD_WAITING, [], [("wg-a", NO_DURABLE_COMMIT)], 2%Z) /\
  List.filter is_lap run.2.2 = [CLap "wg-a" (Some "plan"); CLap "wg-a" (Some "code")].
Proof. vm_compute. done. Qed.
(** An item that is parked for its missing commit, or that awaits input, skips
    the budget check: 20 spent of 1, and the run goes on to the board's end. *)
Definition cheap : RalphConfig :=
  {| cf_authMode := api; cf_maxBudgetUsd := of_Z 1; cf_claimTtlSec := 600; cf_maxRetries := 0; cf_harness := "claude"; cf_runId := "r" |}.
Definition dear (i : Issue) (s : option string) : Act World RalphError LapResult :=
  mret {| lr_outcome := SHIPPED; lr_costUsd := of_Z 5; lr_inputTokens := None; lr_outputTokens := None; lr_attemptId := s |}.
Lemma parked_items_skip_the_budget :
  outcome_of (runRalphLoop cheap (demo dear (Some stages) None (Some git)) 5 40 (board ["wg-a"; "wg-b"] [])).1 =
    Some (BOARD_WAITING, [], [("wg-a", NO_DURABLE_COMMIT); ("wg-b", NO_DURABLE_COMMIT)], 20%Z) /\
  outcome_of (runRalphLoop cheap (demo dear (Some stages) None None) 5 40 (board ["wg-a"; "wg-b"] [])).1 =
    Some (BUDGET, ["wg-a"], [], 10%Z).
Proof. vm_compute. done. Qed.
(** BOARD_EMPTY is among the reasons a lap may give: it stops the loop as
    drained with the item and the rest of the board live. *)
Definition claims_empty (_ : Issue) (_ : option string) : Act World RalphError LapResult :=
  mret (lap_result (HUMAN_REQUIRED BOARD_EMPTY None None) (of_Z 1)).
Lemma lap_reports_empty_board :
  extractTypedExit ("RALPH-EXIT:" +:+ "{" +:+ quoted "kind" +:+ ":" +:+ quoted "HUMAN_REQUIRED" +:+ "," +:+ quoted "reason" +:+ ":" +:+ quoted "BOARD_EMPTY" +:+ "}")
    = Some (HUMAN_REQUIRED BOARD_EMPTY None None) /\
  let run := runRalphLoop cfg (demo claims_empty None None None) 5 40 (board ["wg-a"; "wg-b"] []) in
  outcome_of run.1 = Some (BOARD_EMPTY, [], [], 1%Z) /\
  List.map (fun i => (i_id i, i_status i)) (issues_of (view run.2)) = [("wg-a", "open"); ("wg-b", "open")].
Proof. vm_compute. done. Qed.
(** Two stages that advance to each other: every advance resets the retry
    count, so the drive never ends. *)
Definition ping_pong : StageLoop World := {|
  sl_initialStage := "plan"; sl_isAutomated _ := true; sl_isTerminal _ := false;
  sl_stagePrompt _ s := mret s; sl_completedStage := None; sl_readStage _ := mret None;
  sl_readAttemptStage attempt _ := mret (if (attempt =? "plan")%string then "code" else "plan");
  sl_clearStage _ := mret tt; sl_admissionGate _ := mret true; sl_reconcileStage _ _ := mret tt;
|}.
Lemma ping_pong_never_ends fuel item w :
  (driveClaimedItem cfg (demo dear (Some ping_pong) None None) fuel item w).1 = Err OutOfFuel.
Proof.
  change ((stage_loop cfg (demo dear (Some ping_pong) None None) fuel ping_pong
    (with_renewals cfg (demo dear (Some ping_pong) None None) ((keyed (w_issues w) !! i_id item) ≫= i_claimToken)) item "plan" (of_Z 0) 0 (fresh_acc 0) w).1 = Err OutOfFuel).
  set (token := _ ≫= _). clearbody token.
  assert (forall stage cost acc w, stage = "plan" \/ stage = "code" -> (stage_loop cfg (demo dear (Some ping_pong) None None) fuel ping_pong
    (with_renewals cfg (demo dear (Some ping_pong) None None) token) item stage cost 0 acc w).1 = Err OutOfFuel) as H; [|by apply H; left].
  induction fuel as [|fuel IH]; intros stage cost acc w0 Hs; [done|].
  destruct Hs as [-> | ->]; cbn -[stage_loop]; cbn [stage_loop]; destruct token; cbn; apply IH; auto.
Qed.
(** The reaper takes an orphan stub whoever claims it; the comment says it
    never does. *)
Lemma reaper_takes_claimed :
  let i := with_claim (Some "t") (issue "wg-s" "sourceElementId: e1") in
  let w := {| w_issues := {["wg-s" := i]}; w_edges := []; w_stages := ∅; w_commits := 0 |} in
  (reapOrphans deps w).1 = Ok ["wg-s"].
Proof. vm_compute. done. Qed.
(** A parent is closed over a child that is in progress. *)
Lemma parent_closed_over_working_child :
  let b := with_issue_status "in_progress" (issue "wg-b" "") in
  let w := {| w_issues := {["wg-a" := with_issue_status "closed" (issue "wg-a" ""); "wg-b" := b; "wg-p" := issue "wg-p" ""]};
              w_edges := [("wg-p", "wg-a", "parent-child"); ("wg-p", "wg-b", "parent-child")]; w_stages := ∅; w_commits := 0 |} in
  (rollUpParents deps "wg-a" w).1 = Ok ["wg-p"].
Proof. vm_compute. done. Qed.
(** Git quotes a path with a blank in its status and not in its diff, so a
    committed file that is dirty again counts as clean. *)
Definition git_says (args : list string) : Act World RalphError string :=
  mret (match args with
        | "rev-parse" :: _ => "f00" +:+ NEWLINE
        | "diff" :: _ => "my notes.md" +:+ NEWLINE
        | _ => " M " +:+ quoted "my notes.md" +:+ NEWLINE
        end).
Lemma dirty_path_with_blank_passes : (durableItemCommitExists (makeRalphGitSeam git_says) "ba5" None world).1 = Ok true.
Proof. vm_compute. done. Qed.
(** With a staging branch the gate looks for the commit there, but only the
    integration after the close moves it: committed work is parked. *)
Definition staged_git : RalphGitSeam World := {|
  git_tip ref := asks (fun w => match ref with Some "staging" => "5ta" | _ => pretty (w_commits w) end);
  git_committedSince base ref := asks (fun w =>
    match ref with Some "staging" => [] | _ => if (pretty (w_commits w) =? base)%string then [] else ["src/a.ts"] end);
  git_uncommittedPaths := mret [];
|}.
Definition staged_project : ResolvedEnvironments := {| env_production := "main"; env_staging := Some "staging"; env_local := "dev" |}.
Definition plain_project : ResolvedEnvironments := {| env_production := "main"; env_staging := None; env_local := "dev" |}.
Lemma staged_project_never_ships :
  outcome_of (runRalphLoop cfg (demo (lap commit) (Some stages) (Some staged_project) (Some staged_git)) 4 40 (board ["wg-a"] [])).1 =
    Some (BOARD_WAITING, [], [("wg-a", NO_DURABLE_COMMIT)], 2%Z) /\
  outcome_of (runRalphLoop cfg (demo (lap commit) (Some stages) (Some plain_project) (Some staged_git)) 4 40 (board ["wg-a"] [])).1 =
    Some (BOARD_EMPTY, ["wg-a"], [], 2%Z).
Proof. vm_compute. done. Qed.
