(* ===== verification/ScopeEntry.v ===== *)
(** * Entering the scope stage ([src/src/packs/runtime/fullstack_scope.ts])

    [/scope] takes a work item from wherever an earlier attempt left it to the
    engaged scope stage: checkpoint, active task, machine projection, context.
    Each round reads the records, classifies what it sees and does the one next
    write, so a failed write is answered by looking again.

    The code's dependencies are the class [ScopeDeps], operations on a world
    that may throw; [String(error)] is the thrown value. *)

From Stdlib Require Import Ascii String.
From stdpp Require Import base option list strings gmap.
From S2P Require Import Prelude Effects Json ExprSyntax Workgraph CheckpointStore FsmState PackCompile Fsm LapOutcome Shell Safety.
#[local] Open Scope os_scope.

Abbreviation Io E := (Act E string).

(** ** The command *)
Definition PACK_ID : string := "fullstack-flow".
Definition PREFIX : string := "/scope".
Definition FULLSTACK_SCOPE_USAGE : string := "usage: /scope <request> | /scope --item <wg-id>".
Definition is_hex_lower (c : ascii) : bool :=
  let n := nat_of_ascii c in (Nat.leb 48 n && Nat.leb n 57) || (Nat.leb 97 n && Nat.leb n 102).
(** [/^wg-[a-f0-9]{12}$/] *)
Definition is_item_id (s : string) : bool :=
  starts_with s "wg-" && Nat.eqb (String.length s) 15 && forallb is_hex_lower (String.list_ascii_of_string (slice_from 3 s)).
Inductive FullstackScopeRequest := create (title : string) | select (itemId : string).
Inductive FullstackScopeParse := scope_ignored | scope_invalid (message : string) | scope_request (r : FullstackScopeRequest).
Definition parse_payload (payload : string) : FullstackScopeParse :=
  if (payload =? "")%string then scope_invalid FULLSTACK_SCOPE_USAGE
  else
    match split_spaces payload with
    | first :: rest =>
        if (first =? "--item")%string then
          match rest with
          | [itemId] => if is_item_id itemId then scope_request (select itemId) else scope_invalid FULLSTACK_SCOPE_USAGE
          | _ => scope_invalid FULLSTACK_SCOPE_USAGE
          end
        else scope_request (create payload)
    | [] => scope_request (create payload)
    end.
Definition parseFullstackScope (raw : string) : FullstackScopeParse :=
  if negb (starts_with raw PREFIX) then scope_ignored
  else match slice_from (String.length PREFIX) raw with
       | String c r => if is_space c then parse_payload (trim (String c r)) else scope_ignored
       | EmptyString => parse_payload ""
       end.

(** ** What the records say *)
Record FullstackScopePolicy := { po_packId : string; po_initial : string; po_states : list string; po_writes : string -> list string }.
Record ActiveTask := { at_id : string; at_subject : string; at_started_at : string; at_taskId : option string; at_spec : option string }.
Inductive ActiveTaskRead := active_present (t : ActiveTask) | active_absent | active_unknown (reason : string).
Inductive FsmProjectionRead := fsm_present (state : string) | fsm_absent | fsm_unknown (reason : string).
Inductive KnownEntryObservation :=
| missing | not_open | item_only | checkpoint_ready | projection_pending | active_conflict
| advanced (stage : string) | obs_engaged (stage : string) (writes : list string) | unknown (reason : string).
Definition conflicts (t : ActiveTask) (id : string) : bool :=
  negb (at_id t =? id)%string || match at_taskId t with Some k => negb (k =? at_id t)%string | None => false end.
Definition classifyKnownEntry (issue : option Issue) (checkpoint : option TaskCheckpoint) (active : ActiveTaskRead)
    (fsm : FsmProjectionRead) (policy : FullstackScopePolicy) : KnownEntryObservation :=
  match issue with
  | None => missing
  | Some i =>
      if negb (i_status i =? "open")%string then not_open
      else match checkpoint with
      | None => item_only
      | Some c =>
          if negb (tc_stage c =? po_initial policy)%string then
            if set_has (tc_stage c) (po_states policy) then advanced (tc_stage c)
            else unknown ("unknown checkpoint stage: " +:+ tc_stage c)
          else match active with
          | active_unknown reason => unknown reason
          | active_absent => checkpoint_ready
          | active_present t =>
              if conflicts t (i_id i) then active_conflict
              else match fsm with
              | fsm_unknown reason => unknown reason
              | fsm_absent => projection_pending
              | fsm_present state =>
                  if (state =? tc_stage c)%string then obs_engaged (tc_stage c) (po_writes policy (tc_stage c))
                  else unknown ("checkpoint/FSM divergence: " +:+ tc_stage c +:+ "/" +:+ state)
              end
          end
      end
  end.

Inductive DurableState :=
| at_creation_indeterminate | at_item_only | at_checkpoint_ready | at_active_conflict | at_advanced | at_indeterminate.
Inductive FullstackScopeResult :=
| res_ignored
| res_rejected (message : string)
| res_failed (message : string) (durableState : DurableState) (itemId recovery : option string)
| res_engaged (itemId context continuationPrompt : string).

(** ** The order of an attempt *)
Inductive ScopeEntryAttemptKind := a_start | a_parsed | a_selected | a_checkpointed | a_published | a_projected | a_context_ready.
#[export] Instance ScopeEntryAttemptKind_eq_dec : EqDecision ScopeEntryAttemptKind.
Proof. solve_decision. Defined.
Inductive ScopeEntryAttempt := attempt_at (k : ScopeEntryAttemptKind) | attempt_done (r : FullstackScopeResult).
(** [reached k] is the event named [k]; none is named [a_start]. *)
Inductive ScopeEntryAttemptEvent := reached (k : ScopeEntryAttemptKind) | finish (r : FullstackScopeResult).
Definition ATTEMPT_NEXT (k e : ScopeEntryAttemptKind) : option ScopeEntryAttemptKind :=
  match k, e with
  | a_start, a_parsed => Some a_parsed
  | a_parsed, a_selected => Some a_selected
  | a_selected, a_checkpointed => Some a_checkpointed
  | a_checkpointed, a_published => Some a_published
  | a_published, a_projected => Some a_projected
  | a_projected, a_context_ready => Some a_context_ready
  | _, _ => None
  end.
Definition illegal_transition : ScopeEntryAttempt :=
  attempt_done (res_failed "illegal scope-entry transition" at_indeterminate None None).
Definition stepScopeEntryAttempt (state : ScopeEntryAttempt) (event : ScopeEntryAttemptEvent) : ScopeEntryAttempt :=
  match state with
  | attempt_done _ => state
  | attempt_at k =>
      match event with
      | finish r =>
          match r with
          | res_engaged _ _ _ => if bool_decide (k = a_context_ready) then attempt_done r else illegal_transition
          | _ => attempt_done r
          end
      | reached e => match ATTEMPT_NEXT k e with Some next => attempt_at next | None => illegal_transition end
      end
  end.
Definition ATTEMPT_ORDER : list ScopeEntryAttemptKind := [a_parsed; a_selected; a_checkpointed; a_published; a_projected; a_context_ready].
(** [ATTEMPT_ORDER[findIndex(kind) + 1]] *)
Definition next_event (k : ScopeEntryAttemptKind) : option ScopeEntryAttemptKind :=
  match list_find (fun e => e = k) ATTEMPT_ORDER with
  | Some (i, _) => ATTEMPT_ORDER !! S i
  | None => ATTEMPT_ORDER !! 0
  end.
(** Each turn goes one further in an order of six. *)
Fixpoint advance_from (fuel : nat) (state : ScopeEntryAttempt) (target : ScopeEntryAttemptKind) : ScopeEntryAttempt :=
  match fuel, state with
  | S fuel, attempt_at k =>
      if bool_decide (k = target) then state
      else match next_event k with
           | Some e => advance_from fuel (stepScopeEntryAttempt state (reached e)) target
           | None => state
           end
  | _, _ => state
  end.
Definition advanceAttemptTo : ScopeEntryAttempt -> ScopeEntryAttemptKind -> ScopeEntryAttempt := advance_from 7.

(** ** Dependencies *)
Record ScopeWorkGraph (E : Type) := {
  wg_createIssue : string -> Io E Issue;
  wg_getIssue : string -> Io E (option Issue);
}.
Arguments wg_createIssue {E}. Arguments wg_getIssue {E}.
(** [sd_nowMs] is [Date.parse(now())]. *)
Class ScopeDeps (E : Type) := {
  sd_resolvePolicy : string -> string -> Io E (option FullstackScopePolicy);
  sd_openWorkGraph : string -> Io E (ScopeWorkGraph E);
  sd_readCheckpoint : string -> string -> Io E (option TaskCheckpoint);
  sd_createCheckpoint : string -> string -> string -> Z -> Io E unit;
  sd_readActiveTask : string -> Io E ActiveTaskRead;
  sd_writeActiveTask : string -> ActiveTask -> Io E unit;
  sd_recordSessionCwd : string -> string -> Io E unit;
  sd_initializeV2Cartridges : string -> string -> string -> Io E unit;
  sd_readProjection : string -> string -> string -> Io E (option FsmStateFile);
  sd_buildContext : string -> string -> FsmStateFile -> Io E string;
  sd_now : E -> string;
  sd_nowMs : E -> Z;
}.

(** ** Failures *)
Definition recoveryFor (itemId : string) : string := "/scope --item " +:+ itemId.
Definition failedFromObservation (itemId : string) (observation : KnownEntryObservation) (message : string) : FullstackScopeResult :=
  match observation with
  | advanced stage =>
      res_failed (message +:+ "; item is already at " +:+ stage +:+ " and cannot be rewound by /scope") at_advanced (Some itemId) None
  | active_conflict => res_failed message at_active_conflict (Some itemId) None
  | item_only => res_failed message at_item_only (Some itemId) (Some (recoveryFor itemId))
  | checkpoint_ready | projection_pending | obs_engaged _ _ =>
      res_failed message at_checkpoint_ready (Some itemId) (Some (recoveryFor itemId))
  | _ => res_failed message at_indeterminate (Some itemId) None
  end.
Definition rejectionForKnown (itemId : string) (observation : KnownEntryObservation) : FullstackScopeResult :=
  match observation with
  | missing => res_rejected ("scope entry rejected: local WorkGraph item " +:+ itemId +:+ " was not found")
  | not_open => res_rejected ("scope entry rejected: WorkGraph item " +:+ itemId +:+ " is not open")
  | advanced stage =>
      failedFromObservation itemId observation ("scope entry rejected: WorkGraph item " +:+ itemId +:+ " is already at " +:+ stage)
  | active_conflict =>
      failedFromObservation itemId observation ("scope entry rejected: another active task conflicts with " +:+ itemId)
  | _ => failedFromObservation itemId observation ("scope entry for " +:+ itemId +:+ " is indeterminate")
  end.

(** ** Entering a known item *)
Section Execute.
Context {E : Type} `{!ScopeDeps E} (graph : ScopeWorkGraph E) (policy : FullstackScopePolicy) (itemId sessionId cwd : string).
Abbreviation IO := (Act E string).

Definition readObservation : IO KnownEntryObservation :=
  selected ← caught (wg_getIssue graph itemId);
  match selected with
  | inr error => mret (unknown ("WorkGraph read failed: " +:+ error))
  | inl selected =>
      checkpoint ← caught (sd_readCheckpoint cwd itemId);
      match checkpoint with
      | inr error => mret (unknown ("checkpoint read failed: " +:+ error))
      | inl checkpoint =>
          active ← try_catch (sd_readActiveTask sessionId)
                             (fun error => mret (active_unknown ("active-task read failed: " +:+ error)));
          projection ← try_catch
            (fsm ← sd_readProjection sessionId (po_packId policy) itemId;
             mret (match fsm with None => fsm_absent | Some f => fsm_present (sf_state f) end))
            (fun error => mret (fsm_unknown ("FSM projection read failed: " +:+ error)));
          mret (classifyKnownEntry selected checkpoint active projection policy)
      end
  end.
(** [after.kind === observation.kind], for the observations a write follows. *)
Definition same_kind (a b : KnownEntryObservation) : bool :=
  match a, b with
  | item_only, item_only | checkpoint_ready, checkpoint_ready | projection_pending, projection_pending => true
  | _, _ => false
  end.
Definition same_writes (a b : list string) : bool :=
  (join_with (String "000" "") a =? join_with (String "000" "") b)%string.
(** The context is built and the records are read once more. *)
Definition build_context (observation : KnownEntryObservation) (stage : string) (writes : list string) (attempt : ScopeEntryAttempt)
    : IO FullstackScopeResult :=
  fsm ← sd_readProjection sessionId (po_packId policy) itemId;
  match fsm with
  | None => mret (failedFromObservation itemId observation "scope projection disappeared before context build")
  | Some fsm =>
      context ← sd_buildContext sessionId (po_packId policy) fsm;
      final ← readObservation;
      if match final with obs_engaged s w => (s =? stage)%string && same_writes w writes | _ => false end then
        selected ← wg_getIssue graph itemId;
        match selected with
        | Some i =>
            if (i_status i =? "open")%string then
              let engaged := res_engaged itemId context
                ("Begin interactive SCOPE for WorkGraph item " +:+ itemId +:+ ": " +:+ i_title i) in
              mret (match stepScopeEntryAttempt (advanceAttemptTo attempt a_context_ready) (finish engaged) with
                    | attempt_done r => r
                    | attempt_at _ => engaged
                    end)
            else mret (res_rejected ("scope entry rejected: WorkGraph item " +:+ itemId +:+ " is no longer open"))
        | None => mret (res_rejected ("scope entry rejected: WorkGraph item " +:+ itemId +:+ " is no longer open"))
        end
      else mret (failedFromObservation itemId final "scope state changed while context was being built")
  end.
Definition enter (observation : KnownEntryObservation) (stage : string) (writes : list string) (attempt : ScopeEntryAttempt)
    : IO FullstackScopeResult :=
  try_catch (build_context observation stage writes attempt)
    (fun error => mret (failedFromObservation itemId observation ("scope context build failed: " +:+ error))).
(** A write and the next round; a failed one is looked at first. *)
Definition write_then (next : ScopeEntryAttempt -> IO FullstackScopeResult) (observation : KnownEntryObservation)
    (attempt : ScopeEntryAttempt) (what : string) (m : IO unit) : IO FullstackScopeResult :=
  r ← caught m;
  match r with
  | inl _ => next attempt
  | inr error =>
      after ← readObservation;
      if same_kind after observation then mret (failedFromObservation itemId after (what +:+ error)) else next attempt
  end.
Fixpoint rounds (steps : nat) (attempt : ScopeEntryAttempt) : IO FullstackScopeResult :=
  match steps with
  | O => mret (res_failed ("scope entry for " +:+ itemId +:+ " did not converge after bounded reconciliation") at_indeterminate (Some itemId) None)
  | S steps =>
      observation ← readObservation;
      let write (target : ScopeEntryAttemptKind) := write_then (rounds steps) observation (advanceAttemptTo attempt target) in
      match observation with
      | missing | not_open | advanced _ | active_conflict => mret (rejectionForKnown itemId observation)
      | unknown reason => mret (failedFromObservation itemId observation reason)
      | item_only =>
          write a_selected "scope checkpoint write failed: "
            (now ← asks sd_nowMs; sd_createCheckpoint cwd itemId (po_initial policy) now)
      | checkpoint_ready =>
          write a_checkpointed "active-task write failed: "
            (now ← asks sd_now;
             sd_writeActiveTask sessionId
               {| at_id := itemId; at_subject := itemId; at_started_at := now; at_taskId := None; at_spec := None |})
      | projection_pending =>
          write a_published "scope projection failed: "
            (sd_recordSessionCwd sessionId cwd ≫= fun _ =>
             now ← asks sd_now; sd_initializeV2Cartridges sessionId now cwd)
      | obs_engaged stage writes => enter observation stage writes (advanceAttemptTo attempt a_projected)
      end
  end.
Definition executeKnown : ScopeEntryAttempt -> IO FullstackScopeResult := rounds 8.
End Execute.

Section Command.
Context {E : Type} `{!ScopeDeps E}.
Abbreviation IO := (Act E string).

(** What [execute] runs when its turn in the queue has come. *)
Definition execute (raw sessionId cwd : string) : IO FullstackScopeResult :=
  match parseFullstackScope raw with
  | scope_ignored => mret res_ignored
  | scope_invalid message => mret (res_rejected message)
  | scope_request request =>
      let attempt := stepScopeEntryAttempt (attempt_at a_start) (reached a_parsed) in
      policy ← caught (sd_resolvePolicy sessionId cwd);
      match policy with
      | inr error => mret (res_failed ("scope policy read failed: " +:+ error) at_indeterminate None None)
      | inl None => mret (res_rejected "scope entry rejected: fullstack-flow is not active for this project")
      | inl (Some policy) =>
          graph ← caught (sd_openWorkGraph cwd);
          match graph with
          | inr error => mret (res_failed ("project-local WorkGraph open failed: " +:+ error) at_indeterminate None None)
          | inl graph =>
              item ← match request with
                     | create title => caught (i ← wg_createIssue graph title; mret (i_id i))
                     | select itemId => mret (inl itemId)
                     end;
              match item with
              | inr error =>
                  mret (res_failed ("WorkGraph creation result is indeterminate: " +:+ error) at_creation_indeterminate None None)
              | inl itemId =>
                  executeKnown graph policy itemId sessionId cwd (stepScopeEntryAttempt attempt (reached a_selected))
              end
          end
      end
  end.

(** ** The engagement of a session, from the same records *)
Definition resolveFullstackScopeEngagement (sessionId cwd : string) : IO ScopeEngagement :=
  active ← try_catch (sd_readActiveTask sessionId)
                     (fun error => mret (active_unknown ("active-task read failed: " +:+ error)));
  match active with
  | active_absent => mret unengaged
  | active_unknown reason => mret (indeterminate None reason)
  | active_present task =>
      let itemId := at_id task in
      let broken (reason : string) : IO ScopeEngagement := mret (indeterminate (Some itemId) reason) in
      if negb (is_item_id itemId) then mret unengaged
      else if match at_taskId task with Some k => negb (k =? itemId)%string | None => false end then
        broken "active-task id/taskId conflict"
      else
        policy ← caught (sd_resolvePolicy sessionId cwd);
        match policy with
        | inr error => broken ("scope policy read failed: " +:+ error)
        | inl None => mret unengaged
        | inl (Some policy) =>
            graph ← caught (sd_openWorkGraph cwd);
            match graph with
            | inr error => broken ("WorkGraph open failed: " +:+ error)
            | inl graph =>
                selected ← caught (wg_getIssue graph itemId);
                match selected with
                | inr error => broken ("WorkGraph read failed: " +:+ error)
                | inl None => mret unengaged
                | inl (Some i) =>
                    if negb (i_status i =? "open")%string then mret unengaged
                    else if negb (i_id i =? itemId)%string then broken "WorkGraph identity conflicts with active task"
                    else
                      checkpoint ← caught (sd_readCheckpoint cwd itemId);
                      match checkpoint with
                      | inr error => broken ("checkpoint read failed: " +:+ error)
                      | inl None => mret unengaged
                      | inl (Some c) =>
                          if negb (set_has (tc_stage c) (po_states policy)) then mret unengaged
                          else
                            projection ← caught (sd_readProjection sessionId (po_packId policy) itemId);
                            match projection with
                            | inr error => broken ("FSM projection read failed: " +:+ error)
                            | inl None => broken "engaged checkpoint has no FSM projection"
                            | inl (Some f) =>
                                if (sf_state f =? tc_stage c)%string then
                                  mret (engaged itemId (tc_stage c) (po_writes policy (tc_stage c)))
                                else broken ("checkpoint/FSM divergence: " +:+ tc_stage c +:+ "/" +:+ sf_state f)
                            end
                      end
                end
            end
        end
  end.

(** ** The primitive of the prompt skill *)
Inductive ScopeEntryPrimitiveResult := entry_null | entry_inject (content : string) | entry_block (message : string).
Definition renderScopeFailure (message : string) (itemId recovery : option string) : string :=
  join_with (String "010" "") (List.filter (fun l => negb (l =? "")%string)
    [message; match itemId with Some i => "WorkGraph item: " +:+ i | None => "" end;
     match recovery with Some r => "Recovery: " +:+ r | None => "" end]).
Definition fullstack_scope_entry (readCwd : string -> IO (option string)) (raw sessionId : string) : IO ScopeEntryPrimitiveResult :=
  match parseFullstackScope raw with
  | scope_ignored => mret entry_null
  | _ =>
      cwd ← readCwd sessionId;
      match cwd with
      | None => mret (entry_block "scope entry blocked: session start did not record a project cwd")
      | Some cwd =>
          result ← execute raw sessionId cwd;
          mret (match result with
                | res_ignored => entry_null
                | res_engaged _ context _ => entry_inject context
                | res_rejected message => entry_block (renderScopeFailure message None None)
                | res_failed message _ itemId recovery => entry_block (renderScopeFailure message itemId recovery)
                end)
      end
  end.
End Command.

(** ** The shipped dependencies *)
(** [resolveProductionPolicy]: the policy of the loaded fullstack-flow pack. *)
Definition production_policy (loaded : list (PackV2 * CompiledPack)) : option FullstackScopePolicy :=
  match List.find (fun l => (pk_name l.1 =? PACK_ID)%string) loaded with
  | None => None
  | Some (pack, compiled) =>
      fsm ← cm_fsm (cp_machine compiled);
      Some {| po_packId := pk_name pack; po_initial := fsm_initial fsm; po_states := fsm_states fsm;
              po_writes := fun stage => default [] (m ← obj_get stage (cm_meta (cp_machine compiled)); m_writes m) |}
  end.
