(* ===== verification/ScopeProps.v ===== *)
(** * What entering the scope stage promises

    [ReadLaws]: the records are read faithfully or not at all; writes may do
    anything.  [EntryLaws]: nothing fails. *)

From Stdlib Require Import Ascii String.
From stdpp Require Import base option list strings gmap.
From S2P Require Import Prelude Effects Json ExprSyntax Workgraph CheckpointStore FsmState PackCompile Fsm LapOutcome Shell Safety ScopeEntry.
#[local] Open Scope os_scope.

(** ** The command read back *)
Lemma rev_string_app a b acc : rev_string (a +:+ b) acc = rev_string b (rev_string a acc).
Proof. revert acc. induction a as [|c a IH]; intros acc; [done|]. cbn. apply IH. Qed.
Lemma rev_string_twice s a b : rev_string (rev_string s a) b = rev_string a (s +:+ b).
Proof. revert a b. induction s as [|c s IH]; intros a b; [done|]. cbn. by rewrite IH. Qed.
Lemma trim_start_tight c s : is_space c = false -> trim_start (String c s) = String c s.
Proof. intros H. unfold trim_start. cbn. by rewrite H. Qed.
Lemma trim_tight c s d : is_space c = false -> is_space d = false ->
  trim (String c (s +:+ String d "")) = String c (s +:+ String d "").
Proof.
  intros Hc Hd. unfold trim. rewrite trim_start_tight by done. cbn [rev_string]. rewrite rev_string_app. cbn [rev_string].
  rewrite trim_start_tight by done. cbn [rev_string]. by rewrite rev_string_twice.
Qed.
Lemma split_tight s : forall b, s <> "" -> forallb (fun c => negb (is_space c)) (String.list_ascii_of_string s) = true ->
  split_spaces_from b s = [s].
Proof.
  induction s as [|c s IH]; intros b Hne H; [done|]. cbn [String.list_ascii_of_string forallb] in H.
  apply andb_true_iff in H as [Hc H]. apply negb_true_iff in Hc. cbn [split_spaces_from]. rewrite Hc.
  destruct s as [|d s]; [done|]. by rewrite IH.
Qed.
Lemma hex_tight c : is_hex_lower c = true -> is_space c = false.
Proof. destruct c as [[] [] [] [] [] [] [] []]; by vm_compute. Qed.
Lemma item_id_text s : is_item_id s = true -> exists h d, s = "wg-" +:+ h +:+ String d "" /\
  forallb is_hex_lower (String.list_ascii_of_string (h +:+ String d "")) = true.
Proof.
  unfold is_item_id. intros [[Hp Hl]%andb_true_iff Hh]%andb_true_iff. apply starts_with_spec in Hp as [r ->].
  apply Nat.eqb_eq in Hl. cbn in Hl. change (slice_from 3 ("wg-" +:+ r)) with r in Hh.
  destruct r as [|c r]; [done|]. clear Hl. revert c Hh. induction r as [|d r IH]; intros c Hh; [by exists "", c|].
  cbn [String.list_ascii_of_string forallb] in Hh. apply andb_true_iff in Hh as [Hc Hh].
  destruct (IH d Hh) as (h & x & E & Hx). injection E as E. exists (String c h), x. rewrite E. split; [done|].
  cbn [String.append String.list_ascii_of_string forallb]. by rewrite Hc.
Qed.
(** The recovery the report names is the command that retries the item. *)
Lemma recovery_parses id : is_item_id id = true -> parseFullstackScope (recoveryFor id) = scope_request (select id).
Proof.
  intros Hid. destruct (item_id_text id Hid) as (h & d & E & Hh).
  assert (is_space d = false) as Hd.
  { apply hex_tight. clear E. induction h as [|c h IH]; cbn [String.append String.list_ascii_of_string forallb] in Hh;
      apply andb_true_iff in Hh as [? Hh]; auto. }
  assert (parseFullstackScope (recoveryFor id) = parse_payload (trim (" --item " +:+ id))) as ->.
  { unfold parseFullstackScope, recoveryFor. destruct (starts_with _ PREFIX) eqn:Es; [done|]. exfalso.
    assert (starts_with ("/scope" +:+ " --item " +:+ id) "/scope" = true) as Ht by (apply starts_with_spec; eauto).
    exact (eq_true_false_abs _ Ht Es). }
  assert (trim (" --item " +:+ id) = "--item " +:+ id) as ->.
  { unfold trim at 1. change (trim_start (" --item " +:+ id)) with ("--item " +:+ id).
    change (rev_string (trim_start (rev_string ("--item " +:+ id) "")) "") with (rev_string (trim_start (rev_string (trim_start ("--item " +:+ id)) "")) "").
    fold (trim ("--item " +:+ id)). subst id. apply (trim_tight "-" ("-item wg-" +:+ h)); done. }
  assert (split_spaces ("--item " +:+ id) = ["--item"; id]) as Hs.
  { change (split_spaces ("--item " +:+ id)) with (match split_spaces_from true id with l => "--item" :: l end).
    rewrite split_tight; [done|by subst|]. subst id. cbn [String.append String.list_ascii_of_string forallb]. cbn [andb].
    revert Hh. generalize (h +:+ String d ""). intros s. induction s as [|c s IH]; [done|].
    cbn. intros [Hc Hs]%andb_true_iff. rewrite (hex_tight c Hc). by apply IH. }
  unfold parse_payload. rewrite Hs. change (("--item " +:+ id =? "")%string) with false. cbn match.
  change (("--item" =? "--item")%string) with true. cbn match. by rewrite Hid.
Qed.

(** ** The order of an attempt is no constraint *)
Lemma attempt_finishes attempt r : (forall d, attempt <> attempt_done d) ->
  stepScopeEntryAttempt (advanceAttemptTo attempt a_context_ready) (finish r) = attempt_done r.
Proof. destruct attempt as [[]|d]; intros H; [by destruct r..|by destruct (H d)]. Qed.
Lemma advance_not_done attempt k d : (forall d, attempt <> attempt_done d) -> advanceAttemptTo attempt k <> attempt_done d.
Proof. destruct attempt as [[]|d']; intros H; [by destruct k..|by destruct (H d')]. Qed.

(** ** The records of one session and item *)
Record Entry := {
  en_issue : option Issue; en_checkpoint : option TaskCheckpoint; en_active : ActiveTaskRead; en_projection : option FsmStateFile;
}.
Definition projected (v : Entry) : FsmProjectionRead :=
  match en_projection v with None => fsm_absent | Some f => fsm_present (sf_state f) end.
Definition truth (policy : FullstackScopePolicy) (v : Entry) : KnownEntryObservation :=
  classifyKnownEntry (en_issue v) (en_checkpoint v) (en_active v) (projected v) policy.
(** A read that answers what is there, or throws, and changes nothing. *)
Definition reads {E A} (view : E -> Entry) (m : Act E string A) (f : Entry -> A) : Prop := forall e,
  view (m e).2 = view e /\ forall a, (m e).1 = Ok a -> a = f (view e).
Class ReadLaws {E} `{!ScopeDeps E} (graph : ScopeWorkGraph E) (policy : FullstackScopePolicy) (item session cwd : string) (view : E -> Entry) := {
  rl_getIssue : reads view (wg_getIssue graph item) en_issue;
  rl_readCheckpoint : reads view (sd_readCheckpoint cwd item) en_checkpoint;
  rl_readActiveTask : forall e, view (sd_readActiveTask session e).2 = view e /\
    forall a, (sd_readActiveTask session e).1 = Ok a -> a = en_active (view e) \/ exists why, a = active_unknown why;
  rl_readProjection : reads view (sd_readProjection session (po_packId policy) item) en_projection;
  rl_buildContext : forall f, keeps view (sd_buildContext session (po_packId policy) f);
}.

(** What a report says of the records it leaves. *)
Definition truthful (policy : FullstackScopePolicy) (item : string) (v : Entry) (r : FullstackScopeResult) : Prop :=
  match r with
  | res_ignored => False
  | res_rejected _ => truth policy v = missing \/ truth policy v = not_open
  | res_engaged id _ _ => id = item /\ exists s w, truth policy v = obs_engaged s w
  | res_failed _ durable id recovery =>
      id = Some item /\
      match durable with
      | at_creation_indeterminate => False
      | at_item_only => truth policy v = item_only
      | at_checkpoint_ready => truth policy v = checkpoint_ready \/ truth policy v = projection_pending \/ exists s w, truth policy v = obs_engaged s w
      | at_active_conflict => truth policy v = active_conflict
      | at_advanced => exists s, truth policy v = advanced s
      | at_indeterminate => True
      end /\
      (is_Some recovery <-> durable = at_item_only \/ durable = at_checkpoint_ready) /\
      forall t, recovery = Some t -> is_item_id item = true -> parseFullstackScope t = scope_request (select item)
  end.
(** Records no entry touches. *)
Definition untouchable (o : KnownEntryObservation) : Prop :=
  match o with missing | not_open | active_conflict | advanced _ => True | _ => False end.

Section Truth.
Context {E : Type} `{!ScopeDeps E} (graph : ScopeWorkGraph E) (policy : FullstackScopePolicy) (item session cwd : string)
  (view : E -> Entry) `{!ReadLaws graph policy item session cwd view}.
Abbreviation truth := (truth policy).
Abbreviation observe := (readObservation graph policy item session cwd).

Lemma caught_read {A} (m : Act E string A) f e : reads view m f ->
  twp (caught m) (fun r e' => view e' = view e /\ forall a, r = inl a -> a = f (view e)) e.
Proof.
  intros H. destruct (H e) as [Hv Ha]. unfold twp, caught. destruct (m e) as [[a|x] e']; eexists _, _; (split; [reflexivity|]);
    (split; [done|]); [|done]. intros b [= <-]. by apply Ha.
Qed.
Lemma observe_true e : twp observe (fun o e' => view e' = view e /\ (o = truth (view e) \/ exists why, o = unknown why)) e.
Proof.
  unfold readObservation. apply twp_bind. eapply twp_mono; [apply caught_read, rl_getIssue|].
  intros [i|x] e1 [Hv1 Hi]; [|apply twp_ret; eauto]. rewrite (Hi i eq_refl). clear Hi.
  apply twp_bind. eapply twp_mono; [apply caught_read, rl_readCheckpoint|].
  intros [c|x] e2 [Hv2 Hc]; [|apply twp_ret; split; [congruence|eauto]]. rewrite (Hc c eq_refl), Hv1. clear Hc.
  assert (view e2 = view e) as Hv by congruence. clear Hv1 Hv2.
  apply twp_bind. eapply (twp_mono _ (fun a e' => view e' = view e /\ (a = en_active (view e) \/ exists why, a = active_unknown why))).
  { destruct (rl_readActiveTask e2) as [Hv3 Ha]. rewrite Hv in Hv3, Ha. apply twp_try.
    - intros a e3 H. rewrite H in Hv3, Ha. auto.
    - intros x e3 H. rewrite H in Hv3. apply twp_ret. eauto. }
  intros a e3 [Hv3 Ha]. apply twp_bind.
  eapply (twp_mono _ (fun p e' => view e' = view e /\ (p = projected (view e) \/ exists why, p = fsm_unknown why))).
  { destruct (rl_readProjection e3) as [Hv4 Hp]. rewrite Hv3 in Hv4, Hp. apply twp_try.
    - intros p e4 (f & e5 & H & [= <- <-])%bind_ok_inv. rewrite H in Hv4, Hp. split; [done|]. left. unfold projected.
      by rewrite <- (Hp f eq_refl).
    - intros x e4 [(f & e5 & H & [=])|(y & H & [= <-])]%bind_inv. rewrite H in Hv4. apply twp_ret. eauto. }
  intros p e4 [Hv4 Hp]. apply twp_ret. split; [done|]. unfold ScopeProps.truth, classifyKnownEntry.
  destruct (en_issue (view e)) as [i0|]; [|auto]. destruct (negb _); [auto|]. destruct (en_checkpoint (view e)) as [c0|]; [|auto].
  destruct (negb _); [auto|]. destruct Ha as [->|[why ->]]; [|eauto]. destruct (en_active (view e)); [|auto..].
  destruct (conflicts _ _); [auto|]. destruct Hp as [->|[why ->]]; eauto.
Qed.
Lemma failed_truthful o v what : o = truth v \/ (exists why, o = unknown why) -> truthful policy item v (failedFromObservation item o what).
Proof.
  assert (forall d : DurableState, d <> at_item_only -> d <> at_checkpoint_ready ->
    (is_Some (@None string) <-> d = at_item_only \/ d = at_checkpoint_ready)) as Hnone by (split; [by intros []|by intros []]).
  assert (forall t, Some (recoveryFor item) = Some t -> is_item_id item = true -> parseFullstackScope t = scope_request (select item)) as Hsome
    by (intros t [= <-]; apply recovery_parses).
  intros Ho. destruct o; cbn; (split_and!; [done| |first [by apply Hnone|by split; [auto|eexists]]|first [done|exact Hsome]]).
  all: try done; destruct Ho as [Ho|[? [=]]]; rewrite <- Ho; eauto.
Qed.
Lemma rejection_truthful o v : untouchable o -> o = truth v -> truthful policy item v (rejectionForKnown item o).
Proof. intros Hu Ho. destruct o; try done; [by left|by right|by apply failed_truthful; left..]. Qed.
Lemma build_truthful s w attempt e r e' : (forall d, attempt <> attempt_done d) -> truth (view e) = obs_engaged s w ->
  build_context graph policy item session cwd (obs_engaged s w) s w attempt e = (r, e') ->
  view e' = view e /\ forall a, r = Ok a -> truthful policy item (view e') a.
Proof.
  intros Hat Ht H. apply bind_inv in H as [(f & e1 & Hf & H)|(x & Hf & ->)].
  all: destruct (rl_readProjection e) as [Hv1 _]; rewrite Hf in Hv1; cbn in Hv1.
  2: { split; [done|by intros a]. }
  destruct f as [f|].
  2: { injection H as <- <-. split; [done|]. intros a [= <-].
    apply (failed_truthful (obs_engaged s w) (view e1) ""). left. by rewrite Hv1. }
  apply bind_inv in H as [(ctx & e2 & Hc & H)|(x & Hc & ->)].
  all: pose proof (rl_buildContext f e1) as Hv2; rewrite Hc in Hv2; cbn in Hv2; rewrite Hv1 in Hv2.
  2: { split; [done|by intros a]. }
  destruct (observe_true e2) as (o & e3 & Ho & Hv3 & Hto). rewrite (bind_step _ _ _ _ _ Ho) in H. rewrite Hv2 in Hv3, Hto.
  destruct (match o with obs_engaged _ _ => _ | _ => false end) eqn:Es.
  2: { injection H as <- <-. split; [done|]. intros a [= <-]. rewrite Hv3. by apply failed_truthful. }
  apply bind_inv in H as [(i & e4 & Hi & H)|(x & Hi & ->)].
  all: destruct (rl_getIssue e3) as [Hv4 Hgi]; rewrite Hi in Hv4, Hgi; cbn in Hv4; rewrite Hv3 in Hv4.
  2: { split; [done|by intros a]. }
  rewrite Hv3 in Hgi. specialize (Hgi i eq_refl).
  destruct i as [i|]; [destruct (i_status i =? "open")%string eqn:Eo|]; injection H as <- <-; (split; [done|]); intros a [= <-].
  - rewrite attempt_finishes by done. cbn. rewrite Hv4. eauto.
  - right. rewrite Hv4. unfold ScopeProps.truth, classifyKnownEntry. by rewrite <- Hgi, Eo.
  - left. rewrite Hv4. unfold ScopeProps.truth, classifyKnownEntry. by rewrite <- Hgi.
Qed.
Lemma enter_truthful s w attempt e : (forall d, attempt <> attempt_done d) -> truth (view e) = obs_engaged s w ->
  twp (enter graph policy item session cwd (obs_engaged s w) s w attempt) (fun r e' => truthful policy item (view e') r) e.
Proof.
  intros Hat Ht. apply twp_try.
  - intros r e' H. destruct (build_truthful s w attempt e _ _ Hat Ht H) as [_ Hr]. by apply Hr.
  - intros x e' H. destruct (build_truthful s w attempt e _ _ Hat Ht H) as [Hv _]. apply twp_ret, failed_truthful. left. by rewrite Hv.
Qed.
Lemma rounds_truthful n : forall attempt e, (forall d, attempt <> attempt_done d) ->
  twp (rounds graph policy item session cwd n attempt)
    (fun r e' => truthful policy item (view e') r /\ (untouchable (truth (view e)) -> view e' = view e)) e.
Proof.
  induction n as [|n IH]; intros attempt e Hat; cbn [rounds].
  { apply twp_ret. split; [|done]. cbn. split_and!; [done|done|split; [by intros []|by intros []]|done]. }
  apply twp_bind. eapply twp_mono; [apply observe_true|]. intros o e1 [Hv1 Ho]. cbv zeta.
  assert (forall attempt e1, (forall d, attempt <> attempt_done d) -> ~ untouchable (truth (view e)) ->
    twp (rounds graph policy item session cwd n attempt) (fun r e' => truthful policy item (view e') r /\
      (untouchable (truth (view e)) -> view e' = view e)) e1) as Hnext.
  { intros at' e2 Hat' Hn. eapply twp_mono; [by apply IH|]. intros r e' [Hr _]. by split. }
  assert (forall target what m, ~ untouchable (truth (view e)) ->
    twp (write_then graph policy item session cwd (rounds graph policy item session cwd n) o (advanceAttemptTo attempt target) what m)
      (fun r e' => truthful policy item (view e') r /\ (untouchable (truth (view e)) -> view e' = view e)) e1) as Hwrite.
  { intros target what m Hn. unfold write_then. apply twp_bind. unfold twp at 1, caught.
    destruct (m e1) as [[[]|x] e2]; eexists _, _; (split; [reflexivity|]).
    - apply Hnext; [|done]. intros d. by apply advance_not_done.
    - apply twp_bind. eapply twp_mono; [apply observe_true|]. intros o2 e3 [Hv3 Ho2]. destruct (same_kind o2 o).
      + apply twp_ret. split; [|done]. rewrite Hv3. by apply failed_truthful.
      + apply Hnext; [|done]. intros d. by apply advance_not_done. }
  destruct o eqn:Eo; try (destruct Ho as [Ho|[why [=]]]).
  1, 2, 6, 7: apply twp_ret; split; [apply rejection_truthful; [done|by rewrite Hv1]|done].
  1, 2, 3: apply Hwrite; rewrite <- Ho; by intros [].
  - eapply twp_mono; [apply enter_truthful|].
    + intros d. by apply advance_not_done.
    + by rewrite Hv1.
    + intros r e' Hr. split; [done|]. rewrite <- Ho. by intros [].
  - apply twp_ret. split; [|done]. apply failed_truthful. left. by rewrite Hv1.
  - apply twp_ret. split; [|done]. apply failed_truthful. eauto.
Qed.
End Truth.

(** ** When nothing fails *)
Definition set_checkpoint (stage : string) (v : Entry) : Entry :=
  {| en_issue := en_issue v; en_checkpoint := Some {| tc_stage := stage; tc_scopeArtifacts := [] |};
     en_active := en_active v; en_projection := en_projection v |}.
Definition set_active (t : ActiveTask) (v : Entry) : Entry :=
  {| en_issue := en_issue v; en_checkpoint := en_checkpoint v; en_active := active_present t; en_projection := en_projection v |}.
Definition set_projection (f : FsmStateFile) (v : Entry) : Entry :=
  {| en_issue := en_issue v; en_checkpoint := en_checkpoint v; en_active := en_active v; en_projection := Some f |}.
(** Every read answers what is there, and it is the item's. *)
Class ReadsAnswer {E} `{!ScopeDeps E} (graph : ScopeWorkGraph E) (policy : FullstackScopePolicy) (item session cwd : string) (view : E -> Entry) := {
  el_id : forall e i, en_issue (view e) = Some i -> i_id i = item;
  el_getIssue : forall e, twp (wg_getIssue graph item) (fun a e' => a = en_issue (view e) /\ view e' = view e) e;
  el_readCheckpoint : forall e, twp (sd_readCheckpoint cwd item) (fun a e' => a = en_checkpoint (view e) /\ view e' = view e) e;
  el_readActiveTask : forall e, twp (sd_readActiveTask session) (fun a e' => a = en_active (view e) /\ view e' = view e) e;
  el_readProjection : forall e, twp (sd_readProjection session (po_packId policy) item) (fun a e' => a = en_projection (view e) /\ view e' = view e) e;
}.
(** What the writes leave: a checkpoint where there is none, the active task,
    and, for a session whose active task has a checkpoint at the initial stage
    and no projection, the initial stage, with or without automation. *)
Definition wrote_checkpoint (stage : string) (v v' : Entry) : Prop := en_checkpoint v = None -> v' = set_checkpoint stage v.
Definition wrote_active (item : string) (t : ActiveTask) (v v' : Entry) : Prop := at_id t = item -> v' = set_active t v.
Definition wrote_projection (policy : FullstackScopePolicy) (item : string) (v v' : Entry) : Prop :=
  forall t c, en_active v = active_present t -> at_id t = item -> en_checkpoint v = Some c -> tc_stage c = po_initial policy ->
    en_projection v = None -> exists f, sf_state f = po_initial policy /\ v' = set_projection f v.
(** A write that reports success has written; one that throws may have. *)
Definition honest {E A} (view : E -> Entry) (m : Act E string A) (wrote : Entry -> Entry -> Prop) : Prop := forall e,
  match (m e).1 with
  | Ok _ => wrote (view e) (view (m e).2)
  | Err _ => view (m e).2 = view e \/ wrote (view e) (view (m e).2)
  end.
Class HonestWrites {E} `{!ScopeDeps E} (policy : FullstackScopePolicy) (item session cwd : string) (view : E -> Entry) := {
  hw_buildContext : forall f, keeps view (sd_buildContext session (po_packId policy) f);
  hw_recordSessionCwd : keeps view (sd_recordSessionCwd session cwd);
  hw_createCheckpoint : forall stage now, honest view (sd_createCheckpoint cwd item stage now) (wrote_checkpoint stage);
  hw_writeActiveTask : forall t, honest view (sd_writeActiveTask session t) (wrote_active item t);
  hw_initialize : forall now, honest view (sd_initializeV2Cartridges session now cwd) (wrote_projection policy item);
}.
(** The stores work: every read answers and every write succeeds. *)
Class EntryLaws {E} `{!ScopeDeps E} (graph : ScopeWorkGraph E) (policy : FullstackScopePolicy) (item session cwd : string) (view : E -> Entry) := {
  el_reads :: ReadsAnswer graph policy item session cwd view;
  el_buildContext : forall f, safe view (sd_buildContext session (po_packId policy) f);
  el_recordSessionCwd : safe view (sd_recordSessionCwd session cwd);
  el_createCheckpoint : forall stage now e, twp (sd_createCheckpoint cwd item stage now) (fun _ e' => wrote_checkpoint stage (view e) (view e')) e;
  el_writeActiveTask : forall t e, twp (sd_writeActiveTask session t) (fun _ e' => wrote_active item t (view e) (view e')) e;
  el_initialize : forall now e, twp (sd_initializeV2Cartridges session now cwd) (fun _ e' => wrote_projection policy item (view e) (view e')) e;
}.
(** An open item that is at the scope stage or nowhere. *)
Record enterable (policy : FullstackScopePolicy) (item : string) (v : Entry) : Prop := {
  eb_open : exists i, en_issue v = Some i /\ i_status i = "open" /\ i_id i = item;
  eb_checkpoint : forall c, en_checkpoint v = Some c -> tc_stage c = po_initial policy;
  eb_active : match en_active v with active_present t => conflicts t item = false | active_absent => True | active_unknown _ => False end;
  eb_projection : forall f, en_projection v = Some f -> sf_state f = po_initial policy;
}.

Section Answering.
Context {E : Type} `{!ScopeDeps E} (graph : ScopeWorkGraph E) (policy : FullstackScopePolicy) (item session cwd : string)
  (view : E -> Entry) `{!ReadsAnswer graph policy item session cwd view}.
Abbreviation truth := (truth policy).
Abbreviation observe := (readObservation graph policy item session cwd).
Lemma twp_caught_ok {A} (m : Act E string A) (Q : A -> E -> Prop) e : twp m Q e -> twp (caught m) (fun r e' => exists a, r = inl a /\ Q a e') e.
Proof. intros (a & e' & Hm & HQ). unfold twp, caught. rewrite Hm. eauto 6. Qed.
Lemma observe_exact e : twp observe (fun o e' => o = truth (view e) /\ view e' = view e) e.
Proof.
  unfold readObservation. apply twp_bind. eapply twp_mono; [apply twp_caught_ok, el_getIssue|]. intros r e1 (i & -> & -> & Hv1).
  apply twp_bind. eapply twp_mono; [apply twp_caught_ok, el_readCheckpoint|]. intros r e2 (c & -> & -> & Hv2).
  apply twp_bind, twp_try_ok. eapply twp_mono; [apply el_readActiveTask|]. intros a e3 [-> Hv3].
  apply twp_bind, twp_try_ok, twp_bind. eapply twp_mono; [apply el_readProjection|]. intros p e4 [-> Hv4]. apply twp_ret, twp_ret.
  rewrite Hv4, Hv3, Hv2, Hv1. done.
Qed.
Lemma same_writes_refl w : same_writes w w = true.
Proof. apply String.eqb_refl. Qed.
(** What is left to do, in rounds. *)
Definition todo_of (o : KnownEntryObservation) : nat :=
  match o with item_only => 3 | checkpoint_ready => 2 | projection_pending => 1 | _ => 0 end.
(** *** Reports when the reads answer *)
(** A report is indeterminate only where the records contradict themselves. *)
Definition exact (v : Entry) (r : FullstackScopeResult) : Prop :=
  forall what id recovery, r = res_failed what at_indeterminate id recovery -> exists why, truth v = unknown why.
Lemma failed_exact o v what : o <> missing -> o <> not_open -> o = truth v -> exact v (failedFromObservation item o what).
Proof. intros Hm Hn Ho w id rc H. destruct o; cbn in H; try done. rewrite <- Ho. by eexists. Qed.
Lemma rejection_exact o v : untouchable o -> o = truth v -> exact v (rejectionForKnown item o).
Proof. intros Hu Ho. destruct o; try done; by apply failed_exact. Qed.
Lemma build_exact s w attempt e r e' : (forall f, keeps view (sd_buildContext session (po_packId policy) f)) ->
  (forall d, attempt <> attempt_done d) -> truth (view e) = obs_engaged s w ->
  build_context graph policy item session cwd (obs_engaged s w) s w attempt e = (r, e') ->
  view e' = view e /\ forall a, r = Ok a -> exact (view e') a.
Proof.
  intros Hbuild Hat Ht. unfold build_context. destruct (el_readProjection e) as (p & e1 & Hp & -> & Hv1). rewrite (bind_step _ _ _ _ _ Hp).
  destruct (en_projection (view e)) as [f|].
  2: { intros [= <- <-]. split; [done|]. intros a [= <-]. by apply (failed_exact (obs_engaged s w)); [..|by rewrite Hv1]. }
  intros [(ctx & e2 & Hc & H)|(x & Hc & ->)]%bind_inv; pose proof (Hbuild f e1) as Hv2; rewrite Hc in Hv2; cbn in Hv2; rewrite Hv1 in Hv2.
  2: { split; [done|by intros a]. }
  destruct (observe_exact e2) as (o & e3 & Ho & -> & Hv3). rewrite (bind_step _ _ _ _ _ Ho) in H. rewrite Hv2 in Hv3, H.
  rewrite Ht, String.eqb_refl, same_writes_refl in H. cbn [andb] in H.
  destruct (el_getIssue e3) as (i & e4 & Hi & -> & Hv4). rewrite (bind_step _ _ _ _ _ Hi) in H. rewrite Hv3 in Hv4.
  destruct (en_issue _) as [i|]; [destruct (i_status i =? "open")%string|]; injection H as <- <-; (split; [done|]); intros a [= <-]; try done.
  rewrite attempt_finishes by done. done.
Qed.
Lemma enter_exact s w attempt e : (forall f, keeps view (sd_buildContext session (po_packId policy) f)) ->
  (forall d, attempt <> attempt_done d) -> truth (view e) = obs_engaged s w ->
  twp (enter graph policy item session cwd (obs_engaged s w) s w attempt) (fun r e' => exact (view e') r) e.
Proof.
  intros Hb Hat Ht. apply twp_try.
  - intros r e' H. destruct (build_exact s w attempt e _ _ Hb Hat Ht H) as [_ Hr]. by apply Hr.
  - intros x e' H. destruct (build_exact s w attempt e _ _ Hb Hat Ht H) as [Hv _]. apply twp_ret, failed_exact; [done..|by rewrite Hv].
Qed.
(** A write that has written is a round nearer. *)
Lemma after_checkpoint v v' : truth v = item_only -> wrote_checkpoint (po_initial policy) v v' -> todo_of (truth v') < 3.
Proof.
  unfold ScopeProps.truth, classifyKnownEntry. intros H Hw. destruct (en_issue v) as [i|] eqn:Ei; [|done]. destruct (negb _) eqn:Eo; [done|].
  destruct (en_checkpoint v) as [c|] eqn:Ec; [repeat case_match; done|]. rewrite (Hw Ec). cbn. rewrite Ei, Eo, String.eqb_refl. cbn.
  repeat case_match; cbn; lia.
Qed.
Lemma after_active v v' t : truth v = checkpoint_ready -> at_id t = item -> at_taskId t = None -> wrote_active item t v v' ->
  (forall i, en_issue v = Some i -> i_id i = item) -> todo_of (truth v') < 2.
Proof.
  unfold ScopeProps.truth, classifyKnownEntry. intros H Ht Hk Hw Hid. destruct (en_issue v) as [i|] eqn:Ei; [|done]. destruct (negb _) eqn:Eo; [done|].
  destruct (en_checkpoint v) as [c|] eqn:Ec; [|done]. destruct (negb (tc_stage c =? _)%string) eqn:Es; [by destruct (set_has _ _)|].
  rewrite (Hw Ht). cbn. rewrite Ei, Eo, Ec, Es. repeat case_match; cbn; lia.
Qed.
Lemma after_projection v v' : truth v = projection_pending -> wrote_projection policy item v v' ->
  (forall i, en_issue v = Some i -> i_id i = item) -> todo_of (truth v') < 1.
Proof.
  unfold ScopeProps.truth, classifyKnownEntry, projected. intros H Hw Hid. destruct (en_issue v) as [i|] eqn:Ei; [|done]. destruct (negb _) eqn:Eo; [done|].
  destruct (en_checkpoint v) as [c|] eqn:Ec; [|done]. destruct (negb (tc_stage c =? _)%string) eqn:Es; [by destruct (set_has _ _)|].
  destruct (en_active v) as [t| |] eqn:Ea; [|done..]. destruct (conflicts t (i_id i)) eqn:Ek; [done|].
  destruct (en_projection v) as [f|] eqn:Ep; [by destruct (sf_state f =? tc_stage c)%string|].
  pose proof Es as Ec'. apply negb_false_iff, String.eqb_eq in Ec'. pose proof Ek as Et. unfold conflicts in Et.
  apply orb_false_iff in Et as [Et%negb_false_iff%String.eqb_eq _]. rewrite (Hid i eq_refl) in Et.
  destruct (Hw t c) as (f & Hf & ->); try done. cbn. rewrite Ei, Eo, Ec, Es, Ea, Ek, Hf, Ec', String.eqb_refl. cbn. lia.
Qed.
Context `{!HonestWrites policy item session cwd view}.
Lemma write_exact n o attempt what (m : Act E string unit) (wrote : Entry -> Entry -> Prop) e : (forall d, attempt <> attempt_done d) ->
  honest view m wrote -> truth (view e) = o -> 0 < todo_of o <= n -> (forall v', wrote (view e) v' -> todo_of (truth v') < todo_of o) ->
  (forall attempt e', (forall d, attempt <> attempt_done d) -> todo_of (truth (view e')) < n ->
     twp (rounds graph policy item session cwd n attempt) (fun r e' => exact (view e') r) e') ->
  twp (write_then graph policy item session cwd (rounds graph policy item session cwd n) o attempt what m) (fun r e' => exact (view e') r) e.
Proof.
  intros Hat Hm Ho Hn Hw Hnext. unfold write_then. apply twp_bind. specialize (Hm e). unfold twp at 1, caught.
  destruct (m e) as [[[]|x] e2]; cbn [fst snd] in Hm; eexists _, _; (split; [reflexivity|]).
  { apply Hnext; [done|]. specialize (Hw _ Hm). lia. }
  apply twp_bind. eapply twp_mono; [apply observe_exact|]. intros o2 e3 [-> Hv3]. destruct Hm as [Hv2|Hwrote].
  - rewrite Hv2, Ho. rewrite Hv2 in Hv3. assert (same_kind o o = true) as -> by (destruct o; cbn in Hn; try lia; done).
    apply twp_ret, failed_exact; [intros ->; cbn in Hn; lia..|by rewrite Hv3].
  - apply Hw in Hwrote. destruct (same_kind (truth (view e2)) o) eqn:Es; [|apply Hnext; [done|rewrite Hv3; lia]].
    exfalso. destruct (truth (view e2)), o; cbn in *; try done; lia.
Qed.
Lemma honest_asks {A B} (f : E -> A) (m : A -> Act E string B) wrote : (forall a, honest view (m a) wrote) -> honest view (a ← asks f; m a) wrote.
Proof. intros H e. exact (H (f e) e). Qed.
Lemma honest_after {A B} (m : Act E string A) (k : A -> Act E string B) wrote :
  keeps view m -> (forall a, honest view (k a) wrote) -> honest view (m ≫= k) wrote.
Proof.
  intros Hm Hk e. specialize (Hm e). unfold mbind, act_bind. destruct (m e) as [[a|x] e1]; cbn in *; [|by left].
  specialize (Hk a e1). by rewrite Hm in Hk.
Qed.
Lemma rounds_exact n : forall attempt e, (forall d, attempt <> attempt_done d) -> todo_of (truth (view e)) < n ->
  twp (rounds graph policy item session cwd n attempt) (fun r e' => exact (view e') r) e.
Proof.
  induction n as [|n IH]; intros attempt e Hat Hn; [lia|]. cbn [rounds]. cbv zeta.
  apply twp_bind. eapply twp_mono; [apply observe_exact|]. intros o e1 [-> Hv1]. rewrite <- Hv1 in *. clear Hv1 e.
  pose proof (el_id e1) as Hid. destruct (truth (view e1)) as [| | | | | |s|s w|why] eqn:Et; cbn in Hn.
  1, 2, 6, 7: by apply twp_ret, rejection_exact.
  - eapply write_exact; [by intros d; apply advance_not_done|apply honest_asks; intros; apply hw_createCheckpoint|done|cbn; lia| |done].
    intros v'. by apply after_checkpoint.
  - eapply (write_exact _ _ _ _ _ (fun v v' => exists t, (at_id t = item /\ at_taskId t = None) /\ wrote_active item t v v'));
      [by intros d; apply advance_not_done| |done|cbn; lia| |done].
    + apply honest_asks. intros now e. set (t := {| at_id := item; at_subject := item; at_started_at := now; at_taskId := None; at_spec := None |}).
      pose proof (hw_writeActiveTask t e) as H. destruct (sd_writeActiveTask session t e) as [[u|x] e']; cbn in *; [by exists t|].
      destruct H as [H|H]; [by left|right; by exists t].
    + intros v' (t & [Ht Hk] & Hw). by eapply after_active.
  - eapply write_exact; [by intros d; apply advance_not_done| |done|cbn; lia| |done].
    + apply honest_after; [apply hw_recordSessionCwd|]. intros _. apply honest_asks. intros now. apply hw_initialize.
    + intros v' Hw. by eapply after_projection.
  - apply enter_exact; [apply hw_buildContext|by intros d; apply advance_not_done|done].
  - apply twp_ret, failed_exact; done.
Qed.
End Answering.

(** ** What a report promises *)
Section Report.
Context {E : Type} `{!ScopeDeps E} (graph : ScopeWorkGraph E) (policy : FullstackScopePolicy) (item session cwd : string)
  (view : E -> Entry) `{!ReadLaws graph policy item session cwd view}.
Abbreviation truth := (truth policy).
(** C19: an entry reports what it leaves.  Whatever its writes do, whether they
    fail, fail after having written, or write something else, and whichever
    reads throw, entering a known item ends within eight rounds without
    throwing, and its report is true of the records: an item said to be
    engaged is, a durable state said to be left is the one left, and a
    recovery is named for exactly the states that can be retried and is the
    command that retries this item.  Records of an item that is gone, closed,
    already past scope, or in conflict are not touched.  When moreover the
    reads answer and a write that reports success has written, while one that
    throws has written or not, the report is indeterminate only where the
    records contradict themselves. *)
Theorem entry_reports_truth (attempt : ScopeEntryAttempt) (e : E) :
  (forall d, attempt <> attempt_done d) ->
  exists r e', executeKnown graph policy item session cwd attempt e = (Ok r, e') /\ truthful policy item (view e') r /\
    (untouchable (truth (view e)) -> view e' = view e) /\
    (ReadsAnswer graph policy item session cwd view -> HonestWrites policy item session cwd view ->
       forall what id recovery, r = res_failed what at_indeterminate id recovery -> exists why, truth (view e') = unknown why).
Proof.
  intros Hat. destruct (rounds_truthful graph policy item session cwd view 8 attempt e Hat) as (r & e' & Hr & Ht & Hu).
  exists r, e'. split_and!; [done..|]. intros Ha Hw.
  destruct (rounds_exact graph policy item session cwd view 8 attempt e Hat) as (r2 & e2 & Hr2 & Hx).
  { destruct (ScopeProps.truth policy (view e)); cbn; lia. }
  rewrite Hr in Hr2. by injection Hr2 as <- <-.
Qed.
End Report.


Section Converge.
Context {E : Type} `{!ScopeDeps E} (graph : ScopeWorkGraph E) (policy : FullstackScopePolicy) (item session cwd : string)
  (view : E -> Entry) `{!EntryLaws graph policy item session cwd view}.
Abbreviation truth := (truth policy).
Abbreviation observe := (readObservation graph policy item session cwd).
Lemma truth_enterable v : enterable policy item v ->
  truth v = match en_checkpoint v, en_active v, en_projection v with
            | None, _, _ => item_only
            | Some _, active_absent, _ => checkpoint_ready
            | Some _, _, None => projection_pending
            | Some _, _, Some _ => obs_engaged (po_initial policy) (po_writes policy (po_initial policy))
            end.
Proof.
  intros [(i & Hi & Ho & Hid) Hc Ha Hp]. unfold ScopeProps.truth, classifyKnownEntry, projected. rewrite Hi, Ho, Hid. cbn.
  destruct (en_checkpoint v) as [c|]; [|done]. rewrite (Hc c eq_refl), String.eqb_refl. cbn.
  destruct (en_active v) as [t| |]; [|done..]. rewrite Ha. destruct (en_projection v) as [f|]; [|done].
  by rewrite (Hp f eq_refl), String.eqb_refl.
Qed.
(** The records after each write are one round nearer. *)
Lemma enterable_checkpoint v : enterable policy item v -> en_checkpoint v = None ->
  enterable policy item (set_checkpoint (po_initial policy) v) /\ todo_of (truth (set_checkpoint (po_initial policy) v)) < 3.
Proof.
  intros He Hn. assert (enterable policy item (set_checkpoint (po_initial policy) v)) as He'.
  { destruct He as [Hop _ Ha Hp]. split; [done| |done..]. by intros c [= <-]. }
  split; [done|]. rewrite truth_enterable by done. cbn. destruct (en_active v), (en_projection v); cbn; lia.
Qed.
Lemma enterable_active v t : enterable policy item v -> is_Some (en_checkpoint v) -> conflicts t item = false ->
  enterable policy item (set_active t v) /\ todo_of (truth (set_active t v)) < 2.
Proof.
  intros He [c Hc] Ht. assert (enterable policy item (set_active t v)) as He' by by destruct He.
  split; [done|]. rewrite truth_enterable by done. cbn. rewrite Hc. destruct (en_projection v); cbn; lia.
Qed.
Lemma enterable_projection v t c f : enterable policy item v -> en_active v = active_present t -> en_checkpoint v = Some c ->
  sf_state f = tc_stage c -> enterable policy item (set_projection f v) /\ todo_of (truth (set_projection f v)) < 1.
Proof.
  intros He Ha Hc Hf. assert (enterable policy item (set_projection f v)) as He'.
  { destruct He as [Hop Hic Hia Hp]. split; [done..|]. intros g [= <-]. by rewrite Hf, (Hic c Hc). }
  split; [done|]. rewrite truth_enterable by done. cbn. rewrite Hc, Ha. cbn. lia.
Qed.
Definition engages (i : Issue) (v : Entry) (r : FullstackScopeResult) : Prop :=
  (exists ctx, r = res_engaged item ctx ("Begin interactive SCOPE for WorkGraph item " +:+ item +:+ ": " +:+ i_title i)) /\
  enterable policy item v /\ todo_of (truth v) = 0.
Lemma enter_engages i s w attempt e : (forall d, attempt <> attempt_done d) -> enterable policy item (view e) ->
  en_issue (view e) = Some i -> truth (view e) = obs_engaged s w -> is_Some (en_projection (view e)) ->
  twp (enter graph policy item session cwd (obs_engaged s w) s w attempt) (fun r e' => engages i (view e') r) e.
Proof.
  intros Hat He Hi Ht [f Hf]. apply twp_try_ok, twp_bind. eapply twp_mono; [apply el_readProjection|]. intros p e1 [-> Hv1]. rewrite Hf.
  apply twp_bind. eapply twp_safe; [apply el_buildContext|]. intros ctx e2 Hv2.
  apply twp_bind. eapply twp_mono; [apply (observe_exact graph policy item session cwd view)|]. intros o e3 [-> Hv3].
  assert (view e3 = view e) as Hv by congruence. rewrite <- Hv3, Hv, Ht, String.eqb_refl, same_writes_refl. cbn [andb].
  apply twp_bind. eapply twp_mono; [apply el_getIssue|]. intros j e4 [-> Hv4]. rewrite Hv in Hv4 |- *. rewrite Hi.
  destruct (eb_open _ _ _ He) as (i' & Hi' & Ho & _). rewrite Hi in Hi'. injection Hi' as <-. rewrite Ho. cbn [String.eqb].
  apply twp_ret. rewrite attempt_finishes by done. rewrite Hv4. split_and!; [by eexists|done|by rewrite Ht].
Qed.
Lemma write_engages i n o attempt what (m : Act E string unit) e : (forall d, attempt <> attempt_done d) ->
  (forall attempt e', (forall d, attempt <> attempt_done d) -> enterable policy item (view e') -> en_issue (view e') = Some i ->
     todo_of (truth (view e')) < n -> twp (rounds graph policy item session cwd n attempt) (fun r e' => engages i (view e') r) e') ->
  twp m (fun _ e' => (enterable policy item (view e') /\ todo_of (truth (view e')) < n) /\ en_issue (view e') = Some i) e ->
  twp (write_then graph policy item session cwd (rounds graph policy item session cwd n) o attempt what m) (fun r e' => engages i (view e') r) e.
Proof.
  intros Hat Hnext Hm. apply twp_bind. eapply twp_mono; [by apply twp_caught_ok|]. intros r e' ([] & -> & [He Ht] & Hi). by apply Hnext.
Qed.
Lemma rounds_engage n : forall attempt e i, (forall d, attempt <> attempt_done d) -> enterable policy item (view e) ->
  en_issue (view e) = Some i -> todo_of (truth (view e)) < n ->
  twp (rounds graph policy item session cwd n attempt) (fun r e' => engages i (view e') r) e.
Proof.
  induction n as [|n IH]; intros attempt e i Hat He Hi Hn; [lia|]. cbn [rounds]. cbv zeta.
  apply twp_bind. eapply twp_mono; [apply (observe_exact graph policy item session cwd view)|]. intros o e1 [-> Hv1]. rewrite <- Hv1 in *. clear Hv1 e.
  pose proof (truth_enterable _ He) as Ht. rewrite Ht in Hn |- *. pose proof (eb_active _ _ _ He) as Ha.
  destruct (en_checkpoint (view e1)) as [c|] eqn:Ec; [destruct (en_active (view e1)) as [t| |] eqn:Ea; [|clear Ha|done]|].
  - destruct (en_projection (view e1)) as [f|] eqn:Ep; [by apply enter_engages; [intros d; apply advance_not_done| | | |rewrite Ep]|].
    apply write_engages; [by intros d; apply advance_not_done|by intros; apply IH|]. apply twp_bind.
    eapply twp_safe; [apply el_recordSessionCwd|]. intros _ e2 Hv2. apply twp_bind, twp_asks.
    eapply twp_mono; [apply el_initialize|].
    intros u e3 Hw. rewrite Hv2 in Hw. destruct (Hw t c) as (f & Hf & Hv3); try done.
    { unfold conflicts in Ha. apply orb_false_iff in Ha as [Ha _]. by apply negb_false_iff, String.eqb_eq in Ha. }
    { by apply (eb_checkpoint _ _ _ He). }
    rewrite Hv3. split; [|done]. destruct (enterable_projection (view e1) t c f) as [H1 H2]; [done..| |].
    { by rewrite Hf, (eb_checkpoint _ _ _ He c Ec). }
    split; [done|]. cbn in Hn. lia.
  - apply write_engages; [by intros d; apply advance_not_done|by intros; apply IH|]. apply twp_bind, twp_asks.
    eapply twp_mono; [apply el_writeActiveTask|]. intros u e3 Hw. unfold wrote_active in Hw. rewrite (Hw eq_refl). split; [|done].
    match goal with |- context [set_active ?t _] => destruct (enterable_active (view e1) t) as [H1 H2] end;
      [done|by rewrite Ec|unfold conflicts; cbn; by rewrite String.eqb_refl|]. split; [done|]. cbn in Hn. lia.
  - apply write_engages; [by intros d; apply advance_not_done|by intros; apply IH|]. apply twp_bind, twp_asks.
    eapply twp_mono; [apply el_createCheckpoint|]. intros u e3 Hw. unfold wrote_checkpoint in Hw. rewrite (Hw Ec). split; [|done].
    destruct (enterable_checkpoint (view e1)) as [H1 H2]; [done..|]. split; [done|]. cbn in Hn. lia.
Qed.
(** Where nothing is left to do, the session's engagement is the item's. *)
Lemma engaged_resolves v e : is_item_id item = true -> set_has (po_initial policy) (po_states policy) = true ->
  enterable policy item v -> todo_of (truth v) = 0 -> view e = v ->
  (forall e, twp (sd_resolvePolicy session cwd) (fun p e' => p = Some policy /\ view e' = view e) e) ->
  (forall e, twp (sd_openWorkGraph cwd) (fun g e' => g = graph /\ view e' = view e) e) ->
  twp (resolveFullstackScopeEngagement session cwd)
    (fun g e' => g = engaged item (po_initial policy) (po_writes policy (po_initial policy)) /\ view e' = v) e.
Proof.
  intros Hid Hst He Ht <- Hpol Hgr. rewrite truth_enterable in Ht by done. pose proof He as [(i & Hi & Ho & Hii) Hc Ha Hp].
  destruct (en_checkpoint (view e)) as [c|] eqn:Ec; [|done]. destruct (en_active (view e)) as [t| |] eqn:Ea; [|done..].
  destruct (en_projection (view e)) as [f|] eqn:Ep; [|done]. clear Ht.
  unfold conflicts in Ha. apply orb_false_iff in Ha as [Hat Hk]. apply negb_false_iff, String.eqb_eq in Hat.
  apply twp_bind, twp_try_ok. eapply twp_mono; [apply el_readActiveTask|]. intros a e1 [-> Hv1]. rewrite Ea. cbv zeta.
  rewrite Hat, Hid. cbn [negb]. rewrite Hat in Hk. rewrite Hk.
  apply twp_bind. eapply twp_mono; [apply twp_caught_ok, Hpol|]. intros r e2 (p & -> & -> & Hv2).
  apply twp_bind. eapply twp_mono; [apply twp_caught_ok, Hgr|]. intros r e3 (g & -> & -> & Hv3).
  apply twp_bind. eapply twp_mono; [apply twp_caught_ok, el_getIssue|]. intros r e4 (j & -> & -> & Hv4).
  assert (view e3 = view e) as -> by congruence. rewrite Hi, Ho, Hii, !String.eqb_refl. cbn [negb].
  apply twp_bind. eapply twp_mono; [apply twp_caught_ok, el_readCheckpoint|]. intros r e5 (k & -> & -> & Hv5).
  assert (view e4 = view e) as -> by congruence. rewrite Ec. rewrite (Hc c eq_refl), Hst. cbn [negb].
  apply twp_bind. eapply twp_mono; [apply twp_caught_ok, el_readProjection|]. intros r e6 (q & -> & -> & Hv6).
  assert (view e5 = view e) as -> by congruence. rewrite Ep, (Hp f eq_refl), String.eqb_refl.
  apply twp_ret. split; [done|congruence].
Qed.
(** C20: selecting an item enters scope.  When the stores work (every read
    answers, every write succeeds), the pack's policy and the project's graph
    can be read, and the pack declares its initial stage, [/scope --item] of an
    open item that is nowhere or still at the scope stage, in a session with
    no other active task, takes it from wherever an earlier attempt left
    it to the engaged stage, and the engagement that confines the session's
    edits from then on is that of this item, at the pack's initial stage, with
    that stage's lane; entered again it answers the same. *)
Theorem scope_entry_engages (raw : string) (i : Issue) (e : E) :
  is_item_id item = true -> parseFullstackScope raw = scope_request (select item) ->
  set_has (po_initial policy) (po_states policy) = true ->
  (forall e, twp (sd_resolvePolicy session cwd) (fun p e' => p = Some policy /\ view e' = view e) e) ->
  (forall e, twp (sd_openWorkGraph cwd) (fun g e' => g = graph /\ view e' = view e) e) ->
  enterable policy item (view e) -> en_issue (view e) = Some i ->
  exists ctx e1 e2, execute raw session cwd e =
      (Ok (res_engaged item ctx ("Begin interactive SCOPE for WorkGraph item " +:+ item +:+ ": " +:+ i_title i)), e1) /\
    resolveFullstackScopeEngagement session cwd e1 =
      (Ok (engaged item (po_initial policy) (po_writes policy (po_initial policy))), e2) /\
    truth (view e1) = obs_engaged (po_initial policy) (po_writes policy (po_initial policy)) /\ enterable policy item (view e2).
Proof.
  intros Hid Hraw Hst Hpol Hgr He Hi.
  assert (twp (execute raw session cwd) (fun r e' => engages i (view e') r) e) as (r & e1 & Hr & [ctx ->] & He1 & Ht1).
  { unfold execute. rewrite Hraw. cbv zeta.
    apply twp_bind. eapply twp_mono; [apply twp_caught_ok, Hpol|]. intros r e2 (p & -> & -> & Hv2).
    apply twp_bind. eapply twp_mono; [apply twp_caught_ok, Hgr|]. intros r e3 (g & -> & -> & Hv3).
    apply twp_bind, twp_ret. assert (view e3 = view e) as Hv by congruence.
    apply rounds_engage; [done|by rewrite Hv..|]. destruct (truth (view e3)); cbn; lia. }
  destruct (engaged_resolves (view e1) e1) as (g & e2 & Hg & -> & Hv2); [done..|].
  exists ctx, e1, e2. split_and!; [done..| |by rewrite Hv2].
  rewrite truth_enterable in Ht1 |- * by done. by destruct (en_checkpoint (view e1)), (en_active (view e1)), (en_projection (view e1)).
Qed.
End Converge.
