(* ===== verification/ScopeQueue.v ===== *)
(** * Turns at the scope command ([serialized] in fullstack_scope.ts)

    Calls of one session and directory run one after the other: each waits for
    the promise the call before it left in a map, and the entry is dropped by
    the call that finds itself the last. *)

From Stdlib Require Import Ascii String.
From stdpp Require Import base option list strings gmap.
From S2P Require Import Prelude.

Inductive Phase := waiting | running | released.
#[export] Instance Phase_eq_dec : EqDecision Phase.
Proof. solve_decision. Defined.
(** A call: its key, the call whose promise it waits for, how far it is.  Calls
    are numbered as they come. *)
Record Turn := { tn_key : string; tn_prior : option nat; tn_phase : Phase }.
Record Queues := { q_turns : list Turn; q_last : gmap string nat }.
Definition no_calls : Queues := {| q_turns := []; q_last := ∅ |}.
Definition with_phase (p : Phase) (t : Turn) : Turn := {| tn_key := tn_key t; tn_prior := tn_prior t; tn_phase := p |}.

(** [queued = prior.then(() => current)] has resolved.  A prior call came
    earlier, so [S n] turns of the chain suffice for call [n]. *)
Fixpoint resolved_in (fuel : nat) (q : Queues) (n : nat) : bool :=
  match fuel with
  | O => false
  | S fuel =>
      match q_turns q !! n with
      | None => false
      | Some t => bool_decide (tn_phase t = released) &&
                  match tn_prior t with None => true | Some p => resolved_in fuel q p end
      end
  end.
Definition resolved (q : Queues) (n : nat) : bool := resolved_in (S n) q n.

Inductive Event := arrives (key : string) | starts (n : nat) | ends (n : nat).
Definition step (q : Queues) (ev : Event) : option Queues :=
  match ev with
  | arrives key =>
      Some {| q_turns := q_turns q ++ [{| tn_key := key; tn_prior := q_last q !! key; tn_phase := waiting |}];
              q_last := <[key := List.length (q_turns q)]> (q_last q) |}
  | starts n =>
      t ← q_turns q !! n;
      if bool_decide (tn_phase t = waiting) && match tn_prior t with None => true | Some p => resolved q p end
      then Some {| q_turns := <[n := with_phase running t]> (q_turns q); q_last := q_last q |}
      else None
  | ends n =>
      t ← q_turns q !! n;
      if bool_decide (tn_phase t = running)
      then Some {| q_turns := <[n := with_phase released t]> (q_turns q);
                   q_last := if bool_decide (q_last q !! tn_key t = Some n) then delete (tn_key t) (q_last q) else q_last q |}
      else None
  end.
Inductive reachable : Queues -> Prop :=
| reach_start : reachable no_calls
| reach_step q ev q' : reachable q -> step q ev = Some q' -> reachable q'.

(** Every call of the key before [n] has released it. *)
Definition earlier_released (q : Queues) (key : string) (n : nat) : Prop :=
  forall m t, m < n -> q_turns q !! m = Some t -> tn_key t = key -> tn_phase t = released.
Record Inv (q : Queues) : Prop := {
  inv_prior : forall n t p, q_turns q !! n = Some t -> tn_prior t = Some p ->
    p < n /\ (exists u, q_turns q !! p = Some u /\ tn_key u = tn_key t) /\
    forall m u, p < m < n -> q_turns q !! m = Some u -> tn_key u <> tn_key t;
  inv_first : forall n t, q_turns q !! n = Some t -> tn_prior t = None -> earlier_released q (tn_key t) n;
  inv_ran : forall n t, q_turns q !! n = Some t -> tn_phase t <> waiting -> earlier_released q (tn_key t) n;
  inv_last : forall key p, q_last q !! key = Some p -> (exists u, q_turns q !! p = Some u /\ tn_key u = key /\ tn_phase u <> released) /\
    forall m u, p < m -> q_turns q !! m = Some u -> tn_key u <> key;
  inv_none : forall key, q_last q !! key = None -> earlier_released q key (List.length (q_turns q));
}.
Lemma inv_released q p u m t : Inv q -> q_turns q !! p = Some u -> tn_phase u = released -> m <= p ->
  q_turns q !! m = Some t -> tn_key t = tn_key u -> tn_phase t = released.
Proof.
  intros Hi Hu Hr Hm Ht Hk. destruct (decide (m = p)) as [->|Hne]; [congruence|].
  apply (inv_ran q Hi p u Hu) with (m := m); [by rewrite Hr|lia|done|done].
Qed.
(** A promise has resolved exactly when its call and the earlier ones have. *)
Lemma resolved_spec q n t : Inv q -> q_turns q !! n = Some t -> resolved q n = true <-> tn_phase t = released.
Proof.
  intros Hi Ht. enough (forall fuel n t, n < fuel -> q_turns q !! n = Some t -> resolved_in fuel q n = true <-> tn_phase t = released) as H
    by (apply H; [lia|done]).
  clear n t Ht. induction fuel as [|fuel IH]; intros n t Hn Ht; [lia|]. cbn [resolved_in]. rewrite Ht.
  rewrite andb_true_iff, bool_decide_eq_true. split; [by intros [? _]|]. intros Hr. split; [done|].
  destruct (tn_prior t) as [p|] eqn:Ep; [|done]. destruct (inv_prior q Hi n t p Ht Ep) as (Hp & (u & Hu & Hk) & _).
  apply (IH p u); [lia|done|]. eapply inv_released; [done|exact Ht|done| |done|done]. lia.
Qed.
Lemma free_to_start q n t : Inv q -> q_turns q !! n = Some t ->
  (match tn_prior t with None => true | Some p => resolved q p end = true <-> earlier_released q (tn_key t) n).
Proof.
  intros Hi Ht. destruct (tn_prior t) as [p|] eqn:Ep; [|split; [intros _; by eapply inv_first|done]].
  destruct (inv_prior q Hi n t p Ht Ep) as (Hp & (u & Hu & Hk) & Hb). rewrite (resolved_spec q p u Hi Hu). split.
  - intros Hr m v Hm Hv Hkv. destruct (decide (p < m)) as [Hlt|Hge]; [by destruct (Hb m v)|].
    eapply inv_released; [done|exact Hu|done| |exact Hv|congruence]. lia.
  - intros He. by eapply He.
Qed.

Lemma inv_start : Inv no_calls.
Proof. split; cbn; [by intros n t p|by intros n t|by intros n t|by intros key p|by intros key _ m t Hm]. Qed.
Lemma inv_arrives q key q' : Inv q -> step q (arrives key) = Some q' -> Inv q'.
Proof.
  intros Hi [= <-]. set (new := {| tn_key := key; tn_prior := q_last q !! key; tn_phase := waiting |}).
  assert (forall m t, (q_turns q ++ [new]) !! m = Some t -> q_turns q !! m = Some t \/ (m = List.length (q_turns q) /\ t = new)) as Hin.
  { intros m t [H|[Hl H]]%lookup_app_Some; [by left|right]. apply list_lookup_singleton_Some in H as [H ->]. split; [lia|done]. }
  assert (forall m t, q_turns q !! m = Some t -> (q_turns q ++ [new]) !! m = Some t /\ m < List.length (q_turns q)) as Hold.
  { intros m t H. split; [by apply lookup_app_l_Some|by eapply lookup_lt_Some]. }
  assert (forall k n, n <= List.length (q_turns q) -> earlier_released q k n ->
    earlier_released {| q_turns := q_turns q ++ [new]; q_last := <[key := List.length (q_turns q)]> (q_last q) |} k n) as Hmono.
  { intros k n Hn H m t Hm [Ht|[-> _]]%Hin Hk; [by eapply H|lia]. }
  split; cbn [q_turns q_last].
  - intros n t p [Ht|[-> ->]]%Hin Hp.
    + destruct (inv_prior q Hi n t p Ht Hp) as (H1 & (u & Hu & Hk) & H3). split; [done|]. split; [exists u; by split; [apply Hold|]|].
      intros m v Hm [Hv|[-> _]]%Hin; [by eapply H3|]. apply Hold in Ht as [_ Ht]. lia.
    + cbn in Hp. destruct (inv_last q Hi key p Hp) as [(u & Hu & Hk & _) Hl]. pose proof (proj2 (Hold p u Hu)). split; [done|].
      split; [exists u; by split; [apply Hold|]|]. intros m v Hm [Hv|[-> _]]%Hin; [apply (Hl m); [lia|done]|lia].
  - intros n t [Ht|[-> ->]]%Hin Hp.
    + apply Hmono; [pose proof (proj2 (Hold n t Ht)); lia|by eapply inv_first].
    + apply Hmono; [done|]. by apply (inv_none q Hi).
  - intros n t [Ht|[-> ->]]%Hin Hp; [|done]. apply Hmono; [pose proof (proj2 (Hold n t Ht)); lia|by eapply inv_ran].
  - intros k p. rewrite lookup_insert. destruct (decide (key = k)) as [<-|Hk].
    + intros [= <-]. split; [exists new; split_and!; [|done|done]; by apply list_lookup_middle|].
      intros m u Hm [Hu|[-> _]]%Hin; [|lia]. apply Hold in Hu as [_ Hu]. lia.
    + intros Hp. destruct (inv_last q Hi k p Hp) as [(u & Hu & Hku & Hr) Hl]. split; [exists u; by split; [apply Hold|]|].
      intros m v Hm [Hv|[-> ->]]%Hin; [by eapply Hl|done].
  - intros k. rewrite lookup_insert. destruct (decide (key = k)) as [<-|Hk]; [done|]. intros Hn m t Hm [Ht|[-> ->]]%Hin Hkt; [|done].
    apply (inv_none q Hi k Hn m t); [by apply Hold in Ht as [_ ?]|done|done].
Qed.
(** What changing one call's phase keeps. *)
Lemma lookup_phase (l : list Turn) n t p m u : l !! n = Some t ->
  <[n := with_phase p t]> l !! m = Some u <-> exists v, l !! m = Some v /\ u = if decide (m = n) then with_phase p v else v.
Proof.
  intros Ht. pose proof (lookup_lt_Some _ _ _ Ht) as Hl. rewrite list_lookup_insert. destruct (decide (m = n)) as [->|Hne].
  - rewrite decide_True by done. rewrite Ht. split; [intros [= <-]; eauto|by intros (v & [= <-] & ->)].
  - rewrite decide_False by naive_solver. split; [eauto|by intros (v & Hv & ->)].
Qed.
Section PhaseChange.
Context (q : Queues) (n : nat) (t : Turn) (p : Phase) (last : gmap string nat).
Context (Hi : Inv q) (Ht : q_turns q !! n = Some t) (Hp : tn_phase t <> released).
Let q' : Queues := {| q_turns := <[n := with_phase p t]> (q_turns q); q_last := last |}.
Lemma phase_back m u : q_turns q' !! m = Some u -> exists v, q_turns q !! m = Some v /\ tn_key u = tn_key v /\ tn_prior u = tn_prior v /\
  (m = n /\ v = t /\ tn_phase u = p \/ m <> n /\ u = v).
Proof.
  intros (v & Hv & ->)%lookup_phase; [|done]. exists v. destruct (decide (m = n)) as [->|Hne]; split_and!; try done.
  - left. split_and!; [done|congruence|done].
  - by right.
Qed.
Lemma phase_forth m v : q_turns q !! m = Some v -> exists u, q_turns q' !! m = Some u /\ tn_key u = tn_key v /\ (m <> n -> u = v).
Proof.
  intros Hv. exists (if decide (m = n) then with_phase p v else v). split; [apply lookup_phase; eauto|]. by destruct (decide (m = n)).
Qed.
Lemma phase_earlier key m : earlier_released q key m -> earlier_released q' key m.
Proof.
  intros H k u Hk (v & Hv & Ekey & _ & [(-> & -> & _)|[_ ->]])%phase_back Hkey; [|by eapply H].
  destruct Hp. apply (H n t); [done..|congruence].
Qed.
Lemma phase_inv : (p <> waiting -> earlier_released q (tn_key t) n) ->
  (forall key k, last !! key = Some k -> q_last q !! key = Some k /\ (k = n -> p <> released)) ->
  (forall key, last !! key = None -> earlier_released q' key (List.length (q_turns q))) -> Inv q'.
Proof.
  intros Hran Hlast Hnone. split.
  - intros m u k (v & Hv & Hk & Hpr & _)%phase_back Hu. rewrite Hpr in Hu. destruct (inv_prior q Hi m v k Hv Hu) as (H1 & (w & Hw & Hkw) & H3).
    split; [done|]. split.
    + destruct (phase_forth k w Hw) as (w' & Hw' & Hkw' & _). exists w'. split; [done|congruence].
    + intros j x Hj (y & Hy & Hky & _)%phase_back. rewrite Hky, Hk. by eapply H3.
  - intros m u (v & Hv & Hk & Hpr & _)%phase_back Hu. rewrite Hk. apply phase_earlier. eapply inv_first; [done..|congruence].
  - intros m u (v & Hv & Hk & _ & [(-> & -> & Hpu)|[_ ->]])%phase_back Hu; rewrite ?Hk; apply phase_earlier.
    + apply Hran. congruence.
    + by eapply inv_ran.
  - intros key k Hk. apply Hlast in Hk as [Hk Hne]. destruct (inv_last q Hi key k Hk) as [(u & Hu & Hku & Hr) Hl]. split.
    + exists (if decide (k = n) then with_phase p u else u). split; [apply lookup_phase; eauto|].
      destruct (decide (k = n)) as [->|]; [|done]. split; [done|]. by apply Hne.
    + intros m x Hm (y & Hy & Hky & _)%phase_back. rewrite Hky. by eapply Hl.
  - intros key Hk. cbn. rewrite length_insert. by apply Hnone.
Qed.
End PhaseChange.
Lemma inv_starts q n q' : Inv q -> step q (starts n) = Some q' -> Inv q'.
Proof.
  intros Hi Hs. cbn -[resolved] in Hs. destruct (q_turns q !! n) as [t|] eqn:Ht; [|done]. cbn -[resolved] in Hs.
  case_bool_decide as Hw; [|done]. cbn [andb] in Hs. destruct (match tn_prior t with None => true | Some p => resolved q p end) eqn:Hf; [|done].
  injection Hs as <-. apply (free_to_start q n t Hi Ht) in Hf. assert (tn_phase t <> released) as Hne by by rewrite Hw.
  apply phase_inv; [done|done|done|done| |].
  - intros key k Hk. by split.
  - intros key Hk. apply phase_earlier; [done..|]. by eapply inv_none.
Qed.
Lemma inv_ends q n q' : Inv q -> step q (ends n) = Some q' -> Inv q'.
Proof.
  intros Hi Hs. cbn in Hs. destruct (q_turns q !! n) as [t|] eqn:Ht; [|done]. cbn in Hs. case_bool_decide as Hw; [|done].
  injection Hs as <-. assert (tn_phase t <> released) as Hne by by rewrite Hw.
  pose proof (inv_ran q Hi n t Ht ltac:(by rewrite Hw)) as Hran.
  apply phase_inv; [done..| |].
  - intros key k. case_bool_decide as Hl; [|intros Hk; split; [done|]; intros ->].
    + rewrite lookup_delete_Some. intros [Hk Hl']. split; [done|]. intros ->.
      destruct (inv_last q Hi key n Hl') as [(u & Hu & <- & _) _]. congruence.
    + destruct (inv_last q Hi key n Hk) as [(u & Hu & <- & _) _]. congruence.
  - intros key Hk. assert (q_last q !! key = None \/ key = tn_key t /\ q_last q !! key = Some n) as [Hn|[-> Hl]].
    { revert Hk. case_bool_decide as Hl; [|by left]. rewrite lookup_delete_None. intros [<-|?]; auto. }
    + apply phase_earlier; [done..|]. by eapply inv_none.
    + intros m u Hm (v & Hv & Hkv & _ & [(-> & -> & Hpu)|[Hmn ->]])%phase_back Hku; [done| |done].
      destruct (decide (m < n)) as [Hlt|Hge]; [by eapply Hran|].
      destruct (inv_last q Hi _ n Hl) as [_ Hl']. destruct (Hl' m v); [lia|done|congruence].
Qed.
Lemma reachable_inv q : reachable q -> Inv q.
Proof.
  induction 1 as [|q ev q' _ IH Hs]; [apply inv_start|]. destruct ev; [by eapply inv_arrives|by eapply inv_starts|by eapply inv_ends].
Qed.
(** C21: calls of the scope command take turns.  However calls arrive and end,
    a call runs, or has run, only when every earlier call with its key is over:
    no two of a key run at once and they run in the order they came.  The
    queue never sticks: the first call of a key that is not over runs or may
    start.  And it keeps an entry for exactly the keys with calls under way. *)
Theorem scope_calls_take_turns (q : Queues) :
  reachable q ->
  (forall n t, q_turns q !! n = Some t -> tn_phase t <> waiting -> earlier_released q (tn_key t) n) /\
  (forall n t, q_turns q !! n = Some t -> tn_phase t <> released -> earlier_released q (tn_key t) n ->
     tn_phase t = running \/ is_Some (step q (starts n))) /\
  (forall key, is_Some (q_last q !! key) <-> exists n t, q_turns q !! n = Some t /\ tn_key t = key /\ tn_phase t <> released).
Proof.
  intros Hi%reachable_inv. split_and!; [apply (inv_ran q Hi)| |].
  - intros n t Ht Hp He. destruct (tn_phase t) eqn:Ep; [right|by left|done]. cbn -[resolved]. rewrite Ht. cbn -[resolved]. rewrite bool_decide_true by done.
    apply (free_to_start q n t Hi Ht) in He. rewrite He. by eexists.
  - intros key. split.
    + intros [p Hp]. destruct (inv_last q Hi key p Hp) as [(u & Hu & Hk & Hr) _]. eauto.
    + intros (n & t & Ht & <- & Hr). destruct (q_last q !! tn_key t) as [p|] eqn:Hl; [done|]. destruct Hr.
      apply (inv_none q Hi _ Hl n t); [by eapply lookup_lt_Some|done|done].
Qed.
(** Three calls, two of one session: the second waits for the first. *)
Definition three_calls : list Event := [arrives "s1"; arrives "s1"; starts 0; arrives "s2"; starts 2; ends 0; starts 1].
Fixpoint play (q : Queues) (evs : list Event) : option Queues :=
  match evs with [] => Some q | ev :: evs => q ← step q ev; play q evs end.
Lemma play_reachable evs : forall q q', reachable q -> play q evs = Some q' -> reachable q'.
Proof.
  induction evs as [|ev evs IH]; intros q q' Hr Hp; [by injection Hp as <-|]. cbn in Hp.
  destruct (step q ev) as [q1|] eqn:Es; [|done]. eapply IH; [|exact Hp]. by eapply reach_step.
Qed.
Definition after_three : Queues := default no_calls (play no_calls three_calls).
Lemma scope_calls_take_turns_witness : tn_phase <$> q_turns after_three = [released; running; running] /\
  (forall n t, q_turns after_three !! n = Some t -> tn_phase t <> waiting -> earlier_released after_three (tn_key t) n).
Proof.
  split; [vm_compute; reflexivity|]. apply (scope_calls_take_turns after_three).
  apply (play_reachable three_calls no_calls); [constructor|vm_compute; reflexivity].
Defined.
