(* ===== verification/ScopeDemo.v ===== *)
(** * Entering scope over stores of one item

    The world is the records of one session and item; [faulty] says which write
    throws, and whether it wrote first. *)

From Stdlib Require Import Ascii String.
From stdpp Require Import base option list strings gmap.
From S2P Require Import Prelude Effects Json ExprSyntax Workgraph CheckpointStore FsmState PackCompile Fsm LapOutcome Shell Safety ScopeEntry ScopeProps.
#[local] Open Scope os_scope.

Inductive Fault := no_fault | checkpoint_lost | checkpoint_unconfirmed.
Definition item : string := "wg-0123456789ab".
Definition policy : FullstackScopePolicy :=
  {| po_packId := PACK_ID; po_initial := "scope"; po_states := ["scope"; "plan"; "code"];
     po_writes := fun s => if (s =? "scope")%string then ["docs/**"] else [] |}.
Definition graph : ScopeWorkGraph Entry := {|
  wg_createIssue _ := raise "read-only";
  wg_getIssue id := asks (fun v => i ← en_issue v; if (i_id i =? id)%string then Some i else None);
|}.
Definition project (v : Entry) : Entry :=
  match en_active v, en_checkpoint v, en_projection v with
  | active_present _, Some c, None => set_projection {| sf_state := tc_stage c; sf_started_at := ""; sf_history := [] |} v
  | _, _, _ => v
  end.
Definition stores (fault : Fault) : ScopeDeps Entry := {|
  sd_resolvePolicy _ _ := mret (Some policy);
  sd_openWorkGraph _ := mret graph;
  sd_readCheckpoint _ _ := asks en_checkpoint;
  sd_createCheckpoint _ _ stage _ :=
    match fault with
    | no_fault => does (set_checkpoint stage)
    | checkpoint_lost => raise "SQLITE_BUSY"
    | checkpoint_unconfirmed => does (set_checkpoint stage) ≫= fun _ => raise "SQLITE_BUSY"
    end;
  sd_readActiveTask _ := asks en_active;
  sd_writeActiveTask _ t := does (set_active t);
  sd_recordSessionCwd _ _ := mret tt;
  sd_initializeV2Cartridges _ _ _ := does project;
  sd_readProjection _ _ _ := asks en_projection;
  sd_buildContext _ _ f := mret ("at " +:+ sf_state f);
  sd_now _ := "2026-01-01T00:00:00.000Z";
  sd_nowMs _ := 0%Z;
|}.
Definition open_issue (id : string) : Issue :=
  {| i_id := id; i_title := "a task"; i_body := ""; i_status := "open"; i_createdAt := ""; i_updatedAt := "";
     i_claimToken := None; i_claimAudience := None; i_claimExpiresAt := None; i_wedgeReason := None; i_archiveReason := None |}.
Definition fresh : Entry :=
  {| en_issue := Some (open_issue item); en_checkpoint := None; en_active := active_absent; en_projection := None |}.
(** Only issues of the right id are found. *)
Definition seen (v : Entry) : Entry :=
  {| en_issue := i ← en_issue v; (if (i_id i =? item)%string then Some i else None); en_checkpoint := en_checkpoint v;
     en_active := en_active v; en_projection := en_projection v |}.

#[export] Instance stores_read fault : ReadLaws (ScopeDeps0 := stores fault) graph policy item "s" "/p" seen.
Proof.
  split; [..|by intros f].
  1, 2, 4: by intros v; split; [|intros a [= <-]].
  by intros v; split; [|intros a [= <-]; left].
Qed.
#[export] Instance stores_answer fault : ReadsAnswer (ScopeDeps0 := stores fault) graph policy item "s" "/p" seen.
Proof.
  split; cbn; try (intros v; apply twp_asks; done).
  intros v i. destruct (en_issue v) as [j|]; [|done]. cbn. destruct (i_id j =? item)%string eqn:E; [|done].
  intros [= <-]. by apply String.eqb_eq.
Qed.
Lemma projects v : wrote_projection policy item (seen v) (seen (project v)).
Proof. intros t c Ha _ Hc Hs Hp. unfold project. cbn in Ha, Hc, Hp. rewrite Ha, Hc, Hp. by exists {| sf_state := tc_stage c; sf_started_at := ""; sf_history := [] |}. Qed.
(** A checkpoint write that throws has written, or not. *)
#[export] Instance stores_honest fault : HonestWrites (ScopeDeps0 := stores fault) policy item "s" "/p" seen.
Proof.
  split; cbn; try (by intros f v); try (by intros v).
  - intros stage now v. unfold wrote_checkpoint. destruct fault; cbn; [done|by left|by right].
  - intros now v. apply projects.
Qed.
#[export] Instance stores_work : EntryLaws (ScopeDeps0 := stores no_fault) graph policy item "s" "/p" seen.
Proof.
  split; cbn; [apply stores_answer|intros f v; by eexists _, _|intros v; by eexists _, _|..].
  - intros stage now v. by apply twp_does.
  - intros t v. by apply twp_does.
  - intros now v. apply twp_does, projects.
Qed.

(** The store refuses the checkpoint: the item is where it was, and the report
    says so and names the command that tries again. *)
Lemma entry_reports_truth_witness : exists r e', executeKnown (ScopeDeps0 := stores checkpoint_lost) graph policy item "s" "/p" (attempt_at a_selected) fresh = (Ok r, e') /\
  truthful policy item (seen e') r /\ forall what id recovery, r <> res_failed what at_indeterminate id recovery.
Proof.
  destruct (entry_reports_truth (ScopeDeps0 := stores checkpoint_lost) graph policy item "s" "/p" seen (attempt_at a_selected) fresh)
    as (r & e' & Hr & Ht & _ & Hx); [done|].
  specialize (Hx (stores_answer checkpoint_lost) (stores_honest checkpoint_lost)).
  exists r, e'. split; [exact Hr|]. split; [exact Ht|]. intros what id recovery E. destruct (Hx what id recovery E) as [why Hw].
  assert (e' = fresh) as -> by (vm_compute in Hr; by injection Hr as _ <-). vm_compute in Hw. discriminate Hw.
Defined.
Lemma scope_entry_engages_witness : exists ctx e1 e2,
  execute (ScopeDeps0 := stores no_fault) (recoveryFor item) "s" "/p" fresh = (Ok (res_engaged item ctx ("Begin interactive SCOPE for WorkGraph item " +:+ item +:+ ": a task")), e1) /\
  resolveFullstackScopeEngagement (ScopeDeps0 := stores no_fault) "s" "/p" e1 = (Ok (engaged item "scope" ["docs/**"]), e2).
Proof.
  destruct (scope_entry_engages (ScopeDeps0 := stores no_fault) graph policy item "s" "/p" seen (recoveryFor item) (open_issue item) fresh)
    as (ctx & e1 & e2 & H1 & H2 & _); try reflexivity.
  - intros v. by eexists _, _.
  - intros v. by eexists _, _.
  - split; cbn; [exists (open_issue item); done|by intros c|done|by intros f].
  - exists ctx, e1, e2. split; [exact H1|exact H2].
Defined.

(** A checkpoint that is written before the store reports a fault is found by
    looking again; one that is not leaves the item where it was. *)
Lemma unconfirmed_write_goes_on :
  (execute (ScopeDeps0 := stores checkpoint_unconfirmed) (recoveryFor item) "s" "/p" fresh).1 =
    Ok (res_engaged item "at scope" ("Begin interactive SCOPE for WorkGraph item " +:+ item +:+ ": a task")) /\
  (execute (ScopeDeps0 := stores checkpoint_lost) (recoveryFor item) "s" "/p" fresh).1 =
    Ok (res_failed "scope checkpoint write failed: SQLITE_BUSY" at_item_only (Some item) (Some ("/scope --item " +:+ item))).
Proof. vm_compute. done. Qed.
