(* ===== verification/LoopEvents.v ===== *)
(** * The push log of the loop monitor ([src/src/runtime/loop/loop_events.ts])

    Every state change appends one [MonitorEvent] to the table [loop_events];
    consumers tail it.  A row is its cells by column name, a table the rows in
    the order of their [seq].  The schema guard installs indexes and triggers
    that make a scope-handoff receipt unique per item and per action, and
    immutable.  SHA-256 is a parameter. *)

From Stdlib Require Import Ascii String ZArith.
From stdpp Require Import base option list strings gmap pretty.
From S2P Require Import Prelude Effects Json.
#[local] Open Scope os_scope.
#[local] Open Scope Z_scope.

Abbreviation Stmt E := (Act E string).

(** ** Events *)
Inductive MonitorEventKind :=
| stage_advance | phase_enter | phase_leave | item_closed | item_shipped | item_wedged
| process_started | process_shutdown_pending | process_shutdown_requested | process_terminate_requested
| process_force_kill_requested | process_paused | process_resumed | process_exited | process_spawn_failed
| process_control_requested | process_control_applied | process_control_failed.
#[export] Instance MonitorEventKind_eq_dec : EqDecision MonitorEventKind.
Proof. solve_decision. Defined.
Definition kind_name (k : MonitorEventKind) : string :=
  match k with
  | stage_advance => "stage_advance" | phase_enter => "phase_enter" | phase_leave => "phase_leave"
  | item_closed => "item_closed" | item_shipped => "item_shipped" | item_wedged => "item_wedged"
  | process_started => "process_started" | process_shutdown_pending => "process_shutdown_pending"
  | process_shutdown_requested => "process_shutdown_requested" | process_terminate_requested => "process_terminate_requested"
  | process_force_kill_requested => "process_force_kill_requested" | process_paused => "process_paused"
  | process_resumed => "process_resumed" | process_exited => "process_exited" | process_spawn_failed => "process_spawn_failed"
  | process_control_requested => "process_control_requested" | process_control_applied => "process_control_applied"
  | process_control_failed => "process_control_failed"
  end.
Definition MONITOR_EVENT_KINDS : list MonitorEventKind :=
  [stage_advance; phase_enter; phase_leave; item_closed; item_shipped; item_wedged; process_started;
   process_shutdown_pending; process_shutdown_requested; process_terminate_requested; process_force_kill_requested;
   process_paused; process_resumed; process_exited; process_spawn_failed; process_control_requested;
   process_control_applied; process_control_failed].
(** The member of an enumeration a text names, [undefined] if none. *)
Definition named {A} (name : A -> string) (all : list A) (s : string) : option A :=
  snd <$> list_find (fun a => name a = s) all.
(** A [switch] on the kind of an event that was read. *)
Definition kind_of : string -> option MonitorEventKind := named kind_name MONITOR_EVENT_KINDS.

Inductive PhaseLifecycle := lc_running | lc_done.
Definition lifecycle_name (l : PhaseLifecycle) : string := match l with lc_running => "running" | lc_done => "done" end.
Inductive Ownership := control_root | owned.
Definition ownership_name (o : Ownership) : string := match o with control_root => "control_root" | owned => "owned" end.
Inductive HumanControlSurface := cli | tui | web.
Definition surface_name (s : HumanControlSurface) : string := match s with cli => "cli" | tui => "tui" | web => "web" end.
Inductive ScopeEvidenceKind := approval | legacy_repair.
Definition evidence_name (e : ScopeEvidenceKind) : string :=
  match e with approval => "approval" | legacy_repair => "legacy_repair" end.
Inductive HumanProcessAction := graceful_stop | terminate | force_kill | resume.
#[export] Instance HumanProcessAction_eq_dec : EqDecision HumanProcessAction.
Proof. solve_decision. Defined.
Definition action_name (a : HumanProcessAction) : string :=
  match a with graceful_stop => "graceful_stop" | terminate => "terminate" | force_kill => "force_kill" | resume => "resume" end.

(** The fields of [MonitorEvent], by what sets them.  A key that is absent
    and one that is [undefined] are [None]. *)
Record ItemFields := {
  ev_stage : option string; ev_phase : option string; ev_index : option Z; ev_total : option Z;
  ev_lifecycle : option PhaseLifecycle }.
Record ProcessFields := {
  ev_processId : option string; ev_ownership : option Ownership; ev_processInstanceId : option string;
  ev_runId : option string; ev_checkpointStage : option string; ev_lap : option Z; ev_role : option string;
  ev_pid : option Z; ev_processGroupId : option Z; ev_processStartIdentity : option string;
  ev_windowsJobName : option string; ev_windowsJobMetadata : option string;
  (** [number | null | undefined] *)
  ev_exitCode : option (option Z) }.
Record ActionFields := {
  ev_requestedBy : option HumanControlSurface; ev_authorizedBy : option string; ev_actionId : option string;
  ev_controlAction : option HumanProcessAction; ev_requestedAtMs : option Z; ev_appliedAtMs : option Z;
  ev_failedAtMs : option Z; ev_failure : option string }.
Record ScopeFields := {
  ev_scopeArtifactPath : option string; ev_scopeArtifactSha256 : option string;
  ev_scopeEvidenceKind : option ScopeEvidenceKind }.
Definition no_item : ItemFields := Build_ItemFields None None None None None.
Definition no_process : ProcessFields := Build_ProcessFields None None None None None None None None None None None None None.
Definition no_action : ActionFields := Build_ActionFields None None None None None None None None.
Definition no_scope : ScopeFields := Build_ScopeFields None None None.
(** The kind of an event that was read is whatever text the row held. *)
Record NewMonitorEvent := {
  ev_wgId : string; ev_kind : string; ev_item : ItemFields; ev_process : ProcessFields; ev_action : ActionFields;
  ev_scope : ScopeFields; ev_atMs : Z }.
Record MonitorEvent := { ev_seq : Z; ev_body :> NewMonitorEvent }.

(** ** The table *)
Inductive Cell := Null | Text (s : string) | Int (z : Z).
#[export] Instance Cell_eq_dec : EqDecision Cell.
Proof. solve_decision. Defined.
Definition Row : Type := list (string * Cell).
(** A column an older table had not is [NULL]. *)
Definition cell (r : Row) (column : string) : Cell := default Null (obj_get column r).
Definition text (o : option string) : Cell := match o with Some s => Text s | None => Null end.
Definition num (o : option Z) : Cell := match o with Some z => Int z | None => Null end.
(** [asOptStr] *)
Definition asOptStr (c : Cell) : option string := match c with Text s => Some s | _ => None end.
(** [r === null ? undefined : Number(r)], of an INTEGER column *)
Definition asOptNum (c : Cell) : option Z := match c with Int z => Some z | _ => None end.

Record LoopEvents := {
  le_rows : list (Z * Row);
  (** the last [seq] AUTOINCREMENT has given *)
  le_last : Z;
  (** the indexes and triggers are there *)
  le_guarded : bool }.
Definition no_events : LoopEvents := {| le_rows := []; le_last := 0; le_guarded := false |}.

(** ** Receipts *)
Definition SCOPE_HANDOFF : string := "scope-handoff:".
Definition SCOPE_HANDOFF_V1 : string := "scope-handoff:v1:".
Definition is_hex_lower (c : ascii) : bool :=
  let n := nat_of_ascii c in (Nat.leb 48 n && Nat.leb n 57) || (Nat.leb 97 n && Nat.leb n 102).
(** [NOT GLOB '*[^0-9a-f]*'] *)
Definition all_hex (s : string) : bool := forallb is_hex_lower (String.list_ascii_of_string s).
Definition hex64 (s : string) : bool := (String.length s =? 64)%nat && all_hex s.
Definition to_lower (c : ascii) : ascii :=
  let n := nat_of_ascii c in if (Nat.leb 65 n && Nat.leb n 90) then ascii_of_nat (n + 32) else c.
Fixpoint lower (s : string) : string :=
  match s with EmptyString => EmptyString | String c s => String (to_lower c) (lower s) end.
(** [action_id LIKE 'scope-handoff:%']: LIKE folds ASCII case, [NULL] is no match. *)
Definition in_namespace (r : Row) : bool :=
  match cell r "action_id" with Text a => starts_with (lower a) SCOPE_HANDOFF | _ => false end.
Definition receipt_action (c : Cell) : bool :=
  match c with
  | Text a => (String.length a =? 81)%nat && starts_with a SCOPE_HANDOFF_V1 && all_hex (String.substring 17 64 a)
  | _ => false
  end.
Definition SCOPE_HANDOFF_RECEIPT_PREDICATE (r : Row) : bool :=
  bool_decide (cell r "kind" = Text (kind_name stage_advance)) && receipt_action (cell r "action_id").
Definition nonempty (c : Cell) : bool := match c with Text s => negb (s =? "")%string | _ => false end.
Definition VALID_NEW_SCOPE_RECEIPT (r : Row) : bool :=
  SCOPE_HANDOFF_RECEIPT_PREDICATE r && nonempty (cell r "stage") && nonempty (cell r "scope_artifact_path") &&
  match cell r "scope_artifact_sha256" with Text d => hex64 d | _ => false end &&
  (bool_decide (cell r "scope_evidence_kind" = Text "approval") || bool_decide (cell r "scope_evidence_kind" = Text "legacy_repair")).

(** ** Statements *)
(** Both unique indexes are over the rows of the predicate. *)
Definition clashes (r r' : Row) : bool :=
  SCOPE_HANDOFF_RECEIPT_PREDICATE r && SCOPE_HANDOFF_RECEIPT_PREDICATE r' &&
  (bool_decide (cell r "action_id" = cell r' "action_id") || bool_decide (cell r "wg_id" = cell r' "wg_id")).
Definition statement (t : LoopEvents) (rows : list (Z * Row)) (last : Z) : result string unit * LoopEvents :=
  (Ok tt, {| le_rows := rows; le_last := last; le_guarded := le_guarded t |}).
Definition insert_row (row : Row) : Stmt LoopEvents unit := fun t =>
  if le_guarded t && in_namespace row && negb (VALID_NEW_SCOPE_RECEIPT row) then (Err "invalid scope-handoff receipt", t)
  else if le_guarded t && existsb (fun sr => clashes row sr.2) (le_rows t) then (Err "UNIQUE constraint failed", t)
  else statement t (le_rows t ++ [(le_last t + 1, row)]) (le_last t + 1).
(** Another client's plain INSERT, which may give the [seq] itself.  It is
    [triggered] unless it falls between the DROP and the CREATE of the insert
    trigger in some process's schema pass; the indexes are never dropped. *)
Fixpoint place (sr : Z * Row) (l : list (Z * Row)) : list (Z * Row) :=
  match l with [] => [sr] | x :: l => if sr.1 <? x.1 then sr :: x :: l else x :: place sr l end.
Definition client_insert (triggered : bool) (seq : option Z) (row : Row) : Stmt LoopEvents unit := fun t =>
  let s := default (le_last t + 1) seq in
  if triggered && le_guarded t && in_namespace row && negb (VALID_NEW_SCOPE_RECEIPT row) then (Err "invalid scope-handoff receipt", t)
  else if existsb (fun sr => sr.1 =? s) (le_rows t) || le_guarded t && existsb (fun sr => clashes row sr.2) (le_rows t)
  then (Err "UNIQUE constraint failed", t)
  else statement t (place (s, row) (le_rows t)) (Z.max (le_last t) s).
(** INSERT OR REPLACE: the rows in conflict go first, and no delete trigger
    fires for them ([recursive_triggers] is off). *)
Definition client_replace (row : Row) : Stmt LoopEvents unit := fun t =>
  if le_guarded t && in_namespace row && negb (VALID_NEW_SCOPE_RECEIPT row) then (Err "invalid scope-handoff receipt", t)
  else statement t (filter (fun sr => le_guarded t && clashes row sr.2 = false) (le_rows t) ++ [(le_last t + 1, row)]) (le_last t + 1).
(** Another client's UPDATE gives the rows it selects new cells; one guarded
    row aborts the statement. *)
Definition update_rows (f : Row -> option Row) : Stmt LoopEvents unit := fun t =>
  if le_guarded t && existsb (fun sr => match f sr.2 with Some r => in_namespace sr.2 || in_namespace r | None => false end) (le_rows t)
  then (Err "scope-handoff receipts are immutable", t)
  else statement t (map (fun sr => (sr.1, default sr.2 (f sr.2))) (le_rows t)) (le_last t).
Definition delete_rows (sel : Row -> bool) : Stmt LoopEvents unit := fun t =>
  if le_guarded t && existsb (fun sr => sel sr.2 && in_namespace sr.2) (le_rows t)
  then (Err "scope-handoff receipts are immutable", t)
  else statement t (filter (fun sr => sel sr.2 = false) (le_rows t)) (le_last t).
Definition rows_where (p : Row -> bool) (t : LoopEvents) : list (Z * Row) := filter (fun sr => p sr.2 = true) (le_rows t).

(** ** Reading and writing receipts *)
Record ScopeHandoffReceipt := {
  sr_seq : Z; sr_wgId : string; sr_actionId : string; sr_stage : string; sr_artifactPath : string;
  sr_artifactSha256 : string; sr_evidenceKind : ScopeEvidenceKind }.
Definition evidence_of (s : string) : option ScopeEvidenceKind := named evidence_name [approval; legacy_repair] s.

Section Receipts.
(** [createHash('sha256').update(text, 'utf8').digest('hex')] *)
Variable sha256Hex : string -> string.

Definition scopeHandoffActionId (wgId artifactPath : string) : string :=
  SCOPE_HANDOFF_V1 +:+ sha256Hex (stringify (JArr [JStr wgId; JStr artifactPath])).
Definition isSemanticScopeReceipt (wgId actionId stage artifactPath artifactSha256 evidenceKind : string) : bool :=
  (actionId =? scopeHandoffActionId wgId artifactPath)%string && negb (stage =? "")%string && hex64 artifactSha256 &&
  ((evidenceKind =? "approval")%string || (evidenceKind =? "legacy_repair")%string).
Definition decodeScopeHandoffReceipt (sr : Z * Row) : result string ScopeHandoffReceipt :=
  let r := sr.2 in
  match asOptStr (cell r "action_id"), asOptStr (cell r "wg_id"), asOptStr (cell r "stage"), asOptStr (cell r "scope_artifact_path"),
        asOptStr (cell r "scope_artifact_sha256"), asOptStr (cell r "scope_evidence_kind") ≫= evidence_of with
  | Some actionId, Some wgId, Some stage, Some artifactPath, Some artifactSha256, Some evidenceKind =>
      if isSemanticScopeReceipt wgId actionId stage artifactPath artifactSha256 (evidence_name evidenceKind)
      then Ok {| sr_seq := sr.1; sr_wgId := wgId; sr_actionId := actionId; sr_stage := stage; sr_artifactPath := artifactPath;
                 sr_artifactSha256 := artifactSha256; sr_evidenceKind := evidenceKind |}
      else Err "loop_events: malformed scope handoff receipt"
  | _, _, _, _, _, _ => Err "loop_events: malformed scope handoff receipt"
  end.

(** The rows an earlier version left, before uniqueness becomes authoritative. *)
Definition existing_valid (r : Row) : bool :=
  match asOptStr (cell r "action_id"), asOptStr (cell r "wg_id"), asOptStr (cell r "stage"), asOptStr (cell r "scope_artifact_path"),
        asOptStr (cell r "scope_artifact_sha256"), asOptStr (cell r "scope_evidence_kind") with
  | Some actionId, Some wgId, Some stage, Some artifact, Some digest, Some evidence =>
      bool_decide (cell r "kind" = Text (kind_name stage_advance)) && isSemanticScopeReceipt wgId actionId stage artifact digest evidence
  | _, _, _, _, _, _ => false
  end.
Fixpoint check_receipts (rows : list Row) (actionIds itemIds : list Cell) : result string unit :=
  match rows with
  | [] => Ok tt
  | r :: rows =>
      if negb (existing_valid r) then Err "loop_events: malformed existing scope-handoff:v1 receipt"
      else if set_has (cell r "action_id") actionIds || set_has (cell r "wg_id") itemIds
      then Err "loop_events: duplicate existing scope-handoff:v1 receipt"
      else check_receipts rows (set_add actionIds (cell r "action_id")) (set_add itemIds (cell r "wg_id"))
  end.
(** One pass of the schema guard.  Each process runs it once per store and
    remembers that it succeeded ([ddlByUrl]). *)
Definition ensureLoopEventSchema : Stmt LoopEvents unit := fun t =>
  match check_receipts (rows_where in_namespace t).*2 [] [] with
  | Ok _ => (Ok tt, {| le_rows := le_rows t; le_last := le_last t; le_guarded := true |})
  | Err e => (Err e, t)
  end.

Definition last_two {A} (l : list A) : list A := take 2 (rev l).
(** The statement names its index. *)
Definition one_receipt (p : Row -> bool) (pick : list (Z * Row) -> list (Z * Row)) (duplicate : string)
    : Stmt LoopEvents (option ScopeHandoffReceipt) := fun t =>
  (guard_throw (le_guarded t) msg "no such index" ;;
   match pick (rows_where (fun r => p r && SCOPE_HANDOFF_RECEIPT_PREDICATE r) t) with
   | [] => Ok None
   | [sr] => Some <$> decodeScopeHandoffReceipt sr
   | _ => Err duplicate
   end, t).
Definition readScopeHandoffByItem (wgId : string) : Stmt LoopEvents (option ScopeHandoffReceipt) :=
  one_receipt (fun r => bool_decide (cell r "wg_id" = Text wgId)) last_two ("loop_events: duplicate scope handoff receipts for " +:+ wgId).
Definition readScopeHandoffByAction (actionId : string) : Stmt LoopEvents (option ScopeHandoffReceipt) :=
  one_receipt (fun r => bool_decide (cell r "action_id" = Text actionId)) (take 2) ("loop_events: duplicate scope handoff action " +:+ actionId).
Definition readLegacyAutomationEntrySeqs (wgId entryStage : string) : Stmt LoopEvents (list Z) := fun t =>
  (guard_throw (le_guarded t) msg "no such index" ;;
   Ok (last_two (rows_where (fun r => bool_decide (cell r "wg_id" = Text wgId) && bool_decide (cell r "kind" = Text (kind_name stage_advance)) &&
                                      bool_decide (cell r "stage" = Text entryStage) && bool_decide (cell r "action_id" = Null)) t)).*1, t).
Definition receipt_row (wgId actionId stage artifactPath artifactSha256 : string) (evidenceKind : ScopeEvidenceKind) (atMs : Z) : Row :=
  [("wg_id", Text wgId); ("kind", Text (kind_name stage_advance)); ("stage", Text stage); ("action_id", Text actionId);
   ("scope_artifact_path", Text artifactPath); ("scope_artifact_sha256", Text artifactSha256);
   ("scope_evidence_kind", Text (evidence_name evidenceKind)); ("at_ms", Int atMs)].
Definition insertScopeHandoffReceipt (wgId actionId stage artifactPath artifactSha256 : string) (evidenceKind : ScopeEvidenceKind)
    (atMs : Z) : Stmt LoopEvents unit :=
  if negb (isSemanticScopeReceipt wgId actionId stage artifactPath artifactSha256 (evidence_name evidenceKind))
  then raise "loop_events: invalid scope handoff receipt"
  else insert_row (receipt_row wgId actionId stage artifactPath artifactSha256 evidenceKind atMs).

(** ** Appending and tailing *)
Definition event_row (ev : NewMonitorEvent) : Row :=
  let i := ev_item ev in let p := ev_process ev in let a := ev_action ev in let s := ev_scope ev in
  [("wg_id", Text (ev_wgId ev)); ("kind", Text (ev_kind ev)); ("stage", text (ev_stage i)); ("phase", text (ev_phase i));
   ("phase_index", num (ev_index i)); ("phase_total", num (ev_total i)); ("lifecycle", text (lifecycle_name <$> ev_lifecycle i));
   ("process_id", text (ev_processId p)); ("ownership", text (ownership_name <$> ev_ownership p));
   ("process_instance_id", text (ev_processInstanceId p)); ("run_id", text (ev_runId p));
   ("checkpoint_stage", text (ev_checkpointStage p)); ("lap", num (ev_lap p)); ("role", text (ev_role p)); ("pid", num (ev_pid p));
   ("process_group_id", num (ev_processGroupId p)); ("process_start_identity", text (ev_processStartIdentity p));
   ("windows_job_name", text (ev_windowsJobName p)); ("windows_job_metadata", text (ev_windowsJobMetadata p));
   ("exit_code", num (mjoin (ev_exitCode p))); ("requested_by", text (surface_name <$> ev_requestedBy a));
   ("authorized_by", text (ev_authorizedBy a)); ("action_id", text (ev_actionId a));
   ("scope_artifact_path", text (ev_scopeArtifactPath s)); ("scope_artifact_sha256", text (ev_scopeArtifactSha256 s));
   ("scope_evidence_kind", text (evidence_name <$> ev_scopeEvidenceKind s)); ("control_action", text (action_name <$> ev_controlAction a));
   ("requested_at_ms", num (ev_requestedAtMs a)); ("applied_at_ms", num (ev_appliedAtMs a)); ("failed_at_ms", num (ev_failedAtMs a));
   ("failure", text (ev_failure a)); ("at_ms", Int (ev_atMs ev))].
Definition reserved (ev : NewMonitorEvent) : bool :=
  match ev_actionId (ev_action ev) with Some a => starts_with a SCOPE_HANDOFF | None => false end.
Definition appendMonitorEvent (ev : NewMonitorEvent) : Stmt LoopEvents unit :=
  if reserved ev then raise "loop_events: scope-handoff action ids require the dedicated receipt writer"
  else ensureLoopEventSchema ≫= fun _ => insert_row (event_row ev).

(** An unknown lifecycle reads as [running]. *)
Definition coerceLifecycle (c : Cell) : option PhaseLifecycle :=
  match c with Null => None | _ => Some (if bool_decide (c = Text "done") then lc_done else lc_running) end.
Definition enum {A} (name : A -> string) (all : list A) (c : Cell) : option A := asOptStr c ≫= named name all.
Definition row_event (sr : Z * Row) : MonitorEvent :=
  let c := cell sr.2 in
  {| ev_seq := sr.1;
     ev_body := {|
       ev_wgId := default "" (asOptStr (c "wg_id")); ev_kind := default "" (asOptStr (c "kind"));
       ev_item := {| ev_stage := asOptStr (c "stage"); ev_phase := asOptStr (c "phase"); ev_index := asOptNum (c "phase_index");
                     ev_total := asOptNum (c "phase_total"); ev_lifecycle := coerceLifecycle (c "lifecycle") |};
       ev_process := {|
         ev_processId := asOptStr (c "process_id"); ev_ownership := enum ownership_name [control_root; owned] (c "ownership");
         ev_processInstanceId := asOptStr (c "process_instance_id"); ev_runId := asOptStr (c "run_id");
         ev_checkpointStage := asOptStr (c "checkpoint_stage"); ev_lap := asOptNum (c "lap"); ev_role := asOptStr (c "role");
         ev_pid := asOptNum (c "pid"); ev_processGroupId := asOptNum (c "process_group_id");
         ev_processStartIdentity := asOptStr (c "process_start_identity"); ev_windowsJobName := asOptStr (c "windows_job_name");
         ev_windowsJobMetadata := asOptStr (c "windows_job_metadata"); ev_exitCode := Some <$> asOptNum (c "exit_code") |};
       ev_action := {|
         ev_requestedBy := enum surface_name [cli; tui; web] (c "requested_by"); ev_authorizedBy := asOptStr (c "authorized_by");
         ev_actionId := asOptStr (c "action_id");
         ev_controlAction := enum action_name [graceful_stop; terminate; force_kill; resume] (c "control_action");
         ev_requestedAtMs := asOptNum (c "requested_at_ms"); ev_appliedAtMs := asOptNum (c "applied_at_ms");
         ev_failedAtMs := asOptNum (c "failed_at_ms"); ev_failure := asOptStr (c "failure") |};
       ev_scope := {|
         ev_scopeArtifactPath := asOptStr (c "scope_artifact_path"); ev_scopeArtifactSha256 := asOptStr (c "scope_artifact_sha256");
         ev_scopeEvidenceKind := enum evidence_name [approval; legacy_repair] (c "scope_evidence_kind") |};
       ev_atMs := default 0 (asOptNum (c "at_ms")) |} |}.
(** [WHERE seq > ? ORDER BY seq ASC] *)
Definition rows_since (sinceSeq : Z) (t : LoopEvents) : list (Z * Row) := filter (fun sr => sinceSeq < sr.1) (le_rows t).
Definition events_since (sinceSeq : Z) (t : LoopEvents) : list MonitorEvent := map row_event (rows_since sinceSeq t).
Definition tailEventsSince (sinceSeq : Z) : Stmt LoopEvents (list MonitorEvent) :=
  ensureLoopEventSchema ≫= fun _ => asks (events_since sinceSeq).
End Receipts.
