(* ===== verification/LoopLogProps.v ===== *)
(** * What the event log keeps

    [Kept] is the invariant of a guarded log: rows in the order of their
    [seq], and every row of the receipt namespace a semantic receipt, one per
    action and one per item.  [LogStep] is what any client can do with plain
    statements; [Sealed] is what then still holds. *)

From Stdlib Require Import Ascii String ZArith Lia.
From stdpp Require Import base option list strings gmap.
From S2P Require Import Prelude Effects Json LoopEvents.
#[local] Open Scope os_scope.
#[local] Open Scope Z_scope.

(** ** Reading back what was appended *)
(** [exitCode: null] is stored as [NULL] and reads as absent. *)
Definition stored (ev : NewMonitorEvent) : NewMonitorEvent :=
  let p := ev_process ev in
  {| ev_wgId := ev_wgId ev; ev_kind := ev_kind ev; ev_item := ev_item ev;
     ev_process := {|
       ev_processId := ev_processId p; ev_ownership := ev_ownership p; ev_processInstanceId := ev_processInstanceId p;
       ev_runId := ev_runId p; ev_checkpointStage := ev_checkpointStage p; ev_lap := ev_lap p; ev_role := ev_role p;
       ev_pid := ev_pid p; ev_processGroupId := ev_processGroupId p; ev_processStartIdentity := ev_processStartIdentity p;
       ev_windowsJobName := ev_windowsJobName p; ev_windowsJobMetadata := ev_windowsJobMetadata p;
       ev_exitCode := Some <$> mjoin (ev_exitCode p) |};
     ev_action := ev_action ev; ev_scope := ev_scope ev; ev_atMs := ev_atMs ev |}.
Lemma asOptStr_text o : asOptStr (text o) = o.
Proof. by destruct o. Qed.
Lemma asOptNum_num o : asOptNum (num o) = o.
Proof. by destruct o. Qed.
Lemma coerce_lifecycle o : coerceLifecycle (text (lifecycle_name <$> o)) = o.
Proof. by destruct o as [[]|]. Qed.
Lemma enum_ownership o : enum ownership_name [control_root; owned] (text (ownership_name <$> o)) = o.
Proof. by destruct o as [[]|]. Qed.
Lemma enum_surface o : enum surface_name [cli; tui; web] (text (surface_name <$> o)) = o.
Proof. by destruct o as [[]|]. Qed.
Lemma enum_action o : enum action_name [graceful_stop; terminate; force_kill; resume] (text (action_name <$> o)) = o.
Proof. by destruct o as [[]|]. Qed.
Lemma enum_evidence o : enum evidence_name [approval; legacy_repair] (text (evidence_name <$> o)) = o.
Proof. by destruct o as [[]|]. Qed.
Lemma row_event_of s ev : row_event (s, event_row ev) = {| ev_seq := s; ev_body := stored ev |}.
Proof.
  destruct ev as [w k [] [] [] [] t]. unfold row_event, event_row, stored. cbn -[asOptStr asOptNum text num coerceLifecycle enum].
  rewrite !asOptStr_text, !asOptNum_num, coerce_lifecycle, enum_ownership, enum_surface, enum_action, enum_evidence. done.
Qed.

(** ** The order of the rows *)
Definition ordered (t : LoopEvents) : Prop :=
  Sorted.StronglySorted Z.lt (le_rows t).*1 /\ Forall (fun s => 0 < s <= le_last t) (le_rows t).*1 /\ 0 <= le_last t.
Lemma sorted_snoc l z : Sorted.StronglySorted Z.lt l -> Forall (fun s => s < z) l -> Sorted.StronglySorted Z.lt (l ++ [z]).
Proof.
  induction 1 as [|x l Hs IH Hx]; intros Hl; inversion_clear Hl; cbn; constructor; auto.
  - constructor.
  - apply Forall_app. auto.
Qed.
Lemma ordered_filter {A} (key : A -> Z) (P : A -> Prop) `{!forall a, Decision (P a)} l :
  Sorted.StronglySorted Z.lt (map key l) -> Sorted.StronglySorted Z.lt (map key (filter P l)).
Proof.
  induction l as [|a l IH]; [done|]. intros Hs. cbn in Hs. inversion_clear Hs as [|? ? Hs1 Hs2]. rewrite filter_cons.
  case_decide; cbn; [|auto]. constructor; [auto|]. apply Forall_forall. intros z (b & -> & Hb)%list_elem_of_fmap.
  apply list_elem_of_filter in Hb as [_ Hb]. rewrite Forall_forall in Hs2. apply Hs2. apply list_elem_of_fmap. eauto.
Qed.

Lemma filter_all {A} (P : A -> Prop) `{!forall a, Decision (P a)} l : Forall P l -> filter P l = l.
Proof. induction 1 as [|a l Ha _ IH]; [done|]. rewrite filter_cons_True by done. by f_equal. Qed.
Lemma filter_none {A} (P : A -> Prop) `{!forall a, Decision (P a)} l : Forall (fun a => ~ P a) l -> filter P l = [].
Proof. induction 1 as [|a l Ha _ IH]; [done|]. by rewrite filter_cons_False. Qed.

Lemma filter_filter_keep {A} (P Q : A -> Prop) `{!forall x, Decision (P x), !forall x, Decision (Q x)} (l : list A) :
  (forall x, x ∈ l -> P x -> Q x) -> filter P (filter Q l) = filter P l.
Proof.
  induction l as [|a l IH]; intros Hl; [done|]. rewrite !(filter_cons _ a). destruct (decide (Q a)) as [Hq|Hq].
  - rewrite filter_cons, IH by set_solver. done.
  - rewrite IH by set_solver. destruct (decide (P a)); [|done]. exfalso. apply Hq, Hl; [by left|done].
Qed.

Lemma nodup_snoc {A} (l : list A) a : NoDup l -> a ∉ l -> NoDup (l ++ [a]).
Proof. intros Hl Ha. apply NoDup_app. split; [done|]. split; [|apply NoDup_singleton]. set_solver. Qed.
(** What appending does to the log: old rows stay, new ones come after. *)
Definition grows (t t' : LoopEvents) : Prop :=
  exists more, le_rows t' = le_rows t ++ more /\ le_last t <= le_last t' /\ Forall (fun sr => le_last t < sr.1) more.
Lemma grows_refl t : grows t t.
Proof. exists []. rewrite app_nil_r. auto using Z.le_refl. Qed.
Lemma grows_trans t1 t2 t3 : grows t1 t2 -> grows t2 t3 -> grows t1 t3.
Proof.
  intros (m1 & E1 & L1 & F1) (m2 & E2 & L2 & F2). exists (m1 ++ m2). rewrite E2, E1, app_assoc.
  split; [done|]. split; [lia|]. apply Forall_app. split; [done|]. eapply Forall_impl; [exact F2|]. cbn. lia.
Qed.
(** A reader that resumes at any cursor up to the end reads the rest. *)
Lemma rows_resume c t t' : ordered t -> grows t t' -> c <= le_last t -> rows_since c t' = rows_since c t ++ rows_since (le_last t) t'.
Proof.
  intros (_ & Hb & _) (more & E & _ & Hm) Hc. unfold rows_since. rewrite E, !filter_app.
  rewrite (filter_none (fun sr : Z * Row => le_last t < sr.1) (le_rows t)).
  2:{ apply Forall_fmap in Hb. eapply Forall_impl; [exact Hb|]. cbn. lia. }
  rewrite !(filter_all _ more); [done|done|]. eapply Forall_impl; [exact Hm|]. cbn. lia.
Qed.
Lemma insert_row_cases row t r t' : insert_row row t = (r, t') ->
  (t' = t /\ exists e, r = Err e) \/
  (r = Ok tt /\ t' = {| le_rows := le_rows t ++ [(le_last t + 1, row)]; le_last := le_last t + 1; le_guarded := le_guarded t |} /\
   (le_guarded t = true -> (in_namespace row = true -> VALID_NEW_SCOPE_RECEIPT row = true) /\
                           existsb (fun sr => clashes row sr.2) (le_rows t) = false)).
Proof.
  unfold insert_row, statement. destruct (le_guarded t); cbn [andb]; [|intros [= <- <-]; right; done].
  destruct (in_namespace row); destruct (VALID_NEW_SCOPE_RECEIPT row); cbn [andb negb];
    try (intros [= <- <-]; left; eauto; fail).
  all: destruct (existsb _ _); intros [= <- <-]; [left; eauto|right; done].
Qed.
Lemma insert_grows row t r t' : insert_row row t = (r, t') -> grows t t'.
Proof.
  intros [[-> _]|(_ & -> & _)]%insert_row_cases; [apply grows_refl|]. exists [(le_last t + 1, row)]. cbn.
  repeat split; [lia|]. constructor; [cbn; lia|done].
Qed.
Lemma insert_ordered row t r t' : insert_row row t = (r, t') -> ordered t -> ordered t'.
Proof.
  intros [[-> _]|(_ & -> & _)]%insert_row_cases; [done|]. intros (Hs & Hb & H0). unfold ordered; cbn. rewrite fmap_app. cbn.
  split; [|split; [|lia]].
  - apply sorted_snoc; [done|]. eapply Forall_impl; [exact Hb|]. cbn. lia.
  - apply Forall_app. split; [|repeat constructor; lia]. eapply Forall_impl; [exact Hb|]. cbn. lia.
Qed.

(** ** Receipts *)
Lemma string_prefix_split s p : starts_with s p = true -> exists r, s = p +:+ r.
Proof. intros H. by apply starts_with_spec. Qed.
Lemma substring_full s : String.substring 0 (String.length s) s = s.
Proof. induction s as [|c s IH]; [done|]. cbn. by rewrite IH. Qed.
Lemma lower_app s s' : lower (s +:+ s') = lower s +:+ lower s'.
Proof. induction s as [|c s IH]; [done|]. cbn. by rewrite IH. Qed.
Lemma prefix_starts p s : starts_with (p +:+ s) p = true.
Proof. apply starts_with_spec. eauto. Qed.
Lemma namespaced_text a r : cell r "action_id" = Text a -> starts_with a SCOPE_HANDOFF = true -> in_namespace r = true.
Proof.
  intros E (s & ->)%string_prefix_split. unfold in_namespace. rewrite E, lower_app.
  change (lower SCOPE_HANDOFF) with SCOPE_HANDOFF. apply prefix_starts.
Qed.
Lemma receipt_in_namespace r : SCOPE_HANDOFF_RECEIPT_PREDICATE r = true -> in_namespace r = true.
Proof.
  unfold SCOPE_HANDOFF_RECEIPT_PREDICATE, receipt_action. intros [_ H]%andb_true_iff.
  destruct (cell r "action_id") as [|a|] eqn:E; [done| |done].
  apply andb_true_iff in H as [[_ H]%andb_true_iff _]. apply string_prefix_split in H as (s & ->).
  eapply namespaced_text; [exact E|]. change (SCOPE_HANDOFF_V1 +:+ s) with (SCOPE_HANDOFF +:+ ("v1:" +:+ s)). apply prefix_starts.
Qed.

Section Receipts.
Context (sha256Hex : string -> string) (sha_hex : forall s, hex64 (sha256Hex s) = true).
Abbreviation semantic := (isSemanticScopeReceipt sha256Hex).
Abbreviation valid := (existing_valid sha256Hex).

Lemma semantic_spec w a s p d e : semantic w a s p d e = true <->
  a = scopeHandoffActionId sha256Hex w p /\ s <> "" /\ hex64 d = true /\ (e = "approval" \/ e = "legacy_repair").
Proof.
  unfold isSemanticScopeReceipt. rewrite !andb_true_iff, orb_true_iff, negb_true_iff, !String.eqb_eq, String.eqb_neq. naive_solver.
Qed.
Lemma action_id_receipt w p : receipt_action (Text (scopeHandoffActionId sha256Hex w p)) = true.
Proof.
  unfold receipt_action, scopeHandoffActionId.
  set (h := sha256Hex _). assert (Hh : hex64 h = true) by apply sha_hex.
  apply andb_true_iff in Hh as [Hl Hx]. apply Nat.eqb_eq in Hl.
  rewrite string_app_length, Hl, prefix_starts.
  replace (String.substring 17 64 (SCOPE_HANDOFF_V1 +:+ h)) with h; [by rewrite Hx|].
  cbn. by rewrite <- Hl, substring_full.
Qed.
(** A valid row satisfies the indexes' predicate. *)
Lemma valid_receipt r : valid r = true -> SCOPE_HANDOFF_RECEIPT_PREDICATE r = true.
Proof.
  unfold existing_valid, SCOPE_HANDOFF_RECEIPT_PREDICATE. intros H.
  destruct (cell r "action_id") as [|a|], (cell r "wg_id") as [|w|], (cell r "stage") as [|s|],
    (cell r "scope_artifact_path") as [|p|], (cell r "scope_artifact_sha256") as [|d|], (cell r "scope_evidence_kind") as [|e|];
    try done; cbn [asOptStr] in H.
  apply andb_true_iff in H as [Hk (-> & _)%semantic_spec]. by rewrite Hk, action_id_receipt.
Qed.
Lemma receipt_row_valid w a s p d e at_ : semantic w a s p d (evidence_name e) = true -> valid (receipt_row w a s p d e at_) = true.
Proof. intros H. unfold existing_valid. cbn -[isSemanticScopeReceipt]. by rewrite H. Qed.

Lemma check_receipts_ok rows A I : check_receipts sha256Hex rows A I = Ok tt <->
  Forall (fun r => valid r = true) rows /\ NoDup (map (fun r : Row => cell r "action_id") rows) /\ NoDup (map (fun r : Row => cell r "wg_id") rows) /\
  Forall (fun r => cell r "action_id" ∉ A /\ cell r "wg_id" ∉ I) rows.
Proof.
  revert A I. induction rows as [|r rows IH]; intros A I; cbn [check_receipts map].
  { split; [|done]. intros _. repeat split; constructor. }
  rewrite !Forall_cons, !NoDup_cons.
  destruct (valid r) eqn:Ev; cbn [negb]; [|naive_solver].
  destruct (set_has _ A) eqn:EA; cbn [orb].
  { apply set_has_spec in EA. naive_solver. }
  destruct (set_has _ I) eqn:EI.
  { apply set_has_spec in EI. naive_solver. }
  assert (HA : cell r "action_id" ∉ A) by (rewrite <- set_has_spec; congruence).
  assert (HI : cell r "wg_id" ∉ I) by (rewrite <- set_has_spec; congruence).
  rewrite IH, !Forall_forall, !list_elem_of_fmap. setoid_rewrite elem_of_set_add. naive_solver.
Qed.

(** ** The invariant *)
Definition receipts (t : LoopEvents) : list (Z * Row) := rows_where in_namespace t.
Record Kept (t : LoopEvents) : Prop := {
  kept_ordered : ordered t;
  kept_guarded : le_guarded t = true;
  kept_valid : Forall (fun sr => valid sr.2 = true) (receipts t);
  kept_actions : NoDup (map (fun sr => cell sr.2 "action_id") (receipts t));
  kept_items : NoDup (map (fun sr => cell sr.2 "wg_id") (receipts t)) }.
Lemma receipts_checked t : check_receipts sha256Hex (receipts t).*2 [] [] = Ok tt <->
  Forall (fun sr => valid sr.2 = true) (receipts t) /\ NoDup (map (fun sr => cell sr.2 "action_id") (receipts t)) /\
  NoDup (map (fun sr => cell sr.2 "wg_id") (receipts t)).
Proof.
  rewrite check_receipts_ok, Forall_fmap, !map_map. split; [naive_solver|]. intros (H1 & H2 & H3). repeat split; try done.
  apply Forall_forall. intros r _. split; apply not_elem_of_nil.
Qed.
(** A passed schema guard establishes it, and further passes change nothing:
    remembering the guard per process is safe. *)
Lemma ensure_establishes t0 t : ordered t0 -> ensureLoopEventSchema sha256Hex t0 = (Ok tt, t) -> Kept t.
Proof.
  unfold ensureLoopEventSchema. intros Ho. destruct (check_receipts _ _ _ _) as [[]|] eqn:E; [|done].
  apply receipts_checked in E as (H1 & H2 & H3). intros [= <-]. by constructor.
Qed.
Lemma ensure_kept t : Kept t -> ensureLoopEventSchema sha256Hex t = (Ok tt, t).
Proof.
  intros H. unfold ensureLoopEventSchema. change (rows_where in_namespace t) with (receipts t). destruct H as [_ Hg H1 H2 H3].
  rewrite (proj2 (receipts_checked t)) by done. rewrite <- Hg. by destruct t.
Qed.

(** ** What clients do *)
Inductive LogStep (t : LoopEvents) : LoopEvents -> Prop :=
| log_append ev : LogStep t (appendMonitorEvent sha256Hex ev t).2
| log_receipt w a s p d e at_ : LogStep t (insertScopeHandoffReceipt sha256Hex w a s p d e at_ t).2
| log_ensure : LogStep t (ensureLoopEventSchema sha256Hex t).2
| log_update f : LogStep t (update_rows f t).2
| log_delete sel : LogStep t (delete_rows sel t).2
| log_insert triggered seq row : LogStep t (client_insert triggered seq row t).2.

Lemma not_receipt r : in_namespace r = false -> SCOPE_HANDOFF_RECEIPT_PREDICATE r = false.
Proof. intros H. destruct (SCOPE_HANDOFF_RECEIPT_PREDICATE r) eqn:E; [|done]. apply receipt_in_namespace in E. congruence. Qed.
Lemma receipts_snoc t last s r : receipts {| le_rows := le_rows t ++ [(s, r)]; le_last := last; le_guarded := le_guarded t |} =
  receipts t ++ (if in_namespace r then [(s, r)] else []).
Proof.
  unfold receipts, rows_where. cbn [le_rows]. rewrite filter_app. f_equal. rewrite filter_cons. cbn [snd].
  by destruct (in_namespace r).
Qed.
Lemma no_clash t row x : existsb (fun sr => clashes row sr.2) (le_rows t) = false -> x ∈ receipts t -> valid x.2 = true -> valid row = true ->
  cell x.2 "action_id" <> cell row "action_id" /\ cell x.2 "wg_id" <> cell row "wg_id".
Proof.
  intros H (_ & Hx)%list_elem_of_filter Hv Hr. assert (Hc : clashes row x.2 = false).
  { destruct (clashes row x.2) eqn:E; [|done]. exfalso. apply not_true_iff_false in H. apply H.
    apply existsb_exists. exists x. split; [by apply list_elem_of_In|done]. }
  unfold clashes in Hc. rewrite !valid_receipt in Hc by done. cbn in Hc.
  apply orb_false_iff in Hc as [H1%bool_decide_eq_false H2%bool_decide_eq_false]. split; congruence.
Qed.
(** A row the log accepts is outside the namespace or a receipt unlike all others. *)
Lemma insert_kept row t r t' : Kept t -> (in_namespace row = true -> valid row = true) -> insert_row row t = (r, t') ->
  Kept t' /\ (forall x, x ∈ receipts t -> x ∈ receipts t') /\
  (r = Ok tt -> in_namespace row = true -> (le_last t + 1, row) ∈ receipts t').
Proof.
  intros HK Hv H. pose proof (insert_ordered _ _ _ _ H (kept_ordered _ HK)) as Ho.
  apply insert_row_cases in H as [[-> [e ->]]|(-> & -> & H)]; [naive_solver|].
  destruct (H (kept_guarded _ HK)) as [_ Hc]. clear H. pose proof (no_clash t row) as Hn. specialize (fun x => Hn x Hc).
  destruct HK as [_ Hg H1 H2 H3].
  set (t' := {| le_rows := _ |}) in *.
  assert (Ht : receipts t' = receipts t ++ (if in_namespace row then [(le_last t + 1, row)] else []))
    by apply receipts_snoc.
  split; [|split; [intros x Hx|intros _ En]; rewrite Ht; apply elem_of_app; [by left|]].
  2:{ rewrite En. right. by apply list_elem_of_singleton. }
  split; rewrite ?Ht; try done; destruct (in_namespace row) eqn:En; rewrite ?app_nil_r; try done; specialize (Hv eq_refl).
  all: rewrite Forall_forall in H1.
  - apply Forall_app. split; [by apply Forall_forall|by constructor].
  - rewrite map_app. apply nodup_snoc; [done|]. intros (x & E & Hx)%list_elem_of_fmap. destruct (Hn x Hx (H1 _ Hx) Hv) as [? _]. by cbn in E.
  - rewrite map_app. apply nodup_snoc; [done|]. intros (x & E & Hx)%list_elem_of_fmap. destruct (Hn x Hx (H1 _ Hx) Hv) as [_ ?]. by cbn in E.
Qed.

Lemma update_rows_cases f t : le_guarded t = true ->
  (update_rows f t).2 = t \/
  ((update_rows f t).2 = {| le_rows := map (fun sr => (sr.1, default sr.2 (f sr.2))) (le_rows t); le_last := le_last t; le_guarded := true |} /\
   forall sr r, sr ∈ le_rows t -> f sr.2 = Some r -> in_namespace sr.2 = false /\ in_namespace r = false).
Proof.
  intros Hg. unfold update_rows. rewrite Hg. cbn [andb]. destruct (existsb _ _) eqn:E; [by left|right].
  unfold statement. rewrite Hg. split; [done|]. intros sr r Hin Hf.
  rewrite <- not_true_iff_false, existsb_exists in E.
  destruct (in_namespace sr.2) eqn:E1, (in_namespace r) eqn:E2; try done; exfalso; apply E; exists sr;
    rewrite Hf, E1, E2; by rewrite <- list_elem_of_In.
Qed.
Lemma update_receipts f rows : (forall sr r, sr ∈ rows -> f sr.2 = Some r -> in_namespace sr.2 = false /\ in_namespace r = false) ->
  filter (fun sr => in_namespace sr.2 = true) (map (fun sr => (sr.1, default sr.2 (f sr.2))) rows) =
  filter (fun sr : Z * Row => in_namespace sr.2 = true) rows.
Proof.
  induction rows as [|[s r] rows IH]; intros H; [done|]. cbn [map]. rewrite !filter_cons, IH by (intros; eapply H; [by right|done]).
  cbn [fst snd]. destruct (f r) as [r'|] eqn:E; cbn [default]; [|done].
  destruct (H (s, r) r') as [H1 H2]; [by left|done|]. cbn in H1. unfold id. by rewrite H1, H2.
Qed.
Lemma update_same f t : le_guarded t = true -> le_guarded (update_rows f t).2 = true /\ receipts (update_rows f t).2 = receipts t.
Proof. intros Hg. destruct (update_rows_cases f t Hg) as [->|[-> H]]; [done|]. split; [done|apply update_receipts, H]. Qed.
Lemma delete_same sel t : le_guarded t = true -> le_guarded (delete_rows sel t).2 = true /\ receipts (delete_rows sel t).2 = receipts t.
Proof.
  intros Hg. unfold delete_rows. rewrite Hg. cbn [andb]. destruct (existsb _ _) eqn:E; [done|]. unfold statement. rewrite Hg. split; [done|].
  apply filter_filter_keep. intros x Hx Hn. destruct (sel x.2) eqn:Es; [|done]. exfalso.
  rewrite <- not_true_iff_false, existsb_exists in E. apply E. exists x. rewrite Es, Hn. by rewrite <- list_elem_of_In.
Qed.

(** Receipts stay, whoever writes. *)
Lemma event_row_guarded ev : reserved ev = false -> VALID_NEW_SCOPE_RECEIPT (event_row ev) = false.
Proof.
  intros Er. apply not_true_iff_false. unfold VALID_NEW_SCOPE_RECEIPT. rewrite !andb_true_iff. intros [[[[Hp _] _] _] _].
  unfold SCOPE_HANDOFF_RECEIPT_PREDICATE in Hp. apply andb_true_iff in Hp as [_ Hp]. unfold event_row in Hp.
  cbn -[receipt_action text] in Hp. unfold reserved in Er. destruct (ev_actionId (ev_action ev)) as [a|]; [|done]. cbn in Hp.
  apply andb_true_iff in Hp as [[_ Hp]%andb_true_iff _]. by apply string_prefix_split in Hp as (s & ->).
Qed.
Lemma insert_free row t : Kept t -> in_namespace row = false ->
  insert_row row t = statement t (le_rows t ++ [(le_last t + 1, row)]) (le_last t + 1).
Proof.
  intros HK En. unfold insert_row. rewrite (kept_guarded _ HK), En. cbn [andb].
  replace (existsb _ _) with false; [done|]. symmetry. apply not_true_iff_false. rewrite existsb_exists. intros (x & _ & Hx).
  unfold clashes in Hx. by rewrite (not_receipt _ En) in Hx.
Qed.
Lemma append_cases ev t : Kept t ->
  if in_namespace (event_row ev) then exists err, appendMonitorEvent sha256Hex ev t = (Err err, t)
  else appendMonitorEvent sha256Hex ev t = insert_row (event_row ev) t.
Proof.
  intros HK. unfold appendMonitorEvent. destruct (reserved ev) eqn:Er.
  { replace (in_namespace (event_row ev)) with true; [by eexists|]. symmetry. unfold reserved in Er.
    destruct (ev_actionId (ev_action ev)) as [a|] eqn:Ea; [|done]. eapply namespaced_text; [|exact Er].
    unfold event_row, cell. cbn. by rewrite Ea. }
  rewrite (bind_step _ _ _ _ _ (ensure_kept _ HK)). destruct (in_namespace (event_row ev)) eqn:En; [|done].
  unfold insert_row. rewrite (kept_guarded _ HK), En, event_row_guarded by done. by eexists.
Qed.
Lemma append_kept ev t r t' : Kept t -> appendMonitorEvent sha256Hex ev t = (r, t') ->
  Kept t' /\ grows t t' /\ (forall x, x ∈ receipts t -> x ∈ receipts t').
Proof.
  intros HK E. pose proof (append_cases ev t HK) as Hc. destruct (in_namespace (event_row ev)) eqn:En.
  - destruct Hc as [err Hc]. rewrite Hc in E. injection E as _ <-. split; [done|]. split; [apply grows_refl|done].
  - rewrite Hc in E. edestruct insert_kept as (? & ? & _); [exact HK| |exact E|]; [congruence|].
    split; [done|]. split; [by eapply insert_grows|done].
Qed.
(** ** What any client leaves: the unique indexes hold *)
Definition canon (t : LoopEvents) : list (Z * Row) := rows_where SCOPE_HANDOFF_RECEIPT_PREDICATE t.
Record Sealed (t : LoopEvents) : Prop := {
  se_guarded : le_guarded t = true;
  se_actions : NoDup (map (fun sr => cell sr.2 "action_id") (canon t));
  se_items : NoDup (map (fun sr => cell sr.2 "wg_id") (canon t)) }.
Lemma canon_receipts t : canon t = filter (fun sr => SCOPE_HANDOFF_RECEIPT_PREDICATE sr.2 = true) (receipts t).
Proof. symmetry. apply filter_filter_keep. intros x _. apply receipt_in_namespace. Qed.
Lemma sealed_same t t' : Sealed t -> le_guarded t' = true -> receipts t' = receipts t -> Sealed t' /\ canon t ⊆ canon t'.
Proof. intros [_ H1 H2] Hg E. assert (Ec : canon t' = canon t) by (rewrite !canon_receipts; congruence). split; [split; by rewrite ?Ec|by rewrite Ec]. Qed.
Lemma ensure_same t r t' : le_guarded t = true -> ensureLoopEventSchema sha256Hex t = (r, t') -> t' = t.
Proof. intros Hg. unfold ensureLoopEventSchema. destruct (check_receipts _ _ _ _); intros [= _ <-]; [|done]. rewrite <- Hg. by destruct t. Qed.
(** A passed schema guard seals the log. *)
Lemma ensure_seals t0 t : ensureLoopEventSchema sha256Hex t0 = (Ok tt, t) -> Sealed t.
Proof.
  unfold ensureLoopEventSchema. destruct (check_receipts _ _ _ _) as [[]|] eqn:E; [|done].
  apply receipts_checked in E as (H1 & H2 & H3). intros [= <-]. set (t := {| le_rows := _ |}).
  assert (Ec : canon t = receipts t).
  { rewrite canon_receipts. apply filter_all. eapply Forall_impl; [exact H1|]. intros x. apply valid_receipt. }
  by split; rewrite ?Ec.
Qed.
(** A row unlike all receipts keeps it sealed, wherever it is put. *)
Lemma sealed_insert t s row rows last : Sealed t -> rows ≡ₚ (s, row) :: le_rows t ->
  existsb (fun sr => clashes row sr.2) (le_rows t) = false ->
  let t' := {| le_rows := rows; le_last := last; le_guarded := le_guarded t |} in
  Sealed t' /\ canon t ⊆ canon t' /\ (SCOPE_HANDOFF_RECEIPT_PREDICATE row = true -> (s, row) ∈ canon t').
Proof.
  intros [Hg H1 H2] Hp Hc t'.
  assert (Hf : canon t' ≡ₚ (if SCOPE_HANDOFF_RECEIPT_PREDICATE row then [(s, row)] else []) ++ canon t).
  { unfold canon, rows_where. cbn [le_rows t']. rewrite Hp, filter_cons. cbn [snd]. by destruct (SCOPE_HANDOFF_RECEIPT_PREDICATE row). }
  destruct (SCOPE_HANDOFF_RECEIPT_PREDICATE row) eqn:Er; cbn [app] in Hf.
  2:{ split; [split; [done|by rewrite Hf..]|]. split; [by rewrite Hf|done]. }
  assert (Hn : forall x, x ∈ canon t -> cell x.2 "action_id" <> cell row "action_id" /\ cell x.2 "wg_id" <> cell row "wg_id").
  { intros x [Hx1 Hx2]%list_elem_of_filter. destruct (clashes row x.2) eqn:E.
    - apply not_true_iff_false in Hc. destruct Hc. apply existsb_exists. exists x. split; [by apply list_elem_of_In|done].
    - unfold clashes in E. rewrite Er, Hx1 in E. cbn in E. apply orb_false_iff in E as [E1%bool_decide_eq_false E2%bool_decide_eq_false].
      split; congruence. }
  split; [split|split; [|intros _]]; rewrite ?Hf; cbn [map snd]; try done.
  - apply NoDup_cons. split; [|done]. intros (x & E & Hx)%list_elem_of_fmap. by apply (proj1 (Hn x Hx)).
  - apply NoDup_cons. split; [|done]. intros (x & E & Hx)%list_elem_of_fmap. by apply (proj2 (Hn x Hx)).
  - intros x Hx. by right.
  - by left.
Qed.
Lemma place_perm sr l : place sr l ≡ₚ sr :: l.
Proof. induction l as [|x l IH]; [done|]. cbn. destruct (_ <? _); [done|]. rewrite IH. apply Permutation_swap. Qed.
Lemma insert_sealed row t r t' : Sealed t -> insert_row row t = (r, t') ->
  Sealed t' /\ canon t ⊆ canon t' /\ (r = Ok tt -> SCOPE_HANDOFF_RECEIPT_PREDICATE row = true -> (le_last t + 1, row) ∈ canon t').
Proof.
  intros HS [[-> [e ->]]|(_ & -> & H)]%insert_row_cases; [by split|]. destruct (H (se_guarded _ HS)) as [_ Hc].
  destruct (sealed_insert t (le_last t + 1) row (le_rows t ++ [(le_last t + 1, row)]) (le_last t + 1) HS) as (H1 & H2 & H3); [|done|].
  { by rewrite Permutation_app_comm. }
  by split.
Qed.
Lemma log_step_sealed t t' : Sealed t -> LogStep t t' -> Sealed t' /\ canon t ⊆ canon t'.
Proof.
  intros HS Hs. pose proof (se_guarded _ HS) as Hg. destruct Hs as [ev|w a s p d e at_| |f|sel|triggered seq row].
  - unfold appendMonitorEvent. destruct (reserved ev); [done|].
    destruct (ensureLoopEventSchema sha256Hex t) as [[[]|x] t1] eqn:E; apply ensure_same in E as E1; try done; subst t1;
      [rewrite (bind_step _ _ _ _ _ E)|by rewrite (bind_fail _ _ _ _ _ E)].
    destruct (insert_row _ t) as [r t2] eqn:Ei. by apply insert_sealed in Ei as (? & ? & _).
  - unfold insertScopeHandoffReceipt. destruct (negb _); [done|].
    destruct (insert_row _ t) as [r t2] eqn:E. by apply insert_sealed in E as (? & ? & _).
  - destruct (ensureLoopEventSchema sha256Hex t) as [r t1] eqn:E. by apply ensure_same in E as ->.
  - destruct (update_same f t Hg). by apply sealed_same.
  - destruct (delete_same sel t Hg). by apply sealed_same.
  - unfold client_insert. rewrite Hg. destruct (_ && negb _); [done|]. cbn [andb].
    destruct (existsb _ _); [done|]. destruct (existsb (fun sr => clashes row sr.2) _) eqn:Ec; [done|]. cbn [orb statement snd]. unfold statement. cbn [snd].
    destruct (sealed_insert t (default (le_last t + 1) seq) row _ (Z.max (le_last t) (default (le_last t + 1) seq)) HS (place_perm _ _) Ec) as (H1 & H2 & _). done.
Qed.
Lemma log_steps_sealed t t' : Sealed t -> rtc LogStep t t' -> Sealed t' /\ canon t ⊆ canon t'.
Proof.
  intros HS H. revert HS. induction H as [|t t1 t' Hs _ IH]; intros HS; [done|].
  destruct (log_step_sealed _ _ HS Hs) as [HS1 Hin1]. destruct (IH HS1) as [HS' Hin']. split; [done|by etransitivity].
Qed.

(** ** Reading receipts *)
Lemma filter_unique {A B} (key : A -> B) `{!EqDecision B} (l : list A) x : NoDup (map key l) -> x ∈ l -> filter (fun y => key y = key x) l = [x].
Proof.
  induction l as [|a l IH]; intros Hn Hx; [set_solver|]. cbn in Hn. apply NoDup_cons in Hn as [Ha Hn]. rewrite filter_cons.
  apply elem_of_cons in Hx as [<-|Hx].
  - rewrite decide_True by done. f_equal. apply filter_none, Forall_forall. intros y Hy E. apply Ha. rewrite <- E. apply list_elem_of_fmap. eauto.
  - rewrite decide_False; [by apply IH|]. intros E. apply Ha. rewrite E. apply list_elem_of_fmap. eauto.
Qed.
Lemma rows_where_canon t (column : string) c :
  rows_where (fun r => bool_decide (cell r column = c) && SCOPE_HANDOFF_RECEIPT_PREDICATE r) t =
  filter (fun sr => cell sr.2 column = c) (canon t).
Proof.
  unfold canon, rows_where. induction (le_rows t) as [|[s r] l IH]; [done|]. rewrite !(filter_cons _ (s, r)). cbn [snd].
  destruct (SCOPE_HANDOFF_RECEIPT_PREDICATE r); rewrite ?andb_true_r, ?andb_false_r.
  - rewrite (decide_True (P := true = true)) by done. rewrite filter_cons. cbn [snd]. rewrite IH.
    by case_bool_decide; repeat case_decide.
  - by apply IH.
Qed.
Lemma decode_receipt n w a s p d e at_ : semantic w a s p d (evidence_name e) = true ->
  decodeScopeHandoffReceipt sha256Hex (n, receipt_row w a s p d e at_) =
  Ok {| sr_seq := n; sr_wgId := w; sr_actionId := a; sr_stage := s; sr_artifactPath := p; sr_artifactSha256 := d; sr_evidenceKind := e |}.
Proof.
  intros H. assert (He : evidence_of (evidence_name e) = Some e) by (by destruct e).
  unfold decodeScopeHandoffReceipt. cbn -[isSemanticScopeReceipt evidence_name evidence_of]. by rewrite He, H.
Qed.
Lemma read_item_receipt t n w a s p d e at_ : Sealed t -> semantic w a s p d (evidence_name e) = true ->
  (n, receipt_row w a s p d e at_) ∈ canon t ->
  readScopeHandoffByItem sha256Hex w t =
  (Ok (Some {| sr_seq := n; sr_wgId := w; sr_actionId := a; sr_stage := s; sr_artifactPath := p; sr_artifactSha256 := d; sr_evidenceKind := e |}), t).
Proof.
  intros HK Hs Hin. unfold readScopeHandoffByItem, one_receipt. rewrite (se_guarded _ HK), rows_where_canon.
  rewrite (filter_unique (fun sr : Z * Row => cell sr.2 "wg_id") (canon t) _ (se_items _ HK) Hin).
  cbn [last_two rev app take]. by rewrite decode_receipt.
Qed.
Lemma read_action_receipt t n w a s p d e at_ : Sealed t -> semantic w a s p d (evidence_name e) = true ->
  (n, receipt_row w a s p d e at_) ∈ canon t ->
  readScopeHandoffByAction sha256Hex a t =
  (Ok (Some {| sr_seq := n; sr_wgId := w; sr_actionId := a; sr_stage := s; sr_artifactPath := p; sr_artifactSha256 := d; sr_evidenceKind := e |}), t).
Proof.
  intros HK Hs Hin. unfold readScopeHandoffByAction, one_receipt. rewrite (se_guarded _ HK), rows_where_canon.
  rewrite (filter_unique (fun sr : Z * Row => cell sr.2 "action_id") (canon t) _ (se_actions _ HK) Hin).
  cbn [take]. by rewrite decode_receipt.
Qed.
(** A second receipt for the item or the action is refused. *)
Lemma second_receipt t n w a s p d e at_ w' a' s' p' d' e' at' : Sealed t -> semantic w a s p d (evidence_name e) = true ->
  (n, receipt_row w a s p d e at_) ∈ canon t -> w' = w \/ a' = a ->
  exists err, insertScopeHandoffReceipt sha256Hex w' a' s' p' d' e' at' t = (Err err, t).
Proof.
  intros HS Hs Hin Hw. unfold insertScopeHandoffReceipt. destruct (isSemanticScopeReceipt _ w' a' s' p' d' (evidence_name e')) eqn:Es; cbn [negb]; [|by eexists].
  destruct (insert_row _ t) as [[[]|err] t'] eqn:E; apply insert_row_cases in E as [[-> [e1 E]]|(E & -> & Hc)]; try done; [|by eexists].
  exfalso. destruct (Hc (se_guarded _ HS)) as [_ Hn]. apply not_true_iff_false in Hn. apply Hn, existsb_exists.
  exists (n, receipt_row w a s p d e at_). apply list_elem_of_filter in Hin as [_ Hin]. split; [by apply list_elem_of_In|]. unfold clashes.
  rewrite (valid_receipt _ (receipt_row_valid _ _ _ _ _ _ at' Es)). cbn [snd]. rewrite (valid_receipt _ (receipt_row_valid _ _ _ _ _ _ at_ Hs)).
  cbn [andb]. apply orb_true_iff. destruct Hw as [->| ->]; [right|left]; by apply bool_decide_eq_true.
Qed.

(** An accepted event comes next in every tail. *)
Lemma append_tail t ev c : Kept t -> in_namespace (event_row ev) = false -> c <= le_last t ->
  exists t', appendMonitorEvent sha256Hex ev t = (Ok tt, t') /\ Kept t' /\
    events_since c t' = events_since c t ++ [{| ev_seq := le_last t + 1; ev_body := stored ev |}].
Proof.
  intros HK En Hc. pose proof (append_cases ev t HK) as Ha. rewrite En in Ha.
  rewrite (insert_free _ _ HK En) in Ha. unfold statement in Ha. eexists. split; [exact Ha|].
  pose proof (append_kept _ _ _ _ HK Ha) as (HK' & Hg & _). split; [done|]. set (t' := {| le_rows := _ |}) in *.
  unfold events_since. rewrite (rows_resume c t t') by first [apply HK|done]. rewrite map_app. f_equal.
  unfold rows_since. cbn [le_rows t']. rewrite filter_app, (filter_none _ (le_rows t)).
  - cbn [app]. rewrite filter_cons_True by (cbn; lia). cbn [map]. by rewrite row_event_of.
  - destruct (kept_ordered _ HK) as (_ & Hb & _). apply Forall_fmap in Hb. eapply Forall_impl; [exact Hb|]. cbn. lia.
Qed.
Lemma tail_kept c t : Kept t -> tailEventsSince sha256Hex c t = (Ok (events_since c t), t).
Proof. intros HK. unfold tailEventsSince. by rewrite (bind_step _ _ _ _ _ (ensure_kept _ HK)). Qed.

(** ** The claims *)
(** C23: A scope-handoff receipt is written once and stays: after a schema guard has passed, whatever appends, receipts, schema
    passes, plain INSERTs with or without a [seq] (also of rows the trigger should have refused, in the gap of a schema pass),
    UPDATEs of columns and DELETEs happen before and after, an accepted receipt is what later reads by item and by action return,
    and no second receipt for its item or its action is accepted.  It is not so for OR REPLACE statements, which delete without
    firing the delete trigger ([replace_loses_receipt]), nor for clients that drop indexes. *)
Theorem receipts_permanent t0 t t1 t2 t3 w a s p d e at_ :
  ensureLoopEventSchema sha256Hex t0 = (Ok tt, t) -> rtc LogStep t t1 ->
  insertScopeHandoffReceipt sha256Hex w a s p d e at_ t1 = (Ok tt, t2) -> rtc LogStep t2 t3 ->
  let R := {| sr_seq := le_last t1 + 1; sr_wgId := w; sr_actionId := a; sr_stage := s; sr_artifactPath := p;
              sr_artifactSha256 := d; sr_evidenceKind := e |} in
  readScopeHandoffByItem sha256Hex w t3 = (Ok (Some R), t3) /\ readScopeHandoffByAction sha256Hex a t3 = (Ok (Some R), t3) /\
  forall w' a' s' p' d' e' at', w' = w \/ a' = a ->
    exists err, insertScopeHandoffReceipt sha256Hex w' a' s' p' d' e' at' t3 = (Err err, t3).
Proof.
  intros He H1 Hi H2. apply ensure_seals in He as HS. destruct (log_steps_sealed _ _ HS H1) as [HS1 _].
  unfold insertScopeHandoffReceipt in Hi. destruct (isSemanticScopeReceipt _ _ _ _ _ _ _) eqn:Hs; [|done]. cbn [negb] in Hi.
  destruct (insert_sealed _ _ _ _ HS1 Hi) as (HS2 & _ & Hr).
  specialize (Hr eq_refl (valid_receipt _ (receipt_row_valid _ _ _ _ _ _ at_ Hs))).
  destruct (log_steps_sealed _ _ HS2 H2) as [HS3 Hsub]. apply Hsub in Hr.
  split; [by eapply read_item_receipt|]. split; [by eapply read_action_receipt|]. intros. by eapply second_receipt.
Qed.

(** What is appended is what a tail reads: an event whose action id is outside the receipt namespace (in any case of its
    letters) is accepted, and a reader at any cursor then reads what it read before and the event at the next [seq], every field
    unchanged except that an exit code of [null] reads as absent; one inside the namespace is refused and leaves the log as it was. *)
Lemma tail_reads_appended t ev c : Kept t -> c <= le_last t ->
  if in_namespace (event_row ev)
  then exists err, appendMonitorEvent sha256Hex ev t = (Err err, t)
  else exists t', appendMonitorEvent sha256Hex ev t = (Ok tt, t') /\
    (tailEventsSince sha256Hex c t').1 = mbind (M := result string) (fun l => Ok (l ++ [{| ev_seq := le_last t + 1; ev_body := stored ev |}])) (tailEventsSince sha256Hex c t).1.
Proof.
  intros HK Hc. pose proof (append_cases ev t HK) as Ha. destruct (in_namespace (event_row ev)) eqn:En; [done|].
  destruct (append_tail t ev c HK En Hc) as (t' & Hap & HK' & Ht). exists t'. split; [done|]. rewrite !tail_kept by done. cbn. by rewrite Ht.
Qed.
End Receipts.
