(* ===== verification/LoopBoard.v ===== *)
(** * The board, its surfaces and its readers

    [foldEvents] of loop_events.ts, the read model of loop_state.ts, the
    renderers and the watch of [src/src/cli/loop_status.ts], the snapshot
    writer of statusline_snapshot.ts and the fail-open emit of monitor_emit.ts.
    A [Map] is an association list in insertion order; a poll of the
    subscription is the table it finds. *)

From Stdlib Require Import Ascii String ZArith.
From stdpp Require Import base option list strings gmap pretty.
From S2P Require Import Prelude Effects Json LoopEvents.
#[local] Open Scope os_scope.
#[local] Open Scope Z_scope.

(** ** The fold *)
Record LoopFoldState := {
  fs_wgId : string; fs_stage : option string; fs_phase : option string; fs_index : option Z; fs_total : option Z;
  fs_lifecycle : option PhaseLifecycle; fs_lastEventAtMs : Z; fs_terminal : bool }.
Definition fresh_state (wgId : string) (atMs : Z) : LoopFoldState :=
  {| fs_wgId := wgId; fs_stage := None; fs_phase := None; fs_index := None; fs_total := None; fs_lifecycle := None;
     fs_lastEventAtMs := atMs; fs_terminal := false |}.
Definition touch (atMs : Z) (s : LoopFoldState) : LoopFoldState :=
  {| fs_wgId := fs_wgId s; fs_stage := fs_stage s; fs_phase := fs_phase s; fs_index := fs_index s; fs_total := fs_total s;
     fs_lifecycle := fs_lifecycle s; fs_lastEventAtMs := atMs; fs_terminal := fs_terminal s |}.
(** [e.kind.startsWith('process_')] *)
Definition is_process (e : MonitorEvent) : bool := starts_with (ev_kind e) "process_".
Definition in_phase (e : MonitorEvent) (l : PhaseLifecycle) (s : LoopFoldState) : LoopFoldState :=
  let i := ev_item e in
  {| fs_wgId := fs_wgId s; fs_stage := fs_stage s; fs_phase := ev_phase i; fs_index := ev_index i; fs_total := ev_total i;
     fs_lifecycle := Some l; fs_lastEventAtMs := fs_lastEventAtMs s; fs_terminal := fs_terminal s |}.
(** The [switch] on an event that is no process's. *)
Definition item_step (e : MonitorEvent) (s : LoopFoldState) : LoopFoldState :=
  match kind_of (ev_kind e) with
  | Some stage_advance =>
      {| fs_wgId := fs_wgId s; fs_stage := ev_stage (ev_item e); fs_phase := None; fs_index := None; fs_total := None;
         fs_lifecycle := None; fs_lastEventAtMs := fs_lastEventAtMs s; fs_terminal := fs_terminal s |}
  | Some phase_enter => in_phase e lc_running s
  | Some phase_leave => in_phase e lc_done s
  | Some item_shipped | Some item_closed =>
      {| fs_wgId := fs_wgId s; fs_stage := fs_stage s; fs_phase := fs_phase s; fs_index := fs_index s; fs_total := fs_total s;
         fs_lifecycle := fs_lifecycle s; fs_lastEventAtMs := fs_lastEventAtMs s; fs_terminal := true |}
  | _ => s
  end.
Abbreviation FoldMap := (list (string * LoopFoldState)).
Definition applyMonitorEvent (byWg : FoldMap) (e : MonitorEvent) : FoldMap :=
  let found := obj_get (ev_wgId e) byWg in
  if is_process e then
    match found with Some s => obj_set (ev_wgId e) (touch (ev_atMs e) s) byWg | None => byWg end
  else
    let s := default (fresh_state (ev_wgId e) (ev_atMs e)) found in
    obj_set (ev_wgId e) (item_step e (touch (ev_atMs e) s)) byWg.
Definition fold_map (events : list MonitorEvent) : FoldMap := fold_left applyMonitorEvent events [].
Definition foldEvents (events : list MonitorEvent) : list LoopFoldState := (fold_map events).*2.

(** ** The read model *)
Record LoopStateItem := {
  li_wgId : string; li_stage : string; li_phase : option string; li_phaseIndex : option Z; li_phaseTotal : option Z;
  li_lifecycle : option PhaseLifecycle; li_lastActivityMs : option Z; li_updatedAt : Z; li_terminal : bool }.
Abbreviation LoopState := (list LoopStateItem).
Definition mapFold (fold : list LoopFoldState) : LoopState :=
  map (fun f => {| li_wgId := fs_wgId f; li_stage := default "" (fs_stage f); li_phase := fs_phase f; li_phaseIndex := fs_index f;
                   li_phaseTotal := fs_total f; li_lifecycle := fs_lifecycle f; li_lastActivityMs := Some (fs_lastEventAtMs f);
                   li_updatedAt := fs_lastEventAtMs f; li_terminal := fs_terminal f |}) fold.
Definition liveItems (state : LoopState) : LoopState := filter (fun i => li_terminal i = false) state.
Section Reads.
Variable sha256Hex : string -> string.
Definition foldLatestState : Stmt LoopEvents (list LoopFoldState) :=
  tailEventsSince sha256Hex 0 ≫= fun events => mret (foldEvents events).
Definition collectLoopState : Stmt LoopEvents LoopState := foldLatestState ≫= fun fold => mret (mapFold fold).
End Reads.

(** ** Subscribing *)
(** Each poll tails past the cursor; a tail that throws rejects the
    subscription.  The list is the tables the polls find. *)
Section Subscribe.
Context {S : Type} (sha256Hex : string -> string) (onEvent : S -> MonitorEvent -> S) (shouldStop : S -> bool).
Fixpoint subscribeMonitor (cursor : Z) (s : S) (polls : list LoopEvents) : result string unit * (S * Z) :=
  match polls with
  | [] => (Ok tt, (s, cursor))
  | t :: polls =>
      if shouldStop s then (Ok tt, (s, cursor))
      else match (tailEventsSince sha256Hex cursor t).1 with
           | Err e => (Err e, (s, cursor))
           | Ok batch => subscribeMonitor (fold_left (fun _ e => ev_seq e) batch cursor) (fold_left onEvent batch s) polls
           end
  end.
End Subscribe.

(** ** Rendering *)
Definition show (z : Z) : string := pretty z.
(** [s.length]: UTF-16 code units of a UTF-8 string. *)
Definition byte_units (c : ascii) : nat :=
  let n := nat_of_ascii c in
  if Nat.ltb n 128 then 1%nat else if Nat.ltb n 192 then 0%nat else if Nat.ltb n 240 then 1%nat else 2%nat.
Fixpoint units (s : string) : nat :=
  match s with EmptyString => 0%nat | String c s => (byte_units c + units s)%nat end.
Definition formatRelativeAge (deltaMs : Z) : string :=
  if deltaMs <? 60000 then "just now"
  else let m := deltaMs / 60000 in
       if m <? 60 then show m +:+ "m ago" else show (m / 60) +:+ "h ago".
Definition counter (index total : option Z) : string :=
  match index, total with Some i, Some n => " (" +:+ show i +:+ "/" +:+ show n +:+ ")" | _, _ => "" end.
Definition last_moved (item : LoopStateItem) : Z := default (li_updatedAt item) (li_lastActivityMs item).
Definition renderItem (now : Z) (item : LoopStateItem) : string :=
  let phase := match li_phase item with
               | Some p => [p +:+ counter (li_phaseIndex item) (li_phaseTotal item) +:+
                            match li_lifecycle item with Some lc_done => " ✓" | Some lc_running => " ⟳" | None => "" end]
               | None => [] end in
  join_with " · " ([li_wgId item; li_stage item] ++ phase ++ [formatRelativeAge (now - last_moved item)]).
Definition PILL : string := "🦑 ".
Definition IDLE_LINE : string := "🦑 loop idle — no items in flight".
Definition DRAIN_LINE : string := "■ loop drained — no items in flight".
Definition joinLine (chunks : list string) : string := join_with "  " chunks.
Definition more (n : nat) : string := "+" +:+ show (Z.of_nat n) +:+ " more".
(** The loop over the rendered items, [used] units so far. *)
Fixpoint fit (width used : nat) (out rendered : list string) : list string :=
  match rendered with
  | [] => out
  | chunk :: rest =>
      let sep := match out with [] => 0%nat | _ => 2%nat end in
      let suffix := match rest with [] => 0%nat | _ => units ("  " +:+ more (List.length rest)) end in
      if (width <? used + (sep + units chunk) + suffix)%nat && match out with [] => false | _ => true end
      then out ++ [more (List.length rendered)]
      else fit width (used + (sep + units chunk)) (out ++ [chunk]) rest
  end.
Definition fitted (width : nat) (rendered : list string) : string := PILL +:+ joinLine (fit width (units PILL) [] rendered).
(** [b - a] on what moved last: freshest first, ties in order. *)
Definition fresher (a b : LoopStateItem) : bool := last_moved b <=? last_moved a.
Definition renderStatusLine (width : nat) (now : Z) (items : LoopState) : string :=
  match items with
  | [] => IDLE_LINE
  | _ => fitted width (map (renderItem now) (stable_sort fresher items))
  end.
Definition renderStatuslineFragment (width : nat) (now : Z) (items : LoopState) : string :=
  match items with
  | [] => ""
  | _ => fitted width (map (renderItem now) items)
  end.
Definition renderEvent (now : Z) (e : MonitorEvent) : string :=
  let age := formatRelativeAge (now - ev_atMs e) in
  let line l := join_with " · " ([ev_wgId e] ++ l ++ [age]) in
  let process s := line [default "process" (ev_processId (ev_process e)); s] in
  let control s := process (default "control" (action_name <$> ev_controlAction (ev_action e)) +:+ s) in
  let i := ev_item e in
  match kind_of (ev_kind e) with
  | Some stage_advance => line [default "" (ev_stage i)]
  | Some phase_enter | Some phase_leave =>
      line [default "" (ev_phase i) +:+ counter (ev_index i) (ev_total i) +:+
            match ev_lifecycle i with Some lc_done => " ✓" | _ => " ⟳" end]
  | Some item_shipped => line ["✓ shipped"]
  | Some item_closed => line ["✓ closed"]
  | Some item_wedged => line ["⚠ wedged"]
  | Some process_started => process "running"
  | Some process_shutdown_pending => process "graceful shutdown pending"
  | Some process_shutdown_requested => process "human graceful stop"
  | Some process_terminate_requested => process "human terminate"
  | Some process_force_kill_requested => process "human force-kill"
  | Some process_paused => process "paused"
  | Some process_resumed => process "resumed"
  | Some process_exited => process "exited"
  | Some process_spawn_failed => process "spawn failed"
  | Some process_control_requested => control " requested"
  | Some process_control_applied => control " applied"
  | Some process_control_failed => control " failed"
  | None => "undefined"
  end.

(** ** [--watch] *)
Record Watch := { wt_live : list string; wt_drained : bool; wt_out : list string }.
Definition closes_item (e : MonitorEvent) : bool :=
  match kind_of (ev_kind e) with Some item_shipped | Some item_closed => true | _ => false end.
Definition live_step (live : list string) (e : MonitorEvent) : list string :=
  if closes_item e then filter (fun w => w <> ev_wgId e) live
  else if is_process e then live else set_add live (ev_wgId e).
Definition on_watched (now : Z) (w : Watch) (e : MonitorEvent) : Watch :=
  let live := live_step (wt_live w) e in
  let drains := match live with [] => negb (wt_drained w) | _ => false end in
  {| wt_live := live; wt_drained := wt_drained w || drains;
     wt_out := wt_out w ++ [renderEvent now e] ++ (if drains then [DRAIN_LINE] else []) |}.
Definition seed_live (folded : list LoopFoldState) : list string :=
  set_of (map fs_wgId (filter (fun f => fs_terminal f = false) folded)).
Section RunWatch.
Variable sha256Hex : string -> string.
Definition start_watch (now : Z) (seed : list MonitorEvent) : Watch :=
  let folded := foldEvents seed in
  let live := seed_live folded in
  {| wt_live := live; wt_drained := match live with [] => true | _ => false end;
     wt_out := map (renderItem now) (liveItems (mapFold folded)) ++ match live with [] => [DRAIN_LINE] | _ => [] end |}.
(** The board and the cursor come from one read; a drained board is not
    watched.  The clock of the lines is fixed. *)
Definition runWatch (now : Z) (t : LoopEvents) (polls : list LoopEvents) : result string unit * Watch :=
  match (tailEventsSince sha256Hex 0 t).1 with
  | Err e => (Err e, {| wt_live := []; wt_drained := false; wt_out := [] |})
  | Ok seed =>
      let w := start_watch now seed in
      if wt_drained w then (Ok tt, w)
      else let run := subscribeMonitor sha256Hex (on_watched now) wt_drained (foldr (fun e m => Z.max (ev_seq e) m) 0 seed) w polls in
           (run.1, run.2.1)
  end.
End RunWatch.

(** ** Publishing *)
Record StatuslineSnapshotDeps (E : Type) := {
  sd_collect : Stmt E LoopState; sd_resolveDir : string -> Stmt E string; sd_write : string -> string -> Stmt E unit }.
Arguments sd_collect {E}. Arguments sd_resolveDir {E}. Arguments sd_write {E}.
Definition FRAGMENT_WIDTH : nat := 40.
Definition STATUSLINE_SNAPSHOT_FILE : string := "loop-statusline".
Section Publish.
Context {E : Type} (deps : StatuslineSnapshotDeps E) (append : NewMonitorEvent -> Stmt E unit).
Definition writeStatuslineSnapshot (cwd : string) (now : Z) : Stmt E unit :=
  sd_collect deps ≫= fun state =>
  sd_resolveDir deps cwd ≫= fun dir =>
  sd_write deps (dir +:+ "/" +:+ STATUSLINE_SNAPSHOT_FILE) (renderStatuslineFragment FRAGMENT_WIDTH now (liveItems state)).
Definition refreshStatuslineSnapshot (cwd : string) (now : Z) : Stmt E unit := ignored (writeStatuslineSnapshot cwd now).
Definition emitMonitorEvent (cwd : string) (now : Z) (ev : NewMonitorEvent) : Stmt E unit :=
  ignored (append ev) ≫= fun _ => refreshStatuslineSnapshot cwd now.
End Publish.
