(* ===== verification/LoopBoardProps.v ===== *)
(** * What the board shows

    The fold as a function of each item's own events, the line that fits its
    width, the watch and the subscription. *)

From Stdlib Require Import Ascii String ZArith Lia.
From stdpp Require Import base option list strings gmap pretty.
From S2P Require Import Prelude Effects Json LoopEvents LoopLogProps LoopBoard.
#[local] Open Scope os_scope.
#[local] Open Scope Z_scope.

Implicit Types (e : MonitorEvent) (events : list MonitorEvent).

(** ** The reference: an item's state from the log *)
Definition item_of (w : string) (e : MonitorEvent) : bool := negb (is_process e) && (ev_wgId e =? w)%string.
Definition closes (w : string) (e : MonitorEvent) : bool := item_of w e && closes_item e.
(** What the last event that says something says. *)
Definition last_said {B} (f : MonitorEvent -> option B) (events : list MonitorEvent) : option B :=
  fold_left (fun said e => match f e with Some b => Some b | None => said end) events None.
Definition says_stage (w : string) (e : MonitorEvent) : option (option string) :=
  if item_of w e && bool_decide (kind_of (ev_kind e) = Some stage_advance) then Some (ev_stage (ev_item e)) else None.
Definition Position : Type := option string * option Z * option Z * option PhaseLifecycle.
Definition says_position (w : string) (e : MonitorEvent) : option Position :=
  let i := ev_item e in
  if item_of w e then
    match kind_of (ev_kind e) with
    | Some stage_advance => Some (None, None, None, None)
    | Some phase_enter => Some (ev_phase i, ev_index i, ev_total i, Some lc_running)
    | Some phase_leave => Some (ev_phase i, ev_index i, ev_total i, Some lc_done)
    | _ => None
    end
  else None.
Definition says_time (w : string) (e : MonitorEvent) : option Z := if (ev_wgId e =? w)%string then Some (ev_atMs e) else None.
Definition state_of (events : list MonitorEvent) (w : string) : option LoopFoldState :=
  let p := default (None, None, None, None) (last_said (says_position w) events) in
  if existsb (item_of w) events
  then Some {| fs_wgId := w; fs_stage := mjoin (last_said (says_stage w) events); fs_phase := p.1.1.1; fs_index := p.1.1.2;
               fs_total := p.1.2; fs_lifecycle := p.2; fs_lastEventAtMs := default 0 (last_said (says_time w) events);
               fs_terminal := existsb (closes w) events |}
  else None.
(** The items, by their first event. *)
Definition items_of (events : list MonitorEvent) : list string :=
  set_of (map (fun e : MonitorEvent => ev_wgId e) (filter (fun e => is_process e = false) events)).

Lemma last_said_snoc {B} (f : MonitorEvent -> option B) events e :
  last_said f (events ++ [e]) = match f e with Some b => Some b | None => last_said f events end.
Proof. unfold last_said. by rewrite fold_left_app. Qed.
Lemma existsb_snoc {A} (f : A -> bool) l a : existsb f (l ++ [a]) = existsb f l || f a.
Proof. rewrite existsb_app. cbn. by rewrite orb_false_r. Qed.
Lemma fold_map_snoc events e : fold_map (events ++ [e]) = applyMonitorEvent (fold_map events) e.
Proof. unfold fold_map. by rewrite fold_left_app. Qed.
Lemma applied_other w m e : ev_wgId e <> w -> obj_get w (applyMonitorEvent m e) = obj_get w m.
Proof.
  intros Hne. unfold applyMonitorEvent. destruct (is_process e); [destruct (obj_get (ev_wgId e) m); [|done]|];
    by apply obj_get_set_ne.
Qed.
Lemma applied_same m e : obj_get (ev_wgId e) (applyMonitorEvent m e) =
  if is_process e then touch (ev_atMs e) <$> obj_get (ev_wgId e) m
  else Some (item_step e (touch (ev_atMs e) (default (fresh_state (ev_wgId e) (ev_atMs e)) (obj_get (ev_wgId e) m)))).
Proof.
  unfold applyMonitorEvent. destruct (is_process e); [|by rewrite obj_get_set_eq].
  destruct (obj_get (ev_wgId e) m) as [s|] eqn:E; [by rewrite obj_get_set_eq|by rewrite E].
Qed.

Lemma last_said_none {B} (f : MonitorEvent -> option B) (g : MonitorEvent -> bool) events :
  (forall e, g e = false -> f e = None) -> existsb g events = false -> last_said f events = None.
Proof.
  intros Hf. induction events as [|e events IH] using rev_ind; [done|].
  rewrite existsb_snoc, last_said_snoc. intros [H1 H2]%orb_false_iff. rewrite Hf by done. by apply IH.
Qed.
Lemma existsb_weaken {A} (f g : A -> bool) l : (forall a, g a = false -> f a = false) -> existsb g l = false -> existsb f l = false.
Proof. intros H. induction l as [|a l IH]; [done|]. cbn. intros [H1 H2]%orb_false_iff. by rewrite H, IH. Qed.
Lemma unsaid w events : existsb (item_of w) events = false ->
  last_said (says_stage w) events = None /\ last_said (says_position w) events = None /\ existsb (closes w) events = false.
Proof.
  intros H. split; [|split].
  - apply (last_said_none _ (item_of w)); [|done]. intros e He. unfold says_stage. by rewrite He.
  - apply (last_said_none _ (item_of w)); [|done]. intros e He. unfold says_position. by rewrite He.
  - apply (existsb_weaken _ (item_of w)); [|done]. intros e He. unfold closes. by rewrite He.
Qed.
Lemma says_other w e : ev_wgId e <> w ->
  item_of w e = false /\ closes w e = false /\ says_stage w e = None /\ says_position w e = None /\ says_time w e = None.
Proof.
  intros Hne%String.eqb_neq. unfold closes, says_stage, says_position, says_time, item_of. by rewrite Hne, !andb_false_r.
Qed.
Lemma fold_get events w : obj_get w (fold_map events) = state_of events w.
Proof.
  induction events as [|e events IH] using rev_ind; [done|]. rewrite fold_map_snoc. unfold state_of in *.
  rewrite !last_said_snoc, !existsb_snoc. destruct (decide (ev_wgId e = w)) as [<-|Hne].
  2:{ rewrite applied_other, IH by done. destruct (says_other w e Hne) as (-> & -> & -> & -> & ->). by rewrite !orb_false_r. }
  pose proof (unsaid (ev_wgId e) events) as Hun. rewrite applied_same, IH. clear IH.
  assert (Hi : item_of (ev_wgId e) e = negb (is_process e)) by (unfold item_of; by rewrite String.eqb_refl, andb_true_r).
  assert (Ht : says_time (ev_wgId e) e = Some (ev_atMs e)) by (unfold says_time; by rewrite String.eqb_refl).
  assert (Hc : closes (ev_wgId e) e = negb (is_process e) && closes_item e) by (unfold closes; by rewrite Hi).
  eassert (Hs : says_stage (ev_wgId e) e = _) by (unfold says_stage; rewrite Hi; reflexivity).
  eassert (Hp : says_position (ev_wgId e) e = _) by (unfold says_position; rewrite Hi; reflexivity).
  rewrite Hs, Hp, Hi, Ht, Hc. clear Hs Hp Hi Ht Hc.
  destruct (is_process e) eqn:Ep; cbn [negb andb].
  - rewrite !orb_false_r. by destruct (existsb (item_of _) events).
  - rewrite orb_true_r. unfold item_step, closes_item. f_equal.
    destruct (existsb (item_of _) events) eqn:Ex; cbn [default from_option].
    + destruct (kind_of (ev_kind e)) as [[]|]; cbn; rewrite ?orb_true_r, ?orb_false_r; done.
    + destruct (Hun eq_refl) as (-> & -> & ->). destruct (kind_of (ev_kind e)) as [[]|]; done.
Qed.

Lemma obj_keys_set {V} k (v : V) o : obj_keys (obj_set k v o) = set_add (obj_keys o) k.
Proof.
  unfold obj_keys, set_add, set_has. induction o as [|[k' v'] o IH]; [done|]. cbn [obj_set fmap list_fmap fst].
  destruct (String.eqb_spec k k') as [->|Hne]; cbn [fmap list_fmap fst].
  - rewrite bool_decide_true by left. done.
  - rewrite IH. case_bool_decide; case_bool_decide; set_solver.
Qed.
Lemma set_add_in {A} `{!EqDecision A} (x : A) l : x ∈ l -> set_add l x = l.
Proof. intros H. unfold set_add. by rewrite (proj2 (set_has_spec x l) H). Qed.
Lemma items_of_snoc events e : items_of (events ++ [e]) = if is_process e then items_of events else set_add (items_of events) (ev_wgId e).
Proof.
  unfold items_of, set_of. rewrite filter_app, map_app, fold_left_app, filter_cons. by destruct (is_process e).
Qed.
Lemma fold_keys events : obj_keys (fold_map events) = items_of events.
Proof.
  induction events as [|e events IH] using rev_ind; [done|]. rewrite fold_map_snoc, items_of_snoc, <- IH. unfold applyMonitorEvent.
  destruct (is_process e); [|apply obj_keys_set]. destruct (obj_get (ev_wgId e) (fold_map events)) eqn:E; [|done].
  rewrite obj_keys_set. apply set_add_in, obj_get_is_Some. eauto.
Qed.
Lemma values_from {V} (o o0 : list (string * V)) : (forall kv, kv ∈ o -> obj_get kv.1 o0 = Some kv.2) ->
  o.*2 = omap (fun k => obj_get k o0) (obj_keys o).
Proof.
  unfold obj_keys. induction o as [|[k v] o IH]; intros Hs; [done|].
  assert (E : obj_get k o0 = Some v) by (apply (Hs (k, v)); left). cbn. rewrite E. cbn. f_equal. apply IH. intros kv Hkv. apply Hs. by right.
Qed.
Lemma omap_same {A B} (f g : A -> option B) (l : list A) : (forall a, f a = g a) -> omap f l = omap g l.
Proof. intros H. induction l as [|a l IH]; [done|]. cbn. by rewrite H, IH. Qed.
(** The fold is the reference, item by item, by first appearance. *)
Lemma foldEvents_exact events : foldEvents events = omap (state_of events) (items_of events).
Proof.
  unfold foldEvents. rewrite (values_from _ (fold_map events)).
  - rewrite fold_keys. apply omap_same. intros w. apply fold_get.
  - intros [k v] Hkv. apply elem_obj_get; [|done]. rewrite fold_keys. apply NoDup_set_of.
Qed.

Lemma live_ids_cons f fold : map li_wgId (liveItems (mapFold (f :: fold))) =
  if fs_terminal f then map li_wgId (liveItems (mapFold fold)) else fs_wgId f :: map li_wgId (liveItems (mapFold fold)).
Proof. unfold liveItems, mapFold. cbn [map]. rewrite filter_cons. cbn [li_terminal]. by destruct (fs_terminal f). Qed.
Lemma live_ids fold : map li_wgId (liveItems (mapFold fold)) = map fs_wgId (filter (fun f => fs_terminal f = false) fold).
Proof.
  induction fold as [|f fold IH]; [done|]. rewrite live_ids_cons, IH, filter_cons. by destruct (fs_terminal f).
Qed.
Lemma live_exact events :
  map li_wgId (liveItems (mapFold (foldEvents events))) = filter (fun w => existsb (closes w) events = false) (items_of events).
Proof.
  rewrite foldEvents_exact.
  assert (H : forall w, w ∈ items_of events -> existsb (item_of w) events = true).
  { intros w Hw. unfold items_of in Hw. apply elem_of_set_of, list_elem_of_fmap in Hw as (e & -> & [Hp He]%list_elem_of_filter).
    apply existsb_exists. exists e. split; [by apply list_elem_of_In|]. unfold item_of. by rewrite Hp, String.eqb_refl. }
  induction (items_of events) as [|w ws IH]; [done|]. cbn [omap list_omap]. unfold state_of at 1.
  rewrite H, live_ids_cons, IH by (try (by left); intros; apply H; by right). rewrite filter_cons. cbn [fs_terminal fs_wgId].
  by destruct (existsb (closes w) events).
Qed.
(** C25: The board is a function of each item's own events: the fold of a log gives, for every item in the order of its first
    event, its last stage, the phase its last stage or phase event set (none after a stage advance), the time of its last event of
    any kind, and whether it was ever closed or shipped; the live view shows exactly the items that never were. *)
Theorem board_exact events :
  foldEvents events = omap (state_of events) (items_of events) /\
  map li_wgId (liveItems (mapFold (foldEvents events))) = filter (fun w => existsb (closes w) events = false) (items_of events).
Proof. split; [apply foldEvents_exact|apply live_exact]. Qed.

(** ** Resuming: chunks, polls and the watch *)
Lemma cursor_of batch c : fold_left (fun _ e => ev_seq e) batch c = default c (ev_seq <$> last batch).
Proof. induction batch as [|e batch IH] using rev_ind; [done|]. by rewrite fold_left_app, last_snoc. Qed.
(** Tables that polls find while other clients append. *)
Inductive growing (sha256Hex : string -> string) : LoopEvents -> list LoopEvents -> Prop :=
| growing_end t : growing sha256Hex t []
| growing_poll t t' polls : Kept sha256Hex t' -> grows t t' -> growing sha256Hex t' polls -> growing sha256Hex t (t' :: polls).
Lemma sorted_last l z : Sorted.StronglySorted Z.lt l -> last l = Some z -> Forall (fun s => s <= z) l.
Proof.
  induction l as [|x l IH] using rev_ind; [done|]. rewrite last_snoc. intros Hs [= ->]. apply Forall_app. split; [|by constructor].
  clear IH. induction l as [|y l IH]; [done|]. cbn in Hs. apply Sorted.StronglySorted_inv in Hs as [Hs Hy]. constructor; [|by apply IH].
  rewrite Forall_app in Hy. destruct Hy as [_ Hy]. inversion_clear Hy. lia.
Qed.
Lemma events_seqs rows : map (fun e : MonitorEvent => ev_seq e) (map row_event rows) = map fst rows.
Proof. rewrite map_map. apply map_ext. done. Qed.
(** The cursor a batch leaves: nothing of the table is past it. *)
Lemma next_cursor c t : ordered t -> c <= le_last t ->
  let cursor := fold_left (fun _ e => ev_seq e) (events_since c t) c in
  c <= cursor <= le_last t /\ rows_since cursor t = [].
Proof.
  intros (Hs & Hb & _) Hc. cbn zeta. rewrite cursor_of. unfold events_since.
  pose proof (ordered_filter fst (fun sr : Z * Row => c < sr.1) (le_rows t) Hs) as Hs'. change (filter _ (le_rows t)) with (rows_since c t) in Hs'.
  assert (Hin : forall sr, sr ∈ rows_since c t -> c < sr.1 <= le_last t).
  { intros sr [H1 H2]%list_elem_of_filter. apply Forall_fmap in Hb. rewrite Forall_forall in Hb. specialize (Hb sr H2). cbn in Hb. lia. }
  assert (Hnone : forall k, (forall sr, sr ∈ rows_since c t -> sr.1 <= k) -> c <= k -> rows_since k t = []).
  { intros k Hk Hck. apply filter_none, Forall_forall. intros sr Hsr Hlt. 
    assert (sr ∈ rows_since c t) as ?%Hk by (apply list_elem_of_filter; split; [lia|done]). lia. }
  destruct (rows_since c t) as [|sr rows _] eqn:E using rev_ind.
  - cbn. split; [lia|]. apply Hnone; [set_solver|lia].
  - rewrite map_app. cbn [map]. rewrite last_snoc. cbn [option_fmap option_map fmap default from_option id row_event ev_seq].
    assert (Hl : c < sr.1 <= le_last t) by (apply Hin; set_solver). split; [lia|]. apply Hnone; [|lia].
    rewrite map_app in Hs'. cbn [map] in Hs'. apply (sorted_last _ sr.1) in Hs'; [|by rewrite last_snoc]. rewrite Forall_forall in Hs'.
    intros sr' Hsr'. apply Hs'. change [sr.1] with (map fst [sr]). rewrite <- map_app. apply list_elem_of_fmap. eauto.
Qed.
Lemma events_resume c t t' : ordered t -> grows t t' -> c <= le_last t ->
  let cursor := fold_left (fun _ e => ev_seq e) (events_since c t) c in
  events_since c t' = events_since c t ++ events_since cursor t'.
Proof.
  intros Ho Hg Hc. cbn zeta. destruct (next_cursor c t Ho Hc) as [Hle He]. set (cursor := fold_left _ _ _) in *.
  unfold events_since. rewrite (rows_resume c t t'), (rows_resume cursor t t'), He by (done || lia). by rewrite map_app.
Qed.
Lemma growing_weaken sha256Hex t0 t polls : grows t0 t -> growing sha256Hex t polls -> growing sha256Hex t0 polls.
Proof. intros H. destruct 1; constructor; try done. by eapply grows_trans. Qed.
Section Subscriber.
Context (sha256Hex : string -> string) {S : Type} (onEvent : S -> MonitorEvent -> S) (shouldStop : S -> bool).
(** A subscriber sees every event once, in order: what it has handled when it
    stops is what one tail of the last table it polled would read. *)
Lemma subscriber_sees_once t c s polls : ordered t -> growing sha256Hex t polls -> c <= le_last t ->
  exists polled rest s' cursor, polls = polled ++ rest /\ (rest = [] \/ shouldStop s' = true) /\
    subscribeMonitor sha256Hex onEvent shouldStop c s polls = (Ok tt, (s', cursor)) /\
    s' = fold_left onEvent (match last polled with Some tn => events_since c tn | None => [] end) s.
Proof.
  intros Ho Hg. revert c s Ho. induction Hg as [t|t t' polls HK Hgr Hg IH]; intros c s Ho Hc; cbn [subscribeMonitor].
  { exists [], [], s, c. auto. }
  destruct (shouldStop s) eqn:Es; [exists [], (t' :: polls), s, c; auto|].
  rewrite tail_kept by done. cbn [fst]. set (batch := events_since c t'). pose proof (kept_ordered _ _ HK) as Ho'.
  assert (Hc' : c <= le_last t') by (destruct Hgr as (? & ? & ? & _); lia).
  destruct (next_cursor c t' Ho' Hc') as [Hle _]. fold batch in Hle.
  edestruct (IH (fold_left (fun _ e => ev_seq e) batch c) (fold_left onEvent batch s)) as (polled & rest & s' & cur & -> & Hr & Hsub & Hs); [done|lia|].
  exists (t' :: polled), rest, s', cur. split; [done|]. split; [done|]. split; [done|]. rewrite Hs.
  destruct polled as [|tn polled _] using rev_ind; [done|]. rewrite app_comm_cons, !last_snoc, <- fold_left_app. f_equal. symmetry.
  apply events_resume; [done| |done]. clear -Hg. revert Hg. generalize t'. clear. induction polled as [|u polled IH]; intros t' H.
  - inversion_clear H. done.
  - inversion_clear H. eapply grows_trans; [done|]. by apply IH.
Qed.
End Subscriber.

(** ** The status line *)
Lemma units_app a b : units (a +:+ b) = (units a + units b)%nat.
Proof. induction a as [|c a IH]; [done|]. cbn [String.append units]. lia. Qed.
Definition suffix_units (n : nat) : nat := match n with O => 0%nat | _ => units ("  " +:+ more n) end.
Lemma join_snoc out chunk : out <> [] -> units (joinLine (out ++ [chunk])) = (units (joinLine out) + (2 + units chunk))%nat.
Proof. intros H. unfold joinLine. rewrite join_with_app by done. cbn [join_with]. rewrite !units_app. reflexivity. Qed.
(** [fit] shows some of what is left and counts the rest. *)
Lemma fit_shape width used out rendered : out <> [] -> exists k, (k <= List.length rendered)%nat /\
  fit width used out rendered = out ++ take k rendered ++ (if (k <? List.length rendered)%nat then [more (List.length rendered - k)] else []).
Proof.
  revert used out. induction rendered as [|chunk rest IH]; intros used out Hout; cbn [fit List.length].
  { exists 0%nat. by rewrite app_nil_r. }
  destruct (_ && _); [exists 0%nat; split; [lia|done]|].
  match goal with |- context [fit _ ?u (out ++ [chunk]) rest] => destruct (IH u (out ++ [chunk])) as (k & Hk & ->) end; [by destruct out|].
  exists (S k). split; [lia|]. by rewrite <- app_assoc.
Qed.
(** From a line that has room for the count of what is left, it fits. *)
Lemma fit_bound width out rendered : out <> [] ->
  (units PILL + units (joinLine out) + suffix_units (List.length rendered) <= width)%nat ->
  (units PILL + units (joinLine (fit width (units PILL + units (joinLine out)) out rendered)) <= width)%nat.
Proof.
  revert out. induction rendered as [|chunk rest IH]; intros out Hout Hw; cbn [fit].
  { cbn [suffix_units List.length] in Hw. lia. }
  destruct out as [|o out]; [done|]. set (out' := o :: out) in *. rewrite andb_true_r.
  assert (Es : (match rest with [] => 0 | _ => units ("  " +:+ more (List.length rest)) end)%nat = suffix_units (List.length rest)) by (by destruct rest).
  rewrite Es. change (suffix_units (List.length (chunk :: rest))) with (2 + units (more (S (List.length rest))))%nat in Hw.
  destruct (Nat.ltb_spec width (units PILL + units (joinLine out') + (2 + units chunk) + suffix_units (List.length rest))).
  - rewrite join_snoc by done. cbn [List.length]. lia.
  - assert (E : (units PILL + units (joinLine out') + (2 + units chunk) = units PILL + units (joinLine (out' ++ [chunk])))%nat)
      by (rewrite join_snoc by done; lia).
    rewrite E. apply IH; [by destruct out'|]. rewrite <- E. lia.
Qed.

(** The status line fits: it shows the first items, freshest first, and the number of the others, and if its first item
    with that number fits the width then so does the line. *)
Lemma statusline_fits width now i items :
  let rendered := map (renderItem now) (stable_sort fresher (i :: items)) in
  exists k, (1 <= k <= List.length rendered)%nat /\
    renderStatusLine width now (i :: items) =
      PILL +:+ joinLine (take k rendered ++ (if (k <? List.length rendered)%nat then [more (List.length rendered - k)] else [])) /\
    ((units PILL + units (default "" (head rendered)) + suffix_units (List.length rendered - 1) <= width)%nat ->
     (units (renderStatusLine width now (i :: items)) <= width)%nat).
Proof.
  intros rendered. assert (Hn : rendered <> []).
  { unfold rendered. intros H%(f_equal (@List.length _)). rewrite length_map, (Permutation_length (stable_sort_perm _ _)) in H. done. }
  unfold renderStatusLine, fitted. fold rendered. destruct rendered as [|r0 rest]; [done|]. clear Hn i items.
  cbn [fit List.length head default Nat.sub]. rewrite andb_false_r, Nat.sub_0_r. cbn [app].
  destruct (fit_shape width (units PILL + (0 + units r0)) [r0] rest) as (k & Hk & E); [done|].
  exists (S k). split; [lia|]. split; [by rewrite E|]. intros Hw. rewrite units_app. by apply (fit_bound width [r0] rest).
Qed.

(** ** The watch and the board *)
(** No event of an item follows the one that closed it. *)
Definition orderly (events : list MonitorEvent) : Prop :=
  forall pre e post, events = pre ++ e :: post -> is_process e = false -> existsb (closes (ev_wgId e)) pre = false.
Definition open_items (events : list MonitorEvent) : list string := filter (fun w => existsb (closes w) events = false) (items_of events).
Lemma named_name {A} (name : A -> string) all s a : named name all s = Some a -> name a = s.
Proof. unfold named. intros ([i b] & Hp & ->)%fmap_Some. by apply list_find_Some in Hp as (_ & ? & _). Qed.
Lemma closes_no_process e : closes_item e = true -> is_process e = false.
Proof.
  unfold closes_item, is_process. destruct (kind_of (ev_kind e)) as [k|] eqn:E; [|done]. apply named_name in E. rewrite <- E.
  by destruct k.
Qed.
Lemma elem_items_snoc w events e : w ∈ items_of (events ++ [e]) <-> w ∈ items_of events \/ (is_process e = false /\ w = ev_wgId e).
Proof. rewrite items_of_snoc. destruct (is_process e); [naive_solver|]. rewrite elem_of_set_add. naive_solver. Qed.
Lemma live_step_open live events e : orderly (events ++ [e]) -> (forall w, w ∈ live <-> w ∈ open_items events) ->
  forall w, w ∈ live_step live e <-> w ∈ open_items (events ++ [e]).
Proof.
  intros Ho Hl w. unfold live_step, open_items in *. specialize (Ho events e [] eq_refl).
  setoid_rewrite list_elem_of_filter in Hl. rewrite list_elem_of_filter, existsb_snoc, elem_items_snoc, orb_false_iff.
  assert (Hc : closes w e = closes_item e && bool_decide (w = ev_wgId e)).
  { unfold closes, item_of. pose proof (closes_no_process e). destruct (closes_item e); [|by rewrite andb_false_r].
    rewrite H, andb_true_r by done. cbn [negb andb]. destruct (String.eqb_spec (ev_wgId e) w) as [->|Hne]; by case_bool_decide. }
  rewrite Hc. pose proof (closes_no_process e) as Hp. destruct (closes_item e); cbn [andb].
  - rewrite list_elem_of_filter, Hl. specialize (Hp eq_refl). case_bool_decide; naive_solver.
  - destruct (is_process e); [rewrite Hl; naive_solver|]. rewrite elem_of_set_add, Hl.
    split; [intros [[? ?]| ->]; naive_solver|naive_solver].
Qed.
Lemma orderly_app a b : orderly (a ++ b) -> orderly a.
Proof. intros H pre e post ->. apply (H pre e (post ++ b)). by rewrite <- app_assoc. Qed.
Lemma watch_live now seed later : orderly (seed ++ later) ->
  forall w, w ∈ wt_live (fold_left (on_watched now) later (start_watch now seed)) <-> w ∈ open_items (seed ++ later).
Proof.
  induction later as [|e later IH] using rev_ind; intros Ho w.
  - rewrite app_nil_r. cbn [fold_left start_watch wt_live]. unfold seed_live. rewrite elem_of_set_of.
    pose proof (live_exact seed) as Hb. unfold open_items. by rewrite <- Hb, live_ids.
  - rewrite fold_left_app, app_assoc. cbn [fold_left on_watched wt_live]. apply live_step_open; [by rewrite <- app_assoc|].
    apply IH. eapply orderly_app. rewrite <- app_assoc. exact Ho.
Qed.
Lemma empty_iff {A} (l k : list A) : (forall a, a ∈ l <-> a ∈ k) -> l = [] <-> k = [].
Proof. intros H. split; intros ->; [destruct k as [|a k]|destruct l as [|a l]]; try done; specialize (H a); set_solver. Qed.
Lemma prefix_snoc_inv {A} (l k : list A) a : l `prefix_of` k ++ [a] -> l = k ++ [a] \/ l `prefix_of` k.
Proof.
  intros [m E]. destruct m as [|b m _] using rev_ind; [left; by rewrite app_nil_r in E|right].
  rewrite app_assoc in E. apply app_inj_tail in E as [-> _]. by exists m.
Qed.
(** On an orderly log the watch announces the drain exactly when the board has been empty since it started. *)
Lemma watch_drains_with_board now seed later : orderly (seed ++ later) ->
  wt_drained (fold_left (on_watched now) later (start_watch now seed)) = true <->
  exists seen, seen `prefix_of` later /\ open_items (seed ++ seen) = [].
Proof.
  induction later as [|e later IH] using rev_ind; intros Ho.
  - pose proof (empty_iff _ _ (watch_live now seed [] Ho)) as Hw. cbn [fold_left] in Hw. rewrite app_nil_r in Hw.
    cbn [fold_left]. transitivity (wt_live (start_watch now seed) = []).
    + unfold start_watch. cbn [wt_drained wt_live]. by destruct (seed_live _).
    + rewrite Hw. split; [intros H; exists []; by rewrite app_nil_r|]. intros (seen & ->%prefix_nil_inv & H). by rewrite app_nil_r in H.
  - pose proof (empty_iff _ _ (watch_live now seed (later ++ [e]) Ho)) as Hw. rewrite app_assoc in Ho.
    specialize (IH (orderly_app _ _ Ho)). rewrite fold_left_app in *. cbn [fold_left] in *.
    set (w := fold_left (on_watched now) later (start_watch now seed)) in *.
    assert (Hd : wt_drained (on_watched now w e) = true <-> wt_drained w = true \/ wt_live (on_watched now w e) = []).
    { unfold on_watched. cbn [wt_drained wt_live]. rewrite orb_true_iff. destruct (live_step _ _), (wt_drained w); naive_solver. }
    rewrite Hd, IH, Hw. split.
    + intros [(seen & Hp & H)|H]; [exists seen; split; [by apply prefix_app_r|done]|by exists (later ++ [e])].
    + intros (seen & [ -> | Hp]%prefix_snoc_inv & H); [by right|left; eauto].
Qed.
