(* ===== verification/LoopProjection.v ===== *)
(** * Incremental projections of the event log

    [foldLatestStateIncremental] of loop_events.ts and [projectedOwnedProcesses]
    of process_control.ts keep a fold of the log and a cursor, and advance both
    by the events past the cursor.  Refreshes run one after the other over a
    chain of promises; a refresh reads the log, then applies what it read, then
    returns what the projection shows by then.  The log grows in between, and
    any read may fail.  On the loop's chain a failure is forgotten ([heals]);
    on the process chain it rejects the refreshes queued behind it, and the
    chain is dropped when its last refresh ends. *)

From Stdlib Require Import ZArith Lia.
From stdpp Require Import base option list strings gmap.
From S2P Require Import Prelude Effects LoopEvents LoopLogProps LoopBoard LoopBoardProps.
#[local] Open Scope Z_scope.

Inductive RefreshPhase := queued | reading (batch : list MonitorEvent) | applied | faulted | returned | rethrown.
Record Refresh := {
  rf_prior : option nat; rf_phase : RefreshPhase;
  (** the last [seq] when the refresh was asked for; the code has no such field *)
  rf_since : Z }.
Definition in_state (p : RefreshPhase) (r : Refresh) : Refresh := {| rf_prior := rf_prior r; rf_phase := p; rf_since := rf_since r |}.

Section Projection.
Context {S : Type} (apply : S -> MonitorEvent -> S) (empty : S) (next : Z -> list MonitorEvent -> Z) (heals : bool).

Record Projecting := {
  pj_log : LoopEvents; pj_cursor : Z; pj_state : S; pj_refreshes : list Refresh;
  (** the refresh whose promise the next one chains on *)
  pj_chain : option nat;
  (** what refreshes have returned, with the [seq] they were asked at *)
  pj_returned : list (Z * S) }.
Definition start (t : LoopEvents) : Projecting :=
  {| pj_log := t; pj_cursor := 0; pj_state := empty; pj_refreshes := []; pj_chain := None; pj_returned := [] |}.

Definition succeeded (p : RefreshPhase) : bool := match p with applied | returned => true | _ => false end.
Definition threw (p : RefreshPhase) : bool := match p with faulted | rethrown => true | _ => false end.
Definition prior_phase (sy : Projecting) (r : Refresh) : option RefreshPhase :=
  n ← rf_prior r; q ← pj_refreshes sy !! n; Some (rf_phase q).
(** The [then] callback runs. *)
Definition may_read (sy : Projecting) (r : Refresh) : bool :=
  match prior_phase sy r with None => true | Some p => succeeded p || heals && threw p end.
Definition rejected (sy : Projecting) (r : Refresh) : bool :=
  match prior_phase sy r with None => false | Some p => negb heals && threw p end.
Definition with_phase (sy : Projecting) (n : nat) (p : RefreshPhase) : Projecting :=
  {| pj_log := pj_log sy; pj_cursor := pj_cursor sy; pj_state := pj_state sy;
     pj_refreshes := alter (in_state p) n (pj_refreshes sy); pj_chain := pj_chain sy; pj_returned := pj_returned sy |}.
(** [if (projectionUpdates.get(url) === update) projectionUpdates.delete(url)] *)
Definition drop_chain (n : nat) (sy : Projecting) : Projecting :=
  {| pj_log := pj_log sy; pj_cursor := pj_cursor sy; pj_state := pj_state sy; pj_refreshes := pj_refreshes sy;
     pj_chain := if negb heals && bool_decide (pj_chain sy = Some n) then None else pj_chain sy; pj_returned := pj_returned sy |}.

Inductive PStep (sy : Projecting) : Projecting -> Prop :=
| p_grow t' : grows (pj_log sy) t' -> ordered t' ->
    PStep sy {| pj_log := t'; pj_cursor := pj_cursor sy; pj_state := pj_state sy; pj_refreshes := pj_refreshes sy;
                pj_chain := pj_chain sy; pj_returned := pj_returned sy |}
| p_ask :
    PStep sy {| pj_log := pj_log sy; pj_cursor := pj_cursor sy; pj_state := pj_state sy;
                pj_refreshes := pj_refreshes sy ++ [{| rf_prior := pj_chain sy; rf_phase := queued; rf_since := le_last (pj_log sy) |}];
                pj_chain := Some (List.length (pj_refreshes sy)); pj_returned := pj_returned sy |}
| p_read n r : pj_refreshes sy !! n = Some r -> rf_phase r = queued -> may_read sy r = true ->
    PStep sy (with_phase sy n (reading (events_since (pj_cursor sy) (pj_log sy))))
| p_fault n r : pj_refreshes sy !! n = Some r -> rf_phase r = queued -> may_read sy r = true -> PStep sy (with_phase sy n faulted)
| p_reject n r : pj_refreshes sy !! n = Some r -> rf_phase r = queued -> rejected sy r = true -> PStep sy (with_phase sy n faulted)
| p_apply n r batch : pj_refreshes sy !! n = Some r -> rf_phase r = reading batch ->
    PStep sy (with_phase {| pj_log := pj_log sy; pj_cursor := next (pj_cursor sy) batch; pj_state := fold_left apply batch (pj_state sy);
                            pj_refreshes := pj_refreshes sy; pj_chain := pj_chain sy; pj_returned := pj_returned sy |} n applied)
| p_return n r : pj_refreshes sy !! n = Some r -> rf_phase r = applied ->
    PStep sy (drop_chain n (with_phase {| pj_log := pj_log sy; pj_cursor := pj_cursor sy; pj_state := pj_state sy;
                                          pj_refreshes := pj_refreshes sy; pj_chain := pj_chain sy;
                                          pj_returned := pj_returned sy ++ [(rf_since r, pj_state sy)] |} n returned))
| p_rethrow n r : pj_refreshes sy !! n = Some r -> rf_phase r = faulted -> PStep sy (drop_chain n (with_phase sy n rethrown)).

(** ** What a refresh returns *)
(** The cursor moves to the end of the batch. *)
Hypothesis next_ok : forall c t, ordered t -> c <= le_last t ->
  next c (events_since c t) = fold_left (fun _ e => ev_seq e) (events_since c t) c.
Definition upto (k : Z) (t : LoopEvents) : list MonitorEvent := map row_event (filter (fun sr => sr.1 <= k) (le_rows t)).
(** Every row up to [since] is up to [k]. *)
Definition covers (k since : Z) (t : LoopEvents) : Prop := Forall (fun sr => sr.1 <= since -> sr.1 <= k) (le_rows t).
Definition over (r : Refresh) : bool := succeeded (rf_phase r) || threw (rf_phase r).
Definition all_over (n : nat) (l : list Refresh) : Prop := forall m r, (m < n)%nat -> l !! m = Some r -> over r = true.

Record PInv (sy : Projecting) : Prop := {
  pi_ordered : ordered (pj_log sy);
  pi_cursor : 0 <= pj_cursor sy <= le_last (pj_log sy);
  pi_state : pj_state sy = fold_left apply (upto (pj_cursor sy) (pj_log sy)) empty;
  pi_begun : forall n r, pj_refreshes sy !! n = Some r -> rf_phase r <> queued -> all_over n (pj_refreshes sy);
  pi_prior : forall n r, pj_refreshes sy !! n = Some r ->
    match rf_prior r with None => all_over n (pj_refreshes sy) | Some p => n = Datatypes.S p end;
  pi_chain : match pj_chain sy with
             | None => all_over (List.length (pj_refreshes sy)) (pj_refreshes sy)
             | Some p => List.length (pj_refreshes sy) = Datatypes.S p end;
  pi_reading : forall n r batch, pj_refreshes sy !! n = Some r -> rf_phase r = reading batch ->
    exists c', pj_cursor sy <= c' <= le_last (pj_log sy) /\ next (pj_cursor sy) batch = c' /\
      upto c' (pj_log sy) = upto (pj_cursor sy) (pj_log sy) ++ batch /\ covers c' (rf_since r) (pj_log sy);
  pi_applied : forall n r, pj_refreshes sy !! n = Some r -> rf_phase r = applied -> covers (pj_cursor sy) (rf_since r) (pj_log sy);
  pi_since : forall n r, pj_refreshes sy !! n = Some r -> rf_since r <= le_last (pj_log sy);
  pi_returned : forall since v, (since, v) ∈ pj_returned sy ->
    exists k, 0 <= k <= le_last (pj_log sy) /\ since <= le_last (pj_log sy) /\ v = fold_left apply (upto k (pj_log sy)) empty /\
              covers k since (pj_log sy) }.

Lemma upto_grows k t t' : ordered t -> grows t t' -> k <= le_last t -> upto k t' = upto k t.
Proof.
  intros _ (extra & E & _ & Hm) Hk. unfold upto. rewrite E, filter_app, (filter_none _ extra), app_nil_r; [done|].
  eapply Forall_impl; [exact Hm|]. cbn. lia.
Qed.
Lemma covers_grows k since t t' : grows t t' -> since <= le_last t -> covers k since t -> covers k since t'.
Proof.
  intros (extra & E & _ & Hm) Hs Hc. unfold covers. rewrite E. apply Forall_app. split; [done|]. eapply Forall_impl; [exact Hm|]. cbn. lia.
Qed.
Lemma covers_mono k k' since t : k <= k' -> covers k since t -> covers k' since t.
Proof. intros Hk Hc. eapply Forall_impl; [exact Hc|]. cbn. lia. Qed.
Lemma rows_split c (rows : list (Z * Row)) : Sorted.StronglySorted Z.lt rows.*1 ->
  rows = filter (fun sr => sr.1 <= c) rows ++ filter (fun sr => c < sr.1) rows.
Proof.
  induction rows as [|sr rows IH]; intros Hs; [done|].
  cbn in Hs. apply Sorted.StronglySorted_inv in Hs as [Hs Hx]. rewrite !filter_cons. destruct (decide (sr.1 <= c)).
  - rewrite decide_False by lia. cbn. f_equal. by apply IH.
  - rewrite decide_True by lia. rewrite filter_none, filter_all; [done| |];
      rewrite Forall_fmap in Hx; eapply Forall_impl; [exact Hx| |exact Hx|]; cbn; lia.
Qed.
(** A batch read at the cursor takes the fold to the end of the log. *)
Lemma batch_reaches c t : ordered t -> c <= le_last t ->
  let c' := fold_left (fun _ e => ev_seq e) (events_since c t) c in
  c <= c' <= le_last t /\ upto c' t = upto c t ++ events_since c t /\ covers c' (le_last t) t.
Proof.
  intros Ho Hc. destruct (next_cursor c t Ho Hc) as [Hle He]. cbn zeta. set (c' := fold_left _ _ _) in *. split; [done|].
  destruct Ho as (Hs & Hb & _). unfold upto, events_since, rows_since, covers in *. rewrite <- map_app.
  assert (Hall : Forall (fun sr : Z * Row => sr.1 <= c') (le_rows t)).
  { apply Forall_forall. intros sr Hsr. destruct (decide (sr.1 <= c')) as [|Hn]; [done|exfalso].
    assert (Hin : sr ∈ filter (fun sr : Z * Row => c' < sr.1) (le_rows t)) by (apply list_elem_of_filter; split; [lia|done]).
    rewrite He in Hin. set_solver. }
  split; [|eapply Forall_impl; [exact Hall|]; cbn; lia].
  f_equal. rewrite (filter_all _ _ Hall). by apply rows_split.
Qed.

(** ** The invariant *)
Lemma alter_lookup n p (l : list Refresh) m r : alter (in_state p) n l !! m = Some r ->
  (m = n /\ exists r0, l !! n = Some r0 /\ r = in_state p r0) \/ (m <> n /\ l !! m = Some r).
Proof.
  destruct (decide (m = n)) as [->|Hne]; [|rewrite list_lookup_alter_ne by done; by right].
  rewrite list_lookup_alter_eq. intros (r0 & H & ->)%fmap_Some. left. eauto.
Qed.
(** A phase that is over stays over. *)
Definition keeps_over (n : nat) (p : RefreshPhase) (l : list Refresh) : Prop :=
  forall r, l !! n = Some r -> over r = true -> over (in_state p r) = true.
Lemma all_over_alter k n p l : keeps_over n p l -> all_over k l -> all_over k (alter (in_state p) n l).
Proof. intros Hk H m r Hm [[-> (r0 & Hl & ->)]|[_ Hl]]%alter_lookup; [apply Hk; [done|]|]; by eapply H. Qed.
Lemma front sy n r : PInv sy -> pj_refreshes sy !! n = Some r -> may_read sy r = true \/ rejected sy r = true ->
  all_over n (pj_refreshes sy).
Proof.
  intros HI Hn Hm. pose proof (pi_prior _ HI _ _ Hn) as Hp. unfold may_read, rejected, prior_phase in Hm.
  destruct (rf_prior r) as [p|]; [subst n|done]. cbn [mbind option_bind] in Hm.
  destruct (lookup_lt_is_Some_2 (pj_refreshes sy) p) as [q Hq]; [apply lookup_lt_Some in Hn; lia|].
  rewrite Hq in Hm. cbn [mbind option_bind] in Hm.
  assert (Ho : over q = true).
  { unfold over. destruct (succeeded (rf_phase q)), (threw (rf_phase q)), heals; cbn in *; naive_solver. }
  assert (Hb : all_over p (pj_refreshes sy)) by (eapply (pi_begun _ HI); [exact Hq|]; intros E; unfold over in Ho; by rewrite E in Ho).
  intros m q' Hm' Hl. destruct (decide (m = p)) as [->|Hne]; [congruence|]. eapply Hb; [|done]. lia.
Qed.
(** A change of phase that leaves the rest of the invariant to show. *)
Lemma phase_frame sy n r p : PInv sy -> pj_refreshes sy !! n = Some r -> p <> queued -> all_over n (pj_refreshes sy) ->
  (over r = true -> over (in_state p r) = true) ->
  (forall batch, p = reading batch -> exists c', pj_cursor sy <= c' <= le_last (pj_log sy) /\ next (pj_cursor sy) batch = c' /\
      upto c' (pj_log sy) = upto (pj_cursor sy) (pj_log sy) ++ batch /\ covers c' (rf_since r) (pj_log sy)) ->
  (p = applied -> covers (pj_cursor sy) (rf_since r) (pj_log sy)) ->
  PInv (with_phase sy n p).
Proof.
  intros HI Hn Hq Hf Hk Hr Ha. assert (Hko : keeps_over n p (pj_refreshes sy)) by (intros r0 Hr0; rewrite Hn in Hr0; by injection Hr0 as <-).
  destruct HI as [H1 H2 H3 H4 H5 H6 H7 H8 H9 H10].
  constructor; cbn [with_phase pj_log pj_cursor pj_state pj_refreshes pj_chain pj_returned]; try done.
  - intros m q Hm Hph. apply all_over_alter; [done|]. apply alter_lookup in Hm as [[-> _]|[_ Hm]]; [done|by eapply H4].
  - intros m q Hm. apply alter_lookup in Hm as [[-> (r0 & Hr0 & ->)]|[_ Hm]].
    + specialize (H5 _ _ Hr0). cbn. destruct (rf_prior r0); [done|]. by apply all_over_alter.
    + specialize (H5 _ _ Hm). destruct (rf_prior q); [done|]. by apply all_over_alter.
  - rewrite length_alter. destruct (pj_chain sy); [done|]. by apply all_over_alter.
  - intros m q batch Hm Hph. apply alter_lookup in Hm as [[-> (r0 & Hr0 & ->)]|[_ Hm]]; [|by eapply H7].
    rewrite Hn in Hr0. injection Hr0 as <-. by apply Hr.
  - intros m q Hm Hph. apply alter_lookup in Hm as [[-> (r0 & Hr0 & ->)]|[_ Hm]]; [|by eapply H8].
    rewrite Hn in Hr0. injection Hr0 as <-. by apply Ha.
  - intros m q Hm. apply alter_lookup in Hm as [[-> (r0 & Hr0 & ->)]|[_ Hm]]; [|by eapply H9]. cbn. by eapply H9.
Qed.
Lemma drop_frame sy n r : PInv sy -> pj_refreshes sy !! n = Some r -> over r = true -> PInv (drop_chain n sy).
Proof.
  intros HI Hn Ho. destruct HI as [H1 H2 H3 H4 H5 H6 H7 H8 H9 H10]. constructor; try done.
  cbn [drop_chain pj_chain pj_refreshes]. destruct (negb heals); cbn [andb]; [|done]. case_bool_decide as E; [|done].
  rewrite E in H6. assert (Hb : all_over n (pj_refreshes sy)).
  { eapply H4; [exact Hn|]. intros Ep. unfold over in Ho. by rewrite Ep in Ho. }
  intros m q Hm Hl. destruct (decide (m = n)) as [->|Hne]; [congruence|]. eapply Hb; [|done]. lia.
Qed.
Lemma alter_again (n : nat) p q (l : list Refresh) : alter (in_state q) n (alter (in_state p) n l) = alter (in_state q) n l.
Proof. revert n. induction l as [|r l IH]; intros [|n]; cbn; try done. by rewrite IH. Qed.
Definition advanced (sy : Projecting) (c : Z) (v : S) : Projecting :=
  {| pj_log := pj_log sy; pj_cursor := c; pj_state := v; pj_refreshes := pj_refreshes sy; pj_chain := pj_chain sy; pj_returned := pj_returned sy |}.
Lemma advance_frame sy c v : PInv sy ->
  (forall n r batch, pj_refreshes sy !! n = Some r -> rf_phase r = reading batch -> False) ->
  pj_cursor sy <= c <= le_last (pj_log sy) -> v = fold_left apply (upto c (pj_log sy)) empty -> PInv (advanced sy c v).
Proof.
  intros [H1 H2 H3 H4 H5 H6 H7 H8 H9 H10] Hr Hc Hv. constructor; cbn [advanced pj_log pj_cursor pj_state pj_refreshes pj_chain pj_returned]; try done.
  - lia.
  - intros n r batch Hn Hq. destruct (Hr _ _ _ Hn Hq).
  - intros n r Hn Hq. eapply covers_mono; [|by eapply H8]. lia.
Qed.
Lemma pstep_inv sy sy' : PInv sy -> PStep sy sy' -> PInv sy'.
Proof.
  intros HI Hs. pose proof HI as [H1 H2 H3 H4 H5 H6 H7 H8 H9 H10]. destruct Hs as [t' Hg Ho| |n r Hn Hq Hm|n r Hn Hq Hm|n r Hn Hq Hm|n r batch Hn Hq|n r Hn Hq|n r Hn Hq].
  - destruct Hg as (extra & Eg & Hlt & Hm). pose proof (ex_intro _ extra (conj Eg (conj Hlt Hm)) : grows (pj_log sy) t') as Hg.
    constructor; cbn [pj_log pj_cursor pj_state pj_refreshes pj_chain pj_returned]; try done; try lia.
    + rewrite (upto_grows _ (pj_log sy)); [done|done|done|lia].
    + intros n r batch Hn Hq. destruct (H7 _ _ _ Hn Hq) as (c' & Hc & Hx & Hu & Hcov). exists c'.
      rewrite (upto_grows c' (pj_log sy) t'), (upto_grows (pj_cursor sy) (pj_log sy) t') by (done || lia). split; [lia|]. split; [done|]. split; [done|].
      eapply covers_grows; [exact Hg|by eapply H9|done].
    + intros n r Hn Hq. eapply covers_grows; [exact Hg|by eapply H9|by eapply H8].
    + intros n r Hn. specialize (H9 _ _ Hn). lia.
    + intros since v Hin. destruct (H10 _ _ Hin) as (k & Hk & Hsi & -> & Hcov). exists k.
      rewrite (upto_grows k (pj_log sy) t') by (done || lia). split; [lia|]. split; [lia|]. split; [done|].
      by eapply covers_grows.
  - assert (Hold : forall k, (k <= List.length (pj_refreshes sy))%nat -> forall x, all_over k (pj_refreshes sy) -> all_over k (pj_refreshes sy ++ [x])).
    { intros k Hk x Ha m q Hm Hl. rewrite lookup_app_l in Hl by lia. by eapply Ha. }
    set (x := {| rf_prior := _ |}). assert (Hlk : forall n r, (pj_refreshes sy ++ [x]) !! n = Some r ->
      pj_refreshes sy !! n = Some r \/ (n = List.length (pj_refreshes sy) /\ r = x)).
    { intros n r Hl. apply lookup_app_Some in Hl as [Hl|[Hl1 Hl2]]; [by left|right].
      apply list_lookup_singleton_Some in Hl2 as [? <-]. split; [lia|done]. }
    constructor; cbn [pj_log pj_cursor pj_state pj_refreshes pj_chain pj_returned]; try done.
    + intros n r [Hl|[-> ->]]%Hlk Hq; [|done]. apply Hold; [apply lookup_lt_Some in Hl; lia|by eapply H4].
    + intros n r [Hl|[-> ->]]%Hlk.
      * specialize (H5 _ _ Hl). destruct (rf_prior r); [done|]. apply Hold; [apply lookup_lt_Some in Hl; lia|done].
      * cbn. destruct (pj_chain sy); [done|]. by apply Hold.
    + rewrite length_app. cbn. lia.
    + intros n r batch [Hl|[-> ->]]%Hlk Hq; [by eapply H7|done].
    + intros n r [Hl|[-> ->]]%Hlk Hq; [by eapply H8|done].
    + intros n r [Hl|[-> ->]]%Hlk; [by eapply H9|cbn; lia].
  - apply (phase_frame _ _ r); try done; [by eapply front; eauto|by unfold over; rewrite Hq|].
    intros batch [= <-]. destruct (batch_reaches (pj_cursor sy) (pj_log sy)) as (Hle & Hu & Hc); [done|lia|].
    eexists. split; [exact Hle|]. split; [by apply next_ok; [|lia]|]. split; [done|].
    eapply Forall_impl; [exact Hc|]. cbn. specialize (H9 _ _ Hn). lia.
  - apply (phase_frame _ _ r); try done. by eapply front; eauto.
  - apply (phase_frame _ _ r); try done. by eapply front; eauto.
  - destruct (H7 _ _ _ Hn Hq) as (c' & Hc & <- & Hu & Hcov). assert (Ha : all_over n (pj_refreshes sy)) by (eapply H4; [done|by rewrite Hq]).
    assert (HI' : PInv (with_phase sy n faulted)) by (by apply (phase_frame _ _ r)).
    replace (with_phase _ n applied)
      with (with_phase (advanced (with_phase sy n faulted) (next (pj_cursor sy) batch) (fold_left apply batch (pj_state sy))) n applied)
      by (unfold with_phase, advanced; cbn; by rewrite alter_again).
    apply (phase_frame _ n (in_state faulted r)); try done.
    + apply advance_frame; [done| |done|by rewrite H3, <- fold_left_app, <- Hu].
      intros m q batch' [[-> (r0 & _ & ->)]|[Hne Hm]]%alter_lookup Hq'; [done|].
      destruct (Nat.lt_trichotomy m n) as [Hlt|[->|Hlt]]; [|done|].
      * specialize (Ha _ _ Hlt Hm). unfold over in Ha. by rewrite Hq' in Ha.
      * assert (Hb : all_over m (pj_refreshes sy)) by (eapply H4; [exact Hm|by rewrite Hq']).
        specialize (Hb _ _ Hlt Hn). unfold over in Hb. by rewrite Hq in Hb.
    + cbn. by rewrite list_lookup_alter_eq, Hn.
    + apply all_over_alter; [|done]. intros r0 Hr0 _. done.
  - eapply (drop_frame _ n (in_state returned r)); [|cbn [with_phase pj_refreshes]; by rewrite list_lookup_alter_eq, Hn|done].
    apply (phase_frame _ _ r); try done; [|by eapply H4; [done|]; rewrite Hq].
    constructor; cbn [pj_log pj_cursor pj_state pj_refreshes pj_chain pj_returned]; try done.
    intros since v [Hin|[= -> ->]%list_elem_of_singleton]%elem_of_app; [by apply H10|].
    exists (pj_cursor sy). split; [done|]. split; [by eapply H9|]. split; [done|by eapply H8].
  - eapply (drop_frame _ n (in_state rethrown r)); [|cbn [with_phase pj_refreshes]; by rewrite list_lookup_alter_eq, Hn|done].
    apply (phase_frame _ _ r); try done. eapply H4; [done|]. by rewrite Hq.
Qed.
Lemma start_ok t : ordered t -> PInv (start t).
Proof.
  intros Ho. constructor; cbn; try done.
  - destruct Ho as (_ & _ & ?). lia.
  - unfold upto. rewrite filter_none; [done|]. destruct Ho as (_ & Hb & _). rewrite Forall_fmap in Hb.
    eapply Forall_impl; [exact Hb|]. cbn. lia.
  - intros since v Hin. set_solver.
Qed.
(** What any refresh returns is the fold of the log up to some point, no
    earlier than the moment it was asked for. *)
Lemma refresh_returns t sy since v : ordered t -> rtc PStep (start t) sy -> (since, v) ∈ pj_returned sy ->
  exists shown rest, map row_event (le_rows (pj_log sy)) = shown ++ rest /\ v = fold_left apply shown empty /\
    Forall (fun e => since < ev_seq e) rest.
Proof.
  intros Ho Hr Hin. assert (HI : PInv sy).
  { clear Hin. revert Hr. generalize (start_ok t Ho). generalize (start t). intros sy0 HI Hr. induction Hr as [|? ? ? Hs _ IH]; [done|].
    apply IH. by eapply pstep_inv. }
  destruct (pi_returned _ HI _ _ Hin) as (k & _ & _ & Hv & Hc). exists (upto k (pj_log sy)), (events_since k (pj_log sy)).
  split; [|split; [done|]].
  - unfold upto, events_since, rows_since. rewrite <- map_app. f_equal. apply rows_split, (pi_ordered _ HI).
  - unfold events_since, rows_since. apply Forall_forall. intros e (sr & -> & [Hlt Hin']%list_elem_of_filter)%list_elem_of_fmap.
    unfold covers in Hc. rewrite Forall_forall in Hc. specialize (Hc _ Hin'). cbn. lia.
Qed.
End Projection.

(** ** The loop's board *)
Definition last_seq (c : Z) (batch : list MonitorEvent) : Z := match last batch with Some e => ev_seq e | None => c end.
Definition foldLatestStateIncremental : Projecting -> Projecting -> Prop := PStep applyMonitorEvent last_seq true.
Lemma last_seq_ok c t : ordered t -> c <= le_last t -> last_seq c (events_since c t) = fold_left (fun _ e => ev_seq e) (events_since c t) c.
Proof. intros _ _. rewrite cursor_of. unfold last_seq. by destruct (last _). Qed.
(** C24: The incremental board is a board of the log: however refreshes, appends and read faults interleave, what a refresh
    returns is the full fold of a prefix of the log that holds every event appended before the refresh was asked for. *)
Theorem incremental_board_current t sy since m : ordered t -> rtc foldLatestStateIncremental (start [] t) sy ->
  (since, m) ∈ pj_returned sy ->
  exists shown rest, map row_event (le_rows (pj_log sy)) = shown ++ rest /\ m.*2 = foldEvents shown /\
    Forall (fun e => since < ev_seq e) rest.
Proof.
  intros Ho Hr Hin. destruct (refresh_returns _ _ _ _ last_seq_ok t sy since m Ho Hr Hin) as (shown & rest & H1 & -> & H2).
  by exists shown, rest.
Qed.
