(* ===== verification/Threads.v ===== *)
(** * Threads: programs of operations, interleaved

    [Prog Op Ans Ex A] is a program that performs operations [o : Op], each
    answered by an [Ans o], and returns an [A] or throws an [Ex].  Async
    functions of several processes are such programs: a pool of threads runs
    them, one operation at a time, in any order; a thread that is never
    scheduled again has crashed.  [follows] is a protocol a program keeps
    whatever it is answered, stated with a ghost state that the operations and
    their answers move. *)

From stdpp Require Import base option list relations.
From S2P Require Import Prelude.

Section Prog.
Context {Op : Type} {Ans : Op -> Type} {Ex : Type}.
Inductive Prog (A : Type) : Type :=
| Ret (a : A)
| Throw (x : Ex)
| Do (o : Op) (k : Ans o -> Prog A).
#[global] Arguments Ret {A}. #[global] Arguments Throw {A}. #[global] Arguments Do {A}.

#[export] Instance prog_ret : MRet Prog := @Ret.
#[export] Instance prog_bind : MBind Prog := fun A B f =>
  fix go p := match p with Ret a => f a | Throw x => Throw x | Do o k => Do o (fun a => go (k a)) end.
(** [try { p } catch (x) { h(x) }] *)
Fixpoint handle {A} (p : Prog A) (h : Ex -> Prog A) : Prog A :=
  match p with Ret a => Ret a | Throw x => h x | Do o k => Do o (fun a => handle (k a) h) end.
(** [try { p } finally { f }] *)
Definition finally {A} (p : Prog A) (f : Prog unit) : Prog A :=
  handle (p ≫= fun a => f ≫= fun _ => Ret (inl a)) (fun x => f ≫= fun _ => Ret (inr x)) ≫= fun r =>
  match r with inl a => Ret a | inr x => Throw x end.
(** What became of [p]. *)
Definition attempt {A} (p : Prog A) : Prog (result Ex A) := handle (p ≫= fun a => Ret (Ok a)) (fun x => Ret (Err x)).
Definition ask (o : Op) : Prog (Ans o) := Do o Ret.
Fixpoint each {A} (f : A -> Prog unit) (l : list A) : Prog unit :=
  match l with [] => Ret tt | a :: l => f a ≫= fun _ => each f l end.
Fixpoint collect {A B} (f : A -> Prog B) (l : list A) : Prog (list B) :=
  match l with [] => Ret [] | a :: l => f a ≫= fun b => collect f l ≫= fun bs => Ret (b :: bs) end.

(** ** Protocols *)
Section Follows.
Context {G : Type} (allowed : G -> Op -> Prop) (after : G -> forall o, Ans o -> G).
Fixpoint follows {A} (Q : G -> A + Ex -> Prop) (g : G) (p : Prog A) : Prop :=
  match p with
  | Ret a => Q g (inl a)
  | Throw x => Q g (inr x)
  | Do o k => allowed g o /\ forall a, follows Q (after g o a) (k a)
  end.
Lemma follows_mono {A} (Q R : G -> A + Ex -> Prop) g (p : Prog A) : (forall g r, Q g r -> R g r) -> follows Q g p -> follows R g p.
Proof. intros H. revert g. induction p as [a|x|o k IH]; intros g; cbn; [apply H|apply H|]. intros [Ho Hk]. split; [done|]. auto. Qed.
Lemma follows_bind {A B} (Q : G -> B + Ex -> Prop) g (p : Prog A) (f : A -> Prog B) :
  follows (fun g r => match r with inl a => follows Q g (f a) | inr x => Q g (inr x) end) g p -> follows Q g (p ≫= f).
Proof. revert g. induction p as [a|x|o k IH]; intros g; cbn; [done|done|]. intros [Ho Hk]. split; [done|]. intros a. by apply IH. Qed.
Lemma follows_handle {A} (Q : G -> A + Ex -> Prop) g (p : Prog A) h :
  follows (fun g r => match r with inl a => Q g (inl a) | inr x => follows Q g (h x) end) g p -> follows Q g (handle p h).
Proof. revert g. induction p as [a|x|o k IH]; intros g; cbn; [done|done|]. intros [Ho Hk]. split; [done|]. intros a. by apply IH. Qed.
Lemma follows_ask g o (Q : G -> Ans o + Ex -> Prop) : allowed g o -> (forall a, Q (after g o a) (inl a)) -> follows Q g (ask o).
Proof. done. Qed.
(** A loop keeps an invariant of the ghost. *)
Lemma follows_each {A} (I : G -> Prop) (f : A -> Prog unit) (l : list A) (Q : G -> unit + Ex -> Prop) g :
  I g -> (forall g a, a ∈ l -> I g -> follows (fun g r => match r with inl _ => I g | inr x => Q g (inr x) end) g (f a)) ->
  (forall g, I g -> Q g (inl tt)) -> follows Q g (each f l).
Proof.
  intros Hg Hf HQ. revert g Hg. induction l as [|a l IH]; intros g Hg; [by apply HQ|]. cbn. apply follows_bind.
  eapply follows_mono; [|apply (Hf g a); [by left|done]]. intros g' [[]|x] Hr; [|done]. apply IH; [|done].
  intros g2 b Hb. apply Hf. by right.
Qed.
Lemma follows_collect {A B} (I : G -> Prop) (E : G -> Ex -> Prop) (f : A -> Prog B) (l : list A) (Q : G -> list B + Ex -> Prop) g :
  I g -> (forall g a, a ∈ l -> I g -> follows (fun g r => match r with inl _ => I g | inr x => E g x end) g (f a)) ->
  (forall g bs, I g -> Q g (inl bs)) -> (forall g x, E g x -> Q g (inr x)) -> follows Q g (collect f l).
Proof.
  revert Q g. induction l as [|a l IH]; intros Q g Hg Hf HQ HE; [by apply HQ|]. cbn. apply follows_bind.
  eapply follows_mono; [|apply (Hf g a); [by left|done]]. intros g' [b|x] Hr; [|by apply HE]. apply follows_bind.
  apply IH; [done| | |done].
  - intros g2 c Hc. apply Hf. by right.
  - intros g2 bs HI. cbn. by apply HQ.
Qed.
End Follows.

(** ** Interleaving *)
Section Pool.
Context {A W G : Type} (exec : forall o : Op, W -> Ans o -> W -> Prop).
Context (allowed : G -> Op -> Prop) (after : G -> forall o, Ans o -> G) (fresh : G) (starts : Prog A -> Prop).
(** Each thread with the ghost state its operations have led to, which the
    programs cannot see; [observe] is what is noted of an operation performed. *)
Context {N : Type} (observe : G -> Op -> list N).
Record Pool := { po_threads : list (G * Prog A); po_world : W; po_notes : list N }.
Inductive pool_step (s : Pool) : Pool -> Prop :=
| pool_spawn p : starts p ->
    pool_step s {| po_threads := po_threads s ++ [(fresh, p)]; po_world := po_world s; po_notes := po_notes s |}
| pool_run i g o k a w : po_threads s !! i = Some (g, Do o k) -> exec o (po_world s) a w ->
    pool_step s {| po_threads := <[i := (after g o a, k a)]> (po_threads s); po_world := w; po_notes := po_notes s ++ observe g o |}.
Definition pool_start (w : W) : Pool := {| po_threads := []; po_world := w; po_notes := [] |}.

(** One thread run for [n] operations against answers that [exec] allows. *)
Context (answer : forall o : Op, W -> Ans o * W) (answer_exec : forall o w, exec o w (answer o w).1 (answer o w).2).
Fixpoint drive (n : nat) (g : G) (p : Prog A) (w : W) (notes : list N) : Pool :=
  match n, p with
  | S n, Do o k => let aw := answer o w in drive n (after g o aw.1) (k aw.1) aw.2 (notes ++ observe g o)
  | _, _ => {| po_threads := [(g, p)]; po_world := w; po_notes := notes |}
  end.
Lemma drive_steps n g p w notes : rtc pool_step {| po_threads := [(g, p)]; po_world := w; po_notes := notes |} (drive n g p w notes).
Proof.
  revert g p w notes. induction n as [|n IH]; intros g p w notes; [apply rtc_refl|]. destruct p as [a|x|o k]; [apply rtc_refl..|].
  cbn [drive]. eapply rtc_l; [|apply IH]. exact (pool_run {| po_threads := [(g, Do o k)]; po_world := w; po_notes := notes |} 0 g o k _ _ eq_refl (answer_exec o w)).
Qed.
End Pool.
End Prog.
#[global] Arguments Prog Op Ans Ex A : clear implicits.
#[global] Arguments Pool Op Ans Ex A W G N : clear implicits.
