(* ===== verification/ProcessState.v ===== *)
(** * Owned processes as the log tells them

    The pure part of [src/src/runtime/processes/process_control.ts]: the status
    of a process and the actions it allows, and the fold of the event log into
    the processes' states. *)

From Stdlib Require Import Ascii String ZArith Lia.
From stdpp Require Import base option list strings gmap pretty.
From S2P Require Import Prelude LoopEvents LoopLogProps LoopBoard LoopBoardProps LoopProjection.
#[local] Open Scope Z_scope.

Inductive OwnedProcessStatus :=
| running | shutdown_pending | shutdown_requested | terminate_requested | force_kill_requested | paused | resumed | exited | spawn_failed.
#[export] Instance OwnedProcessStatus_eq_dec : EqDecision OwnedProcessStatus.
Proof. solve_decision. Defined.
Definition status_name (s : OwnedProcessStatus) : string :=
  match s with
  | running => "running" | shutdown_pending => "shutdown_pending" | shutdown_requested => "shutdown_requested"
  | terminate_requested => "terminate_requested" | force_kill_requested => "force_kill_requested" | paused => "paused"
  | resumed => "resumed" | exited => "exited" | spawn_failed => "spawn_failed"
  end.
Definition ACTIVE_STATUSES : list OwnedProcessStatus :=
  [running; shutdown_pending; shutdown_requested; terminate_requested; force_kill_requested].
Definition is_active (s : OwnedProcessStatus) : bool := set_has s ACTIVE_STATUSES.
Definition actionsFor (s : OwnedProcessStatus) : list HumanProcessAction :=
  match s with
  | running => [graceful_stop; terminate; force_kill]
  | shutdown_pending | shutdown_requested => [terminate; force_kill]
  | terminate_requested => [force_kill]
  | force_kill_requested => []
  | paused => [resume]
  | resumed | exited | spawn_failed => []
  end.
(** [process_${status}] *)
Definition statusEvent (s : OwnedProcessStatus) : MonitorEventKind :=
  match s with
  | running => process_started | shutdown_pending => process_shutdown_pending | shutdown_requested => process_shutdown_requested
  | terminate_requested => process_terminate_requested | force_kill_requested => process_force_kill_requested
  | paused => process_paused | resumed => process_resumed | exited => process_exited | spawn_failed => process_spawn_failed
  end.
Definition eventStatus (k : option MonitorEventKind) : option OwnedProcessStatus :=
  match k with
  | Some process_started => Some running
  | Some process_shutdown_pending => Some shutdown_pending
  | Some process_shutdown_requested => Some shutdown_requested
  | Some process_terminate_requested => Some terminate_requested
  | Some process_force_kill_requested => Some force_kill_requested
  | Some process_paused => Some paused
  | Some process_resumed => Some resumed
  | Some process_exited => Some exited
  | Some process_spawn_failed => Some spawn_failed
  | _ => None
  end.

Record ProcessActionAudit := {
  pa_actionId : string; pa_action : HumanProcessAction; pa_requestedBy : HumanControlSurface; pa_authorizedBy : string;
  pa_requestedAtMs : Z; pa_appliedAtMs : option Z; pa_failedAtMs : option Z; pa_failure : option string }.
Record OwnedProcessState := {
  op_processId : string; op_processInstanceId : string; op_ownership : Ownership; op_wgId : string; op_runId : option string;
  op_checkpointStage : option string; op_lap : option Z; op_role : string; op_pid : Z; op_processGroupId : Z;
  op_processStartIdentity : string; op_windowsJobName : option string; op_windowsJobMetadata : option string;
  op_status : OwnedProcessStatus; op_startedAtMs : Z; op_updatedAtMs : Z; op_exitCode : option (option Z);
  op_latestAction : option ProcessActionAudit; op_availableActions : list HumanProcessAction }.

Definition eventInstanceId (e : MonitorEvent) : option string :=
  let p := ev_process e in
  match ev_processInstanceId p, ev_processId p, ev_pid p with
  | Some i, _, _ => Some i
  | None, Some id, Some pid => Some (id +:+ ":" +:+ pretty pid +:+ ":" +:+ default "legacy" (ev_processStartIdentity p))
  | _, _, _ => None
  end.
Definition actionFromEvent (e : MonitorEvent) : option ProcessActionAudit :=
  let a := ev_action e in
  match ev_actionId a, ev_controlAction a, ev_requestedBy a, ev_authorizedBy a, ev_requestedAtMs a with
  | Some actionId, Some action, Some requestedBy, Some authorizedBy, Some requestedAtMs =>
      Some {| pa_actionId := actionId; pa_action := action; pa_requestedBy := requestedBy; pa_authorizedBy := authorizedBy;
              pa_requestedAtMs := requestedAtMs; pa_appliedAtMs := ev_appliedAtMs a; pa_failedAtMs := ev_failedAtMs a;
              pa_failure := ev_failure a |}
  | _, _, _, _, _ => None
  end.
(** The state a [process_started] event begins, if it says enough. *)
Definition started (processId : string) (e : MonitorEvent) : option OwnedProcessState :=
  let p := ev_process e in
  match eventInstanceId e, ev_pid p, ev_processGroupId p, ev_role p with
  | Some instance, Some pid, Some group, Some role =>
      Some {| op_processId := processId; op_processInstanceId := instance;
              op_ownership := default (if ((role =? "control-root") || (role =? "orchestrator"))%string then control_root else owned)
                                      (ev_ownership p);
              op_wgId := ev_wgId e; op_runId := ev_runId p; op_checkpointStage := ev_checkpointStage p; op_lap := ev_lap p;
              op_role := role; op_pid := pid; op_processGroupId := Z.abs group;
              op_processStartIdentity := default "" (ev_processStartIdentity p); op_windowsJobName := ev_windowsJobName p;
              op_windowsJobMetadata := ev_windowsJobMetadata p; op_status := running; op_startedAtMs := ev_atMs e;
              op_updatedAtMs := ev_atMs e; op_exitCode := None; op_latestAction := None; op_availableActions := actionsFor running |}
  | _, _, _, _ => None
  end.
Definition or_else {A} (new old : option A) : option A := match new with Some a => Some a | None => old end.
Definition amend (s : OwnedProcessState) (status : OwnedProcessStatus) (actions : list HumanProcessAction) (exitCode : option (option Z))
    (latestAction : option ProcessActionAudit) (atMs : Z) : OwnedProcessState :=
  {| op_processId := op_processId s; op_processInstanceId := op_processInstanceId s; op_ownership := op_ownership s; op_wgId := op_wgId s;
     op_runId := op_runId s; op_checkpointStage := op_checkpointStage s; op_lap := op_lap s; op_role := op_role s; op_pid := op_pid s;
     op_processGroupId := op_processGroupId s; op_processStartIdentity := op_processStartIdentity s;
     op_windowsJobName := op_windowsJobName s; op_windowsJobMetadata := op_windowsJobMetadata s; op_status := status;
     op_startedAtMs := op_startedAtMs s; op_updatedAtMs := atMs; op_exitCode := or_else exitCode (op_exitCode s);
     op_latestAction := or_else latestAction (op_latestAction s); op_availableActions := actions |}.
(** What a later event makes of a state: nothing when it names another
    incarnation, or carries neither a status nor an action. *)
Definition amended (e : MonitorEvent) (prior : OwnedProcessState) : OwnedProcessState :=
  let other := match ev_processInstanceId (ev_process e) with Some i => negb (i =? op_processInstanceId prior)%string | None => false end in
  if other then prior
  else match eventStatus (kind_of (ev_kind e)) with
       | None =>
           match actionFromEvent e with
           | None => prior
           | Some a => amend prior (op_status prior) (op_availableActions prior) None (Some a) (ev_atMs e)
           end
       | Some status => amend prior status (actionsFor status) (ev_exitCode (ev_process e)) (actionFromEvent e) (ev_atMs e)
       end.
Abbreviation ProcessMap := (list (string * OwnedProcessState)).
Definition applyOwnedProcessEvent (byId : ProcessMap) (e : MonitorEvent) : ProcessMap :=
  match ev_processId (ev_process e) with
  | None => byId
  | Some processId =>
      if bool_decide (eventStatus (kind_of (ev_kind e)) = Some running)
      then match started processId e with Some s => obj_set processId s byId | None => byId end
      else match obj_get processId byId with Some prior => obj_set processId (amended e prior) byId | None => byId end
  end.
Definition newer (a b : OwnedProcessState) : bool := op_updatedAtMs b <=? op_updatedAtMs a.
Definition by_update (byId : ProcessMap) : list OwnedProcessState := stable_sort newer byId.*2.
Definition process_map (events : list MonitorEvent) : ProcessMap := fold_left applyOwnedProcessEvent events [].
Definition foldOwnedProcesses (events : list MonitorEvent) : list OwnedProcessState := by_update (process_map events).
(** [projection.cursor = Math.max(projection.cursor, event.seq)]; a failed
    refresh rejects those queued behind it. *)
Definition max_seq (c : Z) (batch : list MonitorEvent) : Z := fold_left (fun c e => Z.max c (ev_seq e)) batch c.
Definition projectedOwnedProcesses : Projecting (S := ProcessMap) -> Projecting (S := ProcessMap) -> Prop :=
  PStep applyOwnedProcessEvent max_seq false.

(** ** Properties: a process is its last start and what followed *)
Implicit Types (e : MonitorEvent) (events : list MonitorEvent).

(** The state the event begins for the process, if it begins one. *)
Definition begins (processId : string) e : option OwnedProcessState :=
  if bool_decide (ev_processId (ev_process e) = Some processId) && bool_decide (eventStatus (kind_of (ev_kind e)) = Some running)
  then started processId e else None.
(** The event is about the incarnation: of the process, no start, and naming
    no other incarnation. *)
Definition of_incarnation (processId instance : string) e : bool :=
  bool_decide (ev_processId (ev_process e) = Some processId) && negb (bool_decide (eventStatus (kind_of (ev_kind e)) = Some running)) &&
  match ev_processInstanceId (ev_process e) with Some i => (i =? instance)%string | None => true end.
Definition says_status (processId instance : string) e : option OwnedProcessStatus :=
  if of_incarnation processId instance e then eventStatus (kind_of (ev_kind e)) else None.
Definition says_action (processId instance : string) e : option ProcessActionAudit :=
  if of_incarnation processId instance e then actionFromEvent e else None.
Definition says_exit (processId instance : string) e : option (option Z) :=
  match says_status processId instance e with Some _ => ev_exitCode (ev_process e) | None => None end.
Definition says_update (processId instance : string) e : option Z :=
  match says_status processId instance e, says_action processId instance e with None, None => None | _, _ => Some (ev_atMs e) end.

(** The state [s0] a start began, after the later events. *)
Definition after_start (processId : string) (s0 : OwnedProcessState) events : OwnedProcessState :=
  let i := op_processInstanceId s0 in
  let status := default running (last_said (says_status processId i) events) in
  {| op_processId := op_processId s0; op_processInstanceId := i; op_ownership := op_ownership s0; op_wgId := op_wgId s0; op_runId := op_runId s0;
     op_checkpointStage := op_checkpointStage s0; op_lap := op_lap s0; op_role := op_role s0; op_pid := op_pid s0;
     op_processGroupId := op_processGroupId s0; op_processStartIdentity := op_processStartIdentity s0;
     op_windowsJobName := op_windowsJobName s0; op_windowsJobMetadata := op_windowsJobMetadata s0; op_status := status;
     op_startedAtMs := op_startedAtMs s0; op_updatedAtMs := default (op_startedAtMs s0) (last_said (says_update processId i) events);
     op_exitCode := last_said (says_exit processId i) events; op_latestAction := last_said (says_action processId i) events;
     op_availableActions := actionsFor status |}.

Lemma process_map_snoc events e : process_map (events ++ [e]) = applyOwnedProcessEvent (process_map events) e.
Proof. unfold process_map. by rewrite fold_left_app. Qed.
Lemma applied_to processId m e : obj_get processId (applyOwnedProcessEvent m e) =
  match begins processId e with
  | Some s => Some s
  | None =>
      if bool_decide (ev_processId (ev_process e) = Some processId) && negb (bool_decide (eventStatus (kind_of (ev_kind e)) = Some running))
      then amended e <$> obj_get processId m else obj_get processId m
  end.
Proof.
  unfold applyOwnedProcessEvent, begins. destruct (ev_processId (ev_process e)) as [id|]; [|done].
  destruct (decide (id = processId)) as [->|Hne].
  - rewrite (bool_decide_true (Some processId = _)) by done. cbn [andb].
    destruct (bool_decide (_ = Some running)); cbn [negb].
    + destruct (started processId e); [by rewrite obj_get_set_eq|done].
    + destruct (obj_get processId m) as [s|] eqn:E; [by rewrite obj_get_set_eq|by rewrite E].
  - rewrite (bool_decide_false (Some id = _)) by congruence. cbn [andb].
    repeat case_match; try done; by rewrite obj_get_set_ne.
Qed.
Lemma started_fresh processId e s : started processId e = Some s ->
  op_processId s = processId /\ op_status s = running /\ op_availableActions s = actionsFor running /\ op_exitCode s = None /\
  op_latestAction s = None /\ op_updatedAtMs s = op_startedAtMs s.
Proof. unfold started. intros H. repeat case_match; try done; by injection H as <-. Qed.
Lemma begins_started processId e s : begins processId e = Some s -> started processId e = Some s.
Proof. unfold begins. by destruct (_ && _). Qed.

Lemma amended_after_start processId s0 post e :
  (if bool_decide (ev_processId (ev_process e) = Some processId) && negb (bool_decide (eventStatus (kind_of (ev_kind e)) = Some running))
   then amended e <$> Some (after_start processId s0 post) else Some (after_start processId s0 post)) =
  Some (after_start processId s0 (post ++ [e])).
Proof.
  unfold after_start at 3. rewrite !last_said_snoc. unfold says_update, says_exit, says_action, says_status, of_incarnation.
  destruct (_ && negb _); [|done]. cbn [andb fmap option_fmap option_map]. unfold amended. cbn [op_processInstanceId after_start].
  set (own := match ev_processInstanceId (ev_process e) with Some i => (i =? op_processInstanceId s0)%string | None => true end).
  replace (match ev_processInstanceId (ev_process e) with Some i => negb (i =? op_processInstanceId s0)%string | None => false end)
    with (negb own) by (unfold own; by destruct (ev_processInstanceId _)).
  destruct own; cbn [negb]; [|done].
  destruct (eventStatus (kind_of (ev_kind e))), (actionFromEvent e), (ev_exitCode (ev_process e)); done.
Qed.

(** A process is its last start and what followed: after a well-formed start event, whatever came before it, the fold shows
    the process with that start's identity; its status is the one the last event of the incarnation gave, its actions are those
    of that status, its exit code and latest audit the last ones given, and events naming another incarnation change nothing;
    a process none of whose events is a well-formed start is not shown. *)
Lemma process_since_start processId pre e post s0 :
  begins processId e = Some s0 -> Forall (fun e' => begins processId e' = None) post ->
  obj_get processId (process_map (pre ++ e :: post)) = Some (after_start processId s0 post) /\
  (Forall (fun e' => begins processId e' = None) pre -> obj_get processId (process_map pre) = None).
Proof.
  intros He Hpost. split.
  - assert (H0 : obj_get processId (process_map (pre ++ [e])) = Some s0) by (by rewrite process_map_snoc, applied_to, He).
    apply begins_started, started_fresh in He as (Hid & Hst & Hav & Hex & Hla & Hup).
    rewrite cons_middle, app_assoc. induction post as [|e' post IH] using rev_ind.
    + rewrite app_nil_r, H0. unfold after_start. clear H0. destruct s0; cbn in *. by subst.
    + apply Forall_app in Hpost as [Hpost Hb]. rewrite Forall_singleton in Hb. rewrite app_assoc, process_map_snoc, applied_to, Hb, IH by done.
      by apply amended_after_start.
  - induction pre as [|e' pre IH] using rev_ind; [done|]. intros [Hp Hb]%Forall_app. rewrite Forall_singleton in Hb.
    rewrite process_map_snoc, applied_to, Hb, IH by done. by destruct (_ && _).
Qed.

(** ** The projection *)
Lemma max_is_last c rows : Sorted.StronglySorted Z.lt (map fst rows) -> Forall (fun sr : Z * Row => c < sr.1) rows ->
  max_seq c (map row_event rows) = fold_left (fun _ (e : MonitorEvent) => ev_seq e) (map row_event rows) c.
Proof.
  unfold max_seq. revert c. induction rows as [|sr rows IH]; intros c Hs Hc; [done|]. cbn in *.
  inversion_clear Hc as [|? ? H1 H2]. apply Sorted.StronglySorted_inv in Hs as [Hs Hx].
  rewrite Z.max_r by lia. apply IH; [done|]. apply Forall_forall. intros x Hin. rewrite Forall_forall in Hx. apply Hx.
  apply list_elem_of_fmap. eauto.
Qed.
Lemma max_seq_ok c t : ordered t -> c <= le_last t -> max_seq c (events_since c t) = fold_left (fun _ (e : MonitorEvent) => ev_seq e) (events_since c t) c.
Proof.
  intros (Hs & _ & _) _. unfold events_since. apply max_is_last; [by apply ordered_filter|].
  apply Forall_forall. by intros sr [H _]%list_elem_of_filter.
Qed.
(** However refreshes, appends and faults interleave, what a caller gets is
    the fold of a prefix that holds every event appended before it asked. *)
Lemma projected_processes_current t sy since m : ordered t -> rtc projectedOwnedProcesses (start [] t) sy -> (since, m) ∈ pj_returned sy ->
  exists shown rest, map row_event (le_rows (pj_log sy)) = shown ++ rest /\ by_update m = foldOwnedProcesses shown /\
    Forall (fun e => since < ev_seq e) rest.
Proof.
  intros Ho Hr Hin. destruct (refresh_returns _ _ _ _ max_seq_ok t sy since m Ho Hr Hin) as (shown & rest & H1 & -> & H2).
  by exists shown, rest.
Qed.
