(* ===== verification/ProcessControl.v ===== *)
(** * Controlling owned processes

    The effectful part of [src/src/runtime/processes/process_control.ts] and
    [process_resume.ts].  An async function is a program of operations
    ([Threads]): statements on the request table, reads of the projected
    processes, appends to the event log, and the calls it is given (identities,
    signals, windows jobs).  What the closure of an owner keeps is a record it
    changes between awaits. *)

From Stdlib Require Import Ascii String ZArith.
From stdpp Require Import base option list strings gmap pretty.
From S2P Require Import Prelude Threads ExprSyntax LoopEvents ProcessState.
#[local] Open Scope Z_scope.

(** ** What is thrown, and the platform's errors *)
Record Thrown := { th_message : string; th_code : option Z }.
Definition error (message : string) : Thrown := {| th_message := message; th_code := None |}.
Fixpoint contains (s p : string) : bool :=
  starts_with s p || match s with EmptyString => false | String _ s => contains s p end.
(** [/no process found|cannot find a process|could not find process/iu] *)
Definition isMissingOwnedProcess (x : Thrown) : bool :=
  bool_decide (th_code x = Some 1) || contains (lower (th_message x)) "no process found" ||
  contains (lower (th_message x)) "cannot find a process" || contains (lower (th_message x)) "could not find process".
Record ProcessIdentity := { pi_processGroupId : Z; pi_startIdentity : string }.
#[export] Instance ProcessIdentity_eq_dec : EqDecision ProcessIdentity.
Proof. solve_decision. Defined.
Inductive Signal := SIGTERM | SIGKILL | SIGNULL.
#[export] Instance Signal_eq_dec : EqDecision Signal.
Proof. solve_decision. Defined.

(** ** The request table *)
Record ProcessControlRequest := {
  rq_seq : Z; rq_actionId : string; rq_processId : string; rq_processInstanceId : string; rq_wgId : string;
  rq_action : HumanProcessAction; rq_requestedBy : HumanControlSurface; rq_authorizedBy : string; rq_requestedAtMs : Z;
  rq_targetPid : Z; rq_targetProcessGroupId : Z; rq_targetProcessStartIdentity : string }.
Record RequestRow := {
  rw_request : ProcessControlRequest; rw_handled_at : option Z; rw_applied_at : option Z; rw_failed_at : option Z;
  rw_result : option string; rw_failure : option string }.
Record RequestTable := { rt_rows : list RequestRow; rt_last : Z }.
Inductive ReceiptResult := res_queued | res_applied | res_failed.
#[export] Instance ReceiptResult_eq_dec : EqDecision ReceiptResult.
Proof. solve_decision. Defined.
Record ProcessControlReceipt := {
  rc_request : ProcessControlRequest; rc_result : ReceiptResult; rc_appliedAtMs : option Z; rc_failedAtMs : option Z; rc_failure : option string }.
Definition queued_receipt (r : ProcessControlRequest) : ProcessControlReceipt :=
  {| rc_request := r; rc_result := res_queued; rc_appliedAtMs := None; rc_failedAtMs := None; rc_failure := None |}.
(** The receipt of a handled row. *)
Definition handled_receipt (w : RequestRow) : ProcessControlReceipt :=
  {| rc_request := rw_request w; rc_result := if bool_decide (rw_result w = Some "applied") then res_applied else res_failed;
     rc_appliedAtMs := rw_applied_at w; rc_failedAtMs := rw_failed_at w; rc_failure := rw_failure w |}.
Definition row_receipt (w : RequestRow) : ProcessControlReceipt :=
  match rw_handled_at w with None => queued_receipt (rw_request w) | Some _ => handled_receipt w end.
Definition at_seq (seq : Z) (w : RequestRow) : bool := rq_seq (rw_request w) =? seq.
Definition unclaimed (w : RequestRow) : bool := bool_decide (rw_handled_at w = None) && bool_decide (rw_result w = None).
Inductive Claimant := owner_claims | direct_claims.
Definition claimant_name (c : Claimant) : string := match c with owner_claims => "owner" | direct_claims => "direct" end.
Definition with_result (result : string) (w : RequestRow) : RequestRow :=
  {| rw_request := rw_request w; rw_handled_at := rw_handled_at w; rw_applied_at := rw_applied_at w; rw_failed_at := rw_failed_at w;
     rw_result := Some result; rw_failure := rw_failure w |}.
Definition finished (now : Z) (failure : option string) (w : RequestRow) : RequestRow :=
  {| rw_request := rw_request w; rw_handled_at := Some now;
     rw_applied_at := match failure with None => Some now | Some _ => None end;
     rw_failed_at := match failure with None => None | Some _ => Some now end;
     rw_result := Some (match failure with None => "applied" | Some _ => "failed" end); rw_failure := failure |}.
Definition update_where (p : RequestRow -> bool) (f : RequestRow -> RequestRow) (t : RequestTable) : RequestTable :=
  {| rt_rows := map (fun w => if p w then f w else w) (rt_rows t); rt_last := rt_last t |}.
Definition row_at (seq : Z) (t : RequestTable) : option RequestRow := head (filter (fun w => at_seq seq w = true) (rt_rows t)).
Definition renumber (seq : Z) (r : ProcessControlRequest) : ProcessControlRequest :=
  {| rq_seq := seq; rq_actionId := rq_actionId r; rq_processId := rq_processId r; rq_processInstanceId := rq_processInstanceId r;
     rq_wgId := rq_wgId r; rq_action := rq_action r; rq_requestedBy := rq_requestedBy r; rq_authorizedBy := rq_authorizedBy r;
     rq_requestedAtMs := rq_requestedAtMs r; rq_targetPid := rq_targetPid r; rq_targetProcessGroupId := rq_targetProcessGroupId r;
     rq_targetProcessStartIdentity := rq_targetProcessStartIdentity r |}.
(** AUTOINCREMENT gives the next [seq]. *)
Definition insert_request (r : ProcessControlRequest) (t : RequestTable) : Z * RequestTable :=
  let seq := rt_last t + 1 in
  (seq, {| rt_rows := rt_rows t ++ [{| rw_request := renumber seq r; rw_handled_at := None; rw_applied_at := None; rw_failed_at := None;
                                       rw_result := None; rw_failure := None |}]; rt_last := seq |}).
Definition pending_rows (processId processInstanceId : string) (t : RequestTable) : list ProcessControlRequest :=
  map rw_request (filter (fun w => ((rq_processId (rw_request w) =? processId)%string && (rq_processInstanceId (rw_request w) =? processInstanceId)%string &&
                                    unclaimed w) = true) (rt_rows t)).
Definition claim_row (seq : Z) (c : Claimant) (t : RequestTable) : bool * RequestTable :=
  let p w := at_seq seq w && unclaimed w in
  (Nat.eqb (List.length (filter (fun w => p w = true) (rt_rows t))) 1, update_where p (with_result ("authorizing:" +:+ claimant_name c)) t).
Definition finish_row (seq now : Z) (failure : option string) (t : RequestTable) : option RequestRow * RequestTable :=
  let t' := update_where (fun w => at_seq seq w && bool_decide (rw_handled_at w = None)) (finished now failure) t in
  (row_at seq t', t').

(** ** The owner's closure *)
Record WindowsJobIdentity := { wj_jobName : string; wj_metadataPath : string }.
Inductive ProcessShutdownCause :=
| automatic
| human (action : HumanProcessAction) (requestedBy : HumanControlSurface) (authorizedBy actionId : string).
Record OwnerState := {
  ow_job : option WindowsJobIdentity; ow_child : option Z; ow_detached : bool; ow_closed : bool; ow_automatic : bool; ow_cause : option ProcessShutdownCause;
  ow_terminal : option (OwnedProcessStatus * option (option Z)); ow_stdin_open : bool; ow_timer : bool }.
Definition owner_start (windowsJob : option WindowsJobIdentity) : OwnerState :=
  {| ow_job := windowsJob; ow_child := None; ow_detached := false; ow_closed := false; ow_automatic := false; ow_cause := None; ow_terminal := None; ow_stdin_open := true;
     ow_timer := false |}.

(** ** Operations *)
(** What [signalTree] calls: [controlWindowsJob], the base's [signalTree], its
    [kill], or the child's own. *)
Inductive TreeCall :=
| tree_job (job : WindowsJobIdentity) (action : HumanProcessAction)
| tree_base (pid : option Z) (detached : bool) (signal : Signal)
| tree_kill (pid : Z) (signal : Signal)
| tree_proc (pid : option Z) (signal : Signal).
Inductive ControlOp :=
| Now                                              (* Date.now() *)
| Sleep (ms : Z)
| RandomUUID
| Project                                          (* projectedOwnedProcesses() *)
| Append (ev : NewMonitorEvent)
| Insert (r : ProcessControlRequest)
| Pending (processId processInstanceId : string)
| Claim (seq : Z) (c : Claimant)
| Finish (seq : Z) (now : Z) (failure : option string)
| ReadRow (seq : Z)
| ReadRowOfAction (actionId : string)
| ReadIdentity (pid : Z)
| Kill (pid : Z) (signal : Signal)
| ControlWindows (job : WindowsJobIdentity) (action : HumanProcessAction)
| Transport (c : TreeCall)                         (* the transport to the tree it spawned *)
| Owner (f : OwnerState -> OwnerState)             (* code between two awaits *)
| ReleaseClaim (wgId : string)
| EnsureLoop.
Inductive LoopStart := loop_spawned | loop_already_running | loop_waited_for_peer | loop_error (message : string).
Definition ControlAns (o : ControlOp) : Type :=
  match o with
  | Now => Z
  | Sleep _ => unit
  | RandomUUID => string
  | Project => result Thrown (list OwnedProcessState)
  | Append _ => result Thrown unit
  | Insert _ => result Thrown Z
  | Pending _ _ => result Thrown (list ProcessControlRequest)
  | Claim _ _ => result Thrown bool
  | Finish _ _ _ => result Thrown (option RequestRow)
  | ReadRow _ | ReadRowOfAction _ => result Thrown (option RequestRow)
  | ReadIdentity _ => result Thrown ProcessIdentity
  | Kill _ _ => result Thrown unit
  | ControlWindows _ _ => result Thrown unit
  | Transport _ => result Thrown unit
  | Owner _ => OwnerState
  | ReleaseClaim _ => result Thrown unit
  | EnsureLoop => result Thrown LoopStart
  end.
Abbreviation Async := (Prog ControlOp ControlAns Thrown).
Definition perform (o : ControlOp) : Async (ControlAns o) := ask o.
(** [await] of a call that may reject. *)
Definition settle {A} (r : result Thrown A) : Async A := match r with Ok a => Ret a | Err x => Throw x end.
Definition throw {A} (message : string) : Async A := Throw (error message).
Definition now : Async Z := perform Now.
Definition project : Async (list OwnedProcessState) := perform Project ≫= settle.
Definition append (ev : NewMonitorEvent) : Async unit := perform (Append ev) ≫= settle.
Definition find_process (processId : string) (l : list OwnedProcessState) : option OwnedProcessState :=
  head (filter (fun s => op_processId s = processId) l).

(** ** Registering and marking *)
Record RegisterInput := {
  ri_processId : string; ri_processInstanceId : option string; ri_wgId : string; ri_runId : option string;
  ri_checkpointStage : option string; ri_lap : option Z; ri_role : string; ri_ownership : Ownership; ri_pid : Z;
  ri_processGroupId : Z; ri_processStartIdentity : option string; ri_windowsJob : option WindowsJobIdentity; ri_nowMs : option Z }.
Definition registerOwnedProcess (input : RegisterInput) : Async string :=
  match ri_processStartIdentity input with
  | None => perform (ReadIdentity (ri_pid input)) ≫= settle
  | Some start => Ret {| pi_processGroupId := Z.abs (ri_processGroupId input); pi_startIdentity := start |}
  end ≫= fun identity =>
  if negb (Z.abs (ri_processGroupId input) =? pi_processGroupId identity)
  then throw ("owned process group mismatch for " +:+ ri_processId input +:+ ": expected " +:+ pretty (Z.abs (ri_processGroupId input)) +:+
              ", found " +:+ pretty (pi_processGroupId identity))
  else
    match ri_processInstanceId input with None => perform RandomUUID | Some i => Ret i end ≫= fun instance =>
    project ≫= fun states =>
    let reused := match find_process (ri_processId input) states with
                  | Some existing => negb (op_processInstanceId existing =? instance)%string | None => false end in
    if reused then throw ("attempt-local process id reused: " +:+ ri_processId input)
    else
      match ri_nowMs input with None => now | Some ms => Ret ms end ≫= fun atMs =>
      append {|
        ev_wgId := ri_wgId input; ev_kind := kind_name process_started; ev_item := no_item;
        ev_process := {|
          ev_processId := Some (ri_processId input); ev_ownership := Some (ri_ownership input); ev_processInstanceId := Some instance;
          ev_runId := ri_runId input; ev_checkpointStage := ri_checkpointStage input; ev_lap := ri_lap input;
          ev_role := Some (ri_role input); ev_pid := Some (ri_pid input); ev_processGroupId := Some (pi_processGroupId identity);
          ev_processStartIdentity := Some (pi_startIdentity identity); ev_windowsJobName := wj_jobName <$> ri_windowsJob input;
          ev_windowsJobMetadata := wj_metadataPath <$> ri_windowsJob input; ev_exitCode := None |};
        ev_action := no_action; ev_scope := no_scope; ev_atMs := atMs |} ≫= fun _ =>
      Ret instance.
Definition mark_event (processId wgId : string) (status : OwnedProcessStatus) (exitCode : option (option Z))
    (requestedBy : option HumanControlSurface) (instance : option string) (audit : option ProcessActionAudit) (atMs : Z) : NewMonitorEvent :=
  {| ev_wgId := wgId; ev_kind := kind_name (statusEvent status); ev_item := no_item;
     ev_process := {| ev_processId := Some processId; ev_ownership := None; ev_processInstanceId := instance; ev_runId := None;
                      ev_checkpointStage := None; ev_lap := None; ev_role := None; ev_pid := None; ev_processGroupId := None;
                      ev_processStartIdentity := None; ev_windowsJobName := None; ev_windowsJobMetadata := None; ev_exitCode := exitCode |};
     ev_action := match audit with
                  | None => {| ev_requestedBy := requestedBy; ev_authorizedBy := None; ev_actionId := None; ev_controlAction := None;
                               ev_requestedAtMs := None; ev_appliedAtMs := None; ev_failedAtMs := None; ev_failure := None |}
                  | Some a => {| ev_requestedBy := Some (pa_requestedBy a); ev_authorizedBy := Some (pa_authorizedBy a);
                                 ev_actionId := Some (pa_actionId a); ev_controlAction := Some (pa_action a);
                                 ev_requestedAtMs := Some (pa_requestedAtMs a); ev_appliedAtMs := pa_appliedAtMs a;
                                 ev_failedAtMs := pa_failedAtMs a; ev_failure := pa_failure a |}
                  end;
     ev_scope := no_scope; ev_atMs := atMs |}.
Definition markOwnedProcess (processId : string) (status : OwnedProcessStatus) (exitCode : option (option Z))
    (requestedBy : option HumanControlSurface) (knownWgId instance : option string) (audit : option ProcessActionAudit) : Async unit :=
  project ≫= fun states =>
  match or_else knownWgId (op_wgId <$> find_process processId states) with
  | None => Ret tt
  | Some wgId => now ≫= fun atMs => append (mark_event processId wgId status exitCode requestedBy instance audit atMs)
  end.

(** [Promise.all]: every program is run; a rejection rejects the whole. *)
Fixpoint all_ok {A} (l : list (result Thrown A)) : Async (list A) :=
  match l with
  | [] => Ret []
  | Err x :: _ => Throw x
  | Ok a :: l => all_ok l ≫= fun rest => Ret (a :: rest)
  end.
Definition promise_all {A B} (f : A -> Async B) (l : list A) : Async (list B) := collect (fun a => attempt (f a)) l ≫= all_ok.

(** ** Listing *)
(** Concurrent reads share one reconciliation of an incarnation; here each
    read runs its own. *)
Definition reconcileProcessLiveness (s : OwnedProcessState) : Async unit :=
  if negb (is_active (op_status s)) then Ret tt
  else
    perform (ReadIdentity (op_pid s)) ≫= fun read =>
    let exists_exactly := match read with
      | Ok identity => Some ((pi_processGroupId identity =? op_processGroupId s) && (pi_startIdentity identity =? op_processStartIdentity s)%string)
      | Err x => if isMissingOwnedProcess x then Some false else None
      end in
    match exists_exactly with
    | None | Some true => Ret tt
    | Some false =>
        project ≫= fun states =>
        match find_process (op_processId s) states with
        | Some latest =>
            if (op_processInstanceId latest =? op_processInstanceId s)%string && is_active (op_status latest)
            then markOwnedProcess (op_processId s) exited (Some None) None (Some (op_wgId s)) (Some (op_processInstanceId s)) None
            else Ret tt
        | None => Ret tt
        end
    end.
Definition listOwnedProcesses (activeOnly : bool) : Async (list OwnedProcessState) :=
  project ≫= fun initial =>
  promise_all reconcileProcessLiveness initial ≫= fun _ =>
  project ≫= fun states =>
  Ret (if activeOnly then filter (fun s => is_active (op_status s) = true) states else states).

(** ** Requests *)
Inductive AuditKind := audit_requested | audit_applied | audit_failed.
Definition audit_event (r : ProcessControlRequest) (k : AuditKind) (timestamp : Z) (failure : option string) : NewMonitorEvent :=
  {| ev_wgId := rq_wgId r;
     ev_kind := kind_name (match k with audit_requested => process_control_requested | audit_applied => process_control_applied
                           | audit_failed => process_control_failed end);
     ev_item := no_item;
     ev_process := {| ev_processId := Some (rq_processId r); ev_ownership := None; ev_processInstanceId := Some (rq_processInstanceId r);
                      ev_runId := None; ev_checkpointStage := None; ev_lap := None; ev_role := None; ev_pid := None; ev_processGroupId := None;
                      ev_processStartIdentity := None; ev_windowsJobName := None; ev_windowsJobMetadata := None; ev_exitCode := None |};
     ev_action := {| ev_requestedBy := Some (rq_requestedBy r); ev_authorizedBy := Some (rq_authorizedBy r); ev_actionId := Some (rq_actionId r);
                     ev_controlAction := Some (rq_action r); ev_requestedAtMs := Some (rq_requestedAtMs r);
                     ev_appliedAtMs := match k with audit_applied => Some timestamp | _ => None end;
                     ev_failedAtMs := match k with audit_failed => Some timestamp | _ => None end;
                     ev_failure := match k with audit_failed => failure | _ => None end |};
     ev_scope := no_scope; ev_atMs := timestamp |}.
Definition appendControlAudit (r : ProcessControlRequest) (k : AuditKind) (timestamp : Z) (failure : option string) : Async unit :=
  append (audit_event r k timestamp failure).
Record ControlInput := { ci_processId : string; ci_action : HumanProcessAction; ci_requestedBy : HumanControlSurface; ci_authorizedBy : string }.
Definition insertControlRequest (s : OwnedProcessState) (input : ControlInput) (authorizedBy : string) : Async ProcessControlRequest :=
  now ≫= fun requestedAtMs =>
  perform RandomUUID ≫= fun actionId =>
  let r := {| rq_seq := 0; rq_actionId := actionId; rq_processId := op_processId s; rq_processInstanceId := op_processInstanceId s;
              rq_wgId := op_wgId s; rq_action := ci_action input; rq_requestedBy := ci_requestedBy input; rq_authorizedBy := authorizedBy;
              rq_requestedAtMs := requestedAtMs; rq_targetPid := op_pid s; rq_targetProcessGroupId := op_processGroupId s;
              rq_targetProcessStartIdentity := op_processStartIdentity s |} in
  (perform (Insert r) ≫= settle : Async Z) ≫= fun seq =>
  let request := renumber seq r in
  appendControlAudit request audit_requested requestedAtMs None ≫= fun _ =>
  Ret request.
Definition pendingRequests (processId instance : string) : Async (list ProcessControlRequest) := perform (Pending processId instance) ≫= settle.
Definition claimRequest (seq : Z) (c : Claimant) : Async bool := perform (Claim seq c) ≫= settle.
Definition finishRequest (seq : Z) (failure : option string) : Async ProcessControlReceipt :=
  now ≫= fun ms =>
  (perform (Finish seq ms failure) ≫= settle : Async (option RequestRow)) ≫= fun row =>
  match row with
  | None => throw ("control request " +:+ pretty seq +:+ " disappeared")
  | Some w =>
      let completed := handled_receipt w in
      match or_else (rc_appliedAtMs completed) (rc_failedAtMs completed) with Some ms => Ret ms | None => now end ≫= fun timestamp =>
      appendControlAudit (rc_request completed) (if bool_decide (rc_result completed = res_applied) then audit_applied else audit_failed)
        timestamp (rc_failure completed) ≫= fun _ =>
      Ret completed
  end.
Definition readReceipt (seq : Z) : Async (option ProcessControlReceipt) :=
  (perform (ReadRow seq) ≫= settle : Async (option RequestRow)) ≫= fun row : option RequestRow => Ret (row_receipt <$> row).
Definition getProcessControlReceipt (actionId : string) : Async (option ProcessControlReceipt) :=
  let normalized := trim actionId in
  if (normalized =? "")%string then throw "actionId must be non-empty"
  else (perform (ReadRowOfAction normalized) ≫= settle : Async (option RequestRow)) ≫= fun row : option RequestRow => Ret (row_receipt <$> row).
(** [while (Date.now() < deadline)]: every turn sleeps at least a
    millisecond; [polls] bounds the turns. *)
Fixpoint await_receipt (polls : nat) (seq deadline : Z) (pause : Z -> Z) : Async (option ProcessControlReceipt) :=
  match polls with
  | O => Ret None
  | S polls =>
      now ≫= fun ms =>
      if negb (ms <? deadline) then Ret None
      else
        readReceipt seq ≫= fun receipt =>
        match receipt with
        | Some r =>
            if bool_decide (rc_result r = res_queued) then
              now ≫= fun ms => perform (Sleep (pause (deadline - ms))) ≫= fun _ => await_receipt polls seq deadline pause
            else Ret (Some r)
        | None => now ≫= fun ms => perform (Sleep (pause (deadline - ms))) ≫= fun _ => await_receipt polls seq deadline pause
        end
  end.
Definition action_audit (r : ProcessControlRequest) : ProcessActionAudit :=
  {| pa_actionId := rq_actionId r; pa_action := rq_action r; pa_requestedBy := rq_requestedBy r; pa_authorizedBy := rq_authorizedBy r;
     pa_requestedAtMs := rq_requestedAtMs r; pa_appliedAtMs := None; pa_failedAtMs := None; pa_failure := None |}.

Section Request.
(** the platform, [ownerWaitMs], whether [controlWindows] was given, and the
    bound on polls *)
Context (win32 : bool) (ownerWaitMs : Z) (has_controlWindows : bool) (polls : nat).

Definition mark_request (input : ControlInput) (s : OwnedProcessState) (r : ProcessControlRequest) (status : OwnedProcessStatus) : Async unit :=
  markOwnedProcess (ci_processId input) status None (Some (ci_requestedBy input)) (Some (op_wgId s)) (Some (op_processInstanceId s))
    (Some (action_audit r)).
Definition send_signal (input : ControlInput) (s : OwnedProcessState) (identity : ProcessIdentity) (osAction : HumanProcessAction) : Async unit :=
  if win32 then
    match op_windowsJobName s, op_windowsJobMetadata s, has_controlWindows with
    | Some jobName, Some metadata, true =>
        perform (ControlWindows {| wj_jobName := jobName; wj_metadataPath := metadata |} osAction) ≫= settle
    | _, _, _ => throw ("owned Windows Job Object metadata is unavailable for " +:+ ci_processId input)
    end
  else perform (Kill (- pi_processGroupId identity) (if bool_decide (osAction = terminate) then SIGTERM else SIGKILL)) ≫= settle.
(** The [try] block of a direct claim. *)
Definition apply_directly (input : ControlInput) (s : OwnedProcessState) (r : ProcessControlRequest) : Async ProcessControlReceipt :=
  perform (ReadIdentity (rq_targetPid r)) ≫= fun read =>
  match read with
  | Err x =>
      if negb (isMissingOwnedProcess x) then Throw x
      else mark_request input s r paused ≫= fun _ => finishRequest (rq_seq r) None
  | Ok identity =>
      if negb (pi_startIdentity identity =? rq_targetProcessStartIdentity r)%string || negb (pi_processGroupId identity =? rq_targetProcessGroupId r)
      then throw ("owned process identity changed for " +:+ ci_processId input +:+ "; refusing OS signal")
      else
        let osAction := if bool_decide (ci_action input = terminate) then terminate else force_kill in
        mark_request input s r (if bool_decide (osAction = terminate) then terminate_requested else force_kill_requested) ≫= fun _ =>
        send_signal input s identity osAction ≫= fun _ =>
        finishRequest (rq_seq r) None
  end.
Definition requestOneProcessControl (input : ControlInput) : Async ProcessControlReceipt :=
  let authorizedBy := trim (ci_authorizedBy input) in
  if (authorizedBy =? "")%string then throw "process-control authorization identity must be non-empty"
  else
    project ≫= fun states =>
    let processState := find_process (ci_processId input) states in
    match processState with
    | Some s =>
        if negb (set_has (ci_action input) (op_availableActions s))
        then throw ("process " +:+ ci_processId input +:+ " does not allow " +:+ action_name (ci_action input) +:+ " from status " +:+ status_name (op_status s))
        else
          insertControlRequest s input authorizedBy ≫= fun request =>
          (if bool_decide (ci_action input = graceful_stop) then mark_request input s request shutdown_requested else Ret tt) ≫= fun _ =>
          now ≫= fun ms =>
          await_receipt polls (rq_seq request) (ms + ownerWaitMs) (fun left => Z.min 25 (Z.max 1 left)) ≫= fun receipt =>
          match receipt with
          | Some r => Ret r
          | None =>
              if bool_decide (ci_action input = graceful_stop) then Ret (queued_receipt request)
              else
                claimRequest (rq_seq request) direct_claims ≫= fun claimed =>
                if negb claimed then
                  now ≫= fun ms =>
                  await_receipt polls (rq_seq request) (ms + Z.max 100 ownerWaitMs) (fun _ => 10) ≫= fun receipt =>
                  Ret (default (queued_receipt request) receipt)
                else
                  handle (apply_directly input s request) (fun x => finishRequest (rq_seq request) (Some (th_message x)))
          end
    | None => throw ("process " +:+ ci_processId input +:+ " does not allow " +:+ action_name (ci_action input) +:+ " from status missing")
    end.
Definition related_to (target : OwnedProcessState) (action : HumanProcessAction) (states : list OwnedProcessState) : list OwnedProcessState :=
  filter (fun s => (negb (op_processId s =? op_processId target)%string && bool_decide (op_runId s = op_runId target) &&
                    set_has action (op_availableActions s)) = true) states.
(** The receipt with the receipts of the cascade. *)
Definition requestProcessControl (input : ControlInput) : Async (ProcessControlReceipt * list ProcessControlReceipt) :=
  project ≫= fun states =>
  let target := find_process (ci_processId input) states in
  requestOneProcessControl input ≫= fun receipt =>
  match target with
  | Some t =>
      match op_ownership t, op_runId t with
      | control_root, Some _ =>
          let one s := requestOneProcessControl {| ci_processId := op_processId s; ci_action := ci_action input;
                                                   ci_requestedBy := ci_requestedBy input; ci_authorizedBy := ci_authorizedBy input |} in
          promise_all one (related_to t (ci_action input) states) ≫= fun related =>
          Ret (receipt, related)
      | _, _ => Ret (receipt, [])
      end
  | None => Ret (receipt, [])
  end.
End Request.

(** ** The owner *)
Definition set_cause (cause : ProcessShutdownCause) (s : OwnerState) : OwnerState :=
  {| ow_job := ow_job s; ow_child := ow_child s; ow_detached := ow_detached s; ow_closed := ow_closed s; ow_automatic := ow_automatic s; ow_cause := Some cause;
     ow_terminal := ow_terminal s; ow_stdin_open := ow_stdin_open s; ow_timer := ow_timer s |}.
Definition end_stdin (s : OwnerState) : OwnerState :=
  {| ow_job := ow_job s; ow_child := ow_child s; ow_detached := ow_detached s; ow_closed := ow_closed s; ow_automatic := ow_automatic s; ow_cause := ow_cause s;
     ow_terminal := ow_terminal s; ow_stdin_open := false; ow_timer := ow_timer s |}.
Definition shut_automatically (s : OwnerState) : OwnerState :=
  {| ow_job := ow_job s; ow_child := ow_child s; ow_detached := ow_detached s; ow_closed := ow_closed s; ow_automatic := true;
     ow_cause := Some (default automatic (ow_cause s)); ow_terminal := ow_terminal s; ow_stdin_open := ow_stdin_open s; ow_timer := ow_timer s |}.
Definition spawned (pid : option Z) (detached : bool) (s : OwnerState) : OwnerState :=
  {| ow_job := ow_job s; ow_child := pid; ow_detached := bool_decide (ow_job s <> None) || detached; ow_closed := ow_closed s; ow_automatic := ow_automatic s; ow_cause := ow_cause s;
     ow_terminal := ow_terminal s; ow_stdin_open := ow_stdin_open s; ow_timer := ow_timer s |}.
Definition closing (s : OwnerState) : OwnerState :=
  {| ow_job := ow_job s; ow_child := ow_child s; ow_detached := ow_detached s; ow_closed := true; ow_automatic := ow_automatic s; ow_cause := ow_cause s;
     ow_terminal := ow_terminal s; ow_stdin_open := ow_stdin_open s; ow_timer := ow_timer s |}.
Definition ended (status : OwnedProcessStatus) (exitCode : option (option Z)) (s : OwnerState) : OwnerState :=
  {| ow_job := ow_job s; ow_child := ow_child s; ow_detached := ow_detached s; ow_closed := true; ow_automatic := ow_automatic s; ow_cause := ow_cause s;
     ow_terminal := Some (status, exitCode); ow_stdin_open := ow_stdin_open s; ow_timer := false |}.
Definition scheduled (s : OwnerState) : OwnerState :=
  if ow_closed s then s
  else {| ow_job := ow_job s; ow_child := ow_child s; ow_detached := ow_detached s; ow_closed := ow_closed s; ow_automatic := ow_automatic s; ow_cause := ow_cause s;
          ow_terminal := ow_terminal s; ow_stdin_open := ow_stdin_open s; ow_timer := true |}.

Section Owner.
Context (register : RegisterInput) (instance : string).
Definition mark (status : OwnedProcessStatus) (exitCode : option (option Z)) (requestedBy : option HumanControlSurface)
    (audit : option ProcessActionAudit) : Async unit :=
  markOwnedProcess (ri_processId register) status exitCode requestedBy (Some (ri_wgId register)) (Some instance) audit.
(** [void p.catch(() => undefined)] *)
Definition forget {A} (p : Async A) : Async unit := attempt p ≫= fun _ => Ret tt.
Definition signalOwned (action : HumanProcessAction) (signal : Signal) : Async unit :=
  perform (Owner (fun s => s)) ≫= fun s =>
  match ow_child s with
  | None => Ret tt
  | Some pid =>
      match ow_job s with
      | Some job => perform (ControlWindows job action) ≫= settle
      | None => perform (Kill (if ow_detached s then - pid else pid) signal) ≫= settle
      end
  end.
(** A second [graceful] ends an ended stdin: nothing more. *)
Definition graceful (status : OwnedProcessStatus) : Async unit :=
  perform (Owner (fun s => end_stdin (if bool_decide (status = shutdown_pending) then shut_automatically s else s))) ≫= fun _ =>
  forget (mark status None None None).
Definition apply_claimed (r : ProcessControlRequest) : Async unit :=
  perform (Owner (set_cause (human (rq_action r) (rq_requestedBy r) (rq_authorizedBy r) (rq_actionId r)))) ≫= fun _ =>
  match rq_action r with
  | graceful_stop =>
      mark shutdown_requested None (Some (rq_requestedBy r)) (Some (action_audit r)) ≫= fun _ =>
      perform (Owner end_stdin) ≫= fun _ => Ret tt
  | terminate =>
      mark terminate_requested None (Some (rq_requestedBy r)) (Some (action_audit r)) ≫= fun _ =>
      signalOwned terminate SIGTERM
  | _ =>
      mark force_kill_requested None (Some (rq_requestedBy r)) (Some (action_audit r)) ≫= fun _ =>
      signalOwned force_kill SIGKILL
  end ≫= fun _ =>
  finishRequest (rq_seq r) None ≫= fun _ => Ret tt.
Definition applyRequest (r : ProcessControlRequest) : Async unit :=
  claimRequest (rq_seq r) owner_claims ≫= fun claimed =>
  if negb claimed then Ret tt
  else handle (apply_claimed r) (fun x => finishRequest (rq_seq r) (Some (th_message x)) ≫= fun _ => Ret tt).
Definition poll : Async unit :=
  perform (Owner (fun s => s)) ≫= fun s =>
  if ow_closed s then Ret tt
  else finally (pendingRequests (ri_processId register) instance ≫= fun requests => each applyRequest requests)
               (perform (Owner scheduled) ≫= fun _ => Ret tt).
(** After the child was spawned: registration, then the polls. *)
Definition on_spawned (pid : option Z) (detached : bool) : Async unit :=
  perform (Owner (spawned pid detached)) ≫= fun s =>
  match pid with
  | None => Ret tt
  | Some pid =>
      attempt (registerOwnedProcess {|
        ri_processId := ri_processId register; ri_processInstanceId := Some instance; ri_wgId := ri_wgId register; ri_runId := ri_runId register;
        ri_checkpointStage := ri_checkpointStage register; ri_lap := ri_lap register; ri_role := ri_role register;
        ri_ownership := ri_ownership register; ri_pid := pid; ri_processGroupId := pid; ri_processStartIdentity := None;
        ri_windowsJob := ow_job s; ri_nowMs := None |}) ≫= fun registration =>
      match registration with
      | Err _ => Ret tt
      | Ok _ =>
          perform (Owner (fun s => s)) ≫= fun s =>
          match ow_terminal s with
          | Some (status, exitCode) => forget (mark status exitCode None None)
          | None =>
              (if ow_automatic s then forget (mark shutdown_pending None None None) else Ret tt) ≫= fun _ =>
              poll
          end
      end
  end.
(** [procControl.signalTree]: how the transport stops the tree it spawned, on
    its own account and not for a request. *)
Definition signalTree (base_has_signalTree : bool) (pid : option Z) (treeDetached : bool) (signal : Signal) : Async unit :=
  perform (Owner (fun s => s)) ≫= fun s =>
  perform (Transport
    (match ow_job s, pid with
     | Some job, _ => tree_job job (if bool_decide (signal = SIGKILL) then force_kill else terminate)
     | None, Some pid' =>
         if base_has_signalTree then tree_base pid treeDetached signal
         else if treeDetached then tree_kill (- pid') signal else tree_proc pid signal
     | None, None => if base_has_signalTree then tree_base pid treeDetached signal else tree_proc pid signal
     end)) ≫= settle.
(** [process.kill(-child.pid, 0)] *)
Definition terminateTreeStillAlive (s : OwnerState) : Async bool :=
  match ow_job s, ow_detached s, ow_child s with
  | None, true, Some pid =>
      perform (Kill (- pid) SIGNULL) ≫= fun r : result Thrown unit => Ret match r with Ok _ => true | Err _ => false end
  | _, _, _ => Ret false
  end.
Definition on_close (code : option Z) : Async unit :=
  perform (Owner closing) ≫= fun s =>
  (match ow_cause s with
  | Some (human graceful_stop _ _ _) | Some (human force_kill _ _ _) => Ret paused
  | Some (human terminate _ _ _) => terminateTreeStillAlive s ≫= fun alive : bool => Ret (if alive then terminate_requested else paused)
  | _ => Ret exited
  end : Async OwnedProcessStatus) ≫= fun status =>
  perform (Owner (ended status (Some code))) ≫= fun _ =>
  forget (mark status (Some code) None None).
Definition on_error : Async unit :=
  perform (Owner (ended spawn_failed None)) ≫= fun _ =>
  forget (mark spawn_failed None None None).
End Owner.

(** ** Resuming paused work *)
Record ResumeProcessResult := {
  rp_actionId : string; rp_processId : string; rp_processInstanceId : string; rp_wgId : string; rp_requestedBy : HumanControlSurface;
  rp_authorizedBy : string; rp_requestedAtMs : Z; rp_appliedAtMs : Z; rp_loopStatus : LoopStart }.
Definition resumeOwnedProcess (processId : string) (requestedBy : HumanControlSurface) (authorizedBy : string) : Async ResumeProcessResult :=
  listOwnedProcesses false ≫= fun states =>
  match find_process processId states with
  | Some s =>
      if negb (bool_decide (op_status s = paused))
      then throw ("process " +:+ processId +:+ " cannot resume from status " +:+ status_name (op_status s))
      else
        let authorizedBy := trim authorizedBy in
        if (authorizedBy =? "")%string then throw "process-control authorization identity must be non-empty"
        else
          perform RandomUUID ≫= fun actionId =>
          now ≫= fun requestedAtMs =>
          (perform (ReleaseClaim (op_wgId s)) ≫= settle : Async unit) ≫= fun _ =>
          (perform EnsureLoop ≫= settle : Async LoopStart) ≫= fun loop =>
          match loop with
          | loop_error message => throw ("could not resume loop: " +:+ message)
          | _ =>
              now ≫= fun appliedAtMs =>
              markOwnedProcess processId resumed None (Some requestedBy) (Some (op_wgId s)) (Some (op_processInstanceId s))
                (Some {| pa_actionId := actionId; pa_action := resume; pa_requestedBy := requestedBy; pa_authorizedBy := authorizedBy;
                         pa_requestedAtMs := requestedAtMs; pa_appliedAtMs := Some appliedAtMs; pa_failedAtMs := None; pa_failure := None |}) ≫= fun _ =>
              Ret {| rp_actionId := actionId; rp_processId := processId; rp_processInstanceId := op_processInstanceId s; rp_wgId := op_wgId s;
                     rp_requestedBy := requestedBy; rp_authorizedBy := authorizedBy; rp_requestedAtMs := requestedAtMs;
                     rp_appliedAtMs := appliedAtMs; rp_loopStatus := loop |}
          end
  | None => throw ("process " +:+ processId +:+ " cannot resume from status missing")
  end.
