(* ===== verification/ProcessProps.v ===== *)
(** * Signals answer requests, once

    Any number of requesters, owners, listers and resumers run interleaved over
    the request table ([exec]); every answer that is not the table's is
    arbitrary, a statement may throw with or without its effect, and a thread
    may stop anywhere.  The ghost state of a thread is what it has learnt:
    requests it has seen in the table, the claim it holds, the identity it last
    read, and the processes and the closures it was shown. *)

From Stdlib Require Import Ascii String ZArith Lia.
From stdpp Require Import base option list strings gmap.
From S2P Require Import Prelude Threads ExprSyntax LoopEvents ProcessState ProcessControl.
#[local] Open Scope Z_scope.

(** ** What the table does with a statement *)
Definition answered {A} (run : RequestTable -> A * RequestTable) (t : RequestTable) (a : result Thrown A) (t' : RequestTable) : Prop :=
  match a with
  | Ok x => run t = (x, t')
  | Err _ => t' = t \/ t' = (run t).2
  end.
Definition reads {A} (f : RequestTable -> A) (t : RequestTable) (a : result Thrown A) (t' : RequestTable) : Prop :=
  t' = t /\ match a with Ok x => x = f t | Err _ => True end.
Definition exec (o : ControlOp) (t : RequestTable) : ControlAns o -> RequestTable -> Prop :=
  match o return ControlAns o -> RequestTable -> Prop with
  | Insert r => answered (insert_request r) t
  | Claim seq c => answered (claim_row seq c) t
  | Finish seq ms failure => answered (finish_row seq ms failure) t
  | Pending p i => reads (pending_rows p i) t
  | ReadRow seq => reads (row_at seq) t
  | _ => fun _ t' => t' = t
  end.

(** ** What a thread knows *)
Inductive Shown := a_process (s : OwnedProcessState) | a_closure (s : OwnerState).
Record Ghost := {
  gh_known : list ProcessControlRequest; gh_claim : option (Z * Claimant); gh_identity : option (Z * ProcessIdentity); gh_shown : list Shown }.
Definition no_ghost : Ghost := {| gh_known := []; gh_claim := None; gh_identity := None; gh_shown := [] |}.
Definition knows (l : list ProcessControlRequest) (g : Ghost) : Ghost :=
  {| gh_known := l ++ gh_known g; gh_claim := gh_claim g; gh_identity := gh_identity g; gh_shown := gh_shown g |}.
Definition claims (c : option (Z * Claimant)) (g : Ghost) : Ghost :=
  {| gh_known := gh_known g; gh_claim := c; gh_identity := gh_identity g; gh_shown := gh_shown g |}.
Definition identifies (i : Z * ProcessIdentity) (g : Ghost) : Ghost :=
  {| gh_known := gh_known g; gh_claim := gh_claim g; gh_identity := Some i; gh_shown := gh_shown g |}.
Definition sees (l : list Shown) (g : Ghost) : Ghost :=
  {| gh_known := gh_known g; gh_claim := gh_claim g; gh_identity := gh_identity g; gh_shown := l ++ gh_shown g |}.
Definition after (g : Ghost) (o : ControlOp) : ControlAns o -> Ghost :=
  match o return ControlAns o -> Ghost with
  | Insert r => fun a => match a with Ok seq => knows [renumber seq r] g | Err _ => g end
  | Pending _ _ => fun a => match a with Ok l => knows l g | Err _ => g end
  | Claim seq c => fun a => match a with Ok true => claims (Some (seq, c)) g | _ => g end
  | ReadIdentity pid => fun a => match a with Ok i => identifies (pid, i) g | Err _ => g end
  | Kill _ SIGNULL => fun _ => g
  | Kill _ _ | ControlWindows _ _ => fun _ => claims None g
  | Project => fun a => match a with Ok l => sees (map a_process l) g | Err _ => g end
  | Owner _ => fun s => sees [a_closure s] g
  | _ => fun _ => g
  end.
(** What is sent: a signal of [process.kill], an action on a Job Object, or what
    the transport does to the tree it spawned. *)
Inductive Sent :=
| os_signal (pid : Z) (signal : Signal)
| job_signal (job : WindowsJobIdentity) (action : HumanProcessAction)
| own_tree (c : TreeCall).
Record Note := {
  nt_claim : option (Z * Claimant); nt_identity : option (Z * ProcessIdentity); nt_shown : list Shown; nt_sent : Sent }.
Definition noted (g : Ghost) (claim : option (Z * Claimant)) (sent : Sent) : Note :=
  {| nt_claim := claim; nt_identity := gh_identity g; nt_shown := gh_shown g; nt_sent := sent |}.
Definition observe (g : Ghost) (o : ControlOp) : list Note :=
  match o with
  | Kill _ SIGNULL => []
  | Kill pid signal => [noted g (gh_claim g) (os_signal pid signal)]
  | ControlWindows job action => [noted g (gh_claim g) (job_signal job action)]
  | Transport c => [noted g None (own_tree c)]
  | _ => []
  end.
(** The signal an action asks for. *)
Definition action_signal (a : HumanProcessAction) : option (Signal * HumanProcessAction) :=
  match a with graceful_stop => None | terminate => Some (SIGTERM, terminate) | _ => Some (SIGKILL, force_kill) end.
Definition right_signal (r : ProcessControlRequest) (sent : Sent) : Prop :=
  match sent with
  | os_signal _ signal => fst <$> action_signal (rq_action r) = Some signal
  | job_signal _ action => snd <$> action_signal (rq_action r) = Some action
  | own_tree _ => False
  end.
Definition registered_identity (r : ProcessControlRequest) : ProcessIdentity :=
  {| pi_processGroupId := rq_targetProcessGroupId r; pi_startIdentity := rq_targetProcessStartIdentity r |}.
(** A requester signals only when the identity it has just read of the target
    pid is the registered one: the registered group, or the Job Object that the
    log names for this incarnation of the process. *)
Definition right_target (r : ProcessControlRequest) (n : Note) : Prop :=
  nt_identity n = Some (rq_targetPid r, registered_identity r) /\
  match nt_sent n with
  | os_signal pid _ => pid = - rq_targetProcessGroupId r
  | job_signal job _ => exists s, a_process s ∈ nt_shown n /\ op_processId s = rq_processId r /\ op_processInstanceId s = rq_processInstanceId r /\
      op_windowsJobName s = Some (wj_jobName job) /\ op_windowsJobMetadata s = Some (wj_metadataPath job)
  | own_tree _ => False
  end.
(** An owner signals the child of its closure, or the closure's Job Object. *)
Definition owned_target (n : Note) : Prop :=
  exists s child, a_closure s ∈ nt_shown n /\ ow_child s = Some child /\
    match nt_sent n with
    | os_signal pid _ => ow_job s = None /\ pid = if ow_detached s then - child else child
    | job_signal job _ => ow_job s = Some job
    | own_tree _ => False
    end.
Definition answers (r : ProcessControlRequest) (n : Note) : Prop :=
  exists c, nt_claim n = Some (rq_seq r, c) /\ right_signal r (nt_sent n) /\
    match c with direct_claims => right_target r n | owner_claims => owned_target n end.
(** A transport's own shutdown of the tree it spawned. *)
Definition own_shutdown (n : Note) : Prop := nt_claim n = None /\ exists c, nt_sent n = own_tree c.
Definition allowed (g : Ghost) (o : ControlOp) : Prop :=
  Forall (fun n => own_shutdown n \/ exists r, r ∈ gh_known g /\ answers r n) (observe g o).
Abbreviation keeps := (follows allowed after).

(** ** The programs keep the protocol *)
(** Operations that send nothing and teach nothing but what they show. *)
Definition neutral (o : ControlOp) : bool :=
  match o with
  | Insert _ | Pending _ _ | Claim _ _ | ReadIdentity _ | ControlWindows _ _ | Transport _ => false
  | Kill _ SIGNULL => true
  | Kill _ _ => false
  | _ => true
  end.
Fixpoint neutral_program {A} (p : Async A) : Prop :=
  match p with Ret _ | Throw _ => True | Do o k => neutral o = true /\ forall a, neutral_program (k a) end.
Lemma sees_nil g : sees [] g = g.
Proof. by destruct g. Qed.
Lemma sees_sees l l' g : sees l (sees l' g) = sees (l ++ l') g.
Proof. unfold sees. cbn. by rewrite app_assoc. Qed.
Lemma neutral_allowed g o : neutral o = true -> allowed g o.
Proof. destruct o as [| | | | | | | | | | | |? []| | | | |]; try done; intros _; constructor. Qed.
Lemma neutral_after g o (a : ControlAns o) : neutral o = true -> exists l, after g o a = sees l g.
Proof.
  destruct o as [| | | | | | | | | | | |? []| | | | |]; try done; intros _; cbn; try (exists []; by rewrite sees_nil); [|by eexists].
  destruct a; [by eexists|exists []; by rewrite sees_nil].
Qed.
Lemma neutral_keeps {A} (Q : Ghost -> A + Thrown -> Prop) g (p : Async A) : neutral_program p -> (forall l r, Q (sees l g) r) -> keeps Q g p.
Proof.
  intros Hp. revert g. induction p as [a|x|o k IH]; intros g HQ; cbn in *.
  1,2: rewrite <- (sees_nil g); apply HQ.
  destruct Hp as [Ho Hk]. split; [by apply neutral_allowed|]. intros a. destruct (neutral_after g o a Ho) as [l E]. rewrite E.
  apply IH; [done|]. intros l' r. rewrite sees_sees. apply HQ.
Qed.
Lemma neutral_bind {A B} (p : Async A) (f : A -> Async B) : neutral_program p -> (forall a, neutral_program (f a)) -> neutral_program (p ≫= f).
Proof. intros Hp Hf. induction p as [a|x|o k IH]; cbn in *; [apply Hf|done|]. destruct Hp as [Ho Hk]. split; [done|]. intros a. by apply IH. Qed.
Lemma neutral_handle {A} (p : Async A) h : neutral_program p -> (forall x, neutral_program (h x)) -> neutral_program (handle p h).
Proof. intros Hp Hh. induction p as [a|x|o k IH]; cbn in *; [done|apply Hh|]. destruct Hp as [Ho Hk]. split; [done|]. intros a. by apply IH. Qed.
Lemma neutral_settle {A} (r : result Thrown A) : neutral_program (settle r).
Proof. by destruct r. Qed.
Lemma neutral_all_ok {A} (l : list (result Thrown A)) : neutral_program (all_ok l).
Proof. induction l as [|[a|x] l IH]; [done| |done]. cbn. by apply neutral_bind. Qed.
Lemma neutral_ret {A} (a : A) : neutral_program (Ret a : Async A).
Proof. done. Qed.
Lemma neutral_perform o : neutral o = true -> neutral_program (perform o).
Proof. done. Qed.
Create HintDb quiet.
Ltac quiet :=
  repeat first
    [ assumption
    | solve [auto with quiet nocore]
    | apply neutral_bind; [|intros ?]
    | apply neutral_settle
    | apply neutral_ret
    | match goal with |- neutral_program (perform _) => apply neutral_perform; reflexivity end
    | case_match ].
Lemma neutral_throw {A} message : neutral_program (throw message : Async A).
Proof. done. Qed.
#[export] Hint Resolve neutral_throw : quiet.
Lemma neutral_project : neutral_program project.
Proof. unfold project. quiet. Qed.
Lemma neutral_append ev : neutral_program (append ev).
Proof. unfold append. quiet. Qed.
#[export] Hint Resolve neutral_project neutral_append : quiet.
Lemma neutral_mark p s x b w i a : neutral_program (markOwnedProcess p s x b w i a).
Proof. unfold markOwnedProcess, now. quiet. Qed.
Lemma neutral_finish seq failure : neutral_program (finishRequest seq failure).
Proof. unfold finishRequest, appendControlAudit, now. quiet. Qed.
#[export] Hint Resolve neutral_mark neutral_finish : quiet.
Lemma neutral_await polls seq deadline pause : neutral_program (await_receipt polls seq deadline pause).
Proof. induction polls as [|polls IH]; [done|]. cbn [await_receipt]. unfold readReceipt, now. quiet. Qed.
#[export] Hint Resolve neutral_await : quiet.

(** Programs that send nothing keep the protocol. *)
Definition sends (o : ControlOp) : bool := match o with Kill _ SIGNULL => false | Kill _ _ | ControlWindows _ _ => true | _ => false end.
Fixpoint mute {A} (p : Async A) : Prop :=
  match p with Ret _ | Throw _ => True | Do o k => sends o = false /\ forall a, mute (k a) end.
Lemma mute_op g o : sends o = false -> allowed g o.
Proof.
  destruct o as [| | | | | | | | | | | |? []| | | | |]; try done; try constructor; [|constructor]. left. split; [done|by eexists].
Qed.
Lemma mute_keeps {A} (Q : Ghost -> A + Thrown -> Prop) g (p : Async A) : mute p -> (forall g r, Q g r) -> keeps Q g p.
Proof.
  intros Hp HQ. revert g. induction p as [a|x|o k IH]; intros g; cbn in *; [apply HQ|apply HQ|]. destruct Hp as [Ho Hk].
  split; [by apply mute_op|]. intros a. by apply IH.
Qed.
Lemma mute_bind {A B} (p : Async A) (f : A -> Async B) : mute p -> (forall a, mute (f a)) -> mute (p ≫= f).
Proof. intros Hp Hf. induction p as [a|x|o k IH]; cbn in *; [apply Hf|done|]. destruct Hp as [Ho Hk]. split; [done|]. intros a. by apply IH. Qed.
Lemma mute_handle {A} (p : Async A) h : mute p -> (forall x, mute (h x)) -> mute (handle p h).
Proof. intros Hp Hh. induction p as [a|x|o k IH]; cbn in *; [done|apply Hh|]. destruct Hp as [Ho Hk]. split; [done|]. intros a. by apply IH. Qed.
Lemma mute_attempt {A} (p : Async A) : mute p -> mute (attempt p).
Proof. intros H. unfold attempt. apply mute_handle; [|done]. by apply mute_bind. Qed.
Lemma mute_each {A} (f : A -> Async unit) l : (forall a, mute (f a)) -> mute (each f l).
Proof. intros H. induction l as [|a l IH]; [done|]. cbn. by apply mute_bind. Qed.
Lemma neutral_mute {A} (p : Async A) : neutral_program p -> mute p.
Proof.
  induction p as [a|x|o k IH]; cbn; [done|done|]. intros [Ho Hk]. split; [|auto].
  clear -Ho. by destruct o as [| | | | | | | | | | | |? []| | | | |].
Qed.
Lemma mute_collect {A B} (f : A -> Async B) l : (forall a, mute (f a)) -> mute (collect f l).
Proof. intros H. induction l as [|a l IH]; [done|]. cbn. apply mute_bind; [done|]. intros b. by apply mute_bind. Qed.
Lemma mute_promise_all {A B} (f : A -> Async B) l : (forall a, mute (f a)) -> mute (promise_all f l).
Proof. intros H. unfold promise_all. apply mute_bind; [|intros results; apply neutral_mute, neutral_all_ok]. apply mute_collect. intros a. apply mute_attempt, H. Qed.
Lemma mute_perform o : sends o = false -> mute (perform o).
Proof. done. Qed.
Lemma mute_settle {A} (r : result Thrown A) : mute (settle r).
Proof. by destruct r. Qed.
Lemma mute_ret {A} (a : A) : mute (Ret a : Async A).
Proof. done. Qed.
#[export] Hint Resolve neutral_mute : quiet.
Ltac silent :=
  repeat first
    [ assumption
    | solve [auto with quiet nocore]
    | apply mute_bind; [|intros ?]
    | apply mute_handle; [|intros ?]
    | apply mute_settle
    | apply mute_ret
    | match goal with |- mute (perform _) => apply mute_perform; reflexivity end
    | match goal with |- mute (throw _) => exact I end
    | case_match ].
Lemma mute_register input : mute (registerOwnedProcess input).
Proof. unfold registerOwnedProcess, now. silent. Qed.
Lemma mute_reconcile s : mute (reconcileProcessLiveness s).
Proof. unfold reconcileProcessLiveness. silent. Qed.
Lemma mute_list b : mute (listOwnedProcesses b).
Proof.
  unfold listOwnedProcesses. apply mute_bind; [silent|intros initial].
  apply mute_bind; [apply mute_promise_all, mute_reconcile|intros _]. silent.
Qed.
#[export] Hint Resolve mute_register mute_list : quiet.
Lemma mute_resume p by_ who : mute (resumeOwnedProcess p by_ who).
Proof. unfold resumeOwnedProcess, now. silent. Qed.

(** What is known is never forgotten. *)
Lemma after_known g o (a : ControlAns o) : gh_known g ⊆ gh_known (after g o a).
Proof.
  destruct o as [| | | | |r|p i|seq c|seq ms f|seq|act|pid|pid []|job act|tree|f|w|]; cbn; try done;
    repeat (case_match; try done); cbn; set_solver.
Qed.
Lemma keeps_known {A} g (p : Async A) : keeps (fun _ _ => True) g p -> keeps (fun g' _ => gh_known g ⊆ gh_known g') g p.
Proof.
  assert (H : forall l, l ⊆ gh_known g -> keeps (fun _ _ => True) g p -> keeps (fun g' _ => l ⊆ gh_known g') g p).
  { intros l. revert g. induction p as [a|x|o k IH]; intros g Hl; cbn; [done|done|]. intros [Ho Hk]. split; [done|]. intros a.
    apply IH; [|done]. etransitivity; [exact Hl|apply after_known]. }
  by apply H.
Qed.

(** ** Requesters *)
Definition Known (l : list ProcessControlRequest) (g : Ghost) : Prop := l ⊆ gh_known g.
Abbreviation always := (fun _ _ => True).
Lemma keeps_op {A} (Q : Ghost -> A + Thrown -> Prop) g o (k : ControlAns o -> Async A) :
  allowed g o -> (forall a, keeps Q (after g o a) (k a)) -> keeps Q g (perform o ≫= k).
Proof. intros Ho Hk. split; [done|]. intros a. apply Hk. Qed.
(** A neutral program in front adds to the ghost what it was shown. *)
Lemma keeps_after_neutral {A B} (Q : Ghost -> B + Thrown -> Prop) g (p : Async A) (f : A -> Async B) :
  neutral_program p -> (forall l a, keeps Q (sees l g) (f a)) -> (forall l x, Q (sees l g) (inr x)) -> keeps Q g (p ≫= f).
Proof. intros Hp Hf HQ. apply follows_bind, neutral_keeps; [done|]. intros l [a|x]; [apply Hf|apply HQ]. Qed.
Lemma keeps_settle {A B} (Q : Ghost -> B + Thrown -> Prop) g (r : result Thrown A) (f : A -> Async B) :
  (forall a, r = Ok a -> keeps Q g (f a)) -> (forall x, Q g (inr x)) -> keeps Q g (settle r ≫= f).
Proof. intros Hf HQ. destruct r; cbn; [by apply Hf|apply HQ]. Qed.
Lemma keeps_request {A B} (Q : Ghost -> B + Thrown -> Prop) g o (m : ControlAns o -> Async A) (f : A -> Async B) :
  allowed g o -> (forall a, keeps (fun g r => match r with inl a => keeps Q g (f a) | inr x => Q g (inr x) end) (after g o a) (m a)) ->
  keeps Q g ((perform o ≫= m) ≫= f).
Proof. intros Ho Hm. apply follows_bind. by apply keeps_op. Qed.
Lemma action_of_osAction a : a <> graceful_stop ->
  let osAction := if bool_decide (a = terminate) then terminate else force_kill in
  action_signal a = Some (if bool_decide (osAction = terminate) then SIGTERM else SIGKILL, osAction).
Proof. by destruct a. Qed.

Section Requester.
Context (win32 : bool) (ownerWaitMs : Z) (has_controlWindows : bool) (polls : nat).
(** The request is one of a process the thread was shown. *)
Definition of_process (g : Ghost) (s : OwnedProcessState) (r : ProcessControlRequest) : Prop :=
  a_process s ∈ gh_shown g /\ op_processId s = rq_processId r /\ op_processInstanceId s = rq_processInstanceId r.
Lemma of_process_sees l g s r : of_process g s r -> of_process (sees l g) s r.
Proof. intros (H & ? & ?). split; [cbn; set_solver|done]. Qed.
Lemma keeps_send g input s r identity :
  r ∈ gh_known g -> gh_claim g = Some (rq_seq r, direct_claims) -> gh_identity g = Some (rq_targetPid r, registered_identity r) ->
  of_process g s r -> identity = registered_identity r -> ci_action input = rq_action r -> rq_action r <> graceful_stop ->
  keeps always g (send_signal win32 has_controlWindows input s identity (if bool_decide (ci_action input = terminate) then terminate else force_kill)).
Proof.
  intros Hr Hc Hi (Hs1 & Hs2 & Hs3) -> Ha Hg. pose proof (action_of_osAction _ Hg) as Hs. rewrite Ha. unfold send_signal.
  set (osAction := if bool_decide (rq_action r = terminate) then terminate else force_kill) in *. cbn zeta in Hs.
  assert (Hsig : exists sig, (if bool_decide (osAction = terminate) then SIGTERM else SIGKILL) = sig /\ sig <> SIGNULL) by (case_bool_decide; eauto).
  destruct win32.
  - destruct (op_windowsJobName s) eqn:E1, (op_windowsJobMetadata s) eqn:E2, has_controlWindows; try done.
    apply keeps_op; [|intros a; apply neutral_keeps; [apply neutral_settle|done]].
    constructor; [|constructor]. right. exists r. split; [done|]. exists direct_claims. split; [done|]. split; [by cbn; rewrite Hs|].
    split; [done|]. by exists s.
  - apply keeps_op; [|intros a; apply neutral_keeps; [apply neutral_settle|done]].
    destruct Hsig as (sig & E & Hn). rewrite E in *. unfold allowed, observe. destruct sig; try done;
      (constructor; [|constructor]; right; exists r; split; [done|]; exists direct_claims; split; [done|]; split; [by cbn; rewrite Hs|by split]).
Qed.
Lemma keeps_apply_directly g input s r :
  r ∈ gh_known g -> gh_claim g = Some (rq_seq r, direct_claims) -> of_process g s r -> ci_action input = rq_action r -> rq_action r <> graceful_stop ->
  keeps always g (apply_directly win32 has_controlWindows input s r).
Proof.
  intros Hr Hc Hp Ha Hg. unfold apply_directly. apply keeps_op; [constructor|]. intros [identity|x]; cbn [after].
  2:{ apply neutral_keeps; [|done]. unfold mark_request. quiet. done. }
  destruct (negb (pi_startIdentity identity =? rq_targetProcessStartIdentity r)%string || negb (pi_processGroupId identity =? rq_targetProcessGroupId r)) eqn:E; [done|].
  apply orb_false_iff in E as [E1%negb_false_iff%String.eqb_eq E2%negb_false_iff%Z.eqb_eq].
  assert (Hi : identity = registered_identity r) by (destruct identity; cbn in *; by subst).
  apply keeps_after_neutral; [unfold mark_request; quiet| |done]. intros l _. apply follows_bind.
  eapply follows_mono; [|apply (keeps_send _ input s r identity)]; try done; [|by cbn; rewrite Hi|by apply of_process_sees].
  intros g' [[]|x] _; [|done]. apply neutral_keeps; [apply neutral_finish|done].
Qed.
Lemma find_process_elem processId l s : find_process processId l = Some s -> s ∈ l.
Proof.
  unfold find_process. destruct (filter _ l) as [|x r] eqn:E; [done|]. intros [= ->].
  assert (H : s ∈ s :: r) by left. rewrite <- E in H. by apply list_elem_of_filter in H as [_ ?].
Qed.
(** From the claim on. *)
Lemma keeps_claim g input s r : r ∈ gh_known g -> of_process g s r -> ci_action input = rq_action r -> rq_action r <> graceful_stop ->
  keeps always g
    (claimRequest (rq_seq r) direct_claims ≫= fun claimed =>
     if negb claimed then
       now ≫= fun ms =>
       await_receipt polls (rq_seq r) (ms + Z.max 100 ownerWaitMs) (fun _ => 10) ≫= fun receipt =>
       Ret (default (queued_receipt r) receipt)
     else handle (apply_directly win32 has_controlWindows input s r) (fun x => finishRequest (rq_seq r) (Some (th_message x)))).
Proof.
  intros Hr Hp Ha Hg. unfold claimRequest. apply keeps_request; [constructor|]. intros [[]|x]; [|..|done].
  - cbn [settle follows after negb]. apply follows_handle. eapply follows_mono; [|apply keeps_apply_directly; try done].
    intros g' [?|x] _; [done|]. apply neutral_keeps; [quiet|done].
  - cbn [settle follows after negb]. apply neutral_keeps; [unfold now; quiet|done].
Qed.
Lemma keeps_requestOne g input : keeps always g (requestOneProcessControl win32 ownerWaitMs has_controlWindows polls input).
Proof.
  unfold requestOneProcessControl. destruct (_ =? _)%string; [done|]. unfold project. apply keeps_request; [constructor|].
  intros [states|x]; [|done]. cbn [settle follows after].
  destruct (find_process _ states) as [s|] eqn:Ef; [|done]. apply find_process_elem in Ef. destruct (negb _); [done|].
  set (g1 := sees _ g). assert (Hs : a_process s ∈ gh_shown g1) by (cbn; apply elem_of_app; left; by apply list_elem_of_fmap_2).
  revert Hs. generalize g1. clear g g1 Ef. intros g Hs.
  unfold insertControlRequest. apply follows_bind. apply keeps_after_neutral; [done| |done]. intros l1 ms.
  apply keeps_after_neutral; [done| |done]. intros l2 actionId. apply keeps_request; [constructor|]. intros [seq|x]; [|done].
  cbn [settle follows after]. set (r := renumber seq _). apply keeps_after_neutral; [unfold appendControlAudit; quiet| |done]. intros l3 [].
  cbn [follows]. set (g1 := sees l3 _). assert (Hr : r ∈ gh_known g1) by (cbn; left).
  assert (Hp : of_process g1 s r) by (split; [cbn; set_solver|done]). revert Hr Hp. generalize g1. clear g g1 Hs. intros g Hr Hp.
  apply keeps_after_neutral; [unfold mark_request; quiet| |done]. intros l4 [].
  apply keeps_after_neutral; [done| |done]. intros l5 ms'. apply keeps_after_neutral; [quiet| |done]. intros l6 [receipt|]; [done|].
  case_bool_decide as Hg; [done|]. apply keeps_claim; try done. by do 3 apply of_process_sees.
Qed.
Lemma keeps_attempt {A} g (p : Async A) : keeps always g p -> keeps always g (attempt p).
Proof.
  intros H. unfold attempt. apply follows_handle, follows_bind. eapply follows_mono; [|exact H]. by intros g' [a|x] _.
Qed.
Lemma keeps_requestProcessControl g input : keeps always g (requestProcessControl win32 ownerWaitMs has_controlWindows polls input).
Proof.
  unfold requestProcessControl. apply keeps_after_neutral; [quiet| |done]. intros l states. apply follows_bind.
  eapply follows_mono; [|apply keeps_requestOne]. intros g' [receipt|x] _; [|done].
  destruct (find_process _ states) as [t|]; [|done]. destruct (op_ownership t); [|done]. destruct (op_runId t); [|done].
  unfold promise_all. do 2 apply follows_bind. apply (follows_collect _ _ (fun _ => True) always); [done| | |by intros ? ?].
  - intros g2 p _ _. eapply follows_mono; [|apply keeps_attempt, keeps_requestOne]. by intros g3 [?|?].
  - intros g2 results _. apply neutral_keeps; [apply neutral_all_ok|by intros ? []].
Qed.
End Requester.

(** ** Owners *)
Lemma neutral_forget {A} (p : Async A) : neutral_program p -> neutral_program (forget p).
Proof. intros H. unfold forget, attempt. apply neutral_bind; [|done]. apply neutral_handle; [by apply neutral_bind|done]. Qed.
#[export] Hint Resolve neutral_forget : quiet.
Section Owner.
Context (register : RegisterInput) (instance : string).
Lemma keeps_signalOwned g r action sig :
  r ∈ gh_known g -> gh_claim g = Some (rq_seq r, owner_claims) -> action_signal (rq_action r) = Some (sig, action) -> sig <> SIGNULL ->
  keeps always g (signalOwned action sig).
Proof.
  intros Hr Hc Hs Hn. unfold signalOwned. apply keeps_op; [constructor|]. intros s. cbn [after].
  destruct (ow_child s) as [pid|] eqn:Ep; [|done].
  assert (Hin : a_closure s ∈ gh_shown (sees [a_closure s] g)) by left.
  destruct (ow_job s) as [job|] eqn:Ej; (apply keeps_op; [|intros a; apply neutral_keeps; [apply neutral_settle|done]]).
  - constructor; [|constructor]. right. exists r. split; [done|]. exists owner_claims. split; [done|]. split; [by cbn; rewrite Hs|].
    by exists s, pid.
  - destruct sig; try done; (constructor; [|constructor]; right; exists r; split; [done|]; exists owner_claims; split; [done|];
      split; [by cbn; rewrite Hs|by exists s, pid]).
Qed.
Lemma keeps_apply_claimed g r : r ∈ gh_known g -> gh_claim g = Some (rq_seq r, owner_claims) ->
  keeps always g (apply_claimed register instance r).
Proof.
  intros Hr Hc. unfold apply_claimed, mark. apply keeps_op; [constructor|]. intros s. cbn [after]. apply follows_bind.
  assert (Hend : forall g', keeps always g' (finishRequest (rq_seq r) None ≫= fun _ => Ret tt)).
  { intros g'. apply neutral_keeps; [quiet|done]. }
  destruct (rq_action r) eqn:Ea; (apply keeps_after_neutral; [quiet| |done]; intros l []).
  - apply keeps_op; [constructor|]. intros s'. apply Hend.
  - eapply follows_mono; [|apply (keeps_signalOwned _ r); [done|done|by rewrite Ea|done]]. intros g' [[]|x] _; [apply Hend|done].
  - eapply follows_mono; [|apply (keeps_signalOwned _ r); [done|done|by rewrite Ea|done]]. intros g' [[]|x] _; [apply Hend|done].
  - eapply follows_mono; [|apply (keeps_signalOwned _ r); [done|done|by rewrite Ea|done]]. intros g' [[]|x] _; [apply Hend|done].
Qed.
Lemma keeps_applyRequest g r : r ∈ gh_known g -> keeps always g (applyRequest register instance r).
Proof.
  intros Hr. unfold applyRequest, claimRequest. apply keeps_request; [constructor|]. intros [[]|x]; cbn [settle follows after negb]; [|done|done].
  apply follows_handle. eapply follows_mono; [|apply keeps_apply_claimed; done]. intros g' [[]|x] _; [done|].
  apply neutral_keeps; [quiet|done].
Qed.
Lemma keeps_each_request g l : l ⊆ gh_known g -> keeps always g (each (applyRequest register instance) l).
Proof.
  intros Hl. apply (follows_each _ _ (Known l)); [done| |done]. intros g' r Hr Hk.
  eapply follows_mono; [|apply keeps_known, keeps_applyRequest; by apply Hk]. intros g2 [[]|x] Hg; [|done]. unfold Known. by etransitivity.
Qed.
Lemma keeps_poll g : keeps always g (poll register instance).
Proof.
  unfold poll. apply keeps_op; [constructor|]. intros s. cbn [after]. destruct (ow_closed s); [done|].
  unfold finally. apply follows_bind.
  assert (Hf : forall g' (x : unit + Thrown), keeps (fun g r => match r with
      | inl a => keeps always g (match a with inl a => Ret a | inr x => Throw x end)
      | inr _ => True end) g' ((perform (Owner scheduled) ≫= fun _ => Ret tt) ≫= fun _ => Ret x)).
  { intros g' x. apply neutral_keeps; [quiet|]. intros ? [[a|y]|y]; done. }
  apply follows_handle, follows_bind, follows_bind. unfold pendingRequests. apply keeps_request; [constructor|].
  intros [l|x]; cbn [settle follows after]; [|apply (Hf _ (inr x))].
  eapply follows_mono; [|apply keeps_each_request; cbn; set_solver]. intros g' [[]|x] _; [|apply (Hf _ (inr x))].
  eapply follows_mono; [|apply (Hf g' (inl tt))]. intros g2 [a|x] Hr; done.
Qed.
Lemma keeps_on_spawned g pid detached : keeps always g (on_spawned register instance pid detached).
Proof.
  unfold on_spawned, mark. apply keeps_op; [constructor|]. intros s. cbn [after]. destruct pid as [pid|]; [|done]. apply follows_bind.
  apply mute_keeps; [apply mute_attempt, mute_register|]. clear g. intros g [[i|x]|x]; [|done|done]. apply keeps_op; [constructor|].
  intros s'. cbn [after]. destruct (ow_terminal s') as [[status code]|].
  - apply neutral_keeps; [quiet|done].
  - apply keeps_after_neutral; [quiet| |done]. intros l []. apply keeps_poll.
Qed.
Lemma keeps_on_close g code : keeps always g (on_close register instance code).
Proof. apply neutral_keeps; [|done]. unfold on_close, terminateTreeStillAlive, mark. quiet. Qed.
Lemma keeps_on_error g : keeps always g (on_error register instance).
Proof. apply neutral_keeps; [|done]. unfold on_error, mark. quiet. Qed.
Lemma keeps_signalTree g has pid detached signal : keeps always g (signalTree has pid detached signal).
Proof.
  unfold signalTree. apply keeps_op; [constructor|]. intros s. apply keeps_op; [|intros a; apply neutral_keeps; [apply neutral_settle|done]].
  constructor; [|constructor]. left. split; [done|by eexists].
Qed.
Lemma keeps_graceful g status : keeps always g (graceful register instance status).
Proof. apply neutral_keeps; [|done]. unfold graceful, mark. quiet. Qed.
End Owner.

(** ** The table's part *)
Definition row_seq (w : RequestRow) : Z := rq_seq (rw_request w).
Record TableOk (t : RequestTable) : Prop := {
  to_unique : NoDup (map row_seq (rt_rows t));
  to_bound : Forall (fun w => row_seq w <= rt_last t) (rt_rows t) }.
Definition in_table (t : RequestTable) (r : ProcessControlRequest) : Prop := exists w, w ∈ rt_rows t /\ rw_request w = r.
(** Somebody has claimed the request. *)
Definition taken (t : RequestTable) (seq : Z) : Prop := exists w, w ∈ rt_rows t /\ row_seq w = seq /\ rw_result w <> None.
(** What later tables keep of earlier ones: requests as they are, claims, and
    handled rows whole. *)
Record later (t t' : RequestTable) : Prop := {
  la_ok : TableOk t -> TableOk t';
  la_in : forall r, in_table t r -> in_table t' r;
  la_taken : forall seq, taken t seq -> taken t' seq;
  la_handled : forall w, w ∈ rt_rows t -> rw_handled_at w <> None -> w ∈ rt_rows t' }.
Lemma later_refl t : later t t.
Proof. by constructor. Qed.
Lemma later_trans t1 t2 t3 : later t1 t2 -> later t2 t3 -> later t1 t3.
Proof. intros [] []. constructor; auto. Qed.
Lemma later_update p f t : (forall w, rw_request (f w) = rw_request w) -> (forall w, rw_result (f w) <> None) ->
  (forall w, p w = true -> rw_handled_at w = None) -> later t (update_where p f t).
Proof.
  intros Hreq Hres Hp. set (h := fun w => if p w then f w else w).
  assert (Hh : forall w, rw_request (h w) = rw_request w) by (intros w; unfold h; by destruct (p w)).
  assert (Hin : forall w, w ∈ rt_rows t -> h w ∈ rt_rows (update_where p f t)).
  { intros w Hw. apply list_elem_of_fmap. eauto. }
  constructor.
  - intros [Hu Hb]. constructor; cbn [update_where rt_rows rt_last].
    + rewrite map_map. erewrite map_ext; [exact Hu|]. intros w. unfold row_seq. fold (h w). by rewrite Hh.
    + apply Forall_forall. intros w' (w & -> & Hw)%list_elem_of_fmap. rewrite Forall_forall in Hb. specialize (Hb w Hw).
      fold (h w). unfold row_seq in *. by rewrite Hh.
  - intros r (w & Hw & <-). exists (h w). split; [by apply Hin|apply Hh].
  - intros seq (w & Hw & <- & Hr). exists (h w). split; [by apply Hin|]. unfold row_seq. split; [by rewrite Hh|].
    unfold h. destruct (p w); [apply Hres|done].
  - intros w Hw Hh'. replace w with (h w); [by apply Hin|]. unfold h. destruct (p w) eqn:E; [|done]. by apply Hp in E.
Qed.
Lemma later_insert r t : later t (insert_request r t).2.
Proof.
  constructor; cbn.
  - intros [Hu Hb]. constructor; cbn.
    + rewrite map_app. apply NoDup_app. split; [done|]. split; [|apply NoDup_singleton].
      intros z (w & -> & Hw)%list_elem_of_fmap Hz%list_elem_of_singleton. rewrite Forall_forall in Hb. specialize (Hb w Hw). cbn in Hz. lia.
    + apply Forall_app. split; [|repeat constructor; cbn; lia]. eapply Forall_impl; [exact Hb|]. cbn. lia.
  - intros q (w & Hw & <-). exists w. split; [set_solver|done].
  - intros seq (w & Hw & <- & Hr). exists w. split; [set_solver|done].
  - intros w Hw _. set_solver.
Qed.
Lemma later_claim seq c t : later t (claim_row seq c t).2.
Proof.
  apply later_update; [done|done|]. intros w [_ H]%andb_true_iff. unfold unclaimed in H. apply andb_true_iff in H as [H _].
  by apply bool_decide_eq_true in H.
Qed.
Lemma later_finish seq ms failure t : later t (finish_row seq ms failure t).2.
Proof. apply later_update; [done|done|]. intros w [_ H]%andb_true_iff. by apply bool_decide_eq_true in H. Qed.
Lemma answered_later {A} (run : RequestTable -> A * RequestTable) t a t' : (forall t, later t (run t).2) -> answered run t a t' -> later t t'.
Proof. intros H. unfold answered. destruct a as [x|x]; [intros E; specialize (H t); by rewrite E in H|intros [->| ->]; [apply later_refl|apply H]]. Qed.
Lemma exec_later o t a t' : exec o t a t' -> later t t'.
Proof.
  destruct o; cbn; try (intros ->; apply later_refl); try (intros [-> _]; apply later_refl);
    apply answered_later; intros; [apply later_insert|apply later_claim|apply later_finish].
Qed.
Lemma row_unique t w w' : TableOk t -> w ∈ rt_rows t -> w' ∈ rt_rows t -> row_seq w = row_seq w' -> w = w'.
Proof.
  intros [Hn _] [i Hi]%list_elem_of_lookup [j Hj]%list_elem_of_lookup E. rewrite NoDup_alt in Hn.
  assert (i = j) as ->; [|congruence]. apply (Hn i j (row_seq w)); rewrite list_lookup_fmap; [by rewrite Hi|rewrite Hj; cbn; congruence].
Qed.
(** A claim that wins was the first. *)
Lemma claim_wins seq c t t' : TableOk t -> exec (Claim seq c) t (Ok true) t' -> ~ taken t seq /\ taken t' seq.
Proof.
  intros Hok [= E <-]. cbn in E. apply Nat.eqb_eq in E.
  destruct (filter _ (rt_rows t)) as [|w [|]] eqn:Ef; try done. assert (Hw : w ∈ w :: []) by left. rewrite <- Ef in Hw.
  apply list_elem_of_filter in Hw as [Hp Hw]. pose proof Hp as Hp'. apply andb_true_iff in Hp' as [Hs%Z.eqb_eq Hu].
  unfold unclaimed in Hu. apply andb_true_iff in Hu as [_ Hr%bool_decide_eq_true]. split.
  - intros (w' & Hw' & Hs' & Hr'). rewrite (row_unique _ w' w Hok) in Hr' by (unfold row_seq in *; try done; congruence). done.
  - exists (with_result ("authorizing:" +:+ claimant_name c) w). split; [|done].
    apply list_elem_of_fmap. exists w. by rewrite Hp.
Qed.

(** ** Everybody at once *)
Definition done_with {A} (p : Async A) : Async unit := p ≫= fun _ => Ret tt.
Inductive Thread : Async unit -> Prop :=
| th_request win32 wait hasWindows polls input : Thread (done_with (requestProcessControl win32 wait hasWindows polls input))
| th_receipt actionId : Thread (done_with (getProcessControlReceipt actionId))
| th_list activeOnly : Thread (done_with (listOwnedProcesses activeOnly))
| th_resume processId by_ who : Thread (done_with (resumeOwnedProcess processId by_ who))
| th_register input : Thread (done_with (registerOwnedProcess input))
| th_spawned register instance pid detached : Thread (on_spawned register instance pid detached)
| th_poll register instance : Thread (poll register instance)
| th_tree has pid detached signal : Thread (signalTree has pid detached signal)
| th_graceful register instance status : Thread (graceful register instance status)
| th_close register instance code : Thread (on_close register instance code)
| th_error register instance : Thread (on_error register instance).
Lemma thread_keeps p g : Thread p -> keeps always g p.
Proof.
  assert (Hd : forall A (q : Async A), keeps always g q -> keeps always g (done_with q)).
  { intros A q Hq. unfold done_with. apply follows_bind. eapply follows_mono; [|exact Hq]. by intros g' [a|x] _. }
  destruct 1.
  - apply Hd, keeps_requestProcessControl.
  - apply Hd, mute_keeps; [|done]. unfold getProcessControlReceipt. cbn zeta. case_match; [exact I|]. silent.
  - apply Hd, mute_keeps; [apply mute_list|done].
  - apply Hd, mute_keeps; [apply mute_resume|done].
  - apply Hd, mute_keeps; [apply mute_register|done].
  - apply keeps_on_spawned.
  - apply keeps_poll.
  - apply keeps_signalTree.
  - apply keeps_graceful.
  - apply keeps_on_close.
  - apply keeps_on_error.
Qed.
Abbreviation State := (Pool ControlOp ControlAns Thrown unit RequestTable Ghost Note).
Definition control_step : State -> State -> Prop := pool_step exec after no_ghost Thread observe.
Definition control_start (t : RequestTable) : State := pool_start t.

Definition claim_of (gp : Ghost * Async unit) : option Z := fst <$> gh_claim gp.1.
Definition note_of (n : Note) : option Z := fst <$> nt_claim n.
(** Requests a thread holds a claim on, and requests that were signalled. *)
Definition held (s : State) : list Z := omap claim_of (po_threads s) ++ omap note_of (po_notes s).
Record SInv (s : State) : Prop := {
  si_table : TableOk (po_world s);
  si_keeps : forall g p, (g, p) ∈ po_threads s -> keeps always g p;
  si_known : forall g p r, (g, p) ∈ po_threads s -> r ∈ gh_known g -> in_table (po_world s) r;
  si_held : NoDup (held s);
  si_taken : forall seq, seq ∈ held s -> taken (po_world s) seq;
  si_notes : forall n, n ∈ po_notes s -> own_shutdown n \/ exists r, in_table (po_world s) r /\ answers r n }.

(** What one operation does to a thread's ghost and to the notes. *)
Lemma known_grows g o a t t' r : exec o t a t' -> TableOk t -> (forall r, r ∈ gh_known g -> in_table t r) ->
  r ∈ gh_known (after g o a) -> in_table t' r.
Proof.
  intros He Hok Hk Hr. pose proof (exec_later _ _ _ _ He) as Hl. assert (Hold : r ∈ gh_known g -> in_table t' r) by (intros; apply (la_in _ _ Hl); auto).
  destruct o as [| | | | |q|p i|seq c|seq ms f|seq|act|pid|pid []|job act|tree|f|w|]; cbn in Hr; try (by apply Hold);
    repeat (case_match; subst; try (by apply Hold)).
  - cbn in Hr. apply elem_of_cons in Hr as [->|Hr]; [|by apply Hold]. injection He as <- <-.
    eexists. cbn. split; [apply elem_of_app; right; by left|done].
  - cbn in Hr. apply elem_of_app in Hr as [Hr|Hr]; [|by apply Hold]. destruct He as [-> ->].
    apply list_elem_of_fmap in Hr as (w & -> & [_ Hw]%list_elem_of_filter). by exists w.
Qed.
Lemma claim_moves g o a t t' : exec o t a t' ->
  (observe g o = [] /\ gh_claim (after g o a) = gh_claim g) \/
  (exists seq c, observe g o = [] /\ gh_claim (after g o a) = Some (seq, c) /\ (TableOk t -> ~ taken t seq /\ taken t' seq)) \/
  (exists n, observe g o = [n] /\ nt_claim n = gh_claim g /\ gh_claim (after g o a) = None) \/
  (exists n, observe g o = [n] /\ nt_claim n = None /\ gh_claim (after g o a) = gh_claim g).
Proof.
  intros He. destruct o as [| | | | |q|p i|seq c|seq ms f|seq|act|pid|pid []|job act|tree|f|w|]; cbn; try (by left); try (right; right; left; by eexists);
    try (right; right; right; by eexists); repeat (case_match; try (by left)).
  subst. right. left. exists seq, c. split; [done|]. split; [done|]. intros Hok. by apply (claim_wins _ c).
Qed.
Definition opt_list {A} (o : option A) : list A := match o with Some a => [a] | None => [] end.
Lemma omap_cons_opt {A B} (f : A -> option B) a l : omap f (a :: l) = opt_list (f a) ++ omap f l.
Proof. cbn. by destruct (f a). Qed.
Lemma held_run s i g p g' p' t more : po_threads s !! i = Some (g, p) ->
  exists rest, held s ≡ₚ opt_list (fst <$> gh_claim g) ++ rest /\
    held {| po_threads := <[i := (g', p')]> (po_threads s); po_world := t; po_notes := po_notes s ++ more |} ≡ₚ
    opt_list (fst <$> gh_claim g') ++ omap note_of more ++ rest.
Proof.
  intros Hi. pose proof (lookup_lt_Some _ _ _ Hi) as Hlt.
  exists (omap claim_of (take i (po_threads s)) ++ omap claim_of (drop (S i) (po_threads s)) ++ omap note_of (po_notes s)).
  unfold held. cbn [po_threads po_notes]. split.
  - rewrite <- (take_drop_middle _ _ _ Hi) at 1. rewrite omap_app, omap_cons_opt. unfold claim_of at 2. cbn [fst]. solve_Permutation.
  - rewrite (insert_take_drop _ _ _ Hlt), !omap_app, omap_cons_opt. unfold claim_of at 2. cbn [fst]. solve_Permutation.
Qed.
Lemma control_step_inv s s' : SInv s -> control_step s s' -> SInv s'.
Proof.
  intros [H1 H2 H3 H4 H5 H6] Hs. destruct Hs as [p Hp|i g o k a t' Hi He].
  - assert (Hheld : held {| po_threads := po_threads s ++ [(no_ghost, p)]; po_world := po_world s; po_notes := po_notes s |} = held s).
    { unfold held. cbn [po_threads po_notes]. rewrite omap_app. cbn. by rewrite app_nil_r. }
    constructor; cbn [po_threads po_world po_notes]; rewrite ?Hheld; try done.
    + intros g q [Hq|[= -> ->]%list_elem_of_singleton]%elem_of_app; [by apply H2|by apply thread_keeps].
    + intros g q r [Hq|[= -> ->]%list_elem_of_singleton]%elem_of_app Hr; [by eapply H3|]. cbn in Hr. set_solver.
  - pose proof (exec_later _ _ _ _ He) as Hl. assert (Hin : (g, Do o k) ∈ po_threads s) by (by eapply list_elem_of_lookup_2).
    destruct (H2 _ _ Hin) as [Ha Hk]. assert (Hg : forall r, r ∈ gh_known g -> in_table (po_world s) r) by (intros r; by eapply H3).
    assert (Hsub : forall gp, gp ∈ <[i := (after g o a, k a)]> (po_threads s) -> gp = (after g o a, k a) \/ gp ∈ po_threads s).
    { intros gp [j Hj]%list_elem_of_lookup. destruct (decide (j = i)) as [->|Hne].
      - rewrite list_lookup_insert_eq in Hj by (by eapply lookup_lt_Some). left. congruence.
      - rewrite list_lookup_insert_ne in Hj by done. right. by eapply list_elem_of_lookup_2. }
    destruct (held_run s i g (Do o k) (after g o a) (k a) t' (observe g o) Hi) as (rest & Eh & Eh').
    set (s' := {| po_threads := _ |}) in *.
    assert (Hnew : NoDup (held s') /\ forall seq, seq ∈ held s' -> taken t' seq).
    { rewrite Eh'. rewrite Eh in H4. setoid_rewrite Eh in H5. setoid_rewrite Eh'.
      destruct (claim_moves g o a _ _ He) as [[Eo Ec]|[(seq & c & Eo & Ec & Hw)|[(n & Eo & En & Ec)|(n & Eo & En & Ec)]]]; rewrite Eo, Ec; cbn.
      - split; [done|]. intros seq Hseq. by apply (la_taken _ _ Hl), H5.
      - destruct (Hw H1) as [Hn Ht]. split.
        + apply NoDup_cons. split; [|by apply NoDup_app in H4 as (_ & _ & ?)]. intros Hr. apply Hn, H5. set_solver.
        + intros z [->|Hz]%elem_of_cons; [done|]. apply (la_taken _ _ Hl), H5. set_solver.
      - unfold note_of. rewrite En. destruct (gh_claim g) as [[z c]|]; cbn in *; split; try done; intros y Hy; by apply (la_taken _ _ Hl), H5.
      - unfold note_of. rewrite En. split; [done|]. intros y Hy. by apply (la_taken _ _ Hl), H5. }
    destruct Hnew as [Hnd Htk]. constructor; cbn [po_threads po_world po_notes s']; try done.
    + by apply (la_ok _ _ Hl).
    + intros g' p' [[= -> ->]|Hp]%Hsub; [apply Hk|by apply H2].
    + intros g' p' r [[= -> ->]|Hp]%Hsub Hr; [by eapply known_grows|]. apply (la_in _ _ Hl). by eapply H3.
    + intros n [Hn|Hn]%elem_of_app.
      * destruct (H6 _ Hn) as [|(r & Hr & Hans)]; [by left|right]. exists r. split; [by apply (la_in _ _ Hl)|done].
      * unfold allowed in Ha. rewrite Forall_forall in Ha. destruct (Ha _ Hn) as [|(r & Hr & Hans)]; [by left|right]. exists r. split; [|done].
        by apply (la_in _ _ Hl), Hg.
Qed.

(** C22: Signals answer requests, once: however requesters, owners, cascades, listings and resumptions interleave and whatever
    they are answered, every signal a requester or a polling owner sends carries the claim of one request of the table and is
    the signal of its action; no request is signalled twice.  One that its requester sends itself follows a read that found the
    registered identity at the target's pid, and goes to the registered process group or, on Windows, to the Job Object that a
    listing showed for that incarnation; one that an owner sends goes to the child, the group or the Job Object of its closure.
    The rest, which carries no claim, is the transport's automatic TERM and KILL of the tree it spawned ([signalTree]). *)
Theorem signals_answer_requests_once t s : TableOk t -> rtc control_step (control_start t) s ->
  NoDup (omap note_of (po_notes s)) /\
  forall n, n ∈ po_notes s -> own_shutdown n \/ exists r, in_table (po_world s) r /\ answers r n.
Proof.
  intros Ht Hr. assert (HI : SInv s).
  { revert Hr. assert (H0 : SInv (control_start t)) by (constructor; cbn; try done; try set_solver; constructor).
    revert H0. generalize (control_start t). intros s0 H0 Hr. induction Hr as [|? ? ? Hs _ IH]; [done|]. apply IH. by eapply control_step_inv. }
  split; [|apply (si_notes _ HI)]. pose proof (si_held _ HI) as Hn. unfold held in Hn. by apply NoDup_app in Hn as (_ & _ & ?).
Qed.
