(* ===== verification/ProcessRun.v ===== *)
(** * A request on its own

    What [requestOneProcessControl] does when no owner answers: the programs
    run against a desk that holds the log, the request table and a clock, and
    answers identities and signals as the platform does. *)

From Stdlib Require Import Ascii String ZArith Lia.
From stdpp Require Import base option list strings gmap pretty.
From S2P Require Import Prelude Effects Threads ExprSyntax LoopEvents LoopLogProps LoopBoard LoopBoardProps ProcessState ProcessControl ProcessProps.
#[local] Open Scope Z_scope.

Record Desk := { dk_log : LoopEvents; dk_table : RequestTable; dk_now : Z; dk_sent : list Sent; dk_owner : OwnerState }.
Definition with_log (t : LoopEvents) (d : Desk) : Desk :=
  {| dk_log := t; dk_table := dk_table d; dk_now := dk_now d; dk_sent := dk_sent d; dk_owner := dk_owner d |}.
Definition with_table (t : RequestTable) (d : Desk) : Desk :=
  {| dk_log := dk_log d; dk_table := t; dk_now := dk_now d; dk_sent := dk_sent d; dk_owner := dk_owner d |}.
Definition with_now (ms : Z) (d : Desk) : Desk :=
  {| dk_log := dk_log d; dk_table := dk_table d; dk_now := ms; dk_sent := dk_sent d; dk_owner := dk_owner d |}.
Definition with_sent (s : Sent) (d : Desk) : Desk :=
  {| dk_log := dk_log d; dk_table := dk_table d; dk_now := dk_now d; dk_sent := dk_sent d ++ [s]; dk_owner := dk_owner d |}.
Definition with_owner (o : OwnerState) (d : Desk) : Desk :=
  {| dk_log := dk_log d; dk_table := dk_table d; dk_now := dk_now d; dk_sent := dk_sent d; dk_owner := o |}.
Definition desk_events (d : Desk) : list MonitorEvent := events_since 0 (dk_log d).

(** ** The row of a request *)
Lemma filter_only {A B} (key : A -> B) (p : A -> bool) (l : list A) x : NoDup (map key l) -> x ∈ l -> p x = true ->
  (forall y, p y = true -> key y = key x) -> filter (fun y => p y = true) l = [x].
Proof.
  intros Hn Hx Hp Hk. induction l as [|a l IH]; [set_solver|]. cbn in Hn. apply NoDup_cons in Hn as [Ha Hn]. rewrite filter_cons.
  apply elem_of_cons in Hx as [<-|Hx].
  - rewrite decide_True by done. f_equal. apply filter_none, Forall_forall. intros y Hy Hpy. apply Ha. rewrite <- (Hk y Hpy).
    apply list_elem_of_fmap. eauto.
  - rewrite decide_False; [by apply IH|]. intros Hpa. apply Ha. rewrite (Hk a Hpa). apply list_elem_of_fmap. eauto.
Qed.
Lemma row_at_spec seq t w : row_at seq t = Some w -> w ∈ rt_rows t /\ row_seq w = seq.
Proof.
  unfold row_at. intros H. assert (Hw : w ∈ filter (fun w => at_seq seq w = true) (rt_rows t)) by (destruct (filter _ _); [done|]; injection H as ->; by left).
  apply list_elem_of_filter in Hw as [Hs%Z.eqb_eq Hw]. done.
Qed.
Lemma row_at_update seq p f t : (forall w, rw_request (f w) = rw_request w) ->
  row_at seq (update_where p f t) = (fun w => if p w then f w else w) <$> row_at seq t.
Proof.
  intros Hf. unfold row_at. cbn [update_where rt_rows]. induction (rt_rows t) as [|w l IH]; [done|]. cbn [map]. rewrite !filter_cons.
  assert (E : at_seq seq (if p w then f w else w) = at_seq seq w) by (unfold at_seq; destruct (p w); by rewrite ?Hf).
  rewrite E. destruct (at_seq seq w); [done|]. exact IH.
Qed.
Lemma row_at_insert r t : TableOk t -> row_at (rt_last t + 1) (insert_request r t).2 =
  Some {| rw_request := renumber (rt_last t + 1) r; rw_handled_at := None; rw_applied_at := None; rw_failed_at := None; rw_result := None; rw_failure := None |}.
Proof.
  intros [_ Hb]. unfold row_at. cbn. rewrite filter_app, filter_none.
  - rewrite filter_cons_True; [done|]. unfold at_seq. cbn. apply Z.eqb_refl.
  - eapply Forall_impl; [exact Hb|]. intros w Hw E%Z.eqb_eq. unfold row_seq in Hw. lia.
Qed.
Lemma claim_row_at seq c t w : TableOk t -> row_at seq t = Some w -> unclaimed w = true ->
  (claim_row seq c t).1 = true /\ row_at seq (claim_row seq c t).2 = Some (with_result ("authorizing:" +:+ claimant_name c) w).
Proof.
  intros Ht Hw Hu. destruct (row_at_spec _ _ _ Hw) as [Hin Hseq]. unfold claim_row. cbn [fst snd].
  assert (Hp : at_seq seq w && unclaimed w = true) by (rewrite Hu, andb_true_r; apply Z.eqb_eq, Hseq). split.
  - rewrite (filter_only row_seq (fun w => at_seq seq w && unclaimed w) _ w (to_unique _ Ht) Hin Hp); [done|].
    intros y [Hy%Z.eqb_eq _]%andb_true_iff. unfold row_seq in *. congruence.
  - rewrite row_at_update, Hw by done. cbn [fmap option_fmap option_map]. by rewrite Hp.
Qed.

Section Desk.
Context (sha256Hex : string -> string) (sha_hex : forall s, hex64 (sha256Hex s) = true).
(** [randomUUID], [readIdentity] and [kill] of the platform *)
Context (uuid : string) (identity : Z -> result Thrown ProcessIdentity).
Context (uuid_plain : starts_with (lower uuid) SCOPE_HANDOFF = false).
Definition perform_on (o : ControlOp) (d : Desk) : ControlAns o * Desk :=
  match o return ControlAns o * Desk with
  | Now => (dk_now d, d)
  | Sleep ms => (tt, with_now (dk_now d + ms) d)
  | RandomUUID => (uuid, d)
  | Project => (Ok (foldOwnedProcesses (desk_events d)), d)
  | Append ev =>
      match appendMonitorEvent sha256Hex ev (dk_log d) with
      | (Ok _, t) => (Ok tt, with_log t d)
      | (Err x, t) => (Err (error x), with_log t d)
      end
  | Insert r => let run := insert_request r (dk_table d) in (Ok run.1, with_table run.2 d)
  | Pending p i => (Ok (pending_rows p i (dk_table d)), d)
  | Claim seq c => let run := claim_row seq c (dk_table d) in (Ok run.1, with_table run.2 d)
  | Finish seq ms failure => let run := finish_row seq ms failure (dk_table d) in (Ok run.1, with_table run.2 d)
  | ReadRow seq => (Ok (row_at seq (dk_table d)), d)
  | ReadRowOfAction a => (Ok (head (filter (fun w => rq_actionId (rw_request w) = a) (rt_rows (dk_table d)))), d)
  | ReadIdentity pid => (identity pid, d)
  | Kill pid SIGNULL => (match identity (Z.abs pid) with Ok _ => Ok tt | Err x => Err x end, d)
  | Kill pid signal => (Ok tt, with_sent (os_signal pid signal) d)
  | ControlWindows job action => (Ok tt, with_sent (job_signal job action) d)
  | Transport c => (Ok tt, with_sent (own_tree c) d)
  | Owner f => (f (dk_owner d), with_owner (f (dk_owner d)) d)
  | ReleaseClaim _ => (Ok tt, d)
  | EnsureLoop => (Ok loop_spawned, d)
  end.
Fixpoint run {A} (p : Async A) (d : Desk) : (A + Thrown) * Desk :=
  match p with
  | Ret a => (inl a, d)
  | Throw x => (inr x, d)
  | Do o k => let ad := perform_on o d in run (k ad.1) ad.2
  end.
Lemma run_bind {A B} (p : Async A) (f : A -> Async B) d :
  run (p ≫= f) d = match run p d with (inl a, d) => run (f a) d | (inr x, d) => (inr x, d) end.
Proof. revert d. induction p as [a|x|o k IH]; intros d; cbn; [done|done|]. apply IH. Qed.
Lemma run_handle {A} (p : Async A) h d : run (handle p h) d = match run p d with (inl a, d) => (inl a, d) | (inr x, d) => run (h x) d end.
Proof. revert d. induction p as [a|x|o k IH]; intros d; cbn; [done|done|]. apply IH. Qed.

(** ** Appending *)
(** The action ids of this module are outside the receipt namespace. *)
Definition plain (ev : NewMonitorEvent) : Prop := in_namespace (event_row ev) = false.
Record Orderly (d : Desk) : Prop := { or_kept : Kept sha256Hex (dk_log d); or_table : TableOk (dk_table d) }.
Lemma run_append ev d : Orderly d -> plain ev ->
  exists t, run (append ev) d = (inl tt, with_log t d) /\ Orderly (with_log t d) /\
    events_since 0 t = desk_events d ++ [{| ev_seq := le_last (dk_log d) + 1; ev_body := stored ev |}].
Proof.
  intros [HK HT] Hp. destruct (append_tail sha256Hex sha_hex (dk_log d) ev 0 HK Hp) as (t & Ha & HK' & Ht).
  { destruct (kept_ordered _ _ HK) as (_ & _ & ?). lia. }
  exists t. split; [|split; [by constructor|done]].
  unfold append. rewrite run_bind. cbn [run perform ask]. unfold perform_on. by rewrite Ha.
Qed.

(** ** One process, one request *)
Lemma map_ids events : Forall (fun kv => op_processId kv.2 = kv.1) (process_map events) /\ NoDup (obj_keys (process_map events)).
Proof.
  induction events as [|e events [IH Hn]] using rev_ind; [split; [done|constructor]|]. rewrite process_map_snoc. unfold applyOwnedProcessEvent.
  destruct (ev_processId _) as [id|]; [|done].
  assert (Hset : forall s, op_processId s = id -> Forall (fun kv => op_processId kv.2 = kv.1) (obj_set id s (process_map events)) /\
                             NoDup (obj_keys (obj_set id s (process_map events)))).
  { intros s Hs. split; [|rewrite obj_keys_set; by apply NoDup_set_add]. clear -IH Hs. induction IH as [|[k v] l Hk Hl IHl]; cbn; [by constructor|].
    destruct (String.eqb_spec id k); constructor; try done; cbn in *; congruence. }
  destruct (bool_decide _).
  - destruct (started id e) as [s|] eqn:E; [|done]. apply Hset. by apply started_fresh in E as (? & _).
  - destruct (obj_get id (process_map events)) as [s|] eqn:E; [|done]. apply Hset. apply obj_get_elem in E. rewrite Forall_forall in IH.
    specialize (IH _ E). cbn in IH. unfold amended. repeat case_match; done.
Qed.
Lemma find_in_fold processId events : find_process processId (foldOwnedProcesses events) = obj_get processId (process_map events).
Proof.
  destruct (map_ids events) as [Hid Hn]. unfold find_process, foldOwnedProcesses, by_update.
  assert (Hp : filter (fun s => op_processId s = processId) (stable_sort newer (process_map events).*2) ≡ₚ
               filter (fun s => op_processId s = processId) (process_map events).*2) by (by rewrite stable_sort_perm).
  assert (Hf : filter (fun s => op_processId s = processId) (process_map events).*2 = opt_list (obj_get processId (process_map events))).
  { clear Hp. revert Hid Hn. generalize (process_map events). intros m Hid Hn. induction m as [|[k v] m IH]; [done|].
    apply Forall_cons in Hid as [Hk Hid]. cbn in Hk. unfold obj_keys in Hn. cbn in Hn. apply NoDup_cons in Hn as [Hnot Hn].
    cbn [fmap list_fmap snd obj_get]. rewrite filter_cons, IH by done. rewrite Hk. destruct (String.eqb_spec processId k) as [->|Hne].
    - rewrite decide_True by done. destruct (obj_get k m) eqn:E; [|done]. exfalso. apply Hnot. apply obj_get_is_Some. eauto.
    - by rewrite decide_False. }
  rewrite Hf in Hp. destruct (obj_get processId (process_map events)); cbn in Hp.
  - by apply Permutation_singleton_r in Hp as ->.
  - by apply Permutation_nil_r in Hp as ->.
Qed.

Section Request.
Context (processId instance wgId : string) (seq : Z).
(** The process shows [st], [sent] has been sent, the request's row is [row]. *)
Record At (d : Desk) (st : OwnedProcessStatus) (sent : list Sent) (row : RequestRow) : Prop := {
  at_orderly : Orderly d;
  at_process : exists s, obj_get processId (process_map (desk_events d)) = Some s /\ op_status s = st /\ op_processInstanceId s = instance;
  at_sent : dk_sent d = sent;
  at_row : row_at seq (dk_table d) = Some row }.
Lemma plain_action ev : ev_actionId (ev_action ev) = None \/ ev_actionId (ev_action ev) = Some uuid -> plain ev.
Proof. unfold plain, in_namespace, event_row, cell. cbn. by intros [->| ->]. Qed.
(** An event of the incarnation moves the status it names. *)
Lemma at_append d st sent row ev st' : At d st sent row -> plain ev ->
  ev_processId (ev_process ev) = Some processId -> ev_processInstanceId (ev_process ev) = Some instance ->
  eventStatus (kind_of (ev_kind ev)) <> Some running -> st' = default st (eventStatus (kind_of (ev_kind ev))) ->
  exists d', run (append ev) d = (inl tt, d') /\ At d' st' sent row /\ dk_now d' = dk_now d.
Proof.
  intros [Ho (s & Hs & Hst & Hi) Hse Hr] Hp Hid Hin Hne ->. destruct (run_append ev d Ho Hp) as (t & Hrun & Ho' & Hev).
  exists (with_log t d). split; [exact Hrun|]. split; [|done]. constructor; try done. unfold desk_events at 1. cbn [with_log dk_log].
  rewrite Hev, process_map_snoc, applied_to. set (e := {| ev_seq := _ |}).
  assert (Hb : begins processId e = None).
  { unfold begins. cbn. rewrite (bool_decide_false (_ = Some running)) by done. by rewrite andb_false_r. }
  rewrite Hb. cbn [e ev_body stored ev_process ev_processId ev_kind]. rewrite Hid, (bool_decide_true (Some processId = _)) by done.
  rewrite (bool_decide_false (_ = Some running)) by done. cbn [andb negb]. rewrite Hs. eexists. split; [reflexivity|].
  subst e. unfold amended. cbn [ev_body stored ev_process ev_processInstanceId ev_kind]. rewrite Hin, Hi, String.eqb_refl. cbn [negb].
  destruct (eventStatus (kind_of (ev_kind ev))); [done|]. by destruct (actionFromEvent _).
Qed.
Lemma at_table d st sent row row' t : At d st sent row -> TableOk t -> row_at seq t = Some row' -> At (with_table t d) st sent row'.
Proof. intros [[HK _] Hp Hs _] Ht Hr. constructor; try done; by constructor. Qed.
Lemma at_now d st sent row ms : At d st sent row -> At (with_now ms d) st sent row.
Proof. intros [[HK HT] Hp Hs Hr]. constructor; try done; by constructor. Qed.
Lemma at_sends d st sent row s : At d st sent row -> At (with_sent s d) st (sent ++ [s]) row.
Proof. intros [[HK HT] Hp <- Hr]. constructor; try done; by constructor. Qed.
Lemma run_mark d st sent row st' x by_ audit : At d st sent row -> st' <> running -> pa_actionId audit = uuid ->
  exists d', run (markOwnedProcess processId st' x by_ (Some wgId) (Some instance) (Some audit)) d = (inl tt, d') /\ At d' st' sent row.
Proof.
  intros HA Hst Ha. unfold markOwnedProcess. rewrite run_bind. cbn [run project perform ask mbind prog_bind perform_on fst snd settle or_else].
  rewrite run_bind. cbn [run now perform ask perform_on fst snd].
  destruct (at_append d st sent row (mark_event processId wgId st' x by_ (Some instance) (Some audit) (dk_now d)) st') as (d' & Hr & HA' & _).
  - done.
  - apply plain_action. right. cbn. by f_equal.
  - done.
  - done.
  - by destruct st'.
  - by destruct st'.
  - by exists d'.
Qed.
Lemma run_audit d st sent row r k ts f : At d st sent row -> rq_processId r = processId -> rq_processInstanceId r = instance -> rq_actionId r = uuid ->
  exists d', run (appendControlAudit r k ts f) d = (inl tt, d') /\ At d' st sent row /\ dk_now d' = dk_now d.
Proof.
  intros HA Hp Hi Ha. apply (at_append d st sent row); [done| | | | |].
  - apply plain_action. right. cbn. by f_equal.
  - cbn. by f_equal.
  - cbn. by f_equal.
  - by destruct k.
  - by destruct k.
Qed.
(** The request is the one of the row. *)
Definition ours (row : RequestRow) : Prop :=
  rq_seq (rw_request row) = seq /\ rq_processId (rw_request row) = processId /\ rq_processInstanceId (rw_request row) = instance /\
  rq_actionId (rw_request row) = uuid.
Lemma run_finish d st sent row failure : At d st sent row -> ours row -> rw_handled_at row = None ->
  exists ms d', run (finishRequest seq failure) d = (inl (handled_receipt (finished ms failure row)), d') /\ At d' st sent (finished ms failure row).
Proof.
  intros HA (Hs & Hp & Hi & Ha) Hh. exists (dk_now d). unfold finishRequest. rewrite run_bind. cbn [run now perform ask perform_on fst snd].
  rewrite !run_bind. cbn [run perform ask perform_on fst snd].
  assert (Hrow : row_at seq (finish_row seq (dk_now d) failure (dk_table d)).2 = Some (finished (dk_now d) failure row)).
  { unfold finish_row. cbn [snd]. rewrite row_at_update, (at_row _ _ _ _ HA) by done. cbn [fmap option_fmap option_map].
    unfold at_seq. by rewrite Hs, Z.eqb_refl, (bool_decide_true _ Hh). }
  assert (Hf : (finish_row seq (dk_now d) failure (dk_table d)).1 = Some (finished (dk_now d) failure row)) by exact Hrow.
  rewrite Hf. cbn [settle run].
  assert (HA' : At (with_table (finish_row seq (dk_now d) failure (dk_table d)).2 d) st sent (finished (dk_now d) failure row)).
  { eapply at_table; [done| |done]. apply (la_ok _ _ (later_finish _ _ _ _)), HA. }
  destruct (run_audit _ _ _ _ (rw_request row) (if failure then audit_failed else audit_applied) (dk_now d) failure HA' Hp Hi Ha) as (d' & Hr & HA2 & _).
  exists d'. split; [|done]. set (rc := handled_receipt (finished (dk_now d) failure row)).
  assert (E1 : or_else (rc_appliedAtMs rc) (rc_failedAtMs rc) = Some (dk_now d)) by (by destruct failure).
  assert (E2 : (if bool_decide (rc_result rc = res_applied) then audit_applied else audit_failed) =
               (if failure then audit_failed else audit_applied)) by (by destruct failure).
  assert (E3 : rc_failure rc = failure) by done. rewrite E1, E2, E3, run_bind. cbn [run]. rewrite run_bind.
  change (rc_request rc) with (rw_request row). by rewrite Hr.
Qed.
(** Nobody answers. *)
Lemma run_await d st sent row polls deadline pause : At d st sent row -> rw_handled_at row = None ->
  exists ms, run (await_receipt polls seq deadline pause) d = (inl None, with_now ms d).
Proof.
  intros HA Hh. revert d HA. induction polls as [|polls IH]; intros d HA; cbn [await_receipt].
  { exists (dk_now d). by destruct d. }
  rewrite run_bind. cbn [run now perform ask perform_on fst snd]. destruct (negb _); [exists (dk_now d); by destruct d|].
  unfold readReceipt. rewrite !run_bind. cbn [run perform ask perform_on fst snd]. rewrite (at_row _ _ _ _ HA). cbn [settle run fmap option_fmap option_map].
  unfold row_receipt. rewrite Hh. cbn [rc_result queued_receipt]. rewrite bool_decide_true by done.
  rewrite !run_bind. cbn [run now perform ask perform_on fst snd]. rewrite run_bind. cbn [run perform ask perform_on fst snd].
  destruct (IH _ (at_now _ _ _ _ (dk_now d + pause (deadline - dk_now d)) HA)) as [ms E]. exists ms. rewrite E. done.
Qed.
(** The direct claim has been won: what applying the request does. *)
Lemma run_apply d st sent row input s has : At d st sent row -> ours row -> rw_handled_at row = None ->
  ci_processId input = processId -> op_wgId s = wgId -> op_processInstanceId s = instance -> ci_action input <> graceful_stop ->
  let r := rw_request row in
  let requested := if bool_decide (ci_action input = terminate) then terminate_requested else force_kill_requested in
  let signal := if bool_decide (ci_action input = terminate) then SIGTERM else SIGKILL in
  exists ms failure d' st' sent',
    run (handle (apply_directly false has input s r) (fun x => finishRequest seq (Some (th_message x)))) d =
      (inl (handled_receipt (finished ms failure row)), d') /\ At d' st' sent' (finished ms failure row) /\
    match identity (rq_targetPid r) with
    | Ok i =>
        if bool_decide (i = registered_identity r)
        then failure = None /\ st' = requested /\ sent' = sent ++ [os_signal (- rq_targetProcessGroupId r) signal]
        else failure = Some ("owned process identity changed for " +:+ processId +:+ "; refusing OS signal") /\ st' = st /\ sent' = sent
    | Err x => sent' = sent /\ if isMissingOwnedProcess x then failure = None /\ st' = paused else failure = Some (th_message x) /\ st' = st
    end.
Proof.
  intros HA Ho Hh Hpid Hwg Hin Hg r requested signal. pose proof Ho as (Hs & _ & _ & Hact). change (rq_seq r = seq) in Hs. rewrite run_handle.
  unfold apply_directly. rewrite run_bind. cbn [run perform ask perform_on fst snd]. fold r.
  unfold mark_request. rewrite Hpid, Hwg, Hin. destruct (identity (rq_targetPid r)) as [i|x] eqn:Ei.
  - assert (Hb : negb (pi_startIdentity i =? rq_targetProcessStartIdentity r)%string || negb (pi_processGroupId i =? rq_targetProcessGroupId r) =
                 negb (bool_decide (i = registered_identity r))).
    { destruct i as [grp start]. cbn. destruct (String.eqb_spec start (rq_targetProcessStartIdentity r)), (Z.eqb_spec grp (rq_targetProcessGroupId r));
        cbn; case_bool_decide as E; try done; unfold registered_identity in E; congruence. }
    rewrite Hb. case_bool_decide as E; cbn [negb].
    + rewrite run_bind. clear Hb Ei. subst i.
      assert (Hne : (if bool_decide ((if bool_decide (ci_action input = terminate) then terminate else force_kill) = terminate)
                     then terminate_requested else force_kill_requested) = requested) by (unfold requested; by destruct (bool_decide (ci_action input = terminate))).
      rewrite Hne. destruct (run_mark d st sent row requested None (Some (ci_requestedBy input)) (action_audit r) HA) as (d1 & Hr1 & HA1);
        [unfold requested; by destruct (bool_decide _)|exact Hact|].
      rewrite Hr1, run_bind. unfold send_signal. rewrite run_bind. cbn [run perform ask].
      set (sig := if bool_decide (_ = terminate) then SIGTERM else SIGKILL). assert (Hsig : sig = signal) by (unfold sig, signal; by destruct (bool_decide (ci_action input = terminate))).
      rewrite Hsig. assert (Hk : perform_on (Kill (- pi_processGroupId (registered_identity r)) signal) d1 =
        (Ok tt, with_sent (os_signal (- rq_targetProcessGroupId r) signal) d1)) by (unfold signal; by destruct (bool_decide _)).
      rewrite Hk. cbn [fst snd settle run]. rewrite Hs.
      destruct (run_finish _ _ _ _ None (at_sends _ _ _ _ (os_signal (- rq_targetProcessGroupId r) signal) HA1) Ho Hh) as (ms & d2 & Hr2 & HA2).
      rewrite Hr2. by eexists ms, None, d2, _, _.
    + unfold throw. cbn [run]. destruct (run_finish _ _ _ _ (Some (th_message (error ("owned process identity changed for " +:+ processId +:+ "; refusing OS signal")))) HA Ho Hh) as (ms & d2 & Hr2 & HA2).
      rewrite Hr2. by eexists ms, _, d2, _, _.
  - destruct (isMissingOwnedProcess x); cbn [negb].
    + rewrite run_bind. destruct (run_mark d st sent row paused None (Some (ci_requestedBy input)) (action_audit r) HA) as (d1 & Hr1 & HA1); [done|exact Hact|].
      rewrite Hr1, Hs. destruct (run_finish _ _ _ _ None HA1 Ho Hh) as (ms & d2 & Hr2 & HA2). rewrite Hr2. by eexists ms, None, d2, _, _.
    + cbn [run]. destruct (run_finish _ _ _ _ (Some (th_message x)) HA Ho Hh) as (ms & d2 & Hr2 & HA2). rewrite Hr2. by eexists ms, _, d2, _, _.
Qed.
End Request.

(** The request as it is inserted. *)
Definition new_request (s : OwnedProcessState) (input : ControlInput) (authorizedBy : string) (ms : Z) : ProcessControlRequest :=
  {| rq_seq := 0; rq_actionId := uuid; rq_processId := op_processId s; rq_processInstanceId := op_processInstanceId s;
     rq_wgId := op_wgId s; rq_action := ci_action input; rq_requestedBy := ci_requestedBy input; rq_authorizedBy := authorizedBy;
     rq_requestedAtMs := ms; rq_targetPid := op_pid s; rq_targetProcessGroupId := op_processGroupId s;
     rq_targetProcessStartIdentity := op_processStartIdentity s |}.
Lemma run_insert d s input who : Orderly d -> op_processId s = ci_processId input ->
  obj_get (ci_processId input) (process_map (desk_events d)) = Some s ->
  let seq := rt_last (dk_table d) + 1 in
  let r := renumber seq (new_request s input who (dk_now d)) in
  let row := {| rw_request := r; rw_handled_at := None; rw_applied_at := None; rw_failed_at := None; rw_result := None; rw_failure := None |} in
  exists d', run (insertControlRequest s input who) d = (inl r, d') /\ ours (ci_processId input) (op_processInstanceId s) seq row /\
    At (ci_processId input) (op_processInstanceId s) seq d' (op_status s) (dk_sent d) row.
Proof.
  intros Ho Hid Hs seq r row. unfold insertControlRequest. rewrite run_bind. cbn [run now perform ask perform_on fst snd].
  rewrite run_bind. cbn [run perform ask perform_on fst snd]. rewrite !run_bind. cbn [run perform ask perform_on fst snd].
  fold (new_request s input who (dk_now d)). cbn [settle run].
  change (insert_request (new_request s input who (dk_now d)) (dk_table d)).1 with seq. fold r.
  assert (HA : At (ci_processId input) (op_processInstanceId s) seq (with_table (insert_request (new_request s input who (dk_now d)) (dk_table d)).2 d)
                  (op_status s) (dk_sent d) row).
  { constructor; [|by exists s|done|].
    - destruct Ho as [HK HT]. constructor; [done|]. by apply (la_ok _ _ (later_insert _ _)).
    - apply row_at_insert, Ho. }
  destruct (run_audit _ _ _ _ _ _ _ r audit_requested (dk_now d) None HA) as (d' & Hr & HA' & _); [done|done|done|].
  exists d'. rewrite run_bind, Hr. split; [reflexivity|]. split; [|exact HA']. repeat split; exact Hid.
Qed.
Lemma run_claim processId instance seq d st sent row : At processId instance seq d st sent row -> unclaimed row = true ->
  exists d', run (claimRequest seq direct_claims) d = (inl true, d') /\
    At processId instance seq d' st sent (with_result "authorizing:direct" row).
Proof.
  intros HA Hu. unfold claimRequest. rewrite run_bind. cbn [run perform ask perform_on fst snd].
  destruct (claim_row_at seq direct_claims (dk_table d) row) as [H1 H2]; [apply HA|by eapply at_row|done|].
  rewrite H1. eexists. split; [reflexivity|]. eapply at_table; [exact HA| |exact H2].
  apply (la_ok _ _ (later_claim _ _ _)), HA.
Qed.

(** A request no owner answers is applied by the requester: with the registered identity found, the group gets the signal of
    the action, the process shows the matching status and the receipt says applied; with the process gone, nothing is sent, it
    shows paused and the receipt says applied; with another identity or an inspection that fails, nothing is sent, its status
    stays, and the receipt says failed and why. *)
Lemma direct_request_outcome d input s wait has polls :
  Orderly d -> find_process (ci_processId input) (foldOwnedProcesses (desk_events d)) = Some s ->
  trim (ci_authorizedBy input) <> "" -> ci_action input ∈ op_availableActions s -> ci_action input <> graceful_stop ->
  exists receipt d' s', run (requestOneProcessControl false wait has polls input) d = (inl receipt, d') /\
    find_process (ci_processId input) (foldOwnedProcesses (desk_events d')) = Some s' /\
    let requested := if bool_decide (ci_action input = terminate) then terminate_requested else force_kill_requested in
    let signal := if bool_decide (ci_action input = terminate) then SIGTERM else SIGKILL in
    match identity (op_pid s) with
    | Ok i =>
        if bool_decide (i = {| pi_processGroupId := op_processGroupId s; pi_startIdentity := op_processStartIdentity s |})
        then rc_result receipt = res_applied /\ op_status s' = requested /\ dk_sent d' = dk_sent d ++ [os_signal (- op_processGroupId s) signal]
        else rc_result receipt = res_failed /\ op_status s' = op_status s /\ dk_sent d' = dk_sent d /\
             rc_failure receipt = Some ("owned process identity changed for " +:+ ci_processId input +:+ "; refusing OS signal")
    | Err x =>
        dk_sent d' = dk_sent d /\
        if isMissingOwnedProcess x then rc_result receipt = res_applied /\ op_status s' = paused
        else rc_result receipt = res_failed /\ op_status s' = op_status s /\ rc_failure receipt = Some (th_message x)
    end.
Proof.
  intros Ho Hf Hau Hav Hg. rewrite find_in_fold in Hf.
  assert (Hid : op_processId s = ci_processId input).
  { destruct (map_ids (desk_events d)) as [Hi _]. rewrite Forall_forall in Hi. by apply (Hi (ci_processId input, s)), obj_get_elem. }
  unfold requestOneProcessControl. apply String.eqb_neq in Hau. rewrite Hau.
  rewrite run_bind. unfold project at 1. rewrite run_bind. cbn [run perform ask perform_on fst snd settle]. rewrite find_in_fold, Hf.
  rewrite (proj2 (set_has_spec _ _) Hav). cbn [negb]. rewrite run_bind.
  destruct (run_insert d s input (trim (ci_authorizedBy input)) Ho Hid Hf) as (d1 & -> & Hours & HA1).
  set (seq := rt_last (dk_table d) + 1) in *. set (r := renumber seq _) in *. set (row := {| rw_request := r; rw_handled_at := None |}) in *.
  rewrite (bool_decide_false _ Hg). rewrite run_bind. cbn [run]. rewrite run_bind. cbn [run now perform ask perform_on fst snd]. rewrite run_bind.
  change (rq_seq r) with seq.
  destruct (run_await (ci_processId input) (op_processInstanceId s) seq d1 _ _ row polls (dk_now d1 + wait) (fun left => Z.min 25 (Z.max 1 left)) HA1 eq_refl) as (ms & ->).
  rewrite run_bind.
  destruct (run_claim _ _ _ _ _ _ _ (at_now _ _ _ _ _ _ _ ms HA1) eq_refl) as (d2 & -> & HA2). cbn [negb].
  destruct (run_apply (ci_processId input) (op_processInstanceId s) (op_wgId s) seq d2 _ _ _ input s has HA2 Hours eq_refl eq_refl eq_refl eq_refl Hg)
    as (ms2 & failure & d3 & st' & sent' & Hrun & HA3 & Hout).
  change (rw_request (with_result _ row)) with r in Hrun. rewrite Hrun. destruct (at_process _ _ _ _ _ _ _ HA3) as (s' & Hs' & Hst & _).
  eexists _, d3, s'. split; [reflexivity|]. rewrite find_in_fold. split; [done|]. cbn zeta.
  change (rq_targetPid (rw_request (with_result "authorizing:direct" row))) with (op_pid s) in Hout.
  rewrite Hst, (at_sent _ _ _ _ _ _ _ HA3). destruct (identity (op_pid s)) as [i|x].
  - change (registered_identity _) with {| pi_processGroupId := op_processGroupId s; pi_startIdentity := op_processStartIdentity s |} in Hout.
    case_bool_decide; destruct Hout as (-> & -> & ->); done.
  - destruct Hout as [-> Hout]. split; [done|]. destruct (isMissingOwnedProcess x); destruct Hout as [-> ->]; done.
Qed.
End Desk.
