(* ===== verification/LoopDemo.v ===== *)
(** * Logs, boards and requests in the small

    Concrete logs, tables and runs: the claims of the event log, the board and
    process control at inputs where their hypotheses hold, and runs that show
    where the code is surprising. *)

From Stdlib Require Import Ascii String ZArith Lia.
From stdpp Require Import base option list strings gmap.
From S2P Require Import Prelude Effects Threads LoopEvents LoopLogProps LoopBoard LoopBoardProps LoopProjection ProcessState ProcessControl ProcessProps ProcessRun.
#[local] Open Scope Z_scope.

(** A hash that is hex, if nothing else. *)
Definition zeros : string := "0000000000000000000000000000000000000000000000000000000000000000".
Definition zero_hash (s : string) : string := zeros.
Lemma zero_hash_hex s : hex64 (zero_hash s) = true.
Proof. reflexivity. Qed.
Definition empty_log : LoopEvents := {| le_rows := []; le_last := 0; le_guarded := true |}.
Lemma empty_log_kept : Kept zero_hash empty_log.
Proof. apply (ensure_establishes zero_hash no_events); [|reflexivity]. split; [constructor|]. split; [constructor|done]. Qed.
Lemma no_events_ordered : ordered no_events.
Proof. split; [constructor|]. split; [constructor|done]. Qed.

(** ** The log *)
Definition event (kind : MonitorEventKind) (wgId : string) (stage : option string) (atMs : Z) : NewMonitorEvent :=
  {| ev_wgId := wgId; ev_kind := kind_name kind;
     ev_item := {| ev_stage := stage; ev_phase := None; ev_index := None; ev_total := None; ev_lifecycle := None |};
     ev_process := no_process; ev_action := no_action; ev_scope := no_scope; ev_atMs := atMs |}.
Definition ev_at (n : Z) (e : NewMonitorEvent) : MonitorEvent := {| ev_seq := n; ev_body := e |}.
(** A row that only looks like a receipt: its action id is no hash of its item
    and path.  The insert trigger lets it pass. *)
Definition forged (wgId : string) : Row := receipt_row wgId (SCOPE_HANDOFF_V1 +:+ "f000000000000000000000000000000000000000000000000000000000000000") "audit" "x.md" zeros approval 3.
Definition forged_log : LoopEvents := (client_insert true (Some 7) (forged "wg-z") empty_log).2.
Definition receipt_log : LoopEvents :=
  (insertScopeHandoffReceipt zero_hash "wg-a" (scopeHandoffActionId zero_hash "wg-a" "scope.md") "audit" "scope.md" zeros approval 5 forged_log).2.
Definition attacked_log : LoopEvents := (client_insert false None (forged "wg-a") (delete_rows (fun _ => true) receipt_log).2).2.
Lemma receipts_permanent_witness :
  List.length (le_rows attacked_log) = 2%nat /\
  (readScopeHandoffByItem zero_hash "wg-a" attacked_log).1 =
    Ok (Some {| sr_seq := 8; sr_wgId := "wg-a"; sr_actionId := scopeHandoffActionId zero_hash "wg-a" "scope.md"; sr_stage := "audit";
                sr_artifactPath := "scope.md"; sr_artifactSha256 := zeros; sr_evidenceKind := approval |}).
Proof.
  split; [vm_compute; reflexivity|].
  destruct (receipts_permanent zero_hash zero_hash_hex no_events empty_log forged_log receipt_log attacked_log "wg-a"
    (scopeHandoffActionId zero_hash "wg-a" "scope.md") "audit" "scope.md" zeros approval 5) as [H _].
  - vm_compute. reflexivity.
  - apply rtc_once. exact (log_insert zero_hash empty_log true (Some 7) (forged "wg-z")).
  - vm_compute. reflexivity.
  - eapply rtc_l; [exact (log_delete zero_hash receipt_log (fun _ => true))|]. apply rtc_once.
    exact (log_insert zero_hash _ false None (forged "wg-a")).
  - rewrite H. vm_compute. reflexivity.
Defined.
(** An INSERT OR REPLACE takes the place of the receipt, its trigger satisfied. *)
Lemma replace_loses_receipt :
  (client_replace (receipt_row "wg-a" (scopeHandoffActionId zero_hash "wg-a" "other.md") "audit" "other.md" zeros approval 9) receipt_log).1 = Ok tt /\
  sr_artifactPath <$> (match (readScopeHandoffByItem zero_hash "wg-a"
    (client_replace (receipt_row "wg-a" (scopeHandoffActionId zero_hash "wg-a" "other.md") "audit" "other.md" zeros approval 9) receipt_log).2).1 with
    Ok r => r | Err _ => None end) = Some "other.md".
Proof. split; vm_compute; reflexivity. Qed.
Lemma tail_reads_appended_witness : exists t',
  appendMonitorEvent zero_hash (event stage_advance "wg-a" (Some "scope") 5) empty_log = (Ok tt, t') /\
  (tailEventsSince zero_hash 0 t').1 = Ok [ev_at 1 (event stage_advance "wg-a" (Some "scope") 5)].
Proof. exact (tail_reads_appended zero_hash zero_hash_hex empty_log (event stage_advance "wg-a" (Some "scope") 5) 0 empty_log_kept (Z.le_refl 0)). Defined.

(** ** The board *)
Definition two_items : list MonitorEvent :=
  [ev_at 1 (event stage_advance "wg-a" (Some "scope") 1); ev_at 2 (event stage_advance "wg-b" (Some "scope") 2)].
Definition both_closed : list MonitorEvent := [ev_at 3 (event item_closed "wg-a" None 3); ev_at 4 (event item_shipped "wg-b" None 4)].
Lemma orderly_dec events :
  forallb (fun i => match drop i events with e :: _ => is_process e || negb (existsb (closes (ev_wgId e)) (take i events)) | [] => true end)
    (seq 0 (List.length events)) = true -> orderly events.
Proof.
  intros H pre e post -> Hp. rewrite forallb_forall in H. specialize (H (List.length pre)). rewrite in_seq, length_app in H.
  rewrite drop_app_length, take_app_length, Hp in H. cbn in H. apply negb_true_iff, H. lia.
Qed.
Lemma watch_drains_with_board_witness :
  orderly (two_items ++ both_closed) /\ wt_drained (fold_left (on_watched 9) both_closed (start_watch 9 two_items)) = true.
Proof.
  assert (H : orderly (two_items ++ both_closed)) by (apply orderly_dec; vm_compute; reflexivity). split; [exact H|].
  apply (watch_drains_with_board 9 two_items both_closed H). exists both_closed. split; [reflexivity|vm_compute; reflexivity].
Defined.
(** An event that comes after an item was closed leaves the board drained and
    the watch waiting. *)
Definition stray : list MonitorEvent :=
  [ev_at 3 (event item_closed "wg-a" None 3); ev_at 4 (event stage_advance "wg-a" (Some "ship") 4); ev_at 5 (event item_shipped "wg-b" None 5)].
Lemma watch_misses_drain :
  liveItems (mapFold (foldEvents (two_items ++ stray))) = [] /\
  wt_drained (fold_left (on_watched 9) stray (start_watch 9 two_items)) = false.
Proof. split; vm_compute; reflexivity. Qed.
Definition one_item : LoopStateItem :=
  {| li_wgId := "wg-a"; li_stage := "scope"; li_phase := None; li_phaseIndex := None; li_phaseTotal := None; li_lifecycle := None;
     li_lastActivityMs := Some 0; li_updatedAt := 0; li_terminal := false |}.
Lemma statusline_fits_witness : (units (renderStatusLine 40 0%Z [one_item; one_item]) <= 40)%nat.
Proof.
  destruct (statusline_fits 40 0 one_item [one_item]) as (k & _ & _ & H). apply H. vm_compute. repeat constructor.
Defined.
Lemma incremental_board_current_witness :
  exists sy, rtc foldLatestStateIncremental (start [] empty_log) sy /\ pj_returned sy = [(0, [])] /\
    exists shown rest, map row_event (le_rows (pj_log sy)) = shown ++ rest /\ (@nil LoopFoldState) = foldEvents shown /\ Forall (fun e => 0 < ev_seq e) rest.
Proof.
  set (s0 := start [] empty_log). set (s1 := {| pj_log := empty_log; pj_cursor := 0; pj_state := ([] : FoldMap);
    pj_refreshes := [{| rf_prior := None; rf_phase := queued; rf_since := 0 |}]; pj_chain := Some 0%nat; pj_returned := [] |}).
  assert (H1 : foldLatestStateIncremental s0 s1) by exact (p_ask applyMonitorEvent last_seq true s0).
  assert (H2 : foldLatestStateIncremental s1 (with_phase s1 0 (reading []))) by (eapply (p_read applyMonitorEvent last_seq true s1 0); reflexivity).
  set (s2 := with_phase s1 0 (reading [])) in *.
  assert (H3 : foldLatestStateIncremental s2 (with_phase s2 0 applied)) by (eapply (p_apply applyMonitorEvent last_seq true s2 0 _ []); reflexivity).
  set (s3 := with_phase s2 0 applied) in *.
  eassert (H4 : foldLatestStateIncremental s3 _) by (eapply (p_return applyMonitorEvent last_seq true s3 0); reflexivity).
  eassert (Hr : rtc foldLatestStateIncremental s0 _)
    by (eapply rtc_l; [exact H1|]; eapply rtc_l; [exact H2|]; eapply rtc_l; [exact H3|]; eapply rtc_l; [exact H4|]; apply rtc_refl).
  eexists. split; [exact Hr|]. split; [reflexivity|].
  apply (incremental_board_current empty_log _ 0 [] (kept_ordered _ _ empty_log_kept) Hr). left.
Defined.

(** ** Processes *)
Definition starts_process (processId instance : string) (pid atMs : Z) : NewMonitorEvent :=
  {| ev_wgId := "wg-a"; ev_kind := kind_name process_started; ev_item := no_item;
     ev_process := {| ev_processId := Some processId; ev_ownership := Some control_root; ev_processInstanceId := Some instance;
                      ev_runId := Some "run-1"; ev_checkpointStage := None; ev_lap := None; ev_role := Some "stage"; ev_pid := Some pid;
                      ev_processGroupId := Some pid; ev_processStartIdentity := Some "boot-7"; ev_windowsJobName := None;
                      ev_windowsJobMetadata := None; ev_exitCode := None |};
     ev_action := no_action; ev_scope := no_scope; ev_atMs := atMs |}.
Definition started_log : LoopEvents := (appendMonitorEvent zero_hash (starts_process "p" "p:1" 77 5) empty_log).2.
Definition started_state : OwnedProcessState :=
  {| op_processId := "p"; op_processInstanceId := "p:1"; op_ownership := control_root; op_wgId := "wg-a"; op_runId := Some "run-1";
     op_checkpointStage := None; op_lap := None; op_role := "stage"; op_pid := 77; op_processGroupId := 77; op_processStartIdentity := "boot-7";
     op_windowsJobName := None; op_windowsJobMetadata := None; op_status := running; op_startedAtMs := 5; op_updatedAtMs := 5;
     op_exitCode := None; op_latestAction := None; op_availableActions := [graceful_stop; terminate; force_kill] |}.
Definition exits : MonitorEvent := ev_at 2 (mark_event "p" "wg-a" exited (Some (Some 0)) None (Some "p:1") None 9).
(** An event of an earlier incarnation. *)
Definition stale_pause : MonitorEvent := ev_at 3 (mark_event "p" "wg-a" paused None None (Some "p:0") None 11).
Lemma process_since_start_witness :
  option_map op_status (obj_get "p" (process_map [ev_at 1 (starts_process "p" "p:1" 77 5); exits; stale_pause])) = Some exited.
Proof.
  destruct (process_since_start "p" [] (ev_at 1 (starts_process "p" "p:1" 77 5)) [exits; stale_pause] started_state) as [H _];
    [reflexivity|repeat constructor|]. cbn [app] in H. rewrite H. reflexivity.
Defined.

(** A requester and an owner poll the same request: the owner claims it. *)
Definition input (action : HumanProcessAction) : ControlInput :=
  {| ci_processId := "p"; ci_action := action; ci_requestedBy := cli; ci_authorizedBy := "ann" |}.
Definition no_requests : RequestTable := {| rt_rows := []; rt_last := 0 |}.
Lemma no_requests_ok : TableOk no_requests.
Proof. split; constructor. Qed.
Definition boot (pid : Z) : result Thrown ProcessIdentity := Ok {| pi_processGroupId := pid; pi_startIdentity := "boot-7" |}.
(** The table at the machine of process [p], which no owner polls. *)
Definition unattended (o : ControlOp) (t : RequestTable) : ControlAns o * RequestTable :=
  match o return ControlAns o * RequestTable with
  | Now => (100, t)
  | Sleep _ => (tt, t)
  | RandomUUID => ("id-1", t)
  | Project => (Ok [started_state], t)
  | Append _ => (Ok tt, t)
  | Insert r => let run := insert_request r t in (Ok run.1, run.2)
  | Pending p i => (Ok (pending_rows p i t), t)
  | Claim seq c => let run := claim_row seq c t in (Ok run.1, run.2)
  | Finish seq ms failure => let run := finish_row seq ms failure t in (Ok run.1, run.2)
  | ReadRow seq => (Ok (row_at seq t), t)
  | ReadRowOfAction a => (Ok (head (filter (fun w => rq_actionId (rw_request w) = a) (rt_rows t))), t)
  | ReadIdentity pid => (boot pid, t)
  | Kill _ _ | ControlWindows _ _ | Transport _ => (Ok tt, t)
  | Owner f => (f (owner_start None), t)
  | ReleaseClaim _ => (Ok tt, t)
  | EnsureLoop => (Ok loop_spawned, t)
  end.
Lemma unattended_exec o t : exec o t (unattended o t).1 (unattended o t).2.
Proof. destruct o; try done; cbn; by apply surjective_pairing. Qed.
(** A request nobody answers is claimed by its requester, who signals. *)
Lemma signals_answer_requests_once_witness : exists s n, rtc control_step (control_start no_requests) s /\
  po_notes s = [n] /\ nt_sent n = os_signal (-77) SIGTERM /\ nt_claim n = Some (1, direct_claims) /\
  (own_shutdown n \/ exists r, in_table (po_world s) r /\ answers r n).
Proof.
  set (p := done_with (requestProcessControl false 750 false 2 (input terminate))).
  assert (Hr : rtc control_step (control_start no_requests) (drive after observe unattended 40 no_ghost p no_requests [])).
  { eapply rtc_l; [apply (pool_spawn exec after no_ghost Thread observe (control_start no_requests) p), th_request|].
    apply (drive_steps exec after no_ghost Thread observe unattended unattended_exec). }
  eexists _, _. split; [exact Hr|]. split; [vm_compute; reflexivity|]. split; [reflexivity|]. split; [reflexivity|].
  apply (signals_answer_requests_once no_requests _ no_requests_ok Hr). vm_compute. left.
Defined.

Definition desk : Desk := {| dk_log := started_log; dk_table := no_requests; dk_now := 100; dk_sent := []; dk_owner := owner_start None |}.
Lemma started_log_kept : Kept zero_hash started_log.
Proof.
  destruct (appendMonitorEvent zero_hash (starts_process "p" "p:1" 77 5) empty_log) as [r t] eqn:E.
  destruct (append_kept _ zero_hash_hex _ _ _ _ empty_log_kept E) as [H _]. unfold started_log. by rewrite E.
Qed.
Lemma direct_request_outcome_witness : exists receipt d',
  run zero_hash "id-1" boot (requestOneProcessControl false 750 false 30 (input terminate)) desk = (inl receipt, d') /\
  rc_result receipt = res_applied /\ dk_sent d' = [os_signal (-77) SIGTERM].
Proof.
  assert (Ho : Orderly zero_hash desk) by exact (Build_Orderly _ desk started_log_kept no_requests_ok).
  destruct (direct_request_outcome zero_hash zero_hash_hex "id-1" boot eq_refl desk (input terminate) started_state 750 false 30 Ho)
    as (receipt & d' & s' & Hr & _ & H1 & _ & H2); [vm_compute; reflexivity|discriminate| |discriminate|].
  - right. left.
  - exists receipt, d'. repeat split; [exact Hr|exact H1|exact H2].
Defined.

(** A claim whose holder stops is nobody's: the row is pending for no owner and
    no claim wins it again, so its receipt says queued for ever. *)
Lemma abandoned_claim_stays_queued t seq c c' p i w : row_at seq t = Some w -> rw_handled_at w = None -> TableOk t ->
  let t' := (claim_row seq c t).2 in
  exists w', row_at seq t' = Some w' /\ row_receipt w' = queued_receipt (rw_request w) /\
    (unclaimed w = true -> (claim_row seq c' t').1 = false /\ rw_request w' ∉ pending_rows p i t').
Proof.
  intros Hw Hh Ht t'. pose proof (la_ok _ _ (later_claim seq c t) Ht) as Ht'. fold t' in Ht'.
  assert (Hat : row_at seq t' = Some (if at_seq seq w && unclaimed w then with_result ("authorizing:" +:+ claimant_name c) w else w)).
  { unfold t', claim_row. cbn [snd]. by rewrite row_at_update, Hw by done. }
  eexists. split; [exact Hat|]. destruct (row_at_spec _ _ _ Hat) as [Hin Hseq]. split.
  - destruct (_ && _); unfold row_receipt; cbn; by rewrite Hh.
  - intros Hu. destruct (row_at_spec _ _ _ Hw) as [_ Hs%Z.eqb_eq]. change (at_seq seq w = true) in Hs. rewrite Hs, Hu in *. cbn [andb] in *.
    assert (Honly : forall x, x ∈ rt_rows t' -> row_seq x = seq -> unclaimed x = false).
    { intros x Hx Hxs. rewrite (row_unique _ x _ Ht' Hx Hin) by congruence. unfold unclaimed. cbn. by rewrite andb_false_r. }
    split.
    + unfold claim_row. cbn [fst]. rewrite filter_none; [done|]. apply Forall_forall. intros x Hx [Hxs%Z.eqb_eq Hxu]%andb_true_iff.
      by rewrite (Honly x Hx Hxs) in Hxu.
    + unfold pending_rows. intros (x & E & [Hxp Hx]%list_elem_of_filter)%list_elem_of_fmap. apply andb_true_iff in Hxp as [_ Hxu].
      rewrite (Honly x Hx) in Hxu; [done|]. unfold row_seq in *. by rewrite <- E.
Qed.
