(* ===== verification/AuditEvidence.v ===== *)
(** * Audit evidence ([src/src/runtime/loop/audit_evidence.ts], [task_audit_cache.ts], [runtime/audit_schema.ts])

    What reviewers said about a subject, as it is stored and as a gate reads
    it: the schema of an entry, the aggregation of the lenses' outputs into one
    verdict text, the match of an entry with the policy a pack declares, and
    the two tables that keep the latest entry and the last hundred attempts of
    a task.  Texts are byte strings, so their length is their size in UTF-8. *)

From Stdlib Require Import Ascii String.
From stdpp Require Import base option list strings gmap pretty.
From S2P Require Import Prelude Json JsonText ExprSyntax LoopEvents.

(** ** Grammar *)
Definition AUDIT_LENS_MIN : nat := 2.
Definition AUDIT_LENS_MAX : nat := 4.
Definition MAX_SUBAGENT_RESULT_BYTES : nat := N.to_nat 51200.
Definition MAX_AUDIT_AGGREGATE_EVIDENCE_BYTES : nat := N.to_nat 50176.
Definition in_range (lo hi : nat) (c : ascii) : bool := Nat.leb lo (nat_of_ascii c) && Nat.leb (nat_of_ascii c) hi.
Definition is_upper (c : ascii) : bool := in_range 65 90 c.
Definition is_lower_digit (c : ascii) : bool := in_range 97 122 c || in_range 48 57 c.
Definition id_char (c : ascii) : bool := is_lower_digit c || bool_decide (c ∈ ["."; "_"; "-"]%char).
Definition token_char (c : ascii) : bool := is_upper c || Ascii.eqb c "_".
Definition all_of (p : ascii -> bool) (s : string) : bool := forallb p (String.list_ascii_of_string s).
(** [first[rest]{0,63}] *)
Definition word_of (first rest : ascii -> bool) (s : string) : bool :=
  match s with
  | EmptyString => false
  | String c r => first c && all_of rest r && Nat.leb (String.length r) 63
  end.
Definition AuditLensId : string -> bool := word_of is_lower_digit id_char.
Definition AuditVerdictToken : string -> bool := word_of is_upper token_char.
Definition distinctAuditVerdicts (passVerdict failVerdict : string) : bool := negb (passVerdict =? failVerdict)%string.
Definition utf8Bounded (minBytes maxBytes : nat) (s : string) : bool := Nat.leb minBytes (String.length s) && Nat.leb (String.length s) maxBytes.

(** ** Entries *)
Record AuditLens := { al_id : string; al_promptHash : string; al_output : string }.
Record AuditFailure := { af_id : string; af_error : string }.
Record AuditEntry := {
  ae_hash : string; ae_verdict : option string; ae_complete : option bool; ae_lenses : option (list AuditLens);
  ae_failures : option (list AuditFailure); ae_passVerdict : option string; ae_failVerdict : option string;
  ae_subjectHash : option string }.

Definition text_of (ok : string -> bool) (v : Json) : option string :=
  match v with JStr s => if ok s then Some s else None | _ => None end.
Definition bool_of (v : Json) : option bool := match v with JBool b => Some b | _ => None end.
Definition list_of {A} (f : Json -> option A) (v : Json) : option (list A) :=
  match v with JArr l => if Nat.leb (List.length l) AUDIT_LENS_MAX then mapM f l else None | _ => None end.
Definition required {A} (k : string) (f : Json -> option A) (o : list (string * Json)) : option A := obj_get k o ≫= f.
Definition optional {A} (k : string) (f : Json -> option A) (o : list (string * Json)) : option (option A) :=
  match obj_get k o with None => Some None | Some v => Some <$> f v end.
(** [.strict()] *)
Definition strict (keys : list string) (v : Json) : option (list (string * Json)) :=
  match v with JObj o => if forallb (fun kv => set_has kv.1 keys) o then Some o else None | _ => None end.
Definition lens_of (v : Json) : option AuditLens :=
  o ← strict ["id"; "promptHash"; "output"] v;
  id ← required "id" (text_of AuditLensId) o;
  promptHash ← required "promptHash" (text_of hex64) o;
  output ← required "output" (text_of (utf8Bounded 1 MAX_SUBAGENT_RESULT_BYTES)) o;
  Some {| al_id := id; al_promptHash := promptHash; al_output := output |}.
Definition failure_of (v : Json) : option AuditFailure :=
  o ← strict ["id"; "error"] v;
  id ← required "id" (text_of AuditLensId) o;
  error ← required "error" (text_of (utf8Bounded 1 (N.to_nat 4096))) o;
  Some {| af_id := id; af_error := error |}.
Definition lens_bytes (lenses : list AuditLens) : nat := list_sum (map (fun lens => String.length (al_output lens)) lenses).
Definition evidence_ids (lenses : list AuditLens) (failures : list AuditFailure) : list string := map al_id lenses ++ map af_id failures.
(** The [superRefine] of an entry. *)
Definition entry_ok (e : AuditEntry) : bool :=
  match ae_verdict e with
  | Some _ => negb (bool_decide (is_Some (ae_complete e)) || bool_decide (is_Some (ae_lenses e)) || bool_decide (is_Some (ae_failures e)) ||
                    bool_decide (is_Some (ae_passVerdict e)) || bool_decide (is_Some (ae_failVerdict e)))
  | None =>
      match ae_complete e, ae_lenses e, ae_passVerdict e, ae_failVerdict e with
      | Some complete, Some lenses, Some pass, Some fail =>
          let failures := default [] (ae_failures e) in
          let ids := evidence_ids lenses failures in
          distinctAuditVerdicts pass fail && Nat.leb (lens_bytes lenses) MAX_AUDIT_AGGREGATE_EVIDENCE_BYTES &&
          bool_decide (NoDup ids) &&
          (if complete then Nat.leb AUDIT_LENS_MIN (List.length lenses) && bool_decide (failures = [])
           else negb (bool_decide (failures = [])) && Nat.leb AUDIT_LENS_MIN (List.length ids) && Nat.leb (List.length ids) AUDIT_LENS_MAX)
      | _, _, _, _ => false
      end
  end.
Definition parseAuditEvidenceEntry (value : Json) : option AuditEntry :=
  o ← strict ["hash"; "verdict"; "complete"; "lenses"; "failures"; "passVerdict"; "failVerdict"; "subjectHash"] value;
  hash ← required "hash" (text_of hex64) o;
  verdict ← optional "verdict" (text_of (utf8Bounded 1 MAX_SUBAGENT_RESULT_BYTES)) o;
  complete ← optional "complete" bool_of o;
  lenses ← optional "lenses" (list_of lens_of) o;
  failures ← optional "failures" (list_of failure_of) o;
  passVerdict ← optional "passVerdict" (text_of AuditVerdictToken) o;
  failVerdict ← optional "failVerdict" (text_of AuditVerdictToken) o;
  subjectHash ← optional "subjectHash" (text_of hex64) o;
  let e := {| ae_hash := hash; ae_verdict := verdict; ae_complete := complete; ae_lenses := lenses; ae_failures := failures;
              ae_passVerdict := passVerdict; ae_failVerdict := failVerdict; ae_subjectHash := subjectHash |} in
  if entry_ok e then Some e else None.

(** An entry as a value, absent fields left out. *)
Definition given {A} (k : string) (f : A -> Json) (o : option A) : list (string * Json) :=
  match o with None => [] | Some a => [(k, f a)] end.
Definition lens_value (lens : AuditLens) : Json :=
  JObj [("id", JStr (al_id lens)); ("promptHash", JStr (al_promptHash lens)); ("output", JStr (al_output lens))].
Definition failure_value (f : AuditFailure) : Json := JObj [("id", JStr (af_id f)); ("error", JStr (af_error f))].
Definition entry_value (e : AuditEntry) : Json :=
  JObj (("hash", JStr (ae_hash e)) :: given "verdict" JStr (ae_verdict e) ++ given "complete" JBool (ae_complete e) ++
        given "lenses" (fun l => JArr (map lens_value l)) (ae_lenses e) ++
        given "failures" (fun l => JArr (map failure_value l)) (ae_failures e) ++
        given "passVerdict" JStr (ae_passVerdict e) ++ given "failVerdict" JStr (ae_failVerdict e) ++
        given "subjectHash" JStr (ae_subjectHash e)).

(** ** The policy an entry must match *)
Record AuditPolicyIdentity := {
  pi_hash : string; pi_subjectHash : option string; pi_passVerdict : string; pi_failVerdict : string; pi_lenses : list (string * string) }.
Definition hash_of (id : string) (lenses : list (string * string)) : option string :=
  (list_to_map (reverse lenses) : gmap string string) !! id.
Definition matchesDeclaredFanoutPolicy (e : AuditEntry) (policy : AuditPolicyIdentity) : bool :=
  if negb (bool_decide (ae_verdict e = None) && (ae_hash e =? pi_hash policy)%string && bool_decide (ae_subjectHash e = pi_subjectHash policy) &&
           bool_decide (ae_passVerdict e = Some (pi_passVerdict policy)) && bool_decide (ae_failVerdict e = Some (pi_failVerdict policy)))
  then false
  else
    let lenses := default [] (ae_lenses e) in
    let actualIds := evidence_ids lenses (default [] (ae_failures e)) in
    Nat.eqb (List.length actualIds) (List.length (pi_lenses policy)) &&
    forallb (fun id => bool_decide (is_Some (hash_of id (pi_lenses policy)))) actualIds &&
    forallb (fun lens => bool_decide (hash_of (al_id lens) (pi_lenses policy) = Some (al_promptHash lens))) lenses.
Definition auditEvidenceMatchesPolicyForDiagnostics : AuditEntry -> AuditPolicyIdentity -> bool := matchesDeclaredFanoutPolicy.
Definition auditEvidenceMatchesPolicy (e : AuditEntry) (policy : AuditPolicyIdentity) : bool :=
  bool_decide (ae_complete e = Some true) && matchesDeclaredFanoutPolicy e policy &&
  bool_decide (map al_id <$> ae_lenses e = Some (map fst (pi_lenses policy))).

(** ** Verdicts *)
Definition LF : ascii := "010".
Definition CR : ascii := "013".
(** [split(/\r?\n/, 1)[0]] *)
Fixpoint verdictLine (output : string) : string :=
  match output with
  | EmptyString => ""
  | String c r =>
      if Ascii.eqb c LF then ""
      else if Ascii.eqb c CR && match r with String d _ => Ascii.eqb d LF | EmptyString => false end then ""
      else String c (verdictLine r)
  end.
(** [replace(/VERDICT:\s*[A-Z][A-Z_]*/gu, '')]; each turn consumes a character. *)
Fixpoint strip_tokens (fuel : nat) (s : string) : string :=
  match fuel, s with
  | S fuel, String c r =>
      if starts_with s "VERDICT:" then
        match (span is_space (String.substring 8 (String.length s - 8) s)).2 with
        | String d r' => if is_upper d then strip_tokens fuel (span token_char r').2 else String c (strip_tokens fuel r)
        | EmptyString => String c (strip_tokens fuel r)
        end
      else String c (strip_tokens fuel r)
  | _, _ => ""
  end.
Definition stripVerdictTokens (output : string) : string := trim (strip_tokens (String.length output) output).
Definition attributionId (index : nat) (lens : AuditLens) : string :=
  if AuditLensId (al_id lens) then al_id lens else "lens-" +:+ pretty (S index).
Definition evidenceWithinBudget (lenses : list AuditLens) : bool := Nat.leb (lens_bytes lenses) MAX_AUDIT_AGGREGATE_EVIDENCE_BYTES.
Definition verdict_line (token : string) : string := "VERDICT: " +:+ token.
Definition row (id text : string) : string := "- [" +:+ id +:+ "] " +:+ text.
Definition lines (l : list string) : string := join_with (String LF "") l.
Definition lensFindingRows (lenses : list AuditLens) (passLine : string) : list string :=
  imap (fun i lens =>
    if (verdictLine (al_output lens) =? passLine)%string then row (attributionId i lens) "PASS"
    else
      let body := stripVerdictTokens (al_output lens) in
      row (attributionId i lens) (if (body =? "")%string then "review did not return the exact pass verdict" else body)) lenses.
Definition boundedFailureAggregate (failVerdict : string) (rows boundedFallbackRows : list string) : string :=
  let aggregate := lines (verdict_line failVerdict :: rows) in
  if Nat.leb (String.length aggregate) MAX_SUBAGENT_RESULT_BYTES then aggregate else lines (verdict_line failVerdict :: boundedFallbackRows).
Definition expected_count : string := pretty AUDIT_LENS_MIN +:+ "-" +:+ pretty AUDIT_LENS_MAX.
Definition passes (passLine : string) (lens : AuditLens) : bool := (verdictLine (al_output lens) =? passLine)%string.
Definition each_id (lenses : list AuditLens) (text : string) : list string := imap (fun i lens => row (attributionId i lens) text) lenses.
Definition aggregateAuditLenses (lenses : list AuditLens) (passVerdict failVerdict : string) : string :=
  if negb (AuditVerdictToken passVerdict && AuditVerdictToken failVerdict && distinctAuditVerdicts passVerdict failVerdict)
  then lines ["VERDICT: UNRESOLVED"; "- [audit] invalid pass/fail verdict policy"]
  else
    let passLine := verdict_line passVerdict in
    let n := List.length lenses in
    if Nat.ltb n AUDIT_LENS_MIN || Nat.ltb AUDIT_LENS_MAX n then
      if Nat.eqb n 0 then
        lines [verdict_line failVerdict; "- [audit] invalid lens evidence count (0 completed; expected " +:+ expected_count +:+ ")"]
      else
        let shown := take 256 lenses in
        let omitted := n - List.length shown in
        let suffix := if Nat.eqb omitted 0 then [] else ["- [audit] " +:+ pretty omitted +:+ " additional invalid lenses omitted"] in
        let fallbackRows := each_id shown ("invalid lens-set evidence (expected " +:+ expected_count +:+ ")") ++ suffix in
        if negb (evidenceWithinBudget shown) then lines (verdict_line failVerdict :: fallbackRows)
        else boundedFailureAggregate failVerdict (lensFindingRows shown passLine ++ suffix) fallbackRows
    else if negb (forallb (fun lens => AuditLensId (al_id lens)) lenses && bool_decide (NoDup (map al_id lenses)))
    then lines (verdict_line failVerdict :: each_id lenses "invalid or duplicate lens id")
    else if negb (evidenceWithinBudget lenses)
    then lines (verdict_line failVerdict :: each_id lenses "audit output exceeded aggregate evidence bound")
    else if forallb (passes passLine) lenses
    then lines [passLine; "AUDIT FAN-OUT: " +:+ join_with ", " (imap attributionId lenses) +:+ " (" +:+ pretty n +:+ "/" +:+ pretty n +:+ ")"]
    else boundedFailureAggregate failVerdict (lensFindingRows lenses passLine) (each_id lenses "audit output exceeded aggregate evidence bound").
Definition auditVerdictMatchesPass (verdict : option string) (passVerdict : string) : bool :=
  AuditVerdictToken passVerdict && bool_decide (verdictLine <$> verdict = Some (verdict_line passVerdict)).
Definition failure_rows (text : AuditFailure -> string) (failures : list AuditFailure) : list string :=
  map (fun f => row (af_id f) (text f)) failures.
Definition deriveAuditEvidenceVerdict (e : AuditEntry) : option string :=
  match ae_verdict e with
  | Some v => Some v
  | None =>
      match ae_complete e, ae_lenses e, ae_passVerdict e, ae_failVerdict e with
      | Some true, Some lenses, Some pass, Some fail => Some (aggregateAuditLenses lenses pass fail)
      | _, _, _, _ =>
          match default [] (ae_failures e) with
          | [] => None
          | failures =>
              let pass := default "GUESS_FREE" (ae_passVerdict e) in
              let completed := default [] (ae_lenses e) in
              Some (boundedFailureAggregate (default "UNRESOLVED" (ae_failVerdict e))
                (lensFindingRows completed (verdict_line pass) ++ failure_rows af_error failures)
                (imap (fun i lens => row (attributionId i lens)
                   (if passes (verdict_line pass) lens then "PASS" else "completed review did not return the exact pass verdict")) completed ++
                 failure_rows (fun _ => "reviewer failed") failures))
          end
      end
  end.

(** ** The tables *)
Record AuditAttempt := { at_id : N; at_task : string; at_key : string; at_text : string; at_ms : Z }.
Record AuditTables := { au_latest : gmap (string * string) string; au_history : list AuditAttempt; au_last : N }.
Definition no_audits : AuditTables := {| au_latest := ∅; au_history := []; au_last := 0 |}.
Definition of_key (taskId cacheKey : string) (a : AuditAttempt) : bool := (at_task a =? taskId)%string && (at_key a =? cacheKey)%string.
(** Attempts of a key, the latest first. *)
Definition attempts (taskId cacheKey : string) (t : AuditTables) : list AuditAttempt :=
  filter (fun a => of_key taskId cacheKey a = true) (reverse (au_history t)).
Definition writeTaskAuditCache (taskId : option string) (cacheKey : string) (entry : AuditEntry) (now : Z) (t : AuditTables)
    : result string unit * AuditTables :=
  match parseAuditEvidenceEntry (entry_value entry) with
  | None => (Err "refusing malformed task audit evidence", t)
  | Some validated =>
      match taskId with
      | None => (Err "NOT NULL constraint failed: task_audit_cache.task_id", t)
      | Some task =>
          let encoded := stringify (entry_value validated) in
          let next := {| at_id := au_last t + 1; at_task := task; at_key := cacheKey; at_text := encoded; at_ms := now |} in
          let history := au_history t ++ [next] in
          let kept := map at_id (take 100 (filter (fun a => of_key task cacheKey a = true) (reverse history))) in
          (Ok tt, {| au_latest := <[(task, cacheKey) := encoded]> (au_latest t);
                     au_history := filter (fun a => (negb (of_key task cacheKey a) || bool_decide (at_id a ∈ kept)) = true) history;
                     au_last := au_last t + 1 |})
      end
  end.
Definition decode (text : string) : option AuditEntry := parseJson text ≫= parseAuditEvidenceEntry.
Definition readTaskAuditCacheForTask (taskId cacheKey : string) (t : AuditTables) : option AuditEntry :=
  au_latest t !! (taskId, cacheKey) ≫= decode.
Definition readTaskAuditCache (taskId : option string) (cacheKey : string) (t : AuditTables) : option AuditEntry :=
  taskId ≫= fun task => readTaskAuditCacheForTask task cacheKey t.
Definition readTaskAuditHistoryForTask (taskId cacheKey : string) (limit : nat) (t : AuditTables) : list (AuditEntry * Z) :=
  omap (fun a => entry ← decode (at_text a); Some (entry, at_ms a)) (take (Nat.max 1 (Nat.min 100 limit)) (attempts taskId cacheKey t)).
Definition readTaskAuditHistory (taskId : option string) (cacheKey : string) (limit : nat) (t : AuditTables) : list (AuditEntry * Z) :=
  match taskId with None => [] | Some task => readTaskAuditHistoryForTask task cacheKey limit t end.
