(* ===== verification/AuditProps.v ===== *)
(** * What audit evidence can authorise

    Properties of [AuditEvidence]: the pass verdict of an entry needs every
    lens, a validated entry survives its JSON text, and the tables give back
    the last entry written and keep at most a hundred attempts per key. *)

From Stdlib Require Import Ascii String Sorted.
From stdpp Require Import base option list strings gmap pretty.
From S2P Require Import Prelude Json JsonText ExprSyntax LoopEvents AuditEvidence.

(** ** First lines *)
Definition plain_char (c : ascii) : bool := negb (Ascii.eqb c LF) && negb (Ascii.eqb c CR).
Definition plain_text (s : string) : bool := all_of plain_char s.
Lemma all_of_cons p c s : all_of p (String c s) = p c && all_of p s.
Proof. done. Qed.
Lemma all_of_app p s t : all_of p (s +:+ t) = all_of p s && all_of p t.
Proof. induction s as [|c s IH]; [done|]. change (String c s +:+ t) with (String c (s +:+ t)). rewrite !all_of_cons, IH. apply andb_assoc. Qed.
Lemma all_of_impl (p q : ascii -> bool) s : (forall c, p c = true -> q c = true) -> all_of p s = true -> all_of q s = true.
Proof. intros H. induction s as [|c s IH]; [done|]. rewrite !all_of_cons. intros [Hc Hs]%andb_true_iff. by rewrite H, IH. Qed.
Lemma verdictLine_plain s r : plain_text s = true -> verdictLine (s +:+ String LF r) = s /\ verdictLine s = s.
Proof.
  unfold plain_text. induction s as [|c s IH]; [done|]. rewrite all_of_cons. intros [Hc Hs]%andb_true_iff.
  unfold plain_char in Hc. apply andb_true_iff in Hc as [H1 H2]. apply negb_true_iff in H1, H2. destruct (IH Hs) as [E1 E2].
  change (String c s +:+ String LF r) with (String c (s +:+ String LF r)). cbn [verdictLine]. by rewrite H1, H2, E1, E2.
Qed.
Lemma verdictLine_lines l rest : plain_text l = true -> verdictLine (lines (l :: rest)) = l.
Proof.
  intros H. unfold lines. destruct rest as [|r rest]; [by apply (verdictLine_plain l "")|].
  rewrite join_with_cons by done. by apply verdictLine_plain.
Qed.
Lemma token_char_plain c : token_char c = true -> plain_char c = true.
Proof. by destruct c as [[] [] [] [] [] [] [] []]. Qed.
Lemma token_plain s : AuditVerdictToken s = true -> plain_text (verdict_line s) = true.
Proof.
  intros H. unfold verdict_line, plain_text. rewrite all_of_app. change (all_of plain_char "VERDICT: ") with true. cbn [andb].
  destruct s as [|c s]; [done|]. cbn in H. rewrite !andb_true_iff in H. destruct H as [[Hc Hs] _]. rewrite all_of_cons.
  rewrite (token_char_plain c) by (unfold token_char; by rewrite Hc). by apply (all_of_impl token_char), Hs; apply token_char_plain.
Qed.
Lemma bounded_line fail rows fallback : AuditVerdictToken fail = true ->
  verdictLine (boundedFailureAggregate fail rows fallback) = verdict_line fail.
Proof. intros H. unfold boundedFailureAggregate. case_match; by apply verdictLine_lines, token_plain. Qed.
Lemma verdict_line_inj a b : verdict_line a = verdict_line b -> a = b.
Proof. apply string_app_inj_l. Qed.

(** ** The aggregate *)
Definition all_pass (lenses : list AuditLens) (pass : string) : bool :=
  Nat.leb AUDIT_LENS_MIN (List.length lenses) && Nat.leb (List.length lenses) AUDIT_LENS_MAX &&
  forallb (fun lens => AuditLensId (al_id lens)) lenses && bool_decide (NoDup (map al_id lenses)) &&
  evidenceWithinBudget lenses && forallb (passes (verdict_line pass)) lenses.
Lemma aggregate_line lenses pass fail : AuditVerdictToken pass = true -> AuditVerdictToken fail = true -> pass <> fail ->
  verdictLine (aggregateAuditLenses lenses pass fail) = verdict_line (if all_pass lenses pass then pass else fail).
Proof.
  intros Hp Hf Hd. unfold aggregateAuditLenses. rewrite Hp, Hf. unfold distinctAuditVerdicts.
  rewrite (proj2 (String.eqb_neq _ _) Hd). cbn [andb negb].
  unfold all_pass. destruct (Nat.ltb_spec (List.length lenses) AUDIT_LENS_MIN) as [H1|H1]; cbn [orb].
  { rewrite (proj2 (Nat.leb_gt _ _)) by lia. cbn [andb].
    case_match; [by apply verdictLine_lines, token_plain|]. case_match; [by apply verdictLine_lines, token_plain|]. by apply bounded_line. }
  rewrite (proj2 (Nat.leb_le AUDIT_LENS_MIN _)) by lia. cbn [andb].
  destruct (Nat.ltb_spec AUDIT_LENS_MAX (List.length lenses)) as [H2|H2].
  { rewrite (proj2 (Nat.leb_gt _ _)) by lia. cbn [andb].
    case_match; [by apply verdictLine_lines, token_plain|]. case_match; [by apply verdictLine_lines, token_plain|]. by apply bounded_line. }
  rewrite (proj2 (Nat.leb_le _ AUDIT_LENS_MAX)) by lia. cbn [andb].
  destruct (forallb (fun lens => AuditLensId (al_id lens)) lenses && bool_decide (NoDup (map al_id lenses))); cbn [negb andb];
    [|by apply verdictLine_lines, token_plain].
  destruct (evidenceWithinBudget lenses); cbn [negb andb]; [|by apply verdictLine_lines, token_plain].
  destruct (forallb (passes (verdict_line pass)) lenses); [by apply verdictLine_lines, token_plain|by apply bounded_line].
Qed.

(** ** What parses *)
Definition optionally {A} (P : A -> Prop) (o : option A) : Prop := match o with Some a => P a | None => True end.
Definition lens_fine (lens : AuditLens) : Prop :=
  AuditLensId (al_id lens) = true /\ hex64 (al_promptHash lens) = true /\ utf8Bounded 1 MAX_SUBAGENT_RESULT_BYTES (al_output lens) = true.
Definition failure_fine (f : AuditFailure) : Prop := AuditLensId (af_id f) = true /\ utf8Bounded 1 (N.to_nat 4096) (af_error f) = true.
Definition list_fine {A} (P : A -> Prop) (l : list A) : Prop := List.length l <= AUDIT_LENS_MAX /\ Forall P l.
Record Fine (e : AuditEntry) : Prop := {
  fi_hash : hex64 (ae_hash e) = true;
  fi_verdict : optionally (fun v => utf8Bounded 1 MAX_SUBAGENT_RESULT_BYTES v = true) (ae_verdict e);
  fi_lenses : optionally (list_fine lens_fine) (ae_lenses e);
  fi_failures : optionally (list_fine failure_fine) (ae_failures e);
  fi_pass : optionally (fun v => AuditVerdictToken v = true) (ae_passVerdict e);
  fi_fail : optionally (fun v => AuditVerdictToken v = true) (ae_failVerdict e);
  fi_subject : optionally (fun v => hex64 v = true) (ae_subjectHash e);
  fi_ok : entry_ok e = true }.
Lemma text_of_some ok v s : text_of ok v = Some s -> v = JStr s /\ ok s = true.
Proof. destruct v; try done. cbn. case_match; [|done]. by intros [= <-]. Qed.
Lemma text_of_fine ok s : ok s = true -> text_of ok (JStr s) = Some s.
Proof. cbn. by intros ->. Qed.
Lemma list_of_some {A} (f : Json -> option A) (P : A -> Prop) v l : (forall v a, f v = Some a -> P a) -> list_of f v = Some l -> list_fine P l.
Proof.
  intros Hf. destruct v as [| | | |vs|]; try done. cbn. destruct (Nat.leb_spec (List.length vs) AUDIT_LENS_MAX); [|done].
  intros Hm. apply mapM_Some in Hm. split; [by rewrite <- (Forall2_length _ _ _ Hm)|].
  apply Forall_forall. intros a Ha. apply list_elem_of_lookup_1 in Ha as [i Hi].
  destruct (Forall2_lookup_r _ _ _ _ _ Hm Hi) as (v & _ & Hv). by eapply Hf.
Qed.
Lemma list_of_fine {A} (f : Json -> option A) (g : A -> Json) (P : A -> Prop) l : (forall a, P a -> f (g a) = Some a) -> list_fine P l ->
  list_of f (JArr (map g l)) = Some l.
Proof.
  intros Hf [Hl HP]. cbn. rewrite length_map, (proj2 (Nat.leb_le _ _)) by done. apply mapM_Some. clear Hl.
  induction HP as [|a l Ha _ IH]; cbn; constructor; auto.
Qed.
Lemma bind_some {A B} (o : option A) (f : A -> option B) b : (o ≫= f) = Some b -> exists a, o = Some a /\ f a = Some b.
Proof. destruct o; [eauto|done]. Qed.
Ltac parsed := repeat match goal with H : (_ ≫= _) = Some _ |- _ => apply bind_some in H as (? & ? & H); cbn beta in H end.
Lemma required_some {A} k (f : Json -> option A) o a : required k f o = Some a -> exists v, f v = Some a.
Proof. unfold required. intros H. parsed. eauto. Qed.
Lemma optional_some {A} k (f : Json -> option A) (P : A -> Prop) o x : (forall v a, f v = Some a -> P a) -> optional k f o = Some x -> optionally P x.
Proof. unfold optional. destruct (obj_get k o) as [v|]; [|by intros _ [= <-]]. intros Hf. destruct (f v) eqn:E; [|done]. intros [= <-]. by eapply Hf. Qed.
Lemma lens_of_some v lens : lens_of v = Some lens -> lens_fine lens.
Proof.
  unfold lens_of. intros H. parsed. injection H as <-.
  repeat match goal with H : required _ _ _ = Some _ |- _ => apply required_some in H as (? & [_ ?]%text_of_some) end. done.
Qed.
Lemma failure_of_some v f : failure_of v = Some f -> failure_fine f.
Proof.
  unfold failure_of. intros H. parsed. injection H as <-.
  repeat match goal with H : required _ _ _ = Some _ |- _ => apply required_some in H as (? & [_ ?]%text_of_some) end. done.
Qed.
Lemma text_of_ok ok v s : text_of ok v = Some s -> ok s = true.
Proof. by intros [_ ?]%text_of_some. Qed.
Lemma parsed_fine v e : parseAuditEvidenceEntry v = Some e -> Fine e.
Proof.
  unfold parseAuditEvidenceEntry. intros H. parsed. destruct (entry_ok _) eqn:Eok; [|done]. injection H as <-.
  constructor; cbn; try done;
    try (eapply optional_some; [|eassumption]; intros ? ?; first [apply text_of_ok | apply list_of_some; apply lens_of_some | apply list_of_some; apply failure_of_some]).
  match goal with H : required "hash" _ _ = Some _ |- _ => by apply required_some in H as (? & [_ ?]%text_of_some) end.
Qed.

(** ** The text of an entry *)
Lemma required_text k ok o s : obj_get k o = Some (JStr s) -> ok s = true -> required k (text_of ok) o = Some s.
Proof. unfold required. intros -> H. by apply text_of_fine. Qed.
Lemma lens_value_of lens : lens_fine lens -> lens_of (lens_value lens) = Some lens.
Proof.
  intros (H1 & H2 & H3). unfold lens_of. change (strict _ (lens_value lens)) with
    (Some [("id", JStr (al_id lens)); ("promptHash", JStr (al_promptHash lens)); ("output", JStr (al_output lens))]). cbn [mbind option_bind].
  rewrite (required_text "id" _ _ (al_id lens)) by done. cbn [mbind option_bind].
  rewrite (required_text "promptHash" _ _ (al_promptHash lens)) by done. cbn [mbind option_bind].
  rewrite (required_text "output" _ _ (al_output lens)) by done. by destruct lens.
Qed.
Lemma failure_value_of f : failure_fine f -> failure_of (failure_value f) = Some f.
Proof.
  intros (H1 & H2). unfold failure_of. change (strict _ (failure_value f)) with
    (Some [("id", JStr (af_id f)); ("error", JStr (af_error f))]). cbn [mbind option_bind].
  rewrite (required_text "id" _ _ (af_id f)) by done. cbn [mbind option_bind].
  rewrite (required_text "error" _ _ (af_error f)) by done. by destruct f.
Qed.
Definition entry_object (e : AuditEntry) : list (string * Json) := match entry_value e with JObj o => o | _ => [] end.
Lemma optional_given {A} k (f : Json -> option A) (g : A -> Json) (P : A -> Prop) o x :
  obj_get k o = g <$> x -> (forall a, P a -> f (g a) = Some a) -> optionally P x -> optional k f o = Some x.
Proof. unfold optional. intros -> Hf HP. destruct x as [a|]; [|done]. cbn. by rewrite Hf. Qed.
Ltac by_fields e := destruct e as [? [] [] [] [] [] [] []]; reflexivity.
Lemma entry_fields e :
  obj_get "hash" (entry_object e) = Some (JStr (ae_hash e)) /\
  obj_get "verdict" (entry_object e) = JStr <$> ae_verdict e /\ obj_get "complete" (entry_object e) = JBool <$> ae_complete e /\
  obj_get "lenses" (entry_object e) = (fun l => JArr (map lens_value l)) <$> ae_lenses e /\
  obj_get "failures" (entry_object e) = (fun l => JArr (map failure_value l)) <$> ae_failures e /\
  obj_get "passVerdict" (entry_object e) = JStr <$> ae_passVerdict e /\ obj_get "failVerdict" (entry_object e) = JStr <$> ae_failVerdict e /\
  obj_get "subjectHash" (entry_object e) = JStr <$> ae_subjectHash e.
Proof. repeat split; by_fields e. Qed.
Lemma entry_strict e :
  strict ["hash"; "verdict"; "complete"; "lenses"; "failures"; "passVerdict"; "failVerdict"; "subjectHash"] (entry_value e) = Some (entry_object e).
Proof. by_fields e. Qed.
Lemma parse_entry_value e : Fine e -> parseAuditEvidenceEntry (entry_value e) = Some e.
Proof.
  intros [H1 H2 H3 H4 H5 H6 H7 H8]. unfold parseAuditEvidenceEntry. rewrite entry_strict.
  destruct (entry_fields e) as (E1 & E2 & E3 & E4 & E5 & E6 & E7 & E8). cbn [mbind option_bind].
  rewrite (required_text _ _ _ _ E1 H1). cbn [mbind option_bind].
  rewrite (optional_given _ _ _ _ _ _ E2 (text_of_fine _) H2). cbn [mbind option_bind].
  rewrite (optional_given _ bool_of _ (fun _ => True) _ _ E3) by (try done; by destruct (ae_complete e)). cbn [mbind option_bind].
  rewrite (optional_given _ (list_of lens_of) _ _ _ _ E4 (fun l => list_of_fine _ _ _ l lens_value_of) H3). cbn [mbind option_bind].
  rewrite (optional_given _ (list_of failure_of) _ _ _ _ E5 (fun l => list_of_fine _ _ _ l failure_value_of) H4). cbn [mbind option_bind].
  rewrite (optional_given _ _ _ _ _ _ E6 (text_of_fine _) H5). cbn [mbind option_bind].
  rewrite (optional_given _ _ _ _ _ _ E7 (text_of_fine _) H6). cbn [mbind option_bind].
  rewrite (optional_given _ _ _ _ _ _ E8 (text_of_fine _) H7). cbn [mbind option_bind].
  destruct e; cbn in *. by rewrite H8.
Qed.
Lemma json_ok_arr (l : list Json) : forallb json_ok l = true -> json_ok (JArr l) = true.
Proof. done. Qed.
Lemma json_ok_map {A} (f : A -> Json) (l : list A) : (forall a, json_ok (f a) = true) -> json_ok (JArr (map f l)) = true.
Proof. intros H. apply json_ok_arr, forallb_forall. intros v (a & <- & _)%in_map_iff. apply H. Qed.
Lemma entry_json_ok e : json_ok (entry_value e) = true.
Proof.
  destruct e as [h v c l f p q s]. unfold entry_value. cbn [ae_hash ae_verdict ae_complete ae_lenses ae_failures ae_passVerdict ae_failVerdict ae_subjectHash].
  cbn [json_ok]. apply andb_true_iff. split; [by destruct v, c, l, f, p, q, s|].
  cbn [forallb snd json_ok andb]. rewrite !forallb_app.
  assert (Hl : forall l, json_ok (JArr (map lens_value l)) = true) by (intros; by apply json_ok_map).
  assert (Hf : forall l, json_ok (JArr (map failure_value l)) = true) by (intros; by apply json_ok_map).
  destruct v, c, l, f, p, q, s; cbn [given forallb snd andb]; rewrite ?Hl, ?Hf; done.
Qed.
Lemma decode_entry e : Fine e -> decode (stringify (entry_value e)) = Some e.
Proof. intros H. unfold decode. rewrite parse_stringify by apply entry_json_ok. cbn. by apply parse_entry_value. Qed.

(** ** The claims *)
(** C12: A pass needs every lens: of an entry the schema accepts, the verdict a gate reads is the declared pass verdict exactly
    when the entry is complete with two to four distinct lenses and the first line of each one's output is that verdict; nothing
    partial, empty or merely quoting it passes. *)
Theorem pass_needs_every_lens value e pass : parseAuditEvidenceEntry value = Some e -> ae_passVerdict e = Some pass ->
  auditVerdictMatchesPass (deriveAuditEvidenceVerdict e) pass = true <->
  ae_complete e = Some true /\ exists lenses, ae_lenses e = Some lenses /\ 2 <= List.length lenses <= 4 /\ NoDup (map al_id lenses) /\
    Forall (fun lens => verdictLine (al_output lens) = verdict_line pass) lenses.
Proof.
  intros He%parsed_fine Hp. pose proof He as [_ _ Hl _ Hpv Hfv _ Hok]. rewrite Hp in Hpv. cbn in Hpv.
  unfold entry_ok in Hok. unfold deriveAuditEvidenceVerdict, auditVerdictMatchesPass. rewrite Hpv. cbn [andb]. rewrite bool_decide_eq_true.
  destruct (ae_verdict e) as [v|].
  { rewrite Hp in Hok. exfalso. revert Hok. rewrite negb_true_iff, !orb_false_iff, !bool_decide_eq_false. intros [[_ H] _]. apply H. by eexists. }
  destruct (ae_complete e) as [complete|]; [|done]. destruct (ae_lenses e) as [lenses|]; [|done].
  rewrite Hp in Hok. destruct (ae_failVerdict e) as [fail|]; [|done]. cbn in Hl, Hfv. destruct Hl as [Hl4 Hl].
  rewrite !andb_true_iff in Hok. destruct Hok as [[[Hd Hb] Hn] Hc]. unfold distinctAuditVerdicts in Hd.
  apply negb_true_iff, String.eqb_neq in Hd. rewrite bool_decide_eq_true in Hn. rewrite Hp. destruct complete.
  - cbn [fmap option_fmap option_map]. rewrite aggregate_line by done. rewrite andb_true_iff, bool_decide_eq_true, Nat.leb_le in Hc.
    destruct Hc as [Hm Hf]. rewrite Hf in Hn. unfold evidence_ids in Hn. cbn in Hn. rewrite app_nil_r in Hn.
    assert (Ha : all_pass lenses pass = forallb (passes (verdict_line pass)) lenses).
    { unfold all_pass. rewrite (proj2 (Nat.leb_le AUDIT_LENS_MIN _)), (proj2 (Nat.leb_le _ AUDIT_LENS_MAX)) by done.
      assert (forallb (fun lens => AuditLensId (al_id lens)) lenses = true) as ->.
      { apply forallb_forall. intros x Hx. rewrite Forall_forall in Hl. apply Hl. by apply list_elem_of_In. }
      rewrite bool_decide_true by done. unfold evidenceWithinBudget. by rewrite Hb. }
    rewrite Ha. assert (Hpass : forallb (passes (verdict_line pass)) lenses = true <-> Forall (fun lens => verdictLine (al_output lens) = verdict_line pass) lenses).
    { rewrite forallb_forall, Forall_forall. unfold passes. setoid_rewrite String.eqb_eq. setoid_rewrite list_elem_of_In. done. }
    destruct (forallb _ lenses).
    + split; [|done]. intros _. split; [done|]. exists lenses. unfold AUDIT_LENS_MIN, AUDIT_LENS_MAX in *. pose proof (proj1 Hpass eq_refl). done.
    + split; [intros [= H]; congruence|]. intros (_ & ? & [= <-] & _ & _ & H%Hpass). done.
  - split; [|by intros [? _]]. rewrite !andb_true_iff, negb_true_iff, bool_decide_eq_false in Hc. destruct Hc as [[Hf _] _].
    destruct (default [] (ae_failures e)) as [|f fs]; [done|]. cbn [fmap option_fmap option_map default].
    rewrite bounded_line by done. intros [= H]. congruence.
Qed.

(** Well-kept tables: attempt ids grow, and a key has at most a hundred attempts. *)
Record Kept (t : AuditTables) : Prop := {
  ke_ids : StronglySorted N.lt (map at_id (au_history t)); ke_last : Forall (fun a => (at_id a <= au_last t)%N) (au_history t);
  ke_hundred : forall task key, List.length (attempts task key t) <= 100 }.
Lemma attempt_ids_snoc (l : list AuditAttempt) a : StronglySorted N.lt (map at_id l) -> Forall (fun b => (at_id b < at_id a)%N) l ->
  StronglySorted N.lt (map at_id (l ++ [a])).
Proof.
  induction l as [|b l IH]; cbn; intros Hs Hf; [repeat constructor|]. apply StronglySorted_inv in Hs as [Hs Hb].
  apply Forall_cons in Hf as [Hlt Hf]. constructor; [by apply IH|]. rewrite map_app. apply Forall_app. split; [done|]. by repeat constructor.
Qed.
Lemma sorted_filtered (P : AuditAttempt -> Prop) `{!forall a, Decision (P a)} (l : list AuditAttempt) :
  StronglySorted N.lt (map at_id l) -> StronglySorted N.lt (map at_id (filter P l)).
Proof.
  induction l as [|b l IH]; [done|]. intros [Hs Hb]%StronglySorted_inv. rewrite filter_cons. case_decide; [|by apply IH].
  cbn [map]. constructor; [by apply IH|]. rewrite List.Forall_forall in *. intros x (a & <- & Ha)%in_map_iff. apply Hb, in_map_iff.
  exists a. split; [done|]. apply list_elem_of_In in Ha. apply list_elem_of_In. by apply list_elem_of_filter in Ha as [_ ?].
Qed.
Lemma filter_reverse {A} (P : A -> Prop) `{!forall a, Decision (P a)} (l : list A) : filter P (reverse l) = reverse (filter P l).
Proof.
  induction l as [|a l IH]; [done|]. rewrite reverse_cons, filter_app, IH, !filter_cons. case_decide; [by rewrite reverse_cons|apply app_nil_r].
Qed.
Lemma filter_both {A} (P Q : A -> Prop) `{!forall a, Decision (P a)} `{!forall a, Decision (Q a)} (l : list A) :
  filter P (filter Q l) = filter Q (filter P l).
Proof. rewrite !list_filter_filter. apply list_filter_iff. naive_solver. Qed.
(** Keeping the ids of the first [n] keeps the first [n]. *)
Lemma filter_first n (m : list AuditAttempt) (Q : AuditAttempt -> bool) : NoDup (map at_id m) ->
  Forall (fun a => Q a = true <-> at_id a ∈ map at_id (take n m)) m -> filter (fun a => Q a = true) m = take n m.
Proof.
  revert n Q. induction m as [|a m IH]; intros n Q Hn HQ; [by destruct n|]. apply Forall_cons in HQ as [Ha HQ].
  cbn in Hn. apply NoDup_cons in Hn as [Hna Hn]. rewrite filter_cons. destruct n as [|n]; cbn in *.
  - rewrite decide_False by (rewrite Ha; apply not_elem_of_nil). apply (IH 0 Q Hn). eapply Forall_impl; [exact HQ|]. intros x. by rewrite take_0.
  - rewrite decide_True by (apply Ha; by left). f_equal. apply (IH n Q Hn).
    apply Forall_forall. intros x Hx. rewrite Forall_forall in HQ. rewrite (HQ x Hx), elem_of_cons.
    split; [|by right]. intros [E|?]; [|done]. exfalso. apply Hna. rewrite <- E. by apply list_elem_of_fmap_2.
Qed.
Lemma sorted_nodup (l : list N) : StronglySorted N.lt l -> NoDup l.
Proof.
  induction 1 as [|a l _ IH Ha]; constructor; [|done]. intros Hin. rewrite Forall_forall in Ha. specialize (Ha _ Hin). lia.
Qed.
Lemma nodup_attempts P `{!forall a, Decision (P a)} (l : list AuditAttempt) : StronglySorted N.lt (map at_id l) -> NoDup (map at_id (filter P (reverse l))).
Proof.
  intros Hs. rewrite filter_reverse. change (@map ?A ?B) with (@fmap list _ A B). rewrite fmap_reverse. rewrite reverse_Permutation. by apply sorted_nodup, sorted_filtered.
Qed.

Section Written.
Context (task key : string) (e : AuditEntry) (now : Z) (t : AuditTables).
Context (HF : Fine e) (HK : Kept t).
Definition written : AuditTables := (writeTaskAuditCache (Some task) key e now t).2.
Definition attempt_of : AuditAttempt :=
  {| at_id := au_last t + 1; at_task := task; at_key := key; at_text := stringify (entry_value e); at_ms := now |}.
Lemma write_ok : writeTaskAuditCache (Some task) key e now t = (Ok tt, written).
Proof. unfold written, writeTaskAuditCache. by rewrite (parse_entry_value e HF). Qed.
Definition keep (a : AuditAttempt) : bool :=
  negb (of_key task key a) || bool_decide (at_id a ∈ map at_id (take 100 (filter (fun a => of_key task key a = true) (reverse (au_history t ++ [attempt_of]))))).
Lemma written_history : au_history written = filter (fun a => keep a = true) (au_history t ++ [attempt_of]).
Proof. unfold written, writeTaskAuditCache. by rewrite (parse_entry_value e HF). Qed.
Lemma grown_sorted : StronglySorted N.lt (map at_id (au_history t ++ [attempt_of])).
Proof.
  apply attempt_ids_snoc; [apply HK|]. eapply Forall_impl; [apply (ke_last _ HK)|]. intros a H. cbn in *. lia.
Qed.
Lemma own_attempts : attempts task key written = take 100 (attempt_of :: attempts task key t).
Proof.
  unfold attempts. rewrite written_history, <- filter_reverse, filter_both.
  assert (E : filter (fun a => of_key task key a = true) (reverse (au_history t ++ [attempt_of])) =
    attempt_of :: filter (fun a => of_key task key a = true) (reverse (au_history t))).
  { rewrite reverse_app, filter_app. cbn. rewrite decide_True; [done|]. unfold of_key. cbn. by rewrite !String.eqb_refl. }
  rewrite <- E. apply filter_first; [apply nodup_attempts, grown_sorted|]. apply Forall_forall. intros a [Ha _]%list_elem_of_filter.
  unfold keep. rewrite Ha. cbn [negb orb]. apply bool_decide_eq_true.
Qed.
Lemma other_attempts task' key' : (task', key') <> (task, key) -> attempts task' key' written = attempts task' key' t.
Proof.
  intros Hne. assert (Hk : forall a, of_key task' key' a = true -> of_key task key a = false).
  { intros a. unfold of_key. rewrite andb_true_iff, !String.eqb_eq, andb_false_iff, !String.eqb_neq. intros [-> ->].
    destruct (decide (task' = task)) as [->|]; [right|by left]. congruence. }
  unfold attempts. rewrite written_history, <- filter_reverse, filter_both.
  assert (E : filter (fun a => of_key task' key' a = true) (reverse (au_history t ++ [attempt_of])) = filter (fun a => of_key task' key' a = true) (reverse (au_history t))).
  { rewrite reverse_app, filter_app. cbn. rewrite decide_False; [done|]. intros H%Hk. unfold of_key in H. cbn in H. by rewrite !String.eqb_refl in H. }
  rewrite E, list_filter_filter. apply list_filter_iff. intros a. split; [by intros [_ ?]|]. intros Ha. split; [|done].
  unfold keep. by rewrite (Hk _ Ha).
Qed.
Lemma written_kept : Kept written.
Proof.
  constructor.
  - rewrite written_history. apply sorted_filtered, grown_sorted.
  - rewrite written_history. assert (au_last written = (au_last t + 1)%N) as ->.
    { unfold written, writeTaskAuditCache. by rewrite (parse_entry_value e HF). }
    apply Forall_forall. intros a [_ [Ha|Ha%list_elem_of_singleton]%elem_of_app]%list_elem_of_filter; [|by subst].
    pose proof (ke_last _ HK) as Hl. rewrite Forall_forall in Hl. specialize (Hl _ Ha). cbn in Hl. lia.
  - intros task' key'. destruct (decide ((task', key') = (task, key))) as [[= -> ->]|Hne].
    + rewrite own_attempts, length_take. lia.
    + rewrite other_attempts by done. apply HK.
Qed.
End Written.
(** C13: The audit tables give back what was written: an entry the schema accepts is, after its JSON text, what the task reads back
    as the latest and as the first of its history; a key keeps its hundred latest attempts in order, other keys keep theirs, and a
    session without a task, or an entry the schema refuses, writes nothing. *)
Theorem audit_cache_reads_back value e task key now t limit : parseAuditEvidenceEntry value = Some e -> Kept t ->
  exists t', writeTaskAuditCache (Some task) key e now t = (Ok tt, t') /\ Kept t' /\
    readTaskAuditCache (Some task) key t' = Some e /\
    head (readTaskAuditHistory (Some task) key limit t') = Some (e, now) /\
    attempts task key t' = take 100 ({| at_id := au_last t + 1; at_task := task; at_key := key; at_text := stringify (entry_value e); at_ms := now |} :: attempts task key t) /\
    (forall task' key', (task', key') <> (task, key) ->
       attempts task' key' t' = attempts task' key' t /\ readTaskAuditCache (Some task') key' t' = readTaskAuditCache (Some task') key' t) /\
    exists err, writeTaskAuditCache None key e now t = (Err err, t).
Proof.
  intros HF%parsed_fine HK. exists (written task key e now t).
  assert (Hl : au_latest (written task key e now t) = <[(task, key) := stringify (entry_value e)]> (au_latest t)).
  { unfold written, writeTaskAuditCache. by rewrite (parse_entry_value e HF). }
  split; [by apply write_ok|]. split; [by apply written_kept|]. split.
  { cbn. unfold readTaskAuditCacheForTask. rewrite Hl, lookup_insert_eq. by apply decode_entry. }
  split.
  { cbn. unfold readTaskAuditHistoryForTask. rewrite own_attempts by done.
    destruct (Nat.max 1 (Nat.min 100 limit)) as [|n] eqn:En; [lia|]. cbn [take omap list_omap attempt_of at_text at_ms]. rewrite (decode_entry e HF). done. }
  split; [by apply own_attempts|]. split.
  - intros task' key' Hne. split; [by apply other_attempts|]. cbn. unfold readTaskAuditCacheForTask. rewrite Hl, lookup_insert_ne; [done|]. congruence.
  - unfold writeTaskAuditCache. rewrite (parse_entry_value e HF). eauto.
Qed.
