(* ===== verification/ObservedActor.v ===== *)
(** * The observed actor ([src/src/runtime/loop/v2_observed_actor.ts], [guard_evaluator.ts], [runtime/skill/state_skills.ts])

    A cartridge watches the events of a session: an event that the current
    gate waits for runs the dispatch of [LoopDriver] from that state and chains
    decisions up to the next gate.  Nothing is applied here; what the host must
    apply is returned as effects.  Guards are the conditions of the pack's
    registry, evaluated on the bindings of the event's context. *)

From Stdlib Require Import Ascii String.
From stdpp Require Import base option list strings gmap.
From S2P Require Import Prelude Fsm FsmTree FsmProps PackCompile Guard LoopDriver LoopProps ExprSyntax ExprEval Evaluator.
#[local] Open Scope os_scope.

(** ** Guards *)
(** [RegistryGuardEvaluator] and the context of one evaluation; the parse
    cache never changes a condition. *)
Record GuardWorld := { gw_exprs : list (string * string); gw_ctx : gmap string Value }.
Definition GuardCtx : Type := gmap string Value.

Section Guards.
Context `{Re : Re2}.
Definition RegistryGuardEvaluator_eval (guardRef : string) (w : GuardWorld) : result string bool :=
  match obj_get guardRef (gw_exprs w) with
  | None => Err ("FAC-CUT.2: no guard expression for ref '" +:+ guardRef +:+ "'")
  | Some expr => Ok (evalCondition expr (gw_ctx w) tt).1
  end.

(** The dispatch on this evaluator; no executor is ever connected here. *)
#[export] Instance registry_guards : Environment GuardWorld Empty_set := {|
  ensureExecutor _ _ := Err "";
  exec_next e w := (None, w);
  guard_eval ref w := match RegistryGuardEvaluator_eval ref w with Ok b => b | Err _ => false end;
|}.

(** The evaluator throws where the dispatch first asks for a condition that
    the registry does not have. *)
Fixpoint dangling_branch (branches : list DecisionBranch) (w : GuardWorld) : option string :=
  match branches with
  | BGuard guard _ :: rest =>
      match RegistryGuardEvaluator_eval guard w with
      | Err x => Some x
      | Ok true => None
      | Ok false => dangling_branch rest w
      end
  | _ => None
  end.
Definition dangling (m : StateMeta) (w : GuardWorld) : option string :=
  match m_kind m with
  | KGate => match RegistryGuardEvaluator_eval (default "" (m_guard m)) w with Err x => Some x | Ok _ => None end
  | KDecision => dangling_branch (default [] (m_branches m)) w
  | _ => None
  end.
Definition dispatch (fsm : Fsm) (cur : string) (m : StateMeta) (w : GuardWorld) : result string DriverStep :=
  match dangling m w with
  | Some x => Err x
  | None => match m_kind m with KGate => evalGate fsm cur m w | _ => evalDecision fsm cur m w end
  end.
End Guards.

(** ** The actor *)
Definition MAX_CHAIN : nat := N.to_nat 10000.

Inductive ActorEffect :=
| WriteState (state : string)
| TransitionOf (from to : string)
| GateAction (action : FailAction) (failureType message : string).

Record ActorState := { as_current : string; as_history : list string; as_wedged : option string }.
Record ObservedActor := { oa_addr : string; oa_fsm : Fsm; oa_meta : list (string * StateMeta);
                          oa_exprs : list (string * string); oa_state : ActorState }.
Definition at_initial (fsm : Fsm) : ActorState := {| as_current := fsm_initial fsm; as_history := []; as_wedged := None |}.

Definition newActor (addr : string) (compiled : CompiledMachine) : result string ObservedActor :=
  match cm_fsm compiled with
  | None => Err "V2ObservedActor: pack has no fsm (not a behavior-form cartridge)"
  | Some fsm => Ok {| oa_addr := addr; oa_fsm := fsm; oa_meta := cm_meta compiled;
                      oa_exprs := default [] (cm_guardExprs compiled); oa_state := at_initial fsm |}
  end.
Definition set_state (st : ActorState) (a : ObservedActor) : ObservedActor :=
  {| oa_addr := oa_addr a; oa_fsm := oa_fsm a; oa_meta := oa_meta a; oa_exprs := oa_exprs a; oa_state := st |}.
Definition subscribe (a : ObservedActor) : list string :=
  set_of (flat_map (fun km => default [] (m_trigger km.2)) (oa_meta a)).
Definition restart (a : ObservedActor) : ObservedActor := set_state (at_initial (oa_fsm a)) a.
Definition toWedge (reason : string) (a : ObservedActor) : ObservedActor :=
  set_state {| as_current := as_current (oa_state a); as_history := as_history (oa_state a); as_wedged := Some reason |} a.
(** [this.state.current = seededState] of the host. *)
Definition seed (state : string) (a : ObservedActor) : ObservedActor :=
  set_state {| as_current := state; as_history := as_history (oa_state a); as_wedged := as_wedged (oa_state a) |} a.

Definition gateFail (state : string) (action : FailAction) (message : string) : ActorEffect := GateAction action state message.

Section Receive.
Context `{Re : Re2}.
Definition awaits (m : option StateMeta) (kind : string) : bool :=
  match m with
  | Some m => bool_decide (m_kind m = KGate) && negb (set_has kind (default [] (m_trigger m)))
  | None => false
  end.
Definition is_gate (m : option StateMeta) : bool :=
  match m with Some m => bool_decide (m_kind m = KGate) | None => false end.
(** What one advance adds to the effects. *)
Definition advance_effects (cur next : string) (notice : option string) : list ActorEffect :=
  [WriteState next; TransitionOf cur next] ++ match notice with Some n => [gateFail cur FWarn n] | None => [] end.
(** The loop over the chain: the effects and visited states it adds, and where
    it ends, or the exception. *)
Record ChainEnd := { ce_effects : list ActorEffect; ce_history : list string; ce_state : result string string }.
Definition stays (cur : string) (effects : list ActorEffect) : ChainEnd := {| ce_effects := effects; ce_history := []; ce_state := Ok cur |}.
Definition after_step (effects : list ActorEffect) (cur : string) (e : ChainEnd) : ChainEnd :=
  {| ce_effects := effects ++ ce_effects e; ce_history := cur :: ce_history e; ce_state := ce_state e |}.
Fixpoint chain (n : nat) (a : ObservedActor) (ctx : GuardCtx) (cur : string) : ChainEnd :=
  match n with
  | 0 => stays cur []
  | S n =>
      match obj_get cur (oa_meta a) with
      | None => {| ce_effects := []; ce_history := []; ce_state := Err ("V2ObservedActor: no meta for state '" +:+ cur +:+ "'") |}
      | Some m =>
          match m_kind m with
          | KGate | KDecision =>
              match dispatch (oa_fsm a) cur m {| gw_exprs := oa_exprs a; gw_ctx := ctx |} with
              | Err x => {| ce_effects := []; ce_history := []; ce_state := Err x |}
              | Ok (ActionStep action message) => stays cur [gateFail cur action message]
              | Ok (OutcomeStep _ _) => stays cur []
              | Ok (Advance next notice) =>
                  after_step (advance_effects cur next notice) cur
                    (if is_gate (obj_get next (oa_meta a)) then stays next [] else chain n a ctx next)
              end
          | _ => stays cur []
          end
      end
  end.
(** A throw loses the effects, and keeps the states it pushed. *)
Definition receive (kind : string) (ctx : GuardCtx) (a : ObservedActor) : result string (list ActorEffect) * ObservedActor :=
  let cur := as_current (oa_state a) in
  if awaits (obj_get cur (oa_meta a)) kind then (Ok [], a)
  else
    let e := chain MAX_CHAIN a ctx cur in
    let moved state := set_state {| as_current := state; as_history := as_history (oa_state a) ++ ce_history e; as_wedged := as_wedged (oa_state a) |} a in
    match ce_state e with
    | Ok state => (Ok (ce_effects e), moved state)
    | Err x => (Err x, moved cur)
    end.
End Receive.

(** ** Skills by state *)
(** What the host binds for a state; [InMemorySkillRuntime]. *)
Record SkillRuntime := { sr_bound : list string; sr_executor : option string }.
Definition InMemorySkillRuntime : SkillRuntime := {| sr_bound := []; sr_executor := None |}.
Definition bindSkills (skills : list string) (r : SkillRuntime) : SkillRuntime := {| sr_bound := skills; sr_executor := sr_executor r |}.
Definition bindExecutor (executor : string) (r : SkillRuntime) : SkillRuntime := {| sr_bound := sr_bound r; sr_executor := Some executor |}.
Definition unloadSkills (r : SkillRuntime) : SkillRuntime := {| sr_bound := []; sr_executor := None |}.
Definition onStateEntry (state : string) (meta : list (string * StateMeta)) (r : SkillRuntime) : result string SkillRuntime :=
  match obj_get state meta with
  | None => Err ("SKILL.1: no meta for state '" +:+ state +:+ "'")
  | Some m =>
      let r := bindSkills (m_skills m) r in
      Ok (match m_executor m with Some executor => bindExecutor executor r | None => r end)
  end.
Definition onStateLeave (_ : string) (r : SkillRuntime) : SkillRuntime := unloadSkills r.

(** ** Properties: a walk along the authored flow *)
Section Walks.
Context `{Re : Re2} (f : FsmV2).

Definition kind_at (k : string) : option StateKind := kind_of <$> obj_get k (f2_states f).
Definition dispatched (k : string) : bool := match kind_at k with Some KGate | Some KDecision => true | _ => false end.
(** The authored flow, walked from [k] for at most [n] steps: the effects on
    the way, the states passed and the state it ends in. *)
Inductive Walk (w : GuardWorld) : nat -> string -> list ActorEffect -> list string -> string -> Prop :=
| walk_rest n k : dispatched k = false -> Walk w n k [] [] k
| walk_cap k : Walk w 0 k [] [] k
| walk_held n k s action message : obj_get k (f2_states f) = Some s -> dispatched k = true ->
    dispatch_spec f k s w (ActionStep action message) -> action <> FWarn ->
    Walk w (S n) k [GateAction action k message] [] k
| walk_gate n k s next notice : obj_get k (f2_states f) = Some s -> dispatched k = true ->
    dispatch_spec f k s w (Advance next notice) -> kind_at next = Some KGate ->
    Walk w (S n) k (advance_effects k next notice) [k] next
| walk_on n k s next notice es h last : obj_get k (f2_states f) = Some s -> dispatched k = true ->
    dispatch_spec f k s w (Advance next notice) -> kind_at next <> Some KGate ->
    Walk w n next es h last -> Walk w (S n) k (advance_effects k next notice ++ es) (k :: h) last.

(** Along the edges into decisions something descends, so no cycle consists
    of decisions only. *)
Definition decisions_descend (rank : string -> nat) : Prop :=
  forall k e t, dispatched k = true -> t ∈ f2_transitions f -> leaves_on k e t ->
    kind_at (tr_to t) = Some KDecision -> rank (tr_to t) < rank k.
Lemma advance_edge k s (w : GuardWorld) next notice : obj_get k (f2_states f) = Some s -> dispatched k = true ->
  dispatch_spec f k s w (Advance next notice) -> exists e t, t ∈ f2_transitions f /\ leaves_on k e t /\ next = tr_to t.
Proof.
  unfold dispatched, kind_at. intros Hs. rewrite Hs. destruct s; cbn; try done; intros _.
  - case_match; [|done]. intros (t & ? & ? & [= -> _]). eauto.
  - intros (b & t & _ & ? & ? & [= -> _]). eauto.
Qed.
Lemma walk_rests rank w n k es h last : Walk w n k es h last -> decisions_descend rank -> rank k < n -> kind_at last <> Some KDecision.
Proof.
  intros Hw Hd. induction Hw as [n k Hk|k|n k s a m Hs Hk Hsp Ha|n k s nx nt Hs Hk Hsp Hg|n k s nx nt es h last Hs Hk Hsp Hg Hw IH]; intros Hr.
  - intros E. unfold dispatched in Hk. by rewrite E in Hk.
  - lia.
  - unfold dispatched, kind_at in *. rewrite Hs in *. destruct s; cbn in *; try done. destruct Hsp as (? & ? & ? & ? & ? & ?). congruence.
  - congruence.
  - destruct (decide (kind_at nx = Some KDecision)) as [Hn|Hn].
    + apply IH. destruct (advance_edge _ _ _ _ _ Hs Hk Hsp) as (e & t & Ht & Hl & ->).
      pose proof (Hd _ _ _ Hk Ht Hl Hn). lia.
    + assert (dispatched nx = false) as Hnd by (unfold dispatched in *; destruct (kind_at nx) as [[]|]; congruence).
      inversion Hw; subst; congruence.
Qed.
End Walks.

(** ** A compiled cartridge *)
Section Compiled.
Context `{Re : Re2} (pack : PackV2) (f : FsmV2) (c : CompiledPack).
Context (Hk : pack_keys_ok pack) (Hf : pk_fsm pack = Some f) (Hc : compilePackV2 pack = Ok c).
Context (Hn : flat_names_ok (engineFsm f) = true) (Hr : locally_routed f).
Context (Ht : Forall (fun ks => stateTotal ks.2 = true) (f2_states f)).

(** The actor of the pack, in whatever state the host seeded it. *)
Definition actor_of (st : ActorState) : ObservedActor :=
  {| oa_addr := "pack:" +:+ pk_name pack; oa_fsm := engineFsm f; oa_meta := cm_meta (cp_machine c); oa_exprs := pk_guards pack; oa_state := st |}.
Lemma compiled_sound : machine_sound (pk_guards pack) (pk_automation pack) f (cp_machine c).
Proof. apply (compilePackV2_machine _ _ _ Hk Hf Hc). Qed.
Lemma compiled_exprs : cm_guardExprs (cp_machine c) = Some (pk_guards pack).
Proof.
  pose proof Hc as H. unfold compilePackV2 in H. apply bind_ok in H as (m & Hm & H).
  assert (cm_guardExprs m = Some (pk_guards pack)) as Hg.
  { rewrite Hf in Hm. unfold compileMachine in Hm. case_bool_decide; [|done]. apply bind_ok in Hm as ([] & _ & Hm).
    case_bool_decide; [|done]. destruct (List.find _ _); [done|]. by injection Hm as <-. }
  destruct (pk_flows pack); [|by injection H as <-].
  apply bind_ok in H as (? & _ & H). apply bind_ok in H as (? & _ & H). by injection H as <-.
Qed.
Lemma actor_new : newActor ("pack:" +:+ pk_name pack) (cp_machine c) = Ok (actor_of (at_initial (engineFsm f))).
Proof. unfold newActor. rewrite (ms_fsm _ _ _ _ compiled_sound), compiled_exprs. done. Qed.
Lemma meta_at k : obj_get k (cm_meta (cp_machine c)) =
  (fun s => stateMeta (set_has k (set_of (match pk_automation pack with Some a => au_stages a | None => [] end))) s) <$> obj_get k (f2_states f).
Proof. apply (ms_meta _ _ _ _ compiled_sound). Qed.
Lemma is_gate_at k : is_gate (obj_get k (cm_meta (cp_machine c))) = bool_decide (kind_at f k = Some KGate).
Proof.
  rewrite meta_at. unfold kind_at. destruct (obj_get k (f2_states f)) as [s|]; cbn; [|done].
  rewrite stateMeta_kind. apply bool_decide_ext. split; congruence.
Qed.
Lemma ref_known ref w : ref ∈ guardRefs (f2_states f) -> gw_exprs w = pk_guards pack -> exists b, RegistryGuardEvaluator_eval ref w = Ok b.
Proof.
  intros [expr He]%(ms_guards _ _ _ _ compiled_sound) Hw. unfold RegistryGuardEvaluator_eval. rewrite Hw, He. eauto.
Qed.
Lemma no_dangling_branch bs w : (forall g e, BGuard g e ∈ bs -> exists b, RegistryGuardEvaluator_eval g w = Ok b) -> dangling_branch bs w = None.
Proof.
  induction bs as [|[g e|e] bs IH]; intros H; [done| |done]. cbn. destruct (H g e ltac:(by left)) as [[] ->]; [done|].
  apply IH. intros. eapply H. by right.
Qed.
Lemma dispatched_state k : dispatched f k = true -> exists s, obj_get k (f2_states f) = Some s /\ (k, s) ∈ f2_states f.
Proof.
  unfold dispatched, kind_at. destruct (obj_get k (f2_states f)) as [s|] eqn:E; [|done]. intros _. exists s. split; [done|].
  by apply obj_get_elem.
Qed.
(** One dispatch never throws and does what the flow says. *)
Lemma dispatch_ok k s auto (w : GuardWorld) : obj_get k (f2_states f) = Some s -> dispatched f k = true -> gw_exprs w = pk_guards pack ->
  exists d, dispatch (engineFsm f) k (stateMeta auto s) w = Ok d /\ dispatch_spec f k s w d /\
    match d with Advance _ _ => True | ActionStep a _ => a <> FWarn | OutcomeStep _ _ => False end.
Proof.
  intros Hs Hd Hw. pose proof (obj_get_elem _ _ _ Hs) as Hin. pose proof (ms_valid _ _ _ _ compiled_sound) as Hv.
  unfold dispatched, kind_at in Hd. rewrite Hs in Hd. unfold dispatch, dangling. rewrite stateMeta_kind.
  destruct s as [| g | bs | |o]; cbn in Hd; try done; cbn [kind_of].
  - destruct (ref_known (g_guard g) w) as [b Hb]; [|done|].
    { apply list_elem_of_In, in_flat_map. exists (k, GateS g). split; [by apply list_elem_of_In|by left]. }
    assert (Hge : guard_eval (g_guard g) w = b) by (change (guard_eval (g_guard g) w) with (match RegistryGuardEvaluator_eval (g_guard g) w with Ok b => b | Err _ => false end); by rewrite Hb).
    unfold dispatch_spec, evalGate, advanceFrom, emitOf. cbn [stateMeta m_guard m_emits m_onFail default from_option id]. rewrite Hb, Hge.
    destruct (transitionOn_routed f k (GateS g) (g_on_pass_emits g) Hn Hv Hr Hin ltac:(by left)) as (t & Ht1 & Ht2 & Ht3).
    cbn [mbind result_bind]. rewrite Ht3. destruct b; cbn; [eauto 10|].
    destruct (of_action (g_on_fail g)) eqn:Ea; cbn; (eexists; split; [reflexivity|]); (split; [|done]); case_bool_decide; try done; eauto 10.
  - assert (Htot : stateTotal (DecisionS bs) = true) by (rewrite Forall_forall in Ht; apply (Ht _ Hin)).
    cbn [stateMeta m_branches default].
    rewrite no_dangling_branch.
    2: { intros g e Hge. apply ref_known; [|done]. apply list_elem_of_In, in_flat_map. exists (k, DecisionS bs).
         split; [by apply list_elem_of_In|]. cbn. apply in_flat_map. exists (BGuard g e). split; [by apply list_elem_of_In|by left]. }
    unfold evalDecision. cbn. rewrite evalBranches_first.
    destruct (stateTotal_taken bs w Htot) as [b Hb]. rewrite Hb.
    destruct (transitionOn_routed f k (DecisionS bs) (branch_emits b) Hn Hv Hr Hin) as (t & Ht1 & Ht2 & Ht3).
    { cbn. apply List.find_some in Hb as [Hb _]. apply list_elem_of_fmap. exists b. by rewrite list_elem_of_In. }
    rewrite Ht3. cbn. eexists. split; [reflexivity|]. split; [|done]. eauto 10.
Qed.
Lemma advance_declared (w : GuardWorld) k s next notice : obj_get k (f2_states f) = Some s -> dispatched f k = true ->
  dispatch_spec f k s w (Advance next notice) -> is_Some (obj_get next (f2_states f)).
Proof.
  intros Hs Hd Hsp. destruct (advance_edge f k s w next notice Hs Hd Hsp) as (e & t & Hin & _ & ->).
  apply list_elem_of_lookup in Hin as [i Hi].
  destruct (validateFsm_targets (engineFsm f) i t (ms_valid _ _ _ _ compiled_sound) Hi) as [Hto _].
  by apply obj_get_is_Some.
Qed.
Lemma chain_walks n st ctx k : is_Some (obj_get k (f2_states f)) ->
  let e := chain n (actor_of st) ctx k in
  exists last, ce_state e = Ok last /\ is_Some (obj_get last (f2_states f)) /\
    Walk f {| gw_exprs := pk_guards pack; gw_ctx := ctx |} n k (ce_effects e) (ce_history e) last.
Proof.
  cbn zeta. revert k. induction n as [|n IH]; intros k [s Hs]; cbn [chain].
  { exists k. rewrite Hs. split_and!; [done|by eexists|apply walk_cap]. }
  cbn [actor_of oa_meta oa_fsm oa_exprs]. rewrite meta_at, Hs. cbn [fmap option_fmap option_map]. rewrite stateMeta_kind.
  destruct (dispatched f k) eqn:Ed.
  - destruct (dispatch_ok k s (set_has k (set_of match pk_automation pack with Some a => au_stages a | None => [] end))
      {| gw_exprs := pk_guards pack; gw_ctx := ctx |} Hs Ed eq_refl) as (d & Hd & Hsp & Hk').
    pose proof Ed as Ed'. unfold dispatched, kind_at in Ed'. rewrite Hs in Ed'. cbn in Ed'. rewrite Hd.
    destruct (kind_of s) eqn:Ek; try done; (destruct d as [next notice|a text|]; [| |done]).
    all: try (exists k; cbn; rewrite Hs; split_and!; [done|by eexists|by eapply walk_held]).
    all: pose proof (advance_declared _ _ _ _ _ Hs Ed Hsp) as Hnext.
    all: cbn [after_step ce_state ce_effects ce_history]; change (oa_meta (actor_of st)) with (cm_meta (cp_machine c)) in *; rewrite is_gate_at; case_bool_decide as Hg.
    all: try (exists next; cbn [stays ce_state ce_effects ce_history]; rewrite app_nil_r; split_and!; [done|done|by eapply walk_gate]).
    all: destruct (IH next Hnext) as (last & H1 & H2 & H3); exists last; split_and!; [done|done|by eapply walk_on].
  - exists k. pose proof Ed as Ed'. unfold dispatched, kind_at in Ed'. rewrite Hs in Ed'. cbn in Ed'.
    destruct (kind_of s) eqn:Ek; try done; (rewrite Hs; split_and!; [done|by eexists|by apply walk_rest]).
Qed.
End Compiled.

(** C9: A watched cartridge moves only along its authored flow.  Take a pack that compiles, with states of distinct names free of
    the path separator, decisions that end in their one else branch, and every emitted event carried by a transition that leaves
    the emitting state for another (compiling alone does not give the last, a transition of any state is enough for it), and an
    actor at a declared state.  On an event it never throws; if its gate does not wait for the event nothing happens, and
    otherwise what it returns is a walk of at most ten thousand authored steps - a gate whose condition fails enforces and stays,
    or warns and advances, a gate or decision advances on the edge of its condition - to the state the actor is then in, a
    declared state, which is no decision when a rank below ten thousand descends along the edges into decisions. *)
Theorem observed_actor_walks `{Re : Re2} pack f c kind ctx st :
  pack_keys_ok pack -> pk_fsm pack = Some f -> compilePackV2 pack = Ok c -> flat_names_ok (engineFsm f) = true -> locally_routed f ->
  Forall (fun ks => stateTotal ks.2 = true) (f2_states f) -> is_Some (obj_get (as_current st) (f2_states f)) ->
  newActor ("pack:" +:+ pk_name pack) (cp_machine c) = Ok (actor_of pack f c (at_initial (engineFsm f))) /\
  exists es h last, is_Some (obj_get last (f2_states f)) /\
    receive kind ctx (actor_of pack f c st) =
      (Ok es, actor_of pack f c {| as_current := last; as_history := as_history st ++ h; as_wedged := as_wedged st |}) /\
    if awaits (obj_get (as_current st) (cm_meta (cp_machine c))) kind then es = [] /\ h = [] /\ last = as_current st
    else Walk f {| gw_exprs := pk_guards pack; gw_ctx := ctx |} MAX_CHAIN (as_current st) es h last /\
      forall rank, decisions_descend f rank -> rank (as_current st) < MAX_CHAIN -> kind_at f last <> Some KDecision.
Proof.
  intros Hk Hf Hc Hn Hr Ht Hs. split; [by apply actor_new|].
  unfold receive. cbn [actor_of oa_state oa_meta]. destruct (awaits _ kind).
  { exists [], [], (as_current st). split_and!; [done| |done..]. rewrite app_nil_r. by destruct st. }
  destruct (chain_walks pack f c Hk Hf Hc Hn Hr Ht MAX_CHAIN st ctx (as_current st) Hs) as (last & -> & Hl & Hw).
  exists (ce_effects (chain MAX_CHAIN (actor_of pack f c st) ctx (as_current st))), (ce_history (chain MAX_CHAIN (actor_of pack f c st) ctx (as_current st))), last.
  split_and!; [done|done|done|]. intros rank Hd Hrank. by eapply walk_rests.
Qed.
