(* ===== verification/SessionFacts.v ===== *)
(** * What a session has recorded ([src/src/runtime/workflow_phases.ts], [coverage/captured_ask.ts], [loop/readiness.ts],
      [loop/external_consult.ts], [loop/verification.ts], [loop/acceptance.ts], [loop/code_evidence.ts], [loop/deploy_evidence.ts])

    Small files of a session, one per kind of fact and task, and what the gates
    make of them.  Every reader takes a file that is absent and one that is not
    JSON alike, so a file is its parsed value or missing.  Evidence about the
    item an automated process is assigned is kept for the task as well, where
    a later session finds it. *)

From Stdlib Require Import Ascii String.
From stdpp Require Import base option list strings gmap pretty.
From S2P Require Import Prelude Json ExprSyntax Regex Safety.
#[local] Open Scope os_scope.

Record Facts := {
  fx_files : gmap string Json;                  (* session state files, by key *)
  fx_durable : gmap (string * string) Json;     (* task_runtime_state, by task and key *)
  fx_acceptance : list (string * (string * string));   (* fsf-acceptance.jsonl: id, task, status *)
}.
Definition no_facts : Facts := {| fx_files := ∅; fx_durable := ∅; fx_acceptance := [] |}.
Definition put_file (key : string) (v : Json) (s : Facts) : Facts :=
  {| fx_files := <[key := v]> (fx_files s); fx_durable := fx_durable s; fx_acceptance := fx_acceptance s |}.
Definition put_durable (task key : string) (v : Json) (s : Facts) : Facts :=
  {| fx_files := fx_files s; fx_durable := <[(task, key) := v]> (fx_durable s); fx_acceptance := fx_acceptance s |}.
Definition member (k : string) (v : Json) : option Json := match v with JObj o => obj_get k o | _ => None end.
Definition text_value (v : Json) : option string := match v with JStr s => Some s | _ => None end.
Definition is_true (v : option Json) : bool := match v with Some (JBool true) => true | _ => false end.

(** ** The phase ledger *)
Definition REQUIRED_PHASES : list string := ["pre_research"; "learn"; "code"; "test"; "audit"; "post_research"; "fix"].
Definition PHASES_KEY : string := "workflow.phases_logged".
Record PhaseState := { ps_task_id : string; ps_phases : list string }.
Definition readPhaseState (s : Facts) : option PhaseState :=
  v ← fx_files s !! PHASES_KEY;
  task ← member "task_id" v ≫= text_value;
  match member "phases" v with
  | Some (JArr l) => Some {| ps_task_id := task; ps_phases := omap text_value l |}
  | _ => None
  end.
Definition writePhaseState (p : PhaseState) : Facts -> Facts :=
  put_file PHASES_KEY (JObj [("task_id", JStr (ps_task_id p)); ("phases", JArr (map JStr (ps_phases p)))]).
Definition appendPhase (taskId phase : string) (s : Facts) : PhaseState * Facts :=
  let state := match readPhaseState s with
               | Some prev => if (ps_task_id prev =? taskId)%string then prev else {| ps_task_id := taskId; ps_phases := [] |}
               | None => {| ps_task_id := taskId; ps_phases := [] |}
               end in
  let state := if set_has phase (ps_phases state) then state else {| ps_task_id := taskId; ps_phases := ps_phases state ++ [phase] |} in
  (state, writePhaseState state s).
Definition isComplete (state : option PhaseState) (activeTaskId : string) : bool :=
  match state with
  | None => false
  | Some st => (ps_task_id st =? activeTaskId)%string && forallb (fun p => set_has p (ps_phases st)) REQUIRED_PHASES
  end.

(** ** The captured ask *)
Definition CAPTURED_ASK_KEY : string := "captured-ask-coding-flow".
Definition MAX_ASK : N := 64000.
Record CapturedAsk := { ca_turns : list string; ca_frozen : bool }.
Definition empty_ask : CapturedAsk := {| ca_turns := []; ca_frozen := false |}.
Definition ask_value (a : CapturedAsk) : Json := JObj [("turns", JArr (map JStr (ca_turns a))); ("frozen", JBool (ca_frozen a))].
Definition readCapturedAsk (s : Facts) : CapturedAsk :=
  default empty_ask (
    v ← fx_files s !! CAPTURED_ASK_KEY;
    match member "turns" v, member "frozen" v with
    | Some (JArr l), Some (JBool frozen) => turns ← mapM text_value l; Some {| ca_turns := turns; ca_frozen := frozen |}
    | _, _ => None
    end).
(** Lengths are those of the texts, which are bytes here. *)
Definition total_length (turns : list string) : N := foldr (fun t n => (N.of_nat (String.length t) + n)%N) 0%N turns.
Definition appendAsk (prompt : string) (s : Facts) : result string unit * Facts :=
  let current := readCapturedAsk s in
  if ca_frozen current then (Ok tt, s)
  else if set_has prompt (ca_turns current) then (Ok tt, s)
  else
    let turns := ca_turns current ++ [prompt] in
    let total := total_length turns in
    if (MAX_ASK <? total)%N
    then (Err ("captured-ask over cap (" +:+ pretty total +:+ " > " +:+ pretty MAX_ASK +:+ " chars) — refusing to truncate the drift anchor"), s)
    else (Ok tt, put_file CAPTURED_ASK_KEY (ask_value {| ca_turns := turns; ca_frozen := false |}) s).
Definition freezeAsk (s : Facts) : Facts :=
  let current := readCapturedAsk s in
  if ca_frozen current then s else put_file CAPTURED_ASK_KEY (ask_value {| ca_turns := ca_turns current; ca_frozen := true |}) s.
Definition resetAsk : Facts -> Facts := put_file CAPTURED_ASK_KEY (ask_value empty_ask).

(** ** Readiness *)
(** The patterns with their [source] texts. *)
Definition DEPRECATED : list (string * re) := [
  ("\bsubstr\(", cat [Boundary; lit "substr("]);
  ("\bnew Buffer\(", cat [Boundary; lit "new Buffer("]);
  ("\.componentWillMount\b", cat [lit ".componentWillMount"; Boundary])].
Definition scanDeprecated (text : string) : list string := map fst (List.filter (fun d => re_test d.2 text) DEPRECATED).
Definition SOURCE_EXT : re :=
  cat [lit "."; any_of (map lit ["ts"; "tsx"; "js"; "jsx"; "mjs"; "cjs"; "py"; "go"; "rs"; "java"; "rb"; "php"; "vue"; "svelte"; "astro"]); Eol].
(** [git diff --cached --name-only] and [git show :path] in a directory; [None] is a failing command. *)
Class Git := { staged_names : string -> option string; staged_text : string -> string -> option string }.
Definition staged_files `{Git} (ext : re) (cwd : string) : list string :=
  match staged_names cwd with
  | None => []
  | Some stdout => List.filter (fun p => negb (p =? "")%string && re_test ext (toLowerCase p)) (map trim (split_char "010"%char stdout))
  end.
Definition gatherReadiness `{Git} (cwd : string) : list string :=
  set_of (flat_map (fun f => match staged_text cwd f with Some content => scanDeprecated content | None => [] end) (staged_files SOURCE_EXT cwd)).
Definition readinessKey (taskId : string) : string := "fsf-readiness-" +:+ taskId.
Definition recordReadiness (taskId : string) (deprecated : list string) : Facts -> Facts :=
  put_file (readinessKey taskId) (JObj [("ran", JBool true); ("deprecated", JArr (map JStr deprecated))]).
Record ReadinessResult := { rr_ran : bool; rr_deprecatedClean : bool }.
(** A value whose members cannot be read ([null]) throws, and so reads as not run. *)
Definition readinessResult (taskId : string) (s : Facts) : ReadinessResult :=
  match fx_files s !! readinessKey taskId with
  | None | Some JNull => {| rr_ran := false; rr_deprecatedClean := false |}
  | Some v => {| rr_ran := is_true (member "ran" v);
                 rr_deprecatedClean := match member "deprecated" v with Some (JArr (_ :: _)) => false | _ => true end |}
  end.

(** ** External consultation *)
Inductive ConsultWindow := before | after.
Record ExternalConsult := { ec_before : bool; ec_after : bool }.
Definition CORE_EXTERNAL_TOOLS : list string := ["WebSearch"; "WebFetch"].
(** [/(?:^|_)(?:web_?fetch|web_?search|fetch)$/i] *)
Definition EXTERNAL_TOOL : re :=
  cat [Alt (NotAfter (fun _ => true)) (lit "_");
       any_of [cat [lit "web"; opt (lit "_"); lit "fetch"]; cat [lit "web"; opt (lit "_"); lit "search"]; lit "fetch"]; Eol].
Definition isExternalConsultTool (toolName : string) : bool :=
  negb (toolName =? "")%string && (set_has toolName CORE_EXTERNAL_TOOLS || re_test EXTERNAL_TOOL (toLowerCase toolName)).
Definition consultKey (taskId : string) : string := "fsf-external-consult-" +:+ taskId.
Definition externalConsultResult (taskId : string) (s : Facts) : ExternalConsult :=
  match fx_files s !! consultKey taskId with
  | None => {| ec_before := false; ec_after := false |}
  | Some v => {| ec_before := is_true (member "before" v); ec_after := is_true (member "after" v) |}
  end.
Definition recordExternalConsult (taskId : string) (window : ConsultWindow) (s : Facts) : Facts :=
  let cur := externalConsultResult taskId s in
  put_file (consultKey taskId)
    (JObj [("before", JBool (ec_before cur || match window with before => true | after => false end));
           ("after", JBool (ec_after cur || match window with after => true | before => false end))]) s.

(** ** Verification *)
Section Verification.
(** The item the process is assigned ([OPENSQUID_ITEM_ID]), if any. *)
Context (assigned : option string).
Definition verificationKey (taskId : string) : string := "fullstack-flow-verify-" +:+ taskId.
Definition suiteKey (taskId : string) : string := "fullstack-flow-suite-" +:+ taskId.
Definition archKey (taskId : string) : string := "fullstack-flow-arch-" +:+ taskId.
Definition bugfixRoundsKey (taskId : string) : string := "fullstack-flow-bugfix-rounds-" +:+ taskId.
Definition needsRedesignKey (taskId : string) : string := "fullstack-flow-needs-redesign-" +:+ taskId.
Definition recordTaskEvidence (taskId key : string) (value : Json) (s : Facts) : Facts :=
  let s := put_file key value s in
  if bool_decide (assigned = Some taskId) then put_durable taskId key value s else s.
Definition readTaskEvidence (taskId key : string) (s : Facts) : option Json :=
  match fx_files s !! key with
  | Some v => Some v
  | None => if bool_decide (assigned = Some taskId) then fx_durable s !! (taskId, key) else None
  end.
Definition passed_value (passed : bool) : Json := JObj [("passed", JBool passed)].
Definition passed_of (v : option Json) : option bool :=
  match v ≫= member "passed" with Some (JBool b) => Some b | _ => None end.
Definition recordVerification (taskId : string) (passed : bool) := recordTaskEvidence taskId (verificationKey taskId) (passed_value passed).
Definition readVerification (taskId : string) (s : Facts) : option bool := passed_of (readTaskEvidence taskId (verificationKey taskId) s).
Definition recordSuite (taskId : string) (passed : bool) := recordTaskEvidence taskId (suiteKey taskId) (passed_value passed).
Definition readSuite (taskId : string) (s : Facts) : option bool := passed_of (readTaskEvidence taskId (suiteKey taskId) s).
Definition recordArch (taskId : string) (passed : bool) := recordTaskEvidence taskId (archKey taskId) (passed_value passed).
Definition readArch (taskId : string) (s : Facts) : option bool := passed_of (readTaskEvidence taskId (archKey taskId) s).
Definition readBugfixRounds (taskId : string) (s : Facts) : Z :=
  match readTaskEvidence taskId (bugfixRoundsKey taskId) s ≫= member "rounds" with Some (JNum n) => n | _ => 0 end.
Definition recordRounds (taskId : string) (n : Z) := recordTaskEvidence taskId (bugfixRoundsKey taskId) (JObj [("rounds", JNum n)]).
Definition bumpBugfixRounds (taskId : string) (s : Facts) : Z * Facts :=
  let next := (readBugfixRounds taskId s + 1)%Z in (next, recordRounds taskId next s).
Definition resetBugfixRounds (taskId : string) : Facts -> Facts := recordRounds taskId 0.
Definition readNeedsRedesign (taskId : string) (s : Facts) : bool := is_true (readTaskEvidence taskId (needsRedesignKey taskId) s ≫= member "needed").
Definition recordNeedsRedesign (taskId : string) (needed : bool) :=
  recordTaskEvidence taskId (needsRedesignKey taskId) (JObj [("needed", JBool needed)]).
End Verification.

(** ** Acceptance *)
Definition appendAcceptance (id task status : string) (s : Facts) : Facts :=
  {| fx_files := fx_files s; fx_durable := fx_durable s; fx_acceptance := fx_acceptance s ++ [(id, (task, status))] |}.
(** The last line of an id wins; ids in the order of their first lines. *)
Definition readAcceptance (s : Facts) : list (string * (string * string)) :=
  foldl (fun m l => obj_set l.1 l.2 m) [] (fx_acceptance s).
Definition markAccepted (id : string) (s : Facts) : Facts :=
  match obj_get id (readAcceptance s) with Some (task, _) => appendAcceptance id task "accepted" s | None => s end.
Definition waitingItems (s : Facts) : list (string * (string * string)) := List.filter (fun l => (l.2.2 =? "waiting")%string) (readAcceptance s).

(** ** Evidence *)
Record CodeEvidence := { ce_phasesComplete : bool; ce_readinessRan : bool; ce_deprecatedClean : bool; ce_suiteGreen : bool; ce_archClean : bool }.
(** The injected readers, each of which may throw. *)
Record CodeEvidenceDeps := {
  cd_activeTaskId : result string (option string);
  cd_phaseState : result string (option PhaseState);
  cd_readiness : string -> result string ReadinessResult;
  cd_suite : string -> result string (option bool);
  cd_archDetectorDeclared : result string bool;
  cd_arch : string -> result string (option bool) }.
Definition code_closed : CodeEvidence :=
  {| ce_phasesComplete := false; ce_readinessRan := false; ce_deprecatedClean := false; ce_suiteGreen := false; ce_archClean := true |}.
Definition or_closed {A} (closed : A) (r : result string A) : A := match r with Ok a => a | Err _ => closed end.
Definition codeEvidenceForSession (deps : CodeEvidenceDeps) : CodeEvidence :=
  or_closed code_closed (
    taskId <-? cd_activeTaskId deps ;;
    match taskId with
    | None => Ok code_closed
    | Some taskId =>
        phases <-? cd_phaseState deps ;;
        r <-? cd_readiness deps taskId ;;
        suite <-? cd_suite deps taskId ;;
        archDeclared <-? cd_archDetectorDeclared deps ;;
        archClean <-? (match archDeclared with true => arch <-? cd_arch deps taskId ;; Ok (default false arch) | false => Ok true end) ;;
        Ok {| ce_phasesComplete := isComplete phases taskId; ce_readinessRan := rr_ran r; ce_deprecatedClean := rr_deprecatedClean r;
              ce_suiteGreen := default false suite; ce_archClean := archClean |}
    end).
(** The readers of the runtime over the recorded facts: the active task, whether
    the project declares a detector and the commands it declares come from
    other files. *)
Record SessionView := { sv_task : option string; sv_cwd : option string; sv_suite : option string; sv_verify : option string;
                        sv_arch : option string; sv_reversible : bool; sv_assigned : option string }.
Definition defaultCodeEvidenceDeps (v : SessionView) (s : Facts) : CodeEvidenceDeps := {|
  cd_activeTaskId := Ok (sv_task v); cd_phaseState := Ok (readPhaseState s); cd_readiness t := Ok (readinessResult t s);
  cd_suite t := Ok (readSuite (sv_assigned v) t s); cd_archDetectorDeclared := Ok (bool_decide (is_Some (sv_arch v)));
  cd_arch t := Ok (readArch (sv_assigned v) t s) |}.

Record DeployEvidence := { de_capabilityOk : bool; de_accepted : bool; de_deployClean : bool; de_reversible : bool }.
Record DeployEvidenceDeps := {
  dd_activeTaskId : result string (option string);
  dd_capabilityCheck : result string (option bool);
  dd_acceptance : result string (list (string * (string * string)));
  dd_verificationResult : result string (option bool);
  dd_suiteResult : result string (option bool);
  dd_reversible : result string bool }.
Definition deployEvidenceForSession (deps : DeployEvidenceDeps) : DeployEvidence := {|
  de_capabilityOk := or_closed false (c <-? dd_capabilityCheck deps ;; Ok (default true c));
  de_accepted := or_closed false (
    taskId <-? dd_activeTaskId deps ;;
    match taskId with
    | None => Ok false
    | Some taskId => items <-? dd_acceptance deps ;; Ok (existsb (fun i => (i.2.1 =? taskId)%string && (i.2.2 =? "accepted")%string) items)
    end);
  de_deployClean := or_closed false (
    suite <-? dd_suiteResult deps ;; verify <-? dd_verificationResult deps ;; Ok (default true suite && default true verify));
  de_reversible := or_closed false (dd_reversible deps) |}.
Definition declared_result (v : SessionView) (declared : option string) (read : string -> option bool) : option bool :=
  match sv_cwd v, declared with
  | Some _, Some _ => match sv_task v with None => Some false | Some t => Some (default false (read t)) end
  | _, _ => None
  end.
Definition defaultDeployEvidenceDeps (v : SessionView) (s : Facts) : DeployEvidenceDeps := {|
  dd_activeTaskId := Ok (sv_task v); dd_capabilityCheck := Ok None; dd_acceptance := Ok (readAcceptance s);
  dd_verificationResult := Ok (declared_result v (sv_verify v) (fun t => readVerification (sv_assigned v) t s));
  dd_suiteResult := Ok (declared_result v (sv_suite v) (fun t => readSuite (sv_assigned v) t s));
  dd_reversible := Ok (match sv_cwd v with Some _ => sv_reversible v | None => false end) |}.
