(* ===== verification/FactsProps.v ===== *)
(** * Recorded facts: what the gates' evidence says of what happened

    The files of a session refine its history: every facet of the code and
    deploy evidence is a function of the operations that were recorded. *)

From Stdlib Require Import Ascii String.
From stdpp Require Import base option list strings gmap pretty.
From S2P Require Import Prelude Json ExprSyntax Regex Safety SessionFacts.
#[local] Open Scope os_scope.

Inductive Check := Verification | Suite | Arch.
#[export] Instance Check_eq_dec : EqDecision Check.
Proof. solve_decision. Defined.
#[export] Instance ConsultWindow_eq_dec : EqDecision ConsultWindow.
Proof. solve_decision. Defined.
(** What is recorded; a new session starts with no files. *)
Inductive FactOp :=
| Ran (c : Check) (task : string) (ok : bool)
| Bumped (task : string) | RoundsReset (task : string) | Redesign (task : string) (needed : bool)
| Scanned (task : string) (deprecated : list string)
| Consulted (task : string) (w : ConsultWindow)
| Logged (task phase : string)
| NewSession.

Section History.
Context (assigned : option string).
Definition do_fact (s : Facts) (o : FactOp) : Facts :=
  match o with
  | Ran Verification t b => recordVerification assigned t b s
  | Ran Suite t b => recordSuite assigned t b s
  | Ran Arch t b => recordArch assigned t b s
  | Bumped t => (bumpBugfixRounds assigned t s).2
  | RoundsReset t => resetBugfixRounds assigned t s
  | Redesign t b => recordNeedsRedesign assigned t b s
  | Scanned t l => recordReadiness t l s
  | Consulted t w => recordExternalConsult t w s
  | Logged t p => (appendPhase t p s).2
  | NewSession => {| fx_files := ∅; fx_durable := fx_durable s; fx_acceptance := [] |}
  end.
Definition facts_of (ops : list FactOp) : Facts := foldl do_fact no_facts ops.

(** ** The history, latest first *)
Fixpoint checked (c : Check) (t : string) (h : list FactOp) : option bool :=
  match h with
  | [] => None
  | Ran c' t' b :: h => if decide (c' = c /\ t' = t) then Some b else checked c t h
  | NewSession :: h => if decide (assigned = Some t) then checked c t h else None
  | _ :: h => checked c t h
  end.
Fixpoint rounds (t : string) (h : list FactOp) : Z :=
  match h with
  | [] => 0
  | Bumped t' :: h => if decide (t' = t) then rounds t h + 1 else rounds t h
  | RoundsReset t' :: h => if decide (t' = t) then 0 else rounds t h
  | NewSession :: h => if decide (assigned = Some t) then rounds t h else 0
  | _ :: h => rounds t h
  end.
Fixpoint redesign (t : string) (h : list FactOp) : bool :=
  match h with
  | [] => false
  | Redesign t' b :: h => if decide (t' = t) then b else redesign t h
  | NewSession :: h => if decide (assigned = Some t) then redesign t h else false
  | _ :: h => redesign t h
  end.
Fixpoint scanned (t : string) (h : list FactOp) : option (list string) :=
  match h with
  | [] | NewSession :: _ => None
  | Scanned t' l :: h => if decide (t' = t) then Some l else scanned t h
  | _ :: h => scanned t h
  end.
Fixpoint consulted (t : string) (w : ConsultWindow) (h : list FactOp) : bool :=
  match h with
  | [] | NewSession :: _ => false
  | Consulted t' w' :: h => bool_decide (t' = t /\ w' = w) || consulted t w h
  | _ :: h => consulted t w h
  end.
Fixpoint logged (t : string) (h : list FactOp) : list string :=
  match h with
  | [] | NewSession :: _ => []
  | Logged t' p :: h => if decide (t' = t) then p :: logged t h else []
  | _ :: h => logged t h
  end.

(** ** Evidence kept for the task *)
Definition evidence_keys : list (string -> string) := [verificationKey; suiteKey; archKey; bugfixRoundsKey; needsRedesignKey].
Lemma evidence_other t t' key key' v s : key <> key' ->
  readTaskEvidence assigned t key (recordTaskEvidence assigned t' key' v s) = readTaskEvidence assigned t key s.
Proof.
  intros Hne. unfold readTaskEvidence, recordTaskEvidence.
  destruct (bool_decide (assigned = Some t')); cbn; rewrite lookup_insert_ne by done; [|done].
  destruct (fx_files s !! key); [done|]. destruct (bool_decide (assigned = Some t)); [|done]. apply lookup_insert_ne. congruence.
Qed.
Lemma evidence_own t t' key v s : readTaskEvidence assigned t key (recordTaskEvidence assigned t' key v s) = Some v.
Proof. unfold readTaskEvidence, recordTaskEvidence. destruct (bool_decide (assigned = Some t')); cbn; by rewrite lookup_insert_eq. Qed.
Lemma evidence_file t key key' v s : key <> key' -> readTaskEvidence assigned t key (put_file key' v s) = readTaskEvidence assigned t key s.
Proof. intros Hne. unfold readTaskEvidence. cbn. by rewrite lookup_insert_ne. Qed.
Lemma file_evidence key t key' v s : key <> key' -> fx_files (recordTaskEvidence assigned t key' v s) !! key = fx_files s !! key.
Proof. intros Hne. unfold recordTaskEvidence. case_match; cbn; by rewrite lookup_insert_ne. Qed.

(** What the session of the assigned item has in its files is durable. *)
Definition durable (s : Facts) : Prop :=
  forall K t v, K ∈ evidence_keys -> assigned = Some t -> fx_files s !! K t = Some v -> fx_durable s !! (t, K t) = Some v.
End History.

(** Keys of different kinds differ, and keys of one kind are those of one task. *)
Ltac key_ne := let E := fresh in intros E; unfold verificationKey, suiteKey, archKey, bugfixRoundsKey, needsRedesignKey, readinessKey, consultKey, PHASES_KEY in E;
  cbn in E; first [discriminate E | (injection E; congruence)].
#[export] Hint Rewrite @evidence_own : facts.

Section Refines.
Context (assigned : option string).
Abbreviation ev := (readTaskEvidence assigned).
Abbreviation do_ := (do_fact assigned).
Lemma durable_put key v s : (forall K t, K ∈ evidence_keys -> K t <> key) -> durable assigned s -> durable assigned (put_file key v s).
Proof. intros Hk Hd K t v' HK Ha. cbn. rewrite lookup_insert_ne by (intros E; by eapply Hk). by apply Hd. Qed.
Lemma evidence_key_inj K t t' : K ∈ evidence_keys -> K t = K t' -> t = t'.
Proof. unfold evidence_keys. rewrite !elem_of_cons. intros [->|[->|[->|[->|[->|[]%elem_of_nil]]]]] [=]; done. Qed.
Lemma evidence_key_kind K K' t t' : K ∈ evidence_keys -> K' ∈ evidence_keys -> K t = K' t' -> K = K' /\ t = t'.
Proof.
  intros HK HK' E. assert (K = K') as ->; [|by split; [|eapply evidence_key_inj]]. revert HK HK' E. unfold evidence_keys. rewrite !elem_of_cons.
  intros [->|[->|[->|[->|[->|[]%elem_of_nil]]]]] [->|[->|[->|[->|[->|[]%elem_of_nil]]]]]; first [done | intros E; exfalso; discriminate E].
Qed.
Lemma durable_record K t v s : K ∈ evidence_keys -> durable assigned s -> durable assigned (recordTaskEvidence assigned t (K t) v s).
Proof.
  intros HK Hd K' t' v' HK' Ha. unfold recordTaskEvidence. destruct (decide (K t = K' t')) as [E|Hne].
  - destruct (evidence_key_kind _ _ _ _ HK HK' E) as [-> ->]. rewrite bool_decide_true by done. cbn. by rewrite !lookup_insert_eq.
  - case_match; cbn; rewrite lookup_insert_ne by done; [|by apply Hd]. rewrite lookup_insert_ne by congruence. by apply Hd.
Qed.
Lemma key_in K : K ∈ evidence_keys <-> K = verificationKey \/ K = suiteKey \/ K = archKey \/ K = bugfixRoundsKey \/ K = needsRedesignKey.
Proof. unfold evidence_keys. rewrite !elem_of_cons, elem_of_nil. naive_solver. Qed.
Lemma evidence_not_file K t : K ∈ evidence_keys -> (forall t', K t <> readinessKey t') /\ (forall t', K t <> consultKey t') /\ K t <> PHASES_KEY.
Proof. rewrite key_in. intros HK. split_and!; intros; destruct HK as [->|[->|[->|[->| ->]]]]; key_ne. Qed.
Lemma durable_step s o : durable assigned s -> durable assigned (do_ s o).
Proof.
  intros Hd. destruct o as [[] t b|t|t|t b|t l|t w|t p|]; cbn [do_fact].
  - apply (durable_record verificationKey); [apply key_in; tauto|done].
  - apply (durable_record suiteKey); [apply key_in; tauto|done].
  - apply (durable_record archKey); [apply key_in; tauto|done].
  - apply (durable_record bugfixRoundsKey); [apply key_in; tauto|done].
  - apply (durable_record bugfixRoundsKey); [apply key_in; tauto|done].
  - apply (durable_record needsRedesignKey); [apply key_in; tauto|done].
  - apply durable_put; [|done]. intros K t' HK. by apply evidence_not_file.
  - apply durable_put; [|done]. intros K t' HK. by apply evidence_not_file.
  - apply durable_put; [|done]. intros K t' HK. by apply evidence_not_file.
  - intros K t v HK Ha. cbn. by rewrite lookup_empty.
Qed.
(** After a new session only the assigned item's evidence is left. *)
Lemma evidence_new K t s : K ∈ evidence_keys -> durable assigned s ->
  ev t (K t) (do_ s NewSession) = if decide (assigned = Some t) then ev t (K t) s else None.
Proof.
  intros HK Hd. unfold readTaskEvidence. cbn. rewrite lookup_empty. case_decide as Ha; [|by rewrite bool_decide_false].
  rewrite bool_decide_true by done. destruct (fx_files s !! K t) eqn:E; [|done]. by apply Hd.
Qed.
Ltac steps := unfold recordVerification, recordSuite, recordArch, bumpBugfixRounds, resetBugfixRounds, recordRounds, recordNeedsRedesign,
  recordReadiness, recordExternalConsult, appendPhase, writePhaseState; cbn [snd];
  rewrite ?evidence_own, ?evidence_other, ?evidence_file by key_ne; try done.
Lemma ran_step (c : Check) (K : string -> string) t s o : (c, K) ∈ [(Verification, verificationKey); (Suite, suiteKey); (Arch, archKey)] -> durable assigned s ->
  passed_of (ev t (K t) (do_ s o)) =
  match o with
  | Ran c' t' b => if decide (c' = c /\ t' = t) then Some b else passed_of (ev t (K t) s)
  | NewSession => if decide (assigned = Some t) then passed_of (ev t (K t) s) else None
  | _ => passed_of (ev t (K t) s)
  end.
Proof.
  rewrite !elem_of_cons, elem_of_nil. intros [[= -> ->]|[[= -> ->]|[[= -> ->]|[]]]] Hd; (destruct o as [[] t' b|t'|t'|t' b|t' l|t' w|t' p|]; cbn [do_fact]; [..|]).
  all: try (change {| fx_files := ∅; fx_durable := fx_durable s; fx_acceptance := [] |} with (do_ s NewSession); rewrite evidence_new by (assumption || (apply key_in; tauto)); by case_decide).
  all: destruct (decide (t' = t)) as [->|Hne]; steps; first [by rewrite decide_True | by rewrite decide_False by naive_solver | idtac].
Qed.
Lemma rounds_step t s o : durable assigned s ->
  readBugfixRounds assigned t (do_ s o) =
  match o with
  | Bumped t' => if decide (t' = t) then (readBugfixRounds assigned t s + 1)%Z else readBugfixRounds assigned t s
  | RoundsReset t' => if decide (t' = t) then 0%Z else readBugfixRounds assigned t s
  | NewSession => if decide (assigned = Some t) then readBugfixRounds assigned t s else 0%Z
  | _ => readBugfixRounds assigned t s
  end.
Proof.
  intros Hd. unfold readBugfixRounds at 1. destruct o as [[] t' b|t'|t'|t' b|t' l|t' w|t' p|]; cbn [do_fact].
  all: try (change {| fx_files := ∅; fx_durable := fx_durable s; fx_acceptance := [] |} with (do_ s NewSession); rewrite (evidence_new bugfixRoundsKey t s) by (assumption || (apply key_in; tauto)); by case_decide).
  all: destruct (decide (t' = t)) as [->|Hne]; steps; first [by rewrite decide_True | by rewrite decide_False by naive_solver | idtac].
Qed.
Lemma redesign_step t s o : durable assigned s ->
  readNeedsRedesign assigned t (do_ s o) =
  match o with
  | Redesign t' b => if decide (t' = t) then b else readNeedsRedesign assigned t s
  | NewSession => if decide (assigned = Some t) then readNeedsRedesign assigned t s else false
  | _ => readNeedsRedesign assigned t s
  end.
Proof.
  intros Hd. unfold readNeedsRedesign at 1. destruct o as [[] t' b|t'|t'|t' b|t' l|t' w|t' p|]; cbn [do_fact].
  all: try (change {| fx_files := ∅; fx_durable := fx_durable s; fx_acceptance := [] |} with (do_ s NewSession); rewrite (evidence_new needsRedesignKey t s) by (assumption || (apply key_in; tauto)); by case_decide).
  all: destruct (decide (t' = t)) as [->|Hne]; steps; first [by destruct b | by rewrite decide_True | by rewrite decide_False by naive_solver | idtac].
Qed.
(** ** Facts of the session only *)
Definition session_key (key : string) : Prop := forall K t, K ∈ evidence_keys -> key <> K t.
Lemma session_keys t : session_key (readinessKey t) /\ session_key (consultKey t) /\ session_key PHASES_KEY.
Proof. split_and!; intros K t' HK E; symmetry in E; destruct (evidence_not_file K t' HK) as (H1 & H2 & H3); naive_solver. Qed.
Lemma file_step key s o : session_key key ->
  fx_files (do_ s o) !! key =
  match o with
  | Scanned t l => if decide (readinessKey t = key) then fx_files (recordReadiness t l s) !! key else fx_files s !! key
  | Consulted t w => if decide (consultKey t = key) then fx_files (recordExternalConsult t w s) !! key else fx_files s !! key
  | Logged t p => if decide (PHASES_KEY = key) then fx_files (appendPhase t p s).2 !! key else fx_files s !! key
  | NewSession => None
  | _ => fx_files s !! key
  end.
Proof.
  intros Hk. assert (Hne : forall K t v, K ∈ evidence_keys -> fx_files (recordTaskEvidence assigned t (K t) v s) !! key = fx_files s !! key).
  { intros K t v HK. apply file_evidence. by apply Hk. }
  destruct o as [[] t' b|t'|t'|t' b|t' l|t' w|t' p|]; cbn [do_fact].
  - apply (Hne verificationKey), key_in; tauto.
  - apply (Hne suiteKey), key_in; tauto.
  - apply (Hne archKey), key_in; tauto.
  - apply (Hne bugfixRoundsKey), key_in; tauto.
  - apply (Hne bugfixRoundsKey), key_in; tauto.
  - apply (Hne needsRedesignKey), key_in; tauto.
  - case_decide; [done|]. by apply lookup_insert_ne.
  - case_decide; [done|]. by apply lookup_insert_ne.
  - case_decide; [done|]. by apply lookup_insert_ne.
  - apply lookup_empty.
Qed.
Definition scan_result (r : option (list string)) : ReadinessResult :=
  {| rr_ran := bool_decide (is_Some r); rr_deprecatedClean := bool_decide (r = Some []) |}.
Lemma scanned_step t s o :
  readinessResult t (do_ s o) =
  match o with
  | Scanned t' l => if decide (t' = t) then scan_result (Some l) else readinessResult t s
  | NewSession => scan_result None
  | _ => readinessResult t s
  end.
Proof.
  unfold readinessResult. rewrite file_step by apply session_keys. destruct o as [c t' b|t'|t'|t' b|t' l|t' w|t' p|]; try done.
  - destruct (decide (t' = t)) as [->|Hne].
    + rewrite decide_True by done. unfold recordReadiness. cbn [put_file fx_files]. rewrite lookup_insert_eq. by destruct l.
    + rewrite decide_False; [done|]. intros [=]; done.
Qed.
Lemma consulted_step t s o :
  externalConsultResult t (do_ s o) =
  match o with
  | Consulted t' w => if decide (t' = t) then {| ec_before := ec_before (externalConsultResult t s) || bool_decide (w = before);
                                                 ec_after := ec_after (externalConsultResult t s) || bool_decide (w = after) |}
                      else externalConsultResult t s
  | NewSession => {| ec_before := false; ec_after := false |}
  | _ => externalConsultResult t s
  end.
Proof.
  unfold externalConsultResult at 1. rewrite file_step by apply session_keys. destruct o as [c t' b|t'|t'|t' b|t' l|t' w|t' p|]; try done.
  - destruct (decide (t' = t)) as [->|Hne].
    + rewrite decide_True by done. unfold recordExternalConsult. cbn [put_file fx_files]. rewrite lookup_insert_eq.
      by destruct w; cbn; destruct (ec_before _), (ec_after _).
    + rewrite decide_False; [done|]. intros [=]; done.
Qed.

(** ** The whole history *)
Lemma facts_snoc ops o : facts_of assigned (ops ++ [o]) = do_ (facts_of assigned ops) o.
Proof. unfold facts_of. by rewrite foldl_app. Qed.
Lemma facts_durable ops : durable assigned (facts_of assigned ops).
Proof. induction ops as [|o ops IH] using rev_ind; [intros K t v _ _; cbn; by rewrite lookup_empty|]. rewrite facts_snoc. by apply durable_step. Qed.
Lemma ran_history c K t ops : (c, K) ∈ [(Verification, verificationKey); (Suite, suiteKey); (Arch, archKey)] ->
  passed_of (ev t (K t) (facts_of assigned ops)) = checked assigned c t (reverse ops).
Proof.
  intros Hc. induction ops as [|o ops IH] using rev_ind.
  - cbn. unfold readTaskEvidence. cbn. rewrite !lookup_empty. by destruct (bool_decide (assigned = Some t)).
  - rewrite facts_snoc, reverse_snoc, (ran_step c K) by (done || apply facts_durable). destruct o; cbn [checked]; by rewrite ?IH.
Qed.
Lemma rounds_history t ops : readBugfixRounds assigned t (facts_of assigned ops) = rounds assigned t (reverse ops).
Proof.
  induction ops as [|o ops IH] using rev_ind.
  - unfold readBugfixRounds, readTaskEvidence. cbn. rewrite !lookup_empty. by destruct (bool_decide (assigned = Some t)).
  - rewrite facts_snoc, reverse_snoc, rounds_step by apply facts_durable. destruct o; cbn [rounds]; by rewrite ?IH.
Qed.
Lemma redesign_history t ops : readNeedsRedesign assigned t (facts_of assigned ops) = redesign assigned t (reverse ops).
Proof.
  induction ops as [|o ops IH] using rev_ind.
  - unfold readNeedsRedesign, readTaskEvidence. cbn. rewrite !lookup_empty. by destruct (bool_decide (assigned = Some t)).
  - rewrite facts_snoc, reverse_snoc, redesign_step by apply facts_durable. destruct o; cbn [redesign]; by rewrite ?IH.
Qed.
Lemma scanned_history t ops : readinessResult t (facts_of assigned ops) = scan_result (scanned t (reverse ops)).
Proof.
  induction ops as [|o ops IH] using rev_ind; [done|]. rewrite facts_snoc, reverse_snoc, scanned_step. destruct o; cbn [scanned]; rewrite ?IH; try done.
  by case_decide.
Qed.
Lemma consulted_history t ops : externalConsultResult t (facts_of assigned ops) =
  {| ec_before := consulted t before (reverse ops); ec_after := consulted t after (reverse ops) |}.
Proof.
  induction ops as [|o ops IH] using rev_ind; [done|]. rewrite facts_snoc, reverse_snoc, consulted_step. destruct o as [| | | | |t' w| |]; cbn [consulted]; rewrite ?IH; try done.
  case_decide as Ht; cbn [ec_before ec_after].
  - f_equal; rewrite orb_comm; f_equal; apply bool_decide_ext; naive_solver.
  - by rewrite !bool_decide_false by naive_solver.
Qed.
Definition ledger_is (h : list FactOp) (p : option PhaseState) : Prop :=
  match p with
  | None => forall t, logged t h = []
  | Some p => (forall x, x ∈ ps_phases p <-> x ∈ logged (ps_task_id p) h) /\ forall t, t <> ps_task_id p -> logged t h = []
  end.
Lemma ledger_written p s : readPhaseState (writePhaseState p s) = Some p.
Proof.
  unfold readPhaseState, writePhaseState. cbn [put_file fx_files]. rewrite lookup_insert_eq. cbn. destruct p as [t l]. cbn. f_equal. f_equal.
  induction l as [|x l IH]; [done|]. cbn. by rewrite IH.
Qed.
Lemma ledger_step t' p s h : ledger_is h (readPhaseState s) -> ledger_is (Logged t' p :: h) (readPhaseState (appendPhase t' p s).2).
Proof.
  intros Hl. unfold appendPhase. cbn [snd]. rewrite ledger_written.
  set (st := match readPhaseState s with Some prev => _ | None => _ end).
  assert (Hst : ps_task_id st = t' /\ forall x, x ∈ ps_phases st <-> x ∈ logged t' h).
  { unfold st. destruct (readPhaseState s) as [prev|]; cbn in Hl.
    - destruct Hl as [H1 H2]. destruct (String.eqb_spec (ps_task_id prev) t') as [<-|Hne]; [done|]. split; [done|]. intros x. rewrite H2 by congruence. done.
    - split; [done|]. intros x. by rewrite Hl. }
  destruct Hst as [Ht Hx]. destruct (set_has p (ps_phases st)) eqn:Hp; cbn.
  - apply set_has_spec in Hp. rewrite Ht. split.
    + intros x. rewrite decide_True by done. rewrite elem_of_cons, <- Hx. naive_solver.
    + intros t Hne. by rewrite decide_False by congruence.
  - split.
    + intros x. rewrite decide_True by done. rewrite elem_of_cons, elem_of_app, list_elem_of_singleton, <- Hx. naive_solver.
    + intros t Hne. by rewrite decide_False by congruence.
Qed.
Lemma ledger_history ops : ledger_is (reverse ops) (readPhaseState (facts_of assigned ops)).
Proof.
  induction ops as [|o ops IH] using rev_ind.
  { assert (readPhaseState (facts_of assigned []) = None) as -> by (unfold readPhaseState; cbn; by rewrite lookup_empty). by intros t. }
  rewrite facts_snoc, reverse_snoc.
  assert (Hsame : fx_files (do_ (facts_of assigned ops) o) !! PHASES_KEY = fx_files (facts_of assigned ops) !! PHASES_KEY ->
    readPhaseState (do_ (facts_of assigned ops) o) = readPhaseState (facts_of assigned ops)) by (intros E; unfold readPhaseState; by rewrite E).
  assert (Hf := file_step PHASES_KEY (facts_of assigned ops) o (proj2 (proj2 (session_keys "")))).
  destruct o as [c t' b|t'|t'|t' b|t' l|t' w|t' p|].
  7: by apply ledger_step.
  7: unfold readPhaseState; rewrite Hf; done.
  all: rewrite Hsame; [exact IH|rewrite Hf; try (rewrite decide_False; [|intros [=]]); done].
Qed.
Lemma complete_history t ops : isComplete (readPhaseState (facts_of assigned ops)) t = forallb (fun p => set_has p (logged t (reverse ops))) REQUIRED_PHASES.
Proof.
  pose proof (ledger_history ops) as Hl. destruct (readPhaseState (facts_of assigned ops)) as [p|]; unfold isComplete; cbn [ledger_is] in Hl; [|by rewrite Hl].
  destruct Hl as [H1 H2]. destruct (String.eqb_spec (ps_task_id p) t) as [<-|Hne]; [|by rewrite H2 by congruence].
  cbn [andb]. induction REQUIRED_PHASES as [|x l IH]; [done|]. cbn. rewrite IH. f_equal. apply eq_true_iff_eq. by rewrite !set_has_spec.
Qed.
End Refines.

(** ** The claim *)
(** C17: The evidence of the code and deploy gates is what happened: over any sequence of recorded facts and new sessions, the
    facets are those of the history - every required phase logged for the task with no other task's in between, the last scan
    clean, the last suite and detector runs green where declared, the last runs of an assigned item carried over from earlier
    sessions and nothing else's, the fix rounds those since the last reset, and an active task without a record held back. *)
Theorem evidence_reflects_history ops v t : sv_task v = Some t -> sv_cwd v <> None ->
  let a := sv_assigned v in let h := reverse ops in let s := facts_of a ops in
  codeEvidenceForSession (defaultCodeEvidenceDeps v s) =
    {| ce_phasesComplete := forallb (fun p => set_has p (logged t h)) REQUIRED_PHASES;
       ce_readinessRan := bool_decide (is_Some (scanned t h)); ce_deprecatedClean := bool_decide (scanned t h = Some []);
       ce_suiteGreen := bool_decide (checked a Suite t h = Some true);
       ce_archClean := bool_decide (sv_arch v = None) || bool_decide (checked a Arch t h = Some true) |} /\
  de_deployClean (deployEvidenceForSession (defaultDeployEvidenceDeps v s)) =
    (bool_decide (sv_suite v = None) || bool_decide (checked a Suite t h = Some true)) &&
    (bool_decide (sv_verify v = None) || bool_decide (checked a Verification t h = Some true)) /\
  externalConsultResult t s = {| ec_before := consulted t before h; ec_after := consulted t after h |} /\
  readBugfixRounds a t s = rounds a t h /\ readNeedsRedesign a t s = redesign a t h.
Proof.
  intros Ht Hc. cbn zeta. split_and!; [| |apply consulted_history|apply rounds_history|apply redesign_history].
  - unfold codeEvidenceForSession, defaultCodeEvidenceDeps. cbn. rewrite Ht. cbn. unfold readSuite, readArch.
    rewrite (ran_history _ Suite), (ran_history _ Arch) by set_solver. rewrite complete_history, scanned_history.
    destruct (sv_arch v); cbn; f_equal; try done; by destruct (checked _ _ _ _) as [[]|].
  - unfold deployEvidenceForSession, defaultDeployEvidenceDeps, declared_result. cbn. destruct (sv_cwd v); [|done]. rewrite Ht. unfold readSuite, readVerification.
    rewrite (ran_history _ Suite), (ran_history _ Verification) by set_solver.
    destruct (sv_suite v), (sv_verify v); cbn; try done; destruct (checked _ _ _ _) as [[]|]; try done; by destruct (checked _ _ _ _) as [[]|].
Qed.
