(* ===== verification/CachedAudit.v ===== *)
(** * The audit primitive ([src/src/functions/cached_audit.ts], [audit_fanout.ts])

    One review or a fan-out of two to four lenses over a subject, kept in the
    task's audit tables: an exact earlier result is republished without a model
    call, lenses already reviewed under the current policy are reused, the rest
    are reviewed, and what came of it is written as one entry.  This is the body
    that runs under the lock of the cache key; the model is a parameter. *)

From Stdlib Require Import Ascii String.
From stdpp Require Import base option list strings gmap pretty.
From S2P Require Import Prelude Json JsonText ExprSyntax ExprEval LoopEvents AuditEvidence.
#[local] Open Scope os_scope.

Record LensDecl := { ld_id : string; ld_prompt : string; ld_criteria : option (list string) }.
Record Declaration := {
  dc_model : string; dc_prompt : option string; dc_lenses : option (list LensDecl);
  dc_passVerdict : string; dc_failVerdict : string; dc_timeoutMs : option Z; dc_subject : option string }.

Definition MAX_AUDIT_TEXT_BYTES : nat := N.to_nat 300000.
Definition MAX_AUDIT_CRITERIA : nat := 16.
Definition MAX_AUDIT_CRITERION_BYTES : nat := N.to_nat 4096.
Definition PARAGRAPH : string := String LF (String LF "").
Definition renderPrompt (lens : LensDecl) : string :=
  match ld_criteria lens with
  | None => ld_prompt lens
  | Some criteria => ld_prompt lens +:+ PARAGRAPH +:+ "Criteria:" +:+ String LF (join_with (String LF "") (map (fun c => "- " +:+ c) criteria))
  end.
Definition renderAuditLensPrompt : LensDecl -> string := renderPrompt.
(** The argument schema. *)
Definition text_bounded (minBytes : nat) (s : string) : bool := utf8Bounded minBytes MAX_AUDIT_TEXT_BYTES s.
Definition lens_decl_ok (lens : LensDecl) : bool :=
  AuditLensId (ld_id lens) && text_bounded 1 (ld_prompt lens) && text_bounded 0 (renderPrompt lens) &&
  match ld_criteria lens with
  | None => true
  | Some l => Nat.leb 1 (List.length l) && Nat.leb (List.length l) MAX_AUDIT_CRITERIA && forallb (utf8Bounded 1 MAX_AUDIT_CRITERION_BYTES) l
  end.
Definition AuditLensSet (lenses : list LensDecl) : bool :=
  Nat.leb AUDIT_LENS_MIN (List.length lenses) && Nat.leb (List.length lenses) AUDIT_LENS_MAX && forallb lens_decl_ok lenses &&
  bool_decide (NoDup (map ld_id lenses)).
Definition CachedAuditArgs (cacheKey : string) (d : Declaration) : bool :=
  negb (cacheKey =? "")%string && negb (dc_model d =? "")%string &&
  xorb (bool_decide (dc_prompt d = None)) (bool_decide (dc_lenses d = None)) &&
  match dc_prompt d with Some p => text_bounded 1 p | None => true end && match dc_lenses d with Some l => AuditLensSet l | None => true end &&
  AuditVerdictToken (dc_passVerdict d) && AuditVerdictToken (dc_failVerdict d) && distinctAuditVerdicts (dc_passVerdict d) (dc_failVerdict d) &&
  match dc_timeoutMs d with Some n => (1 <=? n)%Z && (n <=? 600000)%Z | None => true end &&
  match dc_subject d with Some s => text_bounded 0 s | None => true end.

(** [truncateUtf8]; the cut never splits a character. *)
Definition continuation (c : ascii) : bool := in_range 128 191 c.
Fixpoint cut_at (n : nat) (s : string) : nat :=
  match n with
  | 0 => 0
  | S n' => match String.get n s with Some c => if continuation c then cut_at n' s else n | None => n end
  end.
Definition TRUNCATED : string := PARAGRAPH +:+ "[truncated]".
Definition truncateUtf8 (text : string) (maxBytes : nat) : string :=
  if Nat.leb (String.length text) maxBytes then text
  else if Nat.leb maxBytes (String.length TRUNCATED) then String.substring 0 maxBytes TRUNCATED
  else String.substring 0 (cut_at (maxBytes - String.length TRUNCATED) text) text +:+ TRUNCATED.

Section CachedAudit.
Context (sha256Hex : string -> string).

(** ** Identities *)
Definition criteria_value (l : list string) : Json := JArr (map JStr l).
Definition lens_identity (model : string) (lens : LensDecl) (passVerdict failVerdict : string) (timeoutMs : option Z) : Json :=
  JObj ([("model", JStr model); ("id", JStr (ld_id lens)); ("prompt", JStr (ld_prompt lens))] ++ given "criteria" criteria_value (ld_criteria lens) ++
        [("passVerdict", JStr passVerdict); ("failVerdict", JStr failVerdict)] ++ given "timeoutMs" JNum timeoutMs).
Definition auditLensPolicyHash (model : string) (lens : LensDecl) (passVerdict failVerdict : string) (timeoutMs : option Z) : string :=
  sha256Hex (stringify (lens_identity model lens passVerdict failVerdict timeoutMs)).
Definition lens_decl_value (lens : LensDecl) : Json :=
  JObj ([("id", JStr (ld_id lens)); ("prompt", JStr (ld_prompt lens))] ++ given "criteria" criteria_value (ld_criteria lens)).
Definition declaration_identity (d : Declaration) : Json :=
  match dc_prompt d with
  | None => JObj ([("mode", JStr "lenses"); ("model", JStr (dc_model d))] ++ given "lenses" (fun l => JArr (map lens_decl_value l)) (dc_lenses d) ++
                  [("pass_verdict", JStr (dc_passVerdict d)); ("fail_verdict", JStr (dc_failVerdict d))] ++ given "timeout_ms" JNum (dc_timeoutMs d))
  | Some prompt => JObj ([("mode", JStr "prompt"); ("model", JStr (dc_model d)); ("prompt", JStr prompt);
                          ("pass_verdict", JStr (dc_passVerdict d)); ("fail_verdict", JStr (dc_failVerdict d))] ++ given "timeout_ms" JNum (dc_timeoutMs d))
  end.
Definition auditDeclarationCacheHash (d : Declaration) : string :=
  let identity := stringify (declaration_identity d) in
  sha256Hex (match dc_subject d with
             | None => identity
             | Some subject => stringify (JObj [("identity", JStr identity); ("subjectHash", JStr (sha256Hex subject))])
             end).

(** ** The fan-out *)
Record Fanout := { fo_completed : list AuditLens; fo_failures : list (string * string) }.
(** [lensHash] names a lens's policy, [review] is the model's answer or its error. *)
Fixpoint fanout (lenses : list LensDecl) (cached : string -> option AuditLens) (lensHash : LensDecl -> string) (review : LensDecl -> result string string) : Fanout :=
  match lenses with
  | [] => {| fo_completed := []; fo_failures := [] |}
  | lens :: rest =>
      let f := fanout rest cached lensHash review in
      let reuse := match cached (ld_id lens) with
                   | Some prior => if (al_promptHash prior =? lensHash lens)%string then Some prior else None
                   | None => None
                   end in
      match reuse with
      | Some prior => {| fo_completed := prior :: fo_completed f; fo_failures := fo_failures f |}
      | None =>
          match review lens with
          | Ok output => {| fo_completed := {| al_id := ld_id lens; al_promptHash := lensHash lens; al_output := output |} :: fo_completed f;
                            fo_failures := fo_failures f |}
          | Err x => {| fo_completed := fo_completed f; fo_failures := (ld_id lens, x) :: fo_failures f |}
          end
      end
  end.

(** ** The primitive *)
Section Run.
(** The task of the session, its clock, and the configured model: [None] is an
    unknown alias, an [Err] a configuration that throws. *)
Context (task : option string) (now : Z) (strategy : result string (option (string -> result string string))).
Context (cacheKey : string) (d : Declaration).
Definition subjectHash : option string := sha256Hex <$> dc_subject d.
Definition lensPolicyHash (lens : LensDecl) : string :=
  auditLensPolicyHash (dc_model d) lens (dc_passVerdict d) (dc_failVerdict d) (dc_timeoutMs d).
Definition readCachedEntries (t : AuditTables) : list AuditEntry :=
  match map fst (readTaskAuditHistory task cacheKey 100 t) with
  | [] => match readTaskAuditCache task cacheKey t with Some e => [e] | None => [] end
  | entries => entries
  end.
Definition bestExactEntry (entries : list AuditEntry) (hash : string) : option AuditEntry :=
  List.find (fun e => (ae_hash e =? hash)%string) entries.
(** Entries about the current subject. *)
Definition authorized (t : AuditTables) : list AuditEntry :=
  List.filter (fun e => bool_decide (ae_subjectHash e = subjectHash)) (readCachedEntries t).
Definition writeTaskCache (e : AuditEntry) (t : AuditTables) : bool * AuditTables :=
  let r := writeTaskAuditCache task cacheKey e now t in (is_ok r.1, r.2).
Definition failed_with (what : string) : result string string := Err ("cached_audit(" +:+ dc_model d +:+ ")" +:+ what).
Definition lens_current (lens : LensDecl) (prior : AuditLens) : bool :=
  (al_id prior =? ld_id lens)%string && (al_promptHash prior =? lensPolicyHash lens)%string.
Definition exactLenses (lenses : list LensDecl) (e : AuditEntry) : bool :=
  match ae_lenses e with
  | Some l => Nat.eqb (List.length l) (List.length lenses) && forallb (fun p => lens_current p.1 p.2) (combine lenses l)
  | None => false
  end.
Definition prior_lens (limit : nat) (t : AuditTables) (lens : LensDecl) : option AuditLens :=
  (fun l => {| al_id := al_id l; al_promptHash := al_promptHash l; al_output := truncateUtf8 (al_output l) limit |}) <$>
  List.find (lens_current lens) (flat_map (fun e => default [] (ae_lenses e)) (authorized t)).
Definition priorLenses (limit : nat) (t : AuditTables) (lenses : list LensDecl) (id : string) : option AuditLens :=
  (list_to_map (reverse (omap (fun lens => (fun p => (ld_id lens, p)) <$> prior_lens limit t lens) lenses)) : gmap string AuditLens) !! id.
Definition reviewed (limit : nat) (call : string -> result string string) (lens : LensDecl) : result string string :=
  out <-? call (renderAuditLensPrompt lens) ;;
  if str_includes out "VERDICT:" then Ok (truncateUtf8 out limit)
  else Err ("audit lens " +:+ ld_id lens +:+ " returned no VERDICT line").
Definition describeFailure (e : string) : string := if (e =? "")%string then "unknown audit failure" else e.
Definition cached_fanout (lenses : list LensDecl) (t : AuditTables) : result string string * AuditTables :=
  let hash := auditDeclarationCacheHash d in
  let hit := match bestExactEntry (authorized t) hash with
             | Some e => if bool_decide (ae_complete e = Some true) && exactLenses lenses e then Some e else None
             | None => None
             end in
  match hit with
  | Some e =>
      let '(written, t) := writeTaskCache e t in
      if written then (Ok (aggregateAuditLenses (default [] (ae_lenses e)) (default (dc_passVerdict d) (ae_passVerdict e)) (default (dc_failVerdict d) (ae_failVerdict e))), t)
      else (failed_with " could not republish canonical task evidence", t)
  | None =>
      match strategy with
      | Err x => (failed_with (" fan-out admission: " +:+ x), t)
      | Ok None => (Err ("Unknown model alias " +:+ quoted (dc_model d)), t)
      | Ok (Some call) =>
          let limit := Nat.max 1024 (MAX_AUDIT_AGGREGATE_EVIDENCE_BYTES / List.length lenses) in
          let f := fanout lenses (priorLenses limit t lenses) lensPolicyHash (reviewed limit call) in
          let complete := bool_decide (fo_failures f = []) in
          let failures := map (fun x => {| af_id := x.1; af_error := truncateUtf8 (describeFailure x.2) 4096 |}) (fo_failures f) in
          let entry := {| ae_hash := hash; ae_verdict := None; ae_complete := Some complete; ae_lenses := Some (fo_completed f); ae_failures := Some failures;
                          ae_passVerdict := Some (dc_passVerdict d); ae_failVerdict := Some (dc_failVerdict d); ae_subjectHash := subjectHash |} in
          let '(persisted, t) := writeTaskCache entry t in
          if negb persisted then (failed_with " could not persist canonical task evidence", t)
          else if negb complete
          then (failed_with (" fan-out incomplete:" +:+ String LF (default (verdict_line (dc_failVerdict d)) (deriveAuditEvidenceVerdict entry))), t)
          else (Ok (truncateUtf8 (aggregateAuditLenses (fo_completed f) (dc_passVerdict d) (dc_failVerdict d)) MAX_SUBAGENT_RESULT_BYTES), t)
      end
  end.
Definition cached_review (prompt : string) (t : AuditTables) : result string string * AuditTables :=
  let hash := auditDeclarationCacheHash d in
  let hit := match bestExactEntry (authorized t) hash with
             | Some e => match ae_verdict e with Some v => if (v =? "")%string then None else Some (e, v) | None => None end
             | None => None
             end in
  match hit with
  | Some (e, v) =>
      let '(written, t) := writeTaskCache e t in
      if written then (Ok v, t) else (failed_with " could not republish canonical task evidence", t)
  | None =>
      match strategy with
      | Err x => (failed_with (" cache-key admission: " +:+ x), t)
      | Ok None => (Err ("Unknown model alias " +:+ quoted (dc_model d)), t)
      | Ok (Some call) =>
          match call prompt with
          | Err x => (failed_with (": " +:+ x), t)
          | Ok out =>
              let cacheable := truncateUtf8 out MAX_SUBAGENT_RESULT_BYTES in
              if str_includes cacheable "VERDICT:" then
                let entry := {| ae_hash := hash; ae_verdict := Some cacheable; ae_complete := None; ae_lenses := None; ae_failures := None;
                                ae_passVerdict := None; ae_failVerdict := None; ae_subjectHash := subjectHash |} in
                let '(persisted, t) := writeTaskCache entry t in
                if persisted then (Ok cacheable, t) else (failed_with " could not persist canonical task evidence", t)
              else if str_includes out "VERDICT:" then (failed_with " verdict falls outside persisted evidence bound", t)
              else (Ok cacheable, t)
          end
      end
  end.
Definition cached_audit (t : AuditTables) : result string string * AuditTables :=
  match dc_lenses d with
  | Some lenses => cached_fanout lenses t
  | None => cached_review (default "" (dc_prompt d)) t
  end.
End Run.
End CachedAudit.
