(* ===== verification/GuardContext.v ===== *)
(** * The guard context ([src/src/runtime/loop/guard_context.ts], [scope_audit_policy.ts], [functions/read_rubric.ts])

    What a cartridge's conditions see: the event, the state, and for each audit
    channel a pack declares the verdict of its stored evidence.  A channel about
    an approved artifact reads a verdict only from evidence that certifies the
    artifact's current bytes under the lens prompts of the pack's own audit
    rule. *)

From Stdlib Require Import Ascii String.
From stdpp Require Import base option list strings gmap pretty.
From S2P Require Import Prelude Json CanonicalJson ExprSyntax ExprEval LoopEvents AuditEvidence Evaluator Skills Safety.
#[local] Open Scope os_scope.

(** ** The declared policy *)
Inductive AuditSubject := cache | approved_artifact.
Record AuditBinding := { ab_cache_key : string; ab_rule : string; ab_rubric : string; ab_subject : AuditSubject; ab_writes : option (list string) }.
Record PolicyLens := { pl_id : string; pl_promptTemplate : string }.
Record ScopeAuditPolicy := { sp_lenses : list PolicyLens; sp_rubric : string }.
(** A policy is absent (no such rule), refused ([null]) or declared. *)
Inductive PolicyRead := NoPolicy | RefusedPolicy | Policy (p : ScopeAuditPolicy).

Definition MAX_RUBRIC : nat := N.to_nat 64000.
(** A file of the package, by its path segments. *)
Definition readRubricContent (package : list string -> option string) (name pack : string) : option string :=
  match package ["packs"; "builtin"; pack; "rubric"; name +:+ ".md"] with
  | Some content => if Nat.ltb MAX_RUBRIC (String.length content) then None else Some content
  | None => None
  end.
Definition raw_lens (v : JsValue) : option PolicyLens :=
  match v with
  | JsObj o =>
      match obj_get "id" o, obj_get "prompt" o with
      | Some (JsStr id), Some (JsStr prompt) => Some {| pl_id := id; pl_promptTemplate := prompt |}
      | _, _ => None
      end
  | _ => None
  end.
Definition policy_of_process (package : list string -> option string) (packName : string) (b : AuditBinding) (process : list ProcessStep) : PolicyRead :=
  match List.find (fun s => (ps_call s =? "cached_audit")%string) process with
  | Some step =>
      match ps_args step ≫= obj_get "lenses" with
      | Some (JsArr raw) =>
          let lenses := omap raw_lens raw in
          if negb (Nat.eqb (List.length lenses) (List.length raw)) || negb (Nat.eqb (List.length (set_of (map pl_id lenses))) (List.length lenses))
          then RefusedPolicy
          else match readRubricContent package (ab_rubric b) packName with
               | Some rubric => Policy {| sp_lenses := lenses; sp_rubric := rubric |}
               | None => RefusedPolicy
               end
      | _ => RefusedPolicy
      end
  | None => RefusedPolicy
  end.
(** The first rule of that id with a process decides. *)
Definition readAuditPolicy (package : list string -> option string) (packName : string) (skills : list Skill) (b : AuditBinding) : PolicyRead :=
  match omap (fun r => match r with TrackCheck id _ process => if (id =? ab_rule b)%string then Some process else None | DestinationCheck _ => None end)
             (flat_map sk_rules skills) with
  | process :: _ => policy_of_process package packName b process
  | [] => NoPolicy
  end.

(** ** Rendering a prompt *)
(** The replacement text of [replaceAll] with a string pattern: [$$], [$&],
    [$`] and [$'] stand for a dollar, the match and the text around it. *)
Fixpoint expand_replacement (repl matched before_ after_ : string) : string :=
  match repl with
  | EmptyString => ""
  | String c r =>
      match r with
      | String d r' =>
          if Ascii.eqb c "$" then
            if Ascii.eqb d "$" then String c (expand_replacement r' matched before_ after_)
            else if Ascii.eqb d "&" then matched +:+ expand_replacement r' matched before_ after_
            else if Ascii.eqb d "`" then before_ +:+ expand_replacement r' matched before_ after_
            else if Ascii.eqb d "'" then after_ +:+ expand_replacement r' matched before_ after_
            else String c (expand_replacement r matched before_ after_)
          else String c (expand_replacement r matched before_ after_)
      | EmptyString => repl
      end
  end.
(** Each turn consumes a character; [before_] is what was read. *)
Fixpoint replace_from (fuel : nat) (pattern replacement before_ s : string) : string :=
  match fuel, s with
  | S fuel, String c r =>
      if starts_with s pattern then
        let after_ := String.substring (String.length pattern) (String.length s - String.length pattern) s in
        expand_replacement replacement pattern before_ after_ +:+ replace_from fuel pattern replacement (before_ +:+ pattern) after_
      else String c (replace_from fuel pattern replacement (before_ +:+ String c "") r)
  | _, _ => ""
  end.
Definition replaceAll (s pattern replacement : string) : string := replace_from (String.length s) pattern replacement "" s.

Section Context_.
Context (sha256Hex : string -> string).

Record ScopeAuditEntry := { se_verdict : string; se_subjectHash : option string; se_complete : option bool; se_lenses : option (list (string * string)) }.
Definition rendered (policy : ScopeAuditPolicy) (artifact : string) (lens : PolicyLens) : string :=
  replaceAll (replaceAll (pl_promptTemplate lens) "{{rubric}}" (sp_rubric policy)) "{{effective}}" artifact.
Definition scopeAuditExpectedLenses (artifact : string) (policy : ScopeAuditPolicy) : list (string * string) :=
  map (fun lens => (pl_id lens, sha256Hex (rendered policy artifact lens))) (sp_lenses policy).
Definition auditEntryCertifiesSubject (entry : option ScopeAuditEntry) (currentHash : string) (expectedLenses : option (list (string * string))) : bool :=
  match entry with
  | None => false
  | Some e =>
      bool_decide (se_subjectHash e = Some currentHash) &&
      match expectedLenses with
      | None => true
      | Some expected =>
          match se_lenses e with
          | None => false
          | Some lenses =>
              let actual : gmap string string := list_to_map (reverse lenses) in
              bool_decide (se_complete e = Some true) && Nat.eqb (List.length lenses) (List.length expected) &&
              Nat.eqb (size actual) (List.length expected) &&
              forallb (fun l => bool_decide (actual !! l.1 = Some l.2)) expected
          end
      end
  end.
Definition asTaskAuditEntry (entry : option AuditEntry) : option ScopeAuditEntry :=
  e ← entry; verdict ← deriveAuditEvidenceVerdict e;
  Some {| se_verdict := verdict; se_subjectHash := ae_subjectHash e; se_complete := ae_complete e;
          se_lenses := map (fun l => (al_id l, al_promptHash l)) <$> ae_lenses e |}.

(** ** Reading verdicts *)
(** What the readers of a session see: its task and the task's tables, the
    artifacts of its checkpoint ([None] when the read fails) and the files. *)
Record AuditView := { av_task : option string; av_tables : AuditTables; av_artifacts : option (list string); av_file : string -> option string }.
Definition readAuditVerdict (v : AuditView) (key : string) : option string :=
  se_verdict <$> asTaskAuditEntry (readTaskAuditCache (av_task v) key (av_tables v)).
Definition artifact_path (v : AuditView) (livePath : option string) : option string :=
  match livePath with
  | Some p => if (p =? "")%string then av_artifacts v ≫= last else Some p
  | None => av_artifacts v ≫= last
  end.
Definition candidates (v : AuditView) (cacheKey : string) : list (option ScopeAuditEntry) :=
  asTaskAuditEntry (readTaskAuditCache (av_task v) cacheKey (av_tables v)) ::
  map (fun a => asTaskAuditEntry (Some a.1)) (readTaskAuditHistory (av_task v) cacheKey 20 (av_tables v)).
Definition readFreshAuditVerdict (v : AuditView) (cacheKey : string) (livePath : option string) (policy : PolicyRead) : option string :=
  match policy with
  | RefusedPolicy => None
  | _ =>
      path ← artifact_path v livePath;
      artifact ← av_file v path;
      let expected := match policy with Policy p => Some (scopeAuditExpectedLenses artifact p) | _ => None end in
      e ← mjoin (List.find (fun e => auditEntryCertifiesSubject e (sha256Hex artifact) expected) (candidates v cacheKey));
      Some (se_verdict e)
  end.

(** ** The context *)
Record BaseGuardContext := { bg_values : gmap string JsValue; bg_approvedArtifactPath : option string }.
(** An event's [args.file_path] where the event writes a file. *)
Definition written_path (event : Event) : option string :=
  match event_text event "tool", obj_get "file_path" (event_args event) with
  | Some tool, Some (JsStr p) => if toolMatchesAny tool ["Write"; "Edit"] then Some p else None
  | _, _ => None
  end.
Definition approved_path `{Globs} (event : Event) (approvedWrites : option (list string)) : option string :=
  match written_path event with
  | Some p => if matchesLane p (default [] approvedWrites) then Some p else None
  | None => None
  end.
Definition channel_verdict (v : AuditView) (livePath : option string) (declaration : AuditBinding * PolicyRead) : option string :=
  match ab_subject declaration.1 with
  | approved_artifact => readFreshAuditVerdict v (ab_cache_key declaration.1) livePath declaration.2
  | cache => readAuditVerdict v (ab_cache_key declaration.1)
  end.
Definition verdict_value (o : option string) : JsValue := match o with Some s => JsStr s | None => JsUndef end.
Definition buildBaseGuardContext `{Globs} (v : AuditView) (event : Event) (stateId : string) (approvedWrites : option (list string))
    (audits : list (string * (AuditBinding * PolicyRead))) : BaseGuardContext :=
  let path := approved_path event approvedWrites in
  let verdicts := map (fun c => (c.1, verdict_value (channel_verdict v path c.2))) audits in
  let start : gmap string JsValue :=
    match event_text event "tool" with Some tool => <["tool" := JsStr tool]> | None => id end {["event" := JsStr (kind_text (ev_kind event))]} in
  {| bg_values := <["audit" := JsObj verdicts]>
       (foldl (fun m c => <["audit." +:+ c.1 := c.2]> m) (<["phase" := JsStr stateId]> start) verdicts);
     bg_approvedArtifactPath := path |}.
End Context_.
