(* ===== verification/GuardContextProps.v ===== *)
(** * What a guard reads of the audits

    A fresh verdict certifies the artifact's current bytes; and what the audit
    primitive stores is never of the shape a declared policy certifies. *)

From Stdlib Require Import Ascii String.
From stdpp Require Import base option list strings gmap pretty.
From S2P Require Import Prelude Json JsonText CanonicalJson ExprSyntax ExprEval LoopEvents AuditEvidence AuditProps CachedAudit Evaluator Skills Safety GuardContext.
#[local] Open Scope os_scope.

(** ** What is stored *)
Definition stored (t : AuditTables) (e : AuditEntry) : Prop :=
  (exists k text, au_latest t !! k = Some text /\ decode text = Some e) \/ (exists a, a ∈ au_history t /\ decode (at_text a) = Some e).
Lemma text_of_exact ok s s' : text_of ok (JStr s) = Some s' -> s' = s.
Proof. cbn. case_match; [|done]. by intros [= <-]. Qed.
Lemma lens_of_exact l l' : lens_of (lens_value l) = Some l' -> l' = l.
Proof.
  unfold lens_of. intros H. parsed. injection H as <-. unfold strict, lens_value in *.
  repeat match goal with H : (if _ then Some _ else None) = Some _ |- _ => injection H as <- end.
  repeat match goal with H : required _ _ _ = Some _ |- _ => cbv [required] in H; cbn [obj_get mbind option_bind String.eqb Ascii.eqb Bool.eqb] in H; apply text_of_exact in H end.
  subst. by destruct l.
Qed.
Lemma failure_of_exact f f' : failure_of (failure_value f) = Some f' -> f' = f.
Proof.
  unfold failure_of. intros H. parsed. injection H as <-. unfold strict, failure_value in *.
  repeat match goal with H : (if _ then Some _ else None) = Some _ |- _ => injection H as <- end.
  repeat match goal with H : required _ _ _ = Some _ |- _ => cbv [required] in H; cbn [obj_get mbind option_bind String.eqb Ascii.eqb Bool.eqb] in H; apply text_of_exact in H end.
  subst. by destruct f.
Qed.
Lemma list_of_exact {A} (f : Json -> option A) (g : A -> Json) l l' : (forall a b, f (g a) = Some b -> b = a) -> list_of f (JArr (map g l)) = Some l' -> l' = l.
Proof.
  intros Hf. cbn. case_match; [|done]. intros Hm%mapM_Some. apply Forall2_fmap_l in Hm. symmetry. apply list_eq_Forall2.
  eapply Forall2_impl; [exact Hm|]. intros a b Hab. cbn. symmetry. by apply Hf.
Qed.
Lemma optional_exact {A} k (f : Json -> option A) (g : A -> Json) o x y :
  obj_get k o = g <$> x -> (forall a b, f (g a) = Some b -> b = a) -> optional k f o = Some y -> y = x.
Proof. unfold optional. intros -> Hf. destruct x as [a|]; cbn; [|by intros [= <-]]. destruct (f (g a)) eqn:E; [|done]. intros [= <-]. f_equal. by apply Hf. Qed.
Lemma parse_exact e e' : parseAuditEvidenceEntry (entry_value e) = Some e' -> e' = e.
Proof.
  unfold parseAuditEvidenceEntry. rewrite entry_strict. cbn [mbind option_bind]. intros H. parsed. case_match; [|done]. injection H as <-.
  destruct (entry_fields e) as (E1 & E2 & E3 & E4 & E5 & E6 & E7 & E8).
  repeat match goal with
  | H : optional "complete" _ _ = Some _ |- _ => eapply optional_exact in H; [|exact E3|by intros ? ? [= <-]]
  | H : optional "lenses" _ _ = Some _ |- _ => eapply optional_exact in H; [|exact E4|intros ? ?; apply list_of_exact, lens_of_exact]
  | H : optional "failures" _ _ = Some _ |- _ => eapply optional_exact in H; [|exact E5|intros ? ?; apply list_of_exact, failure_of_exact]
  | H : optional _ (text_of _) _ = Some _ |- _ => eapply optional_exact in H; [|eassumption|intros ? ?; apply text_of_exact]
  | H : required "hash" _ _ = Some _ |- _ => unfold required in H; rewrite E1 in H; cbn [mbind option_bind] in H; apply text_of_exact in H
  end.
  subst. by destruct e.
Qed.
Lemma write_stores task key e now t e' : stored (writeTaskAuditCache task key e now t).2 e' -> stored t e' \/ e' = e.
Proof.
  unfold writeTaskAuditCache. destruct (parseAuditEvidenceEntry (entry_value e)) as [v|] eqn:Hv; [|by left]. destruct task as [task|]; [|by left].
  pose proof (decode_entry v (parsed_fine _ _ Hv)) as Hd. apply parse_exact in Hv as ->.
  intros [(k & text & Hk & Ht)|(a & Ha & Ht)]; cbn [snd au_latest au_history] in *.
  - destruct (decide (k = (task, key))) as [->|Hne]; [rewrite lookup_insert_eq in Hk|rewrite lookup_insert_ne in Hk by done].
    + right. assert (text = stringify (entry_value e)) as -> by congruence. congruence.
    + left. left. eauto.
  - apply list_elem_of_filter in Ha as [_ [Ha| ->%list_elem_of_singleton]%elem_of_app]; [by left; right; eauto|]. right. cbn [at_text] in Ht. congruence.
Qed.
Lemma read_stored task key t e : readTaskAuditCache task key t = Some e -> stored t e.
Proof.
  destruct task as [task|]; [|done]. cbn. unfold readTaskAuditCacheForTask. destruct (au_latest t !! (task, key)) as [text|] eqn:E; [|done].
  intros H. left. eauto.
Qed.
Lemma history_stored task key n t e at_ : (e, at_) ∈ readTaskAuditHistory task key n t -> stored t e.
Proof.
  destruct task as [task|]; cbn; [|by intros []%elem_of_nil]. unfold readTaskAuditHistoryForTask. intros (a & Ha & Hd)%list_elem_of_omap.
  destruct (decode (at_text a)) as [x|] eqn:E; [|done]. injection Hd as -> _. right. exists a. split; [|done].
  apply elem_of_take in Ha as (i & Hi & _). apply list_elem_of_lookup_2 in Hi. unfold attempts in Hi. apply list_elem_of_filter in Hi as [_ Hi]. by apply elem_of_reverse.
Qed.

(** ** Fresh verdicts *)
Section Fresh.
Context (sha256Hex : string -> string).
Lemma task_entry e s : asTaskAuditEntry (Some e) = Some s -> deriveAuditEvidenceVerdict e = Some (se_verdict s) /\
  se_subjectHash s = ae_subjectHash e /\ se_complete s = ae_complete e /\ se_lenses s = map (fun l => (al_id l, al_promptHash l)) <$> ae_lenses e.
Proof. unfold asTaskAuditEntry. cbn. destruct (deriveAuditEvidenceVerdict e); [|done]. by intros [= <-]. Qed.
Lemma candidate_stored v key s : Some s ∈ candidates v key -> exists e, stored (av_tables v) e /\ asTaskAuditEntry (Some e) = Some s.
Proof.
  unfold candidates. intros [E|H]%elem_of_cons.
  - destruct (readTaskAuditCache _ _ _) as [e|] eqn:Hr; [|done]. exists e. split; [by eapply read_stored|done].
  - apply list_elem_of_fmap in H as ([e at_] & Hs & He). exists e. split; [by eapply history_stored|done].
Qed.
Lemma certifies_lenses s hash expected : auditEntryCertifiesSubject (Some s) hash (Some expected) = true ->
  se_complete s = Some true /\ exists lenses, se_lenses s = Some lenses /\ List.length lenses = List.length expected /\ forall l, l ∈ expected -> l ∈ lenses.
Proof.
  cbn. rewrite andb_true_iff. intros [_ H]. destruct (se_lenses s) as [lenses|]; [|done].
  rewrite !andb_true_iff, bool_decide_eq_true, Nat.eqb_eq in H. destruct H as [[[Hc Hl] _] H]. split; [done|]. exists lenses. split; [done|]. split; [done|].
  intros [id h] Hin. rewrite forallb_forall in H. specialize (H (id, h)). rewrite <- list_elem_of_In, bool_decide_eq_true in H. specialize (H Hin).
  apply elem_of_list_to_map_2 in H. by apply elem_of_reverse.
Qed.
Lemma fresh_inv v key live policy verdict : readFreshAuditVerdict sha256Hex v key live policy = Some verdict ->
  policy <> RefusedPolicy /\ exists path artifact e s, artifact_path v live = Some path /\ av_file v path = Some artifact /\
    stored (av_tables v) e /\ asTaskAuditEntry (Some e) = Some s /\ se_verdict s = verdict /\
    auditEntryCertifiesSubject (Some s) (sha256Hex artifact) (match policy with Policy p => Some (scopeAuditExpectedLenses sha256Hex artifact p) | _ => None end) = true.
Proof.
  intros H. assert (Hp : policy <> RefusedPolicy) by (by intros ->). split; [done|].
  assert (Hx : exists path artifact s, artifact_path v live = Some path /\ av_file v path = Some artifact /\
    List.find (fun e => auditEntryCertifiesSubject e (sha256Hex artifact) (match policy with Policy p => Some (scopeAuditExpectedLenses sha256Hex artifact p) | _ => None end)) (candidates v key) = Some (Some s) /\
    se_verdict s = verdict).
  { unfold readFreshAuditVerdict in H. destruct policy; try done; parsed; injection H as <-;
    match goal with H : mjoin ?x = Some _ |- _ => destruct x as [[s|]|] eqn:Hf; try done; injection H as -> end; eauto 10. }
  destruct Hx as (path & artifact & s & H1 & H2 & Hf & Hv). apply List.find_some in Hf as [Hin%list_elem_of_In Hc].
  destruct (candidate_stored _ _ _ Hin) as (e & He & Hs). exists path, artifact, e, s. done.
Qed.
End Fresh.

(** ** What the primitive stores *)
Section Stored.
Context (sha256Hex : string -> string).
Definition policy_hashed (h : string) : Prop :=
  exists model lens pass fail timeout, h = auditLensPolicyHash sha256Hex model lens pass fail timeout.
Definition lenses_hashed (e : AuditEntry) : Prop := forall lenses, ae_lenses e = Some lenses -> Forall (fun l => policy_hashed (al_promptHash l)) lenses.
(** Tables that only the audit primitive writes, whatever it audits and is answered. *)
Inductive audited : AuditTables -> Prop :=
| audited_none : audited no_audits
| audited_run task now strategy key d t : audited t -> audited (cached_audit sha256Hex task now strategy key d t).2.
Lemma cached_entry_stored task key t e : e ∈ readCachedEntries task key t -> stored t e.
Proof.
  unfold readCachedEntries. destruct (map fst _) as [|x l] eqn:E.
  - destruct (readTaskAuditCache task key t) eqn:Hr; [|by intros []%elem_of_nil]. intros ->%list_elem_of_singleton. by eapply read_stored.
  - rewrite <- E. intros ([e' at_] & -> & He)%list_elem_of_fmap. by eapply history_stored.
Qed.
Lemma authorized_stored task key d t e : e ∈ authorized sha256Hex task key d t -> stored t e.
Proof. unfold authorized. rewrite list_elem_of_In, filter_In. intros [H _]. apply list_elem_of_In in H. by eapply cached_entry_stored. Qed.
Lemma fanout_hashed lenses cached lensHash review : (forall id p, cached id = Some p -> policy_hashed (al_promptHash p)) -> (forall l, policy_hashed (lensHash l)) ->
  Forall (fun l => policy_hashed (al_promptHash l)) (fo_completed (fanout lenses cached lensHash review)).
Proof.
  intros Hc Hh. induction lenses as [|lens lenses IH]; cbn; [constructor|]. destruct (cached (ld_id lens)) as [p|] eqn:Ep.
  - destruct (al_promptHash p =? lensHash lens)%string; [constructor; [by eapply Hc|done]|].
    destruct (review lens); cbn; [|done]. constructor; [apply Hh|done].
  - destruct (review lens); cbn; [|done]. constructor; [apply Hh|done].
Qed.
Lemma prior_hashed task key d limit t lenses id p : (forall e, stored t e -> lenses_hashed e) ->
  priorLenses sha256Hex task key d limit t lenses id = Some p -> policy_hashed (al_promptHash p).
Proof.
  intros Ht. unfold priorLenses. intros H. apply elem_of_list_to_map_2 in H. rewrite elem_of_reverse in H. apply list_elem_of_omap in H as (lens & _ & H).
  destruct (prior_lens _ _ _ _ _ _ _) as [q|] eqn:Eq; [|done]. injection H as _ ->. unfold prior_lens in Eq.
  destruct (List.find _ _) as [l|] eqn:Ef; [|done]. injection Eq as <-. cbn. apply List.find_some in Ef as [Hin _].
  apply in_flat_map in Hin as (e & He & Hl). apply list_elem_of_In, authorized_stored in He. specialize (Ht _ He).
  destruct (ae_lenses e) as [ls|] eqn:El; [|done]. specialize (Ht _ El). rewrite Forall_forall in Ht. apply Ht. by apply list_elem_of_In.
Qed.
Lemma best_authorized task key d t hash e : bestExactEntry (authorized sha256Hex task key d t) hash = Some e -> stored t e.
Proof. unfold bestExactEntry. intros [H _]%List.find_some. eapply authorized_stored. by apply list_elem_of_In. Qed.
Lemma wrote task now key e t b t2 e' : writeTaskCache task now key e t = (b, t2) -> lenses_hashed e -> stored t2 e' -> stored t e' \/ lenses_hashed e'.
Proof. unfold writeTaskCache. intros [= _ <-] He [?| ->]%write_stores; [by left|by right]. Qed.
Lemma cached_fanout_stores task now strategy key d lenses t e' : (forall e, stored t e -> lenses_hashed e) ->
  stored (cached_fanout sha256Hex task now strategy key d lenses t).2 e' -> stored t e' \/ lenses_hashed e'.
Proof.
  intros Ht. unfold cached_fanout.
  destruct (match bestExactEntry _ _ with Some e => _ | None => None end) as [e|] eqn:Eb.
  - assert (He : stored t e).
    { destruct (bestExactEntry _ _) as [x|] eqn:Ex; [|done]. destruct (_ && _); [|done]. injection Eb as ->. by eapply best_authorized. }
    destruct (writeTaskCache task now key e t) as [[] t2] eqn:Ew; cbn [snd]; (eapply wrote; [exact Ew|by apply Ht]).
  - destruct strategy as [[call|]|x]; [|by left|by left]. cbv zeta.
    match goal with |- context [writeTaskCache task now key ?e t] => destruct (writeTaskCache task now key e t) as [b t2] eqn:Ew; assert (He : lenses_hashed e) end.
    { intros l [= <-]. apply fanout_hashed; [|intros; unfold policy_hashed; by repeat eexists]. intros id p. by apply prior_hashed. }
    intros H. eapply wrote; [exact Ew|exact He|]. destruct b; cbn [negb] in H; [|exact H]. by destruct (bool_decide _).
Qed.
Lemma cached_review_stores task now strategy key d prompt t e' : (forall e, stored t e -> lenses_hashed e) ->
  stored (cached_review sha256Hex task now strategy key d prompt t).2 e' -> stored t e' \/ lenses_hashed e'.
Proof.
  intros Ht. unfold cached_review.
  destruct (match bestExactEntry _ _ with Some e => _ | None => None end) as [[e v]|] eqn:Eb.
  - assert (He : stored t e).
    { destruct (bestExactEntry _ _) as [x|] eqn:Ex; [|done]. destruct (ae_verdict x); [|done]. destruct (_ =? _)%string; [done|]. injection Eb as -> _. by eapply best_authorized. }
    destruct (writeTaskCache task now key e t) as [[] t2] eqn:Ew; cbn [snd]; (eapply wrote; [exact Ew|by apply Ht]).
  - destruct strategy as [[call|]|x]; [|by left|by left]. destruct (call prompt) as [out|x]; [|by left].
    destruct (str_includes (truncateUtf8 _ _) _); [|destruct (str_includes out _); by left].
    match goal with |- context [writeTaskCache task now key ?e t] => destruct (writeTaskCache task now key e t) as [b t2] eqn:Ew; assert (He : lenses_hashed e) by done end.
    intros H. eapply wrote; [exact Ew|exact He|]. by destruct b.
Qed.
Lemma audited_hashed t : audited t -> forall e, stored t e -> lenses_hashed e.
Proof.
  induction 1 as [|task now strategy key d t _ IH]; intros e He.
  - destruct He as [(k & text & Hk & _)|(a & Ha & _)]; [cbn [no_audits au_latest] in Hk; by rewrite lookup_empty in Hk|by apply elem_of_nil in Ha].
  - unfold cached_audit in He. destruct (dc_lenses d); [apply cached_fanout_stores in He|apply cached_review_stores in He]; try done; destruct He; auto.
Qed.

(** A lens template that opens with anything but a brace renders to a text no policy identity has. *)
Definition opens_plainly (s : string) : Prop := match s with String c _ => c <> "{"%char | EmptyString => False end.
Lemma replaceAll_opens s pattern replacement : starts_with pattern "{" = true -> opens_plainly s -> opens_plainly (replaceAll s pattern replacement).
Proof.
  destruct s as [|c s]; [done|]. cbn [opens_plainly]. intros Hp Hc. unfold replaceAll. cbn [String.length replace_from].
  destruct pattern as [|p0 pattern]; [done|]. assert (p0 = "{"%char) as ->.
  { unfold starts_with in Hp. cbn [String.prefix] in Hp. by destruct (ascii_dec "{" p0). }
  assert (starts_with (String c s) (String "{" pattern) = false) as ->; [|done].
  unfold starts_with. cbn [String.prefix]. by destruct (ascii_dec "{" c) as [<-|].
Qed.
Lemma rendered_plain policy artifact lens : opens_plainly (pl_promptTemplate lens) -> opens_plainly (rendered policy artifact lens).
Proof. intros H. unfold rendered. by apply replaceAll_opens, replaceAll_opens. Qed.
Lemma identity_opens o : ~ opens_plainly (stringify (JObj o)).
Proof. cbn. unfold printObj. cbn. intros H. by apply H. Qed.
End Stored.

(** ** The claims *)
(** C14: A fresh verdict certifies the present: what a channel about an approved artifact reads is the verdict of stored evidence
    whose subject is the hash of the artifact's current bytes and, under a declared policy, that is complete and has, for every
    lens the pack's rule declares and no other, the hash of the prompt rendered on those bytes; a refused policy, an unreadable
    artifact and evidence about other bytes give none. *)
Theorem fresh_verdict_certifies sha v key live policy verdict : readFreshAuditVerdict sha v key live policy = Some verdict ->
  policy <> RefusedPolicy /\ exists path artifact e, artifact_path v live = Some path /\ av_file v path = Some artifact /\
    stored (av_tables v) e /\ deriveAuditEvidenceVerdict e = Some verdict /\ ae_subjectHash e = Some (sha artifact) /\
    forall p, policy = Policy p -> ae_complete e = Some true /\ exists lenses, ae_lenses e = Some lenses /\
      List.length lenses = List.length (sp_lenses p) /\
      forall lens, lens ∈ sp_lenses p -> exists l, l ∈ lenses /\ al_id l = pl_id lens /\ al_promptHash l = sha (rendered p artifact lens).
Proof.
  intros H. destruct (fresh_inv _ _ _ _ _ _ H) as (Hp & path & artifact & e & s & H1 & H2 & He & Hs & <- & Hc). split; [done|].
  destruct (task_entry _ _ Hs) as (Hd & Hsub & Hcomp & Hl). exists path, artifact, e. split_and!; try done.
  { cbn in Hc. rewrite andb_true_iff, bool_decide_eq_true in Hc. rewrite <- Hsub. apply Hc. }
  intros p ->. apply certifies_lenses in Hc as (Hc & lenses & Hls & Hlen & Hin). rewrite <- Hcomp. split; [done|].
  rewrite Hl in Hls. destruct (ae_lenses e) as [ls|]; [|done]. injection Hls as <-. exists ls. split; [done|].
  unfold scopeAuditExpectedLenses in *. rewrite !length_map in Hlen. split; [done|]. intros lens Hlens.
  specialize (Hin (pl_id lens, sha (rendered p artifact lens))). destruct (proj1 (list_elem_of_fmap _ _ _) (Hin ltac:(apply list_elem_of_fmap; by exists lens))) as (l & [= E1 E2] & Hl').
  exists l. done.
Qed.

(** What the audit primitive writes, the freshness check never accepts: over tables that any number of audits have filled, a
    channel about an approved artifact whose policy is declared reads no verdict, because a stored lens is named by the hash of
    its whole policy and the check expects the hash of its rendered prompt - unless two different texts have one hash. *)
Lemma declared_policy_never_certified sha t v key live p : audited sha t -> av_tables v = t ->
  sp_lenses p <> [] -> Forall (fun lens => opens_plainly (pl_promptTemplate lens)) (sp_lenses p) ->
  readFreshAuditVerdict sha v key live (Policy p) = None \/ exists x y, x <> y /\ sha x = sha y.
Proof.
  intros Ht <- Hne Hplain. destruct (readFreshAuditVerdict sha v key live (Policy p)) as [verdict|] eqn:Hr; [right|by left].
  destruct (fresh_inv _ _ _ _ _ _ Hr) as (_ & path & artifact & e & s & _ & _ & He & Hs & _ & Hc).
  destruct (task_entry _ _ Hs) as (_ & _ & _ & Hl). apply certifies_lenses in Hc as (_ & lenses & Hls & _ & Hin).
  rewrite Hl in Hls. destruct (ae_lenses e) as [ls|] eqn:El; [|done]. injection Hls as <-.
  pose proof (audited_hashed sha _ Ht _ He _ El) as Hh. destruct (sp_lenses p) as [|lens rest] eqn:Ep; [done|].
  apply Forall_cons in Hplain as [Hlens _].
  specialize (Hin (pl_id lens, sha (rendered p artifact lens))). destruct (proj1 (list_elem_of_fmap _ _ _) (Hin ltac:(unfold scopeAuditExpectedLenses; rewrite Ep; by left))) as (l & [= _ E] & Hl').
  rewrite Forall_forall in Hh. destruct (Hh _ Hl') as (model & decl & pass & fail & timeout & E2).
  exists (rendered p artifact lens), (stringify (lens_identity model decl pass fail timeout)). split; [|unfold auditLensPolicyHash in E2; congruence].
  intros E3. eapply (identity_opens (match lens_identity model decl pass fail timeout with JObj o => o | _ => [] end)).
  change (JObj _) with (lens_identity model decl pass fail timeout). rewrite <- E3. by apply rendered_plain.
Qed.

(** ** What the primitive answers *)
Section Current.
Context (sha256Hex : string -> string) (task : option string) (now : Z) (strategy : result string (option (string -> result string string))).
Context (key : string) (d : Declaration) (t : AuditTables).
Definition current_for (lens : LensDecl) (a : AuditLens) : Prop :=
  al_id a = ld_id lens /\ al_promptHash a = lensPolicyHash sha256Hex d lens.
(** Output of evidence the task already had under this key, about the current subject and made under the lens's policy. *)
Definition reused (limit : nat) (lens : LensDecl) (output : string) : Prop :=
  exists e l, e ∈ readCachedEntries task key t /\ ae_subjectHash e = subjectHash sha256Hex d /\ l ∈ default [] (ae_lenses e) /\
    current_for lens l /\ (output = al_output l \/ output = truncateUtf8 (al_output l) limit).
(** Output of the configured model, asked the prompt of the lens just now. *)
Definition answered (limit : nat) (lens : LensDecl) (output : string) : Prop :=
  exists call out, strategy = Ok (Some call) /\ call (renderAuditLensPrompt lens) = Ok out /\
    str_includes out "VERDICT:" = true /\ output = truncateUtf8 out limit.
Definition per_lens_limit (lenses : list LensDecl) : nat := Nat.max 1024 (MAX_AUDIT_AGGREGATE_EVIDENCE_BYTES / List.length lenses).
Definition backed (limit : nat) (lens : LensDecl) (a : AuditLens) : Prop :=
  current_for lens a /\ (reused limit lens (al_output a) \/ answered limit lens (al_output a)).
Lemma lens_current_spec lens a : lens_current sha256Hex d lens a = true <-> current_for lens a.
Proof. unfold lens_current. by rewrite andb_true_iff, !String.eqb_eq. Qed.
Lemma authorized_spec e : e ∈ authorized sha256Hex task key d t <-> e ∈ readCachedEntries task key t /\ ae_subjectHash e = subjectHash sha256Hex d.
Proof. unfold authorized. by rewrite list_elem_of_In, filter_In, <- list_elem_of_In, bool_decide_eq_true. Qed.
Lemma exact_backed limit lenses e : e ∈ authorized sha256Hex task key d t -> exactLenses sha256Hex d lenses e = true ->
  Forall2 (backed limit) lenses (default [] (ae_lenses e)).
Proof.
  intros [Hin Hs]%authorized_spec. unfold exactLenses. destruct (ae_lenses e) as [l|] eqn:El; [|done]. cbn [default from_option id].
  assert (forall a, a ∈ l -> a ∈ default [] (ae_lenses e)) as Hl by (by rewrite El). revert Hl. clear El.
  rewrite andb_true_iff, Nat.eqb_eq. revert l. induction lenses as [|lens lenses IH]; intros [|a l] Hl [Hlen Hall]; try done.
  cbn in Hlen, Hall. apply andb_true_iff in Hall as [Ha%lens_current_spec Hall]. constructor.
  - split; [done|]. left. exists e, a. split_and!; [done|done|apply Hl; left|done|by left].
  - apply IH; [|split; [lia|done]]. intros b Hb. apply Hl. by right.
Qed.
Lemma prior_from limit lenses id p : priorLenses sha256Hex task key d limit t lenses id = Some p ->
  exists e l, e ∈ authorized sha256Hex task key d t /\ l ∈ default [] (ae_lenses e) /\
    p = {| al_id := al_id l; al_promptHash := al_promptHash l; al_output := truncateUtf8 (al_output l) limit |} /\ al_id l = id.
Proof.
  unfold priorLenses. intros H. apply elem_of_list_to_map_2 in H. rewrite elem_of_reverse in H. apply list_elem_of_omap in H as (lens & _ & H).
  destruct (prior_lens _ _ _ _ _ _ _) as [q|] eqn:Eq; [|done]. injection H as <- ->. unfold prior_lens in Eq.
  destruct (List.find _ _) as [l|] eqn:Ef; [|done]. injection Eq as <-. apply List.find_some in Ef as [Hin [Hc _]%lens_current_spec].
  apply in_flat_map in Hin as (e & He & Hl). exists e, l. by rewrite !list_elem_of_In.
Qed.
Lemma fanout_backed limit all lenses call : strategy = Ok (Some call) ->
  let f := fanout lenses (priorLenses sha256Hex task key d limit t all) (lensPolicyHash sha256Hex d) (reviewed limit call) in
  fo_failures f = [] -> Forall2 (backed limit) lenses (fo_completed f).
Proof.
  intros Hcall. cbn zeta. induction lenses as [|lens lenses IH]; cbn [fanout]; [constructor|]. intros H.
  assert (Hreview : forall o, reviewed limit call lens = Ok o ->
    backed limit lens {| al_id := ld_id lens; al_promptHash := lensPolicyHash sha256Hex d lens; al_output := o |}).
  { intros o. unfold reviewed. destruct (call (renderAuditLensPrompt lens)) as [out|x] eqn:Ec; [|done]. cbn.
    destruct (str_includes out "VERDICT:") eqn:Ev; [|done]. intros [= <-]. split; [done|]. right. by exists call, out. }
  destruct (priorLenses _ _ _ _ _ _ _ (ld_id lens)) as [p|] eqn:Ep.
  - destruct (String.eqb_spec (al_promptHash p) (lensPolicyHash sha256Hex d lens)) as [E|_].
    + cbn in H |- *. constructor; [|by apply IH]. apply prior_from in Ep as (e & l & [He Hs]%authorized_spec & Hl & -> & Hid). cbn in E.
      split; [done|]. left. exists e, l. split_and!; [done..|by right].
    + destruct (reviewed limit call lens) as [o|x] eqn:Er; [|done]. cbn in H |- *. constructor; [by apply Hreview|by apply IH].
  - destruct (reviewed limit call lens) as [o|x] eqn:Er; [|done]. cbn in H |- *. constructor; [by apply Hreview|by apply IH].
Qed.
Lemma written_latest e t1 t2 : writeTaskCache task now key e t1 = (true, t2) -> readTaskAuditCache task key t2 = Some e.
Proof.
  unfold writeTaskCache, writeTaskAuditCache. destruct (parseAuditEvidenceEntry (entry_value e)) as [v|] eqn:Hv; [|done].
  destruct task as [k|]; [|done]. cbn [snd fst is_ok]. intros [= <-]. cbn. unfold readTaskAuditCacheForTask. cbn [au_latest]. rewrite lookup_insert_eq. cbn.
  pose proof Hv as ->%parse_exact. by apply decode_entry, (parsed_fine _ _ Hv).
Qed.
End Current.

(** C15: A fan-out's answer is about the current declaration: when the audit primitive returns a verdict for a set of lenses, the
    evidence a gate reads next is complete, has the hash of the current subject, and holds one output per declared lens, in order,
    each named by the lens and its current policy and each either the output an earlier review of the same subject under the same
    policy left in the task's evidence, or what the configured model answered now to the prompt of that lens; the verdict is the
    aggregate of these outputs. *)
Theorem fanout_answer_is_current sha task now strategy key d lenses t text t' : dc_lenses d = Some lenses ->
  cached_audit sha task now strategy key d t = (Ok text, t') ->
  exists e, readTaskAuditCache task key t' = Some e /\ ae_complete e = Some true /\ ae_subjectHash e = subjectHash sha d /\
    Forall2 (backed sha task strategy key d t (per_lens_limit lenses)) lenses (default [] (ae_lenses e)) /\
    let verdict := aggregateAuditLenses (default [] (ae_lenses e)) (default (dc_passVerdict d) (ae_passVerdict e)) (default (dc_failVerdict d) (ae_failVerdict e)) in
    text = verdict \/ text = truncateUtf8 verdict MAX_SUBAGENT_RESULT_BYTES.
Proof.
  intros Hl. unfold cached_audit. rewrite Hl. unfold cached_fanout.
  destruct (match bestExactEntry _ _ with Some e => _ | None => None end) as [e|] eqn:Eb.
  - destruct (bestExactEntry _ _) as [x|] eqn:Ex; [|done]. destruct (_ && _) eqn:Ec; [|done]. injection Eb as ->.
    apply andb_true_iff in Ec as [Hc%bool_decide_eq_true He]. apply List.find_some in Ex as [Hin%list_elem_of_In _].
    destruct (writeTaskCache task now key e t) as [[] t2] eqn:Ew; [|done]. intros [= <- <-]. exists e.
    split_and!; [by eapply written_latest|done|by apply authorized_spec in Hin as [_ ?]|by apply exact_backed|by left].
  - destruct strategy as [[call|]|x]; [|done|done]. cbv zeta.
    match goal with |- context [writeTaskCache task now key ?e t] => set (entry := e); destruct (writeTaskCache task now key entry t) as [b t2] eqn:Ew end.
    destruct b; [|done]. cbn [negb]. destruct (bool_decide (fo_failures _ = [])) eqn:Ef; [|done]. cbn [negb]. intros [= <- <-]. exists entry. apply bool_decide_eq_true in Ef.
    split_and!; [by eapply written_latest|unfold entry; cbn [ae_complete]; done|done|by apply fanout_backed|by right].
Qed.
