(* ===== verification/PlanGate.v ===== *)
(** * Deterministic gate evidence ([src/src/runtime/loop/plan_audit.ts], [report_checklist.ts], [report_resolution.ts],
      [runtime/coverage/anchors.ts], [anchor_universe.ts], [check.ts])

    The checks without a model that stages are gated on: a decomposition is
    acyclic and covers the scope, every scoped element traces to the user's
    words, every requirement is met, every committed sub-issue is resolved. *)

From Stdlib Require Import Ascii String.
From stdpp Require Import base option list strings gmap.
From S2P Require Import Prelude ExprSyntax ExprEval.

(** ** The plan *)
Record PlanEdge := { pe_from : string; pe_to : string; pe_type : string }.
Record PlanInput := {
  pi_issueIds : list string; pi_edges : list PlanEdge; pi_designElementIds : list string; pi_coveredBy : list (string * list string) }.
Record PlanReport := { pr_acyclic : bool; pr_complete : bool; pr_cycles : list string; pr_uncovered : list string }.

Section Kahn.
Context (ids : list string) (edges : list PlanEdge).
Definition dependency (e : PlanEdge) : bool := (pe_type e =? "blocks")%string || (pe_type e =? "parent-child")%string.
(** The dependency edges between known nodes, in order. *)
Definition known_edges : list PlanEdge := List.filter (fun e => dependency e && set_has (pe_from e) ids && set_has (pe_to e) ids) edges.
Abbreviation Degrees := (gmap string Z).
Definition degree (indeg : Degrees) (n : string) : Z := default 0%Z (indeg !! n).
Definition indegrees : Degrees :=
  foldl (fun m e => <[pe_to e := (degree m (pe_to e) + 1)%Z]> m) (list_to_map (map (fun i => (i, 0%Z)) ids)) known_edges.
Definition adj (n : string) : list string := map pe_to (List.filter (fun e => (pe_from e =? n)%string) known_edges).
(** One popped node: its successors lose a degree, those that reach zero are queued. *)
Fixpoint relax (ms : list string) (indeg : Degrees) : Degrees * list string :=
  match ms with
  | [] => (indeg, [])
  | m :: ms =>
      let d := (degree indeg m - 1)%Z in
      let r := relax ms (<[m := d]> indeg) in
      (r.1, if (d =? 0)%Z then m :: r.2 else r.2)
  end.
(** The loop over the queue; a node is queued at most once, so the nodes
    bound its turns. *)
Fixpoint kahn (fuel : nat) (q : list string) (indeg : Degrees) (seen : nat) : nat * Degrees :=
  match fuel, q with
  | S fuel, n :: q => let r := relax (adj n) indeg in kahn fuel (q ++ r.2) r.1 (S seen)
  | _, _ => (seen, indeg)
  end.
End Kahn.
Definition zero_degree (indeg : gmap string Z) (n : string) : bool := (degree indeg n =? 0)%Z.
Definition planAudit (p : PlanInput) : PlanReport :=
  let ids := pi_issueIds p in
  let indeg := indegrees ids (pi_edges p) in
  let q := List.filter (zero_degree indeg) ids in
  let r := kahn ids (pi_edges p) (List.length ids) q indeg 0 in
  let acyclic := Nat.eqb r.1 (List.length ids) in
  let uncovered := List.filter (fun d => match obj_get d (pi_coveredBy p) with Some (_ :: _) => false | _ => true end) (pi_designElementIds p) in
  {| pr_acyclic := acyclic; pr_complete := bool_decide (uncovered = []);
     pr_cycles := if acyclic then [] else List.filter (fun i => (0 <? degree r.2 i)%Z) ids; pr_uncovered := uncovered |}.

(** [/sourceElementId:(\S+)/]: the first occurrence with a non-empty word. *)
Fixpoint word_of_chars (s : string) : string :=
  match s with String c r => if is_space c then "" else String c (word_of_chars r) | EmptyString => "" end.
Definition STAMP : string := "sourceElementId:".
Fixpoint sourceElementId (s : string) : option string :=
  match s with
  | EmptyString => None
  | String _ r =>
      if starts_with s STAMP then
        match word_of_chars (String.substring (String.length STAMP) (String.length s - String.length STAMP) s) with
        | EmptyString => sourceElementId r
        | w => Some w
        end
      else sourceElementId r
  end.
Record PlanIssue := { pl_issue : string; pl_body : string }.
Definition scopeToDecomposition (issues : list PlanIssue) (edges : list PlanEdge) (scopeElementIds : list string) : list PlanIssue * list PlanEdge :=
  let inScope := List.filter (fun i => match sourceElementId (pl_body i) with Some s => set_has s scopeElementIds | None => false end) issues in
  let ids := map pl_issue inScope in
  (inScope, List.filter (fun e => set_has (pe_from e) ids && set_has (pe_to e) ids) edges).
Definition cover (cov : list (string * list string)) (i : PlanIssue) : list (string * list string) :=
  match sourceElementId (pl_body i) with
  | Some s => match obj_get s cov with Some l => obj_set s (l ++ [pl_issue i]) cov | None => cov end
  | None => cov
  end.
Definition buildCoveredBy (designElementIds : list string) (issues : list PlanIssue) : list (string * list string) :=
  foldl cover (foldl (fun m d => obj_set d [] m) [] designElementIds) issues.
(** The plan evidence over the store's issues and edges, for the elements of the scope. *)
Definition planEvidence (designElementIds : list string) (issues : list PlanIssue) (edges : list PlanEdge) : bool * bool :=
  let '(issues, edges) := scopeToDecomposition issues edges designElementIds in
  let r := planAudit {| pi_issueIds := map pl_issue issues; pi_edges := edges; pi_designElementIds := designElementIds;
                        pi_coveredBy := buildCoveredBy designElementIds issues |} in
  (pr_acyclic r, pr_complete r).

(** ** Anchors *)
Inductive AnchorKind := file_line | wg_id | design | ask_span.
Record Anchor := { an_kind : AnchorKind; an_ref : string }.
Record AuthoredElement := { ae_el_id : string; ae_anchor : option Anchor }.
Record AnchorUniverse := { au_askText : string; au_fileLines : list string; au_wgIds : list string; au_designIds : list string }.
Inductive DriftReason := no_anchor | unresolved_anchor.
(** [s.replace(/\s+/g, ' ').trim()] *)
Fixpoint collapse (gap : bool) (s : string) : string :=
  match s with
  | EmptyString => ""
  | String c r => if is_space c then (if gap then collapse true r else String " " (collapse true r)) else String c (collapse false r)
  end.
Definition normWs (s : string) : string := trim (collapse false s).
Definition resolves (a : Anchor) (u : AnchorUniverse) : bool :=
  match an_kind a with
  | ask_span => str_includes (normWs (au_askText u)) (normWs (an_ref a))
  | file_line => set_has (an_ref a) (au_fileLines u)
  | wg_id => set_has (an_ref a) (au_wgIds u)
  | design => set_has (an_ref a) (au_designIds u)
  end.
Definition checkAnchors (els : list AuthoredElement) (u : AnchorUniverse) : list (string * DriftReason) :=
  omap (fun el => match ae_anchor el with
                  | None => Some (ae_el_id el, no_anchor)
                  | Some a => if resolves a u then None else Some (ae_el_id el, unresolved_anchor)
                  end) els.
Record ScopeElement := { se_designId : string; se_askSpan : string }.
Record TaskLink := { tl_designId : string; tl_fileLines : list string; tl_wgIds : list string }.
Definition buildAnchorUniverse (askText : string) (scopeElements : list ScopeElement) (tasks : list TaskLink) : AnchorUniverse :=
  let ask := normWs askText in
  let verified := set_of (map se_designId (List.filter (fun e => str_includes ask (normWs (se_askSpan e))) scopeElements)) in
  let live := List.filter (fun t => set_has (tl_designId t) verified) tasks in
  {| au_askText := askText; au_fileLines := set_of (flat_map tl_fileLines live); au_wgIds := set_of (flat_map tl_wgIds live);
     au_designIds := verified |}.

(** ** Coverage *)
Inductive Assert :=
| absent (symbol : string) | proof (test : string)
| reachable (from : list string) (symbol : string) | binding (ctx_key builder : string).
Record Requirement := { rq_id : string; rq_assert : Assert; rq_proof : option string }.
Record CodeIndex := {
  ci_exports : list (string * string);                  (* name, file *)
  ci_modules : list string; ci_bindings : list (string * list string);
  ci_tests : list (string * Z);                         (* active tests by path *)
  ci_reaches : list string -> string -> bool }.
Record CheckOpts := { co_gatedPrefixes : list string; co_allowlist : option (list string); co_index : CodeIndex }.
Record ReqResult := { rs_id : string; rs_met : bool; rs_reason : string }.
Record CoverageReport := { cr_results : list ReqResult; cr_orphans : list string }.
Definition met (r : Requirement) (reason : string) : ReqResult := {| rs_id := rq_id r; rs_met := true; rs_reason := reason |}.
Definition unmet (r : Requirement) (reason : string) : ReqResult := {| rs_id := rq_id r; rs_met := false; rs_reason := reason |}.
Definition gated (file : string) (o : CheckOpts) : bool := existsb (fun p => starts_with file p) (co_gatedPrefixes o).
Definition symbolPresent (symbol : string) (o : CheckOpts) : bool :=
  existsb (fun e => (e.1 =? symbol)%string && gated e.2 o) (ci_exports (co_index o)) || set_has symbol (ci_modules (co_index o)).
Definition ctxKeyBound (ctxKey builder : string) (o : CheckOpts) : bool := set_has ctxKey (default [] (obj_get builder (ci_bindings (co_index o)))).
Definition testExistsAndActive (test : string) (o : CheckOpts) : bool := (0 <? default 0%Z (obj_get test (ci_tests (co_index o))))%Z.
Definition proven (r : Requirement) (hint : bool) (o : CheckOpts) : ReqResult :=
  if match rq_proof r with Some p => testExistsAndActive p o | None => false end
  then met r (if hint then "" else "proof passes; static pre-filter negative (likely dynamic dispatch) — advisory")
  else unmet r "proof-test absent/failing".
Definition checkRequirement (o : CheckOpts) (r : Requirement) : ReqResult :=
  match rq_assert r with
  | absent symbol => if symbolPresent symbol o then unmet r "symbol still present" else met r ""
  | proof test => if testExistsAndActive test o then met r "" else unmet r "proof-test absent/failing"
  | reachable from symbol => proven r (ci_reaches (co_index o) from symbol) o
  | binding ctx_key builder => proven r (ctxKeyBound ctx_key builder o) o
  end.
Definition assertSubject (a : Assert) : string :=
  match a with reachable _ s | absent s => s | binding k _ => k | proof t => t end.
Definition gatedSymbolsWithoutRequirement (reqs : list Requirement) (o : CheckOpts) : list string :=
  let claimed := map (fun r => assertSubject (rq_assert r)) reqs in
  map fst (List.filter (fun e => gated e.2 o && negb (set_has e.1 claimed) && negb (set_has e.1 (default [] (co_allowlist o)))) (ci_exports (co_index o))).
Definition checkCoverage (reqs : list Requirement) (o : CheckOpts) : CoverageReport :=
  {| cr_results := map (checkRequirement o) reqs; cr_orphans := gatedSymbolsWithoutRequirement reqs o |}.

(** ** The committed checklist *)
Inductive ChecklistItemState := done_item | deferred (reason : string) | unresolved_item.
Record ChecklistSubIssue := { cs_id : string; cs_title : string; cs_status : string; cs_wedgeReason : option string }.
Record ChecklistItem := { ck_id : string; ck_title : string; ck_state : ChecklistItemState }.
Definition hasWedgeReason (sub : ChecklistSubIssue) : option string :=
  match cs_wedgeReason sub with Some r => if (trim r =? "")%string then None else Some r | None => None end.
Definition classify (sub : ChecklistSubIssue) : ChecklistItem :=
  {| ck_id := cs_id sub; ck_title := cs_title sub;
     ck_state := if (cs_status sub =? "closed")%string || (cs_status sub =? "archived")%string then done_item
                 else match hasWedgeReason sub with Some reason => deferred reason | None => unresolved_item end |}.
Definition is_unresolved (i : ChecklistItem) : bool := match ck_state i with unresolved_item => true | _ => false end.
Definition resolveChecklist (subs : list ChecklistSubIssue) : list ChecklistItem * list ChecklistItem * bool :=
  let items := map classify subs in
  let unresolved := List.filter is_unresolved items in
  (items, unresolved, bool_decide (List.length unresolved = 0)).
(** [automation]: [OPENSQUID_AUTOMATION === '1']. *)
Definition reportResolved (automation allResolved : bool) : bool := negb automation || allResolved.
