(* ===== verification/PlanGateProps.v ===== *)
(** * Deterministic gate evidence: properties

    Kahn's count finds a cycle exactly when there is one, and the plan, anchor
    and checklist verdicts are what their documents promise. *)

From Stdlib Require Import Ascii String.
From stdpp Require Import base option list strings gmap relations.
From S2P Require Import Prelude ExprSyntax ExprEval PlanGate.

(** ** Counting *)
Definition count {A} (p : A -> bool) (l : list A) : Z := Z.of_nat (List.length (List.filter p l)).
Lemma count_nil {A} (p : A -> bool) : count p [] = 0%Z.
Proof. done. Qed.
Lemma count_cons {A} (p : A -> bool) a l : count p (a :: l) = ((if p a then 1 else 0) + count p l)%Z.
Proof. unfold count. cbn. destruct (p a); cbn [List.length]; lia. Qed.
Lemma count_nonneg {A} (p : A -> bool) l : (0 <= count p l)%Z.
Proof. unfold count. lia. Qed.
Lemma count_pos {A} (p : A -> bool) l : (0 < count p l)%Z <-> exists a, a ∈ l /\ p a = true.
Proof.
  induction l as [|a l IH]; [rewrite count_nil; split; [lia|by intros (? & []%elem_of_nil & _)]|]. rewrite count_cons. pose proof (count_nonneg p l).
  destruct (p a) eqn:E.
  - split; [|lia]. intros _. exists a. by split; [left|].
  - rewrite Z.add_0_l, IH. split; [intros (b & ? & ?); exists b; by split; [right|]|].
    intros (b & [->|?]%elem_of_cons & ?); [congruence|eauto].
Qed.
Lemma count_sum {A} (p q r : A -> bool) l : (forall a, a ∈ l -> ((if p a then 1 else 0) = (if q a then 1 else 0) + (if r a then 1 else 0))%Z) ->
  count p l = (count q l + count r l)%Z.
Proof.
  induction l as [|a l IH]; [done|]. intros H. rewrite !count_cons, (H a ltac:(by left)), IH; [lia|]. intros b Hb. apply H. by right.
Qed.
Lemma degree_insert m n d (indeg : gmap string Z) : degree (<[n := d]> indeg) m = if decide (n = m) then d else degree indeg m.
Proof. unfold degree. case_decide as E; [subst; by rewrite lookup_insert_eq|by rewrite lookup_insert_ne]. Qed.

(** ** Kahn's loop *)
Section Kahn.
Context (ids : list string) (edges : list PlanEdge) (Hids : NoDup ids).
Abbreviation ke := (known_edges ids edges).
Definition edge (u v : string) : Prop := exists e, e ∈ ke /\ pe_from e = u /\ pe_to e = v.
Lemma known_ids e : e ∈ ke -> pe_from e ∈ ids /\ pe_to e ∈ ids.
Proof.
  unfold known_edges. rewrite list_elem_of_In, filter_In, !andb_true_iff, !set_has_spec. tauto.
Qed.
(** The edges into [m] from outside [P]. *)
Definition pending (P : list string) (m : string) : Z := count (fun e => (pe_to e =? m)%string && negb (set_has (pe_from e) P)) ke.
Definition occurs (m : string) (l : list string) : Z := count (fun x => (x =? m)%string) l.
Lemma occurs_pos m l : (0 < occurs m l)%Z <-> m ∈ l.
Proof. unfold occurs. rewrite count_pos. setoid_rewrite String.eqb_eq. naive_solver. Qed.
Lemma occurs_adj m n : occurs m (adj ids edges n) = count (fun e => (pe_from e =? n)%string && (pe_to e =? m)%string) ke.
Proof.
  unfold occurs, adj. induction ke as [|e l IH]; [done|]. cbn [List.filter]. rewrite count_cons. destruct (pe_from e =? n)%string; cbn [andb map]; [|done].
  by rewrite count_cons, IH.
Qed.
Lemma pending_step P n m : n ∉ P -> pending P m = (pending (P ++ [n]) m + occurs m (adj ids edges n))%Z.
Proof.
  intros Hn. rewrite occurs_adj. apply count_sum. intros e _. destruct (pe_to e =? m)%string; cbn [andb]; [|by rewrite andb_false_r].
  rewrite andb_true_r. destruct (String.eqb_spec (pe_from e) n) as [->|Hne].
  - assert (set_has n P = false) as -> by (apply not_true_iff_false; by rewrite set_has_spec).
    assert (set_has n (P ++ [n]) = true) as -> by (apply set_has_spec; set_solver). done.
  - assert (set_has (pe_from e) (P ++ [n]) = set_has (pe_from e) P) as ->.
    { apply eq_true_iff_eq. rewrite !set_has_spec, elem_of_app, list_elem_of_singleton. naive_solver. }
    by destruct (set_has _ _).
Qed.
Lemma pending_pos P m : (0 < pending P m)%Z <-> exists u, edge u m /\ u ∉ P.
Proof.
  unfold pending, edge. rewrite count_pos. setoid_rewrite andb_true_iff. setoid_rewrite String.eqb_eq. setoid_rewrite negb_true_iff.
  setoid_rewrite <- not_true_iff_false. setoid_rewrite set_has_spec. naive_solver.
Qed.
Lemma indegree_fold l m0 n : degree (foldl (fun m e => <[pe_to e := (degree m (pe_to e) + 1)%Z]> m) m0 l) n =
  (degree m0 n + count (fun e => (pe_to e =? n)%string) l)%Z.
Proof.
  revert m0. induction l as [|e l IH]; intros m0; cbn [foldl]; [rewrite count_nil; lia|]. rewrite IH, count_cons, degree_insert.
  destruct (String.eqb_spec (pe_to e) n) as [->|Hne]; [rewrite decide_True by done; lia|rewrite decide_False by done; lia].
Qed.
Lemma degree_zeros l n : degree (list_to_map (map (fun i => (i, 0%Z)) l)) n = 0%Z.
Proof. induction l as [|i l IH]; cbn; [unfold degree; by rewrite lookup_empty|]. rewrite degree_insert. by case_decide. Qed.
Lemma indegrees_pending n : degree (indegrees ids edges) n = pending [] n.
Proof.
  unfold indegrees. rewrite indegree_fold, degree_zeros. unfold pending, count. rewrite Z.add_0_l. do 2 f_equal.
  apply List.filter_ext. intros e. by rewrite andb_true_r.
Qed.
Lemma relax_degree ms indeg m : degree (relax ms indeg).1 m = (degree indeg m - occurs m ms)%Z.
Proof.
  revert indeg. induction ms as [|a ms IH]; intros indeg; cbn [relax fst]; [unfold occurs; rewrite count_nil; lia|].
  rewrite IH, degree_insert. unfold occurs. rewrite count_cons.
  destruct (String.eqb_spec a m) as [->|Hne]; [rewrite decide_True by done; lia|rewrite decide_False by done; lia].
Qed.
Lemma relax_pushed ms indeg : (forall m, occurs m ms <= degree indeg m)%Z ->
  NoDup (relax ms indeg).2 /\ forall m, m ∈ (relax ms indeg).2 <-> m ∈ ms /\ degree indeg m = occurs m ms.
Proof.
  revert indeg. induction ms as [|a ms IH]; intros indeg H; cbn [relax snd].
  { split; [constructor|]. intros m. split; [by intros []%elem_of_nil|by intros [[]%elem_of_nil _]]. }
  set (indeg' := <[a := (degree indeg a - 1)%Z]> indeg).
  assert (Hocc : forall m, occurs m (a :: ms) = ((if decide (a = m) then 1 else 0) + occurs m ms)%Z).
  { intros m. unfold occurs. rewrite count_cons. destruct (String.eqb_spec a m); [by rewrite decide_True|by rewrite decide_False]. }
  assert (Hdeg : forall m, degree indeg' m = (degree indeg m - if decide (a = m) then 1 else 0)%Z).
  { intros m. unfold indeg'. rewrite degree_insert. case_decide; [subst; lia|lia]. }
  destruct (IH indeg') as [Hnd Hin].
  { intros m. specialize (H m). rewrite Hocc in H. rewrite Hdeg. lia. }
  pose proof (Hdeg a) as Ha. rewrite decide_True in Ha by done. pose proof (H a) as Hoa. rewrite Hocc, decide_True in Hoa by done.
  pose proof (count_nonneg (fun x => (x =? a)%string) ms) as Hnn. fold (occurs a ms) in Hnn.
  assert (Hams : a ∈ ms <-> (0 < occurs a ms)%Z) by (symmetry; apply occurs_pos).
  assert (Hmem : forall m, m ∈ a :: ms /\ degree indeg m = occurs m (a :: ms) <-> (m = a /\ (degree indeg a - 1 = 0)%Z) \/ m ∈ (relax ms indeg').2).
  { intros m. rewrite Hin, Hdeg, Hocc, elem_of_cons. destruct (decide (a = m)) as [<-|Hne].
    - split; [intros [_ E]|].
      + destruct (decide (occurs a ms = 0%Z)); [left; split; [done|lia]|right]. split; [apply Hams; lia|lia].
      + intros [[_ E]|[? E]]; (split; [by left|lia]).
    - split; [intros [[->|?] E]; [done|right; split; [done|lia]]|]. intros [[-> _]|[? E]]; [done|]. split; [by right|lia]. }
  destruct (Z.eqb_spec (degree indeg a - 1) 0) as [E|E].
  - split.
    + constructor; [|done]. rewrite Hin. intros [?%Hams _]. lia.
    + intros m. rewrite Hmem, elem_of_cons. naive_solver.
  - split; [done|]. intros m. rewrite Hmem. split; [by right|]. intros [[_ ?]|?]; [done|done].
Qed.

(** What the popped nodes [P] and the queue [q] are. *)
Record Popped (P q : list string) (indeg : gmap string Z) : Prop := {
  po_nodup : NoDup (P ++ q); po_ids : forall m, m ∈ P ++ q -> m ∈ ids;
  po_degree : forall m, degree indeg m = pending P m;
  po_ready : forall m, m ∈ ids -> m ∈ P ++ q <-> pending P m = 0%Z;
  po_topo : forall i v u, P !! i = Some v -> edge u v -> exists j, j < i /\ P !! j = Some u }.
Lemma popped_step P n q indeg : Popped P (n :: q) indeg ->
  let r := relax (adj ids edges n) indeg in Popped (P ++ [n]) (q ++ r.2) r.1.
Proof.
  intros [Hnd Hsub Hdeg Hready Htopo]. cbn zeta.
  assert (HnP : n ∉ P) by (intros Hin; apply NoDup_app in Hnd as (_ & Hd & _); apply (Hd n Hin); by left).
  assert (Hle : forall m, (occurs m (adj ids edges n) <= degree indeg m)%Z).
  { intros m. rewrite Hdeg, (pending_step P n m HnP). pose proof (count_nonneg (fun e => (pe_to e =? m)%string && negb (set_has (pe_from e) (P ++ [n]))) ke).
    unfold pending. lia. }
  destruct (relax_pushed _ _ Hle) as [Hpn Hpush].
  assert (Hadj : forall m, m ∈ adj ids edges n -> m ∈ ids).
  { intros m (e & -> & He)%list_elem_of_fmap. apply list_elem_of_In, filter_In in He as [He%list_elem_of_In _]. by apply known_ids. }
  assert (Hfresh : forall m, m ∈ (relax (adj ids edges n) indeg).2 -> m ∉ P ++ n :: q).
  { intros m Hm Hin. apply Hpush in Hm as [Hm E]. apply (Hready m (Hsub _ Hin)) in Hin. rewrite Hdeg, Hin in E. apply occurs_pos in Hm. lia. }
  replace ((P ++ [n]) ++ q ++ (relax (adj ids edges n) indeg).2) with ((P ++ n :: q) ++ (relax (adj ids edges n) indeg).2) in *
    by (by rewrite <- !app_assoc).
  constructor.
  - rewrite <- app_assoc. cbn [app]. rewrite app_comm_cons, app_assoc. apply NoDup_app. split; [done|]. split; [|done]. intros m Hm Hm2. by apply (Hfresh m).
  - intros m. rewrite !elem_of_app. intros [[Hm|Hm]|[Hm|Hm]]; [apply Hsub; set_solver|apply Hsub; set_solver|apply Hsub; set_solver|].
    apply Hpush in Hm as [Hm _]. by apply Hadj.
  - intros m. rewrite relax_degree, Hdeg, (pending_step P n m HnP). lia.
  - intros m Hm. pose proof (Hready m Hm) as Hr. pose proof (pending_step P n m HnP) as Hs.
    pose proof (count_nonneg (fun e => (pe_to e =? m)%string && negb (set_has (pe_from e) (P ++ [n]))) ke) as H1. fold (pending (P ++ [n]) m) in H1.
    pose proof (count_nonneg (fun x => (x =? m)%string) (adj ids edges n)) as H2. fold (occurs m (adj ids edges n)) in H2.
    assert (Hsplit : m ∈ (P ++ [n]) ++ q ++ (relax (adj ids edges n) indeg).2 <-> m ∈ P ++ n :: q \/ m ∈ (relax (adj ids edges n) indeg).2) by set_solver.
    rewrite Hsplit, Hr, Hpush, Hdeg, <- occurs_pos. lia.
  - intros i v u Hi Huv. apply lookup_app_Some in Hi as [Hi|[Hlen Hi]].
    + destruct (Htopo _ _ _ Hi Huv) as (j & Hj & Hl). exists j. split; [done|]. by apply lookup_app_l_Some.
    + apply list_lookup_singleton_Some in Hi as [Hi <-]. assert (Hn0 : pending P n = 0%Z) by (apply Hready; [apply Hsub|]; set_solver).
      assert (u ∈ P) as [j Hj]%list_elem_of_lookup.
      { destruct (decide (u ∈ P)); [done|]. exfalso. assert (0 < pending P n)%Z by (apply pending_pos; eauto). lia. }
      exists j. pose proof (lookup_lt_Some _ _ _ Hj). split; [lia|]. by apply lookup_app_l_Some.
Qed.
Lemma kahn_popped fuel P q indeg : Popped P q indeg -> List.length ids <= List.length P + fuel ->
  exists P' indeg', kahn ids edges fuel q indeg (List.length P) = (List.length P', indeg') /\ Popped P' [] indeg'.
Proof.
  revert P q indeg. induction fuel as [|fuel IH]; intros P q indeg HP Hf.
  - destruct q as [|n q]; [by exists P, indeg|]. exfalso. destruct HP as [Hnd Hsub _ _ _].
    assert (List.length (P ++ n :: q) <= List.length ids) as Hl.
    { apply List.NoDup_incl_length; [by apply NoDup_ListNoDup|]. intros x Hx. apply list_elem_of_In, Hsub. by apply list_elem_of_In. }
    rewrite length_app in Hl. cbn in Hl. lia.
  - destruct q as [|n q]; [by exists P, indeg|]. cbn [kahn]. pose proof (popped_step _ _ _ _ HP) as HP'. cbn zeta in HP'.
    specialize (IH _ _ _ HP'). rewrite length_app in IH. cbn [List.length] in IH. rewrite Nat.add_1_r in IH. apply IH. lia.
Qed.
Lemma popped_start : Popped [] (List.filter (zero_degree (indegrees ids edges)) ids) (indegrees ids edges).
Proof.
  constructor; cbn [app].
  - rewrite NoDup_ListNoDup in *. by apply List.NoDup_filter.
  - intros m. rewrite list_elem_of_In, filter_In, <- list_elem_of_In. tauto.
  - apply indegrees_pending.
  - intros m Hm. rewrite list_elem_of_In, filter_In, <- list_elem_of_In. unfold zero_degree. rewrite Z.eqb_eq, indegrees_pending. tauto.
  - done.
Qed.

(** ** Cycles *)
Definition acyclic : Prop := forall n, ~ tc edge n n.
Lemma topo_acyclic P indeg : Popped P [] indeg -> List.length P = List.length ids -> acyclic.
Proof.
  intros [Hnd Hsub _ _ Htopo] Hlen n Hn. rewrite app_nil_r in *.
  assert (Hback : forall u v, tc edge u v -> forall i, P !! i = Some v -> exists j, j < i /\ P !! j = Some u).
  { induction 1 as [u v Huv|u v x Huv _ IH]; intros i Hi; [by eapply Htopo|].
    destruct (IH i Hi) as (j & Hj & Hl). destruct (Htopo _ _ _ Hl Huv) as (k & Hk & Hl'). exists k. split; [lia|done]. }
  assert (Hall : forall m, m ∈ ids -> m ∈ P).
  { intros m Hm. apply list_elem_of_In. assert (incl ids P) as Hi; [|apply Hi; by apply list_elem_of_In].
    apply List.NoDup_length_incl; [by apply NoDup_ListNoDup|lia|]. intros x Hx. apply list_elem_of_In, Hsub. by apply list_elem_of_In. }
  assert (n ∈ ids) as [i Hi]%Hall%list_elem_of_lookup.
  { clear -Hn. assert (forall u v, tc edge u v -> u ∈ ids) as H; [|by eapply H]. intros u v. by destruct 1 as [? ? (e & [? _]%known_ids & <- & _)|? ? ? (e & [? _]%known_ids & <- & _)]. }
  destruct (Hback _ _ Hn i Hi) as (j & Hj & Hl). pose proof (NoDup_lookup _ _ _ _ Hnd Hi Hl). lia.
Qed.
(** A backward chain. *)
Fixpoint chain_of (x : string) (l : list string) : Prop := match l with [] => True | y :: l => edge y x /\ chain_of y l end.
Lemma chain_tc x l y : chain_of x l -> y ∈ l -> tc edge y x.
Proof.
  revert x. induction l as [|z l IH]; intros x; [by intros _ []%elem_of_nil|]. intros [Hz Hl] [->|Hy]%elem_of_cons; [by apply tc_once|].
  eapply tc_r; [by apply IH|done].
Qed.
Lemma chain_cycle x l : chain_of x l -> ~ NoDup (x :: l) -> exists n, tc edge n n.
Proof.
  revert x. induction l as [|y l IH]; intros x Hl Hnd; [exfalso; apply Hnd; repeat constructor; apply not_elem_of_nil|].
  destruct (decide (x ∈ y :: l)) as [Hin|Hin]; [exists x; by eapply chain_tc|]. apply (IH y); [by destruct Hl|]. intros H. apply Hnd. by constructor.
Qed.
Lemma back_chain (X : list string) k x : (forall m, m ∈ X -> exists u, edge u m /\ u ∈ X) -> x ∈ X -> exists l, List.length l = k /\ chain_of x l /\ Forall (fun y => y ∈ X) l.
Proof.
  intros HX. revert x. induction k as [|k IH]; intros x Hx; [by exists []|]. destruct (HX x Hx) as (u & Hu & HuX). destruct (IH u HuX) as (l & Hl & Hc & Hf).
  exists (u :: l). cbn. split_and!; [lia|done|done|by constructor].
Qed.
Lemma stuck_cycle P indeg : Popped P [] indeg -> List.length P <> List.length ids -> exists n, tc edge n n.
Proof.
  intros [Hnd Hsub _ Hready _] Hlen. rewrite app_nil_r in *.
  set (X := List.filter (fun m => negb (set_has m P)) ids).
  assert (HX : forall m, m ∈ X <-> m ∈ ids /\ m ∉ P).
  { intros m. unfold X. rewrite list_elem_of_In, filter_In, <- list_elem_of_In, negb_true_iff, <- not_true_iff_false, set_has_spec. done. }
  assert (Hpred : forall m, m ∈ X -> exists u, edge u m /\ u ∈ X).
  { intros m [Hm HmP]%HX. assert (0 < pending P m)%Z as (u & Hu & HuP)%pending_pos.
    { pose proof (count_nonneg (fun e => (pe_to e =? m)%string && negb (set_has (pe_from e) P)) ke) as H0. fold (pending P m) in H0.
      assert (pending P m <> 0%Z) by (intros E; apply HmP; specialize (Hready m Hm); rewrite ?app_nil_r in Hready; by apply Hready). lia. }
    exists u. split; [done|]. apply HX. split; [|done]. destruct Hu as (e & He & <- & _). by apply known_ids. }
  destruct X as [|x X'] eqn:EX.
  - exfalso. apply Hlen. apply Nat.le_antisymm.
    + apply List.NoDup_incl_length; [by apply NoDup_ListNoDup|]. intros y Hy. apply list_elem_of_In, Hsub. by apply list_elem_of_In.
    + apply List.NoDup_incl_length; [by apply NoDup_ListNoDup|]. intros y Hy. apply list_elem_of_In in Hy. apply list_elem_of_In.
      destruct (decide (y ∈ P)); [done|]. exfalso. by apply (not_elem_of_nil y), HX.
  - destruct (back_chain (x :: X') (List.length (x :: X')) x Hpred ltac:(by left)) as (l & Hl & Hc & Hf). apply (chain_cycle x l Hc).
    intros Hnd2. apply NoDup_ListNoDup in Hnd2. apply (List.NoDup_incl_length (l' := x :: X')) in Hnd2; [cbn in *; lia|].
    intros y [<-|Hy]; [by left|]. rewrite Forall_forall in Hf. apply list_elem_of_In, Hf. by apply list_elem_of_In.
Qed.
Lemma audit_acyclic elements cov :
  pr_acyclic (planAudit {| pi_issueIds := ids; pi_edges := edges; pi_designElementIds := elements; pi_coveredBy := cov |}) = true <-> acyclic.
Proof.
  unfold planAudit. cbn [pi_issueIds pi_edges pr_acyclic].
  destruct (kahn_popped (List.length ids) [] _ _ popped_start) as (P & indeg & E & HP); [cbn; lia|]. cbn [List.length] in E. rewrite E. cbn [fst].
  rewrite Nat.eqb_eq. split; [by apply (topo_acyclic P indeg)|]. intros Ha. destruct (decide (List.length P = List.length ids)) as [?|Hne]; [done|].
  exfalso. destruct (stuck_cycle P indeg HP Hne) as [n Hn]. by apply (Ha n).
Qed.
End Kahn.

(** ** Coverage of the scope *)
Definition stamped (s : string) (i : PlanIssue) : bool := bool_decide (sourceElementId (pl_body i) = Some s).
Definition in_scope (elements : list string) (issues : list PlanIssue) : list PlanIssue := (scopeToDecomposition issues [] elements).1.
Lemma in_scope_spec elements issues i : i ∈ in_scope elements issues <-> i ∈ issues /\ exists s, sourceElementId (pl_body i) = Some s /\ s ∈ elements.
Proof.
  unfold in_scope. cbn. rewrite list_elem_of_In, filter_In, <- list_elem_of_In. destruct (sourceElementId (pl_body i)) as [s|].
  - rewrite set_has_spec. naive_solver.
  - naive_solver.
Qed.
Lemma cover_get d cov issues : obj_get d (foldl cover cov issues) = (fun l => l ++ map pl_issue (List.filter (stamped d) issues)) <$> obj_get d cov.
Proof.
  revert cov. induction issues as [|i issues IH]; intros cov; cbn [foldl List.filter map].
  - destruct (obj_get d cov); cbn; [by rewrite app_nil_r|done].
  - rewrite IH. unfold cover, stamped. destruct (sourceElementId (pl_body i)) as [s|]; [|by rewrite bool_decide_false].
    destruct (decide (s = d)) as [->|Hne].
    + rewrite bool_decide_true by done. destruct (obj_get d cov) as [l|] eqn:E; cbn; [|by rewrite E]. rewrite obj_get_set_eq. cbn. by rewrite <- app_assoc.
    + rewrite bool_decide_false by congruence. destruct (obj_get s cov); [|done]. by rewrite obj_get_set_ne by congruence.
Qed.
Lemma empty_get {A} d (ds : list string) (m : list (string * list A)) : obj_get d (foldl (fun m d => obj_set d [] m) m ds) = if decide (d ∈ ds) then Some [] else obj_get d m.
Proof.
  revert m. induction ds as [|x ds IH]; intros m; cbn [foldl]; [by rewrite decide_False by apply not_elem_of_nil|]. rewrite IH.
  destruct (decide (d ∈ ds)) as [Hd|Hd]; [by rewrite decide_True by by right|]. destruct (decide (d = x)) as [->|Hne].
  - rewrite decide_True by by left. apply obj_get_set_eq.
  - rewrite decide_False by (rewrite elem_of_cons; naive_solver). by apply obj_get_set_ne.
Qed.
Lemma known_scoped ids edges : known_edges ids (List.filter (fun e => set_has (pe_from e) ids && set_has (pe_to e) ids) edges) = known_edges ids edges.
Proof.
  unfold known_edges. induction edges as [|e l IH]; [done|]. cbn [List.filter].
  destruct (set_has (pe_from e) ids && set_has (pe_to e) ids) eqn:E; cbn [List.filter]; rewrite IH; [done|].
  rewrite <- andb_assoc, E. by rewrite andb_false_r.
Qed.

(** ** The claims *)
(** C16: The plan gate is exact: over the issues stamped with an element of the scope, the audit's count finds them acyclic exactly
    when no chain of blocking or parent-child edges between them leads back to its start, and complete exactly when every element
    of the scope is stamped on some issue. *)
Theorem plan_gate_exact elements issues edges : NoDup (map pl_issue (in_scope elements issues)) ->
  ((planEvidence elements issues edges).1 = true <-> acyclic (map pl_issue (in_scope elements issues)) edges) /\
  ((planEvidence elements issues edges).2 = true <-> forall d, d ∈ elements -> exists i, i ∈ issues /\ sourceElementId (pl_body i) = Some d).
Proof.
  intros Hnd. unfold planEvidence. cbn [scopeToDecomposition]. fold (in_scope elements issues). cbn [fst snd]. split.
  - change (List.filter (fun i => match sourceElementId (pl_body i) with Some s => set_has s elements | None => false end) issues) with (in_scope elements issues).
    rewrite audit_acyclic by done. unfold acyclic, edge. by rewrite known_scoped.
  - change (List.filter (fun i => match sourceElementId (pl_body i) with Some s => set_has s elements | None => false end) issues) with (in_scope elements issues).
    cbn [planAudit pr_complete pi_designElementIds pi_coveredBy]. rewrite bool_decide_eq_true. split.
    + intros H d Hd. destruct (List.filter (stamped d) (in_scope elements issues)) as [|i l] eqn:Ef.
      * exfalso. assert (In d []) as []. rewrite <- H. apply filter_In. split; [by apply list_elem_of_In|].
        unfold buildCoveredBy. rewrite cover_get, empty_get, decide_True by done. by rewrite Ef.
      * assert (In i (List.filter (stamped d) (in_scope elements issues))) as [Hi Hs]%filter_In by (rewrite Ef; by left).
        apply list_elem_of_In, in_scope_spec in Hi as [Hi _]. exists i. split; [done|]. by apply bool_decide_eq_true in Hs.
    + intros H. destruct (List.filter _ elements) as [|d l] eqn:Ef; [done|]. exfalso.
      match type of Ef with List.filter ?p elements = _ => assert (In d (List.filter p elements)) as [Hd Hp]%filter_In by (rewrite Ef; by left) end.
      apply list_elem_of_In in Hd. destruct (H d Hd) as (i & Hi & Hs). unfold buildCoveredBy in Hp. rewrite cover_get, empty_get, decide_True in Hp by done.
      assert (In i (List.filter (stamped d) (in_scope elements issues))) as Hin.
      { apply filter_In. split; [apply list_elem_of_In, in_scope_spec; eauto|]. by apply bool_decide_eq_true. }
      by destruct (List.filter (stamped d) (in_scope elements issues)).
Qed.

(** An element that quotes nothing is admitted as grounded in the ask, whatever the ask. *)
Lemma starts_with_empty s : starts_with s "" = true.
Proof. by destruct s. Qed.
Lemma unquoted_element_is_grounded ask id : id ∈ au_designIds (buildAnchorUniverse ask [{| se_designId := id; se_askSpan := "" |}] []).
Proof.
  cbn [buildAnchorUniverse au_designIds List.filter se_askSpan]. change (normWs "") with "". unfold str_includes.
  destruct (suffixes (normWs ask)) as [|x l] eqn:E; [by destruct (normWs ask)|]. cbn [existsb]. rewrite starts_with_empty. cbn. by left.
Qed.
