(* ===== verification/Reports.v ===== *)
(** * Reports ([src/src/runtime/loop/stage_report.ts], [follow_reminder.ts], [failure_report.ts], [scope_report.ts],
      [report_display.ts])

    The texts shown at the boundaries of a stage, a task or a session. *)

From Stdlib Require Import Ascii String.
From stdpp Require Import base option list strings.
From S2P Require Import Prelude ExprSyntax AuditEvidence Safety.

Record Rendered := { rd_path : string; rd_body : string }.
(** [iso.slice(0, 10)] *)
Definition date_of (iso : string) : string := String.substring 0 10 iso.
Definition body_of (l : list string) : string := lines l +:+ String LF "".

Definition CODE_PHASES : list string := ["pre_research"; "learn"; "code"; "test"; "audit"; "post_research"; "fix"].
Record StageReport := {
  sg_stage : string; sg_taskId : string; sg_summary : string; sg_nextDirective : string; sg_nextWork : option string;
  sg_goalAligned : option bool; sg_phases : option (list (string * bool)); sg_evidence : option (list (string * bool)) }.
Definition shown {A} (l : option (list A)) (f : list A -> list string) : list string :=
  match l with Some (a :: l) => f (a :: l) | _ => [] end.
Definition renderStageReport (r : StageReport) (iso : string) : Rendered :=
  let date := date_of iso in
  {| rd_path := toLowerCase (sg_stage r) +:+ "-" +:+ sg_taskId r +:+ "-" +:+ date +:+ ".md";
     rd_body := body_of (
       ["After-stage report — " +:+ sg_stage r +:+ " complete · " +:+ sg_taskId r +:+ " · " +:+ date; "";
        "Summary: " +:+ sg_summary r; ""] ++
       shown (sg_evidence r) (fun l => ["Evidence: " +:+ join_with " · " (map (fun e => e.1 +:+ " " +:+ (if e.2 : bool then "✓" else "✗")) l); ""]) ++
       shown (sg_phases r) (fun l => "Phases:" :: map (fun p => "  [" +:+ (if p.2 : bool then "x" else " ") +:+ "] " +:+ p.1) l ++ [""]) ++
       ["Next → " +:+ sg_nextDirective r +:+ match sg_nextWork r with Some work => ": " +:+ work | None => "" end] ++
       match sg_goalAligned r with
       | Some aligned => [""; "Goal: " +:+ (if aligned : bool then "on the captured goal" else "OFF the captured goal — destination drift")]
       | None => []
       end) |}.
Definition renderStageSummary (stage : string) (work : option string) (taskId iso : string) : string :=
  body_of ["Starting " +:+ stage +:+ " · " +:+ taskId +:+ " · " +:+ date_of iso; ""; "Will: " +:+ default "begin this stage" work].

Record FollowReminderInput := { fr_stage : string; fr_procedure : string; fr_rubric : option string; fr_drift : option string }.
Definition noted (prefix : string) (o : option string) : list string :=
  match trim <$> o with Some s => if (s =? "")%string then [] else [prefix +:+ s] | None => [] end.
Definition renderFollowReminder (r : FollowReminderInput) : string :=
  body_of (noted "Drift noticed: " (fr_drift r) ++
    ["Stay on the " +:+ fr_stage r +:+ " procedure. Follow these instructions:"; "Procedure: " +:+ fr_procedure r] ++
    noted "Rubric: " (fr_rubric r)).

Inductive FailureKind := wedge_failure | held_gate | crash_failure.
Definition failure_kind_text (k : FailureKind) : string :=
  match k with wedge_failure => "wedge" | held_gate => "held_gate" | crash_failure => "crash" end.
Record FailureReport := {
  fl_taskId : string; fl_kind : FailureKind; fl_reason : string; fl_criterion : string; fl_evidence : string; fl_resolvingAction : string }.
Definition renderFailureReport (r : FailureReport) (iso : string) : Rendered :=
  let date := date_of iso in
  {| rd_path := "failure-" +:+ fl_taskId r +:+ "-" +:+ date +:+ ".md";
     rd_body := body_of [
       "Failure report — " +:+ failure_kind_text (fl_kind r) +:+ " · " +:+ fl_taskId r +:+ " · " +:+ date; "";
       "Reason: " +:+ fl_reason r; "Failing criterion: " +:+ fl_criterion r; "Evidence: " +:+ fl_evidence r;
       "Resolving action: " +:+ fl_resolvingAction r] |}.

Record ScopeChecklistItem := { sc_item : string; sc_done : bool; sc_note : option string }.
Definition renderScopeBefore (scope subject : string) (will : list string) (iso : string) : string :=
  body_of (["Before-" +:+ scope +:+ " · " +:+ subject +:+ " · " +:+ date_of iso; ""; "Will:"] ++ map (fun w => "  - " +:+ w) will).
Definition renderScopeAfter (scope subject : string) (resolved : list ScopeChecklistItem) (produced next : option string) (iso : string) : string :=
  body_of (["After-" +:+ scope +:+ " · " +:+ subject +:+ " · " +:+ date_of iso; ""] ++
    map (fun r => "  " +:+ (if sc_done r then "✓" else "✗") +:+ " " +:+ sc_item r +:+ match sc_note r with Some n => " — " +:+ n | None => "" end) resolved ++
    match produced with Some p => [""; "Produced: " +:+ p] | None => [] end ++
    match next with Some n => ["Next: " +:+ n] | None => [] end).

(** What is written to the live stream. *)
Fixpoint ends_with_newline (s : string) : bool :=
  match s with EmptyString => false | String c EmptyString => Ascii.eqb c LF | String _ r => ends_with_newline r end.
Definition displayReport (body : string) : string := if ends_with_newline body then body else body +:+ String LF "".
