(* ===== verification/CartridgeHost.v ===== *)
(** * The cartridge host ([src/src/runtime/loop/v2_supply.ts])

    What a hook does with the active cartridges on an event: record the facts
    the event is evidence of, and for each cartridge that serves the task seed
    its actor from the persisted state, build its context, check the write lane,
    run the actor and apply its effects - the state under compare-and-set, the
    transition log, the reports, the reactions, the decision.  Everything the
    host asks of files, tables and the pack loader is an operation that may
    throw; the decision it accumulates survives a throw, as the variables of
    the code do. *)

From Stdlib Require Import Ascii String.
From stdpp Require Import base option list strings gmap pretty.
From S2P Require Import Prelude Fsm FsmTree FsmProps PackCompile Guard LoopDriver Json CanonicalJson ExprSyntax ExprEval Evaluator Bus Threads Skills Regex Safety AuditEvidence SessionFacts GuardContext ObservedActor Reports.
#[local] Open Scope os_scope.

(** ** Packs and operations *)
Record LoadedPack := {
  lp_name : string; lp_serves : option (list SkillServesBlock); lp_compiled : CompiledMachine;
  lp_audits : option (list (string * AuditBinding)) }.
Record Checkpoint := { cp_stage : string; cp_scopeArtifacts : list string }.
Record Lesson := { ls_id : string; ls_content : string; ls_source : string }.

Inductive HostOp :=
(* packs, settings, session *)
| LoadCartridges | ReadFacets | ReadSessionCwd | ReadSettingsDomain (dir : string)
| ReadActiveTaskId | ReadActiveTask | ReadCheckpoint | ResolveScopeRoot (cwd : string)
| ReadVerifyCommand (root : option string) | ReadVerifySuite (root : option string) | ReadArchDetector (root : option string)
| ReadPolicy (pack : string) (b : AuditBinding)
| BuildBase (state : string) (writes : option (list string)) (audits : list (string * (AuditBinding * PolicyRead)))
| ExtendContext (base : BaseGuardContext)
(* facts *)
| AppendAsk (prompt : string) | FreezeAsk | ResetAsk
| ReadReadiness (task : string) | ReadPhases | GatherReadiness (cwd : string) | RecordReadiness (task : string) (deprecated : list string)
| RecordConsult (task : string) (window : ConsultWindow)
| RecordVerification (task : string) (ok : bool) | RecordSuite (task : string) (ok : bool) | RecordArch (task : string) (ok : bool)
| BumpRounds (task : string) | ResetRounds (task : string) | ClearRedesign (task : string)
| ReadAcceptanceIds | AppendWaiting (task : string) | ReadCodeEvidence
(* state and log *)
| ReadState (pack : string) (task : option string)
| Persist (pack state : string) (task expected : option string)
| ResolveKey | UpsertStage (key state : string) (artifact : option string)
| AppendTransition (pack from to : string)
(* reports *)
| Stderr (text : string) | GoalConsult (root : string) | CaptureLesson (l : Lesson) | SaveReport (root path body : string)
| ReadClaim (task : string) | WriteClaim (task : string)
(* decomposition *)
| ExtractScope (artifact : string) | OpenWg | Reconcile (task artifact : string).
Definition HostVal (o : HostOp) : Type :=
  match o with
  | LoadCartridges => list LoadedPack | ReadFacets => option (option string) | ReadSessionCwd => option string | ReadSettingsDomain _ => option string
  | ReadActiveTaskId | ReadActiveTask => option string | ReadCheckpoint => option Checkpoint | ResolveScopeRoot _ => option string
  | ReadVerifyCommand _ | ReadVerifySuite _ | ReadArchDetector _ => option string
  | ReadPolicy _ _ => PolicyRead | BuildBase _ _ _ => BaseGuardContext | ExtendContext _ => gmap string Value
  | ReadReadiness _ => ReadinessResult | ReadPhases => option PhaseState | GatherReadiness _ => list string
  | ReadAcceptanceIds => list string | ReadCodeEvidence => CodeEvidence
  | ReadState _ _ => string | Persist _ _ _ _ => bool | ResolveKey => option string
  | GoalConsult _ => bool | ExtractScope _ => option nat
  | _ => unit
  end.
Definition HostAns (o : HostOp) : Type := result string (HostVal o).

(** ** Programs of the host *)
Record V2Decision := { vd_exitCode : nat; vd_messages : list string; vd_injections : list string; vd_boundSkills : list string }.
Definition ZERO : V2Decision := {| vd_exitCode := 0; vd_messages := []; vd_injections := []; vd_boundSkills := [] |}.
Abbreviation HostProg := (Prog HostOp HostAns Empty_set).
(** A step of the host: from the decision so far, to the decision and what was
    returned or thrown. *)
Definition HostM (A : Type) : Type := V2Decision -> HostProg (V2Decision * result string A).
#[export] Instance host_ret : MRet HostM := fun A a d => Ret (d, Ok a).
#[export] Instance host_bind : MBind HostM := fun A B f m d =>
  m d ≫= fun r => match r with (d, Ok a) => f a d | (d, Err x) => Ret (d, Err x) end.
Definition call (o : HostOp) : HostM (HostVal o) := fun d => Do o (fun r : HostAns o => Ret (d, r)).
Definition from_result {A} (r : result string A) : HostM A := fun d => Ret (d, r).
Definition host_try {A} (m : HostM A) (h : string -> HostM A) : HostM A := fun d =>
  m d ≫= fun r => match r with (d, Ok a) => Ret (d, Ok a) | (d, Err x) => h x d end.
Definition update (f : V2Decision -> V2Decision) : HostM unit := fun d => Ret (f d, Ok tt).
Definition current : HostM V2Decision := fun d => Ret (d, Ok d).
Definition when_ (b : bool) (m : HostM unit) : HostM unit := if b then m else mret tt.
Fixpoint for_each_ {A} (f : A -> HostM unit) (l : list A) : HostM unit :=
  match l with [] => mret tt | a :: l => f a ≫= fun _ => for_each_ f l end.
Fixpoint for_fold_ {A S} (f : S -> A -> HostM S) (s : S) (l : list A) : HostM S :=
  match l with [] => mret s | a :: l => f s a ≫= fun s => for_fold_ f s l end.
Fixpoint map_each {A B} (f : A -> HostM B) (l : list A) : HostM (list B) :=
  match l with [] => mret [] | a :: l => f a ≫= fun b => map_each f l ≫= fun bs => mret (b :: bs) end.
(** A failed write to the stream is an event of the stream, never thrown. *)
Definition stderr (text : string) : HostM unit := fun d => Do (Stderr text) (fun _ : HostAns (Stderr text) => Ret (d, Ok tt)).
(** [try { m } catch (err) { process.stderr.write(...) }] *)
Definition tolerated (what : string) (m : HostM unit) : HostM unit :=
  host_try m (fun x => stderr ("[v2-supply] " +:+ what +:+ " failed (ignored): " +:+ x)).
Definition deny (message : string) : HostM unit := update (fun d =>
  {| vd_exitCode := 2; vd_messages := vd_messages d ++ [message]; vd_injections := vd_injections d; vd_boundSkills := vd_boundSkills d |}).
Definition inject (text : string) : HostM unit := update (fun d =>
  {| vd_exitCode := vd_exitCode d; vd_messages := vd_messages d; vd_injections := vd_injections d ++ [text]; vd_boundSkills := vd_boundSkills d |}).
Definition bind_skills (skills : list string) : HostM unit := update (fun d =>
  {| vd_exitCode := vd_exitCode d; vd_messages := vd_messages d; vd_injections := vd_injections d; vd_boundSkills := vd_boundSkills d ++ skills |}).

Section Host.
Context `{Re : Re2} `{Gl : Globs}.
(** [OPENSQUID_AUTOMATION === '1'], the process's directory, the event, [now]
    and the options. *)
Context (automation : bool) (processCwd : string) (event : Event) (now : string) (enforceOnly : bool).

(** ** Facts of the event *)
Definition event_tool : option string := event_text event "tool".
Definition tool_name : string := default "" event_tool.
(** The arguments the guards read are strings. *)
Definition tool_args : Args := omap (fun kv => match kv.2 with JsStr s => Some (kv.1, JStr s) | _ => None end) (event_args event).
Definition event_cwd : option string := match event_text event "cwd" with Some c => if (c =? "")%string then None else Some c | None => None end.
Definition post_tool : bool := bool_decide (ev_kind event = EvPostToolCall).
Definition capture_ask : HostM unit :=
  match bool_decide (ev_kind event = EvPromptSubmit), event_text event "prompt" with
  | true, Some prompt => tolerated "captured-ask append" (call (AppendAsk prompt))
  | _, _ => mret tt
  end.
Definition record_readiness : HostM unit :=
  when_ post_tool (tolerated "readiness record" (
    taskId ← call ReadActiveTaskId;
    match (taskId : option string), event_cwd with
    | Some task, Some cwd =>
        cur ← call (ReadReadiness task);
        if rr_ran (cur : ReadinessResult) && rr_deprecatedClean (cur : ReadinessResult) then mret tt
        else
          phases ← call ReadPhases;
          if isComplete phases task then deprecated ← call (GatherReadiness cwd); call (RecordReadiness task deprecated) else mret tt
    | _, _ => mret tt
    end)).
Definition record_consult : HostM unit :=
  match post_tool, event_tool with
  | true, Some tool =>
      when_ (isExternalConsultTool tool) (tolerated "external-consult record" (
        taskId ← call ReadActiveTaskId;
        match (taskId : option string) with
        | None => mret tt
        | Some task =>
            st ← call ReadPhases;
            let window := match (st : option PhaseState) with
                          | Some st => if (ps_task_id st =? task)%string && set_has "code" (ps_phases st) then after else before
                          | None => before
                          end in
            call (RecordConsult task window)
        end))
  | _, _ => mret tt
  end.
Definition verbatim (declared : option string) (cmd : string) : bool :=
  match declared with Some c => (cmd =? trim c)%string | None => false end.
Definition exit_zero : bool := match obj_get "exit_code" (ev_fields event) with Some (JsNum 0) => true | _ => false end.
Definition record_verify : HostM unit :=
  when_ (post_tool && bool_decide (event_tool = Some "Bash")) (tolerated "verify/suite record" (
    match event_cwd, obj_get "command" (event_args event) with
    | Some cwd, Some (JsStr command) =>
        scopeRoot ← call (ResolveScopeRoot cwd);
        verifyCmd ← call (ReadVerifyCommand scopeRoot);
        suiteCmd ← call (ReadVerifySuite scopeRoot);
        archCmd ← call (ReadArchDetector scopeRoot);
        taskId ← call ReadActiveTaskId;
        match (taskId : option string) with
        | None => mret tt
        | Some task =>
            let cmd := trim command in
            _ ← when_ (verbatim verifyCmd cmd) (call (RecordVerification task exit_zero));
            _ ← when_ (verbatim suiteCmd cmd) (_ ← call (RecordSuite task exit_zero); when_ (negb exit_zero) (call (BumpRounds task)));
            when_ (verbatim archCmd cmd) (call (RecordArch task exit_zero))
        end
    | _, _ => mret tt
    end)).
Definition resolve_domain : HostM (option string) :=
  host_try (
    facets ← call ReadFacets;
    match (facets : option (option string)) with
    | Some (Some domain) => mret (Some domain)
    | _ => root ← call ReadSessionCwd; call (ReadSettingsDomain (default processCwd (root : option string)))
    end) (fun x => _ ← stderr ("[v2-supply] task-domain resolve failed (ignored): " +:+ x); mret None).

(** ** Checkpoints, claims, reactions *)
Definition readLatestArtifactPath : HostM (option string) :=
  host_try (c ← call ReadCheckpoint; mret ((c : option Checkpoint) ≫= fun c => last (cp_scopeArtifacts c))) (fun _ => mret None).
Definition claimCodeReport (taskId : string) : HostM bool :=
  host_try (_ ← call (ReadClaim taskId); mret false)
           (fun _ => _ ← host_try (call (WriteClaim taskId)) (fun _ => mret tt); mret true).
Definition latest_or (approved : option string) : HostM (option string) :=
  match approved with Some p => mret (Some p) | None => readLatestArtifactPath end.
Definition runTransitionReaction (r : TransitionReaction) (taskId approved : option string) : HostM unit :=
  match r with
  | FreezeCapturedAsk => call FreezeAsk
  | ResetCapturedAsk => call ResetAsk
  | ReconcileDecomposition =>
      artifact ← latest_or approved;
      match (artifact : option string) with
      | None => mret tt
      | Some artifact =>
          extracted ← call (ExtractScope artifact);
          match (extracted : option nat), taskId with
          | Some (S _), Some task => _ ← call OpenWg; call (Reconcile task artifact)
          | _, _ => mret tt
          end
      end
  | EnsureAcceptance =>
      match taskId with
      | None => mret tt
      | Some task => ids ← call ReadAcceptanceIds; when_ (negb (set_has task ids)) (call (AppendWaiting task))
      end
  | ResetVerificationLoop =>
      match taskId with None => mret tt | Some task => _ ← call (ResetRounds task); call (ClearRedesign task) end
  end.
Definition bound_reactions (bindings : option (list (string * list TransitionReaction))) (state : string) : list TransitionReaction :=
  default [] (obj_get state (default [] bindings)).
Definition reaction_name (r : TransitionReaction) : string :=
  match r with
  | FreezeCapturedAsk => "freeze_captured_ask" | ResetCapturedAsk => "reset_captured_ask" | ReconcileDecomposition => "reconcile_decomposition"
  | EnsureAcceptance => "ensure_acceptance" | ResetVerificationLoop => "reset_verification_loop"
  end.
Definition runTransitionReactions (reactions : option Reactions) (from to : string) (taskId approved : option string) : HostM unit :=
  let actions := match reactions with Some r => bound_reactions (re_on_leave r) from ++ bound_reactions (re_on_enter r) to | None => [] end in
  for_each_ (fun r => host_try (runTransitionReaction r taskId approved)
    (fun x => stderr ("[v2-supply] transition reaction '" +:+ reaction_name r +:+ "' failed (ignored): " +:+ x))) actions.
Definition resolveSeededActorState (actor : ObservedActor) (packName : string) (taskId : option string) : HostM string :=
  seeded ← call (ReadState packName taskId);
  if automation && ((seeded : string) =? fsm_initial (oa_fsm actor))%string then
    host_try (c ← call ReadCheckpoint;
              mret (match (c : option Checkpoint) with
                    | Some c => if set_has (cp_stage c) (fsm_states (oa_fsm actor)) then cp_stage c else seeded
                    | None => seeded
                    end))
             (fun x => _ ← stderr ("[v2-supply] task-checkpoint seed failed (ignored): " +:+ x); mret seeded)
  else mret seeded.
(** [loadActiveV2Cartridges] and the persisted start of each. *)
Definition initializeV2Cartridges : HostM unit :=
  cartridges ← call LoadCartridges;
  for_each_ (fun loaded : LoadedPack =>
    match cm_fsm (lp_compiled loaded) with
    | None => mret tt
    | Some _ =>
        actor ← from_result (newActor ("pack:" +:+ lp_name loaded) (lp_compiled loaded));
        taskId ← call ReadActiveTaskId;
        state ← resolveSeededActorState actor (lp_name loaded) taskId;
        _ ← call (Persist (lp_name loaded) state taskId None); mret tt
    end) cartridges.

(** ** Reports *)
Definition after_dot (key : string) : string :=
  match split_char "." key with _ :: (_ :: _) as rest => join_with "." (tail rest) | _ => key end.
Definition stageEvidence (ctx : gmap string Value) (reads : list EvidenceRef) : list (string * bool) :=
  map (fun r =>
    let '(key, label, expect) := match r with EvKey k => (k, None, true) | EvObj k l e => (k, l, default true e) end in
    (default (after_dot key) label, match ctx !! key with Some (VBool b) => Bool.eqb b expect | _ => false end)) reads.
Definition meta_of (loaded : LoadedPack) (state : string) : option StateMeta := obj_get state (cm_meta (lp_compiled loaded)).
(** [s.replaceAll(':', '-')] *)
Fixpoint dashed (s : string) : string :=
  match s with EmptyString => "" | String c r => String (if Ascii.eqb c ":" then "-"%char else c) (dashed r) end.
Definition no_task : option string -> string := default "no-active-task".
Definition emit_report (loaded : LoadedPack) (ctx : gmap string Value) (taskId : option string) (from to : string) : HostM unit :=
  let m := meta_of loaded from in
  match m ≫= m_report with
  | None => mret tt
  | Some stage =>
      if (stage =? "CODE")%string && automation then mret tt
      else tolerated "stage report emit/mirror" (
        root ← call ReadSessionCwd;
        match (root : option string) with
        | None => mret tt
        | Some root =>
            claimed ← (if (stage =? "CODE")%string then claimCodeReport (no_task taskId) else mret true);
            if negb claimed then mret tt
            else
              aligned ← (if bool_decide (m ≫= m_goalAlignment = Some true) then b ← call (GoalConsult root); mret (Some (b : bool)) else mret None);
              let r := {| sg_stage := stage; sg_taskId := no_task taskId; sg_summary := from +:+ " complete"; sg_nextDirective := to;
                          sg_nextWork := meta_of loaded to ≫= m_does; sg_goalAligned := aligned;
                          sg_phases := if bool_decide (m ≫= m_reportPhases = Some true) then Some (map (fun n => (n, true)) (default [] (m ≫= m_phases))) else None;
                          sg_evidence := Some (stageEvidence ctx (default [] (m ≫= m_reads))) |} in
              let body := rd_body (renderStageReport r now) in
              _ ← stderr (displayReport body);
              _ ← inject body;
              call (CaptureLesson {| ls_id := "stage-report-" +:+ toLowerCase stage +:+ "-" +:+ no_task taskId +:+ "-" +:+ dashed now; ls_content := body;
                                     ls_source := "v2 stage transition " +:+ from +:+ " → " +:+ to +:+ " (task " +:+ no_task taskId +:+ ")" |})
        end)
  end.
Definition emit_summary (loaded : LoadedPack) (taskId : option string) (to : string) : HostM unit :=
  let m := meta_of loaded to in
  match (if bool_decide (m ≫= m_summary = Some true) then m ≫= m_report else None) with
  | None => mret tt
  | Some label => tolerated "stage summary emit" (
      root ← call ReadSessionCwd;
      match (root : option string) with
      | None => mret tt
      | Some _ =>
          let work := m ≫= m_does in
          let body := renderStageSummary label work (no_task taskId) now in
          _ ← stderr (displayReport body);
          _ ← inject body;
          match work with
          | Some w => when_ (negb (trim w =? "")%string) (inject (renderFollowReminder {| fr_stage := label; fr_procedure := w; fr_rubric := None; fr_drift := None |}))
          | None => mret tt
          end
      end)
  end.
Definition emit_failure (loaded : LoadedPack) (taskId : option string) (at_ failureType reason message : string) : HostM unit :=
  tolerated "failure report emit" (
    root ← call ReadSessionCwd;
    match (root : option string) with
    | None => mret tt
    | Some root =>
        let r := renderFailureReport {| fl_taskId := no_task taskId; fl_kind := held_gate; fl_reason := reason;
                   fl_criterion := "pack:" +:+ lp_name loaded +:+ " gate '" +:+ at_ +:+ "' (" +:+ failureType +:+ ")"; fl_evidence := message;
                   fl_resolvingAction := "satisfy the " +:+ at_ +:+ " gate's requirement, then re-run" |} now in
        _ ← call (SaveReport root (rd_path r) (rd_body r));
        _ ← stderr ("[lap " +:+ lp_name loaded +:+ "] ✗ gate held at " +:+ at_ +:+ " — failure report emitted");
        inject (rd_body r)
    end).

(** ** One cartridge *)
(** The variables of the effects loop. *)
Record LoopVars := { lv_expected : string; lv_accepted : bool; lv_current : string; lv_skills : SkillRuntime }.
Definition gate_action (a : FailAction) : Action := match a with FWarn => AWarn | FBlock => ABlock | FHalt => AHalt end.
Definition kernel_effect (packName failureType message : string) (a : FailAction) : GateEffect :=
  (applyAction 0 (gate_action a) failureType [(failureType, message)] {| ctx_from := "pack:" +:+ packName; humanRequired := false |} (newBus 1)).1.
Definition apply_write (loaded : LoadedPack) (taskId approved : option string) (v : LoopVars) (state : string) : HostM LoopVars :=
  if enforceOnly then mret v
  else
    accepted ← call (Persist (lp_name loaded) state taskId (Some (lv_expected v)));
    if negb accepted then
      now_at ← call (ReadState (lp_name loaded) taskId);
      mret {| lv_expected := lv_expected v; lv_accepted := false; lv_current := now_at; lv_skills := lv_skills v |}
    else
      _ ← when_ (negb automation) (host_try (
            key ← call ResolveKey;
            match (key : option string) with
            | None => mret tt
            | Some key => artifact ← latest_or approved; call (UpsertStage key state artifact)
            end) (fun x => stderr ("[v2-supply] interactive task-checkpoint write failed (ignored): " +:+ x)));
      mret {| lv_expected := state; lv_accepted := true; lv_current := lv_current v; lv_skills := lv_skills v |}.
Definition apply_transition (loaded : LoadedPack) (ctx : gmap string Value) (taskId approved : option string) (v : LoopVars) (from to : string) : HostM LoopVars :=
  if enforceOnly then mret v
  else
    _ ← stderr ("[lap " +:+ lp_name loaded +:+ "] " +:+ from +:+ " → " +:+ to);
    _ ← call (AppendTransition (lp_name loaded) from to);
    _ ← emit_report loaded ctx taskId from to;
    _ ← emit_summary loaded taskId to;
    _ ← runTransitionReactions (cm_reactions (lp_compiled loaded)) from to taskId approved;
    mret {| lv_expected := lv_expected v; lv_accepted := lv_accepted v; lv_current := lv_current v; lv_skills := onStateLeave from (lv_skills v) |}.
Definition apply_gate (loaded : LoadedPack) (taskId : option string) (v : LoopVars) (a : FailAction) (failureType message : string) : HostM LoopVars :=
  let effect := kernel_effect (lp_name loaded) failureType message a in
  _ ← (if Nat.eqb (exitCode effect) 2 then
         when_ (negb enforceOnly || isMutatingCall tool_name tool_args) (
           _ ← update (fun d => {| vd_exitCode := 2; vd_messages := vd_messages d ++ match g_message effect with Some t => [t] | None => [] end;
                                   vd_injections := vd_injections d; vd_boundSkills := vd_boundSkills d |});
           emit_failure loaded taskId (lv_current v) failureType (default message (g_message effect)) message)
       else match g_message effect with Some t => when_ (negb enforceOnly) (inject t) | None => mret tt end);
  mret v.
Definition apply_effect (loaded : LoadedPack) (ctx : gmap string Value) (taskId approved : option string) (v : LoopVars) (e : ActorEffect) : HostM LoopVars :=
  if negb (lv_accepted v) then mret v
  else match e with
       | WriteState state => apply_write loaded taskId approved v state
       | TransitionOf from to => apply_transition loaded ctx taskId approved v from to
       | GateAction a failureType message => apply_gate loaded taskId v a failureType message
       end.
Definition read_policy (pack : string) (b : AuditBinding) : HostM PolicyRead :=
  match ab_subject b with approved_artifact => call (ReadPolicy pack b) | cache => mret NoPolicy end.
Definition approved_writes (audits : list (string * AuditBinding)) : option (list string) :=
  match List.filter (fun c => match ab_subject c.2 with approved_artifact => true | cache => false end) audits with
  | [c] => ab_writes c.2
  | _ => None
  end.
Definition run_actor (loaded : LoadedPack) (actor : ObservedActor) (taskId : option string) (base : BaseGuardContext) (ctx : gmap string Value) : HostM unit :=
  let r := receive (kind_text (ev_kind event)) ctx actor in
  es ← from_result r.1;
  v ← for_fold_ (apply_effect loaded ctx taskId (bg_approvedArtifactPath base))
        {| lv_expected := as_current (oa_state actor); lv_accepted := true; lv_current := as_current (oa_state r.2); lv_skills := InMemorySkillRuntime |} es;
  bound ← from_result (onStateEntry (lv_current v) (cm_meta (lp_compiled loaded)) (lv_skills v));
  bind_skills (sr_bound bound).
Definition run_cartridge (turnDomain : option string) (loaded : LoadedPack) : HostM unit :=
  let name := lp_name loaded in
  match cm_fsm (lp_compiled loaded) with
  | None => mret tt
  | Some _ =>
      if match lp_serves loaded, turnDomain with Some serves, Some domain => negb (skillServesDomainMatches serves domain) | _, _ => false end then mret tt
      else
        fresh ← from_result (newActor ("pack:" +:+ name) (lp_compiled loaded));
        taskId ← call ReadActiveTaskId;
        seeded ← resolveSeededActorState fresh name taskId;
        let actor := seed seeded fresh in
        let bindings := default [] (lp_audits loaded) in
        audits ← map_each (fun c => p ← read_policy name c.2; mret (c.1, (c.2, p))) bindings;
        base ← call (BuildBase seeded (approved_writes bindings) audits);
        ctx ← call (ExtendContext base);
        d ← current;
        let writes := meta_of loaded seeded ≫= m_writes in
        let lane := evaluateLane writes tool_name tool_args in
        match enforceOnly && negb (Nat.eqb (vd_exitCode d) 2) && lv_checked lane && lv_outOfLane lane, lv_path lane with
        | true, Some path => deny (laneBlockMessage seeded path (default [] writes))
        | _, _ => run_actor loaded actor taskId base ctx
        end
  end.

(** ** The completion report *)
Definition completion_report : HostM unit :=
  when_ (post_tool && negb automation && match event_tool with Some t => str_includes t "log_phase" | None => false end) (
    tolerated "completion report" (
      trackId ← call ReadActiveTaskId;
      active ← call ReadActiveTask;
      root ← call ReadSessionCwd;
      match (trackId : option string), (active : option string), (root : option string) with
      | Some track, Some active, Some _ =>
          phases ← call ReadPhases;
          if negb (isComplete phases active) then mret tt
          else
            claimed ← claimCodeReport track;
            if negb claimed then mret tt
            else
              code ← call ReadCodeEvidence;
              let body := rd_body (renderStageReport {| sg_stage := "CODE"; sg_taskId := track; sg_summary := "task complete — all 7 phases logged";
                sg_nextDirective := "deploy"; sg_nextWork := Some "verify deploy capability, then the human-accept gate"; sg_goalAligned := None;
                sg_phases := Some (map (fun n => (n, true)) CODE_PHASES);
                sg_evidence := Some [("phases_complete", ce_phasesComplete code); ("readiness_ran", ce_readinessRan code);
                                     ("deprecated_clean", ce_deprecatedClean code); ("suite_green", ce_suiteGreen code)] |} now) in
              _ ← stderr (displayReport body);
              _ ← inject body;
              call (CaptureLesson {| ls_id := "stage-report-code-" +:+ track +:+ "-" +:+ dashed now; ls_content := body;
                                     ls_source := "v2 per-task completion (task " +:+ track +:+ ")" |})
      | _, _, _ => mret tt
      end)).

(** ** The host *)
Definition run_all : HostM V2Decision :=
  cartridges ← call LoadCartridges;
  match (cartridges : list LoadedPack) with
  | [] => current
  | _ =>
      _ ← capture_ask;
      _ ← record_readiness;
      _ ← record_consult;
      _ ← record_verify;
      turnDomain ← resolve_domain;
      _ ← for_each_ (fun loaded => host_try (run_cartridge turnDomain loaded)
            (fun x => stderr ("[v2-supply] cartridge error (ignored): " +:+ x))) cartridges;
      _ ← completion_report;
      current
  end.
(** The decision, or what loading the packs threw. *)
Definition runV2Cartridges : HostProg (result string V2Decision) := run_all ZERO ≫= fun r => Ret r.2.
End Host.
