(* ===== verification/HostProps.v ===== *)
(** * Properties of the cartridge host

    The host keeps a protocol whatever its files, tables and packs answer: a
    state is persisted only by a pack that was loaded and against the state the
    step was computed from; a transition is logged only right after its state
    was accepted; a reaction runs only for a logged transition it is bound to;
    and nothing of this happens when the host only enforces.  It always
    returns, with a decision that denies exactly when it says why, unless the
    packs themselves cannot be loaded. *)

From Stdlib Require Import Ascii String.
From stdpp Require Import base option list strings gmap.
From S2P Require Import Prelude Fsm FsmTree FsmProps PackCompile Guard LoopDriver Json CanonicalJson ExprSyntax ExprEval Evaluator Bus Threads Skills Regex Safety AuditEvidence SessionFacts GuardContext ObservedActor Reports CartridgeHost.
#[local] Open Scope os_scope.

(** ** The protocol *)
Inductive HostStage := Idle | Accepted (pack from to : string) | Logged (pack from to : string).
Record HostGhost := { hg_packs : option (result string (list LoadedPack)); hg_stage : HostStage }.
Definition loaded_packs (g : HostGhost) : list LoadedPack := match hg_packs g with Some (Ok packs) => packs | _ => [] end.
(** The reaction [r] is bound to a transition that was just logged. *)
Definition reacting (g : HostGhost) (r : TransitionReaction) : Prop :=
  exists loaded from to rs, loaded ∈ loaded_packs g /\ hg_stage g = Logged (lp_name loaded) from to /\
    cm_reactions (lp_compiled loaded) = Some rs /\ (r ∈ bound_reactions (re_on_leave rs) from \/ r ∈ bound_reactions (re_on_enter rs) to).
Definition may (automation enforceOnly : bool) (g : HostGhost) (o : HostOp) : Prop :=
  match o with
  | LoadCartridges => hg_packs g = None
  | Persist pack _ _ expected => enforceOnly = false /\ is_Some expected /\ pack ∈ map lp_name (loaded_packs g)
  | UpsertStage _ state _ => automation = false /\ exists pack from, hg_stage g = Accepted pack from state
  | AppendTransition pack from to => hg_stage g = Accepted pack from to
  | FreezeAsk => reacting g FreezeCapturedAsk
  | ResetAsk => reacting g ResetCapturedAsk
  | ExtractScope _ | OpenWg | Reconcile _ _ => reacting g ReconcileDecomposition
  | AppendWaiting _ => reacting g EnsureAcceptance
  | ResetRounds _ | ClearRedesign _ => reacting g ResetVerificationLoop
  | _ => True
  end.
Definition at_stage (s : HostStage) (g : HostGhost) : HostGhost := {| hg_packs := hg_packs g; hg_stage := s |}.
Definition host_after (g : HostGhost) (o : HostOp) : HostAns o -> HostGhost :=
  match o return HostAns o -> HostGhost with
  | LoadCartridges => fun r => {| hg_packs := Some r; hg_stage := Idle |}
  | Persist pack state _ expected => fun r =>
      at_stage match r, expected with Ok true, Some from => Accepted pack from state | _, _ => Idle end g
  | AppendTransition pack from to => fun r => at_stage match r with Ok _ => Logged pack from to | Err _ => Idle end g
  | _ => fun _ => g
  end.
(** A denial says why, and nothing is said without one. *)
Definition coherent (d : V2Decision) : Prop := (vd_exitCode d = 0 /\ vd_messages d = []) \/ (vd_exitCode d = 2 /\ vd_messages d <> []).

(** ** Steps of the host under the protocol *)
Section Rules.
Context (automation enforceOnly : bool).
Definition triple {A} (P : HostGhost -> Prop) (m : HostM A) (Q : HostGhost -> result string A -> Prop) : Prop :=
  forall g d, P g -> coherent d ->
    follows (may automation enforceOnly) host_after
      (fun g r => match r with inl (d, r) => coherent d /\ Q g r | inr _ => False end) g (m d).
Definition keeps {A} (P : HostGhost -> Prop) (m : HostM A) : Prop := triple P m (fun g _ => P g).
Definition safely {A} (P : HostGhost -> Prop) (m : HostM A) : Prop := triple P m (fun g r => P g /\ exists a, r = Ok a).

Lemma triple_weaken {A} P P' (m : HostM A) Q Q' :
  triple P' m Q' -> (forall g, P g -> P' g) -> (forall g r, Q' g r -> Q g r) -> triple P m Q.
Proof.
  intros Hm HP HQ g d Hg Hd. eapply follows_mono; [|by apply Hm; [apply HP|]].
  intros g' [[d' r]|[]] Hr. by destruct Hr as [? ?%HQ].
Qed.
Lemma triple_ret {A} P (a : A) Q : (forall g, P g -> Q g (Ok a)) -> triple P (mret a) Q.
Proof. intros H g d Hg Hd. by split; [|apply H]. Qed.
Lemma triple_result {A} P (r : result string A) Q : (forall g, P g -> Q g r) -> triple P (from_result r) Q.
Proof. intros H g d Hg Hd. by split; [|apply H]. Qed.
Lemma triple_bind {A B} P R Q (m : HostM A) (f : A -> HostM B) :
  triple P m R -> (forall a, triple (fun g => R g (Ok a)) (f a) Q) -> (forall g x, R g (Err x) -> Q g (Err x)) -> triple P (m ≫= f) Q.
Proof.
  intros Hm Hf Hx g d Hg Hd. unfold mbind, host_bind. apply follows_bind.
  eapply follows_mono; [|by apply Hm]. intros g' [[d' [a|x]]|[]] [Hd' Hr]; [by apply Hf|]. split; [done|by apply Hx].
Qed.
Lemma triple_try {A} P R Q (m : HostM A) h :
  triple P m R -> (forall g a, R g (Ok a) -> Q g (Ok a)) -> (forall x, triple (fun g => R g (Err x)) (h x) Q) -> triple P (host_try m h) Q.
Proof.
  intros Hm Ha Hh g d Hg Hd. unfold host_try. apply follows_bind.
  eapply follows_mono; [|by apply Hm]. intros g' [[d' [a|x]]|[]] [Hd' Hr]; [|by apply Hh]. split; [done|by apply Ha].
Qed.
Lemma triple_call P o Q :
  (forall g, P g -> may automation enforceOnly g o /\ forall a, Q (host_after g o a) a) -> triple P (call o) Q.
Proof. intros H g d Hg Hd. destruct (H g Hg) as [Hm Hq]. split; [done|]. intros a. by split. Qed.
Lemma triple_update P f Q : (forall d, coherent d -> coherent (f d)) -> (forall g, P g -> Q g (Ok tt)) -> triple P (update f) Q.
Proof. intros Hf H g d Hg Hd. split; [by apply Hf|by apply H]. Qed.
Lemma triple_current P Q : (forall g d, P g -> coherent d -> Q g (Ok d)) -> triple P current Q.
Proof. intros H g d Hg Hd. split; [done|by apply H]. Qed.

Lemma keeps_ret {A} P (a : A) : keeps P (mret a).
Proof. by apply triple_ret. Qed.
Lemma keeps_result {A} P (r : result string A) : keeps P (from_result r).
Proof. by apply triple_result. Qed.
Lemma held_bind {A B} P (m : HostM A) (f : A -> HostM B) : keeps P m -> (forall a, keeps P (f a)) -> keeps P (m ≫= f).
Proof. intros Hm Hf. by eapply triple_bind; [apply Hm| |]. Qed.
Lemma keeps_try {A} P (m : HostM A) h : keeps P m -> (forall x, keeps P (h x)) -> keeps P (host_try m h).
Proof. intros Hm Hh. by eapply triple_try; [apply Hm| |]. Qed.
Lemma keeps_call P o : (forall g, P g -> may automation enforceOnly g o /\ forall a, P (host_after g o a)) -> keeps P (call o).
Proof. intros H. by apply triple_call. Qed.
Lemma keeps_stderr P t : keeps P (stderr t).
Proof. intros g d Hg Hd. by split. Qed.
Lemma keeps_when P b m : (b = true -> keeps P m) -> keeps P (when_ b m).
Proof. destruct b; [by intros H; apply H|]. intros _. apply keeps_ret. Qed.
Lemma keeps_each {A} P (f : A -> HostM unit) l : (forall a, a ∈ l -> keeps P (f a)) -> keeps P (for_each_ f l).
Proof.
  induction l as [|a l IH]; intros H; [apply keeps_ret|]. apply held_bind; [apply H; by left|].
  intros _. apply IH. intros b Hb. apply H. by right.
Qed.
Lemma keeps_map {A B} P (f : A -> HostM B) l : (forall a, keeps P (f a)) -> keeps P (map_each f l).
Proof.
  intros H. induction l as [|a l IH]; [apply keeps_ret|]. apply held_bind; [apply H|].
  intros b. apply held_bind; [done|]. intros bs. apply keeps_ret.
Qed.
Lemma keeps_inject P t : keeps P (inject t).
Proof. apply triple_update; [|done]. by intros d [H|H]; [left|right]. Qed.
Lemma keeps_bind_skills P l : keeps P (bind_skills l).
Proof. apply triple_update; [|done]. by intros d [H|H]; [left|right]. Qed.
Lemma keeps_deny P t : keeps P (deny t).
Proof. apply triple_update; [|done]. intros d _. right. split; [done|]. cbn. by destruct (vd_messages d). Qed.
Lemma keeps_current P : keeps P current.
Proof. by apply triple_current. Qed.
Lemma safely_keeps {A} P (m : HostM A) : safely P m -> keeps P m.
Proof. intros H. eapply triple_weaken; [apply H|done|]. by intros g r [? _]. Qed.
Lemma safely_try {A} P (m : HostM A) h : keeps P m -> (forall x, safely P (h x)) -> safely P (host_try m h).
Proof. intros Hm Hh. eapply triple_try; [apply Hm| |done]. intros g a Hg. split; [done|by eexists]. Qed.
Lemma safely_ret {A} P (a : A) : safely P (mret a).
Proof. apply triple_ret. intros g Hg. split; [done|by eexists]. Qed.
Lemma safely_stderr P t : safely P (stderr t).
Proof. intros g d Hg Hd. split; [done|]. intros a. split; [done|]. split; [done|by eexists]. Qed.
Lemma safely_tolerated P what m : keeps P m -> safely P (tolerated what m).
Proof. intros Hm. apply safely_try; [done|]. intros x. apply safely_stderr. Qed.
Lemma safely_bind {A B} P (m : HostM A) (f : A -> HostM B) : safely P m -> (forall a, safely P (f a)) -> safely P (m ≫= f).
Proof.
  intros Hm Hf. eapply triple_bind; [apply Hm| |by intros g x [_ [? [=]]]].
  intros a. eapply triple_weaken; [apply Hf| |done]. by intros g [? _].
Qed.
Lemma safely_when P b m : safely P m -> safely P (when_ b m).
Proof. intros H. destruct b; [done|apply safely_ret]. Qed.
Lemma safely_each {A} P (f : A -> HostM unit) l : (forall a, a ∈ l -> safely P (f a)) -> safely P (for_each_ f l).
Proof.
  induction l as [|a l IH]; intros H; [apply safely_ret|]. apply safely_bind; [apply H; by left|].
  intros _. apply IH. intros b Hb. apply H. by right.
Qed.
End Rules.

(** ** Steps that leave the workflow alone *)
Create HintDb host discriminated.
#[export] Hint Resolve keeps_ret keeps_result keeps_stderr keeps_inject keeps_bind_skills keeps_deny keeps_current
  safely_ret safely_stderr safely_tolerated : host.
#[export] Hint Resolve keeps_map : host.
(** An operation the protocol does not speak of. *)
Ltac host_step :=
  first
    [ progress (auto with host)
    | apply held_bind; [|intros ?]
    | apply keeps_try; [|intros ?]
    | apply keeps_when; intros ?
    | apply keeps_call; by intros
    | apply safely_keeps, safely_tolerated
    | match goal with |- context [match ?x with _ => _ end] => destruct x end ].
Ltac leaves_workflow := intros; repeat host_step.

Section Host.
Context `{Re : Re2} `{Gl : Globs} (automation : bool) (processCwd : string) (event : Event) (now : string) (enforceOnly : bool).
Implicit Types P : HostGhost -> Prop.
Local Abbreviation keeps := (keeps automation enforceOnly).
Local Abbreviation safely := (safely automation enforceOnly).
Local Abbreviation triple := (triple automation enforceOnly).

Lemma capture_ask_safe P : safely P (capture_ask event).
Proof. unfold capture_ask. destruct (bool_decide _), (event_text event "prompt"); eauto with host. apply safely_tolerated. leaves_workflow. Qed.
Lemma record_readiness_safe P : safely P (record_readiness event).
Proof. apply safely_when, safely_tolerated. leaves_workflow. Qed.
Lemma record_consult_safe P : safely P (record_consult event).
Proof.
  unfold record_consult. destruct (post_tool event), (event_tool event); eauto with host.
  apply safely_when, safely_tolerated. leaves_workflow.
Qed.
Lemma readLatestArtifactPath_keeps P : keeps P readLatestArtifactPath.
Proof. unfold readLatestArtifactPath. leaves_workflow. Qed.
Lemma claimCodeReport_keeps P t : keeps P (claimCodeReport t).
Proof. unfold claimCodeReport. leaves_workflow. Qed.
#[local] Hint Resolve readLatestArtifactPath_keeps claimCodeReport_keeps : host.
Lemma latest_or_keeps P a : keeps P (latest_or a).
Proof. unfold latest_or. leaves_workflow. Qed.
#[local] Hint Resolve latest_or_keeps : host.
Lemma record_verify_safe P : safely P (record_verify event).
Proof. apply safely_when, safely_tolerated. leaves_workflow. Qed.
Lemma resolve_domain_safe P : safely P (resolve_domain processCwd).
Proof.
  apply safely_try; [leaves_workflow|]. intros x. apply safely_bind; [apply safely_stderr|]. intros []. apply safely_ret.
Qed.
Lemma seeded_state_keeps P a n t : keeps P (resolveSeededActorState automation a n t).
Proof. unfold resolveSeededActorState. leaves_workflow. Qed.
Lemma emit_report_keeps P l c t f u : keeps P (emit_report automation now l c t f u).
Proof. unfold emit_report. leaves_workflow. Qed.
Lemma emit_summary_keeps P l t u : keeps P (emit_summary now l t u).
Proof. unfold emit_summary. leaves_workflow. Qed.
Lemma emit_failure_keeps P l t s f r m : keeps P (emit_failure now l t s f r m).
Proof. unfold emit_failure. leaves_workflow. Qed.
Lemma completion_report_safe P : safely P (completion_report automation event now).
Proof. apply safely_when, safely_tolerated. leaves_workflow. Qed.
End Host.
#[export] Hint Resolve readLatestArtifactPath_keeps claimCodeReport_keeps latest_or_keeps emit_report_keeps emit_summary_keeps
  emit_failure_keeps seeded_state_keeps : host.

Section Effects.
Context `{Re : Re2} `{Gl : Globs} (automation : bool) (processCwd : string) (event : Event) (now : string) (enforceOnly : bool).
Implicit Types P : HostGhost -> Prop.
Local Abbreviation keeps := (keeps automation enforceOnly).
Local Abbreviation safely := (safely automation enforceOnly).
Local Abbreviation triple := (triple automation enforceOnly).

(** ** Reactions of a logged transition *)
Lemma reaction_keeps P r taskId approved :
  (forall g, P g -> reacting g r) -> keeps P (runTransitionReaction r taskId approved).
Proof.
  intros Hr. assert (forall o, (forall g, reacting g r -> may automation enforceOnly g o) -> (forall g a, host_after g o a = g) -> keeps P (call o)) as Hc.
  { intros o Ho Ha. apply keeps_call. intros g Hg. split; [by apply Ho, Hr|]. intros a. by rewrite Ha. }
  destruct r; cbn; try by apply Hc.
  all: repeat first [apply Hc; [done|done] | host_step].
Qed.
Lemma reactions_keep P rs from to taskId approved :
  (forall g r r', P g -> rs = Some r -> r' ∈ bound_reactions (re_on_leave r) from \/ r' ∈ bound_reactions (re_on_enter r) to -> reacting g r') ->
  keeps P (runTransitionReactions rs from to taskId approved).
Proof.
  intros H. unfold runTransitionReactions. destruct rs as [r|]; [|apply keeps_ret].
  apply keeps_each. intros r' Hr'%elem_of_app. apply keeps_try; [|intros; apply keeps_stderr].
  apply reaction_keeps. intros g Hg. by eapply H.
Qed.

End Effects.

(** ** The effects of a step *)
Section Moves.
Context `{Re : Re2} `{Gl : Globs} (automation : bool) (event : Event) (now : string) (enforceOnly : bool).
Local Abbreviation keeps := (keeps automation enforceOnly).
Local Abbreviation triple := (triple automation enforceOnly).
(** Each move is the write of the new state and then the transition to it, from
    the state the move before it left. *)
Inductive paired : string -> list ActorEffect -> Prop :=
| paired_nil cur : paired cur []
| paired_gate cur a failureType message es : paired cur es -> paired cur (GateAction a failureType message :: es)
| paired_move cur next es : paired next es -> paired cur (WriteState next :: TransitionOf cur next :: es).
#[local] Hint Constructors paired : host.
Lemma chain_paired n a ctx cur : paired cur (ce_effects (chain n a ctx cur)).
Proof.
  revert cur. induction n as [|n IH]; intros cur; cbn [chain]; [constructor|].
  destruct (obj_get cur (oa_meta a)) as [m|]; [|constructor].
  assert (paired cur (ce_effects (match dispatch (oa_fsm a) cur m {| gw_exprs := oa_exprs a; gw_ctx := ctx |} with
    | Err x => {| ce_effects := []; ce_history := []; ce_state := Err x |}
    | Ok (ActionStep action message) => stays cur [gateFail cur action message]
    | Ok (OutcomeStep _ _) => stays cur []
    | Ok (Advance next notice) => after_step (advance_effects cur next notice) cur
        (if is_gate (obj_get next (oa_meta a)) then stays next [] else chain n a ctx next) end))) as H; [|by destruct (m_kind m); first [done|constructor]].
  destruct (dispatch _ _ _ _) as [[next notice|action message|b o]|x]; cbn; eauto with host.
  assert (paired next (ce_effects (if is_gate (obj_get next (oa_meta a)) then stays next [] else chain n a ctx next)))
    by (destruct (is_gate _); [constructor|apply IH]).
  destruct notice; cbn; constructor; [by constructor|done].
Qed.

(** The packs that were loaded, and that one of them is running. *)
Definition in_run (packs : list LoadedPack) (g : HostGhost) : Prop := hg_packs g = Some (Ok packs).
(** What the variables of the effects loop have to do with the last move. *)
Definition on_track (cur : string) (v : LoopVars) : Prop := lv_accepted v = true -> enforceOnly = true \/ lv_expected v = cur.

Section Loaded.
Context (packs : list LoadedPack) (loaded : LoadedPack) (Hin : loaded ∈ packs).
Let name_in g : in_run packs g -> lp_name loaded ∈ map lp_name (loaded_packs g).
Proof. unfold loaded_packs. intros ->. by apply list_elem_of_fmap_2. Qed.

Lemma write_runs taskId approved cur next v : on_track cur v -> lv_accepted v = true ->
  triple (in_run packs) (apply_write automation enforceOnly loaded taskId approved v next)
    (fun g r => in_run packs g /\ forall v', r = Ok v' -> lv_accepted v' = true ->
       enforceOnly = true \/ (hg_stage g = Accepted (lp_name loaded) cur next /\ lv_expected v' = next)).
Proof.
  intros Hv Ha. unfold apply_write. destruct enforceOnly eqn:He.
  { apply triple_ret. intros g Hg. split; [done|]. by left. }
  destruct (Hv Ha) as [?|Hx]; [congruence|].
  eapply (triple_bind _ _ _ (fun g r => in_run packs g /\ (r = Ok true -> hg_stage g = Accepted (lp_name loaded) cur next))).
  - apply triple_call. intros g Hg. split; [by split_and!; [|eexists|apply name_in]|]. intros a. split; [done|]. intros ->. cbn. by rewrite Hx.
  - intros ok. destruct ok; cbn [negb].
    + eapply (triple_bind _ _ _ (fun g _ => in_run packs g /\ hg_stage g = Accepted (lp_name loaded) cur next)).
      * eapply triple_weaken; [apply (keeps_when _ _ (fun g => in_run packs g /\ hg_stage g = Accepted (lp_name loaded) cur next))| |done].
        -- intros Hauto%negb_true_iff. apply keeps_try; [|intros; apply keeps_stderr].
           apply held_bind; [by apply keeps_call|]. intros [key|]; [|apply keeps_ret].
           apply held_bind; [apply latest_or_keeps|]. intros artifact. apply keeps_call. intros g [Hg Hs]. split; [|done].
           cbn. split; [done|]. eauto.
        -- intros g [Hg Hs]. auto.
      * intros []. apply triple_ret. intros g [Hg Hs]. split; [done|]. intros v' [= <-] _. by right.
      * intros g x [Hg _]. by split.
    + eapply (triple_bind _ _ _ (fun g _ => in_run packs g)); [apply triple_call; by intros g [Hg _]| |by split].
      intros s. apply triple_ret. intros g Hg. split; [done|]. by intros v' [= <-].
  - intros g x [Hg _]. by split.
Qed.

Lemma transition_runs ctx taskId approved cur next v :
  triple (fun g => in_run packs g /\ (enforceOnly = true \/ hg_stage g = Accepted (lp_name loaded) cur next))
    (apply_transition automation now enforceOnly loaded ctx taskId approved v cur next)
    (fun g r => in_run packs g /\ forall v', r = Ok v' -> lv_accepted v' = lv_accepted v /\ lv_expected v' = lv_expected v).
Proof.
  unfold apply_transition. destruct (enforceOnly) eqn:He.
  { apply triple_ret. intros g [Hg _]. split; [done|]. by intros v' [= <-]. }
  set (logged := fun g => in_run packs g /\ hg_stage g = Logged (lp_name loaded) cur next).
  eapply (triple_bind _ _ _ (fun g _ => in_run packs g /\ hg_stage g = Accepted (lp_name loaded) cur next)).
  { eapply (triple_weaken _ _ _ (fun g => in_run packs g /\ hg_stage g = Accepted (lp_name loaded) cur next));
      [apply keeps_stderr|by intros g [Hg [?|Hs]]|done]. }
  2: by intros g x [Hg _].
  intros []. eapply (triple_bind _ _ _ (fun g r => in_run packs g /\ (r = Ok tt -> logged g))).
  { apply triple_call. intros g [Hg Hs]. split; [done|]. intros r. split; [done|]. by intros ->. }
  2: by intros g x [Hg _].
  intros []. eapply triple_weaken; [|intros g [_ Hg]; exact (Hg eq_refl)|intros g r Hr; exact Hr].
  eapply (triple_bind _ _ _ (fun g _ => logged g)); [apply emit_report_keeps| |by intros g x [Hg _]]. intros [].
  eapply (triple_bind _ _ _ (fun g _ => logged g)); [apply emit_summary_keeps| |by intros g x [Hg _]]. intros [].
  eapply (triple_bind _ _ _ (fun g _ => logged g)); [| |by intros g x [Hg _]].
  - apply reactions_keep. intros g r r' [Hg Hs] Hr Hb. exists loaded, cur, next, r.
    split_and!; [|done|done|done]. unfold loaded_packs. by rewrite Hg.
  - intros []. apply triple_ret. intros g [Hg _]. split; [done|]. by intros v' [= <-].
Qed.

Lemma gate_runs taskId v a failureType message :
  triple (in_run packs) (apply_gate event now enforceOnly loaded taskId v a failureType message)
    (fun g r => in_run packs g /\ forall v', r = Ok v' -> v' = v).
Proof.
  unfold apply_gate. eapply (triple_bind _ _ _ (fun g _ => in_run packs g)); [| |by split].
  - destruct a; cbn.
    1: destruct enforceOnly; cbn; [apply keeps_ret|apply keeps_inject].
    all: apply keeps_when; intros _; apply held_bind; [|intros []; apply emit_failure_keeps].
    all: apply triple_update; [|done]; intros d _; right; cbn; split; [done|]; by destruct (vd_messages d).
  - intros []. apply triple_ret. intros g Hg. split; [done|]. by intros v' [= <-].
Qed.

(** Once a write is refused the rest of the effects are dropped. *)
Lemma effects_run ctx taskId approved cur es : paired cur es -> forall v, on_track cur v ->
  keeps (in_run packs) (for_fold_ (apply_effect automation event now enforceOnly loaded ctx taskId approved) v es).
Proof.
  set (run := apply_effect automation event now enforceOnly loaded ctx taskId approved).
  assert (forall v e, lv_accepted v = false -> run v e = mret v) as Hno by (intros v e Hv; unfold run, apply_effect; by rewrite Hv).
  induction 1 as [cur|cur a failureType message es Hp IH|cur next es Hp IH]; intros v Hv; [apply keeps_ret| |]; cbn [for_fold_].
  - destruct (lv_accepted v) eqn:Ha.
    + assert (run v (GateAction a failureType message) = apply_gate event now enforceOnly loaded taskId v a failureType message) as ->
        by (unfold run, apply_effect; by rewrite Ha).
      eapply triple_bind; [apply gate_runs| |by intros g x [Hg _]]. intros v' g d [Hg Hv'] Hd.
      rewrite (Hv' v' eq_refl). by apply IH.
    + rewrite Hno by done. intros g d Hg Hd. by apply (IH v).
  - destruct (lv_accepted v) eqn:Ha.
    + assert (run v (WriteState next) = apply_write automation enforceOnly loaded taskId approved v next) as ->
        by (unfold run, apply_effect; by rewrite Ha).
      eapply triple_bind; [by apply write_runs| |by intros g x [Hg _]]. intros v' g d [Hg Hv'] Hd.
      specialize (Hv' v' eq_refl). destruct (lv_accepted v') eqn:Ha'.
      * assert (run v' (TransitionOf cur next) = apply_transition automation now enforceOnly loaded ctx taskId approved v' cur next) as ->
          by (unfold run, apply_effect; by rewrite Ha').
        eapply triple_bind; [apply transition_runs| |by intros g' x [Hg' _]| |done].
        -- intros v2 g2 d2 [Hg2 Hv2] Hd2. apply IH; [|done|done]. destruct (Hv2 v2 eq_refl) as [H1 H2].
           intros _. destruct (Hv' eq_refl) as [?|[_ Hx]]; [by left|right]. congruence.
        -- split; [done|]. destruct (Hv' eq_refl) as [?|[? _]]; [by left|by right].
      * rewrite Hno by done. apply (IH v'); [|done|done]. intros ?. congruence.
    + rewrite !Hno by done. intros g d Hg Hd. change (follows (may automation enforceOnly) host_after
        (fun g r => match r with inl (d, r) => coherent d /\ in_run packs g | inr _ => False end) g
        ((run v (TransitionOf cur next) ≫= fun v => for_fold_ run v es) d)).
      rewrite Hno by done. apply (IH v); [|done|done]. intros ?. congruence.
Qed.

Lemma actor_runs actor taskId base ctx : keeps (in_run packs) (run_actor automation event now enforceOnly loaded actor taskId base ctx).
Proof.
  unfold run_actor. destruct (receive _ _ _) as [res a'] eqn:Hr. cbn [fst snd].
  destruct res as [es|x]; [|intros g d Hg Hd; by split].
  assert (paired (as_current (oa_state actor)) es) as Hes.
  { unfold receive in Hr. destruct (awaits _ _); [injection Hr as <- _; constructor|].
    set (e := chain _ _ _ _) in Hr. destruct (ce_state e) as [s|x] eqn:He; [|done]. injection Hr as <- _. apply chain_paired. }
  enough (keeps (in_run packs) (
    v ← for_fold_ (apply_effect automation event now enforceOnly loaded ctx taskId (bg_approvedArtifactPath base))
          {| lv_expected := as_current (oa_state actor); lv_accepted := true; lv_current := as_current (oa_state a'); lv_skills := InMemorySkillRuntime |} es;
    bound ← from_result (onStateEntry (lv_current v) (cm_meta (lp_compiled loaded)) (lv_skills v));
    bind_skills (sr_bound bound))) as H by exact H.
  apply held_bind; [eapply effects_run; [exact Hes|]; by right|]. intros v.
  apply held_bind; [apply keeps_result|]. intros b. apply keeps_bind_skills.
Qed.

Lemma cartridge_runs domain : keeps (in_run packs) (run_cartridge automation event now enforceOnly domain loaded).
Proof.
  unfold run_cartridge. destruct (cm_fsm _); [|apply keeps_ret].
  destruct (match lp_serves loaded, domain with Some serves, Some domain => negb (skillServesDomainMatches serves domain) | _, _ => false end);
    [apply keeps_ret|].
  apply held_bind; [apply keeps_result|]. intros fresh.
  apply held_bind; [by apply keeps_call|]. intros taskId.
  apply held_bind; [apply seeded_state_keeps|]. intros seeded.
  apply held_bind.
  { apply keeps_map. intros [c b]. unfold read_policy. destruct (ab_subject _); leaves_workflow. }
  intros audits. apply held_bind; [by apply keeps_call|]. intros base.
  apply held_bind; [by apply keeps_call|]. intros ctx. apply held_bind; [apply keeps_current|]. intros d.
  destruct (_ && _); [|apply actor_runs]. destruct (lv_path _); [apply keeps_deny|apply actor_runs].
Qed.
End Loaded.
End Moves.

(** C8: the protocol of the host - whatever the files, the tables, the packs
    and the context reader answer, or throw, the host persists a state only for
    a pack that was loaded, against an expected state, and never when it only
    enforces; it logs a transition only directly after that pack's move between
    the same two states was accepted, writes the stage of an interactive session
    only after that, and runs a reaction only after a logged transition of a
    loaded pack that binds it; it always returns, with a decision that denies
    exactly when it carries a message, and throws only what loading the packs
    threw. *)
Theorem host_keeps_protocol `{Re : Re2} `{Gl : Globs} automation processCwd event now enforceOnly :
  follows (may automation enforceOnly) host_after
    (fun g r => match r with
                | inl (Ok d) => coherent d /\ exists packs, hg_packs g = Some (Ok packs)
                | inl (Err x) => hg_packs g = Some (Err x)
                | inr _ => False
                end)
    {| hg_packs := None; hg_stage := Idle |} (runV2Cartridges automation processCwd event now enforceOnly).
Proof.
  enough (triple automation enforceOnly (fun g => hg_packs g = None) (run_all automation processCwd event now enforceOnly)
    (fun g r => match r with Ok d => coherent d /\ exists packs, hg_packs g = Some (Ok packs) | Err x => hg_packs g = Some (Err x) end)) as H.
  { unfold runV2Cartridges. apply follows_bind. eapply follows_mono; [|apply H; [done|by left]].
    intros g [[d [a|x]]|[]] [_ Hr]; done. }
  eapply (triple_bind _ _ _ (fun g r => hg_packs g = Some r)); [by apply triple_call| |done].
  intros packs. destruct packs as [|p0 packs0]; [apply triple_current; eauto|].
  set (packs := p0 :: packs0).
  assert (forall {A} (m : HostM A) (f : A -> HostM V2Decision) Q, safely automation enforceOnly (in_run packs) m ->
    (forall a, triple automation enforceOnly (in_run packs) (f a) Q) -> triple automation enforceOnly (in_run packs) (m ≫= f) Q) as Hs.
  { intros A m f Q Hm Hf. eapply triple_bind; [apply Hm| |by intros g x [_ [? [=]]]]. intros a g d [Hg _]. by apply Hf. }
  apply Hs; [apply capture_ask_safe|intros []]. apply Hs; [apply record_readiness_safe|intros []].
  apply Hs; [apply record_consult_safe|intros []]. apply Hs; [apply record_verify_safe|intros []].
  apply Hs; [apply resolve_domain_safe|intros domain]. apply Hs; [|intros []].
  { apply safely_each. intros loaded Hin. apply safely_try; [by apply cartridge_runs|]. intros x. apply safely_stderr. }
  apply Hs; [apply completion_report_safe|intros []]. apply triple_current. intros g d Hg Hd. split; [done|by eexists].
Qed.
