(* ===== verification/HostDemo.v ===== *)
(** * The cartridge host: demonstrations

    The theorems about what a hook records and reads, applied to small
    sessions: two reviewers of an artifact, a watched cartridge, the history of
    a task, a decomposed scope. *)

From Stdlib Require Import Ascii String.
From stdpp Require Import base option list strings gmap pretty relations.
From S2P Require Import Prelude Json CanonicalJson ExprSyntax ExprEval Evaluator LoopEvents Fsm FsmTree FsmProps PackCompile Guard LoopDriver LoopProps AuditEvidence AuditProps CachedAudit GuardContext GuardContextProps SessionFacts FactsProps ObservedActor PlanGate PlanGateProps.
#[local] Open Scope os_scope.

(** ** Audits *)
(** A hash with the form of the real one. *)
Fixpoint zeros (n : nat) : string := match n with 0 => "" | S n => String "0" (zeros n) end.
Definition demo_sha (s : string) : string := let n := pretty (String.length s) in zeros (64 - String.length n) +:+ n.
Definition demo_output : string := lines ["VERDICT: GUESS_FREE"; "nothing is guessed"].
Definition demo_decl : LensDecl := {| ld_id := "facts"; ld_prompt := "Check the facts."; ld_criteria := None |}.
Definition demo_declaration : Declaration :=
  {| dc_model := "reviewer"; dc_prompt := None;
     dc_lenses := Some [demo_decl; {| ld_id := "scope"; ld_prompt := "Check the scope"; ld_criteria := None |}];
     dc_passVerdict := "GUESS_FREE"; dc_failVerdict := "UNRESOLVED"; dc_timeoutMs := None; dc_subject := Some "the artifact" |}.
Definition demo_strategy : result string (option (string -> result string string)) := Ok (Some (fun _ => Ok demo_output)).
Definition demo_audited : result string string * AuditTables :=
  cached_audit demo_sha (Some "task-1") 5 demo_strategy "scope" demo_declaration no_audits.
Definition demo_policy : ScopeAuditPolicy :=
  {| sp_lenses := [{| pl_id := "facts"; pl_promptTemplate := "Check {{effective}} against {{rubric}}" |};
                   {| pl_id := "scope"; pl_promptTemplate := "Does {{effective}} answer the ask?" |}]; sp_rubric := "the rubric" |}.
Definition demo_lens (lens : PolicyLens) : AuditLens :=
  {| al_id := pl_id lens; al_promptHash := demo_sha (rendered demo_policy "the artifact" lens); al_output := demo_output |}.
(** Evidence whose lenses are named the way the freshness check expects. *)
Definition demo_entry : AuditEntry :=
  {| ae_hash := demo_sha "declaration"; ae_verdict := None; ae_complete := Some true; ae_lenses := Some (map demo_lens (sp_lenses demo_policy));
     ae_failures := Some []; ae_passVerdict := Some "GUESS_FREE"; ae_failVerdict := Some "UNRESOLVED"; ae_subjectHash := Some (demo_sha "the artifact") |}.
Definition demo_tables : AuditTables := (writeTaskAuditCache (Some "task-1") "scope" demo_entry 7 no_audits).2.
Definition demo_view (t : AuditTables) : AuditView :=
  {| av_task := Some "task-1"; av_tables := t; av_artifacts := Some ["scope.md"]; av_file p := if (p =? "scope.md")%string then Some "the artifact" else None |}.
Definition demo_verdict_text : string := default "" (deriveAuditEvidenceVerdict demo_entry).

Lemma pass_needs_every_lens_witness :
  auditVerdictMatchesPass (deriveAuditEvidenceVerdict demo_entry) "GUESS_FREE" = true <->
  ae_complete demo_entry = Some true /\ exists lenses, ae_lenses demo_entry = Some lenses /\ 2 <= List.length lenses <= 4 /\ NoDup (map al_id lenses) /\
    Forall (fun lens => verdictLine (al_output lens) = verdict_line "GUESS_FREE") lenses.
Proof. apply (pass_needs_every_lens (entry_value demo_entry)); vm_compute; reflexivity. Defined.

Lemma no_audits_kept : Kept no_audits.
Proof. split; [constructor|constructor|]. intros task key. cbn. lia. Qed.
Lemma audit_cache_reads_back_witness : exists t', writeTaskAuditCache (Some "task-1") "scope" demo_entry 7 no_audits = (Ok tt, t') /\
  readTaskAuditCache (Some "task-1") "scope" t' = Some demo_entry.
Proof.
  destruct (audit_cache_reads_back (entry_value demo_entry) demo_entry "task-1" "scope" 7 no_audits 20
    ltac:(vm_compute; reflexivity) no_audits_kept) as (t' & Hw & _ & Hr & _).
  exists t'. by split.
Defined.

Lemma fresh_verdict_certifies_witness :
  readFreshAuditVerdict demo_sha (demo_view demo_tables) "scope" None (Policy demo_policy) = Some demo_verdict_text /\
  exists path artifact e, artifact_path (demo_view demo_tables) None = Some path /\ av_file (demo_view demo_tables) path = Some artifact /\
    stored demo_tables e /\ ae_subjectHash e = Some (demo_sha artifact).
Proof.
  assert (readFreshAuditVerdict demo_sha (demo_view demo_tables) "scope" None (Policy demo_policy) = Some demo_verdict_text) as H by (vm_compute; reflexivity).
  split; [exact H|].
  destruct (fresh_verdict_certifies demo_sha (demo_view demo_tables) "scope" None (Policy demo_policy) demo_verdict_text H)
    as (_ & path & artifact & e & H1 & H2 & H3 & _ & H4 & _).
  exists path, artifact, e. exact (conj H1 (conj H2 (conj H3 H4))).
Defined.

(** The primitive's own evidence, complete and passing, is not read. *)
Lemma declared_policy_never_certified_witness :
  is_ok demo_audited.1 = true /\
  (readFreshAuditVerdict demo_sha (demo_view demo_audited.2) "scope" None (Policy demo_policy) = None \/ exists x y, x <> y /\ demo_sha x = demo_sha y).
Proof.
  split; [vm_compute; reflexivity|].
  apply (declared_policy_never_certified demo_sha demo_audited.2 (demo_view demo_audited.2) "scope" None demo_policy).
  - apply (audited_run demo_sha), audited_none.
  - reflexivity.
  - discriminate.
  - repeat constructor; discriminate.
Defined.

(** No earlier evidence: each output is the model's answer to the prompt of its lens. *)
Lemma fanout_answer_is_current_witness : exists text, demo_audited.1 = Ok text /\
  exists e, readTaskAuditCache (Some "task-1") "scope" demo_audited.2 = Some e /\ ae_complete e = Some true /\
    Forall2 (fun lens a => answered demo_strategy (per_lens_limit (default [] (dc_lenses demo_declaration))) lens (al_output a))
      (default [] (dc_lenses demo_declaration)) (default [] (ae_lenses e)).
Proof.
  destruct demo_audited as [r t'] eqn:Ea. destruct r as [text|x]; [|vm_compute in Ea; discriminate]. exists text. split; [reflexivity|].
  destruct (fanout_answer_is_current demo_sha (Some "task-1") 5 demo_strategy "scope" demo_declaration
    (default [] (dc_lenses demo_declaration)) no_audits text t' eq_refl Ea) as (e & H1 & H2 & _ & H3 & _).
  exists e. refine (conj H1 (conj H2 _)). eapply Forall2_impl; [exact H3|]. intros lens a [_ [(e0 & _ & H & _)|H]]; [|exact H].
  apply elem_of_nil in H as [].
Defined.

(** ** A watched cartridge *)
#[local] Instance demo_patterns : Re2 := {| Pattern := string; re2_compile p := Some p; re2_test _ _ := None |}.
Definition demo_actor_state : ActorState := {| as_current := "route"; as_history := ["entry"]; as_wedged := None |}.
Lemma observed_actor_walks_witness :
  exists es h last, receive "tool_call" (∅ : GuardCtx) (actor_of demo_pack demo_parent demo_compiled demo_actor_state) =
    (Ok es, actor_of demo_pack demo_parent demo_compiled {| as_current := last; as_history := ["entry"] ++ h; as_wedged := None |}).
Proof.
  destruct (observed_actor_walks demo_pack demo_parent demo_compiled "tool_call" (∅ : GuardCtx) demo_actor_state
    demo_keys_ok eq_refl ltac:(vm_compute; reflexivity) ltac:(vm_compute; reflexivity) demo_locally_routed
    ltac:(repeat (constructor; [vm_compute; reflexivity|]); constructor) ltac:(eexists; vm_compute; reflexivity)) as [_ (es & h & last & _ & H & _)].
  exists es, h, last. exact H.
Defined.

(** ** Recorded facts *)
Definition demo_session : SessionView :=
  {| sv_task := Some "task-1"; sv_cwd := Some "/work"; sv_suite := Some "npm test"; sv_verify := None; sv_arch := None;
     sv_reversible := true; sv_assigned := Some "task-1" |}.
Definition demo_facts : list FactOp := [Ran Suite "task-1" false; Bumped "task-1"; Ran Suite "task-1" true; NewSession; Scanned "task-1" []].
Lemma evidence_reflects_history_witness :
  readBugfixRounds (Some "task-1") "task-1" (facts_of (Some "task-1") demo_facts) = rounds (Some "task-1") "task-1" (reverse demo_facts) /\
  rounds (Some "task-1") "task-1" (reverse demo_facts) = 1%Z.
Proof.
  destruct (evidence_reflects_history demo_facts demo_session "task-1" eq_refl ltac:(discriminate)) as (_ & _ & _ & H & _).
  split; [exact H|vm_compute; reflexivity].
Defined.

(** ** A decomposed scope *)
Definition demo_plan : list PlanIssue :=
  [{| pl_issue := "wg-1"; pl_body := "build it sourceElementId:D1" |}; {| pl_issue := "wg-2"; pl_body := "sourceElementId:D2" |}].
Definition demo_plan_edges : list PlanEdge := [{| pe_from := "wg-1"; pe_to := "wg-2"; pe_type := "blocks" |}].
Lemma plan_gate_exact_witness : planEvidence ["D1"; "D2"] demo_plan demo_plan_edges = (true, true) /\
  acyclic (map pl_issue (in_scope ["D1"; "D2"] demo_plan)) demo_plan_edges.
Proof.
  split; [vm_compute; reflexivity|].
  apply (plan_gate_exact ["D1"; "D2"] demo_plan demo_plan_edges); [|vm_compute; reflexivity].
  apply (bool_decide_unpack _). vm_compute. exact I.
Defined.
