(* ===== verification/Admission.v ===== *)
(** * Admission and ownership ([src/src/runtime/audit_admission.ts], [runtime/ralph/loop_owner.ts])

    Who may run: two fan-outs of audits on a machine, one audit of a task and
    key, one loop on a project.  Each is a lock of the kernel, a write
    transaction on a file of its own that ends with its process, and beside it a
    file or an endpoint that tells the others who runs.  A call is a program of
    the operations it awaits ([Threads]); [Review], [Single] and [Claim] stand
    for what runs inside. *)

From Stdlib Require Import Ascii String ZArith.
From stdpp Require Import base option list strings gmap pretty.
From S2P Require Import Prelude Threads Json JsonText ExprSyntax.
#[local] Open Scope Z_scope.

(** ** Operations *)
Record FileInfo := { fi_directory : bool; fi_link : bool; fi_socket : bool; fi_mode : Z; fi_uid : Z }.
(** How a connection to an endpoint ends: with a first line, or before one. *)
Inductive Dialed := TimedOut | Exceeded | EndedEarly | Line (s : string) | Failed (connected : bool) (code text : string).
Inductive AdmOp :=
| MakeDir (path : string) | MakePrivateDir (path : string) | Stat (path : string)
| TryLock (target : string) | Unlock (target : string)
| Clock | Token | Pid | ResolveTask (sessionId : string)
| ReadText (path : string) | WriteText (path text : string) | Unlink (path : string) | Rename (from to : string)
| Identity (pid : Z) | Dial (endpoint : string) | Listen (endpoint : string) | CloseServer
| Review (sessionId key : string) | Single (sessionId key : string) | Claim (store : string).
(** Errors are their codes; [TryLock] answers whether the lock was free. *)
Definition AdmAns (o : AdmOp) : Type :=
  match o with
  | TryLock _ => result string bool
  | Unlock _ | CloseServer | Claim _ => unit
  | Clock | Pid => Z
  | Stat _ => result string FileInfo
  | Token | ReadText _ | Identity _ | Review _ _ | Single _ _ => result string string
  | ResolveTask _ => result string (option string)
  | Dial _ => Dialed
  | _ => result string unit
  end.
Abbreviation AP := (Prog AdmOp AdmAns string).
Definition try_op {A} (p : AP (result string A)) : AP A := p ≫= fun r => match r with Ok a => Ret a | Err x => Throw x end.
Abbreviation awaited o := (try_op (ask (o : AdmOp) : AP (AdmAns o))).

(** ** Admission of audits *)
Definition AUDIT_FANOUT_SLOTS : nat := 2.
Definition AUDIT_CACHE_LOCK_SLOTS : N := 64.
Definition ACTIVITY_FAST_PATH_MS : Z := 660000.
Definition ACTIVITY_CLOCK_SKEW_MS : Z := 1000.
Record AdmissionProjection := { pj_token : string; pj_sessionId : string; pj_slot : Z; pj_createdAtMs : Z; pj_expiresAtMs : Z }.
#[export] Instance AdmissionProjection_eq_dec : EqDecision AdmissionProjection.
Proof. solve_decision. Defined.
Record AuditActivity := { aa_active : bool; aa_unknown : bool; aa_probed : list string }.
Inductive ProjectionRead := PAbsent | PUnknown | PValid (p : AdmissionProjection).
Inductive RecoveryRemoval := RemovedIt | ChangedIt | RemovalError.

Section Audits.
Context (home : string).
Definition admissionDir : string := home +:+ "/audit-admission".
Definition admissionTarget (slot : nat) : string := admissionDir +:+ "/slot-" +:+ pretty slot +:+ ".db".
Definition activityPath (slot : nat) : string := admissionDir +:+ "/activity-slot-" +:+ pretty slot +:+ ".json".
Definition projection_value (p : AdmissionProjection) : Json :=
  JObj [("token", JStr (pj_token p)); ("sessionId", JStr (pj_sessionId p)); ("slot", JNum (pj_slot p));
        ("createdAtMs", JNum (pj_createdAtMs p)); ("expiresAtMs", JNum (pj_expiresAtMs p))].
Definition projection_of (v : Json) : option AdmissionProjection :=
  match v with
  | JObj o =>
      match obj_get "token" o, obj_get "sessionId" o, obj_get "slot" o, obj_get "createdAtMs" o, obj_get "expiresAtMs" o with
      | Some (JStr token), Some (JStr sessionId), Some (JNum slot), Some (JNum created), Some (JNum expires) =>
          if expires - created =? ACTIVITY_FAST_PATH_MS
          then Some {| pj_token := token; pj_sessionId := sessionId; pj_slot := slot; pj_createdAtMs := created; pj_expiresAtMs := expires |}
          else None
      | _, _, _, _, _ => None
      end
  | _ => None
  end.
Definition decode_projection (raw : string) : option AdmissionProjection := parseJson raw ≫= projection_of.
Definition readProjection (path : string) : AP ProjectionRead :=
  r ← ask (ReadText path);
  mret match (r : result string string) with
       | Err code => if (code =? "ENOENT")%string then PAbsent else PUnknown
       | Ok raw => match decode_projection raw with Some p => PValid p | None => PUnknown end
       end.
Definition removeProjectionIfStillEqual (path : string) (owner : AdmissionProjection) : AP RecoveryRemoval :=
  current ← readProjection path;
  match current with
  | PAbsent => mret RemovedIt
  | PUnknown => mret RemovalError
  | PValid p =>
      if bool_decide (p = owner) then r ← ask (Unlink path); mret match (r : result string unit) with Ok _ => RemovedIt | Err _ => RemovalError end
      else mret ChangedIt
  end.
Definition removeProjectionIfOwned (path : string) (owner : AdmissionProjection) : AP unit :=
  current ← readProjection path;
  match current with
  | PValid p => if bool_decide (p = owner) then _ ← ask (Unlink path); mret tt else mret tt
  | _ => mret tt
  end.
(** The first free slot of those from [slot] on. *)
Fixpoint acquire_slot (slots : nat) (slot : nat) : AP (option nat) :=
  match slots with
  | O => mret None
  | S slots => free ← awaited (TryLock (admissionTarget slot)); if (free : bool) then mret (Some slot) else acquire_slot slots (S slot)
  end.
Definition withAuditFanoutAdmission {T} (sessionId : string) (work : AP T) : AP T :=
  _ ← awaited (MakeDir admissionDir);
  owned ← acquire_slot AUDIT_FANOUT_SLOTS 0;
  match (owned : option nat) with
  | None => Throw ("audit fan-out admission full (" +:+ pretty AUDIT_FANOUT_SLOTS +:+ " concurrent invocations)")
  | Some slot =>
      finally (
        createdAtMs ← ask Clock;
        token ← awaited Token;
        let projection := {| pj_token := token; pj_sessionId := sessionId; pj_slot := Z.of_nat slot; pj_createdAtMs := createdAtMs;
                             pj_expiresAtMs := (createdAtMs : Z) + ACTIVITY_FAST_PATH_MS |} in
        finally (_ ← awaited (WriteText (activityPath slot) (stringify (projection_value projection))); work)
                (removeProjectionIfOwned (activityPath slot) projection))
        (ask (Unlock (admissionTarget slot)))
  end.
Definition probed (f : string) (r : AuditActivity) : AuditActivity :=
  {| aa_active := aa_active r; aa_unknown := aa_unknown r; aa_probed := aa_probed r ++ [f] |}.
Definition now_unknown (r : AuditActivity) : AuditActivity := {| aa_active := aa_active r; aa_unknown := true; aa_probed := aa_probed r |}.
Definition now_active (r : AuditActivity) : AuditActivity := {| aa_active := true; aa_unknown := aa_unknown r; aa_probed := aa_probed r |}.
Definition recover_slot (slot : nat) (marker : AdmissionProjection) (r : AuditActivity) : AP AuditActivity :=
  let r := probed ("audit:recovery:" +:+ pretty slot) r in
  made ← ask (MakeDir admissionDir);
  match (made : result string unit) with
  | Err _ => mret (now_unknown r)
  | Ok _ =>
      probe ← ask (TryLock (admissionTarget slot));
      match (probe : result string bool) with
      | Ok true =>
          finally (removal ← removeProjectionIfStillEqual (activityPath slot) marker;
                   mret match removal with RemovedIt => r | _ => now_unknown r end)
                  (ask (Unlock (admissionTarget slot)))
      | _ => mret (now_unknown r)
      end
  end.
Definition activity_slot (sessionId : string) (nowMs : Z) (slot : nat) (r : AuditActivity) : AP AuditActivity :=
  let r := probed ("audit:projection:" +:+ pretty slot) r in
  marker ← readProjection (activityPath slot);
  match marker with
  | PAbsent => mret r
  | PUnknown => mret (now_unknown r)
  | PValid p =>
      if negb (pj_slot p =? Z.of_nat slot) then mret (now_unknown r)
      else if negb (pj_sessionId p =? sessionId)%string then mret r
      else if (pj_createdAtMs p - ACTIVITY_CLOCK_SKEW_MS <=? nowMs) && (nowMs <? pj_expiresAtMs p) then mret (now_active r)
      else recover_slot slot p r
  end.
Fixpoint activity_slots (sessionId : string) (nowMs : Z) (slots : list nat) (r : AuditActivity) : AP AuditActivity :=
  match slots with
  | [] => mret r
  | slot :: slots => r ← activity_slot sessionId nowMs slot r; activity_slots sessionId nowMs slots r
  end.
Definition readAuditActivity (sessionId : string) (nowMs : Z) : AP AuditActivity :=
  activity_slots sessionId nowMs (seq 0 AUDIT_FANOUT_SLOTS) {| aa_active := false; aa_unknown := false; aa_probed := [] |}.

(** The first four bytes of a SHA-256 digest. *)
Context (digest32 : string -> N).
Definition padded (n : N) : string := if N.ltb n 10 then "0" +:+ pretty n else pretty n.
Definition cacheLockTarget (taskId cacheKey : string) : string :=
  home +:+ "/audit-cache-locks/slot-" +:+ padded (digest32 (taskId +:+ String "010" cacheKey) mod AUDIT_CACHE_LOCK_SLOTS)%N +:+ ".db".
Definition withAuditCacheKeyLock {T} (sessionId cacheKey : string) (work : AP T) : AP T :=
  taskId ← awaited (ResolveTask sessionId);
  match (taskId : option string) with
  | None => Throw "audit cache lock requires canonical task identity"
  | Some taskId =>
      _ ← awaited (MakeDir (home +:+ "/audit-cache-locks"));
      free ← awaited (TryLock (cacheLockTarget taskId cacheKey));
      if (free : bool) then finally work (ask (Unlock (cacheLockTarget taskId cacheKey)))
      else Throw ("audit cache key is already in flight: " +:+ cacheKey)
  end.
(** The two modes of the audit primitive under their locks. *)
Definition fanout_audit (sessionId key : string) : AP string :=
  withAuditCacheKeyLock sessionId key (withAuditFanoutAdmission sessionId (awaited (Review sessionId key))).
Definition single_audit (sessionId key : string) : AP string := withAuditCacheKeyLock sessionId key (awaited (Single sessionId key)).
End Audits.

(** ** Ownership of the loop *)
Definition OWNER_KIND : string := "opensquid_loop_owner".
Definition OWNER_VERSION : Z := 1.
Definition MAX_SAFE_INTEGER : Z := 9007199254740991.
Record LoopOwnerProject := { lo_targetRepoRoot : string; lo_storeRoot : string }.
Record LoopOwnerHandshake := { hs_pid : Z; hs_processStartIdentity : string }.
Inductive LoopOwnerProbe := PLive (owner : LoopOwnerHandshake) | PNobody (refused : bool) | PCompromised (error : string).
Inductive AcquireLoopOwnerResult :=
| AcquiredLease (owner : LoopOwnerHandshake)
| Occupied (owner : option LoopOwnerHandshake) (error : option string)
| StillBinding.

Section Owner.
(** The platform, the user of the process, the process's hash and random ids. *)
Context (windows : bool) (platform : string) (getuid : option Z) (username homedir : string) (sha256 : string -> string).
Definition ownerUserKey : string :=
  match getuid with
  | Some uid => "uid:" +:+ pretty uid
  | None => "username:" +:+ username +:+ String "000" "" +:+ "home:" +:+ homedir
  end.
Definition endpoint_digest (canonicalProjectRoot : string) : string :=
  sha256 (stringify (JArr [JStr "opensquid-loop-owner"; JNum OWNER_VERSION; JStr platform; JStr canonicalProjectRoot; JStr ownerUserKey])).
Definition endpointDirectory : string := "/tmp/osq-loop-" +:+ String.substring 0 12 (sha256 ownerUserKey).
Definition BACKSLASH2 : string := String "092" (String "092" "").
Definition loopOwnerEndpoint (canonicalProjectRoot : string) : string :=
  if windows then BACKSLASH2 +:+ "." +:+ String "092" "pipe" +:+ String "092" "osq-loop-" +:+ endpoint_digest canonicalProjectRoot
  else endpointDirectory +:+ "/" +:+ endpoint_digest canonicalProjectRoot +:+ ".sock".
(** Whether the directory is there; it must be a real, private one of ours. *)
Definition verifyEndpointDirectory (create : bool) : AP bool :=
  if windows then mret true
  else
    _ ← (if create then
           r ← ask (MakePrivateDir endpointDirectory);
           match (r : result string unit) with Ok _ => mret tt | Err code => if (code =? "EEXIST")%string then mret tt else Throw code end
         else mret tt);
    info ← ask (Stat endpointDirectory);
    match (info : result string FileInfo) with
    | Err code => if negb create && (code =? "ENOENT")%string then mret false else Throw code
    | Ok info =>
        if negb (fi_directory info) || fi_link info then Throw ("loop-owner endpoint parent is not a real directory: " +:+ endpointDirectory)
        else if negb (Z.land (fi_mode info) 63 =? 0) then Throw ("loop-owner endpoint parent is not private: " +:+ endpointDirectory)
        else if match getuid with Some uid => negb (fi_uid info =? uid) | None => false end
        then Throw ("loop-owner endpoint parent has the wrong owner: " +:+ endpointDirectory)
        else mret true
    end.
(** The fields a handshake and a projection share. *)
Definition owner_fields (o : list (string * Json)) : option LoopOwnerHandshake :=
  match obj_get "version" o, obj_get "pid" o, obj_get "processStartIdentity" o with
  | Some (JNum version), Some (JNum pid), Some (JStr start) =>
      if (version =? OWNER_VERSION) && (Z.abs pid <=? MAX_SAFE_INTEGER) && (0 <? pid) && negb (start =? "")%string
      then Some {| hs_pid := pid; hs_processStartIdentity := start |} else None
  | _, _, _ => None
  end.
Definition decodeHandshake (value : string) : option LoopOwnerHandshake :=
  match parseJson value with
  | Some (JObj o) => match obj_get "kind" o with Some (JStr kind) => if (kind =? OWNER_KIND)%string then owner_fields o else None | _ => None end
  | _ => None
  end.
Definition handshakeText (owner : LoopOwnerHandshake) : string :=
  stringify (JObj [("kind", JStr OWNER_KIND); ("version", JNum OWNER_VERSION); ("pid", JNum (hs_pid owner));
                   ("processStartIdentity", JStr (hs_processStartIdentity owner))]) +:+ String "010" "".
Definition projectionText (owner : LoopOwnerHandshake) (endpoint : string) : string :=
  stringify (JObj [("version", JNum OWNER_VERSION); ("pid", JNum (hs_pid owner)); ("processStartIdentity", JStr (hs_processStartIdentity owner));
                   ("endpoint", JStr endpoint)]) +:+ String "010" "".
Definition validateHandshake (owner : LoopOwnerHandshake) : AP bool :=
  identity ← ask (Identity (hs_pid owner));
  mret match (identity : result string string) with Ok start => (start =? hs_processStartIdentity owner)%string | Err _ => false end.
Definition probeEndpoint (endpoint : string) : AP LoopOwnerProbe :=
  d ← ask (Dial endpoint);
  match (d : Dialed) with
  | TimedOut => mret (PCompromised "loop-owner probe timed out")
  | Exceeded => mret (PCompromised "loop-owner handshake exceeded limit")
  | EndedEarly => mret (PCompromised "loop-owner handshake ended early")
  | Failed connected code text =>
      mret (if negb connected && ((code =? "ENOENT")%string || (code =? "ECONNREFUSED")%string) then PNobody (code =? "ECONNREFUSED")%string
            else PCompromised text)
  | Line s =>
      match decodeHandshake s with
      | None => mret (PCompromised "invalid loop-owner handshake")
      | Some owner => valid ← validateHandshake owner; mret (if (valid : bool) then PLive owner else PCompromised "invalid loop-owner handshake")
      end
  end.
Definition loopPidPath (root : string) : string := root +:+ "/loop.pid".
Definition publishProjection (storeRoot : string) (owner : LoopOwnerHandshake) (endpoint : string) : AP unit :=
  awaited (WriteText (loopPidPath storeRoot) (projectionText owner endpoint)).
Definition readProjectedOwner (storeRoot : string) : AP (option LoopOwnerHandshake) :=
  raw ← ask (ReadText (loopPidPath storeRoot));
  mret match (raw : result string string) with
       | Ok raw => match parseJson raw with Some (JObj o) => owner_fields o | _ => None end
       | Err _ => None
       end.
Definition probeLoopOwner (project : LoopOwnerProject) : AP LoopOwnerProbe :=
  let endpoint := loopOwnerEndpoint (lo_targetRepoRoot project) in
  ready ← attempt (verifyEndpointDirectory false);
  match (ready : result string bool) with
  | Err x => mret (PCompromised x)
  | Ok false => mret (PNobody false)
  | Ok true =>
      r ← probeEndpoint endpoint;
      _ ← match r with PLive owner => publishProjection (lo_storeRoot project) owner endpoint | _ => mret tt end;
      mret r
  end.
Definition ownerLock (storeRoot : string) : string := storeRoot +:+ "/loop-owner-lock.db".
Inductive Quarantine := QRetry | QGone | QUnsafe.
Definition quarantineRefusedSocket (endpoint : string) : AP Quarantine :=
  stat ← ask (Stat endpoint);
  match (stat : result string FileInfo) with
  | Err code => if (code =? "ENOENT")%string then mret QGone else Throw code
  | Ok info =>
      if negb (fi_socket info) then mret QUnsafe
      else
        pid ← ask Pid;
        token ← awaited Token;
        let quarantine := endpoint +:+ ".stale." +:+ pretty (pid : Z) +:+ "." +:+ token in
        moved ← ask (Rename endpoint quarantine);
        match (moved : result string unit) with
        | Err code => if (code =? "ENOENT")%string then mret QGone else Throw code
        | Ok _ => _ ← ask (Unlink quarantine); mret QRetry
        end
  end.
Section Acquire.
Context (project : LoopOwnerProject) (beforeListen : AP unit).
Let endpoint := loopOwnerEndpoint (lo_targetRepoRoot project).
Let store := lo_storeRoot project.
Definition closeAdmissionLock : AP unit := ask (Unlock (ownerLock store)).
(** The loop that binds the endpoint; [turns] bounds its rounds. *)
Fixpoint bind_endpoint (turns : nat) (owner : LoopOwnerHandshake) : AP AcquireLoopOwnerResult :=
  match turns with
  | O => mret StillBinding
  | S turns =>
      bound ← ask (Listen endpoint);
      match (bound : result string unit) with
      | Ok _ => _ ← publishProjection store owner endpoint; mret (AcquiredLease owner)
      | Err code =>
          _ ← ask CloseServer;
          if negb (code =? "EADDRINUSE")%string then _ ← closeAdmissionLock; Throw code
          else
            probe ← probeEndpoint endpoint;
            match probe with
            | PLive other => _ ← publishProjection store other endpoint; _ ← closeAdmissionLock; mret (Occupied (Some other) None)
            | PCompromised x => _ ← closeAdmissionLock; mret (Occupied None (Some x))
            | PNobody refused =>
                if negb windows && refused then
                  q ← quarantineRefusedSocket endpoint;
                  match q with
                  | QUnsafe => _ ← closeAdmissionLock; mret (Occupied None (Some ("loop-owner endpoint is not a socket: " +:+ endpoint)))
                  | _ => bind_endpoint turns owner
                  end
                else _ ← closeAdmissionLock; mret (Occupied None (Some "loop-owner endpoint is unavailable"))
            end
      end
  end.
(** With the lifetime lock held. *)
Definition admitted (turns : nat) : AP AcquireLoopOwnerResult :=
  pid ← ask Pid;
  identity ← ask (Identity pid);
  match (identity : result string string) with
  | Err x => _ ← closeAdmissionLock; Throw x
  | Ok start =>
      previous ← readProjectedOwner store;
      draining ← match previous with
                 | Some p => if negb (hs_pid p =? pid) then valid ← validateHandshake p; mret (if (valid : bool) then Some p else None) else mret None
                 | None => mret None
                 end;
      match (draining : option LoopOwnerHandshake) with
      | Some p => _ ← closeAdmissionLock; mret (Occupied None (Some ("previous loop process " +:+ pretty (hs_pid p) +:+ " is still draining")))
      | None =>
          ready ← attempt beforeListen;
          match (ready : result string unit) with
          | Err x => _ ← closeAdmissionLock; mret (Occupied None (Some x))
          | Ok _ => bind_endpoint turns {| hs_pid := pid; hs_processStartIdentity := start |}
          end
      end
  end.
Definition acquireLoopOwner (turns : nat) : AP AcquireLoopOwnerResult :=
  _ ← verifyEndpointDirectory true;
  initial ← probeEndpoint endpoint;
  match initial with
  | PLive owner => _ ← publishProjection store owner endpoint; mret (Occupied (Some owner) None)
  | PCompromised x => mret (Occupied None (Some x))
  | PNobody _ =>
      free ← awaited (TryLock (ownerLock store));
      if (free : bool) then admitted turns
      else
        retry ← probeEndpoint endpoint;
        match retry with
        | PLive owner => _ ← publishProjection store owner endpoint; mret (Occupied (Some owner) None)
        | PCompromised x => mret (Occupied None (Some x))
        | PNobody _ => mret (Occupied None (Some "loop-owner lifetime lock is held while the owner endpoint starts or drains"))
        end
  end.
(** A loop: it claims only with a lease, and closes it at its end. *)
Fixpoint claim_items (n : nat) : AP unit := match n with O => mret tt | S n => _ ← ask (Claim store); claim_items n end.
Definition loop_process (turns claims : nat) : AP unit :=
  r ← acquireLoopOwner turns;
  match r with AcquiredLease _ => _ ← claim_items claims; _ ← ask CloseServer; closeAdmissionLock | _ => mret tt end.
End Acquire.
End Owner.

(** ** The lease *)
(** What a lease's closures share, and what may happen to it. *)
Record Lease := { ls_active : bool; ls_closing : bool; ls_compromised : bool; ls_listening : bool; ls_locked : bool }.
Definition newLease : Lease := {| ls_active := true; ls_closing := false; ls_compromised := false; ls_listening := true; ls_locked := true |}.
Inductive LeaseEvent := ServerError | ServerClosed | LockClosed | CloseLease.
Definition compromise (l : Lease) : Lease :=
  if ls_closing l || ls_compromised l then l
  else {| ls_active := false; ls_closing := ls_closing l; ls_compromised := true; ls_listening := ls_listening l; ls_locked := ls_locked l |}.
Definition lease_event (l : Lease) (e : LeaseEvent) : Lease :=
  match e with
  | ServerError => compromise l
  | ServerClosed =>
      let l := {| ls_active := ls_active l; ls_closing := ls_closing l; ls_compromised := ls_compromised l; ls_listening := false; ls_locked := ls_locked l |} in
      if ls_closing l then l else compromise l
  | LockClosed => {| ls_active := ls_active l; ls_closing := ls_closing l; ls_compromised := ls_compromised l; ls_listening := ls_listening l; ls_locked := false |}
  | CloseLease =>
      if ls_closing l then l
      else {| ls_active := false; ls_closing := true; ls_compromised := ls_compromised l; ls_listening := false; ls_locked := false |}
  end.
Definition isActive (l : Lease) : bool := ls_active l && ls_listening l && ls_locked l.
