(* ===== verification/AdmissionProps.v ===== *)
(** * Properties of admission and ownership

    Processes that audit, look at the audits' activity or own a loop run one
    operation at a time, in any order, fail anywhere and die at any point.  A
    lock is held by the process that took it until it gives it back or dies. *)

From Stdlib Require Import Ascii String ZArith Lia.
From stdpp Require Import base option list strings gmap pretty.
From S2P Require Import Prelude Threads Json JsonText ExprSyntax Admission.
#[local] Open Scope Z_scope.

(** ** A machine of processes *)
(** What an operation may be answered, with [locked] what is held and the
    files as they are, and the files after it. *)
Definition answered (locked : string -> Prop) (fs : gmap string string) (o : AdmOp) : AdmAns o -> Prop :=
  match o with
  | TryLock t => fun a => a = Ok true -> ~ locked t
  | ReadText p => fun a => match a with Ok s => fs !! p = Some s | Err c => c = "ENOENT" -> fs !! p = None end
  | _ => fun _ => True
  end.
Definition files_after (fs : gmap string string) (o : AdmOp) : AdmAns o -> gmap string string :=
  match o with
  | WriteText p s => fun a => match a with Ok _ => <[p := s]> fs | Err _ => fs end
  | Unlink p => fun a => match a with Ok _ => delete p fs | Err _ => fs end
  | Rename p q => fun a => match a, fs !! p with Ok _, Some s => <[q := s]> (delete p fs) | _, _ => fs end
  | _ => fun _ => fs
  end.
(** What the operations of a process have led to: its locks, its task, and the
    file it last wrote under a lock of its own. *)
Record Held := { hd_locks : list string; hd_task : option string; hd_file : option (string * string) }.
Definition nothing_held : Held := {| hd_locks := []; hd_task := None; hd_file := None |}.

Section Machine.
(** The lock under which a file is written. *)
Context (guarded : string -> option string).
Definition held_after (g : Held) (o : AdmOp) : AdmAns o -> Held :=
  match o with
  | TryLock t => fun a => match a with Ok true => {| hd_locks := t :: hd_locks g; hd_task := hd_task g; hd_file := hd_file g |} | _ => g end
  | Unlock t => fun _ =>
      {| hd_locks := filter (fun x => x <> t) (hd_locks g); hd_task := hd_task g;
         hd_file := match hd_file g with Some (p, s) => if decide (guarded p = Some t) then None else Some (p, s) | None => None end |}
  | ResolveTask _ => fun a => match a with Ok t => {| hd_locks := hd_locks g; hd_task := t; hd_file := hd_file g |} | Err _ => g end
  | WriteText p s => fun a =>
      match a, guarded p with Ok _, Some _ => {| hd_locks := hd_locks g; hd_task := hd_task g; hd_file := Some (p, s) |} | _, _ => g end
  | Unlink p => fun _ => match guarded p with Some _ => {| hd_locks := hd_locks g; hd_task := hd_task g; hd_file := None |} | None => g end
  | _ => fun _ => g
  end.

Context (may : Held -> AdmOp -> Prop) (starts : AP unit -> Prop).
Record Machine := { mc_processes : list (Held * AP unit); mc_files : gmap string string }.
Definition locked (m : Machine) (t : string) : Prop := exists g p, (g, p) ∈ mc_processes m /\ t ∈ hd_locks g.
Inductive machine_step (m : Machine) : Machine -> Prop :=
| process_spawns p : starts p ->
    machine_step m {| mc_processes := mc_processes m ++ [(nothing_held, p)]; mc_files := mc_files m |}
| process_runs i g o k a : mc_processes m !! i = Some (g, Do o k) -> answered (locked m) (mc_files m) o a ->
    machine_step m {| mc_processes := <[i := (held_after g o a, k a)]> (mc_processes m); mc_files := files_after (mc_files m) o a |}
| process_dies i : machine_step m {| mc_processes := delete i (mc_processes m); mc_files := mc_files m |}.
Definition machine_start (fs : gmap string string) : Machine := {| mc_processes := []; mc_files := fs |}.
Definition reachable (m : Machine) : Prop := exists fs, rtc machine_step (machine_start fs) m.

(** ** What the processes keep *)
Context (finished : Held -> unit + string -> Prop).
Context (Hstart : forall p, starts p -> follows may held_after finished nothing_held p).
(** A guarded file is written and removed under its lock only. *)
Context (Hguard : forall g o, may g o -> match o with
  | WriteText p _ | Unlink p => forall t, guarded p = Some t -> t ∈ hd_locks g
  | Rename p q => guarded p = None /\ guarded q = None | _ => True end).

Definition all_locks (ps : list (Held * AP unit)) : list string := concat (map (fun x => hd_locks x.1) ps).
Definition backed (fs : gmap string string) (g : Held) : Prop :=
  forall p s, hd_file g = Some (p, s) -> fs !! p = Some s /\ exists t, guarded p = Some t /\ t ∈ hd_locks g.
Record Sound (m : Machine) : Prop := {
  so_follows : Forall (fun x => follows may held_after finished x.1 x.2) (mc_processes m);
  so_locks : NoDup (all_locks (mc_processes m));
  so_files : Forall (fun x => backed (mc_files m) x.1) (mc_processes m) }.
Lemma all_locks_in ps t : t ∈ all_locks ps <-> exists g p, (g, p) ∈ ps /\ t ∈ hd_locks g.
Proof.
  unfold all_locks. rewrite list_elem_of_In, in_concat. split.
  - intros (l & Hl & Ht). apply list_elem_of_In, list_elem_of_fmap in Hl as ([g p] & -> & Hin). exists g, p. split; [done|]. by apply list_elem_of_In.
  - intros (g & p & Hin & Ht). exists (hd_locks g). split; [|by apply list_elem_of_In]. apply list_elem_of_In, list_elem_of_fmap. by exists (g, p).
Qed.
Lemma all_locks_app ps qs : all_locks (ps ++ qs) = all_locks ps ++ all_locks qs.
Proof. unfold all_locks. by rewrite map_app, concat_app. Qed.
(** The processes around one of them. *)
Lemma around ps i (x : Held * AP unit) : ps !! i = Some x -> exists l r, ps = l ++ x :: r /\ delete i ps = l ++ r /\ (forall y, <[i := y]> ps = l ++ y :: r).
Proof.
  intros H. exists (take i ps), (drop (S i) ps). split; [symmetry; by apply take_drop_middle|]. split; [apply delete_take_drop|]. intros y. apply insert_take_drop. by eapply lookup_lt_Some.
Qed.
Lemma all_locks_middle l r x : all_locks (l ++ x :: r) ≡ₚ hd_locks x.1 ++ all_locks l ++ all_locks r.
Proof. rewrite all_locks_app. change (all_locks (x :: r)) with (hd_locks x.1 ++ all_locks r). rewrite !app_assoc. f_equiv. apply Permutation_app_comm. Qed.

Lemma sound_start fs : Sound (machine_start fs).
Proof. split; constructor. Qed.
Lemma backed_insert fs g p s : guarded p = None -> backed fs g -> backed (<[p := s]> fs) g.
Proof.
  intros Hp Hb q s' Hq. destruct (Hb q s' Hq) as (Hf & t & Ht & Hin). split; [|by exists t]. rewrite lookup_insert_ne; [done|]. intros ->. congruence.
Qed.
Lemma backed_delete fs g p : guarded p = None -> backed fs g -> backed (delete p fs) g.
Proof.
  intros Hp Hb q s' Hq. destruct (Hb q s' Hq) as (Hf & t & Ht & Hin). split; [|by exists t]. rewrite lookup_delete_ne; [done|]. intros ->. congruence.
Qed.
Lemma backed_step fs g o a : may g o -> backed fs g -> backed (files_after fs o a) (held_after g o a).
Proof.
  intros Hm Hb. specialize (Hguard _ _ Hm). destruct o; cbn in *; try exact Hb; try done.
  - destruct a as [[]|]; [|exact Hb..]. intros p s Hp. destruct (Hb p s Hp) as (Hf & t & Ht & Hin). split; [done|]. exists t. split; [done|by right].
  - intros p s. cbn. destruct (hd_file g) as [[p' s']|] eqn:Ef; [|done]. case_decide as Et; [done|]. intros [= -> ->].
    destruct (Hb p s Ef) as (Hf & t & Ht & Hin). split; [done|]. exists t. split; [done|]. apply list_elem_of_filter. split; [congruence|done].
  - destruct a as [[]|]; exact Hb.
  - destruct a as [[]|]; [|exact Hb]. destruct (guarded path) as [t|] eqn:Eg; [|by apply backed_insert].
    intros p s [= <- <-]. cbn. split; [by rewrite lookup_insert_eq|]. exists t. split; [done|by apply Hguard].
  - destruct (guarded path) as [t|] eqn:Eg; [done|]. destruct a as [[]|]; [by apply backed_delete|exact Hb].
  - destruct Hguard as [H1 H2]. destruct a as [[]|]; [|exact Hb]. destruct (fs !! from); [|exact Hb]. by apply backed_insert, backed_delete.
Qed.
(** Another process's file is left alone. *)
Lemma backed_others fs g g' o a : may g o -> backed fs g' -> (forall t, t ∈ hd_locks g -> t ∈ hd_locks g' -> False) -> backed (files_after fs o a) g'.
Proof.
  intros Hm Hb Hd. specialize (Hguard _ _ Hm). destruct o; cbn in *; try exact Hb; try done.
  - destruct a as [[]|]; [|exact Hb]. destruct (guarded path) as [t|] eqn:Eg; [|by apply backed_insert].
    intros p s Hp. destruct (Hb p s Hp) as (Hf & t' & Ht & Hin'). split; [|by exists t']. rewrite lookup_insert_ne; [done|].
    intros ->. apply (Hd t); [by apply Hguard|congruence].
  - destruct a as [[]|]; [|exact Hb]. destruct (guarded path) as [t|] eqn:Eg; [|by apply backed_delete].
    intros p s Hp. destruct (Hb p s Hp) as (Hf & t' & Ht & Hin'). split; [|by exists t']. rewrite lookup_delete_ne; [done|].
    intros ->. apply (Hd t); [by apply Hguard|congruence].
  - destruct Hguard as [H1 H2]. destruct a as [[]|]; [|exact Hb]. destruct (fs !! from); [|exact Hb]. by apply backed_insert, backed_delete.
Qed.
Lemma locks_step m i g o k a : mc_processes m !! i = Some (g, Do o k) -> answered (locked m) (mc_files m) o a ->
  NoDup (all_locks (mc_processes m)) -> NoDup (all_locks (<[i := (held_after g o a, k a)]> (mc_processes m))).
Proof.
  intros Hi Ha Hn. destruct (around _ _ _ Hi) as (l & r & Hp & _ & ->). rewrite all_locks_middle. rewrite Hp, all_locks_middle in Hn. cbn [fst] in *.
  destruct o; cbn in *; try exact Hn.
  - destruct a as [[]|]; [|exact Hn..]. apply NoDup_cons. split; [|exact Hn]. intros Ht. apply (Ha eq_refl).
    apply all_locks_in. rewrite Hp, all_locks_middle. exact Ht.
  - apply NoDup_app in Hn as (H1 & H2 & H3). apply NoDup_app. split; [by apply NoDup_filter|]. split; [|done].
    intros x [_ Hx]%list_elem_of_filter. by apply H2.
  - by destruct a as [[]|].
  - destruct a as [[]|]; [|done]. by destruct (guarded path).
  - by destruct (guarded path).
Qed.
Lemma sound_step m m' : Sound m -> machine_step m m' -> Sound m'.
Proof.
  intros [Hf Hl Hb] Hs. destruct Hs as [p Hp|i g o k a Hi Ha|i]; split; cbn [mc_processes mc_files].
  - apply Forall_app. split; [done|]. repeat constructor. by apply Hstart.
  - rewrite all_locks_app. cbn. by rewrite app_nil_r.
  - apply Forall_app. split; [done|]. apply Forall_singleton. by intros q s.
  - apply Forall_insert; [done|]. apply (Forall_lookup_1 _ _ _ _ Hf) in Hi. by apply Hi.
  - by apply locks_step.
  - apply (Forall_lookup_1 _ _ _ _ Hf) in Hi as Hm. destruct Hm as [Hm _].
    destruct (around _ _ _ Hi) as (l & r & Hp & _ & ->). rewrite Hp in Hb, Hl. rewrite all_locks_middle in Hl.
    apply Forall_app in Hb as [Hbl [Hbi Hbr]%Forall_cons]. apply NoDup_app in Hl as (_ & Hd & _).
    assert (forall x, x ∈ l \/ x ∈ r -> backed (mc_files m) x.1 -> backed (files_after (mc_files m) o a) x.1) as Ho.
    { intros [g' p'] Hx Hx2. eapply backed_others; [done|done|]. intros t Ht Ht'. apply (Hd t Ht).
      apply elem_of_app. destruct Hx as [Hx|Hx]; [left|right]; apply all_locks_in; by exists g', p'. }
    apply Forall_app. split; [|apply Forall_cons; split].
    + rewrite Forall_forall in Hbl |- *. intros x Hx. apply Ho; [by left|by apply Hbl].
    + by apply backed_step.
    + rewrite Forall_forall in Hbr |- *. intros x Hx. apply Ho; [by right|by apply Hbr].
  - by apply Forall_delete.
  - destruct (mc_processes m !! i) as [x|] eqn:Hi.
    + destruct (around _ _ _ Hi) as (l & r & Hp & -> & _). rewrite Hp, all_locks_middle in Hl. rewrite all_locks_app.
      by apply NoDup_app in Hl as (_ & _ & Hl).
    + rewrite delete_take_drop, drop_ge, take_ge, app_nil_r; [done|..]; apply lookup_ge_None in Hi; lia.
  - by apply Forall_delete.
Qed.
Lemma reachable_sound m : reachable m -> Sound m.
Proof.
  intros [fs Hr]. revert Hr. generalize (sound_start fs). generalize (machine_start fs). intros m0 H0 Hr.
  induction Hr as [|m0 m1 m2 Hs _ IH]; [done|]. apply IH. by eapply sound_step.
Qed.
(** ** Exclusion *)
Lemma locks_apart m i j g g' p p' t : Sound m -> mc_processes m !! i = Some (g, p) -> mc_processes m !! j = Some (g', p') ->
  t ∈ hd_locks g -> t ∈ hd_locks g' -> i = j.
Proof.
  intros [_ Hl _] Hi Hj Ht Ht'. destruct (decide (i = j)) as [|Hne]; [done|]. exfalso.
  destruct (around _ _ _ Hi) as (l & r & Hp & Hd & _). rewrite Hp, all_locks_middle in Hl. apply NoDup_app in Hl as (_ & H & _).
  apply (H t Ht). rewrite <- all_locks_app, <- Hd. apply all_locks_in. exists g', p'. split; [|done].
  destruct (decide (j < i)%nat) as [Hlt|Hge].
  - apply (list_elem_of_lookup_2 _ j). by rewrite list_lookup_delete_lt.
  - apply (list_elem_of_lookup_2 _ (j - 1)%nat). rewrite list_lookup_delete_ge by lia. by replace (S (j - 1)) with j by lia.
Qed.
Lemma at_next m i g o k : Sound m -> mc_processes m !! i = Some (g, Do o k) -> may g o.
Proof. intros [Hf _ _] Hi. by apply (Forall_lookup_1 _ _ _ _ Hf) in Hi as [H _]. Qed.
End Machine.

(** ** Awaiting under a protocol *)
Section Awaiting.
Context {G : Type} (allowed : G -> AdmOp -> Prop) (after : G -> forall o, AdmAns o -> G).
Abbreviation follows := (follows allowed after).
Lemma follows_try {A} (Q : G -> A + string -> Prop) g (p : AP (result string A)) :
  follows (fun g r => match r with inl (Ok a) => Q g (inl a) | inl (Err x) => Q g (inr x) | inr x => Q g (inr x) end) g p -> follows Q g (try_op p).
Proof. intros H. apply follows_bind. eapply follows_mono; [|exact H]. by intros g' [[a|x]|x]. Qed.
(** A cleanup that never throws runs once. *)
Lemma follows_finally {A} (Q : G -> A + string -> Prop) g (p : AP A) (f : AP unit) :
  follows (fun g r => follows (fun g u => match u with inl _ => Q g r | inr _ => False end) g f) g p -> follows Q g (finally p f).
Proof.
  intros H. unfold finally. apply follows_bind, follows_handle, follows_bind. eapply follows_mono; [|exact H].
  intros g1 [a|x] Hf; repeat apply follows_bind; (eapply follows_mono; [|exact Hf]); by intros g2 [[]|y].
Qed.
Lemma follows_both {A} (Q R : G -> A + string -> Prop) g (p : AP A) : follows Q g p -> follows R g p -> follows (fun g r => Q g r /\ R g r) g p.
Proof. revert g. induction p as [a|x|o k IH]; intros g; cbn; [done|done|]. intros [Ho Hq] [_ Hr]. split; [done|]. auto. Qed.
Lemma follows_attempt {A} (Q : G -> result string A + string -> Prop) g (p : AP A) :
  follows (fun g r => Q g (inl match r with inl a => Ok a | inr x => Err x end)) g p -> follows Q g (attempt p).
Proof. intros H. apply follows_handle, follows_bind. eapply follows_mono; [|exact H]. by intros g' [a|x]. Qed.
End Awaiting.

Lemma unlocked (t : string) (l : list string) : t ∉ l -> filter (fun x => x <> t) (t :: l) = l.
Proof.
  intros H. rewrite filter_cons_False by (intros Ht; by apply Ht). induction l as [|a l IH]; [done|].
  rewrite filter_cons_True by set_solver. f_equal. apply IH. set_solver.
Qed.
(** One answer. *)
Ltac go := cbn beta iota zeta delta [held_after Threads.follows].

(** ** Audits *)
Section Audits.
Context (home : string) (digest32 : string -> N).
Definition slot_lock (path : string) : option string :=
  if decide (path = activityPath home 0) then Some (admissionTarget home 0)
  else if decide (path = activityPath home 1) then Some (admissionTarget home 1) else None.
(** The audit of the key runs under the lock of its task. *)
Definition auditing (g : Held) (key : string) (task : string) : Prop :=
  hd_task g = Some task /\ cacheLockTarget home digest32 task key ∈ hd_locks g.
(** A slot is taken, and its file says for which session. *)
Definition admitted_slot (g : Held) (sessionId : string) (slot : nat) : Prop :=
  (slot < 2)%nat /\ admissionTarget home slot ∈ hd_locks g /\
  exists text p, hd_file g = Some (activityPath home slot, text) /\ decode_projection text = Some p /\
    pj_sessionId p = sessionId /\ pj_slot p = Z.of_nat slot.
Definition audit_may (g : Held) (o : AdmOp) : Prop :=
  match o with
  | WriteText p _ | Unlink p => exists t, slot_lock p = Some t /\ t ∈ hd_locks g
  | Rename _ _ | Claim _ => False
  | Review s key => (exists task, auditing g key task) /\ exists slot, admitted_slot g s slot
  | Single _ key => exists task, auditing g key task
  | _ => True
  end.
Abbreviation after := (held_after slot_lock).
Abbreviation afollows := (follows audit_may after).

(** Paths under the home differ where their rests do. *)
Ltac apart := unfold activityPath, admissionTarget, cacheLockTarget, admissionDir; rewrite !string_app_assoc; intros H%string_app_inj_l; vm_compute in H; discriminate H.
Lemma activity_paths_apart : activityPath home 1 <> activityPath home 0.
Proof. apart. Qed.
Lemma targets_apart : admissionTarget home 1 <> admissionTarget home 0.
Proof. apart. Qed.
Lemma slot_is_no_key slot task key : (slot < 2)%nat -> cacheLockTarget home digest32 task key <> admissionTarget home slot.
Proof.
  intros Hs. unfold cacheLockTarget. set (n := padded _). clearbody n.
  destruct slot as [|[|]]; [| |lia]; unfold admissionTarget, admissionDir; rewrite !string_app_assoc; intros H%string_app_inj_l; discriminate H.
Qed.
Lemma slot_lock_path slot : (slot < 2)%nat -> slot_lock (activityPath home slot) = Some (admissionTarget home slot).
Proof.
  intros H. unfold slot_lock. destruct slot as [|[|]]; [by rewrite decide_True| |lia].
  rewrite decide_False by apply activity_paths_apart. by rewrite decide_True.
Qed.
Lemma decode_own p : pj_expiresAtMs p - pj_createdAtMs p = ACTIVITY_FAST_PATH_MS -> decode_projection (stringify (projection_value p)) = Some p.
Proof.
  intros H. unfold decode_projection. rewrite parse_stringify by done. cbn [mbind option_bind projection_of projection_value obj_get].
  cbn. rewrite H. destruct p. done.
Qed.

(** ** The programs keep the protocol *)
(** As before, but for the file last written. *)
Definition back (g g' : Held) : Prop := hd_locks g' = hd_locks g /\ hd_task g' = hd_task g.
Lemma read_projection_follows (Q : Held -> ProjectionRead + string -> Prop) g path : (forall r, Q g (inl r)) -> afollows Q g (readProjection path).
Proof. intros H. split; [done|]. intros a. apply H. Qed.
Lemma remove_owned_follows g slot owner : (slot < 2)%nat -> admissionTarget home slot ∈ hd_locks g ->
  afollows (fun g' r => back g g' /\ exists u, r = inl u) g (removeProjectionIfOwned (activityPath home slot) owner).
Proof.
  intros Hs Hin. apply follows_bind, read_projection_follows. intros [| |p]; [split; [done|by eexists]..|].
  destruct (bool_decide _); [|split; [done|by eexists]]. split; [exists (admissionTarget home slot); split; [by apply slot_lock_path|done]|].
  intros a. split; [|by eexists]. cbn [held_after]. by destruct (slot_lock _).
Qed.
Lemma remove_equal_follows g slot owner : (slot < 2)%nat -> admissionTarget home slot ∈ hd_locks g ->
  afollows (fun g' r => back g g' /\ exists u, r = inl u) g (removeProjectionIfStillEqual (activityPath home slot) owner).
Proof.
  intros Hs Hin. apply follows_bind, read_projection_follows. intros [| |p]; [split; [done|by eexists]..|].
  destruct (bool_decide _); [|split; [done|by eexists]]. split; [exists (admissionTarget home slot); split; [by apply slot_lock_path|done]|].
  intros a. split; [|by eexists]. cbn [held_after]. by destruct (slot_lock _).
Qed.
Lemma acquire_follows (Q : Held -> option nat + string -> Prop) g slots slot : (slots + slot <= 2)%nat ->
  (forall s, (s < 2)%nat -> Q {| hd_locks := admissionTarget home s :: hd_locks g; hd_task := hd_task g; hd_file := hd_file g |} (inl (Some s))) ->
  Q g (inl None) -> (forall x, Q g (inr x)) -> afollows Q g (acquire_slot home slots slot).
Proof.
  revert slot. induction slots as [|slots IH]; intros slot Hn Hs Hno Hx; [exact Hno|]. cbn [acquire_slot].
  apply follows_bind, follows_try. split; [done|]. intros [[]|x]; cbn; [apply Hs; lia| |apply Hx]. apply IH; [lia|done|done|done].
Qed.
Lemma admission_follows {T} g sessionId (work : AP T) :
  (forall slot, (slot < 2)%nat -> admissionTarget home slot ∉ hd_locks g) ->
  (forall g' slot, (slot < 2)%nat -> hd_locks g' = admissionTarget home slot :: hd_locks g -> hd_task g' = hd_task g ->
     admitted_slot g' sessionId slot -> afollows (fun g2 _ => back g' g2) g' work) ->
  afollows (fun g' _ => back g g') g (withAuditFanoutAdmission home sessionId work).
Proof.
  intros Hfree Hwork. apply follows_bind, follows_try. split; [done|]. intros [[]|x]; [|done]. go.
  apply follows_bind, acquire_follows; [cbn; lia| |done|done]. intros slot Hs. set (g1 := {| hd_locks := _ |}).
  assert (Hin : forall g2, back g1 g2 -> admissionTarget home slot ∈ hd_locks g2) by (intros g2 [-> _]; by left).
  apply follows_finally. eapply (follows_mono _ _ (fun g2 _ => back g1 g2)).
  { intros g2 r Hb. destruct Hb as [Hl Ht]. split; [done|]. intros []. cbn. split; cbn; [|done]. rewrite Hl. cbn [hd_locks]. by apply unlocked, Hfree. }
  apply follows_bind. split; [done|]. intros now. apply follows_bind, follows_try. split; [done|]. intros [token|x]; [|done]. go.
  set (p := {| pj_token := token; pj_sessionId := sessionId; pj_slot := Z.of_nat slot; pj_createdAtMs := now; pj_expiresAtMs := (now : Z) + ACTIVITY_FAST_PATH_MS |}). apply follows_finally. apply (follows_mono _ _ (fun g2 _ => back g1 g2)).
  { intros g2 r Hb. eapply follows_mono; [|apply remove_owned_follows; [done|by apply Hin]].
    intros g3 u [[Hl Ht] [[] ->]]. destruct Hb. split; congruence. }
  apply follows_bind, follows_try. split; [exists (admissionTarget home slot); split; [by apply slot_lock_path|by left]|].
  intros [[]|x]; go; [|done]. rewrite slot_lock_path by done. eapply follows_mono; [|apply (Hwork _ slot Hs)]; [|done|done|].
  - intros g2 r [H1 H2]. by split.
  - split; [done|]. split; [by left|]. exists (stringify (projection_value p)), p. split; [done|]. split; [apply decode_own; cbn; lia|]. done.
Qed.
Lemma key_lock_follows {T} sessionId key (work : AP T) :
  (forall g task, hd_locks g = [cacheLockTarget home digest32 task key] -> hd_task g = Some task -> afollows (fun g2 _ => back g g2) g work) ->
  afollows (fun g _ => hd_locks g = []) nothing_held (withAuditCacheKeyLock home digest32 sessionId key work).
Proof.
  intros Hwork. apply follows_bind, follows_try. split; [done|]. intros [[task|]|x]; [|done|done]. go.
  apply follows_bind, follows_try. split; [done|]. intros [[]|x]; [|done]. go.
  apply follows_bind, follows_try. split; [done|]. intros [[]|x]; [|done|done]. cbn. apply follows_finally.
  eapply follows_mono; [|by apply (Hwork _ task)]. intros g2 r [Hl _]. split; [done|]. intros []. cbn. rewrite Hl. cbn [hd_locks]. by apply unlocked, not_elem_of_nil.
Qed.
Lemma fanout_follows sessionId key : afollows (fun g _ => hd_locks g = []) nothing_held (fanout_audit home digest32 sessionId key).
Proof.
  apply key_lock_follows. intros g task Hl Ht. apply admission_follows.
  - intros slot Hs. rewrite Hl. intros H%list_elem_of_singleton. by eapply slot_is_no_key.
  - intros g' slot Hs Hl' Ht' Ha. apply follows_try. split; [|by intros [v|x]].
    split; [|by exists slot]. exists task. split; [congruence|]. rewrite Hl', Hl. right. by left.
Qed.
Lemma single_follows sessionId key : afollows (fun g _ => hd_locks g = []) nothing_held (single_audit home digest32 sessionId key).
Proof.
  apply key_lock_follows. intros g task Hl Ht. apply follows_try. split; [|by intros [v|x]]. exists task. split; [done|]. rewrite Hl. by left.
Qed.
Lemma activity_follows sessionId now slots r g : (forall slot, slot ∈ slots -> (slot < 2)%nat) -> hd_locks g = [] ->
  afollows (fun g' r => hd_locks g' = [] /\ exists act, r = inl act) g (activity_slots home sessionId now slots r).
Proof.
  revert r g. induction slots as [|slot slots IH]; intros r g Hs Hg; [split; [done|by eexists]|]. cbn [activity_slots].
  assert (Hlt : (slot < 2)%nat) by (apply Hs; by left). apply follows_bind.
  apply (follows_mono _ _ (fun g' r => hd_locks g' = [] /\ exists act, r = inl act)).
  { intros g' r' [Hg' [act ->]]. apply IH; [|done]. intros s Hin. apply Hs. by right. }
  apply follows_bind, read_projection_follows. intros [| |p]; [split; [done|by eexists]..|].
  repeat case_match; try (split; [done|by eexists]). unfold recover_slot. apply follows_bind. split; [done|]. intros [[]|x]; [|split; [done|by eexists]].
  apply follows_bind. split; [done|]. intros [[]|x]; [|split; [done|by eexists]..]. apply follows_finally, follows_bind.
  eapply follows_mono; [|apply remove_equal_follows; [done|by left]]. intros g' u [[Hl _] [v ->]].
  split; [done|]. intros []. split; [|by eexists]. cbn [held_after hd_locks]. rewrite Hl. cbn [held_after hd_locks]. rewrite Hg. by apply unlocked, not_elem_of_nil.
Qed.

(** ** What an observer is told *)
(** A run against the files, with the given locks held by others. *)
Definition observed (L : string -> Prop) (g : gmap string string * Prop) (o : AdmOp) (a : AdmAns o) : gmap string string * Prop :=
  (files_after g.1 o a, g.2 /\ answered L g.1 o a).
Definition anything (g : gmap string string * Prop) (o : AdmOp) : Prop := True.
Definition flagged (r : AuditActivity) : bool := aa_active r || aa_unknown r.
Section Observer.
Context (L : string -> Prop) (sessionId : string) (now : Z) (k : nat) (text : string) (pr : AdmissionProjection).
Context (Hk : (k < 2)%nat) (HL : L (admissionTarget home k)) (Hdec : decode_projection text = Some pr)
  (Hses : pj_sessionId pr = sessionId) (Hslot : pj_slot pr = Z.of_nat k).
Abbreviation ofollows := (follows anything (observed L)).
Definition in_place (fs : gmap string string) : Prop := fs !! activityPath home k = Some text.
Definition placed (g : gmap string string * Prop) : Prop := g.2 -> in_place g.1.
Lemma placed_step g o a : placed g ->
  match o with WriteText p _ | Unlink p => p <> activityPath home k | Rename _ _ => False | _ => True end -> placed (observed L g o a).
Proof.
  intros Hg Ho [H2 _]. specialize (Hg H2). unfold in_place in *. destruct o; cbn in *; try exact Hg; try done.
  - destruct a as [[]|]; [|done]. by rewrite lookup_insert_ne.
  - destruct a as [[]|]; [|done]. by rewrite lookup_delete_ne.
Qed.
Lemma activity_path_inj j : (j < 2)%nat -> activityPath home j = activityPath home k -> j = k.
Proof.
  intros Hj E. destruct j as [|[|]], k as [|[|]]; try lia; exfalso; [by apply activity_paths_apart|by apply activity_paths_apart].
Qed.
Definition told (r : AuditActivity) (sees : Prop) (g : gmap string string * Prop) (r' : AuditActivity + string) : Prop :=
  placed g /\ (g.2 -> exists act, r' = inl act /\ (flagged r = true \/ sees -> flagged act = true)).
Lemma earlier {A} (p : AP A) g : ofollows (fun g' _ => g'.2 -> g.2) g p.
Proof.
  revert g. induction p as [a|x|o kk IH]; intros g; [intros H; exact H|intros H; exact H|]. split; [done|]. intros a. eapply follows_mono; [|apply IH].
  intros g' r H Hg'. by apply H in Hg' as [? _].
Qed.
(** Answers that cannot be given lead nowhere. *)
Lemma impossible {A} (p : AP A) g : ~ g.2 -> ofollows (fun g _ => ~ g.2) g p.
Proof. revert g. induction p as [a|x|o kk IH]; intros g Hg; [done..|]. split; [done|]. intros a. apply IH. by intros [? _]. Qed.
Lemma remove_told g slot p : (slot < 2)%nat -> slot <> k -> placed g ->
  ofollows (fun g' u => placed g' /\ exists v, u = inl v) g (removeProjectionIfStillEqual (activityPath home slot) p).
Proof.
  intros Hs Hne Hg. assert (activityPath home slot <> activityPath home k) as Hp by (intros E; by apply Hne, activity_path_inj).
  apply follows_bind, follows_bind. split; [done|]. intros a. cbn [mret prog_ret Threads.follows].
  assert (placed (observed L g (ReadText (activityPath home slot)) a)) as Hg1 by by apply placed_step.
  destruct a as [raw|code]; [destruct (decode_projection raw) as [q|]|destruct (code =? "ENOENT")%string].
  - destruct (bool_decide _); [|split; [done|by eexists]]. split; [done|]. intros b. split; [by apply placed_step|]. by eexists.
  - split; [done|by eexists].
  - split; [done|by eexists].
  - split; [done|by eexists].
Qed.
Lemma recover_told g slot p r : (slot < 2)%nat -> placed g -> ofollows (told r (slot = k)) g (recover_slot home slot p r).
Proof.
  intros Hs Hg. unfold recover_slot. apply follows_bind. split; [done|]. intros made.
  assert (placed (observed L g (MakeDir (admissionDir home)) made)) as Hg1 by by apply placed_step.
  assert (forall f, flagged (now_unknown (probed f r)) = true) as Hu by (intros f; apply orb_true_r).
  destruct made as [[]|x]; [|split; [done|]; intros _; eexists; split; [reflexivity|by intros _]].
  apply follows_bind. split; [done|]. intros probe.
  match goal with |- context [observed L ?g0 (TryLock ?t) probe] => assert (placed (observed L g0 (TryLock t) probe)) as Hg2 by by apply placed_step end.
  destruct probe as [[]|x].
  2,3: split; [done|]; intros _; eexists; split; [reflexivity|by intros _].
  go. destruct (decide (slot = k)) as [->|Hne].
  - eapply follows_mono; [|apply impossible; intros [_ H]; by apply H].
    intros g' u Hg'. split; intros H; by destruct (Hg' H).
  - apply follows_finally, follows_bind. eapply follows_mono; [|by apply remove_told]. intros g' u [Hg' [v ->]].
    split; [done|]. intros []. split; [by apply placed_step|]. intros _. eexists. split; [reflexivity|].
    intros [Hr|?]; [|done]. destruct v; [exact Hr|apply orb_true_r..].
Qed.
Lemma slot_told g slot r : (slot < 2)%nat -> placed g -> ofollows (told r (slot = k)) g (activity_slot home sessionId now slot r).
Proof.
  intros Hs Hg. unfold activity_slot. apply follows_bind, follows_bind. split; [done|]. intros a. cbn [mret prog_ret Threads.follows].
  match goal with |- context [observed L g (ReadText ?t) a] => assert (placed (observed L g (ReadText t) a)) as Hg1 by by apply placed_step end.
  assert (Hread : slot = k -> (observed L g (ReadText (activityPath home slot)) a).2 -> a = Ok text \/ exists code, a = Err code /\ code <> "ENOENT").
  { intros -> [H2 Ha]. specialize (Hg H2). unfold in_place in Hg. cbn in Ha. destruct a as [raw|code]; [left; congruence|right].
    exists code. split; [done|]. intros E. specialize (Ha E). congruence. }
  assert (forall act, (flagged r = true \/ ((observed L g (ReadText (activityPath home slot)) a).2 /\ slot = k) -> flagged act = true) ->
    told r (slot = k) (observed L g (ReadText (activityPath home slot)) a) (inl act)) as Hdone.
  { intros act Ha. split; [done|]. intros H2. exists act. split; [done|]. intros [?|?]; apply Ha; [by left|by right]. }
  destruct a as [raw|code]; [destruct (decode_projection raw) as [q|] eqn:Eq|destruct (String.eqb_spec code "ENOENT") as [->|Hc]].
  - destruct (pj_slot q =? Z.of_nat slot) eqn:E1; cbn [negb]; [|apply Hdone; intros _; apply orb_true_r].
    destruct (pj_sessionId q =? sessionId)%string eqn:E2; cbn [negb].
    + destruct (_ && _); [by apply Hdone|]. eapply follows_mono; [|by apply recover_told].
      intros g' r' [H1 H2]. split; [done|]. exact H2.
    + apply Hdone. intros [?|[H2 ->]]; [done|]. destruct (Hread eq_refl H2) as [[= ->]|(? & [=] & _)].
      apply String.eqb_neq in E2. congruence.
  - apply Hdone. intros _. apply orb_true_r.
  - apply Hdone. intros [?|[H2 ->]]; [done|]. destruct (Hread eq_refl H2) as [[=]|(? & [= <-] & ?)]. done.
  - apply Hdone. intros _. apply orb_true_r.
Qed.
Lemma slots_told g slots r : (forall slot, slot ∈ slots -> (slot < 2)%nat) -> placed g ->
  ofollows (told r (k ∈ slots)) g (activity_slots home sessionId now slots r).
Proof.
  revert g r. induction slots as [|slot slots IH]; intros g r Hs Hg; cbn [activity_slots].
  { split; [done|]. intros _. exists r. split; [done|]. by intros [?|[]%elem_of_nil]. }
  apply follows_bind. eapply follows_mono; [|apply slot_told; [apply Hs; by left|done]].
  intros g' [act|x] [Hg' Ht]; [|split; [done|]; intros H2; by destruct (Ht H2) as (? & [=] & _)].
  apply (follows_mono _ _ (fun g2 r2 => told act (k ∈ slots) g2 r2 /\ (g2.2 -> g'.2))).
  - intros g2 r2 [[H1 H2] H3]. split; [done|]. intros Hg2. destruct (H2 Hg2) as (a2 & -> & Ha2). exists a2. split; [done|].
    destruct (Ht (H3 Hg2)) as (a1 & [= <-] & Ha1). intros [Hr|[->|Hin]%elem_of_cons]; apply Ha2; [left; apply Ha1; by left|left; apply Ha1; by right|by right].
  - apply follows_both; [|apply earlier]. apply IH; [|done]. intros s Hin. apply Hs. by right.
Qed.
Lemma never_idle fs : in_place fs -> ofollows (fun g r => g.2 -> exists act, r = inl act /\ flagged act = true) (fs, True) (readAuditActivity home sessionId now).
Proof.
  intros Hf. eapply follows_mono; [|apply slots_told; [|by intros _]].
  - intros g r [_ H] Hg. destruct (H Hg) as (act & -> & Ha). exists act. split; [done|]. apply Ha. right.
    apply list_elem_of_In, in_seq. unfold AUDIT_FANOUT_SLOTS. lia.
  - intros slot [_ Hin]%list_elem_of_In%in_seq. unfold AUDIT_FANOUT_SLOTS in Hin. lia.
Qed.
End Observer.

(** ** Every process of a machine *)
Definition audit_process (p : AP unit) : Prop :=
  (exists s key, p = fanout_audit home digest32 s key ≫= fun _ => mret tt) \/
  (exists s key, p = single_audit home digest32 s key ≫= fun _ => mret tt) \/
  (exists s now, p = readAuditActivity home s now ≫= fun _ => mret tt).
Definition audits_reachable : Machine -> Prop := reachable slot_lock audit_process.
Definition next_op (x : Held * AP unit) : option AdmOp := match x.2 with Do o _ => Some o | _ => None end.
Definition reviews (x : Held * AP unit) : bool := match next_op x with Some (Review _ _) => true | _ => false end.
(** The process is about to run the audit of this key, for this task. *)
Definition audits (x : Held * AP unit) (task key : string) : Prop :=
  hd_task x.1 = Some task /\ exists s, next_op x = Some (Review s key) \/ next_op x = Some (Single s key).
Abbreviation sound := (Sound slot_lock audit_may (fun g _ => hd_locks g = [])).
Lemma audits_sound m : audits_reachable m -> sound m.
Proof.
  apply reachable_sound.
  - intros p [(s & key & ->)|[(s & key & ->)|(s & now & ->)]]; apply follows_bind.
    + eapply follows_mono; [|apply fanout_follows]. by intros g [v|x].
    + eapply follows_mono; [|apply single_follows]. by intros g [v|x].
    + eapply follows_mono; [|apply activity_follows; [|done]].
      * intros g r [Hg [act ->]]. exact Hg.
      * intros slot [_ Hin]%list_elem_of_In%in_seq. unfold AUDIT_FANOUT_SLOTS in Hin. lia.
  - intros g o. destruct o; cbn; try done; intros (t & Ht & Hin) t' Ht'; congruence.
Qed.
Lemma review_slot m x : sound m -> x ∈ mc_processes m -> reviews x = true -> exists s key, next_op x = Some (Review s key) /\
  (exists task, auditing x.1 key task) /\ exists slot, admitted_slot x.1 s slot.
Proof.
  intros [Hf _ _] Hx Hr. rewrite Forall_forall in Hf. specialize (Hf x Hx). destruct x as [g [a|y|o k]]; [done..|].
  destruct o; try done. destruct Hf as [[Ht Hs] _]. by eexists _, _.
Qed.
(** The slot of a process that reviews. *)
Definition slot_of (x : Held * AP unit) : nat := if decide (admissionTarget home 0 ∈ hd_locks x.1) then 0 else 1.
Lemma slots_differ ps : (forall x, x ∈ ps -> reviews x = true -> exists slot, (slot < 2)%nat /\ admissionTarget home slot ∈ hd_locks x.1) ->
  NoDup (all_locks ps) -> NoDup (map slot_of (filter (fun x => reviews x = true) ps)).
Proof.
  intros Hs. induction ps as [|x ps IH]; [constructor|]. intros Hl. change (all_locks (x :: ps)) with (hd_locks x.1 ++ all_locks ps) in Hl.
  apply NoDup_app in Hl as (_ & Hd & Hl). specialize (IH (fun y Hy => Hs y (list_elem_of_further _ _ _ Hy)) Hl).
  rewrite filter_cons. case_decide as Hr; [|done]. cbn [map]. apply NoDup_cons. split; [|done].
  assert (Hown : forall y, y ∈ x :: ps -> reviews y = true -> admissionTarget home (slot_of y) ∈ hd_locks y.1).
  { intros y Hy Hry. unfold slot_of. case_decide as H0; [done|]. destruct (Hs y Hy Hry) as ([|[|]] & ? & ?); [done|done|lia]. }
  intros (y & Hy & Hin)%list_elem_of_fmap. apply list_elem_of_filter in Hin as [Hry Hin].
  apply (Hd (admissionTarget home (slot_of x))); [apply Hown; [by left|done]|]. rewrite Hy. apply all_locks_in.
  destruct y as [g p]. exists g, p. split; [done|]. apply (Hown (g, p)); [by right|done].
Qed.
Lemma two_reviews m : sound m -> (List.length (filter (fun x => reviews x = true) (mc_processes m)) <= 2)%nat.
Proof.
  intros Hm. rewrite <- (length_map slot_of). change 2%nat with (List.length [0; 1]%nat). apply submseteq_length, NoDup_submseteq.
  - apply slots_differ; [|apply Hm]. intros x Hx Hr. destruct (review_slot m x Hm Hx Hr) as (s & key & _ & _ & slot & Hs & Hin & _). eauto.
  - intros n (y & -> & _)%list_elem_of_fmap. unfold slot_of. case_decide; set_solver.
Qed.
Lemma audits_hold m x task key : sound m -> x ∈ mc_processes m -> audits x task key -> cacheLockTarget home digest32 task key ∈ hd_locks x.1.
Proof.
  intros [Hf _ _] Hx (Ht & s & Hn). rewrite Forall_forall in Hf. specialize (Hf x Hx).
  destruct x as [g [a|y|o k]]; [by destruct Hn|by destruct Hn|]. cbn in *.
  destruct Hn as [[= ->]|[= ->]]; destruct Hf as [Hm _]; [destruct Hm as [Hm _]|]; destruct Hm as (task' & Ht' & Hin); congruence.
Qed.
End Audits.

(** C10: Audits are admitted: however audits and observers of a machine interleave, fail and die, at most two fan-outs run; two
    processes never run an audit of one task and key at once; a process that has ended, or thrown, holds no lock; and while a
    fan-out of a session runs, an observer of that session who looks is told that it is active or unknown, never that it is idle. *)
Theorem audits_admitted home digest32 m : audits_reachable home digest32 m ->
  (List.length (filter (fun x => reviews x = true) (mc_processes m)) <= 2)%nat /\
  (forall i j x y task key, mc_processes m !! i = Some x -> mc_processes m !! j = Some y -> audits x task key -> audits y task key -> i = j) /\
  (forall x, x ∈ mc_processes m -> next_op x = None -> hd_locks x.1 = []) /\
  forall x s key now, x ∈ mc_processes m -> next_op x = Some (Review s key) ->
    follows anything (observed (locked m)) (fun g r => g.2 -> exists act, r = inl act /\ aa_active act || aa_unknown act = true)
      (mc_files m, True) (readAuditActivity home s now).
Proof.
  intros Hm%audits_sound. split; [by eapply two_reviews|]. split; [|split].
  - intros i j x y task key Hi Hj Hx Hy. pose proof (audits_hold _ _ _ _ _ _ Hm (list_elem_of_lookup_2 _ _ _ Hi) Hx) as H1.
    pose proof (audits_hold _ _ _ _ _ _ Hm (list_elem_of_lookup_2 _ _ _ Hj) Hy) as H2. destruct x as [g p], y as [g' p']. by eapply locks_apart.
  - intros x Hx Hn. destruct Hm as [Hf _ _]. rewrite Forall_forall in Hf. specialize (Hf x Hx). destruct x as [g [a|y|o k]]; [exact Hf..|done].
  - intros x s key now Hx Hn. destruct (review_slot home digest32 m x Hm Hx) as (s' & key' & Hn' & _ & slot & Hslot & Hin & text & p & Hfile & Hd & Hp & Hps).
    { unfold reviews. by rewrite Hn. }
    rewrite Hn in Hn'. injection Hn' as <- <-. destruct Hm as [_ _ Hb]. rewrite Forall_forall in Hb.
    destruct (Hb x Hx _ _ Hfile) as [Hf _]. eapply never_idle; try done. destruct x as [g q]. by exists g, q.
Qed.

(** ** Loops *)
(** Programs that neither lock nor claim. *)
Definition lockless (o : AdmOp) : bool :=
  match o with TryLock _ | Unlock _ | Claim _ | Review _ _ | Single _ _ => false | _ => true end.
Fixpoint no_locks {A} (p : AP A) : Prop := match p with Do o k => lockless o = true /\ forall a, no_locks (k a) | _ => True end.
Lemma no_locks_bind {A B} (p : AP A) (f : A -> AP B) : no_locks p -> (forall a, no_locks (f a)) -> no_locks (p ≫= f).
Proof. induction p as [a|x|o k IH]; intros Hp Hf; [apply Hf|done|]. destruct Hp as [Ho Hk]. split; [done|]. intros a. by apply IH. Qed.
Lemma no_locks_ask o : lockless o = true -> no_locks (ask o : AP (AdmAns o)).
Proof. by intros. Qed.
Lemma no_locks_awaited {A} (p : AP (result string A)) : no_locks p -> no_locks (try_op p).
Proof. intros H. apply no_locks_bind; [done|]. by intros [a|x]. Qed.
Lemma no_locks_attempt {A} (p : AP A) : no_locks p -> no_locks (attempt p).
Proof. unfold attempt. induction p as [a|x|o k IH]; intros Hp; [done..|]. destruct Hp as [Ho Hk]. split; [done|]. intros a. by apply IH. Qed.
Ltac no_locks :=
  repeat first
    [ done
    | apply no_locks_bind; [|intros ?]
    | apply no_locks_awaited
    | apply no_locks_attempt
    | match goal with |- no_locks (match ?x with _ => _ end) => destruct x end
    | progress intros ].

Section Owner.
Context (windows : bool) (platform : string) (getuid : option Z) (username homedir : string) (sha256 : string -> string).
Definition unguarded (path : string) : option string := None.
Definition owner_may (g : Held) (o : AdmOp) : Prop :=
  match o with Claim store => ownerLock store ∈ hd_locks g | Review _ _ | Single _ _ => False | _ => True end.
Abbreviation rfollows := (follows owner_may (held_after unguarded)).
Lemma lockless_after g o a : lockless o = true -> hd_locks (held_after unguarded g o a) = hd_locks g.
Proof. destruct o; cbn; try done; intros _; by destruct a as [[]|]. Qed.
Lemma lockless_follows {A} (p : AP A) g (Q : Held -> A + string -> Prop) : no_locks p -> (forall g' r, hd_locks g' = hd_locks g -> Q g' r) -> rfollows Q g p.
Proof.
  revert g. induction p as [a|x|o k IH]; intros g Hp HQ; [by apply HQ..|]. destruct Hp as [Ho Hk]. split; [by destruct o|].
  intros a. apply IH; [done|]. intros g' r Hg. apply HQ. rewrite Hg. by apply lockless_after.
Qed.
Lemma directory_no_locks create : no_locks (verifyEndpointDirectory windows getuid username homedir sha256 create).
Proof. unfold verifyEndpointDirectory. no_locks. Qed.
Lemma probe_no_locks endpoint : no_locks (probeEndpoint endpoint).
Proof. unfold probeEndpoint, validateHandshake. no_locks. Qed.
Lemma publish_no_locks store owner endpoint : no_locks (publishProjection store owner endpoint).
Proof. unfold publishProjection. no_locks. Qed.
Lemma projected_no_locks store : no_locks (readProjectedOwner store).
Proof. unfold readProjectedOwner. no_locks. Qed.
Lemma quarantine_no_locks endpoint : no_locks (quarantineRefusedSocket endpoint).
Proof. unfold quarantineRefusedSocket. no_locks. Qed.

Section Project.
Context (project : LoopOwnerProject) (beforeListen : AP unit) (Hhook : no_locks beforeListen).
Abbreviation L := (ownerLock (lo_storeRoot project)).
Definition outcome (g : Held) (r : AcquireLoopOwnerResult + string) : Prop :=
  match r with
  | inl (AcquiredLease _) | inl StillBinding => hd_locks g = [L]
  | inl (Occupied _ _) => hd_locks g = []
  | inr _ => hd_locks g = [] \/ hd_locks g = [L]
  end.
Lemma close_follows {A} g (p : AP A) (Q : Held -> A + string -> Prop) : hd_locks g = [L] ->
  (forall g', hd_locks g' = [] -> rfollows Q g' p) -> rfollows Q g (closeAdmissionLock project ≫= fun _ => p).
Proof. intros Hg HQ. split; [done|]. intros []. apply HQ. cbn [held_after hd_locks]. rewrite Hg. by apply unlocked, not_elem_of_nil. Qed.
(** A quiet program first. *)
Lemma quiet_first {A B} g l (p : AP A) (f : A -> AP B) Q : no_locks p -> hd_locks g = l ->
  (forall g' a, hd_locks g' = l -> rfollows Q g' (f a)) -> (forall g' x, hd_locks g' = l -> Q g' (inr x)) -> rfollows Q g (p ≫= f).
Proof. intros Hp <- Hf Hx. apply follows_bind, lockless_follows; [done|]. intros g' [a|x] Hg; [by apply Hf|by apply Hx]. Qed.
Abbreviation bind := (bind_endpoint windows platform getuid username homedir sha256 project).
Lemma bind_follows turns owner g : hd_locks g = [L] -> rfollows outcome g (bind turns owner).
Proof.
  revert g. induction turns as [|turns IH]; intros g Hg; [exact Hg|]. cbn [bind_endpoint].
  apply (quiet_first _ [L]); [done|done| |by right]. intros g1 [[]|code] Hg1.
  - apply (quiet_first _ [L]); [apply publish_no_locks|done| |by right]. intros g2 [] Hg2. exact Hg2.
  - apply (quiet_first _ [L]); [done|done| |by right]. intros g2 [] Hg2.
    destruct (negb (code =? "EADDRINUSE")%string); [apply close_follows; [done|]; by left|].
    apply (quiet_first _ [L]); [apply probe_no_locks|done| |by right]. intros g3 [other|refused|x] Hg3.
    + apply (quiet_first _ [L]); [apply publish_no_locks|done| |by right]. intros g4 [] Hg4. by apply close_follows.
    + destruct (negb windows && refused); [|by apply close_follows].
      apply (quiet_first _ [L]); [apply quarantine_no_locks|done| |by right]. intros g4 [] Hg4; [by apply IH..|by apply close_follows].
    + by apply close_follows.
Qed.
Lemma admitted_follows turns g : hd_locks g = [L] ->
  rfollows outcome g (admitted windows platform getuid username homedir sha256 project beforeListen turns).
Proof.
  intros Hg. unfold admitted. apply (quiet_first _ [L]); [done|done| |by right]. intros g1 pid Hg1.
  apply (quiet_first _ [L]); [done|done| |by right]. intros g2 [start|x] Hg2; [|apply close_follows; [done|]; by left].
  apply (quiet_first _ [L]); [apply projected_no_locks|done| |by right]. intros g3 previous Hg3.
  apply (quiet_first _ [L]); [unfold validateHandshake; no_locks|done| |by right]. intros g4 [p|] Hg4; [by apply close_follows|].
  apply (quiet_first _ [L]); [by apply no_locks_attempt|done| |by right]. intros g5 [[]|x] Hg5; [by apply bind_follows|by apply close_follows].
Qed.
Lemma acquire_loop_follows turns : rfollows outcome nothing_held (acquireLoopOwner windows platform getuid username homedir sha256 project beforeListen turns).
Proof.
  unfold acquireLoopOwner. apply (quiet_first _ []); [apply directory_no_locks|done| |by left]. intros g1 ready Hg1.
  apply (quiet_first _ []); [apply probe_no_locks|done| |by left]. intros g2 [owner|refused|x] Hg2.
  - apply (quiet_first _ []); [apply publish_no_locks|done| |by left]. by intros g3 [] Hg3.
  - apply follows_bind, follows_try. split; [done|]. intros [[]|x]; go; [by apply admitted_follows; cbn; rewrite Hg2| |by left].
    apply (quiet_first _ []); [apply probe_no_locks|done| |by left]. intros g3 [owner|refused'|x] Hg3; [|exact Hg3..].
    apply (quiet_first _ []); [apply publish_no_locks|done| |by left]. by intros g4 [] Hg4.
  - exact Hg2.
Qed.
Lemma claims_follow n g : hd_locks g = [L] -> rfollows (fun g' r => hd_locks g' = [L] /\ r = inl tt) g (claim_items project n).
Proof.
  revert g. induction n as [|n IH]; intros g Hg; [done|]. cbn [claim_items]. split; [cbn; rewrite Hg; by left|]. intros []. by apply IH.
Qed.
Lemma loop_follows turns claims :
  rfollows (fun _ _ => True) nothing_held (loop_process windows platform getuid username homedir sha256 project beforeListen turns claims).
Proof.
  apply follows_bind. eapply follows_mono; [|apply acquire_loop_follows]. intros g [[owner|o x|]|x] Hg; [|done..].
  apply follows_bind. eapply follows_mono; [|by apply claims_follow]. intros g1 r [Hg1 ->]. split; [done|]. intros []. by split.
Qed.
End Project.

Definition loop_starts (p : AP unit) : Prop :=
  exists project hook turns claims, no_locks hook /\ p = loop_process windows platform getuid username homedir sha256 project hook turns claims.
Definition loops_reachable : Machine -> Prop := reachable unguarded loop_starts.
Definition lease_after (es : list LeaseEvent) : Lease := foldl lease_event newLease es.
Lemma inactive_stays l e : isActive l = false -> isActive (lease_event l e) = false.
Proof. unfold isActive. destruct l as [[] [] [] [] []], e; done. Qed.
Lemma lease_falls es l : isActive l = false -> isActive (foldl lease_event l es) = false.
Proof. revert l. induction es as [|e es IH]; intros l Hl; [done|]. by apply IH, inactive_stays. Qed.
Lemma lease_exact es : isActive (lease_after es) = true <-> es = [].
Proof.
  split; [|by intros ->]. destruct es as [|e es]; [done|]. unfold lease_after. cbn [foldl].
  rewrite lease_falls; [done|]. by destruct e.
Qed.
End Owner.

(** C11: A project has one loop: however loop processes interleave, fail and die, no two of them are about to claim from one store;
    an acquisition that reports the project occupied holds no lock, and one that acquires holds exactly the project's; and the
    fence of a lease is up exactly until the first thing that happens to it, be it an error or the end of the server, of the lock
    or of the lease. *)
Theorem one_loop_per_project windows platform getuid username homedir sha256 m : loops_reachable windows platform getuid username homedir sha256 m ->
  (forall i j x y store, mc_processes m !! i = Some x -> mc_processes m !! j = Some y ->
     next_op x = Some (Claim store) -> next_op y = Some (Claim store) -> i = j) /\
  (forall project hook turns, no_locks hook -> follows owner_may (held_after unguarded) (outcome project) nothing_held
     (acquireLoopOwner windows platform getuid username homedir sha256 project hook turns)) /\
  forall es, isActive (lease_after es) = true <-> es = [].
Proof.
  intros Hm. split; [|split; [|apply lease_exact]].
  - assert (Sound unguarded owner_may (fun _ _ => True) m) as Hs.
    { revert Hm. apply reachable_sound; [|intros g o; by destruct o].
      intros p (project & hook & turns & claims & Hh & ->). by apply loop_follows. }
    intros i j [g p] [g' p'] store Hi Hj Hx Hy. destruct p as [| |o k], p' as [| |o' k']; try done.
    cbn in Hx, Hy. injection Hx as ->. injection Hy as ->.
    pose proof (at_next _ _ _ _ _ _ _ _ Hs Hi) as H1. pose proof (at_next _ _ _ _ _ _ _ _ Hs Hj) as H2. by eapply locks_apart.
  - intros project hook turns Hh. by apply acquire_loop_follows.
Qed.

(** ** A projection that cannot be written *)
(** The lock and the server of an acquisition that throws after it has listened stay with the process. *)
Fixpoint run_with {A} (f : forall o, AdmAns o) (g : Held) (p : AP A) : Held * (A + string) :=
  match p with Ret a => (g, inl a) | Throw x => (g, inr x) | Do o k => run_with f (held_after unguarded g o (f o)) (k (f o)) end.
Definition full_disk (o : AdmOp) : AdmAns o :=
  match o return AdmAns o with
  | TryLock _ => Ok true | Unlock _ | CloseServer | Claim _ => tt | Clock | Pid => 7
  | Stat _ => Ok {| fi_directory := true; fi_link := false; fi_socket := false; fi_mode := 448; fi_uid := 501 |}
  | Token | Identity _ | Review _ _ | Single _ _ => Ok "start" | ReadText _ => Err "ENOENT" | ResolveTask _ => Ok None
  | Dial _ => Failed false "ENOENT" "no such file" | WriteText _ _ => Err "ENOSPC"
  | MakeDir _ | MakePrivateDir _ | Unlink _ | Rename _ _ | Listen _ => Ok tt
  end.
Lemma failed_publish_keeps_lock :
  let r := run_with full_disk nothing_held (acquireLoopOwner false "linux" (Some 501) "" "" (fun s => s)
    {| lo_targetRepoRoot := "/work"; lo_storeRoot := "/store" |} (mret tt) 1) in
  hd_locks r.1 = [ownerLock "/store"] /\ r.2 = inr "ENOSPC".
Proof. split; vm_compute; reflexivity. Qed.

(** ** Demonstrations *)
(** A process alone, answered by [f], for [n] operations. *)
Section Alone.
Context (guarded : string -> option string) (starts : AP unit -> Prop) (f : forall o, AdmAns o).
Definition possible (g : Held) (fs : gmap string string) (o : AdmOp) : bool :=
  match o with TryLock t => bool_decide (t ∉ hd_locks g)
  | ReadText p => match f (ReadText p) with Ok _ => false | Err code => negb (code =? "ENOENT")%string end | _ => true end.
Fixpoint run_alone (n : nat) (g : Held) (p : AP unit) (fs : gmap string string) : Machine :=
  match n, p with
  | S n, Do o k => if possible g fs o then run_alone n (held_after guarded g o (f o)) (k (f o)) (files_after fs o (f o)) else {| mc_processes := [(g, p)]; mc_files := fs |}
  | _, _ => {| mc_processes := [(g, p)]; mc_files := fs |}
  end.
Lemma run_alone_steps n g p fs : rtc (machine_step guarded starts) {| mc_processes := [(g, p)]; mc_files := fs |} (run_alone n g p fs).
Proof.
  revert g p fs. induction n as [|n IH]; intros g p fs; [constructor|]. destruct p as [a|x|o k]; cbn [run_alone]; [constructor..|].
  destruct (possible g fs o) eqn:Ep; [|constructor]. eapply rtc_l; [|apply IH].
  apply (process_runs _ _ {| mc_processes := [(g, Do o k)]; mc_files := fs |} 0%nat g o k (f o)); [done|].
  destruct o; cbn in *; try done.
  - intros _ (g' & p' & [= -> ->]%list_elem_of_singleton & Hin). by apply bool_decide_eq_true in Ep.
  - destruct (f (ReadText path)) as [s|code]; [done|]. intros ->. done.
Qed.
Lemma alone_reachable n p : starts p -> reachable guarded starts (run_alone n nothing_held p ∅).
Proof.
  intros Hp. exists ∅. eapply rtc_l; [by apply (process_spawns _ _ (machine_start ∅) p)|]. apply run_alone_steps.
Qed.
End Alone.
Definition granting (o : AdmOp) : AdmAns o :=
  match o return AdmAns o with
  | TryLock _ => Ok true | Unlock _ | CloseServer | Claim _ => tt | Clock | Pid => 7
  | Stat _ => Ok {| fi_directory := true; fi_link := false; fi_socket := false; fi_mode := 448; fi_uid := 501 |}
  | Token | Identity _ | Review _ _ | Single _ _ | ReadText _ => Ok "start" | ResolveTask _ => Ok (Some "task")
  | Dial _ => Failed false "ENOENT" "no such file"
  | MakeDir _ | MakePrivateDir _ | Unlink _ | Rename _ _ | Listen _ | WriteText _ _ => Ok tt
  end.
Definition fanout_machine : Machine :=
  run_alone (slot_lock "/home") granting 8 nothing_held (fanout_audit "/home" (fun _ => 0%N) "session" "key" ≫= fun _ => mret tt) ∅.
Lemma audits_admitted_witness : map next_op (mc_processes fanout_machine) = [Some (Review "session" "key")] /\
  (List.length (filter (fun x => reviews x = true) (mc_processes fanout_machine)) <= 2)%nat.
Proof.
  split; [vm_compute; reflexivity|]. apply (audits_admitted "/home" (fun _ => 0%N) fanout_machine).
  apply alone_reachable. left. exists "session", "key". reflexivity.
Defined.
Definition loop_machine : Machine :=
  run_alone unguarded (fun o => match o with ReadText p => Err "EACCES" | o => granting o end) 9 nothing_held
    (loop_process false "linux" (Some 501) "" "" (fun s => s) {| lo_targetRepoRoot := "/work"; lo_storeRoot := "/store" |} (mret tt) 1 2) ∅.
Lemma one_loop_per_project_witness : map next_op (mc_processes loop_machine) = [Some (Claim "/store")] /\
  forall i j x y, mc_processes loop_machine !! i = Some x -> mc_processes loop_machine !! j = Some y ->
  next_op x = Some (Claim "/store") -> next_op y = Some (Claim "/store") -> i = j.
Proof.
  split; [vm_compute; reflexivity|]. intros i j x y. apply (one_loop_per_project false "linux" (Some 501) "" "" (fun s => s) loop_machine).
  apply alone_reachable. exists {| lo_targetRepoRoot := "/work"; lo_storeRoot := "/store" |}, (mret tt), 1%nat, 2%nat. split; [exact I|reflexivity].
Defined.
